(* ===== verification/_CoqProject ===== *)
-Q . S2P
Prelude.v
Checked.v
Bitmap.v
GenerationArray.v
ClassTable.v
SourceIdentity.v
Bytes.v
Crc32c.v
LittleEndian.v
TopicPartition.v
ManifestFormat.v
ManifestCodec.v
SegmentFormat.v
SegmentRecovery.v
SegmentScan.v
SegmentRepair.v
SegmentWriter.v
SegmentLog.v
SegmentGrowth.v
SlabHeader.v
CentralSlab.v
SlabLifecycle.v
SlabLayout.v
SlabCalls.v
WireAead.v
WireFrame.v
FrameStream.v
ControlPayload.v
DedupWindow.v
RetransmitWindow.v
PendingReliable.v
SendAttempts.v
BridgeSender.v
AckQueue.v
DedupSession.v
DedupStore.v
DurableFile.v
PartitionManifest.v
ManifestSafety.v
TopicWriter.v
TopicGaps.v
TopicLog.v
TopicSteps.v
TopicStory.v
BufferPool.v
BufferPoolHeap.v
BufferPoolSafety.v
BufferPoolStory.v
RetentionPlanner.v
Retention.v
RetentionSafety.v
RetentionStory.v
DurableStore.v
BridgeReceiver.v
BridgeSystem.v
MpmcRing.v
MpmcRingSafety.v
UpgradePlan.v
UpgradeManifest.v
UpgradeCodec.v
UpgradeStore.v
UpgradeOrchestrator.v
UpgradeStory.v
