(* ===== verification/Prelude.v ===== *)
(** * Verification of Mino

    Mino is a message bus in C++: processes of one host exchange objects through
    shared memory, and bridges carry them to other hosts.  This library models the parts
    of it that decide whether a message arrives, once and unchanged, and proves what
    they promise.  Paths below are relative to [src/].

    ** The program

    - _Shared memory_ ([mino/shm]).  A region holds a slab allocator (a class table
      that cuts the slots into size classes, a sharded bitmap of the slots in use, a
      generation per slot that makes stale handles recognisable) and channels that pass
      handles between processes.  The channels rest on a bounded ring for several
      producers and consumers.
    - _Bridge_ ([mino/bridge]).  A pipeline per connection.  The sender gives every
      reliable frame a sequence number within its source, keeps it in the retransmission
      window until it is acknowledged, and sends it again when a connection is lost.  The
      receiver checks each frame against the deduplication window, publishes it, reports
      the accepted mark to a durable store and acknowledges it.  Frames are encoded by the
      canonical wire codec, protected by a CRC-32C or by AES-256-GCM, and cut out of a
      byte stream by the length-prefixed decoder.
    - _Recording_ ([mino/storage]).  Topics are recorded in segment files: a header and
      records, each with lengths, CRCs and a commit marker at its end.  A writer appends
      batches under a sync policy; after a crash the recovery scans a segment, and cuts off
      a torn tail when nothing in it was committed.  A manifest per partition, replaced
      atomically, lists the segments and a durable checkpoint.  Producers hand their records
      to a bounded buffer pool, whose policy says what happens when it is full.  A topic writer
      takes the buffers of one partition, drops duplicates, records gaps, rotates segments through the
      manifest and acknowledges records as written and as durable.  Retention plans which segments
      to delete; readers pin segments with leases; an executor marks segments in the manifest and
      removes their files.
    - _Rolling upgrade_ ([mino/upgrade]).  An orchestrator moves the publishers of a set of
      topics from one region to another: prepare, validate, drain, cutover, observe, commit.  Each
      step asks a control plane for a proof or a side effect and records the next phase in a manifest
      that is replaced atomically, so that an interrupted upgrade is resumed or rolled back.
    - Around them: schema language and code generation, registry, deployment, transport
      drivers, observability.

    ** The files

    - [Prelude] (this file): status and result ([mino/common/status.h], [result.h]), the
      error monad and its notation, machine-width integers, shared tactics and lemmas.
    - [Checked]: [mino/common/checked_arithmetic.h].
    - [Bitmap]: [mino/shm/allocator/bitmap.{h,cc}], sequentially and, in
      [Module Concurrent], one atomic access per step.
    - [GenerationArray], [ClassTable]: the files of these names in
      [mino/shm/allocator].
    - [SlabHeader], [CentralSlab], [SlabLifecycle], [SlabLayout], [SlabCalls]:
      [mino/shm/allocator/slab_header.h], [central_slab.{h,cc}] and [mino/abi/shm_handle.h].
      The first has headers and their CRC, the second every operation in a state and error
      monad, the third the slot transitions and the invariant, the fourth layout, creation
      and attachment, the fifth what holds for any sequence of calls.
    - [MpmcRing], [MpmcRingSafety]: [mino/shm/channel/mpmc_ring.h]; the first has the data,
      [Init], [Attach] and the machine of atomic accesses, the second its invariant and
      what follows from it.
    - [SourceIdentity]: [mino/bridge/source_identity.h].
    - [Bytes]: byte spans and the big-endian fields of [wire_frame.cc] and
      [control_payload.cc].
    - [Crc32c], [WireAead]: [mino/bridge/crc32c.{h,cc}], [wire_aead.{h,cc}].
    - [WireFrame], [FrameStream]: [mino/bridge/wire_frame.{h,cc}], the codec and the
      stream decoder.
    - [ControlPayload]: [mino/bridge/control_payload.{h,cc}].
    - [DedupWindow], [DedupSession]: [mino/bridge/dedup_window.{h,cc}]; the second is what a
      client relies on within one instant.
    - [RetransmitWindow]: [mino/bridge/retransmit_window.{h,cc}].
    - [PendingReliable], [SendAttempts], [BridgeSender]: the sending half of
      [mino/bridge/bridge_pipeline.{h,cc}] ([SendData], [HandleAck], [HandleHello],
      [DrainCompletions], expiry, rebinding).
    - [AckQueue], [BridgeReceiver]: its receiving half ([HandleData], [EmitAck],
      [QueueAck], [RemovePendingAck]).
    - [DedupStore], [DurableFile], [DurableStore]: [mino/bridge/dedup_store.{h,cc}], the
      snapshot format, the atomic publication of a file, the store.
    - [BridgeSystem]: a sender and a receiver with its file as one transition system.
    - [LittleEndian], [SegmentFormat]: [mino/storage/segment_format.{h,cc}].
    - [SegmentRecovery], [SegmentScan], [SegmentRepair]:
      [mino/storage/segment_recovery.{h,cc}]; the operations in a monad of file reads, what a
      scan reads, what scan and repair promise.
    - [SegmentWriter], [SegmentLog], [SegmentGrowth]: [mino/storage/segment_writer.{h,cc}]; the
      operations, the writer with the scan and the repair of what it left on the disk, and
      that its file only grows.
    - [TopicPartition]: [mino/storage/topic_partition.{h,cc}], maps, hashes and routing.
    - [ManifestFormat], [ManifestCodec], [PartitionManifest], [ManifestSafety]: the partition half of
      [mino/storage/recording_manifest.{h,cc}]; snapshots, their rules and the codec; that the
      codec round-trips; class [PartitionManifest] over a disk; what its calls promise.
    - [TopicWriter], [TopicGaps], [TopicLog], [TopicSteps], [TopicStory]:
      [mino/storage/topic_writer.{h,cc}]; every operation in a monad whose state is the writer with
      its manifest, its segment files and the segments directory; gap payloads and
      reasons; the invariant; that every locked operation keeps it; histories of public calls.
    - [BufferPool], [BufferPoolHeap], [BufferPoolSafety], [BufferPoolStory]:
      [mino/storage/recorder_buffer_pool.{h,cc}]; every operation over blocks in a heap; the linked
      lists of blocks as representation predicates; the invariant and the calls over lists of
      leases; histories of calls and the loop of the topic writer over the pool.
    - [RetentionPlanner], [Retention], [RetentionSafety], [RetentionStory]:
      [mino/storage/retention.{h,cc}]; the planner and what its plans contain; the pin manager and
      the executor over manifest, directory and journal; the invariant, in a Hoare logic with a crash
      invariant and other threads between the steps; histories, crashes and recovery.
    - [UpgradePlan], [UpgradeManifest], [UpgradeCodec], [UpgradeStore], [UpgradeOrchestrator],
      [UpgradeStory]: [upgrade.{h,cc}], [manifest.{h,cc}] and [orchestrator.{h,cc}] of
      [mino/upgrade]; plans and proofs with their rules; the file format and the store; that the
      format is exact; that a transition is atomic; the steps over a log of the calls of the control
      plane; histories with power failures.

    ** How the code is represented

    Unsigned integers are [Z] with [wrap32] and [wrap64] where the code may wrap; signed
    overflow does not occur in what is modelled.  A [Status] or [Result] is a value of
    [Status] or [Result], an early return is the error monad.  A [std::vector] is a list, a
    [std::unordered_map] or [std::map] a [gmap]; where iterators alias nodes ([AckQueue])
    the nodes are a store of their own.  Where the code rolls back after an exception
    ([RetransmitWindow.Add], [AddPendingReliable], [AddAttempt], [Reserve]) the points at which an
    allocation throws are an input.  The blocks of [BufferPool] are linked by pointers into a
    [gmap]; there an operation is partial, and [None] is undefined behaviour.  Shared-memory algorithms are machines in which a step
    is one atomic access; the accesses are sequentially consistent.

    What is not code of the repository is an interface with documented laws: the CRC
    instructions ([Crc32cBackend], [Crc32cLaws]), OpenSSL ([AeadProvider],
    [AeadLaws]), the file system with its crash behaviour ([Posix], [PosixLaws]).  Each
    has a concrete instance, used by the witnesses.  Answers of the transport driver, of
    the local publication and of system calls are inputs, so that a theorem covers every
    answer.

    ** What the theorems show

    - _End to end_ ([BridgeSystem]): with frames lost, duplicated and reordered, the receiver
      crashing in the middle of a report and sessions rebound, an admitted frame is
      retained by the sender, or published, or was dropped at the documented retention
      limit; nothing is acknowledged that was not published.
    - _Sender_: the retransmission window, the logical frames and the attempts stay in
      step; the window refines a finite map; an ACK removes what it covers and nothing
      else; [Add] takes effect whole or not at all.
    - _Receiver_: the deduplication window refines a set of accepted sequence numbers; a
      frame of that set is not published again; ACKs coalesce without losing or inventing a
      sequence; reports are durable before they are acknowledged, except on the path the
      finding below describes.
    - _Durable store_: a crash at any instant leaves the old entries or the new ones; a report
      that succeeds on a path with a parent directory is durable; the snapshot format is a
      bijection.
    - _Codecs_: encode and decode are inverse to each other, the four decoders agree, the
      stream decoder succeeds exactly on the chunks that parse within the budgets and then
      yields the frames of the abstract parse of the stream, all CRC
      backends compute the bitwise reference.
    - _Allocator_: claims are exclusive under every interleaving, occupancy is accounted
      for exactly, classes are disjoint, generations are never reused.
    - _Recording_ ([SegmentLog], [SegmentRepair]): whatever write, writev and fdatasync answer,
      the file, its synced part, the pending records and the counters of the writer agree; a
      scan terminates and finds the longest run of complete contiguous records; the chunked
      check of a record is the in-memory decoder; a repair without a checkpoint, or with one
      behind complete records, never removes a complete record;
      a record counted as durable survives a crash and the repair after it; the format is
      a bijection.
    - _Topics_ ([TopicStory], [ManifestSafety], [TopicSteps], [TopicGaps]): after any history of
      calls, with any buffers and any answers of the system, the acknowledgements are one
      story of contiguous sequences in which every jump of a source is marked by a gap
      record; a record acknowledged as durable is found again after a crash, in a segment that
      every manifest the crash can leave lists; the manifest only moves forward, and a crash
      at any instant leaves its state before or after the call; appending ends; the
      reason of a gap is the one its discards agree on.
    - _Buffer pool_ ([BufferPoolStory]): in any history of reservations, writes, commits,
      cancellations, dequeues and releases no pointer dangles and every loop ends; bytes, topics and
      slots are accounted for exactly and within their limits; the committed records leave the
      queue once each, first in first out, with the bytes they were committed with, delivered or
      evicted and reported; [Reserve] evicts the shortest prefix that makes room, and cached blocks
      never cost a reservation; the topic writer sees what was committed.
    - _Retention_ ([RetentionPlanner], [RetentionStory]): a plan deletes the due segments and the
      fewest of the oldest others that meet the limits; in any history, with pins taken and released
      in the middle of executions, a file is removed only when nobody holds its segment and nobody
      can any more; a crash never leaves a manifest that lists a removed file; a finished execution is
      complete and durable, recovery finishes an interrupted one, and the manifest then has
      the totals the plan announced.
    - _Slab_ ([SlabCalls]): handles are never revived, allocations are fresh, live objects
      lie in disjoint memory inside the region and keep their stamp, published graphs are
      reclaimed children first and root last under any reclaim guard, an attached process sees the same objects, recovery
      repairs what a dying process left; the header CRC detects bursts of 32 bits.
    - _Rolling upgrade_ ([UpgradeStory], [UpgradeStore], [UpgradeCodec]): at every instant of
      every history a cutover request is preceded by a complete drain proof, a drain by the proof
      that the target is ready, a commit by a clean observation; once a cutover was requested
      no file a power failure leaves is before the cutover phase; a transition is atomic; a file
      that decodes is what encoding its snapshot gives.
    - _Ring_: under every interleaving, positions are reserved and claimed once each and a
      claimed slot holds the value committed there; reports of a full or an empty ring are
      true; a call that runs alone returns.

    ** Bounds and fuel

    - The ring theorems hold for runs of fewer than [2^62] accesses ([run_bound]): the
      positions are 64-bit counters and a slot's sequence is compared by wrapped
      subtraction, so a bound below the wrap is needed; at a thousand million accesses per
      second it is 146 years.
    - [FrameStream.push_loop] has the length of its input as fuel; each iteration consumes a
      byte ([push_loop_spec]).  [DurableStore.read_loop] has the number of answers and
      bytes left, and [read_loop_total] shows it returns.  [PendingReliable.remove_prefix] has
      the size of the table, which every iteration shrinks.  The scan of a segment and the
      search for a later record have the size of the file, the check of a record its length
      ([scan_finds_longest_run] and [record_check_is_decoder] show they return); files are at
      most [off_t_max] long.  [SegmentWriter.write_gathered] has the bytes to write and the
      answers left.  [TopicWriter.append_record] is given two rounds, and
      [append_ends_in_two_rounds] shows that more change nothing.  The loops of [BufferPool] over free
      and over all blocks have the number of blocks as fuel ([pool_never_undefined]); a queue of the
      pool has fewer than [2^63] entries, which a vector of them implies.  Loops that run alone in the ring
      are bounded by [ring_calls_obstruction_free].

    ** Findings

    - [MpmcRing::Init] accepts an element size above [sizeof(T)], lays the slots out at that
      stride and addresses them at another ([oversized_element_ring_full_at_one], a concrete
      ring).
    - [HandleData] acknowledges a frame delivered again after a failed durable report without
      a second report ([failed_report_acked_on_retry]); when the disk was full nothing
      records it ([retried_frame_acked_unrecorded]).
    - [CentralSlabAllocator::Reclaim] frees a transaction root that is still published, and
      its transaction, although it is documented to require [Retire]
      ([reclaim_root_takes_transaction]).
    - A torn append whose payload holds the bytes of a complete record is refused by the
      repair ([torn_append_with_embedded_record_refused]); a segment whose sequences have a gap
      is written and sealed without an error and then scanned as corrupt
      ([sealed_segment_scan]); a record larger than a segment is never accepted
      ([oversize_record_never_accepted]), and the topic writer that rotates for it fails on
      the empty segment and is poisoned ([append_ends_in_two_rounds]).
    - Opening an upgrade manifest does not synchronise the directory: a cutover can be requested on
      a phase that a power failure then takes back ([reopened_cutover_intent_lost]); a temporary
      file left behind blocks every transition ([stale_temporary_blocks]); a failure reason with a
      NUL is written and then refused as corrupt ([upgrade_format_exact]).
    - With a bare file name the store does not synchronise the directory
      ([bare_path_report_not_durable]).
    - The bound on the snapshot size wraps from [2^59] sources on ([size_bound_wraps]).
    - [AddDecodeKey] under the identifier of the encode key replaces the encode key
      ([add_decode_key_replaces_encode_key]).

    ** Not modelled

    - Weak memory orders: acquire and release accesses are taken as sequentially
      consistent.  Allocation failure outside the operations that handle it.
    - The slab operations are those of calls that do not interfere; only claims and releases of
      bits are modelled under interleaving.  Payload bytes are not modelled, NUMA answers and
      those of the reclaim guard are inputs.
    - Of the bridge pipeline: budgets, the control queue and its flushing, schema
      negotiation, inbound staging, installation of session keys.
    - Crashes in the middle of a call of the topic writer are covered for the manifest
      ([manifest_moves_forward]) and for the segment file ([SegmentGrowth], [SegmentLog]); the
      theorems of [TopicStory] speak of the states between calls.  Paths are lists of
      components as libstdc++ has them.  Fault hooks are null.
    - Retention: one executor runs at a time and nobody else changes the manifest while it does, as
      [retention.h] demands; the directory is the set of its names with those removed since it
      was last synchronised, and a created file counts as durable at once.
    - A manifest, of a partition or of an upgrade, is opened on a settled disk: what was read is
      the only content a crash can leave.
    - Of the rolling upgrade: the production control plane and the routing catalog behind the
      interface of the orchestrator.  One owner holds the lock of an upgrade.
    - Drivers, TLS and IPsec, memory mapping, NUMA, sockets, logging and telemetry, which
      are calls of the operating system or of other libraries.
    - Not reached: the channels above the ring, regions and the recovery scanner, session
      keys, the recorder above the topic writers, the recording manifest,
      the schema front end. *)
From Stdlib Require Export ZArith Lia.
From stdpp Require Export base list gmap strings numbers.
From stdpp Require Import pretty.

#[global] Open Scope Z_scope.

(** ** Status and Result ([mino/common/status.h], [mino/common/result.h]) *)

Inductive StatusCode : Set :=
| kOk | kInvalidArgument | kNotFound | kAlreadyExists | kResourceExhausted
| kWouldBlock | kTimeout | kSchemaMismatch | kCorruption | kUnavailable
| kPermissionDenied | kUnsupported | kDegraded | kInternal.

#[export] Instance StatusCode_eq_dec : EqDecision StatusCode.
Proof. solve_decision. Defined.

Record Status : Set := mkStatus { code : StatusCode; message : string }.

#[export] Instance Status_eq_dec : EqDecision Status.
Proof. solve_decision. Defined.

(** [Status::ToString]. *)
Definition code_value (c : StatusCode) : N :=
  match c with
  | kOk => 0 | kInvalidArgument => 1 | kNotFound => 2 | kAlreadyExists => 3
  | kResourceExhausted => 4 | kWouldBlock => 5 | kTimeout => 6 | kSchemaMismatch => 7
  | kCorruption => 8 | kUnavailable => 9 | kPermissionDenied => 10 | kUnsupported => 11
  | kDegraded => 12 | kInternal => 13
  end.
Definition code_text (c : StatusCode) : string :=
  match c with
  | kOk => "OK" | kInvalidArgument => "Invalid argument" | kNotFound => "Not found"
  | kAlreadyExists => "Already exists" | kResourceExhausted => "Resource exhausted"
  | kWouldBlock => "Would block" | kTimeout => "Timeout" | kSchemaMismatch => "Schema mismatch"
  | kCorruption => "Corruption" | kUnavailable => "Unavailable"
  | kPermissionDenied => "Permission denied" | kUnsupported => "Unsupported"
  | kDegraded => "Degraded" | kInternal => "Internal error"
  end.
Definition ToString (s : Status) : string :=
  pretty (code_value (code s)) +:+ ": "
  +:+ (if bool_decide (message s = "") then code_text (code s) else message s).

(** [errno] of a failed system call. *)
Inductive Errno : Set :=
| EINTR | EINVAL | ENOSYS | EACCES | EPERM | ELOOP | EROFS | ENOSPC | EDQUOT | ENOENT | EEXIST | EOTHER.
#[export] Instance Errno_eq_dec : EqDecision Errno.
Proof. solve_decision. Defined.

(** [Result<T>] holds a value or an error status.  A function that returns a
    bare [Status] is modelled as [Result unit]: [Status::Ok()] is [Ok tt]. *)
Inductive Result (A : Type) : Type :=
| Ok (a : A)
| Err (s : Status).
Arguments Ok {A} a.
Arguments Err {A} s.

Definition Invalid (m : string) : Status := mkStatus kInvalidArgument m.
Definition Corruption (m : string) : Status := mkStatus kCorruption m.
Definition Resource (m : string) : Status := mkStatus kResourceExhausted m.
Definition Unsupported (m : string) : Status := mkStatus kUnsupported m.
Definition Internal (m : string) : Status := mkStatus kInternal m.

Definition bindR {A B} (r : Result A) (k : A -> Result B) : Result B :=
  match r with Ok a => k a | Err s => Err s end.

Definition is_ok {A} (r : Result A) : bool :=
  match r with Ok _ => true | Err _ => false end.

Definition err_code {A} (r : Result A) : StatusCode :=
  match r with Ok _ => kOk | Err s => code s end.

Declare Scope mino_scope.
Delimit Scope mino_scope with mino.

(** [MINO_ASSIGN_OR_RETURN] and [MINO_RETURN_IF_ERROR]. *)
Notation "'let!' x ':=' e 'in' k" := (bindR e (fun x => k))
  (at level 10, x name, e at level 100, k at level 200) : mino_scope.
Notation "'check!' e ';;' k" := (bindR e (fun _ : unit => k))
  (at level 10, e at level 99, k at level 200) : mino_scope.
(** An early error return: [if (c) return status;]. *)
Notation "'fail_if' c 'with' s ';;' k" := (if c then Err s else k)
  (at level 10, c at level 99, s at level 99, k at level 200) : mino_scope.
#[global] Open Scope mino_scope.

(** ** Machine integers

    A [w]-bit unsigned integer is a [Z] in range; every operation that can
    leave the range is written with its wrap-around. *)
Abbreviation two16 := 65536 (only parsing).
Abbreviation two32 := 4294967296 (only parsing).
Abbreviation two63 := 9223372036854775808 (only parsing).
Abbreviation two64 := 18446744073709551616 (only parsing).
Abbreviation u32_max := 4294967295 (only parsing).
Abbreviation u64_max := 18446744073709551615 (only parsing).

Definition is_u16 (z : Z) : Prop := 0 <= z < two16.
Definition is_u32 (z : Z) : Prop := 0 <= z < two32.
Definition is_u64 (z : Z) : Prop := 0 <= z < two64.

Definition wrap32 (z : Z) : Z := z mod two32.
Definition wrap64 (z : Z) : Z := z mod two64.
(** [static_cast<int64_t>] of an unsigned 64-bit value. *)
Definition to_i64 (z : Z) : Z := if z <? two63 then z else z - two64.
(** [~w] on [uint64_t]. *)
Definition not64 (w : Z) : Z := u64_max - w.
(** [a << n] on [uint64_t]. *)
Definition shl64 (a n : Z) : Z := wrap64 (Z.shiftl a n).

(** The length of a container, as the code's [size_t]. *)
Definition zlen {A} (l : list A) : Z := Z.of_nat (length l).

(** ** Automation shared by the components *)

Create HintDb mino.

(** Unfold the range predicates before calling [lia]. *)
Ltac ulia := unfold is_u16, is_u32, is_u64, zlen in *; lia.

(** Turn the boolean comparisons of the code into propositions. *)
Ltac bool_to_prop :=
  repeat match goal with
  | H : (_ && _)%bool = true |- _ => apply andb_true_iff in H as [? ?]
  | H : (_ || _)%bool = false |- _ => apply orb_false_iff in H as [? ?]
  | H : (_ && _)%bool = false |- _ => apply andb_false_iff in H
  | H : (_ || _)%bool = true |- _ => apply orb_true_iff in H
  | H : negb _ = true |- _ => apply negb_true_iff in H
  | H : negb _ = false |- _ => apply negb_false_iff in H
  | H : (_ <? _) = true |- _ => apply Z.ltb_lt in H
  | H : (_ <? _) = false |- _ => apply Z.ltb_ge in H
  | H : (_ <=? _) = true |- _ => apply Z.leb_le in H
  | H : (_ <=? _) = false |- _ => apply Z.leb_gt in H
  | H : (_ =? _) = true |- _ => apply Z.eqb_eq in H
  | H : (_ =? _) = false |- _ => apply Z.eqb_neq in H
  | H : bool_decide _ = true |- _ => apply bool_decide_eq_true in H
  | H : bool_decide _ = false |- _ => apply bool_decide_eq_false in H
  end.

(** Case split on the guards of a modelled function, closing the branches
    that return another outcome. *)
Ltac step_if :=
  match goal with
  | H : context [if ?b then _ else _] |- _ =>
      let E := fresh "E" in destruct b eqn:E; try discriminate H
  end.
Ltac inv_ok := repeat match goal with
  | H : Ok _ = Ok _ |- _ => injection H; clear H; intros; subst
  | H : Err _ = Err _ |- _ => injection H; clear H; intros; subst
  | H : Ok _ = Err _ |- _ => discriminate H
  | H : Err _ = Ok _ |- _ => discriminate H
  end.

Lemma Forall_elem {A} (P : A -> Prop) (l : list A) : Forall P l <-> forall x, x ∈ l -> P x.
Proof. rewrite List.Forall_forall. by setoid_rewrite list_elem_of_In. Qed.

Lemma Ok_inj {A} (a b : A) : Ok a = Ok b -> a = b.
Proof. by intros [=]. Qed.

Lemma bindR_Ok {A B} (r : Result A) (k : A -> Result B) b :
  bindR r k = Ok b <-> exists a, r = Ok a /\ k a = Ok b.
Proof.
  destruct r as [a|s]; simpl; split; intros H.
  - by exists a.
  - destruct H as (c & H & Hk). congruence.
  - discriminate.
  - destruct H as (c & H & Hk). discriminate.
Qed.

Lemma bindR_Err {A B} (r : Result A) (k : A -> Result B) e :
  bindR r k = Err e <-> r = Err e \/ exists a, r = Ok a /\ k a = Err e.
Proof.
  destruct r as [a|s]; simpl; split; intros H.
  - right. by exists a.
  - destruct H as [H|(b & H & Hk)]; [discriminate|]. congruence.
  - left. congruence.
  - destruct H as [H|(b & H & Hk)]; [congruence | discriminate].
Qed.

(** Resolve a guard that is known to be false. *)
Lemma fail_if_false {A} (c : bool) s (k : Result A) :
  c = false -> (if c then Err s else k) = k.
Proof. intros ->. reflexivity. Qed.

(** Prove that a guard of the code is false, and step past it. *)
Ltac solve_guard :=
  first [ reflexivity
        | apply orb_false_iff; split; solve_guard
        | apply negb_false_iff; first [reflexivity | apply Z.eqb_eq; ulia | apply Z.leb_le; ulia
                                      | apply bool_decide_eq_true; done]
        | apply Z.ltb_ge; ulia | apply Z.leb_gt; ulia | apply Z.eqb_neq; ulia
        | apply bool_decide_eq_false; done | assumption ].
Ltac pass_guard := rewrite fail_if_false by solve_guard.

(** ** Bits of a machine word *)

Lemma wrap64_u64 z : is_u64 (wrap64 z).
Proof. unfold wrap64, is_u64. apply Z.mod_pos_bound. lia. Qed.
#[export] Hint Resolve wrap64_u64 : mino.

Lemma wrap64_id z : is_u64 z -> wrap64 z = z.
Proof. intros. unfold wrap64. apply Z.mod_small. ulia. Qed.

Lemma testbit_wrap64 z i :
  0 <= i -> Z.testbit (wrap64 z) i = (i <? 64) && Z.testbit z i.
Proof.
  intros Hi. unfold wrap64. change two64 with (2 ^ 64).
  destruct (Z.ltb_spec i 64); simpl.
  - apply Z.mod_pow2_bits_low. lia.
  - apply Z.mod_pow2_bits_high. lia.
Qed.

Lemma u64_testbit_high w i : is_u64 w -> 64 <= i -> Z.testbit w i = false.
Proof.
  intros Hw Hi. rewrite <- (wrap64_id w Hw), testbit_wrap64 by lia.
  destruct (Z.ltb_spec i 64); [lia | done].
Qed.

Lemma u64_of_bits w :
  0 <= w -> (forall i, 64 <= i -> Z.testbit w i = false) -> is_u64 w.
Proof.
  intros H0 Hb. replace w with (wrap64 w); [apply wrap64_u64|].
  apply Z.bits_inj'. intros i Hi. rewrite testbit_wrap64 by lia.
  destruct (Z.ltb_spec i 64); simpl; [done|]. symmetry. apply Hb. lia.
Qed.

Lemma testbit_not64 w i :
  is_u64 w -> 0 <= i -> Z.testbit (not64 w) i = (i <? 64) && negb (Z.testbit w i).
Proof.
  intros Hw Hi. replace (not64 w) with (wrap64 (Z.lnot w)).
  - rewrite testbit_wrap64, Z.lnot_spec by lia. done.
  - unfold wrap64, not64, Z.lnot. symmetry.
    apply Z.mod_unique with (q := -1); ulia.
Qed.

Lemma not64_u64 w : is_u64 w -> is_u64 (not64 w).
Proof. unfold not64. ulia. Qed.

Lemma testbit_pow2 b i : 0 <= b -> Z.testbit (Z.shiftl 1 b) i = (b =? i).
Proof.
  intros. rewrite Z.shiftl_1_l. apply Z.pow2_bits_eqb. done.
Qed.

Lemma testbit_shl64_one b i :
  0 <= b -> 0 <= i -> Z.testbit (shl64 1 b) i = (i <? 64) && (b =? i).
Proof.
  intros. unfold shl64. rewrite testbit_wrap64, testbit_pow2 by lia. done.
Qed.

Lemma shl64_one b : 0 <= b < 64 -> shl64 1 b = 2 ^ b.
Proof.
  intros. unfold shl64. rewrite Z.shiftl_1_l. apply wrap64_id.
  split; [apply Z.pow_nonneg; lia|]. change two64 with (2 ^ 64).
  apply Z.pow_lt_mono_r; lia.
Qed.

Lemma lor_u64 a b : is_u64 a -> is_u64 b -> is_u64 (Z.lor a b).
Proof.
  intros Ha Hb. apply u64_of_bits.
  - apply Z.lor_nonneg. ulia.
  - intros i Hi. rewrite Z.lor_spec, !u64_testbit_high by done. done.
Qed.

Lemma land_u64_l a b : is_u64 a -> 0 <= b -> is_u64 (Z.land a b).
Proof.
  intros Ha Hb. apply u64_of_bits.
  - apply Z.land_nonneg. lia.
  - intros i Hi. rewrite Z.land_spec, (u64_testbit_high a) by done. done.
Qed.

Lemma shl64_u64 a n : is_u64 (shl64 a n).
Proof. apply wrap64_u64. Qed.
#[export] Hint Resolve not64_u64 lor_u64 land_u64_l shl64_u64 : mino.

(** A word is zero exactly when none of its bits is set. *)
Lemma u64_zero_bits w :
  is_u64 w -> w = 0 <-> forall i, 0 <= i < 64 -> Z.testbit w i = false.
Proof.
  intros Hw. split.
  - intros -> i _. apply Z.bits_0.
  - intros Hb. apply Z.bits_inj'. intros i Hi. rewrite Z.bits_0.
    destruct (Z.lt_ge_cases i 64); [apply Hb; lia | by apply u64_testbit_high].
Qed.

(** The test [(w & (1 << b)) != 0] of the code. *)
Lemma land_bit_test w b :
  is_u64 w -> 0 <= b < 64 ->
  negb (Z.land w (shl64 1 b) =? 0) = Z.testbit w b.
Proof.
  intros Hw Hb. destruct (Z.testbit w b) eqn:E.
  - apply negb_true_iff, Z.eqb_neq. intros H0.
    assert (Z.testbit (Z.land w (shl64 1 b)) b = false) as Ht
      by (rewrite H0; apply Z.bits_0).
    rewrite Z.land_spec, E, testbit_shl64_one in Ht by lia.
    rewrite Z.eqb_refl in Ht. destruct (Z.ltb_spec b 64); [done | lia].
  - apply negb_false_iff, Z.eqb_eq. apply Z.bits_inj'. intros i Hi.
    rewrite Z.land_spec, Z.bits_0, testbit_shl64_one by lia.
    destruct (Z.eqb_spec b i); [subst; by rewrite E |].
    by rewrite andb_false_r, andb_false_r.
Qed.

(** [__builtin_ctzll]: the index of the lowest set bit; 64 stands for the
    argument 0, on which the builtin is undefined and which no caller passes. *)
Fixpoint first_set (x : Z) (i : Z) (n : nat) : Z :=
  match n with
  | O => i
  | S n' => if Z.testbit x i then i else first_set x (i + 1) n'
  end.
Definition ctz64 (x : Z) : Z := first_set x 0 64.

Lemma first_set_spec x n i :
  let r := first_set x i n in
  i <= r <= i + Z.of_nat n /\
  (forall j, i <= j < r -> Z.testbit x j = false) /\
  (r < i + Z.of_nat n -> Z.testbit x r = true).
Proof.
  revert i. induction n as [|n IH]; intros i; simpl.
  { repeat split; intros; lia. }
  destruct (Z.testbit x i) eqn:E.
  { repeat split; intros; try lia; done. }
  destruct (IH (i + 1)) as (H1 & H2 & H3). repeat split; try lia.
  - intros j Hj. destruct (Z.eq_dec j i); [by subst|]. apply H2. lia.
  - intros Hr. apply H3. lia.
Qed.

Lemma ctz64_spec x :
  is_u64 x -> x <> 0 ->
  0 <= ctz64 x < 64 /\ Z.testbit x (ctz64 x) = true /\
  forall j, 0 <= j < ctz64 x -> Z.testbit x j = false.
Proof.
  intros Hx Hnz. destruct (first_set_spec x 64 0) as (H1 & H2 & H3).
  fold (ctz64 x) in *. destruct (Z.eq_dec (ctz64 x) 64) as [E|E].
  - destruct Hnz. apply u64_zero_bits; [done|]. intros i Hi. apply H2. lia.
  - split_and!; [lia | lia | apply H3; lia | intros; apply H2; lia].
Qed.

Lemma lxor_cancel_r a b c : Z.lxor a c = Z.lxor b c -> a = b.
Proof.
  intros H. assert (Z.lxor (Z.lxor a c) c = Z.lxor (Z.lxor b c) c) as E by by rewrite H.
  by rewrite !Z.lxor_assoc, !Z.lxor_nilpotent, !Z.lxor_0_r in E.
Qed.
