(* ===== verification/Checked.v ===== *)
(** * Checked unsigned arithmetic

    Models [mino/common/checked_arithmetic.h].  Each C++ helper returns a
    [bool] and writes [*out] only on success; here the pair is an [option]:
    [Some r] is "returned true with [*out = r]", [None] is "returned false,
    [*out] unmodified". *)
From S2P Require Import Prelude.

Definition CheckedAddU64 (a b : Z) : option Z :=
  if u64_max - b <? a then None else Some (wrap64 (a + b)).

Definition CheckedAddU32 (a b : Z) : option Z :=
  let r := wrap64 (a + b) in
  if u32_max <? r then None else Some (wrap32 r).

Definition CheckedSubU64 (a b : Z) : option Z :=
  if a <? b then None else Some (wrap64 (a - b)).

Definition CheckedMulU64 (a b : Z) : option Z :=
  if negb (a =? 0) && (u64_max / a <? b) then None else Some (wrap64 (a * b)).

Definition CheckedAlignUpU64 (value alignment : Z) : option Z :=
  if (alignment =? 0) || negb (Z.land alignment (wrap64 (alignment - 1)) =? 0)
  then None
  else match CheckedAddU64 value (wrap64 (alignment - 1)) with
       | None => None
       | Some with_mask =>
           Some (Z.land with_mask (not64 (wrap64 (alignment - 1))))
       end.

(** ** Correctness *)

Definition power_of_two (a : Z) : Prop := exists k, 0 <= k /\ a = 2 ^ k.

Lemma land_pred_pow2 a :
  0 < a -> Z.land a (a - 1) = 0 <-> power_of_two a.
Proof.
  intros Ha. split.
  - intros H0. exists (Z.log2 a). split; [apply Z.log2_nonneg|].
    destruct (Z.log2_spec a Ha) as [Hlo Hhi].
    destruct (Z.eq_dec a (2 ^ Z.log2 a)) as [|Hne]; [done|].
    assert (Z.log2 (a - 1) = Z.log2 a) as El.
    { apply Z.log2_unique; [apply Z.log2_nonneg | lia]. }
    assert (Z.testbit (Z.land a (a - 1)) (Z.log2 a) = true) as Hb.
    { rewrite Z.land_spec, Z.bit_log2 by lia. simpl.
      rewrite <- El. apply Z.bit_log2.
      pose proof (Z.pow_pos_nonneg 2 (Z.log2 a) ltac:(lia) (Z.log2_nonneg a)). lia. }
    rewrite H0, Z.bits_0 in Hb. done.
  - intros (k & Hk & ->). replace (2 ^ k - 1) with (Z.ones k).
    + rewrite Z.land_ones, Z_mod_same_full by done. done.
    + rewrite Z.ones_equiv. lia.
Qed.

Lemma land_clear_low x k :
  is_u64 x -> 0 <= k < 64 ->
  Z.land x (not64 (2 ^ k - 1)) = x / 2 ^ k * 2 ^ k.
Proof.
  intros Hx Hk. rewrite <- Z.shiftr_div_pow2, <- Z.shiftl_mul_pow2 by lia.
  assert (is_u64 (2 ^ k - 1)) as Hm.
  { assert (2 ^ k <= 2 ^ 63) as H63 by (apply Z.pow_le_mono_r; lia).
    assert (2 ^ 63 = two63) as E63 by reflexivity.
    pose proof (Z.pow_pos_nonneg 2 k). ulia. }
  apply Z.bits_inj'. intros i Hi.
  rewrite Z.land_spec, testbit_not64 by done.
  replace (2 ^ k - 1) with (Z.ones k) by (rewrite Z.ones_equiv; lia).
  rewrite Z.testbit_ones_nonneg, Z.shiftl_spec by lia.
  destruct (Z.ltb_spec i k).
  - rewrite (Z.testbit_neg_r _ (i - k)) by lia. by rewrite !andb_false_r.
  - rewrite Z.shiftr_spec by lia. replace (i - k + k) with i by lia. simpl.
    rewrite andb_true_r. destruct (Z.ltb_spec i 64); [by rewrite andb_true_r|].
    rewrite u64_testbit_high by done. done.
Qed.

(** [CheckedAddU64], [CheckedSubU64] and [CheckedMulU64] succeed exactly
    when the mathematical result fits [uint64_t], and then return it; [CheckedAddU32]
    likewise for [uint32_t]. *)
Theorem checked_ops_exact a b :
  is_u64 a -> is_u64 b ->
  CheckedAddU64 a b = (if a + b <=? u64_max then Some (a + b) else None) /\
  CheckedSubU64 a b = (if 0 <=? a - b then Some (a - b) else None) /\
  CheckedMulU64 a b = (if a * b <=? u64_max then Some (a * b) else None) /\
  (is_u32 a -> is_u32 b ->
   CheckedAddU32 a b = (if a + b <=? u32_max then Some (a + b) else None)).
Proof.
  intros Ha Hb. split_and!.
  - unfold CheckedAddU64.
    destruct (Z.ltb_spec (u64_max - b) a), (Z.leb_spec (a + b) u64_max); try lia; try done.
    rewrite wrap64_id; [done | ulia].
  - unfold CheckedSubU64.
    destruct (Z.ltb_spec a b), (Z.leb_spec 0 (a - b)); try lia; try done.
    rewrite wrap64_id; [done | ulia].
  - unfold CheckedMulU64. destruct (Z.eqb_spec a 0) as [->|Hnz]; simpl; [done|].
    assert (u64_max / a < b <-> u64_max < a * b) as Hd.
    { pose proof (Z.div_mod u64_max a Hnz). pose proof (Z.mod_pos_bound u64_max a ltac:(ulia)).
      split; intros; [nia | apply Z.div_lt_upper_bound; ulia]. }
    destruct (Z.ltb_spec (u64_max / a) b), (Z.leb_spec (a * b) u64_max); try lia; try done.
    rewrite wrap64_id; [done | unfold is_u64 in *; nia].
  - intros Ha' Hb'. unfold CheckedAddU32. rewrite wrap64_id by ulia.
    destruct (Z.ltb_spec u32_max (a + b)), (Z.leb_spec (a + b) u32_max); try lia; try done.
    unfold wrap32. rewrite Z.mod_small by ulia. done.
Qed.

Lemma checked_ops_exact_witness :
  CheckedAddU64 u64_max 1 = None /\ CheckedMulU64 two32 two32 = None /\
  CheckedSubU64 5 3 = Some 2.
Proof.
  destruct (checked_ops_exact u64_max 1) as (H1 & _); [ulia | ulia |].
  destruct (checked_ops_exact two32 two32) as (_ & _ & H2 & _); [ulia | ulia |].
  destruct (checked_ops_exact 5 3) as (_ & H3 & _); [ulia | ulia |].
  rewrite H1, H2, H3. split_and!; reflexivity.
Defined.

(** [CheckedAlignUpU64] returns the least multiple of [alignment] that is
    not below [value]; it fails exactly when [alignment] is not a power of two
    or [value + (alignment - 1)] does not fit [uint64_t]. *)
Theorem checked_align_up_spec v a :
  is_u64 v -> is_u64 a ->
  match CheckedAlignUpU64 v a with
  | Some r => power_of_two a /\ v <= r < v + a /\ (a | r) /\ is_u64 r
  | None => ~ power_of_two a \/ u64_max < v + (a - 1)
  end.
Proof.
  intros Hv Ha. unfold CheckedAlignUpU64.
  destruct (Z.eqb_spec a 0) as [->|Hnz]; simpl.
  { left. intros (k & Hk & E). pose proof (Z.pow_pos_nonneg 2 k). lia. }
  rewrite (wrap64_id (a - 1)) by ulia.
  destruct (Z.eqb_spec (Z.land a (a - 1)) 0) as [E|E]; simpl.
  2:{ left. by rewrite <- land_pred_pow2 by ulia. }
  apply land_pred_pow2 in E; [|ulia]. unfold CheckedAddU64.
  destruct (Z.ltb_spec (u64_max - (a - 1)) v); [right; lia|].
  rewrite (wrap64_id (v + (a - 1))) by ulia.
  destruct E as (k & Hk & Ek).
  assert (k < 64).
  { apply (Z.pow_lt_mono_r_iff 2); [lia | lia |]. change (2 ^ 64) with two64. ulia. }
  subst a. rewrite land_clear_low by ulia.
  pose proof (Z.div_mod (v + (2 ^ k - 1)) (2 ^ k) Hnz).
  pose proof (Z.mod_pos_bound (v + (2 ^ k - 1)) (2 ^ k)).
  split_and!; [by exists k | lia | lia | by exists ((v + (2 ^ k - 1)) / 2 ^ k) | ulia].
Qed.

Lemma checked_align_up_spec_witness : CheckedAlignUpU64 65 64 = Some 128 /\ (64 | 128).
Proof.
  split; [reflexivity|].
  pose proof (checked_align_up_spec 65 64 ltac:(ulia) ltac:(ulia)) as H.
  simpl in H. destruct H as (_ & _ & H & _). exact H.
Defined.
