(* ===== verification/Bitmap.v ===== *)
(** * Sharded allocation bitmap

    Models [mino/shm/allocator/bitmap.h] and [bitmap.cc]: one bit per slot in
    an array of 64-bit shards.  The first half is the sequential behaviour of
    every operation.  The second half ([Module Concurrent]) interleaves the
    load / compare-exchange steps of the claim loop with those of other
    threads, one atomic access per step. *)
From S2P Require Import Prelude.

Definition kBitmapShardBits : Z := 64.

Record BitmapClaim : Set := mkClaim
  { bit_index : Z; shard_index : Z; shards_probed : Z }.

(** [storage_] is the array of shards the pointer designates. *)
Record ShardedBitmap : Set := mkBitmap
  { storage_ : list Z; shard_count_ : Z }.

Definition LowBits (count : Z) : Z :=
  if count =? 64 then u64_max else wrap64 (shl64 1 count - 1).

(** The storage pointer is [None] when null. *)
Definition Create (storage : option (list Z)) (shard_count : Z)
  : Result ShardedBitmap :=
  match storage with
  | None => Err (Invalid "bitmap storage must not be null")
  | Some st =>
      fail_if shard_count =? 0 with
        Invalid "bitmap requires at least one shard" ;;
      Ok (mkBitmap st shard_count)
  end.

Definition bit_count (bm : ShardedBitmap) : Z :=
  wrap32 (shard_count_ bm * kBitmapShardBits).

(** [storage_[i]]; the code never indexes outside the array (see [bitmap_wf]). *)
Definition load_shard (st : list Z) (i : Z) : Z := st !!! Z.to_nat i.
Definition store_shard (st : list Z) (i w : Z) : list Z := <[Z.to_nat i := w]> st.

(** The scan of [FindAndSetFreeBit]: [probe] counts up, [n] probes are left.
    Without interference the compare-exchange succeeds (a spurious failure of
    the weak form retries on the same word). *)
Fixpoint find_free_from (bm : ShardedBitmap) (start probe : Z) (n : nat)
  : ShardedBitmap * Result Z :=
  match n with
  | O => (bm, Err (Resource "allocation bitmap is full"))
  | S n' =>
      let shard_index := wrap32 (start + probe) mod shard_count_ bm in
      let word := load_shard (storage_ bm) shard_index in
      if word =? u64_max then find_free_from bm start (probe + 1) n'
      else
        let bit := ctz64 (not64 word) in
        let desired := Z.lor word (shl64 1 bit) in
        (mkBitmap (store_shard (storage_ bm) shard_index desired) (shard_count_ bm),
         Ok (wrap32 (shard_index * kBitmapShardBits + bit)))
  end.

Definition FindAndSetFreeBit (bm : ShardedBitmap) (shard_hint : Z)
  : ShardedBitmap * Result Z :=
  find_free_from bm (shard_hint mod shard_count_ bm) 0 (Z.to_nat (shard_count_ bm)).

(** The bit the claim loop selects in one shard word, [None] when the word
    has no available bit ([available == 0]). *)
Definition pick_bit (word valid_mask probe bit_hint : Z) : option Z :=
  let available := Z.land (not64 word) valid_mask in
  if available =? 0 then None
  else
    let at_or_after_hint :=
      Z.land available (not64 (LowBits (bit_hint mod kBitmapShardBits))) in
    let candidates :=
      if (probe =? 0) && negb (at_or_after_hint =? 0)
      then at_or_after_hint else available in
    Some (ctz64 candidates).

(** The locals computed before the probe loop of
    [FindAndSetFreeBitInRangeHinted]. *)
Record ScanRange : Set := mkScan
  { sr_begin : Z; sr_end : Z; sr_hint : Z }.
Definition first_shard (r : ScanRange) : Z := sr_begin r / kBitmapShardBits.
Definition last_shard (r : ScanRange) : Z := (sr_end r - 1) / kBitmapShardBits.
Definition range_shards (r : ScanRange) : Z := last_shard r - first_shard r + 1.
Definition start_shard (r : ScanRange) : Z := sr_hint r / kBitmapShardBits.
Definition probe_shard (r : ScanRange) (probe : Z) : Z :=
  first_shard r + (start_shard r - first_shard r + probe) mod range_shards r.
Definition scan_lower (r : ScanRange) (shard : Z) : Z :=
  if shard =? first_shard r then sr_begin r mod kBitmapShardBits else 0.
Definition scan_upper (r : ScanRange) (shard : Z) : Z :=
  if shard =? last_shard r then (sr_end r - 1) mod kBitmapShardBits + 1
  else kBitmapShardBits.
Definition scan_mask (r : ScanRange) (shard : Z) : Z :=
  Z.land (LowBits (scan_upper r shard)) (not64 (LowBits (scan_lower r shard))).

Fixpoint claim_from (bm : ShardedBitmap) (r : ScanRange) (probe : Z) (n : nat)
  : ShardedBitmap * Result BitmapClaim :=
  match n with
  | O => (bm, Err (Resource "allocation bitmap range is full"))
  | S n' =>
      let shard_index := probe_shard r probe in
      let word := load_shard (storage_ bm) shard_index in
      match pick_bit word (scan_mask r shard_index) probe (sr_hint r) with
      | None => claim_from bm r (probe + 1) n'
      | Some bit =>
          let desired := Z.lor word (shl64 1 bit) in
          (mkBitmap (store_shard (storage_ bm) shard_index desired) (shard_count_ bm),
           Ok {| bit_index := shard_index * kBitmapShardBits + bit;
                 shard_index := shard_index;
                 shards_probed := probe + 1 |})
      end
  end.

Definition FindAndSetFreeBitInRangeHinted (bm : ShardedBitmap)
    (begin end_ bit_hint : Z) : ShardedBitmap * Result BitmapClaim :=
  if (end_ <=? begin) || (bit_count bm <? end_)
  then (bm, Err (Invalid "invalid bitmap allocation range"))
  else
    let bit_hint :=
      if (bit_hint <? begin) || (end_ <=? bit_hint) then begin else bit_hint in
    let r := mkScan begin end_ bit_hint in
    claim_from bm r 0 (Z.to_nat (range_shards r)).

Definition FindAndSetFreeBitInRange (bm : ShardedBitmap) (begin end_ : Z)
  : ShardedBitmap * Result Z :=
  let '(bm', claim) := FindAndSetFreeBitInRangeHinted bm begin end_ begin in
  (bm', let! c := claim in Ok (bit_index c)).

Fixpoint set_range_from (st : list Z) (index : Z) (n : nat) : list Z :=
  match n with
  | O => st
  | S n' =>
      let s := index / kBitmapShardBits in
      set_range_from
        (store_shard st s
           (Z.lor (load_shard st s) (shl64 1 (index mod kBitmapShardBits))))
        (index + 1) n'
  end.

Definition SetRange (bm : ShardedBitmap) (begin end_ : Z) : ShardedBitmap :=
  if (end_ <=? begin) || (bit_count bm <? end_) then bm
  else mkBitmap (set_range_from (storage_ bm) begin (Z.to_nat (end_ - begin)))
         (shard_count_ bm).

Definition ClearBit (bm : ShardedBitmap) (index : Z)
  : ShardedBitmap * Result unit :=
  if bit_count bm <=? index
  then (bm, Err (Invalid "bitmap index out of range"))
  else
    let mask := shl64 1 (index mod kBitmapShardBits) in
    let s := index / kBitmapShardBits in
    let prev := load_shard (storage_ bm) s in
    let bm' := mkBitmap (store_shard (storage_ bm) s (Z.land prev (not64 mask)))
                 (shard_count_ bm) in
    if Z.land prev mask =? 0
    then (bm', Err (mkStatus kNotFound "bitmap bit was not set (double clear)"))
    else (bm', Ok tt).

Definition IsSet (bm : ShardedBitmap) (index : Z) : bool :=
  if bit_count bm <=? index then false
  else
    let word := load_shard (storage_ bm) (index / kBitmapShardBits) in
    negb (Z.land word (shl64 1 (index mod kBitmapShardBits)) =? 0).

(** ** Bits of the storage *)

Definition bit_at (st : list Z) (i : Z) : bool :=
  Z.testbit (load_shard st (i / kBitmapShardBits)) (i mod kBitmapShardBits).

(** The representation invariant: the storage has [shard_count_] 64-bit words
    and the bit count fits [uint32_t]. *)
Record bitmap_wf (bm : ShardedBitmap) : Prop := {
  bwf_count : 0 < shard_count_ bm;
  bwf_fits : shard_count_ bm * 64 < two32;
  bwf_len : zlen (storage_ bm) = shard_count_ bm;
  bwf_words : Forall is_u64 (storage_ bm)
}.

Lemma bit_count_wf bm : bitmap_wf bm -> bit_count bm = shard_count_ bm * 64.
Proof.
  intros []. unfold bit_count, wrap32, kBitmapShardBits. apply Z.mod_small. lia.
Qed.

Lemma load_shard_lookup st i :
  0 <= i < zlen st -> st !! Z.to_nat i = Some (load_shard st i).
Proof. intros. apply list_lookup_lookup_total_lt. ulia. Qed.

Lemma load_shard_u64 st i : Forall is_u64 st -> 0 <= i < zlen st -> is_u64 (load_shard st i).
Proof.
  intros Hst Hi. eapply Forall_lookup_1; [exact Hst|]. by apply load_shard_lookup.
Qed.

Lemma load_store_shard st i j w :
  0 <= i < zlen st -> 0 <= j ->
  load_shard (store_shard st i w) j = if i =? j then w else load_shard st j.
Proof.
  intros Hi Hj. unfold load_shard, store_shard. destruct (Z.eqb_spec i j) as [->|].
  - apply list_lookup_total_insert_eq. ulia.
  - apply list_lookup_total_insert_ne. lia.
Qed.

Lemma store_shard_len st i w : zlen (store_shard st i w) = zlen st.
Proof. unfold zlen, store_shard. by rewrite length_insert. Qed.

Lemma store_shard_words st i w :
  Forall is_u64 st -> is_u64 w -> Forall is_u64 (store_shard st i w).
Proof. intros. by apply Forall_insert. Qed.

Lemma shard_bit_split i : 0 <= i -> i = i / 64 * 64 + i mod 64 /\ 0 <= i mod 64 < 64 /\ 0 <= i / 64.
Proof.
  intros. pose proof (Z.div_mod i 64). pose proof (Z.mod_pos_bound i 64).
  pose proof (Z.div_pos i 64). lia.
Qed.

Lemma shard_bit_join s b : 0 <= b < 64 -> (s * 64 + b) / 64 = s /\ (s * 64 + b) mod 64 = b.
Proof.
  intros. split; symmetry.
  - apply Z.div_unique with b; lia.
  - apply Z.mod_unique with s; lia.
Qed.

(** Setting and clearing one bit of one shard, seen as a change of one bit of
    the whole bitmap. *)
Lemma bit_at_set st s b i :
  0 <= s < zlen st -> 0 <= b < 64 -> 0 <= i ->
  bit_at (store_shard st s (Z.lor (load_shard st s) (shl64 1 b))) i
  = (i =? s * 64 + b) || bit_at st i.
Proof.
  intros Hs Hb Hi. unfold bit_at, kBitmapShardBits.
  destruct (shard_bit_split i Hi) as (E & Hm & Hd).
  rewrite load_store_shard by lia. destruct (Z.eqb_spec s (i / 64)) as [->|Hne].
  - rewrite Z.lor_spec, testbit_shl64_one by lia.
    destruct (Z.ltb_spec (i mod 64) 64); [|lia]. simpl.
    destruct (Z.eqb_spec b (i mod 64)), (Z.eqb_spec i (i / 64 * 64 + b)); try lia;
      by rewrite ?orb_true_r, ?orb_false_r.
  - destruct (Z.eqb_spec i (s * 64 + b)) as [->|]; [|done].
    destruct (shard_bit_join s b Hb) as [-> _]. lia.
Qed.

Lemma bit_at_clear st s b i :
  0 <= s < zlen st -> 0 <= b < 64 -> 0 <= i ->
  bit_at (store_shard st s (Z.land (load_shard st s) (not64 (shl64 1 b)))) i
  = negb (i =? s * 64 + b) && bit_at st i.
Proof.
  intros Hs Hb Hi. unfold bit_at, kBitmapShardBits.
  destruct (shard_bit_split i Hi) as (E & Hm & Hd).
  rewrite load_store_shard by lia. destruct (Z.eqb_spec s (i / 64)) as [->|Hne].
  - rewrite Z.land_spec, testbit_not64, testbit_shl64_one by (lia || apply shl64_u64).
    destruct (Z.ltb_spec (i mod 64) 64); [|lia]. simpl.
    destruct (Z.eqb_spec b (i mod 64)), (Z.eqb_spec i (i / 64 * 64 + b)); try lia;
      simpl; by rewrite ?andb_true_r, ?andb_false_r.
  - destruct (Z.eqb_spec i (s * 64 + b)) as [->|]; [|done].
    destruct (shard_bit_join s b Hb) as [-> _]. lia.
Qed.

Lemma IsSet_bit_at bm i :
  bitmap_wf bm -> 0 <= i -> IsSet bm i = (i <? bit_count bm) && bit_at (storage_ bm) i.
Proof.
  intros Hwf Hi. unfold IsSet.
  rewrite (bit_count_wf bm Hwf). destruct Hwf as [H1 H2 H3 H4].
  destruct (Z.leb_spec (shard_count_ bm * 64) i), (Z.ltb_spec i (shard_count_ bm * 64));
    try done; try lia. simpl.
  destruct (shard_bit_split i Hi) as (E & Hm & Hd). unfold bit_at, kBitmapShardBits.
  apply land_bit_test; [|lia]. apply load_shard_u64; [done | lia].
Qed.

Lemma testbit_LowBits c i :
  0 <= c <= 64 -> 0 <= i -> Z.testbit (LowBits c) i = (i <? c).
Proof.
  intros Hc Hi. unfold LowBits. destruct (Z.eqb_spec c 64) as [->|].
  - change u64_max with (Z.ones 64). apply Z.testbit_ones_nonneg; lia.
  - rewrite shl64_one by lia. rewrite testbit_wrap64 by lia.
    replace (2 ^ c - 1) with (Z.ones c) by (rewrite Z.ones_equiv; lia).
    rewrite Z.testbit_ones_nonneg by lia.
    destruct (Z.ltb_spec i 64), (Z.ltb_spec i c); try lia; done.
Qed.

Lemma LowBits_u64 c : is_u64 (LowBits c).
Proof. unfold LowBits. case_match; [ulia | apply wrap64_u64]. Qed.
#[export] Hint Resolve LowBits_u64 : mino.

Lemma scan_mask_spec r s i :
  0 <= sr_begin r < sr_end r -> 0 <= i < 64 -> first_shard r <= s <= last_shard r ->
  Z.testbit (scan_mask r s) i = (sr_begin r <=? s * 64 + i) && (s * 64 + i <? sr_end r).
Proof.
  intros Hr Hi Hs. unfold scan_mask.
  destruct (shard_bit_split (sr_begin r)) as (E1 & M1 & _); [lia|].
  destruct (shard_bit_split (sr_end r - 1)) as (E2 & M2 & _); [lia|].
  rewrite Z.land_spec, testbit_not64 by auto with mino lia.
  unfold scan_upper, scan_lower, first_shard, last_shard, kBitmapShardBits in *.
  rewrite !testbit_LowBits by (repeat case_match; lia).
  destruct (Z.ltb_spec i 64); [|lia]. simpl.
  destruct (Z.eqb_spec s (sr_begin r / 64)), (Z.eqb_spec s ((sr_end r - 1) / 64));
    repeat match goal with |- context [?a <? ?b] => destruct (Z.ltb_spec a b) end;
    repeat match goal with |- context [?a <=? ?b] => destruct (Z.leb_spec a b) end;
    simpl; lia || done.
Qed.

Lemma scan_mask_u64 r s : is_u64 (scan_mask r s).
Proof. unfold scan_mask. apply land_u64_l; auto with mino. apply not64_u64; auto with mino. Qed.
#[export] Hint Resolve scan_mask_u64 : mino.

(** The selected bit is free and inside the mask; no selection means that
    every bit of the mask is taken. *)
Lemma pick_bit_spec w m p h :
  is_u64 w -> is_u64 m -> 0 <= h ->
  match pick_bit w m p h with
  | Some b => 0 <= b < 64 /\ Z.testbit m b = true /\ Z.testbit w b = false
  | None => forall i, 0 <= i < 64 -> Z.testbit m i = true -> Z.testbit w i = true
  end.
Proof.
  intros Hw Hm Hh. unfold pick_bit. set (a := Z.land (not64 w) m).
  assert (is_u64 a) as Ha by (apply land_u64_l; [auto with mino | ulia]).
  assert (forall i, 0 <= i < 64 -> Z.testbit a i = negb (Z.testbit w i) && Z.testbit m i) as Hb.
  { intros i Hi. unfold a. rewrite Z.land_spec, testbit_not64 by (done || lia).
    destruct (Z.ltb_spec i 64); [done | lia]. }
  destruct (Z.eqb_spec a 0) as [E|E].
  { intros i Hi Hmi. specialize (Hb i Hi). rewrite E, Z.bits_0, Hmi, andb_true_r in Hb.
    by destruct (Z.testbit w i). }
  set (x := Z.land a _). set (c := if (p =? 0) && negb (x =? 0) then x else a).
  assert (is_u64 c /\ c <> 0 /\ forall i, 0 <= i -> Z.testbit c i = true -> Z.testbit a i = true)
    as (Hc & Hnz & Hsub).
  { unfold c. destruct ((p =? 0) && negb (x =? 0)) eqn:G; [|done].
    bool_to_prop. split_and!; [|done|].
    - apply land_u64_l; [done|]. pose proof (not64_u64 _ (LowBits_u64 (h mod kBitmapShardBits))). ulia.
    - intros i Hi. unfold x. rewrite Z.land_spec. intros. bool_to_prop. done. }
  destruct (ctz64_spec c Hc Hnz) as (H1 & H2 & _).
  apply Hsub in H2; [|lia]. rewrite Hb in H2 by lia. bool_to_prop. done.
Qed.

(** ** Sequential specification *)

(** [bm'] is [bm] with the clear bit [k] set and nothing else changed. *)
Record claimed_bit (bm bm' : ShardedBitmap) (k : Z) : Prop := {
  cb_was_clear : bit_at (storage_ bm) k = false;
  cb_bits : forall i, 0 <= i ->
    bit_at (storage_ bm') i = (i =? k) || bit_at (storage_ bm) i;
  cb_wf : bitmap_wf bm';
  cb_count : shard_count_ bm' = shard_count_ bm
}.

Lemma claim_step bm s b :
  bitmap_wf bm -> 0 <= s < shard_count_ bm -> 0 <= b < 64 ->
  Z.testbit (load_shard (storage_ bm) s) b = false ->
  claimed_bit bm
    (mkBitmap (store_shard (storage_ bm) s (Z.lor (load_shard (storage_ bm) s) (shl64 1 b)))
       (shard_count_ bm)) (s * 64 + b).
Proof.
  intros Hwf Hs Hb Hclear. destruct Hwf as [H1 H2 H3 H4]. split; simpl; [| |split|done]; simpl.
  - unfold bit_at, kBitmapShardBits. by destruct (shard_bit_join s b Hb) as [-> ->].
  - intros i Hi. apply bit_at_set; lia.
  - done.
  - done.
  - by rewrite store_shard_len.
  - apply store_shard_words; [done|]. apply lor_u64; auto with mino.
    apply load_shard_u64; [done | lia].
Qed.

Record scan_ok (bm : ShardedBitmap) (r : ScanRange) : Prop := {
  so_begin : 0 <= sr_begin r;
  so_hint : sr_begin r <= sr_hint r < sr_end r;
  so_end : sr_end r <= bit_count bm
}.

Lemma probe_shard_range bm r p :
  bitmap_wf bm -> scan_ok bm r -> 0 <= p ->
  first_shard r <= probe_shard r p <= last_shard r /\
  0 <= first_shard r /\ last_shard r < shard_count_ bm /\ 0 < range_shards r.
Proof.
  intros Hwf [H1 H2 H3] Hp. rewrite bit_count_wf in H3 by done.
  assert (0 <= first_shard r <= last_shard r) as Hfl.
  { unfold first_shard, last_shard, kBitmapShardBits. split.
    - apply Z.div_pos; lia.
    - apply Z.div_le_mono; lia. }
  assert (last_shard r < shard_count_ bm).
  { unfold last_shard, kBitmapShardBits. apply Z.div_lt_upper_bound; lia. }
  unfold probe_shard, range_shards.
  pose proof (Z.mod_pos_bound (start_shard r - first_shard r + p)
                (last_shard r - first_shard r + 1)). lia.
Qed.

Lemma claim_from_spec bm r n : forall probe,
  bitmap_wf bm -> scan_ok bm r -> 0 <= probe ->
  match claim_from bm r probe n with
  | (bm', Ok c) =>
      claimed_bit bm bm' (bit_index c) /\
      sr_begin r <= bit_index c < sr_end r /\
      shard_index c = bit_index c / 64 /\
      probe < shards_probed c <= probe + Z.of_nat n
  | (bm', Err s) =>
      bm' = bm /\ code s = kResourceExhausted /\
      forall p i, probe <= p < probe + Z.of_nat n -> sr_begin r <= i < sr_end r ->
        i / 64 = probe_shard r p -> bit_at (storage_ bm) i = true
  end.
Proof.
  induction n as [|n IH]; intros probe Hwf Hok Hp; cbn [claim_from].
  { split_and!; [done | done | intros; lia]. }
  destruct (probe_shard_range bm r probe Hwf Hok Hp) as (Hrng & H0 & Hlt & _).
  set (s := probe_shard r probe) in *. destruct Hok as [Hb Hh He].
  assert (is_u64 (load_shard (storage_ bm) s)) as Hw.
  { destruct Hwf. apply load_shard_u64; [done | lia]. }
  pose proof (pick_bit_spec (load_shard (storage_ bm) s) (scan_mask r s) probe (sr_hint r)
                Hw (scan_mask_u64 r s) ltac:(lia)) as Hpick.
  destruct (pick_bit _ _ _ _) as [b|].
  - destruct Hpick as (Hb64 & Hmask & Hclear). simpl. unfold kBitmapShardBits.
    rewrite scan_mask_spec in Hmask by lia. bool_to_prop. split_and!; try lia.
    + apply claim_step; [done | lia | done | done].
    + by destruct (shard_bit_join s b Hb64) as [-> _].
  - specialize (IH (probe + 1) Hwf (Build_scan_ok _ _ Hb Hh He) ltac:(lia)).
    destruct (claim_from bm r (probe + 1) n) as [bm' [c|e]].
    + destruct IH as (? & ? & ? & ?). split_and!; (done || lia).
    + destruct IH as (? & ? & Hall). split_and!; [done | done |].
      intros p i Hpi Hi Hs. destruct (Z.eq_dec p probe) as [->|Hne].
      * fold s in Hs. unfold bit_at, kBitmapShardBits. rewrite Hs.
        destruct (shard_bit_split i) as (E & Hm & _); [lia|].
        apply Hpick; [done|]. rewrite scan_mask_spec by lia.
        rewrite <- Hs, <- E. apply andb_true_iff. split; [apply Z.leb_le | apply Z.ltb_lt]; lia.
      * apply (Hall p); [lia | done | done].
Qed.

(** Every shard of the range is reached by some probe of the rotation. *)
Lemma probe_shard_covers bm r s :
  bitmap_wf bm -> scan_ok bm r -> first_shard r <= s <= last_shard r ->
  exists p, 0 <= p < range_shards r /\ probe_shard r p = s.
Proof.
  intros Hwf Hok Hs.
  destruct (probe_shard_range bm r 0 Hwf Hok) as (_ & _ & _ & Hpos); [lia|].
  exists ((s - start_shard r) mod range_shards r). split.
  - apply Z.mod_pos_bound. lia.
  - unfold probe_shard. rewrite Z.add_mod_idemp_r by lia.
    replace (start_shard r - first_shard r + (s - start_shard r))
      with (s - first_shard r) by lia.
    rewrite Z.mod_small; unfold range_shards in *; lia.
Qed.

Lemma hinted_claim bm begin end_ hint :
  bitmap_wf bm -> 0 <= begin -> 0 <= hint ->
  match FindAndSetFreeBitInRangeHinted bm begin end_ hint with
  | (bm', Ok c) =>
      begin <= bit_index c < end_ /\ IsSet bm (bit_index c) = false /\
      (forall i, 0 <= i -> IsSet bm' i = (i =? bit_index c) || IsSet bm i) /\
      bitmap_wf bm' /\ shard_index c = bit_index c / 64 /\
      shard_count_ bm' = shard_count_ bm
  | (bm', Err s) =>
      bm' = bm /\
      (code s = kInvalidArgument /\ (end_ <= begin \/ bit_count bm < end_) \/
       code s = kResourceExhausted /\ forall i, begin <= i < end_ -> IsSet bm i = true)
  end.
Proof.
  intros Hwf Hb Hh. unfold FindAndSetFreeBitInRangeHinted.
  destruct ((end_ <=? begin) || (bit_count bm <? end_)) eqn:G.
  { split; [done|]. left. split; [done|]. bool_to_prop. destruct G; bool_to_prop; lia. }
  bool_to_prop. set (h := if _ || _ then begin else hint).
  set (r := mkScan begin end_ h).
  assert (scan_ok bm r) as Hok.
  { split; simpl; [lia | | lia]. unfold h.
    destruct ((hint <? begin) || (end_ <=? hint)) eqn:G; [lia|]. bool_to_prop. lia. }
  pose proof (claim_from_spec bm r (Z.to_nat (range_shards r)) 0 Hwf Hok ltac:(lia)) as Hspec.
  destruct (claim_from bm r 0 _) as [bm' [c|e]].
  - destruct Hspec as ([Hclr Hbits Hwf' Hc] & Hrng & Hsh & _). simpl in Hrng.
    assert (bit_count bm' = bit_count bm) as Ebc by (unfold bit_count; by rewrite Hc).
    split_and!; try done; try lia.
    + rewrite IsSet_bit_at, Hclr by (done || lia). apply andb_false_r.
    + intros i Hi. rewrite !IsSet_bit_at, Hbits, Ebc by done.
      destruct (Z.eqb_spec i (bit_index c)) as [->|]; simpl; [|done].
      apply andb_true_iff. split; [apply Z.ltb_lt; lia | done].
  - destruct Hspec as (-> & Hcode & Hall). split; [done|]. right. split; [done|].
    intros i Hi. rewrite IsSet_bit_at by (done || lia).
    apply andb_true_iff. split; [apply Z.ltb_lt; lia|].
    destruct (probe_shard_covers bm r (i / 64) Hwf Hok) as (p & Hp & Es).
    { unfold first_shard, last_shard, kBitmapShardBits. simpl.
      split; apply Z.div_le_mono; lia. }
    destruct (probe_shard_range bm r 0 Hwf Hok) as (_ & _ & _ & Hpos); [lia|].
    apply (Hall p i); simpl; [lia | lia | done].
Qed.

(** [FindAndSetFreeBitInRangeHinted] claims one bit of [[begin, end)] that
    was clear and changes nothing else (so a size class never spills into a
    neighbouring class), whatever the hint; it reports [kResourceExhausted]
    only when every bit of the range is set, and leaves the bitmap untouched
    on every error. *)
Theorem claim_in_range_spec bm begin end_ hint :
  bitmap_wf bm -> 0 <= begin -> 0 <= hint ->
  match FindAndSetFreeBitInRangeHinted bm begin end_ hint with
  | (bm', Ok c) =>
      begin <= bit_index c < end_ /\ IsSet bm (bit_index c) = false /\
      (forall i, 0 <= i -> IsSet bm' i = (i =? bit_index c) || IsSet bm i) /\
      bitmap_wf bm' /\ shard_index c = bit_index c / 64
  | (bm', Err s) =>
      bm' = bm /\
      (code s = kInvalidArgument /\ (end_ <= begin \/ bit_count bm < end_) \/
       code s = kResourceExhausted /\ forall i, begin <= i < end_ -> IsSet bm i = true)
  end.
Proof.
  intros Hwf Hb Hh. pose proof (hinted_claim bm begin end_ hint Hwf Hb Hh) as H.
  destruct (FindAndSetFreeBitInRangeHinted _ _ _ _) as [bm' [c|e]]; [|done].
  destruct H as (? & ? & ? & ? & ? & _). done.
Qed.

Definition demo_bitmap : ShardedBitmap := mkBitmap [u64_max - 2; 0] 2.

Lemma demo_bitmap_wf : bitmap_wf demo_bitmap.
Proof. split; simpl; [lia | lia | done |]. repeat constructor; simpl; lia. Qed.

Lemma claim_in_range_spec_witness :
  exists bm' c,
    FindAndSetFreeBitInRangeHinted demo_bitmap 0 70 5 = (bm', Ok c) /\
    bit_index c = 1 /\ IsSet bm' 1 = true.
Proof.
  pose proof (claim_in_range_spec demo_bitmap 0 70 5 demo_bitmap_wf ltac:(lia) ltac:(lia)) as H.
  destruct (FindAndSetFreeBitInRangeHinted demo_bitmap 0 70 5) as [bm' r] eqn:E.
  vm_compute in E. injection E as <- <-.
  destruct H as (_ & _ & H & _). eexists _, _. split; [reflexivity|]. split; [reflexivity|].
  rewrite H by lia. reflexivity.
Defined.

Lemma find_free_from_spec bm start n : forall probe,
  bitmap_wf bm -> 0 <= start < shard_count_ bm ->
  0 <= probe -> probe + Z.of_nat n <= shard_count_ bm ->
  match find_free_from bm start probe n with
  | (bm', Ok k) => claimed_bit bm bm' k /\ 0 <= k < bit_count bm
  | (bm', Err s) =>
      bm' = bm /\ code s = kResourceExhausted /\
      forall p i, probe <= p < probe + Z.of_nat n -> 0 <= i ->
        i / 64 = (start + p) mod shard_count_ bm -> bit_at (storage_ bm) i = true
  end.
Proof.
  induction n as [|n IH]; intros probe Hwf Hs Hp Hn; cbn [find_free_from].
  { split_and!; [done | done | intros; lia]. }
  pose proof Hwf as [H1 H2 H3 H4].
  assert (wrap32 (start + probe) = start + probe) as ->.
  { apply Z.mod_small. lia. }
  set (s := (start + probe) mod shard_count_ bm).
  assert (0 <= s < shard_count_ bm) as Hsr by (apply Z.mod_pos_bound; lia).
  assert (is_u64 (load_shard (storage_ bm) s)) as Hw by (apply load_shard_u64; [done | lia]).
  set (w := load_shard (storage_ bm) s) in *.
  destruct (Z.eqb_spec w u64_max) as [Ew|Ew].
  - specialize (IH (probe + 1) Hwf Hs ltac:(lia) ltac:(lia)).
    destruct (find_free_from bm start (probe + 1) n) as [bm' [k|e]]; [done|].
    destruct IH as (? & ? & Hall). split_and!; [done | done |].
    intros p i Hpr Hi Es. destruct (Z.eq_dec p probe) as [->|Hne].
    + fold s in Es. unfold bit_at, kBitmapShardBits. rewrite Es. fold w. rewrite Ew.
      change u64_max with (Z.ones 64). destruct (shard_bit_split i Hi) as (_ & Hm & _).
      rewrite Z.testbit_ones_nonneg by lia. apply Z.ltb_lt. lia.
    + apply (Hall p); [lia | done | done].
  - destruct (ctz64_spec (not64 w)) as (Hr & Hbit & _).
    { auto with mino. } { unfold not64. lia. }
    rewrite testbit_not64 in Hbit by (done || lia). bool_to_prop.
    assert (wrap32 (s * kBitmapShardBits + ctz64 (not64 w)) = s * 64 + ctz64 (not64 w)) as ->.
    { apply Z.mod_small. unfold kBitmapShardBits. nia. }
    split; [by apply claim_step|]. rewrite bit_count_wf by done. nia.
Qed.

(** [FindAndSetFreeBit] claims one clear bit for every shard hint and
    reports exhaustion only when the whole bitmap is set: the wrapped scan
    visits every shard. *)
Theorem find_free_bit_spec bm hint :
  bitmap_wf bm -> 0 <= hint ->
  match FindAndSetFreeBit bm hint with
  | (bm', Ok k) =>
      0 <= k < bit_count bm /\ IsSet bm k = false /\ bitmap_wf bm' /\
      forall i, 0 <= i -> IsSet bm' i = (i =? k) || IsSet bm i
  | (bm', Err s) =>
      bm' = bm /\ code s = kResourceExhausted /\
      forall i, 0 <= i < bit_count bm -> IsSet bm i = true
  end.
Proof.
  intros Hwf Hh. pose proof Hwf as [H1 H2 H3 H4]. unfold FindAndSetFreeBit.
  pose proof (Z.mod_pos_bound hint (shard_count_ bm) H1) as Hst.
  set (start := hint mod shard_count_ bm) in *.
  pose proof (find_free_from_spec bm start (Z.to_nat (shard_count_ bm)) 0 Hwf Hst
                ltac:(lia) ltac:(lia)) as Hspec.
  destruct (find_free_from _ _ _ _) as [bm' [k|e]].
  - destruct Hspec as ([Hclr Hbits Hwf' Hc] & Hk).
    assert (bit_count bm' = bit_count bm) as Ebc by (unfold bit_count; by rewrite Hc).
    split_and!; try done; try lia.
    + rewrite IsSet_bit_at, Hclr by (done || lia). apply andb_false_r.
    + intros i Hi. rewrite !IsSet_bit_at, Hbits, Ebc by done.
      destruct (Z.eqb_spec i k) as [->|]; simpl; [|done].
      apply andb_true_iff. split; [apply Z.ltb_lt; lia | done].
  - destruct Hspec as (-> & Hcode & Hall). split_and!; [done | done |].
    intros i Hi. rewrite IsSet_bit_at by (done || lia).
    apply andb_true_iff. split; [apply Z.ltb_lt; lia|].
    rewrite bit_count_wf in Hi by done.
    assert (i / 64 < shard_count_ bm) by (apply Z.div_lt_upper_bound; lia).
    pose proof (Z.div_pos i 64).
    apply (Hall ((i / 64 - start) mod shard_count_ bm) i); [|lia|].
    + pose proof (Z.mod_pos_bound (i / 64 - start) (shard_count_ bm)). lia.
    + rewrite Z.add_mod_idemp_r by lia. rewrite Z.mod_small; lia.
Qed.

Lemma find_free_bit_spec_witness :
  exists bm', FindAndSetFreeBit demo_bitmap 7 = (bm', Ok 64) /\ IsSet bm' 64 = true.
Proof.
  pose proof (find_free_bit_spec demo_bitmap 7 demo_bitmap_wf ltac:(lia)) as H.
  destruct (FindAndSetFreeBit demo_bitmap 7) as [bm' r] eqn:E.
  vm_compute in E. injection E as <- <-. destruct H as (_ & _ & _ & H).
  eexists. split; [reflexivity|]. rewrite H by lia. reflexivity.
Defined.

Lemma ClearBit_bits bm k :
  bitmap_wf bm -> 0 <= k < bit_count bm ->
  bitmap_wf (fst (ClearBit bm k)) /\
  (forall i, 0 <= i -> bit_at (storage_ (fst (ClearBit bm k))) i
                       = negb (i =? k) && bit_at (storage_ bm) i) /\
  shard_count_ (fst (ClearBit bm k)) = shard_count_ bm /\
  snd (ClearBit bm k) =
    if IsSet bm k then Ok tt
    else Err (mkStatus kNotFound "bitmap bit was not set (double clear)").
Proof.
  intros Hwf Hk. pose proof Hwf as [H1 H2 H3 H4].
  unfold ClearBit. destruct (Z.leb_spec (bit_count bm) k); [lia|].
  rewrite bit_count_wf in Hk by done.
  destruct (shard_bit_split k) as (E & Hm & Hd); [lia|].
  assert (0 <= k / 64 < zlen (storage_ bm)) as Hs by (split; [lia | rewrite H3; lia]).
  set (bm' := mkBitmap _ _).
  assert (forall b : bool, fst (if b then (bm', Err (mkStatus kNotFound
    "bitmap bit was not set (double clear)")) else (bm', Ok tt)) = bm') as Ef by (by intros []).
  rewrite Ef. split_and!.
  - split; simpl; [done | done | by rewrite store_shard_len |].
    apply store_shard_words; [done|]. apply land_u64_l; [by apply load_shard_u64|].
    pose proof (not64_u64 _ (shl64_u64 1 (k mod kBitmapShardBits))). ulia.
  - intros i Hi. simpl. unfold kBitmapShardBits. rewrite bit_at_clear by lia. by rewrite <- E.
  - done.
  - unfold IsSet. destruct (Z.leb_spec (bit_count bm) k); [lia|]. simpl.
    by destruct (Z.land _ _ =? 0).
Qed.

(** [ClearBit] releases exactly the bit it is given: out of range is
    [kInvalidArgument] without effect, a clear bit is reported as a double
    clear ([kNotFound]), and in every case the other bits keep their value. *)
Theorem clear_bit_spec bm k :
  bitmap_wf bm -> 0 <= k ->
  let '(bm', r) := ClearBit bm k in
  bitmap_wf bm' /\
  (forall i, 0 <= i -> IsSet bm' i = negb (i =? k) && IsSet bm i) /\
  r = (if bit_count bm <=? k then Err (Invalid "bitmap index out of range")
       else if IsSet bm k then Ok tt
       else Err (mkStatus kNotFound "bitmap bit was not set (double clear)")).
Proof.
  intros Hwf Hk. destruct (Z.leb_spec (bit_count bm) k).
  - unfold ClearBit. destruct (Z.leb_spec (bit_count bm) k); [|lia].
    split_and!; [done | | done]. intros i Hi. rewrite !IsSet_bit_at by done.
    destruct (Z.eqb_spec i k) as [->|]; simpl; [|done].
    destruct (Z.ltb_spec k (bit_count bm)); [lia | done].
  - destruct (ClearBit_bits bm k Hwf) as (Hwf' & Hbits & Hc & Hr); [lia|].
    destruct (ClearBit bm k) as [bm' r]; simpl in *.
    split_and!; [done | | done]. intros i Hi.
    assert (bit_count bm' = bit_count bm) as Ebc by (unfold bit_count; by rewrite Hc).
    rewrite !IsSet_bit_at, Hbits, Ebc by done.
    by destruct (i =? k), (i <? bit_count bm).
Qed.

Lemma clear_bit_spec_witness :
  snd (ClearBit demo_bitmap 1) = Err (mkStatus kNotFound "bitmap bit was not set (double clear)")
  /\ IsSet (fst (ClearBit demo_bitmap 0)) 0 = false.
Proof.
  split.
  - pose proof (clear_bit_spec demo_bitmap 1 demo_bitmap_wf ltac:(lia)) as H.
    destruct (ClearBit demo_bitmap 1) as [bm' r]. destruct H as (_ & _ & ->). reflexivity.
  - pose proof (clear_bit_spec demo_bitmap 0 demo_bitmap_wf ltac:(lia)) as H.
    destruct (ClearBit demo_bitmap 0) as [bm' r]. destruct H as (_ & H & _).
    simpl. rewrite H by lia. reflexivity.
Defined.

Lemma set_range_from_spec n : forall st index,
  0 <= index -> Forall is_u64 st -> index + Z.of_nat n <= zlen st * 64 ->
  zlen (set_range_from st index n) = zlen st /\
  Forall is_u64 (set_range_from st index n) /\
  forall i, 0 <= i ->
    bit_at (set_range_from st index n) i
    = (index <=? i) && (i <? index + Z.of_nat n) || bit_at st i.
Proof.
  induction n as [|n IH]; intros st index Hi Hst Hn; cbn [set_range_from].
  { split_and!; try done. intros i Hi'.
    destruct (Z.leb_spec index i), (Z.ltb_spec i (index + Z.of_nat 0)); try done. lia. }
  destruct (shard_bit_split index Hi) as (E & Hm & Hd). unfold kBitmapShardBits.
  set (st' := store_shard st _ _).
  assert (index / 64 < zlen st) by (apply Z.div_lt_upper_bound; lia).
  assert (zlen st' = zlen st) as El by apply store_shard_len.
  assert (Forall is_u64 st') as Hst'.
  { apply store_shard_words; [done|]. apply lor_u64; auto with mino.
    apply load_shard_u64; [done | lia]. }
  destruct (IH st' (index + 1) ltac:(lia) Hst' ltac:(lia)) as (H1 & H2 & H3).
  split_and!; [lia | done |]. intros i Hi'. rewrite H3 by done. unfold st'.
  rewrite bit_at_set by lia. rewrite <- E.
  destruct (Z.leb_spec (index + 1) i), (Z.ltb_spec i (index + 1 + Z.of_nat n)),
    (Z.eqb_spec i index), (Z.leb_spec index i), (Z.ltb_spec i (index + Z.of_nat (S n)));
    simpl; try done; lia.
Qed.

(** [SetRange], used to rebuild an occupancy snapshot, sets exactly the
    bits of [[begin, end)], keeps the bits already set, and ignores an invalid
    range. *)
Theorem set_range_spec bm begin end_ :
  bitmap_wf bm -> 0 <= begin ->
  bitmap_wf (SetRange bm begin end_) /\
  forall i, 0 <= i ->
    IsSet (SetRange bm begin end_) i
    = (end_ <=? bit_count bm) && (begin <=? i) && (i <? end_) || IsSet bm i.
Proof.
  intros Hwf Hb. unfold SetRange. pose proof Hwf as [H1 H2 H3 H4].
  destruct ((end_ <=? begin) || (bit_count bm <? end_)) eqn:G.
  - split; [done|]. intros i Hi.
    destruct (Z.leb_spec end_ (bit_count bm)), (Z.leb_spec begin i), (Z.ltb_spec i end_);
      simpl; try done.
    bool_to_prop. destruct G; bool_to_prop; lia.
  - bool_to_prop. rewrite bit_count_wf in * by done.
    destruct (set_range_from_spec (Z.to_nat (end_ - begin)) (storage_ bm) begin)
      as (H5 & H6 & H7); [done | done | lia |].
    assert (bitmap_wf (mkBitmap (set_range_from (storage_ bm) begin (Z.to_nat (end_ - begin)))
              (shard_count_ bm))) as Hwf' by (split; simpl; (done || lia)).
    split; [done|]. intros i Hi. rewrite !IsSet_bit_at by done.
    rewrite !bit_count_wf by done. simpl. rewrite H7 by done.
    destruct (Z.ltb_spec i (shard_count_ bm * 64)), (Z.leb_spec end_ (shard_count_ bm * 64)),
      (Z.leb_spec begin i), (Z.ltb_spec i (begin + Z.of_nat (Z.to_nat (end_ - begin)))),
      (Z.ltb_spec i end_); simpl; try done; lia.
Qed.

Lemma set_range_spec_witness : IsSet (SetRange demo_bitmap 60 66) 65 = true.
Proof.
  destruct (set_range_spec demo_bitmap 60 66 demo_bitmap_wf ltac:(lia)) as [_ H].
  rewrite H by lia. reflexivity.
Defined.

(** ** Interleaved claims

    Threads run [FindAndSetFreeBitInRangeHinted] and [ClearBit] on one storage.
    A step of a thread is one atomic access (or the decision between two
    accesses); [owners] is ghost state recording which thread holds which
    bit. *)
Module Concurrent.

(** Where a thread is: between operations, about to load the shard of a
    probe, or inside the [for (;;)] with a word it has observed. *)
Inductive PC : Set :=
| Idle
| AtLoad (r : ScanRange) (probe : Z)
| InLoop (r : ScanRange) (probe word : Z).

Record Config : Type := mkConfig
  { words : list Z; threads : gmap nat PC; owners : gmap Z nat }.

Inductive Label : Type :=
| Tau
| Claimed (t : nat) (bit : Z)
| Exhausted (t : nat)
| Released (t : nat) (bit : Z) (result : Result unit).

Definition set_pc (c : Config) (t : nat) (pc : PC) : gmap nat PC :=
  <[t := pc]> (threads c).

Definition bitmap_of (n : Z) (c : Config) : ShardedBitmap := mkBitmap (words c) n.

(** [n] is the shard count. *)
Inductive step (n : Z) : Config -> Label -> Config -> Prop :=
| step_call c t r :
    threads c !! t = Some Idle -> scan_ok (bitmap_of n c) r ->
    step n c Tau (mkConfig (words c) (set_pc c t (AtLoad r 0)) (owners c))
| step_load c t r p :
    threads c !! t = Some (AtLoad r p) ->
    step n c Tau
      (mkConfig (words c)
         (set_pc c t (InLoop r p (load_shard (words c) (probe_shard r p)))) (owners c))
| step_next c t r p w :
    threads c !! t = Some (InLoop r p w) ->
    pick_bit w (scan_mask r (probe_shard r p)) p (sr_hint r) = None ->
    p + 1 < range_shards r ->
    step n c Tau (mkConfig (words c) (set_pc c t (AtLoad r (p + 1))) (owners c))
| step_exhausted c t r p w :
    threads c !! t = Some (InLoop r p w) ->
    pick_bit w (scan_mask r (probe_shard r p)) p (sr_hint r) = None ->
    p + 1 = range_shards r ->
    step n c (Exhausted t) (mkConfig (words c) (set_pc c t Idle) (owners c))
| step_cas_ok c t r p w b :
    threads c !! t = Some (InLoop r p w) ->
    pick_bit w (scan_mask r (probe_shard r p)) p (sr_hint r) = Some b ->
    load_shard (words c) (probe_shard r p) = w ->
    let bit := probe_shard r p * kBitmapShardBits + b in
    step n c (Claimed t bit)
      (mkConfig (store_shard (words c) (probe_shard r p) (Z.lor w (shl64 1 b)))
         (set_pc c t Idle) (<[bit := t]> (owners c)))
| step_cas_fail c t r p w b :
    threads c !! t = Some (InLoop r p w) ->
    pick_bit w (scan_mask r (probe_shard r p)) p (sr_hint r) = Some b ->
    step n c Tau
      (mkConfig (words c)
         (set_pc c t (InLoop r p (load_shard (words c) (probe_shard r p)))) (owners c))
| step_clear c t bit bm' res :
    threads c !! t = Some Idle -> owners c !! bit = Some t ->
    ClearBit (bitmap_of n c) bit = (bm', res) ->
    step n c (Released t bit res)
      (mkConfig (storage_ bm') (threads c) (delete bit (owners c))).

Definition initial (st : list Z) (ts : gset nat) : Config :=
  mkConfig st (gset_to_gmap Idle ts) ∅.

Inductive reachable (n : Z) (st : list Z) (ts : gset nat) : Config -> Prop :=
| reach_init : reachable n st ts (initial st ts)
| reach_step c l c' :
    reachable n st ts c -> step n c l c' -> reachable n st ts c'.

(** A thread inside the loop holds a legal scan and a 64-bit word. *)
Definition pc_ok (bm : ShardedBitmap) (pc : PC) : Prop :=
  match pc with
  | Idle => True
  | AtLoad r p => scan_ok bm r /\ 0 <= p
  | InLoop r p w => scan_ok bm r /\ 0 <= p /\ is_u64 w
  end.

(** The occupancy is the initial one plus exactly the bits held by a
    thread. *)
Record inv (n : Z) (st : list Z) (c : Config) : Prop := {
  inv_wf : bitmap_wf (bitmap_of n c);
  inv_threads : forall t pc, threads c !! t = Some pc -> pc_ok (bitmap_of n c) pc;
  inv_bits : forall i, 0 <= i ->
    bit_at (words c) i = true <-> bit_at st i = true \/ is_Some (owners c !! i);
  inv_fresh : forall i t, owners c !! i = Some t -> 0 <= i < n * 64 /\ bit_at st i = false
}.

Lemma pc_ok_ext n c c' pc :
  pc_ok (bitmap_of n c) pc -> pc_ok (bitmap_of n c') pc.
Proof.
  destruct pc; simpl; unfold bitmap_of; intros; destruct_and?; split_and?; try done;
    match goal with H : scan_ok _ _ |- _ => destruct H; split; done end.
Qed.

Lemma threads_set_pc n c c' t pc :
  (forall t' q, threads c !! t' = Some q -> pc_ok (bitmap_of n c) q) ->
  pc_ok (bitmap_of n c) pc ->
  forall t' q, set_pc c t pc !! t' = Some q -> pc_ok (bitmap_of n c') q.
Proof.
  intros H Hpc t' q Hq. apply (pc_ok_ext n c). unfold set_pc in Hq.
  apply lookup_insert_Some in Hq as [[_ <-]|[_ Hq]]; [done | by apply (H t')].
Qed.

(** The successful compare-exchange of thread [t] in an invariant state. *)
Lemma cas_claims n st c t r p w b :
  inv n st c -> threads c !! t = Some (InLoop r p w) ->
  pick_bit w (scan_mask r (probe_shard r p)) p (sr_hint r) = Some b ->
  load_shard (words c) (probe_shard r p) = w ->
  sr_begin r <= probe_shard r p * 64 + b < sr_end r /\
  claimed_bit (bitmap_of n c)
    (mkBitmap (store_shard (words c) (probe_shard r p) (Z.lor w (shl64 1 b))) n)
    (probe_shard r p * 64 + b).
Proof.
  intros [Hwf Hth Hbits Hfr] Ht Hpick Hw.
  destruct (Hth _ _ Ht) as (Hok & Hp & Hu).
  destruct (probe_shard_range _ r p Hwf Hok Hp) as (Hrng & H0 & Hlt & _). simpl in Hlt.
  pose proof (pick_bit_spec w (scan_mask r (probe_shard r p)) p (sr_hint r) Hu
                (scan_mask_u64 _ _)) as Hs.
  rewrite Hpick in Hs. destruct Hok as [Hb Hh He].
  destruct Hs as (Hb64 & Hm & Hclear); [lia|].
  rewrite scan_mask_spec in Hm by lia. bool_to_prop. split; [lia|].
  subst w. apply (claim_step (bitmap_of n c)); simpl; [done | lia | done | done].
Qed.

Lemma inv_pc_step n st c t pc :
  inv n st c -> pc_ok (bitmap_of n c) pc ->
  inv n st (mkConfig (words c) (set_pc c t pc) (owners c)).
Proof.
  intros [Hwf Hth Hbits Hfr] Hpc. split; simpl; try done.
  by apply (threads_set_pc n c).
Qed.

Lemma inv_claim n st c t r p w b :
  inv n st c -> threads c !! t = Some (InLoop r p w) ->
  pick_bit w (scan_mask r (probe_shard r p)) p (sr_hint r) = Some b ->
  load_shard (words c) (probe_shard r p) = w ->
  inv n st
    (mkConfig (store_shard (words c) (probe_shard r p) (Z.lor w (shl64 1 b)))
       (set_pc c t Idle) (<[probe_shard r p * kBitmapShardBits + b := t]> (owners c))).
Proof.
  intros Hinv Ht Hpick Hw.
  destruct (cas_claims n st c t r p w b Hinv Ht Hpick Hw) as [Hrng [Hclr Hbits' Hwf' _]].
  destruct Hinv as [Hwf Hth Hbits Hfr]. destruct (Hth _ _ Ht) as ([Hb Hh He] & _).
  rewrite (bit_count_wf _ Hwf) in He. simpl in *. unfold kBitmapShardBits.
  set (k := probe_shard r p * 64 + b) in *. split; simpl; [done | | |].
  - by apply (threads_set_pc n c).
  - intros i Hi. rewrite Hbits' by done. rewrite orb_true_iff, Z.eqb_eq, Hbits by done.
    destruct (decide (i = k)) as [->|Hne].
    + rewrite lookup_insert_eq. split; [eauto | by left].
    + rewrite lookup_insert_ne by done. tauto.
  - intros i t' Hi. apply lookup_insert_Some in Hi as [[<- _]|[_ Hi]]; [|by apply (Hfr i t')].
    split; [lia|]. destruct (bit_at st k) eqn:E; [|done].
    assert (bit_at (words c) k = true) by (apply Hbits; [lia | by left]). congruence.
Qed.

Lemma inv_release n st c bit t bm' res :
  inv n st c -> owners c !! bit = Some t ->
  ClearBit (bitmap_of n c) bit = (bm', res) ->
  inv n st (mkConfig (storage_ bm') (threads c) (delete bit (owners c))) /\ res = Ok tt.
Proof.
  intros [Hwf Hth Hbits Hfr] Ho Hclr. destruct (Hfr _ _ Ho) as [Hr Hini].
  assert (0 <= bit < bit_count (bitmap_of n c)) as Hbc by (by rewrite bit_count_wf).
  destruct (ClearBit_bits _ bit Hwf Hbc) as (Hwf' & Hb' & Hc' & Hres).
  rewrite Hclr in *. simpl in *. split; [split; simpl|].
  - by destruct bm'; simpl in *; subst.
  - intros t' pc Hpc. apply (pc_ok_ext n c). by apply (Hth t').
  - intros i Hi. rewrite Hb' by done. rewrite andb_true_iff, negb_true_iff, Z.eqb_neq, Hbits by done.
    destruct (decide (i = bit)) as [->|Hne].
    + rewrite lookup_delete_eq, Hini. split; [by intros [? ?] | by intros [?|[? ?]]].
    + rewrite lookup_delete_ne by done. tauto.
  - intros i t' Hi. apply lookup_delete_Some in Hi as [_ Hi]. by apply (Hfr i t').
  - rewrite IsSet_bit_at in Hres by (done || lia).
    destruct (Z.ltb_spec bit (bit_count (bitmap_of n c))); [|lia]. simpl in Hres.
    assert (bit_at (words c) bit = true) as E by (apply Hbits; [lia | right; eauto]).
    by rewrite E in Hres.
Qed.

Lemma inv_step n st c l c' : inv n st c -> step n c l c' -> inv n st c'.
Proof.
  intros Hinv Hstep. pose proof Hinv as [Hwf Hth Hbits Hfr].
  destruct Hstep as [c t r Ht Hok | c t r p Ht | c t r p w Ht Hpk Hp | c t r p w Ht Hpk Hp
    | c t r p w b Ht Hpk Hw bit | c t r p w b Ht Hpk | c t bit bm' res Ht Ho Hclr].
  - by apply inv_pc_step.
  - destruct (Hth _ _ Ht) as [Hok Hp]. apply inv_pc_step; [done|]. simpl. split_and!; try done.
    destruct (probe_shard_range _ r p Hwf Hok Hp) as (? & ? & ? & _). destruct Hwf; simpl in *.
    apply load_shard_u64; [done | lia].
  - destruct (Hth _ _ Ht) as (Hok & Hp' & _). apply inv_pc_step; [done|]. simpl. split; [done | lia].
  - by apply inv_pc_step.
  - by apply inv_claim.
  - destruct (Hth _ _ Ht) as (Hok & Hp & _). apply inv_pc_step; [done|]. simpl. split_and!; try done.
    destruct (probe_shard_range _ r p Hwf Hok Hp) as (? & ? & ? & _). destruct Hwf; simpl in *.
    apply load_shard_u64; [done | lia].
  - by eapply inv_release.
Qed.

Lemma inv_reachable n st ts c :
  bitmap_wf (mkBitmap st n) -> reachable n st ts c -> inv n st c.
Proof.
  intros Hwf Hr. induction Hr as [|c l c' _ IH Hs]; [|by eapply inv_step].
  split; simpl; [done | | |].
  - intros t pc Ht. apply lookup_gset_to_gmap_Some in Ht as [_ <-]. done.
  - intros i Hi. rewrite lookup_empty. split; [by left | intros [?|[? ?]]; done].
  - intros i t Hi. by rewrite lookup_empty in Hi.
Qed.
End Concurrent.

(** C31: under any interleaving of claims and releases, a compare-exchange that
    succeeds takes a bit that no thread holds and that was clear in memory at
    that moment, inside the range its caller asked for; a thread releasing a
    bit it holds never sees the double-clear error. *)
Theorem claims_exclusive n st ts c l c' :
  bitmap_wf (mkBitmap st n) -> Concurrent.reachable n st ts c ->
  Concurrent.step n c l c' ->
  match l with
  | Concurrent.Claimed t bit =>
      Concurrent.owners c !! bit = None /\
      bit_at (Concurrent.words c) bit = false /\
      bit_at (Concurrent.words c') bit = true /\
      exists r p w, Concurrent.threads c !! t = Some (Concurrent.InLoop r p w) /\
        sr_begin r <= bit < sr_end r
  | Concurrent.Released t bit res => res = Ok tt
  | _ => Concurrent.words c' = Concurrent.words c
  end.
Proof.
  intros Hwf Hr Hs. pose proof (Concurrent.inv_reachable _ _ _ _ Hwf Hr) as Hinv.
  pose proof (Concurrent.inv_step _ _ _ _ _ Hinv Hs) as Hinv'.
  destruct Hs as [| | | |c t r p w b Ht Hpk Hw bit| |c t bit bm' res Ht Ho Hclr];
    try reflexivity.
  - destruct (Concurrent.cas_claims _ _ _ _ _ _ _ _ Hinv Ht Hpk Hw) as [Hrng [Hclr Hb _ _]].
    destruct Hinv as [Hwf' Hth Hbits Hfr]. destruct (Hth _ _ Ht) as ([Hbg _ _] & _).
    unfold bit, kBitmapShardBits. simpl in *.
    set (k := probe_shard r p * 64 + b) in *.
    assert (0 <= k) as Hk by lia. split_and!; [| done | | by exists r, p, w].
    + destruct (Concurrent.owners c !! k) eqn:Eo; [|done].
      rewrite (proj2 (Hbits k Hk)) in Hclr; [done | rewrite Eo; eauto].
    + rewrite Hb by done. by rewrite Z.eqb_refl.
  - by destruct (Concurrent.inv_release _ _ _ _ _ _ _ Hinv Ho Hclr).
Qed.

(** No bit is lost or invented: in every reachable configuration a bit is
    set exactly when it was set initially or some thread holds it. *)
Theorem occupancy_accounting n st ts c i :
  bitmap_wf (mkBitmap st n) -> Concurrent.reachable n st ts c -> 0 <= i ->
  bit_at (Concurrent.words c) i = true <->
  bit_at st i = true \/ is_Some (Concurrent.owners c !! i).
Proof.
  intros Hwf Hr Hi. by destruct (Concurrent.inv_reachable _ _ _ _ Hwf Hr) as [_ _ Hb _]; apply Hb.
Qed.

(** A run of one thread up to its first successful compare-exchange. *)
Definition demo_scan : ScanRange := mkScan 0 64 3.
Definition demo_c0 : Concurrent.Config := Concurrent.initial [8] {[0%nat]}.
Definition demo_c1 : Concurrent.Config :=
  Concurrent.mkConfig [8] (Concurrent.set_pc demo_c0 0 (Concurrent.AtLoad demo_scan 0)) ∅.
Definition demo_c2 : Concurrent.Config :=
  Concurrent.mkConfig [8] (Concurrent.set_pc demo_c1 0 (Concurrent.InLoop demo_scan 0 8)) ∅.
Definition demo_c3 : Concurrent.Config :=
  Concurrent.mkConfig [24] (Concurrent.set_pc demo_c2 0 Concurrent.Idle) {[4 := 0%nat]}.

Lemma demo_wf : bitmap_wf (mkBitmap [8] 1).
Proof. split; simpl; [lia | lia | done |]. repeat constructor; simpl; lia. Qed.

Lemma demo_c2_reachable : Concurrent.reachable 1 [8] {[0%nat]} demo_c2.
Proof.
  apply (Concurrent.reach_step _ _ _ demo_c1 Concurrent.Tau).
  - apply (Concurrent.reach_step _ _ _ demo_c0 Concurrent.Tau); [apply Concurrent.reach_init|].
    apply (Concurrent.step_call 1 demo_c0 0 demo_scan); [reflexivity|].
    split; vm_compute; intuition congruence.
  - apply (Concurrent.step_load 1 demo_c1 0 demo_scan 0). reflexivity.
Qed.

Lemma demo_claim_step : Concurrent.step 1 demo_c2 (Concurrent.Claimed 0 4) demo_c3.
Proof.
  apply (Concurrent.step_cas_ok 1 demo_c2 0 demo_scan 0 8 4); vm_compute; reflexivity.
Qed.

Lemma claims_exclusive_witness :
  bit_at (Concurrent.words demo_c2) 4 = false /\ bit_at (Concurrent.words demo_c3) 4 = true.
Proof.
  pose proof (claims_exclusive 1 [8] {[0%nat]} demo_c2 (Concurrent.Claimed 0 4) demo_c3
    demo_wf demo_c2_reachable demo_claim_step) as H.
  simpl in H. destruct H as (_ & H1 & H2 & _). split; assumption.
Defined.

Lemma occupancy_accounting_witness :
  bit_at (Concurrent.words demo_c3) 4 = true <->
  bit_at [8] 4 = true \/ is_Some (Concurrent.owners demo_c3 !! 4).
Proof.
  apply (occupancy_accounting 1 [8] {[0%nat]}); [exact demo_wf | | lia].
  eapply Concurrent.reach_step; [exact demo_c2_reachable | exact demo_claim_step].
Defined.
