(* ===== verification/GenerationArray.v ===== *)
(** * Per-slot generations

    Models [mino/shm/allocator/generation_array.h] and [.cc]: the authoritative
    32-bit generation of every slot, which must never wrap. *)
From S2P Require Import Prelude.

(** [std::numeric_limits<uint32_t>::max()] marks a drained slot. *)
Definition kGenerationDraining : Z := u32_max.

Record GenerationArray : Set := mkGenerations
  { cells : list Z; slot_count_ : Z }.

Definition Create (storage : option (list Z)) (slot_count : Z)
  : Result GenerationArray :=
  match storage with
  | None => Err (Invalid "generation array storage must not be null")
  | Some st =>
      fail_if slot_count =? 0 with
        Invalid "generation array requires at least one slot" ;;
      Ok (mkGenerations st slot_count)
  end.

Definition Increment (g : GenerationArray) (slot_index : Z) : GenerationArray * Z :=
  if slot_count_ g <=? slot_index then (g, kGenerationDraining)
  else
    let current := cells g !!! Z.to_nat slot_index in
    if current =? kGenerationDraining then (g, kGenerationDraining)
    else (mkGenerations (<[Z.to_nat slot_index := wrap32 (current + 1)]> (cells g))
            (slot_count_ g),
          wrap32 (current + 1)).

Definition Get (g : GenerationArray) (slot_index : Z) : Z :=
  if slot_count_ g <=? slot_index then 0 else cells g !!! Z.to_nat slot_index.

(** ** Properties *)

Record generations_wf (g : GenerationArray) : Prop := {
  gwf_len : zlen (cells g) = slot_count_ g;
  gwf_cells : Forall is_u32 (cells g)
}.

Lemma Get_u32 g i : generations_wf g -> 0 <= i -> is_u32 (Get g i).
Proof.
  intros [Hl Hc] Hi. unfold Get. destruct (Z.leb_spec (slot_count_ g) i); [ulia|].
  eapply Forall_lookup_1; [exact Hc|]. apply list_lookup_lookup_total_lt. ulia.
Qed.

Lemma Get_insert g i j v :
  generations_wf g -> 0 <= i < slot_count_ g -> 0 <= j ->
  Get (mkGenerations (<[Z.to_nat i := v]> (cells g)) (slot_count_ g)) j
  = if i =? j then v else Get g j.
Proof.
  intros [Hl Hc] Hi Hj. unfold Get; simpl.
  destruct (Z.leb_spec (slot_count_ g) j), (Z.eqb_spec i j); try lia; try done.
  - subst. apply list_lookup_total_insert_eq. ulia.
  - apply list_lookup_total_insert_ne. lia.
Qed.

(** [Increment] either leaves the array alone and answers the draining mark,
    or advances one slot by exactly one. *)
Lemma Increment_cases g i :
  generations_wf g -> 0 <= i ->
  (Increment g i = (g, kGenerationDraining) /\
   (slot_count_ g <= i \/ Get g i = kGenerationDraining)) \/
  (exists g', Increment g i = (g', Get g i + 1) /\ Get g i + 1 <= kGenerationDraining /\
     i < slot_count_ g /\ slot_count_ g' = slot_count_ g /\ generations_wf g' /\
     forall j, 0 <= j -> Get g' j = if i =? j then Get g i + 1 else Get g j).
Proof.
  intros Hwf Hi. pose proof (Get_u32 g i Hwf Hi) as Hu.
  unfold Increment. destruct (Z.leb_spec (slot_count_ g) i) as [|Hlt]; [left; eauto|].
  assert (cells g !!! Z.to_nat i = Get g i) as E.
  { unfold Get. destruct (Z.leb_spec (slot_count_ g) i); [lia | done]. }
  rewrite E. destruct (Z.eqb_spec (Get g i) kGenerationDraining) as [Ed|Ed]; [left; eauto|].
  right. unfold kGenerationDraining in *.
  assert (wrap32 (Get g i + 1) = Get g i + 1) as -> by (apply Z.mod_small; ulia).
  eexists. split; [reflexivity|]. split_and!; simpl; [ulia | done | done | |].
  - destruct Hwf as [Hl Hc]. split; simpl; [by unfold zlen; rewrite length_insert|].
    apply Forall_insert; [done | ulia].
  - intros j Hj. by apply Get_insert.
Qed.

(** A sequence of increments, as the allocator issues them. *)
Fixpoint run_increments (g : GenerationArray) (slots : list Z) : GenerationArray :=
  match slots with
  | [] => g
  | s :: rest => run_increments (fst (Increment g s)) rest
  end.

Lemma run_increments_spec slots : forall g i,
  generations_wf g -> Forall (fun s => 0 <= s) slots -> 0 <= i ->
  generations_wf (run_increments g slots) /\
  slot_count_ (run_increments g slots) = slot_count_ g /\
  Get g i <= Get (run_increments g slots) i.
Proof.
  induction slots as [|s rest IH]; intros g i Hwf Hs Hi; simpl; [done|].
  apply Forall_cons_1 in Hs as [Hs0 Hs].
  destruct (Increment_cases g s Hwf Hs0) as [[-> _]|(g' & -> & _ & _ & Hc & Hwf' & Hg)]; simpl.
  - by apply IH.
  - destruct (IH g' i Hwf' Hs Hi) as (H1 & H2 & H3). split_and!; [done | lia |].
    rewrite Hg in H3 by done. destruct (Z.eqb_spec s i); subst; lia.
Qed.

(** Generations never wrap: whatever sequence of allocations increments
    them, a slot's generation only grows, and every increment that succeeds
    returns a value no earlier allocation of that slot returned (it exceeds the
    generation before it), so a stale handle cannot match a recycled slot. *)
Theorem generations_never_reused g slots i :
  generations_wf g -> Forall (fun s => 0 <= s) slots -> 0 <= i ->
  let g1 := run_increments g slots in
  let '(g2, r) := Increment g1 i in
  Get g i <= Get g1 i /\
  (r = kGenerationDraining \/ Get g1 i < r <= kGenerationDraining /\ Get g2 i = r) /\
  (Get g1 i = kGenerationDraining -> g2 = g1 /\ r = kGenerationDraining).
Proof.
  intros Hwf Hs Hi. destruct (run_increments_spec slots g i Hwf Hs Hi) as (Hwf1 & Hc1 & Hle).
  simpl. destruct (Increment_cases (run_increments g slots) i Hwf1 Hi)
    as [[-> _]|(g' & -> & Hb & Hlt & _ & _ & Hg)].
  - split_and!; [done | by left | done].
  - split_and!; [done | right | intros E; lia].
    split; [lia|]. rewrite Hg by done. by rewrite Z.eqb_refl.
Qed.

Lemma generations_never_reused_witness :
  exists g2, Increment (run_increments (mkGenerations [7; u32_max - 1] 2) [1; 0]) 0 = (g2, 9)
    /\ 7 <= Get (run_increments (mkGenerations [7; u32_max - 1] 2) [1; 0]) 0.
Proof.
  assert (generations_wf (mkGenerations [7; u32_max - 1] 2)) as Hwf
    by (split; [reflexivity | repeat constructor; simpl; lia]).
  pose proof (generations_never_reused (mkGenerations [7; u32_max - 1] 2) [1; 0] 0 Hwf
    ltac:(repeat constructor; lia) ltac:(lia)) as H.
  simpl in H. destruct (Increment _ 0) as [g2 r] eqn:E. destruct H as (H & _ & _).
  exists g2. split; [|exact H]. rewrite <- E. vm_compute in E. injection E as <- <-. reflexivity.
Defined.
