(* ===== verification/ClassTable.v ===== *)
(** * Size-class table

    Models [mino/shm/allocator/class_table.h] and [.cc], and relates the bit
    ranges it hands out to the sharded bitmap that stores them. *)
From S2P Require Import Prelude Bitmap.

Definition kMaxClassCount : Z := 256.

Record ClassDescriptor : Set := mkDesc
  { class_id : Z; slot_size : Z; slot_count : Z; bitmap_shard_offset : Z }.

Record Entry : Set := mkEntry { e_slot_size : Z; e_slot_count : Z }.
Definition ClassTableConfig : Set := list Entry.

Record ClassTable : Set := mkTable
  { classes_ : list ClassDescriptor; total_slots_ : Z }.

Definition DefaultClassTableConfig : ClassTableConfig :=
  [ mkEntry 64 4096; mkEntry 256 2048; mkEntry (2 * 1024) 1024; mkEntry (64 * 1024) 256 ].

(** The body of the loop over [config.classes], with the loop's locals as
    arguments: the index, the previous slot size, the next bit and the
    descriptors pushed so far. *)
Fixpoint build_classes (entries : list Entry) (i prev_slot_size next_bit : Z)
    (acc : list ClassDescriptor) : Result ClassTable :=
  match entries with
  | [] => Ok (mkTable acc (wrap32 next_bit))
  | entry :: rest =>
      fail_if e_slot_size entry =? 0 with
        Invalid "class slot_size must be positive" ;;
      fail_if u32_max / 2 <? e_slot_size entry with
        Invalid "class slot_size too large" ;;
      fail_if e_slot_count entry =? 0 with
        Invalid "class slot_count must be positive" ;;
      fail_if (0 <? i) && (e_slot_size entry <=? prev_slot_size) with
        Invalid "class slot sizes must be strictly increasing" ;;
      let desc := {| class_id := i mod two16; slot_size := e_slot_size entry;
                     slot_count := e_slot_count entry;
                     bitmap_shard_offset := wrap32 next_bit |} in
      let next_bit := wrap64 (next_bit + e_slot_count entry) in
      let next_bit := wrap64 (wrap64 (next_bit + 63) / 64 * 64) in
      fail_if u32_max <? next_bit with
        Invalid "total slot count overflows uint32_t" ;;
      build_classes rest (i + 1) (e_slot_size entry) next_bit (acc ++ [desc])
  end.

Definition Create (config : ClassTableConfig) : Result ClassTable :=
  match config with
  | [] => Err (Invalid "ClassTable requires at least one class")
  | _ =>
      fail_if kMaxClassCount <? zlen config with
        Invalid "ClassTable has too many classes" ;;
      build_classes config 0 0 0 []
  end.

Fixpoint find_class (descs : list ClassDescriptor) (object_size : Z) : Result Z :=
  match descs with
  | [] => Err (mkStatus kNotFound "no size class can hold the requested object size")
  | desc :: rest =>
      if object_size <=? slot_size desc then Ok (class_id desc)
      else find_class rest object_size
  end.

Definition FindClass (t : ClassTable) (object_size : Z) : Result Z :=
  fail_if object_size =? 0 with Invalid "object_size must be positive" ;;
  find_class (classes_ t) object_size.

(** [GetClass]; the precondition [class_id < class_count()] is asserted. *)
Definition GetClass (t : ClassTable) (id : Z) : option ClassDescriptor :=
  classes_ t !! Z.to_nat id.

Definition class_count (t : ClassTable) : Z := zlen (classes_ t) mod two16.
Definition max_object_size (t : ClassTable) : Z :=
  match list.last (classes_ t) with None => 0 | Some d => slot_size d end.

(** ** Layout of the classes *)

Definition round_up_64 (z : Z) : Z := (z + 63) / 64 * 64.

Lemma round_up_64_spec z : z <= round_up_64 z < z + 64 /\ (64 | round_up_64 z).
Proof.
  unfold round_up_64. pose proof (Z.div_mod (z + 63) 64). pose proof (Z.mod_pos_bound (z + 63) 64).
  split; [lia | by exists ((z + 63) / 64)].
Qed.

(** [ds] are consecutive classes starting at index [i] and bit [bit], above
    slot size [prev]; the first bit after them is [total]. *)
Fixpoint layout_ok (i prev bit : Z) (ds : list ClassDescriptor) (total : Z) : Prop :=
  match ds with
  | [] => bit = total
  | d :: rest =>
      class_id d = i /\ prev < slot_size d <= u32_max / 2 /\ 0 < slot_count d /\
      bitmap_shard_offset d = bit /\
      layout_ok (i + 1) (slot_size d) (round_up_64 (bit + slot_count d)) rest total
  end.

Definition entry_of (d : ClassDescriptor) : Entry := mkEntry (slot_size d) (slot_count d).
Definition entry_u32 (e : Entry) : Prop := is_u32 (e_slot_size e) /\ is_u32 (e_slot_count e).

Lemma build_classes_spec entries : forall i prev bit acc,
  Forall entry_u32 entries -> 0 <= i -> i + zlen entries <= 256 ->
  0 <= prev -> (i = 0 -> prev = 0) -> 0 <= bit <= u32_max -> (64 | bit) ->
  match build_classes entries i prev bit acc with
  | Ok t => exists ds, classes_ t = acc ++ ds /\ entry_of <$> ds = entries /\
              layout_ok i prev bit ds (total_slots_ t) /\
              0 <= total_slots_ t <= u32_max /\ (64 | total_slots_ t)
  | Err s => code s = kInvalidArgument
  end.
Proof.
  induction entries as [|e rest IH]; intros i prev bit acc Hu Hi Hlen Hprev Hp0 Hbit Hdiv;
    cbn [build_classes].
  { exists []. simpl. unfold wrap32. rewrite Z.mod_small by lia.
    split_and!; try done; try lia. by rewrite app_nil_r. }
  apply Forall_cons_1 in Hu as [[He1 He2] Hu].
  assert (i mod two16 = i) as Ei by (apply Z.mod_small; unfold zlen in *; simpl in *; lia).
  assert (wrap32 bit = bit) as Eb by (apply Z.mod_small; lia).
  assert (wrap64 (wrap64 (wrap64 (bit + e_slot_count e) + 63) / 64 * 64)
          = round_up_64 (bit + e_slot_count e)) as En.
  { destruct (round_up_64_spec (bit + e_slot_count e)) as [Hr _]. unfold round_up_64 in *.
    rewrite (wrap64_id (bit + e_slot_count e)) by ulia.
    rewrite (wrap64_id (_ + 63)) by ulia. apply wrap64_id. ulia. }
  rewrite Ei, Eb, En.
  destruct (e_slot_size e =? 0) eqn:G1; [done|]. destruct (u32_max / 2 <? e_slot_size e) eqn:G2; [done|].
  destruct (e_slot_count e =? 0) eqn:G3; [done|].
  destruct ((0 <? i) && (e_slot_size e <=? prev)) eqn:G4; [done|].
  destruct (u32_max <? round_up_64 (bit + e_slot_count e)) eqn:G5; [done|].
  bool_to_prop. destruct (round_up_64_spec (bit + e_slot_count e)) as [Hr Hd].
  set (d := mkDesc _ _ _ _).
  specialize (IH (i + 1) (e_slot_size e) (round_up_64 (bit + e_slot_count e)) (acc ++ [d]) Hu
    ltac:(lia) ltac:(unfold zlen in *; simpl in *; lia) ltac:(ulia) ltac:(lia) ltac:(ulia) Hd).
  destruct (build_classes _ _ _ _ _) as [t|s]; [|done].
  destruct IH as (ds & E1 & E2 & E3 & E4 & E5). exists (d :: ds).
  split_and!; try done; try lia.
  - by rewrite E1, <- app_assoc.
  - rewrite fmap_cons, E2. by destruct e.
  - simpl. split_and!; try done; ulia.
Qed.

Lemma layout_ok_total ds : forall i prev bit total,
  layout_ok i prev bit ds total -> bit <= total.
Proof.
  induction ds as [|d rest IH]; simpl; intros i prev bit total Hl; [lia|].
  destruct Hl as (_ & _ & Hc & _ & Hl). apply IH in Hl.
  destruct (round_up_64_spec (bit + slot_count d)). lia.
Qed.

(** Any two classes of a layout: the later one is larger and its bits come
    after all bits of the earlier one. *)
Lemma layout_ok_lookup ds : forall i prev bit total k d,
  layout_ok i prev bit ds total -> 0 <= bit -> (64 | bit) -> ds !! k = Some d ->
  class_id d = i + Z.of_nat k /\ prev < slot_size d /\ 0 < slot_count d /\
  bit <= bitmap_shard_offset d /\ (64 | bitmap_shard_offset d) /\
  bitmap_shard_offset d + slot_count d <= total.
Proof.
  induction ds as [|d0 rest IH]; intros i prev bit total k d Hl Hbit Hdiv Hk; [done|].
  destruct Hl as (H1 & H2 & H3 & H4 & H5).
  destruct (round_up_64_spec (bit + slot_count d0)) as [Hr Hd].
  destruct k as [|k]; simpl in Hk.
  - injection Hk as ->. split_and!; try lia; [by rewrite H4|].
    pose proof (layout_ok_total _ _ _ _ _ H5). lia.
  - destruct (IH _ _ _ _ _ _ H5 ltac:(lia) Hd Hk) as (? & ? & ? & ? & ? & ?).
    split_and!; (done || lia).
Qed.

Lemma layout_ok_order ds : forall i prev bit total j k dj dk,
  layout_ok i prev bit ds total -> 0 <= bit -> (64 | bit) ->
  ds !! j = Some dj -> ds !! k = Some dk -> (j < k)%nat ->
  slot_size dj < slot_size dk /\
  bitmap_shard_offset dj + slot_count dj <= bitmap_shard_offset dk.
Proof.
  induction ds as [|d0 rest IH]; intros i prev bit total j k dj dk Hl Hbit Hdiv Hj Hk Hjk; [done|].
  destruct Hl as (H1 & H2 & H3 & H4 & H5).
  destruct (round_up_64_spec (bit + slot_count d0)) as [Hr Hd].
  destruct k as [|k]; [lia|]. destruct j as [|j]; simpl in Hj, Hk.
  - injection Hj as ->. destruct (layout_ok_lookup _ _ _ _ _ _ _ H5 ltac:(lia) Hd Hk)
      as (? & ? & ? & ? & ? & ?). lia.
  - eapply (IH _ _ _ _ j k); [exact H5 | lia | done | done | done | lia].
Qed.

Lemma Create_layout cfg t :
  Forall entry_u32 cfg -> Create cfg = Ok t ->
  entry_of <$> classes_ t = cfg /\ layout_ok 0 0 0 (classes_ t) (total_slots_ t) /\
  0 <= total_slots_ t <= u32_max /\ (64 | total_slots_ t) /\ 0 < zlen (classes_ t) <= 256.
Proof.
  intros Hu Hc. unfold Create in Hc. destruct cfg as [|e rest]; [done|].
  destruct (kMaxClassCount <? zlen (e :: rest)) eqn:G; [done|]. bool_to_prop.
  unfold kMaxClassCount in G.
  pose proof (build_classes_spec (e :: rest) 0 0 0 [] Hu) as H. rewrite Hc in H.
  destruct H as (ds & E1 & E2 & E3 & E4 & E5); try lia; [by exists 0|].
  simpl in E1. subst ds. split_and!; try done; try lia.
  - rewrite <- E2 in G. unfold zlen in *. rewrite length_fmap in G.
    destruct (classes_ t); [done | simpl; lia].
  - rewrite <- E2 in G. unfold zlen in *. by rewrite length_fmap in G.
Qed.

(** A class table that [ClassTable::Create] accepts lays out the classes of
    the configuration in order, with strictly increasing slot sizes and bit
    ranges that are disjoint, start on a shard boundary and end within
    [total_slot_count()], which fits [uint32_t]; anything else is refused with
    [kInvalidArgument]. *)
Theorem class_table_layout cfg :
  Forall entry_u32 cfg ->
  match Create cfg with
  | Err s => code s = kInvalidArgument
  | Ok t =>
      entry_of <$> classes_ t = cfg /\ (64 | total_slots_ t) /\ is_u32 (total_slots_ t) /\
      (forall k d, classes_ t !! k = Some d ->
         class_id d = Z.of_nat k /\ (64 | bitmap_shard_offset d) /\
         0 <= bitmap_shard_offset d /\ 0 < slot_count d /\
         bitmap_shard_offset d + slot_count d <= total_slots_ t) /\
      (forall j k dj dk, classes_ t !! j = Some dj -> classes_ t !! k = Some dk ->
         (j < k)%nat ->
         slot_size dj < slot_size dk /\
         bitmap_shard_offset dj + slot_count dj <= bitmap_shard_offset dk)
  end.
Proof.
  intros Hu. destruct (Create cfg) as [t|s] eqn:E.
  - destruct (Create_layout cfg t Hu E) as (E2 & E3 & E4 & E5 & _).
    split_and!; try done; try ulia.
    + intros k d Hk. destruct (layout_ok_lookup _ _ _ _ _ _ _ E3 ltac:(lia) ltac:(by exists 0) Hk)
        as (? & ? & ? & ? & ? & ?). split_and!; (done || lia).
    + intros j k dj dk Hj Hk Hjk.
      by apply (layout_ok_order _ _ _ _ _ j k dj dk E3 ltac:(lia) ltac:(by exists 0)).
  - unfold Create in E. destruct cfg as [|e rest]; [by injection E as <-|].
    destruct (kMaxClassCount <? zlen (e :: rest)) eqn:G; [by injection E as <-|].
    bool_to_prop. unfold kMaxClassCount in G.
    pose proof (build_classes_spec (e :: rest) 0 0 0 [] Hu) as H. rewrite E in H.
    apply H; try lia. by exists 0.
Qed.

Lemma class_table_layout_witness :
  exists t, Create DefaultClassTableConfig = Ok t /\ (64 | total_slots_ t) /\ total_slots_ t = 7424.
Proof.
  pose proof (class_table_layout DefaultClassTableConfig ltac:(repeat constructor; simpl; lia)) as H.
  destruct (Create DefaultClassTableConfig) as [t|s] eqn:E; [|vm_compute in E; discriminate E].
  exists t. destruct H as (_ & H & _). split; [reflexivity|]. split; [exact H|].
  vm_compute in E. injection E as <-. reflexivity.
Defined.

Lemma find_class_spec ds size : forall i prev bit total,
  layout_ok i prev bit ds total ->
  match find_class ds size with
  | Ok id => exists k d, ds !! k = Some d /\ id = i + Z.of_nat k /\ size <= slot_size d /\
               forall j dj, (j < k)%nat -> ds !! j = Some dj -> slot_size dj < size
  | Err s => code s = kNotFound /\ forall k d, ds !! k = Some d -> slot_size d < size
  end.
Proof.
  induction ds as [|d0 rest IH]; intros i prev bit total Hl; simpl; [done|].
  destruct Hl as (H1 & H2 & H3 & H4 & H5).
  destruct (Z.leb_spec size (slot_size d0)).
  - exists 0%nat, d0. split_and!; [done | lia | done | intros; lia].
  - specialize (IH _ _ _ _ H5). destruct (find_class rest size).
    + destruct IH as (k & d & Hk & -> & Hs & Hlt). exists (S k), d.
      split_and!; [done | lia | done |]. intros [|j] dj Hj Hdj; simpl in Hdj; [congruence|].
      by apply (Hlt j); [lia|].
    + destruct IH as [Hc Hall]. split; [done|]. intros [|k] d Hk; simpl in Hk; [congruence|].
      by apply (Hall k).
Qed.

(** [FindClass] returns the smallest class that can hold the object, and
    reports [kNotFound] exactly when the object is larger than every class. *)
Theorem find_class_smallest cfg t size :
  Forall entry_u32 cfg -> Create cfg = Ok t -> 0 < size ->
  match FindClass t size with
  | Ok id => exists d, GetClass t id = Some d /\ size <= slot_size d /\
      forall k dk, classes_ t !! k = Some dk -> size <= slot_size dk ->
        slot_size d <= slot_size dk
  | Err s => code s = kNotFound /\
      forall k dk, classes_ t !! k = Some dk -> slot_size dk < size
  end.
Proof.
  intros Hu Hc Hs. destruct (Create_layout cfg t Hu Hc) as (_ & Hl & _).
  unfold FindClass. destruct (Z.eqb_spec size 0); [lia|].
  pose proof (find_class_spec (classes_ t) size _ _ _ _ Hl) as H.
  destruct (find_class _ _) as [id|s]; [|done].
  destruct H as (k & d & Hk & -> & Hd & Hlt). exists d. unfold GetClass.
  rewrite Z.add_0_l, Nat2Z.id. split_and!; [done | done |]. intros j dj Hj Hsj.
  destruct (lt_eq_lt_dec j k) as [[Hjk|Hjk]|Hjk].
  - specialize (Hlt j dj Hjk Hj). lia.
  - subst. rewrite Hk in Hj. injection Hj as ->. lia.
  - destruct (layout_ok_order _ _ _ _ _ k j d dj Hl ltac:(lia) ltac:(by exists 0) Hk Hj Hjk). lia.
Qed.

Lemma find_class_smallest_witness :
  exists t d, Create DefaultClassTableConfig = Ok t /\ FindClass t 65 = Ok 1 /\
    GetClass t 1 = Some d /\ 65 <= slot_size d.
Proof.
  destruct (Create DefaultClassTableConfig) as [t|s] eqn:E; [|vm_compute in E; discriminate E].
  pose proof (find_class_smallest DefaultClassTableConfig t 65
    ltac:(repeat constructor; simpl; lia) E ltac:(lia)) as H.
  assert (FindClass t 65 = Ok 1) as F by (vm_compute in E; injection E as <-; reflexivity).
  rewrite F in H. destruct H as (d & H1 & H2 & _).
  exists t, d. split; [reflexivity|]. split; [exact F|]. split; assumption.
Defined.

(** A bitmap of [total_slot_count()] bits, as the slab allocator builds it. *)
Definition serves (t : ClassTable) (bm : ShardedBitmap) : Prop :=
  bitmap_wf bm /\ bit_count bm = total_slots_ t.

(** A slot claimed in the bit range of one class belongs to that class
    only: the range is always accepted by the bitmap, the claimed bit is in it,
    was free, and lies in the range of no other class; when no bit is found,
    every slot of the class is in use. *)
Theorem class_claim_isolated cfg t bm k d hint :
  Forall entry_u32 cfg -> Create cfg = Ok t -> serves t bm ->
  classes_ t !! k = Some d -> 0 <= hint ->
  match FindAndSetFreeBitInRangeHinted bm (bitmap_shard_offset d)
          (bitmap_shard_offset d + slot_count d) hint with
  | (bm', Ok c) =>
      bitmap_shard_offset d <= bit_index c < bitmap_shard_offset d + slot_count d /\
      IsSet bm (bit_index c) = false /\ serves t bm' /\
      (forall j dj, j <> k -> classes_ t !! j = Some dj ->
         ~ (bitmap_shard_offset dj <= bit_index c < bitmap_shard_offset dj + slot_count dj)) /\
      (forall i, 0 <= i -> i <> bit_index c -> IsSet bm' i = IsSet bm i)
  | (bm', Err s) =>
      bm' = bm /\ code s = kResourceExhausted /\
      forall i, bitmap_shard_offset d <= i < bitmap_shard_offset d + slot_count d ->
        IsSet bm i = true
  end.
Proof.
  intros Hu Hc [Hwf Hbc] Hk Hh. destruct (Create_layout cfg t Hu Hc) as (_ & Hl & _).
  destruct (layout_ok_lookup _ _ _ _ _ _ _ Hl ltac:(lia) ltac:(by exists 0) Hk)
    as (_ & _ & Hpos & Hoff & _ & Hend).
  pose proof (hinted_claim bm (bitmap_shard_offset d)
    (bitmap_shard_offset d + slot_count d) hint Hwf ltac:(lia) Hh) as H.
  destruct (FindAndSetFreeBitInRangeHinted _ _ _ _) as [bm' [c|s]].
  - destruct H as (Hr & Hclr & Hbits & Hwf' & _ & Hcnt). split_and!; try done; try lia.
    + split; [done|]. unfold bit_count. rewrite Hcnt. exact Hbc.
    + intros j dj Hjk Hj Hin. destruct (lt_eq_lt_dec j k) as [[H'|H']|H']; [|done|].
      * destruct (layout_ok_order _ _ _ _ _ j k dj d Hl ltac:(lia) ltac:(by exists 0) Hj Hk H'). lia.
      * destruct (layout_ok_order _ _ _ _ _ k j d dj Hl ltac:(lia) ltac:(by exists 0) Hk Hj H'). lia.
    + intros i Hi Hne. rewrite Hbits by done. by destruct (Z.eqb_spec i (bit_index c)).
  - destruct H as (-> & [[_ H]|[Hcode Hall]]); [lia | done].
Qed.

Lemma class_claim_isolated_witness :
  exists t d bm' c,
    Create [mkEntry 64 10; mkEntry 128 5] = Ok t /\ classes_ t !! 1%nat = Some d /\
    FindAndSetFreeBitInRangeHinted (mkBitmap [0; 0] 2) (bitmap_shard_offset d)
      (bitmap_shard_offset d + slot_count d) 0 = (bm', Ok c) /\
    IsSet bm' 9 = IsSet (mkBitmap [0; 0] 2) 9.
Proof.
  destruct (Create [mkEntry 64 10; mkEntry 128 5]) as [t|s] eqn:E; [|vm_compute in E; discriminate E].
  assert (serves t (mkBitmap [0; 0] 2)) as Hs.
  { vm_compute in E. injection E as <-. split; [|reflexivity].
    split; simpl; [lia | lia | reflexivity | repeat constructor; simpl; lia]. }
  assert (exists d, classes_ t !! 1%nat = Some d /\ bitmap_shard_offset d = 64 /\ slot_count d = 5)
    as (d & Hd & Ho & Hn) by (vm_compute in E; injection E as <-; eexists; split; [reflexivity | split; reflexivity]).
  pose proof (class_claim_isolated [mkEntry 64 10; mkEntry 128 5] t (mkBitmap [0; 0] 2) 1 d 0
    ltac:(repeat constructor; simpl; lia) E Hs Hd ltac:(lia)) as H.
  destruct (FindAndSetFreeBitInRangeHinted _ _ _ 0) as [bm' r] eqn:F.
  pose proof F as F'. rewrite Ho, Hn in F'. vm_compute in F'. injection F' as <- <-.
  exists t, d. eexists _, _. split; [reflexivity|]. split; [exact Hd|]. split; [exact F|].
  destruct H as (_ & _ & _ & _ & H). apply H; [lia | simpl; lia].
Defined.
