(* ===== verification/SourceIdentity.v ===== *)
(** * Publisher identity and lane selection

    Models [mino/bridge/source_identity.h]: the identity that orders reliable
    delivery, its stable lane hash (FNV-1a with a SplitMix64 finalizer) and the
    container hash. *)
From S2P Require Import Prelude.

Definition kMaxBridgeLaneCount : Z := 8.

Record SourceIdentity : Set := mkSource {
  node_id : Z; publisher_id : Z; publisher_epoch : Z
}.

#[export] Instance SourceIdentity_eq_dec : EqDecision SourceIdentity.
Proof. solve_decision. Defined.
#[export] Instance SourceIdentity_countable : Countable SourceIdentity.
Proof.
  refine (inj_countable' (fun s => (node_id s, publisher_id s, publisher_epoch s))
            (fun '(n, p, e) => mkSource n p e) _).
  by intros [].
Defined.

Definition kFnv1aOffset : Z := 14695981039346656037.
Definition kFnv1aPrime : Z := 1099511628211.

(** One round of [consume_big_endian], for the byte at [shift]. *)
Definition fnv_round (value hash shift : Z) : Z :=
  wrap64 (Z.lxor hash (Z.shiftr value shift mod 256) * kFnv1aPrime).

Definition consume_big_endian (hash value : Z) : Z :=
  foldl (fnv_round value) hash [56; 48; 40; 32; 24; 16; 8; 0].

(** [hash ^= hash >> n] *)
Definition xor_shift (hash n : Z) : Z := Z.lxor hash (Z.shiftr hash n).

Definition StableBridgeLaneHash (source : SourceIdentity) : Z :=
  let hash := kFnv1aOffset in
  let hash := consume_big_endian hash (node_id source) in
  let hash := consume_big_endian hash (publisher_id source) in
  let hash := consume_big_endian hash (publisher_epoch source) in
  let hash := xor_shift hash 30 in
  let hash := wrap64 (hash * 0xbf58476d1ce4e5b9) in
  let hash := xor_shift hash 27 in
  let hash := wrap64 (hash * 0x94d049bb133111eb) in
  xor_shift hash 31.

Definition BridgeLaneFor (source : SourceIdentity) (lane_count : Z) : Z :=
  if (lane_count =? 0) || (kMaxBridgeLaneCount <? lane_count) then 0
  else StableBridgeLaneHash source mod lane_count.

(** [SourceIdentityHash], with a 64-bit [size_t]. *)
Definition SourceIdentityHash (source : SourceIdentity) : Z :=
  let golden := 0x9e3779b97f4a7c15 in
  let value := wrap64 (node_id source + golden) in
  let value := Z.lxor value
    (wrap64 (publisher_id source + golden + shl64 value 6 + Z.shiftr value 2)) in
  Z.lxor value
    (wrap64 (publisher_epoch source + golden + shl64 value 6 + Z.shiftr value 2)).

Definition source_ok (s : SourceIdentity) : Prop :=
  is_u64 (node_id s) /\ is_u64 (publisher_id s) /\ is_u64 (publisher_epoch s).

(** ** Bijectivity of the finalizer

    Every step of the finalizer is a permutation of the 64-bit words: it loses
    none of the FNV state before the modulo. *)

Lemma lxor_u64 a b : is_u64 a -> is_u64 b -> is_u64 (Z.lxor a b).
Proof.
  intros Ha Hb. apply u64_of_bits; [apply Z.lxor_nonneg; ulia|].
  intros i Hi. by rewrite Z.lxor_spec, !u64_testbit_high.
Qed.

Lemma shiftr_u64 a n : is_u64 a -> 0 <= n -> is_u64 (Z.shiftr a n).
Proof.
  intros Ha Hn. apply u64_of_bits; [apply Z.shiftr_nonneg; ulia|].
  intros i Hi. rewrite Z.shiftr_spec by lia. apply u64_testbit_high; [done|lia].
Qed.
#[export] Hint Resolve lxor_u64 shiftr_u64 : mino.

Lemma xor_shift_u64 h n : is_u64 h -> 0 <= n -> is_u64 (xor_shift h n).
Proof. intros. unfold xor_shift. auto with mino. Qed.

(** [h ^ (h >> n)] determines [h]: its bits are recovered from the top down. *)
Lemma xor_shift_inj n a b :
  0 < n -> is_u64 a -> is_u64 b -> xor_shift a n = xor_shift b n -> a = b.
Proof.
  intros Hn Ha Hb H.
  assert (forall k i, 0 <= i -> 64 - Z.of_nat k <= i -> Z.testbit a i = Z.testbit b i) as Hbits.
  { induction k as [|k IH]; intros i Hi Hk.
    { rewrite !u64_testbit_high by (done || lia). done. }
    assert (Z.testbit (xor_shift a n) i = Z.testbit (xor_shift b n) i) as E by by rewrite H.
    unfold xor_shift in E. rewrite !Z.lxor_spec, !Z.shiftr_spec in E by lia.
    rewrite (IH (i + n)) in E by lia.
    by destruct (Z.testbit a i), (Z.testbit b i), (Z.testbit b (i + n)). }
  apply Z.bits_inj'. intros i Hi. apply (Hbits 64%nat); lia.
Qed.

(** Multiplication by an odd constant is injective modulo [2^64]. *)
Lemma mul_odd_inj c d a b :
  wrap64 (c * d) = 1 -> is_u64 a -> is_u64 b -> wrap64 (a * c) = wrap64 (b * c) -> a = b.
Proof.
  intros Hc Ha Hb H. rewrite <- (wrap64_id a Ha), <- (wrap64_id b Hb).
  unfold wrap64 in *.
  assert (forall x, (x * c) mod two64 * d mod two64 = x mod two64) as E.
  { intros x. rewrite Z.mul_mod_idemp_l by lia.
    rewrite <- Z.mul_assoc, <- Z.mul_mod_idemp_r, Hc, Z.mul_1_r by lia. done. }
  by rewrite <- (E a), <- (E b), H.
Qed.

Definition finalize (hash : Z) : Z :=
  xor_shift (wrap64 (xor_shift (wrap64 (xor_shift hash 30 * 0xbf58476d1ce4e5b9)) 27
                     * 0x94d049bb133111eb)) 31.

Lemma finalize_u64 h : is_u64 h -> is_u64 (finalize h).
Proof. intros. unfold finalize. repeat apply xor_shift_u64; auto with mino; lia. Qed.

Lemma finalize_inj a b : is_u64 a -> is_u64 b -> finalize a = finalize b -> a = b.
Proof.
  intros Ha Hb H. unfold finalize in H.
  apply xor_shift_inj in H; [|lia|auto with mino|auto with mino].
  apply (mul_odd_inj _ 3573116690164977347) in H;
    [|reflexivity|apply xor_shift_u64; auto with mino; lia|apply xor_shift_u64; auto with mino; lia].
  apply xor_shift_inj in H; [|lia|auto with mino|auto with mino].
  apply (mul_odd_inj _ 10871156337175269513) in H;
    [|reflexivity|apply xor_shift_u64; auto with mino; lia|apply xor_shift_u64; auto with mino; lia].
  apply xor_shift_inj in H; [done|lia|done|done].
Qed.

Lemma fnv_round_u64 v h s : is_u64 (fnv_round v h s).
Proof. apply wrap64_u64. Qed.

Lemma fnv_round_byte v h s : is_u64 h -> is_u64 (Z.lxor h (Z.shiftr v s mod 256)).
Proof. intros. apply lxor_u64; [done|]. pose proof (Z.mod_pos_bound (Z.shiftr v s) 256). ulia. Qed.

(** One round is injective in the state, and in the byte it consumes. *)
Lemma fnv_round_inj v w a b s :
  is_u64 a -> is_u64 b -> fnv_round v a s = fnv_round w b s ->
  Z.lxor a (Z.shiftr v s mod 256) = Z.lxor b (Z.shiftr w s mod 256).
Proof.
  intros Ha Hb H. apply (mul_odd_inj kFnv1aPrime 14886173955864302971);
    [reflexivity|by apply fnv_round_byte..|exact H].
Qed.

Lemma fnv_rounds_inj v l : forall a b,
  is_u64 a -> is_u64 b -> foldl (fnv_round v) a l = foldl (fnv_round v) b l -> a = b.
Proof.
  induction l as [|s l IH]; intros a b Ha Hb H; [done|]. simpl in H.
  apply IH in H; [|apply fnv_round_u64..].
  apply fnv_round_inj in H; [|done..]. by eapply lxor_cancel_r.
Qed.

Lemma consume_u64 h v : is_u64 h -> is_u64 (consume_big_endian h v).
Proof. intros. unfold consume_big_endian. cbn [foldl]. apply fnv_round_u64. Qed.

Lemma StableBridgeLaneHash_finalize s :
  StableBridgeLaneHash s
  = finalize (consume_big_endian (consume_big_endian (consume_big_endian kFnv1aOffset
      (node_id s)) (publisher_id s)) (publisher_epoch s)).
Proof. unfold StableBridgeLaneHash, finalize. cbv zeta. reflexivity. Qed.

Lemma StableBridgeLaneHash_u64 s : is_u64 (StableBridgeLaneHash s).
Proof.
  rewrite StableBridgeLaneHash_finalize. apply finalize_u64.
  repeat apply consume_u64. unfold kFnv1aOffset. ulia.
Qed.

Lemma consume_inj a b v :
  is_u64 a -> is_u64 b -> consume_big_endian a v = consume_big_endian b v -> a = b.
Proof. unfold consume_big_endian. apply fnv_rounds_inj. Qed.

Lemma fnv_offset_u64 : is_u64 kFnv1aOffset.
Proof. unfold kFnv1aOffset. ulia. Qed.

Lemma lane_hash_collision s t :
  publisher_id s = publisher_id t -> publisher_epoch s = publisher_epoch t ->
  StableBridgeLaneHash s = StableBridgeLaneHash t ->
  consume_big_endian kFnv1aOffset (node_id s) = consume_big_endian kFnv1aOffset (node_id t).
Proof.
  pose proof fnv_offset_u64 as H0. intros Hp He.
  rewrite !StableBridgeLaneHash_finalize, Hp, He. intros H.
  apply finalize_inj in H; [|apply consume_u64, consume_u64, consume_u64, H0..].
  apply consume_inj in H; [|apply consume_u64, consume_u64, H0..].
  apply consume_inj in H; [done|apply consume_u64, H0..].
Qed.

(** The lane of a source is below the lane count (and lane 0 for a count
    outside 1..8), the lane hash is a 64-bit value, and it loses nothing of the
    FNV state: two publishers of the same epoch and id on different nodes
    collide only if the FNV states after the node id already do. *)
Theorem bridge_lane_spec (s t : SourceIdentity) (lane_count : Z) :
  is_u16 lane_count ->
  is_u64 (StableBridgeLaneHash s) /\
  0 <= BridgeLaneFor s lane_count /\
  (1 <= lane_count <= kMaxBridgeLaneCount -> BridgeLaneFor s lane_count < lane_count) /\
  (~ (1 <= lane_count <= kMaxBridgeLaneCount) -> BridgeLaneFor s lane_count = 0) /\
  (publisher_id s = publisher_id t -> publisher_epoch s = publisher_epoch t ->
   StableBridgeLaneHash s = StableBridgeLaneHash t <->
   consume_big_endian kFnv1aOffset (node_id s) = consume_big_endian kFnv1aOffset (node_id t)).
Proof.
  intros Hl. split; [apply StableBridgeLaneHash_u64|]. unfold BridgeLaneFor, kMaxBridgeLaneCount.
  pose proof (Z.mod_pos_bound (StableBridgeLaneHash s) lane_count) as Hm.
  generalize dependent (StableBridgeLaneHash s mod lane_count). intros lane Hm.
  assert (forall P Q R S : Prop, P -> Q -> R -> S -> P /\ Q /\ R /\ S) as and4 by tauto.
  apply and4.
  1-3: destruct (Z.eqb_spec lane_count 0), (Z.ltb_spec 8 lane_count); simpl; ulia.
  intros Hp He. split; [by apply lane_hash_collision|].
  intros E. by rewrite !StableBridgeLaneHash_finalize, Hp, He, E.
Qed.

Lemma bridge_lane_spec_witness :
  BridgeLaneFor (mkSource 1 2 3) 4 < 4 /\ BridgeLaneFor (mkSource 1 2 3) 9 = 0.
Proof.
  split; apply (bridge_lane_spec (mkSource 1 2 3) (mkSource 1 2 3)); unfold is_u16, kMaxBridgeLaneCount; lia.
Defined.
