(* ===== verification/Bytes.v ===== *)
(** * Byte spans and big-endian fields

    [std::byte] is [byte], a [std::span] or [std::vector] of bytes is a list.
    The [WriteBeN]/[ReadBeN] helpers are the ones of
    [mino/bridge/wire_frame.cc] and, identical, of [control_payload.cc]. *)
From S2P Require Import Prelude.
From Stdlib Require Import Strings.Byte.

Abbreviation byte := Byte.byte.
#[export] Instance byte_inhabited : Inhabited byte := populate Byte.x00.
#[export] Instance byte_eq_dec : EqDecision byte := Byte.byte_eq_dec.

Definition Z_of_byte (b : byte) : Z := Z.of_N (Byte.to_N b).
(** [static_cast<std::byte>]: the low eight bits. *)
Definition byte_of_Z (z : Z) : byte :=
  default Byte.x00 (Byte.of_N (Z.to_N (z mod 256))).

Lemma Z_of_byte_range b : 0 <= Z_of_byte b < 256.
Proof. unfold Z_of_byte. pose proof (Byte.to_N_bounded b). lia. Qed.

Lemma byte_of_Z_of_byte b : byte_of_Z (Z_of_byte b) = b.
Proof.
  unfold byte_of_Z. rewrite Z.mod_small by apply Z_of_byte_range.
  unfold Z_of_byte. by rewrite N2Z.id, Byte.of_to_N.
Qed.

Lemma Z_of_byte_of_Z z : Z_of_byte (byte_of_Z z) = z mod 256.
Proof.
  unfold byte_of_Z. pose proof (Z.mod_pos_bound z 256).
  pose proof (Byte.to_of_N_option_map (Z.to_N (z mod 256))) as H1.
  destruct (N.leb_spec (Z.to_N (z mod 256)) 255); [|lia].
  destruct (Byte.of_N _) as [b|]; [|done]. simpl in *. injection H1 as H1.
  unfold Z_of_byte. rewrite H1. lia.
Qed.

Lemma Z_of_byte_inj a b : Z_of_byte a = Z_of_byte b -> a = b.
Proof. intros H. by rewrite <- (byte_of_Z_of_byte a), H, byte_of_Z_of_byte. Qed.

(** [span.subspan(off, n)] *)
Definition subspan {A} (l : list A) (off n : nat) : list A := take n (drop off l).

(** [std::copy(src, dst.begin() + off)] *)
Definition copy_to {A} (src dst : list A) (off : nat) : list A := list_inserts off src dst.

(** The [n] bytes [(value >> (8 (n-1) - 8 i)) & 0xff], [i = 0 .. n-1]. *)
Definition be_bytes (n : nat) (value : Z) : list byte :=
  (fun i => byte_of_Z (Z.land (Z.shiftr value (8 * Z.of_nat (n - 1 - i))) 255)) <$> seq 0 n.

Definition WriteBe16 (bytes : list byte) (offset : nat) (value : Z) : list byte :=
  copy_to (be_bytes 2 value) bytes offset.
Definition WriteBe32 (bytes : list byte) (offset : nat) (value : Z) : list byte :=
  copy_to (be_bytes 4 value) bytes offset.
Definition WriteBe64 (bytes : list byte) (offset : nat) (value : Z) : list byte :=
  copy_to (be_bytes 8 value) bytes offset.

(** [value = (value << 8) | bytes[offset + i]], [i = 0 .. n-1]. *)
Definition read_be (n : nat) (bytes : list byte) (offset : nat) : Z :=
  foldl (fun v i => Z.lor (Z.shiftl v 8) (Z_of_byte (bytes !!! (offset + i)%nat))) 0 (seq 0 n).

Definition ReadBe16 (bytes : list byte) (offset : nat) : Z := read_be 2 bytes offset.
Definition ReadBe32 (bytes : list byte) (offset : nat) : Z := read_be 4 bytes offset.
Definition ReadBe64 (bytes : list byte) (offset : nat) : Z := read_be 8 bytes offset.

(** ** The value of a big-endian field *)

Definition be_val (l : list byte) : Z :=
  foldl (fun v b => v * 256 + Z_of_byte b) 0 l.

Lemma shift_or_byte v b : 0 <= v -> Z.lor (Z.shiftl v 8) (Z_of_byte b) = v * 256 + Z_of_byte b.
Proof.
  intros Hv. pose proof (Z_of_byte_range b) as Hb.
  rewrite Z.shiftl_mul_pow2 by lia. change (2 ^ 8) with 256.
  rewrite <- Z.lxor_lor, <- Z.add_nocarry_lxor; [done| |].
  all: apply Z.bits_inj'; intros i Hi; rewrite Z.land_spec, Z.bits_0;
    change 256 with (2 ^ 8); destruct (Z.lt_ge_cases i 8).
  all: try (rewrite Z.mul_pow2_bits_low by lia; done).
  all: replace (Z_of_byte b) with (Z_of_byte b mod 2 ^ 8) by (apply Z.mod_small; lia);
    rewrite (Z.mod_pow2_bits_high (Z_of_byte b)) by lia; apply andb_false_r.
Qed.

Lemma be_val_snoc l b : be_val (l ++ [b]) = be_val l * 256 + Z_of_byte b.
Proof. unfold be_val. by rewrite foldl_app. Qed.

Lemma be_val_bound l : 0 <= be_val l < 256 ^ zlen l.
Proof.
  induction l as [|b l IH] using rev_ind; [done|].
  rewrite be_val_snoc. pose proof (Z_of_byte_range b). unfold zlen in *.
  rewrite length_app, Nat2Z.inj_add, Z.pow_add_r by lia. simpl (256 ^ Z.of_nat (length [b])). lia.
Qed.

Lemma subspan_length {A} (l : list A) off n :
  (off + n <= length l)%nat -> length (subspan l off n) = n.
Proof. intros. unfold subspan. rewrite length_take, length_drop. lia. Qed.

Lemma subspan_S {A} `{!Inhabited A} (l : list A) off n :
  (off + S n <= length l)%nat -> subspan l off (S n) = subspan l off n ++ [l !!! (off + n)%nat].
Proof.
  intros H. unfold subspan. apply take_S_r. rewrite lookup_drop.
  apply list_lookup_lookup_total_lt. lia.
Qed.

Lemma read_be_val n bytes off :
  (off + n <= length bytes)%nat -> read_be n bytes off = be_val (subspan bytes off n).
Proof.
  unfold read_be. induction n as [|n IH]; intros Hn; [done|].
  rewrite seq_S, foldl_app, IH by lia. simpl.
  rewrite subspan_S, be_val_snoc by lia. apply shift_or_byte. apply be_val_bound.
Qed.

Lemma be_bytes_length n v : length (be_bytes n v) = n.
Proof. unfold be_bytes. by rewrite length_fmap, length_seq. Qed.

Lemma be_bytes_S n v :
  be_bytes (S n) v = be_bytes n (v / 256) ++ [byte_of_Z v].
Proof.
  unfold be_bytes. rewrite seq_S, fmap_app. simpl. f_equal.
  - apply list_fmap_ext. intros j i Hi. apply lookup_seq in Hi as [-> Hj]. do 2 f_equal.
    change 256 with (2 ^ 8). rewrite <- Z.shiftr_div_pow2, Z.shiftr_shiftr by lia.
    f_equal. lia.
  - f_equal. replace (n - 0 - n)%nat with 0%nat by lia. simpl.
    rewrite Z.shiftr_0_r. change 255 with (Z.ones 8). rewrite Z.land_ones by lia.
    unfold byte_of_Z. by rewrite Z.mod_mod by lia.
Qed.

Lemma be_val_be_bytes n v : be_val (be_bytes n v) = v mod 256 ^ Z.of_nat n.
Proof.
  revert v. induction n as [|n IH]; intros v; [by rewrite Z.mod_1_r|].
  rewrite be_bytes_S, be_val_snoc, IH, Z_of_byte_of_Z.
  rewrite Nat2Z.inj_succ, Z.pow_succ_r by lia.
  rewrite Z.rem_mul_r by (try apply Z.pow_nonzero; lia). lia.
Qed.

Lemma be_bytes_be_val l : be_bytes (length l) (be_val l) = l.
Proof.
  induction l as [|b l IH] using rev_ind; [done|].
  rewrite length_app, Nat.add_comm. simpl. rewrite be_bytes_S, be_val_snoc.
  pose proof (Z_of_byte_range b). f_equal.
  - replace ((be_val l * 256 + Z_of_byte b) / 256) with (be_val l); [done|].
    apply Z.div_unique with (Z_of_byte b); lia.
  - f_equal. apply Z_of_byte_inj. rewrite Z_of_byte_of_Z.
    symmetry. apply Z.mod_unique with (be_val l); lia.
Qed.

(** ** Reading over writing *)

Lemma subspan_lookup {A} (l : list A) off n i :
  (i < n)%nat -> subspan l off n !! i = l !! (off + i)%nat.
Proof. intros. unfold subspan. by rewrite lookup_take_lt, lookup_drop by done. Qed.

Lemma copy_to_length {A} (src dst : list A) off : length (copy_to src dst off) = length dst.
Proof. apply length_inserts. Qed.

Lemma subspan_copy_same {A} (src dst : list A) off :
  (off + length src <= length dst)%nat -> subspan (copy_to src dst off) off (length src) = src.
Proof.
  intros H. apply list_eq. intros i. destruct (decide (i < length src)%nat).
  - rewrite subspan_lookup by done. unfold copy_to. rewrite list_lookup_inserts by lia.
    f_equal. lia.
  - rewrite !lookup_ge_None_2; [done | lia|]. rewrite subspan_length; [lia|].
    by rewrite copy_to_length.
Qed.

Lemma subspan_copy_other {A} (src dst : list A) off off' n :
  (off' + n <= off \/ off + length src <= off')%nat ->
  subspan (copy_to src dst off) off' n = subspan dst off' n.
Proof.
  intros H. apply list_eq. intros i. destruct (decide (i < n)%nat).
  - rewrite !subspan_lookup by done. unfold copy_to. destruct H.
    + apply list_lookup_inserts_lt. lia.
    + apply list_lookup_inserts_ge. lia.
  - unfold subspan. by rewrite !lookup_take_ge by lia.
Qed.

Lemma subspan_all {A} (l : list A) n : n = length l -> subspan l 0 n = l.
Proof. intros ->. unfold subspan. rewrite drop_0. by apply take_ge. Qed.

Lemma subspan_subspan {A} (l : list A) off n off' n' :
  (off' + n' <= n)%nat -> subspan (subspan l off n) off' n' = subspan l (off + off') n'.
Proof.
  intros H. apply list_eq. intros i. destruct (decide (i < n')%nat).
  - rewrite !subspan_lookup by lia. f_equal. lia.
  - unfold subspan. by rewrite !lookup_take_ge by lia.
Qed.

(** A field read back from where it was written. *)
Lemma read_write_same n bytes off v :
  (off + n <= length bytes)%nat ->
  read_be n (copy_to (be_bytes n v) bytes off) off = v mod 256 ^ Z.of_nat n.
Proof.
  intros H. rewrite read_be_val by (by rewrite copy_to_length).
  pose proof (subspan_copy_same (be_bytes n v) bytes off) as E.
  rewrite be_bytes_length in E. rewrite E by done. apply be_val_be_bytes.
Qed.

(** A write elsewhere does not change a field. *)
Lemma read_write_other n bytes off off' src :
  (off' + n <= length bytes)%nat ->
  (off' + n <= off \/ off + length src <= off')%nat ->
  read_be n (copy_to src bytes off) off' = read_be n bytes off'.
Proof.
  intros Hl H. rewrite !read_be_val by (rewrite ?copy_to_length; done).
  by rewrite subspan_copy_other.
Qed.

Lemma ReadBe16_bound bytes off : (off + 2 <= length bytes)%nat -> is_u16 (ReadBe16 bytes off).
Proof.
  intros H. unfold ReadBe16. rewrite read_be_val by done.
  pose proof (be_val_bound (subspan bytes off 2)) as Hb.
  unfold zlen in Hb. rewrite subspan_length in Hb by done. exact Hb.
Qed.
Lemma ReadBe32_bound bytes off : (off + 4 <= length bytes)%nat -> is_u32 (ReadBe32 bytes off).
Proof.
  intros H. unfold ReadBe32. rewrite read_be_val by done.
  pose proof (be_val_bound (subspan bytes off 4)) as Hb.
  unfold zlen in Hb. rewrite subspan_length in Hb by done. exact Hb.
Qed.
Lemma ReadBe64_bound bytes off : (off + 8 <= length bytes)%nat -> is_u64 (ReadBe64 bytes off).
Proof.
  intros H. unfold ReadBe64. rewrite read_be_val by done.
  pose proof (be_val_bound (subspan bytes off 8)) as Hb.
  unfold zlen in Hb. rewrite subspan_length in Hb by done. exact Hb.
Qed.

(** ** Layout: writing and reading concatenations *)

Lemma copy_to_app {A} (a b c : list A) off :
  off = length a -> (length b <= length c)%nat ->
  copy_to b (a ++ c) off = (a ++ b) ++ drop (length b) c.
Proof.
  intros -> H. apply list_eq. intros i. unfold copy_to.
  destruct (decide (i < length a)%nat).
  { rewrite list_lookup_inserts_lt, !lookup_app_l by (rewrite ?length_app; lia). done. }
  destruct (decide (i < length a + length b)%nat).
  { rewrite list_lookup_inserts by (rewrite ?length_app; lia).
    rewrite lookup_app_l, lookup_app_r by (rewrite ?length_app; lia). done. }
  rewrite list_lookup_inserts_ge by lia.
  rewrite !(lookup_app_r _ _ i) by (rewrite ?length_app; lia).
  rewrite lookup_drop, length_app. f_equal. lia.
Qed.

(** Overwriting a field in place. *)
Lemma copy_to_mid {A} (a b b' c : list A) off :
  off = length a -> length b = length b' -> copy_to b (a ++ b' ++ c) off = a ++ b ++ c.
Proof.
  intros Ho Hl. rewrite copy_to_app by (rewrite ?length_app; lia).
  rewrite drop_app_length' by lia. by rewrite <- app_assoc.
Qed.

(** Appending the next field to a buffer whose tail is still zero. *)
Lemma write_next {A} (a b : list A) n x off :
  off = length a -> (length b <= n)%nat ->
  copy_to b (a ++ replicate n x) off = (a ++ b) ++ replicate (n - length b) x.
Proof.
  intros Ho Hl. rewrite copy_to_app by (rewrite ?length_replicate; lia).
  by rewrite drop_replicate.
Qed.

Lemma subspan_app_here {A} (a c : list A) n : n = length a -> subspan (a ++ c) 0 n = a.
Proof. intros ->. unfold subspan. rewrite drop_0. apply take_app_length. Qed.

Lemma subspan_app_skip {A} (a c : list A) off n :
  (length a <= off)%nat -> subspan (a ++ c) off n = subspan c (off - length a) n.
Proof. intros. unfold subspan. by rewrite drop_app_ge. Qed.

Lemma subspan_app_left {A} (a c : list A) off n :
  (off + n <= length a)%nat -> subspan (a ++ c) off n = subspan a off n.
Proof.
  intros. unfold subspan. rewrite drop_app_le by lia.
  rewrite take_app_le; [done|]. rewrite length_drop. lia.
Qed.

Lemma subspan_split {A} (l : list A) off n m :
  subspan l off (n + m) = subspan l off n ++ subspan l (off + n) m.
Proof.
  unfold subspan. rewrite <- (drop_drop l n off).
  by rewrite <- (take_drop n (take (n + m) (drop off l))), take_take, skipn_firstn_comm,
    Nat.min_l, Nat.add_sub_swap, Nat.sub_diag by lia.
Qed.

(** A field is determined by the value read from it. *)
Lemma be_bytes_read n bytes off :
  (off + n <= length bytes)%nat -> be_bytes n (read_be n bytes off) = subspan bytes off n.
Proof.
  intros H. rewrite read_be_val by done.
  rewrite <- (subspan_length bytes off n) at 1 by done. apply be_bytes_be_val.
Qed.

Lemma read_be_app n a b off v :
  off = length a -> read_be n (a ++ be_bytes n v ++ b) off = v mod 256 ^ Z.of_nat n.
Proof.
  intros ->. rewrite read_be_val by (rewrite !length_app, be_bytes_length; lia).
  rewrite subspan_app_skip, Nat.sub_diag, subspan_app_here by (rewrite ?be_bytes_length; lia).
  apply be_val_be_bytes.
Qed.

Lemma read_be_skip n a b off :
  (length a <= off)%nat -> read_be n (a ++ b) off = read_be n b (off - length a).
Proof.
  intros H. unfold read_be. generalize 0. generalize (seq 0 n).
  induction l as [|i l IH]; intros v; [done|]. simpl. rewrite IH. do 3 f_equal.
  rewrite lookup_total_app_r by lia. f_equal. lia.
Qed.

Lemma read_be_here n v b :
  read_be n (be_bytes n v ++ b) 0 = v mod 256 ^ Z.of_nat n.
Proof. apply (read_be_app n [] b 0 v eq_refl). Qed.

(** Peeling the field at [off] off the rest of the span. *)
Lemma drop_field n bytes off :
  (off + n <= length bytes)%nat ->
  drop off bytes = be_bytes n (read_be n bytes off) ++ drop (off + n) bytes.
Proof.
  intros H. rewrite be_bytes_read by done. unfold subspan.
  by rewrite <- drop_drop, take_drop.
Qed.

Lemma read_be_app_left n a b off :
  (off + n <= length a)%nat -> read_be n (a ++ b) off = read_be n a off.
Proof.
  intros H. rewrite !read_be_val by (rewrite ?length_app; lia). by rewrite subspan_app_left.
Qed.

(** ** Single bytes as one-byte fields *)

Lemma be_bytes_1 v : be_bytes 1 v = [byte_of_Z v].
Proof. rewrite be_bytes_S. done. Qed.

Lemma insert_byte l off v : <[off := byte_of_Z v]> l = copy_to (be_bytes 1 v) l off.
Proof. by rewrite be_bytes_1. Qed.

Lemma read_byte l off : Z_of_byte (l !!! off) = read_be 1 l off.
Proof. unfold read_be. simpl. by rewrite Nat.add_0_r. Qed.

Lemma read_be_bound n bytes off :
  (off + n <= length bytes)%nat -> 0 <= read_be n bytes off < 256 ^ Z.of_nat n.
Proof.
  intros H. rewrite read_be_val by done.
  pose proof (be_val_bound (subspan bytes off n)) as Hb.
  unfold zlen in Hb. by rewrite subspan_length in Hb.
Qed.

(** ** Tactics for layouts *)

Ltac len_norm :=
  rewrite ?length_app, ?be_bytes_length, ?length_replicate, ?length_take, ?length_drop.

Ltac write_field := rewrite write_next by (len_norm; cbn [length]; lia).

(** Walk over the fields before the one that is read. *)
Ltac read_field :=
  repeat (rewrite read_be_skip by (rewrite be_bytes_length; lia); rewrite be_bytes_length; cbn [Nat.sub]);
  rewrite read_be_here; apply Z.mod_small.

Ltac peel n body off :=
  rewrite (drop_field n body off) by lia; cbn [Nat.add].

Ltac read_bound :=
  lazymatch goal with
  | |- is_u64 (ReadBe64 _ _) => apply ReadBe64_bound
  | |- is_u32 (ReadBe32 _ _) => apply ReadBe32_bound
  | |- is_u16 (ReadBe16 _ _) => apply ReadBe16_bound
  end; lia.
