(* ===== verification/Crc32c.v ===== *)
(** * CRC-32C

    Models [mino/bridge/crc32c.h] and [.cc]: the table-driven software routine,
    the wide loops over the hardware instructions (SSE4.2 and AArch64 CRC), the
    run-time selection between them and the accumulator.  The instructions are
    not code of the repository: they are arguments of the definitions that use
    them, specified by the bit-serial CRC-32C they are documented to compute. *)
From S2P Require Import Prelude Bytes.

Definition kPoly : Z := 0x82f63b78.

(** One iteration of the table's inner loop. *)
Definition crc_step (value : Z) : Z :=
  Z.lxor (Z.shiftr value 1) (if negb (Z.land value 1 =? 0) then kPoly else 0).

Definition crc_table_entry (i : Z) : Z := Nat.iter 8 crc_step i.

Definition MakeCrc32cTable : list Z := crc_table_entry <$> (Z.of_nat <$> seq 0 256).

Definition kCrc32cTable : list Z := Eval vm_compute in MakeCrc32cTable.

Definition update_byte (state : Z) (b : byte) : Z :=
  Z.lxor (kCrc32cTable !!! Z.to_nat (Z.land (Z.lxor state (Z_of_byte b)) 255))
         (Z.shiftr state 8).

Definition UpdateSoftware (state : Z) (bytes : list byte) : Z :=
  foldl update_byte state bytes.

(** The loop of [CopyAndUpdateSoftware] from index [i] on. *)
Fixpoint copy_and_update_from (state : Z) (bytes output : list byte) (i : nat)
  : Z * list byte :=
  match bytes with
  | [] => (state, output)
  | b :: rest => copy_and_update_from (update_byte state b) rest (<[i := b]> output) (S i)
  end.
Definition CopyAndUpdateSoftware (state : Z) (bytes output : list byte) : Z * list byte :=
  copy_and_update_from state bytes output 0.

(** [memcpy] of [n] bytes into an integer on a little-endian machine. *)
Definition le_val (l : list byte) : Z :=
  foldr (fun b v => Z_of_byte b + 256 * v) 0 l.

Section Hardware.
(** The four widths of the CRC instruction: [_mm_crc32_u64/u32/u16/u8], or
    [__crc32cd/cw/ch/cb]. *)
Context (crc_u64 crc_u32 crc_u16 crc_u8 : Z -> Z -> Z).

(** [while (remaining >= 8)]; [n] bounds the iterations. *)
Fixpoint wide_loop (n : nat) (state : Z) (data : list byte) : Z * list byte :=
  match n with
  | O => (state, data)
  | S n' =>
      if 8 <=? zlen data
      then wide_loop n' (crc_u64 state (le_val (take 8 data))) (drop 8 data)
      else (state, data)
  end.

Definition wide_tail (state : Z) (data : list byte) : Z :=
  let '(state, data) :=
    if 4 <=? zlen data
    then (crc_u32 state (le_val (take 4 data)), drop 4 data) else (state, data) in
  let '(state, data) :=
    if 2 <=? zlen data
    then (crc_u16 state (le_val (take 2 data)), drop 2 data) else (state, data) in
  match data with
  | [] => state
  | b :: _ => crc_u8 state (Z_of_byte b)
  end.

Definition update_wide (state : Z) (bytes : list byte) : Z :=
  let '(state, data) := wide_loop (length bytes) state bytes in
  wide_tail state data.

Definition UpdateSse42 : Z -> list byte -> Z := update_wide.
Definition UpdateArmCrc : Z -> list byte -> Z := update_wide.

(** The copying variants write each block to the destination before
    consuming it; [dst] is the destination offset. *)
Fixpoint copy_wide_loop (n : nat) (state : Z) (data output : list byte) (dst : nat)
  : Z * list byte * list byte * nat :=
  match n with
  | O => (state, data, output, dst)
  | S n' =>
      if 8 <=? zlen data
      then copy_wide_loop n' (crc_u64 state (le_val (take 8 data))) (drop 8 data)
             (copy_to (take 8 data) output dst) (dst + 8)
      else (state, data, output, dst)
  end.

Definition copy_update_wide (state : Z) (bytes output : list byte) : Z * list byte :=
  let '(state, data, output, dst) := copy_wide_loop (length bytes) state bytes output 0 in
  let '(state, data, output, dst) :=
    if 4 <=? zlen data
    then (crc_u32 state (le_val (take 4 data)), drop 4 data,
          copy_to (take 4 data) output dst, (dst + 4)%nat)
    else (state, data, output, dst) in
  let '(state, data, output, dst) :=
    if 2 <=? zlen data
    then (crc_u16 state (le_val (take 2 data)), drop 2 data,
          copy_to (take 2 data) output dst, (dst + 2)%nat)
    else (state, data, output, dst) in
  match data with
  | [] => (state, output)
  | b :: _ => (crc_u8 state (Z_of_byte b), <[dst := b]> output)
  end.

Definition CopyAndUpdateSse42 : Z -> list byte -> list byte -> Z * list byte :=
  copy_update_wide.
Definition CopyAndUpdateArmCrc : Z -> list byte -> list byte -> Z * list byte :=
  copy_update_wide.
End Hardware.

(** ** Bit-serial reference

    CRC-32C consumes the message one bit at a time, least significant bit
    first: [crc_bits n state v] consumes the [n] low bits of [v]. *)
Fixpoint crc_bits (n : nat) (state v : Z) : Z :=
  match n with
  | O => state
  | S n' => crc_bits n' (crc_step (Z.lxor state (v mod 2))) (v / 2)
  end.

(** What the CRC instructions are documented to compute: the CRC-32C of the
    operand's bits appended to the running value. *)
Record hw_crc32c (crc_u64 crc_u32 crc_u16 crc_u8 : Z -> Z -> Z) : Prop := {
  hw_u64 : forall s v, is_u32 s -> 0 <= v < 2 ^ 64 -> crc_u64 s v = crc_bits 64 s v;
  hw_u32 : forall s v, is_u32 s -> 0 <= v < 2 ^ 32 -> crc_u32 s v = crc_bits 32 s v;
  hw_u16 : forall s v, is_u32 s -> 0 <= v < 2 ^ 16 -> crc_u16 s v = crc_bits 16 s v;
  hw_u8 : forall s v, is_u32 s -> 0 <= v < 2 ^ 8 -> crc_u8 s v = crc_bits 8 s v
}.

(** ** Linearity *)

Lemma land_1_testbit v : negb (Z.land v 1 =? 0) = Z.testbit v 0.
Proof.
  change 1 with (Z.ones 1). rewrite Z.land_ones by lia. change (2 ^ 1) with 2.
  rewrite Zmod_odd, Z.bit0_odd. by destruct (Z.odd v).
Qed.

Lemma crc_step_lxor a b : crc_step (Z.lxor a b) = Z.lxor (crc_step a) (crc_step b).
Proof.
  unfold crc_step. rewrite !land_1_testbit, Z.shiftr_lxor, Z.lxor_spec.
  apply Z.bits_inj'. intros i Hi. rewrite !Z.lxor_spec.
  destruct (Z.testbit a 0), (Z.testbit b 0); simpl; rewrite ?Z.bits_0;
    destruct (Z.testbit (Z.shiftr a 1) i), (Z.testbit (Z.shiftr b 1) i), (Z.testbit kPoly i); done.
Qed.

Lemma crc_steps_lxor n a b :
  Nat.iter n crc_step (Z.lxor a b) = Z.lxor (Nat.iter n crc_step a) (Nat.iter n crc_step b).
Proof. induction n as [|n IH]; simpl; [done|]. by rewrite IH, crc_step_lxor. Qed.

Lemma crc_step_double x : crc_step (2 * x) = x.
Proof.
  unfold crc_step. rewrite land_1_testbit, Z.testbit_even_0, Z.lxor_0_r.
  rewrite Z.shiftr_div_pow2 by lia. change (2 ^ 1) with 2. rewrite Z.mul_comm. by apply Z.div_mul.
Qed.

(** The state of the bit-serial CRC, in terms of the shift register fed with
    all the bits at once. *)
Lemma crc_steps_bits n : forall s v,
  Nat.iter n crc_step (Z.lxor s v) = Z.lxor (crc_bits n s v) (v / 2 ^ Z.of_nat n).
Proof.
  induction n as [|n IH]; intros s v.
  { simpl. by rewrite Z.div_1_r. }
  rewrite Nat.iter_succ_r. cbn [crc_bits].
  assert (crc_step (Z.lxor s v) = Z.lxor (crc_step (Z.lxor s (v mod 2))) (v / 2)) as ->.
  { rewrite <- (crc_step_double (v / 2)) at 1. rewrite <- crc_step_lxor, Z.lxor_assoc.
    f_equal. f_equal. rewrite <- Z.add_nocarry_lxor.
    - pose proof (Z.div_mod v 2). lia.
    - apply Z.bits_inj'. intros i Hi. rewrite Z.land_spec, Z.bits_0.
      destruct (Z.eq_dec i 0) as [->|]; [by rewrite Z.testbit_even_0, andb_false_r|].
      change (v mod 2) with (v mod 2 ^ 1). by rewrite Z.mod_pow2_bits_high by lia. }
  rewrite IH. f_equal. rewrite Z.div_div by (try apply Z.pow_pos_nonneg; lia).
  f_equal. rewrite Nat2Z.inj_succ, Z.pow_succ_r by lia. lia.
Qed.

Lemma crc_bits_small n s v :
  0 <= v < 2 ^ Z.of_nat n -> crc_bits n s v = Nat.iter n crc_step (Z.lxor s v).
Proof. intros. by rewrite crc_steps_bits, Z.div_small, Z.lxor_0_r by done. Qed.

Lemma crc_bits_add n m : forall s v,
  crc_bits (n + m) s v = crc_bits m (crc_bits n s v) (v / 2 ^ Z.of_nat n).
Proof.
  induction n as [|n IH]; intros s v; [by cbn; rewrite Z.div_1_r|].
  cbn [crc_bits Nat.add].
  rewrite IH, Z.div_div by (try apply Z.pow_pos_nonneg; lia). do 2 f_equal.
  rewrite Nat2Z.inj_succ, Z.pow_succ_r by lia. done.
Qed.

Lemma crc_bits_low n : forall s v w,
  crc_bits n s (v + 2 ^ Z.of_nat n * w) = crc_bits n s v.
Proof.
  induction n as [|n IH]; intros s v w; [done|]. cbn [crc_bits].
  rewrite Nat2Z.inj_succ, Z.pow_succ_r by lia.
  replace (v + 2 * 2 ^ Z.of_nat n * w) with (v + (2 ^ Z.of_nat n * w) * 2) by lia.
  rewrite Z_mod_plus_full, Z.div_add by lia. apply IH.
Qed.

(** ** The table step is eight bit steps *)

Lemma crc_table_lookup i :
  0 <= i < 256 -> kCrc32cTable !!! Z.to_nat i = Nat.iter 8 crc_step i.
Proof.
  intros Hi. assert (kCrc32cTable = MakeCrc32cTable) as -> by (vm_compute; reflexivity).
  apply list_lookup_total_correct. unfold MakeCrc32cTable.
  rewrite !list_lookup_fmap, lookup_seq_lt by lia. simpl. by rewrite Z2Nat.id by lia.
Qed.

Lemma crc_steps_shift n y : Nat.iter n crc_step (2 ^ Z.of_nat n * y) = y.
Proof.
  revert y. induction n as [|n IH]; intros y; [by rewrite Z.mul_1_l|].
  rewrite Nat.iter_succ, Nat2Z.inj_succ, Z.pow_succ_r by lia.
  replace (2 * 2 ^ Z.of_nat n * y) with (2 ^ Z.of_nat n * (2 * y)) by lia.
  by rewrite IH, crc_step_double.
Qed.

Lemma split_low_byte x : x = Z.lxor (Z.land x 255) (2 ^ Z.of_nat 8 * Z.shiftr x 8).
Proof.
  change (Z.of_nat 8) with 8. change 255 with (Z.ones 8).
  rewrite Z.land_ones, Z.shiftr_div_pow2 by lia.
  rewrite <- Z.add_nocarry_lxor; [pose proof (Z.div_mod x (2 ^ 8)); lia|].
  apply Z.bits_inj'. intros i Hi. rewrite Z.land_spec, Z.bits_0.
  destruct (Z.lt_ge_cases i 8).
  - by rewrite (Z.mul_comm (2 ^ 8)), Z.mul_pow2_bits_low, andb_false_r by lia.
  - by rewrite Z.mod_pow2_bits_high by lia.
Qed.

Lemma shiftr_byte b : Z.shiftr (Z_of_byte b) 8 = 0.
Proof.
  rewrite Z.shiftr_div_pow2 by lia. apply Z.div_small. apply Z_of_byte_range.
Qed.

Lemma update_byte_bits s b : update_byte s b = crc_bits 8 s (Z_of_byte b).
Proof.
  rewrite crc_bits_small by apply Z_of_byte_range.
  rewrite (split_low_byte (Z.lxor s (Z_of_byte b))) at 1.
  rewrite crc_steps_lxor, crc_steps_shift. unfold update_byte. f_equal.
  - apply crc_table_lookup. change 255 with (Z.ones 8).
    rewrite Z.land_ones by lia. apply Z.mod_pos_bound. lia.
  - by rewrite Z.shiftr_lxor, shiftr_byte, Z.lxor_0_r.
Qed.

(** ** Range *)

Lemma u32_of_bits w :
  0 <= w -> (forall i, 32 <= i -> Z.testbit w i = false) -> is_u32 w.
Proof.
  intros H0 Hb. replace w with (w mod 2 ^ 32); [apply Z.mod_pos_bound; lia|].
  apply Z.bits_inj'. intros i Hi. destruct (Z.lt_ge_cases i 32).
  - apply Z.mod_pow2_bits_low. lia.
  - rewrite Z.mod_pow2_bits_high by lia. symmetry. apply Hb. lia.
Qed.

Lemma u32_testbit_high w i : is_u32 w -> 32 <= i -> Z.testbit w i = false.
Proof.
  intros Hw Hi. replace w with (w mod 2 ^ 32) by (apply Z.mod_small; ulia).
  apply Z.mod_pow2_bits_high. lia.
Qed.

Lemma lxor_u32 a b : is_u32 a -> is_u32 b -> is_u32 (Z.lxor a b).
Proof.
  intros Ha Hb. apply u32_of_bits; [apply Z.lxor_nonneg; ulia|].
  intros i Hi. by rewrite Z.lxor_spec, !u32_testbit_high.
Qed.

Lemma crc_step_u32 s : is_u32 s -> is_u32 (crc_step s).
Proof.
  intros Hs. unfold crc_step. apply lxor_u32.
  - rewrite Z.shiftr_div_pow2 by lia. change (2 ^ 1) with 2. split.
    + apply Z.div_pos; ulia.
    + apply Z.div_lt_upper_bound; ulia.
  - unfold kPoly. destruct (negb _); ulia.
Qed.

Lemma crc_bits_u32 n : forall s v, is_u32 s -> is_u32 (crc_bits n s v).
Proof.
  induction n as [|n IH]; intros s v Hs; [done|]. cbn [crc_bits].
  apply IH, crc_step_u32, lxor_u32; [done|].
  pose proof (Z.mod_pos_bound v 2). ulia.
Qed.

Lemma update_byte_u32 s b : is_u32 s -> is_u32 (update_byte s b).
Proof. intros. rewrite update_byte_bits. by apply crc_bits_u32. Qed.

Lemma UpdateSoftware_u32 l : forall s, is_u32 s -> is_u32 (UpdateSoftware s l).
Proof.
  induction l as [|b l IH]; intros s Hs; [done|]. apply IH. by apply update_byte_u32.
Qed.
#[export] Hint Resolve lxor_u32 UpdateSoftware_u32 : mino.

Lemma UpdateSoftware_app s a b :
  UpdateSoftware s (a ++ b) = UpdateSoftware (UpdateSoftware s a) b.
Proof. apply foldl_app. Qed.

(** ** Words as byte blocks *)

Lemma le_val_bound l : 0 <= le_val l < 2 ^ (8 * zlen l).
Proof.
  unfold zlen. induction l as [|b l IH]; [done|]. cbn [le_val foldr length].
  fold (le_val l). rewrite Nat2Z.inj_succ. pose proof (Z_of_byte_range b).
  replace (8 * Z.succ (Z.of_nat (length l))) with (8 + 8 * Z.of_nat (length l)) by lia.
  rewrite Z.pow_add_r by lia. change (2 ^ 8) with 256. lia.
Qed.

(** Consuming the little-endian word is consuming its bytes in order. *)
Lemma crc_bits_le_val l : forall s,
  crc_bits (8 * length l) s (le_val l) = UpdateSoftware s l.
Proof.
  induction l as [|b l IH]; intros s; [done|].
  replace (8 * length (b :: l))%nat with (8 + 8 * length l)%nat by (simpl; lia).
  rewrite crc_bits_add. cbn [le_val foldr]. fold (le_val l).
  change 256 with (2 ^ Z.of_nat 8).
  rewrite crc_bits_low, <- update_byte_bits.
  replace ((Z_of_byte b + 2 ^ Z.of_nat 8 * le_val l) / 2 ^ Z.of_nat 8) with (le_val l).
  { rewrite IH. done. }
  pose proof (Z_of_byte_range b). apply Z.div_unique with (Z_of_byte b); lia.
Qed.

Lemma le_val_take n l :
  (n <= length l)%nat -> 0 <= le_val (take n l) < 2 ^ (8 * Z.of_nat n).
Proof.
  intros H. pose proof (le_val_bound (take n l)) as Hb. unfold zlen in Hb.
  rewrite length_take in Hb. by rewrite Nat.min_l in Hb.
Qed.

Section HardwareLaws.
Context (crc_u64 crc_u32 crc_u16 crc_u8 : Z -> Z -> Z).
Context (Hhw : hw_crc32c crc_u64 crc_u32 crc_u16 crc_u8).

(** One instruction consumes the block it loads. *)
Lemma block_step n op s l :
  (forall s v, is_u32 s -> 0 <= v < 2 ^ (8 * Z.of_nat n) ->
     op s v = crc_bits (8 * n) s v) ->
  is_u32 s -> (n <= length l)%nat ->
  op s (le_val (take n l)) = UpdateSoftware s (take n l).
Proof.
  intros Hop Hs Hl. rewrite Hop by (try apply le_val_take; done).
  rewrite <- crc_bits_le_val, length_take, Nat.min_l by done. done.
Qed.

Lemma block_u64 s l : is_u32 s -> 8 <= zlen l ->
  crc_u64 s (le_val (take 8 l)) = UpdateSoftware s (take 8 l).
Proof. intros. apply block_step; [apply Hhw | done | ulia]. Qed.
Lemma block_u32 s l : is_u32 s -> 4 <= zlen l ->
  crc_u32 s (le_val (take 4 l)) = UpdateSoftware s (take 4 l).
Proof. intros. apply block_step; [apply Hhw | done | ulia]. Qed.
Lemma block_u16 s l : is_u32 s -> 2 <= zlen l ->
  crc_u16 s (le_val (take 2 l)) = UpdateSoftware s (take 2 l).
Proof. intros. apply block_step; [apply Hhw | done | ulia]. Qed.
Lemma block_u8 s b : is_u32 s -> crc_u8 s (Z_of_byte b) = update_byte s b.
Proof.
  intros. rewrite update_byte_bits. apply Hhw; [done|]. apply Z_of_byte_range.
Qed.

(** The state and cursor of the wide loop, related to the byte-wise CRC of
    the bytes consumed so far. *)
Definition wide_inv (s0 : Z) (bytes : list byte) (s : Z) (data : list byte) : Prop :=
  exists consumed, bytes = consumed ++ data /\ s = UpdateSoftware s0 consumed.

Lemma wide_inv_take s0 bytes s data n :
  wide_inv s0 bytes s data ->
  wide_inv s0 bytes (UpdateSoftware s (take n data)) (drop n data).
Proof.
  intros (c & -> & ->). exists (c ++ take n data).
  by rewrite <- app_assoc, take_drop, UpdateSoftware_app.
Qed.

Lemma wide_inv_u32 s0 bytes s data : is_u32 s0 -> wide_inv s0 bytes s data -> is_u32 s.
Proof. intros H (c & -> & ->). by apply UpdateSoftware_u32. Qed.

Lemma wide_loop_spec s0 bytes n : forall s data,
  is_u32 s0 -> (length data <= n)%nat -> wide_inv s0 bytes s data ->
  let '(s', data') := wide_loop crc_u64 n s data in
  wide_inv s0 bytes s' data' /\ zlen data' < 8.
Proof.
  induction n as [|n IH]; intros s data Hs0 Hn Hi; cbn [wide_loop].
  { split; [done|]. ulia. }
  destruct (Z.leb_spec 8 (zlen data)); [|split; [done|ulia]].
  rewrite block_u64 by (try eapply wide_inv_u32; done).
  apply IH; [done| |by apply wide_inv_take]. rewrite length_drop. ulia.
Qed.

Lemma wide_tail_spec s0 bytes s data :
  is_u32 s0 -> wide_inv s0 bytes s data -> zlen data < 8 ->
  wide_tail crc_u32 crc_u16 crc_u8 s data = UpdateSoftware s0 bytes.
Proof.
  intros Hs0 Hi Hl. unfold wide_tail.
  set (p4 := if 4 <=? zlen data then _ else _).
  assert (wide_inv s0 bytes p4.1 p4.2 /\ zlen p4.2 < 4) as [Hi4 Hl4].
  { subst p4. destruct (Z.leb_spec 4 (zlen data)); simpl; [|split; [done|lia]].
    rewrite block_u32 by (try eapply wide_inv_u32; done).
    split; [by apply wide_inv_take|]. unfold zlen in *. rewrite length_drop. lia. }
  destruct p4 as [s4 d4]. simpl in *.
  set (p2 := if 2 <=? zlen d4 then _ else _).
  assert (wide_inv s0 bytes p2.1 p2.2 /\ zlen p2.2 < 2) as [Hi2 Hl2].
  { subst p2. destruct (Z.leb_spec 2 (zlen d4)); simpl; [|split; [done|lia]].
    rewrite block_u16 by (try eapply wide_inv_u32; done).
    split; [by apply wide_inv_take|]. unfold zlen in *. rewrite length_drop. lia. }
  destruct p2 as [s2 d2]. simpl in *.
  pose proof (wide_inv_u32 _ _ _ _ Hs0 Hi2). destruct Hi2 as (c & -> & ->).
  destruct d2 as [|b [|b' d2]]; [by rewrite app_nil_r| |unfold zlen in Hl2; cbn [length] in Hl2; lia].
  rewrite block_u8 by done. by rewrite UpdateSoftware_app.
Qed.

Lemma update_wide_software s bytes :
  is_u32 s ->
  update_wide crc_u64 crc_u32 crc_u16 crc_u8 s bytes = UpdateSoftware s bytes.
Proof.
  intros Hs. unfold update_wide.
  pose proof (wide_loop_spec s bytes (length bytes) s bytes Hs ltac:(lia)
                ltac:(by exists [])) as H.
  destruct (wide_loop _ _ _ _) as [s' d']. destruct H as [Hi Hl].
  by apply wide_tail_spec.
Qed.

(** For the copying loop, additionally: the destination holds the consumed
    bytes followed by what it held before. *)
Definition copy_inv (s0 : Z) (bytes out0 : list byte)
    (s : Z) (data out : list byte) (dst : nat) : Prop :=
  exists consumed, bytes = consumed ++ data /\ s = UpdateSoftware s0 consumed /\
    dst = length consumed /\ out = consumed ++ drop (length consumed) out0.

Lemma copy_inv_take s0 bytes out0 s data out dst n :
  length bytes = length out0 -> (n <= length data)%nat ->
  copy_inv s0 bytes out0 s data out dst ->
  copy_inv s0 bytes out0 (UpdateSoftware s (take n data)) (drop n data)
    (copy_to (take n data) out dst) (dst + n).
Proof.
  intros Hl Hn (c & -> & -> & -> & ->). exists (c ++ take n data).
  rewrite length_app in Hl. split_and!.
  - by rewrite <- app_assoc, take_drop.
  - by rewrite UpdateSoftware_app.
  - rewrite length_app, length_take. lia.
  - rewrite copy_to_app by (rewrite ?length_take, ?length_drop; lia).
    rewrite drop_drop, length_app. done.
Qed.

Lemma copy_inv_u32 s0 bytes out0 s data out dst :
  is_u32 s0 -> copy_inv s0 bytes out0 s data out dst -> is_u32 s.
Proof. intros H (c & -> & -> & _). by apply UpdateSoftware_u32. Qed.

Lemma copy_inv_done s0 bytes out0 s out dst :
  length bytes = length out0 -> copy_inv s0 bytes out0 s [] out dst ->
  (s, out) = (UpdateSoftware s0 bytes, bytes).
Proof.
  intros Hl (c & -> & -> & -> & ->). rewrite app_nil_r in *.
  by rewrite Hl, drop_ge, app_nil_r by lia.
Qed.

Lemma copy_wide_loop_spec s0 bytes out0 n : forall s data out dst,
  is_u32 s0 -> length bytes = length out0 -> (length data <= n)%nat ->
  copy_inv s0 bytes out0 s data out dst ->
  let '(s', data', out', dst') := copy_wide_loop crc_u64 n s data out dst in
  copy_inv s0 bytes out0 s' data' out' dst' /\ zlen data' < 8.
Proof.
  induction n as [|n IH]; intros s data out dst Hs0 Hl Hn Hi; cbn [copy_wide_loop].
  { split; [done|]. ulia. }
  destruct (Z.leb_spec 8 (zlen data)); [|split; [done|ulia]].
  rewrite block_u64 by (try eapply copy_inv_u32; done).
  apply IH; [done|done| |apply copy_inv_take; [done|ulia|done]].
  rewrite length_drop. ulia.
Qed.

Lemma copy_update_wide_software s bytes out :
  is_u32 s -> length bytes = length out ->
  copy_update_wide crc_u64 crc_u32 crc_u16 crc_u8 s bytes out
  = (UpdateSoftware s bytes, bytes).
Proof.
  intros Hs Hl. unfold copy_update_wide.
  pose proof (copy_wide_loop_spec s bytes out (length bytes) s bytes out 0 Hs Hl
                ltac:(lia) ltac:(exists []; by rewrite drop_0)) as H.
  destruct (copy_wide_loop _ _ _ _ _ _) as [[[s' data] out'] dst].
  destruct H as [Hi Hlt].
  set (p4 := if 4 <=? zlen data then _ else _).
  assert (copy_inv s bytes out p4.1.1.1 p4.1.1.2 p4.1.2 p4.2 /\ zlen p4.1.1.2 < 4)
    as [Hi4 Hl4].
  { subst p4. destruct (Z.leb_spec 4 (zlen data)); simpl; [|split; [done|lia]].
    rewrite block_u32 by (try eapply copy_inv_u32; done).
    split; [apply copy_inv_take; [done|ulia|done]|].
    unfold zlen in *. rewrite length_drop. lia. }
  destruct p4 as [[[s4 d4] o4] dst4]. simpl in *.
  set (p2 := if 2 <=? zlen d4 then _ else _).
  assert (copy_inv s bytes out p2.1.1.1 p2.1.1.2 p2.1.2 p2.2 /\ zlen p2.1.1.2 < 2)
    as [Hi2 Hl2].
  { subst p2. destruct (Z.leb_spec 2 (zlen d4)); simpl; [|split; [done|lia]].
    rewrite block_u16 by (try eapply copy_inv_u32; done).
    split; [apply copy_inv_take; [done|ulia|done]|].
    unfold zlen in *. rewrite length_drop. lia. }
  destruct p2 as [[[s2 d2] o2] dst2]. simpl in *.
  destruct d2 as [|b [|b' d2]]; [by eapply copy_inv_done| |unfold zlen in Hl2; cbn [length] in Hl2; lia].
  rewrite block_u8 by (by eapply copy_inv_u32).
  apply copy_inv_take with (n := 1%nat) in Hi2; [|done|simpl; lia].
  by eapply (copy_inv_done _ _ _ _ _ _ Hl) in Hi2.
Qed.
End HardwareLaws.

Lemma copy_and_update_software s bytes out :
  length bytes = length out -> CopyAndUpdateSoftware s bytes out = (UpdateSoftware s bytes, bytes).
Proof.
  unfold CopyAndUpdateSoftware. intros Hl.
  enough (forall rest done tail, (length rest = length tail)%nat ->
    copy_and_update_from (UpdateSoftware s done) rest (done ++ tail) (length done)
    = (UpdateSoftware s (done ++ rest), done ++ rest)) as H by apply (H bytes [] out Hl).
  induction rest as [|b rest IH]; intros done tail Ht; cbn [copy_and_update_from].
  { destruct tail; [|done]. by rewrite !app_nil_r. }
  destruct tail as [|t tail]; [done|]. injection Ht as Ht.
  assert (<[length done := b]> (done ++ t :: tail) = (done ++ [b]) ++ tail) as ->.
  { rewrite insert_app_r_alt, Nat.sub_diag by lia. simpl. by rewrite <- app_assoc. }
  specialize (IH (done ++ [b]) tail Ht).
  rewrite UpdateSoftware_app, length_app, Nat.add_comm, <- !(app_assoc done [b]) in IH.
  rewrite <- app_assoc. exact IH.
Qed.

(** ** Selection and the accumulator *)

(** What the rest of the bridge needs of a CRC routine. *)
Class Crc32cBackend : Type := {
  update_function : Z -> list byte -> Z;
  copy_and_update_function : Z -> list byte -> list byte -> Z * list byte
}.

Class Crc32cLaws (B : Crc32cBackend) : Prop := {
  update_reference : forall s bytes, is_u32 s ->
    update_function s bytes = UpdateSoftware s bytes;
  copy_and_update_reference : forall s bytes out, is_u32 s -> length bytes = length out ->
    copy_and_update_function s bytes out = (UpdateSoftware s bytes, bytes)
}.

Record CrcIntrinsics : Type := mkCrcIntrinsics {
  op_u64 : Z -> Z -> Z; op_u32 : Z -> Z -> Z; op_u16 : Z -> Z -> Z; op_u8 : Z -> Z -> Z
}.

(** The build target, with the answer of [__builtin_cpu_supports("sse4.2")]. *)
Inductive Platform : Type :=
| X86_64 (ops : CrcIntrinsics) (supports_sse42 : bool)
| AArch64Crc (ops : CrcIntrinsics)
| OtherTarget.

Definition SelectUpdateFunction (p : Platform) : Z -> list byte -> Z :=
  match p with
  | X86_64 o supports_sse42 =>
      if supports_sse42 then UpdateSse42 (op_u64 o) (op_u32 o) (op_u16 o) (op_u8 o)
      else UpdateSoftware
  | AArch64Crc o => UpdateArmCrc (op_u64 o) (op_u32 o) (op_u16 o) (op_u8 o)
  | OtherTarget => UpdateSoftware
  end.

Definition SelectCopyAndUpdateFunction (p : Platform)
  : Z -> list byte -> list byte -> Z * list byte :=
  match p with
  | X86_64 o supports_sse42 =>
      if supports_sse42 then CopyAndUpdateSse42 (op_u64 o) (op_u32 o) (op_u16 o) (op_u8 o)
      else CopyAndUpdateSoftware
  | AArch64Crc o => CopyAndUpdateArmCrc (op_u64 o) (op_u32 o) (op_u16 o) (op_u8 o)
  | OtherTarget => CopyAndUpdateSoftware
  end.

Definition platform_ok (p : Platform) : Prop :=
  match p with
  | X86_64 o _ | AArch64Crc o => hw_crc32c (op_u64 o) (op_u32 o) (op_u16 o) (op_u8 o)
  | OtherTarget => True
  end.

Definition platform_backend (p : Platform) : Crc32cBackend := {|
  update_function := SelectUpdateFunction p;
  copy_and_update_function := SelectCopyAndUpdateFunction p |}.

#[export] Instance software_backend : Crc32cBackend := platform_backend OtherTarget.

Record Crc32cAccumulator : Type := mkAccumulator { state_ : Z }.
Definition new_accumulator : Crc32cAccumulator := mkAccumulator 0xffffffff.

Section Accumulator.
Context {B : Crc32cBackend}.
Definition Update (acc : Crc32cAccumulator) (bytes : list byte) : Crc32cAccumulator :=
  mkAccumulator (update_function (state_ acc) bytes).
Definition CopyAndUpdate (acc : Crc32cAccumulator) (bytes output : list byte)
  : Crc32cAccumulator * list byte :=
  let '(s, out) := copy_and_update_function (state_ acc) bytes output in
  (mkAccumulator s, out).
Definition Finish (acc : Crc32cAccumulator) : Z := Z.lxor (state_ acc) 0xffffffff.
Definition Crc32c (bytes : list byte) : Z := Finish (Update new_accumulator bytes).
End Accumulator.

(** CRC-32C of a whole message, read as one little-endian integer and consumed
    bit by bit. *)
Definition crc32c_reference (bytes : list byte) : Z :=
  Z.lxor (crc_bits (8 * length bytes) 0xffffffff (le_val bytes)) 0xffffffff.

Lemma platform_laws p : platform_ok p -> Crc32cLaws (platform_backend p).
Proof.
  intros Hp. split; simpl; intros s bytes.
  - intros Hs. destruct p as [o []|o|]; simpl in *; try done; by apply update_wide_software.
  - intros out Hs Hl. destruct p as [o []|o|]; simpl in *;
      try (by apply copy_and_update_software); by apply copy_update_wide_software.
Qed.

#[export] Instance software_laws : Crc32cLaws software_backend.
Proof. by apply platform_laws. Qed.

Section AccumulatorLaws.
Context {B : Crc32cBackend} {BL : Crc32cLaws B}.

(** The accumulator has consumed exactly [bytes]. *)
Definition acc_of (bytes : list byte) : Crc32cAccumulator :=
  mkAccumulator (UpdateSoftware 0xffffffff bytes).

Lemma init_u32 : is_u32 0xffffffff.
Proof. ulia. Qed.

Lemma Update_acc a b : Update (acc_of a) b = acc_of (a ++ b).
Proof.
  unfold Update, acc_of. simpl. f_equal.
  rewrite update_reference by (apply UpdateSoftware_u32, init_u32).
  by rewrite UpdateSoftware_app.
Qed.

Lemma CopyAndUpdate_acc a b out :
  length b = length out -> CopyAndUpdate (acc_of a) b out = (acc_of (a ++ b), b).
Proof.
  intros Hl. unfold CopyAndUpdate, acc_of. simpl.
  rewrite copy_and_update_reference by (try apply UpdateSoftware_u32, init_u32; done).
  by rewrite UpdateSoftware_app.
Qed.

Lemma new_accumulator_acc : new_accumulator = acc_of [].
Proof. done. Qed.

Lemma Crc32c_acc bytes : Crc32c bytes = Finish (acc_of bytes).
Proof. unfold Crc32c. by rewrite new_accumulator_acc, Update_acc. Qed.

Lemma Finish_u32 bytes : is_u32 (Finish (acc_of bytes)).
Proof.
  unfold Finish. apply lxor_u32; [apply UpdateSoftware_u32|]; apply init_u32.
Qed.

Lemma Finish_reference bytes : Finish (acc_of bytes) = crc32c_reference bytes.
Proof. unfold Finish, acc_of, crc32c_reference. cbn [state_]. by rewrite crc_bits_le_val. Qed.
Lemma Crc32c_u32 bytes : is_u32 (Crc32c bytes).
Proof. rewrite Crc32c_acc. apply Finish_u32. Qed.
End AccumulatorLaws.

(** The published check value of CRC-32C. *)
Example crc32c_check_value :
  Crc32c (byte_of_Z <$> [49; 50; 51; 52; 53; 54; 55; 56; 57]) = 0xE3069283.
Proof. vm_compute. reflexivity. Qed.

(** The bit-serial CRC is a model of the CRC instructions. *)
Definition reference_intrinsics : CrcIntrinsics :=
  mkCrcIntrinsics (crc_bits 64) (crc_bits 32) (crc_bits 16) (crc_bits 8).

(** C36: whichever routine the platform selects (SSE4.2, AArch64 CRC or the
    table), feeding a message to the accumulator in any number of chunks and in
    either way (plain or copying) finishes with the bit-serial CRC-32C of the
    whole message, a 32-bit value, and the copying form leaves exactly the
    message's bytes in the output. *)
Theorem crc32c_backends_agree (p : Platform) (a b out : list byte) :
  platform_ok p -> length b = length out ->
  let B := platform_backend p in
  Finish (Update (Update new_accumulator a) b) = crc32c_reference (a ++ b) /\
  (Finish (CopyAndUpdate (Update new_accumulator a) b out).1 = crc32c_reference (a ++ b) /\
   (CopyAndUpdate (Update new_accumulator a) b out).2 = b) /\
  Crc32c a = crc32c_reference a /\ is_u32 (Crc32c a).
Proof.
  intros Hp Hl B. pose proof (platform_laws p Hp) as BL. fold B in BL.
  rewrite new_accumulator_acc, !Update_acc, CopyAndUpdate_acc, Crc32c_acc by done.
  cbn [app fst snd]. rewrite !Finish_reference.
  repeat split; rewrite <- Finish_reference; apply Finish_u32.
Qed.

Lemma crc32c_backends_agree_witness :
  let p := X86_64 reference_intrinsics true in
  let msg := byte_of_Z <$> [49; 50; 51; 52; 53; 54; 55; 56; 57] in
  platform_ok p /\ @Crc32c (platform_backend p) msg = crc32c_reference msg.
Proof.
  assert (platform_ok (X86_64 reference_intrinsics true)) as Hp by (split; done).
  split; [exact Hp|].
  apply (crc32c_backends_agree _ _ [byte_of_Z 7] [byte_of_Z 0] Hp eq_refl).
Defined.
