(* ===== verification/LittleEndian.v ===== *)
(** * Little-endian fields

    The [WriteLeN]/[ReadLeN] helpers of [mino/storage/segment_format.cc] and, identical, of
    [segment_recovery.cc]. *)
From S2P Require Import Prelude Bytes Crc32c.

(** [output[offset + i] = value & 0xff; value >>= 8], [i = 0 .. n-1]. *)
Definition le_bytes (n : nat) (value : Z) : list byte :=
  (fun i => byte_of_Z (Z.land (Z.shiftr value (8 * Z.of_nat i)) 255)) <$> seq 0 n.

Definition WriteLe16 (bytes : list byte) (offset : nat) (value : Z) : list byte :=
  copy_to (le_bytes 2 value) bytes offset.
Definition WriteLe32 (bytes : list byte) (offset : nat) (value : Z) : list byte :=
  copy_to (le_bytes 4 value) bytes offset.
Definition WriteLe64 (bytes : list byte) (offset : nat) (value : Z) : list byte :=
  copy_to (le_bytes 8 value) bytes offset.

(** [value |= input[offset + i] << (8 * i)], [i = 0 .. n-1]. *)
Definition read_le (n : nat) (bytes : list byte) (offset : nat) : Z :=
  foldl (fun v i => Z.lor v (Z.shiftl (Z_of_byte (bytes !!! (offset + i)%nat)) (8 * Z.of_nat i))) 0 (seq 0 n).

Definition ReadLe16 (bytes : list byte) (offset : nat) : Z := read_le 2 bytes offset.
Definition ReadLe32 (bytes : list byte) (offset : nat) : Z := read_le 4 bytes offset.
Definition ReadLe64 (bytes : list byte) (offset : nat) : Z := read_le 8 bytes offset.

(** ** The value of a little-endian field *)

Lemma le_val_snoc l b : le_val (l ++ [b]) = le_val l + 2 ^ (8 * zlen l) * Z_of_byte b.
Proof.
  unfold zlen. induction l as [|a l IH]; [cbn; lia|]. cbn [app le_val foldr length]. fold (le_val (l ++ [b])) (le_val l).
  rewrite IH, Nat2Z.inj_succ. replace (8 * Z.succ (Z.of_nat (length l))) with (8 + 8 * Z.of_nat (length l)) by lia.
  rewrite Z.pow_add_r by lia. change (2 ^ 8) with 256. lia.
Qed.

(** Disjoint bits add up. *)
Lemma lor_shift_add v b n : 0 <= v < 2 ^ n -> 0 <= n -> Z.lor v (Z.shiftl b n) = v + 2 ^ n * b.
Proof.
  intros Hv Hn. rewrite Z.shiftl_mul_pow2 by lia. rewrite <- Z.lxor_lor.
  - rewrite <- Z.add_nocarry_lxor; [lia|]. apply Z.bits_inj'. intros i Hi. rewrite Z.land_spec, Z.bits_0.
    destruct (Z.lt_ge_cases i n); [rewrite Z.mul_pow2_bits_low by lia; apply andb_false_r|].
    replace v with (v mod 2 ^ n) by (by apply Z.mod_small). by rewrite Z.mod_pow2_bits_high by lia.
  - apply Z.bits_inj'. intros i Hi. rewrite Z.land_spec, Z.bits_0.
    destruct (Z.lt_ge_cases i n); [rewrite Z.mul_pow2_bits_low by lia; apply andb_false_r|].
    replace v with (v mod 2 ^ n) by (by apply Z.mod_small). by rewrite Z.mod_pow2_bits_high by lia.
Qed.

Lemma read_le_val n bytes off :
  (off + n <= length bytes)%nat -> read_le n bytes off = le_val (subspan bytes off n).
Proof.
  unfold read_le. induction n as [|n IH]; intros Hn; [done|].
  rewrite seq_S, foldl_app, IH by lia. cbn [foldl].
  rewrite subspan_S, le_val_snoc by lia. unfold zlen. rewrite subspan_length by lia.
  apply lor_shift_add; [|lia]. pose proof (le_val_bound (subspan bytes off n)) as Hb.
  unfold zlen in Hb. by rewrite subspan_length in Hb by lia.
Qed.

Lemma le_bytes_length n v : length (le_bytes n v) = n.
Proof. unfold le_bytes. by rewrite length_fmap, length_seq. Qed.

Lemma le_bytes_S n v : le_bytes (S n) v = byte_of_Z v :: le_bytes n (v / 256).
Proof.
  unfold le_bytes. rewrite <- cons_seq, fmap_cons, <- fmap_S_seq, <- list_fmap_compose. f_equal.
  - cbn [Z.of_nat Z.mul]. rewrite Z.shiftr_0_r. change 255 with (Z.ones 8). rewrite Z.land_ones by lia.
    unfold byte_of_Z. by rewrite Z.mod_mod by lia.
  - apply list_fmap_ext. intros j i Hi. cbn. do 2 f_equal. change 256 with (2 ^ 8).
    rewrite <- Z.shiftr_div_pow2, Z.shiftr_shiftr by lia. f_equal. lia.
Qed.

Lemma le_val_le_bytes n v : le_val (le_bytes n v) = v mod 256 ^ Z.of_nat n.
Proof.
  revert v. induction n as [|n IH]; intros v; [by rewrite Z.mod_1_r|].
  rewrite le_bytes_S. cbn [le_val foldr]. fold (le_val (le_bytes n (v / 256))).
  rewrite IH, Z_of_byte_of_Z, Nat2Z.inj_succ, Z.pow_succ_r by lia.
  rewrite Z.rem_mul_r by (try apply Z.pow_nonzero; lia). lia.
Qed.

Lemma le_bytes_le_val l : le_bytes (length l) (le_val l) = l.
Proof.
  induction l as [|b l IH]; [done|]. cbn [length le_val foldr]. fold (le_val l).
  pose proof (Z_of_byte_range b). rewrite le_bytes_S. f_equal.
  - apply Z_of_byte_inj. rewrite Z_of_byte_of_Z. symmetry. apply Z.mod_unique with (le_val l); lia.
  - replace ((Z_of_byte b + 256 * le_val l) / 256) with (le_val l); [done|].
    apply Z.div_unique with (Z_of_byte b); lia.
Qed.

(** ** Reading and writing concatenations *)

Lemma read_le_bound n bytes off :
  (off + n <= length bytes)%nat -> 0 <= read_le n bytes off < 256 ^ Z.of_nat n.
Proof.
  intros H. rewrite read_le_val by done. pose proof (le_val_bound (subspan bytes off n)) as Hb.
  unfold zlen in Hb. rewrite subspan_length in Hb by done. by rewrite (Z.pow_mul_r 2 8) in Hb by lia.
Qed.

Lemma le_bytes_read n bytes off :
  (off + n <= length bytes)%nat -> le_bytes n (read_le n bytes off) = subspan bytes off n.
Proof.
  intros H. rewrite read_le_val by done.
  rewrite <- (subspan_length bytes off n) at 1 by done. apply le_bytes_le_val.
Qed.

Lemma read_le_skip n a b off : (length a <= off)%nat -> read_le n (a ++ b) off = read_le n b (off - length a).
Proof.
  intros H. unfold read_le. generalize 0. generalize (seq 0 n).
  induction l as [|i l IH]; intros v; [done|]. cbn [foldl]. rewrite IH. do 4 f_equal.
  rewrite lookup_total_app_r by lia. f_equal. lia.
Qed.

Lemma read_le_here n v b : read_le n (le_bytes n v ++ b) 0 = v mod 256 ^ Z.of_nat n.
Proof.
  rewrite read_le_val by (rewrite length_app, le_bytes_length; lia).
  rewrite subspan_app_here by (by rewrite le_bytes_length). apply le_val_le_bytes.
Qed.

Lemma read_le_app_left n a b off : (off + n <= length a)%nat -> read_le n (a ++ b) off = read_le n a off.
Proof. intros H. rewrite !read_le_val by (rewrite ?length_app; lia). by rewrite subspan_app_left. Qed.

Lemma read_le_subspan n bytes off m k : (k + n <= m)%nat -> (off + m <= length bytes)%nat ->
  read_le n (subspan bytes off m) k = read_le n bytes (off + k).
Proof.
  intros H1 H2. rewrite !read_le_val by (rewrite ?subspan_length; lia). by rewrite subspan_subspan.
Qed.

(** Peeling the field at [off] off the rest of the span. *)
Lemma drop_le_field n bytes off : (off + n <= length bytes)%nat ->
  drop off bytes = le_bytes n (read_le n bytes off) ++ drop (off + n) bytes.
Proof. intros H. rewrite le_bytes_read by done. unfold subspan. by rewrite <- drop_drop, take_drop. Qed.

Lemma ReadLe16_bound bytes off : (off + 2 <= length bytes)%nat -> is_u16 (ReadLe16 bytes off).
Proof. apply (read_le_bound 2). Qed.
Lemma ReadLe32_bound bytes off : (off + 4 <= length bytes)%nat -> is_u32 (ReadLe32 bytes off).
Proof. apply (read_le_bound 4). Qed.
Lemma ReadLe64_bound bytes off : (off + 8 <= length bytes)%nat -> is_u64 (ReadLe64 bytes off).
Proof. apply (read_le_bound 8). Qed.
#[export] Hint Resolve ReadLe16_bound ReadLe32_bound ReadLe64_bound : mino.

(** ** Tactics for layouts *)

Ltac le_len := rewrite ?length_app, ?le_bytes_length, ?length_replicate, ?length_take, ?length_drop.
Ltac write_le_field := rewrite write_next by (le_len; cbn [length]; lia).
(** Walk over the fields before the one that is read. *)
Ltac read_le_field :=
  repeat (rewrite read_le_skip by (rewrite le_bytes_length; lia); rewrite le_bytes_length; cbn [Nat.sub]);
  rewrite read_le_here; apply Z.mod_small.
Ltac peel_le n bytes off := rewrite (drop_le_field n bytes off) by lia; cbn [Nat.add].
Ltac le_bound :=
  lazymatch goal with
  | |- is_u64 (ReadLe64 _ _) => apply ReadLe64_bound
  | |- is_u32 (ReadLe32 _ _) => apply ReadLe32_bound
  | |- is_u16 (ReadLe16 _ _) => apply ReadLe16_bound
  end.
