(* ===== verification/TopicPartition.v ===== *)
(** * Topic partitions

    Models [mino/storage/topic_partition.h] and [.cc]: partition maps, the stable hash that routes a
    message to a partition, and the gates of the repartition protocol; and [MessageSource] of
    [mino/storage/recording_types.h].

    A field of an enumeration type read from a file can hold any 8-bit value: the
    constructors [OtherStrategy] and [OtherMapState] stand for the values without a name. *)
From S2P Require Import Prelude SourceIdentity Bytes Crc32c LittleEndian.

Record MessageSource : Set := mkMessageSource {
  source_node_id : Z; source_publisher_id : Z; source_publisher_epoch : Z;
  source_sequence_number : Z; source_observed_ns : Z
}.

Definition kStablePartitionHashVersion : Z := 1.
Definition kDefaultPartitionHashSeed : Z := 0x6d696e6f2d703031.
Definition kMaximumTopicPartitions : Z := 65536.

Inductive TopicPartitionStrategy : Set := kKey | kHash | kSource | kManual | OtherStrategy (value : Z).
Inductive TopicPartitionMapState : Set := kPrepared | kActive | kDraining | kMapRetired | OtherMapState (value : Z).

#[export] Instance TopicPartitionStrategy_eq_dec : EqDecision TopicPartitionStrategy.
Proof. solve_decision. Defined.
#[export] Instance TopicPartitionMapState_eq_dec : EqDecision TopicPartitionMapState.
Proof. solve_decision. Defined.

(** The underlying values, and [static_cast] from them. *)
Definition strategy_value (s : TopicPartitionStrategy) : Z :=
  match s with kKey => 1 | kHash => 2 | kSource => 3 | kManual => 4 | OtherStrategy v => v end.
Definition strategy_of (v : Z) : TopicPartitionStrategy :=
  if v =? 1 then kKey else if v =? 2 then kHash else if v =? 3 then kSource
  else if v =? 4 then kManual else OtherStrategy v.
Definition map_state_value (s : TopicPartitionMapState) : Z :=
  match s with kPrepared => 1 | kActive => 2 | kDraining => 3 | kMapRetired => 4 | OtherMapState v => v end.
Definition map_state_of (v : Z) : TopicPartitionMapState :=
  if v =? 1 then kPrepared else if v =? 2 then kActive else if v =? 3 then kDraining
  else if v =? 4 then kMapRetired else OtherMapState v.

Definition ValidStrategy (s : TopicPartitionStrategy) : bool :=
  match s with OtherStrategy _ => false | _ => true end.
Definition ValidMapState (s : TopicPartitionMapState) : bool :=
  match s with OtherMapState _ => false | _ => true end.

Definition TopicPartitionStrategyName (s : TopicPartitionStrategy) : string :=
  match s with
  | kKey => "key" | kHash => "hash" | kSource => "source" | kManual => "manual" | OtherStrategy _ => "unknown"
  end.
Definition ParseTopicPartitionStrategy (value : string) : Result TopicPartitionStrategy :=
  if bool_decide (value = "key") then Ok kKey
  else if bool_decide (value = "hash") then Ok kHash
  else if bool_decide (value = "source") then Ok kSource
  else if bool_decide (value = "manual") then Ok kManual
  else Err (Invalid "partition strategy must be key, hash, source, or manual").
Definition TopicPartitionMapStateName (s : TopicPartitionMapState) : string :=
  match s with
  | kPrepared => "prepared" | kActive => "active" | kDraining => "draining" | kMapRetired => "retired"
  | OtherMapState _ => "unknown"
  end.

Record TopicPartitionMap : Set := mkPartitionMap {
  map_version : Z; map_generation : Z; map_partition_count : Z; map_strategy : TopicPartitionStrategy;
  map_state : TopicPartitionMapState; map_hash_version : Z; map_hash_seed : Z
}.
#[export] Instance TopicPartitionMap_eq_dec : EqDecision TopicPartitionMap.
Proof. solve_decision. Defined.

Definition ValidateTopicPartitionMap (map : TopicPartitionMap) : Result unit :=
  fail_if (map_version map =? 0) || (map_generation map =? 0) || (map_partition_count map =? 0)
          || (kMaximumTopicPartitions <? map_partition_count map)
          || negb (ValidStrategy (map_strategy map)) || negb (ValidMapState (map_state map)) with
    Invalid "topic partition map identity is invalid" ;;
  fail_if negb (map_hash_version map =? kStablePartitionHashVersion) with
    Unsupported "topic partition hash version is unsupported" ;;
  Ok tt.

(** ** Routing *)

Definition Finalize (value : Z) : Z :=
  let value := Z.lxor value (Z.shiftr value 30) in
  let value := wrap64 (value * 0xbf58476d1ce4e5b9) in
  let value := Z.lxor value (Z.shiftr value 27) in
  let value := wrap64 (value * 0x94d049bb133111eb) in
  Z.lxor value (Z.shiftr value 31).

(** [value ^= byte; value *= kFnvPrime]. *)
Definition hash_byte (value : Z) (b : byte) : Z := wrap64 (Z.lxor value (Z_of_byte b) * kFnv1aPrime).

Definition StablePartitionHash (bytes : list byte) (seed : Z) : Z :=
  let value := foldl hash_byte kFnv1aOffset (le_bytes 8 seed) in
  let value := foldl hash_byte value bytes in
  Finalize value.

Definition StableSourcePartitionHash (source : MessageSource) (seed : Z) : Z :=
  StablePartitionHash (le_bytes 8 (source_node_id source) ++ le_bytes 8 (source_publisher_id source)
                       ++ le_bytes 8 (source_publisher_epoch source)) seed.

Record TopicPartitionRouteInput : Set := mkRoute {
  route_key : list byte; route_hash : option Z; manual_partition_id : option Z; route_source : MessageSource
}.

Definition SelectTopicPartition (map : TopicPartitionMap) (input : TopicPartitionRouteInput) : Result Z :=
  check! ValidateTopicPartitionMap map ;;
  fail_if negb (bool_decide (map_state map = kActive)) with
    mkStatus kUnavailable "topic partition map is not active" ;;
  let modulo hash := Ok (hash mod map_partition_count map) in
  match map_strategy map with
  | kKey =>
      fail_if bool_decide (route_key input = []) with
        Invalid "key partition strategy requires a non-empty key" ;;
      modulo (StablePartitionHash (route_key input) (map_hash_seed map))
  | kHash =>
      match route_hash input with
      | None => Err (Invalid "hash partition strategy requires a stable hash")
      | Some h => modulo (StablePartitionHash (le_bytes 8 h) (map_hash_seed map))
      end
  | kSource =>
      let s := route_source input in
      fail_if (source_node_id s =? 0) || (source_publisher_id s =? 0) || (source_publisher_epoch s =? 0) with
        Invalid "source partition strategy requires source identity" ;;
      modulo (StableSourcePartitionHash s (map_hash_seed map))
  | kManual =>
      match manual_partition_id input with
      | None => Err (Invalid "manual partition strategy requires partition_id")
      | Some p =>
          fail_if map_partition_count map <=? p with Invalid "manual partition_id exceeds partition count" ;;
          Ok p
      end
  | OtherStrategy _ => modulo 0
  end.

(** ** The repartition protocol *)

Record PartitionDrainProof : Set := mkDrainProof {
  old_routes_fenced : bool; queued_records : Z; reserved_records : Z; active_writers : Z;
  last_admitted_sequence : Z; last_persisted_sequence : Z
}.
Definition complete (p : PartitionDrainProof) : bool :=
  old_routes_fenced p && (queued_records p =? 0) && (reserved_records p =? 0) && (active_writers p =? 0)
  && (last_admitted_sequence p <=? last_persisted_sequence p).

Definition ValidatePartitionMapPrepare (current next : TopicPartitionMap) : Result unit :=
  check! ValidateTopicPartitionMap current ;;
  check! ValidateTopicPartitionMap next ;;
  fail_if negb (bool_decide (map_state current = kActive)) || negb (bool_decide (map_state next = kPrepared)) with
    Invalid "repartition prepare requires active and prepared maps" ;;
  fail_if (map_version current =? u64_max) || (map_generation current =? u64_max)
          || (map_version next <=? map_version current) || (map_generation next <=? map_generation current) with
    Invalid "repartition requires a newer map version and generation" ;;
  Ok tt.
Definition ValidatePartitionMapBeginDrain (current prepared : TopicPartitionMap) : Result unit :=
  ValidatePartitionMapPrepare current prepared.
Definition ValidatePartitionMapCutover (draining prepared : TopicPartitionMap) (proof : PartitionDrainProof)
  : Result unit :=
  check! ValidateTopicPartitionMap draining ;;
  check! ValidateTopicPartitionMap prepared ;;
  fail_if negb (bool_decide (map_state draining = kDraining)) || negb (bool_decide (map_state prepared = kPrepared))
          || (map_version prepared <=? map_version draining) || (map_generation prepared <=? map_generation draining) with
    Invalid "repartition cutover maps are not drain-compatible" ;;
  fail_if negb (complete proof) with
    mkStatus kWouldBlock "repartition cutover requires a complete drain proof" ;;
  Ok tt.

(** ** What routing promises *)

Lemma strategy_round_trip s : ValidStrategy s = true -> strategy_of (strategy_value s) = s.
Proof. by destruct s. Qed.
Lemma map_state_round_trip s : ValidMapState s = true -> map_state_of (map_state_value s) = s.
Proof. by destruct s. Qed.
Lemma strategy_value_u8 s : ValidStrategy s = true -> 0 <= strategy_value s < 256.
Proof. destruct s; cbn; done || lia. Qed.
Lemma map_state_value_u8 s : ValidMapState s = true -> 0 <= map_state_value s < 256.
Proof. destruct s; cbn; done || lia. Qed.

Lemma ValidateTopicPartitionMap_ok map : is_u32 (map_partition_count map) -> ValidateTopicPartitionMap map = Ok tt <->
  map_version map <> 0 /\ map_generation map <> 0 /\ 0 < map_partition_count map <= kMaximumTopicPartitions /\
  ValidStrategy (map_strategy map) = true /\ ValidMapState (map_state map) = true /\
  map_hash_version map = kStablePartitionHashVersion.
Proof.
  intros Hc. unfold ValidateTopicPartitionMap. split.
  - intros H. repeat step_if. bool_to_prop. split_and!; try done; ulia.
  - intros (H1 & H2 & H3 & H4 & H5 & H6). rewrite H4, H5, H6.
    rewrite (proj2 (Z.eqb_neq _ _) H1), (proj2 (Z.eqb_neq _ _) H2), (proj2 (Z.eqb_neq _ 0)) by lia.
    by rewrite (proj2 (Z.ltb_ge _ _)) by lia.
Qed.

Lemma Finalize_finalize v : Finalize v = finalize v.
Proof. done. Qed.

Lemma hash_byte_u64 v b : is_u64 (hash_byte v b).
Proof. apply wrap64_u64. Qed.
Lemma hash_bytes_u64 l : forall v, is_u64 v -> is_u64 (foldl hash_byte v l).
Proof. induction l as [|b l IH]; intros v Hv; [done|]. apply IH, hash_byte_u64. Qed.

Lemma lxor_byte_u64 v b : is_u64 v -> is_u64 (Z.lxor v (Z_of_byte b)).
Proof. intros. apply lxor_u64; [done|]. pose proof (Z_of_byte_range b). ulia. Qed.

Lemma hash_byte_inj a c b d : is_u64 a -> is_u64 c -> hash_byte a b = hash_byte c d ->
  Z.lxor a (Z_of_byte b) = Z.lxor c (Z_of_byte d).
Proof.
  intros Ha Hc H. apply (mul_odd_inj kFnv1aPrime 14886173955864302971); [reflexivity|by apply lxor_byte_u64..|exact H].
Qed.

Lemma hash_bytes_inj l : forall a c, is_u64 a -> is_u64 c -> foldl hash_byte a l = foldl hash_byte c l -> a = c.
Proof.
  induction l as [|b l IH]; intros a c Ha Hc H; [done|]. cbn [foldl] in H.
  apply IH in H; [|apply hash_byte_u64..]. apply hash_byte_inj in H; [|done..]. by eapply lxor_cancel_r.
Qed.

Lemma single_byte_changes_hash before b b' after seed : b <> b' ->
  StablePartitionHash (before ++ b :: after) seed <> StablePartitionHash (before ++ b' :: after) seed.
Proof.
  intros Hne H. unfold StablePartitionHash in H. cbv zeta in H. rewrite !foldl_app in H. cbn [foldl] in H.
  set (v := foldl hash_byte kFnv1aOffset (le_bytes 8 seed)) in H.
  assert (is_u64 v) as Hv by (apply hash_bytes_u64; exact fnv_offset_u64).
  rewrite !Finalize_finalize in H. apply finalize_inj in H; [|apply hash_bytes_u64, hash_byte_u64..].
  apply hash_bytes_inj in H; [|apply hash_byte_u64..]. apply hash_byte_inj in H; [|by apply hash_bytes_u64..].
  apply Hne, Z_of_byte_inj. rewrite !(Z.lxor_comm (foldl _ _ _)) in H. by eapply lxor_cancel_r.
Qed.

Lemma selected_in_range map input p :
  is_u32 (map_partition_count map) -> (forall q, manual_partition_id input = Some q -> is_u32 q) ->
  SelectTopicPartition map input = Ok p -> 0 <= p < map_partition_count map.
Proof.
  intros Hc Hman H. unfold SelectTopicPartition in H.
  destruct (ValidateTopicPartitionMap map) as [[]|] eqn:Hv; [|discriminate H]. cbn [bindR] in H.
  apply ValidateTopicPartitionMap_ok in Hv as (_ & _ & Hn & _); [|done].
  assert (forall h, Ok (h mod map_partition_count map) = Ok p -> 0 <= p < map_partition_count map) as Hm
    by (intros h [= <-]; apply Z.mod_pos_bound; lia).
  step_if. destruct (map_strategy map).
  - step_if. by apply Hm in H.
  - destruct (route_hash input); [by apply Hm in H | done].
  - step_if. by apply Hm in H.
  - destruct (manual_partition_id input) as [q|] eqn:Eq; [|done]. step_if. injection H as <-. bool_to_prop.
    specialize (Hman q eq_refl). ulia.
  - by apply Hm in H.
Qed.

Lemma select_by_source map input other : map_strategy map = kSource ->
  source_node_id (route_source other) = source_node_id (route_source input) ->
  source_publisher_id (route_source other) = source_publisher_id (route_source input) ->
  source_publisher_epoch (route_source other) = source_publisher_epoch (route_source input) ->
  SelectTopicPartition map other = SelectTopicPartition map input.
Proof.
  intros Hs E1 E2 E3. unfold SelectTopicPartition, StableSourcePartitionHash. rewrite Hs, E1, E2, E3. reflexivity.
Qed.

(** A message is routed to an existing partition.  Routing by source depends on the identity of the
    source alone, so that one source stays in one partition while the map is active; routing
    by key or hash depends on all of it: changing any one byte changes the 64-bit hash. *)
Theorem partition_routing_spec map input p :
  is_u32 (map_partition_count map) -> (forall q, manual_partition_id input = Some q -> is_u32 q) ->
  SelectTopicPartition map input = Ok p ->
  0 <= p < map_partition_count map /\
  (map_strategy map = kSource -> forall other,
     source_node_id (route_source other) = source_node_id (route_source input) ->
     source_publisher_id (route_source other) = source_publisher_id (route_source input) ->
     source_publisher_epoch (route_source other) = source_publisher_epoch (route_source input) ->
     SelectTopicPartition map other = Ok p) /\
  (forall before b b' after, b <> b' ->
     StablePartitionHash (before ++ b :: after) (map_hash_seed map)
     <> StablePartitionHash (before ++ b' :: after) (map_hash_seed map)).
Proof.
  intros Hc Hman H. split; [by eapply selected_in_range|]. split; [|by intros; apply single_byte_changes_hash].
  intros Hs other E1 E2 E3. rewrite <- H. by apply select_by_source.
Qed.

Lemma partition_routing_spec_witness :
  let map := mkPartitionMap 1 1 8 kSource kActive 1 kDefaultPartitionHashSeed in
  let route n := mkRoute [] None None (mkMessageSource 3 4 5 n 6) in
  exists p, 0 <= p < 8 /\ SelectTopicPartition map (route 7) = Ok p /\ SelectTopicPartition map (route 9) = Ok p.
Proof.
  intros map route. destruct (SelectTopicPartition map (route 7)) as [p|e] eqn:E; [|vm_compute in E; discriminate].
  destruct (partition_routing_spec map (route 7) p) as (H1 & H2 & _); [split; done | discriminate | exact E |].
  exists p. split; [exact H1|]. split; [reflexivity|]. apply H2; reflexivity.
Defined.
