(* ===== verification/ManifestFormat.v ===== *)
(** * The partition manifest

    Models the partition half of [mino/storage/recording_manifest.h] and [.cc]: the snapshot of a
    partition with its segments and its durable checkpoint, the rules a snapshot obeys, and the
    two versions of its file format.

    A [std::filesystem::path] is the list of its components, as iteration yields them: a root
    directory is ["/"], a trailing slash an empty last component. *)
From Stdlib Require Import Ascii.
From S2P Require Import Prelude SourceIdentity Bytes Crc32c LittleEndian TopicPartition.

(** ** Paths *)

Definition fs_path : Set := list string.

(** The text between slashes. *)
Fixpoint split_at_slashes (s : string) : list string :=
  match s with
  | "" => [""]
  | String c rest =>
      match split_at_slashes rest with
      | piece :: pieces =>
          if bool_decide (c = "/"%char) then "" :: piece :: pieces else String c piece :: pieces
      | [] => []
      end
  end.

(** The constructor from a string. *)
Definition path_of_string (s : string) : fs_path :=
  match s with
  | "" => []
  | _ =>
      let pieces := split_at_slashes s in
      let names := filter (fun x => x <> "") pieces in
      (if bool_decide (head pieces = Some "") then ["/"] else [])
      ++ names
      ++ (if bool_decide (list.last pieces = Some "") && negb (bool_decide (names = [])) then [""] else [])
  end.

Fixpoint join_names (names : list string) : string :=
  match names with
  | [] => ""
  | [name] => name
  | name :: rest => name +:+ "/" +:+ join_names rest
  end.
Definition generic_string (p : fs_path) : string :=
  if bool_decide (head p = Some "/") then "/" +:+ join_names (tail p) else join_names p.
Definition is_absolute (p : fs_path) : bool := bool_decide (head p = Some "/").

(** [lexically_normal] of a path without empty, dot and dot-dot components, the only ones it is
    applied to: every name is appended. *)
Definition lexically_normal (p : fs_path) : fs_path := foldl (fun ret name => ret ++ [name]) [] p.

Fixpoint contains_nul (s : string) : bool :=
  match s with
  | "" => false
  | String c rest => bool_decide (c = Ascii.zero) || contains_nul rest
  end.

(** From the last period on, when there is one. *)
Fixpoint from_last_period (s : string) : option string :=
  match s with
  | "" => None
  | String c rest =>
      match from_last_period rest with
      | Some e => Some e
      | None => if bool_decide (c = "."%char) then Some s else None
      end
  end.
(** [extension] of a file name: a period at the front does not begin one. *)
Definition extension (name : string) : string :=
  if bool_decide (name = ".") || bool_decide (name = "..") then ""
  else match from_last_period name with
       | Some e => if bool_decide (e = name) then "" else e
       | None => ""
       end.

(** ** The snapshot *)

Definition kPartitionManifestFormatVersion : Z := 2.
Definition kLegacyManifestFormatVersion : Z := 1.
Definition kLegacyPartitionHeaderSize : Z := 104.
Definition kLegacyPartitionCrcOffset : nat := 100.
Definition kPartitionHeaderSize : Z := 136.
Definition kPartitionCrcOffset : nat := 132.
Definition kSegmentFixedSize : Z := 64.
Definition kEncodedSegmentHeaderSize : Z := 52.
Definition kHardMaxManifestBytes : Z := 256 * 1024 * 1024.
Definition kHardMaxEntries : Z := 1048576.
Definition kHardMaxStringBytes : Z := 1048576.
Definition kPartitionMagic : list byte := String.list_byte_of_string "MINOPARM".

Record ManifestLimits : Set := mkManifestLimits {
  max_manifest_bytes : Z; max_topics : Z; max_schemas_per_topic : Z; max_partition_maps_per_topic : Z;
  max_segments : Z; max_topic_name_bytes : Z; max_relative_path_bytes : Z
}.
Definition default_manifest_limits : ManifestLimits :=
  mkManifestLimits (64 * 1024 * 1024) 65536 65536 1024 1048576 1024 4096.

Inductive SegmentPersistentState : Set :=
| kSegmentCreating | kSegmentOpen | kSegmentSealed | kSegmentIndexed | kSegmentRetained | kSegmentDeleted
| OtherSegmentState (value : Z).
#[export] Instance SegmentPersistentState_eq_dec : EqDecision SegmentPersistentState.
Proof. solve_decision. Defined.
Definition segment_state_value (s : SegmentPersistentState) : Z :=
  match s with
  | kSegmentCreating => 1 | kSegmentOpen => 2 | kSegmentSealed => 3 | kSegmentIndexed => 4
  | kSegmentRetained => 5 | kSegmentDeleted => 6 | OtherSegmentState v => v
  end.
Definition segment_state_of (v : Z) : SegmentPersistentState :=
  if v =? 1 then kSegmentCreating else if v =? 2 then kSegmentOpen else if v =? 3 then kSegmentSealed
  else if v =? 4 then kSegmentIndexed else if v =? 5 then kSegmentRetained
  else if v =? 6 then kSegmentDeleted else OtherSegmentState v.

Record SegmentManifestEntry : Set := mkEntry {
  entry_segment_id : Z; entry_state : SegmentPersistentState;
  entry_first_sequence : Z; entry_last_sequence : Z; entry_created_at_ns : Z; entry_sealed_at_ns : Z;
  entry_size_bytes : Z; relative_path : fs_path
}.
#[export] Instance SegmentManifestEntry_eq_dec : EqDecision SegmentManifestEntry.
Proof. solve_decision. Defined.

Record DurableCheckpoint : Set := mkDurableCheckpoint {
  checkpoint_segment_id : Z; durable_offset : Z; durable_sequence : Z
}.
#[export] Instance DurableCheckpoint_eq_dec : EqDecision DurableCheckpoint.
Proof. solve_decision. Defined.

Record PartitionMetadata : Set := mkPartition {
  meta_recording_id : Z; meta_topic_id : Z; meta_partition_id : Z; meta_writer_id : Z; meta_owner_epoch : Z;
  partition_map_version : Z; partition_generation : Z; partition_count : Z;
  partition_strategy : TopicPartitionStrategy; partition_map_state : TopicPartitionMapState;
  hash_algorithm_version : Z; hash_seed : Z; config_version : Z
}.
#[export] Instance PartitionMetadata_eq_dec : EqDecision PartitionMetadata.
Proof. solve_decision. Defined.

Record PartitionManifestSnapshot : Set := mkSnapshot {
  snapshot_generation : Z; format_version : Z; partition : PartitionMetadata;
  snapshot_checkpoint : option DurableCheckpoint; segments : list SegmentManifestEntry
}.

(** ** What a snapshot must satisfy *)

Definition ValidateManifestLimits (l : ManifestLimits) : Result unit :=
  fail_if (max_manifest_bytes l <? kPartitionHeaderSize) || (kHardMaxManifestBytes <? max_manifest_bytes l) with
    Invalid "manifest byte limit is out of bounds" ;;
  fail_if (max_topics l =? 0) || (kHardMaxEntries <? max_topics l)
          || (max_schemas_per_topic l =? 0) || (kHardMaxEntries <? max_schemas_per_topic l)
          || (max_partition_maps_per_topic l =? 0) || (kHardMaxEntries <? max_partition_maps_per_topic l)
          || (max_segments l =? 0) || (kHardMaxEntries <? max_segments l) with
    Invalid "manifest entry limit is out of bounds" ;;
  fail_if (max_topic_name_bytes l =? 0) || (kHardMaxStringBytes <? max_topic_name_bytes l)
          || (max_relative_path_bytes l =? 0) || (kHardMaxStringBytes <? max_relative_path_bytes l) with
    Invalid "manifest string limit is out of bounds" ;;
  Ok tt.

Definition ValidateBasicRelativePath (p : fs_path) (max_bytes : Z) : Result unit :=
  let text := generic_string p in
  fail_if bool_decide (text = "") || (max_bytes <? Z.of_nat (String.length text)) || is_absolute p
          || contains_nul text with
    Invalid "manifest path is not a bounded relative path" ;;
  fail_if existsb (fun c => bool_decide (c = "") || bool_decide (c = ".") || bool_decide (c = "..")) p with
    Invalid "manifest path traversal is forbidden" ;;
  fail_if negb (bool_decide (generic_string (lexically_normal p) = text)) with
    Invalid "manifest path is not canonical" ;;
  Ok tt.

Definition ValidateSegmentPath (p : fs_path) (max_bytes : Z) : Result unit :=
  check! ValidateBasicRelativePath p max_bytes ;;
  fail_if negb (bool_decide (head p = Some "segments")) with Invalid "segment path must be below segments" ;;
  match tail p with
  | [] => Err (Invalid "segment filename is missing")
  | filename :: others =>
      fail_if negb (bool_decide (others = [])) || negb (bool_decide (extension filename = ".mino")) with
        Invalid "segment path must be segments/<name>.mino" ;;
      Ok tt
  end.

Definition ValidState (s : SegmentPersistentState) : bool :=
  (segment_state_value kSegmentCreating <=? segment_state_value s)
  && (segment_state_value s <=? segment_state_value kSegmentDeleted).

Definition AllowedTransition (from to : SegmentPersistentState) : bool :=
  match from with
  | kSegmentCreating => bool_decide (to = kSegmentOpen)
  | kSegmentOpen => bool_decide (to = kSegmentSealed)
  | kSegmentSealed => bool_decide (to = kSegmentIndexed)
  | kSegmentIndexed => bool_decide (to = kSegmentRetained) || bool_decide (to = kSegmentDeleted)
  | kSegmentRetained => bool_decide (to = kSegmentDeleted)
  | kSegmentDeleted | OtherSegmentState _ => false
  end.

Definition is_active (e : SegmentManifestEntry) : bool :=
  bool_decide (entry_state e = kSegmentCreating) || bool_decide (entry_state e = kSegmentOpen).
Definition at_least_sealed (e : SegmentManifestEntry) : bool :=
  segment_state_value kSegmentSealed <=? segment_state_value (entry_state e).

(** The loop over the segments: the previous one, whether an active one was seen, the paths so far. *)
Fixpoint validate_segments (l : ManifestLimits) (previous : option SegmentManifestEntry) (active : bool)
    (paths : list string) (entries : list SegmentManifestEntry) : Result unit :=
  match entries with
  | [] => Ok tt
  | e :: rest =>
      fail_if (entry_segment_id e =? 0) || negb (ValidState (entry_state e))
              || (entry_last_sequence e <? entry_first_sequence e) with
        Corruption "segment metadata is invalid" ;;
      fail_if match previous with
              | Some p => (entry_segment_id e <=? entry_segment_id p)
                          || (entry_first_sequence e <=? entry_last_sequence p)
              | None => false
              end with
        Corruption "segments are duplicate, overlapping, or unordered" ;;
      check! ValidateSegmentPath (relative_path e) (max_relative_path_bytes l) ;;
      let text := generic_string (relative_path e) in
      fail_if bool_decide (text ∈ paths) with Corruption "segment path is duplicated" ;;
      fail_if is_active e && (active || negb (bool_decide (rest = []))) with
        Corruption "only the final segment may be active" ;;
      fail_if at_least_sealed e
              && ((entry_sealed_at_ns e <? entry_created_at_ns e)
                  || (entry_size_bytes e <? kEncodedSegmentHeaderSize)) with
        Corruption "sealed segment metadata is incomplete" ;;
      fail_if negb (at_least_sealed e) && negb (entry_sealed_at_ns e =? 0) with
        Corruption "unsealed segment has a sealed timestamp" ;;
      validate_segments l (Some e) (active || is_active e) (text :: paths) rest
  end.

(** [std::find_if] by the segment id. *)
Definition find_segment (id : Z) (entries : list SegmentManifestEntry) : option (nat * SegmentManifestEntry) :=
  list_find (fun e => entry_segment_id e = id) entries.

Definition checkpoint_inside (c : DurableCheckpoint) (entries : list SegmentManifestEntry) : bool :=
  match find_segment (checkpoint_segment_id c) entries with
  | None => false
  | Some (_, e) =>
      (kEncodedSegmentHeaderSize <=? durable_offset c) && (durable_offset c <=? entry_size_bytes e)
      && (entry_first_sequence e <=? durable_sequence c) && (durable_sequence c <=? entry_last_sequence e)
  end.

Definition partition_map (m : PartitionMetadata) : TopicPartitionMap :=
  mkPartitionMap (partition_map_version m) (partition_generation m) (partition_count m) (partition_strategy m)
    (partition_map_state m) (hash_algorithm_version m) (hash_seed m).

Definition ValidatePartitionSnapshot (s : PartitionManifestSnapshot) (l : ManifestLimits) : Result unit :=
  check! ValidateManifestLimits l ;;
  let m := partition s in
  fail_if (snapshot_generation s =? 0) || (meta_recording_id m =? 0) || (meta_topic_id m =? 0)
          || (meta_writer_id m =? 0) || (meta_owner_epoch m =? 0) with
    Invalid "partition manifest metadata contains a zero identity" ;;
  check! ValidateTopicPartitionMap (partition_map m) ;;
  fail_if partition_count m <=? meta_partition_id m with
    Invalid "partition ID exceeds its persisted partition count" ;;
  fail_if max_segments l <? zlen (segments s) with Resource "partition manifest has too many segments" ;;
  check! validate_segments l None false [] (segments s) ;;
  fail_if match snapshot_checkpoint s with
          | None => false
          | Some c => negb (checkpoint_inside c (segments s))
          end with
    Corruption "durable checkpoint is outside its segment" ;;
  Ok tt.

(** ** Reading and writing the file *)

(** [class Cursor]: the bytes still to read. *)
Definition Cursor (A : Type) : Type := list byte -> Result (A * list byte).
Definition cret {A} (a : A) : Cursor A := fun l => Ok (a, l).
Definition cfail {A} (e : Status) : Cursor A := fun _ => Err e.
Definition cbind {A C} (m : Cursor A) (k : A -> Cursor C) : Cursor C := fun l =>
  match m l with Ok (a, l') => k a l' | Err e => Err e end.
Notation "'take!' x ':=' m 'in' k" := (cbind m (fun x => k))
  (at level 10, x name, m at level 100, k at level 200) : mino_scope.
Notation "'reject_if' c 'with' s ';;' k" := (if c then cfail s else k)
  (at level 10, c at level 99, s at level 99, k at level 200) : mino_scope.

(** [U8], [U16], [U32], [U64] for [n] = 1, 2, 4, 8. *)
Definition Uint (n : nat) : Cursor Z := fun l =>
  if (length l <? n)%nat then Err (Corruption "manifest is truncated")
  else Ok (read_le n l 0, drop n l).
Definition StringOf (length_ limit : Z) : Cursor string := fun l =>
  if limit <? length_ then Err (Resource "manifest string exceeds limit")
  else if zlen l <? length_ then Err (Corruption "manifest string is truncated")
  else Ok (String.string_of_list_byte (take (Z.to_nat length_) l), drop (Z.to_nat length_) l).

Section Codec.
Context {B : Crc32cBackend}.

Definition ManifestCrc (bytes : list byte) (crc_offset : nat) : Z :=
  let crc := Update new_accumulator (take crc_offset bytes) in
  let crc := Update crc (replicate 4 Byte.x00) in
  let crc := Update crc (drop (crc_offset + 4) bytes) in
  Finish crc.

Definition ValidateEnvelope (encoded magic : list byte) (minimum_version maximum_version header_size : Z)
    (crc_offset : nat) (l : ManifestLimits) : Result unit :=
  check! ValidateManifestLimits l ;;
  fail_if zlen encoded <? header_size with Corruption "manifest is truncated" ;;
  fail_if max_manifest_bytes l <? zlen encoded with Resource "manifest exceeds configured byte limit" ;;
  fail_if negb (bool_decide (take (length magic) encoded = magic)) with Corruption "manifest magic is invalid" ;;
  let! v := Uint 2 (drop 8 encoded) in
  let '(actual_version, rest) := v in
  let! h := Uint 2 rest in
  let '(actual_header_size, _) := h in
  fail_if (actual_version <? minimum_version) || (maximum_version <? actual_version) with
    Unsupported "manifest version is unsupported" ;;
  fail_if negb (actual_header_size =? header_size) || negb (ReadLe64 encoded 12 =? zlen encoded) with
    Corruption "manifest size fields are inconsistent" ;;
  fail_if negb (ReadLe32 encoded crc_offset =? ManifestCrc encoded crc_offset) with
    Corruption "manifest CRC32C mismatch" ;;
  Ok tt.

Definition entry_bytes (e : SegmentManifestEntry) : list byte :=
  let path := String.list_byte_of_string (generic_string (relative_path e)) in
  le_bytes 8 (entry_segment_id e) ++ le_bytes 1 (segment_state_value (entry_state e)) ++ replicate 7 Byte.x00
  ++ le_bytes 8 (entry_first_sequence e) ++ le_bytes 8 (entry_last_sequence e)
  ++ le_bytes 8 (entry_created_at_ns e) ++ le_bytes 8 (entry_sealed_at_ns e) ++ le_bytes 8 (entry_size_bytes e)
  ++ le_bytes 4 (zlen path) ++ le_bytes 4 0 ++ path.

(** The header up to its CRC, in two parts; [total] is the size of the file. *)
Definition partition_preamble (total : Z) : list byte :=
  kPartitionMagic ++ le_bytes 2 kPartitionManifestFormatVersion ++ le_bytes 2 kPartitionHeaderSize
  ++ le_bytes 8 total.
Definition partition_fields (s : PartitionManifestSnapshot) : list byte :=
  let m := partition s in
  let c := default (mkDurableCheckpoint 0 0 0) (snapshot_checkpoint s) in
  le_bytes 8 (snapshot_generation s)
  ++ le_bytes 8 (meta_recording_id m) ++ le_bytes 4 (meta_topic_id m) ++ le_bytes 4 (meta_partition_id m)
  ++ le_bytes 8 (meta_writer_id m) ++ le_bytes 8 (meta_owner_epoch m) ++ le_bytes 8 (config_version m)
  ++ le_bytes 8 (partition_map_version m) ++ le_bytes 8 (partition_generation m) ++ le_bytes 8 (hash_seed m)
  ++ le_bytes 4 (partition_count m) ++ le_bytes 1 (strategy_value (partition_strategy m))
  ++ le_bytes 1 (map_state_value (partition_map_state m)) ++ le_bytes 2 (hash_algorithm_version m)
  ++ le_bytes 4 (match snapshot_checkpoint s with Some _ => 1 | None => 0 end) ++ le_bytes 4 (zlen (segments s))
  ++ le_bytes 8 (checkpoint_segment_id c) ++ le_bytes 8 (durable_offset c) ++ le_bytes 8 (durable_sequence c).

(** The loop over the sizes; [None] is the overflow [AddSize] reports. *)
Fixpoint total_size (total : Z) (entries : list SegmentManifestEntry) : option Z :=
  match entries with
  | [] => Some total
  | e :: rest =>
      let size := Z.of_nat (String.length (generic_string (relative_path e))) in
      if u64_max - total <? kSegmentFixedSize then None
      else if u64_max - (total + kSegmentFixedSize) <? size then None
      else total_size (total + kSegmentFixedSize + size) rest
  end.

Definition EncodePartitionInternal (s : PartitionManifestSnapshot) (l : ManifestLimits) : Result (list byte) :=
  check! ValidatePartitionSnapshot s l ;;
  match total_size kPartitionHeaderSize (segments s) with
  | None => Err (Resource "partition manifest size overflows")
  | Some total =>
      fail_if max_manifest_bytes l <? total with Resource "partition manifest exceeds byte limit" ;;
      let out := partition_preamble total ++ partition_fields s ++ le_bytes 4 0
                 ++ concat (entry_bytes <$> segments s) in
      fail_if negb (zlen out =? total) with Corruption "partition encoder size mismatch" ;;
      Ok (WriteLe32 out kPartitionCrcOffset (ManifestCrc out kPartitionCrcOffset))
  end.

(** The reserved bytes of a segment. *)
Fixpoint reserved_bytes (n : nat) : Cursor unit :=
  match n with
  | O => cret tt
  | S n' =>
      take! reserved_byte := Uint 1 in
      reject_if negb (reserved_byte =? 0) with Corruption "segment reserved bits are non-zero" ;;
      reserved_bytes n'
  end.

Definition decode_entry (l : ManifestLimits) : Cursor SegmentManifestEntry :=
  take! segment_id := Uint 8 in
  take! state := Uint 1 in
  take! u := reserved_bytes 7 in
  take! first := Uint 8 in
  take! last := Uint 8 in
  take! created := Uint 8 in
  take! sealed := Uint 8 in
  take! size := Uint 8 in
  take! path_length := Uint 4 in
  take! reserved := Uint 4 in
  reject_if negb (reserved =? 0) with Corruption "segment reserved field is non-zero" ;;
  take! path := StringOf path_length (max_relative_path_bytes l) in
  cret (mkEntry segment_id (segment_state_of state) first last created sealed size (path_of_string path)).

Fixpoint decode_entries (count : nat) (l : ManifestLimits) : Cursor (list SegmentManifestEntry) :=
  match count with
  | O => cret []
  | S count' =>
      take! e := decode_entry l in
      take! rest := decode_entries count' l in
      cret (e :: rest)
  end.

(** The fields of the partition map: version, generation, seed, count, strategy, state and hash version; the
    legacy format has none of them. *)
Definition decode_map (legacy : bool) (partition_id : Z)
  : Cursor (Z * Z * Z * Z * TopicPartitionStrategy * TopicPartitionMapState * Z) :=
  if legacy then
    cret (1, 1, kDefaultPartitionHashSeed, partition_id + 1, kManual, kActive, kStablePartitionHashVersion)
  else
    take! version := Uint 8 in
    take! generation := Uint 8 in
    take! seed := Uint 8 in
    take! count := Uint 4 in
    take! strategy := Uint 1 in
    take! state := Uint 1 in
    take! hash_version := Uint 2 in
    cret (version, generation, seed, count, strategy_of strategy, map_state_of state, hash_version).

(** The file after the envelope. *)
Definition decode_snapshot (version : Z) (l : ManifestLimits) : Cursor PartitionManifestSnapshot :=
  let legacy := version =? kLegacyManifestFormatVersion in
  take! generation := Uint 8 in
  take! recording_id := Uint 8 in
  take! topic_id := Uint 4 in
  take! partition_id := Uint 4 in
  reject_if legacy && (kMaximumTopicPartitions <=? partition_id) with
    Corruption "legacy partition ID exceeds the supported bound" ;;
  take! writer_id := Uint 8 in
  take! owner_epoch := Uint 8 in
  take! config := Uint 8 in
  take! fields := decode_map legacy partition_id in
  take! has_checkpoint := Uint 4 in
  take! segment_count := Uint 4 in
  take! segment_id := Uint 8 in
  take! offset := Uint 8 in
  take! sequence := Uint 8 in
  take! header_crc := Uint 4 in
  reject_if 1 <? has_checkpoint with Corruption "checkpoint flag is invalid" ;;
  reject_if (has_checkpoint =? 0)
            && (negb (segment_id =? 0) || negb (offset =? 0) || negb (sequence =? 0)) with
    Corruption "absent checkpoint contains values" ;;
  reject_if max_segments l <? segment_count with Resource "partition manifest has too many segments" ;;
  take! entries := decode_entries (Z.to_nat segment_count) l in
  let '(map_version, map_generation, seed, count, strategy, state, hash_version) := fields in
  cret (mkSnapshot generation version
          (mkPartition recording_id topic_id partition_id writer_id owner_epoch map_version map_generation count
             strategy state hash_version seed config)
          (if has_checkpoint =? 0 then None else Some (mkDurableCheckpoint segment_id offset sequence)) entries).

Definition DecodePartitionInternal (encoded : list byte) (l : ManifestLimits) : Result PartitionManifestSnapshot :=
  let! v := Uint 2 (drop 8 encoded) in
  let '(version, _) := v in
  let legacy := version =? kLegacyManifestFormatVersion in
  let header_size := if legacy then kLegacyPartitionHeaderSize else kPartitionHeaderSize in
  let crc_offset := if legacy then kLegacyPartitionCrcOffset else kPartitionCrcOffset in
  check! ValidateEnvelope encoded kPartitionMagic kLegacyManifestFormatVersion kPartitionManifestFormatVersion
           header_size crc_offset l ;;
  let! d := decode_snapshot version l (drop 20 encoded) in
  let '(s, rest) := d in
  fail_if negb (bool_decide (rest = [])) with Corruption "partition manifest has trailing bytes" ;;
  check! ValidatePartitionSnapshot s l ;;
  Ok s.
End Codec.

(** ** Paths and their text *)

(** A value a path object can have. *)
Definition is_path (p : fs_path) : Prop := exists s, p = path_of_string s.

Definition slash_free (s : string) : Prop := split_at_slashes s = [s].

Lemma split_nonempty s : split_at_slashes s <> [].
Proof.
  induction s as [|c s IH]; [done|]. cbn [split_at_slashes]. destruct (split_at_slashes s); [done|].
  by destruct (bool_decide (c = "/"%char)).
Qed.

Lemma split_slash_free s : Forall slash_free (split_at_slashes s).
Proof.
  induction s as [|c s IH]; [by repeat constructor|]. cbn [split_at_slashes].
  destruct (split_at_slashes s) as [|piece pieces] eqn:E; [done|].
  apply list.Forall_cons in IH as [H1 H2]. case_bool_decide as Hc; constructor; try done; [by constructor|].
  unfold slash_free in *. cbn [split_at_slashes]. rewrite H1. by rewrite bool_decide_eq_false_2.
Qed.

Lemma split_app a b : slash_free a -> split_at_slashes (a +:+ "/" +:+ b) = a :: split_at_slashes b.
Proof.
  induction a as [|c a IH]; intros Ha.
  - change ("" +:+ "/" +:+ b) with (String "/" b). cbn [split_at_slashes].
    destruct (split_at_slashes b) eqn:E; [by destruct (split_nonempty b)|]. by rewrite bool_decide_eq_true_2.
  - unfold slash_free in Ha. cbn [split_at_slashes] in Ha. destruct (split_at_slashes a) as [|p ps] eqn:E; [done|].
    case_bool_decide as Hc; [done|]. injection Ha as -> ->.
    change (String c a +:+ "/" +:+ b) with (String c (a +:+ "/" +:+ b)). cbn [split_at_slashes]. rewrite IH by done.
    by rewrite bool_decide_eq_false_2.
Qed.

Lemma split_join names : names <> [] -> Forall slash_free names -> split_at_slashes (join_names names) = names.
Proof.
  induction names as [|a [|b rest] IH]; intros Hne H; [done | |].
  { apply list.Forall_cons in H as [Ha _]. exact Ha. }
  apply list.Forall_cons in H as [Ha Hr]. cbn [join_names]. rewrite split_app by done. f_equal. by apply IH.
Qed.

Lemma join_nonempty names : names <> [] -> Forall (fun x => x <> "") names -> join_names names <> "".
Proof.
  intros Hne H. destruct names as [|a rest]; [done|]. apply list.Forall_cons in H as [Ha _].
  destruct a; [done|]. by destruct rest.
Qed.

(** The text of a relative path of plain names gives the path back. *)
Lemma path_of_generic names : names <> [] -> Forall slash_free names -> Forall (fun x => x <> "") names ->
  path_of_string (generic_string names) = names.
Proof.
  intros Hne Hs Hn. assert (generic_string names = join_names names) as ->.
  { destruct names as [|a rest]; [done|]. apply list.Forall_cons in Hs as [Ha _]. unfold generic_string.
    rewrite bool_decide_eq_false_2; [done|]. cbn [head]. by intros [= ->]. }
  pose proof (join_nonempty names Hne Hn) as Hj. unfold path_of_string. rewrite split_join by done.
  assert (filter (fun x => x <> "") names = names) as E.
  { clear -Hn. induction Hn as [|x l Hx Hl IH]; [done|]. by rewrite filter_cons_True, IH. }
  rewrite E. assert (head names <> Some "" /\ list.last names <> Some "") as [H1 H2].
  { split; intros H.
    - destruct names as [|a l]; [done|]. apply list.Forall_cons in Hn as [Ha _]. cbn in H. congruence.
    - apply list.last_Some_elem_of in H. rewrite list.Forall_forall in Hn. by apply (Hn "" H). }
  destruct (join_names names) as [|c s]; [done|]. rewrite bool_decide_eq_false_2 by done.
  rewrite (bool_decide_eq_false_2 (list.last names = Some "")) by done. by rewrite app_nil_r.
Qed.

Lemma is_path_slash_free p : is_path p -> is_absolute p = false -> Forall slash_free p.
Proof.
  intros [s ->] H. unfold path_of_string in *. destruct s as [|c s]; [done|]. cbv zeta in *.
  set (l := split_at_slashes (String c s)) in *.
  assert (Forall slash_free (filter (fun x => x <> "") l)) as Hf.
  { apply list.Forall_forall. intros x [_ Hx]%list.list_elem_of_filter. pose proof (split_slash_free (String c s)) as Hs.
    rewrite list.Forall_forall in Hs. by apply Hs. }
  destruct (bool_decide (head l = Some "")); [done|]. cbn [app]. apply list.Forall_app. split; [done|].
  destruct (_ && _); [|done]. by repeat constructor.
Qed.
