(* ===== verification/ManifestCodec.v ===== *)
(** * The partition manifest survives its file

    What the rules of [ManifestFormat] say of a snapshot, and that decoding an encoded manifest gives
    the snapshot back. *)
From Stdlib Require Import Ascii.
From S2P Require Import Prelude SourceIdentity Bytes Crc32c LittleEndian TopicPartition ManifestFormat.

(** ** Snapshots of the C++ types *)

Record entry_typed (e : SegmentManifestEntry) : Prop := {
  et_id : is_u64 (entry_segment_id e);
  et_state : segment_state_of (segment_state_value (entry_state e)) = entry_state e;
  et_first : is_u64 (entry_first_sequence e); et_last : is_u64 (entry_last_sequence e);
  et_created : is_u64 (entry_created_at_ns e); et_sealed : is_u64 (entry_sealed_at_ns e);
  et_size : is_u64 (entry_size_bytes e); et_path : is_path (relative_path e)
}.

Definition checkpoint_typed (c : DurableCheckpoint) : Prop :=
  is_u64 (checkpoint_segment_id c) /\ is_u64 (durable_offset c) /\ is_u64 (durable_sequence c).

Record partition_typed (m : PartitionMetadata) : Prop := {
  pt_recording : is_u64 (meta_recording_id m); pt_topic : is_u32 (meta_topic_id m);
  pt_partition : is_u32 (meta_partition_id m); pt_writer : is_u64 (meta_writer_id m);
  pt_owner : is_u64 (meta_owner_epoch m); pt_map_version : is_u64 (partition_map_version m);
  pt_generation : is_u64 (partition_generation m); pt_count : is_u32 (partition_count m);
  pt_hash_version : is_u16 (hash_algorithm_version m); pt_seed : is_u64 (hash_seed m);
  pt_config : is_u64 (config_version m)
}.

Record snapshot_typed (s : PartitionManifestSnapshot) : Prop := {
  st_generation : is_u64 (snapshot_generation s);
  st_partition : partition_typed (partition s);
  st_checkpoint : forall c, snapshot_checkpoint s = Some c -> checkpoint_typed c;
  st_entries : Forall entry_typed (segments s)
}.

(** ** What the rules say *)

Record limits_ok (l : ManifestLimits) : Prop := {
  lo_bytes : kPartitionHeaderSize <= max_manifest_bytes l <= kHardMaxManifestBytes;
  lo_segments : max_segments l <= kHardMaxEntries;
  lo_path : max_relative_path_bytes l <= kHardMaxStringBytes
}.

Lemma ValidateManifestLimits_ok l : ValidateManifestLimits l = Ok tt -> limits_ok l.
Proof. unfold ValidateManifestLimits. intros H. repeat step_if. bool_to_prop. split; lia. Qed.

Lemma ValidState_u8 s : ValidState s = true -> 0 <= segment_state_value s < 256.
Proof. unfold ValidState. intros H. bool_to_prop. cbn in *. lia. Qed.

(** A segment path is the directory and a file name. *)
Lemma ValidateSegmentPath_ok p n : ValidateSegmentPath p n = Ok tt ->
  exists name, p = ["segments"; name] /\ name <> "" /\ extension name = ".mino" /\ is_absolute p = false /\
    Z.of_nat (String.length (generic_string p)) <= n.
Proof.
  unfold ValidateSegmentPath. intros H. apply bindR_Ok in H as ([] & Hb & H).
  unfold ValidateBasicRelativePath in Hb. cbv zeta in Hb. repeat step_if. bool_to_prop.
  destruct p as [|dir [|name others]]; [done..|]. cbn [head tail] in *. step_if. bool_to_prop.
  assert (dir = "segments") as -> by congruence. subst others. exists name. split_and!; try (done || lia).
  intros ->. match goal with H : existsb _ _ = false |- _ => cbn [existsb] in H end. bool_to_prop. done.
Qed.

Lemma list_byte_length s : length (String.list_byte_of_string s) = String.length s.
Proof. unfold String.list_byte_of_string. rewrite length_map. induction s as [|c s IH]; cbn; congruence. Qed.

Lemma segment_path_round_trip p n : is_path p -> ValidateSegmentPath p n = Ok tt ->
  path_of_string (generic_string p) = p.
Proof.
  intros Hp (name & -> & Hn & _ & Ha & _)%ValidateSegmentPath_ok.
  apply path_of_generic; [done | by apply is_path_slash_free | by repeat constructor].
Qed.

(** Every entry obeys its own rules. *)
Definition entry_ok (l : ManifestLimits) (e : SegmentManifestEntry) : Prop :=
  ValidState (entry_state e) = true /\ ValidateSegmentPath (relative_path e) (max_relative_path_bytes l) = Ok tt.

Lemma validate_segments_entries l entries : forall previous active paths,
  validate_segments l previous active paths entries = Ok tt -> Forall (entry_ok l) entries.
Proof.
  induction entries as [|e rest IH]; intros previous active paths H; [constructor|]. cbn [validate_segments] in H.
  do 2 step_if. apply bindR_Ok in H as ([] & Hp & H). cbv zeta in H. repeat step_if. constructor; [|by eapply IH].
  bool_to_prop. done.
Qed.

Lemma ValidatePartitionSnapshot_ok s l : ValidatePartitionSnapshot s l = Ok tt ->
  limits_ok l /\ ValidateTopicPartitionMap (partition_map (partition s)) = Ok tt /\
  zlen (segments s) <= max_segments l /\ Forall (entry_ok l) (segments s) /\
  (forall c, snapshot_checkpoint s = Some c -> checkpoint_inside c (segments s) = true).
Proof.
  unfold ValidatePartitionSnapshot. intros H. apply bindR_Ok in H as ([] & Hl & H). cbv zeta in H. step_if.
  apply bindR_Ok in H as ([] & Hm & H). do 2 step_if. apply bindR_Ok in H as ([] & Hs & H). step_if. bool_to_prop.
  split_and!; [by apply ValidateManifestLimits_ok | done | lia | by eapply validate_segments_entries |].
  intros c Hc. rewrite Hc in *. by bool_to_prop.
Qed.

(** ** Reading back what was written *)

Lemma Uint_le n v rest : 0 <= v < 256 ^ Z.of_nat n -> Uint n (le_bytes n v ++ rest) = Ok (v, rest).
Proof.
  intros Hv. unfold Uint. rewrite (proj2 (Nat.ltb_ge _ _)) by (rewrite length_app, le_bytes_length; lia).
  rewrite read_le_here, Z.mod_small by done. by rewrite drop_app_length' by (by rewrite le_bytes_length).
Qed.

Lemma take_le {A} n v rest (k : Z -> Cursor A) : 0 <= v < 256 ^ Z.of_nat n ->
  cbind (Uint n) k (le_bytes n v ++ rest) = k v rest.
Proof. intros H. unfold cbind. by rewrite Uint_le. Qed.

Lemma take_u64 {A} v rest (k : Z -> Cursor A) : is_u64 v -> cbind (Uint 8) k (le_bytes 8 v ++ rest) = k v rest.
Proof. apply (take_le 8). Qed.
Lemma take_u32 {A} v rest (k : Z -> Cursor A) : is_u32 v -> cbind (Uint 4) k (le_bytes 4 v ++ rest) = k v rest.
Proof. apply (take_le 4). Qed.
Lemma take_u16 {A} v rest (k : Z -> Cursor A) : is_u16 v -> cbind (Uint 2) k (le_bytes 2 v ++ rest) = k v rest.
Proof. apply (take_le 2). Qed.
Lemma take_u8 {A} v rest (k : Z -> Cursor A) : 0 <= v < 256 -> cbind (Uint 1) k (le_bytes 1 v ++ rest) = k v rest.
Proof. apply (take_le 1). Qed.

Lemma take_reserved {A} n rest (k : unit -> Cursor A) :
  cbind (reserved_bytes n) k (replicate n Byte.x00 ++ rest) = k tt rest.
Proof.
  unfold cbind. enough (reserved_bytes n (replicate n Byte.x00 ++ rest) = Ok (tt, rest)) as -> by done.
  induction n as [|n IH]; [done|]. cbn [reserved_bytes replicate app]. unfold cbind at 1. exact IH.
Qed.

Lemma take_string {A} text limit rest (k : string -> Cursor A) : Z.of_nat (String.length text) <= limit ->
  cbind (StringOf (Z.of_nat (String.length text)) limit) k (String.list_byte_of_string text ++ rest) = k text rest.
Proof.
  intros H. unfold cbind, StringOf. rewrite (proj2 (Z.ltb_ge _ _)) by lia.
  unfold zlen. rewrite length_app, list_byte_length.
  rewrite (proj2 (Z.ltb_ge _ _)) by lia. rewrite Nat2Z.id.
  rewrite take_app_length', drop_app_length' by (by rewrite list_byte_length).
  by rewrite String.string_of_list_byte_of_string.
Qed.

Section RoundTrip.
Context {B : Crc32cBackend} {BL : Crc32cLaws B}.

Lemma entry_bytes_length e : zlen (entry_bytes e) = 64 + Z.of_nat (String.length (generic_string (relative_path e))).
Proof.
  unfold entry_bytes, zlen. cbv zeta. rewrite !length_app, !le_bytes_length, length_replicate, list_byte_length. lia.
Qed.

Lemma decode_entry_bytes l e rest : limits_ok l -> entry_typed e -> entry_ok l e ->
  decode_entry l (entry_bytes e ++ rest) = Ok (e, rest).
Proof.
  intros [_ _ Hl] [T1 T0 T2 T3 T4 T5 T6 T7] [Hs Hp]. pose proof (ValidState_u8 _ Hs) as Hu.
  pose proof (segment_path_round_trip _ _ T7 Hp) as Ht. apply ValidateSegmentPath_ok in Hp as (name & _ & _ & _ & _ & Hn).
  unfold decode_entry, entry_bytes. cbv zeta. rewrite <- !app_assoc. unfold zlen. rewrite list_byte_length.
  set (text := generic_string (relative_path e)) in *.
  assert (is_u32 (Z.of_nat (String.length text))) as Hx by (unfold kHardMaxStringBytes in Hl; ulia).
  rewrite take_u64 by done. rewrite take_u8 by done. rewrite take_reserved. do 5 rewrite take_u64 by done.
  rewrite take_u32 by done. rewrite take_u32 by ulia. change (negb (0 =? 0)) with false. cbv iota.
  rewrite take_string by done. unfold cret. rewrite T0, Ht. by destruct e.
Qed.

Lemma decode_entries_bytes l entries rest : limits_ok l -> Forall entry_typed entries -> Forall (entry_ok l) entries ->
  decode_entries (length entries) l (concat (entry_bytes <$> entries) ++ rest) = Ok (entries, rest).
Proof.
  intros Hl Ht Ho. revert Ho. induction Ht as [|e entries He Ht IH]; intros Ho; [done|].
  apply list.Forall_cons in Ho as [H1 H2]. cbn [length decode_entries fmap list_fmap concat].
  rewrite <- app_assoc. unfold cbind at 1. rewrite decode_entry_bytes by done. unfold cbind. by rewrite IH.
Qed.

Lemma total_size_bytes entries : forall total t, total_size total entries = Some t ->
  t = total + zlen (concat (entry_bytes <$> entries)).
Proof.
  induction entries as [|e entries IH]; intros total t H; cbn [total_size] in H.
  - injection H as <-. cbn. unfold zlen. cbn. lia.
  - cbv zeta in H. repeat step_if. apply IH in H as ->. cbn [fmap list_fmap concat]. pose proof (entry_bytes_length e).
    unfold zlen in *. rewrite length_app. unfold kSegmentFixedSize. lia.
Qed.

Lemma preamble_length total : length (partition_preamble total) = 20%nat.
Proof. unfold partition_preamble. by rewrite !length_app, !le_bytes_length. Qed.

Lemma fields_length s : length (partition_fields s) = 112%nat.
Proof. unfold partition_fields. cbv zeta. by rewrite !length_app, !le_bytes_length. Qed.

Lemma decode_snapshot_fields l s crc : is_u32 crc -> snapshot_typed s -> format_version s = 2 ->
  ValidatePartitionSnapshot s l = Ok tt ->
  decode_snapshot 2 l (partition_fields s ++ le_bytes 4 crc ++ concat (entry_bytes <$> segments s)) = Ok (s, []).
Proof.
  intros Hcrc [T1 [P1 P2 P3 P4 P5 P6 P7 P8 P9 P10 P11] T3 T4] Hv Hok.
  apply ValidatePartitionSnapshot_ok in Hok as (Hl & Hm & Hn & He & _).
  apply ValidateTopicPartitionMap_ok in Hm as (_ & _ & _ & Hst & Hms & _); [|done]. cbn [map_strategy map_state partition_map] in *.
  pose proof (strategy_value_u8 _ Hst). pose proof (map_state_value_u8 _ Hms).
  assert (is_u32 (zlen (segments s))) as Hseg by (pose proof (lo_segments _ Hl) as Hx; unfold kHardMaxEntries in Hx; ulia).
  set (c := default (mkDurableCheckpoint 0 0 0) (snapshot_checkpoint s)).
  assert (checkpoint_typed c) as (C1 & C2 & C3).
  { unfold c. destruct (snapshot_checkpoint s) eqn:E; [by apply T3 | by repeat split]. }
  unfold decode_snapshot, partition_fields. cbv zeta. fold c. rewrite <- !app_assoc.
  change (2 =? kLegacyManifestFormatVersion) with false. unfold decode_map.
  do 2 rewrite take_u64 by done. do 2 rewrite take_u32 by done. cbn [andb]. do 3 rewrite take_u64 by done.
  unfold cbind at 1. do 3 rewrite take_u64 by done. rewrite take_u32 by done. do 2 rewrite take_u8 by done.
  rewrite take_u16 by done. unfold cret at 1.
  rewrite take_u32 by (destruct (snapshot_checkpoint s); ulia). rewrite take_u32 by done. do 3 rewrite take_u64 by done.
  rewrite take_u32 by done. rewrite (proj2 (Z.ltb_ge _ _)) by (destruct (snapshot_checkpoint s); lia).
  assert (forall b : bool, (match snapshot_checkpoint s with Some _ => 1 | None => 0 end =? 0) && b = true ->
    snapshot_checkpoint s = None) as Hnone by (intros b; destruct (snapshot_checkpoint s); done).
  destruct (_ && _) eqn:Eabs.
  { apply Hnone in Eabs as E. unfold c in Eabs. by rewrite E in Eabs. }
  rewrite (proj2 (Z.ltb_ge _ _)) by lia. replace (Z.to_nat (zlen (segments s))) with (length (segments s)) by (unfold zlen; lia).
  unfold cbind. rewrite <- (app_nil_r (concat _)), decode_entries_bytes by done. unfold cret.
  rewrite strategy_round_trip, map_state_round_trip by done. unfold c. rewrite <- Hv.
  destruct s as [g f m ck segs]; cbn. destruct m. by destruct ck as [[]|].
Qed.

(** The file of a snapshot: the CRC field between the header and the entries. *)
Definition manifest_bytes (s : PartitionManifestSnapshot) (total crc : Z) : list byte :=
  partition_preamble total ++ partition_fields s ++ le_bytes 4 crc ++ concat (entry_bytes <$> segments s).

Lemma ManifestCrc_field s total crc crc' :
  ManifestCrc (manifest_bytes s total crc) kPartitionCrcOffset = ManifestCrc (manifest_bytes s total crc') kPartitionCrcOffset.
Proof.
  unfold ManifestCrc, manifest_bytes. rewrite !(app_assoc (partition_preamble total)).
  assert (length (partition_preamble total ++ partition_fields s) = 132%nat) as Hl
    by (by rewrite length_app, preamble_length, fields_length).
  rewrite !take_app_length' by done. rewrite <- !(drop_drop _ 4 kPartitionCrcOffset), !drop_app_length' by done. done.
Qed.

Lemma ManifestCrc_u32 bytes off : is_u32 (ManifestCrc bytes off).
Proof. unfold ManifestCrc. rewrite new_accumulator_acc, !Update_acc. apply Finish_u32. Qed.

Lemma EncodePartitionInternal_ok s l b : EncodePartitionInternal s l = Ok b ->
  ValidatePartitionSnapshot s l = Ok tt /\ zlen b <= max_manifest_bytes l /\
  exists crc, b = manifest_bytes s (zlen b) crc /\ crc = ManifestCrc b kPartitionCrcOffset /\ is_u32 crc.
Proof.
  unfold EncodePartitionInternal. intros H. apply bindR_Ok in H as ([] & Hv & H). split; [done|].
  destruct (total_size kPartitionHeaderSize (segments s)) as [total|] eqn:Et; [|done]. cbv zeta in H. do 2 step_if.
  fold (manifest_bytes s total 0) in *. set (crc := ManifestCrc (manifest_bytes s total 0) kPartitionCrcOffset) in *.
  assert (WriteLe32 (manifest_bytes s total 0) kPartitionCrcOffset crc = manifest_bytes s total crc) as Hw.
  { unfold WriteLe32, manifest_bytes. rewrite !(app_assoc (partition_preamble total)).
    rewrite copy_to_mid; [done | by rewrite length_app, preamble_length, fields_length | by rewrite !le_bytes_length]. }
  rewrite Hw in H. injection H as <-. bool_to_prop.
  assert (zlen (manifest_bytes s total crc) = total) as Hl.
  { unfold zlen in *. unfold manifest_bytes in *. rewrite !length_app, !le_bytes_length in *. lia. }
  rewrite Hl. split; [lia|]. exists crc. split; [done|]. split; [apply ManifestCrc_field | apply ManifestCrc_u32].
Qed.

Lemma manifest_envelope s l b : EncodePartitionInternal s l = Ok b ->
  Uint 2 (drop 8 b) = Ok (2, drop 10 b) /\
  ValidateEnvelope b kPartitionMagic 1 2 kPartitionHeaderSize kPartitionCrcOffset l = Ok tt /\
  (exists crc, is_u32 crc /\ drop 20 b = partition_fields s ++ le_bytes 4 crc ++ concat (entry_bytes <$> segments s)).
Proof.
  intros (Hv & Hlen & crc & Hb & Hc & Hu)%EncodePartitionInternal_ok.
  assert (136 <= zlen b /\ is_u64 (zlen b)) as [H136 H64].
  { pose proof (ValidatePartitionSnapshot_ok _ _ Hv) as ([[_ Hx] _ _] & _). unfold kHardMaxManifestBytes in Hx.
    assert (136 <= zlen b); [|ulia]. rewrite Hb. unfold manifest_bytes, zlen.
    rewrite !length_app, preamble_length, fields_length, le_bytes_length. lia. }
  set (total := zlen b) in *. set (tail_ := partition_fields s ++ le_bytes 4 crc ++ concat (entry_bytes <$> segments s)) in *.
  assert (drop 8 b = le_bytes 2 2 ++ le_bytes 2 136 ++ le_bytes 8 total ++ tail_) as E8.
  { rewrite Hb at 1. unfold manifest_bytes, partition_preamble. fold tail_. rewrite <- !app_assoc.
    by rewrite drop_app_length'. }
  assert (drop 10 b = le_bytes 2 136 ++ le_bytes 8 total ++ tail_) as E10.
  { change 10%nat with (8 + 2)%nat. rewrite <- (drop_drop b 2 8), E8. by rewrite drop_app_length' by (by rewrite le_bytes_length). }
  split; [by rewrite E8, E10, Uint_le|]. split.
  - unfold ValidateEnvelope. unfold ValidatePartitionSnapshot in Hv. apply bindR_Ok in Hv as ([] & Hl & _). rewrite Hl. cbn [bindR].
    fold total. rewrite (proj2 (Z.ltb_ge total kPartitionHeaderSize)), (proj2 (Z.ltb_ge (max_manifest_bytes l) total)) by done.
    assert (take (length kPartitionMagic) b = kPartitionMagic) as ->.
    { rewrite Hb. unfold manifest_bytes, partition_preamble. rewrite <- !app_assoc. by rewrite take_app_length. }
    rewrite bool_decide_eq_true_2 by done. cbn [negb]. rewrite E8, Uint_le by done. cbn [bindR].
    rewrite Uint_le by done. cbn [bindR orb]. change ((2 <? 1) || (2 <? 2)) with false. cbv iota.
    assert (ReadLe64 b 12 = total) as ->.
    { unfold ReadLe64. rewrite <- (take_drop 8 b), read_le_skip by (rewrite length_take; lia).
      rewrite length_take_le by (unfold zlen in *; lia). rewrite E8. change (12 - 8)%nat with 4%nat. read_le_field. exact H64. }
    rewrite !Z.eqb_refl. change (136 =? kPartitionHeaderSize) with true. cbn [negb orb].
    assert (ReadLe32 b kPartitionCrcOffset = crc) as ->.
    { rewrite Hb. unfold manifest_bytes, ReadLe32. rewrite app_assoc.
      assert (length (partition_preamble total ++ partition_fields s) = 132%nat) as Hl'
        by (by rewrite length_app, preamble_length, fields_length).
      rewrite read_le_skip by (by rewrite Hl'). rewrite Hl', read_le_here. apply Z.mod_small. exact Hu. }
    by rewrite <- Hc, Z.eqb_refl.
  - exists crc. split; [done|]. rewrite Hb. unfold manifest_bytes.
    by rewrite drop_app_length' by (by rewrite preamble_length).
Qed.

(** The file of a snapshot of the C++ types decodes to that snapshot, and every snapshot a file decodes
    to obeys the rules. *)
Lemma manifest_decodes_back l :
  (forall s b, snapshot_typed s -> format_version s = kPartitionManifestFormatVersion ->
     EncodePartitionInternal s l = Ok b -> DecodePartitionInternal b l = Ok s) /\
  (forall b s, DecodePartitionInternal b l = Ok s -> ValidatePartitionSnapshot s l = Ok tt).
Proof.
  split.
  - intros s b Ht Hf He. destruct (manifest_envelope _ _ _ He) as (H1 & H2 & crc & Hu & H3).
    apply EncodePartitionInternal_ok in He as (Hv & _). unfold DecodePartitionInternal.
    rewrite H1. cbn [bindR]. change (2 =? kLegacyManifestFormatVersion) with false. cbv iota zeta.
    change kLegacyManifestFormatVersion with 1. change kPartitionManifestFormatVersion with 2. rewrite H2. cbn [bindR].
    rewrite H3, decode_snapshot_fields by done. cbn [bindR]. rewrite bool_decide_eq_true_2 by done. cbn [negb]. by rewrite Hv.
  - intros b s H. unfold DecodePartitionInternal in H. apply bindR_Ok in H as ([v ?] & _ & H). cbv zeta in H.
    apply bindR_Ok in H as ([] & _ & H). apply bindR_Ok in H as ([s' rest] & _ & H). step_if.
    apply bindR_Ok in H as ([] & Hv & [= <-]). done.
Qed.

(** ** What a file decodes to has the C++ types *)

Lemma Uint_bound n l v l' : Uint n l = Ok (v, l') -> 0 <= v < 256 ^ Z.of_nat n.
Proof.
  unfold Uint. destruct (Nat.ltb_spec (length l) n); [done|]. intros [= <- _]. apply read_le_bound. lia.
Qed.

Lemma segment_state_canonical v : segment_state_of (segment_state_value (segment_state_of v)) = segment_state_of v.
Proof.
  unfold segment_state_of at 2 3. destruct (v =? 1) eqn:E1; [done|]. destruct (v =? 2) eqn:E2; [done|].
  destruct (v =? 3) eqn:E3; [done|]. destruct (v =? 4) eqn:E4; [done|]. destruct (v =? 5) eqn:E5; [done|].
  destruct (v =? 6) eqn:E6; [done|]. cbn [segment_state_value]. unfold segment_state_of. by rewrite E1, E2, E3, E4, E5, E6.
Qed.

Lemma decode_entry_typed l bytes e rest : decode_entry l bytes = Ok (e, rest) -> entry_typed e.
Proof.
  unfold decode_entry. intros H.
  repeat match goal with
  | H : cbind (Uint ?n) _ ?x = Ok _ |- _ =>
      let E := fresh "E" in unfold cbind at 1 in H; destruct (Uint n x) as [[? ?]|] eqn:E; [apply Uint_bound in E | done]
  | H : cbind (reserved_bytes ?n) _ ?x = Ok _ |- _ => unfold cbind at 1 in H; destruct (reserved_bytes n x) as [[? ?]|]; [|done]
  | H : cbind (StringOf ?n ?k) _ ?x = Ok _ |- _ => unfold cbind at 1 in H; destruct (StringOf n k x) as [[? ?]|]; [|done]
  | H : (if ?b then cfail _ else _) _ = Ok _ |- _ => destruct b; [done|]
  end.
  unfold cret in H. injection H as <- _. split; cbn; try done; [apply segment_state_canonical | by eexists].
Qed.

Lemma decode_entries_typed l n : forall bytes entries rest,
  decode_entries n l bytes = Ok (entries, rest) -> Forall entry_typed entries.
Proof.
  induction n as [|n IH]; intros bytes entries rest H; cbn [decode_entries] in H; [by injection H as <- _; constructor|].
  unfold cbind in H. destruct (decode_entry l bytes) as [[e bytes']|] eqn:E; [|done].
  destruct (decode_entries n l bytes') as [[es bytes'']|] eqn:E'; [|done]. injection H as <- _.
  constructor; [by eapply decode_entry_typed | by eapply IH].
Qed.

Lemma decode_map_typed legacy partition_id bytes version generation seed count strategy state hash_version rest :
  is_u32 partition_id -> (legacy = true -> partition_id < kMaximumTopicPartitions) ->
  decode_map legacy partition_id bytes = Ok (version, generation, seed, count, strategy, state, hash_version, rest) ->
  is_u64 version /\ is_u64 generation /\ is_u64 seed /\ is_u32 count /\ is_u16 hash_version.
Proof.
  intros Hp Hl H. unfold decode_map in H. destruct legacy.
  - unfold cret in H. injection H as <- <- <- <- _ _ <- _. specialize (Hl eq_refl). unfold kMaximumTopicPartitions in Hl.
    split_and!; done || ulia.
  - repeat match goal with
    | H : cbind (Uint ?n) _ ?x = Ok _ |- _ =>
        let E := fresh "E" in unfold cbind at 1 in H; destruct (Uint n x) as [[? ?]|] eqn:E; [apply Uint_bound in E | done]
    end. unfold cret in H. injection H as <- <- <- <- _ _ <- _. by split_and!.
Qed.

Lemma decode_typed bytes l s : DecodePartitionInternal bytes l = Ok s -> snapshot_typed s.
Proof.
  unfold DecodePartitionInternal. intros H. apply bindR_Ok in H as ([v ?] & Hver & H). cbv zeta in H.
  apply bindR_Ok in H as ([] & _ & H). apply bindR_Ok in H as ([s' rest] & Hd & H). step_if.
  apply bindR_Ok in H as ([] & _ & [= <-]). unfold decode_snapshot in Hd. cbv zeta in Hd.
  do 4 (unfold cbind at 1 in Hd; match type of Hd with context [Uint ?n ?x] =>
    let E := fresh "E" in destruct (Uint n x) as [[? ?]|] eqn:E; [apply Uint_bound in E | done] end).
  destruct (_ && _) eqn:Hleg; [done|].
  do 3 (unfold cbind at 1 in Hd; match type of Hd with context [Uint ?n ?x] =>
    let E := fresh "E" in destruct (Uint n x) as [[? ?]|] eqn:E; [apply Uint_bound in E | done] end).
  unfold cbind at 1 in Hd. match type of Hd with context [decode_map ?a ?b ?c] =>
    destruct (decode_map a b c) as [[[[[[[[? ?] ?] ?] ?] ?] ?] ?]|] eqn:Em; [|done] end.
  apply decode_map_typed in Em as (M1 & M2 & M3 & M4 & M5); [|done|intros Hx; rewrite Hx in Hleg; cbn in Hleg; lia].
  do 6 (unfold cbind at 1 in Hd; match type of Hd with context [Uint ?n ?x] =>
    let E := fresh "E" in destruct (Uint n x) as [[? ?]|] eqn:E; [apply Uint_bound in E | done] end).
  do 3 (match type of Hd with (if ?b then _ else _) _ = _ => destruct b; [done|] end). unfold cbind in Hd.
  match type of Hd with context [decode_entries ?a ?b ?c] => destruct (decode_entries a b c) as [[es ?]|] eqn:Ee; [|done] end.
  unfold cret in Hd. injection Hd as <- _. apply decode_entries_typed in Ee. split; cbn; try done.
  intros c Hc. destruct (_ =? 0); [done|]. injection Hc as <-. done.
Qed.
End RoundTrip.
