(* ===== verification/SegmentFormat.v ===== *)
(** * The segment format of recordings

    Models [mino/storage/segment_format.h] and [.cc]: a segment file is a header followed by
    record envelopes, each a length, a header with its own CRC, the payload, zero padding to
    eight bytes and a trailer that repeats length and sequence, carries the CRC of the
    envelope and ends in the commit marker.  All integers are little-endian. *)
From S2P Require Import Prelude Bytes Crc32c LittleEndian.

Definition kSegmentHeaderMagic : Z := 0x4745534d.
Definition kRecordHeaderMagic : Z := 0x4345524d.
Definition kSegmentFormatVersion : Z := 1.
Definition kRecordFormatVersion : Z := 1.
Definition kRecordCommitMarker : Z := 0x4d494e4f434d4d54.

Definition kEncodedSegmentHeaderSize : Z := 52.
Definition kEncodedRecordHeaderSize : Z := 100.
Definition kRecordLengthFieldSize : Z := 8.
Definition kRecordHeaderLengthFieldSize : Z := 4.
Definition kRecordTrailerSize : Z := 28.
Definition kRecordAlignment : Z := 8.
Definition kMinimumEncodedRecordSize : Z := 144.

Definition kKnownSegmentFlags : Z := 0.
Definition kRecordFlagGap : Z := 1.
Definition kRecordFlagTombstone : Z := 2.
Definition kKnownRecordFlags : Z := Z.lor kRecordFlagGap kRecordFlagTombstone.

Record SegmentHeader : Set := mkSegmentHeader {
  segment_flags : Z; recording_id : Z; segment_topic_id : Z; segment_partition_id : Z;
  writer_id : Z; first_ingestion_sequence : Z; created_at_ns : Z
}.

Record RecordHeader : Set := mkRecordHeader {
  record_flags : Z; schema_ref : Z; schema_version : Z; layout_version : Z;
  record_topic_id : Z; record_partition_id : Z; ingestion_sequence : Z;
  ingestion_timestamp_ns : Z; node_id : Z; publisher_id : Z; publisher_epoch : Z;
  source_sequence : Z; observed_timestamp_ns : Z
}.

(** [struct Record]. *)
Record SegmentRecord : Set := mkRecord { header : RecordHeader; payload : list byte }.

Record SegmentFormatLimits : Set := mkLimits { max_payload_size : Z; max_encoded_record_size : Z }.
Definition default_limits : SegmentFormatLimits := mkLimits (64 * 1024 * 1024) (64 * 1024 * 1024 + 4096).

(** Offsets in the segment header, in the record header and in the trailer. *)
Definition kSegmentMagicOffset : nat := 0.
Definition kSegmentVersionOffset : nat := 4.
Definition kSegmentFlagsOffset : nat := 6.
Definition kSegmentRecordingIdOffset : nat := 8.
Definition kSegmentTopicIdOffset : nat := 16.
Definition kSegmentPartitionIdOffset : nat := 20.
Definition kSegmentWriterIdOffset : nat := 24.
Definition kSegmentFirstSequenceOffset : nat := 32.
Definition kSegmentCreatedAtOffset : nat := 40.
Definition kSegmentHeaderCrcOffset : nat := 48.

Definition kRecordHeaderLengthOffset : nat := 8.
Definition kRecordHeaderOffset : nat := 12.
Definition kRecordMagicOffset : nat := 0.
Definition kRecordVersionOffset : nat := 4.
Definition kRecordFlagsOffset : nat := 6.
Definition kRecordSchemaRefOffset : nat := 8.
Definition kRecordSchemaVersionOffset : nat := 12.
Definition kRecordLayoutVersionOffset : nat := 16.
Definition kRecordTopicIdOffset : nat := 20.
Definition kRecordPartitionIdOffset : nat := 24.
Definition kRecordIngestionSequenceOffset : nat := 28.
Definition kRecordIngestionTimestampOffset : nat := 36.
Definition kRecordNodeIdOffset : nat := 44.
Definition kRecordPublisherIdOffset : nat := 52.
Definition kRecordPublisherEpochOffset : nat := 60.
Definition kRecordSourceSequenceOffset : nat := 68.
Definition kRecordObservedTimestampOffset : nat := 76.
Definition kRecordPayloadSizeOffset : nat := 84.
Definition kRecordPayloadCrcOffset : nat := 88.
Definition kRecordHeaderCrcOffset : nat := 92.
Definition kRecordReservedOffset : nat := 96.

Definition kTrailerRecordLengthOffset : nat := 0.
Definition kTrailerIngestionSequenceOffset : nat := 8.
Definition kTrailerRecordCrcOffset : nat := 16.
Definition kTrailerCommitMarkerOffset : nat := 20.

Definition ValidateLimits (limits : SegmentFormatLimits) : Result unit :=
  fail_if max_encoded_record_size limits <? kMinimumEncodedRecordSize with
    Invalid "max_encoded_record_size is smaller than one envelope" ;;
  Ok tt.

(** [flags & ~known]. *)
Definition reserved_bits (flags known : Z) : bool := negb (Z.land flags (Z.lnot known) =? 0).

(** Everything of an envelope but payload and padding. *)
Definition envelope_size (payload_size : Z) : Z :=
  kRecordLengthFieldSize + kRecordHeaderLengthFieldSize + kEncodedRecordHeaderSize + payload_size
  + kRecordTrailerSize.

Definition PaddingSize (payload_size : Z) : Z :=
  (kRecordAlignment - wrap64 (envelope_size payload_size) mod kRecordAlignment) mod kRecordAlignment.

Definition EncodedRecordSize (payload_size : Z) (limits : SegmentFormatLimits) : Result Z :=
  check! ValidateLimits limits ;;
  fail_if u32_max <? payload_size with Invalid "payload_size does not fit the v1 uint32 field" ;;
  fail_if max_payload_size limits <? payload_size with Invalid "payload_size exceeds max_payload_size" ;;
  let encoded_size := wrap64 (envelope_size payload_size + PaddingSize payload_size) in
  fail_if max_encoded_record_size limits <? encoded_size with
    Invalid "record envelope exceeds max_encoded_record_size" ;;
  fail_if u64_max <? encoded_size with Invalid "record envelope does not fit size_t" ;;
  Ok encoded_size.

Section Format.
Context {B : Crc32cBackend}.

Definition SegmentHeaderCrc (encoded : list byte) : Z := Crc32c (take kSegmentHeaderCrcOffset encoded).

Definition RecordHeaderCrc (h : list byte) : Z :=
  let accumulator := Update new_accumulator (take kRecordHeaderCrcOffset h) in
  let accumulator := Update accumulator (drop (kRecordHeaderCrcOffset + 4) h) in
  Finish accumulator.

Definition EncodeSegmentHeader (h : SegmentHeader) : Result (list byte) :=
  fail_if reserved_bits (segment_flags h) kKnownSegmentFlags with
    Invalid "segment header contains reserved flag bits" ;;
  let bytes := replicate (Z.to_nat kEncodedSegmentHeaderSize) Byte.x00 in
  let bytes := WriteLe32 bytes kSegmentMagicOffset kSegmentHeaderMagic in
  let bytes := WriteLe16 bytes kSegmentVersionOffset kSegmentFormatVersion in
  let bytes := WriteLe16 bytes kSegmentFlagsOffset (segment_flags h) in
  let bytes := WriteLe64 bytes kSegmentRecordingIdOffset (recording_id h) in
  let bytes := WriteLe32 bytes kSegmentTopicIdOffset (segment_topic_id h) in
  let bytes := WriteLe32 bytes kSegmentPartitionIdOffset (segment_partition_id h) in
  let bytes := WriteLe64 bytes kSegmentWriterIdOffset (writer_id h) in
  let bytes := WriteLe64 bytes kSegmentFirstSequenceOffset (first_ingestion_sequence h) in
  let bytes := WriteLe64 bytes kSegmentCreatedAtOffset (created_at_ns h) in
  Ok (WriteLe32 bytes kSegmentHeaderCrcOffset (SegmentHeaderCrc bytes)).

Definition DecodeSegmentHeader (encoded : list byte) : Result SegmentHeader :=
  fail_if negb (zlen encoded =? kEncodedSegmentHeaderSize) with
    Corruption (if zlen encoded <? kEncodedSegmentHeaderSize then "truncated segment header"
                else "trailing bytes after segment header") ;;
  fail_if negb (ReadLe32 encoded kSegmentMagicOffset =? kSegmentHeaderMagic) with
    Corruption "segment header magic mismatch" ;;
  fail_if negb (ReadLe16 encoded kSegmentVersionOffset =? kSegmentFormatVersion) with
    Corruption "unsupported segment format version" ;;
  let flags := ReadLe16 encoded kSegmentFlagsOffset in
  fail_if reserved_bits flags kKnownSegmentFlags with
    Corruption "segment header contains reserved flag bits" ;;
  fail_if negb (ReadLe32 encoded kSegmentHeaderCrcOffset =? SegmentHeaderCrc encoded) with
    Corruption "segment header CRC32C mismatch" ;;
  Ok (mkSegmentHeader flags (ReadLe64 encoded kSegmentRecordingIdOffset)
        (ReadLe32 encoded kSegmentTopicIdOffset) (ReadLe32 encoded kSegmentPartitionIdOffset)
        (ReadLe64 encoded kSegmentWriterIdOffset) (ReadLe64 encoded kSegmentFirstSequenceOffset)
        (ReadLe64 encoded kSegmentCreatedAtOffset)).

Definition EncodeRecordHeader (r : SegmentRecord) (bytes : list byte) : list byte :=
  let h := header r in
  let bytes := WriteLe32 bytes kRecordMagicOffset kRecordHeaderMagic in
  let bytes := WriteLe16 bytes kRecordVersionOffset kRecordFormatVersion in
  let bytes := WriteLe16 bytes kRecordFlagsOffset (record_flags h) in
  let bytes := WriteLe32 bytes kRecordSchemaRefOffset (schema_ref h) in
  let bytes := WriteLe32 bytes kRecordSchemaVersionOffset (schema_version h) in
  let bytes := WriteLe32 bytes kRecordLayoutVersionOffset (layout_version h) in
  let bytes := WriteLe32 bytes kRecordTopicIdOffset (record_topic_id h) in
  let bytes := WriteLe32 bytes kRecordPartitionIdOffset (record_partition_id h) in
  let bytes := WriteLe64 bytes kRecordIngestionSequenceOffset (ingestion_sequence h) in
  let bytes := WriteLe64 bytes kRecordIngestionTimestampOffset (ingestion_timestamp_ns h) in
  let bytes := WriteLe64 bytes kRecordNodeIdOffset (node_id h) in
  let bytes := WriteLe64 bytes kRecordPublisherIdOffset (publisher_id h) in
  let bytes := WriteLe64 bytes kRecordPublisherEpochOffset (publisher_epoch h) in
  let bytes := WriteLe64 bytes kRecordSourceSequenceOffset (source_sequence h) in
  let bytes := WriteLe64 bytes kRecordObservedTimestampOffset (observed_timestamp_ns h) in
  let bytes := WriteLe32 bytes kRecordPayloadSizeOffset (wrap32 (zlen (payload r))) in
  let bytes := WriteLe32 bytes kRecordPayloadCrcOffset (Crc32c (payload r)) in
  let bytes := WriteLe32 bytes kRecordHeaderCrcOffset 0 in
  let bytes := WriteLe32 bytes kRecordReservedOffset 0 in
  WriteLe32 bytes kRecordHeaderCrcOffset (RecordHeaderCrc bytes).

Definition EncodeRecord (r : SegmentRecord) (limits : SegmentFormatLimits) : Result (list byte) :=
  fail_if reserved_bits (record_flags (header r)) kKnownRecordFlags with
    Invalid "record header contains reserved flag bits" ;;
  let! size := EncodedRecordSize (zlen (payload r)) limits in
  let bytes := replicate (Z.to_nat size) Byte.x00 in
  let record_length := zlen bytes - kRecordLengthFieldSize in
  let bytes := WriteLe64 bytes 0 record_length in
  let bytes := WriteLe32 bytes kRecordHeaderLengthOffset kEncodedRecordHeaderSize in
  let encoded_header := subspan bytes kRecordHeaderOffset (Z.to_nat kEncodedRecordHeaderSize) in
  let bytes := copy_to (EncodeRecordHeader r encoded_header) bytes kRecordHeaderOffset in
  let payload_offset := (kRecordHeaderOffset + Z.to_nat kEncodedRecordHeaderSize)%nat in
  let bytes := copy_to (payload r) bytes payload_offset in
  let trailer_offset := (length bytes - Z.to_nat kRecordTrailerSize)%nat in
  let bytes := WriteLe64 bytes (trailer_offset + kTrailerRecordLengthOffset) record_length in
  let bytes := WriteLe64 bytes (trailer_offset + kTrailerIngestionSequenceOffset)
                 (ingestion_sequence (header r)) in
  let bytes := WriteLe32 bytes (trailer_offset + kTrailerRecordCrcOffset)
                 (Crc32c (take trailer_offset bytes)) in
  Ok (WriteLe64 bytes (trailer_offset + kTrailerCommitMarkerOffset) kRecordCommitMarker).

(** The fields of a record header. *)
Definition read_record_header (h : list byte) : RecordHeader :=
  mkRecordHeader (ReadLe16 h kRecordFlagsOffset) (ReadLe32 h kRecordSchemaRefOffset)
    (ReadLe32 h kRecordSchemaVersionOffset) (ReadLe32 h kRecordLayoutVersionOffset)
    (ReadLe32 h kRecordTopicIdOffset) (ReadLe32 h kRecordPartitionIdOffset)
    (ReadLe64 h kRecordIngestionSequenceOffset) (ReadLe64 h kRecordIngestionTimestampOffset)
    (ReadLe64 h kRecordNodeIdOffset) (ReadLe64 h kRecordPublisherIdOffset)
    (ReadLe64 h kRecordPublisherEpochOffset) (ReadLe64 h kRecordSourceSequenceOffset)
    (ReadLe64 h kRecordObservedTimestampOffset).

Definition all_zero (l : list byte) : bool := forallb (fun b => bool_decide (b = Byte.x00)) l.

Definition DecodeRecord (encoded : list byte) (limits : SegmentFormatLimits) : Result SegmentRecord :=
  check! ValidateLimits limits ;;
  fail_if zlen encoded <? kMinimumEncodedRecordSize with Corruption "truncated record envelope" ;;
  fail_if max_encoded_record_size limits <? zlen encoded with
    Corruption "record exceeds max_encoded_record_size" ;;
  let record_length := ReadLe64 encoded 0 in
  fail_if u64_max - kRecordLengthFieldSize <? record_length with
    Corruption "record_length overflows uint64" ;;
  let declared_size := record_length + kRecordLengthFieldSize in
  fail_if negb (declared_size =? zlen encoded) with
    Corruption (if declared_size <? zlen encoded then "trailing bytes after record envelope"
                else "truncated record envelope") ;;
  fail_if negb (ReadLe32 encoded kRecordHeaderLengthOffset =? kEncodedRecordHeaderSize) with
    Corruption "noncanonical record header_length" ;;
  let trailer_offset := (length encoded - Z.to_nat kRecordTrailerSize)%nat in
  let h := subspan encoded kRecordHeaderOffset (Z.to_nat kEncodedRecordHeaderSize) in
  fail_if negb (ReadLe32 h kRecordMagicOffset =? kRecordHeaderMagic) with
    Corruption "record header magic mismatch" ;;
  fail_if negb (ReadLe16 h kRecordVersionOffset =? kRecordFormatVersion) with
    Corruption "unsupported record format version" ;;
  fail_if reserved_bits (ReadLe16 h kRecordFlagsOffset) kKnownRecordFlags with
    Corruption "record header contains reserved flag bits" ;;
  fail_if negb (ReadLe32 h kRecordReservedOffset =? 0) with
    Corruption "record header reserved field is non-zero" ;;
  let payload_size := ReadLe32 h kRecordPayloadSizeOffset in
  fail_if max_payload_size limits <? payload_size with
    Corruption "payload_size exceeds max_payload_size" ;;
  let canonical_size := envelope_size payload_size + PaddingSize payload_size in
  fail_if negb (canonical_size =? zlen encoded) with
    Corruption "payload_size does not match record_length" ;;
  fail_if negb (ReadLe64 encoded (trailer_offset + kTrailerRecordLengthOffset) =? record_length) with
    Corruption "leading and trailing record_length mismatch" ;;
  let sequence := ReadLe64 h kRecordIngestionSequenceOffset in
  fail_if negb (ReadLe64 encoded (trailer_offset + kTrailerIngestionSequenceOffset) =? sequence) with
    Corruption "trailer ingestion_sequence mismatch" ;;
  fail_if negb (ReadLe64 encoded (trailer_offset + kTrailerCommitMarkerOffset) =? kRecordCommitMarker) with
    Corruption "record commit marker mismatch" ;;
  let payload_offset := (kRecordHeaderOffset + Z.to_nat kEncodedRecordHeaderSize)%nat in
  let padding_offset := (payload_offset + Z.to_nat payload_size)%nat in
  fail_if negb (all_zero (subspan encoded padding_offset (trailer_offset - padding_offset))) with
    Corruption "record alignment padding is non-zero" ;;
  fail_if negb (ReadLe32 h kRecordHeaderCrcOffset =? RecordHeaderCrc h) with
    Corruption "record header CRC32C mismatch" ;;
  let p := subspan encoded payload_offset (Z.to_nat payload_size) in
  fail_if negb (ReadLe32 h kRecordPayloadCrcOffset =? Crc32c p) with
    Corruption "record payload CRC32C mismatch" ;;
  fail_if negb (ReadLe32 encoded (trailer_offset + kTrailerRecordCrcOffset)
                =? Crc32c (take trailer_offset encoded)) with
    Corruption "record envelope CRC32C mismatch" ;;
  Ok (mkRecord (read_record_header h) p).
End Format.

(** ** The bytes of headers and envelopes *)

Record segment_typed (h : SegmentHeader) : Prop := {
  sg_flags : is_u16 (segment_flags h); sg_recording : is_u64 (recording_id h);
  sg_topic : is_u32 (segment_topic_id h); sg_partition : is_u32 (segment_partition_id h);
  sg_writer : is_u64 (writer_id h); sg_first : is_u64 (first_ingestion_sequence h);
  sg_created : is_u64 (created_at_ns h)
}.

Record header_typed (h : RecordHeader) : Prop := {
  ht_flags : is_u16 (record_flags h); ht_ref : is_u32 (schema_ref h);
  ht_version : is_u32 (schema_version h); ht_layout : is_u32 (layout_version h);
  ht_topic : is_u32 (record_topic_id h); ht_partition : is_u32 (record_partition_id h);
  ht_sequence : is_u64 (ingestion_sequence h); ht_ingested : is_u64 (ingestion_timestamp_ns h);
  ht_node : is_u64 (node_id h); ht_publisher : is_u64 (publisher_id h);
  ht_epoch : is_u64 (publisher_epoch h); ht_source : is_u64 (source_sequence h);
  ht_observed : is_u64 (observed_timestamp_ns h)
}.

Definition record_size (r : SegmentRecord) : Z :=
  envelope_size (zlen (payload r)) + PaddingSize (zlen (payload r)).
Definition padding (r : SegmentRecord) : list byte :=
  replicate (Z.to_nat (PaddingSize (zlen (payload r)))) Byte.x00.

(** What the encoder accepts. *)
Record record_ok (limits : SegmentFormatLimits) (r : SegmentRecord) : Prop := {
  ro_flags : reserved_bits (record_flags (header r)) kKnownRecordFlags = false;
  ro_limits : kMinimumEncodedRecordSize <= max_encoded_record_size limits;
  ro_payload : zlen (payload r) <= u32_max;
  ro_max_payload : zlen (payload r) <= max_payload_size limits;
  ro_size : record_size r <= max_encoded_record_size limits
}.

(** Every guard of a decoder that succeeded was passed. *)
Ltac pass_guards H :=
  repeat (match type of H with (if ?b then Err _ else _) = Ok _ =>
            let E := fresh "G" in destruct b eqn:E; [discriminate H|] end).

(** The offsets as numbers. *)
Ltac offsets :=
  unfold kSegmentMagicOffset, kSegmentVersionOffset, kSegmentFlagsOffset, kSegmentRecordingIdOffset,
    kSegmentTopicIdOffset, kSegmentPartitionIdOffset, kSegmentWriterIdOffset,
    kSegmentFirstSequenceOffset, kSegmentCreatedAtOffset, kSegmentHeaderCrcOffset,
    kRecordHeaderLengthOffset, kRecordHeaderOffset, kRecordMagicOffset, kRecordVersionOffset,
    kRecordFlagsOffset, kRecordSchemaRefOffset, kRecordSchemaVersionOffset,
    kRecordLayoutVersionOffset, kRecordTopicIdOffset, kRecordPartitionIdOffset,
    kRecordIngestionSequenceOffset, kRecordIngestionTimestampOffset, kRecordNodeIdOffset,
    kRecordPublisherIdOffset, kRecordPublisherEpochOffset, kRecordSourceSequenceOffset,
    kRecordObservedTimestampOffset, kRecordPayloadSizeOffset, kRecordPayloadCrcOffset,
    kRecordHeaderCrcOffset, kRecordReservedOffset, kTrailerRecordLengthOffset,
    kTrailerIngestionSequenceOffset, kTrailerRecordCrcOffset, kTrailerCommitMarkerOffset in *.

(** Arithmetic on the sizes of an envelope. *)
Ltac size_lia :=
  unfold record_size, envelope_size, kRecordLengthFieldSize, kRecordHeaderLengthFieldSize,
    kEncodedRecordHeaderSize, kRecordTrailerSize, kMinimumEncodedRecordSize, kRecordHeaderOffset, is_u32, is_u64, zlen in *; lia.

Section Bytes.
Context {B : Crc32cBackend} {BL : Crc32cLaws B}.

Definition segment_fields (h : SegmentHeader) : list byte :=
  le_bytes 4 kSegmentHeaderMagic ++ le_bytes 2 kSegmentFormatVersion ++ le_bytes 2 (segment_flags h)
  ++ le_bytes 8 (recording_id h) ++ le_bytes 4 (segment_topic_id h) ++ le_bytes 4 (segment_partition_id h)
  ++ le_bytes 8 (writer_id h) ++ le_bytes 8 (first_ingestion_sequence h) ++ le_bytes 8 (created_at_ns h).
Definition segment_bytes (h : SegmentHeader) : list byte :=
  segment_fields h ++ le_bytes 4 (Crc32c (segment_fields h)).

Definition header_fields (h : RecordHeader) (size crc : Z) : list byte :=
  le_bytes 4 kRecordHeaderMagic ++ le_bytes 2 kRecordFormatVersion ++ le_bytes 2 (record_flags h)
  ++ le_bytes 4 (schema_ref h) ++ le_bytes 4 (schema_version h) ++ le_bytes 4 (layout_version h)
  ++ le_bytes 4 (record_topic_id h) ++ le_bytes 4 (record_partition_id h)
  ++ le_bytes 8 (ingestion_sequence h) ++ le_bytes 8 (ingestion_timestamp_ns h) ++ le_bytes 8 (node_id h)
  ++ le_bytes 8 (publisher_id h) ++ le_bytes 8 (publisher_epoch h) ++ le_bytes 8 (source_sequence h)
  ++ le_bytes 8 (observed_timestamp_ns h) ++ le_bytes 4 size ++ le_bytes 4 crc.
Definition header_bytes (r : SegmentRecord) : list byte :=
  let fields := header_fields (header r) (zlen (payload r)) (Crc32c (payload r)) in
  fields ++ le_bytes 4 (Crc32c (fields ++ le_bytes 4 0)) ++ le_bytes 4 0.

Definition record_body (r : SegmentRecord) : list byte :=
  le_bytes 8 (record_size r - 8) ++ le_bytes 4 kEncodedRecordHeaderSize ++ header_bytes r
  ++ payload r ++ padding r.
Definition record_trailer (r : SegmentRecord) : list byte :=
  le_bytes 8 (record_size r - 8) ++ le_bytes 8 (ingestion_sequence (header r))
  ++ le_bytes 4 (Crc32c (record_body r)) ++ le_bytes 8 kRecordCommitMarker.
Definition record_bytes (r : SegmentRecord) : list byte := record_body r ++ record_trailer r.

Lemma header_crc_value h : length h = 100%nat ->
  RecordHeaderCrc h = Crc32c (take 92 h ++ drop 96 h).
Proof.
  intros _. unfold RecordHeaderCrc. cbv zeta. rewrite new_accumulator_acc, !Update_acc, Crc32c_acc. done.
Qed.

Lemma segment_fields_length h : length (segment_fields h) = 48%nat.
Proof. unfold segment_fields. by le_len. Qed.
Lemma segment_bytes_length h : length (segment_bytes h) = 52%nat.
Proof. unfold segment_bytes. by rewrite length_app, segment_fields_length, le_bytes_length. Qed.
Lemma header_fields_length h size crc : length (header_fields h size crc) = 92%nat.
Proof. unfold header_fields. by le_len. Qed.
Lemma header_bytes_length r : length (header_bytes r) = 100%nat.
Proof. unfold header_bytes. cbv zeta. le_len. by rewrite header_fields_length. Qed.

Lemma padding_range p : 0 <= PaddingSize p < 8.
Proof. unfold PaddingSize, kRecordAlignment. apply Z.mod_pos_bound. lia. Qed.

(** Envelopes are multiples of eight bytes long. *)
Lemma record_size_aligned r : zlen (payload r) <= u32_max -> (record_size r) mod 8 = 0.
Proof.
  intros H. unfold record_size, PaddingSize, kRecordAlignment, envelope_size, kRecordLengthFieldSize,
    kRecordHeaderLengthFieldSize, kEncodedRecordHeaderSize, kRecordTrailerSize.
  rewrite wrap64_id by ulia. set (e := 8 + 4 + 100 + zlen (payload r) + 28).
  pose proof (Z.div_mod e 8). pose proof (Z.mod_pos_bound e 8).
  destruct (decide (e mod 8 = 0)) as [E|E].
  - rewrite E. rewrite Z.add_0_r. done.
  - rewrite (Z.mod_small (8 - e mod 8)) by lia. replace (e + (8 - e mod 8)) with ((e / 8 + 1) * 8) by lia.
    apply Z.mod_mul. lia.
Qed.

Lemma record_size_pos r : 144 <= record_size r.
Proof.
  pose proof (padding_range (zlen (payload r))) as Hp.
  destruct (decide (zlen (payload r) <= u32_max)) as [H|H].
  - pose proof (record_size_aligned r H) as Ha. unfold record_size in *.
    unfold envelope_size, kRecordLengthFieldSize, kRecordHeaderLengthFieldSize, kEncodedRecordHeaderSize,
      kRecordTrailerSize in *. pose proof (Z.mod_divide (8 + 4 + 100 + zlen (payload r) + 28 + PaddingSize (zlen (payload r))) 8 ltac:(lia)) as [Hd _].
    destruct (Hd Ha) as [k Hk]. unfold zlen in *. lia.
  - unfold record_size, envelope_size, kRecordLengthFieldSize, kRecordHeaderLengthFieldSize,
      kEncodedRecordHeaderSize, kRecordTrailerSize. lia.
Qed.

Lemma record_body_length r : zlen (record_body r) = record_size r - 28.
Proof.
  pose proof (padding_range (zlen (payload r))). unfold zlen, record_body, padding. le_len. rewrite header_bytes_length.
  unfold record_size, envelope_size, kRecordLengthFieldSize, kRecordHeaderLengthFieldSize,
    kEncodedRecordHeaderSize, kRecordTrailerSize, zlen in *. lia.
Qed.

Lemma record_bytes_length r : zlen (record_bytes r) = record_size r.
Proof.
  unfold record_bytes. pose proof (record_body_length r) as H. unfold zlen in *. rewrite length_app.
  unfold record_trailer. le_len. lia.
Qed.

(** ** The encoders write these bytes *)

Lemma EncodeSegmentHeader_spec h :
  EncodeSegmentHeader h = if reserved_bits (segment_flags h) kKnownSegmentFlags
    then Err (Invalid "segment header contains reserved flag bits") else Ok (segment_bytes h).
Proof.
  unfold EncodeSegmentHeader. destruct (reserved_bits _ _); reflexivity.
Qed.

Lemma EncodeRecordHeader_spec r : zlen (payload r) <= u32_max ->
  EncodeRecordHeader r (replicate 100 Byte.x00) = header_bytes r.
Proof.
  intros Hp. unfold header_bytes. cbv zeta.
  set (fields := header_fields (header r) (zlen (payload r)) (Crc32c (payload r))).
  assert (length fields = 92%nat) as Hl by apply header_fields_length.
  transitivity (copy_to (le_bytes 4 (RecordHeaderCrc (fields ++ le_bytes 4 0 ++ le_bytes 4 0)))
                  (fields ++ le_bytes 4 0 ++ le_bytes 4 0) 92).
  - assert (wrap32 (zlen (payload r)) = zlen (payload r)) as Hw by (apply Z.mod_small; ulia).
    unfold EncodeRecordHeader. rewrite Hw. reflexivity.
  - rewrite copy_to_mid by (rewrite ?le_bytes_length; done).
    rewrite header_crc_value by (rewrite !length_app, Hl; done).
    rewrite (app_assoc fields (le_bytes 4 0)), drop_app_length' by (rewrite length_app, Hl; done).
    by rewrite <- app_assoc, take_app_length' by done.
Qed.

Lemma EncodedRecordSize_spec p limits :
  0 <= p ->
  EncodedRecordSize p limits =
    if max_encoded_record_size limits <? kMinimumEncodedRecordSize
    then Err (Invalid "max_encoded_record_size is smaller than one envelope")
    else if u32_max <? p then Err (Invalid "payload_size does not fit the v1 uint32 field")
    else if max_payload_size limits <? p then Err (Invalid "payload_size exceeds max_payload_size")
    else if max_encoded_record_size limits <? envelope_size p + PaddingSize p
    then Err (Invalid "record envelope exceeds max_encoded_record_size")
    else Ok (envelope_size p + PaddingSize p).
Proof.
  intros H0. unfold EncodedRecordSize, ValidateLimits. destruct (_ <? _); [done|]. cbn [bindR].
  destruct (u32_max <? p) eqn:E; [done|]. apply Z.ltb_ge in E. destruct (_ <? p); [done|]. cbv zeta.
  pose proof (padding_range p). unfold envelope_size, kRecordLengthFieldSize, kRecordHeaderLengthFieldSize,
    kEncodedRecordHeaderSize, kRecordTrailerSize in *.
  rewrite wrap64_id by ulia. destruct (_ <? _); [done|]. by rewrite (proj2 (Z.ltb_ge _ _)) by lia.
Qed.

Lemma EncodedRecordSize_ok r limits size :
  EncodedRecordSize (zlen (payload r)) limits = Ok size <->
  size = record_size r /\ kMinimumEncodedRecordSize <= max_encoded_record_size limits /\
  zlen (payload r) <= u32_max /\ zlen (payload r) <= max_payload_size limits /\
  record_size r <= max_encoded_record_size limits.
Proof.
  rewrite EncodedRecordSize_spec by (unfold zlen; lia). fold (record_size r).
  repeat match goal with |- context [if ?a <? ?b then _ else _] => destruct (Z.ltb_spec a b) end;
    (split; [intros [=]; subst; repeat split; lia | intros (-> & ? & ? & ? & ?); try lia; done]).
Qed.

(** The trailer written over the last 28 bytes. *)
Lemma write_trailer r n :
  n = length (record_body r) ->
  (let bytes := record_body r ++ replicate 28 Byte.x00 in
   let bytes := WriteLe64 bytes (n + kTrailerRecordLengthOffset) (record_size r - 8) in
   let bytes := WriteLe64 bytes (n + kTrailerIngestionSequenceOffset) (ingestion_sequence (header r)) in
   let bytes := WriteLe32 bytes (n + kTrailerRecordCrcOffset) (Crc32c (take n bytes)) in
   WriteLe64 bytes (n + kTrailerCommitMarkerOffset) kRecordCommitMarker) = record_bytes r.
Proof.
  intros ->. unfold WriteLe64, WriteLe32, kTrailerRecordLengthOffset, kTrailerIngestionSequenceOffset,
    kTrailerRecordCrcOffset, kTrailerCommitMarkerOffset. cbv zeta.
  rewrite (write_next (record_body r)) by (le_len; lia).
  rewrite write_next by (le_len; lia). rewrite <- !(app_assoc (record_body r)).
  rewrite (take_app_length' (record_body r)) by done. rewrite !(app_assoc (record_body r)).
  rewrite write_next by (le_len; lia). rewrite write_next by (le_len; lia).
  rewrite !le_bytes_length. cbn [Nat.sub replicate]. unfold record_bytes, record_trailer.
  by rewrite app_nil_r, <- !app_assoc.
Qed.

Lemma EncodeRecord_bytes r limits :
  record_ok limits r -> EncodeRecord r limits = Ok (record_bytes r).
Proof.
  intros [Hf Hl Hp Hm Hs]. unfold EncodeRecord. rewrite Hf.
  rewrite (proj2 (EncodedRecordSize_ok r limits _) (conj eq_refl (conj Hl (conj Hp (conj Hm Hs))))).
  cbn [bindR]. f_equal. pose proof (padding_range (zlen (payload r))) as Hpad.
  set (pad := Z.to_nat (PaddingSize (zlen (payload r)))).
  assert (Z.to_nat (record_size r) = 112 + length (payload r) + pad + 28)%nat as ->.
  { unfold pad. size_lia. }
  cbv zeta. assert (zlen (replicate (112 + length (payload r) + pad + 28) Byte.x00) - kRecordLengthFieldSize
    = record_size r - 8) as ->.
  { unfold pad, zlen at 1. rewrite length_replicate. size_lia. }
  set (pre := le_bytes 8 (record_size r - 8) ++ le_bytes 4 kEncodedRecordHeaderSize).
  assert (WriteLe32 (WriteLe64 (replicate (112 + length (payload r) + pad + 28) Byte.x00) 0 (record_size r - 8))
    kRecordHeaderLengthOffset kEncodedRecordHeaderSize = pre ++ replicate (100 + (length (payload r) + (pad + 28))) Byte.x00) as ->.
  { unfold WriteLe32, WriteLe64, kRecordHeaderLengthOffset. rewrite <- (app_nil_l (replicate _ _)). do 2 write_le_field.
    rewrite !le_bytes_length. unfold pre. rewrite app_nil_l. do 2 f_equal. lia. }
  assert (length pre = 12%nat) as Hpre by done.
  rewrite (subspan_app_skip pre) by (rewrite Hpre; unfold kRecordHeaderOffset; lia). rewrite Hpre. cbn [Nat.sub kRecordHeaderOffset].
  change (Z.to_nat kEncodedRecordHeaderSize) with 100%nat.
  replace (subspan (replicate _ _) _ 100) with (replicate 100 Byte.x00)
    by (unfold subspan; cbn [drop Nat.sub]; by rewrite drop_0, take_replicate, Nat.min_l by lia).
  rewrite EncodeRecordHeader_spec by done.
  rewrite (write_next pre) by (rewrite ?header_bytes_length; done || lia). rewrite header_bytes_length.
  rewrite write_next by (rewrite ?length_app, ?header_bytes_length, ?Hpre; (done || lia)).
  rewrite !length_app, length_replicate, header_bytes_length, Hpre.
  replace (100 + (length (payload r) + (pad + 28)) - 100 - length (payload r))%nat with (pad + 28)%nat by lia.
  rewrite replicate_add, app_assoc.
  assert (((pre ++ header_bytes r) ++ payload r) ++ replicate pad Byte.x00 = record_body r) as ->.
  { unfold record_body, pre, padding. by rewrite <- !app_assoc. }
  apply write_trailer. pose proof (record_body_length r) as Hb. pose proof (record_size_pos r).
  unfold pad. size_lia.
Qed.

Lemma EncodeRecord_ok r limits b :
  EncodeRecord r limits = Ok b <-> record_ok limits r /\ b = record_bytes r.
Proof.
  split; [|intros [H ->]; by apply EncodeRecord_bytes]. intros H.
  assert (record_ok limits r) as Hok.
  { unfold EncodeRecord in H. step_if. apply bindR_Ok in H as (size & Hsz & _).
    apply EncodedRecordSize_ok in Hsz as (_ & ? & ? & ? & ?). by split. }
  split; [done|]. rewrite (EncodeRecord_bytes _ _ Hok) in H. congruence.
Qed.

(** ** The decoders read them back *)

Lemma all_zero_spec l : all_zero l = true <-> l = replicate (length l) Byte.x00.
Proof.
  unfold all_zero. induction l as [|b l IH]; [done|]. cbn. rewrite andb_true_iff, IH, bool_decide_eq_true.
  split; [intros [-> E]; by rewrite <- E | intros [=]; done].
Qed.

Lemma header_reads r : header_typed (header r) -> zlen (payload r) <= u32_max ->
  let h := header_bytes r in
  ReadLe32 h kRecordMagicOffset = kRecordHeaderMagic /\ ReadLe16 h kRecordVersionOffset = kRecordFormatVersion /\
  ReadLe32 h kRecordReservedOffset = 0 /\ ReadLe32 h kRecordPayloadSizeOffset = zlen (payload r) /\
  ReadLe32 h kRecordPayloadCrcOffset = Crc32c (payload r) /\
  ReadLe32 h kRecordHeaderCrcOffset = RecordHeaderCrc h /\ read_record_header h = header r.
Proof.
  intros [] Hp. cbv zeta.
  assert (RecordHeaderCrc (header_bytes r) =
    Crc32c (header_fields (header r) (zlen (payload r)) (Crc32c (payload r)) ++ le_bytes 4 0)) as Hcrc.
  { rewrite header_crc_value by apply header_bytes_length. unfold header_bytes. cbv zeta.
    rewrite take_app_length' by (by rewrite header_fields_length).
    by rewrite app_assoc, drop_app_length' by (by rewrite length_app, header_fields_length, le_bytes_length). }
  rewrite Hcrc. unfold header_bytes. cbv zeta.
  assert (0 <= zlen (payload r)) by (unfold zlen; lia).
  set (crc := Crc32c (header_fields _ _ _ ++ _)). assert (is_u32 crc) by apply Crc32c_u32.
  assert (is_u32 (Crc32c (payload r))) by apply Crc32c_u32.
  unfold header_fields. rewrite <- !app_assoc. unfold read_record_header, ReadLe32, ReadLe16, ReadLe64. offsets.
  unfold is_u16, is_u32, is_u64 in *.
  split_and!; [read_le_field; done | read_le_field; done | | read_le_field; lia | read_le_field; done | read_le_field; done |].
  - repeat (rewrite read_le_skip by (rewrite le_bytes_length; cbv; lia); rewrite le_bytes_length; cbn [Nat.sub]).
    rewrite <- (app_nil_r (le_bytes 4 0)). by rewrite read_le_here.
  - clearbody crc. destruct (header r). cbn [record_flags schema_ref schema_version layout_version record_topic_id
      record_partition_id ingestion_sequence ingestion_timestamp_ns node_id publisher_id publisher_epoch
      source_sequence observed_timestamp_ns] in *. f_equal; read_le_field; done.
Qed.

Lemma record_parts r :
  let b := record_bytes r in
  let t := length (record_body r) in
  (length b - Z.to_nat kRecordTrailerSize)%nat = t /\ take t b = record_body r /\
  subspan b 12 100 = header_bytes r /\ subspan b 112 (length (payload r)) = payload r /\
  subspan b (112 + length (payload r)) (t - (112 + length (payload r))) = padding r.
Proof.
  cbv zeta.
  assert (length (record_body r) = 112 + length (payload r) + length (padding r))%nat as Hb.
  { unfold record_body. le_len. rewrite header_bytes_length. lia. }
  assert (length (record_trailer r) = 28%nat) as Ht by done.
  assert (record_bytes r = le_bytes 8 (record_size r - 8) ++ le_bytes 4 kEncodedRecordHeaderSize
    ++ header_bytes r ++ payload r ++ padding r ++ record_trailer r) as E.
  { unfold record_bytes, record_body. by rewrite <- !app_assoc. }
  split_and!.
  - unfold record_bytes. rewrite length_app, Ht. apply Nat.add_sub.
  - by apply take_app_length'.
  - rewrite E. do 2 (rewrite subspan_app_skip by (rewrite le_bytes_length; lia); rewrite le_bytes_length; cbn [Nat.sub]).
    apply subspan_app_here. by rewrite header_bytes_length.
  - rewrite E. do 2 (rewrite subspan_app_skip by (rewrite le_bytes_length; lia); rewrite le_bytes_length; cbn [Nat.sub]).
    rewrite subspan_app_skip, header_bytes_length by (rewrite header_bytes_length; lia).
    by apply subspan_app_here.
  - rewrite Hb, E. do 2 (rewrite subspan_app_skip by (rewrite le_bytes_length; lia); rewrite le_bytes_length).
    rewrite subspan_app_skip, header_bytes_length by (rewrite header_bytes_length; lia).
    rewrite subspan_app_skip by lia.
    replace (112 + length (payload r) - 8 - 4 - 100 - length (payload r))%nat with 0%nat by lia.
    apply subspan_app_here. lia.
Qed.

Lemma trailer_reads r : header_typed (header r) -> zlen (payload r) <= u32_max ->
  let b := record_bytes r in
  let t := length (record_body r) in
  ReadLe64 b (t + kTrailerRecordLengthOffset) = record_size r - 8 /\
  ReadLe64 b (t + kTrailerIngestionSequenceOffset) = ingestion_sequence (header r) /\
  ReadLe32 b (t + kTrailerRecordCrcOffset) = Crc32c (record_body r) /\
  ReadLe64 b (t + kTrailerCommitMarkerOffset) = kRecordCommitMarker /\
  ReadLe64 b 0 = record_size r - 8 /\ ReadLe32 b kRecordHeaderLengthOffset = kEncodedRecordHeaderSize.
Proof.
  intros Hh Hp. cbv zeta. pose proof (record_size_pos r) as Hs. pose proof (padding_range (zlen (payload r))) as Hpad.
  assert (is_u64 (record_size r - 8)) as Hu by size_lia.
  pose proof (ht_sequence _ Hh) as Hq. pose proof (Crc32c_u32 (record_body r)) as Hc. unfold ReadLe64, ReadLe32.
  unfold is_u32, is_u64 in *. offsets.
  split_and!.
  1-4: unfold record_bytes; rewrite (read_le_skip _ (record_body r)) by lia;
    match goal with |- read_le _ _ ?k = _ => replace k with (k - 0)%nat by lia end;
    rewrite ?(Nat.add_comm (length _)), ?Nat.add_sub, ?Nat.sub_0_r; unfold record_trailer.
  1-3: read_le_field; done.
  - rewrite <- (app_nil_r (le_bytes 8 kRecordCommitMarker)). by read_le_field.
  - unfold record_bytes, record_body. rewrite <- !app_assoc. by read_le_field.
  - unfold record_bytes, record_body. rewrite <- !app_assoc. by read_le_field.
Qed.

Lemma read_flags h : record_flags (read_record_header h) = ReadLe16 h kRecordFlagsOffset.
Proof. done. Qed.
Lemma read_sequence h : ingestion_sequence (read_record_header h) = ReadLe64 h kRecordIngestionSequenceOffset.
Proof. done. Qed.

Lemma DecodeRecord_complete r limits :
  header_typed (header r) -> record_ok limits r -> DecodeRecord (record_bytes r) limits = Ok r.
Proof.
  intros Hh [Hf Hl Hp Hm Hs]. pose proof (record_size_pos r) as Hmin.
  destruct (header_reads r Hh Hp) as (R1 & R2 & R3 & R4 & R5 & R6 & R7).
  destruct (record_parts r) as (P1 & P2 & P3 & P4 & P5).
  destruct (trailer_reads r Hh Hp) as (T1 & T2 & T3 & T4 & T5 & T6).
  pose proof (f_equal record_flags R7) as R8. pose proof (f_equal ingestion_sequence R7) as R9.
  rewrite read_flags in R8. rewrite read_sequence in R9.
  unfold DecodeRecord, ValidateLimits. cbv zeta. rewrite record_bytes_length, P1, T5, T6.
  assert (Z.to_nat kEncodedRecordHeaderSize = 100%nat) as -> by done.
  assert (kRecordHeaderOffset + 100 = 112)%nat as -> by done.
  assert (kRecordHeaderOffset = 12%nat) as -> by done.
  rewrite P3, R1, R2, R3, R4, R5, R6, R7, R8, R9, T1, T2, T3, T4, P2.
  replace (Z.to_nat (zlen (payload r))) with (length (payload r)) by (unfold zlen; lia).
  rewrite P4, P5, Hf. unfold kRecordLengthFieldSize. replace (record_size r - 8 + 8) with (record_size r) by lia.
  fold (record_size r). rewrite !Z.eqb_refl. cbn [negb].
  rewrite (proj2 (Z.ltb_ge _ _)) by done. cbn [bindR].
  rewrite (proj2 (Z.ltb_ge (record_size r) _)) by done. rewrite (proj2 (Z.ltb_ge _ (record_size r))) by done.
  rewrite (proj2 (Z.ltb_ge _ (record_size r - 8))) by (pose proof (padding_range (zlen (payload r))); size_lia).
  rewrite (proj2 (Z.ltb_ge _ _)) by done.
  rewrite (proj2 (all_zero_spec (padding r))) by (unfold padding; by rewrite length_replicate).
  cbn [negb]. by destruct r.
Qed.

(** A header is determined by the values of its fields. *)
Lemma header_split h : length h = 100%nat ->
  ReadLe32 h kRecordMagicOffset = kRecordHeaderMagic -> ReadLe16 h kRecordVersionOffset = kRecordFormatVersion ->
  h = header_fields (read_record_header h) (ReadLe32 h kRecordPayloadSizeOffset) (ReadLe32 h kRecordPayloadCrcOffset)
      ++ le_bytes 4 (ReadLe32 h kRecordHeaderCrcOffset) ++ le_bytes 4 (ReadLe32 h kRecordReservedOffset).
Proof.
  unfold header_fields, read_record_header. intros Hl <- <-.
  cbn [record_flags schema_ref schema_version layout_version record_topic_id record_partition_id
    ingestion_sequence ingestion_timestamp_ns node_id publisher_id publisher_epoch source_sequence observed_timestamp_ns].
  unfold ReadLe16, ReadLe32, ReadLe64. offsets. rewrite <- !app_assoc.
  rewrite <- (drop_0 h) at 1. peel_le 4%nat h 0%nat. peel_le 2%nat h 4%nat. peel_le 2%nat h 6%nat.
  do 5 (match goal with |- context [drop ?k h] => peel_le 4%nat h k end).
  do 7 (match goal with |- context [drop ?k h] => peel_le 8%nat h k end).
  do 4 (match goal with |- context [drop ?k h] => peel_le 4%nat h k end).
  rewrite (drop_ge h) by lia. by rewrite app_nil_r.
Qed.

Lemma header_read_typed h : length h = 100%nat -> header_typed (read_record_header h).
Proof.
  intros Hl. unfold read_record_header.
  split; cbn [record_flags schema_ref schema_version layout_version record_topic_id record_partition_id
    ingestion_sequence ingestion_timestamp_ns node_id publisher_id publisher_epoch source_sequence observed_timestamp_ns];
    le_bound; offsets; lia.
Qed.

Lemma header_bytes_sound h p : length h = 100%nat ->
  ReadLe32 h kRecordMagicOffset = kRecordHeaderMagic -> ReadLe16 h kRecordVersionOffset = kRecordFormatVersion ->
  ReadLe32 h kRecordReservedOffset = 0 -> ReadLe32 h kRecordPayloadSizeOffset = zlen p ->
  ReadLe32 h kRecordPayloadCrcOffset = Crc32c p -> ReadLe32 h kRecordHeaderCrcOffset = RecordHeaderCrc h ->
  h = header_bytes (mkRecord (read_record_header h) p).
Proof.
  intros Hl Hm Hv Hr Hz Hc Hh. pose proof (header_split h Hl Hm Hv) as E. rewrite Hz, Hc, Hr, Hh in E.
  unfold header_bytes. cbn [header payload]. cbv zeta. set (fields := header_fields _ _ _) in *.
  assert (length fields = 92%nat) as Hf by apply header_fields_length.
  rewrite (header_crc_value h Hl) in E. rewrite E at 1. do 3 f_equal. rewrite E.
  rewrite take_app_length' by done.
  by rewrite app_assoc, drop_app_length' by (by rewrite length_app, Hf, le_bytes_length).
Qed.

Lemma DecodeRecord_sound b limits r :
  DecodeRecord b limits = Ok r ->
  header_typed (header r) /\ record_ok limits r /\ b = record_bytes r.
Proof.
  intros H. unfold DecodeRecord, ValidateLimits in H. cbv zeta in H.
  change (Z.to_nat kEncodedRecordHeaderSize) with 100%nat in H. change (Z.to_nat kRecordTrailerSize) with 28%nat in H.
  unfold kRecordHeaderOffset in H. change (12 + 100)%nat with 112%nat in H.
  step_if. cbn [bindR] in H. pass_guards H. bool_to_prop. injection H as <-.
  set (h := subspan b 12 100) in *. set (ps := ReadLe32 h kRecordPayloadSizeOffset) in *.
  set (t := (length b - 28)%nat) in *. set (p := subspan b 112 (Z.to_nat ps)) in *.
  assert (144 <= length b)%nat as Hlen by size_lia.
  assert (length h = 100%nat) as Hh by (apply subspan_length; lia).
  assert (is_u32 ps) as Hps by (apply ReadLe32_bound; offsets; lia).
  pose proof (padding_range ps) as Hpad.
  assert (length p = Z.to_nat ps) as Hp by (apply subspan_length; size_lia).
  assert (zlen p = ps) as Hz by size_lia.
  set (r := mkRecord (read_record_header h) p).
  assert (record_size r = zlen b) as Hsize by (unfold record_size; cbn [payload r]; rewrite Hz; done).
  assert (h = header_bytes r) as Ehb by (apply header_bytes_sound; (done || congruence)).
  assert (t = 8 + (4 + (100 + (length p + Z.to_nat (PaddingSize ps)))))%nat as Ht by (unfold t; size_lia).
  assert (ReadLe64 b 0 = record_size r - 8) as El by (unfold kRecordLengthFieldSize in *; lia).
  assert (subspan b (112 + length p) (Z.to_nat (PaddingSize ps)) = padding r) as Epad.
  { rewrite Hp in *. replace (t - (112 + Z.to_nat ps))%nat with (Z.to_nat (PaddingSize ps)) in G13 by lia.
    apply all_zero_spec in G13. rewrite subspan_length in G13 by size_lia. unfold padding. cbn [payload r]. by rewrite Hz. }
  assert (take t b = record_body r) as Ebody.
  { change (take t b) with (subspan b 0 t). rewrite Ht, !subspan_split. unfold record_body. rewrite <- Ehb, <- El.
    rewrite <- G3. unfold ReadLe64, ReadLe32, kRecordHeaderLengthOffset. rewrite !le_bytes_read by lia.
    rewrite <- Epad. cbn [payload r]. change (0 + 8 + 4 + 100)%nat with 112%nat.
    assert (subspan b 112 (length p) = p) as -> by (by rewrite Hp). reflexivity. }
  split_and!; [by apply header_read_typed | split; cbn [payload r]; [done | done | rewrite Hz; ulia | by rewrite Hz | by rewrite Hsize] |].
  unfold record_bytes, record_trailer. rewrite <- Ebody, <- El, <- G10, <- G12, <- G16.
  change (ingestion_sequence (header r)) with (ReadLe64 h kRecordIngestionSequenceOffset). rewrite <- G11.
  unfold ReadLe64, ReadLe32. offsets. rewrite Nat.add_0_r.
  rewrite !le_bytes_read by lia. rewrite <- (take_drop t b) at 1. f_equal.
  rewrite <- (take_ge (drop t b) 28) by (rewrite length_drop; lia). change (take 28 (drop t b)) with (subspan b t (8 + (8 + (4 + 8)))).
  by rewrite !subspan_split, <- !Nat.add_assoc.
Qed.

Lemma segment_reads h : segment_typed h ->
  let b := segment_bytes h in
  ReadLe32 b kSegmentMagicOffset = kSegmentHeaderMagic /\ ReadLe16 b kSegmentVersionOffset = kSegmentFormatVersion /\
  ReadLe16 b kSegmentFlagsOffset = segment_flags h /\ ReadLe32 b kSegmentHeaderCrcOffset = Crc32c (segment_fields h) /\
  mkSegmentHeader (segment_flags h) (ReadLe64 b kSegmentRecordingIdOffset)
    (ReadLe32 b kSegmentTopicIdOffset) (ReadLe32 b kSegmentPartitionIdOffset)
    (ReadLe64 b kSegmentWriterIdOffset) (ReadLe64 b kSegmentFirstSequenceOffset)
    (ReadLe64 b kSegmentCreatedAtOffset) = h.
Proof.
  intros []. cbv zeta. pose proof (Crc32c_u32 (segment_fields h)) as Hc.
  unfold segment_bytes. set (crc := Crc32c _) in *. clearbody crc. unfold segment_fields. rewrite <- !app_assoc.
  rewrite <- (app_nil_r (le_bytes 4 crc)). unfold ReadLe16, ReadLe32, ReadLe64, is_u16, is_u32, is_u64 in *. offsets.
  split_and!; [read_le_field; done | read_le_field; done | read_le_field; done | read_le_field; done |].
  destruct h. cbn [segment_flags recording_id segment_topic_id segment_partition_id writer_id
    first_ingestion_sequence created_at_ns] in *. f_equal; read_le_field; done.
Qed.

Lemma DecodeSegmentHeader_complete h :
  segment_typed h -> reserved_bits (segment_flags h) kKnownSegmentFlags = false ->
  DecodeSegmentHeader (segment_bytes h) = Ok h.
Proof.
  intros Ht Hf. destruct (segment_reads h Ht) as (R1 & R2 & R3 & R4 & R5).
  unfold DecodeSegmentHeader, SegmentHeaderCrc. cbv zeta. rewrite R1, R2, R3, R4, Hf.
  assert (take kSegmentHeaderCrcOffset (segment_bytes h) = segment_fields h) as ->
    by (unfold segment_bytes; apply take_app_length'; by rewrite segment_fields_length).
  assert (zlen (segment_bytes h) = kEncodedSegmentHeaderSize) as -> by (unfold zlen; by rewrite segment_bytes_length).
  rewrite !Z.eqb_refl. cbn [negb]. by rewrite R5.
Qed.

Lemma DecodeSegmentHeader_sound b h :
  DecodeSegmentHeader b = Ok h ->
  segment_typed h /\ reserved_bits (segment_flags h) kKnownSegmentFlags = false /\ b = segment_bytes h.
Proof.
  intros H. unfold DecodeSegmentHeader, SegmentHeaderCrc in H. cbv zeta in H. pass_guards H. bool_to_prop.
  injection H as <-. assert (length b = 52%nat) as Hl by (unfold kEncodedSegmentHeaderSize in *; ulia).
  split_and!; [| done |].
  - split; cbn [segment_flags recording_id segment_topic_id segment_partition_id writer_id
      first_ingestion_sequence created_at_ns]; le_bound; offsets; lia.
  - assert (take 48 b = segment_fields (mkSegmentHeader (ReadLe16 b kSegmentFlagsOffset)
        (ReadLe64 b kSegmentRecordingIdOffset) (ReadLe32 b kSegmentTopicIdOffset) (ReadLe32 b kSegmentPartitionIdOffset)
        (ReadLe64 b kSegmentWriterIdOffset) (ReadLe64 b kSegmentFirstSequenceOffset) (ReadLe64 b kSegmentCreatedAtOffset))) as E.
    { unfold segment_fields. cbn [segment_flags recording_id segment_topic_id segment_partition_id writer_id
        first_ingestion_sequence created_at_ns]. rewrite <- G0, <- G1. unfold ReadLe16, ReadLe32, ReadLe64. offsets.
      rewrite !le_bytes_read by lia.
      change (take 48 b) with (subspan b 0 (4 + (2 + (2 + (8 + (4 + (4 + (8 + (8 + 8))))))))). by rewrite !subspan_split. }
    unfold segment_bytes. rewrite <- E. change (take 48 b) with (take kSegmentHeaderCrcOffset b).
    rewrite <- G3. unfold ReadLe32. rewrite le_bytes_read by (offsets; lia). unfold subspan.
    rewrite (take_ge (drop _ _)) by (rewrite length_drop; offsets; lia). by rewrite take_drop.
Qed.
End Bytes.

(** C37: the segment format is a bijection: a header or a record of the C++ types is encoded as
    [b] exactly when [b] decodes to it, under any limits, and everything the decoders
    return has these types; so no two byte strings decode to the same record. *)
Theorem segment_format_bijective (B : Crc32cBackend) (BL : Crc32cLaws B) :
  (forall h b, segment_typed h -> EncodeSegmentHeader h = Ok b <-> DecodeSegmentHeader b = Ok h) /\
  (forall b h, DecodeSegmentHeader b = Ok h -> segment_typed h) /\
  (forall r b limits, header_typed (header r) -> EncodeRecord r limits = Ok b <-> DecodeRecord b limits = Ok r) /\
  (forall b r limits, DecodeRecord b limits = Ok r -> header_typed (header r) /\ zlen b mod 8 = 0).
Proof.
  split_and!.
  - intros h b Ht. rewrite EncodeSegmentHeader_spec. split.
    + intros H. step_if. injection H as <-. by apply DecodeSegmentHeader_complete.
    + intros (_ & -> & ->)%DecodeSegmentHeader_sound. done.
  - by intros b h (? & _)%DecodeSegmentHeader_sound.
  - intros r b limits Ht. rewrite EncodeRecord_ok. split.
    + intros [Hok ->]. by apply DecodeRecord_complete.
    + by intros (_ & Hok & ->)%DecodeRecord_sound.
  - intros b r limits (Ht & Hok & ->)%DecodeRecord_sound. split; [done|].
    rewrite record_bytes_length. apply record_size_aligned, Hok.
Qed.

Definition sample_record (sequence : Z) (text : list Z) : SegmentRecord :=
  mkRecord (mkRecordHeader 0 7 1 1 3 0 sequence 1000 11 12 1 5 999) (byte_of_Z <$> text).

Lemma segment_format_bijective_witness :
  exists b, EncodeRecord (sample_record 40 [1; 2; 3]) default_limits = Ok b /\
    DecodeRecord b default_limits = Ok (sample_record 40 [1; 2; 3]).
Proof.
  destruct (EncodeRecord (sample_record 40 [1; 2; 3]) default_limits) as [b|] eqn:E; [|vm_compute in E; discriminate E].
  exists b. split; [reflexivity|].
  apply (proj1 (proj2 (proj2 (segment_format_bijective software_backend software_laws)))); [|exact E].
  split; vm_compute; (split; [discriminate | reflexivity]).
Defined.
