(* ===== verification/SegmentRecovery.v ===== *)
(** * Recovery of segment files

    Models [mino/storage/segment_recovery.h] and [.cc]: scanning a segment after a crash,
    telling an incomplete tail from corruption, and truncating an incomplete tail.

    The file is a list of bytes that does not change during a scan.  The answers of the
    system calls are inputs: a list holds the answers of a repeated call before those that
    succeed fully, so short reads, interruptions and errors occur in any order.  The hooks,
    which replace system calls in tests, are not modelled; neither is the failure of a
    memory allocation.  This file has the definitions, [SegmentScan] their properties. *)
From S2P Require Import Prelude Bytes Crc32c LittleEndian SegmentFormat.

Definition kIoBufferSize : Z := 65536.
Definition off_t_max : Z := two63 - 1.

(** ** Data *)

Record SegmentRecoveryCheckpoint : Set := mkCheckpoint {
  checkpoint_offset : Z; checkpoint_sequence : option Z
}.

Record SegmentRecordOffset : Set := mkOffset {
  record_offset : Z; record_end_offset : Z; encoded_size : Z; payload_offset : Z; payload_size : Z;
  meta_flags : Z; meta_schema_ref : Z; meta_schema_version : Z; meta_layout_version : Z;
  meta_sequence : Z; meta_ingestion_timestamp_ns : Z; meta_source_sequence : Z;
  meta_observed_timestamp_ns : Z
}.

Inductive SegmentRecoveryDisposition : Set := kClean | kIncompleteTail | kDamaged.

Inductive SegmentRecoveryReason : Set :=
| kNone | kIncompleteSegmentHeader | kSegmentHeaderCorruption | kIncompleteLeadingLength
| kRecordLengthOverflow | kRecordTooSmall | kRecordTooLarge | kIncompleteRecord
| kHeaderLengthMismatch | kRecordHeaderCorruption | kHeaderCrcMismatch | kPayloadSizeMismatch
| kPayloadCrcMismatch | kPaddingCorruption | kTrailingLengthMismatch | kTrailerSequenceMismatch
| kRecordCrcMismatch | kCommitMarkerMismatch | kTopicPartitionMismatch
| kIngestionSequenceMismatch | kUnknownSchemaRef.

Record SegmentRecoveryReport : Set := mkReport {
  report_header : SegmentHeader;
  file_size : Z; file_device : Z; file_inode : Z;
  scan_start_offset : Z; checkpoint_used : bool; checkpoint_fell_back : bool;
  metadata_is_complete : bool;
  records_scanned : Z; last_complete_offset : Z; last_complete_record_offset : Z;
  last_complete_sequence : option Z;
  disposition : SegmentRecoveryDisposition; reason : SegmentRecoveryReason;
  damage_offset : Z; truncated_bytes : Z; reason_detail : string;
  repaired : bool; records : list SegmentRecordOffset
}.

(** [known_schema_refs] is [None] for a null set; the validator callback is a function. *)
Record SegmentRecoveryOptions : Type := mkRecoveryOptions {
  format_limits : SegmentFormatLimits; checkpoint : option SegmentRecoveryCheckpoint;
  known_schema_refs : option (gset Z); schema_ref_validator : option (Z -> bool)
}.

Record SegmentRepairOptions : Set := mkRepairOptions {
  sync_full : bool; expected_device : option Z; expected_inode : option Z; require_single_link : bool
}.

Record RecordCheck : Set := mkCheck {
  valid : bool; has_complete_commit_marker : bool; check_reason : SegmentRecoveryReason;
  detail : string; metadata : SegmentRecordOffset
}.

Definition Failure (c : RecordCheck) (r : SegmentRecoveryReason) (d : string) : RecordCheck :=
  mkCheck (valid c) (has_complete_commit_marker c) r d (metadata c).

Definition SchemaRefKnown (ref : Z) (o : SegmentRecoveryOptions) : bool :=
  match known_schema_refs o, schema_ref_validator o with
  | None, None => true
  | refs, validator =>
      match refs with Some s => bool_decide (ref ∈ s) | None => false end
      || match validator with Some f => f ref | None => false end
  end.

(** ** Answers of the operating system *)

(** What [pread] answers: an error, or that a short count was read. *)
Inductive PreadAnswer : Set := PreadErrno (e : Errno) | PreadCount (n : nat).

(** What [fstat] answers. *)
Inductive StatAnswer : Set :=
| StatErrno (e : Errno)
| StatOk (regular : bool) (size device inode links : Z).

Section Recovery.
Context {B : Crc32cBackend} (strerror : Errno -> string) (path : string).

Definition IoError (operation : string) (e : Errno) : Status :=
  let code := match e with
    | EACCES | EPERM | EROFS => kPermissionDenied
    | ENOSPC | EDQUOT => kResourceExhausted
    | ENOENT => kNotFound
    | _ => kUnavailable
    end in
  mkStatus code (operation +:+ " '" +:+ path +:+ "': " +:+ strerror e).

Record Attributes : Set := mkAttributes { st_size : Z; st_dev : Z; st_ino : Z; st_nlink : Z }.

Definition FileAttributes (a : StatAnswer) : Result Attributes :=
  match a with
  | StatErrno e => Err (IoError "cannot stat segment" e)
  | StatOk regular size device inode links =>
      fail_if negb regular || (size <? 0) with
        Corruption "segment is not a regular file with valid size" ;;
      Ok (mkAttributes size device inode links)
  end.

Definition FileSize (a : StatAnswer) : Result Z := let! attributes := FileAttributes a in Ok (st_size attributes).

Definition ValidateExpectedIdentity (a : StatAnswer) (o : SegmentRepairOptions) : Result unit :=
  let has_device := match expected_device o with Some _ => true | None => false end in
  let has_inode := match expected_inode o with Some _ => true | None => false end in
  fail_if (has_device || has_inode) && (negb has_device || negb has_inode) with
    Invalid "segment repair identity must include device and inode" ;;
  if negb (has_device || has_inode) && negb (require_single_link o) then Ok tt
  else
    let! attributes := FileAttributes a in
    fail_if match expected_device o, expected_inode o with
            | Some device, Some inode => negb (st_dev attributes =? device) || negb (st_ino attributes =? inode)
            | _, _ => false
            end with
      mkStatus kUnavailable "segment inode/device changed after non-destructive validation" ;;
    fail_if require_single_link o && negb (st_nlink attributes =? 1) with
      mkStatus kPermissionDenied "destructive standalone repair rejects hard-linked segments" ;;
    Ok tt.

(** ** Reading *)

Definition ReadM (A : Type) : Type := list PreadAnswer -> list PreadAnswer * Result A.
Definition ret {A} (a : A) : ReadM A := fun answers => (answers, Ok a).
Definition throw {A} (e : Status) : ReadM A := fun answers => (answers, Err e).
Definition bind {A C} (m : ReadM A) (k : A -> ReadM C) : ReadM C := fun answers =>
  match m answers with
  | (rest, Ok a) => k a rest
  | (rest, Err e) => (rest, Err e)
  end.
Notation "'read!' x ':=' m 'in' k" := (bind m (fun x => k))
  (at level 10, x name, m at level 100, k at level 200).
Notation "'return_if' c 'with' v ';;' k" := (if c then ret v else k)
  (at level 10, c at level 99, v at level 99, k at level 200).

Context (file : list byte).

(** [SegmentReader::ReadExact]: [None] for the end of the file before the range was filled.
    [done] are the bytes read so far. *)
Fixpoint read_exact (offset : Z) (size : nat) (done : list byte) (answers : list PreadAnswer)
  : list PreadAnswer * Result (option (list byte)) :=
  if (size <=? length done)%nat then (answers, Ok (Some done))
  else if u64_max - zlen done <? offset
  then (answers, Err (Corruption "segment read offset overflows uint64"))
  else if off_t_max <? offset + zlen done
  then (answers, Err (Corruption "segment offset does not fit off_t"))
  else
    let available := subspan file (Z.to_nat offset + length done) (size - length done) in
    match answers with
    | [] => ([], Ok (if (length available =? size - length done)%nat then Some (done ++ available) else None))
    | PreadErrno EINTR :: rest => read_exact offset size done rest
    | PreadErrno e :: rest => (rest, Err (IoError "cannot read segment" e))
    | PreadCount n :: rest =>
        let chunk := take (Nat.max n 1) available in
        if (length chunk =? 0)%nat then (rest, Ok None)
        else read_exact offset size (done ++ chunk) rest
    end.
Definition ReadExact (offset : Z) (size : nat) : ReadM (option (list byte)) := read_exact offset size [].

(** ** One record *)

Definition no_metadata (offset : Z) : SegmentRecordOffset := mkOffset offset 0 0 0 0 0 0 0 0 0 0 0 0.
Definition sized (m : SegmentRecordOffset) (size : Z) : SegmentRecordOffset :=
  mkOffset (record_offset m) (record_end_offset m) size (payload_offset m) (payload_size m) 0 0 0 0 0 0 0 0.
Definition ended (m : SegmentRecordOffset) (e : Z) : SegmentRecordOffset :=
  mkOffset (record_offset m) e (encoded_size m) (payload_offset m) (payload_size m) 0 0 0 0 0 0 0 0.
Definition with_payload_size (m : SegmentRecordOffset) (n : Z) : SegmentRecordOffset :=
  mkOffset (record_offset m) (record_end_offset m) (encoded_size m) (payload_offset m) n 0 0 0 0 0 0 0 0.
Definition with_payload_offset (m : SegmentRecordOffset) (n : Z) : SegmentRecordOffset :=
  mkOffset (record_offset m) (record_end_offset m) (encoded_size m) n (payload_size m) 0 0 0 0 0 0 0 0.
Definition with_fields (m : SegmentRecordOffset) (h : list byte) : SegmentRecordOffset :=
  mkOffset (record_offset m) (record_end_offset m) (encoded_size m) (payload_offset m) (payload_size m)
    (ReadLe16 h kRecordFlagsOffset) (ReadLe32 h kRecordSchemaRefOffset)
    (ReadLe32 h kRecordSchemaVersionOffset) (ReadLe32 h kRecordLayoutVersionOffset)
    (ReadLe64 h kRecordIngestionSequenceOffset) (ReadLe64 h kRecordIngestionTimestampOffset)
    (ReadLe64 h kRecordSourceSequenceOffset) (ReadLe64 h kRecordObservedTimestampOffset).

(** The state of the loop over the chunks of a record body. *)
Record BodyScan : Type := mkBody {
  record_crc : Crc32cAccumulator; payload_crc : Crc32cAccumulator; padding_is_zero : bool
}.

(** [first] and [last] delimit a part of the chunk that starts at [relative]. *)
Definition chunk_part (chunk : list byte) (relative first last : Z) : list byte :=
  subspan chunk (Z.to_nat (first - relative)) (Z.to_nat (last - first)).

Definition scan_chunk (relative payload_begin payload_end record_crc_size : Z) (chunk : list byte) (b : BodyScan)
  : BodyScan :=
  let chunk_end := relative + zlen chunk in
  let part_begin := Z.max relative payload_begin in
  let part_end := Z.min chunk_end payload_end in
  let padding_begin := Z.max relative payload_end in
  let padding_end := Z.min chunk_end record_crc_size in
  mkBody (Update (record_crc b) chunk)
    (if part_begin <? part_end then Update (payload_crc b) (chunk_part chunk relative part_begin part_end)
     else payload_crc b)
    (if padding_begin <? padding_end
     then padding_is_zero b && all_zero (chunk_part chunk relative padding_begin padding_end)
     else padding_is_zero b).

(** [None] when the body ends at the end of the file. *)
Fixpoint scan_body (fuel : nat) (offset relative payload_begin payload_end record_crc_size : Z) (b : BodyScan)
  : ReadM (option BodyScan) :=
  match fuel with
  | O => ret (Some b)
  | S fuel' =>
      if record_crc_size <=? relative then ret (Some b)
      else
        let chunk_size := Z.min (record_crc_size - relative) kIoBufferSize in
        read! chunk := ReadExact (offset + relative) (Z.to_nat chunk_size) in
        match chunk with
        | None => ret None
        | Some chunk =>
            scan_body fuel' offset (relative + chunk_size) payload_begin payload_end record_crc_size
              (scan_chunk relative payload_begin payload_end record_crc_size chunk b)
        end
  end.

(** The checks against the segment and the record before. *)
Definition check_context (c : RecordCheck) (h : list byte) (segment : SegmentHeader) (o : SegmentRecoveryOptions)
    (previous_sequence : option Z) (require_first_sequence : bool) : RecordCheck :=
  let sequence := meta_sequence (metadata c) in
  if negb (ReadLe32 h kRecordTopicIdOffset =? segment_topic_id segment)
     || negb (ReadLe32 h kRecordPartitionIdOffset =? segment_partition_id segment)
  then Failure c kTopicPartitionMismatch "record topic or partition does not match segment"
  else
    let does_not_follow := match previous_sequence with
                           | Some p => (p =? u64_max) || negb (sequence =? p + 1)
                           | None => false
                           end in
    if (require_first_sequence && negb (sequence =? first_ingestion_sequence segment)) || does_not_follow
    then Failure c kIngestionSequenceMismatch "record ingestion_sequence is not contiguous"
    else
      let schema_less_gap := negb (Z.land (meta_flags (metadata c)) kRecordFlagGap =? 0)
                             && (meta_schema_ref (metadata c) =? 0) in
      if negb schema_less_gap && negb (SchemaRefKnown (meta_schema_ref (metadata c)) o)
      then Failure c kUnknownSchemaRef "record references an unknown session schema_ref"
      else mkCheck true (has_complete_commit_marker c) (check_reason c) (detail c) (metadata c).

(** Header, payload size, trailer and body of an envelope of [size] bytes that lies in the file. *)
Definition check_envelope (offset record_length size : Z) (h_area trailer : list byte) (marker : bool)
    (segment : SegmentHeader) (o : SegmentRecoveryOptions) (validate_context : bool)
    (previous_sequence : option Z) (require_first_sequence : bool) (m : SegmentRecordOffset) : ReadM RecordCheck :=
  let h := drop (Z.to_nat kRecordHeaderLengthFieldSize) h_area in
  let c := mkCheck false marker kNone "" m in
  return_if negb (ReadLe32 h_area 0 =? kEncodedRecordHeaderSize) with
    Failure c kHeaderLengthMismatch "noncanonical record header_length" ;;
  return_if negb (ReadLe32 h kRecordMagicOffset =? kRecordHeaderMagic)
            || negb (ReadLe16 h kRecordVersionOffset =? kRecordFormatVersion)
            || reserved_bits (ReadLe16 h kRecordFlagsOffset) kKnownRecordFlags
            || negb (ReadLe32 h kRecordReservedOffset =? 0) with
    Failure c kRecordHeaderCorruption
      "record header magic, version, flags, or reserved field is invalid" ;;
  let header_crc := Update new_accumulator (take kRecordHeaderCrcOffset h) in
  let header_crc := Update header_crc (drop (kRecordHeaderCrcOffset + 4) h) in
  return_if negb (ReadLe32 h kRecordHeaderCrcOffset =? Finish header_crc) with
    Failure c kHeaderCrcMismatch "record header CRC32C mismatch" ;;
  let psize := ReadLe32 h kRecordPayloadSizeOffset in
  let c := mkCheck false marker kNone "" (with_payload_size m psize) in
  return_if max_payload_size (format_limits o) <? psize with
    Failure c kPayloadSizeMismatch "payload_size exceeds max_payload_size" ;;
  return_if negb (envelope_size psize + PaddingSize psize =? size) with
    Failure c kPayloadSizeMismatch "payload_size does not match record_length" ;;
  return_if negb (ReadLe64 trailer kTrailerRecordLengthOffset =? record_length) with
    Failure c kTrailingLengthMismatch "leading and trailing record_length mismatch" ;;
  let sequence := ReadLe64 h kRecordIngestionSequenceOffset in
  return_if negb (ReadLe64 trailer kTrailerIngestionSequenceOffset =? sequence) with
    Failure c kTrailerSequenceMismatch "trailer ingestion_sequence mismatch" ;;
  return_if negb marker with Failure c kCommitMarkerMismatch "record commit marker mismatch" ;;
  let payload_begin := Z.of_nat kRecordHeaderOffset + kEncodedRecordHeaderSize in
  let payload_end := payload_begin + psize in
  let record_crc_size := size - kRecordTrailerSize in
  let c := mkCheck false marker kNone "" (with_payload_offset (metadata c) (offset + payload_begin)) in
  read! body := scan_body (Z.to_nat record_crc_size) offset 0 payload_begin payload_end record_crc_size
                  (mkBody new_accumulator new_accumulator true) in
  match body with
  | None => ret (Failure c kIncompleteRecord "record body ended at EOF")
  | Some body =>
      return_if negb (padding_is_zero body) with
        Failure c kPaddingCorruption "record alignment padding is non-zero" ;;
      return_if negb (ReadLe32 h kRecordPayloadCrcOffset =? Finish (payload_crc body)) with
        Failure c kPayloadCrcMismatch "record payload CRC32C mismatch" ;;
      return_if negb (ReadLe32 trailer kTrailerRecordCrcOffset =? Finish (record_crc body)) with
        Failure c kRecordCrcMismatch "record envelope CRC32C mismatch" ;;
      let c := mkCheck false marker kNone "" (with_fields (metadata c) h) in
      ret (if validate_context then check_context c h segment o previous_sequence require_first_sequence
           else mkCheck true marker kNone "" (metadata c))
  end.


Definition ValidateRecord (fsize offset : Z) (segment : SegmentHeader) (o : SegmentRecoveryOptions)
    (validate_context : bool) (previous_sequence : option Z) (require_first_sequence : bool) : ReadM RecordCheck :=
  let check := mkCheck false false kNone "" (no_metadata offset) in
  return_if (fsize <? offset) || (fsize - offset <? kRecordLengthFieldSize) with
    Failure check kIncompleteLeadingLength "record leading length is incomplete" ;;
  read! leading := ReadExact offset (Z.to_nat kRecordLengthFieldSize) in
  match leading with
  | None => ret (Failure check kIncompleteLeadingLength "record leading length ended at EOF")
  | Some leading =>
      let record_length := ReadLe64 leading 0 in
      return_if u64_max - kRecordLengthFieldSize <? record_length with
        Failure check kRecordLengthOverflow "record_length overflows uint64" ;;
      let size := record_length + kRecordLengthFieldSize in
      let check := mkCheck false false kNone "" (sized (no_metadata offset) size) in
      return_if fsize - offset <? size with
        Failure check kIncompleteRecord "record envelope extends past EOF" ;;
      let m := ended (metadata check) (offset + size) in
      if (size <? kMinimumEncodedRecordSize) || (max_encoded_record_size (format_limits o) <? size)
      then
        read! marker := if 8 <=? size then ReadExact (offset + size - 8) 8 else ret None in
        let complete := match marker with
                        | Some marker => ReadLe64 marker 0 =? kRecordCommitMarker
                        | None => false
                        end in
        let check := mkCheck false complete kNone "" m in
        ret (if size <? kMinimumEncodedRecordSize
             then Failure check kRecordTooSmall "record envelope is smaller than the v1 minimum"
             else Failure check kRecordTooLarge "record envelope exceeds max_encoded_record_size")
      else
        let check := mkCheck false false kNone "" m in
        read! h_area := ReadExact (offset + kRecordLengthFieldSize)
                          (Z.to_nat (kRecordHeaderLengthFieldSize + kEncodedRecordHeaderSize)) in
        match h_area with
        | None => ret (Failure check kIncompleteRecord "record header ended at EOF")
        | Some h_area =>
            read! trailer := ReadExact (offset + size - kRecordTrailerSize) (Z.to_nat kRecordTrailerSize) in
            match trailer with
            | None => ret (Failure check kIncompleteRecord "record trailer ended at EOF")
            | Some trailer =>
                let marker := ReadLe64 trailer kTrailerCommitMarkerOffset =? kRecordCommitMarker in
                check_envelope offset record_length size h_area trailer marker segment o
                  validate_context previous_sequence require_first_sequence m
            end
        end
  end.

(** The loop over the aligned offsets after the damage. *)
Fixpoint later_record (fuel : nat) (fsize candidate last_candidate : Z) (segment : SegmentHeader)
    (o : SegmentRecoveryOptions) : ReadM bool :=
  match fuel with
  | O => ret false
  | S fuel' =>
      if last_candidate <? candidate then ret false
      else
        read! checked := ValidateRecord fsize candidate segment o false None false in
        return_if valid checked with true ;;
        return_if u64_max - kRecordAlignment <? candidate with false ;;
        later_record fuel' fsize (candidate + kRecordAlignment) last_candidate segment o
  end.

Definition HasLaterCommittedRecord (fsize damage : Z) (segment : SegmentHeader) (o : SegmentRecoveryOptions)
  : ReadM bool :=
  return_if (fsize <? kMinimumEncodedRecordSize) || (u64_max - kRecordAlignment <? damage) with false ;;
  later_record (Z.to_nat fsize) fsize (damage + kRecordAlignment) (fsize - kMinimumEncodedRecordSize) segment o.

(** ** The scan *)

Definition no_header : SegmentHeader := mkSegmentHeader 0 0 0 0 0 0 0.

Definition start_report (attributes : Attributes) : SegmentRecoveryReport :=
  mkReport no_header (st_size attributes) (st_dev attributes) (st_ino attributes)
    kEncodedSegmentHeaderSize false false true 0 kEncodedSegmentHeaderSize 0 None kClean kNone 0 0 "" false [].

Definition damaged_header (r : SegmentRecoveryReport) (why : SegmentRecoveryReason) (text : string)
  : SegmentRecoveryReport :=
  mkReport (report_header r) (file_size r) (file_device r) (file_inode r) (scan_start_offset r)
    (checkpoint_used r) (checkpoint_fell_back r) (metadata_is_complete r) (records_scanned r) 0
    (last_complete_record_offset r) (last_complete_sequence r) kDamaged why 0 (truncated_bytes r) text
    (repaired r) (records r).

Definition with_header (r : SegmentRecoveryReport) (h : SegmentHeader) : SegmentRecoveryReport :=
  mkReport h (file_size r) (file_device r) (file_inode r) (scan_start_offset r) (checkpoint_used r)
    (checkpoint_fell_back r) (metadata_is_complete r) (records_scanned r) (last_complete_offset r)
    (last_complete_record_offset r) (last_complete_sequence r) (disposition r) (reason r) (damage_offset r)
    (truncated_bytes r) (reason_detail r) (repaired r) (records r).

(** The fields [ApplyCheckpoint] and the fallback assign. *)
Definition start_at (r : SegmentRecoveryReport) (used fell_back complete : bool) (start record : Z) (last : option Z)
  : SegmentRecoveryReport :=
  mkReport (report_header r) (file_size r) (file_device r) (file_inode r) start used fell_back complete
    (records_scanned r) start record last (disposition r) (reason r) (damage_offset r)
    (truncated_bytes r) (reason_detail r) (repaired r) (records r).

Definition SetFinding (r : SegmentRecoveryReport) (check : RecordCheck) (committed_or_interior : bool)
  : SegmentRecoveryReport :=
  mkReport (report_header r) (file_size r) (file_device r) (file_inode r) (scan_start_offset r)
    (checkpoint_used r) (checkpoint_fell_back r) (metadata_is_complete r) (records_scanned r)
    (last_complete_offset r) (last_complete_record_offset r) (last_complete_sequence r)
    (if committed_or_interior then kDamaged else kIncompleteTail) (check_reason check)
    (record_offset (metadata check))
    (if committed_or_interior then 0 else file_size r - last_complete_offset r)
    (detail check) (repaired r) (records r).

Definition add_record (r : SegmentRecoveryReport) (offset : Z) (m : SegmentRecordOffset) : SegmentRecoveryReport :=
  mkReport (report_header r) (file_size r) (file_device r) (file_inode r) (scan_start_offset r)
    (checkpoint_used r) (checkpoint_fell_back r) (metadata_is_complete r) (records_scanned r + 1)
    (record_end_offset m) offset (Some (meta_sequence m)) (disposition r) (reason r) (damage_offset r)
    (truncated_bytes r) (reason_detail r) (repaired r) (records r ++ [m]).

Definition clean_report (r : SegmentRecoveryReport) : SegmentRecoveryReport :=
  mkReport (report_header r) (file_size r) (file_device r) (file_inode r) (scan_start_offset r)
    (checkpoint_used r) (checkpoint_fell_back r) (metadata_is_complete r) (records_scanned r)
    (last_complete_offset r) (last_complete_record_offset r) (last_complete_sequence r) kClean kNone
    (file_size r) 0 (reason_detail r) (repaired r) (records r).

(** [None] for the answer [false], which leaves the report as it was. *)
Definition ApplyCheckpoint (o : SegmentRecoveryOptions) (r : SegmentRecoveryReport)
  : ReadM (option SegmentRecoveryReport) :=
  match checkpoint o with
  | None => ret None
  | Some (mkCheckpoint at_offset at_sequence) =>
      if at_offset =? kEncodedSegmentHeaderSize then
        match at_sequence with
        | Some _ => ret None
        | None => ret (Some (start_at r true (checkpoint_fell_back r) true (scan_start_offset r)
                               (last_complete_record_offset r) (last_complete_sequence r)))
        end
      else
        match at_sequence with
        | None => ret None
        | Some sequence =>
            return_if (file_size r <? at_offset)
                      || (at_offset <? kEncodedSegmentHeaderSize + kMinimumEncodedRecordSize) with None ;;
            read! trailing := ReadExact (at_offset - kRecordTrailerSize) (Z.to_nat kRecordLengthFieldSize) in
            match trailing with
            | None => ret None
            | Some trailing =>
                let record_length := ReadLe64 trailing 0 in
                return_if u64_max - kRecordLengthFieldSize <? record_length with None ;;
                let size := record_length + kRecordLengthFieldSize in
                return_if at_offset - kEncodedSegmentHeaderSize <? size with None ;;
                let offset := at_offset - size in
                return_if negb ((offset - kEncodedSegmentHeaderSize) mod kRecordAlignment =? 0) with None ;;
                read! checked := ValidateRecord (file_size r) offset (report_header r) o true None false in
                return_if negb (valid checked) || negb (record_end_offset (metadata checked) =? at_offset)
                          || negb (meta_sequence (metadata checked) =? sequence) with None ;;
                ret (Some (start_at r true (checkpoint_fell_back r) false at_offset offset (Some sequence)))
            end
        end
  end.

Definition interior_text : string := "; a later fully committed record makes this interior corruption".

Fixpoint scan_records (fuel : nat) (offset : Z) (previous_sequence : option Z) (o : SegmentRecoveryOptions)
    (r : SegmentRecoveryReport) : ReadM SegmentRecoveryReport :=
  match fuel with
  | O => ret (clean_report r)
  | S fuel' =>
      if file_size r <=? offset then ret (clean_report r)
      else
        let require_first_sequence :=
          match previous_sequence with None => offset =? kEncodedSegmentHeaderSize | Some _ => false end in
        read! checked := ValidateRecord (file_size r) offset (report_header r) o true previous_sequence
                           require_first_sequence in
        if negb (valid checked) then
          if has_complete_commit_marker checked then ret (SetFinding r checked true)
          else
            read! later := HasLaterCommittedRecord (file_size r) offset (report_header r) o in
            let checked :=
              if later then Failure checked (check_reason checked) (detail checked +:+ interior_text) else checked in
            ret (SetFinding r checked later)
        else
          let m := metadata checked in
          scan_records fuel' (record_end_offset m) (Some (meta_sequence m)) o (add_record r offset m)
  end.

(** From the checkpoint on; a checkpoint that does not hold starts at the first record. *)
Definition scan_after_header (o : SegmentRecoveryOptions) (r : SegmentRecoveryReport) : ReadM SegmentRecoveryReport :=
  read! applied := ApplyCheckpoint o r in
  let r := match applied, checkpoint o with
           | Some r, _ => r
           | None, Some _ => start_at r false true true kEncodedSegmentHeaderSize 0 None
           | None, None => r
           end in
  scan_records (Z.to_nat (file_size r)) (scan_start_offset r) (last_complete_sequence r) o r.

Definition ScanFd (stat : StatAnswer) (o : SegmentRecoveryOptions) : ReadM SegmentRecoveryReport :=
  match EncodedRecordSize 0 (format_limits o) with
  | Err e => throw e
  | Ok _ =>
      match FileAttributes stat with
      | Err e => throw e
      | Ok attributes =>
          let r := start_report attributes in
          return_if file_size r <? kEncodedSegmentHeaderSize with
            damaged_header r kIncompleteSegmentHeader "segment header is truncated" ;;
          read! encoded_header := ReadExact 0 (Z.to_nat kEncodedSegmentHeaderSize) in
          match encoded_header with
          | None => ret (damaged_header r kIncompleteSegmentHeader "segment header ended at EOF")
          | Some encoded_header =>
              match DecodeSegmentHeader encoded_header with
              | Err e => ret (damaged_header r kSegmentHeaderCorruption (ToString e))
              | Ok h =>
                  scan_after_header o (with_header r h)
              end
          end
      end
  end.

(** ** Repair *)

(** A call repeated while it is interrupted; [None] when it succeeds in the end. *)
Fixpoint retry_interrupted (answers : list Errno) : option Errno :=
  match answers with
  | [] => None
  | EINTR :: rest => retry_interrupted rest
  | e :: _ => Some e
  end.

(** The file after the call and its result. *)
Definition TruncateAndSync (truncates syncs : list Errno) (size : Z) (o : SegmentRepairOptions)
  : list byte * Result unit :=
  if off_t_max <? size then (file, Err (Invalid "truncate size does not fit off_t"))
  else
    match retry_interrupted truncates with
    | Some e => (file, Err (IoError "cannot truncate segment" e))
    | None =>
        let file' := take (Z.to_nat size) file in
        match retry_interrupted syncs with
        | Some e => (file', Err (IoError (if sync_full o then "cannot fsync repaired segment"
                                          else "cannot fdatasync repaired segment") e))
        | None => (file', Ok tt)
        end
    end.

(** The answers of the system calls of one [RepairSegment] or [TruncateSegment]. *)
Record RepairAnswers : Set := mkAnswers {
  opened : option Errno; identity_before : StatAnswer; scan_stat : StatAnswer;
  preads : list PreadAnswer; size_stat : StatAnswer;
  truncates : list Errno; syncs : list Errno; identity_after : StatAnswer
}.

Definition OpenSegment (opened : option Errno) : Result unit :=
  fail_if bool_decide (path = "") with Invalid "segment path is empty" ;;
  match opened with Some e => Err (IoError "cannot open segment" e) | None => Ok tt end.

Definition ScanSegment (opened : option Errno) (stat : StatAnswer) (preads : list PreadAnswer)
    (o : SegmentRecoveryOptions) : Result SegmentRecoveryReport :=
  let! _ := OpenSegment opened in
  snd (ScanFd stat o preads).

Definition TruncateSegment (a : RepairAnswers) (size : Z) (o : SegmentRepairOptions) : list byte * Result unit :=
  match
    (fail_if size <? kEncodedSegmentHeaderSize with Invalid "truncate size would remove the Segment Header" ;;
     check! OpenSegment (opened a) ;;
     check! ValidateExpectedIdentity (identity_before a) o ;;
     let! current := FileSize (size_stat a) in
     fail_if current <? size with Invalid "truncate size cannot extend a segment" ;;
     Ok tt)
  with
  | Err e => (file, Err e)
  | Ok _ =>
      let '(file', done) := TruncateAndSync (truncates a) (syncs a) size o in
      (file', let! _ := done in ValidateExpectedIdentity (identity_after a) o)
  end.

Definition set_repaired (r : SegmentRecoveryReport) : SegmentRecoveryReport :=
  mkReport (report_header r) (file_size r) (file_device r) (file_inode r) (scan_start_offset r)
    (checkpoint_used r) (checkpoint_fell_back r) (metadata_is_complete r) (records_scanned r)
    (last_complete_offset r) (last_complete_record_offset r) (last_complete_sequence r) (disposition r)
    (reason r) (damage_offset r) (truncated_bytes r) (reason_detail r) true (records r).

Definition RepairSegment (a : RepairAnswers) (o : SegmentRecoveryOptions) (ro : SegmentRepairOptions)
  : list byte * Result SegmentRecoveryReport :=
  match
    (check! OpenSegment (opened a) ;;
     check! ValidateExpectedIdentity (identity_before a) ro ;;
     snd (ScanFd (scan_stat a) o (preads a)))
  with
  | Err e => (file, Err e)
  | Ok scanned =>
      match disposition scanned with
      | kDamaged => (file, Err (Corruption (reason_detail scanned)))
      | kClean => (file, let! _ := ValidateExpectedIdentity (identity_after a) ro in Ok scanned)
      | kIncompleteTail =>
          match FileSize (size_stat a) with
          | Err e => (file, Err e)
          | Ok current =>
              if negb (current =? file_size scanned)
              then (file, Err (mkStatus kUnavailable "segment size changed between recovery scan and repair"))
              else
                let '(file', done) := TruncateAndSync (truncates a) (syncs a) (last_complete_offset scanned) ro in
                (file', let! _ := done in
                        let! _ := ValidateExpectedIdentity (identity_after a) ro in
                        Ok (set_repaired scanned))
          end
      end
  end.
End Recovery.

Notation "'read!' x ':=' m 'in' k" := (bind m (fun x => k))
  (at level 10, x name, m at level 100, k at level 200).
