(* ===== verification/SegmentScan.v ===== *)
(** * Correctness of segment recovery

    What [SegmentRecovery] decides about a file: the streaming check of a record accepts
    exactly what the in-memory decoder accepts, a scan finds the longest run of contiguous
    complete records, short reads and interruptions change nothing, and a repair removes
    only bytes after that run.

    [reads m x] says that a computation that reads the file gives [x] whatever the answers
    of [pread] are, unless one of them is an error.  It composes over [bind], so the rest of
    the file argues about the results only. *)
From S2P Require Import Prelude Bytes Crc32c LittleEndian SegmentFormat SegmentRecovery.

(** An answer that only delays the read. *)
Definition fine (a : PreadAnswer) : Prop :=
  match a with PreadErrno EINTR | PreadCount _ => True | PreadErrno _ => False end.

Section Reads.
Context (strerror : Errno -> string) (path : string).

Definition reads {A} (m : ReadM A) (x : Result A) : Prop := forall answers, exists rest,
  (m answers = (rest, x) /\ (Forall fine answers -> Forall fine rest)) \/
  (exists e, m answers = (rest, Err (IoError strerror path "cannot read segment" e)) /\ ~ Forall fine answers).

Lemma reads_ret {A} (a : A) : reads (ret a) (Ok a).
Proof. intros answers. exists answers. left. done. Qed.

Lemma reads_bind {A C} (m : ReadM A) (k : A -> ReadM C) a x :
  reads m (Ok a) -> reads (k a) x -> reads (bind m k) x.
Proof.
  intros Hm Hk answers. unfold bind. destruct (Hm answers) as [rest [[-> Hf]|(e & -> & Hn)]].
  - destruct (Hk rest) as [rest' [[-> Hf']|(e & -> & Hn)]]; exists rest'; [left; auto | right].
    exists e. split; [done|]. tauto.
  - exists rest. right. by exists e.
Qed.

(** With answers that only delay, the result is the one with full reads. *)
Lemma reads_fine {A} (m : ReadM A) x answers : reads m x -> Forall fine answers -> snd (m answers) = x.
Proof. intros H Hf. by destruct (H answers) as [rest [[-> _]|(e & _ & [])]]. Qed.

Lemma reads_result {A} (m : ReadM A) x answers : reads m x ->
  snd (m answers) = x \/ exists e, snd (m answers) = Err (IoError strerror path "cannot read segment" e).
Proof. intros H. destruct (H answers) as [rest [[-> _]|(e & -> & _)]]; eauto. Qed.

(** The loop of [ReadExact] in a range of the file, after [k] bytes. *)
Lemma read_exact_range file offset size answers : forall k,
  0 <= offset -> Z.of_nat size + offset <= zlen file -> zlen file <= off_t_max -> (k <= size)%nat ->
  exists rest, let m := read_exact strerror path file offset size (subspan file (Z.to_nat offset) k) answers in
    (m = (rest, Ok (Some (subspan file (Z.to_nat offset) size))) /\ (Forall fine answers -> Forall fine rest)) \/
    (exists e, m = (rest, Err (IoError strerror path "cannot read segment" e)) /\ ~ Forall fine answers).
Proof.
  induction answers as [|a answers IH]; intros k H0 Hs Hf Hk; cbv zeta.
  all: assert (length (subspan file (Z.to_nat offset) k) = k) as Hl by (apply subspan_length; ulia).
  all: unfold read_exact; fold (read_exact strerror path file); unfold zlen at 1 2; rewrite Hl.
  all: destruct (size <=? k)%nat eqn:E; [apply Nat.leb_le in E; replace k with size by lia; eexists; left; done|].
  all: apply Nat.leb_gt in E; unfold off_t_max in *.
  all: rewrite !(proj2 (Z.ltb_ge _ _)) by ulia.
  all: assert (length (subspan file (Z.to_nat offset + k) (size - k)) = (size - k)%nat) as Ha by (apply subspan_length; ulia).
  - rewrite Ha, Nat.eqb_refl. exists []. left. split; [|done]. do 3 f_equal.
    rewrite <- subspan_split. f_equal. lia.
  - specialize (fun k Hk => IH k H0 Hs Hf Hk). destruct a as [e|n].
    + destruct e; try (eexists; right; eexists; split; [reflexivity|]; by intros [[] _]%list.Forall_cons).
      destruct (IH k Hk) as [rest [[-> H]|(e & -> & H)]]; exists rest; [left | right; exists e]; (split; [done|]);
        rewrite list.Forall_cons; tauto.
    + assert (take (Nat.max n 1) (subspan file (Z.to_nat offset + k) (size - k))
        = subspan file (Z.to_nat offset + k) (Nat.min (Nat.max n 1) (size - k))) as ->.
      { unfold subspan. by rewrite take_take. }
      rewrite subspan_length by ulia. rewrite (proj2 (Nat.eqb_neq _ _)) by lia. rewrite <- subspan_split.
      destruct (IH (k + Nat.min (Nat.max n 1) (size - k))%nat) as [rest [[-> H]|(e & -> & H)]]; [lia| |];
        exists rest; [left | right; exists e]; (split; [done|]); rewrite list.Forall_cons; cbn [fine]; tauto.
Qed.

Lemma reads_ReadExact file offset size : 0 <= offset -> Z.of_nat size + offset <= zlen file -> zlen file <= off_t_max ->
  reads (ReadExact strerror path file offset size) (Ok (Some (subspan file (Z.to_nat offset) size))).
Proof.
  intros H0 Hs Hf answers.
  destruct (read_exact_range file offset size answers 0%nat H0 Hs Hf) as [rest H]; [lia|]. by exists rest.
Qed.
End Reads.

Section Scan.
Context {B : Crc32cBackend} {BL : Crc32cLaws B} (strerror : Errno -> string) (path : string) (file : list byte).
Abbreviation reads := (reads strerror path).

(** ** The chunks of a body *)

Lemma all_zero_app a b : all_zero (a ++ b) = all_zero a && all_zero b.
Proof. unfold all_zero. apply forallb_app. Qed.

(** What the loop has computed before [relative]; [b] is the envelope from its first byte on. *)
Definition body_upto (b : list byte) (payload_begin payload_end relative : Z) : BodyScan :=
  let part first last := subspan b (Z.to_nat first) (Z.to_nat (last - first)) in
  mkBody (acc_of (take (Z.to_nat relative) b))
    (acc_of (part payload_begin (Z.min relative payload_end)))
    (all_zero (part payload_end relative)).

(** A part of the envelope, and the next part. *)
Lemma part_split (b : list byte) first mid last : 0 <= first <= mid -> mid <= last ->
  subspan b (Z.to_nat first) (Z.to_nat (last - first))
  = subspan b (Z.to_nat first) (Z.to_nat (mid - first)) ++ subspan b (Z.to_nat mid) (Z.to_nat (last - mid)).
Proof.
  intros H1 H2. replace (Z.to_nat (last - first)) with (Z.to_nat (mid - first) + Z.to_nat (last - mid))%nat by lia.
  rewrite subspan_split. do 2 f_equal. lia.
Qed.

(** The chunk of [n] bytes at [relative]. *)
Lemma scan_chunk_upto b payload_begin payload_end limit relative n :
  0 <= relative -> 0 < n -> relative + n <= limit -> limit <= zlen b -> 0 <= payload_begin <= payload_end ->
  scan_chunk relative payload_begin payload_end limit (subspan b (Z.to_nat relative) (Z.to_nat n))
    (body_upto b payload_begin payload_end relative)
  = body_upto b payload_begin payload_end (relative + n).
Proof.
  intros H0 Hn Hr Hl Hp. unfold scan_chunk, body_upto. cbv zeta.
  assert (zlen (subspan b (Z.to_nat relative) (Z.to_nat n)) = n) as ->.
  { unfold zlen. rewrite subspan_length; ulia. }
  cbn [record_crc payload_crc padding_is_zero].
  assert (forall first last, relative <= first -> first <= last -> last <= relative + n ->
    chunk_part (subspan b (Z.to_nat relative) (Z.to_nat n)) relative first last
    = subspan b (Z.to_nat first) (Z.to_nat (last - first))) as Hpart.
  { intros first last H1 H2 H3. unfold chunk_part. rewrite subspan_subspan by lia. f_equal. lia. }
  f_equal.
  - rewrite Update_acc. change (take (Z.to_nat relative) b) with (subspan b (Z.to_nat 0) (Z.to_nat relative)).
    change (take (Z.to_nat (relative + n)) b) with (subspan b (Z.to_nat 0) (Z.to_nat (relative + n))).
    f_equal. pose proof (part_split b 0 relative (relative + n)) as E. rewrite !Z.sub_0_r in E. rewrite E by lia.
    do 2 f_equal. lia.
  - destruct (Z.ltb_spec (Z.max relative payload_begin) (Z.min (relative + n) payload_end)) as [L|L].
    + rewrite Hpart by lia. rewrite Update_acc. f_equal. destruct (Z.le_gt_cases payload_begin relative).
      * rewrite (part_split b payload_begin relative (Z.min (relative + n) payload_end)) by lia.
        f_equal; f_equal; lia.
      * replace (Z.to_nat (Z.min relative payload_end - payload_begin)) with 0%nat by lia.
        replace (Z.max relative payload_begin) with payload_begin by lia. done.
    + f_equal. f_equal. lia.
  - destruct (Z.ltb_spec (Z.max relative payload_end) (Z.min (relative + n) limit)) as [L|L].
    + rewrite Hpart, <- all_zero_app by lia. f_equal. replace (Z.min (relative + n) limit) with (relative + n) by lia.
      destruct (Z.le_gt_cases payload_end relative).
      * rewrite (part_split b payload_end relative (relative + n)) by lia. f_equal. f_equal; lia.
      * replace (Z.to_nat (relative - payload_end)) with 0%nat by lia.
        replace (Z.max relative payload_end) with payload_end by lia. done.
    + f_equal. f_equal. lia.
Qed.

Lemma body_upto_0 b payload_begin payload_end : 0 <= payload_begin -> 0 <= payload_end ->
  body_upto b payload_begin payload_end 0 = mkBody new_accumulator new_accumulator true.
Proof.
  intros H1 H2. unfold body_upto. rewrite new_accumulator_acc.
  replace (Z.to_nat (Z.min 0 payload_end - payload_begin)) with 0%nat by lia.
  by replace (Z.to_nat (0 - payload_end)) with 0%nat by lia.
Qed.

Lemma subspan_drop (l : list byte) i off n : subspan (drop i l) off n = subspan l (i + off) n.
Proof. unfold subspan. by rewrite drop_drop. Qed.

Lemma scan_body_reads fuel offset payload_begin payload_end limit : forall relative,
  zlen file <= off_t_max -> 0 <= offset -> 0 <= relative <= limit -> offset + limit <= zlen file ->
  0 <= payload_begin <= payload_end -> limit - relative <= Z.of_nat fuel ->
  let b := drop (Z.to_nat offset) file in
  reads (scan_body strerror path file fuel offset relative payload_begin payload_end limit
           (body_upto b payload_begin payload_end relative))
    (Ok (Some (body_upto b payload_begin payload_end limit))).
Proof.
  induction fuel as [|fuel IH]; intros relative Hf Ho Hr Hl Hp Hfuel; cbv zeta; cbn [scan_body].
  { replace relative with limit by lia. apply reads_ret. }
  destruct (Z.leb_spec limit relative); [replace relative with limit by lia; apply reads_ret|].
  unfold kIoBufferSize. set (n := Z.min (limit - relative) 65536).
  eapply reads_bind; [apply reads_ReadExact; ulia|]. cbv beta iota.
  assert (subspan file (Z.to_nat (offset + relative)) (Z.to_nat n)
    = subspan (drop (Z.to_nat offset) file) (Z.to_nat relative) (Z.to_nat n)) as ->.
  { rewrite subspan_drop. f_equal. lia. }
  rewrite scan_chunk_upto by (unfold zlen in *; rewrite ?length_drop; lia). apply IH; lia.
Qed.

(** ** The envelope *)

(** The conditions of the decoder on an envelope whose leading length is its size. *)
Record decodes (b : list byte) (limits : SegmentFormatLimits) : Prop := {
  de_length : ReadLe32 b kRecordHeaderLengthOffset = kEncodedRecordHeaderSize;
  de_h := subspan b 12 100;
  de_trailer := subspan b (length b - 28) 28;
  de_magic : ReadLe32 de_h kRecordMagicOffset = kRecordHeaderMagic;
  de_version : ReadLe16 de_h kRecordVersionOffset = kRecordFormatVersion;
  de_flags : reserved_bits (ReadLe16 de_h kRecordFlagsOffset) kKnownRecordFlags = false;
  de_reserved : ReadLe32 de_h kRecordReservedOffset = 0;
  de_header_crc : ReadLe32 de_h kRecordHeaderCrcOffset = RecordHeaderCrc de_h;
  de_size := ReadLe32 de_h kRecordPayloadSizeOffset;
  de_max : de_size <= max_payload_size limits;
  de_canonical : envelope_size de_size + PaddingSize de_size = zlen b;
  de_trailing : ReadLe64 de_trailer kTrailerRecordLengthOffset = ReadLe64 b 0;
  de_sequence : ReadLe64 de_trailer kTrailerIngestionSequenceOffset = ReadLe64 de_h kRecordIngestionSequenceOffset;
  de_marker : ReadLe64 de_trailer kTrailerCommitMarkerOffset = kRecordCommitMarker;
  de_padding : all_zero (subspan b (112 + Z.to_nat de_size) (length b - 28 - (112 + Z.to_nat de_size))) = true;
  de_payload_crc : ReadLe32 de_h kRecordPayloadCrcOffset = Crc32c (subspan b 112 (Z.to_nat de_size));
  de_record_crc : ReadLe32 de_trailer kTrailerRecordCrcOffset = Crc32c (take (length b - 28) b)
}.

Definition decoded (b : list byte) : SegmentRecord :=
  let h := subspan b 12 100 in
  mkRecord (read_record_header h) (subspan b 112 (Z.to_nat (ReadLe32 h kRecordPayloadSizeOffset))).

Lemma trailer_read n b k : (28 <= length b)%nat -> (k + n <= 28)%nat ->
  read_le n (subspan b (length b - 28) 28) k = read_le n b (length b - 28 + k).
Proof. intros H1 H2. apply read_le_subspan; lia. Qed.

Lemma DecodeRecord_iff b limits r :
  144 <= zlen b <= max_encoded_record_size limits -> zlen b <= u64_max -> ReadLe64 b 0 = zlen b - 8 ->
  DecodeRecord b limits = Ok r <-> decodes b limits /\ r = decoded b.
Proof.
  intros Hb Hu Hlen. unfold DecodeRecord, ValidateLimits, decoded. cbv zeta. rewrite Hlen.
  change (Z.to_nat kEncodedRecordHeaderSize) with 100%nat. change (Z.to_nat kRecordTrailerSize) with 28%nat.
  unfold kRecordHeaderOffset, kRecordLengthFieldSize. change (12 + 100)%nat with 112%nat.
  rewrite (proj2 (Z.ltb_ge _ kMinimumEncodedRecordSize)) by (unfold kMinimumEncodedRecordSize; lia). cbn [bindR].
  do 3 (pass_guard || (rewrite fail_if_false by (apply Z.ltb_ge; unfold kMinimumEncodedRecordSize; ulia))).
  rewrite Z.sub_add, Z.eqb_refl. cbn [negb].
  assert (forall k, (k + 8 <= 28)%nat -> ReadLe64 b (length b - 28 + k) = ReadLe64 (subspan b (length b - 28) 28) k) as T8.
  { intros k Hk. symmetry. apply trailer_read; ulia. }
  assert (forall k, (k + 4 <= 28)%nat -> ReadLe32 b (length b - 28 + k) = ReadLe32 (subspan b (length b - 28) 28) k) as T4.
  { intros k Hk. symmetry. apply trailer_read; ulia. }
  rewrite !T8, !T4 by (offsets; lia). clear T8 T4.
  split.
  - intros H. pass_guards H. bool_to_prop. injection H as <-. split; [|done].
    split; cbv zeta; first [done | by etransitivity].
  - intros [[] ->]. repeat match goal with x := _ |- _ => subst x end. rewrite Hlen in *.
    repeat (rewrite fail_if_false by (solve_guard || (apply negb_false_iff; done) || (apply negb_false_iff, Z.eqb_eq; done))). done.
Qed.

(** The guards of the segment and of the record before. *)
Definition schema_accepted (o : SegmentRecoveryOptions) (hd : RecordHeader) : bool :=
  (negb (Z.land (record_flags hd) kRecordFlagGap =? 0) && (schema_ref hd =? 0)) || SchemaRefKnown (schema_ref hd) o.

Definition in_context (segment : SegmentHeader) (o : SegmentRecoveryOptions) (previous : option Z) (first : bool)
    (hd : RecordHeader) : bool :=
  (record_topic_id hd =? segment_topic_id segment) && (record_partition_id hd =? segment_partition_id segment)
  && (negb first || (ingestion_sequence hd =? first_ingestion_sequence segment))
  && match previous with Some p => negb (p =? u64_max) && (ingestion_sequence hd =? p + 1) | None => true end
  && schema_accepted o hd.

(** What a scan reports about a complete record. *)
Definition described (offset : Z) (r : SegmentRecord) : SegmentRecordOffset :=
  let hd := header r in
  mkOffset offset (offset + record_size r) (record_size r) (offset + 112) (zlen (payload r))
    (record_flags hd) (schema_ref hd) (schema_version hd) (layout_version hd) (ingestion_sequence hd)
    (ingestion_timestamp_ns hd) (source_sequence hd) (observed_timestamp_ns hd).

Lemma described_fields offset size psize h p :
  record_size (mkRecord (read_record_header h) p) = size -> zlen p = psize ->
  with_fields (with_payload_offset (with_payload_size (ended (sized (no_metadata offset) size) (offset + size)) psize)
    (offset + 112)) h = described offset (mkRecord (read_record_header h) p).
Proof. intros <- <-. reflexivity. Qed.

Lemma check_context_valid c h segment o previous first :
  valid c = false ->
  meta_flags (metadata c) = ReadLe16 h kRecordFlagsOffset -> meta_schema_ref (metadata c) = ReadLe32 h kRecordSchemaRefOffset ->
  meta_sequence (metadata c) = ReadLe64 h kRecordIngestionSequenceOffset ->
  let c' := check_context c h segment o previous first in
  valid c' = in_context segment o previous first (read_record_header h) /\
  metadata c' = metadata c /\ has_complete_commit_marker c' = has_complete_commit_marker c.
Proof.
  intros Hv Hf Hr Hs. unfold check_context, in_context, schema_accepted. rewrite Hf, Hr, Hs. cbv zeta.
  cbn [read_record_header record_topic_id record_partition_id ingestion_sequence record_flags schema_ref].
  destruct (_ =? segment_topic_id segment), (_ =? segment_partition_id segment);
    cbn [negb orb andb]; try (split_and!; [exact Hv | reflexivity..]).
  set (first_ok := _ =? first_ingestion_sequence segment). set (gap := negb (Z.land _ _ =? 0) && _).
  assert (forall p seq, negb (p =? u64_max) && (seq =? p + 1) = negb ((p =? u64_max) || negb (seq =? p + 1))) as Hn.
  { intros p seq. by destruct (p =? _), (seq =? _). }
  destruct first, first_ok, previous as [p|]; rewrite ?Hn; try destruct (_ || negb _);
    cbn [negb orb andb]; try (split_and!; [exact Hv | reflexivity..]).
  all: destruct gap, (SchemaRefKnown _ o); cbn [negb orb andb]; try (split_and!; [exact Hv || reflexivity | reflexivity..]).
Qed.

(** ** One record *)

Section Envelope.
Context (offset size : Z) (segment : SegmentHeader) (o : SegmentRecoveryOptions).
Context (validate_context : bool) (previous : option Z) (first : bool).
Let post := drop (Z.to_nat offset) file.
Let b := take (Z.to_nat size) post.

(** What the check of the envelope at [offset] answers. *)
Definition verdict (marker : bool) (c : RecordCheck) : Prop :=
  has_complete_commit_marker c = marker /\ record_offset (metadata c) = offset /\
  (valid c = true <-> exists r, DecodeRecord b (format_limits o) = Ok r /\
                                (validate_context = true -> in_context segment o previous first (header r) = true)) /\
  (forall r, DecodeRecord b (format_limits o) = Ok r -> valid c = true -> metadata c = described offset r).

Lemma verdict_failure marker m why text :
  record_offset m = offset -> (forall r, DecodeRecord b (format_limits o) = Ok r -> False) ->
  verdict marker (Failure (mkCheck false marker kNone "" m) why text).
Proof. intros Hm Hn. split_and!; [done | done | | by intros r ?%Hn]. cbn. split; [done|]. by intros (r & ?%Hn & _). Qed.

Lemma reads_guard (Q : RecordCheck -> Prop) (g : bool) v k :
  (g = true -> Q v) -> (g = false -> exists c, reads k (Ok c) /\ Q c) ->
  exists c, reads (if g then ret v else k) (Ok c) /\ Q c.
Proof. destruct g; intros H1 H2; [|auto]. exists v. split; [apply reads_ret | auto]. Qed.

Lemma reads_then {A} (Q : RecordCheck -> Prop) (m : ReadM A) k a :
  reads m (Ok a) -> (exists c, reads (k a) (Ok c) /\ Q c) -> exists c, reads (bind m k) (Ok c) /\ Q c.
Proof. intros Hm (c & Hc & HQ). exists c. split; [|done]. by eapply reads_bind. Qed.

Lemma verdict_accepted marker c (accepted := if validate_context then check_context c (subspan b 12 100) segment o previous first
                                             else mkCheck true marker kNone "" (metadata c)) :
  valid c = false -> has_complete_commit_marker c = marker -> DecodeRecord b (format_limits o) = Ok (decoded b) ->
  metadata c = described offset (decoded b) ->
  verdict marker accepted.
Proof.
  intros Hv Hm Hd Hdesc. subst accepted.
  assert (forall r, DecodeRecord b (format_limits o) = Ok r <-> r = decoded b) as Hr by (rewrite Hd; naive_solver).
  destruct validate_context eqn:Hvc.
  - destruct (check_context_valid c (subspan b 12 100) segment o previous first) as (C1 & C2 & C3);
      [exact Hv | rewrite Hdesc; reflexivity.. |].
    split_and!; [congruence | by rewrite C2, Hdesc | | by intros r ->%Hr; rewrite C2].
    rewrite C1. change (read_record_header (subspan b 12 100)) with (header (decoded b)).
    split; [eauto | intros (r & ->%Hr & H)]. by apply H.
  - split_and!; cbn [has_complete_commit_marker metadata valid]; [done | by rewrite Hdesc | | by intros r ->%Hr].
    split; [|done]. intros _. exists (decoded b). by rewrite Hvc.
Qed.

Context (Hfile : zlen file <= off_t_max) (Ho : 0 <= offset) (Hend : offset + size <= zlen file).
Context (Hsize : 144 <= size <= max_encoded_record_size (format_limits o)) (Hlength : ReadLe64 b 0 = size - 8).

Lemma envelope_length : zlen b = size.
Proof. unfold b, post, zlen in *. rewrite length_take, length_drop. lia. Qed.

(** A guard that fails contradicts [decodes]. *)
Ltac refute_guard Hdec :=
  let G := fresh "Hguard" in
  intros G; apply verdict_failure; [done|]; intros r [[] _]%Hdec;
  repeat match goal with x := _ |- _ => subst x end; refine (eq_true_false_abs _ G _); clear G;
  first [solve_guard | apply negb_false_iff; assumption].

Lemma check_envelope_reads m :
  m = ended (sized (no_metadata offset) size) (offset + size) ->
  let trailer := subspan post (Z.to_nat (size - 28)) 28 in
  let marker := ReadLe64 trailer kTrailerCommitMarkerOffset =? kRecordCommitMarker in
  exists c,
    reads (check_envelope strerror path file offset (size - 8) size (subspan post 8 104) trailer marker segment o
             validate_context previous first m) (Ok c) /\
    verdict marker c.
Proof.
  intros Hm. cbv zeta. pose proof envelope_length as Hb.
  assert (forall off n, (off + n <= Z.to_nat size)%nat -> subspan post off n = subspan b off n) as Hsub.
  { intros off n H. unfold b. change (take (Z.to_nat size) post) with (subspan post 0 (Z.to_nat size)).
    by rewrite subspan_subspan by lia. }
  rewrite !Hsub by lia. replace (Z.to_nat (size - 28)) with (length b - 28)%nat by ulia.
  set (trailer := subspan b (length b - 28) 28). set (marker := _ =? kRecordCommitMarker).
  assert (forall r, DecodeRecord b (format_limits o) = Ok r <-> decodes b (format_limits o) /\ r = decoded b) as Hdec.
  { intros r. apply DecodeRecord_iff; rewrite ?Hb; try done. unfold off_t_max in *. ulia. }
  assert (ReadLe32 (subspan b 8 104) 0 = ReadLe32 b kRecordHeaderLengthOffset) as Hlen.
  { apply read_le_subspan; ulia. }
  assert (drop (Z.to_nat kRecordHeaderLengthFieldSize) (subspan b 8 104) = subspan b 12 100) as Hh.
  { unfold subspan. change (Z.to_nat _) with 4%nat. by rewrite skipn_firstn_comm, drop_drop. }
  unfold check_envelope. cbv zeta. rewrite Hlen, Hh.
  set (h := subspan b 12 100).
  assert (record_offset m = offset) as Hmo by (by rewrite Hm).
  assert (RecordHeaderCrc h = Finish (Update (Update new_accumulator (take kRecordHeaderCrcOffset h))
    (drop (kRecordHeaderCrcOffset + 4) h))) as Hcrc by done.
  do 8 (apply reads_guard; [refute_guard Hdec | intros ?G]).
  bool_to_prop. set (psize := ReadLe32 h kRecordPayloadSizeOffset) in *.
  assert (is_u32 psize) as Hps by (apply ReadLe32_bound; unfold h; rewrite subspan_length; offsets; ulia).
  pose proof (padding_range psize) as Hpad.
  assert (size - kRecordTrailerSize = zlen b - 28) as -> by (unfold kRecordTrailerSize; lia).
  change (Z.of_nat kRecordHeaderOffset + kEncodedRecordHeaderSize) with 112.
  set (body := body_upto post 112 (112 + psize) (zlen b - 28)).
  apply (reads_then _ _ _ (Some body)).
  { rewrite <- (body_upto_0 post 112 (112 + psize)) by ulia. apply scan_body_reads; size_lia. }
  cbv beta iota.
  assert (Finish (record_crc body) = Crc32c (take (length b - 28) b)) as B1.
  { rewrite Crc32c_acc. cbn [body body_upto record_crc]. do 2 f_equal.
    change (take (length b - 28) b) with (subspan b 0 (length b - 28)). rewrite <- Hsub by ulia.
    unfold subspan. rewrite drop_0. f_equal. ulia. }
  assert (Finish (payload_crc body) = Crc32c (subspan b 112 (Z.to_nat psize))) as B2.
  { rewrite Crc32c_acc, <- Hsub by size_lia. cbn [body body_upto payload_crc]. do 3 f_equal. size_lia. }
  assert (padding_is_zero body
    = all_zero (subspan b (112 + Z.to_nat psize) (length b - 28 - (112 + Z.to_nat psize)))) as B3.
  { rewrite <- Hsub by size_lia. cbn [body body_upto padding_is_zero]. do 2 f_equal; size_lia. }
  rewrite B1, B2, B3. clear B1 B2 B3 body.
  do 3 (apply reads_guard; [refute_guard Hdec | intros ?G]).
  eexists. split; [apply reads_ret|]. bool_to_prop. apply verdict_accepted; [reflexivity | reflexivity | |].
  - apply Hdec. split; [|done]. apply Z.eqb_eq in G6.
    split; cbv zeta; fold h trailer psize; first [assumption | congruence].
  - assert (zlen (subspan b 112 (Z.to_nat psize)) = psize) as Hpl by (unfold zlen; rewrite subspan_length; size_lia).
    rewrite Hm. apply described_fields; [|exact Hpl]. unfold record_size. cbn [payload].
    fold h psize. by rewrite Hpl.
Qed.
End Envelope.

(** [post] begins with the complete record [r]. *)
Definition begins_with (limits : SegmentFormatLimits) (post : list byte) (r : SegmentRecord) : Prop :=
  header_typed (header r) /\ record_ok limits r /\ record_bytes r `prefix_of` post.

(** The envelope that [post] declares ends in the file with a commit marker. *)
Definition committed_at (post : list byte) : Prop :=
  exists size, 8 <= size <= zlen post /\ ReadLe64 post 0 = size - 8 /\
               ReadLe64 post (Z.to_nat (size - 8)) = kRecordCommitMarker.

Lemma begins_with_length limits post r : begins_with limits post r ->
  ReadLe64 post 0 = record_size r - 8 /\ 144 <= record_size r <= zlen post /\
  record_size r <= max_encoded_record_size limits.
Proof.
  intros (Ht & Hok & [k ->]). destruct (trailer_reads r Ht (ro_payload _ _ Hok)) as (_ & _ & _ & _ & E & _).
  pose proof (record_size_pos r) as Hp. pose proof (record_bytes_length r) as Hl. pose proof (ro_size _ _ Hok).
  split_and!; [|done| |done].
  - rewrite <- E. apply read_le_app_left. ulia.
  - unfold zlen in *. rewrite length_app. lia.
Qed.

Lemma begins_with_decode limits post r size :
  ReadLe64 post 0 = size - 8 -> 8 <= size <= zlen post ->
  begins_with limits post r <-> DecodeRecord (take (Z.to_nat size) post) limits = Ok r.
Proof.
  intros Hlen Hs. split.
  - intros H. destruct (begins_with_length _ _ _ H) as (E & _). destruct H as (Ht & Hok & [k ->]).
    replace (take (Z.to_nat size) (record_bytes r ++ k)) with (record_bytes r); [by apply DecodeRecord_complete|].
    symmetry. apply take_app_length'. pose proof (record_bytes_length r). ulia.
  - intros (Ht & Hok & E)%DecodeRecord_sound. split_and!; [done | done|]. rewrite <- E. apply prefix_take.
Qed.

(** What the check of the record at an offset answers. *)
Record answered (post : list byte) (offset : Z) (segment : SegmentHeader) (o : SegmentRecoveryOptions)
    (validate_context : bool) (previous : option Z) (first : bool) (c : RecordCheck) : Prop := {
  an_offset : record_offset (metadata c) = offset;
  an_marker : has_complete_commit_marker c = true <-> committed_at post;
  an_valid : valid c = true <->
    exists r, begins_with (format_limits o) post r /\
              (validate_context = true -> in_context segment o previous first (header r) = true);
  an_metadata : forall r, begins_with (format_limits o) post r -> valid c = true -> metadata c = described offset r
}.

Lemma committed_at_size post size : ReadLe64 post 0 = size - 8 -> 8 <= size <= zlen post ->
  committed_at post <-> (ReadLe64 post (Z.to_nat (size - 8)) =? kRecordCommitMarker) = true.
Proof.
  intros Hlen Hs. rewrite Z.eqb_eq. split; [|by exists size].
  intros (z & _ & Hz & H). by replace size with z by lia.
Qed.

Lemma answered_failure post offset segment o validate_context previous first m marker why text :
  record_offset m = offset -> (marker = true <-> committed_at post) ->
  (forall r, begins_with (format_limits o) post r -> False) ->
  answered post offset segment o validate_context previous first (Failure (mkCheck false marker kNone "" m) why text).
Proof.
  intros Hm Hc Hn. split; [done | done | | by intros r ?%Hn]. cbn. split; [done|]. by intros (r & ?%Hn & _).
Qed.

Lemma ValidateRecord_reads offset segment o validate_context previous first :
  zlen file <= off_t_max -> 0 <= offset <= zlen file ->
  exists c,
    reads (ValidateRecord strerror path file (zlen file) offset segment o validate_context previous first) (Ok c) /\
    answered (drop (Z.to_nat offset) file) offset segment o validate_context previous first c.
Proof.
  intros Hf Ho. set (post := drop (Z.to_nat offset) file).
  assert (zlen post = zlen file - offset) as Hpost by (unfold post, zlen in *; rewrite length_drop; lia).
  unfold ValidateRecord. cbv zeta.
  change (Z.to_nat kRecordLengthFieldSize) with 8%nat. change (Z.to_nat kRecordTrailerSize) with 28%nat.
  change (Z.to_nat (kRecordHeaderLengthFieldSize + kEncodedRecordHeaderSize)) with 104%nat.
  unfold kRecordLengthFieldSize, kRecordTrailerSize, kMinimumEncodedRecordSize.
  apply reads_guard; [intros G|intros G].
  { apply answered_failure; [done | split; [done|]; intros (size & ? & _); bool_to_prop; lia |].
    intros r (_ & ? & _)%begins_with_length. bool_to_prop. lia. }
  bool_to_prop. eapply reads_then; [apply reads_ReadExact; lia|]. cbv beta iota.
  assert (forall k n, 0 <= k -> subspan file (Z.to_nat (offset + k)) n = subspan post (Z.to_nat k) n) as Hat.
  { intros k n Hk. unfold post. rewrite subspan_drop. f_equal. lia. }
  assert (ReadLe64 (subspan file (Z.to_nat offset) 8) 0 = ReadLe64 post 0) as ->.
  { rewrite <- (Z.add_0_r offset), Hat by lia. apply read_le_subspan; ulia. }
  assert (is_u64 (ReadLe64 post 0)) as Hu by (apply ReadLe64_bound; ulia).
  apply reads_guard; [intros G|intros G].
  { apply answered_failure; [done | split; [done|]; intros (size & ? & ? & _); unfold off_t_max in *; bool_to_prop; ulia |].
    intros r (? & ? & _)%begins_with_length. unfold off_t_max in *; bool_to_prop. ulia. }
  set (size := ReadLe64 post 0 + 8). assert (ReadLe64 post 0 = size - 8) as Hlen by (unfold size; lia).
  apply reads_guard; [intros G'|intros G'].
  { apply answered_failure; [done | split; [done|]; intros (z & ? & ? & _); bool_to_prop; lia |].
    intros r (? & ? & _)%begins_with_length. bool_to_prop. lia. }
  bool_to_prop. pose proof (committed_at_size post size Hlen) as Hcommit.
  destruct ((size <? 144) || _) eqn:Glimit; bool_to_prop.
  - rewrite (proj2 (Z.leb_le 8 size)) by ulia. eapply reads_then; [apply reads_ReadExact; ulia|].
    cbv beta iota. rewrite <- Z.add_sub_assoc, Hat by ulia.
    assert (ReadLe64 (subspan post (Z.to_nat (size - 8)) 8) 0 = ReadLe64 post (Z.to_nat (size - 8))) as ->.
    { rewrite <- (Nat.add_0_r (Z.to_nat (size - 8))) at 2. apply read_le_subspan; ulia. }
    eexists. split; [apply reads_ret|].
    assert (forall r, begins_with (format_limits o) post r -> False) as Hnone.
    { intros r (? & ? & ?)%begins_with_length. destruct Glimit; bool_to_prop; lia. }
    destruct (size <? 144); (apply answered_failure; [done | symmetry; apply Hcommit; ulia | exact Hnone]).
  - eapply reads_then; [apply reads_ReadExact; ulia|]. cbv beta iota.
    eapply reads_then; [apply reads_ReadExact; ulia|]. cbv beta iota.
    rewrite <- Z.add_sub_assoc, !Hat, Hlen by ulia. cbn [metadata]. change (Z.to_nat 8) with 8%nat.
    assert (ReadLe64 (take (Z.to_nat size) post) 0 = size - 8) as Htake.
    { rewrite <- Hlen. change (take (Z.to_nat size) post) with (subspan post 0 (Z.to_nat size)). apply read_le_subspan; ulia. }
    edestruct (check_envelope_reads offset size segment o validate_context previous first) as (c & Hc & V1 & V2 & V3 & V4);
      [ulia..|exact Htake|reflexivity|]. exists c. split; [exact Hc|]. fold post in V1, V3, V4.
    assert (forall r, begins_with (format_limits o) post r <-> DecodeRecord (take (Z.to_nat size) post) (format_limits o) = Ok r)
      as Hdec by (intros r; apply begins_with_decode; ulia).
    split; [done | | |].
    + rewrite V1, Hcommit by ulia. unfold ReadLe64. rewrite read_le_subspan by (offsets; ulia). offsets.
      replace (Z.to_nat (size - 28) + 20)%nat with (Z.to_nat (size - 8)) by lia. done.
    + rewrite V3. by setoid_rewrite Hdec.
    + intros r Hr%Hdec. by apply V4.
Qed.

(** ** Records after the damage *)

(** A complete record begins at a later aligned offset of [post]. *)
Definition later_in (limits : SegmentFormatLimits) (post : list byte) : Prop :=
  exists k r, begins_with limits (drop (8 * S k) post) r.

Lemma later_record_reads fuel segment o : forall candidate,
  zlen file <= off_t_max -> 0 <= candidate -> zlen file - 144 - candidate < Z.of_nat fuel ->
  exists b, reads (later_record strerror path file fuel (zlen file) candidate (zlen file - 144) segment o) (Ok b) /\
    (b = true <-> exists k r, begins_with (format_limits o) (drop (8 * k) (drop (Z.to_nat candidate) file)) r).
Proof.
  assert (forall candidate k r, 0 <= candidate -> begins_with (format_limits o) (drop (8 * k) (drop (Z.to_nat candidate) file)) r ->
    candidate <= zlen file - 144) as Hroom.
  { intros candidate k r Hc (_ & H & _)%begins_with_length. unfold zlen in *. rewrite !length_drop in H. lia. }
  induction fuel as [|fuel IH]; intros candidate Hf Hc Hfuel; cbn [later_record].
  { exists false. split; [apply reads_ret|]. split; [done|]. intros (k & r & H%Hroom); lia. }
  destruct (Z.ltb_spec (zlen file - 144) candidate).
  { exists false. split; [apply reads_ret|]. split; [done|]. intros (k & r & ?%Hroom); lia. }
  destruct (ValidateRecord_reads candidate segment o false None false) as (c & Hr & A); [done | lia|].
  destruct (valid c) eqn:E.
  { exists true. split; [eapply reads_bind; [exact Hr|]; cbn; rewrite E; apply reads_ret|]. split; [|done].
    intros _. destruct (proj1 (an_valid _ _ _ _ _ _ _ _ A) E) as (r & Hb & _). by exists 0%nat, r. }
  destruct (IH (candidate + 8)) as (b & Hb & Hiff); [done | lia | lia |].
  exists b. split.
  { eapply reads_bind; [exact Hr|]. cbn beta. rewrite E. unfold kRecordAlignment.
    rewrite (proj2 (Z.ltb_ge _ candidate)) by (unfold off_t_max in *; lia). exact Hb. }
  rewrite Hiff. replace (Z.to_nat (candidate + 8)) with (Z.to_nat candidate + 8)%nat by lia. split.
  - intros (k & r & H'). exists (S k), r. rewrite drop_drop in H' |- *. by replace (Z.to_nat candidate + 8 * S k)%nat
      with (Z.to_nat candidate + 8 + 8 * k)%nat by lia.
  - intros ([|k] & r & H').
    + exfalso. apply not_true_iff_false in E. apply E. apply (an_valid _ _ _ _ _ _ _ _ A). by exists r.
    + exists k, r. rewrite drop_drop in H' |- *. by replace (Z.to_nat candidate + 8 + 8 * k)%nat
        with (Z.to_nat candidate + 8 * S k)%nat by lia.
Qed.

Lemma HasLater_reads damage segment o :
  zlen file <= off_t_max -> 0 <= damage <= zlen file ->
  exists b, reads (HasLaterCommittedRecord strerror path file (zlen file) damage segment o) (Ok b) /\
    (b = true <-> later_in (format_limits o) (drop (Z.to_nat damage) file)).
Proof.
  intros Hf Hd. unfold HasLaterCommittedRecord, kMinimumEncodedRecordSize, kRecordAlignment.
  destruct ((zlen file <? 144) || _) eqn:E; bool_to_prop.
  { exists false. split; [apply reads_ret|]. split; [done|]. intros (k & r & (_ & H & _)%begins_with_length).
    unfold zlen, off_t_max in *. rewrite !length_drop in H. destruct E; bool_to_prop; lia. }
  destruct (later_record_reads (Z.to_nat (zlen file)) segment o (damage + 8)) as (b & Hb & Hiff); [done | lia | lia |].
  exists b. split; [exact Hb|]. rewrite Hiff. unfold later_in. apply exist_proper. intros k. apply exist_proper. intros r.
  rewrite !drop_drop. by replace (Z.to_nat (damage + 8) + 8 * k)%nat with (Z.to_nat damage + 8 * S k)%nat by lia.
Qed.

(** ** The loop over the records *)

Definition records_bytes (rs : list SegmentRecord) : list byte := concat (record_bytes <$> rs).

Lemma records_bytes_cons r rs : records_bytes (r :: rs) = record_bytes r ++ records_bytes rs.
Proof. done. Qed.

(** A record the scan accepts where it expects the sequence [next]. *)
Definition accepted (segment : SegmentHeader) (o : SegmentRecoveryOptions) (next : Z) (r : SegmentRecord) : Prop :=
  header_typed (header r) /\ record_ok (format_limits o) r /\
  record_topic_id (header r) = segment_topic_id segment /\
  record_partition_id (header r) = segment_partition_id segment /\
  ingestion_sequence (header r) = next /\ schema_accepted o (header r) = true.

(** Contiguous records from the sequence [next] on. *)
Fixpoint chained (segment : SegmentHeader) (o : SegmentRecoveryOptions) (next : Z) (rs : list SegmentRecord) : Prop :=
  match rs with
  | [] => True
  | r :: rs => accepted segment o next r /\ chained segment o (next + 1) rs
  end.

(** No acceptable record begins [rest]. *)
Definition stuck (segment : SegmentHeader) (o : SegmentRecoveryOptions) (next : Z) (rest : list byte) : Prop :=
  forall r, accepted segment o next r -> ~ record_bytes r `prefix_of` rest.

Definition next_sequence (segment : SegmentHeader) (previous : option Z) : Z :=
  match previous with Some p => p + 1 | None => first_ingestion_sequence segment end.

Lemma in_context_accepted segment o previous post r :
  begins_with (format_limits o) post r /\
    in_context segment o previous (match previous with None => true | Some _ => false end) (header r) = true
  <-> accepted segment o (next_sequence segment previous) r /\ record_bytes r `prefix_of` post.
Proof.
  unfold begins_with, in_context, accepted, next_sequence.
  rewrite !andb_true_iff, !Z.eqb_eq. destruct previous as [p|]; cbn [negb orb];
    rewrite ?andb_true_iff, ?negb_true_iff, ?Z.eqb_eq, ?Z.eqb_neq; [|tauto].
  split; [tauto|]. intros [(Ht & H) Hp]. pose proof (ht_sequence _ Ht) as Hs. unfold is_u64 in Hs.
  assert (p <> u64_max) by lia. tauto.
Qed.

(** The report after the records [rs] from [offset] on. *)
Fixpoint scanned (r : SegmentRecoveryReport) (offset : Z) (rs : list SegmentRecord) : SegmentRecoveryReport :=
  match rs with
  | [] => r
  | x :: rs => scanned (add_record r offset (described offset x)) (offset + record_size x) rs
  end.

(** The report after the loop, when [rest] is left. *)
Definition concluded (limits : SegmentFormatLimits) (rest : list byte) (r report : SegmentRecoveryReport) : Prop :=
  (rest = [] /\ report = clean_report r) \/
  (rest <> [] /\ exists c b, report = SetFinding r c b /\ record_offset (metadata c) = last_complete_offset r /\
     (b = true <-> committed_at rest \/ later_in limits rest)).

Lemma finding_reads r offset segment o c :
  zlen file <= off_t_max -> 0 <= offset < zlen file -> last_complete_offset r = offset ->
  answered (drop (Z.to_nat offset) file) offset segment o true (last_complete_sequence r)
    (match last_complete_sequence r with None => true | Some _ => false end) c ->
  exists report,
    reads (if has_complete_commit_marker c then ret (SetFinding r c true)
           else read! later := HasLaterCommittedRecord strerror path file (zlen file) offset segment o in
                let checked := if later then Failure c (check_reason c) (detail c +:+ interior_text) else c in
                ret (SetFinding r checked later)) (Ok report) /\
    concluded (format_limits o) (drop (Z.to_nat offset) file) r report.
Proof.
  intros Hf Ho Hr A.
  assert (drop (Z.to_nat offset) file <> []) as Hne.
  { intros E%(f_equal length). rewrite length_drop in E. cbn in E. ulia. }
  pose proof (an_marker _ _ _ _ _ _ _ _ A) as M. pose proof (an_offset _ _ _ _ _ _ _ _ A) as O.
  destruct (has_complete_commit_marker c).
  - eexists. split; [apply reads_ret|]. right. split; [done|]. exists c, true. split_and!; [done | congruence|]. tauto.
  - destruct (HasLater_reads offset segment o) as (b & Hb & Hiff); [done | lia|].
    eexists. split; [eapply reads_bind; [exact Hb|]; apply reads_ret|]. right. split; [done|].
    eexists _, b. split; [reflexivity|]. split; [destruct b; cbn; congruence|].
    rewrite Hiff. assert (~ committed_at (drop (Z.to_nat offset) file)) by (intros ?%M; done). tauto.
Qed.

Lemma stuck_nil segment o next : stuck segment o next [].
Proof.
  intros r _ [k Hk]. symmetry in Hk. apply app_nil in Hk as [E _]. apply (f_equal zlen) in E.
  rewrite record_bytes_length in E. pose proof (record_size_pos r).
  change (zlen []) with 0 in E. lia.
Qed.

Lemma scan_records_end o r offset next : last_complete_offset r = offset -> zlen file <= offset ->
  exists rs rest report, drop (Z.to_nat offset) file = records_bytes rs ++ rest /\
    chained (report_header r) o next rs /\ stuck (report_header r) o (next + zlen rs) rest /\
    reads (ret (clean_report r)) (Ok report) /\ concluded (format_limits o) rest (scanned r offset rs) report.
Proof.
  intros Hr Ho. exists [], [], (clean_report r).
  split_and!; [apply drop_ge; ulia | done | apply stuck_nil | apply reads_ret | by left].
Qed.

Lemma scan_records_reads fuel o : forall r,
  zlen file <= off_t_max -> file_size r = zlen file ->
  let offset := last_complete_offset r in let previous := last_complete_sequence r in
  0 <= offset <= zlen file -> zlen file - offset <= Z.of_nat fuel ->
  (previous = None -> offset = kEncodedSegmentHeaderSize) ->
  let next := next_sequence (report_header r) previous in
  exists rs rest report, drop (Z.to_nat offset) file = records_bytes rs ++ rest /\
    chained (report_header r) o next rs /\ stuck (report_header r) o (next + zlen rs) rest /\
    reads (scan_records strerror path file fuel offset previous o r) (Ok report) /\
    concluded (format_limits o) rest (scanned r offset rs) report.
Proof.
  induction fuel as [|fuel IH]; intros r Hf Hs offset previous Ho Hfuel Hfirst next; cbn [scan_records].
  { apply scan_records_end; [done | lia]. }
  destruct (Z.leb_spec (file_size r) offset); [apply scan_records_end; [done | lia]|].
  assert (match previous with None => offset =? kEncodedSegmentHeaderSize | Some _ => false end
    = match previous with None => true | Some _ => false end) as ->.
  { destruct previous; [done|]. rewrite Hfirst by done. done. }
  rewrite Hs. set (post := drop (Z.to_nat offset) file).
  destruct (ValidateRecord_reads offset (report_header r) o true previous
    (match previous with None => true | Some _ => false end)) as (c & Hc & A); [done | lia|]. fold post in A.
  pose proof (an_valid _ _ _ _ _ _ _ _ A) as V.
  assert (valid c = true <-> exists x, accepted (report_header r) o next x /\ record_bytes x `prefix_of` post) as Hvalid.
  { rewrite V. apply exist_proper. intros x. unfold next. rewrite <- in_context_accepted. split; intros [? ?]; auto. }
  destruct (valid c) eqn:E.
  - destruct (proj1 Hvalid eq_refl) as (x & Hx & [post' Hp]).
    assert (metadata c = described offset x) as Hm.
    { apply (an_metadata _ _ _ _ _ _ _ _ A); [|done]. destruct Hx as (? & ? & _). split_and!; [done..|]. by exists post'. }
    assert (zlen post = record_size x + zlen post') as Hl.
    { rewrite Hp. pose proof (record_bytes_length x). unfold zlen in *. rewrite length_app. lia. }
    assert (zlen post = zlen file - offset) as Hl' by (unfold post, zlen in *; rewrite length_drop; lia).
    pose proof (record_size_pos x).
    destruct (IH (add_record r offset (metadata c))) as (rs & rest & report & I1 & I2 & I3 & I4 & I5);
      [done | done | rewrite Hm; cbn; unfold zlen in *; lia.. | done |].
    assert (next_sequence (report_header r) (Some (meta_sequence (metadata c))) = next + 1) as Hnext.
    { rewrite Hm. cbn. destruct Hx as (_ & _ & _ & _ & -> & _). done. }
    cbn [add_record last_complete_offset last_complete_sequence report_header] in *.
    rewrite Hnext in *. exists (x :: rs), rest, report. split_and!.
    + fold post. rewrite Hp, records_bytes_cons, <- app_assoc. f_equal.
      rewrite <- I1, Hm. cbn [described record_end_offset].
      replace (Z.to_nat (offset + record_size x)) with (Z.to_nat offset + length (record_bytes x))%nat
        by (pose proof (record_bytes_length x); ulia).
      rewrite <- drop_drop. fold post. by rewrite Hp, drop_app_length.
    + done.
    + unfold zlen in *. cbn [length]. by replace (next + Z.of_nat (S (length rs))) with (next + 1 + Z.of_nat (length rs)) by lia.
    + eapply reads_bind; [exact Hc|]. cbn beta. rewrite E. exact I4.
    + rewrite Hm in I5. exact I5.
  - destruct (finding_reads r offset (report_header r) o c) as (report & Hr & Hcon); [done | lia | done | done |].
    exists [], post, report. split_and!; [done | done | | | exact Hcon].
    + unfold zlen. cbn [length Z.of_nat]. rewrite Z.add_0_r. intros x Hx Hp.
      assert (false = true) by (apply Hvalid; by exists x). done.
    + eapply reads_bind; [exact Hc|]. cbn beta. rewrite E. exact Hr.
Qed.
End Scan.
