(* ===== verification/SegmentRepair.v ===== *)
(** * Scanning and repairing whole segments

    [ScanFd] and [RepairSegment] of [mino/storage/segment_recovery.cc] on whole files: the
    report of a scan describes the longest run of contiguous complete records after the
    segment header, a checkpoint on a record boundary gives the same verdict, and a repair
    either leaves the file alone or cuts it back to that run. *)
From S2P Require Import Prelude Bytes Crc32c LittleEndian SegmentFormat SegmentRecovery SegmentScan.

(** Options for which a scan starts at all. *)
Definition usable (o : SegmentRecoveryOptions) : Prop :=
  kMinimumEncodedRecordSize <= max_encoded_record_size (format_limits o) /\ 0 <= max_payload_size (format_limits o).

Section Repair.
Context {B : Crc32cBackend} {BL : Crc32cLaws B} (strerror : Errno -> string) (path : string).
Abbreviation reads := (reads strerror path).

(** ** The view of a file *)

Definition begins_segment (file : list byte) (h : SegmentHeader) : Prop :=
  segment_typed h /\ reserved_bits (segment_flags h) kKnownSegmentFlags = false /\ segment_bytes h `prefix_of` file.

(** The file is a header, contiguous complete records, and bytes that no acceptable record begins. *)
Definition view (o : SegmentRecoveryOptions) (file : list byte) (h : SegmentHeader) (rs : list SegmentRecord)
    (rest : list byte) : Prop :=
  segment_typed h /\ reserved_bits (segment_flags h) kKnownSegmentFlags = false /\
  file = segment_bytes h ++ records_bytes rs ++ rest /\
  chained h o (first_ingestion_sequence h) rs /\ stuck h o (first_ingestion_sequence h + zlen rs) rest.

Lemma header_decodes file h :
  DecodeSegmentHeader (take 52 file) = Ok h <-> begins_segment file h.
Proof.
  split.
  - intros (Ht & Hf & E)%DecodeSegmentHeader_sound. split_and!; [done | done|]. rewrite <- E. apply prefix_take.
  - intros (Ht & Hf & [k ->]). rewrite take_app_length' by (by rewrite segment_bytes_length).
    by apply DecodeSegmentHeader_complete.
Qed.

Lemma record_bytes_prefix_unique o segment next r r' post :
  accepted segment o next r -> accepted segment o next r' ->
  record_bytes r `prefix_of` post -> record_bytes r' `prefix_of` post -> r = r'.
Proof.
  intros (Ht & Hok & _) (Ht' & Hok' & _) Hp Hp'.
  assert (begins_with (format_limits o) post r) as H by done. assert (begins_with (format_limits o) post r') as H' by done.
  destruct (begins_with_length _ _ _ H) as (E & ? & _). 
  apply (begins_with_decode _ _ _ (record_size r)) in H, H'; [congruence | lia..].
Qed.

(** Complete records are never left out of the run. *)
Lemma chained_maximal o segment : forall rs next rest rs' rest',
  chained segment o next rs -> stuck segment o (next + zlen rs) rest -> chained segment o next rs' ->
  records_bytes rs ++ rest = records_bytes rs' ++ rest' -> exists more, rs = rs' ++ more /\ rest' = records_bytes more ++ rest.
Proof.
  induction rs as [|r rs IH]; intros next rest [|r' rs'] rest' Hc Hst Hc' E.
  - exists []. split; [done|]. exact (eq_sym E).
  - destruct Hc' as [Ha _]. destruct (Hst r'); [by rewrite Z.add_0_r|]. change (records_bytes [] ++ rest) with rest in E. rewrite E.
    rewrite records_bytes_cons, <- app_assoc. by eexists.
  - exists (r :: rs). split; [done|]. exact (eq_sym E).
  - destruct Hc as [Ha Hc], Hc' as [Ha' Hc']. rewrite !records_bytes_cons, <- !app_assoc in E.
    assert (r = r') as <-.
    { apply (record_bytes_prefix_unique o segment next r r' (record_bytes r ++ records_bytes rs ++ rest));
        [done | done | by eexists | rewrite E; by eexists]. }
    apply app_inv_head in E. destruct (IH (next + 1) rest rs' rest') as (more & -> & ->); try done; [|by exists more].
    replace (next + 1 + zlen rs) with (next + zlen (r :: rs)) by (unfold zlen; cbn [length]; lia). done.
Qed.

Lemma chained_app segment o rs rs' : forall next,
  chained segment o next (rs ++ rs') <-> chained segment o next rs /\ chained segment o (next + zlen rs) rs'.
Proof.
  induction rs as [|r rs IH]; intros next; cbn [chained app]; [by rewrite Z.add_0_r; tauto|].
  rewrite IH. replace (next + 1 + zlen rs) with (next + zlen (r :: rs)) by (unfold zlen; cbn [length]; lia). tauto.
Qed.

(** The report on records in a row. *)
Fixpoint descriptions (offset : Z) (rs : list SegmentRecord) : list SegmentRecordOffset :=
  match rs with
  | [] => []
  | r :: rs => described offset r :: descriptions (offset + record_size r) rs
  end.

Lemma scanned_fields rs : forall r offset,
  let r' := scanned r offset rs in
  report_header r' = report_header r /\ file_size r' = file_size r /\ file_device r' = file_device r /\
  file_inode r' = file_inode r /\ repaired r' = repaired r /\
  scan_start_offset r' = scan_start_offset r /\ checkpoint_used r' = checkpoint_used r /\
  records r' = records r ++ descriptions offset rs /\ records_scanned r' = records_scanned r + zlen rs /\
  (last_complete_offset r = offset -> last_complete_offset r' = offset + zlen (records_bytes rs)) /\
  last_complete_sequence r' = match list.last rs with Some x => Some (ingestion_sequence (header x))
                              | None => last_complete_sequence r end.
Proof.
  induction rs as [|x rs IH]; intros r offset; cbn [scanned descriptions].
  - rewrite app_nil_r, Z.add_0_r. split_and!; try done. intros. by rewrite Z.add_0_r.
  - destruct (IH (add_record r offset (described offset x)) (offset + record_size x))
      as (I1 & I2 & I3 & I4 & I5 & I6 & I7 & I8 & I9 & I10 & I11).
    split_and!; try done.
    + rewrite I8. cbn [add_record records]. by rewrite <- app_assoc.
    + rewrite I9. unfold zlen. cbn [add_record records_scanned length]. lia.
    + intros _. rewrite I10 by done. rewrite records_bytes_cons. pose proof (record_bytes_length x).
      unfold zlen in *. rewrite length_app. lia.
    + rewrite I11, last_cons. by destruct (list.last rs).
Qed.

(** The report on the records [rs] after those of [before]. *)
Record reported (o : SegmentRecoveryOptions) (h : SegmentHeader) (size : Z) (before rs : list SegmentRecord)
    (rest : list byte) (report : SegmentRecoveryReport) : Prop := {
  rp_header : report_header report = h;
  rp_size : file_size report = size;
  rp_start : scan_start_offset report = 52 + zlen (records_bytes before);
  rp_records : records report = descriptions (52 + zlen (records_bytes before)) rs;
  rp_scanned : records_scanned report = zlen rs;
  rp_offset : last_complete_offset report = 52 + zlen (records_bytes (before ++ rs));
  rp_damage : damage_offset report = last_complete_offset report;
  rp_sequence : last_complete_sequence report = ingestion_sequence ∘ header <$> list.last (before ++ rs);
  rp_clean : disposition report = kClean <-> rest = [];
  rp_damaged : disposition report = kDamaged <->
               rest <> [] /\ (committed_at rest \/ later_in (format_limits o) rest);
  rp_truncated : truncated_bytes report = (match disposition report with kIncompleteTail => zlen rest | _ => 0 end);
  rp_repaired : repaired report = false
}.

(** A report at the start of the loop. *)
Record starting (h : SegmentHeader) (size : Z) (before : list SegmentRecord) (r : SegmentRecoveryReport) : Prop := {
  sr_header : report_header r = h;
  sr_size : file_size r = size;
  sr_start : scan_start_offset r = 52 + zlen (records_bytes before);
  sr_records : records r = [];
  sr_scanned : records_scanned r = 0;
  sr_offset : last_complete_offset r = 52 + zlen (records_bytes before);
  sr_sequence : last_complete_sequence r = ingestion_sequence ∘ header <$> list.last before;
  sr_repaired : repaired r = false
}.

Lemma records_bytes_app rs rs' : records_bytes (rs ++ rs') = records_bytes rs ++ records_bytes rs'.
Proof. unfold records_bytes. by rewrite fmap_app, concat_app. Qed.

Lemma concluded_reported o h size before rs rest r report :
  starting h size before r -> size = 52 + zlen (records_bytes (before ++ rs)) + zlen rest ->
  concluded (format_limits o) rest (scanned r (last_complete_offset r) rs) report ->
  reported o h size before rs rest report.
Proof.
  intros [S1 S2 S0 S3 S4 S5 S6 S7] Hsize Hc.
  destruct (scanned_fields rs r (last_complete_offset r)) as (F1 & F2 & _ & _ & F5 & F6 & _ & F8 & F9 & F10 & F11).
  specialize (F10 eq_refl). rewrite S3 in F8. rewrite S4 in F9. rewrite S6 in F11. cbn [app] in F8.
  assert (last_complete_offset r + zlen (records_bytes rs) = 52 + zlen (records_bytes (before ++ rs))) as Ho.
  { rewrite S5, records_bytes_app. unfold zlen. rewrite length_app. lia. }
  assert (last_complete_sequence (scanned r (last_complete_offset r) rs) = ingestion_sequence ∘ header <$> list.last (before ++ rs)) as Hs.
  { rewrite F11, last_app. by destruct (list.last rs). }
  destruct Hc as [[-> ->]|(Hne & c & b & -> & Hoff & Hb)].
  - split; cbn; try congruence; try (rewrite F8, S5; done); try done.
    + rewrite F2, F10, S2, Ho. change (zlen []) with 0 in Hsize. lia.
    + split; [done|]. by intros [].
  - split; cbn; try congruence; try (rewrite F8, S5; done); try done.
    + destruct b; done.
    + split; [intros E; split; [done|]; apply Hb; by destruct b | intros [_ H%Hb]; by rewrite H].
    + destruct b; [done|]. rewrite F2, F10, S2, Hsize. lia.
Qed.

Lemma chained_last segment o next rs : chained segment o next rs ->
  match list.last rs with Some x => ingestion_sequence (header x) + 1 | None => next end = next + zlen rs.
Proof.
  destruct rs as [|x rs _] using rev_ind; intros H; [by rewrite Z.add_0_r|].
  rewrite last_snoc. apply chained_app in H as (_ & (_ & _ & _ & _ & -> & _) & _).
  unfold zlen. rewrite length_app. cbn [length]. lia.
Qed.

Lemma scan_from file o h before post r fuel :
  zlen file <= off_t_max -> file = segment_bytes h ++ records_bytes before ++ post ->
  chained h o (first_ingestion_sequence h) before -> starting h (zlen file) before r -> zlen file <= Z.of_nat fuel ->
  exists rs rest report, post = records_bytes rs ++ rest /\
    chained h o (first_ingestion_sequence h + zlen before) rs /\
    stuck h o (first_ingestion_sequence h + zlen (before ++ rs)) rest /\
    reads (scan_records strerror path file fuel (last_complete_offset r) (last_complete_sequence r) o r) (Ok report) /\
    reported o h (zlen file) before rs rest report.
Proof.
  intros Hf Hfile Hc St Hfuel. pose proof St as [S1 S2 _ _ _ S5 S6 _].
  pose proof (chained_last _ _ _ _ Hc) as Hlast.
  assert (zlen file = 52 + zlen (records_bytes before) + zlen post) as Hz.
  { rewrite Hfile. unfold zlen. rewrite !length_app, segment_bytes_length. lia. }
  destruct (scan_records_reads strerror path file fuel o r) as (rs & rest & report & R1 & R2 & R3 & R4 & R5);
    [done | done | rewrite S5; ulia | rewrite S5; ulia | |].
  { rewrite S5, S6. destruct before using rev_ind; [done|]. by rewrite last_snoc. }
  assert (next_sequence (report_header r) (last_complete_sequence r) = first_ingestion_sequence h + zlen before) as Hn.
  { rewrite <- Hlast, S1, S6. by destruct (list.last before). }
  rewrite Hn, S1 in *. exists rs, rest, report.
  assert (drop (Z.to_nat (last_complete_offset r)) file = post) as Hd.
  { rewrite S5, Hfile, app_assoc. apply drop_app_length'. rewrite length_app, segment_bytes_length. ulia. }
  split_and!; [congruence | done | | done |].
  - replace (zlen (before ++ rs)) with (zlen before + zlen rs) by (unfold zlen; rewrite length_app; lia).
    by rewrite Z.add_assoc.
  - eapply concluded_reported; [done | | done]. rewrite Hz, <- Hd, R1, records_bytes_app. unfold zlen. rewrite !length_app. lia.
Qed.

Definition stat_of (file : list byte) (device inode links : Z) : StatAnswer :=
  StatOk true (zlen file) device inode links.

Lemma usable_size o : usable o -> exists size, EncodedRecordSize 0 (format_limits o) = Ok size.
Proof.
  intros [H1 H2]. rewrite EncodedRecordSize_spec by done. rewrite !(proj2 (Z.ltb_ge _ _)); [by eexists | | lia.. | done].
  change (envelope_size 0 + PaddingSize 0) with kMinimumEncodedRecordSize. done.
Qed.

(** A file without a segment header. *)
Definition headerless (file : list byte) (report : SegmentRecoveryReport) : Prop :=
  (forall h, ~ begins_segment file h) /\ disposition report = kDamaged /\ last_complete_offset report = 0 /\
  records report = [] /\ repaired report = false /\ file_size report = zlen file.

(** Up to the checkpoint. *)
Lemma ScanFd_header file o device inode links (Q : SegmentRecoveryReport -> Prop) :
  usable o -> zlen file <= off_t_max ->
  (forall report, headerless file report -> Q report) ->
  (forall h, begins_segment file h -> exists report,
    reads (scan_after_header strerror path file o
             (with_header (start_report (mkAttributes (zlen file) device inode links)) h))
      (Ok report) /\ Q report) ->
  exists report, reads (ScanFd strerror path file (stat_of file device inode links) o) (Ok report) /\ Q report.
Proof.
  intros Hu Hf H1 H2. unfold ScanFd, stat_of, FileAttributes. destruct (usable_size o Hu) as [size ->].
  cbn [negb orb]. rewrite (proj2 (Z.ltb_ge (zlen file) 0)) by (unfold zlen; lia). cbv zeta.
  cbn [start_report file_size st_size]. unfold kEncodedSegmentHeaderSize at 1.
  destruct (Z.ltb_spec (zlen file) 52).
  { eexists. split; [apply reads_ret|]. apply H1. split_and!; try done.
    intros h (_ & _ & [k ->]). unfold zlen in *. rewrite length_app, segment_bytes_length in *. lia. }
  change (Z.to_nat kEncodedSegmentHeaderSize) with 52%nat.
  destruct (DecodeSegmentHeader (take 52 file)) as [h|e] eqn:E.
  - destruct (H2 h) as (report & Hr & Hq); [by apply header_decodes|]. exists report. split; [|done].
    eapply reads_bind; [apply reads_ReadExact; ulia|]. cbv beta iota.
    change (subspan file (Z.to_nat 0) 52) with (take 52 file). rewrite E. exact Hr.
  - eexists. split.
    { eapply reads_bind; [apply reads_ReadExact; ulia|]. cbv beta iota.
      change (subspan file (Z.to_nat 0) 52) with (take 52 file). rewrite E. apply reads_ret. }
    apply H1. split_and!; try done. intros h Hh%header_decodes. congruence.
Qed.

Lemma begins_view file h : begins_segment file h ->
  exists post, file = segment_bytes h ++ records_bytes [] ++ post /\ segment_typed h /\
               reserved_bits (segment_flags h) kKnownSegmentFlags = false.
Proof. intros (Ht & Hf & [post ->]). by exists post. Qed.

Lemma scan_plain file o device inode links :
  usable o -> checkpoint o = None -> zlen file <= off_t_max ->
  exists report, reads (ScanFd strerror path file (stat_of file device inode links) o) (Ok report) /\
    (headerless file report \/ exists h rs rest, view o file h rs rest /\ reported o h (zlen file) [] rs rest report).
Proof.
  intros Hu Hc Hf. apply ScanFd_header; [done | done | by left |]. intros h Hh.
  destruct (begins_view file h Hh) as (post & Hfile & Ht & Hfl).
  set (r := with_header _ h).
  destruct (scan_from file o h [] post r (Z.to_nat (file_size r))) as (rs & rest & report & R1 & R2 & R3 & R4 & R5);
    [done | done | done | split; done | cbn; ulia |].
  exists report. split.
  - unfold scan_after_header, ApplyCheckpoint. rewrite Hc. eapply reads_bind; [apply reads_ret|]. exact R4.
  - right. exists h, rs, rest. split; [|done]. rewrite Z.add_0_r in R2. split_and!; try done. by rewrite Hfile, R1.
Qed.

(** ** Checkpoints *)

Lemma records_aligned segment o : forall rs next, chained segment o next rs -> zlen (records_bytes rs) mod 8 = 0.
Proof.
  induction rs as [|r rs IH]; intros next Hc; [done|]. destruct Hc as [(_ & Hok & _) Hc].
  rewrite records_bytes_cons. pose proof (record_bytes_length r) as Hl. pose proof (record_size_aligned r (ro_payload _ _ Hok)).
  specialize (IH _ Hc). unfold zlen in *. rewrite length_app, Nat2Z.inj_add, Hl, Z.add_mod by lia.
  by replace (record_size r mod 8) with 0 by lia; rewrite IH.
Qed.

Section Checkpoint.
Context (file : list byte) (o : SegmentRecoveryOptions) (h : SegmentHeader).
Context (before : list SegmentRecord) (x : SegmentRecord) (post : list byte).
Let start := 52 + zlen (records_bytes before).
Let boundary := start + record_size x.
Context (Hfile : file = segment_bytes h ++ records_bytes (before ++ [x]) ++ post) (Hf : zlen file <= off_t_max).
Context (Hc : chained h o (first_ingestion_sequence h) (before ++ [x])).

Lemma checkpoint_record : drop (Z.to_nat start) file = record_bytes x ++ post /\ boundary <= zlen file /\
  ReadLe64 (subspan file (Z.to_nat (boundary - kRecordTrailerSize)) 8) 0 = record_size x - 8.
Proof.
  pose proof Hc as Hc'. apply chained_app in Hc' as (Hb & (Ht & Hok & _) & _).
  destruct (trailer_reads x Ht (ro_payload _ _ Hok)) as (T & _). pose proof (record_bytes_length x) as Hl.
  pose proof (record_body_length x) as Hbody. pose proof (record_size_pos x).
  assert (records_bytes (before ++ [x]) = records_bytes before ++ record_bytes x) as Ex.
  { rewrite records_bytes_app. unfold records_bytes at 2. cbn. by rewrite app_nil_r. }
  assert (file = (segment_bytes h ++ records_bytes before) ++ record_bytes x ++ post) as E by (rewrite Hfile, Ex, <- !app_assoc; done).
  assert (length (segment_bytes h ++ records_bytes before) = Z.to_nat start) as Hs.
  { rewrite length_app, segment_bytes_length. unfold start. ulia. }
  split_and!.
  - rewrite E. by apply drop_app_length'.
  - rewrite E. unfold boundary, zlen in *. rewrite !length_app, <- length_app, Hs. lia.
  - rewrite E, subspan_app_skip by (unfold boundary, kRecordTrailerSize; lia).
    rewrite subspan_app_left by (unfold boundary, kRecordTrailerSize; ulia).
    unfold ReadLe64 in *. rewrite read_le_subspan by (unfold boundary, kRecordTrailerSize; ulia).
    rewrite <- T. unfold kTrailerRecordLengthOffset. f_equal. unfold boundary, kRecordTrailerSize. ulia.
Qed.

Lemma ApplyCheckpoint_boundary r :
  report_header r = h -> file_size r = zlen file ->
  checkpoint o = Some (mkCheckpoint boundary (Some (ingestion_sequence (header x)))) ->
  reads (ApplyCheckpoint strerror path file o r)
    (Ok (Some (start_at r true (checkpoint_fell_back r) false boundary start (Some (ingestion_sequence (header x)))))).
Proof.
  intros Hh Hsize Hcp. destruct checkpoint_record as (Hd & Hle & Hlen). pose proof (record_size_pos x) as Hpos.
  pose proof Hc as Hc'. apply chained_app in Hc' as (Hb & Ha & _). pose proof (records_aligned _ _ _ _ Hb) as Hal.
  assert (0 <= zlen (records_bytes before)) by (unfold zlen; lia).
  unfold ApplyCheckpoint. rewrite Hcp, Hh, Hsize. unfold kEncodedSegmentHeaderSize, kMinimumEncodedRecordSize, kRecordLengthFieldSize.
  rewrite (proj2 (Z.eqb_neq _ _)) by (unfold boundary, start; lia). cbv zeta.
  rewrite !(proj2 (Z.ltb_ge _ _)) by (unfold boundary, start in *; lia). cbn [orb].
  eapply reads_bind; [apply reads_ReadExact; unfold boundary, start, kRecordTrailerSize in *; ulia|].
  cbv beta iota. change (Z.to_nat 8) with 8%nat. rewrite Hlen.
  pose proof (ht_sequence _ (proj1 Ha)). unfold off_t_max in Hf.
  rewrite (proj2 (Z.ltb_ge _ (record_size x - 8))) by (unfold boundary, start in *; lia).
  rewrite (proj2 (Z.ltb_ge _ _)) by (unfold boundary, start in *; lia).
  replace (boundary - (record_size x - 8 + 8)) with start by (unfold boundary; lia).
  replace (start - 52) with (zlen (records_bytes before)) by (unfold start; lia). unfold kRecordAlignment. rewrite Hal. cbn [Z.eqb negb].
  destruct (ValidateRecord_reads strerror path file start h o true None false) as (c & Hr & A);
    [done | unfold boundary in *; lia|]. rewrite Hd in A.
  assert (begins_with (format_limits o) (record_bytes x ++ post) x) as Hx.
  { destruct Ha as (? & ? & _). split_and!; [done..|]. by eexists. }
  assert (valid c = true) as Hv.
  { apply (an_valid _ _ _ _ _ _ _ _ A). exists x. split; [done|]. intros _. destruct Ha as (_ & _ & E1 & E2 & _ & E3).
    unfold in_context. by rewrite E1, E2, E3, !Z.eqb_refl. }
  pose proof (an_metadata _ _ _ _ _ _ _ _ A x Hx Hv) as Hm.
  eapply reads_bind; [exact Hr|]. cbv beta. rewrite Hv, Hm. cbn [described record_end_offset meta_sequence].
  change (start + record_size x) with boundary. rewrite !Z.eqb_refl. cbn [negb orb]. apply reads_ret.
Qed.
End Checkpoint.

Lemma scan_checkpoint file o h before rs rest device inode links x :
  usable o -> zlen file <= off_t_max -> view o file h (before ++ rs) rest -> list.last before = Some x ->
  checkpoint o = Some (mkCheckpoint (52 + zlen (records_bytes before)) (Some (ingestion_sequence (header x)))) ->
  exists report, reads (ScanFd strerror path file (stat_of file device inode links) o) (Ok report) /\
    reported o h (zlen file) before rs rest report.
Proof.
  intros Hu Hf (Ht & Hfl & Hfile & Hc & Hst) Hx Hcp.
  apply ScanFd_header; [done | done | |].
  { intros report (Hn & _). destruct (Hn h). split_and!; [done..|]. rewrite Hfile. by eexists. }
  intros h' Hh'. assert (h' = h) as ->.
  { apply header_decodes in Hh'. assert (begins_segment file h) as Hh%header_decodes; [|congruence].
    split_and!; [done..|]. rewrite Hfile. by eexists. }
  apply last_Some in Hx as [l ->]. pose proof Hc as Hc'. apply chained_app in Hc' as [Hcb Hcr].
  assert (file = segment_bytes h ++ records_bytes (l ++ [x]) ++ records_bytes rs ++ rest) as Hfile'.
  { rewrite Hfile, records_bytes_app, <- app_assoc. done. }
  assert (52 + zlen (records_bytes (l ++ [x])) = 52 + zlen (records_bytes l) + record_size x) as Hb.
  { rewrite records_bytes_app. pose proof (record_bytes_length x). unfold records_bytes at 2. cbn [fmap list_fmap concat].
    rewrite app_nil_r. unfold zlen in *. rewrite length_app. lia. }
  set (r0 := with_header _ h).
  pose proof (ApplyCheckpoint_boundary file o h l x _ Hfile' Hf Hcb r0 eq_refl eq_refl) as Happly.
  rewrite <- Hb in Happly. specialize (Happly Hcp). set (r := start_at _ _ _ _ _ _ _) in Happly.
  destruct (scan_from file o h (l ++ [x]) _ r (Z.to_nat (file_size r)) Hf Hfile' Hcb) as (rs' & rest' & report & R1 & R2 & R3 & R4 & R5);
    [split; try done; by rewrite last_snoc | cbn; ulia|].
  assert (rs' = rs /\ rest' = rest) as [-> ->].
  { destruct (chained_maximal o h rs (first_ingestion_sequence h + zlen (l ++ [x])) rest rs' rest') as (more & -> & ->); try done.
    - unfold zlen in *. rewrite length_app in Hst. by replace (first_ingestion_sequence h + Z.of_nat (length (l ++ [x])) + Z.of_nat (length rs))
        with (first_ingestion_sequence h + Z.of_nat (length (l ++ [x]) + length rs)) by lia.
    - destruct more as [|y more]; [by rewrite app_nil_r|]. exfalso.
      apply chained_app in Hcr as (_ & Hy & _). apply (R3 y).
      + unfold zlen in *. rewrite (length_app (l ++ [x])). by replace (first_ingestion_sequence h + Z.of_nat (length (l ++ [x]) + length rs'))
          with (first_ingestion_sequence h + Z.of_nat (length (l ++ [x])) + Z.of_nat (length rs')) by lia.
      + rewrite records_bytes_cons, <- app_assoc. by eexists. }
  exists report. split; [|done]. unfold scan_after_header. eapply reads_bind; [exact Happly|]. exact R4.
Qed.

(** ** Repair *)

Lemma view_unique o file h rs rest h' rs' rest' :
  view o file h rs rest -> view o file h' rs' rest' -> h' = h /\ rs' = rs /\ rest' = rest.
Proof.
  intros (Ht & Hfl & Hfile & Hc & Hst) (Ht' & Hfl' & Hfile' & Hc' & Hst').
  assert (h' = h) as ->.
  { assert (begins_segment file h) as H%header_decodes by (split_and!; [done..|]; rewrite Hfile; by eexists).
    assert (begins_segment file h') as H'%header_decodes by (split_and!; [done..|]; rewrite Hfile'; by eexists). congruence. }
  rewrite Hfile' in Hfile. apply app_inv_head in Hfile.
  destruct (chained_maximal _ _ _ _ _ _ _ Hc Hst Hc' (eq_sym Hfile)) as (more & -> & ->).
  destruct (chained_maximal _ _ _ _ _ _ _ Hc' Hst' Hc Hfile) as (more' & E & _).
  rewrite <- app_assoc in E. assert (more ++ more' = []) as [-> _]%app_nil.
  { apply (app_inv_head rs'). by rewrite <- E, app_nil_r. }
  by rewrite app_nil_r.
Qed.

Lemma view_scan o file h rs rest device inode links :
  usable o -> checkpoint o = None -> zlen file <= off_t_max -> view o file h rs rest ->
  exists report, reads (ScanFd strerror path file (stat_of file device inode links) o) (Ok report) /\
    reported o h (zlen file) [] rs rest report.
Proof.
  intros Hu Hc Hf Hv. destruct (scan_plain file o device inode links Hu Hc Hf)
    as (report & Hr & [(Hn & _)|(h' & rs' & rest' & Hv' & Hrep)]).
  - destruct (Hn h). destruct Hv as (? & ? & -> & _). split_and!; [done..|]. by eexists.
  - destruct (view_unique _ _ _ _ _ _ _ _ Hv Hv') as (-> & -> & ->). eauto.
Qed.

(** What a truncation leaves. *)
Lemma TruncateAndSync_cases file truncates syncs size ro :
  let '(file', result) := TruncateAndSync strerror path file truncates syncs size ro in
  (file' = file /\ exists e, result = Err e) \/ file' = take (Z.to_nat size) file.
Proof. unfold TruncateAndSync. repeat case_match; simplify_eq; eauto. Qed.

Lemma cut_at_boundary h rs rest :
  take (Z.to_nat (52 + zlen (records_bytes rs))) (segment_bytes h ++ records_bytes rs ++ rest) = segment_bytes h ++ records_bytes rs.
Proof. rewrite app_assoc. apply take_app_length'. rewrite length_app, segment_bytes_length. ulia. Qed.

(** The checkpoint of a scan, when it is given one, lies behind complete records of the file. *)
Definition placed (o : SegmentRecoveryOptions) (file : list byte) (before : list SegmentRecord) : Prop :=
  match checkpoint o with
  | None => before = []
  | Some c => exists h rs rest x, view o file h (before ++ rs) rest /\ list.last before = Some x /\
      c = mkCheckpoint (52 + zlen (records_bytes before)) (Some (ingestion_sequence (header x)))
  end.

Lemma scan_placed file o before device inode links :
  usable o -> placed o file before -> zlen file <= off_t_max ->
  exists report, reads (ScanFd strerror path file (stat_of file device inode links) o) (Ok report) /\
    (headerless file report \/ exists h rs rest, view o file h (before ++ rs) rest /\ reported o h (zlen file) before rs rest report).
Proof.
  unfold placed. intros Hu Hp Hf. destruct (checkpoint o) as [c|] eqn:Hc.
  - destruct Hp as (h & rs & rest & x & Hv & Hx & ->).
    destruct (scan_checkpoint file o h before rs rest device inode links x Hu Hf Hv Hx Hc) as (report & Hr & Hrep).
    exists report. split; [done|]. right. by exists h, rs, rest.
  - subst before. apply scan_plain; done.
Qed.

Lemma RepairSegment_cases file o ro a before device inode links :
  usable o -> placed o file before -> zlen file <= off_t_max -> scan_stat a = stat_of file device inode links ->
  let '(file', result) := RepairSegment strerror path file a o ro in
  (file' = file /\ exists e, result = Err e) \/
  (exists h rs rest, view o file h (before ++ rs) rest /\ ~ (rest <> [] /\ (committed_at rest \/ later_in (format_limits o) rest)) /\
     file' = segment_bytes h ++ records_bytes (before ++ rs) /\
     forall report, result = Ok report -> (repaired report = true <-> rest <> []) /\
       records report = descriptions (52 + zlen (records_bytes before)) rs /\ last_complete_offset report = zlen file').
Proof.
  intros Hu Hc Hf Hstat.
  destruct (scan_placed file o before device inode links Hu Hc Hf) as (report & Hr & Hrep).
  unfold RepairSegment. rewrite Hstat.
  destruct (bindR (OpenSegment strerror path (opened a)) _) as [scanned|e] eqn:E; [|left; eauto].
  assert (scanned = report) as ->.
  { destruct (OpenSegment _ _ _); [|discriminate]. cbn in E. destruct (ValidateExpectedIdentity _ _ _ _); [|discriminate].
    cbn in E. destruct (reads_result _ _ _ _ (preads a) Hr) as [Hs|[e Hs]]; rewrite Hs in E; congruence. }
  clear E.
  destruct Hrep as [(_ & Hd & _)|(h & rs & rest & Hv & [_ _ _ Hrecs _ Ho _ _ Hclean Hdam _ Hnot])].
  { rewrite Hd. left. eauto. }
  assert (zlen (segment_bytes h ++ records_bytes (before ++ rs)) = 52 + zlen (records_bytes (before ++ rs))) as Hz.
  { unfold zlen. rewrite length_app, segment_bytes_length. lia. }
  destruct (disposition report) eqn:Hdisp; [| |left; eauto].
  - assert (rest = []) as -> by tauto. destruct (ValidateExpectedIdentity _ _ _ _); [|left; eauto]. right.
    exists h, rs, []. split_and!; [done | by intros [[] _] | |].
    + destruct Hv as (_ & _ & -> & _). by rewrite app_nil_r.
    + cbn [bindR]. intros final Hfin. injection Hfin as <-. rewrite Hnot, Hrecs. split_and!; [split; [done|]; by intros [] | done |].
      destruct Hv as (_ & _ & -> & _). by rewrite app_nil_r, Ho, Hz.
  - assert (rest <> []) as Hne by (intros ?; naive_solver).
    destruct (FileSize _ _ _) as [current|e]; [|left; eauto]. destruct (negb _); [left; eauto|].
    pose proof (TruncateAndSync_cases file (truncates a) (syncs a) (last_complete_offset report) ro) as T.
    destruct (TruncateAndSync _ _ _ _ _ _ _) as [file' result].
    destruct T as [[-> [e ->]]| ->]; [left; eauto|]. right. exists h, rs, rest.
    split_and!; [done | naive_solver | |].
    + rewrite Ho. destruct Hv as (_ & _ & -> & _). apply cut_at_boundary.
    + intros final Hfin. destruct result as [[]|]; [|discriminate]. cbn [bindR] in Hfin.
      destruct (ValidateExpectedIdentity _ _ _ _); [|discriminate]. cbn [bindR] in Hfin. injection Hfin as <-.
      cbn [set_repaired repaired records last_complete_offset]. rewrite Hrecs, Ho. split_and!; [done | done|].
      destruct Hv as (_ & _ & -> & _). by rewrite cut_at_boundary, Hz.
Qed.

(** No complete record of the run is removed. *)
Lemma repair_prefix_placed file o ro a before device inode links h rs rest :
  usable o -> placed o file before -> zlen file <= off_t_max -> scan_stat a = stat_of file device inode links ->
  segment_typed h -> reserved_bits (segment_flags h) kKnownSegmentFlags = false ->
  file = segment_bytes h ++ records_bytes rs ++ rest -> chained h o (first_ingestion_sequence h) rs ->
  segment_bytes h ++ records_bytes rs `prefix_of` fst (RepairSegment strerror path file a o ro).
Proof.
  intros Hu Hc Hf Hstat Ht Hfl E Hch. pose proof (RepairSegment_cases file o ro a before device inode links Hu Hc Hf Hstat) as H.
  destruct (RepairSegment _ _ _ _ _ _) as [file' result]. cbn [fst].
  destruct H as [[-> _]|(h' & rs' & rest' & (Ht' & Hfl' & Hfile' & Hch' & Hst') & _ & -> & _)].
  { rewrite E, app_assoc. by eexists. }
  assert (h' = h) as ->.
  { assert (begins_segment file h') as H%header_decodes by (split_and!; [done..|]; rewrite Hfile'; by eexists).
    assert (begins_segment file h) as H'%header_decodes by (split_and!; [done..|]; rewrite E; by eexists). congruence. }
  rewrite Hfile' in E. apply app_inv_head in E. destruct (chained_maximal _ _ _ _ _ _ _ Hch' Hst' Hch E) as (more & -> & _).
  rewrite records_bytes_app, app_assoc. by eexists.
Qed.

Lemma repair_prefix file o ro a device inode links h rs rest :
  usable o -> checkpoint o = None -> zlen file <= off_t_max -> scan_stat a = stat_of file device inode links ->
  segment_typed h -> reserved_bits (segment_flags h) kKnownSegmentFlags = false ->
  file = segment_bytes h ++ records_bytes rs ++ rest -> chained h o (first_ingestion_sequence h) rs ->
  segment_bytes h ++ records_bytes rs `prefix_of` fst (RepairSegment strerror path file a o ro).
Proof. intros Hu Hc. apply (repair_prefix_placed file o ro a []); [done|]. unfold placed. by rewrite Hc. Qed.

(** ** Torn appends *)

Lemma torn_read r n : (8 <= n)%nat -> header_typed (header r) -> zlen (payload r) <= u32_max ->
  ReadLe64 (take n (record_bytes r)) 0 = record_size r - 8.
Proof.
  intros Hn Ht Hp. destruct (trailer_reads r Ht Hp) as (_ & _ & _ & _ & E & _). rewrite <- E.
  pose proof (record_bytes_length r). pose proof (record_size_pos r).
  change (take n (record_bytes r)) with (subspan (record_bytes r) 0 n).
  destruct (le_lt_dec n (length (record_bytes r))); [apply read_le_subspan; ulia|].
  unfold subspan. by rewrite drop_0, take_ge by lia.
Qed.

(** A strict prefix of a record is neither committed nor the beginning of another record. *)
Lemma torn_tail o segment next r n :
  header_typed (header r) -> zlen (payload r) <= u32_max -> (0 < n)%nat -> Z.of_nat n < record_size r ->
  take n (record_bytes r) <> [] /\ ~ committed_at (take n (record_bytes r)) /\ stuck segment o next (take n (record_bytes r)).
Proof.
  intros Ht Hp Hn Hlt. pose proof (record_bytes_length r) as Hl.
  assert (zlen (take n (record_bytes r)) = Z.of_nat n) as Hz by (unfold zlen in *; rewrite length_take; lia).
  split_and!.
  - intros E. rewrite E in Hz. change (zlen []) with 0 in Hz. lia.
  - intros (size & Hs & E & _). rewrite torn_read in E by (ulia || done). lia.
  - intros x (Hxt & Hxo & _) Hx. destruct (begins_with_length (format_limits o) (take n (record_bytes r)) x) as (E & Hs & _); [done|].
    rewrite torn_read in E by (ulia || done). lia.
Qed.

Lemma torn_view o h rs r n :
  segment_typed h -> reserved_bits (segment_flags h) kKnownSegmentFlags = false ->
  chained h o (first_ingestion_sequence h) rs -> header_typed (header r) -> zlen (payload r) <= u32_max ->
  (0 < n)%nat -> Z.of_nat n < record_size r ->
  view o (segment_bytes h ++ records_bytes rs ++ take n (record_bytes r)) h rs (take n (record_bytes r)).
Proof. intros. split_and!; try done. by apply torn_tail. Qed.

Lemma retry_interrupted_done answers : Forall (eq EINTR) answers -> retry_interrupted answers = None.
Proof. induction 1 as [|e l <- _ IH]; done. Qed.

(** The calls of a repair that succeeds: interruptions and short reads only. *)
Record undisturbed (file : list byte) (a : RepairAnswers) (ro : SegmentRepairOptions) (device inode links : Z) : Prop := {
  un_path : path <> ""; un_open : opened a = None;
  un_before : ValidateExpectedIdentity strerror path (identity_before a) ro = Ok tt;
  un_scan : scan_stat a = stat_of file device inode links; un_preads : Forall fine (preads a);
  un_size : size_stat a = stat_of file device inode links;
  un_truncates : Forall (eq EINTR) (truncates a); un_syncs : Forall (eq EINTR) (syncs a);
  un_after : ValidateExpectedIdentity strerror path (identity_after a) ro = Ok tt
}.

Lemma repair_of_view file o ro a device inode links h rs rest :
  usable o -> checkpoint o = None -> zlen file <= off_t_max -> undisturbed file a ro device inode links ->
  view o file h rs rest -> exists report, reported o h (zlen file) [] rs rest report /\
  RepairSegment strerror path file a o ro =
    match disposition report with
    | kDamaged => (file, Err (Corruption (reason_detail report)))
    | kClean => (file, Ok report)
    | kIncompleteTail => (segment_bytes h ++ records_bytes rs, Ok (set_repaired report))
    end.
Proof.
  intros Hu Hc Hf [U1 U2 U3 U4 U5 U6 U7 U8 U9] Hv.
  destruct (view_scan o file h rs rest device inode links Hu Hc Hf Hv) as (report & Hr & Hrep).
  exists report. split; [done|]. unfold RepairSegment, OpenSegment.
  rewrite U2, bool_decide_eq_false_2 by done. rewrite U3, U4. cbn [bindR]. rewrite (reads_fine _ _ _ _ _ Hr U5).
  destruct (disposition report) eqn:E; [by rewrite U9 | | done].
  rewrite U6. unfold FileSize, FileAttributes, stat_of. cbn [negb orb].
  rewrite (proj2 (Z.ltb_ge (zlen file) 0)) by (unfold zlen; lia). cbn [bindR st_size].
  rewrite (rp_size _ _ _ _ _ _ _ Hrep), Z.eqb_refl. cbn [negb]. unfold TruncateAndSync.
  assert (last_complete_offset report = 52 + zlen (records_bytes rs)) as Ho by apply (rp_offset _ _ _ _ _ _ _ Hrep).
  pose proof Hv as (_ & _ & Hfile & _).
  assert (zlen file = 52 + zlen (records_bytes rs) + zlen rest) as Hz.
  { rewrite Hfile. unfold zlen. rewrite !length_app, segment_bytes_length. lia. }
  rewrite (proj2 (Z.ltb_ge _ _)) by (unfold off_t_max in *; ulia).
  rewrite !retry_interrupted_done by done. cbn [bindR]. rewrite U9. cbn [bindR].
  by rewrite Ho, Hfile, cut_at_boundary.
Qed.
End Repair.

(** ** What recovery guarantees *)

Definition without_checkpoint (o : SegmentRecoveryOptions) : SegmentRecoveryOptions :=
  mkRecoveryOptions (format_limits o) None (known_schema_refs o) (schema_ref_validator o).

Lemma disposition_eq d d' : (d = kClean <-> d' = kClean) -> (d = kDamaged <-> d' = kDamaged) -> d = d'.
Proof. destruct d, d'; intros [H1 H2] [H3 H4]; try reflexivity; by (destruct (H1 eq_refl) || destruct (H2 eq_refl) || destruct (H3 eq_refl) || destruct (H4 eq_refl)). Qed.

Lemma chained_without `{B : Crc32cBackend} o segment rs : forall next,
  chained segment o next rs <-> chained segment (without_checkpoint o) next rs.
Proof. induction rs as [|r rs IH]; intros next; [done|]. cbn [chained]. by rewrite IH. Qed.

Lemma descriptions_app `{B : Crc32cBackend} rs rs' : forall offset,
  descriptions offset (rs ++ rs') = descriptions offset rs ++ descriptions (offset + zlen (records_bytes rs)) rs'.
Proof.
  induction rs as [|r rs IH]; intros offset; [by rewrite Z.add_0_r|]. cbn [app descriptions]. rewrite IH. do 3 f_equal.
  rewrite records_bytes_cons. pose proof (record_bytes_length r). unfold zlen in *. rewrite length_app. lia.
Qed.

(** The check of a record reads it in pieces of at most 64 KiB, through short and interrupted
    reads, and accepts exactly the bytes the in-memory decoder accepts, with the header fields
    the decoder returns; the only other outcome is an error of the file system. *)
Theorem record_check_is_decoder (B : Crc32cBackend) (BL : Crc32cLaws B) strerror path file offset segment o
    check_it previous first :
  zlen file <= off_t_max -> 0 <= offset <= zlen file ->
  exists c,
    (forall answers, Forall fine answers ->
       snd (ValidateRecord strerror path file (zlen file) offset segment o check_it previous first answers) = Ok c) /\
    (forall answers, let x := snd (ValidateRecord strerror path file (zlen file) offset segment o check_it previous first answers) in
       x = Ok c \/ exists e, x = Err (IoError strerror path "cannot read segment" e)) /\
    (valid c = true <-> exists size r, DecodeRecord (subspan file (Z.to_nat offset) size) (format_limits o) = Ok r /\
                          (check_it = true -> in_context segment o previous first (header r) = true)) /\
    (forall size r, DecodeRecord (subspan file (Z.to_nat offset) size) (format_limits o) = Ok r -> valid c = true ->
       metadata c = described offset r).
Proof.
  intros Hf Ho.
  destruct (ValidateRecord_reads strerror path file offset segment o check_it previous first Hf Ho) as (c & Hr & [_ _ V M]).
  assert (forall size r, DecodeRecord (subspan file (Z.to_nat offset) size) (format_limits o) = Ok r ->
    begins_with (format_limits o) (drop (Z.to_nat offset) file) r) as Hd.
  { intros size r (Ht & Hok & E)%DecodeRecord_sound. split_and!; [done..|]. rewrite <- E. apply prefix_take. }
  exists c. split_and!.
  - intros answers. by eapply reads_fine.
  - intros answers. by eapply reads_result.
  - rewrite V. split; [|naive_solver]. intros (r & (Ht & Hok & [k E]) & Hctx). exists (length (record_bytes r)), r.
    split; [|done]. unfold subspan. rewrite E, take_app_length. by apply DecodeRecord_complete.
  - intros size r Hr'%Hd. by apply M.
Qed.

(** C26: a scan without a checkpoint terminates with a report on any file: it finds no segment header,
    or it splits the file into the header, the longest run of complete records with contiguous
    sequences, and a rest.  The report lists exactly these records, calls the segment clean
    when nothing is left, damaged when the rest declares a committed envelope or holds a
    complete record at a later aligned offset, and a torn tail otherwise. *)
Theorem scan_finds_longest_run (B : Crc32cBackend) (BL : Crc32cLaws B) strerror path file o device inode links :
  usable o -> checkpoint o = None -> zlen file <= off_t_max ->
  exists report,
    (forall answers, Forall fine answers ->
       snd (ScanFd strerror path file (stat_of file device inode links) o answers) = Ok report) /\
    (forall answers, let x := snd (ScanFd strerror path file (stat_of file device inode links) o answers) in
       x = Ok report \/ exists e, x = Err (IoError strerror path "cannot read segment" e)) /\
    (headerless file report \/
     exists h rs rest, view o file h rs rest /\ reported o h (zlen file) [] rs rest report /\
       forall rs' rest', chained h o (first_ingestion_sequence h) rs' ->
         file = segment_bytes h ++ records_bytes rs' ++ rest' -> rs' `prefix_of` rs).
Proof.
  intros Hu Hc Hf. destruct (scan_plain strerror path file o device inode links Hu Hc Hf) as (report & Hr & H).
  exists report. split_and!; [by intros; eapply reads_fine | by intros; eapply reads_result |].
  destruct H as [H|(h & rs & rest & Hv & Hrep)]; [by left | right]. exists h, rs, rest. split_and!; [done..|].
  destruct Hv as (_ & _ & -> & Hch & Hst). intros rs' rest' Hc' E%app_inv_head.
  destruct (chained_maximal _ _ _ _ _ _ _ Hch Hst Hc' E) as (more & -> & _). by eexists.
Qed.

(** Resuming at a checkpoint after any complete record gives the verdict of a scan from the
    beginning: same disposition, last complete offset and sequence, and the records after
    the checkpoint. *)
Theorem checkpoint_scan_agrees (B : Crc32cBackend) (BL : Crc32cLaws B) strerror path file o h before rs rest x
    device inode links answers answers' :
  usable o -> zlen file <= off_t_max -> view o file h (before ++ rs) rest -> list.last before = Some x ->
  checkpoint o = Some (mkCheckpoint (52 + zlen (records_bytes before)) (Some (ingestion_sequence (header x)))) ->
  Forall fine answers -> Forall fine answers' ->
  exists resumed full,
    snd (ScanFd strerror path file (stat_of file device inode links) o answers) = Ok resumed /\
    snd (ScanFd strerror path file (stat_of file device inode links) (without_checkpoint o) answers') = Ok full /\
    disposition resumed = disposition full /\ last_complete_offset resumed = last_complete_offset full /\
    last_complete_sequence resumed = last_complete_sequence full /\
    records full = descriptions 52 before ++ records resumed.
Proof.
  intros Hu Hf Hv Hx Hcp Ha Ha'.
  destruct (scan_checkpoint strerror path file o h before rs rest device inode links x Hu Hf Hv Hx Hcp) as (resumed & R & P).
  assert (view (without_checkpoint o) file h (before ++ rs) rest) as Hv'.
  { destruct Hv as (? & ? & ? & ? & ?). split_and!; try done. by apply (chained_without o). }
  destruct (view_scan strerror path (without_checkpoint o) file h _ rest device inode links Hu eq_refl Hf Hv') as (full & R' & P').
  exists resumed, full. split_and!; [by apply (reads_fine _ _ _ _ _ R) | by apply (reads_fine _ _ _ _ _ R') | | | |].
  - destruct P as [_ _ _ _ _ _ _ _ C D _ _], P' as [_ _ _ _ _ _ _ _ C' D' _ _]. apply disposition_eq.
    + by rewrite C, C'.
    + by rewrite D, D'.
  - by rewrite (rp_offset _ _ _ _ _ _ _ P), (rp_offset _ _ _ _ _ _ _ P').
  - by rewrite (rp_sequence _ _ _ _ _ _ _ P), (rp_sequence _ _ _ _ _ _ _ P').
  - rewrite (rp_records _ _ _ _ _ _ _ P), (rp_records _ _ _ _ _ _ _ P'). apply descriptions_app.
Qed.

(** C19: a repair keeps every complete record.  For a scan whose [fstat] tells the size of the file and
    that is given no checkpoint, or one that lies behind complete records of the file: whatever the other calls
    answer, the file afterwards still begins with the header and every contiguous complete record; it changes
    only when the rest after them shows no commit evidence, and then it is cut back to exactly those records.
    When the repair succeeds the file is the header and those records, nothing else, and the report lists
    the ones after the checkpoint. *)
Theorem repair_keeps_complete_records (B : Crc32cBackend) (BL : Crc32cLaws B) strerror path file o ro a before device inode links
    file' result :
  usable o -> placed o file before -> zlen file <= off_t_max -> scan_stat a = stat_of file device inode links ->
  RepairSegment strerror path file a o ro = (file', result) ->
  (forall h rs rest, segment_typed h -> reserved_bits (segment_flags h) kKnownSegmentFlags = false ->
     file = segment_bytes h ++ records_bytes rs ++ rest -> chained h o (first_ingestion_sequence h) rs ->
     segment_bytes h ++ records_bytes rs `prefix_of` file') /\
  (file' <> file -> exists h rs rest, view o file h rs rest /\ rest <> [] /\
     ~ committed_at rest /\ ~ later_in (format_limits o) rest /\ file' = segment_bytes h ++ records_bytes rs) /\
  (forall report, result = Ok report -> exists h rs rest, view o file h (before ++ rs) rest /\ view o file' h (before ++ rs) [] /\
     (repaired report = true <-> rest <> []) /\ records report = descriptions (52 + zlen (records_bytes before)) rs /\
     last_complete_offset report = zlen file').
Proof.
  intros Hu Hc Hf Hstat Hrep. pose proof (RepairSegment_cases strerror path file o ro a before device inode links Hu Hc Hf Hstat) as H.
  rewrite Hrep in H. split.
  { intros h rs rest Ht Hfl E Hch. change file' with (fst (file', result)). rewrite <- Hrep. by eapply repair_prefix_placed. }
  destruct H as [[-> [e ->]]|(h & rs & rest & Hv & Hno & -> & Hok)]; [done|].
  pose proof Hv as (Ht & Hfl & Hfile & Hch & Hst). split.
  - intros Hne. exists h, (before ++ rs), rest. assert (rest <> []) as Hr.
    { intros ->. apply Hne. by rewrite Hfile, app_nil_r. }
    split_and!; [done | done | tauto | tauto | done].
  - intros report Hrp. destruct (Hok report Hrp) as (O1 & O2 & O3). exists h, rs, rest. split_and!; try done.
    split_and!; try done; [by rewrite app_nil_r | apply stuck_nil].
Qed.

(** An append torn by a crash is repaired: when the file ends in a strict prefix of a record and
    no complete record begins at an aligned offset inside that prefix, an undisturbed repair
    succeeds, reports the earlier records and leaves exactly the header and those records. *)
Theorem torn_append_repaired (B : Crc32cBackend) (BL : Crc32cLaws B) strerror path o ro a device inode links h rs r n
    (file := segment_bytes h ++ records_bytes rs ++ take n (record_bytes r)) :
  usable o -> checkpoint o = None -> zlen file <= off_t_max -> undisturbed strerror path file a ro device inode links ->
  segment_typed h -> reserved_bits (segment_flags h) kKnownSegmentFlags = false ->
  chained h o (first_ingestion_sequence h) rs -> header_typed (header r) -> zlen (payload r) <= u32_max ->
  (0 < n)%nat -> Z.of_nat n < record_size r -> ~ later_in (format_limits o) (take n (record_bytes r)) ->
  exists report, RepairSegment strerror path file a o ro = (segment_bytes h ++ records_bytes rs, Ok report) /\
    repaired report = true /\ records report = descriptions 52 rs /\ truncated_bytes report = Z.of_nat n.
Proof.
  intros Hu Hc Hf Hun Ht Hfl Hch Hr Hp Hn Hlt Hno. destruct (torn_tail o h 0 r n Hr Hp Hn Hlt) as (T1 & T2 & _).
  pose proof (torn_view o h rs r n Ht Hfl Hch Hr Hp Hn Hlt) as Hv. fold file in Hv.
  destruct (repair_of_view strerror path file o ro a device inode links h rs _ Hu Hc Hf Hun Hv)
    as (report & [_ _ _ P1 _ _ _ _ P2 P3 P4 _] & E).
  destruct (disposition report); [by destruct T1; apply P2 | | by destruct (proj1 P3 eq_refl) as [_ []]].
  exists (set_repaired report). split_and!; [exact E | done | exact P1 |].
  change (truncated_bytes (set_repaired report)) with (truncated_bytes report). rewrite P4.
  pose proof (record_bytes_length r). unfold zlen in *. rewrite length_take. lia.
Qed.

(** An append torn after a payload that begins with a complete record is refused: the bytes inside
    the payload pass for a later committed record, so the repair fails with a corruption
    error and the file stays as it is. *)
Theorem torn_append_with_embedded_record_refused (B : Crc32cBackend) (BL : Crc32cLaws B) strerror path o ro a
    device inode links h rs r inner more n (file := segment_bytes h ++ records_bytes rs ++ take n (record_bytes r)) :
  usable o -> checkpoint o = None -> zlen file <= off_t_max -> undisturbed strerror path file a ro device inode links ->
  segment_typed h -> reserved_bits (segment_flags h) kKnownSegmentFlags = false ->
  chained h o (first_ingestion_sequence h) rs -> header_typed (header r) -> zlen (payload r) <= u32_max ->
  payload r = record_bytes inner ++ more -> header_typed (header inner) -> record_ok (format_limits o) inner ->
  112 + record_size inner <= Z.of_nat n < record_size r ->
  exists text, RepairSegment strerror path file a o ro = (file, Err (Corruption text)).
Proof.
  intros Hu Hc Hf Hun Ht Hfl Hch Hr Hp Hpay Hi Hio Hn. pose proof (record_size_pos inner) as Hpos.
  destruct (torn_tail o h 0 r n Hr Hp) as (T1 & _ & _); [lia..|].
  pose proof (torn_view o h rs r n Ht Hfl Hch Hr Hp) as Hv. fold file in Hv.
  destruct (repair_of_view strerror path file o ro a device inode links h rs _ Hu Hc Hf Hun (Hv ltac:(lia) ltac:(lia)))
    as (report & [_ _ _ _ _ _ _ _ _ P3 _ _] & E).
  assert (disposition report = kDamaged) as Hd; [|rewrite Hd in E; eauto].
  apply P3. split; [done|]. right. exists 13%nat, inner. split_and!; [done | done|].
  change (8 * 14)%nat with 112%nat. destruct (record_parts r) as (_ & _ & _ & Hsub & _).
  rewrite Hpay in Hsub. exists (drop (112 + length (record_bytes inner)) (take n (record_bytes r))).
  pose proof (record_bytes_length inner). pose proof (record_bytes_length r).
  rewrite <- drop_drop. rewrite <- (take_drop (length (record_bytes inner)) (drop 112 _)) at 1. f_equal.
  change (take (length (record_bytes inner)) (drop 112 (take n (record_bytes r))))
    with (subspan (subspan (record_bytes r) 0 n) 112 (length (record_bytes inner))).
  rewrite subspan_subspan by ulia.
  assert (subspan (subspan (record_bytes r) 112 (length (record_bytes inner ++ more))) 0 (length (record_bytes inner))
    = record_bytes inner) as Hin by (rewrite Hsub; by apply subspan_app_here).
  rewrite subspan_subspan in Hin by (rewrite length_app; lia). by rewrite Nat.add_0_r in Hin.
Qed.

(** ** A concrete segment *)

Definition sample_segment : SegmentHeader := mkSegmentHeader 0 9 3 0 1 40 500.
Definition sample_options : SegmentRecoveryOptions := mkRecoveryOptions default_limits None None None.
Definition sample_repair : SegmentRepairOptions := mkRepairOptions true None None false.
Definition sample_records : list SegmentRecord := [sample_record 40 [1; 2; 3]; sample_record 41 []].

Lemma sample_usable : usable sample_options.
Proof. split; vm_compute; discriminate. Qed.
Lemma sample_segment_ok :
  segment_typed sample_segment /\ reserved_bits (segment_flags sample_segment) kKnownSegmentFlags = false.
Proof. split; [|reflexivity]. split; vm_compute; (split; [discriminate | reflexivity]). Qed.
Lemma sample_record_typed sequence text : is_u64 sequence -> header_typed (header (sample_record sequence text)).
Proof. intros H. split; cbn; (exact H || (vm_compute; split; [discriminate | reflexivity])). Qed.
Lemma sample_record_ok sequence text : zlen text <= 1000 -> record_ok default_limits (sample_record sequence text).
Proof.
  intros H. assert (zlen (payload (sample_record sequence text)) = zlen text) as E.
  { unfold zlen. cbn [sample_record payload]. by rewrite length_fmap. }
  pose proof (padding_range (zlen text)). assert (0 <= zlen text) by (unfold zlen; lia).
  split; [reflexivity | vm_compute; discriminate | rewrite E; lia | rewrite E; cbn; lia |].
  unfold record_size. rewrite E. cbn [default_limits max_encoded_record_size]. size_lia.
Qed.
Lemma sample_chained : chained sample_segment sample_options 40 sample_records.
Proof.
  cbn [chained sample_records]. unfold accepted.
  split_and!; try reflexivity; try exact I; try (apply sample_record_typed; ulia); apply sample_record_ok; vm_compute; discriminate.
Qed.

Definition sample_file : list byte := segment_bytes (B := software_backend) sample_segment ++ records_bytes sample_records.
Definition torn_file : list byte := segment_bytes (B := software_backend) sample_segment ++ records_bytes sample_records
  ++ take 20 (record_bytes (sample_record 42 [9])).
Definition sample_answers (file : list byte) : RepairAnswers :=
  mkAnswers None (StatErrno EACCES) (stat_of file 5 6 1) [PreadErrno EINTR; PreadCount 7] (stat_of file 5 6 1)
    [EINTR] [EINTR; EINTR] (StatErrno EACCES).

Lemma sample_view : view (B := software_backend) sample_options sample_file sample_segment (sample_records ++ []) [].
Proof.
  destruct sample_segment_ok. split_and!; [done | done | | exact sample_chained | apply stuck_nil].
  by rewrite !app_nil_r.
Qed.

Lemma sample_undisturbed strerror file : undisturbed strerror "segment" file (sample_answers file) sample_repair 5 6 1.
Proof. split; try done; repeat constructor. Qed.

Lemma sample_sizes : zlen sample_file <= off_t_max /\ zlen torn_file <= off_t_max.
Proof. split; vm_compute; discriminate. Qed.

Lemma torn_short limits l : zlen l < 152 -> ~ later_in limits l.
Proof.
  intros Hl (k & r & (_ & H & _)%(begins_with_length (B := software_backend))). unfold zlen in *. rewrite length_drop in H. lia.
Qed.

Lemma record_check_is_decoder_witness : exists c,
  snd (ValidateRecord (B := software_backend) (fun _ => "") "segment" sample_file (zlen sample_file) 52 sample_segment sample_options
         true None true [PreadCount 3; PreadErrno EINTR]) = Ok c /\ valid c = true.
Proof.
  destruct (record_check_is_decoder software_backend software_laws (fun _ => "") "segment" sample_file 52 sample_segment
    sample_options true None true) as (c & H1 & _ & H3 & _);
    [apply sample_sizes | split; vm_compute; discriminate |].
  exists c. split; [apply H1; repeat constructor|]. apply H3. exists (length (record_bytes (sample_record 40 [1; 2; 3]))).
  eexists. split; [vm_compute; reflexivity | reflexivity].
Defined.

Lemma scan_finds_longest_run_witness : exists report,
  snd (ScanFd (B := software_backend) (fun _ => "") "segment" sample_file (stat_of sample_file 5 6 1) sample_options
         [PreadCount 3]) = Ok report /\ disposition report = kClean /\ length (records report) = 2%nat.
Proof.
  destruct (scan_finds_longest_run software_backend software_laws (fun _ => "") "segment" sample_file sample_options 5 6 1)
    as (report & H1 & _ & _); [apply sample_usable | reflexivity | apply sample_sizes |].
  exists report. split; [apply H1; repeat constructor|].
  assert (snd (ScanFd (B := software_backend) (fun _ => "") "segment" sample_file (stat_of sample_file 5 6 1) sample_options [])
    = Ok report) as E by (apply H1; constructor).
  vm_compute in E. injection E as <-. split; reflexivity.
Defined.

Lemma checkpoint_scan_agrees_witness : exists resumed full,
  snd (ScanFd (B := software_backend) (fun _ => "") "segment" sample_file (stat_of sample_file 5 6 1)
    (mkRecoveryOptions default_limits (Some (mkCheckpoint 340 (Some 41))) None None) [PreadCount 1]) = Ok resumed /\
  snd (ScanFd (B := software_backend) (fun _ => "") "segment" sample_file (stat_of sample_file 5 6 1) sample_options []) = Ok full /\
  disposition resumed = disposition full.
Proof.
  set (o := mkRecoveryOptions _ _ _ _).
  destruct (checkpoint_scan_agrees software_backend software_laws (fun _ => "") "segment" sample_file o sample_segment
    sample_records [] [] (sample_record 41 []) 5 6 1 [PreadCount 1] []) as (resumed & full & H1 & H2 & H3 & _).
  - split; vm_compute; discriminate.
  - apply sample_sizes.
  - destruct sample_view as (V1 & V2 & V3 & V4 & _). split_and!; [exact V1 | exact V2 | exact V3 | | apply stuck_nil].
    apply (chained_without o). exact V4.
  - reflexivity.
  - vm_compute. reflexivity.
  - repeat constructor.
  - constructor.
  - exists resumed, full. split; [exact H1|]. split; [exact H2 | exact H3].
Defined.

Lemma repair_keeps_complete_records_witness :
  exists file' result, RepairSegment (B := software_backend) (fun _ => "") "segment" torn_file (sample_answers torn_file)
    sample_options sample_repair = (file', result) /\ sample_file `prefix_of` file'.
Proof.
  destruct (RepairSegment (B := software_backend) (fun _ => "") "segment" torn_file (sample_answers torn_file)
    sample_options sample_repair) as [file' result] eqn:E.
  exists file', result. split; [reflexivity|].
  destruct (repair_keeps_complete_records software_backend software_laws (fun _ => "") "segment" torn_file sample_options
    sample_repair (sample_answers torn_file) [] 5 6 1 file' result) as (H & _);
    [apply sample_usable | reflexivity | apply sample_sizes | reflexivity | exact E |].
  destruct sample_segment_ok as [S1 S2].
  exact (H sample_segment sample_records _ S1 S2 eq_refl sample_chained).
Defined.

Lemma torn_append_repaired_witness : exists report,
  RepairSegment (B := software_backend) (fun _ => "") "segment" torn_file (sample_answers torn_file) sample_options sample_repair
  = (sample_file, Ok report) /\ repaired report = true.
Proof.
  destruct sample_segment_ok as [S1 S2].
  destruct (torn_append_repaired software_backend software_laws (fun _ => "") "segment" sample_options sample_repair
    (sample_answers torn_file) 5 6 1 sample_segment sample_records (sample_record 42 [9]) 20) as (report & E & R & _).
  - apply sample_usable.
  - reflexivity.
  - apply sample_sizes.
  - apply sample_undisturbed.
  - exact S1.
  - exact S2.
  - exact sample_chained.
  - apply sample_record_typed. ulia.
  - vm_compute; discriminate.
  - lia.
  - vm_compute; reflexivity.
  - apply torn_short. vm_compute; reflexivity.
  - exists report. split; [exact E | exact R].
Defined.

(** A record whose payload is another record, and its torn append. *)
Definition nested_record : SegmentRecord :=
  mkRecord (header (sample_record 42 [])) (record_bytes (B := software_backend) (sample_record 7 [])).
Definition nested_file : list byte := segment_bytes (B := software_backend) sample_segment ++ records_bytes sample_records
  ++ take 260 (record_bytes nested_record).

Lemma torn_append_with_embedded_record_refused_witness : exists text,
  RepairSegment (B := software_backend) (fun _ => "") "segment" nested_file (sample_answers nested_file) sample_options sample_repair
  = (nested_file, Err (Corruption text)).
Proof.
  destruct sample_segment_ok as [S1 S2].
  apply (torn_append_with_embedded_record_refused software_backend software_laws (fun _ => "") "segment" sample_options
    sample_repair (sample_answers nested_file) 5 6 1 sample_segment sample_records nested_record (sample_record 7 []) [] 260).
  - apply sample_usable.
  - reflexivity.
  - vm_compute; discriminate.
  - apply sample_undisturbed.
  - exact S1.
  - exact S2.
  - exact sample_chained.
  - apply (sample_record_typed 42 []). ulia.
  - vm_compute; discriminate.
  - vm_compute; reflexivity.
  - apply sample_record_typed. ulia.
  - apply sample_record_ok. vm_compute; discriminate.
  - split; vm_compute; [discriminate | reflexivity].
Defined.
