(* ===== verification/SegmentWriter.v ===== *)
(** * The segment writer

    Models [mino/storage/segment_writer.h] and [.cc]: one append-only segment file, batching,
    gathered writes, the sync policies, rotation limits and the poisoned state.

    The answers of [write], [writev] and [fdatasync] are inputs, one list each, consumed in the
    order of the calls; when a list is used up the calls succeed in full.  [disk] is the file
    as written, [synced] what it was at the last successful sync.  The hooks, which replace the
    system calls in tests, are null, and memory allocation does not fail.  A request never
    exceeds [SSIZE_MAX], since no vector does. *)
From S2P Require Import Prelude Bytes Crc32c LittleEndian SegmentFormat.

Inductive SegmentWriterState : Set := kOpen | kSealed | kError.
Inductive SegmentSyncPolicy : Set := kSyncNone | kInterval | kPerBatch | kPerRecord.
Inductive SegmentWriterFailureKind : Set := kNoFailure | kWriteFailure | kSyncFailure.

Record SegmentWriterOptions : Set := mkWriterOptions {
  batch_bytes : Z; batch_records : Z; flush_interval_ns : Z;
  sync_policy : SegmentSyncPolicy; sync_interval_ns : Z; sync_interval_bytes : Z;
  max_segment_bytes : Z; max_segment_records : Z; max_segment_duration_ns : Z;
  writer_limits : SegmentFormatLimits; max_writev_bytes : Z
}.

Record SegmentAppendResult : Set := mkAppendResult { records_accepted : Z; rotate_needed : bool }.

Record SegmentWriterStats : Set := mkStats {
  write_syscalls : Z; writev_syscalls : Z; writev_buffers : Z; io_bytes_written : Z
}.

(** [has_last_sequence_] and [last_sequence_] are one option. *)
Record SegmentWriter : Set := mkWriter {
  options_ : SegmentWriterOptions;
  writer_state_ : SegmentWriterState; error_status_ : Status; failure_kind_ : SegmentWriterFailureKind;
  opened_at_ns_ : Z; topic_id_ : Z; partition_id_ : Z; first_ingestion_sequence_ : Z;
  last_observed_at_ns_ : Z; last_flush_at_ns_ : Z; last_sync_at_ns_ : Z;
  logical_bytes_ : Z; logical_records_ : Z; written_bytes_ : Z; written_records_ : Z;
  durable_bytes_ : Z; durable_records_ : Z; unsynced_bytes_ : Z;
  last_sequence_ : option Z; pending_bytes_ : Z; pending_records_ : list (list byte);
  stats_ : SegmentWriterStats
}.

(** ** The operating system *)

Inductive WriteAnswer : Set := WriteErrno (e : Errno) | WriteCount (n : nat).

Record World : Set := mkWorld {
  disk : list byte; synced : list byte;
  write_answers : list WriteAnswer; sync_answers : list (option Errno)
}.

Record Running : Set := mkRunning { writer : SegmentWriter; world : World }.

(** The answers of the next calls. *)
Definition with_answers (writes : list WriteAnswer) (syncs : list (option Errno)) (s : Running) : Running :=
  mkRunning (writer s) (mkWorld (disk (world s)) (synced (world s)) writes syncs).

(** State and error: what was done before an error stays done. *)
Definition WriterM (A : Type) : Type := Running -> Running * Result A.
Definition wret {A} (a : A) : WriterM A := fun s => (s, Ok a).
Definition wthrow {A} (e : Status) : WriterM A := fun s => (s, Err e).
Definition wbind {A C} (m : WriterM A) (k : A -> WriterM C) : WriterM C := fun s =>
  match m s with
  | (s', Ok a) => k a s'
  | (s', Err e) => (s', Err e)
  end.
Definition wget {A} (f : SegmentWriter -> A) : WriterM A := fun s => (s, Ok (f (writer s))).
Definition wmodify (f : SegmentWriter -> SegmentWriter) : WriterM unit := fun s =>
  (mkRunning (f (writer s)) (world s), Ok tt).
Notation "'do!' x ':=' m 'in' k" := (wbind m (fun x => k))
  (at level 10, x name, m at level 100, k at level 200).
Notation "m ';!' k" := (wbind m (fun _ : unit => k)) (at level 100, k at level 200, right associativity).

(** ** Assignments to the fields *)

Definition set_state (w : SegmentWriter) (s : SegmentWriterState) (e : Status) (k : SegmentWriterFailureKind) : SegmentWriter :=
  mkWriter (options_ w) s e k (opened_at_ns_ w) (topic_id_ w) (partition_id_ w) (first_ingestion_sequence_ w)
    (last_observed_at_ns_ w) (last_flush_at_ns_ w) (last_sync_at_ns_ w) (logical_bytes_ w) (logical_records_ w)
    (written_bytes_ w) (written_records_ w) (durable_bytes_ w) (durable_records_ w) (unsynced_bytes_ w)
    (last_sequence_ w) (pending_bytes_ w) (pending_records_ w) (stats_ w).

Definition set_observed (now : Z) (w : SegmentWriter) : SegmentWriter :=
  mkWriter (options_ w) (writer_state_ w) (error_status_ w) (failure_kind_ w) (opened_at_ns_ w) (topic_id_ w)
    (partition_id_ w) (first_ingestion_sequence_ w) now (last_flush_at_ns_ w) (last_sync_at_ns_ w)
    (logical_bytes_ w) (logical_records_ w) (written_bytes_ w) (written_records_ w) (durable_bytes_ w)
    (durable_records_ w) (unsynced_bytes_ w) (last_sequence_ w) (pending_bytes_ w) (pending_records_ w) (stats_ w).

(** [written_bytes_ += size; ++written_records_; unsynced_bytes_ += size]. *)
Definition count_written (size : Z) (w : SegmentWriter) : SegmentWriter :=
  mkWriter (options_ w) (writer_state_ w) (error_status_ w) (failure_kind_ w) (opened_at_ns_ w) (topic_id_ w)
    (partition_id_ w) (first_ingestion_sequence_ w) (last_observed_at_ns_ w) (last_flush_at_ns_ w) (last_sync_at_ns_ w)
    (logical_bytes_ w) (logical_records_ w) (wrap64 (written_bytes_ w + size)) (wrap64 (written_records_ w + 1))
    (durable_bytes_ w) (durable_records_ w) (wrap64 (unsynced_bytes_ w + size)) (last_sequence_ w) (pending_bytes_ w)
    (pending_records_ w) (stats_ w).

Definition count_stats (writes writevs buffers bytes : Z) (w : SegmentWriter) : SegmentWriter :=
  let s := stats_ w in
  mkWriter (options_ w) (writer_state_ w) (error_status_ w) (failure_kind_ w) (opened_at_ns_ w) (topic_id_ w)
    (partition_id_ w) (first_ingestion_sequence_ w) (last_observed_at_ns_ w) (last_flush_at_ns_ w) (last_sync_at_ns_ w)
    (logical_bytes_ w) (logical_records_ w) (written_bytes_ w) (written_records_ w) (durable_bytes_ w)
    (durable_records_ w) (unsynced_bytes_ w) (last_sequence_ w) (pending_bytes_ w) (pending_records_ w)
    (mkStats (wrap64 (write_syscalls s + writes)) (wrap64 (writev_syscalls s + writevs))
       (wrap64 (writev_buffers s + buffers)) (wrap64 (io_bytes_written s + bytes))).

Definition mark_durable (now : Z) (w : SegmentWriter) : SegmentWriter :=
  mkWriter (options_ w) (writer_state_ w) (error_status_ w) (failure_kind_ w) (opened_at_ns_ w) (topic_id_ w)
    (partition_id_ w) (first_ingestion_sequence_ w) (last_observed_at_ns_ w) (last_flush_at_ns_ w) now
    (logical_bytes_ w) (logical_records_ w) (written_bytes_ w) (written_records_ w) (written_bytes_ w)
    (written_records_ w) 0 (last_sequence_ w) (pending_bytes_ w) (pending_records_ w) (stats_ w).

(** [pending_records_.clear(); pending_bytes_ = 0; if (had_records) last_flush_at_ns_ = now_ns]. *)
Definition clear_pending (had_records : bool) (now : Z) (w : SegmentWriter) : SegmentWriter :=
  mkWriter (options_ w) (writer_state_ w) (error_status_ w) (failure_kind_ w) (opened_at_ns_ w) (topic_id_ w)
    (partition_id_ w) (first_ingestion_sequence_ w) (last_observed_at_ns_ w)
    (if had_records then now else last_flush_at_ns_ w) (last_sync_at_ns_ w) (logical_bytes_ w) (logical_records_ w)
    (written_bytes_ w) (written_records_ w) (durable_bytes_ w) (durable_records_ w) (unsynced_bytes_ w)
    (last_sequence_ w) 0 [] (stats_ w).

(** The bookkeeping of one accepted record. *)
Definition push_pending (encoded : list byte) (sequence : Z) (w : SegmentWriter) : SegmentWriter :=
  mkWriter (options_ w) (writer_state_ w) (error_status_ w) (failure_kind_ w) (opened_at_ns_ w) (topic_id_ w)
    (partition_id_ w) (first_ingestion_sequence_ w) (last_observed_at_ns_ w) (last_flush_at_ns_ w) (last_sync_at_ns_ w)
    (wrap64 (logical_bytes_ w + zlen encoded)) (wrap64 (logical_records_ w + 1)) (written_bytes_ w) (written_records_ w)
    (durable_bytes_ w) (durable_records_ w) (unsynced_bytes_ w) (Some sequence)
    (wrap64 (pending_bytes_ w + zlen encoded)) (pending_records_ w ++ [encoded]) (stats_ w).

(** ** Predicates *)

Definition ReachedElapsed (now start interval : Z) : bool :=
  negb (interval =? 0) && (start <=? now) && (interval <=? now - start).

Definition rotation_needed (w : SegmentWriter) (now : Z) : bool :=
  let o := options_ w in
  match writer_state_ w with
  | kOpen =>
      (negb (max_segment_bytes o =? 0) && (max_segment_bytes o <=? logical_bytes_ w))
      || (negb (max_segment_records o =? 0) && (max_segment_records o <=? logical_records_ w))
      || ReachedElapsed now (opened_at_ns_ w) (max_segment_duration_ns o)
  | _ => false
  end.

Definition WouldRotate (w : SegmentWriter) (size now : Z) : bool :=
  let o := options_ w in
  rotation_needed w now || (logical_records_ w =? u64_max) || (u64_max - size <? logical_bytes_ w)
  || (negb (max_segment_bytes o =? 0) && (max_segment_bytes o <? wrap64 (logical_bytes_ w + size)))
  || (negb (max_segment_records o =? 0) && (max_segment_records o <=? logical_records_ w)).

Definition BatchDue (w : SegmentWriter) (now : Z) : bool :=
  let o := options_ w in
  (negb (batch_bytes o =? 0) && (batch_bytes o <=? pending_bytes_ w))
  || (negb (batch_records o =? 0) && (batch_records o <=? zlen (pending_records_ w)))
  || ReachedElapsed now (last_flush_at_ns_ w) (flush_interval_ns o).

Definition IntervalSyncDue (w : SegmentWriter) (now : Z) : bool :=
  let o := options_ w in
  negb (unsynced_bytes_ w =? 0)
  && ((negb (sync_interval_bytes o =? 0) && (sync_interval_bytes o <=? unsynced_bytes_ w))
      || ReachedElapsed now (last_sync_at_ns_ w) (sync_interval_ns o)).

Definition ValidateOptions (o : SegmentWriterOptions) : Result unit :=
  fail_if (max_writev_bytes o =? 0) || (two63 - 1 <? max_writev_bytes o) with
    Invalid "segment writev byte quota is invalid" ;;
  fail_if match sync_policy o with kInterval => true | _ => false end
          && (sync_interval_ns o =? 0) && (sync_interval_bytes o =? 0) with
    Invalid "interval sync policy requires a time or byte threshold" ;;
  fail_if negb (max_segment_bytes o =? 0)
          && (max_segment_bytes o <? kEncodedSegmentHeaderSize + kMinimumEncodedRecordSize) with
    Invalid "max_segment_bytes cannot hold one minimum record" ;;
  let! _ := EncodedRecordSize 0 (writer_limits o) in
  Ok tt.

(** ** Writing and syncing *)

Section Writer.
Context {B : Crc32cBackend} (strerror : Errno -> string) (path : string).

Definition WriteIoError (operation : string) (e : Errno) : Status :=
  let code := match e with
    | EACCES | EPERM | EROFS => kPermissionDenied
    | ENOSPC | EDQUOT => kResourceExhausted
    | EEXIST => kAlreadyExists
    | _ => kUnavailable
    end in
  mkStatus code (operation +:+ " '" +:+ path +:+ "': " +:+ strerror e).

Definition Poison {A} (status : Status) (kind : SegmentWriterFailureKind) : WriterM A := fun s =>
  let w := writer s in
  match writer_state_ w with
  | kError => (s, Err (error_status_ w))
  | _ => (mkRunning (set_state w kError status kind) (world s), Err status)
  end.

(** The bytes reach the file, and the answer is used up. *)
Definition append_disk (bytes : list byte) (answers : list WriteAnswer) (e : World) : World :=
  mkWorld (disk e ++ bytes) (synced e) answers (sync_answers e).

(** The loop of [WriteAll] over the answers; a count above the request is the request. *)
Fixpoint write_all (answers : list WriteAnswer) (bytes : list byte) (s : Running) : Running * Result unit :=
  match bytes with
  | [] => (mkRunning (writer s) (append_disk [] answers (world s)), Ok tt)
  | _ =>
      let w := count_stats 1 0 0 0 (writer s) in
      match answers with
      | [] => (mkRunning (count_stats 0 0 0 (zlen bytes) w) (append_disk bytes [] (world s)), Ok tt)
      | WriteErrno EINTR :: rest => write_all rest bytes (mkRunning w (world s))
      | WriteErrno e :: rest =>
          Poison (WriteIoError "cannot append segment" e) kWriteFailure
            (mkRunning w (append_disk [] rest (world s)))
      | WriteCount n :: rest =>
          let written := take n bytes in
          match written with
          | [] => Poison (mkStatus kUnavailable "zero-byte segment write") kWriteFailure
                    (mkRunning w (append_disk [] rest (world s)))
          | _ => write_all rest (drop n bytes)
                   (mkRunning (count_stats 0 0 0 (zlen written) w) (append_disk written rest (world s)))
          end
      end
  end.
Definition WriteAll (bytes : list byte) : WriterM unit := fun s => write_all (write_answers (world s)) bytes s.

(** [IOV_MAX] where the platform defines it; Linux has 1024. *)
Definition kIovMax : option Z := Some 1024.
Definition kMaximumWritevBuffers : nat := 64.
(** [system_limit] is the answer of [sysconf]. *)
Definition EffectiveWritevBufferLimit (system_limit : Z) : nat :=
  if 0 <? system_limit then Nat.min kMaximumWritevBuffers (Z.to_nat system_limit)
  else match kIovMax with
       | Some iov_max => Nat.min kMaximumWritevBuffers (Z.to_nat iov_max)
       | None => 16
       end.

(** The buffers of one request: from the record at the front, of which [offset] bytes are written,
    at most [count] buffers and [budget] bytes. *)
Fixpoint gather (records : list (list byte)) (offset count : nat) (budget : Z) : list (list byte) :=
  match records, count with
  | r :: rest, S count' =>
      if budget <=? 0 then []
      else
        let amount := Z.min (zlen r - Z.of_nat offset) budget in
        take (Z.to_nat amount) (drop offset r) :: gather rest 0 count' (budget - amount)
  | _, _ => []
  end.

(** Account for [consumed] written bytes: the records still to write and the bytes written of the first. *)
Fixpoint advance (records : list (list byte)) (offset consumed : nat) (w : SegmentWriter)
  : list (list byte) * nat * SegmentWriter :=
  match records with
  | [] => ([], offset, w)
  | r :: rest =>
      if (consumed =? 0)%nat then (records, offset, w)
      else
        let amount := Nat.min (length r - offset) consumed in
        if negb (offset + amount =? length r)%nat then (records, (offset + amount)%nat, w)
        else advance rest 0 (consumed - amount) (count_written (zlen r) w)
  end.

(** The loop of [WritePendingGathered]; [records] are the pending ones from [record_index] on. *)
Fixpoint write_gathered (fuel : nat) (limit : nat) (records : list (list byte)) (offset : nat) (s : Running)
  : Running * Result unit :=
  match fuel, records with
  | _, [] => (s, Ok tt)
  | O, _ => (s, Ok tt)
  | S fuel', _ =>
      let buffers := gather records offset limit (max_writev_bytes (options_ (writer s))) in
      let request := concat buffers in
      match request with
      | [] => Poison (mkStatus kInternal "segment writev made no request") kWriteFailure s
      | _ =>
          let w := count_stats 1 1 (zlen buffers) 0 (writer s) in
          let e := world s in
          match write_answers e with
          | WriteErrno EINTR :: rest =>
              write_gathered fuel' limit records offset (mkRunning w (append_disk [] rest e))
          | WriteErrno err :: rest =>
              Poison (WriteIoError "cannot append segment" err) kWriteFailure (mkRunning w (append_disk [] rest e))
          | answers =>
              let '(written, rest) := match answers with
                                      | WriteCount n :: rest => (take n request, rest)
                                      | _ => (request, [])
                                      end in
              match written with
              | [] => Poison (mkStatus kUnavailable "zero-byte segment writev") kWriteFailure
                        (mkRunning w (append_disk [] rest e))
              | _ =>
                  let '(records', offset', w') := advance records offset (length written) (count_stats 0 0 0 (zlen written) w) in
                  write_gathered fuel' limit records' offset' (mkRunning w' (append_disk written rest e))
              end
          end
      end
  end.

Context (system_limit : Z).

(** Every round uses up an answer or writes a byte. *)
Definition WritePendingGathered : WriterM unit := fun s =>
  let records := pending_records_ (writer s) in
  write_gathered (length (concat records) + length (write_answers (world s))) (EffectiveWritevBufferLimit system_limit)
    records 0 s.

Fixpoint data_sync (answers : list (option Errno)) (now : Z) (s : Running) : Running * Result unit :=
  let e := world s in
  match answers with
  | Some EINTR :: rest => data_sync rest now s
  | Some err :: rest =>
      Poison (WriteIoError "cannot fdatasync segment" err) kSyncFailure
        (mkRunning (writer s) (mkWorld (disk e) (synced e) (write_answers e) rest))
  | _ => (mkRunning (mark_durable now (writer s)) (mkWorld (disk e) (disk e) (write_answers e) (tail answers)), Ok tt)
  end.
Definition DataSync (now : Z) : WriterM unit := fun s => data_sync (sync_answers (world s)) now s.

(** ** The operations *)

Definition ValidateOpenAndTime (now : Z) : WriterM unit := fun s =>
  let w := writer s in
  match writer_state_ w with
  | kError => (s, Err (error_status_ w))
  | kSealed => (s, Err (Invalid "segment writer is sealed"))
  | kOpen =>
      if now <? last_observed_at_ns_ w then (s, Err (Invalid "segment writer time must be nondecreasing"))
      else wmodify (set_observed now) s
  end.

(** One record after the other, with a sync after each. *)
Fixpoint write_each (records : list (list byte)) (now : Z) : WriterM unit :=
  match records with
  | [] => wret tt
  | encoded :: rest =>
      WriteAll encoded ;! wmodify (count_written (zlen encoded)) ;! DataSync now ;! write_each rest now
  end.

Definition FlushPending (now : Z) : WriterM unit :=
  do! w := wget (fun w => w) in
  let had_records := negb (bool_decide (pending_records_ w = [])) in
  match sync_policy (options_ w) with
  | kPerRecord => write_each (pending_records_ w) now
  | _ => WritePendingGathered
  end ;!
  wmodify (clear_pending had_records now) ;!
  do! w := wget (fun w => w) in
  match sync_policy (options_ w) with
  | kPerBatch => if had_records then DataSync now else wret tt
  | kInterval => if IntervalSyncDue w now then DataSync now else wret tt
  | _ => wret tt
  end.

(** The records checked and encoded, before any of them is accepted. *)
Fixpoint encode_batch (w : SegmentWriter) (last : option Z) (records : list SegmentRecord)
  : Result (list (list byte * Z)) :=
  match records with
  | [] => Ok []
  | r :: rest =>
      let sequence := ingestion_sequence (header r) in
      fail_if negb (record_topic_id (header r) =? topic_id_ w)
              || negb (record_partition_id (header r) =? partition_id_ w) with
        Invalid "record topic or partition does not match segment" ;;
      fail_if match last with
              | None => negb (sequence =? first_ingestion_sequence_ w)
              | Some previous => sequence <=? previous
              end with
        Invalid (match last with
                 | Some _ => "record ingestion_sequence must be strictly increasing"
                 | None => "first record sequence does not match segment header"
                 end) ;;
      let! encoded := EncodeRecord r (writer_limits (options_ w)) in
      let! others := encode_batch w (Some sequence) rest in
      Ok ((encoded, sequence) :: others)
  end.

Fixpoint append_encoded (encoded : list (list byte * Z)) (now accepted : Z) : WriterM SegmentAppendResult :=
  match encoded with
  | [] => wret (mkAppendResult accepted false)
  | (bytes, sequence) :: rest =>
      do! would_rotate := wget (fun w => WouldRotate w (zlen bytes) now) in
      if would_rotate then FlushPending now ;! wret (mkAppendResult accepted true)
      else
        wmodify (push_pending bytes sequence) ;!
        do! rotate := wget (fun w => rotation_needed w now) in
        if rotate then FlushPending now ;! wret (mkAppendResult (accepted + 1) true)
        else
          do! due := wget (fun w => BatchDue w now) in
          (if due then FlushPending now else wret tt) ;!
          append_encoded rest now (accepted + 1)
  end.

Definition AppendBatch (records : list SegmentRecord) (now : Z) : WriterM SegmentAppendResult :=
  ValidateOpenAndTime now ;!
  match records with
  | [] => wret (mkAppendResult 0 false)
  | _ =>
      do! w := wget (fun w => w) in
      match encode_batch w (last_sequence_ w) records with
      | Err e => wthrow e
      | Ok encoded => append_encoded encoded now 0
      end
  end.
Definition Append (r : SegmentRecord) (now : Z) : WriterM SegmentAppendResult := AppendBatch [r] now.

Definition Flush (now : Z) : WriterM unit := fun s =>
  match ValidateOpenAndTime now s with
  | (s', Err e) => (s', match writer_state_ (writer s') with kSealed => Ok tt | _ => Err e end)
  | (s', Ok _) => FlushPending now s'
  end.

Definition Seal (now : Z) : WriterM unit := fun s =>
  match writer_state_ (writer s) with
  | kSealed => (s, Ok tt)
  | _ =>
      (ValidateOpenAndTime now ;! FlushPending now ;! DataSync now ;!
       wmodify (fun w => set_state w kSealed (error_status_ w) (failure_kind_ w))) s
  end.

Definition ok_status : Status := mkStatus kOk "".

Definition new_writer (h : SegmentHeader) (opened_at : Z) (o : SegmentWriterOptions) : SegmentWriter :=
  mkWriter o kOpen ok_status kNoFailure opened_at (segment_topic_id h) (segment_partition_id h)
    (first_ingestion_sequence h) opened_at opened_at opened_at kEncodedSegmentHeaderSize 0 kEncodedSegmentHeaderSize 0
    0 0 kEncodedSegmentHeaderSize None 0 [] (mkStats 0 0 0 0).

(** On an error the file has been removed again, or never was. *)
Definition Create (opened : option Errno) (h : SegmentHeader) (opened_at : Z) (o : SegmentWriterOptions)
    (writes : list WriteAnswer) (syncs : list (option Errno)) : Result Running :=
  fail_if bool_decide (path = "") with Invalid "segment path is empty" ;;
  check! ValidateOptions o ;;
  let! encoded_header := EncodeSegmentHeader h in
  match opened with
  | Some e => Err (WriteIoError "cannot create segment" e)
  | None =>
      match WriteAll encoded_header (mkRunning (new_writer h opened_at o) (mkWorld [] [] writes syncs)) with
      | (s, Ok _) => Ok s
      | (_, Err e) => Err e
      end
  end.
End Writer.
