(* ===== verification/SegmentLog.v ===== *)
(** * What a segment writer leaves on disk

    The invariant of [SegmentWriter] under any sequence of calls and any answers of the
    operating system, and its composition with recovery: the file is the segment header
    followed by a prefix of the accepted records, the counters say where it stands, and what
    was synced survives a crash and a repair. *)
From S2P Require Import Prelude Bytes Crc32c LittleEndian SegmentFormat SegmentRecovery SegmentScan SegmentRepair SegmentWriter.

Section Log.
Context {B : Crc32cBackend} {BL : Crc32cLaws B} (strerror : Errno -> string) (path : string) (system_limit : Z).

(** ** Accepted records *)

(** Records the writer may take after the sequence [last]. *)
Fixpoint admitted (h : SegmentHeader) (limits : SegmentFormatLimits) (last : option Z) (rs : list SegmentRecord) : Prop :=
  match rs with
  | [] => True
  | r :: rs =>
      header_typed (header r) /\ record_ok limits r /\
      record_topic_id (header r) = segment_topic_id h /\ record_partition_id (header r) = segment_partition_id h /\
      match last with
      | None => ingestion_sequence (header r) = first_ingestion_sequence h
      | Some p => p < ingestion_sequence (header r)
      end /\ admitted h limits (Some (ingestion_sequence (header r))) rs
  end.

Definition last_of (last : option Z) (rs : list SegmentRecord) : option Z :=
  match list.last rs with Some r => Some (ingestion_sequence (header r)) | None => last end.

Lemma last_of_cons last r rs : last_of last (r :: rs) = last_of (Some (ingestion_sequence (header r))) rs.
Proof. unfold last_of. rewrite last_cons. by destruct (list.last rs). Qed.

Lemma admitted_app h limits rs rs' : forall last,
  admitted h limits last (rs ++ rs') <-> admitted h limits last rs /\ admitted h limits (last_of last rs) rs'.
Proof.
  induction rs as [|r rs IH]; intros last; cbn [app admitted]; [unfold last_of; cbn; tauto|].
  rewrite IH, last_of_cons. tauto.
Qed.

Definition encodings (rs : list SegmentRecord) : list (list byte * Z) :=
  (fun r => (record_bytes r, ingestion_sequence (header r))) <$> rs.

Lemma encode_batch_ok h w rs : forall last encoded,
  topic_id_ w = segment_topic_id h -> partition_id_ w = segment_partition_id h ->
  first_ingestion_sequence_ w = first_ingestion_sequence h -> Forall (fun r => header_typed (header r)) rs ->
  encode_batch w last rs = Ok encoded ->
  admitted h (writer_limits (options_ w)) last rs /\ encoded = encodings rs.
Proof.
  induction rs as [|r rs IH]; intros last encoded Ht Hp Hf Hty H; cbn [encode_batch] in H; [by injection H as <-|].
  apply list.Forall_cons in Hty as [Hr Hty]. step_if. step_if. bool_to_prop.
  destruct (EncodeRecord r _) as [bytes|] eqn:Er; [|discriminate]. apply EncodeRecord_ok in Er as [Hok ->]. cbn [bindR] in H.
  destruct (encode_batch w _ rs) as [others|] eqn:Eo; [|discriminate]. injection H as <-.
  destruct (IH _ _ Ht Hp Hf Hty Eo) as [Ha ->]. split; [|done].
  cbn [admitted]. split_and!; try congruence; try done. destruct last; bool_to_prop; [lia | congruence].
Qed.

(** ** Positions in the stream of records *)

Definition end_of (rs : list SegmentRecord) (n : nat) : nat := length (records_bytes (take n rs)).

Lemma end_of_S rs n r : rs !! n = Some r -> end_of rs (S n) = (end_of rs n + length (record_bytes r))%nat.
Proof.
  intros H. unfold end_of. rewrite (take_S_r _ _ _ H), records_bytes_app, length_app.
  unfold records_bytes at 2. cbn. by rewrite app_nil_r.
Qed.

Lemma end_of_all rs n : (length rs <= n)%nat -> end_of rs n = length (records_bytes rs).
Proof. intros H. unfold end_of. by rewrite take_ge. Qed.

Lemma end_of_le rs n : (end_of rs n <= length (records_bytes rs))%nat.
Proof.
  unfold end_of. rewrite <- (take_drop n rs) at 2. rewrite records_bytes_app, length_app. lia.
Qed.

Lemma end_of_mono rs m n : (m <= n)%nat -> (end_of rs m <= end_of rs n)%nat.
Proof.
  intros H. unfold end_of. replace (take m rs) with (take m (take n rs)) by (rewrite take_take; f_equal; lia).
  apply (end_of_le (take n rs) m).
Qed.

Lemma end_of_app rs rs' n : (n <= length rs)%nat -> end_of (rs ++ rs') n = end_of rs n.
Proof. intros H. unfold end_of. by rewrite take_app_le. Qed.

Lemma stream_take rs n : take (end_of rs n) (records_bytes rs) = records_bytes (take n rs).
Proof.
  rewrite <- (take_drop n rs) at 2. rewrite records_bytes_app. by apply take_app_length'.
Qed.

Lemma stream_drop rs n : drop (end_of rs n) (records_bytes rs) = records_bytes (drop n rs).
Proof.
  rewrite <- (take_drop n rs) at 2. rewrite records_bytes_app. by apply drop_app_length'.
Qed.

Lemma concat_records rs : concat (record_bytes <$> rs) = records_bytes rs.
Proof. done. Qed.

Lemma record_bytes_nonempty r : (144 <= length (record_bytes r))%nat.
Proof. pose proof (record_bytes_length r). pose proof (record_size_pos r). ulia. Qed.

Lemma stream_length rs : 144 * zlen rs <= zlen (records_bytes rs).
Proof.
  induction rs as [|r rs IH]; [done|]. rewrite records_bytes_cons. pose proof (record_bytes_nonempty r).
  unfold zlen in *. rewrite length_app. cbn [length]. lia.
Qed.

(** ** The books of a writer *)

(** The accepted records are [rs]; [nw] of them are counted as written and [nd] as durable; the
    file holds the header and [pos] bytes of the stream of records. *)
Record books (h : SegmentHeader) (o : SegmentWriterOptions) (rs : list SegmentRecord) (nw nd pos : nat) (s : Running) : Prop := {
  bk_options : options_ (writer s) = o;
  bk_topic : topic_id_ (writer s) = segment_topic_id h;
  bk_partition : partition_id_ (writer s) = segment_partition_id h;
  bk_first : first_ingestion_sequence_ (writer s) = first_ingestion_sequence h;
  bk_logical : logical_bytes_ (writer s) = 52 + zlen (records_bytes rs);
  bk_bound : 52 + zlen (records_bytes rs) <= u64_max;
  bk_records : logical_records_ (writer s) = zlen rs;
  bk_last : last_sequence_ (writer s) = last_of None rs;
  bk_nw : (nw <= length rs)%nat;
  bk_written : written_bytes_ (writer s) = 52 + Z.of_nat (end_of rs nw);
  bk_written_records : written_records_ (writer s) = Z.of_nat nw;
  bk_nd : (nd <= nw)%nat;
  bk_durable_records : durable_records_ (writer s) = Z.of_nat nd;
  bk_durable : durable_bytes_ (writer s) = zlen (synced (world s));
  bk_unsynced : unsynced_bytes_ (writer s) = written_bytes_ (writer s) - durable_bytes_ (writer s);
  bk_synced : (synced (world s) = [] /\ nd = 0%nat) \/
              synced (world s) = segment_bytes h ++ records_bytes (take nd rs);
  bk_pos : (end_of rs nw <= pos <= length (records_bytes rs))%nat;
  bk_disk : disk (world s) = segment_bytes h ++ take pos (records_bytes rs)
}.

Ltac fields :=
  cbn [writer world disk synced write_answers sync_answers options_ writer_state_ error_status_ failure_kind_
    opened_at_ns_ topic_id_ partition_id_ first_ingestion_sequence_ last_observed_at_ns_ last_flush_at_ns_
    last_sync_at_ns_ logical_bytes_ logical_records_ written_bytes_ written_records_ durable_bytes_ durable_records_
    unsynced_bytes_ last_sequence_ pending_bytes_ pending_records_ stats_ set_state set_observed count_written count_stats
    mark_durable clear_pending push_pending append_disk] in *.

(** Changes the books do not see. *)
Ltac keep_books := intros []; split; fields; (assumption || (rewrite ?app_nil_r; assumption)).

Lemma books_stats h o rs nw nd pos s a b c d :
  books h o rs nw nd pos s -> books h o rs nw nd pos (mkRunning (count_stats a b c d (writer s)) (world s)).
Proof. keep_books. Qed.
Lemma books_answers h o rs nw nd pos s answers :
  books h o rs nw nd pos s -> books h o rs nw nd pos (mkRunning (writer s) (append_disk [] answers (world s))).
Proof. keep_books. Qed.
Lemma books_sync_answers h o rs nw nd pos s answers :
  books h o rs nw nd pos s ->
  books h o rs nw nd pos (mkRunning (writer s) (mkWorld (disk (world s)) (synced (world s)) (write_answers (world s)) answers)).
Proof. keep_books. Qed.
Lemma books_state h o rs nw nd pos s st e k :
  books h o rs nw nd pos s -> books h o rs nw nd pos (mkRunning (set_state (writer s) st e k) (world s)).
Proof. keep_books. Qed.
Lemma books_observed h o rs nw nd pos s now :
  books h o rs nw nd pos s -> books h o rs nw nd pos (mkRunning (set_observed now (writer s)) (world s)).
Proof. keep_books. Qed.
Lemma books_clear h o rs nw nd pos s had now :
  books h o rs nw nd pos s -> books h o rs nw nd pos (mkRunning (clear_pending had now (writer s)) (world s)).
Proof. keep_books. Qed.

(** The next bytes of the stream reach the file. *)
Lemma books_write h o rs nw nd pos s bytes rest answers :
  books h o rs nw nd pos s -> drop pos (records_bytes rs) = bytes ++ rest ->
  books h o rs nw nd (pos + length bytes) (mkRunning (writer s) (append_disk bytes answers (world s))).
Proof.
  intros [] Hd. pose proof (f_equal length Hd) as Hl. rewrite length_drop, length_app in Hl.
  split; cbn [writer world append_disk disk synced]; try assumption; [lia|].
  rewrite bk_disk0, <- app_assoc. f_equal. by rewrite <- take_take_drop, Hd, take_app_length.
Qed.

(** A record whose bytes are all in the file is counted. *)
Lemma books_count h o rs nw nd pos s r :
  books h o rs nw nd pos s -> rs !! nw = Some r -> (end_of rs (S nw) <= pos)%nat ->
  books h o rs (S nw) nd pos (mkRunning (count_written (zlen (record_bytes r)) (writer s)) (world s)).
Proof.
  intros [] Hr Hpos. pose proof (end_of_S _ _ _ Hr) as He. pose proof (lookup_lt_Some _ _ _ Hr). pose proof (end_of_le rs (S nw)).
  pose proof (stream_length rs). assert (0 <= zlen (synced (world s))) by (unfold zlen; lia).
  split; fields; try assumption; try lia.
  - rewrite bk_written0, wrap64_id by ulia. unfold zlen. lia.
  - rewrite bk_written_records0, wrap64_id by ulia. lia.
  - assert (zlen (synced (world s)) <= 52 + Z.of_nat (end_of rs nw)) as Hd.
    { destruct bk_synced0 as [[-> _]| ->]; [change (zlen []) with 0; lia|]. pose proof (end_of_mono rs nd nw bk_nd0) as Hm.
      unfold end_of, zlen in *. rewrite length_app, segment_bytes_length. lia. }
    rewrite bk_unsynced0, bk_durable0, bk_written0 in *. rewrite !wrap64_id by ulia. lia.
Qed.

(** Everything in the file is durable. *)
Lemma books_sync h o rs nw nd s now answers :
  books h o rs nw nd (end_of rs nw) s ->
  books h o rs nw nw (end_of rs nw)
    (mkRunning (mark_durable now (writer s)) (mkWorld (disk (world s)) (disk (world s)) (write_answers (world s)) answers)).
Proof.
  intros []. split; fields; try assumption; try lia.
  - rewrite bk_disk0, bk_written0, stream_take. unfold zlen, end_of. rewrite length_app, segment_bytes_length. lia.
  - right. by rewrite bk_disk0, stream_take.
Qed.

(** A record is accepted. *)
Lemma books_push h o rs nw nd pos s r :
  books h o rs nw nd pos s -> 52 + zlen (records_bytes rs) + zlen (record_bytes r) <= u64_max ->
  books h o (rs ++ [r]) nw nd pos
    (mkRunning (push_pending (record_bytes r) (ingestion_sequence (header r)) (writer s)) (world s)).
Proof.
  intros [] Hb. pose proof (stream_length rs). assert (0 <= zlen (record_bytes r)) by (unfold zlen; lia).
  pose proof (record_bytes_nonempty r).
  assert (records_bytes (rs ++ [r]) = records_bytes rs ++ record_bytes r) as E.
  { rewrite records_bytes_app. unfold records_bytes at 2. cbn. by rewrite app_nil_r. }
  assert (zlen (records_bytes (rs ++ [r])) = zlen (records_bytes rs) + zlen (record_bytes r)) as Ez.
  { rewrite E. unfold zlen. rewrite length_app. lia. }
  split; fields; rewrite ?end_of_app by done; try assumption; try lia.
  - rewrite bk_logical0, wrap64_id by ulia. lia.
  - rewrite bk_records0, wrap64_id by ulia. unfold zlen. rewrite length_app. cbn [length]. lia.
  - unfold last_of. by rewrite last_snoc.
  - rewrite length_app. lia.
  - rewrite take_app_le by lia. done.
  - rewrite E, length_app. lia.
  - rewrite E, take_app_le by lia. done.
Qed.

(** ** Writes *)

(** The writer is poisoned; at most a part of the next record is in the file. *)
Definition broken (h : SegmentHeader) (o : SegmentWriterOptions) (rs : list SegmentRecord) (s : Running) : Prop :=
  exists nw nd pos, books h o rs nw nd pos s /\ writer_state_ (writer s) = kError /\
    ((nw < length rs)%nat -> (pos < end_of rs (S nw))%nat).

Lemma poison_broken {A} h o rs nw nd pos s st k :
  books h o rs nw nd pos s -> ((nw < length rs)%nat -> (pos < end_of rs (S nw))%nat) ->
  exists s' e, @Poison A st k s = (s', Err e) /\ broken h o rs s'.
Proof.
  intros Hb Hpos. unfold Poison. destruct (writer_state_ (writer s)) eqn:E; do 2 eexists; (split; [reflexivity|]);
    exists nw, nd, pos; (split_and!; [|done..]); try done; by apply books_state.
Qed.

(** Outcome of a step that ends in an open writer whose books are [P], or poisons it. *)
Definition outcome {A} (h : SegmentHeader) (o : SegmentWriterOptions) (rs : list SegmentRecord)
    (P : Running -> A -> Prop) (x : Running * Result A) : Prop :=
  match x with
  | (s', Ok a) => writer_state_ (writer s') = kOpen /\ P s' a
  | (s', Err _) => broken h o rs s'
  end.

Lemma outcome_poison {A} h o rs nw nd pos s st k (P : Running -> A -> Prop) :
  books h o rs nw nd pos s -> ((nw < length rs)%nat -> (pos < end_of rs (S nw))%nat) -> outcome h o rs P (Poison st k s).
Proof. intros Hb Hp. destruct (@poison_broken A h o rs nw nd pos s st k Hb Hp) as (s' & e & -> & H). done. Qed.

Lemma outcome_bind {A C} h o rs (P : Running -> A -> Prop) (Q : Running -> C -> Prop) (m : WriterM A) k s :
  outcome h o rs P (m s) -> (forall s' a, writer_state_ (writer s') = kOpen -> P s' a -> outcome h o rs Q (k a s')) ->
  outcome h o rs Q (wbind m k s).
Proof. intros Hm Hk. unfold wbind. destruct (m s) as [s' [a|e]]; [|done]. destruct Hm. by apply Hk. Qed.

Lemma write_all_books h o rs nw nd answers : forall bytes rest pos s,
  books h o rs nw nd pos s -> writer_state_ (writer s) = kOpen ->
  drop pos (records_bytes rs) = bytes ++ rest -> (pos + length bytes <= end_of rs (S nw))%nat ->
  outcome h o rs (fun s' _ => books h o rs nw nd (pos + length bytes) s') (write_all strerror path answers bytes s).
Proof.
  induction answers as [|a answers IH]; intros bytes rest pos s Hb Hs Hd He; (destruct bytes as [|b bytes];
    [split; [done|]; rewrite Nat.add_0_r; by apply books_answers|]); set (l := b :: bytes) in *;
    assert (0 < length l)%nat as Hl by (cbn; lia); cbn [write_all]; unfold l at 1; cbv iota; fold l.
  - split; [done|]. apply (books_stats _ _ _ _ _ _ (mkRunning _ _)), (books_stats _ _ _ _ _ _ (mkRunning _ _)).
    by eapply books_write.
  - assert (forall e, books h o rs nw nd pos (mkRunning (count_stats 1 0 0 0 (writer s)) (append_disk [] e (world s)))) as Hb'.
    { intros e. apply (books_stats _ _ _ _ _ _ (mkRunning _ _)), (books_answers _ _ _ _ _ _ s), Hb. }
    destruct a as [e|n].
    + destruct e; try (eapply outcome_poison; [apply Hb' | lia]).
      apply (IH _ rest); [by apply books_stats | done..].
    + destruct (take n l) as [|c written] eqn:Et; [eapply outcome_poison; [apply Hb' | lia]|].
      rewrite <- Et.
      assert (drop pos (records_bytes rs) = take n l ++ drop n l ++ rest) as Hd' by (by rewrite Hd, app_assoc, take_drop).
      assert (length l = length (take n l) + length (drop n l))%nat as Elen by (rewrite <- length_app, take_drop; done).
      rewrite Elen, Nat.add_assoc. eapply IH; fields; [| done | | lia].
      * apply (books_stats _ _ _ _ _ _ (mkRunning _ _)), (books_stats _ _ _ _ _ _ (mkRunning _ _)).
        eapply books_write; [done | exact Hd'].
      * by rewrite <- drop_drop, Hd', drop_app_length.
Qed.

(** ** Gathered writes *)

(** The buffers of a request are the next bytes of the stream. *)
Lemma gather_prefix recs : forall off count budget,
  match recs with [] => True | r :: _ => (off <= length r)%nat end ->
  exists rest, drop off (concat recs) = concat (gather recs off count budget) ++ rest.
Proof.
  induction recs as [|r recs IH]; intros off count budget Hoff; [exists []; cbn; by rewrite drop_nil|].
  cbn [gather concat]. destruct count as [|count]; [by eexists|].
  destruct (Z.leb_spec budget 0); [by eexists|]. cbn [concat]. rewrite drop_app_le by done.
  set (amount := Z.min _ _). destruct (Z.le_gt_cases (zlen r - Z.of_nat off) budget).
  - destruct (IH 0%nat count (budget - amount)) as [rest E]; [destruct recs; [done | lia]|]. rewrite drop_0 in E.
    exists rest. rewrite take_ge by (rewrite length_drop; unfold amount; ulia). by rewrite E, app_assoc.
  - assert (gather recs 0 count (budget - amount) = []) as ->.
    { destruct recs, count; cbn [gather]; try done. by rewrite (proj2 (Z.leb_le _ _)) by (unfold amount; lia). }
    exists (drop (Z.to_nat amount) (drop off r) ++ concat recs). cbn [concat]. by rewrite app_nil_r, app_assoc, take_drop.
Qed.

Lemma gather_nonempty r recs off count budget :
  (off < length r)%nat -> (0 < count)%nat -> 0 < budget -> concat (gather (r :: recs) off count budget) <> [].
Proof.
  intros Ho Hc Hb. destruct count as [|count]; [lia|]. cbn [gather]. rewrite (proj2 (Z.leb_gt _ _)) by lia. cbn [concat].
  intros [E _]%app_nil. apply (f_equal length) in E. rewrite length_take, length_drop in E. cbn in E. ulia.
Qed.

Lemma drop_lookup {A} (l : list A) n x l' : drop n l = x :: l' -> l !! n = Some x /\ l' = drop (S n) l.
Proof.
  intros H. split.
  - rewrite <- (Nat.add_0_r n), <- lookup_drop, H. done.
  - replace (S n) with (n + 1)%nat by lia. by rewrite <- drop_drop, H.
Qed.

(** [pos] is [off] bytes into the record number [nw]. *)
Definition inside (rs : list SegmentRecord) (nw off pos : nat) : Prop :=
  (end_of rs nw + off = pos)%nat /\ ((nw < length rs)%nat -> (pos < end_of rs (S nw))%nat) /\
  ((length rs <= nw)%nat -> off = 0%nat).

Lemma inside_start rs nw : (nw <= length rs)%nat -> inside rs nw 0 (end_of rs nw).
Proof.
  intros H. split_and!; [lia | | done]. intros Hlt. apply lookup_lt_is_Some_2 in Hlt as [r Hr].
  rewrite (end_of_S _ _ _ Hr). pose proof (record_bytes_nonempty r). lia.
Qed.

Lemma advance_books h o rs nd e pos recs : forall nw off consumed w,
  recs = drop nw rs -> books h o rs nw nd pos (mkRunning w e) -> (end_of rs nw + off + consumed = pos)%nat ->
  inside rs nw off (end_of rs nw + off) ->
  exists nw' off' w', advance (record_bytes <$> recs) off consumed w = (record_bytes <$> drop nw' rs, off', w') /\
    books h o rs nw' nd pos (mkRunning w' e) /\ inside rs nw' off' pos /\ writer_state_ w' = writer_state_ w.
Proof.
  induction recs as [|r recs IH]; intros nw off consumed w Hr Hb Hp (I1 & I2 & I3).
  - exists nw, off, w. pose proof (bk_nw _ _ _ _ _ _ _ Hb) as Hn. pose proof (bk_pos _ _ _ _ _ _ _ Hb) as Hpos.
    assert (length rs <= nw)%nat as Hlen by (apply (f_equal length) in Hr; rewrite length_drop in Hr; cbn in Hr; lia).
    specialize (I3 Hlen). rewrite end_of_all in Hp by done. rewrite <- Hr. cbn [fmap list_fmap advance]. split_and!; try done.
    split_and!; try done; rewrite ?end_of_all by lia; lia.
  - destruct (drop_lookup _ _ _ _ (eq_sym Hr)) as [Hl ->]. pose proof (lookup_lt_Some _ _ _ Hl) as Hlt.
    pose proof (end_of_S _ _ _ Hl) as He. specialize (I2 Hlt).
    cbn [fmap list_fmap advance]. destruct (Nat.eqb_spec consumed 0) as [-> |Hc].
    { exists nw, off, w. rewrite <- Hr. replace pos with (end_of rs nw + off)%nat in * by lia. by split_and!. }
    destruct (negb _) eqn:E; bool_to_prop; [apply Nat.eqb_neq in E | apply Nat.eqb_eq in E].
    + exists nw, (off + Nat.min (length (record_bytes r) - off) consumed)%nat, w. rewrite <- Hr.
      split_and!; [done | done | | done]. split_and!; intros; lia.
    + apply (books_count _ _ _ _ _ _ _ r) in Hb; [|done | lia]. cbn [writer world] in Hb.
      destruct (IH (S nw) 0%nat (consumed - Nat.min (length (record_bytes r) - off) consumed)%nat
        (count_written (zlen (record_bytes r)) w)) as (nw' & off' & w' & H1 & H2 & H3 & H4);
        [done | done | lia | rewrite Nat.add_0_r; by apply inside_start|].
      exists nw', off', w'. split_and!; [exact H1 | done..].
Qed.

Lemma write_gathered_books h o rs nd limit fuel : forall nw off pos s,
  (0 < limit)%nat -> 0 < max_writev_bytes o -> books h o rs nw nd pos s -> writer_state_ (writer s) = kOpen ->
  inside rs nw off pos -> (length (records_bytes rs) - pos + length (write_answers (world s)) <= fuel)%nat ->
  outcome h o rs (fun s' _ => books h o rs (length rs) nd (end_of rs (length rs)) s')
    (write_gathered strerror path fuel limit (record_bytes <$> drop nw rs) off s).
Proof.
  induction fuel as [|fuel IH]; intros nw off pos s Hlim Hmax Hb Hs (I1 & I2 & I3) Hfuel;
    (destruct (drop nw rs) as [|r recs] eqn:Er;
     [ assert (nw = length rs) as -> by (apply (f_equal length) in Er; rewrite length_drop in Er; cbn in Er;
         pose proof (bk_nw _ _ _ _ _ _ _ Hb); lia); cbn [fmap list_fmap write_gathered]; split; [done|];
       rewrite I3, Nat.add_0_r in I1 by lia; by subst pos |]).
  all: destruct (drop_lookup _ _ _ _ Er) as [Hl Hrecs]; pose proof (lookup_lt_Some _ _ _ Hl) as Hlt.
  all: pose proof (end_of_S _ _ _ Hl) as He; pose proof (end_of_le rs (S nw)) as Hle; specialize (I2 Hlt).
  { exfalso. lia. }
  cbn [fmap list_fmap write_gathered]. rewrite (bk_options _ _ _ _ _ _ _ Hb).
  set (l := record_bytes <$> recs). set (buffers := gather _ off limit _).
  assert (concat buffers <> []) as Hne by (apply gather_nonempty; lia).
  destruct (gather_prefix (record_bytes r :: l) off limit (max_writev_bytes o)) as [rest Hrest]; [lia|].
  change (concat (record_bytes r :: l)) with (records_bytes (r :: recs)) in Hrest. rewrite <- Er, <- stream_drop, drop_drop, I1 in Hrest.
  fold buffers in Hrest. destruct (concat buffers) as [|b0 request] eqn:Ereq; [done|]. rewrite <- Ereq in *. clear Ereq.
  set (w := count_stats 1 1 (zlen buffers) 0 (writer s)).
  assert (forall e, books h o rs nw nd pos (mkRunning w (append_disk [] e (world s)))) as Hb'.
  { intros e. apply (books_stats _ _ _ _ _ _ (mkRunning _ _)), (books_answers _ _ _ _ _ _ s), Hb. }
  change (record_bytes r :: l) with (record_bytes <$> (r :: recs)). rewrite <- Er.
  assert (forall written rest' answers, written <> [] -> drop pos (records_bytes rs) = written ++ rest' ->
    (length answers <= length (write_answers (world s)))%nat ->
    outcome h o rs (fun s' _ => books h o rs (length rs) nd (end_of rs (length rs)) s')
      (let '(records', offset', w') := advance (record_bytes <$> drop nw rs) off (length written) (count_stats 0 0 0 (zlen written) w) in
       write_gathered strerror path fuel limit records' offset' (mkRunning w' (append_disk written answers (world s))))) as Hgo.
  { intros written rest' answers Hw Hsplit Ha. assert (0 < length written)%nat by (destruct written; [done | cbn; lia]).
    pose proof (f_equal length Hsplit) as Hlen. rewrite length_drop, length_app in Hlen.
    assert (books h o rs nw nd (pos + length written)
      (mkRunning (count_stats 0 0 0 (zlen written) w) (append_disk written answers (world s)))) as Hb2.
    { do 2 apply (books_stats _ _ _ _ _ _ (mkRunning _ _)). by eapply books_write. }
    destruct (advance_books h o rs nd _ _ (drop nw rs) nw off (length written) _ eq_refl Hb2) as (nw' & off' & w' & -> & A2 & A3 & A4);
      [lia | split_and!; intros; lia|].
    apply (IH nw' off' (pos + length written)%nat); try done; [cbn [writer]; by rewrite A4|]. cbn [world append_disk write_answers]. lia. }
  destruct (write_answers (world s)) as [|[e|n] answers] eqn:Ea.
  - by eapply Hgo.
  - destruct e; try (eapply outcome_poison; [apply Hb' | done]).
    apply (IH nw off pos); try done. cbn [world append_disk write_answers length] in *. lia.
  - destruct (take n (concat buffers)) as [|b1 written] eqn:Et; [eapply outcome_poison; [apply Hb' | done]|].
    rewrite <- Et. eapply (Hgo _ (drop n (concat buffers) ++ rest)); [by rewrite Et | | cbn; lia].
    by rewrite Hrest, app_assoc, take_drop.
Qed.

(** ** Syncs and flushes *)

Lemma data_sync_books h o rs nw nd now answers : forall s,
  books h o rs nw nd (end_of rs nw) s -> writer_state_ (writer s) = kOpen ->
  outcome h o rs (fun s' _ => books h o rs nw nw (end_of rs nw) s' /\ synced (world s') = disk (world s') /\
      pending_records_ (writer s') = pending_records_ (writer s) /\ pending_bytes_ (writer s') = pending_bytes_ (writer s))
    (data_sync strerror path answers now s).
Proof.
  assert (forall s, books h o rs nw nd (end_of rs nw) s -> writer_state_ (writer s) = kOpen -> forall rest,
    outcome h o rs (fun s' _ => books h o rs nw nw (end_of rs nw) s' /\ synced (world s') = disk (world s') /\
      pending_records_ (writer s') = pending_records_ (writer s) /\ pending_bytes_ (writer s') = pending_bytes_ (writer s))
      (mkRunning (mark_durable now (writer s)) (mkWorld (disk (world s)) (disk (world s)) (write_answers (world s)) rest), Ok tt)) as Hok.
  { intros s Hb Hs rest. split; [done|]. split_and!; [|done..]. by apply books_sync with nd. }
  induction answers as [|[e|] answers IH]; intros s Hb Hs; cbn [data_sync]; [by apply Hok | | by apply Hok].
  destruct e; try by apply IH.
  all: eapply outcome_poison; [by apply books_sync_answers | apply inside_start, Hb].
Qed.

Lemma DataSync_books h o rs nw nd now s :
  books h o rs nw nd (end_of rs nw) s -> writer_state_ (writer s) = kOpen ->
  outcome h o rs (fun s' _ => books h o rs nw nw (end_of rs nw) s' /\ synced (world s') = disk (world s') /\
      pending_records_ (writer s') = pending_records_ (writer s) /\ pending_bytes_ (writer s') = pending_bytes_ (writer s))
    (DataSync strerror path now s).
Proof. apply data_sync_books. Qed.

Lemma write_each_books h o rs now recs : forall nw nd s,
  recs = drop nw rs -> books h o rs nw nd (end_of rs nw) s -> writer_state_ (writer s) = kOpen ->
  outcome h o rs (fun s' _ => exists nd', books h o rs (length rs) nd' (end_of rs (length rs)) s' /\ (nd = nw -> nd' = length rs))
    (write_each strerror path (record_bytes <$> recs) now s).
Proof.
  induction recs as [|r recs IH]; intros nw nd s Hr Hb Hs.
  - assert (nw = length rs) as -> by (apply (f_equal length) in Hr; rewrite length_drop in Hr; cbn in Hr;
      pose proof (bk_nw _ _ _ _ _ _ _ Hb); lia). split; [done|]. exists nd. done.
  - destruct (drop_lookup _ _ _ _ (eq_sym Hr)) as [Hl ->]. pose proof (end_of_S _ _ _ Hl) as He.
    cbn [fmap list_fmap write_each]. eapply outcome_bind.
    { eapply (write_all_books h o rs nw nd _ _ (records_bytes (drop (S nw) rs))); [done | done | | lia].
      by rewrite stream_drop, <- Hr. }
    intros s1 u1 H1 B1. cbv beta in B1. rewrite <- He in B1.
    eapply (outcome_bind _ _ _ (fun s' _ => books h o rs (S nw) nd (end_of rs (S nw)) s')).
    { split; [done|]. by apply books_count. }
    intros s2 u2 H2 B2. eapply outcome_bind; [by eapply DataSync_books|]. intros s3 u3 H3 (B3 & _).
    pose proof (IH (S nw) (S nw) s3 eq_refl B3 H3) as H. destruct (write_each _ _ _ _ s3) as [s4 [[]|]]; [|done].
    destruct H as [H4 (nd' & B4 & E4)]. split; [done|]. exists nd'. auto.
Qed.

(** The policies under which no record stays written but not synced. *)
Definition prompt (o : SegmentWriterOptions) : bool :=
  match sync_policy o with kPerRecord | kPerBatch => true | _ => false end.

(** An open writer: everything written is whole records, the rest is pending. *)
Definition open_books (h : SegmentHeader) (o : SegmentWriterOptions) (rs : list SegmentRecord) (nw nd : nat) (s : Running) : Prop :=
  books h o rs nw nd (end_of rs nw) s /\ pending_records_ (writer s) = record_bytes <$> drop nw rs /\
  pending_bytes_ (writer s) = zlen (records_bytes (drop nw rs)) /\ (prompt o = true -> nd = nw).

Lemma limit_pos : (0 < EffectiveWritevBufferLimit system_limit)%nat.
Proof.
  unfold EffectiveWritevBufferLimit, kMaximumWritevBuffers, kIovMax.
  destruct (Z.ltb_spec 0 system_limit); [lia|]. by apply Nat.ltb_lt.
Qed.

Lemma flush_writes h o rs nw nd now s :
  0 < max_writev_bytes o -> open_books h o rs nw nd s -> writer_state_ (writer s) = kOpen ->
  outcome h o rs (fun s' _ => exists nd', books h o rs (length rs) nd' (end_of rs (length rs)) s' /\
      (sync_policy o = kPerRecord -> nd' = length rs) /\ (nw = length rs -> nd' = nd))
    (match sync_policy (options_ (writer s)) with
     | kPerRecord => write_each strerror path (pending_records_ (writer s)) now
     | _ => WritePendingGathered strerror path system_limit
     end s).
Proof.
  intros Hmax (Hb & Hp & Hpb & Hpr) Hs. rewrite (bk_options _ _ _ _ _ _ _ Hb), Hp.
  assert (outcome h o rs (fun s' _ => books h o rs (length rs) nd (end_of rs (length rs)) s')
    (WritePendingGathered strerror path system_limit s)) as Hg.
  { unfold WritePendingGathered. rewrite Hp. apply write_gathered_books with (end_of rs nw); try done.
    - apply limit_pos.
    - apply inside_start, Hb.
    - rewrite concat_records, <- stream_drop, length_drop. lia. }
  destruct (sync_policy o) eqn:E.
  4: { pose proof (write_each_books h o rs now (drop nw rs) nw nd s eq_refl Hb Hs) as H.
       destruct (Nat.eq_dec nw (length rs)) as [-> |Hne].
       { rewrite drop_all. split; [done|]. exists nd. split_and!; [done | | done]. intros _. apply Hpr. unfold prompt. by rewrite E. }
       destruct (write_each _ _ _ _ s) as [s' [[]|]]; [|done]. destruct H as [H (nd' & B' & En)].
       split; [done|]. exists nd'. split_and!; [done | | done]. intros _. apply En, Hpr. unfold prompt. by rewrite E. }
  all: destruct (WritePendingGathered _ _ _ s) as [s' [[]|]]; [|done]; destruct Hg as [H B']; (split; [done|]); by exists nd.
Qed.

Lemma FlushPending_books h o rs nw nd now s :
  0 < max_writev_bytes o -> open_books h o rs nw nd s -> writer_state_ (writer s) = kOpen ->
  outcome h o rs (fun s' _ => exists nd', open_books h o rs (length rs) nd' s')
    (FlushPending strerror path system_limit now s).
Proof.
  intros Hmax Hopen Hs. unfold FlushPending. cbn [wbind wget].
  eapply outcome_bind; [by apply flush_writes|]. intros s1 u1 H1 (nd1 & B1 & E1 & E2). destruct Hopen as (Hb & Hp & Hpb & Hpr).
  set (had := negb _).
  assert (had = false -> nw = length rs) as Hhad.
  { unfold had. rewrite Hp. intros Hd%negb_false_iff%bool_decide_eq_true. apply (f_equal length) in Hd.
    rewrite length_fmap, length_drop in Hd. cbn in Hd. pose proof (bk_nw _ _ _ _ _ _ _ Hb). lia. }
  eapply (outcome_bind _ _ _ (fun s' _ => books h o rs (length rs) nd1 (end_of rs (length rs)) s' /\
    pending_records_ (writer s') = [] /\ pending_bytes_ (writer s') = 0)).
  { split; [done|]. split_and!; [by apply books_clear | done..]. }
  intros s2 u2 H2 (B2 & P2 & Q2). cbn [wbind wget]. rewrite (bk_options _ _ _ _ _ _ _ B2).
  assert (outcome h o rs (fun s' _ => exists nd', open_books h o rs (length rs) nd' s') (DataSync strerror path now s2)) as Hsync.
  { pose proof (DataSync_books h o rs (length rs) nd1 now s2 B2 H2) as H. destruct (DataSync _ _ _ s2) as [s' [[]|]]; [|done].
    destruct H as [H (B' & _ & P' & Q')]. split; [done|]. exists (length rs). split_and!; [done | | | done];
      rewrite drop_all; [by rewrite P', P2 | by rewrite Q', Q2]. }
  assert ((prompt o = true -> nd1 = length rs) ->
    outcome h o rs (fun s' _ => exists nd', open_books h o rs (length rs) nd' s') (wret tt s2)) as Hret.
  { intros Hn. split; [done|]. exists nd1. split_and!; [done | | | exact Hn]; rewrite drop_all; done. }
  unfold prompt in *. destruct (sync_policy o) eqn:E.
  - by apply Hret.
  - destruct (IntervalSyncDue _ _); [done|]. by apply Hret.
  - destruct had; [done|]. apply Hret. intros _. rewrite E2 by auto. rewrite Hpr by done. auto.
  - apply Hret. auto.
Qed.

(** ** Appends *)

(** The rotation limits hold. *)
Definition within (o : SegmentWriterOptions) (rs : list SegmentRecord) : Prop :=
  (max_segment_bytes o <> 0 -> 52 + zlen (records_bytes rs) <= max_segment_bytes o) /\
  (max_segment_records o <> 0 -> zlen rs <= max_segment_records o).

Lemma records_bytes_snoc rs r : zlen (records_bytes (rs ++ [r])) = zlen (records_bytes rs) + zlen (record_bytes r).
Proof.
  rewrite records_bytes_app. unfold records_bytes at 2, zlen. cbn [fmap list_fmap concat]. rewrite app_nil_r, length_app. lia.
Qed.

Lemma WouldRotate_false h o rs nw nd pos s r now :
  books h o rs nw nd pos s -> writer_state_ (writer s) = kOpen ->
  WouldRotate (writer s) (zlen (record_bytes r)) now = false ->
  52 + zlen (records_bytes rs) + zlen (record_bytes r) <= u64_max /\ within o (rs ++ [r]).
Proof.
  intros Hb Hs H. unfold WouldRotate, rotation_needed in H. rewrite Hs in H.
  rewrite (bk_options _ _ _ _ _ _ _ Hb), (bk_logical _ _ _ _ _ _ _ Hb), (bk_records _ _ _ _ _ _ _ Hb) in H.
  apply orb_false_iff in H as [H Hr]. apply orb_false_iff in H as [H Hbytes]. apply orb_false_iff in H as [H Hover].
  apply Z.ltb_ge in Hover. assert (0 <= zlen (record_bytes r)) by (unfold zlen; lia).
  assert (0 <= zlen (records_bytes rs)) by (unfold zlen; lia).
  rewrite wrap64_id in Hbytes by ulia. split; [lia|]. unfold within. rewrite records_bytes_snoc. split.
  - intros Hm. apply andb_false_iff in Hbytes as [E|E]; bool_to_prop; [done | lia].
  - intros Hm. apply andb_false_iff in Hr as [E|E]; bool_to_prop; [done|]. unfold zlen in *. rewrite length_app. cbn [length]. lia.
Qed.

Lemma open_append h o rs nw nd s r :
  open_books h o rs nw nd s -> 52 + zlen (records_bytes rs) + zlen (record_bytes r) <= u64_max ->
  open_books h o (rs ++ [r]) nw nd
    (mkRunning (push_pending (record_bytes r) (ingestion_sequence (header r)) (writer s)) (world s)).
Proof.
  intros (Hb & Hp & Hpb & Hpr) Hu. pose proof (bk_nw _ _ _ _ _ _ _ Hb) as Hn.
  assert (drop nw (rs ++ [r]) = drop nw rs ++ [r]) as Ed by (by rewrite drop_app_le).
  split_and!; [rewrite end_of_app by done; by apply books_push | | | done]; fields; rewrite Ed.
  - by rewrite Hp, fmap_app.
  - rewrite records_bytes_snoc, Hpb, wrap64_id; [done|]. rewrite <- stream_drop. unfold zlen in *. rewrite length_drop. ulia.
Qed.

(** What an append did: [k] records of the batch were accepted. *)
Definition appended (h : SegmentHeader) (o : SegmentWriterOptions) (rs batch : list SegmentRecord) (accepted : Z)
    (x : Running * Result SegmentAppendResult) : Prop :=
  exists k, (k <= length batch)%nat /\ within o (rs ++ take k batch) /\
  match x with
  | (s', Ok res) => writer_state_ (writer s') = kOpen /\ records_accepted res = accepted + Z.of_nat k /\
      (rotate_needed res = false -> k = length batch) /\ exists nw nd, open_books h o (rs ++ take k batch) nw nd s'
  | (s', Err _) => broken h o (rs ++ take k batch) s'
  end.

Lemma flush_appended h o rs batch k accepted rotate nw nd now s :
  0 < max_writev_bytes o -> open_books h o (rs ++ take k batch) nw nd s -> writer_state_ (writer s) = kOpen ->
  (k <= length batch)%nat -> within o (rs ++ take k batch) -> (rotate = false -> k = length batch) ->
  appended h o rs batch accepted
    ((FlushPending strerror path system_limit now ;! wret (mkAppendResult (accepted + Z.of_nat k) rotate)) s).
Proof.
  intros Hmax Ho Hs Hk Hw Hr. pose proof (FlushPending_books _ _ _ _ _ now _ Hmax Ho Hs) as H. unfold wbind.
  destruct (FlushPending _ _ _ _ s) as [s' [u|e]]; exists k; (split_and!; [done | done|]); [|done].
  destruct H as [H (nd' & Ho')]. split_and!; [done | done | done | eauto].
Qed.

Lemma append_encoded_books h o batch now : forall rs nw nd accepted s,
  0 < max_writev_bytes o -> open_books h o rs nw nd s -> writer_state_ (writer s) = kOpen -> within o rs ->
  appended h o rs batch accepted (append_encoded strerror path system_limit (encodings batch) now accepted s).
Proof.
  induction batch as [|r batch IH]; intros rs nw nd accepted s Hmax Ho Hs Hw.
  { exists 0%nat. cbn. rewrite app_nil_r, Z.add_0_r. split_and!; try done. eauto. }
  cbn [encodings fmap list_fmap append_encoded]. fold (encodings batch). cbn [wbind wget].
  destruct (WouldRotate (writer s) _ now) eqn:E.
  { pose proof (flush_appended h o rs (r :: batch) 0 accepted true nw nd now s Hmax) as H.
    rewrite Z.add_0_r in H. apply H; cbn [take]; rewrite ?app_nil_r; done || lia. }
  pose proof Ho as (Hb & _). destruct (WouldRotate_false _ _ _ _ _ _ _ _ _ Hb Hs E) as [Hu Hw'].
  apply (open_append _ _ _ _ _ _ r) in Ho; [|done]. set (s1 := mkRunning _ (world s)) in Ho. cbn [wbind wmodify wget]. fold s1.
  destruct (rotation_needed (writer s1) now).
  { apply (flush_appended h o rs (r :: batch) 1 accepted true nw nd now s1); try done. cbn; lia. }
  assert (forall s2 nw2 nd2, writer_state_ (writer s2) = kOpen -> open_books h o (rs ++ [r]) nw2 nd2 s2 ->
    appended h o rs (r :: batch) accepted (append_encoded strerror path system_limit (encodings batch) now (accepted + 1) s2)) as Hrec.
  { intros s2 nw2 nd2 H2 O2. destruct (IH (rs ++ [r]) nw2 nd2 (accepted + 1) s2 Hmax O2 H2 Hw') as (k & Hk & Hwk & Hx).
    exists (S k). cbn [length take]. rewrite <- app_assoc in Hwk, Hx. split_and!; [lia | done|].
    destruct (append_encoded _ _ _ _ _ _ s2) as [s3 [res|e]]; [|done]. destruct Hx as (X1 & X2 & X3 & X4).
    split_and!; [done | lia | intros ->%X3; lia | done]. }
  unfold wbind at 1. cbn [wget]. destruct (BatchDue (writer s1) now); [|by apply (Hrec s1 nw nd)].
  pose proof (FlushPending_books h o (rs ++ [r]) nw nd now s1 Hmax Ho Hs) as H.
  unfold wbind. destruct (FlushPending _ _ _ _ s1) as [s2 [u|e]].
  - destruct H as [H2 (nd' & O2)]. by eapply Hrec.
  - exists 1%nat. cbn [length take]. split_and!; [lia | done | done].
Qed.

(** ** The life of a writer *)

Definition settled (h : SegmentHeader) (o : SegmentWriterOptions) (rs : list SegmentRecord) (s : Running) : Prop :=
  within o rs /\ admitted h (writer_limits o) None rs /\
  match writer_state_ (writer s) with
  | kOpen => exists nw nd, open_books h o rs nw nd s
  | kSealed => books h o rs (length rs) (length rs) (end_of rs (length rs)) s /\ synced (world s) = disk (world s)
  | kError => broken h o rs s
  end.

Lemma outcome_settled {A} h o rs (P : Running -> A -> Prop) x :
  within o rs -> admitted h (writer_limits o) None rs -> outcome h o rs P x ->
  (forall s' a, P s' a -> exists nw nd, open_books h o rs nw nd s') -> settled h o rs (fst x).
Proof.
  intros Hw Ha Hx HP. destruct x as [s' [a|e]]; cbn in *; (split_and!; [done | done|]).
  - destruct Hx as [-> H]. eauto.
  - pose proof Hx as (nw & nd & pos & _ & -> & _). done.
Qed.

Lemma observed_open h o rs s now : settled h o rs s -> writer_state_ (writer s) = kOpen ->
  exists nw nd, open_books h o rs nw nd (mkRunning (set_observed now (writer s)) (world s)).
Proof.
  intros (_ & _ & H) Hs. rewrite Hs in H. destruct H as (nw & nd & Hb & H). exists nw, nd. split; [by apply books_observed | done].
Qed.

Lemma ValidateOpenAndTime_cases now s :
  (exists e, ValidateOpenAndTime now s = (s, Err e)) \/
  (writer_state_ (writer s) = kOpen /\
   ValidateOpenAndTime now s = (mkRunning (set_observed now (writer s)) (world s), Ok tt)).
Proof. unfold ValidateOpenAndTime. destruct (writer_state_ (writer s)); [destruct (now <? _)| |]; eauto. Qed.

Section Calls.
Context (h : SegmentHeader) (o : SegmentWriterOptions) (Hmax : 0 < max_writev_bytes o).

Lemma AppendBatch_settled rs batch now s : settled h o rs s -> Forall (fun r => header_typed (header r)) batch ->
  let '(s', result) := AppendBatch strerror path system_limit batch now s in
  exists k, (k <= length batch)%nat /\ settled h o (rs ++ take k batch) s' /\
    logical_records_ (writer s') = logical_records_ (writer s) + Z.of_nat k /\
    forall res, result = Ok res -> records_accepted res = Z.of_nat k /\ (rotate_needed res = false -> k = length batch).
Proof.
  intros Hset Hty. unfold AppendBatch. unfold wbind at 1.
  assert (forall s' e, s' = s -> exists k, (k <= length batch)%nat /\ settled h o (rs ++ take k batch) s' /\
    logical_records_ (writer s') = logical_records_ (writer s) + Z.of_nat k /\ forall res : SegmentAppendResult, Err e = Ok res ->
    records_accepted res = Z.of_nat k /\ (rotate_needed res = false -> k = length batch)) as Hsame.
  { intros s' e ->. exists 0%nat. rewrite app_nil_r, Z.add_0_r. split_and!; try done. lia. }
  destruct (ValidateOpenAndTime_cases now s) as [[e ->]|[Hs ->]]; [by apply Hsame|].
  destruct (observed_open _ _ _ _ now Hset Hs) as (nw & nd & Ho). set (s1 := mkRunning _ _) in *.
  pose proof Hset as (Hw & Ha & _).
  assert (forall nw nd s', writer_state_ (writer s') = kOpen -> open_books h o rs nw nd s' -> settled h o rs s') as Hset'.
  { intros nw' nd' s' E Ho'. split_and!; [done | done|]. rewrite E. eauto. }
  destruct batch as [|r batch].
  { exists 0%nat. cbn [take]. rewrite app_nil_r, Z.add_0_r. split_and!; [done | by eapply Hset' | done | by intros res [= <-]]. }
  cbn [wbind wget]. pose proof Ho as (Hb & _).
  destruct (encode_batch (writer s1) _ _) as [encoded|e] eqn:E.
  2: { exists 0%nat. cbn [take]. rewrite app_nil_r, Z.add_0_r. split_and!; [lia | by eapply Hset' | done | done]. }
  apply (encode_batch_ok h) in E as [Hadm ->]; [|apply Hb.. | done].
  rewrite (bk_options _ _ _ _ _ _ _ Hb), (bk_last _ _ _ _ _ _ _ Hb) in Hadm.
  destruct (append_encoded_books h o (r :: batch) now rs nw nd 0 s1 Hmax Ho Hs Hw) as (k & Hk & Hwk & Hx).
  destruct (append_encoded _ _ _ _ _ _ s1) as [s2 result]. exists k.
  assert (admitted h (writer_limits o) None (rs ++ take k (r :: batch))) as Hadm'.
  { apply admitted_app. split; [done|]. rewrite <- (take_drop k (r :: batch)) in Hadm. apply admitted_app in Hadm. tauto. }
  assert (forall nw nd pos, books h o (rs ++ take k (r :: batch)) nw nd pos s2 ->
    logical_records_ (writer s2) = logical_records_ (writer s) + Z.of_nat k) as Hcount.
  { intros nw' nd' pos' Hb'. rewrite (bk_records _ _ _ _ _ _ _ Hb').
    change (logical_records_ (writer s)) with (logical_records_ (writer s1)). rewrite (bk_records _ _ _ _ _ _ _ Hb).
    unfold zlen. rewrite length_app, length_take. lia. }
  split; [done|]. destruct result as [res|e].
  - destruct Hx as (X1 & X2 & X3 & nw' & nd' & X4). split_and!.
    + split_and!; [done | done|]. rewrite X1. eauto.
    + eapply Hcount, X4.
    + intros res' [= <-]. done.
  - pose proof Hx as (nw' & nd' & pos' & X1 & X2 & _). split_and!; [|by eapply Hcount | done].
    split_and!; [done | done|]. by rewrite X2.
Qed.

Lemma FlushPending_settled rs now s : settled h o rs s -> writer_state_ (writer s) = kOpen -> forall s1,
  s1 = mkRunning (set_observed now (writer s)) (world s) ->
  settled h o rs (fst (FlushPending strerror path system_limit now s1)).
Proof.
  intros Hset Hs s1 ->. destruct (observed_open _ _ _ _ now Hset Hs) as (nw & nd & Ho). destruct Hset as (Hw & Ha & _).
  eapply outcome_settled; [done | done | by apply (FlushPending_books _ _ _ nw nd) |]. cbn. eauto.
Qed.

Lemma Flush_settled rs now s : settled h o rs s -> settled h o rs (fst (Flush strerror path system_limit now s)).
Proof.
  intros Hset. unfold Flush. destruct (ValidateOpenAndTime_cases now s) as [[e ->]|[Hs ->]]; [done|].
  by apply (FlushPending_settled rs now s).
Qed.

Lemma Seal_settled rs now s : settled h o rs s ->
  let '(s', result) := Seal strerror path system_limit now s in
  settled h o rs s' /\ (result = Ok tt -> writer_state_ (writer s') = kSealed).
Proof.
  intros Hset. unfold Seal. destruct (writer_state_ (writer s)) eqn:E.
  2: done.
  all: unfold wbind at 1; destruct (ValidateOpenAndTime_cases now s) as [[e ->]|[Hs ->]]; [done|].
  2: congruence.
  destruct (observed_open _ _ _ _ now Hset Hs) as (nw & nd & Ho). destruct Hset as (Hw & Ha & _). set (s1 := mkRunning _ _) in *.
  unfold wbind at 1. pose proof (FlushPending_books h o rs nw nd now s1 Hmax Ho E) as H.
  destruct (FlushPending _ _ _ _ s1) as [s2 [[]|e]].
  2: { split; [|done]. split_and!; [done | done|]. pose proof H as (? & ? & ? & _ & -> & _). done. }
  destruct H as [H2 (nd2 & Hb2 & Hp2 & Hq2 & Hr2)]. unfold wbind at 1.
  pose proof (DataSync_books h o rs _ _ now s2 Hb2 H2) as H. destruct (DataSync _ _ _ s2) as [s3 [[]|e]].
  2: { split; [|done]. split_and!; [done | done|]. pose proof H as (? & ? & ? & _ & -> & _). done. }
  destruct H as [H3 (Hb3 & Hd3 & _)]. split; [|done]. split_and!; [done | done|]. cbn [writer_state_ wmodify]. fields.
  split; [by apply books_state | done].
Qed.
End Calls.

(** ** Creation *)

(** What the loop of [WriteAll] keeps, when it succeeds. *)
Lemma write_all_closed (P : list byte -> Running -> Prop) answers :
  (forall d s a b c e, P d s -> P d (mkRunning (count_stats a b c e (writer s)) (world s))) ->
  (forall d s bytes answers, P d s -> P (d ++ bytes) (mkRunning (writer s) (append_disk bytes answers (world s)))) ->
  forall bytes d s s', P d s -> write_all strerror path answers bytes s = (s', Ok tt) -> P (d ++ bytes) s'.
Proof.
  intros H1 H2. induction answers as [|[e|n] answers IH]; intros [|b bytes] d s s' HP E; cbn [write_all] in E.
  all: try (injection E as <-; by apply H2).
  - injection E as <-. apply (H1 _ (mkRunning _ _)), (H1 _ (mkRunning _ _)). by apply H2.
  - destruct e; try by (unfold Poison in E; cbn in E; destruct (writer_state_ (writer s))).
    eapply IH; [|exact E]. by apply H1.
  - destruct (take n (b :: bytes)) as [|c l] eqn:Et; [unfold Poison in E; cbn in E; by destruct (writer_state_ (writer s))|].
    rewrite <- (take_drop n (b :: bytes)), app_assoc. eapply IH; [|exact E]. rewrite Et.
    apply (H1 _ (mkRunning _ _)), (H1 _ (mkRunning _ _)). by apply H2.
Qed.

Definition options_typed (o : SegmentWriterOptions) : Prop := 0 <= max_writev_bytes o /\ 0 <= max_segment_records o.

Lemma Create_settled h o opened opened_at writes syncs s :
  options_typed o -> Create strerror path opened h opened_at o writes syncs = Ok s ->
  settled h o [] s /\ 0 < max_writev_bytes o /\ reserved_bits (segment_flags h) kKnownSegmentFlags = false /\
  writer_state_ (writer s) = kOpen.
Proof.
  intros [Ho1 Ho2] H. unfold Create, ValidateOptions in H. step_if.
  apply bindR_Ok in H as ([] & Hopt & H). do 3 (match type of Hopt with (if ?b then _ else _) = _ => let G := fresh "G" in destruct b eqn:G; [discriminate|] end).
  rewrite EncodeSegmentHeader_spec in H. destruct (reserved_bits _ _) eqn:Er; [discriminate|]. cbn [bindR] in H.
  destruct opened; [discriminate|]. destruct (WriteAll _ _ _ _) as [s1 [[]|]] eqn:Ew; [|discriminate]. injection H as <-.
  unfold WriteAll in Ew. cbn [world write_answers] in Ew.
  pose (P := fun (d : list byte) (s : Running) =>
    books h o [] 0 0 0 (mkRunning (writer s) (mkWorld (segment_bytes h) (synced (world s)) [] [])) /\
    disk (world s) = d /\ writer_state_ (writer s) = kOpen /\ pending_records_ (writer s) = [] /\ pending_bytes_ (writer s) = 0).
  assert (P ([] ++ segment_bytes h) s1) as (Hb & Hd & Hs & Hp & Hpb).
  { eapply (write_all_closed P); [| | |exact Ew].
    - intros d s a b c e (Hb & H). split; [|done]. revert Hb. keep_books.
    - intros d s bytes answers (Hb & <- & H). split; [|done]. revert Hb. keep_books.
    - split; [|done]. split; cbn [new_writer]; fields; try done; try lia; first [by left | by rewrite app_nil_r]. }
  split_and!.
  - split; [|split; [done|]].
    { split; [|done]. intros Hne. apply andb_false_iff in G1 as [E'|E']; bool_to_prop; [done|].
      unfold kEncodedSegmentHeaderSize, kMinimumEncodedRecordSize in E'. change (zlen (records_bytes [])) with 0. lia. }
    rewrite Hs. exists 0%nat, 0%nat. split_and!; [| by rewrite Hp | by rewrite Hpb | done].
    destruct Hb. split; fields; first [assumption | by rewrite Hd].
  - bool_to_prop. lia.
  - done.
  - done.
Qed.

(** ** Histories *)

(** The writer [s] can be reached from its creation, with answers of the system chosen anew for
    every call, and [rs] are the records it counts as accepted. *)
Inductive reaches (h : SegmentHeader) (o : SegmentWriterOptions) : list SegmentRecord -> Running -> Prop :=
| reach_create opened_at writes syncs s :
    Create strerror path None h opened_at o writes syncs = Ok s -> reaches h o [] s
| reach_append rs s batch now writes syncs s' result :
    reaches h o rs s -> Forall (fun r => header_typed (header r)) batch ->
    AppendBatch strerror path system_limit batch now (with_answers writes syncs s) = (s', result) ->
    reaches h o (rs ++ take (Z.to_nat (logical_records_ (writer s') - logical_records_ (writer s))) batch) s'
| reach_flush rs s now writes syncs s' result :
    reaches h o rs s -> Flush strerror path system_limit now (with_answers writes syncs s) = (s', result) -> reaches h o rs s'
| reach_seal rs s now writes syncs s' result :
    reaches h o rs s -> Seal strerror path system_limit now (with_answers writes syncs s) = (s', result) -> reaches h o rs s'.

Lemma books_with_answers h o rs nw nd pos s writes syncs :
  books h o rs nw nd pos s -> books h o rs nw nd pos (with_answers writes syncs s).
Proof. keep_books. Qed.

Lemma settled_with_answers h o rs s writes syncs : settled h o rs s -> settled h o rs (with_answers writes syncs s).
Proof.
  intros (Hw & Ha & H). split_and!; [done | done|]. cbn [with_answers writer]. destruct (writer_state_ (writer s)) eqn:E.
  - destruct H as (nw & nd & Hb & H). exists nw, nd. split; [by apply books_with_answers | done].
  - destruct H as [Hb H]. split; [by apply books_with_answers | done].
  - destruct H as (nw & nd & pos & Hb & _ & H). exists nw, nd, pos. split_and!; [by apply books_with_answers | done | done].
Qed.

Lemma reaches_settled h o rs s : options_typed o -> reaches h o rs s ->
  settled h o rs s /\ 0 < max_writev_bytes o /\ reserved_bits (segment_flags h) kKnownSegmentFlags = false.
Proof.
  intros Ho. induction 1 as [opened_at writes syncs s Hc | rs s batch now writes syncs s' result _ (IH & Hm & Hf) Hty Hcall
    | rs s now writes syncs s' result _ (IH & Hm & Hf) Hcall | rs s now writes syncs s' result _ (IH & Hm & Hf) Hcall].
  - destruct (Create_settled _ _ _ _ _ _ _ Ho Hc) as (? & ? & ? & _). done.
  - split; [|done]. pose proof (AppendBatch_settled h o Hm rs batch now _ (settled_with_answers _ _ _ _ writes syncs IH) Hty) as H.
    rewrite Hcall in H. destruct H as (k & Hk & Hs & Hl & _). cbn [with_answers writer] in Hl.
    replace (Z.to_nat (logical_records_ (writer s') - logical_records_ (writer s))) with k by lia. done.
  - split; [|done]. pose proof (Flush_settled h o Hm rs now _ (settled_with_answers _ _ _ _ writes syncs IH)) as H.
    by rewrite Hcall in H.
  - split; [|done]. pose proof (Seal_settled h o Hm rs now _ (settled_with_answers _ _ _ _ writes syncs IH)) as H.
    rewrite Hcall in H. tauto.
Qed.

(** ** Recovery of what was written *)

Definition contiguous (first : Z) (rs : list SegmentRecord) : Prop :=
  forall i r, rs !! i = Some r -> ingestion_sequence (header r) = first + Z.of_nat i.

(** Recovery options under which every record of [rs] passes but for its sequence. *)
Definition recoverable (o : SegmentWriterOptions) (ro : SegmentRecoveryOptions) (rs : list SegmentRecord) : Prop :=
  format_limits ro = writer_limits o /\ Forall (fun r => schema_accepted ro (header r) = true) rs.

Lemma contiguous_cons first r rs :
  contiguous first (r :: rs) <-> ingestion_sequence (header r) = first /\ contiguous (first + 1) rs.
Proof.
  split.
  - intros H. split; [rewrite (H 0%nat r) by done; lia|]. intros i x Hx. rewrite (H (S i) x) by done. lia.
  - intros [H0 H] [|i] x Hx; [injection Hx as <-; lia|]. rewrite (H i x) by done. lia.
Qed.

(** The run of contiguous records at the front. *)
Lemma longest_run h o ro rs : forall last next,
  recoverable o ro rs -> admitted h (writer_limits o) last rs ->
  exists pre post, rs = pre ++ post /\ chained h ro next pre /\ (post = [] <-> contiguous next rs) /\
    match post with [] => True | r :: _ => ingestion_sequence (header r) <> next + zlen pre end.
Proof.
  induction rs as [|r rs IH]; intros last next [Hlim Hsch] Ha; [by exists [], []|].
  destruct Ha as (H1 & H2 & H3 & H4 & _ & Ha). apply list.Forall_cons in Hsch as [Hs Hsch].
  destruct (decide (ingestion_sequence (header r) = next)) as [E|E].
  - destruct (IH (Some (ingestion_sequence (header r))) (next + 1)) as (pre & post & -> & P1 & P2 & P3); [done | done|].
    exists (r :: pre), post. split_and!; [done | | |].
    + split; [|done]. split_and!; try done. by rewrite Hlim.
    + rewrite P2. cbn [app]. rewrite contiguous_cons. tauto.
    + destruct post; [done|]. unfold zlen in *. cbn [length]. lia.
  - exists [], (r :: rs). split_and!; [done | done | | by rewrite Z.add_0_r].
    split; [done|]. intros H%contiguous_cons. tauto.
Qed.

(** A complete record is committed. *)
Lemma begins_committed limits post r : begins_with limits post r -> committed_at post.
Proof.
  intros H. destruct (begins_with_length _ _ _ H) as (E & Hs & _). destruct H as (Ht & Hok & [k ->]).
  destruct (trailer_reads r Ht (ro_payload _ _ Hok)) as (_ & _ & _ & T & _).
  pose proof (record_body_length r) as Hb. pose proof (record_bytes_length r) as Hl.
  exists (record_size r). split_and!; [lia | lia | done|]. rewrite <- T. unfold ReadLe64, kTrailerCommitMarkerOffset.
  rewrite read_le_app_left by ulia. f_equal. ulia.
Qed.

Lemma written_view h o ro rs pre post :
  segment_typed h -> reserved_bits (segment_flags h) kKnownSegmentFlags = false ->
  format_limits ro = writer_limits o -> admitted h (writer_limits o) None rs -> rs = pre ++ post ->
  chained h ro (first_ingestion_sequence h) pre ->
  match post with [] => True | r :: _ => ingestion_sequence (header r) <> first_ingestion_sequence h + zlen pre end ->
  view ro (segment_bytes h ++ records_bytes rs) h pre (records_bytes post) /\
  (post <> [] -> records_bytes post <> [] /\ committed_at (records_bytes post)).
Proof.
  intros Ht Hf Hlim Ha -> Hc Hseq. assert (forall r l, post = r :: l -> begins_with (format_limits ro) (records_bytes post) r) as Hbw.
  { intros r l ->. apply admitted_app in Ha as [_ (H1 & H2 & _)]. split_and!; [done | by rewrite Hlim |].
    rewrite records_bytes_cons. by eexists. }
  split.
  - split_and!; [done | done | by rewrite records_bytes_app | done|].
    destruct post as [|r l]; [apply stuck_nil|]. intros x (X1 & X2 & _ & _ & X3 & _) Hx.
    assert (begins_with (format_limits ro) (records_bytes (r :: l)) x) as Hbx by done.
    specialize (Hbw r l eq_refl). destruct (begins_with_length _ _ _ Hbw) as (E & Hs & _).
    apply (begins_with_decode _ _ _ (record_size r)) in Hbw, Hbx; [|lia..]. congruence.
  - intros Hne. destruct post as [|r l]; [done|]. specialize (Hbw r l eq_refl). split; [|by eapply begins_committed].
    intros E. apply begins_with_length in Hbw as (_ & H & _). rewrite E in H. change (zlen []) with 0 in H. lia.
Qed.

Lemma books_torn h o rs nw nd pos s :
  books h o rs nw nd pos s -> ((nw < length rs)%nat -> (pos < end_of rs (S nw))%nat) ->
  exists torn, disk (world s) = segment_bytes h ++ records_bytes (take nw rs) ++ torn /\
    (torn <> [] -> exists r rest, rs !! nw = Some r /\ record_bytes r = torn ++ rest /\ rest <> []) /\
    (pos = end_of rs nw -> torn = []).
Proof.
  intros [] Hp. exists (take (pos - end_of rs nw) (records_bytes (drop nw rs))). split_and!.
  - rewrite bk_disk0. f_equal. rewrite <- stream_take, <- stream_drop, take_take_drop. f_equal. lia.
  - intros Hne. destruct (drop nw rs) as [|r l] eqn:E; [change (records_bytes []) with (@nil byte) in Hne; by rewrite take_nil in Hne|].
    destruct (drop_lookup _ _ _ _ E) as [Hl _]. pose proof (lookup_lt_Some _ _ _ Hl) as Hlt. specialize (Hp Hlt).
    rewrite (end_of_S _ _ _ Hl) in Hp. rewrite records_bytes_cons, take_app_le by lia.
    exists r, (drop (pos - end_of rs nw) (record_bytes r)). split_and!; [done | by rewrite take_drop |].
    intros En%(f_equal length). rewrite length_drop in En. cbn [length] in En. lia.
  - intros ->. by rewrite Nat.sub_diag.
Qed.

Lemma settled_books h o rs s : settled h o rs s -> exists nw nd pos, books h o rs nw nd pos s.
Proof.
  intros (_ & _ & H). destruct (writer_state_ (writer s)).
  - destruct H as (nw & nd & Hb & _). eauto.
  - destruct H. eauto.
  - destruct H as (nw & nd & pos & Hb & _). eauto.
Qed.
End Log.

(** ** What a writer guarantees *)

(** C25: in every history of a writer, whatever the system answers, the file is the segment header, the
    records counted as written, and, only after a failure, a strict part of the next one; the
    synced prefix is exactly what the durable counters say, the counters never wrap, the
    accepted records respect the rotation limits and have increasing sequences, and an open
    writer holds exactly the other accepted records in memory, none of them unsynced under the
    per-record and per-batch policies. *)
Theorem writer_books_balance (B : Crc32cBackend) (BL : Crc32cLaws B) strerror path system_limit h o rs s :
  options_typed o -> reaches strerror path system_limit h o rs s ->
  within o rs /\ admitted h (writer_limits o) None rs /\
  exists nw nd torn, (nd <= nw <= length rs)%nat /\
    disk (world s) = segment_bytes h ++ records_bytes (take nw rs) ++ torn /\
    (torn <> [] -> writer_state_ (writer s) = kError /\ exists r rest, rs !! nw = Some r /\ record_bytes r = torn ++ rest /\ rest <> []) /\
    ((synced (world s) = [] /\ nd = 0%nat) \/ synced (world s) = segment_bytes h ++ records_bytes (take nd rs)) /\
    logical_bytes_ (writer s) = zlen (segment_bytes h ++ records_bytes rs) /\ logical_bytes_ (writer s) <= u64_max /\
    logical_records_ (writer s) = zlen rs /\
    written_bytes_ (writer s) = zlen (segment_bytes h ++ records_bytes (take nw rs)) /\ written_records_ (writer s) = Z.of_nat nw /\
    durable_bytes_ (writer s) = zlen (synced (world s)) /\ durable_records_ (writer s) = Z.of_nat nd /\
    (writer_state_ (writer s) = kOpen -> pending_records_ (writer s) = record_bytes <$> drop nw rs /\ (prompt o = true -> nd = nw)) /\
    (writer_state_ (writer s) = kSealed -> nd = length rs /\ synced (world s) = disk (world s)).
Proof.
  intros Ho Hr. destruct (reaches_settled strerror path system_limit h o rs s Ho Hr) as ((Hw & Ha & H) & _).
  split; [done|]. split; [done|].
  assert (exists nw nd pos, books h o rs nw nd pos s /\ ((nw < length rs)%nat -> (pos < end_of rs (S nw))%nat) /\
    (writer_state_ (writer s) = kError \/ pos = end_of rs nw) /\
    (writer_state_ (writer s) = kOpen -> pending_records_ (writer s) = record_bytes <$> drop nw rs /\ (prompt o = true -> nd = nw)) /\
    (writer_state_ (writer s) = kSealed -> nd = length rs /\ synced (world s) = disk (world s)))
    as (nw & nd & pos & Hb & Ht & He & Hopen & Hseal).
  { destruct (writer_state_ (writer s)) eqn:E.
    - destruct H as (nw & nd & Hb & Hp & _ & Hpr). exists nw, nd, (end_of rs nw). split_and!; try done; [|by right].
      apply inside_start, Hb.
    - destruct H as [Hb Hd]. exists (length rs), (length rs), (end_of rs (length rs)). split_and!; try done; [lia | by right].
    - destruct H as (nw & nd & pos & Hb & _ & Ht). exists nw, nd, pos. split_and!; try done. by left. }
  destruct (books_torn h o rs nw nd pos s Hb Ht) as (torn & T1 & T2 & T3). exists nw, nd, torn.
  split_and!; try apply Hb; try done.
  - intros Hne. split; [|by apply T2]. destruct He as [He|He]; [done|]. by destruct (Hne (T3 He)).
  - rewrite (bk_logical _ _ _ _ _ _ _ Hb). unfold zlen. rewrite length_app, segment_bytes_length. lia.
  - rewrite (bk_logical _ _ _ _ _ _ _ Hb). apply Hb.
  - rewrite (bk_written _ _ _ _ _ _ _ Hb). unfold zlen, end_of. rewrite length_app, segment_bytes_length. lia.
Qed.

(** C27: a sealed segment holds every accepted record, all of it synced, and a scan of it, whatever
    short reads it meets, calls it clean exactly when the sequences are contiguous; then it
    reports every record.  A gap in the sequences, which the writer accepts, makes the scan
    call the segment corrupt. *)
Theorem sealed_segment_scan (B : Crc32cBackend) (BL : Crc32cLaws B) strerror path system_limit h o rs s ro
    device inode links answers :
  options_typed o -> reaches strerror path system_limit h o rs s -> writer_state_ (writer s) = kSealed ->
  segment_typed h -> usable ro -> checkpoint ro = None -> recoverable o ro rs -> zlen (disk (world s)) <= off_t_max ->
  Forall fine answers ->
  disk (world s) = segment_bytes h ++ records_bytes rs /\ synced (world s) = disk (world s) /\
  exists report,
    snd (ScanFd strerror path (disk (world s)) (stat_of (disk (world s)) device inode links) ro answers) = Ok report /\
    (disposition report = kClean <-> contiguous (first_ingestion_sequence h) rs) /\
    (disposition report = kDamaged <-> ~ contiguous (first_ingestion_sequence h) rs) /\
    (disposition report = kClean -> records report = descriptions 52 rs).
Proof.
  intros Ho Hr Hs Ht Hu Hc Hrec Hf Hfine.
  destruct (reaches_settled strerror path system_limit h o rs s Ho Hr) as ((Hw & Ha & H) & _ & Hfl). rewrite Hs in H.
  destruct H as [Hb Hsync].
  assert (disk (world s) = segment_bytes h ++ records_bytes rs) as Hd.
  { rewrite (bk_disk _ _ _ _ _ _ _ Hb), stream_take. by rewrite take_ge. }
  split; [done|]. split; [done|]. rewrite Hd in *.
  destruct (longest_run h o ro rs None (first_ingestion_sequence h) Hrec Ha) as (pre & post & E & P1 & P2 & P3).
  destruct (written_view h o ro rs pre post Ht Hfl (proj1 Hrec) Ha E P1 P3) as [Hv Hcom].
  destruct (view_scan strerror path ro _ h pre _ device inode links Hu Hc Hf Hv) as (report & R & [_ _ _ Q1 _ _ _ _ Q2 Q3 _ _]).
  exists report. assert (records_bytes post = [] <-> post = []) as Hnil.
  { split; [|by intros ->]. intros Hn. destruct post; [done|]. by destruct (proj1 (Hcom ltac:(done))). }
  split_and!.
  - by eapply reads_fine.
  - by rewrite Q2, Hnil.
  - rewrite Q3, <- P2. split; [intros [Hne _] ->; by apply Hne, Hnil|]. intros Hne. destruct (Hcom Hne). auto.
  - rewrite Q2, Hnil. intros ->. rewrite app_nil_r in E. subst pre. done.
Qed.

(** A crash loses no durable record: if the file after the crash begins with the bytes that were
    synced, whatever follows them, then a repair, however its system calls go, leaves a file
    that begins with the segment header and every record the writer counted as durable. *)
Theorem durable_records_survive_crash (B : Crc32cBackend) (BL : Crc32cLaws B) strerror path system_limit h o rs s ro repair a
    file device inode links :
  options_typed o -> reaches strerror path system_limit h o rs s -> segment_typed h ->
  usable ro -> checkpoint ro = None -> recoverable o ro rs -> contiguous (first_ingestion_sequence h) rs ->
  synced (world s) <> [] -> synced (world s) `prefix_of` file -> zlen file <= off_t_max ->
  scan_stat a = stat_of file device inode links ->
  segment_bytes h ++ records_bytes (take (Z.to_nat (durable_records_ (writer s))) rs)
    `prefix_of` fst (RepairSegment strerror path file a ro repair).
Proof.
  intros Ho Hr Ht Hu Hc Hrec Hcon Hne [junk ->] Hf Hstat.
  destruct (reaches_settled strerror path system_limit h o rs s Ho Hr) as (Hset & _ & Hfl).
  destruct (settled_books h o rs s Hset) as (nw & nd & pos & Hb). pose proof Hset as (_ & Ha & _).
  rewrite (bk_durable_records _ _ _ _ _ _ _ Hb), Nat2Z.id.
  destruct (bk_synced _ _ _ _ _ _ _ Hb) as [[E _]|E]; [done|]. rewrite E in *.
  destruct (longest_run h o ro rs None (first_ingestion_sequence h) Hrec Ha) as (pre & post & Ers & P1 & P2 & _).
  rewrite (proj2 P2 Hcon), app_nil_r in Ers. subst pre.
  rewrite <- (take_drop nd rs) in P1. apply chained_app in P1 as [P1 _].
  eapply repair_prefix; [done | done | done | done | done | done | | done]. by rewrite <- app_assoc.
Qed.

(** A record that does not fit into an empty segment is never accepted: the batch it leads is
    answered with no record accepted and a request to rotate, in every segment. *)
Theorem oversize_record_never_accepted (B : Crc32cBackend) (BL : Crc32cLaws B) strerror path system_limit h o rs s r batch now
    writes syncs s' result :
  options_typed o -> reaches strerror path system_limit h o rs s -> Forall (fun r => header_typed (header r)) (r :: batch) ->
  0 < max_segment_bytes o < zlen (segment_bytes h) + record_size r ->
  AppendBatch strerror path system_limit (r :: batch) now (with_answers writes syncs s) = (s', result) ->
  logical_records_ (writer s') = logical_records_ (writer s) /\
  forall res, result = Ok res -> res = mkAppendResult 0 true.
Proof.
  intros Ho Hr Hty Hbig Hcall. destruct (reaches_settled strerror path system_limit h o rs s Ho Hr) as (Hset & Hm & _).
  pose proof (AppendBatch_settled strerror path system_limit h o Hm rs (r :: batch) now _
    (settled_with_answers _ _ _ _ writes syncs Hset) Hty) as H. rewrite Hcall in H.
  destruct H as (k & Hk & ([Hlim _] & _) & Hl & Hres). cbn [with_answers writer] in Hl.
  assert (zlen (segment_bytes h) = 52) as Hh by (unfold zlen; by rewrite segment_bytes_length).
  assert (k = 0%nat) as ->.
  { destruct k as [|k]; [done|]. cbn [take] in Hlim. specialize (Hlim ltac:(lia)). rewrite records_bytes_app, records_bytes_cons in Hlim.
    pose proof (record_bytes_length r). unfold zlen in *. rewrite !length_app in Hlim. lia. }
  split; [lia|]. intros res E. destruct (Hres res E) as [Hacc Hrot]. destruct res as [acc rot]. cbn [records_accepted rotate_needed] in *.
  destruct rot; [f_equal; lia | by specialize (Hrot eq_refl)].
Qed.

(** ** A concrete history *)

Definition sample_writer_options (policy : SegmentSyncPolicy) (limit : Z) : SegmentWriterOptions :=
  mkWriterOptions 0 2 0 policy 0 0 limit 0 0 default_limits 100.
Abbreviation no_text := (fun _ : Errno => EmptyString).

Definition created_run (policy : SegmentSyncPolicy) (limit : Z) : Running :=
  match Create (B := software_backend) no_text "segment" None sample_segment 1000 (sample_writer_options policy limit)
          [WriteCount 9; WriteErrno EINTR] [] with
  | Ok s => s
  | Err _ => mkRunning (new_writer sample_segment 1000 (sample_writer_options policy limit)) (mkWorld [] [] [] [])
  end.
Definition appended_run (batch : list SegmentRecord) : Running :=
  fst (AppendBatch (B := software_backend) no_text "segment" 1024 batch 1001
         (with_answers [WriteCount 70; WriteErrno EINTR] [Some EINTR] (created_run kPerBatch 0))).
Definition sealed_run (batch : list SegmentRecord) : Running :=
  fst (Seal no_text "segment" 1024 1002 (with_answers [] [Some EINTR; None] (appended_run batch))).

Lemma sample_options_typed policy : options_typed (sample_writer_options policy 0).
Proof. split; vm_compute; discriminate. Qed.
Lemma sample_records_typed : Forall (fun r => header_typed (header r)) sample_records.
Proof. repeat constructor; apply sample_record_typed; ulia. Qed.

Lemma created_reaches :
  reaches (B := software_backend) no_text "segment" 1024 sample_segment (sample_writer_options kPerBatch 0) [] (created_run kPerBatch 0).
Proof. eapply (reach_create _ _ _ _ _ 1000 [WriteCount 9; WriteErrno EINTR] []). vm_compute. reflexivity. Qed.

Lemma appended_reaches :
  reaches (B := software_backend) no_text "segment" 1024 sample_segment (sample_writer_options kPerBatch 0) sample_records
    (appended_run sample_records).
Proof.
  assert ([] ++ take (Z.to_nat (logical_records_ (writer (appended_run sample_records))
    - logical_records_ (writer (created_run kPerBatch 0)))) sample_records = sample_records) as E by (vm_compute; reflexivity).
  rewrite <- E at 1. eapply reach_append; [exact created_reaches | exact sample_records_typed | apply surjective_pairing].
Qed.

Lemma sealed_reaches :
  reaches (B := software_backend) no_text "segment" 1024 sample_segment (sample_writer_options kPerBatch 0) sample_records
    (sealed_run sample_records).
Proof. eapply reach_seal; [exact appended_reaches | apply surjective_pairing]. Qed.

Lemma sample_recoverable policy : recoverable (sample_writer_options policy 0) sample_options sample_records.
Proof. split; [done|]. repeat constructor. Qed.
Lemma sample_contiguous : contiguous 40 sample_records.
Proof. repeat (apply contiguous_cons; split; [reflexivity|]). done. Qed.

Lemma writer_books_balance_witness : written_records_ (writer (sealed_run sample_records)) = 2 /\
  durable_records_ (writer (sealed_run sample_records)) = 2 /\ within (B := software_backend) (sample_writer_options kPerBatch 0) sample_records.
Proof.
  destruct (writer_books_balance software_backend software_laws no_text "segment" 1024 sample_segment
    (sample_writer_options kPerBatch 0) sample_records (sealed_run sample_records)) as (H & _);
    [apply sample_options_typed | exact sealed_reaches |].
  split; [vm_compute; reflexivity|]. split; [vm_compute; reflexivity | exact H].
Defined.

Lemma sealed_segment_scan_witness : exists report,
  snd (ScanFd (B := software_backend) no_text "segment" (disk (world (sealed_run sample_records)))
    (stat_of (disk (world (sealed_run sample_records))) 5 6 1) sample_options [PreadCount 2]) = Ok report /\ disposition report = kClean.
Proof.
  destruct (sealed_segment_scan software_backend software_laws no_text "segment" 1024 sample_segment
    (sample_writer_options kPerBatch 0) sample_records (sealed_run sample_records) sample_options 5 6 1 [PreadCount 2])
    as (_ & _ & report & H1 & H2 & _).
  - apply sample_options_typed.
  - exact sealed_reaches.
  - vm_compute; reflexivity.
  - apply sample_segment_ok.
  - apply sample_usable.
  - reflexivity.
  - apply sample_recoverable.
  - vm_compute; discriminate.
  - repeat constructor.
  - exists report. split; [exact H1|]. apply H2. exact sample_contiguous.
Defined.

(** The file after a crash: the synced bytes and part of something else. *)
Definition crashed_file : list byte := synced (world (appended_run sample_records)) ++ [Byte.x01; Byte.x02; Byte.x03].

Lemma durable_records_survive_crash_witness :
  sample_file `prefix_of` fst (RepairSegment (B := software_backend) no_text "segment" crashed_file (sample_answers crashed_file)
    sample_options sample_repair).
Proof.
  assert (take (Z.to_nat (durable_records_ (writer (appended_run sample_records)))) sample_records = sample_records) as E
    by (vm_compute; reflexivity).
  unfold sample_file. rewrite <- E at 1.
  apply (durable_records_survive_crash software_backend software_laws no_text "segment" 1024 sample_segment
    (sample_writer_options kPerBatch 0) sample_records (appended_run sample_records) sample_options sample_repair
    (sample_answers crashed_file) crashed_file 5 6 1).
  - apply sample_options_typed.
  - exact appended_reaches.
  - apply sample_segment_ok.
  - apply sample_usable.
  - reflexivity.
  - apply sample_recoverable.
  - exact sample_contiguous.
  - vm_compute; discriminate.
  - by eexists.
  - vm_compute; discriminate.
  - reflexivity.
Defined.

Lemma oversize_record_never_accepted_witness : exists s',
  AppendBatch (B := software_backend) no_text "segment" 1024 [sample_record 40 [1; 2; 3; 4; 5]] 1001 (with_answers [] [] (created_run kPerBatch 196))
  = (s', Ok (mkAppendResult 0 true)).
Proof.
  destruct (AppendBatch (B := software_backend) no_text "segment" 1024 [sample_record 40 [1; 2; 3; 4; 5]] 1001
    (with_answers [] [] (created_run kPerBatch 196))) as [s' result] eqn:E.
  exists s'. f_equal. destruct result as [res|e]; [|vm_compute in E; discriminate E]. f_equal.
  refine (proj2 (oversize_record_never_accepted software_backend software_laws no_text "segment" 1024 sample_segment
    (sample_writer_options kPerBatch 196) [] (created_run kPerBatch 196) (sample_record 40 [1; 2; 3; 4; 5]) [] 1001 [] [] s' (Ok res) _ _ _ _ E) res eq_refl).
  - split; vm_compute; discriminate.
  - eapply (reach_create _ _ _ _ _ 1000 [WriteCount 9; WriteErrno EINTR] []). vm_compute. reflexivity.
  - repeat constructor; apply sample_record_typed; ulia.
  - split; vm_compute; reflexivity.
Defined.
