(* ===== verification/SegmentGrowth.v ===== *)
(** * A segment file only grows

    Every call of the segment writer appends to its file, and what is on stable storage stays there: the
    synced part either stays as it is or becomes a file that extends the one before the call. *)
From S2P Require Import Prelude Bytes Crc32c LittleEndian SegmentFormat SegmentWriter.

Definition grows (s s' : Running) : Prop :=
  disk (world s) `prefix_of` disk (world s') /\
  (synced (world s') = synced (world s) \/ disk (world s) `prefix_of` synced (world s')).

#[export] Instance grows_preorder : PreOrder grows.
Proof.
  split; [intros s; split; [done|by left]|]. intros s u v [H1 H2] [H3 H4]. split; [by etrans|].
  destruct H4 as [->|H4]; [done|]. right. by etrans.
Qed.

Lemma grows_same s s' : world s' = world s -> grows s s'.
Proof. unfold grows. intros ->. split; [done|by left]. Qed.

Lemma grows_append w w' e bytes answers : grows (mkRunning w e) (mkRunning w' (append_disk bytes answers e)).
Proof. split; cbn; [by apply prefix_app_r | by left]. Qed.

(** What was synced before stays synced. *)
Lemma grows_synced s s' : grows s s' -> synced (world s) `prefix_of` disk (world s) ->
  synced (world s) `prefix_of` synced (world s').
Proof. intros [_ [->|H]] Hs; [done | by etrans]. Qed.

Section Growth.
Context {B : Crc32cBackend} (strerror : Errno -> string) (path : string) (system_limit : Z).

Definition growing {A} (m : WriterM A) : Prop := forall s, grows s (fst (m s)).

Lemma growing_ret {A} (a : A) : growing (wret a).
Proof. intros s. by apply grows_same. Qed.
Lemma growing_throw {A} e : growing (@wthrow A e).
Proof. intros s. by apply grows_same. Qed.
Lemma growing_modify f : growing (wmodify f).
Proof. intros s. by apply grows_same. Qed.
Lemma growing_get {A} (f : SegmentWriter -> A) : growing (wget f).
Proof. intros s. by apply grows_same. Qed.
Lemma growing_bind {A C} (m : WriterM A) (k : A -> WriterM C) : growing m -> (forall a, growing (k a)) -> growing (wbind m k).
Proof.
  intros Hm Hk s. unfold wbind. specialize (Hm s). destruct (m s) as [s' [a|e]]; [|done]. etrans; [exact Hm|apply Hk].
Qed.
Lemma growing_poison {A} st k : growing (@Poison A st k).
Proof. intros s. unfold Poison. destruct (writer_state_ (writer s)); by apply grows_same. Qed.

Lemma write_all_grows answers : forall bytes s, grows s (fst (write_all strerror path answers bytes s)).
Proof.
  assert (forall (s : Running) w answers A st k, grows s (fst (@Poison A st k (mkRunning w (append_disk [] answers (world s)))))) as Hp.
  { intros [w0 e] w l A st k. etrans; [apply (grows_append w0 w e [] l)|apply growing_poison]. }
  induction answers as [|a answers IH]; intros bytes s; cbn [write_all]; destruct bytes as [|b bytes].
  - destruct s. apply grows_append.
  - destruct s. apply grows_append.
  - destruct s. apply grows_append.
  - cbv zeta. destruct a as [[]|n]; try apply Hp.
    + etrans; [|apply IH]. by apply grows_same.
    + destruct (take n (b :: bytes)) as [|y l] eqn:E; [apply Hp|]. etrans; [|apply IH]. destruct s. apply grows_append.
Qed.

Lemma write_gathered_grows limit fuel : forall records offset s,
  grows s (fst (write_gathered strerror path fuel limit records offset s)).
Proof.
  assert (forall (s : Running) w answers A st k, grows s (fst (@Poison A st k (mkRunning w (append_disk [] answers (world s)))))) as Hp.
  { intros [w0 e] w l A st k. etrans; [apply (grows_append w0 w e [] l)|apply growing_poison]. }
  induction fuel as [|fuel IH]; intros records offset s; [by destruct records; apply grows_same|].
  destruct records as [|r records]; [by apply grows_same|]. cbn [write_gathered]. cbv zeta.
  destruct (concat _) as [|x request] eqn:E; [apply growing_poison|].
  destruct (write_answers (world s)) as [|[[]|n] answers]; try apply Hp.
  - destruct (advance _ _ _ _) as [[? ?] ?]. etrans; [|apply IH]. destruct s. apply grows_append.
  - etrans; [|apply IH]. destruct s. apply grows_append.
  - destruct (take n (x :: request)) as [|y l]; [apply Hp|]. destruct (advance _ _ _ _) as [[? ?] ?].
    etrans; [|apply IH]. destruct s. apply grows_append.
Qed.

Lemma data_sync_grows now answers : forall s, grows s (fst (data_sync strerror path answers now s)).
Proof.
  induction answers as [|[e|] answers IH]; intros s; cbn [data_sync]; cbv zeta.
  - split; cbn; [done|by right].
  - destruct e; try apply IH; (etrans; [|apply growing_poison]); (split; cbn; [done|by left]).
  - split; cbn; [done|by right].
Qed.

Lemma growing_data_sync now : growing (DataSync strerror path now).
Proof. intros s. apply data_sync_grows. Qed.
Lemma growing_write_all bytes : growing (WriteAll strerror path bytes).
Proof. intros s. apply write_all_grows. Qed.
Hint Resolve growing_ret growing_throw growing_modify growing_get growing_poison growing_data_sync growing_write_all : core.

Lemma growing_write_each now records : growing (write_each strerror path records now).
Proof. induction records as [|r records IH]; cbn [write_each]; [done|]. repeat (apply growing_bind; [done|intros []]). done. Qed.

Lemma growing_flush_pending now : growing (FlushPending strerror path system_limit now).
Proof.
  unfold FlushPending. apply growing_bind; [done|intros w]. cbv zeta. apply growing_bind; [|intros []].
  { destruct (sync_policy (options_ w)); try apply growing_write_each; intros s; apply write_gathered_grows. }
  apply growing_bind; [done|intros []]. apply growing_bind; [done|intros w'].
  destruct (sync_policy (options_ w')); try done; by case_match.
Qed.
Hint Resolve growing_flush_pending : core.

Lemma growing_validate now : growing (ValidateOpenAndTime now).
Proof. intros s. unfold ValidateOpenAndTime. repeat case_match; by apply grows_same. Qed.

Lemma growing_append_encoded now encoded : forall accepted, growing (append_encoded strerror path system_limit encoded now accepted).
Proof.
  induction encoded as [|[bytes sequence] rest IH]; intros accepted; cbn [append_encoded]; [done|].
  apply growing_bind; [done|intros []]; [by apply growing_bind|]. apply growing_bind; [done|intros []].
  apply growing_bind; [done|intros []]; [by apply growing_bind|]. apply growing_bind; [done|intros due].
  apply growing_bind; [by destruct due|done].
Qed.

Lemma AppendBatch_grows records now : growing (AppendBatch strerror path system_limit records now).
Proof.
  unfold AppendBatch. apply growing_bind; [apply growing_validate|intros []]. destruct records; [done|].
  apply growing_bind; [done|intros w]. destruct (encode_batch _ _ _); [apply growing_append_encoded|done].
Qed.

Lemma Flush_grows now : growing (Flush strerror path system_limit now).
Proof.
  intros s. unfold Flush. pose proof (growing_validate now s) as H. destruct (ValidateOpenAndTime now s) as [s' [a|e]]; [|done].
  etrans; [exact H|apply growing_flush_pending].
Qed.

Lemma Seal_grows now : growing (Seal strerror path system_limit now).
Proof.
  intros s. unfold Seal. destruct (writer_state_ (writer s)); [|by apply grows_same|].
  all: repeat (apply growing_bind; [done || apply growing_validate|intros []]); done.
Qed.
End Growth.
