(* ===== verification/SlabHeader.v ===== *)
(** * Slab headers

    Models [mino/shm/allocator/slab_header.h] and [mino/abi/shm_handle.h]: the 64-byte
    header of a slot with its publication word, the CRC-32C over the fields that do not
    change while an allocation is alive, and the handle that names an allocation. *)
From S2P Require Import Prelude Bytes Crc32c.

Definition kSlabHeaderMagic : Z := 0x4D534C42.
Definition kSlabHeaderVersion : Z := 2.

Inductive ObjectState : Set :=
| kFree | kAllocated | kBuilding | kPublished | kRetired | kAborting | kReclaiming | kAllocating.

#[export] Instance ObjectState_eq_dec : EqDecision ObjectState.
Proof. solve_decision. Defined.

(** [static_cast<uint32_t>] of a state. *)
Definition state_value (s : ObjectState) : Z :=
  match s with
  | kFree => 0 | kAllocated => 1 | kBuilding => 2 | kPublished => 3
  | kRetired => 4 | kAborting => 5 | kReclaiming => 6 | kAllocating => 7
  end.

Record SlabHeader : Set := mkHeader {
  magic : Z; header_version : Z; header_class_id : Z;
  generation : Z; object_state : Z;
  capacity : Z; object_size : Z; type_id : Z; layout_version : Z;
  schema_short_id : Z; owner_epoch : Z; allocation_transaction_id : Z;
  immutable_header_crc : Z; allocation_role : Z
}.

(** A store of the publication word. *)
Definition with_state (h : SlabHeader) (s : Z) : SlabHeader :=
  mkHeader (magic h) (header_version h) (header_class_id h) (generation h) s
    (capacity h) (object_size h) (type_id h) (layout_version h) (schema_short_id h)
    (owner_epoch h) (allocation_transaction_id h) (immutable_header_crc h) (allocation_role h).
Definition with_crc (h : SlabHeader) (crc : Z) : SlabHeader :=
  mkHeader (magic h) (header_version h) (header_class_id h) (generation h) (object_state h)
    (capacity h) (object_size h) (type_id h) (layout_version h) (schema_short_id h)
    (owner_epoch h) (allocation_transaction_id h) crc (allocation_role h).

(** The zero-initialised memory of a slot. *)
Definition zero_header : SlabHeader := mkHeader 0 0 0 0 0 0 0 0 0 0 0 0 0 0.

(** [add_byte] of [ComputeImmutableHeaderCrc]. *)
Definition add_byte (crc b : Z) : Z := Nat.iter 8 crc_step (Z.lxor crc b).

(** [add_u16], [add_u32] and [add_u64] for [n] = 2, 4 and 8. *)
Fixpoint add_le (n : nat) (crc v : Z) : Z :=
  match n with
  | O => crc
  | S n' => add_le n' (add_byte crc (Z.land v 0xFF)) (Z.shiftr v 8)
  end.

(** The covered fields with their widths in bytes, in the order they are added. *)
Definition immutable_fields (h : SlabHeader) : list (nat * Z) :=
  [(4%nat, magic h); (2%nat, header_version h); (2%nat, header_class_id h); (4%nat, generation h);
   (4%nat, capacity h); (4%nat, object_size h); (4%nat, type_id h); (4%nat, layout_version h);
   (8%nat, schema_short_id h); (8%nat, owner_epoch h); (8%nat, allocation_transaction_id h);
   (4%nat, allocation_role h)].

Definition add_fields (crc : Z) (fields : list (nat * Z)) : Z :=
  foldl (fun crc '(n, v) => add_le n crc v) crc fields.

Definition ComputeImmutableHeaderCrc (h : SlabHeader) : Z :=
  Z.lxor (add_fields 0xFFFFFFFF (immutable_fields h)) 0xFFFFFFFF.

Definition VerifyImmutableHeader (h : SlabHeader) : bool :=
  if negb (magic h =? kSlabHeaderMagic) then false
  else if negb (header_version h =? kSlabHeaderVersion) then false
  else immutable_header_crc h =? ComputeImmutableHeaderCrc h.

(** ** Handles ([mino/abi/shm_handle.h]) *)

Record ShmHandle : Set := mkHandle { offset : Z; handle_generation : Z; handle_region_id : Z }.

#[export] Instance ShmHandle_eq_dec : EqDecision ShmHandle.
Proof. solve_decision. Defined.

Definition IsNull (h : ShmHandle) : bool := offset h =? 0.

(** ** What the CRC covers and detects *)

(** The serialised covered fields, read as one little-endian integer. *)
Definition fields_value (fields : list (nat * Z)) : Z :=
  foldr (fun '(n, v) acc => v + 2 ^ Z.of_nat (8 * n) * acc) 0 fields.
Definition fields_bits (fields : list (nat * Z)) : nat :=
  foldr (fun '(n, _) acc => (8 * n + acc)%nat) 0%nat fields.
Definition field_ok (f : nat * Z) : Prop := 0 <= f.2 < 2 ^ Z.of_nat (8 * f.1).
Definition immutable_value (h : SlabHeader) : Z := fields_value (immutable_fields h).
(** Every field holds a value of its C++ type. *)
Definition header_ok (h : SlabHeader) : Prop := Forall field_ok (immutable_fields h).

Lemma add_byte_bits crc b : 0 <= b < 256 -> add_byte crc b = crc_bits 8 crc b.
Proof. intros Hb. unfold add_byte. rewrite crc_bits_small by (simpl; lia). done. Qed.

Lemma add_le_bits n : forall crc v, add_le n crc v = crc_bits (8 * n) crc v.
Proof.
  induction n as [|n IH]; intros crc v; [done|].
  replace (8 * S n)%nat with (8 + 8 * n)%nat by lia. rewrite crc_bits_add.
  cbn [add_le]. rewrite IH. change 0xFF with (Z.ones 8). rewrite Z.land_ones by lia.
  pose proof (Z.mod_pos_bound v (2 ^ 8)) as Hm. rewrite add_byte_bits by lia.
  rewrite Z.shiftr_div_pow2 by lia. change (Z.of_nat 8) with 8. f_equal.
  rewrite <- (crc_bits_low 8 crc (v mod 2 ^ 8) (v / 2 ^ 8)). f_equal.
  change (Z.of_nat 8) with 8. pose proof (Z.div_mod v (2 ^ 8)). lia.
Qed.

Lemma add_fields_bits fields : forall crc,
  Forall field_ok fields ->
  add_fields crc fields = crc_bits (fields_bits fields) crc (fields_value fields).
Proof.
  induction fields as [|[n v] rest IH]; intros crc Hok; [done|].
  apply Forall_cons_1 in Hok as [Hv Hok]. unfold field_ok in Hv. cbn [fst snd] in Hv.
  change (add_fields crc ((n, v) :: rest)) with (add_fields (add_le n crc v) rest).
  rewrite IH, add_le_bits by done. cbn [fields_bits fields_value foldr].
  fold (fields_bits rest) (fields_value rest). rewrite crc_bits_add, crc_bits_low. f_equal.
  apply Z.div_unique with v; lia.
Qed.

Lemma fields_value_range fields :
  Forall field_ok fields -> 0 <= fields_value fields < 2 ^ Z.of_nat (fields_bits fields).
Proof.
  induction fields as [|[n v] rest IH]; intros Hok; [done|].
  apply Forall_cons_1 in Hok as [Hv Hok]. specialize (IH Hok).
  unfold field_ok in Hv. cbn [fst snd] in Hv. cbn [fields_bits fields_value foldr].
  fold (fields_bits rest) (fields_value rest).
  rewrite Nat2Z.inj_add, Z.pow_add_r by lia. nia.
Qed.

Lemma crc_step_zero x : is_u32 x -> crc_step x = 0 -> x = 0.
Proof.
  intros Hx H. unfold crc_step in H. rewrite land_1_testbit in H.
  destruct (Z.testbit x 0) eqn:E.
  - assert (Z.testbit (Z.lxor (Z.shiftr x 1) kPoly) 31 = false) as Hb by (rewrite H; apply Z.bits_0).
    rewrite Z.lxor_spec, Z.shiftr_spec in Hb by lia.
    rewrite (u32_testbit_high x) in Hb by (done || lia). discriminate Hb.
  - rewrite Z.lxor_0_r in H. apply Z.bits_inj'. intros i Hi. rewrite Z.bits_0.
    destruct (Z.eq_dec i 0) as [->|]; [done|].
    rewrite <- (Z.bits_0 (i - 1)), <- H, Z.shiftr_spec by lia. f_equal. lia.
Qed.

Lemma crc_steps_nonzero n x : is_u32 x -> x <> 0 ->
  is_u32 (Nat.iter n crc_step x) /\ Nat.iter n crc_step x <> 0.
Proof.
  intros Hx Hnz. induction n as [|n [IH1 IH2]]; [done|]. simpl.
  split; [by apply crc_step_u32|]. intros H. by apply IH2, crc_step_zero.
Qed.

(** Two messages of one length that differ by a burst of at most 32 bits have different
    CRCs. *)
Lemma burst_detected n s v v' d j :
  0 <= v < 2 ^ Z.of_nat n -> 0 <= v' < 2 ^ Z.of_nat n -> 0 < d < 2 ^ 32 ->
  Z.lxor v v' = 2 ^ Z.of_nat j * d -> crc_bits n s v <> crc_bits n s v'.
Proof.
  intros Hv Hv' Hd Hx He. rewrite !crc_bits_small in He by done.
  assert (Z.lxor (Nat.iter n crc_step (Z.lxor s v)) (Nat.iter n crc_step (Z.lxor s v')) = 0) as Hz
    by (rewrite He; apply Z.lxor_nilpotent).
  rewrite <- crc_steps_lxor in Hz.
  replace (Z.lxor (Z.lxor s v) (Z.lxor s v')) with (Z.lxor v v') in Hz.
  2: { rewrite (Z.lxor_comm s v), <- Z.lxor_assoc, (Z.lxor_assoc v s s).
       by rewrite Z.lxor_nilpotent, Z.lxor_0_r. }
  rewrite Hx in Hz.
  assert (j <= n)%nat as Hj.
  { destruct (Nat.le_gt_cases j n) as [|Hlt]; [done|]. exfalso.
    assert (Z.lxor v v' < 2 ^ Z.of_nat n) as Hb.
    { destruct (Z.eq_dec (Z.lxor v v') 0) as [->|]; [lia|].
      apply Z.log2_lt_pow2; [assert (0 <= Z.lxor v v') by (apply Z.lxor_nonneg; lia); lia|].
      eapply Z.le_lt_trans; [apply Z.log2_lxor; lia|].
      destruct (Z.eq_dec v 0), (Z.eq_dec v' 0); subst; simpl in *;
        try (apply Z.max_lub_lt); try (apply Z.log2_lt_pow2; lia);
        destruct n; simpl in *; try lia; apply Z.max_lub_lt; simpl; try lia; apply Z.log2_lt_pow2; lia. }
    rewrite Hx in Hb. pose proof (Z.pow_le_mono_r 2 (Z.of_nat n) (Z.of_nat j) ltac:(lia) ltac:(lia)). nia. }
  replace n with ((n - j) + j)%nat in Hz by lia.
  rewrite Nat.iter_add, crc_steps_shift in Hz.
  destruct (crc_steps_nonzero (n - j) d) as [_ Hne]; [ulia | lia |]. done.
Qed.

(** The 56 covered bytes. *)
Definition covered_bits : nat := 448.
Lemma fields_bits_immutable h : fields_bits (immutable_fields h) = covered_bits.
Proof. done. Qed.
#[local] Opaque covered_bits.

Lemma immutable_value_range h : header_ok h -> 0 <= immutable_value h < 2 ^ Z.of_nat covered_bits.
Proof. intros H. rewrite <- (fields_bits_immutable h). apply fields_value_range, H. Qed.

Lemma crc_of_value h : header_ok h ->
  ComputeImmutableHeaderCrc h = Z.lxor (crc_bits covered_bits 0xFFFFFFFF (immutable_value h)) 0xFFFFFFFF.
Proof.
  intros H. unfold ComputeImmutableHeaderCrc, immutable_value.
  rewrite add_fields_bits by exact H. by rewrite fields_bits_immutable.
Qed.

Lemma verify_crc h : VerifyImmutableHeader h = true ->
  immutable_header_crc h = ComputeImmutableHeaderCrc h.
Proof.
  unfold VerifyImmutableHeader. intros H. destruct (negb (magic h =? _)); [discriminate H|].
  destruct (negb (header_version h =? _)); [discriminate H|]. by apply Z.eqb_eq.
Qed.

(** The header's CRC is the CRC-32C of the covered fields in their serialised order,
    and it detects every change of them that is confined to 32 consecutive bits (any
    change of one field of up to 32 bits, in particular): a header that verified no
    longer verifies. *)
Theorem header_crc_detects_bursts h h' d j :
  header_ok h -> header_ok h' -> VerifyImmutableHeader h = true ->
  immutable_header_crc h' = immutable_header_crc h ->
  0 < d < 2 ^ 32 -> Z.lxor (immutable_value h) (immutable_value h') = 2 ^ Z.of_nat j * d ->
  immutable_header_crc h = Z.lxor (crc_bits covered_bits 0xFFFFFFFF (immutable_value h)) 0xFFFFFFFF /\
  VerifyImmutableHeader h' = false.
Proof.
  intros Hok Hok' Hv Hcrc Hd Hx. apply verify_crc in Hv. rewrite crc_of_value in Hv by exact Hok.
  split; [exact Hv|]. apply not_true_is_false. intros Hv'. apply verify_crc in Hv'.
  rewrite crc_of_value in Hv' by exact Hok'. rewrite Hcrc, Hv in Hv'. apply lxor_cancel_r in Hv'.
  revert Hv'. apply (burst_detected _ _ _ _ d j); [apply immutable_value_range; exact Hok
    | apply immutable_value_range; exact Hok' | exact Hd | exact Hx].
Qed.

Definition sample_header : SlabHeader :=
  let h := mkHeader kSlabHeaderMagic kSlabHeaderVersion 1 5 1 256 100 7 1 0x1234 3 9 0 1 in
  with_crc h (ComputeImmutableHeaderCrc h).
(** The same header with the high half of the type id overwritten. *)
Definition damaged_header : SlabHeader :=
  mkHeader kSlabHeaderMagic kSlabHeaderVersion 1 5 1 256 100 0xABCD0007 1 0x1234 3 9
    (immutable_header_crc sample_header) 1.

(** Headers of concrete values. *)
Ltac solve_header_ok :=
  unfold header_ok, immutable_fields;
  repeat (apply Forall_cons_2; [vm_compute; split; [discriminate | reflexivity] |]);
  apply Forall_nil_2.

Lemma header_crc_detects_bursts_witness :
  VerifyImmutableHeader sample_header = true /\ VerifyImmutableHeader damaged_header = false.
Proof.
  split; [vm_compute; reflexivity|].
  refine (proj2 (header_crc_detects_bursts sample_header damaged_header 0xABCD 176 _ _ _ _ _ _)).
  1,2: solve_header_ok.
  1,2,4: vm_compute; reflexivity.
  lia.
Defined.
