(* ===== verification/CentralSlab.v ===== *)
(** * The central slab allocator

    Models [mino/shm/allocator/central_slab.h] and [.cc]: slots of fixed size classes,
    each a header and a payload, claimed in the sharded bitmap, stamped with the
    authoritative generation of the slot and moved through the states of [ObjectState]; the
    superblock that lets another process attach; manifests and transactions; recovery.

    This file has the definitions.  They are the behaviour of calls that do not
    interfere with one another: a compare-exchange on a value just loaded succeeds and a
    retry loop is left in its first round.  [SlabLifecycle] has their properties.

    The three areas of shared memory behind the superblock are typed: the bitmap words and
    generations are those of [Bitmap] and [GenerationArray], the slots are a list of
    headers indexed by slot number (the payload bytes play no part).  NUMA system calls,
    the hash of the thread identifier and the answers of the reclaim guard are inputs. *)
From S2P Require Import Prelude Checked Bitmap GenerationArray ClassTable SlabHeader.

#[export] Instance SlabHeader_inhabited : Inhabited SlabHeader := populate zero_header.

Definition kAllocatorMagic : Z := 0x4D534C41.
Definition kAllocatorVersion : Z := 3.
Definition kAllocationFlagTransactionRoot : Z := 1.
Definition kAllocationFlagTransactionChild : Z := 2.
Definition kAllocationFlagMask : Z :=
  Z.lor kAllocationFlagTransactionRoot kAllocationFlagTransactionChild.

(** ** Data *)

Record SchemaIdentity : Set := mkSchema { short_id : Z; schema_layout_version : Z }.
Record AllocationRequest : Set := mkRequest {
  request_size : Z; request_type_id : Z; request_schema : SchemaIdentity; alignment : Z;
  request_owner_epoch : Z; request_transaction_id : Z; allocation_flags : Z
}.

(** [data] pointers are the offset of the payload from the allocator base. *)
Record SlabView : Set := mkView {
  view_handle : ShmHandle; view_state : Z; view_class_id : Z; view_generation : Z;
  view_capacity : Z; view_object_size : Z; view_type_id : Z; view_schema_short_id : Z;
  view_layout_version : Z; view_owner_epoch : Z; view_transaction_id : Z; view_flags : Z;
  view_data : Z
}.
Record MutableBuildView : Set := mkBuildView {
  build_handle : ShmHandle; build_capacity : Z; build_object_size : Z; build_type_id : Z;
  build_schema_short_id : Z; build_layout_version : Z; build_data : Z
}.
Record CentralSlabSlotMetadata : Set := mkSlotMetadata {
  occupied : bool; slot_generation : Z; slot_class_id : Z; slot_class_count : Z; slot_capacity : Z
}.

Record AllocatorSuperblock : Set := mkSuper {
  super_magic : Z; version : Z; super_region_id : Z; super_class_count : Z;
  total_size : Z; super_metadata_size : Z; super_slot_stride : Z; super_total_slot_count : Z;
  next_transaction_id : Z; slot_area_offset : Z
}.
Definition kSuperblockSize : Z := 64.
Definition kDescriptorSize : Z := 16.
Definition kSlabHeaderSize : Z := 64.

(** What lives in shared memory. *)
Record Shared : Set := mkShared {
  super_ : AllocatorSuperblock;
  descriptors_ : list ClassDescriptor;
  bitmap_ : ShardedBitmap;
  generations_ : GenerationArray;
  class_draining_ : list Z;
  headers_ : list SlabHeader
}.

Record NumaNode : Set := mkNode { node_number : Z; node_cpus : list Z }.
Record NumaTopology : Set := mkTopology {
  numa_available : bool; numa_nodes : list NumaNode; allowed_nodes : list Z
}.
Record NumaRuntime : Set := mkNuma {
  topology : NumaTopology; prefer_local_shards : bool; placement_fallback : bool
}.

(** The counters of [AllocatorLocalCacheStats]. *)
Inductive Counter : Set :=
| allocations | hint_hits | fallback_scans | cache_bypasses | exhaustions | drain_count
| numa_local_allocations | numa_remote_allocations | numa_fallback_allocations
| numa_bind_errors | numa_migrations | published_graph_reclaims | append_gap_reclaim_scans.
#[export] Instance Counter_eq_dec : EqDecision Counter.
Proof. solve_decision. Defined.

Record LocalCacheState : Set := mkCache {
  cache_id : Z; cache_epoch : Z; cache_enabled : bool; counters : Counter -> Z;
  numa_runtime : NumaRuntime
}.

(** The calling thread's magazine, [g_thread_cursor_magazine]. *)
Record ThreadCursorMagazine : Set := mkMagazine {
  magazine_cache_id : Z; magazine_epoch : Z; observed_cpu : Z; observed_node : Z;
  next_bits : list Z; cursor_valid : list bool
}.
Definition new_magazine : ThreadCursorMagazine :=
  mkMagazine 0 0 (-1) (-1) (replicate (Z.to_nat kMaxClassCount) 0)
    (replicate (Z.to_nat kMaxClassCount) false).

(** The process-local fields that [Create] and [Attach] fix; [headers_offset_] is the
    distance of [headers_] from [shm_base_]. *)
Record Facade : Set := mkFacade {
  class_table_ : ClassTable; headers_offset_ : Z; data_region_size_ : Z; region_id_ : Z;
  slot_stride_ : Z; handle_offset_bias_ : Z
}.

(** [reclaim_guard_] answers the [n]-th question; the answers may change over time. *)
Record Slab : Set := mkSlab {
  facade : Facade; shared : Shared; cache : LocalCacheState; magazine : ThreadCursorMagazine;
  reclaim_guard_ : option (nat -> ShmHandle -> bool); guard_calls : nat
}.

(** ** A state and error monad *)

Definition SlabM (A : Type) : Type := Slab -> Slab * Result A.
Definition ret {A} (a : A) : SlabM A := fun s => (s, Ok a).
Definition throw {A} (e : Status) : SlabM A := fun s => (s, Err e).
Definition bind {A B} (m : SlabM A) (k : A -> SlabM B) : SlabM B := fun s =>
  match m s with
  | (s', Ok a) => k a s'
  | (s', Err e) => (s', Err e)
  end.
Definition gets {A} (f : Slab -> A) : SlabM A := fun s => (s, Ok (f s)).
Definition modify (f : Slab -> Slab) : SlabM unit := fun s => (f s, Ok tt).
(** A pure fallible read of the state. *)
Definition ask {A} (f : Slab -> Result A) : SlabM A := fun s => (s, f s).
(** Observe the outcome of a call instead of returning its error. *)
Definition attempt {A} (m : SlabM A) : SlabM (Result A) := fun s =>
  let '(s', r) := m s in (s', Ok r).

(** [(void)call()]. *)
Definition discard {A} (m : SlabM A) : SlabM unit := fun s => (fst (m s), Ok tt).

Notation "'let*' x ':=' m 'in' k" := (bind m (fun x => k))
  (at level 10, x name, m at level 100, k at level 200) : mino_scope.
Notation "'do*' m ';;' k" := (bind m (fun _ : unit => k))
  (at level 10, m at level 99, k at level 200) : mino_scope.
Notation "'throw_if' c 'with' e ';;' k" := (if c then throw e else k)
  (at level 10, c at level 99, e at level 99, k at level 200) : mino_scope.

Definition set_shared (s : Slab) (sh : Shared) : Slab :=
  mkSlab (facade s) sh (cache s) (magazine s) (reclaim_guard_ s) (guard_calls s).
Definition set_cache (s : Slab) (c : LocalCacheState) : Slab :=
  mkSlab (facade s) (shared s) c (magazine s) (reclaim_guard_ s) (guard_calls s).
Definition set_magazine (s : Slab) (m : ThreadCursorMagazine) : Slab :=
  mkSlab (facade s) (shared s) (cache s) m (reclaim_guard_ s) (guard_calls s).
Definition set_bitmap (s : Slab) (bm : ShardedBitmap) : Slab :=
  set_shared s (mkShared (super_ (shared s)) (descriptors_ (shared s)) bm
    (generations_ (shared s)) (class_draining_ (shared s)) (headers_ (shared s))).
Definition set_generations (s : Slab) (g : GenerationArray) : Slab :=
  set_shared s (mkShared (super_ (shared s)) (descriptors_ (shared s)) (bitmap_ (shared s))
    g (class_draining_ (shared s)) (headers_ (shared s))).
Definition set_draining (s : Slab) (d : list Z) : Slab :=
  set_shared s (mkShared (super_ (shared s)) (descriptors_ (shared s)) (bitmap_ (shared s))
    (generations_ (shared s)) d (headers_ (shared s))).
Definition set_headers (s : Slab) (hs : list SlabHeader) : Slab :=
  set_shared s (mkShared (super_ (shared s)) (descriptors_ (shared s)) (bitmap_ (shared s))
    (generations_ (shared s)) (class_draining_ (shared s)) hs).
Definition set_next_id (s : Slab) (n : Z) : Slab :=
  let p := super_ (shared s) in
  set_shared s (mkShared
    (mkSuper (super_magic p) (version p) (super_region_id p) (super_class_count p) (total_size p)
       (super_metadata_size p) (super_slot_stride p) (super_total_slot_count p) n (slot_area_offset p))
    (descriptors_ (shared s)) (bitmap_ (shared s))
    (generations_ (shared s)) (class_draining_ (shared s)) (headers_ (shared s))).

Definition total_slot_count (s : Slab) : Z := total_slots_ (class_table_ (facade s)).
Definition IsSetAt (s : Slab) (i : Z) : bool := IsSet (bitmap_ (shared s)) i.
Definition GenerationAt (s : Slab) (i : Z) : Z := Get (generations_ (shared s)) i.
(** [HeaderAt(i)] is [headers_ + i * slot_stride_]. *)
Definition HeaderAt (s : Slab) (i : Z) : SlabHeader := headers_ (shared s) !!! Z.to_nat i.
Definition header_offset (s : Slab) (i : Z) : Z :=
  wrap64 (headers_offset_ (facade s) + wrap64 (i * slot_stride_ (facade s))).
Definition set_header (s : Slab) (i : Z) (h : SlabHeader) : Slab :=
  set_headers s (<[Z.to_nat i := h]> (headers_ (shared s))).
Definition store_state (i : Z) (v : ObjectState) : SlabM unit :=
  modify (fun s => set_header s i (with_state (HeaderAt s i) (state_value v))).
Definition load_state (i : Z) : SlabM Z := gets (fun s => object_state (HeaderAt s i)).
Definition is_state (v : Z) (o : ObjectState) : bool := v =? state_value o.
Definition clear_bit (i : Z) : SlabM unit := fun s =>
  let '(bm, r) := ClearBit (bitmap_ (shared s)) i in (set_bitmap s bm, r).

(** ** Layout, creation, attachment *)

Definition AlignUp (v a : Z) : Z := wrap64 (wrap64 (v + a - 1) / a * a).

Record Layout : Set := mkLayout { metadata_size : Z; slot_stride : Z; bitmap_words : Z }.

Definition ComputeLayout (table : ClassTable) (data_region_size : Z) : Result Layout :=
  let class_count := class_count table in
  let total_slots := total_slots_ table in
  let bitmap_words := wrap32 (total_slots + kBitmapShardBits - 1) / kBitmapShardBits in
  let off := kSuperblockSize in
  let off := wrap64 (off + kDescriptorSize * class_count) in
  let off := AlignUp off 8 in
  let off := wrap64 (off + 8 * bitmap_words) in
  let off := AlignUp off 4 in
  let off := wrap64 (off + 4 * total_slots) in
  let off := wrap64 (off + 4 * class_count) in
  let slot_stride := AlignUp (kSlabHeaderSize + max_object_size table) kSlabHeaderSize in
  let metadata_size := AlignUp off kSlabHeaderSize in
  let required := wrap64 (metadata_size + wrap64 (slot_stride * total_slots)) in
  fail_if data_region_size <? required with
    Resource "data region too small for configured classes" ;;
  Ok (mkLayout metadata_size slot_stride bitmap_words).

(** What [ApplyNumaPlacement] and [DiscoverTopology] answer. *)
Record NumaPlacementResult : Set := mkPlacement {
  placement_topology : NumaTopology; placement_fell_back : bool; bind_error : bool
}.

Definition new_cache (id : Z) (numa : NumaRuntime) (bind_error : bool) : LocalCacheState :=
  mkCache id 1 true
    (fun k => if bind_error && bool_decide (k = numa_bind_errors) then 1 else 0) numa.

(** [shm_base] is its address, [None] when null; [slots] the zeroed slot area and [id]
    the next local cache identifier. *)
Definition CreateWithStorage (shm_base : option Z) (available_size metadata_capacity : Z)
    (slot_area slot_capacity region_id handle_offset_bias : Z) (config : ClassTableConfig)
    (prefer_local : bool) (placement : Result NumaPlacementResult) (id : Z)
    (slots : list SlabHeader) (mag : ThreadCursorMagazine) : Result Slab :=
  match shm_base with
  | None => Err (Invalid "shm_base is null")
  | Some base =>
      fail_if negb (base mod 64 =? 0) with
        Invalid "allocator base is not cache-line aligned" ;;
      let! table := ClassTable.Create config in
      let! layout := ComputeLayout table available_size in
      let slot_area := if slot_area =? 0 then metadata_size layout else slot_area in
      let slot_bytes := wrap64 (slot_stride layout * total_slots_ table) in
      fail_if (metadata_capacity <? metadata_size layout) || (slot_area <? metadata_size layout)
              || negb (slot_area mod 64 =? 0) || (slot_capacity <? slot_bytes)
              || (available_size <? slot_area) || (available_size - slot_area <? slot_bytes) with
        Resource "Region allocator metadata or data area is too small" ;;
      let placement_bytes := wrap64 (slot_area + slot_bytes) in
      fail_if u64_max <? placement_bytes with
        Invalid "NUMA placement extent exceeds addressable size" ;;
      let! placed := placement in
      let super := mkSuper kAllocatorMagic kAllocatorVersion region_id (class_count table)
                     available_size (metadata_size layout) (slot_stride layout)
                     (total_slots_ table) 1 slot_area in
      let! bitmap := Bitmap.Create (Some (replicate (Z.to_nat (bitmap_words layout)) 0))
                       (bitmap_words layout) in
      let! generations := GenerationArray.Create
                            (Some (replicate (Z.to_nat (total_slots_ table)) 0)) (total_slots_ table) in
      Ok (mkSlab
            (mkFacade table slot_area available_size region_id (slot_stride layout) handle_offset_bias)
            (mkShared super (classes_ table) bitmap generations
               (replicate (Z.to_nat (class_count table)) 0) slots)
            (new_cache id (mkNuma (placement_topology placed) prefer_local (placement_fell_back placed))
               (bind_error placed))
            mag None 0)
  end.

Definition Create (shm_base : option Z) (data_region_size : Z) (config : ClassTableConfig)
    (prefer_local : bool) (placement : Result NumaPlacementResult) (id : Z)
    (slots : list SlabHeader) (mag : ThreadCursorMagazine) : Result Slab :=
  CreateWithStorage shm_base data_region_size data_region_size 0 data_region_size 0 0 config
    prefer_local placement id slots mag.

(** [region_base] is its address. *)
Record RegionAllocatorStorage : Set := mkStorage {
  region_base : option Z; region_size : Z; allocator_offset : Z; allocator_size : Z;
  data_offset : Z; data_size : Z; storage_region_id : Z
}.

Definition CreateInRegion (st : RegionAllocatorStorage) (config : ClassTableConfig)
    (prefer_local : bool) (placement : Result NumaPlacementResult) (id : Z)
    (slots : list SlabHeader) (mag : ThreadCursorMagazine) : Result Slab :=
  match region_base st with
  | None => Err (Invalid "invalid Region allocator storage")
  | Some base =>
      fail_if (region_size st <? allocator_offset st) || (region_size st <? data_offset st)
              || (data_offset st <? allocator_offset st)
              || (region_size st - allocator_offset st <? allocator_size st)
              || (data_offset st - allocator_offset st <? allocator_size st)
              || (region_size st - data_offset st <? data_size st)
              || (storage_region_id st =? 0) with
        Invalid "invalid Region allocator storage" ;;
      CreateWithStorage (Some (base + allocator_offset st)) (region_size st - allocator_offset st)
        (allocator_size st) (data_offset st - allocator_offset st) (data_size st)
        (storage_region_id st) (allocator_offset st) config prefer_local placement id slots mag
  end.

(** [magic] is the first word. *)
Definition HasAllocatorMetadata (magic : option Z) (available_size : Z) : Result bool :=
  match magic with
  | None => Err (Invalid "allocator metadata probe is out of bounds")
  | Some magic =>
      fail_if available_size <? 4 with Invalid "allocator metadata probe is out of bounds" ;;
      if magic =? 0 then Ok false
      else fail_if negb (magic =? kAllocatorMagic) with Corruption "bad allocator magic" ;;
           Ok true
  end.

Definition descriptor_matches (found expected : ClassDescriptor) : bool :=
  (class_id found =? class_id expected) && (slot_size found =? slot_size expected)
  && (slot_count found =? slot_count expected)
  && (bitmap_shard_offset found =? bitmap_shard_offset expected).

(** The slot area of an image; zero stands for the end of the metadata. *)
Definition persisted_slot_area (super : AllocatorSuperblock) : Z :=
  if slot_area_offset super =? 0 then super_metadata_size super else slot_area_offset super.

Definition AttachWithBias (shm_base : option Z) (mem : Shared) (available_size : Z)
    (handle_offset_bias : Z) (discovered : Result NumaTopology) (id : Z)
    (mag : ThreadCursorMagazine) : Result Slab :=
  match shm_base with
  | None => Err (Invalid "allocator metadata is too small")
  | Some base =>
      fail_if available_size <? kSuperblockSize with Invalid "allocator metadata is too small" ;;
      fail_if negb (base mod 64 =? 0) with
        Invalid "allocator base is not cache-line aligned" ;;
      let super := super_ mem in
      fail_if negb (super_magic super =? kAllocatorMagic) with Corruption "bad allocator magic" ;;
      fail_if negb (version super =? kAllocatorVersion) || (super_class_count super =? 0)
              || (kMaxClassCount <? super_class_count super) || (available_size <? total_size super)
              || (total_size super <? kSuperblockSize) with
        Corruption "invalid allocator superblock" ;;
      fail_if available_size - kSuperblockSize <? kDescriptorSize * super_class_count super with
        Corruption "allocator class table is out of bounds" ;;
      let descriptors := take (Z.to_nat (super_class_count super)) (descriptors_ mem) in
      let! table := ClassTable.Create (entry_of <$> descriptors) in
      fail_if negb (forallb (fun '(found, expected) => descriptor_matches found expected)
                      (zip descriptors (classes_ table))) with
        Corruption "allocator class descriptor is inconsistent" ;;
      let! layout := ComputeLayout table (total_size super) in
      let slot_area := persisted_slot_area super in
      let slot_bytes := wrap64 (slot_stride layout * total_slots_ table) in
      fail_if negb (super_metadata_size super =? metadata_size layout)
              || negb (super_slot_stride super =? slot_stride layout)
              || negb (super_total_slot_count super =? total_slots_ table)
              || (slot_area <? metadata_size layout) || negb (slot_area mod 64 =? 0)
              || (total_size super <? slot_area) || (total_size super - slot_area <? slot_bytes) with
        Corruption "allocator layout metadata is inconsistent" ;;
      let! bitmap := Bitmap.Create (Some (storage_ (bitmap_ mem))) (bitmap_words layout) in
      let! generations := GenerationArray.Create (Some (cells (generations_ mem))) (total_slots_ table) in
      let numa := match discovered with
                  | Ok found => mkNuma found true false
                  | Err _ => mkNuma (mkTopology false [] []) true true
                  end in
      Ok (mkSlab
            (mkFacade table slot_area (total_size super) (super_region_id super)
               (slot_stride layout) handle_offset_bias)
            (mkShared super (descriptors_ mem) bitmap generations (class_draining_ mem) (headers_ mem))
            (new_cache id numa false) mag None 0)
  end.

(** [Attach(shm_base)] and [Attach(shm_base, available_size)]. *)
Definition AttachLegacy (shm_base : option Z) (mem : Shared) (discovered : Result NumaTopology)
    (id : Z) (mag : ThreadCursorMagazine) : Result Slab :=
  match shm_base with
  | None => Err (Invalid "shm_base is null")
  | Some _ =>
      fail_if negb (super_magic (super_ mem) =? kAllocatorMagic) with
        Corruption "bad allocator magic" ;;
      AttachWithBias shm_base mem (total_size (super_ mem)) 0 discovered id mag
  end.
Definition Attach (shm_base : option Z) (mem : Shared) (available_size : Z)
    (discovered : Result NumaTopology) (id : Z) (mag : ThreadCursorMagazine) : Result Slab :=
  AttachWithBias shm_base mem available_size 0 discovered id mag.

Definition AttachInRegion (st : RegionAllocatorStorage) (mem : Shared)
    (discovered : Result NumaTopology) (id : Z) (mag : ThreadCursorMagazine) : Result Slab :=
  match region_base st with
  | None => Err (Invalid "invalid Region allocator storage")
  | Some base =>
      fail_if (region_size st <? allocator_offset st) || (data_offset st <? allocator_offset st)
              || (region_size st <? data_offset st)
              || (data_offset st - allocator_offset st <? allocator_size st)
              || (region_size st - data_offset st <? data_size st) with
        Invalid "invalid Region allocator storage" ;;
      let available_size := region_size st - allocator_offset st in
      let! allocator := AttachWithBias (Some (base + allocator_offset st)) mem available_size
                          (allocator_offset st) discovered id mag in
      let super := super_ (shared allocator) in
      let slot_bytes := wrap64 (super_slot_stride super * super_total_slot_count super) in
      fail_if negb (persisted_slot_area super =? data_offset st - allocator_offset st)
              || (allocator_size st <? super_metadata_size super) || (data_size st <? slot_bytes)
              || negb (total_size super =? available_size)
              || negb (region_id_ (facade allocator) =? storage_region_id st) with
        Corruption "allocator metadata does not match Region layout" ;;
      Ok allocator
  end.

(** ** Process-local cache and cursors *)

Definition bump (k : Counter) : SlabM unit := modify (fun s =>
  let c := cache s in
  set_cache s (mkCache (cache_id c) (cache_epoch c) (cache_enabled c)
    (fun k' => if bool_decide (k' = k) then wrap64 (counters c k' + 1) else counters c k')
    (numa_runtime c))).

Definition DrainLocalCache : SlabM unit :=
  do* modify (fun s => let c := cache s in
        set_cache s (mkCache (cache_id c) (wrap64 (cache_epoch c + 1)) (cache_enabled c)
          (counters c) (numa_runtime c))) ;;
  bump drain_count.

Definition ConfigureLocalCache (enabled : bool) : SlabM unit :=
  do* modify (fun s => let c := cache s in
        set_cache s (mkCache (cache_id c) (cache_epoch c) enabled (counters c) (numa_runtime c))) ;;
  DrainLocalCache.

Definition local_cache_config (s : Slab) : bool := cache_enabled (cache s).
Definition local_cache_stats (s : Slab) : Counter -> Z := counters (cache s).

(** The magazine of another cache or epoch is emptied. *)
Definition refresh_magazine (m : ThreadCursorMagazine) (id epoch cpu node : Z)
  : ThreadCursorMagazine :=
  if negb (magazine_cache_id m =? id) || negb (magazine_epoch m =? epoch)
  then mkMagazine id epoch cpu node (next_bits m) (replicate (Z.to_nat kMaxClassCount) false)
  else m.

Definition set_cursor (m : ThreadCursorMagazine) (id bit : Z) : ThreadCursorMagazine :=
  mkMagazine (magazine_cache_id m) (magazine_epoch m) (observed_cpu m) (observed_node m)
    (<[Z.to_nat id := bit]> (next_bits m)) (<[Z.to_nat id := true]> (cursor_valid m)).

(** [thread_hash] is [std::hash] of the calling thread's identifier. *)
Definition GetThreadCursor (thread_hash cache_id epoch id begin count : Z) : SlabM Z := fun s =>
  let m := refresh_magazine (magazine s) cache_id epoch (-1) (-1) in
  let m := if (cursor_valid m !!! Z.to_nat id : bool) then m
           else
             let seed := Z.lxor (Z.lxor thread_hash (wrap64 (cache_id * 0x9E3779B97F4A7C15))) id in
             set_cursor m id (wrap32 (begin + wrap32 (seed mod count))) in
  (set_magazine s m, Ok (next_bits m !!! Z.to_nat id)).

Definition SetThreadCursor (cache_id epoch id next_bit : Z) : SlabM unit := modify (fun s =>
  set_magazine s (set_cursor (refresh_magazine (magazine s) cache_id epoch (-1) (-1)) id next_bit)).

(** The processor lists are sorted, so that [std::binary_search] is membership. *)
Fixpoint node_for_cpu (nodes : list NumaNode) (cpu : Z) : Z :=
  match nodes with
  | [] => -1
  | n :: rest => if existsb (Z.eqb (wrap32 cpu)) (node_cpus n) then node_number n
                 else node_for_cpu rest cpu
  end.
Definition NodeForCpu (t : NumaTopology) (cpu : Z) : Z :=
  if cpu <? 0 then -1 else node_for_cpu (numa_nodes t) cpu.

Definition ObserveThreadNode (cache_id epoch cpu : Z) (t : NumaTopology) : SlabM Z :=
  let node := NodeForCpu t cpu in
  let* m := gets magazine in
  if negb (magazine_cache_id m =? cache_id) || negb (magazine_epoch m =? epoch)
  then do* modify (fun s => set_magazine s (refresh_magazine m cache_id epoch cpu node)) ;; ret node
  else if negb (observed_cpu m =? cpu) || negb (observed_node m =? node)
  then do* modify (fun s => set_magazine s
             (mkMagazine (magazine_cache_id m) (magazine_epoch m) cpu node (next_bits m)
                (replicate (Z.to_nat kMaxClassCount) false))) ;;
       do* bump numa_migrations ;; ret node
  else ret node.

(** ** Allocation *)

Definition claim_in_range (begin end_ hint : Z) : SlabM BitmapClaim := fun s =>
  let '(bm, r) := FindAndSetFreeBitInRangeHinted (bitmap_ (shared s)) begin end_ hint in
  (set_bitmap s bm, r).

Definition assigned_node (t : NumaTopology) (relative_shard : Z) : Z :=
  allowed_nodes t !!! Z.to_nat (relative_shard mod zlen (allowed_nodes t)).
Definition is_node (current_node assigned : Z) : bool :=
  negb (current_node <? 0) && (assigned =? wrap32 current_node).

(** The scan of the shards mapped to the current node; [n] probes are left. *)
Fixpoint scan_local_shards (t : NumaTopology) (range_begin range_end hint current_node : Z)
    (class_shards hinted_shard probe : Z) (n : nat) : SlabM (option Z) :=
  match n with
  | O => ret None
  | S n' =>
      let next := scan_local_shards t range_begin range_end hint current_node class_shards
                    hinted_shard (probe + 1) n' in
      let relative_shard := wrap32 (hinted_shard + probe) mod class_shards in
      if negb (is_node current_node (assigned_node t relative_shard)) then next
      else
        let local_begin := wrap32 (range_begin + wrap32 (relative_shard * kBitmapShardBits)) in
        let local_end := Z.min range_end (wrap32 (local_begin + kBitmapShardBits)) in
        let local_hint := if (local_begin <=? hint) && (hint <? local_end) then hint else local_begin in
        let* claim := attempt (claim_in_range local_begin local_end local_hint) in
        match claim with
        | Ok c => do* bump hint_hits ;; ret (Some (bit_index c))
        | Err e => if bool_decide (code e = kResourceExhausted) then next else throw e
        end
  end.

Record ClaimedSlot : Set := mkClaimed {
  claimed_index : Z; numa_local : bool; numa_remote : bool; numa_fallback : bool
}.

(** The claim over the complete range of the class. *)
Definition claim_whole_range (range_begin range_end hint : Z) (active : option (NumaTopology * Z))
  : SlabM ClaimedSlot :=
  let* claim := attempt (claim_in_range range_begin range_end hint) in
  match claim with
  | Err e =>
      do* bump fallback_scans ;;
      do* (if bool_decide (code e = kResourceExhausted) then bump exhaustions else ret tt) ;;
      throw e
  | Ok c =>
      match active with
      | None =>
          do* bump (if shards_probed c =? 1 then hint_hits else fallback_scans) ;;
          ret (mkClaimed (bit_index c) false false true)
      | Some (t, current_node) =>
          let relative_shard := (bit_index c - range_begin) / kBitmapShardBits in
          let is_local := is_node current_node (assigned_node t relative_shard) in
          ret (mkClaimed (bit_index c) is_local (negb is_local) true)
      end
  end.

(** The calling thread, as far as allocation depends on it. *)
Record Thread : Set := mkThread { thread_hash : Z; current_cpu : Z }.

Definition claim_cached (th : Thread) (id : Z) (cls : ClassDescriptor) : SlabM ClaimedSlot :=
  let range_begin := bitmap_shard_offset cls in
  let range_end := wrap32 (range_begin + slot_count cls) in
  let* c := gets cache in
  let numa := numa_runtime c in
  let* claimed :=
    (if prefer_local_shards numa && numa_available (topology numa)
     then
       let* current_node := ObserveThreadNode (cache_id c) (cache_epoch c) (current_cpu th)
                              (topology numa) in
       let* hint := GetThreadCursor (thread_hash th) (cache_id c) (cache_epoch c) id range_begin
                      (slot_count cls) in
       let class_shards := wrap32 (slot_count cls + kBitmapShardBits - 1) / kBitmapShardBits in
       let hinted_shard := wrap32 (hint - range_begin) / kBitmapShardBits in
       let* found := scan_local_shards (topology numa) range_begin range_end hint current_node
                       class_shards hinted_shard 0 (Z.to_nat class_shards) in
       match found with
       | Some bit => ret (mkClaimed bit true false false)
       | None =>
           do* bump fallback_scans ;;
           claim_whole_range range_begin range_end hint (Some (topology numa, current_node))
       end
     else
       let* hint := GetThreadCursor (thread_hash th) (cache_id c) (cache_epoch c) id range_begin
                      (slot_count cls) in
       claim_whole_range range_begin range_end hint None) in
  let bit := claimed_index claimed in
  let next_bit := if wrap32 (bit + 1) =? range_end then range_begin else wrap32 (bit + 1) in
  do* SetThreadCursor (cache_id c) (cache_epoch c) id next_bit ;;
  ret claimed.

(** With the cache disabled the class range is scanned from its first bit. *)
Definition claim_uncached (cls : ClassDescriptor) : SlabM ClaimedSlot :=
  let range_begin := bitmap_shard_offset cls in
  let range_end := wrap32 (range_begin + slot_count cls) in
  do* bump cache_bypasses ;;
  let* claim := attempt (fun s =>
    let '(bm, r) := FindAndSetFreeBitInRange (bitmap_ (shared s)) range_begin range_end in
    (set_bitmap s bm, r)) in
  match claim with
  | Err e =>
      do* (if bool_decide (code e = kResourceExhausted) then bump exhaustions else ret tt) ;;
      throw e
  | Ok bit => ret (mkClaimed bit false false true)
  end.

Definition claim_slot (th : Thread) (id : Z) (cls : ClassDescriptor) : SlabM ClaimedSlot :=
  let* enabled := gets (fun s => cache_enabled (cache s)) in
  if enabled then claim_cached th id cls else claim_uncached cls.

(** The header an allocation writes, before its state is published. *)
Definition stamped_header (request : AllocationRequest) (id capacity gen state old_crc : Z)
  : SlabHeader :=
  let h := mkHeader kSlabHeaderMagic kSlabHeaderVersion id gen state capacity
             (request_size request) (request_type_id request)
             (schema_layout_version (request_schema request)) (short_id (request_schema request))
             (request_owner_epoch request) (request_transaction_id request) old_crc
             (allocation_flags request) in
  with_crc h (ComputeImmutableHeaderCrc h).

Definition increment_generation (i : Z) : SlabM Z := fun s =>
  let '(g, r) := Increment (generations_ (shared s)) i in (set_generations s g, Ok r).

(** Steps 6 to 8 on the claimed slot [i]. *)
Definition stamp_slot (request : AllocationRequest) (id : Z) (cls : ClassDescriptor) (i : Z)
  : SlabM Z :=
  let* state := load_state i in
  if negb (is_state state kFree)
  then do* discard (clear_bit i) ;;
       throw (Corruption "free bitmap slot has a non-free lifecycle state")
  else
    do* store_state i kAllocating ;;
    let* gen := increment_generation i in
    if gen =? kGenerationDraining
    then
      do* modify (fun s => set_draining s (<[Z.to_nat id := 1]> (class_draining_ (shared s)))) ;;
      do* store_state i kFree ;;
      do* discard (clear_bit i) ;;
      throw (Resource "generation exhausted; class marked DRAINING")
    else
      do* modify (fun s => set_header s i
            (stamped_header request id (slot_size cls) gen (object_state (HeaderAt s i))
               (immutable_header_crc (HeaderAt s i)))) ;;
      do* store_state i kAllocated ;;
      ret gen.

Definition invalid_request (r : AllocationRequest) : bool :=
  negb (Z.land (allocation_flags r) (u32_max - kAllocationFlagMask) =? 0)
  || (negb (Z.land (allocation_flags r) kAllocationFlagTransactionRoot =? 0)
      && negb (Z.land (allocation_flags r) kAllocationFlagTransactionChild =? 0))
  || negb (Bool.eqb (request_owner_epoch r =? 0) (request_transaction_id r =? 0))
  || ((request_transaction_id r =? 0) && negb (allocation_flags r =? 0)).

Definition when (b : bool) (m : SlabM unit) : SlabM unit := if b then m else ret tt.

Definition Allocate (th : Thread) (request : AllocationRequest) : SlabM ShmHandle :=
  let align := if alignment request =? 0 then 1 else alignment request in
  throw_if invalid_request request with Invalid "invalid allocation transaction metadata" ;;
  throw_if negb (Z.land align (align - 1) =? 0) with Invalid "alignment must be a power of two" ;;
  let aligned_size := wrap64 (wrap64 (request_size request + align - 1) / align * align) in
  throw_if u32_max <? aligned_size with Invalid "object size overflow" ;;
  let* table := gets (fun s => class_table_ (facade s)) in
  let* id := ask (fun _ => FindClass table aligned_size) in
  let* cls := ask (fun _ => match GetClass table id with
                            | Some cls => Ok cls
                            | None => Err (Internal "class id out of range")
                            end) in
  let* draining := gets (fun s => class_draining_ (shared s) !!! Z.to_nat id) in
  throw_if negb (draining =? 0) with mkStatus kUnavailable "size class is draining" ;;
  let* claimed := claim_slot th id cls in
  let* gen := stamp_slot request id cls (claimed_index claimed) in
  let* fell_back := gets (fun s => placement_fallback (numa_runtime (cache s))) in
  do* bump allocations ;;
  do* when (numa_local claimed) (bump numa_local_allocations) ;;
  do* when (numa_remote claimed) (bump numa_remote_allocations) ;;
  do* when (numa_fallback claimed || fell_back) (bump numa_fallback_allocations) ;;
  gets (fun s => mkHandle
    (wrap64 (handle_offset_bias_ (facade s) + header_offset s (claimed_index claimed)))
    gen (region_id_ (facade s))).

(** The counter is never null in a facade made by [Create] or [Attach]. *)
Definition NextAllocationTransactionId : SlabM Z :=
  let* current := gets (fun s => next_transaction_id (super_ (shared s))) in
  throw_if (current =? 0) || (current =? u64_max) with Resource "allocation transaction id exhausted" ;;
  do* modify (fun s => set_next_id s (current + 1)) ;;
  ret current.

(** ** Handles *)

Definition ResolveLocked (s : Slab) (h : ShmHandle) : Result Z :=
  fail_if (offset h =? 0) && (handle_generation h =? 0) && (handle_region_id h =? 0) with
    Invalid "null handle" ;;
  fail_if negb (handle_region_id h =? region_id_ (facade s)) with Invalid "foreign region handle" ;;
  fail_if offset h <? handle_offset_bias_ (facade s) with
    Invalid "handle offset below allocator base" ;;
  let rel := offset h - handle_offset_bias_ (facade s) in
  fail_if (rel <? kSuperblockSize) || (data_region_size_ (facade s) <=? rel) with
    Invalid "handle offset out of range" ;;
  let metadata_size := headers_offset_ (facade s) in
  fail_if (rel <? metadata_size) || negb ((rel - metadata_size) mod slot_stride_ (facade s) =? 0) with
    Invalid "handle offset not slot-aligned" ;;
  let slot_index := (rel - metadata_size) / slot_stride_ (facade s) in
  fail_if (total_slot_count s <=? slot_index) || (u32_max <? slot_index) with
    Invalid "slot index out of range" ;;
  fail_if negb (IsSetAt s slot_index) with mkStatus kNotFound "slot is not allocated" ;;
  fail_if negb (GenerationAt s slot_index =? handle_generation h)
          || negb (generation (HeaderAt s slot_index) =? handle_generation h) with
    mkStatus kNotFound "stale handle (generation mismatch)" ;;
  Ok slot_index.

Definition Resolve (h : ShmHandle) : SlabM Z := ask (fun s => ResolveLocked s h).
Definition header_of (i : Z) : SlabM SlabHeader := gets (fun s => HeaderAt s i).

(** ** Lifecycle *)

Definition BeginBuild (h : ShmHandle) : SlabM MutableBuildView :=
  let* i := Resolve h in
  let* header := header_of i in
  throw_if negb (VerifyImmutableHeader header) with Corruption "immutable header CRC mismatch" ;;
  throw_if negb (is_state (object_state header) kAllocated) with
    Invalid "slot is not available for exclusive build" ;;
  do* store_state i kBuilding ;;
  gets (fun s => mkBuildView h (capacity header) (object_size header) (type_id header)
    (schema_short_id header) (layout_version header) (header_offset s i + kSlabHeaderSize)).

Definition Publish (h : ShmHandle) : SlabM unit :=
  let* i := Resolve h in
  let* header := header_of i in
  throw_if negb (VerifyImmutableHeader header) with Corruption "immutable header CRC mismatch" ;;
  throw_if negb (is_state (object_state header) kBuilding) with
    Invalid "slot is not in kBuilding state" ;;
  store_state i kPublished.

Definition Retire (h : ShmHandle) : SlabM unit :=
  let* i := Resolve h in
  let* state := load_state i in
  if is_state state kRetired then ret tt
  else
    throw_if negb (is_state state kAllocated) && negb (is_state state kBuilding)
             && negb (is_state state kPublished) with
      Invalid "slot is not in a retirable state" ;;
    store_state i kRetired.

(** The answer of the reclaim guard to its next question. *)
Definition CanReclaim (h : ShmHandle) : SlabM bool := fun s =>
  match reclaim_guard_ s with
  | None => (s, Ok true)
  | Some guard =>
      (mkSlab (facade s) (shared s) (cache s) (magazine s) (reclaim_guard_ s) (S (guard_calls s)),
       Ok (guard (guard_calls s) h))
  end.

Definition SetReclaimGuard (guard : option (nat -> ShmHandle -> bool)) : SlabM unit :=
  modify (fun s => mkSlab (facade s) (shared s) (cache s) (magazine s) guard (guard_calls s)).

Definition RememberLocalCursor (id i : Z) : SlabM unit :=
  let* s := gets (fun s => s) in
  if negb (cache_enabled (cache s)) || (class_count (class_table_ (facade s)) <=? id) then ret tt
  else
    match GetClass (class_table_ (facade s)) id with
    | None => ret tt
    | Some cls =>
        if (i <? bitmap_shard_offset cls) || (slot_count cls <=? i - bitmap_shard_offset cls)
        then ret tt
        else SetThreadCursor (cache_id (cache s)) (cache_epoch (cache s)) id i
    end.

(** The slot still holds the allocation the handle names. *)
Definition identity_holds (s : Slab) (i : Z) (h : ShmHandle) : bool :=
  IsSetAt s i && (GenerationAt s i =? handle_generation h)
  && (generation (HeaderAt s i) =? handle_generation h).

Definition reclaimable (state : Z) (allow_published : bool) : bool :=
  is_state state kRetired || is_state state kAborting || is_state state kAllocated
  || is_state state kBuilding || is_state state kAllocating
  || (allow_published && is_state state kPublished).

Definition ReclaimSlotExact (i : Z) (h : ShmHandle) (allow_published : bool) : SlabM unit :=
  let* holds := gets (fun s => identity_holds s i h) in
  throw_if negb holds with mkStatus kNotFound "stale handle during reclaim" ;;
  let* state := load_state i in
  if is_state state kReclaiming || is_state state kFree then ret tt
  else
    throw_if is_state state kPublished && negb allow_published with
      Invalid "published slot must be retired first" ;;
    throw_if negb (reclaimable state allow_published) with Invalid "slot is not reclaimable" ;;
    let* allowed := CanReclaim h in
    throw_if negb allowed with mkStatus kWouldBlock "slot has a live or in-flight Pin" ;;
    do* store_state i kReclaiming ;;
    let* holds := gets (fun s => identity_holds s i h) in
    let* still_allowed := (if holds then CanReclaim h else ret false) in
    if negb still_allowed
    then do* modify (fun s => set_header s i (with_state (HeaderAt s i) state)) ;;
         throw (mkStatus kWouldBlock "reclaim identity or Pin guard changed")
    else
      let* reclaimed_class_id := gets (fun s => header_class_id (HeaderAt s i)) in
      do* store_state i kFree ;;
      do* clear_bit i ;;
      RememberLocalCursor reclaimed_class_id i.

(** The handle of the allocation in slot [i]. *)
Definition handle_at (s : Slab) (i gen : Z) : ShmHandle :=
  mkHandle (wrap64 (handle_offset_bias_ (facade s) + header_offset s i)) gen (region_id_ (facade s)).

(** The loop over all slots of [ReclaimTransactionAppendGap]. *)
Fixpoint append_gap_from (owner transaction i : Z) (n : nat) : SlabM unit :=
  match n with
  | O => ret tt
  | S n' =>
      let next := append_gap_from owner transaction (i + 1) n' in
      let* s := gets (fun s => s) in
      let header := HeaderAt s i in
      let state := object_state header in
      if negb (IsSetAt s i) then next
      else if is_state state kFree || is_state state kReclaiming
              || negb (owner_epoch header =? owner)
              || negb (allocation_transaction_id header =? transaction) then next
      else
        let gen := GenerationAt s i in
        if negb (generation header =? gen) || negb (VerifyImmutableHeader header) then next
        else do* ReclaimSlotExact i (handle_at s i gen) true ;; next
  end.

Definition ReclaimTransactionAppendGap (owner transaction : Z) : SlabM unit :=
  throw_if (owner =? 0) || (transaction =? 0) with Invalid "invalid allocation transaction identity" ;;
  do* bump append_gap_reclaim_scans ;;
  let* total := gets total_slot_count in
  append_gap_from owner transaction 0 (Z.to_nat total).

Definition Reclaim (h : ShmHandle) : SlabM unit :=
  let* i := Resolve h in
  let* header := header_of i in
  if negb (Z.land (allocation_role header) kAllocationFlagTransactionRoot =? 0)
     && negb (owner_epoch header =? 0) && negb (allocation_transaction_id header =? 0)
  then
    let* allowed := CanReclaim h in
    throw_if negb allowed with
      mkStatus kWouldBlock "transaction root has a live or in-flight Pin" ;;
    ReclaimTransactionAppendGap (owner_epoch header) (allocation_transaction_id header)
  else ReclaimSlotExact i h false.

Definition Abort (h : ShmHandle) : SlabM unit :=
  let* i := Resolve h in
  let* state := load_state i in
  do* (if is_state state kAborting then ret tt
       else
         throw_if negb (is_state state kAllocated) && negb (is_state state kBuilding) with
           Invalid "only unpublished objects may be aborted" ;;
         store_state i kAborting) ;;
  Reclaim h.

(** ** Manifests *)

Definition PublishTransactionHandle (owner transaction : Z) (h : ShmHandle) (required_role : Z)
  : SlabM unit :=
  let* i := Resolve h in
  let* header := header_of i in
  throw_if negb (generation header =? handle_generation h) || negb (owner_epoch header =? owner)
           || negb (allocation_transaction_id header =? transaction)
           || (Z.land (allocation_role header) required_role =? 0)
           || negb (VerifyImmutableHeader header) with
    Corruption "manifest handle stamp does not match transaction" ;;
  if is_state (object_state header) kPublished then ret tt
  else
    throw_if negb (is_state (object_state header) kBuilding) with
      Invalid "transaction object is not fully built" ;;
    store_state i kPublished.

(** Run [f] on the elements in order, up to the first error. *)
Fixpoint for_each {A} (f : A -> SlabM unit) (l : list A) : SlabM unit :=
  match l with
  | [] => ret tt
  | x :: rest => do* f x ;; for_each f rest
  end.

(** [handles] is root-first; the children are published from the last on. *)
Definition PublishTransaction (owner transaction : Z) (handles : list ShmHandle) (root : ShmHandle)
  : SlabM unit :=
  throw_if (owner =? 0) || (transaction =? 0) || IsNull root
           || match handles with [] => true | front :: _ => negb (bool_decide (front = root)) end with
    Invalid "invalid allocation transaction manifest" ;;
  do* for_each (fun h =>
        if IsNull h then ret tt
        else PublishTransactionHandle owner transaction h kAllocationFlagTransactionChild)
      (reverse (tail handles)) ;;
  PublishTransactionHandle owner transaction root kAllocationFlagTransactionRoot.

Definition reclaim_manifest_handle (owner transaction : Z) (h : ShmHandle) : SlabM unit :=
  if IsNull h then ret tt
  else
    let* resolved := attempt (Resolve h) in
    match resolved with
    | Err e => if bool_decide (code e = kNotFound) then ret tt else throw e
    | Ok i =>
        let* header := header_of i in
        throw_if negb (owner_epoch header =? owner)
                 || negb (allocation_transaction_id header =? transaction)
                 || negb (VerifyImmutableHeader header) with
          Corruption "manifest reclaim stamp mismatch" ;;
        ReclaimSlotExact i h true
    end.

Definition ReclaimTransaction (owner transaction : Z) (handles : list ShmHandle) : SlabM unit :=
  throw_if (owner =? 0) || (transaction =? 0) || match handles with [] => true | _ => false end with
    Invalid "invalid allocation transaction manifest" ;;
  for_each (reclaim_manifest_handle owner transaction) (reverse handles).

Definition expected_role (first : bool) : Z :=
  if first then kAllocationFlagTransactionRoot else kAllocationFlagTransactionChild.

(** The checks of one handle of a published graph before anything changes; [identity] is
    the owner and transaction of the root, [None] while the root itself is checked. *)
Definition check_graph_handle (prior : list ShmHandle) (identity : option (Z * Z)) (h : ShmHandle)
  : SlabM (Z * Z) :=
  throw_if IsNull h with Corruption "published graph manifest contains a null handle" ;;
  throw_if existsb (fun p => bool_decide (p = h)) prior with
    Corruption "published graph manifest contains a duplicate handle" ;;
  let* i := Resolve h in
  let* s := gets (fun s => s) in
  let header := HeaderAt s i in
  throw_if negb (VerifyImmutableHeader header) || negb (GenerationAt s i =? handle_generation h)
           || negb (generation header =? handle_generation h) with
    Corruption "published graph handle identity is corrupt" ;;
  throw_if negb (allocation_role header =?
                 expected_role (match identity with None => true | Some _ => false end)) with
    Corruption "published graph allocation role mismatch" ;;
  let* found :=
    (match identity with
     | None =>
         throw_if (owner_epoch header =? 0) || (allocation_transaction_id header =? 0) with
           Corruption "published graph root has no transaction identity" ;;
         ret (owner_epoch header, allocation_transaction_id header)
     | Some (owner, transaction) =>
         throw_if negb (owner_epoch header =? owner)
                  || negb (allocation_transaction_id header =? transaction) with
           Corruption "published graph owner or transaction mismatch" ;;
         ret (owner, transaction)
     end) in
  throw_if negb (is_state (object_state header) kPublished)
           && negb (is_state (object_state header) kRetired) with
    Corruption "published graph handle is not Published or Retired" ;;
  let* allowed := CanReclaim h in
  throw_if negb allowed with mkStatus kWouldBlock "published graph has a live or in-flight Pin" ;;
  ret found.

Fixpoint check_graph (prior : list ShmHandle) (identity : option (Z * Z)) (l : list ShmHandle)
  : SlabM (Z * Z) :=
  match l with
  | [] => ret (match identity with Some p => p | None => (0, 0) end)
  | h :: rest =>
      let* found := check_graph_handle prior identity h in
      check_graph (prior ++ [h]) (Some found) rest
  end.

Definition reclaim_graph_handle (owner transaction : Z) (first : bool) (h : ShmHandle) : SlabM unit :=
  let* i := Resolve h in
  let* header := header_of i in
  throw_if negb (VerifyImmutableHeader header)
           || negb (allocation_role header =? expected_role first)
           || negb (owner_epoch header =? owner)
           || negb (allocation_transaction_id header =? transaction) with
    Corruption "published graph identity changed before reclaim" ;;
  do* Retire h ;;
  ReclaimSlotExact i h false.

Definition ReclaimPublishedGraph (root : ShmHandle) (manifest : list ShmHandle) : SlabM unit :=
  throw_if IsNull root
           || match manifest with [] => true | front :: _ => negb (bool_decide (front = root)) end with
    Invalid "published graph manifest is not root-first" ;;
  let* identity := check_graph [] None manifest in
  do* for_each (reclaim_graph_handle identity.1 identity.2 false) (reverse (tail manifest)) ;;
  do* reclaim_graph_handle identity.1 identity.2 true root ;;
  bump published_graph_reclaims.

(** ** Inspection *)

Definition InspectState (s : Slab) (h : ShmHandle) : Result Z :=
  let! i := ResolveLocked s h in
  let state := object_state (HeaderAt s i) in
  fail_if negb (GenerationAt s i =? handle_generation h)
          || negb (generation (HeaderAt s i) =? handle_generation h) with
    mkStatus kNotFound "slot changed while reading lifecycle state" ;;
  Ok state.

Definition Inspect (s : Slab) (h : ShmHandle) : Result SlabView :=
  let! i := ResolveLocked s h in
  let header := HeaderAt s i in
  fail_if negb (VerifyImmutableHeader header) with Corruption "immutable header CRC mismatch" ;;
  Ok (mkView h (object_state header) (header_class_id header) (GenerationAt s i) (capacity header)
        (object_size header) (type_id header) (schema_short_id header) (layout_version header)
        (owner_epoch header) (allocation_transaction_id header)
        (Z.land (allocation_role header) kAllocationFlagMask) (header_offset s i + kSlabHeaderSize)).

(** ** Recovery *)

Fixpoint class_of_slot (descs : list ClassDescriptor) (id i : Z) : Z :=
  match descs with
  | [] => id
  | cls :: rest =>
      if (bitmap_shard_offset cls <=? i) && (i - bitmap_shard_offset cls <? slot_count cls) then id
      else class_of_slot rest (id + 1) i
  end.
Definition ClassIdForRecovery (s : Slab) (i : Z) : Z := class_of_slot (classes_ (class_table_ (facade s))) 0 i.

Definition GetSlotMetadata (s : Slab) (header_offset : Z) : Result CentralSlabSlotMetadata :=
  let f := facade s in
  fail_if match classes_ (class_table_ f) with [] => true | _ => false end || (slot_stride_ f =? 0) with
    Invalid "allocator metadata facade is not initialized" ;;
  match CheckedAddU64 (handle_offset_bias_ f) (headers_offset_ f) with
  | None => Err (Invalid "offset is below the allocator slot area")
  | Some first_header_offset =>
      fail_if header_offset <? first_header_offset with Invalid "offset is below the allocator slot area" ;;
      let relative := header_offset - first_header_offset in
      fail_if negb (relative mod slot_stride_ f =? 0) with
        Invalid "offset is not an exact allocator slot start" ;;
      let i := relative / slot_stride_ f in
      fail_if (total_slot_count s <=? i) || (u32_max <? i) with
        Invalid "allocator slot offset is out of range" ;;
      let checked := match CheckedMulU64 i (slot_stride_ f) with
                     | None => None
                     | Some delta => CheckedAddU64 first_header_offset delta
                     end in
      fail_if match checked with None => true | Some o => negb (o =? header_offset) end with
        Invalid "allocator slot offset arithmetic overflow" ;;
      let id := ClassIdForRecovery s i in
      match GetClass (class_table_ f) id with
      | None => Err (Invalid "offset names a reserved bitmap slot")
      | Some cls =>
          Ok (mkSlotMetadata (IsSetAt s i) (GenerationAt s i) id (class_count (class_table_ f))
                (slot_size cls))
      end
  end.

(** [false] when the index is out of range. *)
Definition ReadSlotByIndex (s : Slab) (i : Z) : option (SlabHeader * Z) :=
  if total_slot_count s <=? i then None
  else Some (HeaderAt s i, header_offset s i + kSlabHeaderSize).

Definition IsSlotOccupiedForRecovery (s : Slab) (i : Z) : bool :=
  (i <? total_slot_count s) && IsSetAt s i.
Definition AuthoritativeGenerationForRecovery (s : Slab) (i : Z) : Z :=
  if i <? total_slot_count s then GenerationAt s i else 0.

Definition ClearSlotForRecovery (i expected_state : Z) : SlabM unit :=
  let* s := gets (fun s => s) in
  throw_if total_slot_count s <=? i with Invalid "recovery slot index out of range" ;;
  let observed := object_state (HeaderAt s i) in
  if negb (IsSetAt s i)
  then if is_state observed kFree then ret tt
       else throw (mkStatus kWouldBlock "recovery slot is no longer occupied")
  else
    throw_if negb (observed =? expected_state) with mkStatus kWouldBlock "recovery slot state changed" ;;
    do* when (negb (is_state observed kReclaiming)) (store_state i kReclaiming) ;;
    do* store_state i kFree ;;
    let* cleared := attempt (clear_bit i) in
    match cleared with
    | Ok _ => ret tt
    | Err e => if bool_decide (code e = kNotFound) then ret tt else throw e
    end.

Definition ClearStaleStateForRecovery (i expected_state : Z) : SlabM unit :=
  let* s := gets (fun s => s) in
  throw_if total_slot_count s <=? i with Invalid "recovery slot index out of range" ;;
  throw_if IsSetAt s i with mkStatus kWouldBlock "slot became occupied during recovery" ;;
  let observed := object_state (HeaderAt s i) in
  if observed =? expected_state then store_state i kFree
  else if is_state observed kFree then ret tt
  else throw (mkStatus kWouldBlock "stale slot state changed during recovery").
