(* ===== verification/SlabLifecycle.v ===== *)
(** * The life of a slot

    The invariant of [CentralSlab]: a set bit, the publication word, the authoritative
    generation and the stamped header of a slot agree.  Every call moves every slot along
    the edges of one small step relation, so that what holds of all such paths holds of the
    allocator: an allocation is exclusive and keeps its stamp until it is reclaimed, and a
    handle that was reclaimed never names an object again. *)
From S2P Require Import Prelude Checked Bitmap GenerationArray ClassTable SlabHeader CentralSlab.

(** ** Running the monad *)

Lemma bind_run {A B} (m : SlabM A) (k : A -> SlabM B) s s' r :
  bind m k s = (s', r) ->
  (exists s1 a, m s = (s1, Ok a) /\ k a s1 = (s', r)) \/ (exists e, m s = (s', Err e) /\ r = Err e).
Proof. unfold bind. destruct (m s) as [s1 [a|e]]; intros H; [left|right]; naive_solver. Qed.

Ltac pair_inv H := first [discriminate H | injection H as <- <-].
(** Split a run into the runs of its parts; the errors of a part end the run. *)
Ltac run_step H :=
  lazymatch type of H with
  | bind ?m _ ?s = _ =>
      let s1 := fresh "s1" in let a := fresh "a" in let H1 := fresh "Hrun" in let e := fresh "e" in
      let He := fresh "He" in
      apply bind_run in H as [(s1 & a & H1 & H)|(e & H1 & He)];
      [|first [discriminate He | match type of He with ?r = _ => subst r end | injection He as <-]]
  | ret _ _ = _ => unfold ret in H; pair_inv H
  | throw _ _ = _ => unfold throw in H; pair_inv H
  | gets _ _ = _ => unfold gets in H; pair_inv H
  | load_state _ _ = _ => unfold load_state, gets in H; pair_inv H
  | header_of _ _ = _ => unfold header_of, gets in H; pair_inv H
  | modify _ _ = _ => unfold modify in H; pair_inv H
  | (if ?b then _ else _) _ = _ => let E := fresh "E" in destruct b eqn:E
  end.

(** ** Slots *)

Record Slot : Set := mkSlot { slot_bit : bool; slot_gen : Z; slot_header : SlabHeader }.
Definition slot (s : Slab) (i : Z) : Slot := mkSlot (IsSetAt s i) (GenerationAt s i) (HeaderAt s i).

Definition table_ok (t : ClassTable) : Prop :=
  layout_ok 0 0 0 (classes_ t) (total_slots_ t) /\ 0 <= total_slots_ t <= u32_max /\
  (64 | total_slots_ t) /\ 0 < zlen (classes_ t) <= 256.

(** The slot area lies within the region and a handle offset fits 64 bits. *)
Record facade_ok (f : Facade) : Prop := {
  fo_table : table_ok (class_table_ f);
  fo_stride : kSlabHeaderSize + max_object_size (class_table_ f) <= slot_stride_ f;
  fo_headers : kSuperblockSize <= headers_offset_ f;
  fo_area : headers_offset_ f + total_slots_ (class_table_ f) * slot_stride_ f <= data_region_size_ f;
  fo_bias : 0 <= handle_offset_bias_ f;
  fo_offsets : handle_offset_bias_ f + data_region_size_ f <= u64_max
}.

Record shape_ok (s : Slab) : Prop := {
  so_facade : facade_ok (facade s);
  so_bitmap : serves (class_table_ (facade s)) (bitmap_ (shared s));
  so_generations : generations_wf (generations_ (shared s));
  so_generation_count : slot_count_ (generations_ (shared s)) = total_slot_count s;
  so_headers_len : zlen (headers_ (shared s)) = total_slot_count s;
  so_draining_len : zlen (class_draining_ (shared s)) = zlen (classes_ (class_table_ (facade s)))
}.

Definition in_class (i : Z) (cls : ClassDescriptor) : Prop :=
  bitmap_shard_offset cls <= i < bitmap_shard_offset cls + slot_count cls.

(** The states of a live allocation between calls. *)
Definition live_state (o : ObjectState) : bool :=
  match o with kAllocated | kBuilding | kPublished | kRetired | kAborting => true | _ => false end.

Record stamped (t : ClassTable) (i : Z) (c : Slot) : Prop := {
  st_state : exists o, object_state (slot_header c) = state_value o /\ live_state o = true;
  st_generation : generation (slot_header c) = slot_gen c;
  st_positive : 0 < slot_gen c;
  st_verified : VerifyImmutableHeader (slot_header c) = true;
  st_class : exists cls, classes_ t !! Z.to_nat (header_class_id (slot_header c)) = Some cls /\
    0 <= header_class_id (slot_header c) /\ in_class i cls /\
    capacity (slot_header c) = slot_size cls /\ 0 <= object_size (slot_header c) <= slot_size cls
}.

Definition slot_ok (t : ClassTable) (i : Z) (c : Slot) : Prop :=
  if slot_bit c then stamped t i c else object_state (slot_header c) = state_value kFree.

Definition index_ok (s : Slab) (i : Z) : Prop := 0 <= i < total_slot_count s.

Record slab_ok (s : Slab) : Prop := {
  sk_shape : shape_ok s;
  sk_slots : forall i, index_ok s i -> slot_ok (class_table_ (facade s)) i (slot s i)
}.

(** What attaching reads: the superblock, but for the transaction counter, and the class
    descriptors. *)
Definition image (s : Slab) : AllocatorSuperblock * list ClassDescriptor :=
  let p := super_ (shared s) in
  (mkSuper (super_magic p) (version p) (super_region_id p) (super_class_count p) (total_size p)
     (super_metadata_size p) (super_slot_stride p) (super_total_slot_count p) 0 (slot_area_offset p),
   descriptors_ (shared s)).

(** [s'] is [s] up to the contents of slot [i], which become [c]. *)
Record at_slot (i : Z) (c : Slot) (s s' : Slab) : Prop := {
  as_facade : facade s' = facade s;
  as_image : image s' = image s;
  as_shape : shape_ok s';
  as_slot : slot s' i = c;
  as_others : forall j, 0 <= j -> j <> i -> slot s' j = slot s j
}.

(** Only process-local state differs. *)
Definition quiet (s s' : Slab) : Prop := facade s' = facade s /\ shared s' = shared s.

Lemma quiet_refl s : quiet s s.
Proof. done. Qed.
Lemma quiet_trans s1 s2 s3 : quiet s1 s2 -> quiet s2 s3 -> quiet s1 s3.
Proof. intros [E1 E2] [E3 E4]. split; congruence. Qed.
#[export] Hint Resolve quiet_refl : mino.

Lemma quiet_image s s' : quiet s s' -> image s' = image s.
Proof. intros [_ E]. unfold image. by rewrite E. Qed.
Lemma quiet_slot s s' i : quiet s s' -> slot s' i = slot s i.
Proof. intros [E1 E2]. unfold slot, IsSetAt, GenerationAt, HeaderAt. by rewrite E2. Qed.
Lemma quiet_shape s s' : quiet s s' -> shape_ok s -> shape_ok s'.
Proof.
  intros [E1 E2] []. split; unfold total_slot_count in *; rewrite ?E1, ?E2; done.
Qed.
Lemma quiet_ok s s' : quiet s s' -> slab_ok s -> slab_ok s'.
Proof.
  intros Hq [H1 H2]. pose proof Hq as [E1 E2]. split; [by eapply quiet_shape|].
  intros i Hi. rewrite (quiet_slot _ _ _ Hq), E1. apply H2. unfold index_ok, total_slot_count in *. by rewrite <- E1.
Qed.

Lemma at_slot_refl i s : shape_ok s -> at_slot i (slot s i) s s.
Proof. by intros. Qed.
Lemma at_slot_trans i c1 c2 s1 s2 s3 : at_slot i c1 s1 s2 -> at_slot i c2 s2 s3 -> at_slot i c2 s1 s3.
Proof.
  intros [F1 I1 S1 _ O1] [F2 I2 S2 E2 O2]. split; [congruence | congruence | done | done |].
  intros j Hj Hne. by rewrite O2, O1.
Qed.
Lemma at_slot_quiet i c s1 s2 s3 : at_slot i c s1 s2 -> quiet s2 s3 -> at_slot i c s1 s3.
Proof.
  intros [F1 I1 S1 E1 O1] Hq. pose proof Hq as [G1 G2].
  split; [congruence | by rewrite (quiet_image _ _ Hq) | by eapply quiet_shape | by rewrite (quiet_slot _ _ _ Hq) |].
  intros j Hj Hne. by rewrite (quiet_slot _ _ _ Hq), O1.
Qed.
Lemma quiet_at_slot i c s1 s2 s3 : quiet s1 s2 -> at_slot i c s2 s3 -> at_slot i c s1 s3.
Proof.
  intros Hq [F1 I1 S1 E1 O1]. pose proof Hq as [G1 G2].
  split; [congruence | by rewrite I1, (quiet_image _ _ Hq) | done | done |].
  intros j Hj Hne. by rewrite O1, (quiet_slot _ _ _ Hq).
Qed.

Lemma at_slot_ok i c s s' :
  slab_ok s -> at_slot i c s s' -> (index_ok s i -> slot_ok (class_table_ (facade s)) i c) -> slab_ok s'.
Proof.
  intros [H1 H2] [F _ S E O] Hc. split; [done|]. intros j Hj. rewrite F.
  unfold index_ok, total_slot_count in *. rewrite F in Hj.
  destruct (Z.eq_dec j i) as [->|Hne]; [rewrite E; auto|]. rewrite O by (done || lia). by apply H2.
Qed.

(** ** Primitive changes *)

Lemma HeaderAt_insert s i j h :
  shape_ok s -> index_ok s i -> 0 <= j ->
  HeaderAt (set_header s i h) j = if i =? j then h else HeaderAt s j.
Proof.
  intros Hs Hi Hj. pose proof (so_headers_len s Hs) as Hl. unfold index_ok in Hi.
  unfold HeaderAt, set_header, set_headers, set_shared. cbn [shared headers_].
  destruct (Z.eqb_spec i j) as [->|Hne].
  - apply list_lookup_total_insert_eq. ulia.
  - apply list_lookup_total_insert_ne. lia.
Qed.

Lemma set_header_at i h s :
  shape_ok s -> index_ok s i ->
  at_slot i (mkSlot (IsSetAt s i) (GenerationAt s i) h) s (set_header s i h).
Proof.
  intros Hs Hi. pose proof Hs as [A1 A2 A3 A4 A5 A6]. split; [done | done | | |].
  - split; try done. unfold set_header, set_headers, set_shared, total_slot_count, zlen in *.
    cbn [shared headers_ facade]. by rewrite length_insert.
  - unfold slot. f_equal. rewrite HeaderAt_insert by (unfold index_ok in Hi; done || lia). by rewrite Z.eqb_refl.
  - intros j Hj Hne. unfold slot. f_equal. rewrite HeaderAt_insert by done.
    destruct (Z.eqb_spec i j); [congruence | done].
Qed.

Lemma store_state_at i o s s' r :
  shape_ok s -> index_ok s i -> store_state i o s = (s', r) ->
  r = Ok tt /\
  at_slot i (mkSlot (IsSetAt s i) (GenerationAt s i) (with_state (HeaderAt s i) (state_value o))) s s'.
Proof.
  intros Hs Hi H. unfold store_state in H. run_step H. split; [done|]. by apply set_header_at.
Qed.

Lemma set_bitmap_shape s bm :
  shape_ok s -> serves (class_table_ (facade s)) bm -> shape_ok (set_bitmap s bm).
Proof. intros [] H. by split. Qed.

Lemma clear_bit_at i s s' r :
  shape_ok s -> index_ok s i -> clear_bit i s = (s', r) ->
  at_slot i (mkSlot false (GenerationAt s i) (HeaderAt s i)) s s' /\
  (IsSetAt s i = true -> r = Ok tt).
Proof.
  intros Hs Hi H. unfold clear_bit in H. destruct (so_bitmap s Hs) as [Hwf Hbc].
  unfold index_ok, total_slot_count in Hi.
  destruct (ClearBit_bits (bitmap_ (shared s)) i Hwf ltac:(lia)) as (Hwf' & Hbits & Hc & Hr).
  destruct (ClearBit (bitmap_ (shared s)) i) as [bm r']. cbn [fst snd] in *. injection H as <- <-.
  assert (bit_count bm = bit_count (bitmap_ (shared s))) as Ebc by (unfold bit_count; by rewrite Hc).
  assert (forall j, 0 <= j -> IsSet bm j = negb (j =? i) && IsSet (bitmap_ (shared s)) j) as Hset.
  { intros j Hj. rewrite !IsSet_bit_at, Hbits, Ebc by done. by destruct (j =? i), (j <? _). }
  split; [|by intros Hi'; unfold IsSetAt in Hi'; rewrite Hr, Hi'].
  split; [done | done | apply set_bitmap_shape; [done|]; split; [done | congruence] | |].
  - unfold slot, IsSetAt. f_equal. unfold set_bitmap, set_shared. cbn [shared bitmap_].
    rewrite Hset by lia. by rewrite Z.eqb_refl.
  - intros j Hj Hne. unfold slot, IsSetAt. f_equal. unfold set_bitmap, set_shared. cbn [shared bitmap_].
    rewrite Hset by done. by destruct (Z.eqb_spec j i).
Qed.

Lemma increment_at i s s' r :
  shape_ok s -> index_ok s i -> increment_generation i s = (s', r) ->
  (r = Ok kGenerationDraining /\ s' = s /\ GenerationAt s i = kGenerationDraining) \/
  (r = Ok (GenerationAt s i + 1) /\ GenerationAt s i + 1 <= kGenerationDraining /\
   at_slot i (mkSlot (IsSetAt s i) (GenerationAt s i + 1) (HeaderAt s i)) s s').
Proof.
  intros Hs Hi H. unfold increment_generation in H. pose proof Hs as [A1 A2 A3 A4 A5 A6].
  unfold index_ok in Hi.
  destruct (Increment_cases (generations_ (shared s)) i A3 ltac:(lia))
    as [[E Hd]|(g & E & Hb & Hlt & Hc & Hwf & Hg)]; rewrite E in H; injection H as <- <-.
  - left. split_and!; [done | by destruct s as [f [] c m gu n] | destruct Hd; [lia | done]].
  - right. split_and!; [done | done |]. split; [done | done | | |].
    + split; try done. unfold set_generations, set_shared, total_slot_count in *. cbn [shared generations_ facade]. congruence.
    + unfold slot, GenerationAt, set_generations, set_shared. cbn [shared generations_].
      f_equal. rewrite Hg by lia. by rewrite Z.eqb_refl.
    + intros j Hj Hne. unfold slot, GenerationAt, set_generations, set_shared. cbn [shared generations_].
      f_equal. rewrite Hg by done. destruct (Z.eqb_spec i j); [congruence | done].
Qed.

(** ** Claiming a slot *)

Lemma hinted_claim_any bm begin end_ hint :
  0 <= begin -> FindAndSetFreeBitInRangeHinted bm begin end_ hint =
                FindAndSetFreeBitInRangeHinted bm begin end_ (Z.max hint 0).
Proof.
  intros Hb. destruct (Z.le_gt_cases 0 hint) as [|Hlt]; [by rewrite Z.max_l|].
  rewrite Z.max_r by lia. unfold FindAndSetFreeBitInRangeHinted.
  destruct ((end_ <=? begin) || _) eqn:G; [done|]. bool_to_prop.
  replace (hint <? begin) with true by (symmetry; apply Z.ltb_lt; lia). cbn [orb].
  destruct ((0 <? begin) || (end_ <=? 0)) eqn:E; [done|]. bool_to_prop. by replace begin with 0 by lia.
Qed.

(** The claimed slot was free and lies in the range; a failed claim changes nothing. *)
Lemma claim_in_range_at begin end_ hint s s' r :
  shape_ok s -> 0 <= begin -> end_ <= total_slot_count s -> claim_in_range begin end_ hint s = (s', r) ->
  match r with
  | Ok c => begin <= bit_index c < end_ /\ IsSetAt s (bit_index c) = false /\
      at_slot (bit_index c) (mkSlot true (GenerationAt s (bit_index c)) (HeaderAt s (bit_index c))) s s'
  | Err e => quiet s s' /\ (begin < end_ -> code e = kResourceExhausted /\
      forall i, begin <= i < end_ -> IsSetAt s i = true)
  end.
Proof.
  intros Hs Hb He H. unfold claim_in_range in H. destruct (so_bitmap s Hs) as [Hwf Hbc].
  rewrite hinted_claim_any in H by done.
  pose proof (hinted_claim (bitmap_ (shared s)) begin end_ (Z.max hint 0) Hwf Hb ltac:(lia)) as Hc.
  destruct (FindAndSetFreeBitInRangeHinted _ _ _ _) as [bm [c|e]]; injection H as <- <-.
  - destruct Hc as (Hr & Hf & Hset & Hwf' & _ & Hsc). split_and!; [lia | lia | done |].
    split; [done | done | apply set_bitmap_shape; [done|]; split; [done|] | |].
    + rewrite <- Hbc. unfold bit_count. by rewrite Hsc.
    + unfold slot, IsSetAt, set_bitmap, set_shared. cbn [shared bitmap_]. f_equal.
      rewrite Hset by lia. by rewrite Z.eqb_refl.
    + intros j Hj Hne. unfold slot, IsSetAt, set_bitmap, set_shared. cbn [shared bitmap_]. f_equal.
      rewrite Hset by lia. by destruct (Z.eqb_spec j (bit_index c)).
  - destruct Hc as (-> & Hcode). split; [by destruct s as [f [] ca m gu n]|].
    intros Hlt. unfold total_slot_count in He. destruct Hcode as [[_ [?|?]]|[? Hall]]; [lia | lia |]. done.
Qed.

Lemma bump_quiet k s s' r : bump k s = (s', r) -> r = Ok tt /\ quiet s s'.
Proof. intros H. unfold bump in H. run_step H. done. Qed.
Lemma when_bump_quiet b k s s' r : when b (bump k) s = (s', r) -> r = Ok tt /\ quiet s s'.
Proof. destruct b; [apply bump_quiet|]. intros H. cbn in H. run_step H. done. Qed.
Lemma get_cursor_quiet h c e id b n s s' r : GetThreadCursor h c e id b n s = (s', r) -> is_ok r = true /\ quiet s s'.
Proof. intros H. unfold GetThreadCursor in H. by injection H as <- <-. Qed.
Lemma set_cursor_quiet c e id b s s' r : SetThreadCursor c e id b s = (s', r) -> r = Ok tt /\ quiet s s'.
Proof. intros H. unfold SetThreadCursor in H. by run_step H. Qed.
Lemma observe_quiet c e cpu t s s' r : ObserveThreadNode c e cpu t s = (s', r) -> is_ok r = true /\ quiet s s'.
Proof.
  intros H. unfold ObserveThreadNode in H. repeat (run_step H; try (unfold gets, modify in *; simplify_eq)); try done.
  all: try (unfold bump in *; unfold modify in *; simplify_eq; done).
Qed.
Lemma attempt_run {A} (m : SlabM A) s s' r : attempt m s = (s', r) -> exists a, r = Ok a /\ m s = (s', a).
Proof. unfold attempt. destruct (m s) as [s1 a]. intros [= <- <-]. eauto. Qed.

(** What a claim for class [cls] does. *)
Definition claims_in (cls : ClassDescriptor) (s s' : Slab) (i : Z) : Prop :=
  in_class i cls /\ IsSetAt s i = false /\
  at_slot i (mkSlot true (GenerationAt s i) (HeaderAt s i)) s s'.

Lemma claims_quiet cls s1 s2 s3 s4 i :
  quiet s1 s2 -> claims_in cls s2 s3 i -> quiet s3 s4 -> claims_in cls s1 s4 i.
Proof.
  intros Q1 (H1 & H2 & H3) Q2. pose proof (quiet_slot _ _ i Q1) as E. unfold slot in E. injection E as Eb Eg Eh.
  split_and!; [done | congruence |]. rewrite <- Eg, <- Eh.
  eapply at_slot_quiet; [|exact Q2]. by eapply quiet_at_slot.
Qed.

(** A class of the table. *)
Record class_in (t : ClassTable) (id : Z) (cls : ClassDescriptor) : Prop := {
  ci_lookup : classes_ t !! Z.to_nat id = Some cls;
  ci_nonneg : 0 <= id;
  ci_id : class_id cls = id;
  ci_offset : 0 <= bitmap_shard_offset cls;
  ci_aligned : (64 | bitmap_shard_offset cls);
  ci_count : 0 < slot_count cls;
  ci_end : bitmap_shard_offset cls + slot_count cls <= total_slots_ t;
  ci_size : 0 < slot_size cls
}.

Lemma class_lookup t id cls : table_ok t -> GetClass t id = Some cls -> 0 <= id -> class_in t id cls.
Proof.
  intros (Hl & Ht & Hd & Hn) Hg Hid. unfold GetClass in Hg.
  destruct (layout_ok_lookup _ _ _ _ _ _ _ Hl ltac:(lia) ltac:(by exists 0) Hg) as (? & ? & ? & ? & ? & ?).
  split; (done || lia).
Qed.

Lemma class_end_wrap t id cls : table_ok t -> class_in t id cls ->
  wrap32 (bitmap_shard_offset cls + slot_count cls) = bitmap_shard_offset cls + slot_count cls.
Proof. intros (_ & Ht & _) []. apply Z.mod_small. lia. Qed.

Lemma class_shards_eq t id cls : table_ok t -> class_in t id cls ->
  wrap32 (slot_count cls + kBitmapShardBits - 1) / kBitmapShardBits = (slot_count cls + 63) / 64.
Proof.
  intros (_ & Ht & [q Hq] & _) []. unfold kBitmapShardBits. f_equal.
  unfold wrap32. rewrite Z.mod_small by lia. lia.
Qed.

(** The bits of one shard of a class. *)
Lemma class_shard t id cls rel :
  table_ok t -> class_in t id cls -> 0 <= rel < (slot_count cls + 63) / 64 ->
  wrap32 (bitmap_shard_offset cls + wrap32 (rel * kBitmapShardBits)) = bitmap_shard_offset cls + rel * 64 /\
  wrap32 (bitmap_shard_offset cls + rel * 64 + kBitmapShardBits) = bitmap_shard_offset cls + rel * 64 + 64 /\
  rel * 64 < slot_count cls.
Proof.
  intros (_ & Ht & [q Hq] & _) [_ _ _ Ho [k Hk] Hc He _] Hrel. unfold kBitmapShardBits.
  pose proof (Z.mul_div_le (slot_count cls + 63) 64 ltac:(lia)) as Hd.
  assert (rel * 64 < slot_count cls) as Hr by lia.
  assert (wrap32 (rel * 64) = rel * 64) as -> by (apply Z.mod_small; lia).
  split_and!; [apply Z.mod_small; lia | apply Z.mod_small; lia | done].
Qed.

Lemma scan_local_at t id cls hint node shards hinted n : forall probe s s' r,
  shape_ok s -> class_in (class_table_ (facade s)) id cls ->
  shards = (slot_count cls + 63) / 64 ->
  scan_local_shards t (bitmap_shard_offset cls) (bitmap_shard_offset cls + slot_count cls) hint node
    shards hinted probe n s = (s', r) ->
  match r with
  | Ok (Some i) => claims_in cls s s' i
  | Ok None => quiet s s'
  | Err e => False
  end.
Proof.
  induction n as [|n IH]; intros probe s s' r Hs Hcls Hsh H; cbn [scan_local_shards] in H; [by run_step H|].
  pose proof (fo_table _ (so_facade s Hs)) as Htab.
  pose proof Hcls as [_ _ _ Ho _ Hc He _].
  assert (0 < shards) as Hpos by (rewrite Hsh; apply Z.div_str_pos; lia).
  set (rel := wrap32 (hinted + probe) mod shards) in H.
  assert (0 <= rel < shards) as Hrel by (apply Z.mod_pos_bound; lia). rewrite Hsh in Hrel.
  destruct (class_shard _ _ _ rel Htab Hcls Hrel) as (E1 & E2 & Hr). rewrite E1, E2 in H.
  destruct (negb (is_node _ _)); [by apply (IH (probe + 1)) in H|].
  set (lb := bitmap_shard_offset cls + rel * 64) in H. set (le := Z.min _ _) in H.
  assert (lb < le <= bitmap_shard_offset cls + slot_count cls) as Hle by (unfold lb, le; lia).
  apply bind_run in H as [(s1 & a & Hrun & H)|(e & Hrun & ->)];
    apply attempt_run in Hrun as (c & Ea & Hrun); [injection Ea as ->|done].
  apply claim_in_range_at in Hrun; [|done|lia|unfold total_slot_count; lia].
  destruct c as [c|e].
  - apply bind_run in H as [(s2 & a & Hb2 & H)|(e & Hb2 & ->)];
      apply bump_quiet in Hb2 as [Hb2 Hq]; [|done]. run_step H.
    destruct Hrun as (Hi & Hf & Hat). split; [unfold in_class; lia|]. split; [done|]. by eapply at_slot_quiet.
  - destruct Hrun as [Hq Hcode]. destruct Hcode as [Hcode _]; [lia|]. rewrite bool_decide_true in H by done.
    apply (IH (probe + 1)) in H; [| by eapply quiet_shape | by destruct Hq as [-> _] | done].
    destruct r as [[i|]|]; [|by eapply quiet_trans|done]. by eapply claims_quiet; [done| |apply quiet_refl].
Qed.

Lemma claim_whole_at id cls hint active s s' r :
  shape_ok s -> class_in (class_table_ (facade s)) id cls ->
  claim_whole_range (bitmap_shard_offset cls) (bitmap_shard_offset cls + slot_count cls) hint active s = (s', r) ->
  match r with
  | Ok c => claims_in cls s s' (claimed_index c)
  | Err e => quiet s s' /\ code e = kResourceExhausted /\ forall i, in_class i cls -> IsSetAt s i = true
  end.
Proof.
  intros Hs Hcls H. pose proof Hcls as [_ _ _ Ho _ Hc He _]. unfold claim_whole_range in H.
  apply bind_run in H as [(s1 & a & Hrun & H)|(e & Hrun & ->)];
    apply attempt_run in Hrun as (c & Ea & Hrun); [injection Ea as ->|done].
  apply claim_in_range_at in Hrun; [|done|lia|unfold total_slot_count; lia]. destruct c as [c|e].
  - destruct Hrun as (Hi & Hf & Hat). destruct active as [[t node]|].
    + run_step H. done.
    + apply bind_run in H as [(s2 & a & Hb & H)|(e & Hb & ->)];
        apply bump_quiet in Hb as [Hb Hq]; [|done]. run_step H.
      split_and!; [done | done |]. by eapply at_slot_quiet.
  - destruct Hrun as [Hq Hcode]. destruct Hcode as [Hcode Hall]; [lia|].
    apply bind_run in H as [(s2 & a & Hb & H)|(e' & Hb & ->)];
      apply bump_quiet in Hb as [Hb Hq2]; [|done].
    rewrite bool_decide_true in H by done.
    apply bind_run in H as [(s3 & a' & Hb3 & H)|(e' & Hb3 & ->)];
      apply bump_quiet in Hb3 as [Hb3 Hq3]; [|done]. run_step H.
    split_and!; [|done|done]. eauto using quiet_trans.
Qed.

Lemma claims_then_quiet cls s s1 s2 i : claims_in cls s s1 i -> quiet s1 s2 -> claims_in cls s s2 i.
Proof. intros H Hq. by eapply claims_quiet; [apply quiet_refl|done|]. Qed.

(** A claim takes a free slot of the class, or the class is full. *)
Definition claim_outcome (cls : ClassDescriptor) (s s' : Slab) (r : Result ClaimedSlot) : Prop :=
  match r with
  | Ok c => claims_in cls s s' (claimed_index c)
  | Err e => quiet s s' /\ code e = kResourceExhausted /\ forall i, in_class i cls -> IsSetAt s i = true
  end.

Lemma claim_outcome_quiet cls s1 s2 s3 r :
  quiet s1 s2 -> claim_outcome cls s2 s3 r -> claim_outcome cls s1 s3 r.
Proof.
  intros Hq H. destruct r as [c|e]; cbn in *.
  - by eapply claims_quiet; [done|done|apply quiet_refl].
  - destruct H as (H1 & H2 & H3). split_and!; [by eapply quiet_trans | done |].
    intros i Hi. specialize (H3 i Hi). unfold IsSetAt in *. destruct Hq as [_ E]. by rewrite <- E.
Qed.

Lemma claim_cached_at th id cls s s' r :
  shape_ok s -> class_in (class_table_ (facade s)) id cls ->
  claim_cached th id cls s = (s', r) -> claim_outcome cls s s' r.
Proof.
  intros Hs Hcls H. pose proof (fo_table _ (so_facade s Hs)) as Htab. unfold claim_cached in H.
  rewrite (class_end_wrap _ _ _ Htab Hcls) in H.
  apply bind_run in H as [(s0 & c & Hrun & H)|(e & Hrun & ->)]; run_step Hrun.
  match type of H with bind ?m _ _ = _ => set (search := m) in H end.
  assert (forall s1 r1, search s = (s1, r1) -> claim_outcome cls s s1 r1) as Hsearch.
  { intros s1 r1. unfold search. clear search H. destruct (prefer_local_shards _ && _); intros H.
    - apply bind_run in H as [(s2 & node & Hn & H)|(e & Hn & ->)];
        apply observe_quiet in Hn as [Hn Hq]; [|done].
      apply bind_run in H as [(s3 & hint & Hn3 & H)|(e & Hn3 & ->)];
        apply get_cursor_quiet in Hn3 as [Hn3 Hq3]; [|done].
      assert (quiet s s3) as Hq' by by eapply quiet_trans.
      assert (shape_ok s3) as Hs3 by by eapply quiet_shape.
      assert (class_in (class_table_ (facade s3)) id cls) as Hcls3 by (by destruct Hq' as [-> _]).
      pose proof Hcls as [_ _ _ Ho _ Hc He _]. pose proof Htab as (_ & Ht & _).
      apply bind_run in H as [(s4 & found & Hf & H)|(e & Hf & ->)];
        eapply scan_local_at in Hf; try done.
      2,3: by apply (class_shards_eq _ _ _ Htab Hcls).
      destruct found as [bit|].
      + run_step H. cbn. by eapply claims_quiet; [done|done|apply quiet_refl].
      + apply bind_run in H as [(s5 & a & Hb & H)|(e & Hb & ->)];
          apply bump_quiet in Hb as [Hb Hq5]; [|done].
        assert (quiet s s5) as Hq'' by eauto using quiet_trans.
        eapply claim_whole_at in H; [|by eapply quiet_shape|by destruct Hq'' as [-> _]].
        by eapply claim_outcome_quiet.
    - apply bind_run in H as [(s3 & hint & Hn3 & H)|(e & Hn3 & ->)];
        apply get_cursor_quiet in Hn3 as [Hn3 Hq3]; [|done].
      eapply claim_whole_at in H; [|by eapply quiet_shape|by destruct Hq3 as [-> _]].
      by eapply claim_outcome_quiet. }
  apply bind_run in H as [(s1 & claimed & Hrun & H)|(e & Hrun & ->)]; apply Hsearch in Hrun; [|done].
  apply bind_run in H as [(s2 & a & Hc & H)|(e & Hc & ->)];
    apply set_cursor_quiet in Hc as [Hc Hq]; [|done].
  run_step H. by eapply claims_then_quiet.
Qed.

Lemma claim_slot_at th id cls s s' r :
  shape_ok s -> class_in (class_table_ (facade s)) id cls ->
  claim_slot th id cls s = (s', r) -> claim_outcome cls s s' r.
Proof.
  intros Hs Hcls H. unfold claim_slot in H. run_step H; run_step Hrun.
  destruct (cache_enabled (cache s)); [by eapply claim_cached_at|].
  pose proof (fo_table _ (so_facade s Hs)) as Htab. pose proof Hcls as [_ _ _ Ho _ Hc He _].
  unfold claim_uncached in H. rewrite (class_end_wrap _ _ _ Htab Hcls) in H.
  run_step H; apply bump_quiet in Hrun as [Hb Hq]; [|done].
  run_step H; apply attempt_run in Hrun as (c & Ea & Hrun); [injection Ea as ->|done].
  assert (exists a1, claim_in_range (bitmap_shard_offset cls) (bitmap_shard_offset cls + slot_count cls)
            (bitmap_shard_offset cls) s1 = (s0, a1) /\ c = (let! b := a1 in Ok (bit_index b))) as (a1 & Hc1 & ->).
  { unfold FindAndSetFreeBitInRange in Hrun. unfold claim_in_range.
    destruct (FindAndSetFreeBitInRangeHinted _ _ _ _) as [bm a1]. injection Hrun as <- <-. eauto. }
  apply claim_in_range_at in Hc1; [| by eapply quiet_shape | lia |
    destruct Hq as [E _]; unfold total_slot_count; rewrite E; lia].
  destruct a1 as [b|e]; cbn [bindR] in H.
  - run_step H. cbn. eapply claims_quiet; [done| |apply quiet_refl].
    destruct Hc1 as (Hi & Hf & Hat). split_and!; [split; lia | done | done].
  - destruct Hc1 as [Hq1 Hcode]. destruct Hcode as [Hcode Hall]; [lia|].
    rewrite bool_decide_true in H by done.
    run_step H; apply bump_quiet in Hrun0 as [Hb2 Hq2]; [|done]. run_step H. cbn.
    split_and!; [eauto using quiet_trans | done |].
    intros i Hi. specialize (Hall i Hi). unfold IsSetAt in *. destruct Hq as [_ E]. by rewrite <- E.
Qed.

(** ** Steps of a slot *)

Definition reclaimable_state (o : ObjectState) : bool :=
  match o with kAllocated | kBuilding | kPublished | kRetired | kAborting => true | _ => false end.

(** The lifecycle edges of a live allocation. *)
Definition edge (o o' : ObjectState) : bool :=
  match o, o' with
  | kAllocated, kBuilding | kBuilding, kPublished => true
  | kAllocated, kRetired | kBuilding, kRetired | kPublished, kRetired => true
  | kAllocated, kAborting | kBuilding, kAborting => true
  | _, _ => false
  end.

Inductive slot_step (t : ClassTable) (i : Z) : Slot -> Slot -> Prop :=
| step_allocate c c' :
    slot_bit c = false -> object_state (slot_header c) = state_value kFree ->
    slot_bit c' = true -> slot_gen c' = slot_gen c + 1 -> slot_gen c' < kGenerationDraining ->
    object_state (slot_header c') = state_value kAllocated -> stamped t i c' ->
    slot_step t i c c'
| step_exhaust c c' :
    slot_bit c = false -> object_state (slot_header c) = state_value kFree ->
    slot_bit c' = false -> slot_gen c <= slot_gen c' -> slot_header c' = slot_header c ->
    slot_step t i c c'
| step_edge c o o' :
    slot_bit c = true -> object_state (slot_header c) = state_value o -> edge o o' = true ->
    slot_step t i c (mkSlot true (slot_gen c) (with_state (slot_header c) (state_value o')))
| step_free c o :
    slot_bit c = true -> object_state (slot_header c) = state_value o -> reclaimable_state o = true ->
    slot_step t i c (mkSlot false (slot_gen c) (with_state (slot_header c) (state_value kFree))).

Abbreviation slot_path t i := (rtc (slot_step t i)).

(** Changing the publication word keeps the stamp. *)
Lemma with_state_verified h v : VerifyImmutableHeader (with_state h v) = VerifyImmutableHeader h.
Proof.
  unfold VerifyImmutableHeader, ComputeImmutableHeaderCrc.
  by assert (immutable_fields (with_state h v) = immutable_fields h) as -> by reflexivity.
Qed.
Lemma verify_stamped request id cap gen st crc :
  VerifyImmutableHeader (stamped_header request id cap gen st crc) = true.
Proof.
  unfold stamped_header. set (h := mkHeader _ _ _ _ _ _ _ _ _ _ _ _ _ _). unfold VerifyImmutableHeader.
  change (magic (with_crc h _)) with kSlabHeaderMagic.
  change (header_version (with_crc h _)) with kSlabHeaderVersion.
  rewrite (Z.eqb_refl kSlabHeaderMagic), (Z.eqb_refl kSlabHeaderVersion). cbn [negb].
  change (immutable_header_crc (with_crc h ?c)) with c. apply Z.eqb_eq.
  unfold ComputeImmutableHeaderCrc. do 2 f_equal.
Qed.

#[local] Opaque VerifyImmutableHeader ComputeImmutableHeaderCrc.

Lemma edge_live o o' : edge o o' = true -> live_state o' = true.
Proof. by destruct o, o'. Qed.

Lemma slot_step_ok t i c c' : slot_step t i c c' -> slot_ok t i c -> slot_ok t i c'.
Proof.
  intros Hs Hok. unfold slot_ok in *. destruct Hs as [c c' H1 H2 H3 H4 H5 H6 H7|c c' H1 H2 H3 H4 H5|c o o' H1 H2 H3|c o H1 H2 H3].
  - by rewrite H3.
  - by rewrite H3, H5.
  - rewrite H1 in Hok. cbn [slot_bit]. destruct Hok as [S1 S2 S3 S4 S5].
    split; cbn [slot_header slot_gen]; [| exact S2 | exact S3 | by rewrite with_state_verified | exact S5].
    exists o'. split; [done | by eapply edge_live].
  - done.
Qed.

Lemma slot_path_ok t i c c' : slot_path t i c c' -> slot_ok t i c -> slot_ok t i c'.
Proof. induction 1; [done|]. intros. apply IHrtc. by eapply slot_step_ok. Qed.

(** Generations do not go back, and a free slot only becomes live with a new one. *)
Lemma slot_step_gen t i c c' : slot_step t i c c' ->
  slot_gen c <= slot_gen c' /\ (slot_bit c = false -> slot_bit c' = true -> slot_gen c < slot_gen c').
Proof.
  intros Hs. destruct Hs as [c c' H1 H2 H3 H4 H5 H6 H7|c c' H1 H2 H3 H4 H5|c o o' H1 H2 H3|c o H1 H2 H3]; cbn;
    split; try lia; congruence.
Qed.

Lemma slot_path_gen t i c c' : slot_path t i c c' ->
  slot_gen c <= slot_gen c' /\ (slot_bit c = false -> slot_bit c' = true -> slot_gen c < slot_gen c').
Proof.
  induction 1 as [c|c c1 c2 Hs _ [IH1 IH2]]; [split; [lia | congruence]|].
  destruct (slot_step_gen _ _ _ _ Hs) as [G1 G2]. split; [lia|]. intros Hc Hc2.
  destruct (slot_bit c1) eqn:E1; [specialize (G2 Hc eq_refl); lia | specialize (IH2 eq_refl Hc2); lia].
Qed.

(** While the generation and the bit stay, so does the stamp. *)
Definition same_stamp (h h' : SlabHeader) : Prop := h' = with_state h (object_state h').

Lemma slot_step_stamp t i c c' : slot_step t i c c' -> slot_bit c = true -> slot_gen c' = slot_gen c ->
  same_stamp (slot_header c) (slot_header c').
Proof.
  intros Hs Hb Hg. destruct Hs as [c c' H1 H2 H3 H4 H5 H6 H7|c c' H1 H2 H3 H4 H5|c o o' H1 H2 H3|c o H1 H2 H3]; try congruence; done.
Qed.

(** ** Allocation *)

Lemma set_draining_at i id v s :
  shape_ok s -> at_slot i (slot s i) s (set_draining s (<[Z.to_nat id := v]> (class_draining_ (shared s)))).
Proof.
  intros [A1 A2 A3 A4 A5 A6]. split; [done | done | | done | done]. split; try done.
  unfold set_draining, set_shared, zlen in *. cbn [shared class_draining_ facade]. by rewrite length_insert.
Qed.

Lemma discard_run {A} (m : SlabM A) s s' r : discard m s = (s', r) -> r = Ok tt /\ exists a, m s = (s', a).
Proof. unfold discard. destruct (m s) as [s1 a]. intros [= <- <-]. eauto. Qed.

Lemma at_slot_index i c s s' j : at_slot i c s s' -> index_ok s j -> index_ok s' j.
Proof. intros [F _ _ _ _]. unfold index_ok, total_slot_count. by rewrite F. Qed.

Lemma at_slot_parts i c s s' : at_slot i c s s' ->
  IsSetAt s' i = slot_bit c /\ GenerationAt s' i = slot_gen c /\ HeaderAt s' i = slot_header c.
Proof. intros [_ _ _ E _]. unfold slot in E. by subst c. Qed.

Lemma with_state_twice h a b : with_state (with_state h a) b = with_state h b.
Proof. reflexivity. Qed.
Lemma with_state_same h v : object_state h = v -> with_state h v = h.
Proof. intros <-. destruct h. reflexivity. Qed.

(** Chain the next primitive change of slot [i] onto [Hat]. *)
Ltac chain Hat lem :=
  let H := fresh "Hnext" in
  let Eb := fresh "Eb" in let Eg := fresh "Eg" in let Eh := fresh "Eh" in
  pose proof lem as H;
  destruct (at_slot_parts _ _ _ _ Hat) as (Eb & Eg & Eh); cbn [slot slot_bit slot_gen slot_header] in Eb, Eg, Eh;
  rewrite ?Eb, ?Eg, ?Eh in H;
  eapply at_slot_trans in H; [|exact Hat]; clear Hat; rename H into Hat.

(** The header a successful allocation leaves. *)
Definition allocated_header (request : AllocationRequest) (id capacity gen crc : Z) : SlabHeader :=
  with_state (stamped_header request id capacity gen (state_value kAllocating) crc) (state_value kAllocated).

(** An allocation stamps its slot. *)
Lemma allocated_stamped t i request id cls gen crc :
  class_in t id cls -> in_class i cls -> 0 < gen -> 0 <= request_size request <= slot_size cls ->
  stamped t i (mkSlot true gen (allocated_header request id (slot_size cls) gen crc)).
Proof.
  intros Hc Hi Hg Hr. unfold allocated_header. split; cbn [slot_header slot_gen].
  - by exists kAllocated.
  - reflexivity.
  - exact Hg.
  - rewrite with_state_verified. apply verify_stamped.
  - exists cls. split_and!; [apply Hc | apply Hc | exact Hi | reflexivity | apply Hr | apply Hr].
Qed.
#[local] Opaque stamped_header.

(** Undoing the claim of a slot whose generations are used up. *)
Lemma undo_claim_at {A} id i e s s' (r : Result A) :
  shape_ok s -> index_ok s i ->
  (do* modify (fun s => set_draining s (<[Z.to_nat id := 1]> (class_draining_ (shared s)))) ;;
   do* store_state i kFree ;; do* discard (clear_bit i) ;; throw e) s = (s', r) ->
  r = Err e /\
  at_slot i (mkSlot false (GenerationAt s i) (with_state (HeaderAt s i) (state_value kFree))) s s'.
Proof.
  intros Hs Hi H. run_step H; run_step Hrun.
  pose proof (set_draining_at i id 1 s Hs) as Hat.
  run_step H; apply store_state_at in Hrun as [Er Hst];
    [| by apply Hat | by eapply at_slot_index | | by apply Hat | by eapply at_slot_index]; [|done].
  chain Hat Hst.
  run_step H; apply discard_run in Hrun as [Er' [b Hcl]]; [|done].
  apply clear_bit_at in Hcl as [Hcl _]; [| by apply Hat | by eapply at_slot_index].
  chain Hat Hcl. run_step H. split; [done | exact Hat].
Qed.

Lemma stamp_slot_at request id cls i s s' r :
  shape_ok s -> index_ok s i -> object_state (HeaderAt s i) = state_value kFree ->
  stamp_slot request id cls i s = (s', r) ->
  match r with
  | Ok gen => gen = GenerationAt s i + 1 /\ gen < kGenerationDraining /\
      at_slot i (mkSlot (IsSetAt s i) gen (allocated_header request id (slot_size cls) gen
                   (immutable_header_crc (HeaderAt s i)))) s s'
  | Err e => code e = kResourceExhausted /\ exists gen, GenerationAt s i <= gen /\
      at_slot i (mkSlot false gen (HeaderAt s i)) s s'
  end.
Proof.
  intros Hs Hi Hf H. unfold stamp_slot in H. run_step H; run_step Hrun.
  unfold is_state in H. rewrite Hf, Z.eqb_refl in H. cbn [negb] in H.
  run_step H; apply store_state_at in Hrun as [Er Hat]; try done. clear Er.
  assert (index_ok s1 i) as Hi1 by by eapply at_slot_index.
  pose proof (as_shape _ _ _ _ Hat) as Hs1.
  run_step H; apply increment_at in Hrun as [(Er & -> & Hg)|(Er & Hg & Hinc)]; try done; injection Er as ->.
  - rewrite Z.eqb_refl in H. apply undo_claim_at in H as [-> H]; [|done|done].
    chain Hat H. rewrite with_state_twice, with_state_same in Hat by done.
    split; [done|]. exists (GenerationAt s i). split; [lia | done].
  - chain Hat Hinc. assert (index_ok s0 i) as Hi0 by by eapply at_slot_index.
    pose proof (as_shape _ _ _ _ Hat) as Hs0. rewrite Eg in H.
    destruct (Z.eqb_spec (GenerationAt s i + 1) kGenerationDraining) as [Ed|Ed].
    + apply undo_claim_at in H as [-> H]; [|done|done].
      chain Hat H. rewrite with_state_twice, with_state_same in Hat by done.
      split; [done|]. exists (GenerationAt s i + 1). split; [lia | done].
    + run_step H; run_step Hrun. destruct (at_slot_parts _ _ _ _ Hat) as (_ & _ & Eh0).
      rewrite Eh0 in H. cbn [slot_header] in H. cbn [with_state object_state immutable_header_crc] in H.
      match type of H with context [set_header s0 i ?h] => remember h as h' eqn:Eh' end.
      chain Hat (set_header_at i h' s0 Hs0 Hi0).
      run_step H; apply store_state_at in Hrun as [Er Hst];
        [| by apply Hat | by eapply at_slot_index | | by apply Hat | by eapply at_slot_index]; [|done].
      chain Hat Hst. run_step H. rewrite Eg in Hg. split_and!; [done | lia |].
      unfold allocated_header. rewrite <- Eh'. exact Hat.
Qed.

(** ** What every call does

    Each slot moves along the steps of [slot_step]. *)
Record moves (s s' : Slab) : Prop := {
  mv_facade : facade s' = facade s;
  mv_image : image s' = image s;
  mv_shape : shape_ok s';
  mv_slots : forall i, index_ok s i -> slot_path (class_table_ (facade s)) i (slot s i) (slot s' i)
}.

Lemma moves_refl s : shape_ok s -> moves s s.
Proof. by intros. Qed.
Lemma moves_trans s1 s2 s3 : moves s1 s2 -> moves s2 s3 -> moves s1 s3.
Proof.
  intros [F1 I1 S1 M1] [F2 I2 S2 M2]. split; [congruence | congruence | done |]. intros i Hi.
  etrans; [by apply M1|]. rewrite <- F1. apply M2. unfold index_ok, total_slot_count in *. by rewrite F1.
Qed.
Lemma quiet_moves s s' : quiet s s' -> shape_ok s -> moves s s'.
Proof.
  intros Hq Hs. split; [apply Hq | by apply quiet_image | by eapply quiet_shape |]. intros i Hi. by rewrite (quiet_slot _ _ _ Hq).
Qed.
Lemma at_slot_moves i c s s' :
  at_slot i c s s' -> (index_ok s i -> slot_path (class_table_ (facade s)) i (slot s i) c) -> moves s s'.
Proof.
  intros [F I S E O] Hp. split; [done | done | done |]. intros j Hj.
  destruct (Z.eq_dec j i) as [->|Hne]; [rewrite E; auto|]. by rewrite O by (done || destruct Hj; lia).
Qed.
Lemma moves_ok s s' : slab_ok s -> moves s s' -> slab_ok s'.
Proof.
  intros [H1 H2] [F _ S M]. split; [done|]. intros i Hi. rewrite F.
  assert (index_ok s i) as Hi' by (unfold index_ok, total_slot_count in *; by rewrite <- F).
  eapply slot_path_ok; [by apply M | by apply H2].
Qed.
#[export] Hint Resolve moves_refl : mino.

Record request_ok (r : AllocationRequest) : Prop := {
  ro_size : is_u32 (request_size r);
  ro_alignment : is_u32 (alignment r)
}.

Lemma aligned_size_bound size align :
  is_u32 size -> is_u32 align -> align <> 0 ->
  size <= wrap64 (wrap64 (size + align - 1) / align * align).
Proof.
  intros Hs Ha Hnz. rewrite (wrap64_id (size + align - 1)) by ulia.
  assert (0 < align) as Hpos by ulia.
  pose proof (Z.div_mod (size + align - 1) align ltac:(lia)) as Hd.
  pose proof (Z.mod_pos_bound (size + align - 1) align ltac:(lia)) as Hm.
  assert (0 <= (size + align - 1) / align) by (apply Z.div_pos; ulia).
  rewrite wrap64_id; [lia|]. split; [nia|]. ulia.
Qed.

(** A successful allocation: slot [i] of the class found for the request was free and
    now holds the stamped object. *)
Record allocates (request : AllocationRequest) (s s' : Slab) (i : Z) (h : ShmHandle) : Prop := {
  al_index : index_ok s i;
  al_was_free : IsSetAt s i = false;
  al_handle : h = handle_at s i (GenerationAt s i + 1);
  al_bound : GenerationAt s i + 1 < kGenerationDraining;
  al_class : exists id cls, class_in (class_table_ (facade s)) id cls /\ in_class i cls /\
    0 <= request_size request <= slot_size cls /\
    at_slot i (mkSlot true (GenerationAt s i + 1)
      (allocated_header request id (slot_size cls) (GenerationAt s i + 1)
         (immutable_header_crc (HeaderAt s i)))) s s'
}.

Lemma allocates_moves request s s' i h : slab_ok s -> allocates request s s' i h -> moves s s'.
Proof.
  intros [Hsh Hsl] [Hi Hf _ Hb (id & cls & Hc & Hin & Hr & Hat)].
  pose proof (Get_u32 (generations_ (shared s)) i (so_generations s Hsh) ltac:(destruct Hi; lia)) as Hg.
  specialize (Hsl i Hi). unfold slot_ok, slot in Hsl. cbn [slot_bit slot_header] in Hsl. rewrite Hf in Hsl.
  apply (at_slot_moves _ _ _ _ Hat). intros _. apply rtc_once. apply step_allocate; cbn [slot slot_bit slot_gen slot_header]; try done.
  apply (allocated_stamped _ _ _ _ cls); [done | done | unfold GenerationAt; ulia | done].
Qed.

Lemma total_u32 s : shape_ok s -> 0 <= total_slot_count s <= u32_max.
Proof. intros Hs. apply (fo_table _ (so_facade s Hs)). Qed.

Lemma in_class_index s id cls i :
  class_in (class_table_ (facade s)) id cls -> in_class i cls -> index_ok s i.
Proof. intros [] [H1 H2]. unfold index_ok, total_slot_count. lia. Qed.

Lemma FindClass_in t size id :
  table_ok t -> FindClass t size = Ok id ->
  exists cls, GetClass t id = Some cls /\ class_in t id cls /\ size <= slot_size cls.
Proof.
  intros Ht H. unfold FindClass in H. destruct (size =? 0); [done|]. pose proof Ht as (Hl & _).
  pose proof (find_class_spec (classes_ t) size _ _ _ _ Hl) as Hf. rewrite H in Hf.
  destruct Hf as (k & d & Hk & -> & Hs & _). exists d.
  assert (GetClass t (0 + Z.of_nat k) = Some d) as Hg by (unfold GetClass; by rewrite Z.add_0_l, Nat2Z.id).
  split_and!; [done | apply class_lookup; [done | done | lia] | done].
Qed.

(** An allocation that fails leaves every live object as it was. *)
Definition no_object_changed (s s' : Slab) : Prop :=
  moves s s' /\ forall i, index_ok s i ->
    slot s' i = slot s i \/ IsSetAt s i = false /\ IsSetAt s' i = false.

Lemma quiet_no_change s s' : quiet s s' -> shape_ok s -> no_object_changed s s'.
Proof. intros Hq Hs. split; [by apply quiet_moves|]. intros i _. left. by apply quiet_slot. Qed.

Lemma Allocate_cases th request s s' r :
  slab_ok s -> request_ok request -> Allocate th request s = (s', r) ->
  match r with
  | Ok h => exists i, allocates request s s' i h
  | Err _ => no_object_changed s s'
  end.
Proof.
  intros [Hs Hsl] [Hsz Hal] H. pose proof (fo_table _ (so_facade s Hs)) as Htab. unfold Allocate in H.
  set (align := if alignment request =? 0 then 1 else alignment request) in H.
  assert (is_u32 align /\ align <> 0) as [Ha Hnz] by (unfold align; destruct (Z.eqb_spec (alignment request) 0); split; ulia).
  pose proof (aligned_size_bound _ _ Hsz Ha Hnz) as Hsize.
  run_step H; [run_step H; by apply quiet_no_change|].
  run_step H; [run_step H; by apply quiet_no_change|].
  run_step H; [run_step H; by apply quiet_no_change|].
  run_step H; run_step Hrun.
  run_step H; unfold ask in Hrun; [|injection Hrun as <- _; by apply quiet_no_change].
  injection Hrun as <- Hfind. apply FindClass_in in Hfind as (cls & Hget & Hcls & Hfit); [|done].
  run_step H; unfold ask in Hrun; rewrite Hget in Hrun; [|done]. injection Hrun as <- <-.
  run_step H; run_step Hrun.
  run_step H; [run_step H; by apply quiet_no_change|].
  run_step H; apply (claim_slot_at _ a) in Hrun; try done; cbn in Hrun.
  2: { destruct Hrun as [Hq _]. by apply quiet_no_change. }
  set (i := claimed_index a0) in *. destruct Hrun as (Hin & Hf & Hat).
  assert (index_ok s i) as Hi by by eapply in_class_index.
  assert (object_state (HeaderAt s i) = state_value kFree) as Hfree.
  { specialize (Hsl i Hi). unfold slot_ok, slot in Hsl. cbn [slot_bit slot_header] in Hsl. by rewrite Hf in Hsl. }
  destruct (at_slot_parts _ _ _ _ Hat) as (Eb & Eg & Eh). cbn [slot_bit slot_gen slot_header] in Eb, Eg, Eh.
  run_step H; apply stamp_slot_at in Hrun; try (by apply Hat); try (by eapply at_slot_index); try congruence.
  - destruct Hrun as (Eg' & Hlt & Hst). rewrite Eb, Eg, Eh in *.
    eapply at_slot_trans in Hst; [|exact Hat]. clear Hat.
    run_step H; run_step Hrun.
    run_step H; apply bump_quiet in Hrun as [Er1 Q1]; [|done].
    run_step H; apply when_bump_quiet in Hrun as [Er2 Q2]; [|done].
    run_step H; apply when_bump_quiet in Hrun as [Er3 Q3]; [|done].
    run_step H; apply when_bump_quiet in Hrun as [Er4 Q4]; [|done].
    run_step H. exists i. match goal with |- allocates _ _ ?s' _ _ => set (sf := s') in * end.
    assert (at_slot i (mkSlot true a1 (allocated_header request a (slot_size cls) a1
              (immutable_header_crc (HeaderAt s i)))) s sf) as Hat'
      by (do 4 (eapply at_slot_quiet; [|done]); exact Hst).
    subst a1. split; [done | done | | done |].
    + unfold handle_at, header_offset. by rewrite (as_facade _ _ _ _ Hat').
    + exists a, cls. split_and!; [done | done | apply Hsz | ulia | done].
  - destruct Hrun as (_ & gen & Hle & Hst). rewrite Eg, Eh in *.
    eapply at_slot_trans in Hst; [|exact Hat]. split.
    + apply (at_slot_moves _ _ _ _ Hst). intros _. apply rtc_once. by apply step_exhaust.
    + intros j Hj. destruct (Z.eq_dec j i) as [->|Hne].
      * right. split; [done|]. by apply (at_slot_parts _ _ _ _ Hst).
      * left. apply (as_others _ _ _ _ Hst); [destruct Hj; lia | done].
Qed.

(** ** Handles *)

Lemma stride_positive f : facade_ok f -> kSlabHeaderSize <= slot_stride_ f.
Proof.
  intros [F1 F2 F3 F4 F5 F6].
  assert (0 <= max_object_size (class_table_ f)); [|lia].
  unfold max_object_size. destruct (list.last _) as [d|] eqn:E; [|lia].
  rewrite last_lookup in E. destruct F1 as (Hl & _).
  destruct (layout_ok_lookup _ _ _ _ _ _ _ Hl ltac:(lia) ltac:(by exists 0) E) as (_ & ? & _). lia.
Qed.

Lemma slot_offset s i : shape_ok s -> index_ok s i ->
  wrap64 (handle_offset_bias_ (facade s) + header_offset s i)
  = handle_offset_bias_ (facade s) + headers_offset_ (facade s) + i * slot_stride_ (facade s) /\
  headers_offset_ (facade s) + i * slot_stride_ (facade s) + slot_stride_ (facade s)
  <= data_region_size_ (facade s).
Proof.
  intros Hs [H0 Ht]. pose proof (so_facade s Hs) as Hf. pose proof (stride_positive _ Hf) as Hst.
  destruct Hf as [F1 F2 F3 F4 F5 F6].
  unfold total_slot_count, kSlabHeaderSize, kSuperblockSize in *. unfold header_offset.
  assert (i * slot_stride_ (facade s) + slot_stride_ (facade s)
          <= total_slots_ (class_table_ (facade s)) * slot_stride_ (facade s)) as Hle by nia.
  assert (0 <= i * slot_stride_ (facade s)) by nia.
  rewrite (wrap64_id (i * _)) by ulia. rewrite (wrap64_id (headers_offset_ _ + _)) by ulia.
  rewrite wrap64_id by ulia. split; lia.
Qed.

(** A handle resolves to slot [i] exactly when it names the allocation there. *)
Definition names (s : Slab) (h : ShmHandle) (i : Z) : Prop :=
  index_ok s i /\ h = handle_at s i (GenerationAt s i) /\ IsSetAt s i = true /\
  generation (HeaderAt s i) = GenerationAt s i.

Lemma resolve_names s h i : shape_ok s -> ResolveLocked s h = Ok i <-> names s h i.
Proof.
  intros Hs. pose proof (so_facade s Hs) as Hf. pose proof (stride_positive _ Hf) as Hst.
  pose proof (total_u32 s Hs) as Ht. unfold kSlabHeaderSize in Hst.
  unfold names. split.
  - unfold ResolveLocked. intros H.
    destruct ((offset h =? 0) && _ && _); [done|]. repeat step_if. bool_to_prop. inv_ok.
    set (rel := offset h - handle_offset_bias_ (facade s) - headers_offset_ (facade s)) in *.
    match goal with |- index_ok s ?x /\ _ => set (j := x) in * end.
    assert (rel = j * slot_stride_ (facade s)) as Erel.
    { unfold j. match goal with E : _ mod _ = 0 |- _ => pose proof (Z.div_mod rel (slot_stride_ (facade s)) ltac:(lia)); rewrite E in * end. lia. }
    assert (index_ok s j) as Hj. { split; [apply Z.div_pos; lia | done]. }
    split_and!; [done | | done | congruence].
    destruct (slot_offset s j Hs Hj) as [Eo _]. unfold handle_at. rewrite Eo.
    destruct h as [o g r]. cbn in *. f_equal; [unfold rel in Erel; lia | congruence | congruence].
  - intros (Hi & Eh & Hb & Hg). destruct (slot_offset s i Hs Hi) as [E Hin].
    unfold handle_at in Eh. rewrite E in Eh. destruct Hf as [F1 F2 F3 F4 F5 F6]. unfold kSuperblockSize in *.
    assert (0 <= i * slot_stride_ (facade s)) by (destruct Hi; nia).
    unfold ResolveLocked. rewrite Eh. cbn [offset handle_generation handle_region_id]. unfold kSuperblockSize.
    destruct (Z.eqb_spec (handle_offset_bias_ (facade s) + headers_offset_ (facade s) + i * slot_stride_ (facade s)) 0); [lia|].
    cbn [andb]. rewrite Z.eqb_refl. cbn [negb].
    replace (handle_offset_bias_ (facade s) + headers_offset_ (facade s) + i * slot_stride_ (facade s)
             - handle_offset_bias_ (facade s)) with (headers_offset_ (facade s) + i * slot_stride_ (facade s)) by lia.
    replace (headers_offset_ (facade s) + i * slot_stride_ (facade s) - headers_offset_ (facade s))
      with (i * slot_stride_ (facade s)) by lia.
    rewrite Z.mod_mul, Z.div_mul by lia. rewrite Hb, Hg, !Z.eqb_refl. cbn [negb orb].
    destruct Hi. do 4 (pass_guard). done.
Qed.

Lemma resolve_run h s s' r : Resolve h s = (s', r) -> s' = s /\ r = ResolveLocked s h.
Proof. unfold Resolve, ask. by intros [= <- <-]. Qed.

(** Start a call that resolves its handle: either it names slot [i], or nothing happens. *)
Ltac resolve_step H Hs :=
  let Hr := fresh "Hres" in let Er := fresh "Er" in
  run_step H;
  match goal with Hrun : Resolve _ _ = _ |- _ => apply resolve_run in Hrun as [-> Er] end;
  [symmetry in Er; apply resolve_names in Er as Hr; [|exact Hs]|].

(** The live slot of a well-formed allocator. *)
Lemma names_stamped s h i : slab_ok s -> names s h i -> stamped (class_table_ (facade s)) i (slot s i).
Proof.
  intros [_ Hsl] (Hi & _ & Hb & _). specialize (Hsl i Hi). unfold slot_ok in Hsl.
  change (slot_bit (slot s i)) with (IsSetAt s i) in Hsl. by rewrite Hb in Hsl.
Qed.

(** The object a handle names, with its state. *)
Definition object (s : Slab) (h : ShmHandle) : option SlabHeader :=
  match ResolveLocked s h with Ok i => Some (HeaderAt s i) | Err _ => None end.

(** No object changes, and nothing else of the shared memory does. *)
Record still (s s' : Slab) : Prop := {
  si_facade : facade s' = facade s;
  si_image : image s' = image s;
  si_shape : shape_ok s';
  si_slots : forall i, 0 <= i -> slot s' i = slot s i
}.

Lemma still_refl s : shape_ok s -> still s s.
Proof. by intros. Qed.
Lemma quiet_still s s' : quiet s s' -> shape_ok s -> still s s'.
Proof. intros Hq Hs. split; [apply Hq | by apply quiet_image | by eapply quiet_shape |]. intros. by apply quiet_slot. Qed.
Lemma at_slot_still i s s' : at_slot i (slot s i) s s' -> still s s'.
Proof.
  intros [F I S E O]. split; [done | done | done |]. intros j Hj. destruct (Z.eq_dec j i) as [->|]; [done | by apply O].
Qed.
Lemma still_moves s s' : still s s' -> moves s s'.
Proof. intros [F I S E]. split; [done | done | done |]. intros i [Hi _]. by rewrite E. Qed.
#[export] Hint Resolve still_refl still_moves : mino.

(** Slot [i] takes the lifecycle edge from [o] to [o']. *)
Definition takes_edge (s s' : Slab) (h : ShmHandle) (i : Z) (o o' : ObjectState) : Prop :=
  names s h i /\ object_state (HeaderAt s i) = state_value o /\ edge o o' = true /\
  at_slot i (mkSlot true (GenerationAt s i) (with_state (HeaderAt s i) (state_value o'))) s s'.

Lemma takes_edge_moves s s' h i o o' : takes_edge s s' h i o o' -> moves s s'.
Proof.
  intros ((Hi & _ & Hb & _) & Hst & He & Hat). apply (at_slot_moves _ _ _ _ Hat). intros _.
  apply rtc_once. by apply (step_edge _ _ (slot s i) o o').
Qed.

Lemma store_edge s s' r h i o o' :
  shape_ok s -> names s h i -> object_state (HeaderAt s i) = state_value o -> edge o o' = true ->
  store_state i o' s = (s', r) -> r = Ok tt /\ takes_edge s s' h i o o'.
Proof.
  intros Hs Hn Ho He H. apply store_state_at in H as [-> Hat]; [|done|apply Hn].
  split; [done|]. split_and!; [done | done | done |]. by rewrite (proj1 (proj2 (proj2 Hn))) in Hat.
Qed.

Lemma is_state_eq v o : is_state v o = true <-> v = state_value o.
Proof. apply Z.eqb_eq. Qed.
Lemma state_value_inj o o' : state_value o = state_value o' -> o = o'.
Proof. by destruct o, o'. Qed.

Lemma BeginBuild_cases h s s' r :
  slab_ok s -> BeginBuild h s = (s', r) ->
  match r with
  | Ok v => exists i, takes_edge s s' h i kAllocated kBuilding /\ build_handle v = h /\
      build_capacity v = capacity (HeaderAt s i) /\ build_object_size v = object_size (HeaderAt s i) /\
      build_data v = header_offset s i + kSlabHeaderSize
  | Err _ => s' = s
  end.
Proof.
  intros Hok H. pose proof (sk_shape s Hok) as Hs. unfold BeginBuild in H. resolve_step H Hs; [|done].
  run_step H; run_step Hrun. run_step H; [by run_step H|]. run_step H; [by run_step H|].
  apply negb_false_iff, is_state_eq in E0.
  run_step H; eapply store_edge in Hrun as [Er' Ht]; try done. run_step H.
  exists a. split_and!; try done. cbn [build_data]. unfold header_offset. by rewrite (as_facade _ _ _ _ (proj2 (proj2 (proj2 Ht)))).
Qed.

Lemma Publish_cases h s s' r :
  slab_ok s -> Publish h s = (s', r) ->
  match r with Ok _ => exists i, takes_edge s s' h i kBuilding kPublished | Err _ => s' = s end.
Proof.
  intros Hok H. pose proof (sk_shape s Hok) as Hs. unfold Publish in H. resolve_step H Hs; [|done].
  run_step H; run_step Hrun. run_step H; [by run_step H|]. run_step H; [by run_step H|].
  apply negb_false_iff, is_state_eq in E0.
  eapply store_edge in H as [-> Ht]; try done. eauto.
Qed.

Lemma Retire_cases h s s' r :
  slab_ok s -> Retire h s = (s', r) ->
  match r with
  | Ok _ => exists i, names s h i /\
      (s' = s /\ object_state (HeaderAt s i) = state_value kRetired \/
       exists o, takes_edge s s' h i o kRetired)
  | Err _ => s' = s
  end.
Proof.
  intros Hok H. pose proof (sk_shape s Hok) as Hs. unfold Retire in H. resolve_step H Hs; [|done].
  run_step H; run_step Hrun. run_step H; [run_step H; apply is_state_eq in E; eauto|].
  run_step H; [by run_step H|].
  assert (exists o, object_state (HeaderAt s a) = state_value o /\ edge o kRetired = true) as (o & Ho & He).
  { rewrite !andb_false_iff, !negb_false_iff, !is_state_eq in E0.
    destruct E0 as [[E0|E0]|E0]; eexists; (split; [exact E0|done]). }
  eapply store_edge in H as [-> Ht]; try done. exists a. eauto.
Qed.

(** ** Reclaiming *)

(** The guard may answer no for the handle. *)
Definition refuses (s : Slab) (h : ShmHandle) : Prop :=
  exists g n, reclaim_guard_ s = Some g /\ g n h = false.

Lemma can_reclaim_run h s s' r : CanReclaim h s = (s', r) ->
  exists b, r = Ok b /\ quiet s s' /\ reclaim_guard_ s' = reclaim_guard_ s /\
    if b then reclaim_guard_ s = None \/ exists g n, reclaim_guard_ s = Some g /\ g n h = true
    else refuses s h.
Proof.
  unfold CanReclaim, refuses. destruct (reclaim_guard_ s) as [g|] eqn:E; intros [= <- <-].
  - exists (g (guard_calls s) h). split_and!; [done | done | done |].
    destruct (g (guard_calls s) h) eqn:Eg; eauto.
  - exists true. auto using quiet_refl.
Qed.

Lemma remember_quiet id i s s' r : RememberLocalCursor id i s = (s', r) ->
  r = Ok tt /\ quiet s s' /\ reclaim_guard_ s' = reclaim_guard_ s.
Proof.
  intros H. unfold RememberLocalCursor in H. run_step H; run_step Hrun.
  run_step H; [by run_step H|]. destruct (GetClass _ _); [|by run_step H].
  run_step H; [by run_step H|]. unfold SetThreadCursor in H. by run_step H.
Qed.

Lemma store_state_guard i o s s' r : store_state i o s = (s', r) -> reclaim_guard_ s' = reclaim_guard_ s.
Proof. unfold store_state. intros H. by run_step H. Qed.
Lemma clear_bit_guard i s s' r : clear_bit i s = (s', r) -> reclaim_guard_ s' = reclaim_guard_ s.
Proof. unfold clear_bit. destruct (ClearBit _ _). by intros [= <- <-]. Qed.

(** Slot [i] is returned to the allocator. *)
Definition frees (s s' : Slab) (i : Z) : Prop :=
  IsSetAt s i = true /\
  (exists o, object_state (HeaderAt s i) = state_value o /\ reclaimable_state o = true) /\
  at_slot i (mkSlot false (GenerationAt s i) (with_state (HeaderAt s i) (state_value kFree))) s s'.

Lemma frees_moves s s' i : frees s s' i -> moves s s'.
Proof.
  intros (Hb & (o & Ho & Hr) & Hat). apply (at_slot_moves _ _ _ _ Hat). intros _.
  apply rtc_once. by apply (step_free _ _ (slot s i) o).
Qed.

Lemma identity_quiet s s' i h : quiet s s' -> identity_holds s' i h = identity_holds s i h.
Proof. intros [_ E]. unfold identity_holds, IsSetAt, GenerationAt, HeaderAt. by rewrite E. Qed.
Lemma identity_state s s' i h v :
  at_slot i (mkSlot (IsSetAt s i) (GenerationAt s i) (with_state (HeaderAt s i) v)) s s' ->
  identity_holds s' i h = identity_holds s i h.
Proof.
  intros Hat. destruct (at_slot_parts _ _ _ _ Hat) as (Eb & Eg & Eh). unfold identity_holds. by rewrite Eb, Eg, Eh.
Qed.

(** The slot is free for reclaiming by a caller that may ([allow]) take a published one. *)
Definition may_free (s : Slab) (i : Z) (h : ShmHandle) (allow : bool) : Prop :=
  identity_holds s i h = true /\ (object_state (HeaderAt s i) = state_value kPublished -> allow = true).

Lemma live_reclaimable o allow : live_state o = true -> (o = kPublished -> allow = true) ->
  reclaimable (state_value o) allow = true.
Proof. destruct o, allow; try done; intros _ H; by specialize (H eq_refl). Qed.
Lemma live_not_idle o : live_state o = true ->
  is_state (state_value o) kReclaiming || is_state (state_value o) kFree = false.
Proof. by destruct o. Qed.

Lemma reclaim_exact_cases i h allow s s' r :
  slab_ok s -> index_ok s i -> ReclaimSlotExact i h allow s = (s', r) ->
  match r with
  | Ok _ => may_free s i h allow /\ frees s s' i
  | Err e => still s s' /\ (may_free s i h allow -> code e = kWouldBlock /\ refuses s h)
  end /\ reclaim_guard_ s' = reclaim_guard_ s.
Proof.
  intros Hok Hi H. pose proof (sk_shape s Hok) as Hs. unfold ReclaimSlotExact in H.
  run_step H; run_step Hrun.
  run_step H; [run_step H; apply negb_true_iff in E; split; [|done]; split; [by apply still_refl|];
    intros [E' _]; congruence|]. apply negb_false_iff in E.
  run_step H; run_step Hrun.
  assert (IsSetAt s i = true) as Hb by (unfold identity_holds in E; bool_to_prop; done).
  pose proof (sk_slots s Hok i Hi) as Hst. unfold slot_ok in Hst.
  change (slot_bit (slot s i)) with (IsSetAt s i) in Hst. rewrite Hb in Hst.
  destruct Hst as [(o & Ho & Hlive) _ _ _ _]. cbn [slot slot_header] in Ho. rewrite Ho in H.
  rewrite live_not_idle in H by done.
  run_step H.
  { run_step H. split; [|done]. split; [by apply still_refl|]. intros [_ Hp]. bool_to_prop.
    rewrite is_state_eq in H. rewrite Ho in Hp. specialize (Hp H). congruence. }
  assert (o = kPublished -> allow = true) as Hpub by (intros ->; by destruct allow).
  rewrite (live_reclaimable o allow) in H by done. cbn [negb] in H.
  assert (may_free s i h allow) as Hmay by (split; [done|]; intros Hp; apply Hpub, state_value_inj; congruence).
  run_step H; apply can_reclaim_run in Hrun as (b & Eb & Q1 & G1 & N1); [injection Eb as ->|done].
  run_step H.
  { run_step H. apply negb_true_iff in E1 as ->. split; [|done]. split; [by apply quiet_still|]. done. }
  clear E0 E1. assert (shape_ok s1) as Hs1 by by eapply quiet_shape.
  assert (index_ok s1 i) as Hi1 by (unfold index_ok, total_slot_count in *; destruct Q1 as [-> _]; done).
  run_step H; pose proof (store_state_guard _ _ _ _ _ Hrun) as G2;
    apply store_state_at in Hrun as [Er Hat]; try done.
  pose proof (quiet_slot _ _ i Q1) as Es. unfold slot in Es. injection Es as Es1 Es2 Es3.
  rewrite Es1, Es2, Es3 in Hat. eapply quiet_at_slot in Hat; [|exact Q1].
  run_step H; run_step Hrun. rewrite (identity_state _ _ _ _ _ Hat), E in H.
  run_step H; apply can_reclaim_run in Hrun as (b2 & Eb2 & Q3 & G3 & N3); [injection Eb2 as ->|done].
  eapply at_slot_quiet in Hat; [|exact Q3]. pose proof (as_shape _ _ _ _ Hat) as Hs3.
  assert (index_ok s2 i) as Hi3 by by eapply at_slot_index.
  run_step H.
  - run_step H; run_step Hrun. run_step H.
    chain Hat (set_header_at i (with_state (HeaderAt s2 i) (state_value o)) s2 Hs3 Hi3).
    rewrite with_state_twice, (with_state_same (HeaderAt s i) (state_value o) Ho) in Hat.
    rewrite Eh, with_state_twice, (with_state_same (HeaderAt s i) (state_value o) Ho).
    split; [|cbn; congruence]. split; [by apply (at_slot_still i)|]. intros _. split; [done|].
    apply negb_true_iff in E0 as ->. destruct N3 as (g & k & Hg & Hk). exists g, k. split; [congruence | done].
  - clear E0. run_step H; run_step Hrun.
    run_step H; pose proof (store_state_guard _ _ _ _ _ Hrun) as G4;
      apply store_state_at in Hrun as [Er4 Hst]; try done. chain Hat Hst. rewrite with_state_twice in Hat.
    run_step H; pose proof (clear_bit_guard _ _ _ _ Hrun) as G5;
      (apply clear_bit_at in Hrun as [Hcl Hr5]; [|by apply Hat|by eapply at_slot_index]).
    + chain Hat Hcl. apply remember_quiet in H as (-> & Q6 & G6).
      split; [|congruence]. split; [done|]. split_and!; [done | exists o; split; [done|by destruct o] |].
      by eapply at_slot_quiet.
    + exfalso. destruct (at_slot_parts _ _ _ _ Hat) as (Ebit & _ & _). cbn [slot_bit] in Ebit.
      specialize (Hr5 ltac:(congruence)). done.
Qed.

(** ** Sweeping a transaction *)

Definition freed (c : Slot) : Slot :=
  mkSlot false (slot_gen c) (with_state (slot_header c) (state_value kFree)).

Definition of_transaction (s : Slab) (owner transaction : Z) (j : Z) : Prop :=
  IsSetAt s j = true /\ owner_epoch (HeaderAt s j) = owner /\
  allocation_transaction_id (HeaderAt s j) = transaction.

(** The slots of [P] are freed one by one; a refusal of the guard ends the sweep. *)
Record sweeps (s s' : Slab) (P : Z -> Prop) (r : Result unit) : Prop := {
  sw_moves : moves s s';
  sw_guard : reclaim_guard_ s' = reclaim_guard_ s;
  sw_kept : forall j, 0 <= j -> ~ P j -> slot s' j = slot s j;
  sw_taken : forall j, 0 <= j -> P j -> slot s' j = slot s j \/ slot s' j = freed (slot s j);
  sw_outcome : match r with
               | Ok _ => forall j, 0 <= j -> P j -> slot s' j = freed (slot s j)
               | Err e => code e = kWouldBlock /\ exists h, refuses s h
               end
}.

Lemma identity_own s i : IsSetAt s i = true -> generation (HeaderAt s i) = GenerationAt s i ->
  identity_holds s i (handle_at s i (GenerationAt s i)) = true.
Proof.
  intros Hb Hg. unfold identity_holds, handle_at. cbn [handle_generation]. by rewrite Hb, Hg, !Z.eqb_refl.
Qed.

Lemma frees_slot s s' i : frees s s' i -> slot s' i = freed (slot s i) /\
  (forall j, 0 <= j -> j <> i -> slot s' j = slot s j) /\ facade s' = facade s.
Proof. intros (Hb & _ & [F _ S E O]). rewrite E. done. Qed.

Lemma slot_same_transaction s s' owner transaction j :
  slot s' j = slot s j -> of_transaction s' owner transaction j <-> of_transaction s owner transaction j.
Proof. intros E. unfold slot in E. injection E as E1 E2 E3. unfold of_transaction. by rewrite E1, E3. Qed.

Lemma sweeps_iff s s' (P Q : Z -> Prop) r :
  (forall j, 0 <= j -> P j <-> Q j) -> sweeps s s' P r -> sweeps s s' Q r.
Proof.
  intros Hpq [M G K T O]. split; [done | done | | |].
  - intros j Hj Hq. apply K; [done|]. by rewrite Hpq.
  - intros j Hj Hq. apply T; [done|]. by rewrite Hpq.
  - destruct r; [|done]. intros j Hj Hq. apply O; [done|]. by rewrite Hpq.
Qed.

Lemma still_sweeps s s' P e :
  still s s' -> reclaim_guard_ s' = reclaim_guard_ s -> code e = kWouldBlock -> (exists h, refuses s h) ->
  sweeps s s' P (Err e).
Proof.
  intros Hst G He Hh. split; [by apply still_moves | done | | | done].
  - intros j Hj _. by apply (si_slots _ _ Hst).
  - intros j Hj _. left. by apply (si_slots _ _ Hst).
Qed.

Lemma frees_sweeps s s' i :
  frees s s' i -> reclaim_guard_ s' = reclaim_guard_ s -> sweeps s s' (fun j => j = i) (Ok tt).
Proof.
  intros Hfr G. pose proof (frees_slot _ _ _ Hfr) as (Ei & Eoth & Ef).
  split; [by eapply frees_moves | done | auto | intros j _ ->; by right | by intros j _ ->].
Qed.

(** Sweep the slots of [P], then those of [Q]. *)
Lemma sweeps_app s s1 s' (P Q : Z -> Prop) r :
  sweeps s s1 P (Ok tt) -> (forall j, P j -> ~ Q j) -> sweeps s1 s' Q r ->
  sweeps s s' (fun j => P j \/ Q j) r.
Proof.
  intros [M1 G1 K1 T1 O1] Hd [M G K T O].
  assert (forall j, 0 <= j -> P j -> slot s' j = freed (slot s j)) as HP
    by (intros j Hj Hp; rewrite K, O1; [done | done | done | done | by apply Hd]).
  assert (forall j, 0 <= j -> Q j -> slot s1 j = slot s j) as HQ
    by (intros j Hj Hq; apply K1; [done|]; intros Hp; by apply (Hd j)).
  split; [by eapply moves_trans | congruence | | |].
  - intros j Hj Hno. rewrite K, K1; naive_solver.
  - intros j Hj [Hp|Hq]; [right; auto|]. rewrite <- HQ by done. auto.
  - destruct r; [|by unfold refuses in *; rewrite G1 in O].
    intros j Hj [Hp|Hq]; [auto|]. rewrite <- HQ by done. auto.
Qed.

Lemma append_gap_sweeps owner transaction n : forall i s s' r,
  slab_ok s -> 0 <= i -> i + Z.of_nat n = total_slot_count s ->
  append_gap_from owner transaction i n s = (s', r) ->
  sweeps s s' (fun j => i <= j /\ j < total_slot_count s /\ of_transaction s owner transaction j) r.
Proof.
  induction n as [|n IH]; intros i s s' r Hok Hi Hn H; cbn [append_gap_from] in H;
    pose proof (sk_shape s Hok) as Hs.
  { run_step H. split; auto with mino. intros j Hj ?. lia. }
  assert (index_ok s i) as Hix by (split; lia).
  run_step H; run_step Hrun.
  assert (~ of_transaction s owner transaction i ->
    append_gap_from owner transaction (i + 1) n s = (s', r) ->
    sweeps s s' (fun j => i <= j /\ j < total_slot_count s /\ of_transaction s owner transaction j) r) as Hskip.
  { intros Hno Hrest. apply IH in Hrest; [|done|lia|lia].
    eapply sweeps_iff; [|exact Hrest]. intros j Hj. split; intros (? & ? & ?).
    - split_and!; [lia | done | done].
    - split_and!; [|done|done]. destruct (Z.eq_dec j i) as [->|]; [done|lia]. }
  run_step H; [apply negb_true_iff in E; apply Hskip; [intros (? & _); congruence | done]|].
  apply negb_false_iff in E. pose proof (sk_slots s Hok i Hix) as Hst. unfold slot_ok in Hst.
  change (slot_bit (slot s i)) with (IsSetAt s i) in Hst. rewrite E in Hst.
  destruct Hst as [(o & Ho & Hlive) Hg _ Hv _]. cbn [slot slot_header slot_gen] in Ho, Hg, Hv.
  rewrite Ho, (orb_comm (is_state _ kFree)), live_not_idle in H by done. cbn [orb] in H.
  destruct (Z.eqb_spec (owner_epoch (HeaderAt s i)) owner) as [Eo|Eo];
    [|apply Hskip; [intros (_ & ? & _); congruence | done]].
  destruct (Z.eqb_spec (allocation_transaction_id (HeaderAt s i)) transaction) as [Et|Et];
    [|apply Hskip; [intros (_ & _ & ?); congruence | done]].
  cbn [negb orb] in H. rewrite Hg, Z.eqb_refl, Hv in H. cbn [negb orb] in H.
  assert (of_transaction s owner transaction i) as Hof by done.
  run_step H; apply reclaim_exact_cases in Hrun as [Hrun G1]; try done.
  - destruct Hrun as [_ Hfr]. pose proof (frees_slot _ _ _ Hfr) as (Ei & Eoth & Ef).
    assert (total_slot_count s1 = total_slot_count s) as Etot by (unfold total_slot_count; by rewrite Ef).
    apply IH in H; [| eapply moves_ok; [done | by eapply frees_moves] | lia | lia]. rewrite Etot in H.
    eapply sweeps_iff; [|eapply sweeps_app; [by apply frees_sweeps | | exact H]; intros j -> (? & _); lia].
    cbn beta.
    intros j Hj. destruct (Z.eq_dec j i) as [->|Hne]; [split; [intros _; split_and!; (done || lia) | by left]|].
    rewrite (slot_same_transaction s s1) by auto.
    split; [intros [?|(? & ? & ?)]; [done|]; split_and!; (done || lia) | intros (? & ? & ?); right; split_and!; (done || lia)].
  - destruct Hrun as [Hst Hcode]. destruct Hcode as [Hc Hh]; [split; [by apply identity_own | done]|].
    apply still_sweeps; eauto.
Qed.

Lemma quiet_sweeps s s1 s' P r :
  quiet s s1 -> shape_ok s -> reclaim_guard_ s1 = reclaim_guard_ s -> sweeps s1 s' P r -> sweeps s s' P r.
Proof.
  intros Q Hs Hg [M G K T O].
  split; [eapply moves_trans; [by apply quiet_moves | done] | congruence | | |].
  - intros j Hj Hno. rewrite <- (quiet_slot s s1) by done. by apply K.
  - intros j Hj Hp. rewrite <- (quiet_slot s s1) by done. by apply T.
  - destruct r; [|by unfold refuses in *; rewrite Hg in O]. intros j Hj Hp. rewrite <- (quiet_slot s s1) by done. by apply O.
Qed.

(** The slots of a transaction. *)
Definition transaction_slots (s : Slab) (owner transaction : Z) (j : Z) : Prop :=
  j < total_slot_count s /\ of_transaction s owner transaction j.

Lemma quiet_transaction_slots s s' owner transaction j :
  quiet s s' -> transaction_slots s' owner transaction j <-> transaction_slots s owner transaction j.
Proof.
  intros Q. unfold transaction_slots. rewrite (slot_same_transaction s s') by by apply quiet_slot.
  unfold total_slot_count. by destruct Q as [-> _].
Qed.

Lemma gap_sweeps owner transaction s s' r :
  slab_ok s -> ReclaimTransactionAppendGap owner transaction s = (s', r) ->
  (owner = 0 \/ transaction = 0) /\ s' = s /\ is_ok r = false \/
  sweeps s s' (transaction_slots s owner transaction) r.
Proof.
  intros Hok H. unfold ReclaimTransactionAppendGap in H. run_step H.
  { run_step H. left. apply orb_true_iff in E as [E|E]; apply Z.eqb_eq in E; auto. }
  right. run_step H; pose proof (bump_quiet _ _ _ _ Hrun) as [Er Q]; [|done].
  assert (reclaim_guard_ s1 = reclaim_guard_ s) as G by (unfold bump in Hrun; by run_step Hrun).
  run_step H; run_step Hrun0. assert (slab_ok s1) as Hok1 by by eapply quiet_ok.
  pose proof (total_u32 _ (sk_shape _ Hok1)) as Ht.
  apply append_gap_sweeps in H; [|done|lia|lia].
  eapply quiet_sweeps; [done | apply Hok | done |]. eapply sweeps_iff; [|exact H].
  intros j Hj. rewrite <- (quiet_transaction_slots s s1) by done. unfold transaction_slots. naive_solver lia.
Qed.

(** The header is the root of a transaction. *)
Definition is_root (h : SlabHeader) : bool :=
  negb (Z.land (allocation_role h) kAllocationFlagTransactionRoot =? 0)
  && negb (owner_epoch h =? 0) && negb (allocation_transaction_id h =? 0).

Lemma is_root_identity h : is_root h = true -> owner_epoch h <> 0 /\ allocation_transaction_id h <> 0.
Proof. unfold is_root. intros H. bool_to_prop. done. Qed.

(** What [Reclaim] does to the slot its handle names. *)
Definition reclaims (s s' : Slab) (h : ShmHandle) (i : Z) (r : Result unit) : Prop :=
  if is_root (HeaderAt s i)
  then still s s' /\ is_ok r = false \/
       sweeps s s' (transaction_slots s (owner_epoch (HeaderAt s i))
                      (allocation_transaction_id (HeaderAt s i))) r
  else match r with Ok _ => may_free s i h false /\ frees s s' i | Err _ => still s s' end.

Lemma Reclaim_cases h s s' r :
  slab_ok s -> Reclaim h s = (s', r) ->
  (exists i, names s h i /\ reclaims s s' h i r) \/ s' = s /\ is_ok r = false.
Proof.
  intros Hok H. pose proof (sk_shape s Hok) as Hs. unfold Reclaim in H. resolve_step H Hs; [|by right].
  left. exists a. split; [done|]. unfold reclaims. run_step H; run_step Hrun.
  fold (is_root (HeaderAt s a)) in H. destruct (is_root (HeaderAt s a)) eqn:Er2.
  - run_step H; pose proof (can_reclaim_run _ _ _ _ Hrun) as (b & Eb & Q & G & _); [injection Eb as ->|done].
    run_step H; [run_step H; left; split; [by apply quiet_still | done]|]. right.
    assert (slab_ok s1) as Hok1 by by eapply quiet_ok. apply is_root_identity in Er2 as [Hno Hnt].
    apply gap_sweeps in H as [([H0|H0] & _)|H]; [done | done | | done].
    eapply quiet_sweeps; [done | done | done |]. eapply sweeps_iff; [|exact H].
    intros j Hj. by apply quiet_transaction_slots.
  - apply reclaim_exact_cases in H as [H _]; [|done|apply Hres]. destruct r; [done|by destruct H].
Qed.

Lemma reclaims_moves s s' h i r : reclaims s s' h i r -> moves s s'.
Proof.
  unfold reclaims. destruct (is_root _).
  - intros [[H _]|H]; [by apply still_moves | apply H].
  - destruct r; [intros [_ H]; by eapply frees_moves | by apply still_moves].
Qed.

Lemma Reclaim_moves h s s' r : slab_ok s -> Reclaim h s = (s', r) -> moves s s'.
Proof.
  intros Hok H. apply Reclaim_cases in H as [(i & _ & H)|[-> _]]; [by eapply reclaims_moves | | done].
  apply moves_refl, Hok.
Qed.

Lemma Abort_moves h s s' r : slab_ok s -> Abort h s = (s', r) -> moves s s'.
Proof.
  intros Hok H. pose proof (sk_shape s Hok) as Hs. unfold Abort in H. resolve_step H Hs; [|by apply moves_refl].
  run_step H; run_step Hrun. run_step H.
  - assert (moves s s1) as M1; [|eapply moves_trans; [done|]; eapply Reclaim_moves; [by eapply moves_ok | done]].
    run_step Hrun; [run_step Hrun; by apply moves_refl|]. run_step Hrun; [run_step Hrun; by apply moves_refl|].
    assert (exists o, object_state (HeaderAt s a) = state_value o /\ edge o kAborting = true) as (o & Ho & He).
    { rewrite andb_false_iff, !negb_false_iff, !is_state_eq in E0. destruct E0 as [E0|E0]; eexists; (split; [exact E0|done]). }
    eapply store_edge in Hrun as [_ Ht]; try done. by eapply takes_edge_moves.
  - run_step Hrun; [run_step Hrun|]. run_step Hrun; [run_step Hrun; by apply moves_refl|].
    unfold store_state, modify in Hrun. done.
Qed.
