(* ===== verification/SlabLayout.v ===== *)
(** * Creating a slab and attaching to it

    The memory layout [ComputeLayout] chooses, the initial state [CreateWithStorage]
    leaves, and that attaching to its memory rebuilds the same allocator. *)
From S2P Require Import Prelude Checked Bitmap GenerationArray ClassTable SlabHeader CentralSlab SlabLifecycle.

#[local] Opaque VerifyImmutableHeader ComputeImmutableHeaderCrc stamped_header.

(** ** The layout *)

Lemma AlignUp_spec v a : 0 < a < 2 ^ 32 -> 0 <= v < 2 ^ 63 ->
  v <= AlignUp v a < v + a /\ (a | AlignUp v a).
Proof.
  intros Ha Hv. unfold AlignUp. rewrite (wrap64_id (v + a - 1)) by ulia.
  pose proof (Z.div_mod (v + a - 1) a ltac:(lia)) as Hd. pose proof (Z.mod_pos_bound (v + a - 1) a ltac:(lia)) as Hm.
  assert (0 <= (v + a - 1) / a) by (apply Z.div_pos; lia).
  rewrite wrap64_id by (split; [nia | ulia]). split; [lia|]. by exists ((v + a - 1) / a).
Qed.

Lemma layout_ok_sizes ds : forall i prev bit total k d,
  layout_ok i prev bit ds total -> ds !! k = Some d -> slot_size d <= u32_max / 2.
Proof.
  induction ds as [|d0 rest IH]; intros i prev bit total k d Hl Hk; [done|].
  destruct Hl as (_ & Hs & _ & _ & Hl). destruct k as [|k]; [injection Hk as ->; lia | by eapply IH].
Qed.

Lemma max_object_size_bound t : table_ok t -> 0 <= max_object_size t <= 2147483647.
Proof.
  intros (Hl & _). unfold max_object_size. destruct (list.last _) as [d|] eqn:E; [|lia].
  rewrite last_lookup in E. pose proof (layout_ok_sizes _ _ _ _ _ _ _ Hl E) as Hu.
  change (u32_max / 2) with 2147483647 in Hu.
  destruct (layout_ok_lookup _ _ _ _ _ _ _ Hl ltac:(lia) ltac:(by exists 0) E) as (_ & ? & _). lia.
Qed.

Lemma total_positive t : table_ok t -> 0 < total_slots_ t.
Proof.
  intros (Hl & Ht & _ & Hn). destruct (classes_ t) as [|d rest] eqn:E; [unfold zlen in Hn; simpl in Hn; lia|].
  destruct (layout_ok_lookup _ _ _ _ _ 0 d Hl ltac:(lia) ltac:(by exists 0) eq_refl) as (_ & _ & ? & ? & _ & ?). lia.
Qed.

(** The areas of the metadata follow one another, the slots start and step on cache
    lines, hold their header and the largest payload, and fit the region. *)
Record layout_fits (t : ClassTable) (size : Z) (l : Layout) : Prop := {
  lf_words : bitmap_words l * 64 = total_slots_ t;
  lf_metadata : kSuperblockSize + kDescriptorSize * zlen (classes_ t) + 8 * bitmap_words l
                + 4 * total_slots_ t + 4 * zlen (classes_ t) <= metadata_size l;
  lf_metadata_aligned : (64 | metadata_size l);
  lf_stride : kSlabHeaderSize + max_object_size t <= slot_stride l;
  lf_stride_aligned : (64 | slot_stride l);
  lf_bytes : wrap64 (slot_stride l * total_slots_ t) = slot_stride l * total_slots_ t;
  lf_size : metadata_size l + slot_stride l * total_slots_ t <= size
}.

Lemma ComputeLayout_fits t size l : table_ok t -> ComputeLayout t size = Ok l -> layout_fits t size l.
Proof.
  intros Ht H. pose proof (max_object_size_bound t Ht) as Hmax. pose proof Ht as (Hl & Htot & [q Hq] & Hn).
  unfold ComputeLayout, kSuperblockSize, kDescriptorSize, kSlabHeaderSize, kBitmapShardBits in *.
  assert (class_count t = zlen (classes_ t)) as Ec by (unfold class_count; apply Z.mod_small; lia).
  rewrite Ec in H. set (n := zlen (classes_ t)) in *.
  assert (wrap32 (total_slots_ t + 64 - 1) / 64 = q) as Ew.
  { unfold wrap32. rewrite Z.mod_small by lia. rewrite Hq. symmetry. apply Z.div_unique with 63; lia. }
  rewrite Ew in H. cbv zeta in H. rewrite (wrap64_id (64 + 16 * n)) in H by ulia.
  destruct (AlignUp_spec (64 + 16 * n) 8) as [A1 _]; [lia|lia|]. set (o1 := AlignUp (64 + 16 * n) 8) in *.
  rewrite (wrap64_id (o1 + 8 * q)) in H by ulia.
  destruct (AlignUp_spec (o1 + 8 * q) 4) as [A2 _]; [lia|lia|]. set (o2 := AlignUp (o1 + 8 * q) 4) in *.
  rewrite (wrap64_id (o2 + 4 * total_slots_ t)) in H by ulia.
  rewrite (wrap64_id (o2 + 4 * total_slots_ t + 4 * n)) in H by ulia.
  destruct (AlignUp_spec (o2 + 4 * total_slots_ t + 4 * n) 64) as [A3 D3]; [lia|lia|].
  set (meta := AlignUp (o2 + 4 * total_slots_ t + 4 * n) 64) in *.
  destruct (AlignUp_spec (64 + max_object_size t) 64) as [A4 D4]; [lia|lia|].
  set (stride := AlignUp (64 + max_object_size t) 64) in *.
  assert (0 <= stride * total_slots_ t <= 2147483774 * 4294967295) as Hm by nia.
  rewrite (wrap64_id (stride * total_slots_ t)) in H by ulia.
  rewrite (wrap64_id (meta + _)) in H by ulia. step_if. apply Z.ltb_ge in E. injection H as <-.
  split; cbn [bitmap_words metadata_size slot_stride]; unfold kSuperblockSize, kDescriptorSize, kSlabHeaderSize;
    fold n; try done; try lia. apply wrap64_id. ulia.
Qed.

(** ** Creation *)

(** The slot area is zeroed memory of the right size. *)
Definition zeroed (t : ClassTable) (slots : list SlabHeader) : Prop :=
  zlen slots = total_slots_ t /\ Forall (fun h => object_state h = state_value kFree) slots.

Lemma zero_bits w i : 0 <= i < w * 64 -> IsSet (mkBitmap (replicate (Z.to_nat w) 0) w) i = false.
Proof.
  intros Hi. unfold IsSet. destruct (_ <=? i); [done|]. unfold load_shard, kBitmapShardBits. cbn [storage_].
  assert (0 <= i / 64 < w) as Hd by (split; [apply Z.div_pos; lia | apply Z.div_lt_upper_bound; lia]).
  rewrite (list_lookup_total_correct _ _ 0); [done|]. apply lookup_replicate_2. lia.
Qed.

Lemma Create_table cfg t : Forall entry_u32 cfg -> ClassTable.Create cfg = Ok t -> table_ok t.
Proof. intros Hu Hc. destruct (Create_layout cfg t Hu Hc) as (_ & H). exact H. Qed.

Lemma fresh_slab_ok f super descs t words slots c m gd gc :
  class_table_ f = t -> facade_ok f -> words * 64 = total_slots_ t -> zeroed t slots ->
  slab_ok (mkSlab f (mkShared super descs (mkBitmap (replicate (Z.to_nat words) 0) words)
    (mkGenerations (replicate (Z.to_nat (total_slots_ t)) 0) (total_slots_ t))
    (replicate (Z.to_nat (class_count t)) 0) slots) c m gd gc).
Proof.
  intros Et Hf Hw [Hz1 Hz2]. pose proof (fo_table f Hf) as Htab. rewrite Et in Htab.
  pose proof (total_positive t Htab) as Hpos. pose proof Htab as (_ & Htot & _ & Hn).
  assert (bitmap_wf (mkBitmap (replicate (Z.to_nat words) 0) words)) as Hwf.
  { split; cbn [shard_count_ storage_]; [lia | lia | unfold zlen; rewrite length_replicate; lia |].
    apply Forall_replicate. ulia. }
  split; [split|]; unfold total_slot_count; cbn [facade shared bitmap_ generations_ headers_ class_draining_]; rewrite ?Et; try done.
  - split; [done|]. rewrite bit_count_wf by done. cbn [shard_count_]. done.
  - split; cbn [cells slot_count_]; [unfold zlen; rewrite length_replicate; lia | apply Forall_replicate; ulia].
  - unfold zlen. rewrite length_replicate. unfold class_count. rewrite Z.mod_small by lia. unfold zlen in *. lia.
  - intros i [Hi0 Hi]. unfold total_slot_count in Hi. cbn [facade] in Hi. rewrite Et in Hi.
    unfold slot_ok, slot, IsSetAt, HeaderAt. cbn [slot_bit slot_header shared bitmap_ headers_].
    rewrite zero_bits by lia.
    rewrite Forall_elem in Hz2. apply Hz2. apply list_elem_of_lookup_2 with (Z.to_nat i).
    apply list_lookup_lookup_total_lt. ulia.
Qed.

(** The image in shared memory describes the facade. *)
Record attachable (s : Slab) : Prop := {
  aa_table : ClassTable.Create (entry_of <$> classes_ (class_table_ (facade s))) = Ok (class_table_ (facade s));
  aa_layout : exists l, ComputeLayout (class_table_ (facade s)) (data_region_size_ (facade s)) = Ok l /\
    slot_stride_ (facade s) = slot_stride l /\ metadata_size l <= headers_offset_ (facade s) /\
    image s = (mkSuper kAllocatorMagic kAllocatorVersion (region_id_ (facade s))
                 (class_count (class_table_ (facade s))) (data_region_size_ (facade s)) (metadata_size l)
                 (slot_stride l) (total_slot_count s) 0 (headers_offset_ (facade s)),
               classes_ (class_table_ (facade s)));
  aa_aligned : headers_offset_ (facade s) mod 64 = 0
}.

Lemma attachable_moves s s' : attachable s -> moves s s' -> attachable s'.
Proof.
  intros [T (l & L) A] [F I _ _]. split; rewrite ?F; [done | exists l | done].
  unfold total_slot_count in *. by rewrite I, F.
Qed.

(** What the caller of [Create] promises. *)
Record creation_ok (cfg : ClassTableConfig) (available area bias : Z) (slots : list SlabHeader) : Prop := {
  co_config : Forall entry_u32 cfg;
  co_available : is_u64 available;
  co_area : 0 <= area;
  co_bias : 0 <= bias;
  co_offsets : bias + available <= u64_max;
  co_slots : forall t, ClassTable.Create cfg = Ok t -> zeroed t slots
}.

Lemma CreateWithStorage_ok base available mcap area scap rid bias cfg pl placement id slots mag s :
  creation_ok cfg available area bias slots ->
  CreateWithStorage base available mcap area scap rid bias cfg pl placement id slots mag = Ok s ->
  slab_ok s /\ attachable s /\
  handle_offset_bias_ (facade s) = bias /\ data_region_size_ (facade s) = available /\
  region_id_ (facade s) = rid /\ exists b, base = Some b /\ b mod 64 = 0.
Proof.
  intros [Hcfg Hav Har Hbias Hoff Hz] H. unfold CreateWithStorage in H. destruct base as [b|]; [|done].
  step_if. apply negb_false_iff, Z.eqb_eq in E.
  apply bindR_Ok in H as (t & Ht & H). apply bindR_Ok in H as (l & Hl & H).
  pose proof (Create_table _ _ Hcfg Ht) as Htab. pose proof (ComputeLayout_fits _ _ _ Htab Hl) as Hfit.
  pose proof (total_positive t Htab) as Hpos. specialize (Hz t Ht).
  destruct (Create_layout cfg t Hcfg Ht) as (Eent & _).
  set (area' := if area =? 0 then metadata_size l else area) in H. rewrite (lf_bytes _ _ _ Hfit) in H.
  step_if. bool_to_prop. step_if. apply bindR_Ok in H as (placed & Hpl & H).
  destruct Hfit as [W1 W2 W3 W4 W5 W6 W7]. unfold Bitmap.Create, GenerationArray.Create in H.
  pose proof Htab as (_ & Htot & _ & Hn). unfold kSuperblockSize, kDescriptorSize in W2.
  rewrite fail_if_false in H by (apply Z.eqb_neq; lia). cbn [bindR] in H.
  rewrite fail_if_false in H by (apply Z.eqb_neq; lia). cbn [bindR] in H. injection H as <-.
  assert (facade_ok (mkFacade t area' available rid (slot_stride l) bias)) as Hf.
  { split; cbn [class_table_ slot_stride_ headers_offset_ data_region_size_ handle_offset_bias_]; try done;
      unfold kSuperblockSize; lia. }
  split; [by apply fresh_slab_ok|]. split_and!; try done; [|eauto].
  split; unfold total_slot_count; cbn [facade class_table_ data_region_size_ slot_stride_ headers_offset_ region_id_];
    [by rewrite Eent | exists l; split_and!; (done || lia) | done].
Qed.

(** Attaching to an image gives the same allocator. *)
Lemma attach_same s base available bias discovered id mag :
  slab_ok s -> attachable s -> base mod 64 = 0 -> data_region_size_ (facade s) <= available ->
  bias = handle_offset_bias_ (facade s) ->
  exists s', AttachWithBias (Some base) (shared s) available bias discovered id mag = Ok s' /\
    facade s' = facade s /\ shared s' = shared s.
Proof.
  intros [Hs _] [T (l & Hl & Est & Hmeta & Hi) A] Hb Hav ->. unfold image in Hi.
  injection Hi as I1 I2 I3 I4 I5 I6 I7 I8 I9 I10.
  pose proof (so_facade s Hs) as Hf. pose proof (fo_table _ Hf) as Htab.
  pose proof (ComputeLayout_fits _ _ _ Htab Hl) as [W1 W2 W3 W4 W5 W6 W7].
  pose proof Htab as (_ & Htot & _ & Hn). pose proof (total_positive _ Htab) as Hpos.
  pose proof (fo_area _ Hf) as Harea. pose proof (fo_headers _ Hf) as Hhd.
  assert (class_count (class_table_ (facade s)) = zlen (classes_ (class_table_ (facade s)))) as Ec
    by (unfold class_count; apply Z.mod_small; lia).
  assert (0 <= slot_stride l * total_slots_ (class_table_ (facade s))) as Hbytes
    by (pose proof (stride_positive _ Hf); unfold kSlabHeaderSize in *; nia).
  unfold AttachWithBias, persisted_slot_area. unfold kSuperblockSize, kDescriptorSize, kMaxClassCount in *.
  rewrite I1, I2, I3, I4, I5, I6, I7, I8, I9, I10, Ec, !Z.eqb_refl. unfold total_slot_count in *.
  set (t := class_table_ (facade s)) in *. set (f := facade s) in *.
  pass_guard. rewrite Hb, Z.eqb_refl. cbn [negb orb]. pass_guard. pass_guard.
  rewrite (firstn_all2 (classes_ t)) by (unfold zlen; lia). rewrite T. cbn [bindR].
  assert (forallb (fun '(found, expected) => descriptor_matches found expected)
            (zip (classes_ t) (classes_ t)) = true) as ->.
  { apply forallb_forall. intros [a b] Hin%list_elem_of_In. apply list_elem_of_lookup_1 in Hin as (k & Hk).
    rewrite lookup_zip_with in Hk. destruct (classes_ t !! k) as [d|]; [|done]. cbn in Hk. injection Hk as <- <-.
    unfold descriptor_matches. by rewrite !Z.eqb_refl. }
  cbn [negb]. rewrite Hl. cbn [bindR]. destruct (Z.eqb_spec (headers_offset_ f) 0) as [|_]; [lia|].
  rewrite A, W6, !Z.eqb_refl. cbn [negb orb]. rewrite Est in Harea. pass_guard.
  unfold Bitmap.Create, GenerationArray.Create. rewrite fail_if_false by (apply Z.eqb_neq; lia). cbn [bindR].
  rewrite fail_if_false by (apply Z.eqb_neq; lia). cbn [bindR]. eexists. split; [reflexivity|]. cbn [facade shared].
  destruct (so_bitmap s Hs) as [Hwf Hbc]. rewrite bit_count_wf in Hbc by done. fold f in Hbc. fold t in Hbc.
  pose proof (so_generation_count s Hs) as Hgc. unfold total_slot_count in Hgc. fold f in Hgc. fold t in Hgc.
  split.
  - rewrite <- Est. unfold t, f. by destruct (facade s).
  - destruct (shared s) as [su de bm ge dr he] eqn:Es. cbn in *. subst de. f_equal.
    + destruct bm as [st n]. cbn in *. f_equal. lia.
    + destruct ge as [ce n]. cbn in *. f_equal. lia.
Qed.

(** ** A small allocator *)

(** Three slots of 64 bytes and two of 256. *)
Definition sample_config : ClassTableConfig := [mkEntry 64 3; mkEntry 256 2].
Definition sample_slots : list SlabHeader := replicate 128 zero_header.
Definition sample_topology : NumaTopology :=
  mkTopology true [mkNode 0 [0; 1]; mkNode 1 [2; 3]] [0; 1].
Definition sample_create : Result Slab :=
  CreateWithStorage (Some 4096) 65536 65536 0 65536 7 1024 sample_config true
    (Ok (mkPlacement sample_topology false false)) 1 sample_slots new_magazine.
Definition sample_slab : Slab :=
  match sample_create with
  | Ok s => s
  | Err _ => mkSlab (mkFacade (mkTable [] 0) 0 0 0 0 0)
      (mkShared (mkSuper 0 0 0 0 0 0 0 0 0 0) [] (mkBitmap [] 0) (mkGenerations [] 0) [] [])
      (new_cache 0 (mkNuma sample_topology true false) false) new_magazine None 0
  end.

Lemma sample_created : sample_create = Ok sample_slab.
Proof. vm_compute. reflexivity. Qed.

Lemma sample_creation_ok : creation_ok sample_config 65536 0 1024 sample_slots.
Proof.
  split; [repeat constructor; simpl; lia | ulia | lia | lia | lia |].
  intros t Ht. vm_compute in Ht. injection Ht as <-. split; [reflexivity|].
  apply Forall_replicate. reflexivity.
Qed.

Lemma sample_ok : slab_ok sample_slab /\ attachable sample_slab.
Proof.
  destruct (CreateWithStorage_ok _ _ _ _ _ _ _ _ _ _ _ _ _ _ sample_creation_ok sample_created) as (? & ? & _). done.
Qed.
