(* ===== verification/SlabCalls.v ===== *)
(** * The allocator under any sequence of calls

    Manifests, graphs and recovery, and the guarantees of [CentralSlab] over whole
    histories of calls, from the step relation of [SlabLifecycle]. *)
From S2P Require Import Prelude Checked Bitmap GenerationArray ClassTable SlabHeader CentralSlab SlabLifecycle.
From S2P Require Import SlabLayout.

#[local] Opaque VerifyImmutableHeader ComputeImmutableHeaderCrc stamped_header.

(** ** Manifests *)

Lemma for_each_moves {A} (f : A -> SlabM unit) l : forall s s' r,
  (forall x s s' r, slab_ok s -> f x s = (s', r) -> moves s s') ->
  slab_ok s -> for_each f l s = (s', r) -> moves s s'.
Proof.
  induction l as [|x rest IH]; intros s s' r Hf Hok H; cbn [for_each] in H.
  - run_step H. apply moves_refl, Hok.
  - run_step H; apply Hf in Hrun; try done. eapply moves_trans; [done|].
    eapply IH; [done | by eapply moves_ok | done].
Qed.

Lemma PublishTransactionHandle_cases owner transaction h role s s' r :
  slab_ok s -> PublishTransactionHandle owner transaction h role s = (s', r) ->
  match r with
  | Ok _ => exists i, names s h i /\ owner_epoch (HeaderAt s i) = owner /\
      allocation_transaction_id (HeaderAt s i) = transaction /\
      Z.land (allocation_role (HeaderAt s i)) role <> 0 /\
      (s' = s /\ object_state (HeaderAt s i) = state_value kPublished \/
       takes_edge s s' h i kBuilding kPublished)
  | Err _ => s' = s
  end.
Proof.
  intros Hok H. pose proof (sk_shape s Hok) as Hs. unfold PublishTransactionHandle in H.
  resolve_step H Hs; [|done]. run_step H; run_step Hrun. run_step H; [by run_step H|]. bool_to_prop.
  run_step H.
  - run_step H. apply is_state_eq in E. exists a. auto 10.
  - run_step H; [by run_step H|]. apply negb_false_iff, is_state_eq in E0.
    eapply store_edge in H as [-> Ht]; try done. exists a. auto 10.
Qed.

Lemma publish_handle_moves owner transaction h role s s' r :
  slab_ok s -> PublishTransactionHandle owner transaction h role s = (s', r) -> moves s s'.
Proof.
  intros Hok H. apply PublishTransactionHandle_cases in H; [|done].
  destruct r as [|e]; [|subst; apply moves_refl, Hok].
  destruct H as (i & _ & _ & _ & _ & [[-> _]|H]); [apply moves_refl, Hok | by eapply takes_edge_moves].
Qed.

Lemma PublishTransaction_moves owner transaction handles root s s' r :
  slab_ok s -> PublishTransaction owner transaction handles root s = (s', r) -> moves s s'.
Proof.
  intros Hok H. unfold PublishTransaction in H. run_step H; [run_step H; apply moves_refl, Hok|].
  run_step H; (apply for_each_moves in Hrun; [| | done]).
  - eapply moves_trans; [done|]. eapply publish_handle_moves; [by eapply moves_ok | done].
  - intros h s2 s2' r2 Hok2 H2. destruct (IsNull h); [run_step H2; apply moves_refl, Hok2|].
    by eapply publish_handle_moves.
  - done.
  - intros h s2 s2' r2 Hok2 H2. destruct (IsNull h); [run_step H2; apply moves_refl, Hok2|].
    by eapply publish_handle_moves.
Qed.

Lemma reclaim_exact_moves i h allow s s' r :
  slab_ok s -> index_ok s i -> ReclaimSlotExact i h allow s = (s', r) -> moves s s'.
Proof.
  intros Hok Hi H. apply reclaim_exact_cases in H as [H _]; [|done|done]. destruct r.
  - destruct H as [_ H]. by eapply frees_moves.
  - destruct H as [H _]. by apply still_moves.
Qed.

Lemma reclaim_manifest_moves owner transaction h s s' r :
  slab_ok s -> reclaim_manifest_handle owner transaction h s = (s', r) -> moves s s'.
Proof.
  intros Hok H. pose proof (sk_shape s Hok) as Hs. unfold reclaim_manifest_handle in H.
  run_step H; [run_step H; by apply moves_refl|].
  run_step H; apply attempt_run in Hrun as (x & Ex & Hrun); [injection Ex as ->|done].
  apply resolve_run in Hrun as [-> ->].
  destruct (ResolveLocked s h) as [i|e] eqn:Ei.
  - apply resolve_names in Ei; [|done]. run_step H; run_step Hrun. run_step H; [run_step H; by apply moves_refl|].
    eapply reclaim_exact_moves; [done | apply Ei | done].
  - run_step H; run_step H; by apply moves_refl.
Qed.

Lemma ReclaimTransaction_moves owner transaction handles s s' r :
  slab_ok s -> ReclaimTransaction owner transaction handles s = (s', r) -> moves s s'.
Proof.
  intros Hok H. unfold ReclaimTransaction in H. run_step H; [run_step H; apply moves_refl, Hok|].
  eapply for_each_moves; [|done|done]. intros. by eapply reclaim_manifest_moves.
Qed.

(** ** Published graphs *)

(** The first pass reads and asks the guard. *)
Lemma check_handle_run prior identity h s s' r :
  slab_ok s -> check_graph_handle prior identity h s = (s', r) ->
  quiet s s' /\ reclaim_guard_ s' = reclaim_guard_ s /\
  match r with
  | Ok (owner, transaction) => exists i, names s h i /\ ~ h ∈ prior /\
      of_transaction s owner transaction i /\
      allocation_role (HeaderAt s i) = expected_role (match identity with None => true | Some _ => false end) /\
      (object_state (HeaderAt s i) = state_value kPublished \/ object_state (HeaderAt s i) = state_value kRetired) /\
      (identity = None \/ identity = Some (owner, transaction)) /\
      (reclaim_guard_ s = None \/ exists g n, reclaim_guard_ s = Some g /\ g n h = true)
  | Err _ => True
  end.
Proof.
  intros Hok H. pose proof (sk_shape s Hok) as Hs. unfold check_graph_handle in H.
  run_step H; [by run_step H|]. run_step H; [by run_step H|]. resolve_step H Hs; [|done].
  run_step H; run_step Hrun. run_step H; [by run_step H|]. run_step H; [by run_step H|].
  apply negb_false_iff, Z.eqb_eq in E2.
  assert (~ h ∈ prior) as Hni.
  { intros Hin. assert (existsb (fun p => bool_decide (p = h)) prior = true) as Hex; [|congruence].
    apply existsb_exists. exists h. rewrite bool_decide_true by done. split; [by apply list_elem_of_In | done]. }
  match type of H with bind ?m _ _ = _ => set (ident := m) in H end.
  assert (forall s1 r1, ident s = (s1, r1) -> s1 = s /\
    match r1 with
    | Ok (owner, transaction) => (identity = None \/ identity = Some (owner, transaction)) /\
        owner_epoch (HeaderAt s a) = owner /\ allocation_transaction_id (HeaderAt s a) = transaction
    | Err _ => True
    end) as Hid.
  { unfold ident. clear H ident. intros s1 r1 H. destruct identity as [[ow tr]|]; run_step H; try (run_step H; done).
    - run_step H. bool_to_prop. auto.
    - run_step H. auto. }
  run_step H; apply Hid in Hrun as [-> Hrun]; [|done]. destruct a0 as [ow tr]. destruct Hrun as (Hi1 & Hi2 & Hi3).
  run_step H; [by run_step H|].
  run_step H; apply can_reclaim_run in Hrun as (b & Eb & Q & G & Hb); [injection Eb as ->|done].
  run_step H; [by run_step H|]. run_step H. apply negb_false_iff in E4 as ->. split_and!; [done | done |].
  exists a. split_and!; try done.
  - split; [apply Hres | done].
  - rewrite andb_false_iff, !negb_false_iff, !is_state_eq in E3. done.
Qed.

(** The handles of a manifest name distinct slots of one transaction, the root first. *)
Record graph_member (s : Slab) (owner transaction : Z) (first : bool) (h : ShmHandle) (i : Z) : Prop := {
  gm_names : names s h i;
  gm_transaction : of_transaction s owner transaction i;
  gm_role : allocation_role (HeaderAt s i) = expected_role first;
  gm_state : object_state (HeaderAt s i) = state_value kPublished \/
             object_state (HeaderAt s i) = state_value kRetired;
  gm_guard : reclaim_guard_ s = None \/ exists g n, reclaim_guard_ s = Some g /\ g n h = true
}.

Lemma names_quiet s s' h i : quiet s s' -> names s' h i <-> names s h i.
Proof.
  intros [E1 E2]. unfold names, index_ok, total_slot_count, handle_at, header_offset, IsSetAt, GenerationAt, HeaderAt.
  by rewrite E1, E2.
Qed.

Lemma names_unique s h i j : shape_ok s -> names s h i -> names s h j -> i = j.
Proof.
  intros Hs Hi Hj. apply resolve_names in Hi; [|done]. apply resolve_names in Hj; [|done]. congruence.
Qed.

Lemma graph_member_quiet s s' owner transaction first h i :
  quiet s s' -> reclaim_guard_ s' = reclaim_guard_ s ->
  graph_member s' owner transaction first h i -> graph_member s owner transaction first h i.
Proof.
  intros Q G [M1 M2 M3 M4 M5]. pose proof (quiet_slot _ _ i Q) as E. unfold slot in E. injection E as E1 E2 E3.
  split; [by apply (names_quiet s s') | | congruence | rewrite <- E3; done | by rewrite <- G].
  by apply (slot_same_transaction s s'); [apply quiet_slot|].
Qed.

Lemma check_graph_run l : forall prior owner transaction s s' r,
  slab_ok s -> NoDup prior -> check_graph prior (Some (owner, transaction)) l s = (s', r) ->
  quiet s s' /\ reclaim_guard_ s' = reclaim_guard_ s /\
  match r with
  | Ok p => p = (owner, transaction) /\ NoDup (prior ++ l) /\
      Forall (fun h => exists i, graph_member s owner transaction false h i) l
  | Err _ => True
  end.
Proof.
  induction l as [|h rest IH]; intros prior owner transaction s s' r Hok Hnd H; cbn [check_graph] in H.
  { run_step H. rewrite app_nil_r. auto using quiet_refl. }
  run_step H; apply check_handle_run in Hrun as (Q & G & Hc); try done.
  destruct a as [ow tr]. destruct Hc as (i & Hn & Hni & Hof & Hrole & Hst & Hid & Hg).
  destruct Hid as [|[= <- <-]]; [done|].
  apply IH in H as (Q2 & G2 & H); [| by eapply quiet_ok |].
  2: { apply list.NoDup_app. split_and!; [done | | apply list.NoDup_singleton].
       intros x Hx Hx2. apply list_elem_of_singleton in Hx2 as ->. done. }
  split_and!; [by eapply quiet_trans | congruence |]. destruct r as [p|]; [|done].
  destruct H as (-> & Hnd2 & Hall). rewrite <- app_assoc in Hnd2. split_and!; [done | done |].
  constructor; [exists i; by split|]. eapply Forall_impl; [|exact Hall]. intros x (j & Hj). exists j.
  by eapply graph_member_quiet.
Qed.

Lemma Retire_guard h s s' r : Retire h s = (s', r) -> reclaim_guard_ s' = reclaim_guard_ s.
Proof.
  intros H. unfold Retire in H. run_step H; apply resolve_run in Hrun as [-> _]; [|done].
  run_step H; run_step Hrun. run_step H; [by run_step H|]. run_step H; [by run_step H|].
  by eapply store_state_guard.
Qed.

Lemma names_kept s s' h i : facade s' = facade s -> slot s' i = slot s i -> names s h i -> names s' h i.
Proof.
  intros F E. unfold slot in E. injection E as E1 E2 E3.
  unfold names, index_ok, total_slot_count, handle_at, header_offset. by rewrite F, E1, E2, E3.
Qed.

Lemma graph_member_kept s s' owner transaction first h i :
  facade s' = facade s -> slot s' i = slot s i -> reclaim_guard_ s' = reclaim_guard_ s ->
  graph_member s owner transaction first h i -> graph_member s' owner transaction first h i.
Proof.
  intros F E G [M1 M2 M3 M4 M5]. pose proof E as E'. unfold slot in E'. injection E' as E1 E2 E3.
  split; [by eapply names_kept | by apply (slot_same_transaction s s') | congruence | by rewrite E3 | by rewrite G].
Qed.

(** The guard turned the handle [h] in slot [i] down: its object is retired, nothing else changed. *)
Record stopped (s s' : Slab) (h : ShmHandle) (i : Z) (e : Status) : Prop := {
  sp_code : code e = kWouldBlock;
  sp_refused : refuses s h;
  sp_moves : moves s s';
  sp_kept : forall j, 0 <= j -> j <> i -> slot s' j = slot s j;
  sp_retired : slot s' i = mkSlot true (GenerationAt s i) (with_state (HeaderAt s i) (state_value kRetired))
}.

Lemma reclaim_graph_handle_cases owner transaction first h i s s' r :
  slab_ok s -> graph_member s owner transaction first h i ->
  reclaim_graph_handle owner transaction first h s = (s', r) ->
  match r with Ok _ => sweeps s s' (fun j => j = i) (Ok tt) | Err e => stopped s s' h i e end.
Proof.
  intros Hok [Hn Ht Hrole Hst Hg] H. pose proof (sk_shape s Hok) as Hs.
  pose proof (names_stamped _ _ _ Hok Hn) as [_ _ _ Hv _]. cbn [slot slot_header] in Hv.
  unfold reclaim_graph_handle in H. resolve_step H Hs.
  2: { exfalso. apply resolve_names in Hn; [|done]. congruence. }
  pose proof (names_unique _ _ _ _ Hs Hn Hres) as <-. run_step H; run_step Hrun.
  destruct Ht as (Hb & Ho & Htr). rewrite Hv, Hrole, Ho, Htr, !Z.eqb_refl in H. cbn [negb orb] in H.
  run_step H; pose proof (Retire_guard _ _ _ _ Hrun) as G1.
  2: { exfalso. unfold Retire in Hrun. unfold bind, Resolve, ask in Hrun. rewrite Er in Hrun.
       unfold load_state, gets in Hrun. destruct Hst as [Hst|Hst]; rewrite Hst in Hrun; done. }
  assert (moves s s1 /\ facade s1 = facade s /\ (forall j, 0 <= j -> j <> i -> slot s1 j = slot s j) /\
    slot s1 i = mkSlot true (GenerationAt s i) (with_state (HeaderAt s i) (state_value kRetired)))
    as (M1 & F1 & O1 & E1).
  { apply Retire_cases in Hrun as (i' & Hn' & [[-> Hr]|(o & He)]); [| |done].
    - pose proof (names_unique _ _ _ _ Hs Hn Hn') as <-. split_and!; [by apply moves_refl | done | done |].
      rewrite with_state_same by done. unfold slot. by rewrite Hb.
    - pose proof (names_unique _ _ _ _ Hs Hn Hn') as <-. pose proof He as (_ & _ & _ & Hat).
      split_and!; [by eapply takes_edge_moves | apply Hat | apply Hat | apply Hat]. }
  pose proof E1 as E1'. unfold slot in E1'. injection E1' as Eb1 Eg1 Eh1.
  assert (slab_ok s1) as Hok1 by by eapply moves_ok.
  assert (index_ok s1 i) as Hi1 by (unfold index_ok, total_slot_count; rewrite F1; apply Hn).
  apply reclaim_exact_cases in H as [H G2]; [|done|done].
  assert (may_free s1 i h false) as Hmay.
  { destruct Hn as (_ & Eh & _ & Hgen). split.
    - unfold identity_holds. rewrite Eb1, Eg1, Eh1, Eh. cbn [handle_at handle_generation with_state generation].
      by rewrite Hgen, !Z.eqb_refl.
    - rewrite Eh1. done. }
  destruct r as [|e].
  - destruct H as [_ Hfr]. pose proof (frees_slot _ _ _ Hfr) as (Ei & Eoth & _).
    assert (slot s' i = freed (slot s i)) as Ei' by (rewrite Ei, E1; done).
    split; [eapply moves_trans; [done|]; by eapply frees_moves | congruence | | |].
    + intros j Hj Hne. rewrite Eoth, O1; done.
    + intros j _ ->. by right.
    + by intros j _ ->.
  - destruct H as [Hst' Hcode]. destruct (Hcode Hmay) as [Hwb (g & n & Hg' & Hn')].
    assert (0 <= i) as Hi0 by apply Hn.
    split; [done | exists g, n; split; [congruence | done] | eapply moves_trans; [done|]; by apply still_moves | |].
    + intros j Hj Hne. by rewrite (si_slots _ _ Hst' j Hj), O1.
    + by rewrite (si_slots _ _ Hst' i Hi0).
Qed.

Lemma names_handle s h h' i : names s h i -> names s h' i -> h = h'.
Proof. intros (_ & -> & _) (_ & -> & _). done. Qed.

Lemma names_swept s s1 i h h' j :
  slab_ok s -> names s h i -> sweeps s s1 (fun j => j = i) (Ok tt) -> h' <> h -> names s h' j ->
  slot s1 j = slot s j /\ forall j', names s1 h' j' <-> names s h' j'.
Proof.
  intros Hok Hi Hc Hne Hn. pose proof (sw_moves _ _ _ _ Hc) as M. assert (facade s1 = facade s) as F by apply M.
  assert (slot s1 j = slot s j) as E.
  { apply (sw_kept _ _ _ _ Hc); [destruct Hn as ((? & ?) & _); lia|]. intros ->. by destruct Hne; eapply names_handle. }
  pose proof (names_kept _ s1 _ _ F E Hn) as Hn1. split; [done|]. intros j'. split; intros H.
  - by rewrite (names_unique _ _ _ _ (sk_shape _ (moves_ok _ _ Hok M)) H Hn1).
  - by rewrite (names_unique _ _ _ _ (sk_shape _ Hok) H Hn).
Qed.

(** Sweeping one handle's slot and then those of other handles sweeps them all. *)
Lemma sweeps_cons s s1 s' h i l :
  slab_ok s -> names s h i -> h ∉ l -> Forall (fun h' => exists j, names s h' j) l ->
  sweeps s s1 (fun j => j = i) (Ok tt) ->
  sweeps s1 s' (fun j => exists h', h' ∈ l /\ names s1 h' j) (Ok tt) ->
  sweeps s s' (fun j => exists h', h' ∈ h :: l /\ names s h' j) (Ok tt).
Proof.
  intros Hok Hi Hnew Hall Hc Hrest. rewrite Forall_elem in Hall.
  assert (forall h' j, h' ∈ l -> names s1 h' j <-> names s h' j) as Hiff.
  { intros h' j Hin. destruct (Hall h' Hin) as (j' & Hj').
    assert (h' <> h) as Hne by congruence. by apply (names_swept _ _ _ _ _ _ Hok Hi Hc Hne Hj'). }
  eapply sweeps_iff; [|eapply sweeps_app; [exact Hc | | exact Hrest]].
  - intros j Hj. cbn beta. split.
    + intros [->|(h' & Hin & Hn)]; [exists h; split; [left | done]|]. exists h'. split; [by right|]. by apply Hiff.
    + intros (h' & Hin & Hn). apply elem_of_cons in Hin as [->|Hin];
        [left; by eapply names_unique; [apply Hok | done | done]|]. right. exists h'. split; [done|]. by apply Hiff.
  - intros j -> (h' & Hin & Hn). apply Hiff in Hn; [|done].
    pose proof (names_handle _ _ _ _ Hn Hi) as ->. done.
Qed.

Lemma sweeps_none s (l : list ShmHandle) :
  slab_ok s -> l = [] -> sweeps s s (fun j => exists h, h ∈ l /\ names s h j) (Ok tt).
Proof.
  intros Hok ->. split; auto with mino; [apply moves_refl, Hok|].
  by intros j _ (h & Hh & _); apply not_elem_of_nil in Hh.
Qed.

(** The children are swept in order, up to one the guard turns down. *)
Lemma graph_children_sweep owner transaction l : forall s s' r,
  slab_ok s -> NoDup l -> Forall (fun h => exists i, graph_member s owner transaction false h i) l ->
  for_each (reclaim_graph_handle owner transaction false) l s = (s', r) ->
  match r with
  | Ok _ => sweeps s s' (fun j => exists h, h ∈ l /\ names s h j) (Ok tt)
  | Err e => exists gone x kept s1 i, l = gone ++ x :: kept /\
      sweeps s s1 (fun j => exists h, h ∈ gone /\ names s h j) (Ok tt) /\ names s1 x i /\ stopped s1 s' x i e
  end.
Proof.
  induction l as [|h rest IH]; intros s s' r Hok Hnd Hall H; cbn [for_each] in H.
  { run_step H. by apply sweeps_none. }
  apply Forall_cons_1 in Hall as [(i & Hi) Hall]. pose proof (gm_names _ _ _ _ _ _ Hi) as Hn.
  apply list.NoDup_cons in Hnd as [Hnew Hnd].
  assert (Forall (fun h' => exists j, names s h' j) rest) as Hnames
    by (eapply Forall_impl; [|exact Hall]; intros h' (j & Hj); exists j; apply Hj).
  run_step H; eapply reclaim_graph_handle_cases in Hrun as Hc; [| |exact Hi| | |exact Hi]; try done.
  2: { exists [], h, rest, s, i. split_and!; [done | by apply sweeps_none | done | done]. }
  apply IH in H; [| eapply moves_ok; [done | apply Hc] | done |].
  - destruct r as [|e]; [by eapply sweeps_cons|].
    destruct H as (gone & x & kept & s2 & j & -> & Hsw & Hj & Hst). exists (h :: gone), x, kept, s2, j.
    split_and!; [done | | done | done]. eapply sweeps_cons; [done | exact Hn | | | exact Hc | exact Hsw].
    + intros Hin. apply Hnew, elem_of_app. by left.
    + by apply Forall_app in Hnames as [? _].
  - rewrite Forall_elem in Hall |- *. intros h' Hin. destruct (Hall h' Hin) as (j & Hj). exists j.
    assert (h' <> h) as Hne by congruence.
    eapply graph_member_kept; [apply Hc | | apply Hc | exact Hj].
    by apply (names_swept _ _ _ _ _ _ Hok Hn Hc Hne (gm_names _ _ _ _ _ _ Hj)).
Qed.

(** ** Objects *)

Lemma object_Some s h hd : shape_ok s ->
  object s h = Some hd <-> exists i, names s h i /\ hd = HeaderAt s i.
Proof.
  intros Hs. unfold object. split.
  - destruct (ResolveLocked s h) as [i|] eqn:E; [|done]. intros [= <-]. exists i.
    split; [by apply resolve_names | done].
  - intros (i & Hn & ->). apply resolve_names in Hn; [|done]. by rewrite Hn.
Qed.

Lemma object_None s h : shape_ok s -> object s h = None <-> forall i, ~ names s h i.
Proof.
  intros Hs. split.
  - intros Ho i Hn. assert (object s h = Some (HeaderAt s i)) as Hs' by (apply object_Some; eauto). congruence.
  - intros Hno. destruct (object s h) as [hd|] eqn:E; [|done].
    apply object_Some in E as (i & Hn & _); [|done]. by destruct (Hno i).
Qed.

Lemma object_kept s s' h :
  shape_ok s -> shape_ok s' -> facade s' = facade s ->
  (forall j, names s h j \/ names s' h j -> slot s' j = slot s j) -> object s' h = object s h.
Proof.
  intros Hs Hs' F Hk. destruct (object s h) as [hd|] eqn:E.
  - apply object_Some in E as (i & Hn & ->); [|done]. apply object_Some; [done|]. exists i.
    assert (slot s' i = slot s i) as Ei by auto.
    split; [by eapply names_kept|]. unfold slot in Ei. by injection Ei as _ _ ->.
  - apply object_None; [done|]. intros j Hn. eapply object_None in E; [|done]. apply E.
    eapply names_kept; [symmetry; exact F | symmetry; by apply Hk; right | exact Hn].
Qed.

Lemma still_object s s' h : shape_ok s -> still s s' -> object s' h = object s h.
Proof.
  intros Hs [F _ S E]. apply object_kept; [done | done | done |]. intros j [((? & ?) & _)|((? & ?) & _)]; by apply E.
Qed.

(** Exactly the objects in the swept slots are gone. *)
Lemma swept_objects s s' P :
  slab_ok s -> sweeps s s' P (Ok tt) ->
  (forall h j, names s h j -> P j -> object s' h = None) /\
  (forall h, (forall j, names s h j -> ~ P j) -> object s' h = object s h).
Proof.
  intros Hok [M G K T O]. pose proof M as [F _ Hs' _]. pose proof (sk_shape s Hok) as Hs.
  assert (forall h j, names s' h j -> ~ P j /\ slot s' j = slot s j /\ names s h j) as Hlive.
  { intros h j Hn. pose proof Hn as ((Hj & _) & _ & Hb & _).
    assert (~ P j) as Hp by (intros HP; specialize (O j Hj HP); unfold slot, freed in O; injection O as O _ _; congruence).
    assert (slot s' j = slot s j) as E by by apply K. split_and!; [done | done |].
    by eapply names_kept; [symmetry; exact F | symmetry; exact E |]. }
  split.
  - intros h j Hn HP. apply object_None; [done|]. intros j' Hn'. destruct (Hlive _ _ Hn') as (Hp & _ & Hn2).
    by rewrite (names_unique _ _ _ _ Hs Hn2 Hn) in Hp.
  - intros h Hh. apply object_kept; [done | done | done |]. intros j [Hn|Hn]; [|by destruct (Hlive _ _ Hn) as (_ & ? & _)].
    apply K; [destruct Hn as ((? & ?) & _); lia | by apply Hh].
Qed.

Lemma sweeps_objects s s' l :
  slab_ok s -> Forall (fun h => exists i, names s h i) l ->
  sweeps s s' (fun j => exists h, h ∈ l /\ names s h j) (Ok tt) ->
  forall h, object s' h = if decide (h ∈ l) then None else object s h.
Proof.
  intros Hok Hall Hsw h. destruct (swept_objects _ _ _ Hok Hsw) as [H1 H2]. rewrite Forall_elem in Hall.
  destruct (decide (h ∈ l)) as [Hin|Hni]; [destruct (Hall h Hin) as (i & Hi); eauto|].
  apply H2. intros j Hn (h' & Hin & Hn'). by rewrite (names_handle _ _ _ _ Hn Hn') in Hni.
Qed.

Lemma stopped_objects s s' x i e :
  slab_ok s -> names s x i -> stopped s s' x i e ->
  forall h, object s' h =
    if decide (h = x) then (fun hd => with_state hd (state_value kRetired)) <$> object s h else object s h.
Proof.
  intros Hok Hn [_ _ M K R] h. pose proof (sk_shape s Hok) as Hs. pose proof M as [F _ Hs' _].
  pose proof R as R'. unfold slot in R'. injection R' as Rb Rg Rh.
  assert (names s' x i) as Hn'.
  { destruct Hn as (Hi & Eh & Hb & Hg). unfold names, index_ok, total_slot_count, handle_at, header_offset in *.
    rewrite F, Rb, Rg, Rh. cbn [generation with_state]. done. }
  destruct (decide (h = x)) as [->|Hne].
  - rewrite (proj2 (object_Some s x _ Hs)) by eauto. cbn [fmap option_fmap option_map].
    apply object_Some; [done|]. exists i. split; [done|]. by rewrite Rh.
  - apply object_kept; [done | done | done |]. intros j Hj. apply K; [by destruct Hj as [((? & ?) & _)|((? & ?) & _)]|].
    intros ->. apply Hne. destruct Hj as [Hj|Hj]; by eapply names_handle.
Qed.

(** ** Published graphs are reclaimed children first *)

Lemma quiet_then_sweeps s s1 s' (l : list ShmHandle) r :
  quiet s s1 -> shape_ok s -> reclaim_guard_ s1 = reclaim_guard_ s ->
  sweeps s1 s' (fun j => exists h, h ∈ l /\ names s1 h j) r ->
  sweeps s s' (fun j => exists h, h ∈ l /\ names s h j) r.
Proof.
  intros Q Hs G H. eapply quiet_sweeps; [done | done | done |]. eapply sweeps_iff; [|exact H].
  intros j Hj. by setoid_rewrite (names_quiet s s1).
Qed.

Lemma sweeps_then_quiet s s1 s' P r :
  sweeps s s1 P r -> quiet s1 s' -> reclaim_guard_ s' = reclaim_guard_ s1 -> sweeps s s' P r.
Proof.
  intros [M G K T O] Q G'. split; [eapply moves_trans; [done|]; apply quiet_moves; [done | apply M] | congruence | | |].
  - intros j Hj Hno. rewrite (quiet_slot s1 s') by done. auto.
  - intros j Hj Hp. rewrite (quiet_slot s1 s') by done. auto.
  - destruct r; [|done]. intros j Hj Hp. rewrite (quiet_slot s1 s') by done. auto.
Qed.

Lemma bump_guard k s s' r : bump k s = (s', r) -> reclaim_guard_ s' = reclaim_guard_ s.
Proof. unfold bump. intros H. by run_step H. Qed.

(** The second pass, over a graph the first pass accepted. *)
Lemma graph_second_pass owner transaction root rest i s s' r :
  slab_ok s -> NoDup (root :: rest) -> graph_member s owner transaction true root i ->
  Forall (fun h => exists j, graph_member s owner transaction false h j) rest ->
  (do* for_each (reclaim_graph_handle owner transaction false) (reverse rest) ;;
   do* reclaim_graph_handle owner transaction true root ;; bump published_graph_reclaims) s = (s', r) ->
  match r with
  | Ok _ => sweeps s s' (fun j => exists h, h ∈ root :: rest /\ names s h j) (Ok tt)
  | Err e => exists gone x kept s1 j, reverse rest ++ [root] = gone ++ x :: kept /\
      sweeps s s1 (fun j => exists h, h ∈ gone /\ names s h j) (Ok tt) /\ names s1 x j /\ stopped s1 s' x j e
  end.
Proof.
  intros Hok [Hnew Hnd]%list.NoDup_cons Hroot Hmem H.
  pose proof (gm_names _ _ _ _ _ _ Hroot) as Hn. rewrite <- Forall_reverse in Hmem.
  assert (NoDup (reverse rest)) as Hnd' by by rewrite (reverse_Permutation rest).
  run_step H; apply graph_children_sweep in Hrun; try done; rename Hrun into Hsw.
  2: { destruct Hsw as (gone & x & kept & s2 & j & -> & Hsw). exists gone, x, (kept ++ [root]), s2, j.
       by rewrite <- app_assoc. }
  assert (graph_member s1 owner transaction true root i) as Hroot1.
  { eapply graph_member_kept; [apply Hsw | | apply Hsw | exact Hroot].
    apply (sw_kept _ _ _ _ Hsw); [destruct Hn as ((? & ?) & _); lia|].
    intros (h & Hin & Hnh). rewrite (names_handle _ _ _ _ Hnh Hn), elem_of_reverse in Hin. done. }
  assert (slab_ok s1) as Hok1 by (eapply moves_ok; [done | apply Hsw]).
  run_step H; eapply reclaim_graph_handle_cases in Hrun as Hr; [| |exact Hroot1| | |exact Hroot1]; try done.
  2: { exists (reverse rest), root, [], s1, i. split_and!; [done | done | apply Hroot1 | done]. }
  pose proof (bump_quiet _ _ _ _ H) as [-> Q].
  eapply sweeps_iff; [|eapply sweeps_app; [exact Hsw | | eapply sweeps_then_quiet; [exact Hr | done | by eapply bump_guard]]].
  - intros j Hj. cbn beta. split.
    + intros [(h & Hin & Hnh)| ->]; [|exists root; split; [left | done]].
      exists h. rewrite elem_of_reverse in Hin. split; [by right | done].
    + intros (h & Hin & Hnh). apply elem_of_cons in Hin as [->|Hin].
      * right. eapply names_unique; [apply Hok | done | done].
      * left. exists h. by rewrite elem_of_reverse.
  - intros j (h & Hin & Hnh) ->. rewrite (names_handle _ _ _ _ Hnh Hn), elem_of_reverse in Hin. done.
Qed.

(** The first pass accepts the manifest: the root, then distinct members of its transaction. *)
Definition graph_ok (s : Slab) (root : ShmHandle) (manifest : list ShmHandle) : Prop :=
  exists owner transaction rest, manifest = root :: rest /\ NoDup manifest /\
    (exists i, graph_member s owner transaction true root i) /\
    Forall (fun h => exists i, graph_member s owner transaction false h i) rest.

Lemma graph_reclaimed root manifest s s' r :
  slab_ok s -> ReclaimPublishedGraph root manifest s = (s', r) ->
  match r with
  | Ok _ => graph_ok s root manifest /\ sweeps s s' (fun j => exists h, h ∈ manifest /\ names s h j) (Ok tt)
  | Err e => still s s' \/ graph_ok s root manifest /\
      exists gone x kept s1 i, reverse (tail manifest) ++ [root] = gone ++ x :: kept /\
        sweeps s s1 (fun j => exists h, h ∈ gone /\ names s h j) (Ok tt) /\ names s1 x i /\ stopped s1 s' x i e
  end.
Proof.
  intros Hok H. pose proof (sk_shape s Hok) as Hs. unfold ReclaimPublishedGraph in H.
  run_step H; [run_step H; left; by apply still_refl|]. apply orb_false_iff in E as [_ E].
  destruct manifest as [|front rest]; [done|]. apply negb_false_iff, bool_decide_eq_true in E as ->.
  cbn [check_graph tail] in H. run_step H.
  - run_step Hrun. apply check_handle_run in Hrun0 as (Q1 & G1 & Hc); [|done].
    destruct a0 as [ow tr]. destruct Hc as (i & Hn & _ & Hof & Hrole & Hobj & _ & Hg).
    apply check_graph_run in Hrun as (Q2 & G2 & -> & Hnd & Hall);
      [| by eapply quiet_ok | apply list.NoDup_singleton]. cbn [app fst snd] in Hnd, H.
    assert (graph_member s ow tr true root i) as Hroot by by split.
    assert (Forall (fun h => exists j, graph_member s ow tr false h j) rest) as Hmem
      by (eapply Forall_impl; [|exact Hall]; intros h (j & Hj); exists j; by eapply graph_member_quiet).
    assert (graph_ok s root (root :: rest)) as Hgraph by (exists ow, tr, rest; eauto).
    assert (quiet s s1) as Q by by eapply quiet_trans.
    assert (reclaim_guard_ s1 = reclaim_guard_ s) as G by congruence.
    assert (forall first h j, graph_member s ow tr first h j -> graph_member s1 ow tr first h j) as Hto
      by (intros first h j; apply graph_member_kept; [apply Q | by apply quiet_slot | done]).
    apply (graph_second_pass _ _ _ _ i) in H; [| by eapply quiet_ok | done | by apply Hto |].
    + destruct r as [|e]; [split; [done | by eapply quiet_then_sweeps]|]. right. split; [done|].
      destruct H as (gone & x & kept & s2 & j & E & Hsw & H). exists gone, x, kept, s2, j.
      split_and!; [done | by eapply quiet_then_sweeps | apply H | apply H].
    + eapply Forall_impl; [|exact Hmem]. intros h (j & Hj). eauto.
  - left. apply quiet_still; [|done]. run_step Hrun; apply check_handle_run in Hrun0 as (Q1 & _ & Hc); try done.
    destruct a as [ow tr]. apply check_graph_run in Hrun as (Q2 & _); [by eapply quiet_trans | by eapply quiet_ok |].
    apply list.NoDup_singleton.
Qed.

Lemma graph_member_of s root manifest h :
  graph_ok s root manifest -> h ∈ manifest ->
  exists owner transaction i, graph_member s owner transaction (bool_decide (h = root)) h i.
Proof.
  intros (owner & transaction & rest & -> & Hnd & (i & Hroot) & Hmem) Hin. exists owner, transaction.
  rewrite Forall_elem in Hmem. apply list.NoDup_cons in Hnd as [Hnew _]. apply elem_of_cons in Hin as [->|Hin].
  - exists i. by rewrite bool_decide_true.
  - destruct (Hmem h Hin) as (j & Hj). exists j. rewrite bool_decide_false by congruence. done.
Qed.

(** C21: [ReclaimPublishedGraph] removes a published graph children first and its root last,
    under any reclaim guard, also one whose answers change while the call runs (the pin table's
    guard reads live counters). On success the manifest is the root followed by distinct children
    of one transaction, published or retired, and exactly their objects are gone. On an error
    either every object is as it was, or the status is kWouldBlock and the guard let a handle [x]
    of the manifest pass in the first pass and turned it down in the second: exactly the handles
    before [x] in the order of reclaim are gone, [x] is retired with its stamp unchanged, and the
    handles behind it, the root with them unless it is [x], and all other objects are as they were. *)
Theorem published_graph_reclaimed_root_last root manifest s s' r :
  slab_ok s -> ReclaimPublishedGraph root manifest s = (s', r) ->
  match r with
  | Ok _ =>
      (exists rest, manifest = root :: rest) /\ NoDup manifest /\
      (exists owner transaction, forall h, h ∈ manifest -> exists hd, object s h = Some hd /\
         owner_epoch hd = owner /\ allocation_transaction_id hd = transaction /\
         allocation_role hd = expected_role (bool_decide (h = root)) /\
         (object_state hd = state_value kPublished \/ object_state hd = state_value kRetired)) /\
      forall h, object s' h = if decide (h ∈ manifest) then None else object s h
  | Err e =>
      (forall h, object s' h = object s h) \/
      code e = kWouldBlock /\ exists gone x kept g n m,
        reverse (tail manifest) ++ [root] = gone ++ x :: kept /\ NoDup (gone ++ x :: kept) /\
        reclaim_guard_ s = Some g /\ g n x = true /\ g m x = false /\
        forall h, object s' h =
          if decide (h ∈ gone) then None
          else if decide (h = x) then (fun hd => with_state hd (state_value kRetired)) <$> object s x
          else object s h
  end.
Proof.
  intros Hok H. pose proof (sk_shape s Hok) as Hs. apply graph_reclaimed in H; [|done]. destruct r as [|e].
  - destruct H as [Hgraph Hsw]. pose proof Hgraph as (owner & transaction & rest & -> & Hnd & (i & Hroot) & Hmem).
    rewrite Forall_elem in Hmem. pose proof Hnd as [Hnew _]%list.NoDup_cons.
    split_and!; [eauto | done | exists owner, transaction | apply sweeps_objects; [done | | done]].
    + intros h [->|Hin]%elem_of_cons.
      * exists (HeaderAt s i). rewrite bool_decide_true by done. destruct Hroot as [Hn (_ & ? & ?) ? ? ?].
        split_and!; [apply object_Some; eauto | done | done | done | done].
      * destruct (Hmem h Hin) as (j & Hj). exists (HeaderAt s j). rewrite bool_decide_false by congruence.
        destruct Hj as [Hn (_ & ? & ?) ? ? ?]. split_and!; [apply object_Some; eauto | done | done | done | done].
    + apply Forall_elem. intros h Hin. destruct (graph_member_of _ _ _ _ Hgraph Hin) as (? & ? & j & Hj).
      exists j. apply Hj.
  - destruct H as [H|[Hgraph (gone & x & kept & s1 & i & E & Hsw & Hx & Hst)]]; [left; intros h; by apply still_object|].
    right. split; [apply Hst|].
    assert (NoDup (gone ++ x :: kept) /\ forall h, h ∈ gone ++ x :: kept -> h ∈ manifest) as [Hnd Hin].
    { destruct Hgraph as (owner & transaction & rest & -> & Hnd & _). rewrite <- E. cbn [tail].
      assert (reverse rest ++ [root] ≡ₚ root :: rest) as Hp by (rewrite (reverse_Permutation rest); symmetry; apply Permutation_cons_append).
      split; [by rewrite Hp | intros h; by rewrite Hp]. }
    destruct (sp_refused _ _ _ _ _ Hst) as (g & m & Hg & Hm). rewrite (sw_guard _ _ _ _ Hsw) in Hg.
    assert (x ∈ manifest) as Hxin by (apply Hin, elem_of_app; right; left).
    destruct (graph_member_of _ _ _ _ Hgraph Hxin) as (? & ? & k & Hk).
    destruct (gm_guard _ _ _ _ _ _ Hk) as [?|(g' & n & Hg' & Hn)]; [congruence|]. assert (g' = g) as -> by congruence.
    exists gone, x, kept, g, n, m. split_and!; try done. intros h.
    rewrite (stopped_objects _ _ _ _ _ (moves_ok _ _ Hok (sw_moves _ _ _ _ Hsw)) Hx Hst).
    assert (Forall (fun h => exists i, names s h i) gone) as Hall.
    { apply Forall_elem. intros h' Hh'. destruct (graph_member_of _ _ _ h' Hgraph) as (? & ? & j & Hj);
        [apply Hin, elem_of_app; by left|]. exists j. apply Hj. }
    rewrite (sweeps_objects _ _ _ Hok Hall Hsw).
    destruct (decide (h = x)) as [->|], (decide (_ ∈ gone)); try done.
Qed.

(** Reclaiming the root of a transaction takes the whole transaction: without a guard the
    call succeeds and exactly the objects stamped with the owner and transaction of the root
    are gone, whatever their states.  A root that is still published needs no [Retire]. *)
Theorem reclaim_root_takes_transaction s h hd s' r :
  slab_ok s -> reclaim_guard_ s = None -> object s h = Some hd -> is_root hd = true ->
  Reclaim h s = (s', r) ->
  r = Ok tt /\
  forall h', object s' h' =
    match object s h' with
    | Some hd' => if (owner_epoch hd' =? owner_epoch hd)
                     && (allocation_transaction_id hd' =? allocation_transaction_id hd)
                  then None else Some hd'
    | None => None
    end.
Proof.
  intros Hok Hg Ho Hroot H. pose proof (sk_shape s Hok) as Hs.
  apply object_Some in Ho as (i & Hn & ->); [|done].
  unfold Reclaim in H. unfold bind at 1, Resolve, ask in H. rewrite (proj2 (resolve_names _ _ _ Hs) Hn) in H.
  run_step H; run_step Hrun. fold (is_root (HeaderAt s i)) in H. rewrite Hroot in H.
  unfold CanReclaim in H. unfold bind at 1 in H. rewrite Hg in H. cbn [negb] in H.
  apply is_root_identity in Hroot as [Hno Hnt].
  apply gap_sweeps in H as [([H0|H0] & _)|Hsw]; [done | done | | done].
  destruct r as [[]|e]; [|exfalso; by destruct (sw_outcome _ _ _ _ Hsw) as (_ & h' & g & n & Hg' & _); congruence].
  split; [done|]. intros h'. destruct (swept_objects _ _ _ Hok Hsw) as [H1 H2].
  destruct (object s h') as [hd'|] eqn:E.
  - apply object_Some in E as (j & Hj & ->); [|done]. destruct (_ && _) eqn:Eb.
    + apply andb_true_iff in Eb as [E1%Z.eqb_eq E2%Z.eqb_eq]. apply (H1 _ j Hj).
      split; [apply Hj|]. split_and!; [apply Hj | done | done].
    + rewrite H2; [apply object_Some; eauto|]. intros j' Hj' (_ & _ & E1 & E2).
      rewrite <- (names_unique _ _ _ _ Hs Hj Hj') in E1, E2. by rewrite E1, E2, !Z.eqb_refl in Eb.
  - rewrite H2; [done|]. intros j Hj _. by apply (proj1 (object_None _ _ Hs) E j).
Qed.

(** ** Any sequence of calls *)

Lemma Retire_moves h s s' r : slab_ok s -> Retire h s = (s', r) -> moves s s'.
Proof.
  intros Hok H. apply Retire_cases in H; [|done]. destruct r as [|e]; [|subst; apply moves_refl, Hok].
  destruct H as (i & _ & [[-> _]|(o & H)]); [apply moves_refl, Hok | by eapply takes_edge_moves].
Qed.

Lemma graph_handle_moves owner transaction first h s s' r :
  slab_ok s -> reclaim_graph_handle owner transaction first h s = (s', r) -> moves s s'.
Proof.
  intros Hok H. pose proof (sk_shape s Hok) as Hs. unfold reclaim_graph_handle in H.
  resolve_step H Hs; [|by apply moves_refl]. run_step H; run_step Hrun.
  run_step H; [run_step H; by apply moves_refl|]. run_step H; apply Retire_moves in Hrun; try done.
  eapply moves_trans; [done|]. eapply reclaim_exact_moves; [by eapply moves_ok | | done].
  destruct Hres as (Hi & _). unfold index_ok, total_slot_count. by rewrite (mv_facade _ _ Hrun).
Qed.

Lemma check_graph_quiet l : forall prior identity s s' r,
  slab_ok s -> check_graph prior identity l s = (s', r) -> quiet s s'.
Proof.
  induction l as [|h rest IH]; intros prior identity s s' r Hok H; cbn [check_graph] in H; [by run_step H|].
  run_step H; apply check_handle_run in Hrun as (Q & _ & _); try done.
  eapply quiet_trans; [done|]. eapply IH; [by eapply quiet_ok | done].
Qed.

Lemma ReclaimPublishedGraph_moves root manifest s s' r :
  slab_ok s -> ReclaimPublishedGraph root manifest s = (s', r) -> moves s s'.
Proof.
  intros Hok H. unfold ReclaimPublishedGraph in H. run_step H; [run_step H; apply moves_refl, Hok|].
  run_step H; apply check_graph_quiet in Hrun; try done; [|apply quiet_moves; [done | apply Hok]].
  assert (slab_ok s1) as Hok1 by by eapply quiet_ok.
  eapply moves_trans; [apply quiet_moves; [done | apply Hok]|].
  run_step H; (eapply for_each_moves in Hrun0; [| intros; by eapply graph_handle_moves | done]); [|done].
  eapply moves_trans; [done|]. assert (slab_ok s0) as Hok0 by by eapply moves_ok.
  run_step H; apply graph_handle_moves in Hrun1; try done. eapply moves_trans; [done|].
  apply bump_quiet in H as [_ Q]. apply quiet_moves; [done | apply Hrun1].
Qed.

Lemma gap_moves owner transaction s s' r :
  slab_ok s -> ReclaimTransactionAppendGap owner transaction s = (s', r) -> moves s s'.
Proof.
  intros Hok H. apply gap_sweeps in H as [(_ & -> & _)|H]; [apply moves_refl, Hok | apply H | done].
Qed.

Lemma ClearSlot_moves i expected s s' r :
  slab_ok s -> 0 <= i -> ClearSlotForRecovery i expected s = (s', r) -> moves s s'.
Proof.
  intros Hok Hi0 H. pose proof (sk_shape s Hok) as Hs. unfold ClearSlotForRecovery in H.
  run_step H; run_step Hrun. run_step H; [run_step H; by apply moves_refl|]. apply Z.leb_gt in E.
  run_step H; [run_step H; run_step H; by apply moves_refl|]. apply negb_false_iff in E0.
  run_step H; [run_step H; by apply moves_refl|].
  assert (index_ok s i) as Hi by (split; lia).
  pose proof (sk_slots s Hok i Hi) as Hst. unfold slot_ok in Hst.
  change (slot_bit (slot s i)) with (IsSetAt s i) in Hst. rewrite E0 in Hst.
  destruct Hst as [(o & Ho & Hlive) _ _ _ _]. cbn [slot slot_header] in Ho. rewrite Ho in H.
  assert (negb (is_state (state_value o) kReclaiming) = true) as Hnr by (by destruct o). rewrite Hnr in H. cbn [when] in H.
  run_step H; apply store_state_at in Hrun as [Er Hat]; try done.
  run_step H; apply store_state_at in Hrun as [Er2 Hst]; try (by apply Hat); try (by eapply at_slot_index); [|done].
  chain Hat Hst. rewrite with_state_twice in Hat.
  run_step H; apply attempt_run in Hrun as (x & Ex & Hcl); [injection Ex as ->|done].
  apply clear_bit_at in Hcl as [Hcl Hr]; [| by apply Hat | by eapply at_slot_index].
  destruct (at_slot_parts _ _ _ _ Hat) as (Ebit & _ & _). cbn [slot_bit] in Ebit.
  rewrite (Hr ltac:(congruence)) in H. chain Hat Hcl. run_step H.
  eapply frees_moves. split; [done|]. split; [exists o; split; [done | by destruct o] | exact Hat].
Qed.

Lemma ClearStale_still i expected s s' r :
  slab_ok s -> 0 <= i -> ClearStaleStateForRecovery i expected s = (s', r) -> still s s'.
Proof.
  intros Hok Hi0 H. pose proof (sk_shape s Hok) as Hs. unfold ClearStaleStateForRecovery in H.
  run_step H; run_step Hrun. run_step H; [run_step H; by apply still_refl|]. apply Z.leb_gt in E.
  run_step H; [run_step H; by apply still_refl|]. assert (index_ok s i) as Hi by (split; lia).
  pose proof (sk_slots s Hok i Hi) as Hst. unfold slot_ok in Hst.
  change (slot_bit (slot s i)) with (IsSetAt s i) in Hst. rewrite E0 in Hst. cbn [slot slot_header] in Hst.
  run_step H.
  - apply store_state_at in H as [_ Hat]; [|done|done]. rewrite with_state_same in Hat by done.
    by apply (at_slot_still i).
  - run_step H; run_step H; by apply still_refl.
Qed.

Inductive Call : Type :=
| CallAllocate (th : Thread) (request : AllocationRequest)
| CallNextTransactionId
| CallBeginBuild (h : ShmHandle)
| CallPublish (h : ShmHandle)
| CallAbort (h : ShmHandle)
| CallRetire (h : ShmHandle)
| CallReclaim (h : ShmHandle)
| CallPublishTransaction (owner transaction : Z) (handles : list ShmHandle) (root : ShmHandle)
| CallReclaimTransaction (owner transaction : Z) (handles : list ShmHandle)
| CallReclaimPublishedGraph (root : ShmHandle) (manifest : list ShmHandle)
| CallReclaimAppendGap (owner transaction : Z)
| CallClearSlot (i expected : Z)
| CallClearStale (i expected : Z)
| CallConfigureCache (enabled : bool)
| CallDrainCache
| CallSetGuard (guard : option (nat -> ShmHandle -> bool)).

(** The arguments have their C++ types. *)
Definition call_ok (c : Call) : Prop :=
  match c with
  | CallAllocate _ request => request_ok request
  | CallClearSlot i _ | CallClearStale i _ => 0 <= i
  | _ => True
  end.

Definition run_call (c : Call) (s : Slab) : Slab :=
  match c with
  | CallAllocate th request => fst (Allocate th request s)
  | CallNextTransactionId => fst (NextAllocationTransactionId s)
  | CallBeginBuild h => fst (BeginBuild h s)
  | CallPublish h => fst (Publish h s)
  | CallAbort h => fst (Abort h s)
  | CallRetire h => fst (Retire h s)
  | CallReclaim h => fst (Reclaim h s)
  | CallPublishTransaction o t hs root => fst (PublishTransaction o t hs root s)
  | CallReclaimTransaction o t hs => fst (ReclaimTransaction o t hs s)
  | CallReclaimPublishedGraph root hs => fst (ReclaimPublishedGraph root hs s)
  | CallReclaimAppendGap o t => fst (ReclaimTransactionAppendGap o t s)
  | CallClearSlot i e => fst (ClearSlotForRecovery i e s)
  | CallClearStale i e => fst (ClearStaleStateForRecovery i e s)
  | CallConfigureCache b => fst (ConfigureLocalCache b s)
  | CallDrainCache => fst (DrainLocalCache s)
  | CallSetGuard g => fst (SetReclaimGuard g s)
  end.
Definition run_calls (cs : list Call) (s : Slab) : Slab := foldl (fun s c => run_call c s) s cs.

Lemma next_id_still s s' r : shape_ok s -> NextAllocationTransactionId s = (s', r) -> still s s'.
Proof.
  intros Hs H. unfold NextAllocationTransactionId in H. run_step H; run_step Hrun.
  run_step H; [run_step H; by apply still_refl|]. run_step H; run_step Hrun. run_step H.
  destruct Hs. split; [done | done | by split | done].
Qed.

Lemma run_call_moves c s : slab_ok s -> call_ok c -> moves s (run_call c s).
Proof.
  intros Hok Hc. pose proof (sk_shape s Hok) as Hs. destruct c; cbn [run_call call_ok] in *;
    match goal with |- moves _ (fst ?x) => destruct x as [s' r] eqn:H; cbn [fst] end.
  - apply Allocate_cases in H; [|done|done]. destruct r; [|apply H].
    destruct H as (i & H). by eapply allocates_moves.
  - by eapply still_moves, next_id_still.
  - apply BeginBuild_cases in H; [|done]. destruct r; [|subst; by apply moves_refl].
    destruct H as (i & H & _). by eapply takes_edge_moves.
  - apply Publish_cases in H; [|done]. destruct r; [|subst; by apply moves_refl].
    destruct H as (i & H). by eapply takes_edge_moves.
  - by eapply Abort_moves.
  - by eapply Retire_moves.
  - by eapply Reclaim_moves.
  - by eapply PublishTransaction_moves.
  - by eapply ReclaimTransaction_moves.
  - by eapply ReclaimPublishedGraph_moves.
  - by eapply gap_moves.
  - by eapply ClearSlot_moves.
  - by eapply still_moves, ClearStale_still.
  - apply quiet_moves; [|done]. unfold ConfigureLocalCache, DrainLocalCache, bump in H. cbn in H. by injection H as <- _.
  - apply quiet_moves; [|done]. unfold DrainLocalCache, bump in H. cbn in H. by injection H as <- _.
  - apply quiet_moves; [|done]. unfold SetReclaimGuard in H. by run_step H.
Qed.

Lemma run_calls_moves cs : forall s, slab_ok s -> Forall call_ok cs -> moves s (run_calls cs s).
Proof.
  induction cs as [|c cs IH]; intros s Hok Hcs; cbn [run_calls foldl]; [apply moves_refl, Hok|].
  apply Forall_cons_1 in Hcs as [Hc Hcs]. pose proof (run_call_moves c s Hok Hc) as M.
  eapply moves_trans; [exact M|]. apply IH; [by eapply moves_ok | done].
Qed.

(** ** Histories of one handle *)

Lemma handle_at_inj s i j g g' : shape_ok s -> index_ok s i -> index_ok s j ->
  handle_at s i g = handle_at s j g' -> i = j /\ g = g'.
Proof.
  intros Hs Hi Hj E. unfold handle_at in E. injection E as E1 E2.
  rewrite (proj1 (slot_offset s i Hs Hi)), (proj1 (slot_offset s j Hs Hj)) in E1.
  pose proof (stride_positive _ (so_facade s Hs)) as Hst. unfold kSlabHeaderSize in Hst. split; [nia | done].
Qed.

Lemma handle_at_facade s s' i g : facade s' = facade s -> handle_at s' i g = handle_at s i g.
Proof. intros F. unfold handle_at, header_offset. by rewrite F. Qed.

(** A handle that named an object and does not any more. *)
Lemma gone_stays_gone s0 s1 s2 h :
  slab_ok s0 -> moves s0 s1 -> moves s1 s2 ->
  object s0 h <> None -> object s1 h = None -> object s2 h = None.
Proof.
  intros Hok0 M01 M12 H0 H1.
  assert (slab_ok s1) as Hok1 by by eapply moves_ok. assert (slab_ok s2) as Hok2 by by eapply moves_ok.
  pose proof M01 as [F1 _ S1 P1]. pose proof M12 as [F2 _ S2 P2].
  destruct (object s0 h) as [hd|] eqn:E0; [|done]. clear H0.
  apply object_Some in E0 as (i & (Hi & Eh & Hb & Hg) & _); [|apply Hok0].
  apply object_None; [done|]. intros j (Hj & Ej & Hbj & Hgj).
  assert (index_ok s1 i) as Hi1 by (unfold index_ok, total_slot_count in *; by rewrite F1).
  assert (index_ok s2 i) as Hi2 by (unfold index_ok, total_slot_count in *; by rewrite F2, F1).
  assert (i = j /\ GenerationAt s0 i = GenerationAt s2 j) as [<- Egen].
  { apply (handle_at_inj s2); [done | done | done |]. rewrite <- Ej, Eh.
    symmetry. rewrite (handle_at_facade s1 s2), (handle_at_facade s0 s1) by done. done. }
  pose proof (slot_path_gen _ _ _ _ (P1 i Hi)) as [G01 _].
  pose proof (slot_path_gen _ _ _ _ (P2 i Hi1)) as [G12 G12'].
  cbn [slot slot_gen slot_bit] in G01, G12, G12'.
  assert (IsSetAt s1 i = false) as Hb1.
  { destruct (IsSetAt s1 i) eqn:E; [|done]. exfalso. apply (proj1 (object_None s1 h S1) H1 i).
    split_and!; [done | | done |].
    - rewrite Eh, (handle_at_facade s0 s1) by done. f_equal. lia.
    - pose proof (sk_slots s1 Hok1 i Hi1) as Hs. unfold slot_ok in Hs.
      change (slot_bit (slot s1 i)) with (IsSetAt s1 i) in Hs. rewrite E in Hs. apply Hs. }
  specialize (G12' Hb1 Hbj). lia.
Qed.

(** C20: handles are not revived: once a handle has named an object and no longer does
    (the object was reclaimed, aborted or recovered), it names nothing after any further
    calls, reallocation of its slot included. *)
Theorem reclaimed_handle_never_revived cs cs' s h :
  slab_ok s -> Forall call_ok cs -> Forall call_ok cs' ->
  object s h <> None -> object (run_calls cs s) h = None ->
  object (run_calls cs' (run_calls cs s)) h = None.
Proof.
  intros Hok Hc Hc' H0 H1. pose proof (run_calls_moves cs s Hok Hc) as M.
  eapply gone_stays_gone; [exact Hok | exact M | | exact H0 | exact H1].
  apply run_calls_moves; [by eapply moves_ok | done].
Qed.

(** The lifecycle edges an object has taken. *)
Definition edges : ObjectState -> ObjectState -> Prop := rtc (fun o o' => edge o o' = true).

Lemma slot_path_stamp t i c c' :
  slot_path t i c c' -> slot_bit c = true -> slot_bit c' = true -> slot_gen c' = slot_gen c ->
  forall o, object_state (slot_header c) = state_value o ->
  same_stamp (slot_header c) (slot_header c') /\
  exists o', object_state (slot_header c') = state_value o' /\ edges o o'.
Proof.
  induction 1 as [c|c c1 c2 Hs Hp IH]; intros Hb Hb2 Hg o Ho.
  { split; [unfold same_stamp; by rewrite with_state_same | exists o; split; [done | constructor]]. }
  pose proof (slot_step_gen _ _ _ _ Hs) as [G1 _]. pose proof (slot_path_gen _ _ _ _ Hp) as [G2 G2'].
  destruct Hs as [c c1 E1|c c1 E1|c x x' E1 E2 E3|c x E1 E2 E3]; [congruence | congruence | |].
  - apply state_value_inj in E2 as <- || (assert (x = o) as -> by (apply state_value_inj; congruence)).
    destruct (IH eq_refl Hb2 Hg x' eq_refl) as (Hst & o' & Ho' & He). cbn [slot_header] in Hst.
    split; [unfold same_stamp in *; by rewrite Hst at 1|]. exists o'. split; [done|]. by eapply rtc_l.
  - cbn [slot_bit slot_gen] in G2'. specialize (G2' eq_refl Hb2). lia.
Qed.

(** The stamp of an object does not change while it lives: whatever calls are made, an
    object that is still there has the header it was allocated with, except for its state,
    which has only moved along the edges of the lifecycle. *)
Theorem object_stamp_immutable cs s h hd hd' :
  slab_ok s -> Forall call_ok cs ->
  object s h = Some hd -> object (run_calls cs s) h = Some hd' ->
  hd' = with_state hd (object_state hd') /\
  exists o o', object_state hd = state_value o /\ object_state hd' = state_value o' /\ edges o o'.
Proof.
  intros Hok Hc H H'. pose proof (run_calls_moves cs s Hok Hc) as M. pose proof M as [F _ S P].
  apply object_Some in H as (i & Hn & ->); [|apply Hok]. apply object_Some in H' as (j & Hn' & ->); [|done].
  pose proof Hn as (Hi & Eh & Hb & _). pose proof Hn' as (Hj & Ej & Hb' & _).
  assert (i = j /\ GenerationAt s i = GenerationAt (run_calls cs s) j) as [<- Hg].
  { apply (handle_at_inj (run_calls cs s)); [done | unfold index_ok, total_slot_count in *; by rewrite F | done |].
    rewrite <- Ej, Eh. by apply handle_at_facade. }
  destruct (names_stamped _ _ _ Hok Hn) as [(o & Ho & _) _ _ _ _].
  destruct (slot_path_stamp _ _ _ _ (P i Hi) Hb Hb' ltac:(cbn; congruence) o Ho) as (Hst & o' & Ho' & He).
  split; [exact Hst | exists o, o'; done].
Qed.

(** ** Fresh allocations *)

Lemma at_slot_object i c s s' h : shape_ok s -> at_slot i c s s' -> ~ names s h i -> ~ names s' h i ->
  object s' h = object s h.
Proof.
  intros Hs [F _ S E O] H1 H2. apply object_kept; [done | done | done |].
  intros j Hj. apply O; [destruct Hj as [((? & ?) & _)|((? & ?) & _)]; lia|]. intros ->. naive_solver.
Qed.

Lemma allocated_fields request id cap gen crc :
  let hd := allocated_header request id cap gen crc in
  object_state hd = state_value kAllocated /\ generation hd = gen /\ header_class_id hd = id /\
  capacity hd = cap /\ object_size hd = request_size request /\ type_id hd = request_type_id request /\
  layout_version hd = schema_layout_version (request_schema request) /\
  schema_short_id hd = short_id (request_schema request) /\
  owner_epoch hd = request_owner_epoch request /\
  allocation_transaction_id hd = request_transaction_id request /\
  allocation_role hd = allocation_flags request.
Proof. Transparent stamped_header. cbn. Opaque stamped_header. by split_and!. Qed.

(** What a successful allocation adds. *)
Lemma allocates_object request s s' i h :
  slab_ok s -> allocates request s s' i h ->
  exists id cls, class_in (class_table_ (facade s)) id cls /\
    object s' h = Some (allocated_header request id (slot_size cls) (GenerationAt s i + 1)
      (immutable_header_crc (HeaderAt s i))) /\
    request_size request <= slot_size cls /\
    forall h', h' <> h -> object s' h' = object s h'.
Proof.
  intros Hok [Hi Hf Eh Hlt (id & cls & Hc & Hin & Hr & Hat)]. exists id, cls.
  pose proof (sk_shape s Hok) as Hs. pose proof (at_slot_parts _ _ _ _ Hat) as (Eb & Eg & Ehd).
  cbn [slot_bit slot_gen slot_header] in Eb, Eg, Ehd. pose proof (as_shape _ _ _ _ Hat) as Hs'.
  assert (names s' h i) as Hn.
  { split_and!; [by eapply at_slot_index | | done |].
    - rewrite Eh, Eg. symmetry. apply handle_at_facade, (as_facade _ _ _ _ Hat).
    - rewrite Ehd, Eg. apply allocated_fields. }
  split_and!; [done | apply object_Some; [done|]; exists i; by rewrite Ehd | lia |].
  intros h' Hne. eapply at_slot_object; [done | exact Hat | |].
  - intros (_ & _ & Hb & _). congruence.
  - intros Hn'. by rewrite (names_handle _ _ _ _ Hn' Hn) in Hne.
Qed.

Lemma failed_allocation_objects s s' h : slab_ok s -> no_object_changed s s' -> object s' h = object s h.
Proof.
  intros Hok [M Hsl]. pose proof M as [F _ S _]. apply object_kept; [apply Hok | done | done |].
  intros j Hj. destruct (Hsl j) as [|[H1 H2]]; [|done|].
  - destruct Hj as [Hj|Hj]; [apply Hj|]. destruct Hj as (Hj & _). unfold index_ok, total_slot_count in *. by rewrite <- F.
  - destruct Hj as [(_ & _ & Hb & _)|(_ & _ & Hb & _)]; congruence.
Qed.

(** A successful allocation returns a handle that names nothing now and has never
    named anything since [s0], adds one object with exactly the requested identity in a
    slot large enough for it, and leaves every other object alone; a failed one changes no
    object. *)
Theorem allocate_fresh th request cs s0 s s' r :
  slab_ok s0 -> Forall call_ok cs -> s = run_calls cs s0 -> request_ok request ->
  Allocate th request s = (s', r) ->
  match r with
  | Ok h =>
      object s h = None /\ object s0 h = None /\
      (exists hd, object s' h = Some hd /\ object_state hd = state_value kAllocated /\
         object_size hd = request_size request /\ request_size request <= capacity hd /\
         type_id hd = request_type_id request /\
         schema_short_id hd = short_id (request_schema request) /\
         owner_epoch hd = request_owner_epoch request /\
         allocation_transaction_id hd = request_transaction_id request /\
         allocation_role hd = allocation_flags request) /\
      forall h', h' <> h -> object s' h' = object s h'
  | Err _ => forall h, object s' h = object s h
  end.
Proof.
  intros Hok0 Hcs -> Hreq H. set (s := run_calls cs s0) in *.
  pose proof (run_calls_moves cs s0 Hok0 Hcs) as M. fold s in M. assert (slab_ok s) as Hok by by eapply moves_ok.
  apply Allocate_cases in H; [|done|done]. destruct r as [h|e]; [|intros h; by apply failed_allocation_objects].
  destruct H as (i & Hal). pose proof (allocates_moves _ _ _ _ _ Hok Hal) as M'.
  destruct (allocates_object _ _ _ _ _ Hok Hal) as (id & cls & Hc & Ho & Hsz & Hoth).
  assert (object s h = None) as Hnone.
  { apply object_None; [apply Hok|]. intros j (Hj & Ej & Hb & _).
    destruct Hal as [Hi Hf Eh _ _]. rewrite Eh in Ej.
    apply handle_at_inj in Ej as [<- Hg]; [lia | apply Hok | done | done]. }
  split_and!; [done | | | done].
  - destruct (object s0 h) eqn:E0; [|done]. exfalso.
    pose proof (gone_stays_gone s0 s s' h Hok0 M M' ltac:(congruence) Hnone). congruence.
  - eexists. split; [exact Ho|].
    destruct (allocated_fields request id (slot_size cls) (GenerationAt s i + 1) (immutable_header_crc (HeaderAt s i)))
      as (F1 & F2 & F3 & F4 & F5 & F6 & F7 & F8 & F9 & F10 & F11).
    split_and!; (done || congruence || lia).
Qed.

(** ** Lifecycle calls *)

Lemma takes_edge_objects s s' h i o o' : slab_ok s -> takes_edge s s' h i o o' ->
  object s h = Some (HeaderAt s i) /\ object s' h = Some (with_state (HeaderAt s i) (state_value o')) /\
  forall h', h' <> h -> object s' h' = object s h'.
Proof.
  intros Hok (Hn & Ho & He & Hat). pose proof (sk_shape s Hok) as Hs. pose proof (as_shape _ _ _ _ Hat) as Hs'.
  destruct (at_slot_parts _ _ _ _ Hat) as (Eb & Eg & Eh). cbn [slot_bit slot_gen slot_header] in Eb, Eg, Eh.
  assert (names s' h i) as Hn'.
  { destruct Hn as (Hi & E & Hb & Hg). split_and!; [by eapply at_slot_index | | done | rewrite Eh, Eg; done].
    rewrite E, Eg. symmetry. apply handle_at_facade, (as_facade _ _ _ _ Hat). }
  split_and!.
  - apply object_Some; eauto.
  - apply object_Some; [done|]. exists i. by rewrite Eh.
  - intros h' Hne. eapply at_slot_object; [done | exact Hat | |]; intros Hx.
    + by rewrite (names_handle _ _ _ _ Hx Hn) in Hne.
    + by rewrite (names_handle _ _ _ _ Hx Hn') in Hne.
Qed.

(** The call moves the object of [h] to state [o'] and leaves every other one alone. *)
Definition moves_object (s s' : Slab) (h : ShmHandle) (o' : ObjectState) : Prop :=
  exists hd, object s h = Some hd /\ object s' h = Some (with_state hd (state_value o')) /\
  forall h', h' <> h -> object s' h' = object s h'.

(** The state of the object [h] names. *)
Definition state_of (s : Slab) (h : ShmHandle) : option Z := object_state <$> object s h.

Lemma resolve_object s h i : slab_ok s -> names s h i ->
  ResolveLocked s h = Ok i /\ object s h = Some (HeaderAt s i) /\ VerifyImmutableHeader (HeaderAt s i) = true.
Proof.
  intros Hok Hn. pose proof (names_stamped _ _ _ Hok Hn) as [_ _ _ Hv _].
  split_and!; [by apply resolve_names; [apply Hok|] | apply object_Some; [apply Hok|]; eauto | exact Hv].
Qed.

Lemma object_resolves s h hd : slab_ok s -> object s h = Some hd -> exists i, names s h i /\ hd = HeaderAt s i.
Proof. intros Hok. apply object_Some, Hok. Qed.

(** Outcome of a call that takes an edge from one of the states [from] to [to]. *)
Definition follows {A} (from : ObjectState -> bool) (to : ObjectState) (s : Slab) (h : ShmHandle)
    (out : Slab * Result A) : Prop :=
  let '(s', r) := out in
  (is_ok r = true <-> exists o, state_of s h = Some (state_value o) /\ from o = true) /\
  if is_ok r then moves_object s s' h to else s' = s.

Lemma state_of_names s h i : slab_ok s -> names s h i -> state_of s h = Some (object_state (HeaderAt s i)).
Proof. intros Hok Hn. unfold state_of. by rewrite (proj1 (proj2 (resolve_object _ _ _ Hok Hn))). Qed.

Lemma state_of_Some s h v : slab_ok s -> state_of s h = Some v ->
  exists i, names s h i /\ object_state (HeaderAt s i) = v /\ ResolveLocked s h = Ok i /\
    VerifyImmutableHeader (HeaderAt s i) = true.
Proof.
  intros Hok H. unfold state_of in H. destruct (object s h) as [hd|] eqn:E; [|done]. cbn in H. injection H as <-.
  apply object_resolves in E as (i & Hn & ->); [|done]. destruct (resolve_object _ _ _ Hok Hn) as (? & _ & ?). eauto.
Qed.

Lemma takes_edge_follows s s' h i o o' : slab_ok s -> takes_edge s s' h i o o' ->
  state_of s h = Some (state_value o) /\ moves_object s s' h o'.
Proof.
  intros Hok Ht. pose proof Ht as (Hn & Ho & _). rewrite (state_of_names _ _ _ Hok Hn), Ho. split; [done|].
  destruct (takes_edge_objects _ _ _ _ _ _ Hok Ht) as (H1 & H2 & H3). by exists (HeaderAt s i).
Qed.

Lemma BeginBuild_follows s h : slab_ok s -> follows (fun o => bool_decide (o = kAllocated)) kBuilding s h (BeginBuild h s).
Proof.
  intros Hok. unfold follows. destruct (BeginBuild h s) as [s' r] eqn:E.
  pose proof (BeginBuild_cases _ _ _ _ Hok E) as Hc. destruct r as [v|e]; cbn [is_ok].
  - destruct Hc as (i & Ht & _). destruct (takes_edge_follows _ _ _ _ _ _ Hok Ht) as [H1 H2].
    split; [|done]. split; [intros _; by exists kAllocated | done].
  - split; [|done]. split; [done|]. intros (o & Hst & ->%bool_decide_eq_true). exfalso.
    apply state_of_Some in Hst as (i & Hn & Ho & Hr & Hv); [|done].
    unfold BeginBuild, bind, Resolve, ask, header_of, gets in E. by rewrite Hr, Hv, Ho in E.
Qed.

Lemma Publish_follows s h : slab_ok s -> follows (fun o => bool_decide (o = kBuilding)) kPublished s h (Publish h s).
Proof.
  intros Hok. unfold follows. destruct (Publish h s) as [s' r] eqn:E.
  pose proof (Publish_cases _ _ _ _ Hok E) as Hc. destruct r as [v|e]; cbn [is_ok].
  - destruct Hc as (i & Ht). destruct (takes_edge_follows _ _ _ _ _ _ Hok Ht) as [H1 H2].
    split; [|done]. split; [intros _; by exists kBuilding | done].
  - split; [|done]. split; [done|]. intros (o & Hst & ->%bool_decide_eq_true). exfalso.
    apply state_of_Some in Hst as (i & Hn & Ho & Hr & Hv); [|done].
    unfold Publish, bind, Resolve, ask, header_of, gets in E. by rewrite Hr, Hv, Ho in E.
Qed.

Lemma Retire_follows s h : slab_ok s ->
  follows (fun o => bool_decide (o = kRetired) || edge o kRetired) kRetired s h (Retire h s).
Proof.
  intros Hok. unfold follows. destruct (Retire h s) as [s' r] eqn:E.
  pose proof (Retire_cases _ _ _ _ Hok E) as Hc. destruct r as [v|e]; cbn [is_ok].
  - destruct Hc as (i & Hn & [[-> Hst]|(o & Ht)]).
    + split; [split; [intros _|done]; exists kRetired; by rewrite (state_of_names _ _ _ Hok Hn), Hst|].
      exists (HeaderAt s i). rewrite with_state_same by done.
      split_and!; [apply (resolve_object _ _ _ Hok Hn) | apply (resolve_object _ _ _ Hok Hn) | done].
    + destruct (takes_edge_follows _ _ _ _ _ _ Hok Ht) as [H1 H2]. destruct Ht as (_ & _ & He & _).
      split; [|done]. split; [intros _; exists o; by rewrite He, orb_true_r | done].
  - split; [|done]. split; [done|]. intros (o & Hst & Ho'). exfalso.
    apply state_of_Some in Hst as (i & Hn & Ho & Hr & Hv); [|done].
    unfold Retire, bind, Resolve, ask, load_state, gets in E. rewrite Hr, Ho in E. by destruct o.
Qed.

(** [BeginBuild], [Publish] and [Retire] follow the state of the object: each succeeds
    exactly in the states its edge starts from ([Retire] also on a retired object), moves
    that object and no other, and otherwise, for a stale handle in particular, changes
    nothing. *)
Theorem lifecycle_calls_follow_state s h :
  slab_ok s ->
  follows (fun o => bool_decide (o = kAllocated)) kBuilding s h (BeginBuild h s) /\
  follows (fun o => bool_decide (o = kBuilding)) kPublished s h (Publish h s) /\
  follows (fun o => bool_decide (o = kRetired) || edge o kRetired) kRetired s h (Retire h s).
Proof. intros Hok. auto using BeginBuild_follows, Publish_follows, Retire_follows. Qed.

(** ** From creation on *)

(** C22: an allocator made by [CreateWithStorage] stays well formed under any calls: in every
    slot the bit, the publication word, the authoritative generation, the stamped header
    and the class of the slot agree. *)
Theorem slab_calls_invariant base available mcap area scap rid bias cfg pl placement id slots mag s cs :
  creation_ok cfg available area bias slots ->
  CreateWithStorage base available mcap area scap rid bias cfg pl placement id slots mag = Ok s ->
  Forall call_ok cs -> slab_ok (run_calls cs s).
Proof.
  intros Hc H Hcs. destruct (CreateWithStorage_ok _ _ _ _ _ _ _ _ _ _ _ _ _ _ Hc H) as (Hok & _).
  eapply moves_ok; [done | by apply run_calls_moves].
Qed.

(** C33: creating and attaching are equivalent: after any calls a process that maps the
    memory at any aligned address and attaches gets the same geometry over the same shared
    state, so that every handle means the same object to it. *)
Theorem attach_equals_create base available mcap area scap rid bias cfg pl placement id slots mag s cs
    base' available' discovered id' mag' :
  creation_ok cfg available area bias slots ->
  CreateWithStorage base available mcap area scap rid bias cfg pl placement id slots mag = Ok s ->
  Forall call_ok cs -> base' mod 64 = 0 -> available <= available' ->
  exists s', AttachWithBias (Some base') (shared (run_calls cs s)) available' bias discovered id' mag' = Ok s' /\
    slab_ok s' /\ facade s' = facade s /\ shared s' = shared (run_calls cs s) /\
    forall h, object s' h = object (run_calls cs s) h.
Proof.
  intros Hc H Hcs Hb Hav.
  destruct (CreateWithStorage_ok _ _ _ _ _ _ _ _ _ _ _ _ _ _ Hc H) as (Hok & Hatt & E1 & E2 & _).
  pose proof (run_calls_moves cs s Hok Hcs) as M. assert (slab_ok (run_calls cs s)) as Hok' by by eapply moves_ok.
  destruct (attach_same (run_calls cs s) base' available' bias discovered id' mag' Hok') as (s' & Ha & F & S);
    [by eapply attachable_moves | done | rewrite (mv_facade _ _ M); lia | rewrite (mv_facade _ _ M); congruence |].
  assert (quiet (run_calls cs s) s') as Q by done.
  exists s'. split_and!; [done | by eapply quiet_ok | by rewrite F, (mv_facade _ _ M) | done |].
  intros h. apply still_object; [apply Hok' | apply quiet_still; [done | apply Hok']].
Qed.

(** ** The memory of live objects *)

Lemma layout_ok_last ds : forall i prev bit total k d d',
  layout_ok i prev bit ds total -> ds !! k = Some d -> list.last ds = Some d' -> slot_size d <= slot_size d'.
Proof.
  induction ds as [|d0 rest IH]; intros i prev bit total k d d' Hl Hk Hlast; [done|].
  destruct Hl as (_ & _ & _ & _ & Hl). destruct rest as [|d1 rest].
  - destruct k as [|k]; [|done]. cbn in Hk, Hlast. assert (d = d') as -> by congruence. lia.
  - rewrite last_cons_cons in Hlast. destruct k as [|k]; [|by eapply IH]. injection Hk as ->.
    pose proof Hl as (_ & Hs & _). pose proof (IH _ _ _ _ 0%nat d1 d' Hl eq_refl Hlast). lia.
Qed.

Lemma class_fits t k d : table_ok t -> classes_ t !! k = Some d -> slot_size d <= max_object_size t.
Proof.
  intros (Hl & _) Hk. unfold max_object_size. destruct (list.last (classes_ t)) as [d'|] eqn:E.
  - by eapply layout_ok_last.
  - apply last_None in E. by rewrite E in Hk.
Qed.

(** The memory of the object [h], header and payload, from the start of the region. *)
Definition object_begin (h : ShmHandle) : Z := offset h.
Definition object_end (h : ShmHandle) (hd : SlabHeader) : Z := offset h + kSlabHeaderSize + capacity hd.

Lemma names_memory s h i : slab_ok s -> names s h i ->
  object_begin h = handle_offset_bias_ (facade s) + headers_offset_ (facade s) + i * slot_stride_ (facade s) /\
  object_end h (HeaderAt s i) <= object_begin h + slot_stride_ (facade s) /\
  object_begin h + slot_stride_ (facade s) <= handle_offset_bias_ (facade s) + data_region_size_ (facade s).
Proof.
  intros Hok Hn. pose proof (sk_shape s Hok) as Hs. pose proof Hn as (Hi & Eh & _).
  destruct (slot_offset s i Hs Hi) as [E1 E2]. destruct (so_facade s Hs) as [F1 F2 _ _ _ _].
  destruct (names_stamped _ _ _ Hok Hn) as [_ _ _ _ (cls & Hc & _ & _ & Hcap & _)].
  pose proof (class_fits _ _ _ F1 Hc) as Hle. cbn [slot slot_header] in Hcap.
  assert (object_begin h = handle_offset_bias_ (facade s) + headers_offset_ (facade s) + i * slot_stride_ (facade s))
    as Eb by (unfold object_begin; by rewrite Eh, <- E1).
  unfold object_end in *. fold (object_begin h). rewrite Hcap. split_and!; [done | lia | lia].
Qed.

(** C34: live objects own disjoint memory: after any calls each object lies inside the
    allocator, behind its metadata, on a cache line, its payload holds the object, and the
    header and payload of two objects do not overlap. *)
Theorem live_objects_disjoint base available mcap area scap rid bias cfg pl placement id slots mag s cs :
  creation_ok cfg available area bias slots ->
  CreateWithStorage base available mcap area scap rid bias cfg pl placement id slots mag = Ok s ->
  Forall call_ok cs ->
  forall h hd, object (run_calls cs s) h = Some hd ->
    bias + super_metadata_size (super_ (shared (run_calls cs s))) <= object_begin h /\
    (object_begin h - bias) mod 64 = 0 /\
    object_size hd <= capacity hd /\ object_end h hd <= bias + available /\
    forall h' hd', object (run_calls cs s) h' = Some hd' -> h' <> h ->
      object_end h hd <= object_begin h' \/ object_end h' hd' <= object_begin h.
Proof.
  intros Hc H Hcs h hd Ho.
  destruct (CreateWithStorage_ok _ _ _ _ _ _ _ _ _ _ _ _ _ _ Hc H) as (Hok & Hatt & E1 & E2 & _).
  pose proof (run_calls_moves cs s Hok Hcs) as M. set (t := run_calls cs s) in *.
  assert (slab_ok t) as Hok' by by eapply moves_ok. pose proof (attachable_moves _ _ Hatt M) as [_ (l & Hl & Hstr & Hmeta & Himg) Hal].
  rewrite <- (mv_facade _ _ M) in E1, E2. pose proof (sk_shape t Hok') as Hs.
  pose proof (ComputeLayout_fits _ _ _ (fo_table _ (so_facade t Hs)) Hl) as [_ _ _ _ [q Hq] _ _].
  apply object_Some in Ho as (i & Hn & ->); [|done]. destruct (names_memory _ _ _ Hok' Hn) as (B & E & R).
  destruct (names_stamped _ _ _ Hok' Hn) as [_ _ _ _ (cls & _ & _ & _ & Hcap & Hsz)]. cbn [slot slot_header] in Hcap, Hsz.
  assert (super_metadata_size (super_ (shared t)) = metadata_size l) as ->.
  { unfold image in Himg. by injection Himg. }
  pose proof Hn as ((Hi & _) & _). rewrite E1, E2 in *.
  pose proof (stride_positive _ (so_facade t Hs)) as Hpos. unfold kSlabHeaderSize in Hpos.
  split_and!; [nia | | lia | lia |].
  - rewrite B, Hstr, Hq. replace (_ - bias) with (headers_offset_ (facade t) + (i * q) * 64) by ring.
    by rewrite Z_mod_plus_full.
  - intros h' hd' Ho' Hne. apply object_Some in Ho' as (j & Hn' & ->); [|done].
    destruct (names_memory _ _ _ Hok' Hn') as (B' & E' & _).
    assert (i <> j) as Hij by (intros ->; by rewrite (names_handle _ _ _ _ Hn Hn') in Hne). rewrite E1 in B'.
    destruct (Z.lt_total i j) as [Hlt|[Heq|Hlt]]; [left; nia | done | right; nia].
Qed.

(** ** Recovery after a crash

    A process that dies inside [Allocate] or [ReclaimSlotExact] leaves a claimed bit whose
    state is free, allocating or reclaiming; the header may be half written. *)
Definition torn_state (v : Z) : bool := is_state v kFree || is_state v kAllocating || is_state v kReclaiming.
Definition torn (s : Slab) (i : Z) : bool := IsSetAt s i && torn_state (object_state (HeaderAt s i)).

Record slab_torn (s : Slab) : Prop := {
  tn_shape : shape_ok s;
  tn_slots : forall i, index_ok s i -> torn s i = false -> slot_ok (class_table_ (facade s)) i (slot s i)
}.

Definition torn_slots (s : Slab) : list Z :=
  List.filter (torn s) (Z.of_nat <$> seq 0 (Z.to_nat (total_slot_count s))).

(** The repair of one torn slot, with the state that was observed. *)
Definition repair (s : Slab) (i : Z) : SlabM unit := ClearSlotForRecovery i (object_state (HeaderAt s i)).

Lemma repair_run s0 s i s' r :
  shape_ok s -> index_ok s i -> slot s i = slot s0 i -> torn s0 i = true -> repair s0 i s = (s', r) ->
  r = Ok tt /\ at_slot i (freed (slot s i)) s s'.
Proof.
  intros Hs Hi Es Ht H. unfold torn in Ht. apply andb_true_iff in Ht as [Hb Hv].
  pose proof Es as Es'. unfold slot in Es'. injection Es' as E1 E2 E3. unfold repair, ClearSlotForRecovery in H.
  run_step H; run_step Hrun. rewrite <- E3 in *. rewrite <- E1 in Hb.
  rewrite (proj2 (Z.leb_gt (total_slot_count s) i)) in H by apply Hi.
  rewrite Hb, Z.eqb_refl in H. cbn [negb] in H.
  assert (exists s1, when (negb (is_state (object_state (HeaderAt s i)) kReclaiming)) (store_state i kReclaiming) s = (s1, Ok tt) /\
    at_slot i (mkSlot true (GenerationAt s i) (with_state (HeaderAt s i) (state_value kReclaiming))) s s1) as (s1 & Hw & Hat).
  { unfold when. destruct (is_state (object_state (HeaderAt s i)) kReclaiming) eqn:E; cbn [negb].
    - exists s. split; [done|]. apply is_state_eq in E. rewrite with_state_same by done. rewrite <- Hb. by apply at_slot_refl.
    - destruct (store_state i kReclaiming s) as [s1 r1] eqn:Hst. apply store_state_at in Hst as [-> Hat]; [|done|done].
      exists s1. rewrite Hb in Hat. done. }
  unfold bind at 1 in H. rewrite Hw in H.
  run_step H; apply store_state_at in Hrun as [Er Hst]; try (by apply Hat); try (by eapply at_slot_index); [|done].
  chain Hat Hst. rewrite with_state_twice in Hat.
  run_step H; apply attempt_run in Hrun as (x & Ex & Hcl); [injection Ex as ->|done].
  apply clear_bit_at in Hcl as [Hcl Hr]; [| by apply Hat | by eapply at_slot_index].
  destruct (at_slot_parts _ _ _ _ Hat) as (Ebit & _ & _). cbn [slot_bit] in Ebit.
  rewrite (Hr Ebit) in H. chain Hat Hcl. run_step H. done.
Qed.

(** Repairing distinct torn slots in any order. *)
Lemma repairs_run s0 l : forall s s' r,
  shape_ok s -> facade s = facade s0 -> NoDup l ->
  (forall i, i ∈ l -> index_ok s0 i /\ torn s0 i = true /\ slot s i = slot s0 i) ->
  for_each (repair s0) l s = (s', r) ->
  r = Ok tt /\ shape_ok s' /\ facade s' = facade s0 /\
  (forall j, 0 <= j -> j ∉ l -> slot s' j = slot s j) /\ (forall i, i ∈ l -> slot s' i = freed (slot s0 i)).
Proof.
  induction l as [|i rest IH]; intros s s' r Hs F Hnd Hl H; cbn [for_each] in H.
  { run_step H. split_and!; try done. intros i Hi. by apply not_elem_of_nil in Hi. }
  apply list.NoDup_cons in Hnd as [Hnew Hnd]. destruct (Hl i) as (Hi & Ht & Es); [left|].
  assert (index_ok s i) as Hi' by (unfold index_ok, total_slot_count in *; by rewrite F).
  run_step H; eapply repair_run in Hrun as [Er Hat]; try done.
  assert (forall j, j ∈ rest -> j <> i) as Hne by (intros j Hj ->; done).
  apply IH in H as (-> & Hs' & F' & Hk & Hfr); [| by apply Hat | by rewrite (as_facade _ _ _ _ Hat) | done |].
  - split_and!; [done | done | done | |].
    + intros j Hj Hni. apply not_elem_of_cons in Hni as [Hji Hni].
      rewrite Hk by done. by apply (as_others _ _ _ _ Hat).
    + intros j [->|Hj]%elem_of_cons; [|by apply Hfr].
      rewrite Hk by (done || destruct Hi; lia). by rewrite (as_slot _ _ _ _ Hat), Es.
  - intros j Hj. destruct (Hl j) as (Hj1 & Hj2 & Hj3); [by right|]. split_and!; [done | done |].
    rewrite <- Hj3. apply (as_others _ _ _ _ Hat); [destruct Hj1; lia | by apply Hne].
Qed.

Lemma torn_slots_spec s i : i ∈ torn_slots s <-> index_ok s i /\ torn s i = true.
Proof.
  unfold torn_slots. rewrite list_elem_of_In, List.filter_In, <- list_elem_of_In, list_elem_of_fmap.
  unfold index_ok. split.
  - intros [(k & -> & Hk) Ht]. apply elem_of_seq in Hk. split; [lia | done].
  - intros [Hi Ht]. split; [|done]. exists (Z.to_nat i). split; [lia|]. apply elem_of_seq. lia.
Qed.

Lemma torn_slots_nodup s : NoDup (torn_slots s).
Proof.
  unfold torn_slots. apply NoDup_ListNoDup, List.NoDup_filter, NoDup_ListNoDup.
  apply list.NoDup_fmap; [apply _ | apply NoDup_seq].
Qed.

(** Recovery repairs a crash: whatever a dying process left in the slots it was
    allocating or reclaiming, clearing each of them succeeds, the allocator is well
    formed again with the generation of every slot unchanged, and the objects in all other
    slots are untouched. *)
Theorem recovery_repairs_torn_slots s :
  slab_torn s ->
  let '(s', r) := for_each (repair s) (torn_slots s) s in
  r = Ok tt /\ slab_ok s' /\
  (forall i, index_ok s i -> GenerationAt s' i = GenerationAt s i /\
     (torn s i = true -> IsSetAt s' i = false /\ object_state (HeaderAt s' i) = state_value kFree)) /\
  forall h, (forall i, names s h i -> torn s i = false) -> object s' h = object s h.
Proof.
  intros [Hs Hsl]. destruct (for_each _ _ _) as [s' r] eqn:H.
  apply repairs_run in H as (-> & Hs' & F & Hk & Hfr);
    [| done | done | apply torn_slots_nodup | intros i Hi%torn_slots_spec; naive_solver].
  assert (forall i, index_ok s i -> torn s i = false -> slot s' i = slot s i) as Hkept.
  { intros i Hi Ht. apply Hk; [destruct Hi; lia|]. rewrite torn_slots_spec. intros [_ ?]. congruence. }
  assert (forall i, index_ok s i -> torn s i = true -> slot s' i = freed (slot s i)) as Hfreed
    by (intros i Hi Ht; apply Hfr, torn_slots_spec; done).
  split_and!; [done | split; [done|] | |].
  - intros i Hi. rewrite F. assert (index_ok s i) as Hi' by (unfold index_ok, total_slot_count in *; by rewrite <- F).
    destruct (torn s i) eqn:Et; [by rewrite Hfreed | rewrite Hkept by done; auto].
  - intros i Hi. destruct (torn s i) eqn:Et.
    + specialize (Hfreed i Hi Et). unfold slot, freed in Hfreed. injection Hfreed as E1 E2 E3.
      split; [done|]. intros _. split; [done|]. by rewrite E3.
    + specialize (Hkept i Hi Et). unfold slot in Hkept. injection Hkept as E1 E2 E3. done.
  - intros h Hh. apply object_kept; [done | done | done |]. intros j [Hn|Hn].
    + apply Hkept; [apply Hn | by apply Hh].
    + destruct Hn as (Hj & _ & Hb & _).
      assert (index_ok s j) as Hj' by (unfold index_ok, total_slot_count in *; by rewrite <- F).
      destruct (torn s j) eqn:Et; [|by apply Hkept]. specialize (Hfreed j Hj' Et).
      unfold slot, freed in Hfreed. injection Hfreed as E1 _ _. congruence.
Qed.

(** ** Concrete runs *)

Definition sample_thread : Thread := mkThread 77 2.
Definition root_request : AllocationRequest := mkRequest 40 9 (mkSchema 5 1) 8 3 11 kAllocationFlagTransactionRoot.
Definition child_request : AllocationRequest := mkRequest 200 10 (mkSchema 6 1) 16 3 11 kAllocationFlagTransactionChild.
Definition handle_of (r : Result ShmHandle) : ShmHandle :=
  match r with Ok h => h | Err _ => mkHandle 0 0 0 end.

(** The handles of a root and a child, and the calls that publish them. *)
Definition sample_root : ShmHandle := handle_of (snd (Allocate sample_thread root_request sample_slab)).
Definition root_allocated : list Call := [CallAllocate sample_thread root_request].
Definition sample_child : ShmHandle :=
  handle_of (snd (Allocate sample_thread child_request (run_calls root_allocated sample_slab))).
Definition both_allocated : list Call := root_allocated ++ [CallAllocate sample_thread child_request].
Definition publish_graph : list Call :=
  [CallBeginBuild sample_root; CallBeginBuild sample_child;
   CallPublishTransaction 3 11 [sample_root; sample_child] sample_root].
Definition sample_published : Slab := run_calls (both_allocated ++ publish_graph) sample_slab.

Lemma sample_graph_calls_ok : Forall call_ok (both_allocated ++ publish_graph).
Proof. repeat constructor; vm_compute; (discriminate || reflexivity). Qed.

Lemma sample_published_ok : slab_ok sample_published.
Proof. eapply moves_ok; [apply sample_ok | apply run_calls_moves; [apply sample_ok | apply sample_graph_calls_ok]]. Qed.

Example sample_states :
  object_state <$> object sample_published sample_root = Some (state_value kPublished) /\
  object_state <$> object sample_published sample_child = Some (state_value kPublished).
Proof. vm_compute. split; reflexivity. Qed.

(** The guard of a pin table that admits four questions: a pin is taken while the call runs. *)
Definition changing_guard (n : nat) (h : ShmHandle) : bool := Nat.ltb n 4.
Definition sample_guarded : Slab := run_calls [CallSetGuard (Some changing_guard)] sample_published.

Lemma published_graph_reclaimed_root_last_witness :
  (let '(s', r) := ReclaimPublishedGraph sample_root [sample_root; sample_child] sample_published in
   r = Ok tt /\ object sample_published sample_child <> None /\ object s' sample_root = None /\ object s' sample_child = None) /\
  (let '(s', r) := ReclaimPublishedGraph sample_root [sample_root; sample_child] sample_guarded in
   is_ok r = false /\ object s' sample_child = None /\
   object_state <$> object s' sample_root = Some (state_value kRetired)).
Proof.
  split.
  - destruct (ReclaimPublishedGraph _ _ _) as [s' r] eqn:E.
    pose proof (published_graph_reclaimed_root_last _ _ _ _ _ sample_published_ok E) as H.
    assert (r = Ok tt) as -> by (apply (f_equal snd) in E; vm_compute in E; exact (eq_sym E)).
    destruct H as (_ & _ & _ & H). split; [reflexivity|]. split; [vm_compute; discriminate|].
    rewrite !H. rewrite !decide_True by (rewrite ?elem_of_cons; tauto). split; reflexivity.
  - vm_compute. split_and!; reflexivity.
Defined.

Definition reallocate : list Call := [CallAbort sample_root; CallAllocate sample_thread root_request].

(** The root is aborted and its slot allocated again. *)
Lemma reclaimed_handle_never_revived_witness :
  object (run_calls both_allocated sample_slab) sample_root <> None /\
  object (run_calls reallocate (run_calls [CallAbort sample_root] (run_calls both_allocated sample_slab))) sample_root = None.
Proof.
  split; [vm_compute; discriminate|].
  apply (reclaimed_handle_never_revived [CallAbort sample_root] reallocate (run_calls both_allocated sample_slab)).
  - eapply moves_ok; [apply sample_ok | apply run_calls_moves; [apply sample_ok |]].
    repeat constructor; vm_compute; (discriminate || reflexivity).
  - repeat constructor.
  - repeat constructor; vm_compute; (discriminate || reflexivity).
  - vm_compute. discriminate.
  - vm_compute. reflexivity.
Defined.

Lemma object_stamp_immutable_witness :
  exists hd hd', object (run_calls both_allocated sample_slab) sample_root = Some hd /\
    object (run_calls publish_graph (run_calls both_allocated sample_slab)) sample_root = Some hd' /\
    hd' = with_state hd (object_state hd') /\ object_state hd' <> object_state hd.
Proof.
  destruct (object (run_calls both_allocated sample_slab) sample_root) as [hd|] eqn:E;
    [|vm_compute in E; discriminate E].
  destruct (object (run_calls publish_graph (run_calls both_allocated sample_slab)) sample_root) as [hd'|] eqn:E';
    [|vm_compute in E'; discriminate E'].
  exists hd, hd'. split; [reflexivity|]. split; [reflexivity|]. split.
  - refine (proj1 (object_stamp_immutable publish_graph _ _ _ _ _ _ E E')).
    + eapply moves_ok; [apply sample_ok | apply run_calls_moves; [apply sample_ok |]].
      repeat constructor; vm_compute; (discriminate || reflexivity).
    + repeat constructor.
  - vm_compute in E, E'. injection E as <-. injection E' as <-. vm_compute. discriminate.
Defined.

Lemma allocate_fresh_witness :
  object (run_calls root_allocated sample_slab) sample_child = None /\
  object_size <$> object (fst (Allocate sample_thread child_request (run_calls root_allocated sample_slab))) sample_child = Some 200.
Proof.
  destruct (Allocate sample_thread child_request (run_calls root_allocated sample_slab)) as [s' r] eqn:E.
  assert (r = Ok sample_child) as -> by (apply (f_equal snd) in E; vm_compute in E; vm_compute; exact (eq_sym E)).
  pose proof (allocate_fresh sample_thread child_request root_allocated sample_slab
    (run_calls root_allocated sample_slab) s' (Ok sample_child) (proj1 sample_ok)) as H.
  destruct H as (H1 & _ & (hd & H2 & _ & H3 & _) & _); [ | reflexivity | | exact E |].
  - repeat constructor; vm_compute; (discriminate || reflexivity).
  - split; vm_compute; (split; [discriminate | reflexivity]).
  - split; [exact H1|]. cbn [fst]. rewrite H2. cbn. rewrite H3. reflexivity.
Defined.

Lemma lifecycle_calls_follow_state_witness :
  follows (fun o => bool_decide (o = kRetired) || edge o kRetired) kRetired sample_published sample_root
    (Retire sample_root sample_published) /\ is_ok (snd (Retire sample_root sample_published)) = true.
Proof.
  split; [|vm_compute; reflexivity].
  exact (proj2 (proj2 (lifecycle_calls_follow_state sample_published sample_root sample_published_ok))).
Defined.

Lemma slab_calls_invariant_witness : slab_ok (run_calls (both_allocated ++ publish_graph) sample_slab).
Proof. exact (slab_calls_invariant _ _ _ _ _ _ _ _ _ _ _ _ _ _ _ sample_creation_ok sample_created sample_graph_calls_ok). Defined.

(** Another process maps the memory elsewhere and finds the published root. *)
Lemma attach_equals_create_witness :
  exists s', AttachWithBias (Some 8192) (shared sample_published) 65536 1024 (Ok sample_topology) 2 new_magazine = Ok s' /\
    object s' sample_root = object sample_published sample_root.
Proof.
  destruct (attach_equals_create _ _ _ _ _ _ _ _ _ _ _ _ _ _ _ 8192 65536 (Ok sample_topology) 2 new_magazine
    sample_creation_ok sample_created sample_graph_calls_ok) as (s' & H & _ & _ & _ & Ho); [reflexivity | lia |].
  exists s'. split; [exact H | apply Ho].
Defined.

(** A process that dies in [ReclaimSlotExact] once it has marked the slot of the root. *)
Definition root_slot : Z :=
  match ResolveLocked sample_published sample_root with Ok i => i | Err _ => 0 end.
Definition sample_torn : Slab := fst (store_state root_slot kReclaiming sample_published).

(** Interrupting a call at a slot tears at most that slot. *)
Lemma interrupted_torn s i o : slab_ok s -> index_ok s i -> IsSetAt s i = true ->
  torn_state (state_value o) = true -> slab_torn (fst (store_state i o s)).
Proof.
  intros Hok Hi Hb Ho. destruct (store_state i o s) as [s' r] eqn:E. cbn [fst].
  destruct (store_state_at _ _ _ _ _ (sk_shape _ Hok) Hi E) as [_ Hat].
  destruct (at_slot_parts _ _ _ _ Hat) as (Eb & Eg & Eh). split; [apply Hat|]. intros j Hj Ht.
  destruct (decide (j = i)) as [->|Hne].
  - exfalso. unfold torn in Ht. rewrite Eb, Eh in Ht. cbn in Ht. by rewrite Hb, Ho in Ht.
  - rewrite (as_others _ _ _ _ Hat j) by (done || apply Hj). rewrite (as_facade _ _ _ _ Hat). apply Hok.
    unfold index_ok, total_slot_count in *. by rewrite (as_facade _ _ _ _ Hat) in Hj.
Qed.

Lemma sample_torn_ok : slab_torn sample_torn.
Proof.
  apply interrupted_torn; [apply sample_published_ok | | |]; vm_compute; [|reflexivity|reflexivity].
  split; [discriminate | reflexivity].
Qed.

Lemma recovery_repairs_torn_slots_witness :
  torn_slots sample_torn = [root_slot] /\
  let '(s', r) := for_each (repair sample_torn) (torn_slots sample_torn) sample_torn in
  r = Ok tt /\ IsSetAt s' root_slot = false.
Proof.
  split; [vm_compute; reflexivity|].
  pose proof (recovery_repairs_torn_slots sample_torn sample_torn_ok) as H.
  destruct (for_each _ _ _) as [s' r]. destruct H as (Hr & _ & H & _). split; [exact Hr|].
  refine (proj1 (proj2 (H root_slot _) _)); vm_compute; [split; [discriminate | reflexivity] | reflexivity].
Defined.

(** [Reclaim] takes the published root and its child; nothing was retired. *)
Lemma reclaim_root_takes_transaction_witness :
  object_state <$> object sample_published sample_root = Some (state_value kPublished) /\
  let '(s', r) := Reclaim sample_root sample_published in
  r = Ok tt /\ object s' sample_root = None /\ object s' sample_child = None.
Proof.
  split; [vm_compute; reflexivity|].
  destruct (object sample_published sample_root) as [hd|] eqn:E; [|vm_compute in E; discriminate E].
  destruct (object sample_published sample_child) as [hd'|] eqn:E'; [|vm_compute in E'; discriminate E'].
  destruct (Reclaim sample_root sample_published) as [s' r] eqn:H.
  assert (is_root hd = true) as Hr by (vm_compute in E; injection E as <-; reflexivity).
  assert ((owner_epoch hd' =? owner_epoch hd) && (allocation_transaction_id hd' =? allocation_transaction_id hd) = true)
    as Hsame by (vm_compute in E, E'; injection E as <-; injection E' as <-; reflexivity).
  destruct (reclaim_root_takes_transaction _ _ _ _ _ sample_published_ok eq_refl E Hr H) as [-> Ho].
  split; [reflexivity|]. rewrite !Ho, E, E', Hsame, !Z.eqb_refl. split; reflexivity.
Defined.

Lemma live_objects_disjoint_witness :
  let s := run_calls (both_allocated ++ publish_graph) sample_slab in
  exists hd hd', object s sample_root = Some hd /\ object s sample_child = Some hd' /\
    (object_end sample_root hd <= object_begin sample_child \/ object_end sample_child hd' <= object_begin sample_root).
Proof.
  pose proof (live_objects_disjoint _ _ _ _ _ _ _ _ _ _ _ _ _ _ _ sample_creation_ok sample_created sample_graph_calls_ok) as H.
  cbv zeta. destruct (object (run_calls _ _) sample_root) as [hd|] eqn:E; [|vm_compute in E; discriminate E].
  destruct (object (run_calls _ _) sample_child) as [hd'|] eqn:E'; [|vm_compute in E'; discriminate E'].
  exists hd, hd'. split; [reflexivity|]. split; [reflexivity|].
  apply (proj2 (proj2 (proj2 (proj2 (H _ _ E)))) _ _ E'). intros Heq. vm_compute in Heq. discriminate Heq.
Defined.
