(* ===== verification/WireAead.v ===== *)
(** * In-frame AEAD

    Models [mino/bridge/wire_aead.h] and [.cc]: key material, the keyring, and
    the sealing and opening of a payload as nonce, ciphertext and tag.
    OpenSSL is not code of the repository: [AeadProvider] is the random nonce
    source and the AES-256-GCM encryption and decryption the functions call,
    [AeadLaws] what OpenSSL documents of them. *)
From S2P Require Import Prelude Bytes.

Definition kWireAeadKeyLength : Z := 32.
Definition kWireAeadNonceLength : Z := 12.
Definition kWireAeadTagLength : Z := 16.
Definition kWireAeadOverhead : Z := kWireAeadNonceLength + kWireAeadTagLength.
(** [std::numeric_limits<int>::max()] *)
Definition int_max : Z := 2147483647.

(** ** Key material *)

Record WireAeadKeyMaterial : Type := mkKeyMaterial { key_ : list byte; empty_ : bool }.

Definition FromBytes (bytes : list byte) : Result WireAeadKeyMaterial :=
  fail_if negb (zlen bytes =? kWireAeadKeyLength) with Invalid "AEAD key must be 32 bytes" ;;
  Ok (mkKeyMaterial bytes false).

(** [Clear], and the state in which a move leaves its source. *)
Definition ClearMaterial (m : WireAeadKeyMaterial) : WireAeadKeyMaterial :=
  mkKeyMaterial (replicate (length (key_ m)) Byte.x00) true.

Record WireAeadKey : Type := mkKey { key_id : Z; material : WireAeadKeyMaterial }.

(** ** The keyring *)

Record WireAeadKeyring : Type := mkKeyring {
  encode_key_id_ : option Z;
  keys_ : gmap Z WireAeadKeyMaterial
}.

Definition empty_keyring : WireAeadKeyring := mkKeyring None ∅.

Definition SetEncodeKey (r : WireAeadKeyring) (key : WireAeadKey) : Result WireAeadKeyring :=
  fail_if empty_ (material key) with Invalid "AEAD encode key material is empty" ;;
  fail_if key_id key =? 0 with Invalid "AEAD key_id must be non-zero" ;;
  Ok (mkKeyring (Some (key_id key)) (<[key_id key := material key]> (keys_ r))).

Definition AddDecodeKey (r : WireAeadKeyring) (key : WireAeadKey) : Result WireAeadKeyring :=
  fail_if empty_ (material key) with Invalid "AEAD decode key material is empty" ;;
  fail_if key_id key =? 0 with Invalid "AEAD key_id must be non-zero" ;;
  Ok (mkKeyring (encode_key_id_ r) (<[key_id key := material key]> (keys_ r))).

Definition ClearKeyring (r : WireAeadKeyring) : WireAeadKeyring := mkKeyring None ∅.

Definition FindKey (r : WireAeadKeyring) (id : Z) : option WireAeadKeyMaterial :=
  match keys_ r !! id with
  | None => None
  | Some m => if empty_ m then None else Some m
  end.

(** The key and the id written through the out-parameter. *)
Definition EncodeKey (r : WireAeadKeyring) : option (Z * WireAeadKeyMaterial) :=
  match encode_key_id_ r with
  | None => None
  | Some id => match FindKey r id with
               | None => None
               | Some m => Some (id, m)
               end
  end.

(** ** Sealing and opening *)

Class AeadProvider : Type := {
  RAND_bytes : Z -> option (list byte);
  (** Key, nonce, AAD, plaintext: ciphertext and tag. *)
  evp_encrypt : list byte -> list byte -> list byte -> list byte -> Result (list byte * list byte);
  (** Key, nonce, AAD, ciphertext, tag: plaintext. *)
  evp_decrypt : list byte -> list byte -> list byte -> list byte -> list byte -> Result (list byte)
}.

Class AeadLaws (P : AeadProvider) : Prop := {
  rand_length : forall n l, 0 <= n -> RAND_bytes n = Some l -> zlen l = n;
  evp_tag_length : forall k n a p c t, evp_encrypt k n a p = Ok (c, t) -> zlen t = kWireAeadTagLength;
  (** Decryption inverts encryption under the same key, nonce and AAD. *)
  evp_correct : forall k n a p c t, evp_encrypt k n a p = Ok (c, t) -> evp_decrypt k n a c t = Ok p
}.

Section Seal.
Context {P : AeadProvider}.

Definition SealWireAead (key : WireAeadKeyMaterial) (aad plaintext : list byte)
  : Result (list byte) :=
  fail_if empty_ key with Invalid "AEAD key material is empty" ;;
  fail_if int_max - kWireAeadOverhead <? zlen plaintext
    with Resource "AEAD plaintext exceeds OpenSSL length limits" ;;
  fail_if int_max <? zlen aad with Resource "AEAD AAD exceeds OpenSSL length limits" ;;
  match RAND_bytes kWireAeadNonceLength with
  | None => Err (Internal "AEAD nonce generation failed")
  | Some nonce =>
      let! ct := evp_encrypt (key_ key) nonce aad plaintext in
      fail_if negb (zlen ct.1 =? zlen plaintext)
        with Internal "AEAD ciphertext length mismatch" ;;
      Ok (nonce ++ ct.1 ++ ct.2)
  end.

(** The plaintext written to [plaintext_out], whose size is [out_size]. *)
Definition OpenWireAead (key : WireAeadKeyMaterial) (aad sealed : list byte) (out_size : Z)
  : Result (list byte) :=
  fail_if empty_ key with Invalid "AEAD key material is empty" ;;
  fail_if zlen sealed <? kWireAeadOverhead with Corruption "AEAD sealed payload is truncated" ;;
  let plaintext_size := zlen sealed - kWireAeadOverhead in
  fail_if negb (out_size =? plaintext_size)
    with Internal "AEAD plaintext buffer size mismatch" ;;
  fail_if (int_max <? plaintext_size) || (int_max <? zlen aad)
    with Resource "AEAD OpenSSL length limits exceeded" ;;
  let n := Z.to_nat kWireAeadNonceLength in
  let p := Z.to_nat plaintext_size in
  let! plaintext := evp_decrypt (key_ key) (take n sealed) aad
                      (subspan sealed n p) (drop (n + p) sealed) in
  fail_if negb (zlen plaintext =? plaintext_size)
    with Internal "AEAD plaintext length mismatch" ;;
  Ok plaintext.
End Seal.

(** ** Properties *)

(** What the keyring's operations maintain: ids are nonzero, stored material is
    usable, and the encode id names a stored key. *)
Record keyring_wf (r : WireAeadKeyring) : Prop := {
  kw_keys : forall id m, keys_ r !! id = Some m -> id <> 0 /\ empty_ m = false;
  kw_encode : forall id, encode_key_id_ r = Some id -> is_Some (keys_ r !! id)
}.

Lemma keyring_insert_wf r id m e :
  keyring_wf r -> id <> 0 -> empty_ m = false -> e = Some id \/ e = encode_key_id_ r ->
  keyring_wf (mkKeyring e (<[id := m]> (keys_ r))).
Proof.
  intros [Hk He] Hid Hm Hor. split; simpl.
  - intros id' m' [[-> ->]|[Hne Hl]]%lookup_insert_Some; [done|]. by eapply Hk.
  - intros id' ->. apply lookup_insert_is_Some'. destruct Hor as [[=->]|Hor]; [by left|].
    right. by apply He.
Qed.

Lemma FindKey_wf r id : keyring_wf r -> FindKey r id = keys_ r !! id.
Proof.
  intros [Hk _]. unfold FindKey. destruct (keys_ r !! id) as [m|] eqn:E; [|done].
  by destruct (Hk _ _ E) as [_ ->].
Qed.

Lemma SealWireAead_length {P : AeadProvider} {PL : AeadLaws P} key aad p s :
  SealWireAead key aad p = Ok s -> zlen s = zlen p + kWireAeadOverhead.
Proof.
  unfold SealWireAead. intros H. do 3 step_if.
  destruct (RAND_bytes _) as [nonce|] eqn:Er; [|done].
  apply bindR_Ok in H as ([c t] & He & H). simpl in H. step_if. inv_ok. bool_to_prop.
  apply rand_length in Er; [|done]. apply evp_tag_length in He.
  unfold zlen, kWireAeadOverhead in *. rewrite !length_app. lia.
Qed.

(** Opening inverts sealing under the same key and AAD. *)
Lemma open_seal {P : AeadProvider} {PL : AeadLaws P} key aad p s :
  SealWireAead key aad p = Ok s -> OpenWireAead key aad s (zlen p) = Ok p.
Proof.
  intros H. pose proof (SealWireAead_length _ _ _ _ H) as Hlen.
  unfold SealWireAead in H. unfold OpenWireAead. do 3 step_if.
  destruct (RAND_bytes _) as [nonce|] eqn:Er; [|done].
  apply bindR_Ok in H as ([c t] & He & H). simpl in H. step_if. inv_ok. bool_to_prop.
  apply rand_length in Er; [|done]. pose proof (evp_tag_length _ _ _ _ _ _ He).
  rewrite Hlen. pose proof (Zle_0_nat (length p)). fold (zlen p) in *.
  unfold int_max in *. assert (kWireAeadOverhead = 28) as Ho by done.
  cbv beta iota zeta. do 3 pass_guard.
  replace (zlen p + kWireAeadOverhead - kWireAeadOverhead) with (zlen p) by lia.
  replace (Z.to_nat kWireAeadNonceLength) with (length nonce) by (unfold zlen in Er; lia).
  replace (Z.to_nat (zlen p)) with (length c) by ulia.
  rewrite take_app_length. rewrite subspan_app_skip, Nat.sub_diag, subspan_app_here by lia.
  rewrite <- drop_drop, drop_app_length, drop_app_length.
  apply evp_correct in He. rewrite He. simpl. rewrite Z.eqb_refl. done.
Qed.

(** A sequence of keyring calls; a refused call leaves the keyring alone. *)
Inductive KeyringOp : Type :=
| OpSetEncodeKey (key : WireAeadKey)
| OpAddDecodeKey (key : WireAeadKey)
| OpClear.

Definition run_op (r : WireAeadKeyring) (op : KeyringOp) : WireAeadKeyring :=
  match op with
  | OpSetEncodeKey key => match SetEncodeKey r key with Ok r' => r' | Err _ => r end
  | OpAddDecodeKey key => match AddDecodeKey r key with Ok r' => r' | Err _ => r end
  | OpClear => ClearKeyring r
  end.

Lemma SetEncodeKey_Ok r key r' :
  SetEncodeKey r key = Ok r' <->
  empty_ (material key) = false /\ key_id key <> 0 /\
  r' = mkKeyring (Some (key_id key)) (<[key_id key := material key]> (keys_ r)).
Proof.
  unfold SetEncodeKey. destruct (empty_ _); [split; [done|by intros [? _]]|].
  destruct (Z.eqb_spec (key_id key) 0); split; intros H; try by inv_ok.
  - by destruct H as (_ & ? & _).
  - by destruct H as (_ & _ & ->).
Qed.

Lemma AddDecodeKey_Ok r key r' :
  AddDecodeKey r key = Ok r' <->
  empty_ (material key) = false /\ key_id key <> 0 /\
  r' = mkKeyring (encode_key_id_ r) (<[key_id key := material key]> (keys_ r)).
Proof.
  unfold AddDecodeKey. destruct (empty_ _); [split; [done|by intros [? _]]|].
  destruct (Z.eqb_spec (key_id key) 0); split; intros H; try by inv_ok.
  - by destruct H as (_ & ? & _).
  - by destruct H as (_ & _ & ->).
Qed.

Lemma run_op_wf r op : keyring_wf r -> keyring_wf (run_op r op).
Proof.
  intros Hr. destruct op as [key|key|]; simpl.
  - destruct (SetEncodeKey r key) eqn:E; [|done].
    apply SetEncodeKey_Ok in E as (? & ? & ->). apply keyring_insert_wf; auto.
  - destruct (AddDecodeKey r key) eqn:E; [|done].
    apply AddDecodeKey_Ok in E as (? & ? & ->). apply keyring_insert_wf; auto.
  - by split.
Qed.

Lemma run_ops_wf ops : forall r, keyring_wf r -> keyring_wf (foldl run_op r ops).
Proof.
  induction ops as [|op ops IH]; intros r Hr; [done|]. by apply IH, run_op_wf.
Qed.

Lemma empty_keyring_wf : keyring_wf empty_keyring.
Proof. by split. Qed.

(** The encode key is the stored key of the encode id. *)
Lemma EncodeKey_wf r :
  keyring_wf r ->
  EncodeKey r = match encode_key_id_ r with
                | None => None
                | Some id => (fun m => (id, m)) <$> keys_ r !! id
                end.
Proof.
  intros Hr. unfold EncodeKey. destruct (encode_key_id_ r); [|done].
  rewrite FindKey_wf by done. by destruct (keys_ r !! _).
Qed.

(** After any sequence of keyring calls, the encode id (when there is
    one) names a usable key with a nonzero id; installing an encode key makes it
    the encode key, changes no other decode key, and fails exactly on empty
    material or id zero; adding a decode key with another id than the encode
    key's leaves the encode key as it was. *)
Theorem keyring_calls_spec (ops : list KeyringOp) (key : WireAeadKey) :
  let r := foldl run_op empty_keyring ops in
  keyring_wf r /\
  (is_Some (encode_key_id_ r) <-> is_Some (EncodeKey r)) /\
  (is_ok (SetEncodeKey r key) = negb (empty_ (material key)) && negb (key_id key =? 0)) /\
  (forall r', SetEncodeKey r key = Ok r' ->
     EncodeKey r' = Some (key_id key, material key) /\
     forall id, FindKey r' id = if decide (id = key_id key) then Some (material key)
                                else FindKey r id) /\
  (forall r', AddDecodeKey r key = Ok r' ->
     (forall id, FindKey r' id = if decide (id = key_id key) then Some (material key)
                                 else FindKey r id) /\
     (encode_key_id_ r <> Some (key_id key) -> EncodeKey r' = EncodeKey r)).
Proof.
  intros r. assert (keyring_wf r) as Hr by apply run_ops_wf, empty_keyring_wf.
  split; [done|]. split; [|split].
  - rewrite EncodeKey_wf by done. destruct (encode_key_id_ r) as [id|] eqn:E.
    + rewrite fmap_is_Some. split; [|by eauto]. intros _. by apply Hr.
    + by split; intros [? ?].
  - unfold SetEncodeKey. destruct (empty_ _); [done|]. by destruct (key_id key =? 0).
  - assert (Hf : forall e, keyring_wf (mkKeyring e (<[key_id key:=material key]> (keys_ r))) ->
      forall id, FindKey (mkKeyring e (<[key_id key:=material key]> (keys_ r))) id
      = if decide (id = key_id key) then Some (material key) else FindKey r id).
    { intros e He id. rewrite !FindKey_wf by done. simpl. rewrite lookup_insert. by repeat case_decide. }
    split; intros r' H.
    + apply SetEncodeKey_Ok in H as (? & ? & ->).
      assert (keyring_wf (mkKeyring (Some (key_id key)) (<[key_id key:=material key]> (keys_ r))))
        by (apply keyring_insert_wf; auto).
      split; [|by apply Hf]. rewrite EncodeKey_wf by done. simpl. by rewrite lookup_insert_eq.
    + apply AddDecodeKey_Ok in H as (? & ? & ->).
      assert (keyring_wf (mkKeyring (encode_key_id_ r) (<[key_id key:=material key]> (keys_ r))))
        by (apply keyring_insert_wf; auto).
      split; [by apply Hf|]. intros Hne. rewrite !EncodeKey_wf by done. simpl.
      destruct (encode_key_id_ r); [|done]. by rewrite lookup_insert_ne by congruence.
Qed.

(** A provider that satisfies the laws: the identity cipher with a zero tag. *)
Definition identity_provider : AeadProvider := {|
  RAND_bytes n := Some (replicate (Z.to_nat n) Byte.x00);
  evp_encrypt _ _ _ p := Ok (p, replicate 16 Byte.x00);
  evp_decrypt _ _ _ c _ := Ok c |}.

Lemma identity_laws : AeadLaws identity_provider.
Proof.
  split; simpl.
  - intros n l Hn [= <-]. unfold zlen. rewrite length_replicate. lia.
  - by intros k n a p c t [= <- <-].
  - by intros k n a p c t [= <- <-].
Qed.

(** Sealing a payload yields the nonce, ciphertext and tag, 28 bytes more
    than the payload, and opening it with the same key and AAD into a buffer of
    the payload's size gives the payload back; opening into a buffer of any
    other size is refused. *)
Theorem seal_open_round_trip (P : AeadProvider) (PL : AeadLaws P)
    (key : WireAeadKeyMaterial) (aad plaintext sealed : list byte) (out_size : Z) :
  SealWireAead key aad plaintext = Ok sealed ->
  zlen sealed = zlen plaintext + 28 /\
  OpenWireAead key aad sealed (zlen plaintext) = Ok plaintext /\
  (out_size <> zlen plaintext -> is_ok (OpenWireAead key aad sealed out_size) = false).
Proof.
  intros H. pose proof (SealWireAead_length _ _ _ _ H) as Hl.
  split_and!; [done | by apply open_seal|]. intros Hne. unfold OpenWireAead.
  destruct (empty_ key); [done|]. destruct (_ <? _); [done|].
  cbv zeta. rewrite Hl. destruct (Z.eqb_spec out_size (zlen plaintext + kWireAeadOverhead - kWireAeadOverhead)) as [E|E]; [lia|done].
Qed.

Definition sample_key : WireAeadKeyMaterial := mkKeyMaterial (replicate 32 Byte.x2a) false.

Lemma seal_open_round_trip_witness :
  exists sealed, @SealWireAead identity_provider sample_key [] [Byte.x41; Byte.x42] = Ok sealed /\
    @OpenWireAead identity_provider sample_key [] sealed 2 = Ok [Byte.x41; Byte.x42].
Proof.
  eexists. split; [vm_compute; reflexivity|].
  apply (seal_open_round_trip identity_provider identity_laws sample_key []
           [Byte.x41; Byte.x42] _ 0). vm_compute. reflexivity.
Defined.

(** [AddDecodeKey] is documented not to change the encode key.  Under the id of
    the current encode key it replaces the material that encoding uses. *)
Lemma add_decode_key_replaces_encode_key :
  exists r1 r2 other,
    SetEncodeKey empty_keyring (mkKey 1 sample_key) = Ok r1 /\
    AddDecodeKey r1 (mkKey 1 other) = Ok r2 /\
    EncodeKey r1 = Some (1, sample_key) /\ EncodeKey r2 = Some (1, other) /\
    other <> sample_key.
Proof.
  exists (mkKeyring (Some 1) {[1 := sample_key]}).
  exists (mkKeyring (Some 1) {[1 := mkKeyMaterial (replicate 32 Byte.x07) false]}).
  exists (mkKeyMaterial (replicate 32 Byte.x07) false).
  by split_and!; vm_compute.
Qed.
