(* ===== verification/WireFrame.v ===== *)
(** * The canonical wire frame codec

    Models [mino/bridge/wire_frame.h] and the codec part of [wire_frame.cc]:
    the 80-byte header with its optional CRC or key id and trace context, the
    encoder, the header inspector, the decoder with its AEAD path, and the
    owning view.  The CRC is the class of [Crc32c], OpenSSL the class of
    [WireAead].  The bytes of the frame body are a list that every write
    updates in place; the stream prefix is a separate span of the same vector.
    [std::bad_alloc] is not modelled. *)
From S2P Require Import Prelude Bytes Crc32c WireAead.

Definition kWireFrameMagic : Z := 0x4d494e4f.
Definition kWireProtocolVersion : Z := 1.
Definition kLengthPrefixSize : nat := 4.
Definition kWireBaseHeaderLength : Z := 80.
Definition kWirePayloadCrcLength : Z := 4.
Definition kWireControlOpcodeLength : Z := 4.
Definition kWirePerfTraceContextLength : Z := 40.
Definition kWireMaximumHeaderLength : Z :=
  kWireBaseHeaderLength + kWirePayloadCrcLength + kWirePerfTraceContextLength.

(** ** Data *)

(** A value of the C++ enumeration is any 32-bit integer; the named ones are
    the known opcodes. *)
Inductive FrameType : Set :=
| kData | kSchemaAnnounce | kSchemaRequest | kAck | kHeartbeat
| kSessionHello | kSessionDiscovery | kSessionKeyShare
| kUnnamedFrameType (raw : Z).

#[export] Instance FrameType_eq_dec : EqDecision FrameType.
Proof. solve_decision. Defined.

(** [static_cast<uint32_t>(type)] and [static_cast<FrameType>(raw)] *)
Definition frame_type_value (t : FrameType) : Z :=
  match t with
  | kData => 0 | kSchemaAnnounce => 1 | kSchemaRequest => 2 | kAck => 3 | kHeartbeat => 4
  | kSessionHello => 5 | kSessionDiscovery => 6 | kSessionKeyShare => 7
  | kUnnamedFrameType raw => raw
  end.
Definition frame_type_of (raw : Z) : FrameType :=
  match raw with
  | 0 => kData | 1 => kSchemaAnnounce | 2 => kSchemaRequest | 3 => kAck | 4 => kHeartbeat
  | 5 => kSessionHello | 6 => kSessionDiscovery | 7 => kSessionKeyShare
  | _ => kUnnamedFrameType raw
  end.

Inductive FrameFlag : Set :=
| kPayloadCrcPresent | kAeadPresent | kCompressed | kControlFrame | kPerfTraceSampled.

Definition FlagValue (flag : FrameFlag) : Z :=
  match flag with
  | kPayloadCrcPresent => 1 | kAeadPresent => 2 | kCompressed => 4
  | kControlFrame => 8 | kPerfTraceSampled => 16
  end.
Definition kKnownFrameFlags : Z := 0x1f.

Definition HasFrameFlag (flags : Z) (flag : FrameFlag) : bool :=
  negb (Z.land flags (FlagValue flag) =? 0).

Record PerfTraceContext : Set := mkTrace {
  trace_id_high : Z; trace_id_low : Z; sample_flags : Z; clock_domain_id : Z;
  origin_wall_time_ns : Z; origin_monotonic_ns : Z
}.

Record WireFrameHeader : Set := mkHeader {
  frame_type : FrameType; flags : Z; topic_id : Z; msg_type : Z;
  connection_schema_ref : Z; schema_version : Z; layout_version : Z;
  source_node_id : Z; source_publisher_id : Z; source_publisher_epoch : Z;
  sequence_num : Z; timestamp_ns : Z; perf_trace : option PerfTraceContext
}.

Record WireFrame : Set := mkFrame { header : WireFrameHeader; payload : list byte }.

Record WireFrameLimits : Set := mkLimits {
  max_payload_length : Z; max_buffered_bytes : Z; max_frames_per_push : Z;
  max_decoded_payload_bytes_per_push : Z; max_work_bytes_per_push : Z
}.
Definition default_limits : WireFrameLimits :=
  mkLimits (16 * 1024 * 1024)
    (Z.of_nat kLengthPrefixSize + kWireMaximumHeaderLength + 16 * 1024 * 1024)
    1024 (64 * 1024 * 1024) (64 * 1024 * 1024).

(** ** Field offsets *)
Definition kMagicOffset : nat := 0.
Definition kVersionOffset : nat := 4.
Definition kFlagsOffset : nat := 6.
Definition kHeaderLengthOffset : nat := 8.
Definition kTopicIdOffset : nat := 12.
Definition kMsgTypeOffset : nat := 16.
Definition kConnectionSchemaRefOffset : nat := 20.
Definition kSchemaVersionOffset : nat := 24.
Definition kLayoutVersionOffset : nat := 28.
Definition kSourceNodeIdOffset : nat := 32.
Definition kSourcePublisherIdOffset : nat := 40.
Definition kSourcePublisherEpochOffset : nat := 48.
Definition kSequenceNumOffset : nat := 56.
Definition kTimestampNsOffset : nat := 64.
Definition kPayloadLengthOffset : nat := 72.
Definition kHeaderCrcOffset : nat := 76.
Definition kOptionalHeaderOffset : nat := 80.

(** ** Validation *)

Definition IsValidFrameType (t : FrameType) : bool :=
  match t with kUnnamedFrameType _ => false | _ => true end.

Definition CanonicalHeaderLength (flags : Z) : Z :=
  let length := kWireBaseHeaderLength in
  let length := if HasFrameFlag flags kPayloadCrcPresent || HasFrameFlag flags kAeadPresent
                then length + kWirePayloadCrcLength else length in
  if HasFrameFlag flags kPerfTraceSampled then length + kWirePerfTraceContextLength else length.

Definition ValidateFlags (flags : Z) (has_perf_trace encoding : bool) : Result unit :=
  let status (e d : string) := if encoding then Invalid e else Corruption d in
  fail_if negb (Z.land flags (Z.lnot kKnownFrameFlags) =? 0)
    with status "frame contains unknown flag bits"%string "frame contains unknown flag bits"%string ;;
  fail_if HasFrameFlag flags kAeadPresent && HasFrameFlag flags kPayloadCrcPresent
    with status "AEAD and payload CRC flags are mutually exclusive"%string
                "AEAD and payload CRC flags are mutually exclusive"%string ;;
  fail_if negb (Bool.eqb (HasFrameFlag flags kPerfTraceSampled) has_perf_trace)
    with status "PERF_TRACE_SAMPLED flag does not match trace data"%string
                "noncanonical PERF_TRACE_SAMPLED flag"%string ;;
  Ok tt.

Definition RequireAeadEncodeKey (aead : option WireAeadKeyring) (flags : Z) : Result unit :=
  if negb (HasFrameFlag flags kAeadPresent) then Ok tt
  else match aead with
       | None => Err (Invalid "AEAD key material is required")
       | Some ring => match EncodeKey ring with
                      | None => Err (Invalid "AEAD key material is required")
                      | Some _ => Ok tt
                      end
       end.

Definition BuildAeadAad (header clear_opcode : list byte) : list byte :=
  let aad := replicate (length header + length clear_opcode) Byte.x00 in
  let aad := copy_to header aad 0 in
  let aad := if Z.of_nat kHeaderCrcOffset + 4 <=? zlen aad
             then copy_to (replicate 4 Byte.x00) aad kHeaderCrcOffset else aad in
  match clear_opcode with
  | [] => aad
  | _ => copy_to clear_opcode aad (length header)
  end.

Definition ValidateFrameType (flags : Z) (t : FrameType) (encoding : bool) : Result unit :=
  fail_if negb (IsValidFrameType t)
    with (if encoding then Invalid "frame type is unknown" else Corruption "control opcode is unknown") ;;
  let is_control := negb (bool_decide (t = kData)) in
  fail_if negb (Bool.eqb (HasFrameFlag flags kControlFrame) is_control)
    with (if encoding then Invalid "CONTROL_FRAME flag does not match frame type"
          else Corruption "noncanonical control opcode") ;;
  Ok tt.

Definition ExceedsBudget (used amount limit : Z) : bool :=
  (limit <? used) || (limit - used <? amount).

Section Codec.
Context {B : Crc32cBackend} {P : AeadProvider}.

Definition HeaderCrc (header : list byte) : Z :=
  let accumulator := new_accumulator in
  let accumulator := Update accumulator (take kHeaderCrcOffset header) in
  let accumulator := Update accumulator (replicate 4 Byte.x00) in
  let accumulator := Update accumulator (drop (kHeaderCrcOffset + 4) header) in
  Finish accumulator.

Definition EncodeTrace (trace : PerfTraceContext) (output : list byte) (offset : nat)
  : list byte :=
  let output := WriteBe64 output offset (trace_id_high trace) in
  let output := WriteBe64 output (offset + 8) (trace_id_low trace) in
  let output := WriteBe32 output (offset + 16) (sample_flags trace) in
  let output := WriteBe32 output (offset + 20) (clock_domain_id trace) in
  let output := WriteBe64 output (offset + 24) (origin_wall_time_ns trace) in
  WriteBe64 output (offset + 32) (origin_monotonic_ns trace).

Definition DecodeTrace (input : list byte) (offset : nat) : PerfTraceContext :=
  mkTrace (ReadBe64 input offset) (ReadBe64 input (offset + 8))
    (ReadBe32 input (offset + 16)) (ReadBe32 input (offset + 20))
    (ReadBe64 input (offset + 24)) (ReadBe64 input (offset + 32)).

(** ** Encoding *)

Definition EncodedSize (h : WireFrameHeader) (payload_size : Z) (limits : WireFrameLimits)
    (aead : option WireAeadKeyring) : Result Z :=
  check! ValidateFlags (flags h) (bool_decide (is_Some (perf_trace h))) true ;;
  check! ValidateFrameType (flags h) (frame_type h) true ;;
  check! RequireAeadEncodeKey aead (flags h) ;;
  let control_length :=
    if HasFrameFlag (flags h) kControlFrame then kWireControlOpcodeLength else 0 in
  let aead_overhead := if HasFrameFlag (flags h) kAeadPresent then kWireAeadOverhead else 0 in
  fail_if u32_max - control_length - aead_overhead <? payload_size
    with Resource "wire payload exceeds max_payload_length" ;;
  let wire_payload_length := wrap32 (payload_size + control_length + aead_overhead) in
  fail_if max_payload_length limits <? wire_payload_length
    with Resource "wire payload exceeds max_payload_length" ;;
  let header_length := CanonicalHeaderLength (flags h) in
  fail_if u32_max - header_length <? wire_payload_length
    with Resource "encoded frame exceeds uint32 length prefix" ;;
  Ok (header_length + wire_payload_length).

(** The writes of the fixed fields, lines 259-278. *)
Definition write_fixed_fields (h : WireFrameHeader) (header_length wire_payload_length : Z)
    (body : list byte) : list byte :=
  let body := WriteBe32 body kMagicOffset kWireFrameMagic in
  let body := WriteBe16 body kVersionOffset kWireProtocolVersion in
  let body := WriteBe16 body kFlagsOffset (flags h) in
  let body := WriteBe32 body kHeaderLengthOffset header_length in
  let body := WriteBe32 body kTopicIdOffset (topic_id h) in
  let body := WriteBe32 body kMsgTypeOffset (msg_type h) in
  let body := WriteBe32 body kConnectionSchemaRefOffset (connection_schema_ref h) in
  let body := WriteBe32 body kSchemaVersionOffset (schema_version h) in
  let body := WriteBe32 body kLayoutVersionOffset (layout_version h) in
  let body := WriteBe64 body kSourceNodeIdOffset (source_node_id h) in
  let body := WriteBe64 body kSourcePublisherIdOffset (source_publisher_id h) in
  let body := WriteBe64 body kSourcePublisherEpochOffset (source_publisher_epoch h) in
  let body := WriteBe64 body kSequenceNumOffset (sequence_num h) in
  let body := WriteBe64 body kTimestampNsOffset (timestamp_ns h) in
  let body := WriteBe32 body kPayloadLengthOffset (wrap32 wire_payload_length) in
  WriteBe32 body kHeaderCrcOffset 0.

(** The optional header fields, with the offset after them, lines 280-289. *)
Definition write_optional_fields (h : WireFrameHeader) (has_payload_crc has_aead : bool)
    (aead_key_id : Z) (body : list byte) : list byte * nat :=
  let optional_offset := kOptionalHeaderOffset in
  let '(body, optional_offset) :=
    if has_payload_crc || has_aead
    then (WriteBe32 body optional_offset (if has_aead then aead_key_id else 0),
          (optional_offset + Z.to_nat kWirePayloadCrcLength)%nat)
    else (body, optional_offset) in
  match perf_trace h with
  | Some trace => (EncodeTrace trace body optional_offset,
                   (optional_offset + Z.to_nat kWirePerfTraceContextLength)%nat)
  | None => (body, optional_offset)
  end.

(** The payload, sealed or clear, and the CRCs, lines 309-340. *)
Definition finish_encode (frame : WireFrame) (key : option (Z * WireAeadKeyMaterial))
    (prefix : list byte) (hl : nat) (has_payload_crc : bool) (body clear_opcode : list byte)
    (payload_crc : Crc32cAccumulator) (payload_offset : nat) : Result (list byte) :=
  match key with
  | Some (_, aead_key) =>
      let body := WriteBe32 body kHeaderCrcOffset (HeaderCrc (take hl body)) in
      let aad := BuildAeadAad (take hl body) clear_opcode in
      let! sealed := SealWireAead aead_key aad (payload frame) in
      fail_if negb (zlen sealed =? zlen (payload frame) + kWireAeadOverhead)
        with Internal "AEAD sealed length mismatch" ;;
      Ok (prefix ++ copy_to sealed body payload_offset)
  | None =>
      let body :=
        if has_payload_crc
        then let '(payload_crc, written) :=
               CopyAndUpdate payload_crc (payload frame)
                 (subspan body payload_offset (length (payload frame))) in
             let body := copy_to written body payload_offset in
             WriteBe32 body kOptionalHeaderOffset (Finish payload_crc)
        else copy_to (payload frame) body payload_offset in
      Ok (prefix ++ WriteBe32 body kHeaderCrcOffset (HeaderCrc (take hl body)))
  end.

Definition EncodeWithPrefix (frame : WireFrame) (prefix_size : nat)
    (limits : WireFrameLimits) (aead : option WireAeadKeyring) : Result (list byte) :=
  let h := header frame in
  let! body_length := EncodedSize h (zlen (payload frame)) limits aead in
  let is_control := HasFrameFlag (flags h) kControlFrame in
  let has_payload_crc := HasFrameFlag (flags h) kPayloadCrcPresent in
  let has_aead := HasFrameFlag (flags h) kAeadPresent in
  let control_length := if is_control then kWireControlOpcodeLength else 0 in
  let aead_overhead := if has_aead then kWireAeadOverhead else 0 in
  let wire_payload_length := control_length + zlen (payload frame) + aead_overhead in
  let header_length := CanonicalHeaderLength (flags h) in
  let! key :=
    (if has_aead
     then match aead with
          | None => Err (Invalid "AEAD key material is required")
          | Some ring => match EncodeKey ring with
                         | None => Err (Invalid "AEAD key material is required")
                         | Some k => Ok (Some k)
                         end
          end
     else Ok None) in
  let aead_key_id := match key with Some (id, _) => id | None => 0 end in
  let prefix := replicate prefix_size Byte.x00 in
  let prefix := if Nat.eqb prefix_size 0 then prefix
                else WriteBe32 prefix 0 (wrap32 body_length) in
  let body := replicate (Z.to_nat body_length) Byte.x00 in
  let body := write_fixed_fields h header_length wire_payload_length body in
  let '(body, optional_offset) :=
    write_optional_fields h has_payload_crc has_aead aead_key_id body in
  fail_if negb (Z.of_nat optional_offset =? header_length)
    with Internal "canonical header construction mismatch" ;;
  let hl := Z.to_nat header_length in
  let payload_crc := new_accumulator in
  let payload_offset := hl in
  let '(body, clear_opcode, payload_crc, payload_offset) :=
    if is_control
    then let body := WriteBe32 body payload_offset (frame_type_value (frame_type h)) in
         let clear_opcode := subspan body payload_offset (Z.to_nat kWireControlOpcodeLength) in
         (body, clear_opcode,
          (if has_payload_crc then Update payload_crc clear_opcode else payload_crc),
          (payload_offset + Z.to_nat kWireControlOpcodeLength)%nat)
    else (body, [], payload_crc, payload_offset) in
  finish_encode frame key prefix hl has_payload_crc body clear_opcode payload_crc payload_offset.

Definition Encode (frame : WireFrame) (limits : WireFrameLimits)
    (aead : option WireAeadKeyring) : Result (list byte) :=
  EncodeWithPrefix frame 0 limits aead.
Definition EncodeLengthPrefixed (frame : WireFrame) (limits : WireFrameLimits)
    (aead : option WireAeadKeyring) : Result (list byte) :=
  EncodeWithPrefix frame kLengthPrefixSize limits aead.

(** ** Decoding *)

(** Where the decoded payload lives: inside the frame body, or in the
    separately owned plaintext. *)
Inductive PayloadSpan : Set :=
| InBody (offset size : nat)
| InOwned.

Record DecodedFrameParts : Set := mkParts {
  parts_header : WireFrameHeader;
  parts_payload : PayloadSpan;
  owned_plaintext : list byte;
  (** the frame body, after an in-place decryption *)
  parts_body : list byte
}.

(** The header fields read from their offsets. *)
Definition read_header (frame_body : list byte) (frame_type : FrameType) (flags : Z)
    (trace : option PerfTraceContext) : WireFrameHeader :=
  mkHeader frame_type flags (ReadBe32 frame_body kTopicIdOffset)
    (ReadBe32 frame_body kMsgTypeOffset) (ReadBe32 frame_body kConnectionSchemaRefOffset)
    (ReadBe32 frame_body kSchemaVersionOffset) (ReadBe32 frame_body kLayoutVersionOffset)
    (ReadBe64 frame_body kSourceNodeIdOffset) (ReadBe64 frame_body kSourcePublisherIdOffset)
    (ReadBe64 frame_body kSourcePublisherEpochOffset)
    (ReadBe64 frame_body kSequenceNumOffset) (ReadBe64 frame_body kTimestampNsOffset) trace.

(** Lines 355-404: everything up to the total length check. *)
Definition check_structure (frame_body : list byte) (limits : WireFrameLimits)
  : Result (Z * Z * Z) :=
  fail_if kWireMaximumHeaderLength + max_payload_length limits <? zlen frame_body
    with Resource "frame body exceeds configured maximum" ;;
  fail_if zlen frame_body <? kWireBaseHeaderLength
    with Corruption "frame is shorter than the base header" ;;
  fail_if negb (ReadBe32 frame_body kMagicOffset =? kWireFrameMagic)
    with Corruption "frame magic mismatch" ;;
  fail_if negb (ReadBe16 frame_body kVersionOffset =? kWireProtocolVersion)
    with Unsupported "unsupported wire protocol version" ;;
  let flags := ReadBe16 frame_body kFlagsOffset in
  let has_trace := HasFrameFlag flags kPerfTraceSampled in
  check! ValidateFlags flags has_trace false ;;
  let header_length := ReadBe32 frame_body kHeaderLengthOffset in
  fail_if negb (header_length =? CanonicalHeaderLength flags)
    with Corruption "noncanonical header_length" ;;
  fail_if zlen frame_body <? header_length with Corruption "truncated optional header" ;;
  let stored_header_crc := ReadBe32 frame_body kHeaderCrcOffset in
  fail_if negb (stored_header_crc =? HeaderCrc (take (Z.to_nat header_length) frame_body))
    with Corruption "header CRC32C mismatch" ;;
  let payload_length := ReadBe32 frame_body kPayloadLengthOffset in
  fail_if max_payload_length limits <? payload_length
    with Resource "wire payload exceeds max_payload_length" ;;
  Ok (flags, header_length, payload_length).

(** Lines 440-450: the control opcode, the bytes after it and their offset. *)
Definition decode_opcode (flags : Z) (wire_payload : list byte) (header_length : nat)
  : Result (FrameType * list byte * nat) :=
  if HasFrameFlag flags kControlFrame
  then fail_if zlen wire_payload <? kWireControlOpcodeLength
         with Corruption "control payload is missing its opcode" ;;
       let t := frame_type_of (ReadBe32 wire_payload 0) in
       check! ValidateFrameType flags t false ;;
       Ok (t, take (Z.to_nat kWireControlOpcodeLength) wire_payload,
           (header_length + Z.to_nat kWireControlOpcodeLength)%nat)
  else Ok (kData, [], header_length).

(** Lines 475-514: the AEAD payload.  [sealed_offset] is the offset of the
    sealed bytes in the body. *)
Definition open_payload (frame_body : list byte) (aead : option WireAeadKeyring)
    (in_place : bool) (h : WireFrameHeader) (aead_key_id : Z) (header_length : nat)
    (clear_opcode : list byte) (sealed_offset : nat) : Result DecodedFrameParts :=
  let decoded_payload := drop sealed_offset frame_body in
  match aead with
  | None => Err (Invalid "AEAD key material is required")
  | Some ring =>
      match FindKey ring aead_key_id with
      | None => Err (Invalid "AEAD key material is required")
      | Some key =>
          fail_if zlen decoded_payload <? kWireAeadOverhead
            with Corruption "AEAD sealed payload is truncated" ;;
          let plaintext_size := zlen decoded_payload - kWireAeadOverhead in
          let aad := BuildAeadAad (take header_length frame_body) clear_opcode in
          let! plaintext := OpenWireAead key aad decoded_payload plaintext_size in
          let at_ := (sealed_offset + Z.to_nat kWireAeadNonceLength)%nat in
          if in_place
          then Ok (mkParts h (InBody at_ (Z.to_nat plaintext_size)) []
                     (copy_to plaintext frame_body at_))
          else Ok (mkParts h InOwned plaintext frame_body)
      end
  end.

Definition DecodeFrameBody (frame_body : list byte) (limits : WireFrameLimits)
    (aead : option WireAeadKeyring) (in_place : bool) : Result DecodedFrameParts :=
  let! s := check_structure frame_body limits in
  let '(flags, header_length, payload_length) := s in
  let expected_body_length := header_length + payload_length in
  fail_if negb (expected_body_length =? zlen frame_body)
    with Corruption (if expected_body_length <? zlen frame_body
                     then "trailing bytes after frame payload"
                     else "truncated frame payload") ;;
  let hl := Z.to_nat header_length in
  let has_aead := HasFrameFlag flags kAeadPresent in
  let has_crc := HasFrameFlag flags kPayloadCrcPresent in
  let optional_offset := kOptionalHeaderOffset in
  let optional_field := ReadBe32 frame_body optional_offset in
  let stored_payload_crc := if has_crc then Some optional_field else None in
  let aead_key_id := if negb has_crc && has_aead then optional_field else 0 in
  let optional_offset :=
    if has_crc || has_aead then (optional_offset + Z.to_nat kWirePayloadCrcLength)%nat
    else optional_offset in
  fail_if negb has_crc && has_aead && (aead_key_id =? 0)
    with Corruption "AEAD key_id must be non-zero" ;;
  let has_trace := HasFrameFlag flags kPerfTraceSampled in
  let trace := if has_trace then Some (DecodeTrace frame_body optional_offset) else None in
  let optional_offset :=
    if has_trace then (optional_offset + Z.to_nat kWirePerfTraceContextLength)%nat
    else optional_offset in
  fail_if negb (Z.of_nat optional_offset =? header_length)
    with Corruption "noncanonical optional header fields" ;;
  let wire_payload := subspan frame_body hl (Z.to_nat payload_length) in
  fail_if match stored_payload_crc with
          | Some crc => negb (crc =? Crc32c wire_payload)
          | None => false
          end
    with Corruption "payload CRC32C mismatch" ;;
  let! o := decode_opcode flags wire_payload hl in
  let '(frame_type, clear_opcode, sealed_offset) := o in
  let h := read_header frame_body frame_type flags trace in
  if has_aead
  then open_payload frame_body aead in_place h aead_key_id hl clear_opcode sealed_offset
  else Ok (mkParts h (InBody sealed_offset (length (drop sealed_offset frame_body))) []
             frame_body).

(** [decoded->payload], as bytes. *)
Definition parts_payload_bytes (p : DecodedFrameParts) : list byte :=
  match parts_payload p with
  | InBody off n => subspan (parts_body p) off n
  | InOwned => owned_plaintext p
  end.

Definition InspectHeader (frame_body : list byte) (limits : WireFrameLimits)
  : Result WireFrameHeader :=
  let! s := check_structure frame_body limits in
  let '(flags, header_length, payload_length) := s in
  fail_if negb (header_length + payload_length =? zlen frame_body)
    with Corruption "frame body length does not match header" ;;
  let optional_offset := kOptionalHeaderOffset in
  let optional_offset :=
    if HasFrameFlag flags kPayloadCrcPresent || HasFrameFlag flags kAeadPresent
    then (optional_offset + Z.to_nat kWirePayloadCrcLength)%nat else optional_offset in
  let has_trace := HasFrameFlag flags kPerfTraceSampled in
  let trace := if has_trace then Some (DecodeTrace frame_body optional_offset) else None in
  let optional_offset :=
    if has_trace then (optional_offset + Z.to_nat kWirePerfTraceContextLength)%nat
    else optional_offset in
  fail_if negb (Z.of_nat optional_offset =? header_length)
    with Corruption "noncanonical optional header fields" ;;
  let! frame_type :=
    (if HasFrameFlag flags kControlFrame
     then fail_if payload_length <? kWireControlOpcodeLength
            with Corruption "control payload is missing its opcode" ;;
          Ok (frame_type_of (ReadBe32 (subspan frame_body (Z.to_nat header_length)
                                         (Z.to_nat payload_length)) 0))
     else Ok kData) in
  check! ValidateFrameType flags frame_type false ;;
  Ok (read_header frame_body frame_type flags trace).

(** [Decode] of a span: the payload is copied. *)
Definition Decode (frame_body : list byte) (limits : WireFrameLimits)
    (aead : option WireAeadKeyring) : Result WireFrame :=
  let! decoded := DecodeFrameBody frame_body limits aead false in
  Ok (mkFrame (parts_header decoded) (parts_payload_bytes decoded)).

(** ** The owning view *)

Record ValidatedWireFrameView : Set := mkView {
  view_header : WireFrameHeader;
  body_ : list byte;
  payload_offset_ : nat;
  payload_size_ : nat
}.

(** The [payload] span that [RebindPayload] keeps. *)
Definition RebindPayload (v : ValidatedWireFrameView) : list byte :=
  subspan (body_ v) (payload_offset_ v) (payload_size_ v).

Definition DecodeView (frame_body : list byte) (limits : WireFrameLimits)
    (aead : option WireAeadKeyring) : Result ValidatedWireFrameView :=
  let! decoded := DecodeFrameBody frame_body limits aead true in
  match owned_plaintext decoded, parts_payload decoded with
  | [], InBody off n => Ok (mkView (parts_header decoded) (parts_body decoded) off n)
  | owned, _ => Ok (mkView (parts_header decoded) owned 0 (length owned))
  end.

Definition IntoWireFrame (v : ValidatedWireFrameView) : WireFrame :=
  let payload :=
    if Nat.eqb (payload_offset_ v) 0 && Nat.eqb (payload_size_ v) (length (body_ v))
    then body_ v
    else if Nat.eqb (payload_size_ v) 0 then []
    else let body := if Nat.eqb (payload_offset_ v) 0 then body_ v
                     else drop (payload_offset_ v) (body_ v) in
         (* body_.resize(payload_size_) *)
         resize (payload_size_ v) Byte.x00 body in
  mkFrame (view_header v) payload.

(** [Decode] of an owned vector. *)
Definition DecodeOwned (frame_body : list byte) (limits : WireFrameLimits)
    (aead : option WireAeadKeyring) : Result WireFrame :=
  let! decoded := DecodeView frame_body limits aead in
  Ok (IntoWireFrame decoded).
End Codec.

(** ** The wire layout

    The frame body as a concatenation of its fields: what the encoder must
    produce and the decoder accept. *)

Definition zeros4 : list byte := replicate 4 Byte.x00.

Definition trace_bytes (t : PerfTraceContext) : list byte :=
  be_bytes 8 (trace_id_high t) ++ be_bytes 8 (trace_id_low t) ++
  be_bytes 4 (sample_flags t) ++ be_bytes 4 (clock_domain_id t) ++
  be_bytes 8 (origin_wall_time_ns t) ++ be_bytes 8 (origin_monotonic_ns t).

(** The 76 bytes before the header CRC. *)
Definition fixed_bytes (h : WireFrameHeader) (header_length payload_length : Z) : list byte :=
  be_bytes 4 kWireFrameMagic ++ be_bytes 2 kWireProtocolVersion ++ be_bytes 2 (flags h) ++
  be_bytes 4 header_length ++ be_bytes 4 (topic_id h) ++ be_bytes 4 (msg_type h) ++
  be_bytes 4 (connection_schema_ref h) ++ be_bytes 4 (schema_version h) ++
  be_bytes 4 (layout_version h) ++ be_bytes 8 (source_node_id h) ++
  be_bytes 8 (source_publisher_id h) ++ be_bytes 8 (source_publisher_epoch h) ++
  be_bytes 8 (sequence_num h) ++ be_bytes 8 (timestamp_ns h) ++ be_bytes 4 payload_length.

Definition optional_bytes (h : WireFrameHeader) (slot : option Z) : list byte :=
  from_option (be_bytes 4) [] slot ++ from_option trace_bytes [] (perf_trace h).

Definition header_image (h : WireFrameHeader) (payload_length : Z) (slot : option Z)
  : list byte :=
  let pre := fixed_bytes h (CanonicalHeaderLength (flags h)) payload_length in
  let post := optional_bytes h slot in
  pre ++ be_bytes 4 (crc32c_reference (pre ++ zeros4 ++ post)) ++ post.

(** The header with its CRC field zero and the clear opcode: the AAD. *)
Definition aad_image (h : WireFrameHeader) (payload_length : Z) (slot : option Z)
    (opcode : list byte) : list byte :=
  (fixed_bytes h (CanonicalHeaderLength (flags h)) payload_length ++ zeros4 ++
   optional_bytes h slot) ++ opcode.

Definition opcode_bytes (h : WireFrameHeader) : list byte :=
  if HasFrameFlag (flags h) kControlFrame then be_bytes 4 (frame_type_value (frame_type h))
  else [].

(** Body of a frame whose wire payload (after the opcode) is [content]. *)
Definition body_image (h : WireFrameHeader) (slot : option Z) (content : list byte) : list byte :=
  header_image h (zlen (opcode_bytes h ++ content)) slot ++ opcode_bytes h ++ content.

(** *** Lengths *)

Lemma trace_bytes_length t : length (trace_bytes t) = 40%nat.
Proof. unfold trace_bytes. by len_norm. Qed.

Lemma fixed_bytes_length h hl pl : length (fixed_bytes h hl pl) = 76%nat.
Proof. unfold fixed_bytes. by len_norm. Qed.

Lemma zeros4_length : length zeros4 = 4%nat.
Proof. done. Qed.

(** The slot is present exactly when one of the two flags asks for it, and the
    trace exactly when its flag does. *)
Definition layout_matches (h : WireFrameHeader) (slot : option Z) : Prop :=
  is_Some slot <-> HasFrameFlag (flags h) kPayloadCrcPresent || HasFrameFlag (flags h) kAeadPresent = true.
Definition trace_matches (h : WireFrameHeader) : Prop :=
  HasFrameFlag (flags h) kPerfTraceSampled = bool_decide (is_Some (perf_trace h)).

Lemma optional_bytes_length h slot :
  trace_matches h ->
  bool_decide (is_Some slot)
  = HasFrameFlag (flags h) kPayloadCrcPresent || HasFrameFlag (flags h) kAeadPresent ->
  80 + zlen (optional_bytes h slot) = CanonicalHeaderLength (flags h).
Proof.
  unfold trace_matches, CanonicalHeaderLength, optional_bytes, zlen. intros -> <-.
  rewrite length_app, Nat2Z.inj_add.
  destruct slot as [v|], (perf_trace h) as [t|]; cbn [from_option];
    rewrite ?be_bytes_length, ?trace_bytes_length; reflexivity.
Qed.

(** *** The writes produce the layout *)

Ltac unfold_offsets :=
  unfold kMagicOffset, kVersionOffset, kFlagsOffset, kHeaderLengthOffset, kTopicIdOffset,
    kMsgTypeOffset, kConnectionSchemaRefOffset, kSchemaVersionOffset, kLayoutVersionOffset,
    kSourceNodeIdOffset, kSourcePublisherIdOffset, kSourcePublisherEpochOffset,
    kSequenceNumOffset, kTimestampNsOffset, kPayloadLengthOffset, kHeaderCrcOffset,
    kOptionalHeaderOffset in *.
Lemma write_trace t a n off :
  off = length a ->
  EncodeTrace t (a ++ replicate (40 + n) Byte.x00) off
  = (a ++ trace_bytes t) ++ replicate n Byte.x00.
Proof.
  intros ->. unfold EncodeTrace, WriteBe64, WriteBe32, trace_bytes. cbv zeta. repeat write_field.
  rewrite !be_bytes_length, <- !app_assoc. repeat f_equal. lia.
Qed.

Lemma write_fixed h hl pl n :
  write_fixed_fields h hl pl (replicate (80 + n) Byte.x00)
  = fixed_bytes h hl (wrap32 pl) ++ be_bytes 4 0 ++ replicate n Byte.x00.
Proof.
  unfold write_fixed_fields, WriteBe64, WriteBe32, WriteBe16, fixed_bytes. cbv zeta.
  unfold_offsets.
  rewrite <- (app_nil_l (replicate (80 + n) _)). repeat write_field.
  rewrite app_nil_l, !be_bytes_length, <- !app_assoc. repeat f_equal. lia.
Qed.

(** The slot as first written: the key id, or a placeholder for the CRC. *)
Definition initial_slot (has_crc has_aead : bool) (key_id : Z) : option Z :=
  if has_crc || has_aead then Some (if has_aead then key_id else 0) else None.

Lemma write_optional h has_crc has_aead id a n :
  length a = 80%nat ->
  let opt := optional_bytes h (initial_slot has_crc has_aead id) in
  write_optional_fields h has_crc has_aead id (a ++ replicate (length opt + n) Byte.x00)
  = (a ++ opt ++ replicate n Byte.x00, (80 + length opt)%nat).
Proof.
  intros Ha. unfold write_optional_fields, initial_slot, optional_bytes, WriteBe32.
  unfold_offsets. destruct (has_crc || has_aead); cbn [from_option];
    destruct (perf_trace h) as [t|]; cbn [from_option]; cbv zeta;
    rewrite ?app_nil_l, ?app_nil_r, ?length_app, ?be_bytes_length, ?trace_bytes_length; cbv iota beta.
  - rewrite write_next by (len_norm; lia). rewrite be_bytes_length.
    replace (4 + 40 + n - 4)%nat with (40 + n)%nat by lia.
    rewrite write_trace by (len_norm; by rewrite Ha). by rewrite <- !app_assoc.
  - rewrite write_next by (len_norm; lia). rewrite be_bytes_length, <- app_assoc.
    repeat f_equal. lia.
  - by rewrite write_trace, <- app_assoc.
  - done.
Qed.

(** ** What a successful size check establishes *)

Record encodable (h : WireFrameHeader) (size : Z) (limits : WireFrameLimits)
    (aead : option WireAeadKeyring) (n : Z) : Prop := {
  en_known : Z.land (flags h) (Z.lnot kKnownFrameFlags) = 0;
  en_exclusive : HasFrameFlag (flags h) kAeadPresent && HasFrameFlag (flags h) kPayloadCrcPresent = false;
  en_trace : trace_matches h;
  en_type : IsValidFrameType (frame_type h) = true;
  en_control : HasFrameFlag (flags h) kControlFrame = negb (bool_decide (frame_type h = kData));
  en_key : HasFrameFlag (flags h) kAeadPresent = true ->
    exists ring key, aead = Some ring /\ EncodeKey ring = Some key;
  en_wire : let wire := size + (if HasFrameFlag (flags h) kControlFrame then 4 else 0)
                        + (if HasFrameFlag (flags h) kAeadPresent then 28 else 0) in
    wire <= max_payload_length limits /\ n = CanonicalHeaderLength (flags h) + wire /\
    n <= u32_max
}.

Lemma ValidateFlags_Ok f t e :
  ValidateFlags f t e = Ok tt <->
  Z.land f (Z.lnot kKnownFrameFlags) = 0 /\
  HasFrameFlag f kAeadPresent && HasFrameFlag f kPayloadCrcPresent = false /\
  HasFrameFlag f kPerfTraceSampled = t.
Proof.
  unfold ValidateFlags. split.
  - intros H. repeat step_if. bool_to_prop. by apply Bool.eqb_prop in E1.
  - intros (-> & -> & ->). by rewrite Bool.eqb_reflx.
Qed.

Lemma ValidateFrameType_Ok f t e :
  ValidateFrameType f t e = Ok tt <->
  IsValidFrameType t = true /\ HasFrameFlag f kControlFrame = negb (bool_decide (t = kData)).
Proof.
  unfold ValidateFrameType. split.
  - intros H. repeat step_if. bool_to_prop. by apply Bool.eqb_prop in E0.
  - intros (-> & ->). by rewrite Bool.eqb_reflx.
Qed.

Lemma unit_eta (r : Result unit) x : r = Ok x -> r = Ok tt.
Proof. by destruct x. Qed.

Lemma RequireAeadEncodeKey_Ok aead f :
  RequireAeadEncodeKey aead f = Ok tt <->
  (HasFrameFlag f kAeadPresent = true ->
   exists ring key, aead = Some ring /\ EncodeKey ring = Some key).
Proof.
  unfold RequireAeadEncodeKey. destruct (HasFrameFlag f kAeadPresent); simpl; [|done].
  destruct aead as [ring|]; [destruct (EncodeKey ring) as [k|] eqn:E|].
  - split; [|done]. intros _ _. by exists ring, k.
  - split; [done|]. intros H. destruct (H eq_refl) as (r & k & [= <-] & ?). congruence.
  - split; [done|]. intros H. destruct (H eq_refl) as (r & k & ? & ?). done.
Qed.

Lemma CanonicalHeaderLength_bound f : 80 <= CanonicalHeaderLength f <= 124.
Proof.
  unfold CanonicalHeaderLength, kWireBaseHeaderLength, kWirePayloadCrcLength,
    kWirePerfTraceContextLength. destruct (_ || _), (HasFrameFlag f _); lia.
Qed.

Lemma EncodedSize_Ok h size limits aead n :
  0 <= size -> EncodedSize h size limits aead = Ok n <-> encodable h size limits aead n.
Proof.
  intros Hs. pose proof (CanonicalHeaderLength_bound (flags h)) as Hc.
  unfold EncodedSize, kWireControlOpcodeLength, wrap32.
  assert (kWireAeadOverhead = 28) as -> by done.
  set (c := if HasFrameFlag (flags h) kControlFrame then 4 else 0).
  set (o := if HasFrameFlag (flags h) kAeadPresent then 28 else 0).
  assert (0 <= c <= 4 /\ 0 <= o <= 28) as Hco by (subst c o; destruct (HasFrameFlag _ _), (HasFrameFlag _ _); lia).
  assert (size <= u32_max - c - o -> (size + c + o) mod two32 = size + c + o) as Hm
    by (intros; apply Z.mod_small; lia).
  split.
  - intros H. apply bindR_Ok in H as ([] & Hf%ValidateFlags_Ok & H).
    apply bindR_Ok in H as ([] & Ht%ValidateFrameType_Ok & H).
    apply bindR_Ok in H as ([] & Hk & H). rewrite RequireAeadEncodeKey_Ok in Hk.
    cbv zeta in H. step_if. bool_to_prop. rewrite Hm in H by done.
    repeat step_if. inv_ok. bool_to_prop. destruct Hf as (? & ? & ?), Ht as (? & ?).
    split; try done. fold c o. cbv zeta. lia.
  - intros [H1 H2 H3 H4 H5 H6 H7]. fold c o in H7. cbv zeta in H7.
    rewrite (proj2 (ValidateFlags_Ok _ _ true)) by done.
    rewrite (proj2 (ValidateFrameType_Ok _ _ true)) by done.
    rewrite (proj2 (RequireAeadEncodeKey_Ok _ _)) by done. cbn [bindR]. cbv zeta.
    pass_guard. rewrite Hm by lia. do 2 pass_guard. f_equal. lia.
Qed.

(** ** The encoder produces the layout *)

Section EncodeLaws.
Context {B : Crc32cBackend} {BL : Crc32cLaws B} {P : AeadProvider} {PL : AeadLaws P}.

Lemma HeaderCrc_image pre crc post :
  length pre = 76%nat -> length crc = 4%nat ->
  HeaderCrc (pre ++ crc ++ post) = crc32c_reference (pre ++ zeros4 ++ post).
Proof.
  intros Hp Hc. unfold HeaderCrc, kHeaderCrcOffset. cbv zeta.
  rewrite new_accumulator_acc, !Update_acc, Finish_reference.
  rewrite take_app_length' by lia. rewrite app_assoc, drop_app_length' by (rewrite length_app; lia).
  by rewrite app_nil_l, <- app_assoc.
Qed.

Lemma BuildAeadAad_image pre crc post opcode :
  length pre = 76%nat -> length crc = 4%nat ->
  BuildAeadAad (pre ++ crc ++ post) opcode = (pre ++ zeros4 ++ post) ++ opcode.
Proof.
  intros Hp Hc. unfold BuildAeadAad. cbv zeta.
  assert (copy_to (pre ++ crc ++ post)
    (replicate (length (pre ++ crc ++ post) + length opcode) Byte.x00) 0
    = (pre ++ crc ++ post) ++ replicate (length opcode) Byte.x00) as ->.
  { rewrite <- (app_nil_l (replicate _ _)), write_next by (cbn [length]; lia).
    rewrite app_nil_l. do 2 f_equal. lia. }
  replace (_ <=? _) with true.
  2:{ symmetry. apply Z.leb_le. unfold zlen, kHeaderCrcOffset. rewrite !length_app. lia. }
  rewrite <- !app_assoc, copy_to_mid by (rewrite ?length_replicate; unfold kHeaderCrcOffset; lia).
  fold zeros4. destruct opcode as [|o opcode]; [done|].
  set (oc := o :: opcode). clearbody oc.
  replace (pre ++ zeros4 ++ post ++ replicate (length oc) Byte.x00)
    with ((pre ++ zeros4 ++ post) ++ replicate (length oc) Byte.x00) by by rewrite <- !app_assoc.
  rewrite write_next; [|rewrite !length_app, zeros4_length; lia|lia].
  by rewrite Nat.sub_diag, app_nil_r, <- !app_assoc.
Qed.

Lemma opcode_bytes_length h :
  zlen (opcode_bytes h) = if HasFrameFlag (flags h) kControlFrame then 4 else 0.
Proof. unfold opcode_bytes, zlen. by destruct (HasFrameFlag _ _). Qed.

(** The state of the body when the payload is about to be written. *)
Definition head_written (h : WireFrameHeader) (wire : Z) (slot : option Z) (n : nat) : list byte :=
  fixed_bytes h (CanonicalHeaderLength (flags h)) wire ++ be_bytes 4 0 ++ optional_bytes h slot ++
  opcode_bytes h ++ replicate n Byte.x00.

Lemma wrap32_small z : 0 <= z < two32 -> wrap32 z = z.
Proof. apply Z.mod_small. Qed.

(** The prefix of the length-prefixed form. *)
Definition prefix_bytes (prefix_size : nat) (body : list byte) : list byte :=
  if Nat.eqb prefix_size 0 then [] else be_bytes 4 (zlen body).

Lemma write_prefix k n :
  k = 0%nat \/ k = kLengthPrefixSize -> is_u32 n ->
  (if Nat.eqb k 0 then replicate k Byte.x00
   else WriteBe32 (replicate k Byte.x00) 0 (wrap32 n))
  = if Nat.eqb k 0 then [] else be_bytes 4 n.
Proof.
  intros [->| ->] Hn; [done|]. unfold kLengthPrefixSize. cbn [Nat.eqb]. rewrite wrap32_small by done.
  unfold WriteBe32. rewrite <- (app_nil_l (replicate 4 _)), write_next by (rewrite ?be_bytes_length; cbn; lia).
  rewrite be_bytes_length. apply app_nil_r.
Qed.

Lemma slot_present (h : WireFrameHeader) id :
  bool_decide (is_Some (initial_slot (HasFrameFlag (flags h) kPayloadCrcPresent)
                          (HasFrameFlag (flags h) kAeadPresent) id))
  = HasFrameFlag (flags h) kPayloadCrcPresent || HasFrameFlag (flags h) kAeadPresent.
Proof. unfold initial_slot. by destruct (_ || _). Qed.

Lemma body_image_length h slot content :
  trace_matches h ->
  bool_decide (is_Some slot)
  = HasFrameFlag (flags h) kPayloadCrcPresent || HasFrameFlag (flags h) kAeadPresent ->
  zlen (body_image h slot content)
  = CanonicalHeaderLength (flags h) + zlen (opcode_bytes h) + zlen content.
Proof.
  intros Ht Hs. pose proof (optional_bytes_length h slot Ht Hs) as Hl.
  unfold body_image, header_image, zlen in *. cbv zeta.
  rewrite !length_app, be_bytes_length, fixed_bytes_length. lia.
Qed.
(** Writing the fixed fields, the optional fields and the opcode. *)
Lemma write_head h hc ha id wire rest :
  is_u32 wire ->
  let opt := optional_bytes h (initial_slot hc ha id) in
  let n := (80 + (length opt + (length (opcode_bytes h) + rest)))%nat in
  write_optional_fields h hc ha id
    (write_fixed_fields h (CanonicalHeaderLength (flags h)) wire (replicate n Byte.x00))
  = ((fixed_bytes h (CanonicalHeaderLength (flags h)) wire ++ be_bytes 4 0) ++ opt ++
     replicate (length (opcode_bytes h) + rest) Byte.x00, (80 + length opt)%nat).
Proof.
  intros Hw opt n. subst n. rewrite write_fixed, wrap32_small by done. rewrite app_assoc.
  apply write_optional. rewrite length_app, be_bytes_length, fixed_bytes_length. done.
Qed.

Lemma write_opcode a h rest off :
  off = length a -> HasFrameFlag (flags h) kControlFrame = true ->
  WriteBe32 (a ++ replicate (length (opcode_bytes h) + rest) Byte.x00) off
    (frame_type_value (frame_type h))
  = a ++ opcode_bytes h ++ replicate rest Byte.x00.
Proof.
  intros Ho Hc. unfold WriteBe32, opcode_bytes. rewrite Hc, be_bytes_length.
  rewrite write_next by (rewrite ?be_bytes_length; lia).
  rewrite be_bytes_length, <- app_assoc. do 3 f_equal. lia.
Qed.

(** The whole of the head, with the opcode's clear bytes and the offset of
    the payload. *)
Lemma encode_head h hc ha id wire rest (crc0 : Crc32cAccumulator) :
  is_u32 wire ->
  let opt := optional_bytes h (initial_slot hc ha id) in
  let hl := (80 + length opt)%nat in
  let body := (fixed_bytes h (CanonicalHeaderLength (flags h)) wire ++ be_bytes 4 0) ++ opt ++
              replicate (length (opcode_bytes h) + rest) Byte.x00 in
  (if HasFrameFlag (flags h) kControlFrame
   then let body := WriteBe32 body hl (frame_type_value (frame_type h)) in
        let clear_opcode := subspan body hl (Z.to_nat kWireControlOpcodeLength) in
        (body, clear_opcode, (if hc then Update crc0 clear_opcode else crc0),
         (hl + Z.to_nat kWireControlOpcodeLength)%nat)
   else (body, [], crc0, hl))
  = (head_written h wire (initial_slot hc ha id) rest, opcode_bytes h,
     (if hc && HasFrameFlag (flags h) kControlFrame
      then Update crc0 (opcode_bytes h) else crc0),
     (hl + length (opcode_bytes h))%nat).
Proof.
  intros Hw opt hl body. unfold head_written. fold opt.
  destruct (HasFrameFlag (flags h) kControlFrame) eqn:Hc.
  - subst body. cbv zeta.
    assert (length ((fixed_bytes h (CanonicalHeaderLength (flags h)) wire ++ be_bytes 4 0) ++ opt)
            = hl) as Hl by (rewrite !length_app, be_bytes_length, fixed_bytes_length; done).
    rewrite (app_assoc (fixed_bytes _ _ _ ++ _)), write_opcode by done.
    assert (length (opcode_bytes h) = 4%nat) as Ho by (unfold opcode_bytes; by rewrite Hc).
    change (Z.to_nat kWireControlOpcodeLength) with 4%nat.
    rewrite subspan_app_skip, Hl, Nat.sub_diag, subspan_app_here by lia.
    rewrite andb_true_r, Ho, <- !app_assoc. done.
  - assert (opcode_bytes h = []) as Ho by (unfold opcode_bytes; by rewrite Hc).
    subst body. rewrite andb_false_r, Ho. cbn [length]. change (0 + rest)%nat with rest.
    by rewrite app_nil_l, Nat.add_0_r, <- !app_assoc.
Qed.

Lemma head_written_payload h wire slot content off n :
  n = length content ->
  off = (80 + length (optional_bytes h slot) + length (opcode_bytes h))%nat ->
  copy_to content (head_written h wire slot n) off
  = fixed_bytes h (CanonicalHeaderLength (flags h)) wire ++ be_bytes 4 0 ++
    optional_bytes h slot ++ opcode_bytes h ++ content.
Proof.
  intros -> ->. unfold head_written.
  rewrite (app_assoc (optional_bytes h slot)),
    (app_assoc (be_bytes 4 0)), (app_assoc (fixed_bytes _ _ _)).
  rewrite write_next; [|rewrite !length_app, be_bytes_length, fixed_bytes_length; lia|lia].
  by rewrite Nat.sub_diag, app_nil_r, <- !app_assoc.
Qed.

Lemma head_written_take h wire slot n hl :
  hl = (80 + length (optional_bytes h slot))%nat ->
  take hl (head_written h wire slot n)
  = fixed_bytes h (CanonicalHeaderLength (flags h)) wire ++ be_bytes 4 0 ++ optional_bytes h slot.
Proof.
  intros ->. unfold head_written. rewrite (app_assoc (be_bytes 4 0)), (app_assoc (fixed_bytes _ _ _)).
  apply take_app_length'. rewrite !length_app, be_bytes_length, fixed_bytes_length. lia.
Qed.

(** Filling in the header CRC. *)
Lemma write_header_crc pre opt tail hl :
  length pre = 76%nat -> hl = (80 + length opt)%nat ->
  WriteBe32 (pre ++ be_bytes 4 0 ++ opt ++ tail) kHeaderCrcOffset
    (HeaderCrc (take hl (pre ++ be_bytes 4 0 ++ opt ++ tail)))
  = (pre ++ be_bytes 4 (crc32c_reference (pre ++ zeros4 ++ opt)) ++ opt) ++ tail.
Proof.
  intros Hp ->.
  assert (take (80 + length opt) (pre ++ be_bytes 4 0 ++ opt ++ tail)
          = pre ++ be_bytes 4 0 ++ opt) as ->.
  { rewrite (app_assoc (be_bytes 4 0)), (app_assoc pre). apply take_app_length'.
    rewrite !length_app, be_bytes_length. lia. }
  rewrite HeaderCrc_image by done. unfold WriteBe32, kHeaderCrcOffset.
  rewrite copy_to_mid by (rewrite ?be_bytes_length; lia). by rewrite <- !app_assoc.
Qed.

(** Filling in the payload CRC. *)
Lemma write_payload_crc h wire v tail :
  length (fixed_bytes h (CanonicalHeaderLength (flags h)) wire) = 76%nat ->
  WriteBe32 (fixed_bytes h (CanonicalHeaderLength (flags h)) wire ++ be_bytes 4 0 ++
    optional_bytes h (Some 0) ++ tail) kOptionalHeaderOffset v
  = fixed_bytes h (CanonicalHeaderLength (flags h)) wire ++ be_bytes 4 0 ++
    optional_bytes h (Some v) ++ tail.
Proof.
  intros Hp. unfold optional_bytes, WriteBe32, kOptionalHeaderOffset. cbn [from_option].
  rewrite <- !app_assoc, !(app_assoc (fixed_bytes _ _ _)).
  apply copy_to_mid; [rewrite length_app, Hp|]; by rewrite ?be_bytes_length.
Qed.

(** The size arithmetic shared by both encoders. *)
Lemma encodable_sizes h size limits aead n id extra :
  encodable h size limits aead n -> 0 <= size ->
  extra = (if HasFrameFlag (flags h) kAeadPresent then 28 else 0) ->
  let opt := optional_bytes h (initial_slot (HasFrameFlag (flags h) kPayloadCrcPresent)
                                 (HasFrameFlag (flags h) kAeadPresent) id) in
  Z.to_nat n = (80 + (length opt + (length (opcode_bytes h) + Z.to_nat (size + extra))))%nat /\
  Z.to_nat (CanonicalHeaderLength (flags h)) = (80 + length opt)%nat /\
  Z.of_nat (80 + length opt) = CanonicalHeaderLength (flags h) /\
  is_u32 n /\ is_u32 (zlen (opcode_bytes h) + size + extra).
Proof.
  intros He Hs -> opt. pose proof (CanonicalHeaderLength_bound (flags h)).
  destruct (en_wire _ _ _ _ _ He) as (Hw & Hn & Hm).
  pose proof (optional_bytes_length h _ (en_trace _ _ _ _ _ He) (slot_present h id)) as Hl.
  fold opt in Hl. pose proof (opcode_bytes_length h) as Ho. unfold zlen, is_u32 in *.
  destruct (HasFrameFlag (flags h) kControlFrame), (HasFrameFlag (flags h) kAeadPresent);
    split_and!; lia.
Qed.

(** The optional slot of a frame that is not sealed. *)
Definition clear_slot (frame : WireFrame) : option Z :=
  if HasFrameFlag (flags (header frame)) kPayloadCrcPresent
  then Some (crc32c_reference (opcode_bytes (header frame) ++ payload frame)) else None.

Lemma opcode_crc h hc :
  (if hc && HasFrameFlag (flags h) kControlFrame
   then Update new_accumulator (opcode_bytes h) else new_accumulator)
  = acc_of (if hc then opcode_bytes h else []).
Proof.
  rewrite new_accumulator_acc. unfold opcode_bytes.
  destruct hc, (HasFrameFlag (flags h) kControlFrame); cbn [andb]; by rewrite ?Update_acc.
Qed.

Lemma prefix_bytes_image k n h slot content :
  trace_matches h ->
  bool_decide (is_Some slot)
  = HasFrameFlag (flags h) kPayloadCrcPresent || HasFrameFlag (flags h) kAeadPresent ->
  n = CanonicalHeaderLength (flags h) + zlen (opcode_bytes h) + zlen content ->
  (if Nat.eqb k 0 then [] else be_bytes 4 n) = prefix_bytes k (body_image h slot content).
Proof. intros Ht Hs ->. unfold prefix_bytes. by rewrite body_image_length. Qed.

(** Everything up to the payload. *)
Lemma encode_prologue h pl k limits aead n key :
  encodable h (zlen pl) limits aead n ->
  k = 0%nat \/ k = kLengthPrefixSize ->
  (if HasFrameFlag (flags h) kAeadPresent
   then exists ring id m, aead = Some ring /\ EncodeKey ring = Some (id, m) /\ key = Some (id, m)
   else key = None) ->
  let hc := HasFrameFlag (flags h) kPayloadCrcPresent in
  let ha := HasFrameFlag (flags h) kAeadPresent in
  let slot := initial_slot hc ha (from_option fst 0 key) in
  let hl := (80 + length (optional_bytes h slot))%nat in
  let extra := if ha then 28 else 0 in
  EncodeWithPrefix (mkFrame h pl) k limits aead
  = finish_encode (mkFrame h pl) key (if Nat.eqb k 0 then [] else be_bytes 4 n) hl hc
      (head_written h (zlen (opcode_bytes h) + zlen pl + extra) slot (Z.to_nat (zlen pl + extra)))
      (opcode_bytes h) (acc_of (if hc then opcode_bytes h else []))
      (hl + length (opcode_bytes h)).
Proof.
  intros He Hk Hkey hc ha slot hl extra. assert (0 <= zlen pl) as Hpl by ulia.
  destruct (encodable_sizes _ _ _ _ _ (from_option fst 0 key) extra He Hpl eq_refl)
    as (Hnn & Hhl & Hoff & Hun & Huw).
  fold hc ha in Hnn, Hhl, Hoff. fold slot in Hnn, Hhl, Hoff. fold hl in Hhl, Hoff.
  unfold EncodeWithPrefix. cbn [header payload].
  rewrite (proj2 (EncodedSize_Ok _ _ _ _ _ Hpl) He). cbn [bindR]. cbv zeta.
  fold hc ha. rewrite write_prefix by done.
  replace (_ + zlen pl + _) with (zlen (opcode_bytes h) + zlen pl + extra)
    by (rewrite opcode_bytes_length; done).
  replace (if ha then _ else Ok None) with (Ok key).
  2:{ fold ha in Hkey. destruct ha; [|by rewrite Hkey].
      destruct Hkey as (ring & id & m & -> & Hek & ->). by rewrite Hek. }
  cbn [bindR].
  replace (match key with Some (id, _) => id | None => 0 end) with (from_option fst 0 key)
    by by destruct key as [[??]|].
  rewrite Hnn, (write_head h hc ha (from_option fst 0 key)) by done. fold slot. cbv beta iota.
  fold hl. rewrite Hoff, Z.eqb_refl, Hhl. cbn [negb].
  rewrite (encode_head h hc ha (from_option fst 0 key)) by done. fold slot. fold hl.
  cbv beta iota. by rewrite opcode_crc.
Qed.

Lemma header_image_wire h slot content n :
  n = zlen (opcode_bytes h) + zlen content ->
  header_image h n slot ++ opcode_bytes h ++ content = body_image h slot content.
Proof.
  intros ->. unfold body_image, zlen. by rewrite length_app, Nat2Z.inj_add.
Qed.

Lemma encode_clear frame k limits aead n :
  EncodedSize (header frame) (zlen (payload frame)) limits aead = Ok n ->
  HasFrameFlag (flags (header frame)) kAeadPresent = false ->
  k = 0%nat \/ k = kLengthPrefixSize ->
  let body := body_image (header frame) (clear_slot frame) (payload frame) in
  zlen body = n /\
  EncodeWithPrefix frame k limits aead = Ok (prefix_bytes k body ++ body).
Proof.
  destruct frame as [h pl]. intros Hn Ha Hk body. cbn [header payload] in *.
  assert (0 <= zlen pl) as Hpl by ulia.
  pose proof (proj1 (EncodedSize_Ok _ _ _ _ _ Hpl) Hn) as He.
  destruct (en_wire _ _ _ _ _ He) as (_ & Hw & _). rewrite Ha in Hw.
  assert (trace_matches h) as Ht by apply He.
  assert (bool_decide (is_Some (clear_slot (mkFrame h pl)))
    = HasFrameFlag (flags h) kPayloadCrcPresent || HasFrameFlag (flags h) kAeadPresent) as Hslot
    by (unfold clear_slot; cbn [header payload]; rewrite Ha; by destruct (HasFrameFlag (flags h) kPayloadCrcPresent)).
  assert (n = CanonicalHeaderLength (flags h) + zlen (opcode_bytes h) + zlen pl) as Hns
    by (rewrite opcode_bytes_length; lia).
  split. { unfold body. by rewrite body_image_length. }
  rewrite (encode_prologue h pl k limits aead n None) by (rewrite ?Ha; done). cbv zeta.
  rewrite (prefix_bytes_image k n h (clear_slot (mkFrame h pl)) pl) by done. fold body.
  rewrite Ha, !Z.add_0_r. replace (Z.to_nat (zlen pl)) with (length pl) by ulia.
  unfold finish_encode. cbn [payload from_option]. do 2 f_equal.
  subst body. rewrite <- (header_image_wire h _ pl _ eq_refl).
  unfold clear_slot. cbn [header payload].
  destruct (HasFrameFlag (flags h) kPayloadCrcPresent).
  - rewrite CopyAndUpdate_acc.
    2:{ unfold head_written. rewrite subspan_length; [done|].
        rewrite !length_app, be_bytes_length, fixed_bytes_length, length_replicate. lia. }
    cbv iota. rewrite head_written_payload by done. rewrite Finish_reference.
    change (initial_slot true false 0) with (Some 0).
    rewrite write_payload_crc by apply fixed_bytes_length.
    rewrite write_header_crc; [done|apply fixed_bytes_length|].
    unfold optional_bytes. by rewrite !length_app.
  - rewrite head_written_payload by done.
    by rewrite write_header_crc by (try apply fixed_bytes_length; done).
Qed.

(** A sealed frame: the AAD is the header with its CRC zeroed and the opcode. *)
Lemma encode_aead h pl k limits ring id m n :
  EncodedSize h (zlen pl) limits (Some ring) = Ok n ->
  HasFrameFlag (flags h) kAeadPresent = true -> EncodeKey ring = Some (id, m) ->
  k = 0%nat \/ k = kLengthPrefixSize ->
  EncodeWithPrefix (mkFrame h pl) k limits (Some ring)
  = (let! sealed := SealWireAead m (aad_image h (zlen (opcode_bytes h) + zlen pl + 28) (Some id)
                                      (opcode_bytes h)) pl in
     let body := body_image h (Some id) sealed in
     Ok (prefix_bytes k body ++ body)).
Proof.
  intros Hn Ha Hek Hk. assert (0 <= zlen pl) as Hpl by ulia.
  pose proof (proj1 (EncodedSize_Ok _ _ _ _ _ Hpl) Hn) as He.
  destruct (en_wire _ _ _ _ _ He) as (_ & Hw & _). rewrite Ha in Hw.
  rewrite (encode_prologue h pl k limits (Some ring) n (Some (id, m)))
    by (rewrite ?Ha; eauto 10). cbv zeta.
  assert (forall hc, initial_slot hc true (from_option fst 0 (Some (id, m))) = Some id) as Hs
    by by intros [].
  rewrite Ha, Hs. unfold finish_encode. cbn [payload].
  assert (take (80 + length (optional_bytes h (Some id)))
    (WriteBe32 (head_written h (zlen (opcode_bytes h) + zlen pl + 28) (Some id) (Z.to_nat (zlen pl + 28)))
       kHeaderCrcOffset
       (HeaderCrc (take (80 + length (optional_bytes h (Some id)))
          (head_written h (zlen (opcode_bytes h) + zlen pl + 28) (Some id) (Z.to_nat (zlen pl + 28))))))
    = header_image h (zlen (opcode_bytes h) + zlen pl + 28) (Some id)) as Hhead.
  { unfold head_written. rewrite write_header_crc by (try apply fixed_bytes_length; done).
    unfold header_image. cbv zeta. apply take_app_length'.
    rewrite !length_app, fixed_bytes_length, be_bytes_length. lia. }
  rewrite Hhead. unfold header_image. cbv zeta.
  rewrite BuildAeadAad_image by (try apply fixed_bytes_length; apply be_bytes_length).
  fold (aad_image h (zlen (opcode_bytes h) + zlen pl + 28) (Some id) (opcode_bytes h)).
  destruct (SealWireAead _ _ _) as [sealed|e] eqn:Eseal; cbn [bindR]; [|done].
  apply SealWireAead_length in Eseal. change kWireAeadOverhead with 28 in *. pass_guard.
  rewrite (prefix_bytes_image k n h (Some id) sealed); [|apply He| |].
  2:{ rewrite Ha. by rewrite orb_true_r. }
  2:{ rewrite opcode_bytes_length. lia. }
  do 2 f_equal. unfold head_written.
  rewrite write_header_crc by (try apply fixed_bytes_length; done).
  rewrite app_assoc, write_next.
  - replace (_ - length sealed)%nat with 0%nat by ulia. rewrite app_nil_r, <- app_assoc.
    apply header_image_wire. lia.
  - rewrite !length_app, fixed_bytes_length, be_bytes_length. lia.
  - ulia.
Qed.
End EncodeLaws.

(** ** Reading the layout back *)

Definition trace_ok (t : PerfTraceContext) : Prop :=
  is_u64 (trace_id_high t) /\ is_u64 (trace_id_low t) /\ is_u32 (sample_flags t) /\
  is_u32 (clock_domain_id t) /\ is_u64 (origin_wall_time_ns t) /\ is_u64 (origin_monotonic_ns t).

(** The fields fit their C++ types. *)
Record header_ok (h : WireFrameHeader) : Prop := {
  ho_flags : is_u16 (flags h); ho_topic : is_u32 (topic_id h); ho_msg : is_u32 (msg_type h);
  ho_ref : is_u32 (connection_schema_ref h); ho_schema : is_u32 (schema_version h);
  ho_layout : is_u32 (layout_version h); ho_node : is_u64 (source_node_id h);
  ho_pub : is_u64 (source_publisher_id h); ho_epoch : is_u64 (source_publisher_epoch h);
  ho_seq : is_u64 (sequence_num h); ho_time : is_u64 (timestamp_ns h);
  ho_trace : forall t, perf_trace h = Some t -> trace_ok t
}.

Section Reads.
Context (h : WireFrameHeader) (Hh : header_ok h) (hl pl : Z) (rest : list byte).
Context (Hhl : is_u32 hl) (Hpl : is_u32 pl).

Lemma read_fixed_fields :
  let b := fixed_bytes h hl pl ++ rest in
  ReadBe32 b kMagicOffset = kWireFrameMagic /\
  ReadBe16 b kVersionOffset = kWireProtocolVersion /\
  ReadBe16 b kFlagsOffset = flags h /\ ReadBe32 b kHeaderLengthOffset = hl /\
  ReadBe32 b kPayloadLengthOffset = pl.
Proof.
  intros b. subst b. unfold fixed_bytes, ReadBe32, ReadBe16. unfold_offsets.
  rewrite <- !app_assoc. repeat split; read_field; first [done | apply Hh].
Qed.

Lemma read_header_fields t trace :
  read_header (fixed_bytes h hl pl ++ rest) t (flags h) trace
  = mkHeader t (flags h) (topic_id h) (msg_type h) (connection_schema_ref h)
      (schema_version h) (layout_version h) (source_node_id h) (source_publisher_id h)
      (source_publisher_epoch h) (sequence_num h) (timestamp_ns h) trace.
Proof.
  unfold read_header, fixed_bytes, ReadBe64, ReadBe32, ReadBe16. unfold_offsets.
  rewrite <- !app_assoc. f_equal; read_field; apply Hh.
Qed.
End Reads.

Lemma read_trace t a rest off :
  trace_ok t -> off = length a -> DecodeTrace (a ++ trace_bytes t ++ rest) off = t.
Proof.
  intros (H1 & H2 & H3 & H4 & H5 & H6) ->. unfold DecodeTrace, trace_bytes, ReadBe64, ReadBe32.
  rewrite <- !app_assoc. destruct t as [t1 t2 t3 t4 t5 t6].
  cbn [trace_id_high trace_id_low sample_flags clock_domain_id origin_wall_time_ns
       origin_monotonic_ns] in *.
  f_equal; rewrite (read_be_skip _ a) by lia; rewrite ?Nat.sub_diag, ?(Nat.add_comm (length a)), ?Nat.add_sub;
    read_field; done.
Qed.

(** A header and slot the decoder accepts. *)
Definition slot_ok (h : WireFrameHeader) (slot : option Z) (content : list byte) : Prop :=
  if HasFrameFlag (flags h) kPayloadCrcPresent
  then slot = Some (crc32c_reference (opcode_bytes h ++ content))
  else if HasFrameFlag (flags h) kAeadPresent
  then exists id, slot = Some id /\ id <> 0 /\ is_u32 id
  else slot = None.

Record image_ok (h : WireFrameHeader) (slot : option Z) (content : list byte)
    (limits : WireFrameLimits) : Prop := {
  io_header : header_ok h;
  io_known : Z.land (flags h) (Z.lnot kKnownFrameFlags) = 0;
  io_exclusive : HasFrameFlag (flags h) kAeadPresent && HasFrameFlag (flags h) kPayloadCrcPresent = false;
  io_trace : trace_matches h;
  io_type : IsValidFrameType (frame_type h) = true;
  io_control : HasFrameFlag (flags h) kControlFrame = negb (bool_decide (frame_type h = kData));
  io_slot : slot_ok h slot content;
  io_max : zlen (opcode_bytes h ++ content) <= max_payload_length limits;
  io_u32 : is_u32 (zlen (opcode_bytes h ++ content))
}.

Lemma frame_type_of_value t : IsValidFrameType t = true -> frame_type_of (frame_type_value t) = t.
Proof. by destruct t. Qed.

Lemma frame_type_value_u32 t : IsValidFrameType t = true -> is_u32 (frame_type_value t).
Proof. by destruct t. Qed.

Section DecodeLaws.
Context {B : Crc32cBackend} {BL : Crc32cLaws B} {P : AeadProvider} {PL : AeadLaws P}.

Lemma crc32c_reference_u32 l : is_u32 (crc32c_reference l).
Proof. rewrite <- Finish_reference. apply Finish_u32. Qed.

Lemma slot_ok_present h slot content :
  slot_ok h slot content ->
  bool_decide (is_Some slot)
  = HasFrameFlag (flags h) kPayloadCrcPresent || HasFrameFlag (flags h) kAeadPresent.
Proof.
  unfold slot_ok. destruct (HasFrameFlag (flags h) kPayloadCrcPresent); [by intros ->|].
  destruct (HasFrameFlag (flags h) kAeadPresent); [by intros (id & -> & _) | by intros ->].
Qed.

Lemma slot_ok_u32 h slot content v :
  slot_ok h slot content -> slot = Some v -> is_u32 v.
Proof.
  unfold slot_ok. intros H ->. destruct (HasFrameFlag _ kPayloadCrcPresent).
  - injection H as ->. apply crc32c_reference_u32.
  - destruct (HasFrameFlag _ kAeadPresent); [|done]. by destruct H as (id & [= ->] & _ & ?).
Qed.

Section Image.
Context (h : WireFrameHeader) (slot : option Z) (content : list byte) (limits : WireFrameLimits).
Context (Hok : image_ok h slot content limits).
Let wire := zlen (opcode_bytes h ++ content).
Let fixed := fixed_bytes h (CanonicalHeaderLength (flags h)) wire.
Let crc := be_bytes 4 (crc32c_reference (fixed ++ zeros4 ++ optional_bytes h slot)).
Let hl := (80 + length (optional_bytes h slot))%nat.

Lemma image_unfold :
  body_image h slot content
  = fixed ++ crc ++ optional_bytes h slot ++ opcode_bytes h ++ content.
Proof. unfold body_image, header_image. cbv zeta. by rewrite <- !app_assoc. Qed.

Lemma image_hl : Z.to_nat (CanonicalHeaderLength (flags h)) = hl /\
  Z.of_nat hl = CanonicalHeaderLength (flags h).
Proof.
  pose proof (optional_bytes_length h slot (io_trace _ _ _ _ Hok)
  (slot_ok_present _ _ _ (io_slot _ _ _ _ Hok))). unfold hl. ulia.
Qed.

Lemma image_length : zlen (body_image h slot content) = CanonicalHeaderLength (flags h) + wire.
Proof.
  rewrite body_image_length; [|apply Hok|eapply slot_ok_present, Hok].
  unfold wire, zlen. rewrite length_app. lia.
Qed.

Lemma image_take : take hl (body_image h slot content) = fixed ++ crc ++ optional_bytes h slot.
Proof.
  rewrite image_unfold, (app_assoc crc), (app_assoc fixed). apply take_app_length'.
  unfold fixed, crc, hl. rewrite !length_app, be_bytes_length, fixed_bytes_length. lia.
Qed.

Lemma image_subspan : subspan (body_image h slot content) hl (Z.to_nat wire) = opcode_bytes h ++ content.
Proof.
  rewrite image_unfold, (app_assoc crc), (app_assoc fixed).
  assert (length (fixed ++ crc ++ optional_bytes h slot) = hl) as Hl
  by (unfold fixed, crc, hl; rewrite !length_app, be_bytes_length, fixed_bytes_length; lia).
  rewrite subspan_app_skip, Hl, Nat.sub_diag by lia. apply subspan_all. unfold wire, zlen. lia.
Qed.

Lemma image_drop off :
  off = (hl + length (opcode_bytes h))%nat -> drop off (body_image h slot content) = content.
Proof.
  intros ->. rewrite image_unfold, !app_assoc. apply drop_app_length'.
  unfold fixed, crc, hl. rewrite !length_app, be_bytes_length, fixed_bytes_length. lia.
Qed.

Lemma image_read_crc :
  ReadBe32 (body_image h slot content) kHeaderCrcOffset
  = crc32c_reference (fixed ++ zeros4 ++ optional_bytes h slot).
Proof.
  rewrite image_unfold. unfold ReadBe32, crc.
  rewrite (read_be_app 4 fixed) by by (unfold fixed; rewrite fixed_bytes_length).
  apply Z.mod_small, crc32c_reference_u32.
Qed.

Lemma check_structure_image :
  check_structure (body_image h slot content) limits
  = Ok (flags h, CanonicalHeaderLength (flags h), wire).
Proof.
  pose proof (CanonicalHeaderLength_bound (flags h)) as Hb. destruct image_hl as [Hn Hz].
  destruct (io_u32 _ _ _ _ Hok) as [Hw0 Hw1]. fold wire in Hw0, Hw1.
  pose proof (io_max _ _ _ _ Hok) as Hm. fold wire in Hm.
  destruct (read_fixed_fields h (io_header _ _ _ _ Hok) (CanonicalHeaderLength (flags h)) wire
  (crc ++ optional_bytes h slot ++ opcode_bytes h ++ content) ltac:(ulia) ltac:(ulia))
  as (R1 & R2 & R3 & R4 & R5).
  fold fixed in R1, R2, R3, R4, R5. rewrite <- image_unfold in R1, R2, R3, R4, R5.
  unfold check_structure. rewrite image_length, R1, R2, R3, R4, R5. cbv zeta.
  unfold kWireMaximumHeaderLength, kWireBaseHeaderLength, kWirePayloadCrcLength,
  kWirePerfTraceContextLength.
  do 4 pass_guard.
  rewrite (proj2 (ValidateFlags_Ok (flags h) _ false))
  by (split; [apply Hok|]; split; [apply Hok|done]).
  cbn [bindR]. do 2 pass_guard. rewrite image_read_crc, Hn, image_take.
  rewrite HeaderCrc_image by (unfold fixed, crc; rewrite ?fixed_bytes_length, ?be_bytes_length; done).
  rewrite Z.eqb_refl. cbn [negb]. pass_guard. done.
Qed.

(** The optional part of the header, as the decoder reads it. *)
Lemma image_read_slot v :
  slot = Some v -> ReadBe32 (body_image h slot content) kOptionalHeaderOffset = v.
Proof.
  intros E. rewrite image_unfold. unfold optional_bytes. rewrite E. cbn [from_option].
  rewrite <- !app_assoc, (app_assoc fixed). unfold ReadBe32, kOptionalHeaderOffset.
  rewrite read_be_app.
  - apply Z.mod_small. eapply (slot_ok_u32 h slot content); [apply Hok|done].
  - unfold fixed, crc. by rewrite length_app, fixed_bytes_length, be_bytes_length.
Qed.

Definition trace_offset : nat :=
  if bool_decide (is_Some slot) then 84 else 80.

Lemma image_read_trace t :
  perf_trace h = Some t -> DecodeTrace (body_image h slot content) trace_offset = t.
Proof.
  intros E. rewrite image_unfold. unfold optional_bytes. rewrite E. cbn [from_option].
  rewrite <- !app_assoc, (app_assoc crc), (app_assoc fixed).
  apply read_trace; [by apply (ho_trace _ (io_header _ _ _ _ Hok))|].
  unfold trace_offset, fixed, crc. rewrite !length_app, fixed_bytes_length, be_bytes_length.
  destruct slot; by rewrite ?be_bytes_length.
Qed.

Lemma trace_offset_code :
  (if HasFrameFlag (flags h) kPayloadCrcPresent || HasFrameFlag (flags h) kAeadPresent
  then (kOptionalHeaderOffset + Z.to_nat kWirePayloadCrcLength)%nat else kOptionalHeaderOffset)
  = trace_offset.
Proof.
  unfold trace_offset. rewrite (slot_ok_present _ _ _ (io_slot _ _ _ _ Hok)).
  by destruct (_ || _).
Qed.

Lemma header_end_code :
  (if HasFrameFlag (flags h) kPerfTraceSampled
  then (trace_offset + Z.to_nat kWirePerfTraceContextLength)%nat else trace_offset) = hl.
Proof.
  unfold trace_offset, hl, optional_bytes. rewrite (io_trace _ _ _ _ Hok), length_app.
  destruct slot, (perf_trace h); cbn [from_option];
  rewrite ?be_bytes_length, ?trace_bytes_length; reflexivity.
Qed.

Lemma trace_code :
  (if HasFrameFlag (flags h) kPerfTraceSampled
  then Some (DecodeTrace (body_image h slot content) trace_offset) else None) = perf_trace h.
Proof.
  rewrite (io_trace _ _ _ _ Hok). destruct (perf_trace h) as [t|] eqn:E; [|done].
  rewrite (image_read_trace t E). by rewrite bool_decide_true.
Qed.

Lemma image_read_header :
  read_header (body_image h slot content) (frame_type h) (flags h) (perf_trace h) = h.
Proof.
  pose proof (CanonicalHeaderLength_bound (flags h)).
  rewrite image_unfold. unfold fixed. rewrite read_header_fields; [by destruct h|apply Hok].
Qed.

Lemma data_type : HasFrameFlag (flags h) kControlFrame = false -> frame_type h = kData.
Proof.
  rewrite (io_control _ _ _ _ Hok). intros E%negb_false_iff. by apply bool_decide_eq_true in E.
Qed.

Lemma decode_opcode_image :
  decode_opcode (flags h) (opcode_bytes h ++ content) hl
  = Ok (frame_type h, opcode_bytes h, (hl + length (opcode_bytes h))%nat).
Proof.
  unfold decode_opcode. pose proof (io_type _ _ _ _ Hok) as Hv.
  destruct (HasFrameFlag (flags h) kControlFrame) eqn:E.
  - assert (opcode_bytes h = be_bytes 4 (frame_type_value (frame_type h))) as ->
    by (unfold opcode_bytes; by rewrite E).
  unfold zlen, kWireControlOpcodeLength. rewrite length_app, be_bytes_length. pass_guard.
  unfold ReadBe32. rewrite read_be_here, Z.mod_small by by apply frame_type_value_u32.
  rewrite frame_type_of_value by done. cbv zeta.
  rewrite (proj2 (ValidateFrameType_Ok _ _ false)) by (split; apply Hok).
  cbn [bindR]. rewrite take_app_length' by by rewrite be_bytes_length. done.
  - unfold opcode_bytes. rewrite E, data_type by done. by rewrite Nat.add_0_r.
Qed.

Lemma DecodeFrameBody_image aead ip :
  DecodeFrameBody (body_image h slot content) limits aead ip
  = let off := (hl + length (opcode_bytes h))%nat in
  if HasFrameFlag (flags h) kAeadPresent
  then open_payload (body_image h slot content) aead ip h (default 0 slot) hl (opcode_bytes h) off
  else Ok (mkParts h (InBody off (length content)) [] (body_image h slot content)).
Proof.
  destruct image_hl as [Hn Hz]. unfold DecodeFrameBody.
  rewrite check_structure_image. cbn [bindR]. cbv beta iota zeta.
  rewrite image_length, Z.eqb_refl, Hn, image_subspan, trace_offset_code, header_end_code,
  trace_code, Hz, Z.eqb_refl. cbn [negb].
  rewrite decode_opcode_image, Crc32c_acc, Finish_reference. cbn [bindR]. cbv iota.
  rewrite image_read_header, image_drop by done.
  pose proof (io_slot _ _ _ _ Hok) as Hs. pose proof (io_exclusive _ _ _ _ Hok) as Hx.
  unfold slot_ok in Hs. destruct (HasFrameFlag (flags h) kPayloadCrcPresent).
  - rewrite andb_true_r in Hx. rewrite Hx, (image_read_slot _ Hs), !Z.eqb_refl. done.
  - cbn [andb negb]. destruct (HasFrameFlag (flags h) kAeadPresent); cbn [andb]; [|done].
  destruct Hs as (id & Hs & Hid & Hu). rewrite (image_read_slot _ Hs), Hs.
  by rewrite (proj2 (Z.eqb_neq id 0) Hid).
Qed.

Lemma InspectHeader_image : InspectHeader (body_image h slot content) limits = Ok h.
Proof.
  destruct image_hl as [Hn Hz]. unfold InspectHeader.
  rewrite check_structure_image. cbn [bindR]. cbv beta iota zeta.
  rewrite image_length, Z.eqb_refl, Hn, image_subspan, trace_offset_code, header_end_code,
  trace_code, Hz, Z.eqb_refl. cbn [negb].
  pose proof decode_opcode_image as Hd. unfold decode_opcode in Hd. fold wire in Hd.
  destruct (HasFrameFlag (flags h) kControlFrame) eqn:E.
  - step_if. apply bindR_Ok in Hd as ([] & Hv & Hd). injection Hd as Ht _ _.
  cbn [bindR]. rewrite Ht in *. rewrite Hv. cbn [bindR].
  by rewrite image_read_header.
  - rewrite <- (data_type E). cbn [bindR].
  rewrite (proj2 (ValidateFrameType_Ok _ _ false)) by (split; apply Hok).
  cbn [bindR]. by rewrite image_read_header.
Qed.
End Image.
End DecodeLaws.

(** ** Every accepted body is a layout

    Inversion of the decoder: what it accepts is exactly the images of valid
    headers. *)

Lemma flags_slot_bytes f :
  CanonicalHeaderLength f
  = 80 + (if HasFrameFlag f kPayloadCrcPresent || HasFrameFlag f kAeadPresent then 4 else 0)
    + (if HasFrameFlag f kPerfTraceSampled then 40 else 0).
Proof.
  unfold CanonicalHeaderLength, kWireBaseHeaderLength, kWirePayloadCrcLength,
    kWirePerfTraceContextLength. by destruct (_ || _), (HasFrameFlag f kPerfTraceSampled).
Qed.

Lemma frame_type_value_of z : IsValidFrameType (frame_type_of z) = true -> frame_type_value (frame_type_of z) = z.
Proof.
  destruct z as [|p|p]; [done| |done].
  do 3 (try (destruct p as [p|p|]; try done)).
Qed.

Lemma split_fixed body h (Hl : (80 <= length body)%nat) hl pl :
  ReadBe32 body kMagicOffset = kWireFrameMagic ->
  ReadBe16 body kVersionOffset = kWireProtocolVersion ->
  ReadBe32 body kHeaderLengthOffset = hl -> ReadBe32 body kPayloadLengthOffset = pl ->
  h = read_header body (frame_type h) (ReadBe16 body kFlagsOffset) (perf_trace h) ->
  body = fixed_bytes h hl pl ++ be_bytes 4 (ReadBe32 body kHeaderCrcOffset) ++ drop 80 body.
Proof.
  intros H1 H2 H3 H4 Hh. unfold fixed_bytes.
  rewrite Hh, <- H1, <- H2, <- H3, <- H4. unfold read_header, ReadBe16, ReadBe32, ReadBe64.
  cbn [flags topic_id msg_type connection_schema_ref schema_version layout_version source_node_id
       source_publisher_id source_publisher_epoch sequence_num timestamp_ns].
  unfold_offsets. clear H1 H2 H3 H4 Hh.
  rewrite <- (drop_0 body) at 1.
  peel 4%nat body 0%nat; peel 2%nat body 4%nat; peel 2%nat body 6%nat; peel 4%nat body 8%nat; peel 4%nat body 12%nat; peel 4%nat body 16%nat;
  peel 4%nat body 20%nat; peel 4%nat body 24%nat; peel 4%nat body 28%nat; peel 8%nat body 32%nat; peel 8%nat body 40%nat; peel 8%nat body 48%nat;
  peel 8%nat body 56%nat; peel 8%nat body 64%nat; peel 4%nat body 72%nat; peel 4%nat body 76%nat.
  by rewrite <- !app_assoc.
Qed.

Lemma split_trace body off :
  (off + 40 <= length body)%nat ->
  drop off body = trace_bytes (DecodeTrace body off) ++ drop (off + 40) body.
Proof.
  intros H. unfold trace_bytes, DecodeTrace, ReadBe64, ReadBe32.
  cbn [trace_id_high trace_id_low sample_flags clock_domain_id origin_wall_time_ns origin_monotonic_ns].
  rewrite (drop_field 8 body off), (drop_field 8 body (off + 8)), (drop_field 4 body (off + 8 + 8)) by lia.
  rewrite <- !(Nat.add_assoc off). cbn [Nat.add].
  rewrite (drop_field 4 body (off + 20)), (drop_field 8 body (off + 20 + 4)) by lia.
  rewrite <- !(Nat.add_assoc off). cbn [Nat.add].
  rewrite (drop_field 8 body (off + 32)) by lia. rewrite <- !(Nat.add_assoc off). cbn [Nat.add].
  by rewrite <- !app_assoc.
Qed.

Lemma DecodeTrace_ok body off : (off + 40 <= length body)%nat -> trace_ok (DecodeTrace body off).
Proof.
  intros H. unfold trace_ok, DecodeTrace.
  cbn [trace_id_high trace_id_low sample_flags clock_domain_id origin_wall_time_ns origin_monotonic_ns].
  repeat match goal with |- _ /\ _ => split end;
    read_bound.
Qed.

(** The slot and trace a decoder reads from [body] with flags [f]. *)
Definition read_slot (body : list byte) (f : Z) : option Z :=
  if HasFrameFlag f kPayloadCrcPresent || HasFrameFlag f kAeadPresent
  then Some (ReadBe32 body 80) else None.
Definition read_trace_opt (body : list byte) (f : Z) : option PerfTraceContext :=
  if HasFrameFlag f kPerfTraceSampled
  then Some (DecodeTrace body (if HasFrameFlag f kPayloadCrcPresent || HasFrameFlag f kAeadPresent
                               then 84 else 80)%nat) else None.

Lemma split_optional body h :
  CanonicalHeaderLength (flags h) <= zlen body ->
  perf_trace h = read_trace_opt body (flags h) ->
  drop 80 body = optional_bytes h (read_slot body (flags h)) ++
                 drop (Z.to_nat (CanonicalHeaderLength (flags h))) body.
Proof.
  intros Hl Ht. unfold optional_bytes. rewrite Ht. unfold read_slot, read_trace_opt.
  rewrite flags_slot_bytes in *. unfold zlen in Hl.
  destruct (_ || _), (HasFrameFlag _ kPerfTraceSampled); cbn [from_option]; rewrite ?app_nil_l, ?app_nil_r.
  - rewrite (drop_field 4 body 80), (split_trace body (80 + 4)) by lia. by rewrite <- !app_assoc.
  - by rewrite (drop_field 4 body 80) by lia.
  - by rewrite (split_trace body 80) by lia.
  - done.
Qed.

Section Inversion.
Context {B : Crc32cBackend} {BL : Crc32cLaws B} {P : AeadProvider} {PL : AeadLaws P}.

Lemma check_structure_inv body limits f hl pl :
  check_structure body limits = Ok (f, hl, pl) ->
  f = ReadBe16 body kFlagsOffset /\ hl = CanonicalHeaderLength f /\
  hl = ReadBe32 body kHeaderLengthOffset /\
  pl = ReadBe32 body kPayloadLengthOffset /\ pl <= max_payload_length limits /\
  80 <= zlen body /\ hl <= zlen body /\
  ReadBe32 body kMagicOffset = kWireFrameMagic /\
  ReadBe16 body kVersionOffset = kWireProtocolVersion /\
  Z.land f (Z.lnot kKnownFrameFlags) = 0 /\
  HasFrameFlag f kAeadPresent && HasFrameFlag f kPayloadCrcPresent = false /\
  ReadBe32 body kHeaderCrcOffset = HeaderCrc (take (Z.to_nat hl) body).
Proof.
  unfold check_structure. intros H. do 4 step_if. cbv zeta in H.
  apply bindR_Ok in H as ([] & Hv & H). rewrite ValidateFlags_Ok in Hv.
  repeat step_if. inv_ok. bool_to_prop. unfold kWireBaseHeaderLength in *.
  destruct Hv as (? & ? & _). split_and!; try done; lia.
Qed.

Lemma decode_opcode_inv f wire_payload hl t opcode off :
  decode_opcode f wire_payload hl = Ok (t, opcode, off) ->
  let h := mkHeader t f 0 0 0 0 0 0 0 0 0 0 None in
  IsValidFrameType t = true /\
  HasFrameFlag f kControlFrame = negb (bool_decide (t = kData)) /\
  opcode = opcode_bytes h /\ off = (hl + length opcode)%nat /\
  wire_payload = opcode ++ drop (length opcode) wire_payload.
Proof.
  unfold decode_opcode, opcode_bytes. cbn [flags frame_type]. intros H.
  destruct (HasFrameFlag f kControlFrame) eqn:E.
  - step_if. cbv zeta in H. apply bindR_Ok in H as ([] & Hv & H).
    rewrite ValidateFrameType_Ok in Hv. destruct Hv as [Hv Hc]. rewrite E in Hc.
    injection H as <- <- <-. bool_to_prop. unfold zlen, kWireControlOpcodeLength in *.
    assert (take (Z.to_nat 4) wire_payload
      = be_bytes 4 (frame_type_value (frame_type_of (ReadBe32 wire_payload 0)))) as Ht.
    { rewrite frame_type_value_of by done. unfold ReadBe32.
      rewrite be_bytes_read by lia. unfold subspan. by rewrite drop_0. }
    split_and!; [done|done|done| |].
    + rewrite length_take. lia.
    + rewrite length_take, Nat.min_l by lia. by rewrite take_drop.
  - injection H as <- <- <-. split_and!; try done.
Qed.

Lemma read_header_ok body t f trace :
  80 <= zlen body -> is_u16 f -> (forall x, trace = Some x -> trace_ok x) ->
  header_ok (read_header body t f trace).
Proof.
  intros Hl Hf Ht. unfold zlen in Hl. unfold read_header. unfold_offsets.
  split; cbn [flags topic_id msg_type connection_schema_ref schema_version layout_version
    source_node_id source_publisher_id source_publisher_epoch sequence_num timestamp_ns perf_trace];
    try done; read_bound.
Qed.

Lemma read_trace_opt_ok body f x :
  CanonicalHeaderLength f <= zlen body -> read_trace_opt body f = Some x -> trace_ok x.
Proof.
  rewrite flags_slot_bytes. unfold read_trace_opt, zlen. intros Hl H.
  destruct (HasFrameFlag f kPerfTraceSampled); [|done]. injection H as <-.
  apply DecodeTrace_ok. destruct (_ || _); lia.
Qed.

(** The body split into its fields, with the header CRC verified. *)
Lemma split_body body limits f pl t opcode off :
  check_structure body limits = Ok (f, CanonicalHeaderLength f, pl) ->
  CanonicalHeaderLength f + pl = zlen body ->
  let hl := Z.to_nat (CanonicalHeaderLength f) in
  decode_opcode f (subspan body hl (Z.to_nat pl)) hl = Ok (t, opcode, off) ->
  let h := read_header body t f (read_trace_opt body f) in
  body = body_image h (read_slot body f) (drop off body).
Proof.
  intros Hc Hlen hl Ho h. apply check_structure_inv in Hc
    as (Hf & _ & Hhl & Hpl & Hmax & H80 & Hle & Hmag & Hver & Hk & Hx & Hcrc).
  apply decode_opcode_inv in Ho as (Hv & Hctl & Hop & -> & Hsplit).
  change (opcode_bytes _) with (opcode_bytes h) in Hop. subst opcode.
  pose proof (CanonicalHeaderLength_bound f) as Hb.
  assert (0 <= pl) as Hpl0 by (subst pl; pose proof (ReadBe32_bound body kPayloadLengthOffset); unfold zlen, kPayloadLengthOffset in *; ulia).
  assert (subspan body hl (Z.to_nat pl) = drop hl body) as Hsub.
  { unfold subspan. apply take_ge. rewrite length_drop. unfold zlen in Hlen. lia. }
  rewrite Hsub, drop_drop in Hsplit.
  pose proof (split_optional body h Hle eq_refl) as Hopt. change (flags h) with f in Hopt.
  fold hl in Hopt.
  rewrite Hsplit in Hopt.
  pose proof (split_fixed body h ltac:(ulia) (CanonicalHeaderLength f) pl Hmag Hver
    (eq_sym Hhl) (eq_sym Hpl) ltac:(by unfold h; rewrite <- Hf)) as Hbody.
  rewrite Hopt in Hbody.
  assert (zlen (opcode_bytes h ++ drop (hl + length (opcode_bytes h)) body) = pl) as Hw.
  { rewrite <- Hsplit. unfold zlen in *. rewrite length_drop. lia. }
  unfold body_image. rewrite Hw. unfold header_image. cbv zeta. change (flags h) with f.
  rewrite Hcrc in Hbody. fold hl in Hbody.
  assert (take hl body = fixed_bytes h (CanonicalHeaderLength f) pl ++
    be_bytes 4 (HeaderCrc (take hl body)) ++ optional_bytes h (read_slot body f)) as Htake.
  { rewrite Hbody at 1.
    rewrite (app_assoc (be_bytes 4 _)), (app_assoc (fixed_bytes _ _ _)). apply take_app_length'.
    pose proof (f_equal length Hopt) as Hll. rewrite <- Hsplit in Hll.
    rewrite length_app, !length_drop in Hll.
    rewrite !length_app, fixed_bytes_length, be_bytes_length. unfold zlen in *. lia. }
  rewrite Hbody at 1. rewrite <- !app_assoc. do 3 f_equal.
  rewrite Htake. apply HeaderCrc_image; [apply fixed_bytes_length|apply be_bytes_length].
Qed.

Lemma DecodeFrameBody_inv body limits aead ip parts :
  DecodeFrameBody body limits aead ip = Ok parts ->
  exists h slot content, image_ok h slot content limits /\ body = body_image h slot content.
Proof.
  unfold DecodeFrameBody. intros H. apply bindR_Ok in H as ([[f hl] pl] & Hc & H).
  pose proof (check_structure_inv _ _ _ _ _ Hc)
    as (Hf & -> & Hhl & Hpl & Hmax & H80 & Hle & _ & _ & Hk & Hx & _).
  cbv beta iota zeta in H. step_if. bool_to_prop.
  destruct (negb _ && _ && _) eqn:Ekey in H; [done|].
  destruct (negb (Z.of_nat _ =? _)) in H; [done|].
  destruct (match (if HasFrameFlag f kPayloadCrcPresent then _ else _) with
            | Some _ => _ | None => _ end) eqn:Ecrc in H; [done|].
  apply bindR_Ok in H as ([[t opcode] off] & Ho & _).
  pose proof (split_body _ _ _ _ _ _ _ Hc E Ho) as Hbody. cbv zeta in Hbody.
  exists (read_header body t f (read_trace_opt body f)), (read_slot body f), (drop off body).
  split; [|exact Hbody].
  apply decode_opcode_inv in Ho as (Hv & Hctl & Hop & -> & Hsplit).
  set (h := read_header body t f (read_trace_opt body f)) in *.
  change (opcode_bytes _) with (opcode_bytes h) in Hop. subst opcode.
  pose proof (CanonicalHeaderLength_bound f) as Hb.
  assert (is_u32 pl) as Hplu by (subst pl; apply ReadBe32_bound; unfold kPayloadLengthOffset; ulia).
  assert (subspan body (Z.to_nat (CanonicalHeaderLength f)) (Z.to_nat pl)
          = opcode_bytes h ++ drop (Z.to_nat (CanonicalHeaderLength f) + length (opcode_bytes h)) body) as Hw.
  { assert (subspan body (Z.to_nat (CanonicalHeaderLength f)) (Z.to_nat pl)
            = drop (Z.to_nat (CanonicalHeaderLength f)) body) as Hs
      by (unfold subspan; apply take_ge; rewrite length_drop; ulia).
    rewrite Hs, drop_drop in Hsplit. by rewrite Hs. }
  assert (zlen (opcode_bytes h ++ drop (Z.to_nat (CanonicalHeaderLength f) + length (opcode_bytes h)) body) = pl) as Hwl.
  { rewrite <- Hw. unfold zlen in *. rewrite subspan_length; ulia. }
  split; try done.
  - apply read_header_ok; [done| |].
    + subst f. apply ReadBe16_bound. unfold kFlagsOffset. ulia.
    + intros x. by apply read_trace_opt_ok.
  - by apply andb_false_iff.
  - change (HasFrameFlag f kPerfTraceSampled = bool_decide (is_Some (read_trace_opt body f))).
    unfold read_trace_opt.
    by destruct (HasFrameFlag f kPerfTraceSampled).
  - unfold slot_ok, read_slot. change (flags h) with f.
    pose proof (flags_slot_bytes f) as Hsb.
    destruct (HasFrameFlag f kPayloadCrcPresent).
    + f_equal. apply negb_false_iff, Z.eqb_eq in Ecrc.
      by rewrite Hw, Crc32c_acc, Finish_reference in Ecrc.
    + cbn [orb andb negb] in *. destruct (HasFrameFlag f kAeadPresent); [|done].
      eexists. split; [done|]. cbn [andb] in Ekey. apply Z.eqb_neq in Ekey.
      split; [done|]. apply ReadBe32_bound.
      destruct (HasFrameFlag f kPerfTraceSampled); ulia.
  - by rewrite Hwl.
  - by rewrite Hwl.
Qed.
End Inversion.

(** ** Properties of the codec *)

(** The keyring given to the codec, if any, is well formed and its encode id
    fits the 32-bit wire field. *)
Definition aead_ok (aead : option WireAeadKeyring) : Prop :=
  match aead with
  | None => True
  | Some ring => keyring_wf ring /\ forall id, encode_key_id_ ring = Some id -> is_u32 id
  end.

Lemma EncodeKey_inv ring id m :
  keyring_wf ring -> EncodeKey ring = Some (id, m) ->
  encode_key_id_ ring = Some id /\ FindKey ring id = Some m /\ id <> 0.
Proof.
  intros Hr. unfold EncodeKey. destruct (encode_key_id_ ring) as [id'|]; [|done].
  destruct (FindKey ring id') eqn:E; [|done]. intros [= -> ->]. split_and!; try done.
  rewrite FindKey_wf in E by done. by destruct (kw_keys _ Hr _ _ E).
Qed.

(** The view's compaction yields exactly its payload span. *)
Lemma IntoWireFrame_payload v :
  (payload_offset_ v + payload_size_ v <= length (body_ v))%nat ->
  IntoWireFrame v = mkFrame (view_header v) (RebindPayload v).
Proof.
  intros H. unfold IntoWireFrame, RebindPayload, subspan. f_equal.
  destruct (Nat.eqb_spec (payload_offset_ v) 0) as [->|]; cbn [andb].
  - rewrite drop_0. destruct (Nat.eqb_spec (payload_size_ v) (length (body_ v))) as [->|];
      [by rewrite take_ge by lia|].
    destruct (Nat.eqb_spec (payload_size_ v) 0) as [->|]; [done|]. by rewrite resize_le by lia.
  - destruct (Nat.eqb_spec (payload_size_ v) 0) as [->|]; [done|].
    by rewrite resize_le by (rewrite length_drop; lia).
Qed.

Section CodecProperties.
Context {B : Crc32cBackend} {BL : Crc32cLaws B} {P : AeadProvider} {PL : AeadLaws P}.

Lemma OpenWireAead_length key aad sealed n p :
  OpenWireAead key aad sealed n = Ok p -> zlen p = n.
Proof.
  unfold OpenWireAead. intros H. do 4 step_if. apply bindR_Ok in H as (q & _ & H).
  step_if. inv_ok. bool_to_prop. lia.
Qed.

(** In-place and copying decryption give the same payload. *)
Lemma open_payload_views body aead h id hl opcode off :
  (off <= length body)%nat ->
  match open_payload body aead true h id hl opcode off,
        open_payload body aead false h id hl opcode off with
  | Ok p, Ok q =>
      parts_header p = parts_header q /\ owned_plaintext p = [] /\
      exists at_ n, parts_payload p = InBody at_ n /\ parts_payload q = InOwned /\
        (at_ + n <= length (parts_body p))%nat /\
        subspan (parts_body p) at_ n = owned_plaintext q
  | Err s, Err s' => s = s'
  | _, _ => False
  end.
Proof.
  intros Hoff. unfold open_payload. destruct aead as [ring|]; [|done].
  destruct (FindKey ring id) as [key|]; [|done]. cbv zeta.
  destruct (Z.ltb_spec (zlen (drop off body)) kWireAeadOverhead) as [|Hlen]; [done|].
  destruct (OpenWireAead _ _ _ _) as [p|] eqn:Eo; cbn [bindR]; [|done].
  apply OpenWireAead_length in Eo. split_and!; try done. eexists _, _. split_and!; try done;
    cbn [parts_body owned_plaintext]; rewrite ?copy_to_length.
  - unfold zlen, kWireAeadOverhead, kWireAeadNonceLength, kWireAeadTagLength in *.
    rewrite length_drop in *. lia.
  - replace (Z.to_nat (zlen (drop off body) - kWireAeadOverhead)) with (length p) by ulia.
    apply subspan_copy_same.
    unfold zlen, kWireAeadOverhead, kWireAeadNonceLength, kWireAeadTagLength in *.
    rewrite length_drop in *. lia.
Qed.

(** The offset of the payload lies inside the body. *)
Lemma decode_offset_in_body body limits f hl pl t opcode off :
  check_structure body limits = Ok (f, hl, pl) -> hl + pl = zlen body ->
  decode_opcode f (subspan body (Z.to_nat hl) (Z.to_nat pl)) (Z.to_nat hl) = Ok (t, opcode, off) ->
  (off <= length body)%nat.
Proof.
  intros Hc Hl Ho.
  apply check_structure_inv in Hc as (_ & -> & _ & -> & _ & H80 & Hle & _).
  apply decode_opcode_inv in Ho as (_ & _ & _ & -> & Hs).
  pose proof (CanonicalHeaderLength_bound f).
  pose proof (ReadBe32_bound body kPayloadLengthOffset) as Hb. unfold kPayloadLengthOffset in *.
  apply (f_equal length) in Hs. rewrite length_app, subspan_length in Hs by ulia. ulia.
Qed.

Lemma DecodeOwned_Decode body limits aead :
  DecodeOwned body limits aead = Decode body limits aead.
Proof.
  unfold Decode, DecodeOwned, DecodeView, DecodeFrameBody.
  destruct (check_structure body limits) as [[[f hl] pl]|] eqn:Hc; cbn [bindR]; [|done].
  cbv beta iota zeta. destruct (negb (hl + pl =? zlen body)) eqn:Hl; [done|]. cbn [bindR].
  apply negb_false_iff, Z.eqb_eq in Hl.
  destruct (_ && _ && _); [done|]. destruct (negb (Z.of_nat _ =? _)); [done|].
  destruct (match (if HasFrameFlag f kPayloadCrcPresent then _ else _) with
            | Some _ => _ | None => _ end); [done|].
  destruct (decode_opcode _ _ _) as [[[t opcode] off]|] eqn:Ho; cbn [bindR]; [|done].
  pose proof (decode_offset_in_body _ _ _ _ _ _ _ _ Hc Hl Ho) as Hoff.
  destruct (HasFrameFlag f kAeadPresent).
  - set (h := read_header _ _ _ _). set (id := if _ && _ then _ else _).
    pose proof (open_payload_views body aead h id (Z.to_nat hl) opcode off Hoff) as Hv.
    destruct (open_payload body aead true _ _ _ _ _) as [p|],
      (open_payload body aead false _ _ _ _ _) as [q|]; try done; cbn [bindR]; [|by rewrite Hv].
    destruct Hv as (Hh & Hw & a & n & Hp & Hq & Hbd & Hs).
    rewrite Hw, Hp. cbn [bindR]. rewrite IntoWireFrame_payload by done.
    unfold RebindPayload, parts_payload_bytes.
    cbn [view_header body_ payload_offset_ payload_size_]. by rewrite Hq, Hh, Hs.
  - cbn [bindR owned_plaintext parts_payload parts_header parts_body].
    rewrite IntoWireFrame_payload; [done|]. cbn [payload_offset_ payload_size_ body_].
    rewrite length_drop. lia.
Qed.

Lemma encodable_image_ok frame limits aead n slot content :
  encodable (header frame) (zlen (payload frame)) limits aead n -> header_ok (header frame) ->
  slot_ok (header frame) slot content ->
  zlen content = zlen (payload frame)
    + (if HasFrameFlag (flags (header frame)) kAeadPresent then 28 else 0) ->
  image_ok (header frame) slot content limits.
Proof.
  intros He Hh Hs Hl. destruct (en_wire _ _ _ _ _ He) as (Hw & Hn & Hm).
  pose proof (CanonicalHeaderLength_bound (flags (header frame))).
  assert (zlen (opcode_bytes (header frame) ++ content)
    = zlen (payload frame) + (if HasFrameFlag (flags (header frame)) kControlFrame then 4 else 0)
      + (if HasFrameFlag (flags (header frame)) kAeadPresent then 28 else 0)) as Hz.
  { rewrite <- opcode_bytes_length. unfold zlen in *. rewrite length_app. lia. }
  split; try apply He; try done; rewrite Hz; [lia|]. split; [|lia].
  assert (0 <= zlen (payload frame)) by ulia.
  destruct (HasFrameFlag _ _), (HasFrameFlag _ _); lia.
Qed.

(** What an encoding is, in one statement for both kinds of frames. *)
Lemma EncodeWithPrefix_inv frame k limits aead out :
  k = 0%nat \/ k = kLengthPrefixSize -> header_ok (header frame) -> aead_ok aead ->
  EncodeWithPrefix frame k limits aead = Ok out ->
  exists n slot content,
    EncodedSize (header frame) (zlen (payload frame)) limits aead = Ok n /\
    image_ok (header frame) slot content limits /\
    let body := body_image (header frame) slot content in
    zlen body = n /\ out = prefix_bytes k body ++ body /\
    Decode body limits aead = Ok frame.
Proof.
  intros Hk Hh Ha H. destruct frame as [h pl]. cbn [header payload] in *.
  assert (0 <= zlen pl) as Hpl by ulia.
  assert (exists n, EncodedSize h (zlen pl) limits aead = Ok n) as [n Hn].
  { unfold EncodeWithPrefix in H. apply bindR_Ok in H as (n & Hn & _). by exists n. }
  pose proof (proj1 (EncodedSize_Ok _ _ _ _ _ Hpl) Hn) as He.
  destruct (HasFrameFlag (flags h) kAeadPresent) eqn:Haead.
  - destruct (en_key _ _ _ _ _ He Haead) as (ring & [id m] & -> & Hek).
    rewrite (encode_aead h pl k limits ring id m n) in H by done.
    apply bindR_Ok in H as (sealed & Hseal & H). cbv zeta in H. inv_ok.
    destruct Ha as [Hr Hid]. destruct (EncodeKey_inv _ _ _ Hr Hek) as (Heid & Hfind & Hid0).
    pose proof (SealWireAead_length _ _ _ _ Hseal) as Hsl. change kWireAeadOverhead with 28 in Hsl.
    assert (image_ok h (Some id) sealed limits) as Hok.
    { apply (encodable_image_ok (mkFrame h pl) limits (Some ring) n); try done.
      - unfold slot_ok. cbn [header]. pose proof (en_exclusive _ _ _ _ _ He) as Hx.
        rewrite Haead in *. cbn [andb] in Hx. rewrite Hx. eauto.
      - cbn [header payload]. by rewrite Haead. }
    exists n, (Some id), sealed. split; [done|]. split; [done|]. cbv zeta.
    split; [|split; [done|]].
    { rewrite body_image_length; [|apply He|by eapply slot_ok_present, Hok].
      destruct (en_wire _ _ _ _ _ He) as (_ & -> & _). rewrite opcode_bytes_length, Haead. lia. }
    unfold Decode. rewrite (DecodeFrameBody_image h (Some id) sealed limits Hok). cbv zeta.
    rewrite Haead. unfold open_payload. change (default 0 (Some id)) with id.
    rewrite Hfind, (image_drop h (Some id) sealed) by done.
    change kWireAeadOverhead with 28. cbv zeta.
    pass_guard. rewrite (image_take h (Some id) sealed).
    rewrite BuildAeadAad_image by (try apply fixed_bytes_length; apply be_bytes_length).
    assert (zlen (opcode_bytes h ++ sealed) = zlen (opcode_bytes h) + zlen pl + 28) as Hwz
      by (unfold zlen in *; rewrite length_app; lia).
    rewrite Hwz. fold (aad_image h (zlen (opcode_bytes h) + zlen pl + 28) (Some id) (opcode_bytes h)).
    replace (zlen sealed - 28) with (zlen pl) by lia.
    rewrite (open_seal _ _ _ _ Hseal). done.
  - destruct (encode_clear (mkFrame h pl) k limits aead n Hn Haead Hk) as [Hlen Henc].
    rewrite Henc in H. injection H as <-. exists n, (clear_slot (mkFrame h pl)), pl.
    assert (image_ok h (clear_slot (mkFrame h pl)) pl limits) as Hok.
    { apply (encodable_image_ok (mkFrame h pl) limits aead n); try done.
      - unfold slot_ok, clear_slot. cbn [header payload]. rewrite Haead.
        by destruct (HasFrameFlag (flags h) kPayloadCrcPresent).
      - cbn [header payload]. rewrite Haead. lia. }
    split_and!; try done. cbn [header payload].
    unfold Decode. rewrite (DecodeFrameBody_image _ _ _ _ Hok). cbv zeta. rewrite Haead. cbn [bindR].
    unfold parts_payload_bytes. cbn [parts_header parts_payload parts_body]. do 2 f_equal.
    unfold subspan. rewrite (image_drop h _ pl) by done. by apply take_ge.
Qed.

Lemma Decode_parts body limits aead f :
  Decode body limits aead = Ok f ->
  exists parts, DecodeFrameBody body limits aead false = Ok parts /\
    header f = parts_header parts /\ payload f = parts_payload_bytes parts.
Proof.
  unfold Decode. intros H. apply bindR_Ok in H as (parts & Hp & H). inv_ok. eauto.
Qed.

(** The length an accepted body declares is its length. *)
Lemma Decode_declared_length body limits aead f :
  Decode body limits aead = Ok f ->
  80 <= zlen body /\
  ReadBe32 body kHeaderLengthOffset + ReadBe32 body kPayloadLengthOffset = zlen body.
Proof.
  intros H. apply Decode_parts in H as (parts & H & _). unfold DecodeFrameBody in H.
  apply bindR_Ok in H as ([[fl hl] pl] & Hc & H).
  apply check_structure_inv in Hc as (_ & _ & -> & -> & _ & H80 & _).
  cbv beta iota zeta in H. step_if. bool_to_prop. done.
Qed.

(** The header of a decoded frame is the image's. *)
Lemma Decode_image h slot content limits aead f :
  image_ok h slot content limits ->
  Decode (body_image h slot content) limits aead = Ok f ->
  header f = h /\ (HasFrameFlag (flags h) kAeadPresent = false -> payload f = content).
Proof.
  intros Hok H. apply Decode_parts in H as (parts & H & -> & ->).
  rewrite (DecodeFrameBody_image _ _ _ _ Hok) in H. cbv zeta in H.
  destruct (HasFrameFlag (flags h) kAeadPresent).
  - split; [|done]. unfold open_payload in H. destruct aead as [ring|]; [|done].
    destruct (FindKey ring _); [|done]. cbv zeta in H. step_if.
    apply bindR_Ok in H as (p & _ & H). by inv_ok.
  - inv_ok. split; [done|]. intros _. unfold parts_payload_bytes.
    cbn [parts_payload parts_body]. unfold subspan.
    rewrite (image_drop h slot content) by done. by apply take_ge.
Qed.
End CodecProperties.

(** C28: encoding a frame and decoding the bytes gives the frame back, sealed
    or clear, through the copying decoder, the owning decoder and the view, and
    the header inspector reads the frame's header without keys. *)
Theorem encode_decode_round_trip (B : Crc32cBackend) (BL : Crc32cLaws B)
    (P : AeadProvider) (PL : AeadLaws P)
    (frame : WireFrame) (limits : WireFrameLimits) (aead : option WireAeadKeyring)
    (body : list byte) :
  header_ok (header frame) -> aead_ok aead -> Encode frame limits aead = Ok body ->
  Decode body limits aead = Ok frame /\
  DecodeOwned body limits aead = Ok frame /\
  (exists v, DecodeView body limits aead = Ok v /\ view_header v = header frame /\
             IntoWireFrame v = frame) /\
  InspectHeader body limits = Ok (header frame).
Proof.
  intros Hh Ha H. unfold Encode in H.
  apply EncodeWithPrefix_inv in H as (n & slot & content & _ & Hok & _ & -> & Hd); try done; [|by left].
  unfold prefix_bytes. cbn [Nat.eqb app].
  pose proof (DecodeOwned_Decode (body_image (header frame) slot content) limits aead) as Ho.
  rewrite Hd in Ho. split_and!; [done|done| |by apply InspectHeader_image].
  unfold DecodeOwned in Ho. apply bindR_Ok in Ho as (v & Hv & Ho). exists v.
  split; [done|]. injection Ho as Ho. split; [|done]. by rewrite <- Ho.
Qed.

(** The size computed without encoding is exact: it is the length of the
    encoding, which never fails for a frame that is not sealed, is at most
    2^32 - 1, and the length-prefixed form is its big-endian size followed by the
    same bytes. *)
Theorem encoded_size_exact (B : Crc32cBackend) (BL : Crc32cLaws B)
    (P : AeadProvider) (PL : AeadLaws P)
    (frame : WireFrame) (limits : WireFrameLimits) (aead : option WireAeadKeyring) (n : Z) :
  header_ok (header frame) -> aead_ok aead ->
  EncodedSize (header frame) (zlen (payload frame)) limits aead = Ok n ->
  n <= u32_max /\
  (forall body, Encode frame limits aead = Ok body -> zlen body = n) /\
  (HasFrameFlag (flags (header frame)) kAeadPresent = false ->
   exists body, Encode frame limits aead = Ok body /\ zlen body = n /\
                EncodeLengthPrefixed frame limits aead = Ok (be_bytes 4 n ++ body)).
Proof.
  intros Hh Ha Hn. assert (0 <= zlen (payload frame)) as Hpl by ulia. split_and!.
  - apply EncodedSize_Ok in Hn; [|done]. by destruct (en_wire _ _ _ _ _ Hn) as (_ & _ & ?).
  - intros body H. apply EncodeWithPrefix_inv in H as (m & slot & content & Hm & _ & Hl & -> & _);
      try done; [|by left]. rewrite Hn in Hm. by injection Hm as <-.
  - intros Haead.
    destruct (encode_clear frame 0 limits aead n Hn Haead ltac:(by left)) as [Hl He].
    destruct (encode_clear frame kLengthPrefixSize limits aead n Hn Haead ltac:(by right)) as [_ Hp].
    eexists. split; [exact He|]. split; [exact Hl|]. unfold EncodeLengthPrefixed. rewrite Hp.
    unfold prefix_bytes. cbn [Nat.eqb kLengthPrefixSize]. by rewrite Hl.
Qed.

(** The decoders agree on every byte string: the zero-copy path (view,
    in-place decryption, compaction) returns exactly what the copying decoder
    returns, errors included, and whenever they accept, the header inspector
    returns the same header. *)
Theorem decoders_agree (B : Crc32cBackend) (BL : Crc32cLaws B)
    (P : AeadProvider) (PL : AeadLaws P)
    (body : list byte) (limits : WireFrameLimits) (aead : option WireAeadKeyring) :
  DecodeOwned body limits aead = Decode body limits aead /\
  forall frame, Decode body limits aead = Ok frame ->
    InspectHeader body limits = Ok (header frame).
Proof.
  split; [apply DecodeOwned_Decode|]. intros f H.
  pose proof H as H'. apply Decode_parts in H as (parts & Hp & _).
  apply DecodeFrameBody_inv in Hp as (h & slot & content & Hok & ->).
  destruct (Decode_image _ _ _ _ _ _ Hok H') as [-> _]. by apply InspectHeader_image.
Qed.

(** The wire form is canonical: a body the decoder accepts as a clear
    frame is byte for byte the encoding of the frame it decodes to, so no two
    different bodies decode to the same clear frame. *)
Theorem decode_canonical (B : Crc32cBackend) (BL : Crc32cLaws B)
    (P : AeadProvider) (PL : AeadLaws P)
    (body : list byte) (limits : WireFrameLimits) (aead : option WireAeadKeyring)
    (frame : WireFrame) :
  Decode body limits aead = Ok frame ->
  HasFrameFlag (flags (header frame)) kAeadPresent = false -> zlen body <= u32_max ->
  header_ok (header frame) /\ Encode frame limits aead = Ok body.
Proof.
  intros H Haead Hmax. pose proof H as H'. apply Decode_parts in H as (parts & Hp & _).
  apply DecodeFrameBody_inv in Hp as (h & slot & content & Hok & ->).
  destruct (Decode_image _ _ _ _ _ _ Hok H') as [<- Hpay].
  specialize (Hpay Haead). subst content. split; [apply Hok|].
  rewrite (image_length _ _ _ _ Hok) in Hmax.
  pose proof (CanonicalHeaderLength_bound (flags (header frame))).
  assert (EncodedSize (header frame) (zlen (payload frame)) limits aead
    = Ok (CanonicalHeaderLength (flags (header frame)) +
          zlen (opcode_bytes (header frame) ++ payload frame))) as Hn.
  { apply EncodedSize_Ok; [ulia|]. split; try apply Hok.
    - rewrite Haead. done.
    - pose proof (io_max _ _ _ _ Hok) as Hm. cbv zeta. rewrite Haead, <- opcode_bytes_length.
      unfold zlen in *. rewrite length_app in *. lia. }
  destruct (encode_clear frame 0 limits aead _ Hn Haead ltac:(by left)) as [_ He].
  unfold Encode. rewrite He. cbn [prefix_bytes Nat.eqb app]. do 2 f_equal.
  pose proof (io_slot _ _ _ _ Hok) as Hs. unfold slot_ok in Hs. rewrite Haead in Hs.
  unfold clear_slot. by destruct (HasFrameFlag (flags (header frame)) kPayloadCrcPresent).
Qed.

(** Frames are self-delimiting: a proper prefix of an accepted body, and
    an accepted body followed by any further bytes, are both refused. *)
Theorem decode_rejects_truncation_and_trailing (B : Crc32cBackend) (BL : Crc32cLaws B)
    (P : AeadProvider) (PL : AeadLaws P)
    (body extra : list byte) (limits limits' : WireFrameLimits)
    (aead aead' : option WireAeadKeyring) (frame : WireFrame) :
  extra <> [] -> Decode body limits aead = Ok frame ->
  is_ok (Decode (body ++ extra) limits' aead') = false /\
  forall front, body = front ++ extra -> is_ok (Decode front limits' aead') = false.
Proof.
  intros Hx H. apply Decode_declared_length in H as [H80 Hl].
  assert (0 < zlen extra) as Hpos by (destruct extra; [done|unfold zlen; cbn; lia]).
  assert (forall a b : list byte, zlen (a ++ b) = zlen a + zlen b) as Happ
    by (intros; unfold zlen; rewrite length_app; lia).
  split; [|intros front ->].
  - destruct (Decode (body ++ extra) _ _) eqn:E; [|done].
    apply Decode_declared_length in E as [_ Hl'].
    unfold ReadBe32, kHeaderLengthOffset, kPayloadLengthOffset in *.
    rewrite !(read_be_app_left _ body) in Hl' by ulia. rewrite Happ in Hl'. lia.
  - destruct (Decode front _ _) eqn:E; [|done].
    apply Decode_declared_length in E as [H80' Hl'].
    unfold ReadBe32, kHeaderLengthOffset, kPayloadLengthOffset in *.
    rewrite !(read_be_app_left _ front) in Hl by ulia. rewrite Happ in Hl. lia.
Qed.

(** ** Concrete frames *)

Definition sample_trace : PerfTraceContext := mkTrace 1 2 3 4 5 6.
(** An ACK control frame with payload CRC and trace context. *)
Definition sample_control : WireFrame :=
  mkFrame (mkHeader kAck 25 7 8 9 10 11 12 13 14 15 16 (Some sample_trace))
    [Byte.x41; Byte.x42; Byte.x43].
(** A sealed data frame. *)
Definition sample_sealed : WireFrame :=
  mkFrame (mkHeader kData 2 7 8 9 10 11 12 13 14 15 16 None) [Byte.x41; Byte.x42].
Definition sample_ring : WireAeadKeyring := mkKeyring (Some 5) {[5 := sample_key]}.

Lemma sample_control_ok : header_ok (header sample_control).
Proof.
  split; try (unfold is_u16, is_u32, is_u64; cbn; lia).
  intros t [= <-]. unfold trace_ok, is_u32, is_u64. cbn. lia.
Qed.
Lemma sample_sealed_ok : header_ok (header sample_sealed).
Proof. split; try (unfold is_u16, is_u32, is_u64; cbn; lia). done. Qed.
Lemma sample_ring_ok : aead_ok (Some sample_ring).
Proof.
  split; [split|].
  - intros id m H. unfold sample_ring in H. cbn [keys_] in H.
    by apply lookup_singleton_Some in H as [<- <-].
  - intros id [= <-]. by exists sample_key.
  - intros id [= <-]. unfold is_u32. lia.
Qed.

Definition sample_control_bytes : list byte :=
  Eval vm_compute in
    match @Encode software_backend identity_provider sample_control default_limits None with
    | Ok b => b | Err _ => [] end.
Definition sample_sealed_bytes : list byte :=
  Eval vm_compute in
    match @Encode software_backend identity_provider sample_sealed default_limits (Some sample_ring) with
    | Ok b => b | Err _ => [] end.

Lemma encode_decode_round_trip_witness :
  @Decode software_backend identity_provider sample_sealed_bytes default_limits (Some sample_ring)
  = Ok sample_sealed /\
  @Decode software_backend identity_provider sample_control_bytes default_limits None
  = Ok sample_control.
Proof.
  split.
  - exact (proj1 (encode_decode_round_trip _ software_laws _ identity_laws sample_sealed default_limits
             (Some sample_ring) sample_sealed_bytes sample_sealed_ok sample_ring_ok
             ltac:(vm_compute; reflexivity))).
  - exact (proj1 (encode_decode_round_trip _ software_laws _ identity_laws sample_control default_limits
             None sample_control_bytes sample_control_ok I ltac:(vm_compute; reflexivity))).
Defined.

Lemma encoded_size_exact_witness :
  exists body, @Encode software_backend identity_provider sample_control default_limits None = Ok body /\
    zlen body = 131.
Proof.
  destruct (encoded_size_exact _ software_laws _ identity_laws sample_control default_limits None 131
    sample_control_ok I ltac:(vm_compute; reflexivity)) as (_ & _ & H).
  destruct (H ltac:(vm_compute; reflexivity)) as (body & He & Hl & _). by exists body.
Defined.

Lemma decoders_agree_witness :
  @DecodeOwned software_backend identity_provider [Byte.x4d] default_limits None
  = Err (Corruption "frame is shorter than the base header") /\
  @InspectHeader software_backend sample_sealed_bytes default_limits = Ok (header sample_sealed).
Proof.
  split.
  - rewrite (proj1 (decoders_agree _ software_laws _ identity_laws [Byte.x4d] default_limits None)).
    vm_compute. reflexivity.
  - exact (proj2 (decoders_agree _ software_laws _ identity_laws sample_sealed_bytes default_limits
             (Some sample_ring)) sample_sealed ltac:(vm_compute; reflexivity)).
Defined.

Lemma decode_canonical_witness :
  @Encode software_backend identity_provider sample_control default_limits None
  = Ok sample_control_bytes.
Proof.
  exact (proj2 (decode_canonical _ software_laws _ identity_laws sample_control_bytes default_limits
    None sample_control ltac:(vm_compute; reflexivity) ltac:(vm_compute; reflexivity)
    ltac:(vm_compute; discriminate))).
Defined.

Lemma decode_rejects_truncation_and_trailing_witness :
  is_ok (@Decode software_backend identity_provider (sample_control_bytes ++ [Byte.x00])
           default_limits None) = false.
Proof.
  exact (proj1 (decode_rejects_truncation_and_trailing _ software_laws _ identity_laws
    sample_control_bytes [Byte.x00] default_limits default_limits None None sample_control
    ltac:(discriminate) ltac:(vm_compute; reflexivity))).
Defined.
