(* ===== verification/FrameStream.v ===== *)
(** * The length-prefixed stream decoder

    Models [LengthPrefixedFrameDecoder] of [mino/bridge/wire_frame.h] and
    [.cc] (lines 814-936): partial reads, the bounded frame buffer, the
    per-push budgets, the sticky failure and the end of the stream.  The frame
    decoder it calls is [WireFrame.DecodeView].

    The abstract specification is [stream_parse]: a byte stream as a sequence
    of prefixed frames followed by an incomplete rest.  [Push] refines it,
    whatever the chunks the stream arrives in. *)
From S2P Require Import Prelude Bytes Crc32c WireAead WireFrame.

Record LengthPrefixedFrameDecoder : Type := mkDecoder {
  limits_ : WireFrameLimits;
  aead_ : option WireAeadKeyring;
  prefix_ : list byte;
  prefix_size_ : nat;
  frame_buffer_ : list byte;
  expected_frame_length_ : Z;
  failed_ : bool
}.

Definition new_decoder (limits : WireFrameLimits) : LengthPrefixedFrameDecoder :=
  mkDecoder limits None (replicate 4 Byte.x00) 0 [] 0 false.

Definition SetAeadKeyring (d : LengthPrefixedFrameDecoder) (aead : option WireAeadKeyring)
  : LengthPrefixedFrameDecoder :=
  mkDecoder (limits_ d) aead (prefix_ d) (prefix_size_ d) (frame_buffer_ d)
    (expected_frame_length_ d) (failed_ d).

(** [ReleaseFrameBuffer], [prefix_size_ = 0] and [failed_ = failed]. *)
Definition release (d : LengthPrefixedFrameDecoder) (failed : bool) : LengthPrefixedFrameDecoder :=
  mkDecoder (limits_ d) (aead_ d) (prefix_ d) 0 [] 0 failed.

Definition Fail {A} (d : LengthPrefixedFrameDecoder) (s : Status)
  : LengthPrefixedFrameDecoder * Result A := (release d true, Err s).

Definition Finish (d : LengthPrefixedFrameDecoder) : LengthPrefixedFrameDecoder * Result unit :=
  if failed_ d then (d, Err (Corruption "stream decoder is failed; call Reset"))
  else if negb (Nat.eqb (prefix_size_ d) 0) || negb (Nat.eqb (length (frame_buffer_ d)) 0)
  then (release d true, Err (Corruption "truncated length-prefixed stream"))
  else (d, Ok tt).

Definition Reset (d : LengthPrefixedFrameDecoder) : LengthPrefixedFrameDecoder := release d false.

Definition buffered_bytes (d : LengthPrefixedFrameDecoder) : Z :=
  Z.of_nat (prefix_size_ d) + zlen (frame_buffer_ d).

Section Push.
Context {B : Crc32cBackend} {P : AeadProvider}.

(** The locals of [Push]: the frames completed so far and the budgets used. *)
Record PushLocals : Type := mkLocals {
  frames : list ValidatedWireFrameView; decoded_payload_bytes : Z; work_bytes : Z
}.

(** How an iteration of the loop ends. *)
Inductive Iteration : Type :=
| Failed (s : Status)
| Break (d : LengthPrefixedFrameDecoder) (l : PushLocals)
| Continue (d : LengthPrefixedFrameDecoder) (l : PushLocals) (input : list byte).

Definition add_work (l : PushLocals) (n : Z) : PushLocals :=
  mkLocals (frames l) (decoded_payload_bytes l) (work_bytes l + n).

(** Lines 840-873: extend the prefix; [Continue] when it is complete and its
    length acceptable. *)
Definition read_prefix (d : LengthPrefixedFrameDecoder) (l : PushLocals) (input : list byte)
  : Iteration :=
  let count := Nat.min (kLengthPrefixSize - prefix_size_ d) (length input) in
  if ExceedsBudget (work_bytes l) (Z.of_nat count) (max_work_bytes_per_push (limits_ d))
  then Failed (Resource "Push work budget exceeded")
  else
  let prefix := copy_to (take count input) (prefix_ d) (prefix_size_ d) in
  let d := mkDecoder (limits_ d) (aead_ d) prefix (prefix_size_ d + count) (frame_buffer_ d)
             (expected_frame_length_ d) (failed_ d) in
  let l := add_work l (Z.of_nat count) in
  if Nat.ltb (prefix_size_ d) kLengthPrefixSize then Break d l
  else
  let frame_length := ReadBe32 prefix 0 in
  if frame_length <? kWireBaseHeaderLength
  then Failed (Corruption "length prefix is shorter than the base header")
  else if kWireMaximumHeaderLength + max_payload_length (limits_ d) <? frame_length
  then Failed (Resource "length prefix exceeds configured frame maximum")
  else if (max_buffered_bytes (limits_ d) <? Z.of_nat kLengthPrefixSize)
       || (max_buffered_bytes (limits_ d) - Z.of_nat kLengthPrefixSize <? frame_length)
  then Failed (Resource "length prefix exceeds bounded stream buffer")
  else Continue (mkDecoder (limits_ d) (aead_ d) prefix (prefix_size_ d) (frame_buffer_ d)
                   frame_length (failed_ d)) l (drop count input).

(** Lines 875-909: extend the frame buffer; decode the frame when it is
    complete. *)
Definition read_body (d : LengthPrefixedFrameDecoder) (l : PushLocals) (input : list byte)
  : Iteration :=
  let count := Nat.min (Z.to_nat (expected_frame_length_ d) - length (frame_buffer_ d))
                 (length input) in
  if ExceedsBudget (work_bytes l) (Z.of_nat count) (max_work_bytes_per_push (limits_ d))
  then Failed (Resource "Push work budget exceeded")
  else
  let buffer := frame_buffer_ d ++ take count input in
  let l := add_work l (Z.of_nat count) in
  if zlen buffer <? expected_frame_length_ d
  then Break (mkDecoder (limits_ d) (aead_ d) (prefix_ d) (prefix_size_ d) buffer
                (expected_frame_length_ d) (failed_ d)) l
  else if max_frames_per_push (limits_ d) <=? zlen (frames l)
  then Failed (Resource "Push completed-frame budget exceeded")
  else if ExceedsBudget (work_bytes l) (zlen buffer) (max_work_bytes_per_push (limits_ d))
  then Failed (Resource "Push work budget exceeded")
  else
  let l := add_work l (zlen buffer) in
  match DecodeView buffer (limits_ d) (aead_ d) with
  | Err s => Failed s
  | Ok decoded =>
      let size := zlen (RebindPayload decoded) in
      if ExceedsBudget (decoded_payload_bytes l) size
           (max_decoded_payload_bytes_per_push (limits_ d))
      then Failed (Resource "Push decoded-payload budget exceeded")
      else Continue (mkDecoder (limits_ d) (aead_ d) (prefix_ d) 0 [] 0 (failed_ d))
             (mkLocals (frames l ++ [decoded]) (decoded_payload_bytes l + size) (work_bytes l))
             (drop count input)
  end.

Definition push_iteration (d : LengthPrefixedFrameDecoder) (l : PushLocals) (input : list byte)
  : Iteration :=
  if Nat.ltb (prefix_size_ d) kLengthPrefixSize
  then match read_prefix d l input with
       | Continue d l input => read_body d l input
       | other => other
       end
  else read_body d l input.

(** The [while] loop; every iteration consumes input, so the length of the
    input is enough fuel ([push_loop_fuel]). *)
Fixpoint push_loop (fuel : nat) (d : LengthPrefixedFrameDecoder) (l : PushLocals)
    (input : list byte) : LengthPrefixedFrameDecoder * Result (list ValidatedWireFrameView) :=
  match input, fuel with
  | [], _ | _, O => (d, Ok (frames l))
  | _, S fuel' =>
      match push_iteration d l input with
      | Failed s => Fail d s
      | Break d l => (d, Ok (frames l))
      | Continue d l input => push_loop fuel' d l input
      end
  end.

Definition Push (d : LengthPrefixedFrameDecoder) (bytes : list byte)
  : LengthPrefixedFrameDecoder * Result (list ValidatedWireFrameView) :=
  if failed_ d then (d, Err (Corruption "stream decoder is failed; call Reset"))
  else push_loop (length bytes) d (mkLocals [] 0 0) bytes.
End Push.

(** ** Abstract specification *)

(** Lengths the decoder accepts in a prefix. *)
Definition frame_length_ok (limits : WireFrameLimits) (n : Z) : Prop :=
  80 <= n <= kWireMaximumHeaderLength + max_payload_length limits /\
  4 + n <= max_buffered_bytes limits.

(** A rest of the stream that does not contain a whole frame. *)
Definition incomplete (limits : WireFrameLimits) (p : list byte) : Prop :=
  zlen p < 4 \/
  4 <= zlen p /\ frame_length_ok limits (ReadBe32 p 0) /\ zlen p - 4 < ReadBe32 p 0.

Section Spec.
Context {B : Crc32cBackend} {P : AeadProvider}.
Context (limits : WireFrameLimits) (aead : option WireAeadKeyring).

(** [stream_parse s fs rest]: the stream [s] is the frames [fs] (each with
    the body it was decoded from) followed by the incomplete [rest]. *)
Inductive stream_parse : list byte -> list (list byte * ValidatedWireFrameView) -> list byte -> Prop :=
| parse_rest p : incomplete limits p -> stream_parse p [] p
| parse_frame body v s fs p :
    frame_length_ok limits (zlen body) -> is_u32 (zlen body) ->
    DecodeView body limits aead = Ok v ->
    stream_parse s fs p ->
    stream_parse (be_bytes 4 (zlen body) ++ body ++ s) ((body, v) :: fs) p.

Lemma prefixed_split body s :
  is_u32 (zlen body) ->
  ReadBe32 (be_bytes 4 (zlen body) ++ body ++ s) 0 = zlen body /\
  zlen (be_bytes 4 (zlen body) ++ body ++ s) = 4 + zlen body + zlen s.
Proof.
  intros H. split.
  - unfold ReadBe32. rewrite read_be_here. by apply Z.mod_small.
  - unfold zlen. rewrite !length_app, be_bytes_length. lia.
Qed.

Lemma incomplete_no_frame body s :
  is_u32 (zlen body) -> ~ incomplete limits (be_bytes 4 (zlen body) ++ body ++ s).
Proof.
  intros Hb Hi. destruct (prefixed_split body s Hb) as [Hr Hz].
  unfold incomplete in Hi. rewrite Hr, Hz in Hi. pose proof (Zle_0_nat (length s)). ulia.
Qed.

Lemma prefixed_inj body s body' s' :
  is_u32 (zlen body) -> is_u32 (zlen body') ->
  be_bytes 4 (zlen body) ++ body ++ s = be_bytes 4 (zlen body') ++ body' ++ s' ->
  body = body' /\ s = s'.
Proof.
  intros H H' E. destruct (prefixed_split body s H) as [Hr _], (prefixed_split body' s' H') as [Hr' _].
  assert (zlen body = zlen body') as Hl by (rewrite <- Hr, <- Hr'; by rewrite E).
  rewrite Hl in E. apply app_inv_head in E. apply app_inj_1 in E; [done|ulia].
Qed.

Lemma stream_parse_inv s fs p :
  stream_parse s fs p ->
  incomplete limits s /\ fs = [] /\ p = s \/
  exists body v s' fs', s = be_bytes 4 (zlen body) ++ body ++ s' /\ fs = (body, v) :: fs' /\
    frame_length_ok limits (zlen body) /\ is_u32 (zlen body) /\
    DecodeView body limits aead = Ok v /\ stream_parse s' fs' p.
Proof. destruct 1; [by left|]. right. by eexists _, _, _, _. Qed.

(** A stream has at most one parse. *)
Lemma stream_parse_functional s fs p fs' p' :
  stream_parse s fs p -> stream_parse s fs' p' -> fs = fs' /\ p = p'.
Proof.
  intros H. revert fs' p'. induction H as [p Hi|body v s fs p Hok Hb Hv Hp IH]; intros fs' p' H';
    apply stream_parse_inv in H' as [(Hi' & -> & ->)|(body' & v' & s' & fs'' & E & -> & Hok' & Hb' & Hv' & Hp')].
  - done.
  - rewrite E in Hi. by apply incomplete_no_frame in Hi.
  - by apply incomplete_no_frame in Hi'.
  - apply prefixed_inj in E as [-> ->]; [|done..]. destruct (IH _ _ Hp') as [-> ->].
    split; [|done]. do 2 f_equal. congruence.
Qed.

(** Work of the frames: their bodies are visited once more. *)
Definition body_bytes (fs : list (list byte * ValidatedWireFrameView)) : Z :=
  foldr (fun f n => zlen f.1 + n) 0 fs.
Definition payload_bytes (fs : list (list byte * ValidatedWireFrameView)) : Z :=
  foldr (fun f n => zlen (RebindPayload f.2) + n) 0 fs.
End Spec.

(** ** The decoder's invariant *)

Record decoder_wf (d : LengthPrefixedFrameDecoder) : Prop := {
  dw_prefix : length (prefix_ d) = 4%nat;
  dw_size : (prefix_size_ d <= 4)%nat;
  dw_partial : (prefix_size_ d < 4)%nat -> frame_buffer_ d = [];
  dw_full : prefix_size_ d = 4%nat ->
    expected_frame_length_ d = ReadBe32 (prefix_ d) 0 /\
    frame_length_ok (limits_ d) (expected_frame_length_ d) /\
    zlen (frame_buffer_ d) < expected_frame_length_ d;
  dw_failed : failed_ d = true -> prefix_size_ d = 0%nat
}.

(** The bytes received but not yet part of a completed frame. *)
Definition pending (d : LengthPrefixedFrameDecoder) : list byte :=
  take (prefix_size_ d) (prefix_ d) ++ frame_buffer_ d.

Definition same_config (d d' : LengthPrefixedFrameDecoder) : Prop :=
  limits_ d' = limits_ d /\ aead_ d' = aead_ d /\ failed_ d' = failed_ d.

Lemma buffered_pending d : decoder_wf d -> buffered_bytes d = zlen (pending d).
Proof.
  intros Hd. unfold buffered_bytes, pending, zlen. pose proof (dw_prefix _ Hd).
  pose proof (dw_size _ Hd). rewrite length_app, length_take. lia.
Qed.

Lemma pending_incomplete d : decoder_wf d -> incomplete (limits_ d) (pending d).
Proof.
  intros Hd. pose proof (dw_prefix _ Hd). pose proof (dw_size _ Hd).
  destruct (decide (prefix_size_ d < 4)%nat) as [Hs|Hs].
  - left. unfold pending, zlen. rewrite (dw_partial _ Hd Hs), length_app, length_take. cbn [length]. lia.
  - right. destruct (dw_full _ Hd ltac:(lia)) as (He & Hok & Hlt).
    assert (pending d = prefix_ d ++ frame_buffer_ d) as ->.
    { unfold pending. by rewrite take_ge by lia. }
    unfold ReadBe32 in *. rewrite read_be_app_left by lia. rewrite <- He.
    unfold zlen in *. rewrite length_app. split_and!; try lia. done.
Qed.

(** ** One iteration *)

Section Iterations.
Context {B : Crc32cBackend} {P : AeadProvider}.

(** The prefix is complete and announces an acceptable frame; the body is
    not complete yet. *)
Record body_stage (d : LengthPrefixedFrameDecoder) : Prop := {
  bs_prefix : length (prefix_ d) = 4%nat;
  bs_size : prefix_size_ d = 4%nat;
  bs_expected : expected_frame_length_ d = ReadBe32 (prefix_ d) 0;
  bs_ok : frame_length_ok (limits_ d) (expected_frame_length_ d);
  bs_short : zlen (frame_buffer_ d) < expected_frame_length_ d;
  bs_live : failed_ d = false
}.

Lemma body_stage_wf d : body_stage d -> decoder_wf d.
Proof. intros []. split; try lia; try done. congruence. Qed.

Lemma body_stage_pending d : body_stage d -> pending d = prefix_ d ++ frame_buffer_ d.
Proof. intros []. unfold pending. by rewrite take_ge by lia. Qed.

Lemma ExceedsBudget_false used amount limit :
  0 <= amount -> ExceedsBudget used amount limit = false <-> used + amount <= limit.
Proof. intros. unfold ExceedsBudget. rewrite orb_false_iff, !Z.ltb_ge. lia. Qed.
Lemma ExceedsBudget_true used amount limit :
  0 <= amount -> ExceedsBudget used amount limit = true -> limit < used + amount.
Proof. intros ?. unfold ExceedsBudget. rewrite orb_true_iff, !Z.ltb_lt. lia. Qed.

(** Bytes taken from the input. *)
Definition consumed (input input' : list byte) : Z := zlen input - zlen input'.

(** What a push has used so far is inside the budgets. *)
Definition inside (limits : WireFrameLimits) (l : PushLocals) : Prop :=
  work_bytes l <= max_work_bytes_per_push limits /\
  zlen (frames l) <= max_frames_per_push limits /\
  decoded_payload_bytes l <= max_decoded_payload_bytes_per_push limits.

(** The last of the input was read, for nothing but its bytes of work. *)
Definition drained (limits : WireFrameLimits) (l l' : PushLocals) (input : list byte) : Prop :=
  frames l' = frames l /\ work_bytes l + zlen input <= max_work_bytes_per_push limits.

Definition prefix_outcome (d : LengthPrefixedFrameDecoder) (l : PushLocals) (input : list byte)
    (r : Iteration) : Prop :=
  let avail := pending d ++ input in
  match r with
  | Break d' l' =>
      decoder_wf d' /\ same_config d d' /\ pending d' = avail /\ zlen avail < 4 /\
      drained (limits_ d) l l' input
  | Continue d' l' input' =>
      body_stage d' /\ same_config d d' /\ pending d' ++ input' = avail /\
      (length input' < length input)%nat /\ frame_buffer_ d' = [] /\
      l' = add_work l (consumed input input')
  | Failed e =>
      max_work_bytes_per_push (limits_ d) < work_bytes l + zlen input /\ code e = kResourceExhausted \/
      4 <= zlen avail /\ ~ frame_length_ok (limits_ d) (ReadBe32 avail 0)
  end.

Lemma read_prefix_spec d l input :
  decoder_wf d -> failed_ d = false -> (prefix_size_ d < 4)%nat -> input <> [] ->
  prefix_outcome d l input (read_prefix d l input).
Proof.
  intros Hd Hf Hs Hin. pose proof (dw_prefix _ Hd) as Hp. pose proof (dw_partial _ Hd Hs) as Hbuf.
  unfold read_prefix, kLengthPrefixSize. set (ps := prefix_size_ d) in *.
  set (count := Nat.min (4 - ps) (length input)). cbv zeta.
  assert (count <= length input)%nat as Hc by (subst count; lia).
  assert (0 < length input)%nat as Hpos by (destruct input; [done|cbn [length]; lia]).
  destruct (ExceedsBudget _ _ _) eqn:Eb.
  { left. apply ExceedsBudget_true in Eb; [|lia]. split; [ulia|done]. }
  apply ExceedsBudget_false in Eb; [|lia].
  set (prefix' := copy_to (take count input) (prefix_ d) ps).
  assert (length prefix' = 4%nat) as Hp' by (unfold prefix'; by rewrite copy_to_length).
  assert (take (ps + count) prefix' = take ps (prefix_ d) ++ take count input) as Ht.
  { unfold prefix'. rewrite <- (take_drop ps (prefix_ d)) at 1.
    rewrite copy_to_app by (rewrite ?length_take, ?length_drop; lia).
    rewrite take_app_length' by (rewrite length_app, !length_take; lia). done. }
  assert (pending d = take ps (prefix_ d)) as Hpend.
  { unfold pending. fold ps. by rewrite Hbuf, app_nil_r. }
  assert (pending d ++ input = take (ps + count) prefix' ++ drop count input) as Havail.
  { rewrite Ht, Hpend, <- app_assoc. by rewrite take_drop. }
  cbn [prefix_size_]. destruct (Nat.ltb_spec (ps + count) 4) as [Hlt|Hge].
  - assert (count = length input) as Hcl by (subst count; lia).
    cbn -[pending]. split_and!; try done.
    + split; cbn; try done; try lia. congruence.
    + unfold pending at 1. cbn. rewrite Hbuf, app_nil_r, Ht, Hpend, Hcl. by rewrite (take_ge input) by lia.
    + rewrite Havail. unfold zlen. rewrite length_app, length_take, length_drop. lia.
    + split; [done|]. unfold zlen. lia.
  - assert (take (ps + count) prefix' = prefix') as Hfull by (apply take_ge; lia).
    rewrite Hfull in Havail.
    assert (ReadBe32 (pending d ++ input) 0 = ReadBe32 prefix' 0) as Hr.
    { rewrite Havail. unfold ReadBe32. apply read_be_app_left. lia. }
    assert (4 <= zlen (pending d ++ input)) as Hz by (rewrite Havail; unfold zlen; rewrite length_app; lia).
    cbn [limits_ aead_ prefix_ frame_buffer_ failed_].
    unfold prefix_outcome. cbv zeta. unfold frame_length_ok, kWireBaseHeaderLength. rewrite Hr.
    destruct (Z.ltb_spec (ReadBe32 prefix' 0) 80); [right; split; [done|lia]|].
    destruct (Z.ltb_spec (kWireMaximumHeaderLength + max_payload_length (limits_ d)) (ReadBe32 prefix' 0));
      [right; split; [done|lia]|].
    destruct (_ || _) eqn:Eo.
    { right. split; [done|]. apply orb_true_iff in Eo. rewrite !Z.ltb_lt in Eo. lia. }
    apply orb_false_iff in Eo. rewrite !Z.ltb_ge in Eo.
    split_and!; try done.
    + split; cbn [prefix_ prefix_size_ expected_frame_length_ limits_ frame_buffer_ failed_];
        rewrite ?Hbuf; try done; unfold frame_length_ok, zlen; cbn [length]; lia.
    + unfold pending at 1. cbn [prefix_size_ prefix_ frame_buffer_].
      rewrite Hbuf, app_nil_r, Hfull. by rewrite Havail.
    + rewrite length_drop. lia.
    + unfold add_work, consumed, zlen. rewrite length_drop. do 2 f_equal. lia.
Qed.

Lemma zlen_app {A} (a b : list A) : zlen (a ++ b) = zlen a + zlen b.
Proof. unfold zlen. rewrite length_app. lia. Qed.

Definition body_outcome (d : LengthPrefixedFrameDecoder) (l : PushLocals) (input : list byte)
    (r : Iteration) : Prop :=
  let avail := frame_buffer_ d ++ input in
  match r with
  | Break d' l' =>
      decoder_wf d' /\ same_config d d' /\ pending d' = pending d ++ input /\
      drained (limits_ d) l l' input
  | Continue d' l' input' =>
      exists body v,
        zlen body = expected_frame_length_ d /\ avail = body ++ input' /\
        DecodeView body (limits_ d) (aead_ d) = Ok v /\
        decoder_wf d' /\ same_config d d' /\ pending d' = [] /\
        l' = mkLocals (frames l ++ [v])
               (decoded_payload_bytes l + zlen (RebindPayload v))
               (work_bytes l + consumed input input' + zlen body) /\
        inside (limits_ d) l' /\ (length input' <= length input)%nat
  | Failed e =>
      max_work_bytes_per_push (limits_ d) < work_bytes l + zlen input /\ code e = kResourceExhausted \/
      exists body input', zlen body = expected_frame_length_ d /\ avail = body ++ input' /\
        (is_ok (DecodeView body (limits_ d) (aead_ d)) = true -> code e = kResourceExhausted) /\
        (max_frames_per_push (limits_ d) <= zlen (frames l) \/
         max_work_bytes_per_push (limits_ d) < work_bytes l + zlen input + zlen body \/
         is_ok (DecodeView body (limits_ d) (aead_ d)) = false \/
         exists v, DecodeView body (limits_ d) (aead_ d) = Ok v /\
           max_decoded_payload_bytes_per_push (limits_ d)
           < decoded_payload_bytes l + zlen (RebindPayload v))
  end.

Lemma read_body_spec d l input :
  body_stage d -> body_outcome d l input (read_body d l input).
Proof.
  intros Hd. pose proof (bs_short _ Hd) as Hsh. pose proof (bs_ok _ Hd) as Hok.
  assert (0 <= zlen (frame_buffer_ d)) as Hb0 by ulia.
  unfold read_body. set (count := Nat.min _ _). cbv zeta.
  assert (count <= length input)%nat as Hc by (subst count; lia).
  destruct (ExceedsBudget (work_bytes l) (Z.of_nat count) _) eqn:Eb.
  { left. apply ExceedsBudget_true in Eb; [|lia]. split; [ulia|done]. }
  apply ExceedsBudget_false in Eb; [|lia].
  set (buffer := frame_buffer_ d ++ take count input).
  assert (zlen buffer = zlen (frame_buffer_ d) + Z.of_nat count) as Hbl.
  { unfold buffer, zlen. rewrite length_app, length_take. lia. }
  assert (frame_buffer_ d ++ input = buffer ++ drop count input) as Ha.
  { unfold buffer. by rewrite <- app_assoc, take_drop. }
  destruct (Z.ltb_spec (zlen buffer) (expected_frame_length_ d)) as [Hlt|Hge].
  { assert (count = length input) as Hcl by (subst count; ulia).
    assert (body_stage (mkDecoder (limits_ d) (aead_ d) (prefix_ d) (prefix_size_ d) buffer
              (expected_frame_length_ d) (failed_ d))) as Hd' by (destruct Hd; by split).
    split_and!; try done; [by apply body_stage_wf | |].
    - rewrite !body_stage_pending by done. cbn [prefix_ frame_buffer_].
      unfold buffer. rewrite Hcl, (take_ge input) by lia. by rewrite <- app_assoc.
    - unfold drained, zlen. split; [done|lia]. }
  assert (zlen buffer = expected_frame_length_ d) as Heq by (subst count; ulia).
  assert (0 <= zlen buffer) as Hbz by ulia.
  assert (forall X Y : Prop, X -> Y \/ X) as failed by tauto.
  change (frames (add_work l (Z.of_nat count))) with (frames l).
  destruct (Z.leb_spec (max_frames_per_push (limits_ d)) (zlen (frames l))) as [Hfr|Hfr].
  { apply failed. exists buffer, (drop count input). auto. }
  destruct (ExceedsBudget (work_bytes (add_work _ _)) _ _) eqn:Ew.
  { apply failed. exists buffer, (drop count input). apply ExceedsBudget_true in Ew; [|done].
    cbn [work_bytes add_work] in Ew. split_and!; try done. right. left. ulia. }
  apply ExceedsBudget_false in Ew; [|done]. cbn [work_bytes add_work] in Ew.
  destruct (DecodeView buffer (limits_ d) (aead_ d)) as [v|s] eqn:Ev.
  2:{ apply failed. exists buffer, (drop count input). rewrite Ev. split_and!; try done.
      right. right. by left. }
  destruct (ExceedsBudget (decoded_payload_bytes _) _ _) eqn:Ep.
  { apply failed. exists buffer, (drop count input). split_and!; try done.
    right. right. right. exists v. split; [done|].
    apply ExceedsBudget_true in Ep; [done|ulia]. }
  apply ExceedsBudget_false in Ep; [|ulia].
  exists buffer, v. split_and!; try done.
  - destruct Hd. split; cbn; try done; lia.
  - cbn [frames decoded_payload_bytes work_bytes add_work]. unfold consumed, zlen.
    rewrite length_drop. do 2 f_equal. ulia.
  - unfold inside. cbn [frames decoded_payload_bytes work_bytes add_work] in *. rewrite zlen_app.
    change (zlen [v]) with 1. lia.
  - rewrite length_drop. lia.
Qed.

(** Reading the input and completing the frames [fs] takes more than a budget. *)
Definition over_budget (limits : WireFrameLimits) (l : PushLocals) (input : list byte)
    (fs : list (list byte * ValidatedWireFrameView)) : Prop :=
  max_work_bytes_per_push limits < work_bytes l + zlen input + body_bytes fs \/
  max_frames_per_push limits < zlen (frames l) + zlen fs \/
  max_decoded_payload_bytes_per_push limits < decoded_payload_bytes l + payload_bytes fs.

(** An iteration completes exactly one frame, ends the loop, or fails because
    of a budget or of bytes that no parse accepts. *)
Definition iteration_outcome (d : LengthPrefixedFrameDecoder) (l : PushLocals) (input : list byte)
    (r : Iteration) : Prop :=
  let avail := pending d ++ input in
  match r with
  | Break d' l' =>
      decoder_wf d' /\ same_config d d' /\ pending d' = avail /\ drained (limits_ d) l l' input
  | Continue d' l' input' =>
      exists body v,
        frame_length_ok (limits_ d) (zlen body) /\ is_u32 (zlen body) /\
        avail = be_bytes 4 (zlen body) ++ body ++ input' /\
        DecodeView body (limits_ d) (aead_ d) = Ok v /\
        decoder_wf d' /\ same_config d d' /\ pending d' = [] /\
        l' = mkLocals (frames l ++ [v])
               (decoded_payload_bytes l + zlen (RebindPayload v))
               (work_bytes l + consumed input input' + zlen body) /\
        inside (limits_ d) l' /\ (length input' < length input)%nat
  | Failed e =>
      forall fs p, stream_parse (limits_ d) (aead_ d) avail fs p ->
      over_budget (limits_ d) l input fs /\ code e = kResourceExhausted
  end.

Lemma zlen_nonneg {A} (x : list A) : 0 <= zlen x.
Proof. unfold zlen. lia. Qed.

Lemma body_bytes_nonneg fs : 0 <= body_bytes fs.
Proof.
  induction fs as [|f fs IH]; cbn [body_bytes foldr]; [lia|].
  pose proof (zlen_nonneg f.1). unfold body_bytes in IH. lia.
Qed.
Lemma payload_bytes_nonneg fs : 0 <= payload_bytes fs.
Proof.
  induction fs as [|f fs IH]; cbn [payload_bytes foldr]; [lia|].
  pose proof (zlen_nonneg (RebindPayload f.2)). unfold payload_bytes in IH. lia.
Qed.

(** From the body stage on. *)
Lemma body_iteration d l input :
  body_stage d -> iteration_outcome d l input (read_body d l input).
Proof.
  intros Hd. pose proof (read_body_spec d l input Hd) as H.
  pose proof (body_stage_pending d Hd) as Hpend. pose proof (bs_prefix _ Hd) as Hp.
  assert (prefix_ d = be_bytes 4 (expected_frame_length_ d)) as Hpre.
  { rewrite (bs_expected _ Hd). unfold ReadBe32. rewrite be_bytes_read by lia. by rewrite subspan_all. }
  assert (is_u32 (expected_frame_length_ d)) as Hu
    by (rewrite (bs_expected _ Hd); apply ReadBe32_bound; lia).
  assert (forall body input', zlen body = expected_frame_length_ d ->
    frame_buffer_ d ++ input = body ++ input' ->
    pending d ++ input = be_bytes 4 (zlen body) ++ body ++ input') as Havail.
  { intros body input' Hl E. rewrite Hpend, Hpre, Hl, <- app_assoc. by rewrite E. }
  unfold iteration_outcome, body_outcome in *. cbv zeta in *.
  destruct (read_body d l input) as [s|d' l'|d' l' input'].
  - intros fs p Hparse. pose proof (body_bytes_nonneg fs) as Hbn.
    destruct H as [[H Hc]|(body & input' & Hl & E & Hc & H)]; [split; [left; lia|done]|].
    rewrite (Havail _ _ Hl E) in Hparse.
    apply stream_parse_inv in Hparse
      as [(Hi & _)|(body' & v & s' & fs' & E' & -> & _ & Hb' & Hv & _)].
    { apply incomplete_no_frame in Hi; [done|by rewrite Hl]. }
    apply prefixed_inj in E' as [<- <-]; [|by rewrite Hl|done].
    pose proof (body_bytes_nonneg fs'). pose proof (payload_bytes_nonneg fs').
    pose proof (zlen_nonneg fs').
    split; [|apply Hc; by rewrite Hv]. unfold over_budget.
    cbn [body_bytes payload_bytes foldr fst snd]. fold (body_bytes fs') (payload_bytes fs').
    replace (zlen ((body, v) :: fs')) with (1 + zlen fs') by (unfold zlen; cbn [length]; lia).
    destruct H as [H|[H|[H|(v' & Hv' & H)]]].
    + right. left. lia.
    + left. unfold body_bytes in *. lia.
    + by rewrite Hv in H.
    + right. right. rewrite Hv in Hv'. injection Hv' as <-. unfold payload_bytes in *. lia.
  - done.
  - destruct H as (body & v & Hl & E & Hv & Hwf & Hc & Hpe & -> & Hin & Hle).
    exists body, v. rewrite Hl. split_and!; try done; try apply Hd; try apply Hu.
    + rewrite <- Hl. by apply Havail.
    + by rewrite <- Hl.
    + pose proof (bs_short _ Hd). apply (f_equal length) in E. rewrite !length_app in E. ulia.
Qed.

Lemma push_iteration_spec d l input :
  decoder_wf d -> failed_ d = false -> input <> [] ->
  iteration_outcome d l input (push_iteration d l input).
Proof.
  intros Hd Hf Hin. unfold push_iteration, kLengthPrefixSize.
  destruct (Nat.ltb_spec (prefix_size_ d) 4) as [Hs|Hs].
  - pose proof (read_prefix_spec d l input Hd Hf Hs Hin) as H.
    unfold prefix_outcome in H. cbv zeta in H.
    destruct (read_prefix d l input) as [s|d1 l1|d1 l1 input1].
    + intros fs p Hparse. pose proof (body_bytes_nonneg fs).
      destruct H as [[H Hc]|(H4 & H)]; [split; [left; lia|done]|]. destruct H.
      apply stream_parse_inv in Hparse
        as [([Hi|(_ & Hi & _)] & _)|(body & v & s' & fs' & -> & _ & Hok & Hb & _)]; [lia|done|].
      by rewrite (proj1 (prefixed_split body s' Hb)).
    + destruct H as (? & ? & ? & _ & ?). done.
    + destruct H as (Hst & (Hl & Ha & Hfl) & Hpend & Hlt & _ & ->).
      pose proof (body_iteration d1 (add_work l (consumed input input1)) input1 Hst) as H.
      unfold iteration_outcome in *. cbv zeta in *. rewrite Hpend, Hl, Ha in H.
      destruct (read_body d1 _ input1) as [s|d' l'|d' l' input'].
      * intros fs p Hparse. specialize (H fs p Hparse).
        unfold over_budget in *.
        cbn [work_bytes frames decoded_payload_bytes add_work] in H. unfold consumed in H.
        split; [lia|apply H].
      * destruct H as (? & (? & ? & ?) & ? & ? & Hw). split_and!; try done.
        -- split_and!; congruence.
        -- unfold drained in *. cbn [work_bytes frames add_work] in *. unfold consumed in Hw.
           split; [done|lia].
      * destruct H as (body & v & ? & ? & ? & ? & ? & (? & ? & ?) & ? & -> & Hin' & ?).
        exists body, v. split_and!; try done.
        -- split_and!; congruence.
        -- cbn [frames decoded_payload_bytes work_bytes add_work]. f_equal. unfold consumed. lia.
        -- lia.
  - apply body_iteration. pose proof (dw_size _ Hd).
    destruct (dw_full _ Hd ltac:(lia)) as (? & ? & ?). split; try done; [apply Hd|lia].
Qed.
End Iterations.

(** ** The loop *)

Section Loop.
Context {B : Crc32cBackend} {P : AeadProvider}.

Definition loop_outcome (d : LengthPrefixedFrameDecoder) (l : PushLocals) (input : list byte)
    (r : LengthPrefixedFrameDecoder * Result (list ValidatedWireFrameView)) : Prop :=
  decoder_wf r.1 /\ limits_ r.1 = limits_ d /\ aead_ r.1 = aead_ d /\
  match r.2 with
  | Ok views =>
      failed_ r.1 = false /\
      exists fs, stream_parse (limits_ d) (aead_ d) (pending d ++ input) fs (pending r.1) /\
                 views = frames l ++ (snd <$> fs) /\
                 (inside (limits_ d) l -> ~ over_budget (limits_ d) l input fs)
  | Err e =>
      failed_ r.1 = true /\ pending r.1 = [] /\
      forall fs p, stream_parse (limits_ d) (aead_ d) (pending d ++ input) fs p ->
                   over_budget (limits_ d) l input fs /\ code e = kResourceExhausted
  end.

(** A frame completed in the loop counts as one still to complete. *)
Lemma over_budget_frame limits l l' input input' body v fs :
  l' = mkLocals (frames l ++ [v]) (decoded_payload_bytes l + zlen (RebindPayload v))
         (work_bytes l + consumed input input' + zlen body) ->
  over_budget limits l' input' fs <-> over_budget limits l input ((body, v) :: fs).
Proof.
  intros ->. unfold over_budget.
  change (body_bytes ((body, v) :: fs)) with (zlen body + body_bytes fs).
  change (payload_bytes ((body, v) :: fs)) with (zlen (RebindPayload v) + payload_bytes fs).
  cbn [frames decoded_payload_bytes work_bytes]. rewrite zlen_app.
  change (zlen [v]) with 1. unfold consumed.
  replace (zlen ((body, v) :: fs)) with (1 + zlen fs) by (unfold zlen; cbn [length]; lia). lia.
Qed.

Lemma release_wf d f : decoder_wf d -> decoder_wf (release d f).
Proof. intros Hd. split; cbn; try done; try lia. apply Hd. Qed.

(** The loop terminates within [length input] iterations: the fuel branch is
    never taken, since [Continue] shortens the input. *)
Lemma push_loop_spec fuel : forall d l input,
  decoder_wf d -> failed_ d = false -> (length input <= fuel)%nat ->
  loop_outcome d l input (push_loop fuel d l input).
Proof.
  induction fuel as [|fuel IH]; intros d l input Hd Hf Hlen;
    (destruct input as [|b input0]; [|set (input := b :: input0) in *]).
  1, 3: cbn [push_loop]; unfold loop_outcome; cbn [fst snd]; split_and!; try done;
    exists []; rewrite !app_nil_r; split_and!; [by apply parse_rest, pending_incomplete | done |];
    unfold inside, over_budget; cbn [body_bytes payload_bytes foldr]; change (zlen []) with 0; lia.
  { unfold input in Hlen. cbn in Hlen. lia. }
  change (push_loop (S fuel) d l input) with
    (match push_iteration d l input with
     | Failed s => Fail d s | Break d l => (d, Ok (frames l))
     | Continue d l input => push_loop fuel d l input end).
  pose proof (push_iteration_spec d l input Hd Hf ltac:(done)) as H.
  unfold iteration_outcome in H. cbv zeta in H.
  destruct (push_iteration d l input) as [s|d' l'|d' l' input'].
  - unfold loop_outcome, Fail. cbn [fst snd]. split_and!; try done. by apply release_wf.
  - destruct H as (Hwf & (Hl & Ha & Hfl) & Hp & Hfr & Hw). unfold loop_outcome. cbn [fst snd].
    split_and!; try done; [congruence|]. exists []. rewrite <- Hp, <- Hl.
    split_and!; [by apply parse_rest, pending_incomplete | by rewrite app_nil_r |].
    unfold inside, over_budget. cbn [body_bytes payload_bytes foldr]. change (zlen []) with 0.
    rewrite Hl. lia.
  - destruct H as (body & v & Hok & Hb & E & Hv & Hwf & (Hl & Ha & Hfl) & Hp & El & Hin & Hlt).
    specialize (IH d' l' input' Hwf ltac:(congruence) ltac:(lia)).
    destruct (push_loop fuel d' l' input') as [d2 r]. unfold loop_outcome in *. cbn [fst snd] in *.
    rewrite Hl, Ha, Hp in IH. cbn [app] in IH. destruct IH as (Hwf2 & Hl2 & Ha2 & IH).
    split_and!; try done. destruct r as [views|s].
    + destruct IH as (Hf2 & fs & Hparse & -> & Hbud). split; [done|]. exists ((body, v) :: fs).
      rewrite E. split_and!; [by apply parse_frame | rewrite El; cbn [frames]; by rewrite <- app_assoc |].
      intros _ Hover. apply (Hbud Hin). by apply (over_budget_frame _ _ _ _ _ _ _ _ El).
    + destruct IH as (Hf2 & Hp2 & IH). split_and!; try done. intros fs p Hparse.
      rewrite E in Hparse. apply stream_parse_inv in Hparse
        as [(Hi & _)|(body' & v' & s' & fs' & E' & -> & _ & Hb' & Hv' & Hparse)].
      { by apply incomplete_no_frame in Hi. }
      apply prefixed_inj in E' as [<- <-]; [|done..]. assert (v' = v) as -> by congruence.
      destruct (IH _ _ Hparse) as [Hover Hcode]. split; [by apply (over_budget_frame _ _ _ _ _ _ _ _ El)|done].
Qed.

Lemma Push_spec d input :
  decoder_wf d -> failed_ d = false ->
  loop_outcome d (mkLocals [] 0 0) input (Push d input).
Proof. intros Hd Hf. unfold Push. rewrite Hf. by apply push_loop_spec. Qed.
End Loop.

(** ** Sequences of pushes *)

Section Chunks.
Context {B : Crc32cBackend} {P : AeadProvider}.

(** Push the chunks one after the other, up to the first failure. *)
Fixpoint run_pushes (d : LengthPrefixedFrameDecoder) (chunks : list (list byte))
  : LengthPrefixedFrameDecoder * Result (list ValidatedWireFrameView) :=
  match chunks with
  | [] => (d, Ok [])
  | c :: rest =>
      match Push d c with
      | (d1, Err s) => (d1, Err s)
      | (d1, Ok fs) =>
          match run_pushes d1 rest with
          | (d2, Err s) => (d2, Err s)
          | (d2, Ok fs') => (d2, Ok (fs ++ fs'))
          end
      end
  end.

Lemma stream_parse_app limits aead s fs p b fs' p' :
  stream_parse limits aead s fs p -> stream_parse limits aead (p ++ b) fs' p' ->
  stream_parse limits aead (s ++ b) (fs ++ fs') p'.
Proof.
  induction 1 as [p Hi|body v s fs p Hok Hb Hv Hp IH]; intros H; [done|].
  cbn [app]. rewrite <- !app_assoc. apply parse_frame; auto.
Qed.

(** What a parse leaves contains no whole frame. *)
Lemma stream_parse_rest limits aead s fs p : stream_parse limits aead s fs p -> incomplete limits p.
Proof. by induction 1. Qed.

(** Any prefix of a parsed stream parses, and the rest continues it. *)
Lemma stream_parse_split limits aead s fs p : stream_parse limits aead s fs p ->
  forall a b, s = a ++ b ->
  exists fs1 p1 fs2, stream_parse limits aead a fs1 p1 /\
    stream_parse limits aead (p1 ++ b) fs2 p /\ fs = fs1 ++ fs2.
Proof.
  induction 1 as [p Hi|body v s fs p Hok Hb Hv Hp IH]; intros a b E.
  - subst p. exists [], a, []. split_and!; [|by apply parse_rest|done]. apply parse_rest.
    assert (zlen (a ++ b) = zlen a + zlen b) as Hl by (unfold zlen; rewrite length_app; lia).
    pose proof (zlen_nonneg b). destruct (Z.lt_ge_cases (zlen a) 4); [by left|right].
    destruct Hi as [Hi|(H4 & Hf & Hlt)]; [lia|].
    unfold ReadBe32 in *. rewrite read_be_app_left in Hf, Hlt by ulia. split_and!; try done; lia.
  - destruct (Z.lt_ge_cases (zlen a) (4 + zlen body)) as [Hlt|Hge].
    + exists [], a, ((body, v) :: fs). split_and!; [|rewrite <- E; by apply parse_frame|done].
      apply parse_rest. destruct (Z.lt_ge_cases (zlen a) 4); [by left|right].
      assert (ReadBe32 a 0 = zlen body) as Hr.
      { rewrite <- (proj1 (prefixed_split body s Hb)), E. unfold ReadBe32.
        rewrite read_be_app_left; [done|ulia]. }
      rewrite Hr. split_and!; [lia|apply Hok..|lia].
    + rewrite app_assoc in E.
      destruct (decide (length (be_bytes 4 (zlen body) ++ body) <= length a)%nat) as [Hle|Hn];
        [|rewrite length_app, be_bytes_length in Hn; ulia].
      assert (a = (be_bytes 4 (zlen body) ++ body) ++ drop (length (be_bytes 4 (zlen body) ++ body)) a) as Ea.
      { apply (f_equal (take (length (be_bytes 4 (zlen body) ++ body)))) in E.
        rewrite take_app_length, take_app_le in E by done. rewrite E at 1. by rewrite take_drop. }
      set (a' := drop _ a) in Ea. rewrite Ea, <- !app_assoc in E. do 2 apply app_inv_head in E.
      destruct (IH a' b E) as (fs1 & p1 & fs2 & H1 & H2 & ->).
      exists ((body, v) :: fs1), p1, fs2. split_and!; [|done|done].
      rewrite Ea, <- !app_assoc. by apply parse_frame.
Qed.

Lemma body_bytes_app fs fs' : body_bytes (fs ++ fs') = body_bytes fs + body_bytes fs'.
Proof.
  induction fs as [|f fs IH]; [done|]. cbn [app].
  change (body_bytes (f :: fs ++ fs')) with (zlen f.1 + body_bytes (fs ++ fs')).
  change (body_bytes (f :: fs)) with (zlen f.1 + body_bytes fs). lia.
Qed.
Lemma payload_bytes_app fs fs' : payload_bytes (fs ++ fs') = payload_bytes fs + payload_bytes fs'.
Proof.
  induction fs as [|f fs IH]; [done|]. cbn [app].
  change (payload_bytes (f :: fs ++ fs')) with (zlen (RebindPayload f.2) + payload_bytes (fs ++ fs')).
  change (payload_bytes (f :: fs)) with (zlen (RebindPayload f.2) + payload_bytes fs). lia.
Qed.

(** The whole stream fits the budgets of one push. *)
Definition within_budget (limits : WireFrameLimits) (stream : list byte)
    (fs : list (list byte * ValidatedWireFrameView)) : Prop :=
  zlen stream + body_bytes fs <= max_work_bytes_per_push limits /\
  zlen fs <= max_frames_per_push limits /\
  payload_bytes fs <= max_decoded_payload_bytes_per_push limits.

(** One push, as the parse of what was pending followed by the chunk. *)
Lemma push_chunk d c :
  decoder_wf d -> failed_ d = false -> inside (limits_ d) (mkLocals [] 0 0) ->
  let '(d1, r) := Push d c in
  decoder_wf d1 /\ limits_ d1 = limits_ d /\ aead_ d1 = aead_ d /\
  match r with
  | Ok views => failed_ d1 = false /\ exists fs,
      stream_parse (limits_ d) (aead_ d) (pending d ++ c) fs (pending d1) /\
      within_budget (limits_ d) c fs /\ views = snd <$> fs
  | Err e => failed_ d1 = true /\ pending d1 = [] /\
      forall fs p, stream_parse (limits_ d) (aead_ d) (pending d ++ c) fs p ->
        ~ within_budget (limits_ d) c fs /\ code e = kResourceExhausted
  end.
Proof.
  intros Hd Hf Hin. pose proof (Push_spec d c Hd Hf) as H. destruct (Push d c) as [d1 r].
  unfold loop_outcome in H. cbn [fst snd frames app] in H. destruct H as (Hwf & Hl & Ha & H).
  assert (forall fs, over_budget (limits_ d) (mkLocals [] 0 0) c fs <-> ~ within_budget (limits_ d) c fs) as Hob.
  { intros fs. unfold over_budget, within_budget. cbn [frames work_bytes decoded_payload_bytes].
    change (zlen []) with 0. lia. }
  split_and!; try done. destruct r as [views|e].
  - destruct H as (Hf1 & fs & Hp & -> & Hb). split; [done|]. exists fs. split_and!; try done.
    specialize (Hb Hin). rewrite Hob in Hb. unfold within_budget in *. lia.
  - destruct H as (Hf1 & Hp1 & Hb). split_and!; try done. intros fs p Hp. by rewrite <- Hob; apply (Hb fs p).
Qed.

(** [accepted p chunks fs rest]: pushed one after the other behind the pending bytes [p], each
    chunk parses and fits the budgets of a push; together they complete the frames [fs] and
    leave [rest] pending. *)
Inductive accepted (limits : WireFrameLimits) (aead : option WireAeadKeyring) :
    list byte -> list (list byte) -> list (list byte * ValidatedWireFrameView) -> list byte -> Prop :=
| accepted_nil p : accepted limits aead p [] [] p
| accepted_cons p c chunks fs p1 fs' p2 :
    stream_parse limits aead (p ++ c) fs p1 -> within_budget limits c fs ->
    accepted limits aead p1 chunks fs' p2 ->
    accepted limits aead p (c :: chunks) (fs ++ fs') p2.

(** What is accepted in chunks is the parse of the whole stream. *)
Lemma accepted_parse limits aead p chunks fs p' :
  accepted limits aead p chunks fs p' -> incomplete limits p ->
  stream_parse limits aead (p ++ concat chunks) fs p'.
Proof.
  induction 1 as [p|p c chunks fs p1 fs' p2 Hp _ _ IH]; intros Hi; cbn [concat].
  - rewrite app_nil_r. by apply parse_rest.
  - rewrite app_assoc. eapply stream_parse_app; [exact Hp|]. apply IH. by eapply stream_parse_rest.
Qed.

(** A sequence of pushes is exactly the abstract run of its chunks. *)
Lemma run_pushes_spec chunks : forall d,
  decoder_wf d -> failed_ d = false -> inside (limits_ d) (mkLocals [] 0 0) ->
  let '(d1, r) := run_pushes d chunks in
  match r with
  | Ok views => failed_ d1 = false /\ exists fs,
      accepted (limits_ d) (aead_ d) (pending d) chunks fs (pending d1) /\ views = snd <$> fs
  | Err e => failed_ d1 = true /\ pending d1 = [] /\
      (forall fs p, ~ accepted (limits_ d) (aead_ d) (pending d) chunks fs p) /\
      (forall fs p, stream_parse (limits_ d) (aead_ d) (pending d ++ concat chunks) fs p ->
         code e = kResourceExhausted)
  end.
Proof.
  induction chunks as [|c chunks IH]; intros d Hd Hf Hin; cbn [run_pushes concat].
  { split; [done|]. exists []. split; [constructor|done]. }
  pose proof (push_chunk d c Hd Hf Hin) as H. destruct (Push d c) as [d1 [views|e]];
    destruct H as (Hwf & Hl & Ha & Hf1 & H).
  - destruct H as (fs & Hp & Hb & ->). specialize (IH d1 Hwf Hf1). rewrite Hl, Ha in IH. specialize (IH Hin).
    assert (forall fs1 p1, stream_parse (limits_ d) (aead_ d) (pending d ++ c) fs1 p1 -> fs1 = fs /\ p1 = pending d1)
      as Hfun by (intros fs1 p1 H1; eapply stream_parse_functional; [exact H1|exact Hp]).
    destruct (run_pushes d1 chunks) as [d2 [views|e]].
    + destruct IH as (Hf2 & fs' & Hacc & ->). split; [done|]. exists (fs ++ fs').
      split; [by econstructor|]. by rewrite fmap_app.
    + destruct IH as (Hf2 & Hp2 & Hno & Hcode). split_and!; try done.
      * intros fs1 p2 Hacc. inversion Hacc as [|? ? ? fs2 p1 fs3 ? H1 ? H2]; subst.
        destruct (Hfun _ _ H1) as [-> ->]. by eapply Hno.
      * intros fs1 p2. rewrite app_assoc. intros Hall.
        destruct (stream_parse_split _ _ _ _ _ Hall _ _ eq_refl) as (fs2 & p1 & fs3 & H1 & H2 & _).
        destruct (Hfun _ _ H1) as [-> ->]. by eapply Hcode.
  - destruct H as [Hp1 H]. split_and!; try done.
    + intros fs p Hacc. inversion Hacc as [|? ? ? fs2 p1 fs3 ? H1 ? H2]; subst. by apply (H _ _ H1).
    + intros fs p. rewrite app_assoc. intros Hall.
      destruct (stream_parse_split _ _ _ _ _ Hall _ _ eq_refl) as (fs2 & p1 & fs3 & H1 & _). by apply (H _ _ H1).
Qed.

Lemma run_pushes_complete chunks : forall d fs p,
  decoder_wf d -> failed_ d = false ->
  stream_parse (limits_ d) (aead_ d) (pending d ++ concat chunks) fs p ->
  within_budget (limits_ d) (concat chunks) fs ->
  exists d', run_pushes d chunks = (d', Ok (snd <$> fs)) /\ pending d' = p /\
             decoder_wf d' /\ failed_ d' = false.
Proof.
  induction chunks as [|c chunks IH]; intros d fs p Hd Hf Hparse (Hw & Hn & Hp);
    cbn [run_pushes concat] in *.
  - rewrite app_nil_r in Hparse.
    destruct (stream_parse_functional _ _ _ _ _ _ _ Hparse
      (parse_rest _ _ _ (pending_incomplete d Hd))) as [-> ->]. by exists d.
  - rewrite app_assoc in Hparse.
    destruct (stream_parse_split _ _ _ _ _ Hparse _ _ eq_refl) as (fs1 & p1 & fs2 & H1 & H2 & ->).
    rewrite zlen_app, body_bytes_app in Hw. rewrite zlen_app in Hn. rewrite payload_bytes_app in Hp.
    pose proof (body_bytes_nonneg fs1). pose proof (body_bytes_nonneg fs2).
    pose proof (payload_bytes_nonneg fs1). pose proof (payload_bytes_nonneg fs2).
    pose proof (zlen_nonneg fs1). pose proof (zlen_nonneg fs2).
    pose proof (zlen_nonneg c). pose proof (zlen_nonneg (concat chunks)).
    pose proof (Push_spec d c Hd Hf) as Hpush. destruct (Push d c) as [d1 [views|s]];
      unfold loop_outcome in Hpush; cbn [fst snd frames app] in Hpush;
      destruct Hpush as (Hwf1 & Hl1 & Ha1 & Hf1 & Hpush).
    + destruct Hpush as (pf & Hpf & -> & _).
      destruct (stream_parse_functional _ _ _ _ _ _ _ H1 Hpf) as [<- ->].
      destruct (IH d1 fs2 p Hwf1 Hf1) as (d2 & E & Hp2 & Hwf2 & Hf2).
      * by rewrite Hl1, Ha1.
      * rewrite Hl1. unfold within_budget. lia.
      * exists d2. rewrite E, fmap_app. done.
    + destruct Hpush as (_ & Hover). destruct (Hover _ _ H1) as [Hover' _]. clear Hover. rename Hover' into Hover.
      unfold over_budget in Hover. cbn [frames work_bytes decoded_payload_bytes] in Hover.
      change (zlen []) with 0 in Hover. lia.
Qed.
End Chunks.

Lemma new_decoder_wf limits aead : decoder_wf (SetAeadKeyring (new_decoder limits) aead).
Proof. split; cbn; try done; lia. Qed.

(** ** Properties *)

(** C32: [Push] is exactly the abstract parse of the stream, errors and budgets included,
    whatever the chunks. For limits as the code's unsigned fields hold them, pushing chunks one
    after the other into a new decoder either succeeds, and then every chunk, behind what was
    pending, parses within the budgets of a push, the views are those of the frames so
    completed, and these and the bytes still pending are the only parse of the whole stream;
    or fails, and then no such run of the chunks exists, nothing stays pending, the decoder is
    failed, and the status is kResourceExhausted if the whole stream does parse. Two ways of
    cutting a stream that both succeed yield the same views and leave the same bytes. *)
Theorem push_refines_stream (B : Crc32cBackend) (P : AeadProvider)
    (limits : WireFrameLimits) (aead : option WireAeadKeyring) (chunks chunks' : list (list byte)) :
  0 <= max_work_bytes_per_push limits -> 0 <= max_frames_per_push limits ->
  0 <= max_decoded_payload_bytes_per_push limits ->
  let d := SetAeadKeyring (new_decoder limits) aead in
  let '(d1, r) := run_pushes d chunks in
  match r with
  | Ok views =>
      failed_ d1 = false /\
      (exists fs, accepted limits aead [] chunks fs (pending d1) /\ views = snd <$> fs /\
         stream_parse limits aead (concat chunks) fs (pending d1)) /\
      (forall d2 views', concat chunks' = concat chunks -> run_pushes d chunks' = (d2, Ok views') ->
         views' = views /\ pending d2 = pending d1)
  | Err e =>
      failed_ d1 = true /\ pending d1 = [] /\
      (forall fs p, ~ accepted limits aead [] chunks fs p) /\
      (forall fs p, stream_parse limits aead (concat chunks) fs p -> code e = kResourceExhausted)
  end.
Proof.
  intros Hw Hn Hp d. pose proof (new_decoder_wf limits aead) as Hwf.
  assert (inside limits (mkLocals [] 0 0)) as Hin by by split_and!.
  assert (incomplete limits []) as Hi by by left.
  pose proof (fun l => run_pushes_spec l d Hwf eq_refl Hin) as Hrun. subst d.
  pose proof (Hrun chunks) as H1. destruct (run_pushes _ chunks) as [d1 [views|e]]; [|done].
  destruct H1 as (Hf & fs & Hacc & ->). pose proof (accepted_parse _ _ _ _ _ _ Hacc Hi) as Hparse.
  split_and!; [done | by exists fs |]. intros d2 views' Hc H2. pose proof (Hrun chunks') as H3. rewrite H2 in H3.
  destruct H3 as (_ & fs' & Hacc' & ->). apply accepted_parse in Hacc'; [|done]. cbn [app pending] in Hacc', Hparse.
  rewrite Hc in Hacc'. by destruct (stream_parse_functional _ _ _ _ _ _ _ Hacc' Hparse) as [-> ->].
Qed.

(** A view's payload lies inside the body it was decoded from. *)
Lemma DecodeView_bound {B : Crc32cBackend} {BL : Crc32cLaws B} {P : AeadProvider}
    body limits aead v :
  DecodeView body limits aead = Ok v ->
  (payload_offset_ v + payload_size_ v <= length (body_ v))%nat /\ length (body_ v) = length body.
Proof.
  unfold DecodeView. intros H. apply bindR_Ok in H as (parts & Hp & H).
  destruct (DecodeFrameBody_inv _ _ _ _ _ Hp) as (h & slot & content & Hok & E).
  rewrite E, (DecodeFrameBody_image _ _ _ _ Hok) in Hp. cbv zeta in Hp. rewrite <- E in Hp.
  destruct (HasFrameFlag (flags h) kAeadPresent).
  - unfold open_payload in Hp. destruct aead as [ring|]; [|done].
    destruct (FindKey ring _); [|done]. cbv zeta in Hp. step_if.
    apply bindR_Ok in Hp as (p & _ & Hp). apply Ok_inj in Hp. subst parts.
    cbn [owned_plaintext parts_payload parts_header parts_body] in H. apply Ok_inj in H. subst v.
    cbn [payload_offset_ payload_size_ body_]. rewrite copy_to_length. split; [|done]. bool_to_prop.
    unfold zlen, kWireAeadOverhead, kWireAeadNonceLength, kWireAeadTagLength in *.
    rewrite length_drop in *. lia.
  - apply Ok_inj in Hp. subst parts.
    cbn [owned_plaintext parts_payload parts_header parts_body] in H. apply Ok_inj in H. subst v.
    cbn [payload_offset_ payload_size_ body_]. split; [|done].
    rewrite E, image_unfold, !length_app, fixed_bytes_length, be_bytes_length. lia.
Qed.

Lemma RebindPayload_bound {B : Crc32cBackend} {BL : Crc32cLaws B} {P : AeadProvider}
    body limits aead v :
  DecodeView body limits aead = Ok v -> zlen (RebindPayload v) <= zlen body.
Proof.
  intros [H1 H2]%DecodeView_bound. unfold RebindPayload, zlen. rewrite subspan_length by done. lia.
Qed.

(** Concatenated length-prefixed encodings parse into their frames. *)
Lemma encoded_stream_parse {B : Crc32cBackend} {BL : Crc32cLaws B} {P : AeadProvider}
    {PL : AeadLaws P} limits aead sent wires :
  aead_ok aead ->
  Forall2 (fun f w => header_ok (header f) /\ EncodeLengthPrefixed f limits aead = Ok w /\
                      zlen w <= max_buffered_bytes limits) sent wires ->
  exists fs, stream_parse limits aead (concat wires) fs [] /\
    (IntoWireFrame ∘ snd) <$> fs = sent /\ zlen (concat wires) = body_bytes fs + 4 * zlen fs /\
    Forall (fun f => zlen (RebindPayload f.2) <= zlen f.1) fs.
Proof.
  intros Ha. induction 1 as [|f w sent wires (Hh & He & Hm) _ IH].
  { exists []. split_and!; try done. by apply parse_rest; left. }
  destruct IH as (fs & Hp & Hmap & Hlen & Hall).
  apply EncodeWithPrefix_inv in He as (n & slot & content & Hn & Hok & Hl & -> & Hd); [|by right|done|done].
  set (body := body_image (header f) slot content) in *.
  pose proof (DecodeOwned_Decode body limits aead) as Ho. rewrite Hd in Ho.
  unfold DecodeOwned in Ho. apply bindR_Ok in Ho as (v & Hv & Ho). injection Ho as Hv2.
  assert (0 <= zlen (payload f)) as Hpl by ulia.
  pose proof (proj1 (EncodedSize_Ok _ _ _ _ _ Hpl) Hn) as Hen.
  destruct (en_wire _ _ _ _ _ Hen) as (Hw1 & Hw2 & Hw3).
  pose proof (CanonicalHeaderLength_bound (flags (header f))).
  exists ((body, v) :: fs). unfold prefix_bytes in *. cbn [Nat.eqb kLengthPrefixSize] in *.
  cbn [concat]. rewrite <- app_assoc. split_and!.
  - apply parse_frame; try done.
    + unfold frame_length_ok, kWireMaximumHeaderLength, kWireBaseHeaderLength, kWirePayloadCrcLength,
        kWirePerfTraceContextLength. rewrite Hl.
      rewrite zlen_app in Hm. unfold zlen in Hm at 1. rewrite be_bytes_length, Hl in Hm.
      assert (80 <= n) by (destruct (HasFrameFlag _ _), (HasFrameFlag _ _); lia). lia.
    + unfold is_u32. rewrite Hl. split; [|lia]. destruct (HasFrameFlag _ _), (HasFrameFlag _ _); lia.
  - cbn [fmap list_fmap]. rewrite <- Hmap. f_equal. by cbn.
  - rewrite !zlen_app, Hlen. change (body_bytes ((body, v) :: fs)) with (zlen body + body_bytes fs).
    replace (zlen (be_bytes 4 (zlen body))) with 4 by (unfold zlen; by rewrite be_bytes_length).
    replace (zlen ((body, v) :: fs)) with (1 + zlen fs) by (unfold zlen; cbn [length]; lia). lia.
  - constructor; [|done]. by eapply RebindPayload_bound.
Qed.

(** Frames sent as length-prefixed encodings and received in chunks cut
    anywhere are delivered, all of them, in order and unchanged, and the stream
    then ends cleanly, as long as the whole stream fits the per-push budgets. *)
Theorem stream_round_trip (B : Crc32cBackend) (BL : Crc32cLaws B) (P : AeadProvider)
    (PL : AeadLaws P) (limits : WireFrameLimits) (aead : option WireAeadKeyring)
    (sent : list WireFrame) (wires chunks : list (list byte)) :
  aead_ok aead ->
  Forall2 (fun f w => header_ok (header f) /\ EncodeLengthPrefixed f limits aead = Ok w /\
                      zlen w <= max_buffered_bytes limits) sent wires ->
  concat chunks = concat wires ->
  2 * zlen (concat wires) <= max_work_bytes_per_push limits ->
  zlen sent <= max_frames_per_push limits ->
  zlen (concat wires) <= max_decoded_payload_bytes_per_push limits ->
  exists d views,
    run_pushes (SetAeadKeyring (new_decoder limits) aead) chunks = (d, Ok views) /\
    IntoWireFrame <$> views = sent /\ Finish d = (d, Ok tt).
Proof.
  intros Ha Hsent Hc Hw Hn Hp.
  destruct (encoded_stream_parse limits aead sent wires Ha Hsent) as (fs & Hparse & Hmap & Hlen & Hall).
  assert (zlen fs = zlen sent) as Hfs by (rewrite <- Hmap; unfold zlen; by rewrite length_fmap).
  assert (payload_bytes fs <= body_bytes fs) as Hpb.
  { clear -Hall. induction Hall as [|f fs Hf _ IH]; [done|].
    change (body_bytes (f :: fs)) with (zlen f.1 + body_bytes fs).
    change (payload_bytes (f :: fs)) with (zlen (RebindPayload f.2) + payload_bytes fs). lia. }
  pose proof (zlen_nonneg fs).
  destruct (run_pushes_complete chunks (SetAeadKeyring (new_decoder limits) aead) fs []
    (new_decoder_wf limits aead) eq_refl) as (d & Hrun & Hpend & Hwf & Hf).
  - cbn. by rewrite Hc.
  - unfold within_budget. cbn. rewrite Hc. lia.
  - exists d, (snd <$> fs). split_and!; [done| |].
    + by rewrite <- list_fmap_compose.
    + pose proof (buffered_pending d Hwf) as Hb. rewrite Hpend in Hb. unfold buffered_bytes, zlen in Hb.
      cbn [length] in Hb. unfold Finish. rewrite Hf.
      replace (prefix_size_ d) with 0%nat by lia. by replace (length (frame_buffer_ d)) with 0%nat by lia.
Qed.

(** A sequence of calls on one decoder. *)
Inductive DecoderCall : Type :=
| CallPush (bytes : list byte) | CallFinish | CallReset | CallSetAead (aead : option WireAeadKeyring).

Definition run_call {B : Crc32cBackend} {P : AeadProvider}
    (d : LengthPrefixedFrameDecoder) (c : DecoderCall) : LengthPrefixedFrameDecoder :=
  match c with
  | CallPush bytes => (Push d bytes).1
  | CallFinish => (Finish d).1
  | CallReset => Reset d
  | CallSetAead aead => SetAeadKeyring d aead
  end.

Lemma decoder_call_wf {B : Crc32cBackend} {P : AeadProvider} d c :
  decoder_wf d -> decoder_wf (run_call d c) /\ limits_ (run_call d c) = limits_ d.
Proof.
  intros Hd. destruct c as [bytes| | |aead]; cbn [run_call].
  - destruct (failed_ d) eqn:Hf.
    + unfold Push. by rewrite Hf.
    + by destruct (Push_spec d bytes Hd Hf) as (? & ? & _).
  - unfold Finish. destruct (failed_ d); [done|]. destruct (_ || _); [|done].
    split; [by apply release_wf|done].
  - split; [by apply release_wf|done].
  - split; [|done]. by destruct Hd; split.
Qed.

Lemma decoder_calls_wf {B : Crc32cBackend} {P : AeadProvider} calls : forall d,
  decoder_wf d -> decoder_wf (foldl run_call d calls) /\
                  limits_ (foldl run_call d calls) = limits_ d.
Proof.
  induction calls as [|c calls IH]; intros d Hd; [done|]. cbn [foldl].
  destruct (decoder_call_wf d c Hd) as [Hw Hl]. destruct (IH _ Hw) as [Hw' Hl']. split; [done|congruence].
Qed.

Lemma pending_bound d :
  decoder_wf d -> buffered_bytes d <= Z.max 3 (max_buffered_bytes (limits_ d)).
Proof.
  intros Hd. rewrite buffered_pending by done.
  destruct (pending_incomplete d Hd) as [H|(_ & (_ & H) & H')]; lia.
Qed.

(** After any sequence of calls the decoder retains at most the configured
    number of bytes (or an incomplete prefix); a push that fails, and only it,
    drops everything and leaves the decoder failed; a failed decoder refuses
    every push and the end of the stream, unchanged, until [Reset]; and the end
    of the stream is accepted exactly when nothing is pending. *)
Theorem stream_decoder_safety (B : Crc32cBackend) (P : AeadProvider)
    (limits : WireFrameLimits) (calls : list DecoderCall) (bytes : list byte) :
  let d := foldl run_call (new_decoder limits) calls in
  buffered_bytes d <= Z.max 3 (max_buffered_bytes limits) /\
  (failed_ d = false ->
   let '(d', r) := Push d bytes in
   failed_ d' = negb (is_ok r) /\ (is_ok r = false -> buffered_bytes d' = 0)) /\
  (failed_ d = true ->
   is_ok (Push d bytes).2 = false /\ (Push d bytes).1 = d /\
   is_ok (Finish d).2 = false /\ (Finish d).1 = d) /\
  (is_ok (Finish d).2 = true <-> failed_ d = false /\ buffered_bytes d = 0) /\
  (failed_ (Reset d) = false /\ buffered_bytes (Reset d) = 0).
Proof.
  intros d. destruct (decoder_calls_wf calls (new_decoder limits) (new_decoder_wf limits None)) as [Hd Hl].
  fold d in Hd, Hl. split; [|split; [|split; [|split]]].
  - pose proof (pending_bound d Hd). rewrite Hl in *. done.
  - intros Hf. pose proof (Push_spec d bytes Hd Hf) as H.
    destruct (Push d bytes) as [d' [views|s]]; unfold loop_outcome in H; cbn [fst snd] in H;
      destruct H as (Hw & _ & _ & H).
    + by destruct H as [-> _].
    + destruct H as (-> & Hp & _). split; [done|]. intros _.
      by rewrite buffered_pending, Hp by done.
  - intros Hf. unfold Push, Finish. by rewrite Hf.
  - unfold Finish, buffered_bytes, zlen. destruct (failed_ d); [split; [done|by intros []]|].
    destruct (Nat.eqb_spec (prefix_size_ d) 0), (Nat.eqb_spec (length (frame_buffer_ d)) 0);
      cbn [negb orb is_ok snd]; split; try done; lia.
  - done.
Qed.

(** ** A concrete stream *)

Definition sample_wire : list byte :=
  Eval vm_compute in
    match @EncodeLengthPrefixed software_backend identity_provider sample_control default_limits None with
    | Ok b => b | Err _ => [] end.

(** A stream cut inside its frame is accepted; one whose prefix announces an empty frame is not. *)
Lemma push_refines_stream_witness :
  (exists d1 views, @run_pushes software_backend identity_provider
     (SetAeadKeyring (new_decoder default_limits) None) [take 100 sample_wire; drop 100 sample_wire]
     = (d1, Ok views) /\
   exists fs, @accepted software_backend identity_provider default_limits None []
     [take 100 sample_wire; drop 100 sample_wire] fs (pending d1)) /\
  (forall fs p, ~ @accepted software_backend identity_provider default_limits None []
     [[Byte.x00; Byte.x00]; [Byte.x00; Byte.x00; Byte.x00]] fs p).
Proof.
  split.
  - pose proof (push_refines_stream software_backend identity_provider default_limits None
      [take 100 sample_wire; drop 100 sample_wire] [] ltac:(discriminate) ltac:(discriminate) ltac:(discriminate)) as H.
    cbv zeta in H. eexists _, _. split; [vm_compute; reflexivity|].
    match type of H with let '(_, _) := ?x in _ => let y := eval vm_compute in x in
      replace x with y in H by (vm_compute; reflexivity) end.
    destruct H as (_ & (fs & H & _) & _). exists fs. exact H.
  - pose proof (push_refines_stream software_backend identity_provider default_limits None
      [[Byte.x00; Byte.x00]; [Byte.x00; Byte.x00; Byte.x00]] [] ltac:(discriminate) ltac:(discriminate) ltac:(discriminate)) as H.
    cbv zeta in H.
    match type of H with let '(_, _) := ?x in _ => let y := eval vm_compute in x in
      replace x with y in H by (vm_compute; reflexivity) end.
    apply H.
Defined.

Lemma stream_round_trip_witness :
  exists d views,
    @run_pushes software_backend identity_provider
      (SetAeadKeyring (new_decoder default_limits) None)
      [take 3 sample_wire; drop 3 sample_wire ++ take 50 sample_wire; drop 50 sample_wire]
    = (d, Ok views) /\
    IntoWireFrame <$> views = [sample_control; sample_control] /\ Finish d = (d, Ok tt).
Proof.
  apply (stream_round_trip software_backend software_laws identity_provider identity_laws
    default_limits None [sample_control; sample_control] [sample_wire; sample_wire]).
  - exact I.
  - apply Forall2_cons; [|apply Forall2_cons; [|apply Forall2_nil]];
      (split; [apply sample_control_ok|]; split; [vm_compute; reflexivity|vm_compute; discriminate]).
  - vm_compute. reflexivity.
  - vm_compute. discriminate.
  - vm_compute. discriminate.
  - vm_compute. discriminate.
Defined.
