(* ===== verification/ControlPayload.v ===== *)
(** * Control payloads

    Models [mino/bridge/control_payload.h] and [.cc]: the ACK, session hello
    and session discovery payloads carried by control frames, with
    [ProcessIdentity] of [mino/platform/process_identity.h]. *)
From S2P Require Import Prelude Bytes SourceIdentity.

Definition kControlPayloadVersion : Z := 1.
Definition kAckPayloadWireSize : Z := 64.
Definition kSessionHelloHeaderWireSize : Z := 24.
Definition kSessionHelloEntryWireSize : Z := 32.
Definition kSessionDiscoveryLegacyPayloadVersion : Z := 1.
Definition kSessionDiscoveryCurrentPayloadVersion : Z := 2.
Definition kSessionDiscoveryPayloadWireSize : Z := 72.
Definition kAckHighestPresent : Z := 1.
Definition kHelloDedupStateLost : Z := 1.

(** A value of the enumeration is any byte; two are named. *)
Inductive AckDisposition : Set :=
| kAccepted | kNackWithHighest | kUnnamedDisposition (raw : Z).
#[export] Instance AckDisposition_eq_dec : EqDecision AckDisposition.
Proof. solve_decision. Defined.

Definition disposition_value (d : AckDisposition) : Z :=
  match d with kAccepted => 1 | kNackWithHighest => 2 | kUnnamedDisposition raw => raw end.
Definition disposition_of (raw : Z) : AckDisposition :=
  match raw with 1 => kAccepted | 2 => kNackWithHighest | _ => kUnnamedDisposition raw end.

Record AckPayload : Set := mkAck {
  sender_session_epoch : Z; receiver_session_epoch : Z; source : SourceIdentity;
  observed_sequence : Z; highest_contiguous_sequence : option Z; disposition : AckDisposition
}.

Record SessionHelloSource : Set := mkHelloSource {
  hello_source : SourceIdentity; last_accepted_sequence : Z
}.

Record SessionHello : Set := mkHello {
  hello_sender_epoch : Z; hello_receiver_epoch : Z; dedup_state_lost : bool;
  sources : list SessionHelloSource
}.

Record ProcessIdentity : Set := mkProcess {
  process_node_id : Z; process_id : Z; process_epoch : Z; start_time_ns : Z
}.
Definition IsZero (p : ProcessIdentity) : bool :=
  (process_node_id p =? 0) && (process_id p =? 0) && (process_epoch p =? 0)
  && (start_time_ns p =? 0).

Record SessionDiscovery : Set := mkDiscovery {
  session_epoch : Z; discovery_node_id : Z; process_identity : ProcessIdentity;
  lease_epoch : Z; node_config_version : Z; lane_index : Z; lane_count : Z
}.

Record ControlPayloadLimits : Set := mkControlLimits {
  max_hello_sources : Z; max_hello_payload_bytes : Z
}.
Definition default_control_limits : ControlPayloadLimits := mkControlLimits 4096 (256 * 1024).

(** ** Helpers *)

Definition EncodeSource (s : SourceIdentity) (output : list byte) (offset : nat) : list byte :=
  let output := WriteBe64 output offset (node_id s) in
  let output := WriteBe64 output (offset + 8) (publisher_id s) in
  WriteBe64 output (offset + 16) (publisher_epoch s).

Definition DecodeSource (input : list byte) (offset : nat) : SourceIdentity :=
  mkSource (ReadBe64 input offset) (ReadBe64 input (offset + 8)) (ReadBe64 input (offset + 16)).

Definition ValidDisposition (d : AckDisposition) : bool :=
  match d with kUnnamedDisposition _ => false | _ => true end.

Definition ValidDiscoveryIdentity (d : SessionDiscovery) : bool :=
  negb (session_epoch d =? 0) && negb (discovery_node_id d =? 0)
  && negb (IsZero (process_identity d))
  && (process_node_id (process_identity d) =? discovery_node_id d)
  && negb (lease_epoch d =? 0) && negb (node_config_version d =? 0).

Definition ValidDiscoveryLane (d : SessionDiscovery) : bool :=
  negb (lane_count d =? 0) && (lane_count d <=? kMaxBridgeLaneCount)
  && (lane_index d <? lane_count d).

(** The nested loops over [i < j]. *)
Fixpoint HasDuplicateSources (l : list SessionHelloSource) : bool :=
  match l with
  | [] => false
  | s :: rest =>
      existsb (fun t => bool_decide (hello_source s = hello_source t)) rest
      || HasDuplicateSources rest
  end.

Definition HelloWireSize (source_count : Z) (limits : ControlPayloadLimits) (decoding : bool)
  : Result Z :=
  let bad_input := if decoding then Corruption else Invalid in
  fail_if max_hello_sources limits <? source_count
    with Resource "session hello source count exceeds limit" ;;
  fail_if u32_max <? source_count
    with bad_input "session hello source count is not representable"%string ;;
  fail_if max_hello_payload_bytes limits <? kSessionHelloHeaderWireSize
    with Resource "session hello payload limit is too small" ;;
  let available := max_hello_payload_bytes limits - kSessionHelloHeaderWireSize in
  fail_if available / kSessionHelloEntryWireSize <? source_count
    with Resource "session hello payload exceeds byte limit" ;;
  Ok (kSessionHelloHeaderWireSize + source_count * kSessionHelloEntryWireSize).

(** ** ACK *)

Definition EncodeAck (p : AckPayload) : Result (list byte) :=
  fail_if negb (ValidDisposition (disposition p)) with Invalid "ACK disposition is unknown" ;;
  fail_if bool_decide (disposition p = kNackWithHighest)
          && negb (bool_decide (is_Some (highest_contiguous_sequence p)))
    with Invalid "NACK_WITH_HIGHEST requires highest sequence" ;;
  let output := replicate (Z.to_nat kAckPayloadWireSize) Byte.x00 in
  let output := WriteBe16 output 0 kControlPayloadVersion in
  let output := <[2%nat := byte_of_Z (disposition_value (disposition p))]> output in
  let output := <[3%nat := byte_of_Z
    (if bool_decide (is_Some (highest_contiguous_sequence p)) then kAckHighestPresent else 0)]> output in
  let output := WriteBe32 output 4 0 in
  let output := WriteBe64 output 8 (sender_session_epoch p) in
  let output := WriteBe64 output 16 (receiver_session_epoch p) in
  let output := EncodeSource (source p) output 24 in
  let output := WriteBe64 output 48 (observed_sequence p) in
  Ok (WriteBe64 output 56 (default 0 (highest_contiguous_sequence p))).

Definition DecodeAck (payload : list byte) : Result AckPayload :=
  fail_if negb (zlen payload =? kAckPayloadWireSize)
    with Corruption "ACK payload has noncanonical length" ;;
  fail_if negb (ReadBe16 payload 0 =? kControlPayloadVersion)
    with Corruption "ACK payload version is unsupported" ;;
  let disposition := disposition_of (Z_of_byte (payload !!! 2%nat)) in
  fail_if negb (ValidDisposition disposition) with Corruption "ACK disposition is unknown" ;;
  let flags := Z_of_byte (payload !!! 3%nat) in
  fail_if negb (Z.land flags (Z.lnot kAckHighestPresent) =? 0) || negb (ReadBe32 payload 4 =? 0)
    with Corruption "ACK payload has nonzero reserved bits" ;;
  let has_highest := negb (Z.land flags kAckHighestPresent =? 0) in
  let highest := ReadBe64 payload 56 in
  fail_if negb has_highest && negb (highest =? 0)
    with Corruption "ACK absent highest field is not zero" ;;
  fail_if bool_decide (disposition = kNackWithHighest) && negb has_highest
    with Corruption "NACK_WITH_HIGHEST omits highest sequence" ;;
  Ok (mkAck (ReadBe64 payload 8) (ReadBe64 payload 16) (DecodeSource payload 24)
        (ReadBe64 payload 48) (if has_highest then Some highest else None) disposition).

(** ** Session hello *)

(** The loop over the sources. *)
Fixpoint encode_hello_sources (l : list SessionHelloSource) (output : list byte) (offset : nat)
  : list byte :=
  match l with
  | [] => output
  | s :: rest =>
      let output := EncodeSource (hello_source s) output offset in
      let output := WriteBe64 output (offset + 24) (last_accepted_sequence s) in
      encode_hello_sources rest output (offset + Z.to_nat kSessionHelloEntryWireSize)
  end.

Definition EncodeSessionHello (hello : SessionHello) (limits : ControlPayloadLimits)
  : Result (list byte) :=
  let! size := HelloWireSize (zlen (sources hello)) limits false in
  fail_if (hello_sender_epoch hello =? 0) || (hello_receiver_epoch hello =? 0)
    with Invalid "session hello epochs must be nonzero" ;;
  fail_if HasDuplicateSources (sources hello)
    with Invalid "session hello contains a duplicate source" ;;
  let output := replicate (Z.to_nat size) Byte.x00 in
  let output := WriteBe16 output 0 kControlPayloadVersion in
  let output := WriteBe16 output 2 (if dedup_state_lost hello then kHelloDedupStateLost else 0) in
  let output := WriteBe32 output 4 (wrap32 (zlen (sources hello))) in
  let output := WriteBe64 output 8 (hello_sender_epoch hello) in
  let output := WriteBe64 output 16 (hello_receiver_epoch hello) in
  Ok (encode_hello_sources (sources hello) output (Z.to_nat kSessionHelloHeaderWireSize)).

Fixpoint decode_hello_sources (count : nat) (payload : list byte) (offset : nat)
  : list SessionHelloSource :=
  match count with
  | O => []
  | S count' =>
      mkHelloSource (DecodeSource payload offset) (ReadBe64 payload (offset + 24))
      :: decode_hello_sources count' payload (offset + Z.to_nat kSessionHelloEntryWireSize)
  end.

Definition DecodeSessionHello (payload : list byte) (limits : ControlPayloadLimits)
  : Result SessionHello :=
  fail_if zlen payload <? kSessionHelloHeaderWireSize
    with Corruption "session hello header is truncated" ;;
  fail_if max_hello_payload_bytes limits <? zlen payload
    with Resource "session hello payload exceeds byte limit" ;;
  fail_if negb (ReadBe16 payload 0 =? kControlPayloadVersion)
    with Corruption "session hello version is unsupported" ;;
  let flags := ReadBe16 payload 2 in
  fail_if negb (Z.land flags (Z.lnot kHelloDedupStateLost) =? 0)
    with Corruption "session hello has nonzero reserved flags" ;;
  let count := ReadBe32 payload 4 in
  let! expected_size := HelloWireSize count limits true in
  fail_if negb (zlen payload =? expected_size)
    with Corruption "session hello has noncanonical length" ;;
  let sender := ReadBe64 payload 8 in
  let receiver := ReadBe64 payload 16 in
  fail_if (sender =? 0) || (receiver =? 0)
    with Corruption "session hello epochs must be nonzero" ;;
  let lost := negb (Z.land flags kHelloDedupStateLost =? 0) in
  let l := decode_hello_sources (Z.to_nat count) payload (Z.to_nat kSessionHelloHeaderWireSize) in
  fail_if HasDuplicateSources l with Corruption "session hello contains a duplicate source" ;;
  Ok (mkHello sender receiver lost l).

(** ** Session discovery *)

Definition EncodeSessionDiscovery (d : SessionDiscovery) : Result (list byte) :=
  fail_if negb (ValidDiscoveryIdentity d) with Invalid "session discovery identity is incomplete" ;;
  fail_if negb (ValidDiscoveryLane d) with Invalid "session discovery lane is invalid" ;;
  let output := replicate (Z.to_nat kSessionDiscoveryPayloadWireSize) Byte.x00 in
  let output :=
    if lane_count d =? 1
    then let output := WriteBe16 output 0 kSessionDiscoveryLegacyPayloadVersion in
         let output := WriteBe16 output 2 0 in
         WriteBe32 output 4 0
    else let output := WriteBe16 output 0 kSessionDiscoveryCurrentPayloadVersion in
         let output := WriteBe16 output 2 0 in
         let output := WriteBe16 output 4 (lane_index d) in
         WriteBe16 output 6 (lane_count d) in
  let p := process_identity d in
  let output := WriteBe64 output 8 (session_epoch d) in
  let output := WriteBe64 output 16 (discovery_node_id d) in
  let output := WriteBe64 output 24 (process_node_id p) in
  let output := WriteBe64 output 32 (process_id p) in
  let output := WriteBe64 output 40 (process_epoch p) in
  let output := WriteBe64 output 48 (start_time_ns p) in
  let output := WriteBe64 output 56 (lease_epoch d) in
  Ok (WriteBe64 output 64 (node_config_version d)).

Definition DecodeSessionDiscovery (payload : list byte) : Result SessionDiscovery :=
  fail_if negb (zlen payload =? kSessionDiscoveryPayloadWireSize)
    with Corruption "session discovery payload has noncanonical length" ;;
  let version := ReadBe16 payload 0 in
  let with_lane index count :=
    mkDiscovery (ReadBe64 payload 8) (ReadBe64 payload 16)
      (mkProcess (ReadBe64 payload 24) (ReadBe64 payload 32) (ReadBe64 payload 40)
         (ReadBe64 payload 48))
      (ReadBe64 payload 56) (ReadBe64 payload 64) index count in
  let! discovery :=
    (if version =? kSessionDiscoveryLegacyPayloadVersion
     then fail_if negb (ReadBe16 payload 2 =? 0) || negb (ReadBe32 payload 4 =? 0)
            with Corruption "legacy session discovery payload has nonzero reserved bits" ;;
          Ok (with_lane 0 1)
     else if version =? kSessionDiscoveryCurrentPayloadVersion
     then fail_if negb (ReadBe16 payload 2 =? 0)
            with Corruption "session discovery payload has nonzero reserved flags" ;;
          let d := with_lane (ReadBe16 payload 4) (ReadBe16 payload 6) in
          fail_if (lane_count d <? 2) || negb (ValidDiscoveryLane d)
            with Corruption "session discovery lane is invalid" ;;
          Ok d
     else Err (Corruption "session discovery payload version is unsupported")) in
  fail_if negb (ValidDiscoveryIdentity discovery)
    with Corruption "session discovery identity is incomplete" ;;
  Ok discovery.

(** ** Layouts *)

Definition source_bytes (s : SourceIdentity) : list byte :=
  be_bytes 8 (node_id s) ++ be_bytes 8 (publisher_id s) ++ be_bytes 8 (publisher_epoch s).

Lemma source_bytes_length s : length (source_bytes s) = 24%nat.
Proof. done. Qed.

Lemma write_source s a n off :
  off = length a ->
  EncodeSource s (a ++ replicate (24 + n) Byte.x00) off = (a ++ source_bytes s) ++ replicate n Byte.x00.
Proof.
  intros ->. unfold EncodeSource, WriteBe64, source_bytes. cbv zeta. repeat write_field.
  rewrite !be_bytes_length, <- !app_assoc. repeat f_equal. lia.
Qed.

Lemma read_source s a b off :
  source_ok s -> off = length a -> DecodeSource (a ++ source_bytes s ++ b) off = s.
Proof.
  intros (H1 & H2 & H3) ->. unfold DecodeSource, source_bytes, ReadBe64. destruct s as [x y z].
  cbn [node_id publisher_id publisher_epoch] in *. rewrite <- !app_assoc.
  f_equal; rewrite (read_be_skip _ a) by lia;
    rewrite ?Nat.sub_diag, ?(Nat.add_comm (length a)), ?Nat.add_sub; read_field; done.
Qed.

Lemma split_source body off :
  (off + 24 <= length body)%nat ->
  drop off body = source_bytes (DecodeSource body off) ++ drop (off + 24) body.
Proof.
  intros H. unfold source_bytes, DecodeSource, ReadBe64. cbn [node_id publisher_id publisher_epoch].
  rewrite (drop_field 8 body off), (drop_field 8 body (off + 8)), (drop_field 8 body (off + 8 + 8)) by lia.
  rewrite <- !(Nat.add_assoc off). cbn [Nat.add]. by rewrite <- !app_assoc.
Qed.

Lemma DecodeSource_ok body off : (off + 24 <= length body)%nat -> source_ok (DecodeSource body off).
Proof.
  intros H. unfold source_ok, DecodeSource. cbn [node_id publisher_id publisher_epoch].
  repeat match goal with |- _ /\ _ => split end; read_bound.
Qed.

(** *** ACK *)

Definition highest_flag (p : AckPayload) : Z :=
  if bool_decide (is_Some (highest_contiguous_sequence p)) then kAckHighestPresent else 0.

Definition ack_image (p : AckPayload) : list byte :=
  be_bytes 2 kControlPayloadVersion ++ be_bytes 1 (disposition_value (disposition p)) ++
  be_bytes 1 (highest_flag p) ++ be_bytes 4 0 ++ be_bytes 8 (sender_session_epoch p) ++
  be_bytes 8 (receiver_session_epoch p) ++ source_bytes (source p) ++
  be_bytes 8 (observed_sequence p) ++ be_bytes 8 (default 0 (highest_contiguous_sequence p)).

(** The fields fit their C++ types. *)
Record ack_ok (p : AckPayload) : Prop := {
  ak_sender : is_u64 (sender_session_epoch p);
  ak_receiver : is_u64 (receiver_session_epoch p);
  ak_source : source_ok (source p);
  ak_observed : is_u64 (observed_sequence p);
  ak_highest : is_u64 (default 0 (highest_contiguous_sequence p))
}.

Definition ack_valid (p : AckPayload) : Prop :=
  ValidDisposition (disposition p) = true /\
  (disposition p = kNackWithHighest -> is_Some (highest_contiguous_sequence p)).

Lemma EncodeAck_Ok p l : EncodeAck p = Ok l <-> ack_valid p /\ l = ack_image p.
Proof.
  assert (WriteBe64 (WriteBe64 (EncodeSource (source p) (WriteBe64 (WriteBe64 (WriteBe32
    (<[3%nat := byte_of_Z (highest_flag p)]> (<[2%nat := byte_of_Z (disposition_value (disposition p))]>
      (WriteBe16 (replicate 64 Byte.x00) 0 kControlPayloadVersion))) 4 0) 8 (sender_session_epoch p))
    16 (receiver_session_epoch p)) 24) 48 (observed_sequence p)) 56
    (default 0 (highest_contiguous_sequence p)) = ack_image p) as Himg.
  { rewrite !insert_byte. unfold ack_image, WriteBe64, WriteBe32, WriteBe16, EncodeSource, source_bytes.
    cbv zeta. unfold WriteBe64. rewrite <- (app_nil_l (replicate 64 _)). repeat write_field.
    rewrite !be_bytes_length. cbn [Nat.sub replicate]. rewrite app_nil_r, app_nil_l.
    by rewrite <- !app_assoc. }
  unfold EncodeAck, ack_valid, kAckPayloadWireSize. fold (highest_flag p). cbv zeta.
  change (Z.to_nat 64) with 64%nat. rewrite Himg.
  destruct (ValidDisposition (disposition p)); cbn [negb]; [|split; [done|by intros [[? _] _]]].
  case_bool_decide as Hd; cbn [andb].
  - case_bool_decide as Hh; cbn [negb].
    + split; [intros H; inv_ok; by split_and!|by intros [_ ->]].
    + split; [done|]. intros [[_ H] _]. by destruct Hh, (H Hd).
  - split; [intros H; inv_ok; by split_and!|by intros [_ ->]].
Qed.

Ltac read_fields_in_image :=
  unfold ReadBe64, ReadBe32, ReadBe16;
  rewrite <- ?app_assoc; read_field.

Lemma disposition_of_value d : ValidDisposition d = true -> disposition_of (disposition_value d) = d.
Proof. by destruct d. Qed.

Lemma ack_image_reads p :
  ack_ok p -> ack_valid p ->
  let l := ack_image p in
  zlen l = kAckPayloadWireSize /\ ReadBe16 l 0 = kControlPayloadVersion /\
  Z_of_byte (l !!! 2%nat) = disposition_value (disposition p) /\
  Z_of_byte (l !!! 3%nat) = highest_flag p /\ ReadBe32 l 4 = 0 /\
  ReadBe64 l 8 = sender_session_epoch p /\ ReadBe64 l 16 = receiver_session_epoch p /\
  DecodeSource l 24 = source p /\ ReadBe64 l 48 = observed_sequence p /\
  ReadBe64 l 56 = default 0 (highest_contiguous_sequence p).
Proof.
  intros Hp Hv l. subst l. rewrite !read_byte. unfold ack_image.
  assert (0 <= disposition_value (disposition p) < 256) as Hd.
  { destruct Hv as [Hv _]. destruct (disposition p); cbn in *; (done || lia). }
  assert (0 <= highest_flag p < 256) as Hf
    by (unfold highest_flag, kAckHighestPresent; case_bool_decide; lia).
  destruct (ak_source _ Hp) as (? & ? & ?). destruct Hp.
  assert (forall A B C D E F G H I J : Prop, A -> B -> C -> D -> E -> F -> G -> H -> I -> J ->
    A /\ B /\ C /\ D /\ E /\ F /\ G /\ H /\ I /\ J) as and10 by tauto.
  apply and10.
  - reflexivity.
  - read_fields_in_image. done.
  - read_fields_in_image. done.
  - read_fields_in_image. done.
  - read_fields_in_image. done.
  - read_fields_in_image. done.
  - read_fields_in_image. done.
  - rewrite (app_assoc (be_bytes 2 _)), (app_assoc (_ ++ be_bytes 1 _)), (app_assoc (_ ++ be_bytes 1 _)),
      (app_assoc (_ ++ be_bytes 4 _)), (app_assoc (_ ++ be_bytes 8 _)).
    apply read_source; [done|reflexivity].
  - unfold source_bytes. read_fields_in_image. done.
  - unfold source_bytes.
    rewrite <- (app_nil_r (be_bytes 8 (default 0 (highest_contiguous_sequence p)))).
    read_fields_in_image. done.
Qed.

(** A flags field with only bit 0 allowed. *)
Lemma single_flag f :
  0 <= f -> Z.land f (Z.lnot 1) = 0 -> f = if negb (Z.land f 1 =? 0) then 1 else 0.
Proof.
  intros H0 H. change (Z.land f (Z.lnot (Z.ones 1)) = 0) in H. rewrite <- Z.ldiff_land, Z.ldiff_ones_r in H by lia.
  rewrite Z.shiftr_div_pow2, Z.shiftl_mul_pow2 in H by lia. change (2 ^ 1) with 2 in H.
  pose proof (Z.div_mod f 2). pose proof (Z.mod_pos_bound f 2).
  assert (f = 0 \/ f = 1) as [-> | ->] by lia; done.
Qed.

Lemma disposition_value_of z :
  ValidDisposition (disposition_of z) = true -> disposition_value (disposition_of z) = z.
Proof.
  destruct z as [|q|q]; [done| |done]. do 2 (try (destruct q as [q|q|]; try done)).
Qed.

Lemma DecodeAck_Ok l p : DecodeAck l = Ok p <-> ack_ok p /\ ack_valid p /\ l = ack_image p.
Proof.
  split.
  - unfold DecodeAck. intros H. step_if. step_if. cbv zeta in H. step_if. step_if.
    step_if. step_if. inv_ok. bool_to_prop. unfold kAckPayloadWireSize, kAckHighestPresent in *.
    rewrite (read_byte l 3) in *. set (f := read_be 1 l 3) in *.
    assert (length l = 64%nat) as Hl by ulia.
    pose proof (read_be_bound 1 l 3 ltac:(lia)) as Hf0. fold f in Hf0.
    assert (f = if negb (Z.land f 1 =? 0) then 1 else 0) as Hf by (apply single_flag; [lia|done]).
    set (hh := negb (Z.land f 1 =? 0)) in *.
    assert (hh = false -> ReadBe64 l 56 = 0) as Hz.
    { intros Eh. rewrite Eh in *. destruct E3 as [E3|E3]; [done|]. by bool_to_prop. }
    set (disp := disposition_of (Z_of_byte (l !!! 2%nat))) in *.
    split; [|split].
    + split; cbn [sender_session_epoch receiver_session_epoch source observed_sequence
        highest_contiguous_sequence]; try read_bound; [apply DecodeSource_ok; lia|].
      destruct hh; [change (is_u64 (ReadBe64 l 56)); read_bound|unfold is_u64; cbn; lia].
    + split; cbn [disposition highest_contiguous_sequence]; [done|]. intros Hd.
      destruct hh; [by eexists|]. destruct E4 as [E4|E4]; [|done].
      apply bool_decide_eq_false in E4. done.
    + unfold ack_image, highest_flag. cbn [disposition sender_session_epoch receiver_session_epoch source
        observed_sequence highest_contiguous_sequence].
      unfold disp. rewrite disposition_value_of by done. rewrite read_byte.
      replace (if bool_decide (is_Some (if hh then Some (ReadBe64 l 56) else None)) then kAckHighestPresent else 0)
        with f by (rewrite Hf; by destruct hh).
      replace (default 0 (if hh then Some (ReadBe64 l 56) else None)) with (ReadBe64 l 56)
        by (destruct hh; [done|by rewrite Hz]).
      rewrite <- E0. replace (be_bytes 4 0) with (be_bytes 4 (ReadBe32 l 4)) by congruence.
      unfold f, ReadBe64, ReadBe32, ReadBe16.
      rewrite <- (drop_0 l) at 1. peel 2%nat l 0%nat; peel 1%nat l 2%nat; peel 1%nat l 3%nat;
        peel 4%nat l 4%nat; peel 8%nat l 8%nat; peel 8%nat l 16%nat.
      rewrite (split_source l 24) by lia. cbn [Nat.add]. peel 8%nat l 48%nat; peel 8%nat l 56%nat.
      by rewrite (drop_ge l 64), app_nil_r by lia.
  - intros (Hok & Hv & ->).
    destruct (ack_image_reads p Hok Hv) as (R1 & R2 & R3 & R4 & R5 & R6 & R7 & R8 & R9 & R10).
    unfold DecodeAck. rewrite R1, R2, R3, R4, R5, R6, R7, R8, R9, R10. destruct Hv as [Hv Hn].
    rewrite !Z.eqb_refl, disposition_of_value, Hv by done. cbn [negb]. cbv zeta.
    unfold highest_flag. case_bool_decide as Hh; cbn.
    + rewrite andb_false_r. destruct p as [? ? ? ? [z|] ?]; [done|]. by destruct Hh.
    + destruct p as [? ? ? ? [z|] d]; [by destruct Hh|]. cbn in *.
      by rewrite bool_decide_eq_false_2 by (intros E; by destruct (Hn E)).
Qed.

(** The ACK codec is a bijection between the payloads whose fields fit
    their types and the accepted byte strings: a payload encodes to [l] exactly
    when [l] decodes to it; nothing else decodes. *)
Theorem ack_codec_bijective (p : AckPayload) (l : list byte) :
  (ack_ok p -> EncodeAck p = Ok l -> DecodeAck l = Ok p /\ zlen l = kAckPayloadWireSize) /\
  (DecodeAck l = Ok p -> ack_ok p /\ EncodeAck p = Ok l).
Proof.
  split.
  - intros Hok [Hv ->]%EncodeAck_Ok. split; [by apply DecodeAck_Ok|reflexivity].
  - intros (Hok & Hv & ->)%DecodeAck_Ok. split; [done|]. by apply EncodeAck_Ok.
Qed.

Definition sample_ack : AckPayload := mkAck 3 4 (mkSource 1 2 3) 17 (Some 16) kNackWithHighest.

Lemma ack_codec_bijective_witness :
  exists l, EncodeAck sample_ack = Ok l /\ DecodeAck l = Ok sample_ack.
Proof.
  eexists. split; [vm_compute; reflexivity|].
  apply (proj1 (ack_codec_bijective sample_ack _)); [|vm_compute; reflexivity].
  split; unfold source_ok, is_u64; cbn; lia.
Defined.

(** *** Session hello *)

Definition entry_bytes (s : SessionHelloSource) : list byte :=
  source_bytes (hello_source s) ++ be_bytes 8 (last_accepted_sequence s).
Definition entries_bytes (l : list SessionHelloSource) : list byte := concat (entry_bytes <$> l).

Definition lost_flag (h : SessionHello) : Z := if dedup_state_lost h then kHelloDedupStateLost else 0.

Definition hello_image (h : SessionHello) : list byte :=
  (be_bytes 2 kControlPayloadVersion ++ be_bytes 2 (lost_flag h) ++ be_bytes 4 (zlen (sources h)) ++
   be_bytes 8 (hello_sender_epoch h) ++ be_bytes 8 (hello_receiver_epoch h)) ++
  entries_bytes (sources h).

Lemma entries_bytes_cons s l : entries_bytes (s :: l) = entry_bytes s ++ entries_bytes l.
Proof. done. Qed.

Lemma entries_bytes_length l : length (entries_bytes l) = (32 * length l)%nat.
Proof.
  induction l as [|s l IH]; [done|]. rewrite entries_bytes_cons, length_app, IH. cbn [length].
  change (length (entry_bytes s)) with 32%nat. lia.
Qed.

Lemma write_entries l : forall a off,
  off = length a ->
  encode_hello_sources l (a ++ replicate (32 * length l) Byte.x00) off = a ++ entries_bytes l.
Proof.
  induction l as [|s l IH]; intros a off ->; cbn [encode_hello_sources].
  { cbn. by rewrite !app_nil_r. }
  replace (32 * length (s :: l))%nat with (24 + (8 + 32 * length l))%nat by (cbn [length]; lia).
  rewrite write_source by done. unfold WriteBe64.
  rewrite write_next by (rewrite ?length_app, ?source_bytes_length, ?be_bytes_length; lia).
  rewrite be_bytes_length. replace (8 + 32 * length l - 8)%nat with (32 * length l)%nat by lia.
  change (Z.to_nat kSessionHelloEntryWireSize) with 32%nat.
  rewrite IH by (rewrite !length_app, source_bytes_length, be_bytes_length; lia).
  rewrite entries_bytes_cons. unfold entry_bytes. by rewrite <- !app_assoc.
Qed.

Definition entry_ok (s : SessionHelloSource) : Prop :=
  source_ok (hello_source s) /\ is_u64 (last_accepted_sequence s).

Lemma read_entries l : forall a off,
  off = length a -> Forall entry_ok l ->
  decode_hello_sources (length l) (a ++ entries_bytes l) off = l.
Proof.
  induction l as [|s l IH]; intros a off -> Hok; [done|].
  apply Forall_cons_1 in Hok as [[Hs Hl] Hok]. cbn [decode_hello_sources length].
  rewrite entries_bytes_cons. unfold entry_bytes. f_equal.
  - destruct s as [src last]. cbn [hello_source last_accepted_sequence] in *. f_equal.
    + rewrite <- app_assoc. by apply read_source.
    + unfold ReadBe64. rewrite <- app_assoc, (app_assoc a).
      rewrite read_be_app by (rewrite length_app; done). by apply Z.mod_small.
  - rewrite app_assoc. apply IH; [|done]. rewrite !length_app, be_bytes_length. reflexivity.
Qed.

Lemma split_entries n : forall payload off,
  (off + 32 * n = length payload)%nat ->
  drop off payload = entries_bytes (decode_hello_sources n payload off).
Proof.
  induction n as [|n IH]; intros payload off Hl; cbn [decode_hello_sources].
  { by rewrite drop_ge by lia. }
  rewrite entries_bytes_cons. unfold entry_bytes. cbn [hello_source last_accepted_sequence].
  rewrite (split_source payload off) by lia. rewrite (drop_field 8 payload (off + 24)) by lia.
  rewrite <- Nat.add_assoc, (IH payload (off + (24 + 8))%nat) by lia. by rewrite <- app_assoc.
Qed.

Lemma decode_hello_sources_ok n : forall payload off,
  (off + 32 * n <= length payload)%nat -> Forall entry_ok (decode_hello_sources n payload off).
Proof.
  induction n as [|n IH]; intros payload off Hl; cbn [decode_hello_sources]; [constructor|].
  constructor; [split; cbn [hello_source last_accepted_sequence]|].
  - apply DecodeSource_ok. lia.
  - read_bound.
  - apply IH. change (Z.to_nat kSessionHelloEntryWireSize) with 32%nat. lia.
Qed.

Lemma decode_hello_sources_length n payload off : length (decode_hello_sources n payload off) = n.
Proof. revert off. induction n; intros; cbn; [done|]. by rewrite IHn. Qed.

Lemma HelloWireSize_Ok n limits b size :
  0 <= n -> HelloWireSize n limits b = Ok size <->
  n <= max_hello_sources limits /\ n <= u32_max /\ size = 24 + n * 32 /\
  size <= max_hello_payload_bytes limits.
Proof.
  intros Hn. unfold HelloWireSize, kSessionHelloHeaderWireSize, kSessionHelloEntryWireSize.
  pose proof (Z.div_mod (max_hello_payload_bytes limits - 24) 32).
  pose proof (Z.mod_pos_bound (max_hello_payload_bytes limits - 24) 32).
  split.
  - intros Hs. repeat step_if. inv_ok. bool_to_prop. lia.
  - intros (? & ? & -> & ?). cbv zeta. do 4 pass_guard. done.
Qed.

(** The values the codec accepts. *)
Record hello_valid (h : SessionHello) (limits : ControlPayloadLimits) : Prop := {
  hv_size : HelloWireSize (zlen (sources h)) limits false = Ok (24 + zlen (sources h) * 32);
  hv_sender : hello_sender_epoch h <> 0;
  hv_receiver : hello_receiver_epoch h <> 0;
  hv_distinct : HasDuplicateSources (sources h) = false
}.

Lemma EncodeSessionHello_Ok h limits l :
  EncodeSessionHello h limits = Ok l <-> hello_valid h limits /\ l = hello_image h.
Proof.
  pose proof (Zle_0_nat (length (sources h))) as Hn. fold (zlen (sources h)) in Hn.
  assert (zlen (sources h) <= u32_max ->
    encode_hello_sources (sources h) (WriteBe64 (WriteBe64 (WriteBe32 (WriteBe16 (WriteBe16
      (replicate (Z.to_nat (24 + zlen (sources h) * 32)) Byte.x00) 0 kControlPayloadVersion) 2
      (lost_flag h)) 4 (wrap32 (zlen (sources h)))) 8 (hello_sender_epoch h)) 16 (hello_receiver_epoch h))
      (Z.to_nat kSessionHelloHeaderWireSize) = hello_image h) as Himg.
  { intros Hu. unfold wrap32. rewrite Z.mod_small by lia.
    replace (Z.to_nat (24 + zlen (sources h) * 32)) with (24 + 32 * length (sources h))%nat by ulia.
    unfold hello_image, WriteBe64, WriteBe32, WriteBe16.
    rewrite <- (app_nil_l (replicate (24 + _) _)). repeat write_field.
    rewrite !be_bytes_length. replace (24 + 32 * length (sources h) - 2 - 2 - 4 - 8 - 8)%nat
      with (32 * length (sources h))%nat by lia.
    rewrite write_entries by reflexivity. by rewrite app_nil_l, <- !app_assoc. }
  unfold EncodeSessionHello. fold (lost_flag h). split.
  - intros H. apply bindR_Ok in H as (size & Hs & H). do 2 step_if. apply Ok_inj in H. subst l.
    pose proof (proj1 (HelloWireSize_Ok _ _ _ _ Hn) Hs) as (? & ? & -> & ?).
    rewrite Himg by done. bool_to_prop. done.
  - intros [[Hs H1 H2 H3] ->]. rewrite Hs. cbn [bindR]. rewrite H3. pass_guard. cbv zeta.
    rewrite Himg; [done|]. by apply HelloWireSize_Ok in Hs as (_ & ? & _).
Qed.

(** *** Session discovery *)

Definition lane_bytes (d : SessionDiscovery) : list byte :=
  if lane_count d =? 1
  then be_bytes 2 kSessionDiscoveryLegacyPayloadVersion ++ be_bytes 2 0 ++ be_bytes 4 0
  else be_bytes 2 kSessionDiscoveryCurrentPayloadVersion ++ be_bytes 2 0 ++
       be_bytes 2 (lane_index d) ++ be_bytes 2 (lane_count d).

Definition discovery_image (d : SessionDiscovery) : list byte :=
  lane_bytes d ++ be_bytes 8 (session_epoch d) ++ be_bytes 8 (discovery_node_id d) ++
  be_bytes 8 (process_node_id (process_identity d)) ++ be_bytes 8 (process_id (process_identity d)) ++
  be_bytes 8 (process_epoch (process_identity d)) ++ be_bytes 8 (start_time_ns (process_identity d)) ++
  be_bytes 8 (lease_epoch d) ++ be_bytes 8 (node_config_version d).

Lemma EncodeSessionDiscovery_Ok d l :
  EncodeSessionDiscovery d = Ok l <->
  ValidDiscoveryIdentity d = true /\ ValidDiscoveryLane d = true /\ l = discovery_image d.
Proof.
  unfold EncodeSessionDiscovery. destruct (ValidDiscoveryIdentity d); cbn [negb]; [|split; [done|by intros [? _]]].
  destruct (ValidDiscoveryLane d); cbn [negb]; [|split; [done|by intros (_ & ? & _)]].
  cbv zeta.
  match goal with |- Ok ?x = Ok _ <-> _ => assert (x = discovery_image d) as -> end.
  { unfold discovery_image, lane_bytes, WriteBe64, WriteBe32, WriteBe16.
    change (Z.to_nat kSessionDiscoveryPayloadWireSize) with 72%nat.
    rewrite <- (app_nil_l (replicate 72 _)).
    destruct (lane_count d =? 1); repeat write_field; rewrite !be_bytes_length;
      cbn [Nat.sub replicate]; by rewrite app_nil_r, app_nil_l, <- !app_assoc. }
  split; [intros H; inv_ok; done|by intros (_ & _ & ->)].
Qed.

(** *** Decoding hello and discovery *)

Definition hello_ok (h : SessionHello) : Prop :=
  is_u64 (hello_sender_epoch h) /\ is_u64 (hello_receiver_epoch h) /\ Forall entry_ok (sources h).

Lemma HelloWireSize_mode n limits b b' size :
  0 <= n -> HelloWireSize n limits b = Ok size -> HelloWireSize n limits b' = Ok size.
Proof. intros Hn H. apply HelloWireSize_Ok in H; [|done]. by apply HelloWireSize_Ok. Qed.

Lemma DecodeSessionHello_image h limits :
  hello_ok h -> hello_valid h limits -> DecodeSessionHello (hello_image h) limits = Ok h.
Proof.
  intros (H1 & H2 & Hs) [Hz Hse Hre Hd]. assert (0 <= zlen (sources h)) as Hn by ulia.
  pose proof (proj1 (HelloWireSize_Ok _ _ _ _ Hn) Hz) as (Hm & Hu & _ & Hb).
  pose proof (HelloWireSize_mode _ _ _ true _ Hn Hz) as Hz'.
  assert (zlen (hello_image h) = 24 + zlen (sources h) * 32) as Hl.
  { unfold hello_image, zlen. rewrite length_app, entries_bytes_length. cbn [length].
    rewrite !length_app, !be_bytes_length. lia. }
  assert (0 <= lost_flag h < 65536) as Hf
    by (unfold lost_flag, kHelloDedupStateLost; destruct (dedup_state_lost h); lia).
  assert (ReadBe16 (hello_image h) 0 = kControlPayloadVersion) as R1
    by (unfold hello_image; read_fields_in_image; done).
  assert (ReadBe16 (hello_image h) 2 = lost_flag h) as R2
    by (unfold hello_image; read_fields_in_image; done).
  assert (ReadBe32 (hello_image h) 4 = zlen (sources h)) as R3
    by (unfold hello_image; read_fields_in_image; cbn; lia).
  assert (ReadBe64 (hello_image h) 8 = hello_sender_epoch h) as R4
    by (unfold hello_image; read_fields_in_image; done).
  assert (ReadBe64 (hello_image h) 16 = hello_receiver_epoch h) as R5
    by (unfold hello_image; read_fields_in_image; done).
  unfold DecodeSessionHello. rewrite Hl, R1, R2, R3, R4, R5. cbv zeta.
  unfold kSessionHelloHeaderWireSize at 1. do 3 pass_guard.
  assert (Z.land (lost_flag h) (Z.lnot kHelloDedupStateLost) = 0) as ->
    by (unfold lost_flag; by destruct (dedup_state_lost h)).
  rewrite Hz'. cbn [Z.eqb negb bindR]. do 2 pass_guard.
  assert (negb (Z.land (lost_flag h) kHelloDedupStateLost =? 0) = dedup_state_lost h) as ->
    by (unfold lost_flag; by destruct (dedup_state_lost h)).
  replace (Z.to_nat (zlen (sources h))) with (length (sources h)) by ulia.
  assert (decode_hello_sources (length (sources h)) (hello_image h) (Z.to_nat kSessionHelloHeaderWireSize)
          = sources h) as -> by (apply read_entries; [reflexivity|done]).
  rewrite Hd. by destruct h.
Qed.

Lemma DecodeSessionHello_inv l limits h :
  DecodeSessionHello l limits = Ok h -> hello_ok h /\ hello_valid h limits /\ l = hello_image h.
Proof.
  unfold DecodeSessionHello. intros H. do 3 step_if. cbv zeta in H. step_if.
  apply bindR_Ok in H as (size & Hs & H). do 3 step_if. apply Ok_inj in H. bool_to_prop.
  unfold kSessionHelloHeaderWireSize in *. change (Z.to_nat 24) with 24%nat in *.
  pose proof (ReadBe32_bound l 4 ltac:(ulia)) as [Hc0 Hc1].
  pose proof (proj1 (HelloWireSize_Ok _ _ _ _ Hc0) Hs) as (Hm & Hu & -> & Hb).
  set (n := ReadBe32 l 4) in *.
  assert (24 + 32 * Z.to_nat n = length l)%nat as Hlen by ulia.
  assert (zlen (sources h) = n) as Hsn.
  { subst h. cbn [sources]. unfold zlen. rewrite decode_hello_sources_length. lia. }
  assert (length l >= 24)%nat as Hge by lia.
  pose proof (ReadBe16_bound l 2 ltac:(lia)) as [Hf0 _].
  assert (lost_flag h = ReadBe16 l 2) as Hf.
  { symmetry. rewrite (single_flag (ReadBe16 l 2)) by done. by subst h. }
  split; [|split].
  - subst h. unfold hello_ok. cbn [hello_sender_epoch hello_receiver_epoch sources].
    repeat match goal with |- _ /\ _ => split end; try read_bound. apply decode_hello_sources_ok. lia.
  - split; [rewrite Hsn; by eapply HelloWireSize_mode|..]; by subst h.
  - unfold hello_image. rewrite Hsn, Hf. subst h.
    cbn [hello_sender_epoch hello_receiver_epoch sources].
    rewrite <- (split_entries (Z.to_nat n) l 24) by lia. rewrite <- E1. subst n.
    unfold ReadBe64, ReadBe32, ReadBe16. rewrite <- (drop_0 l) at 1.
    peel 2%nat l 0%nat; peel 2%nat l 2%nat; peel 4%nat l 4%nat; peel 8%nat l 8%nat; peel 8%nat l 16%nat.
    by rewrite <- !app_assoc.
Qed.

(** The session hello codec is a bijection between the hellos whose fields
    fit their types and the accepted byte strings, and an accepted hello never
    lists a source twice. *)
Theorem session_hello_codec_bijective (h : SessionHello) (l : list byte) (limits : ControlPayloadLimits) :
  (hello_ok h -> EncodeSessionHello h limits = Ok l -> DecodeSessionHello l limits = Ok h) /\
  (DecodeSessionHello l limits = Ok h ->
   hello_ok h /\ EncodeSessionHello h limits = Ok l /\ HasDuplicateSources (sources h) = false).
Proof.
  split.
  - intros Hok [Hv ->]%EncodeSessionHello_Ok. by apply DecodeSessionHello_image.
  - intros (Hok & Hv & ->)%DecodeSessionHello_inv. split_and!; [done| |apply Hv].
    by apply EncodeSessionHello_Ok.
Qed.

Definition sample_hello : SessionHello :=
  mkHello 5 6 true [mkHelloSource (mkSource 1 2 3) 9; mkHelloSource (mkSource 1 2 4) 0].

Lemma session_hello_codec_bijective_witness :
  exists l, EncodeSessionHello sample_hello default_control_limits = Ok l /\
            DecodeSessionHello l default_control_limits = Ok sample_hello.
Proof.
  eexists. split; [vm_compute; reflexivity|].
  apply (proj1 (session_hello_codec_bijective sample_hello _ default_control_limits));
    [|vm_compute; reflexivity].
  split; [unfold is_u64; cbn; lia|]. split; [unfold is_u64; cbn; lia|].
  repeat (apply List.Forall_cons; [split; unfold source_ok, is_u64; cbn; lia|]). apply List.Forall_nil.
Defined.

Record discovery_ok (d : SessionDiscovery) : Prop := {
  dk_session : is_u64 (session_epoch d); dk_node : is_u64 (discovery_node_id d);
  dk_pnode : is_u64 (process_node_id (process_identity d));
  dk_pid : is_u64 (process_id (process_identity d));
  dk_pepoch : is_u64 (process_epoch (process_identity d));
  dk_start : is_u64 (start_time_ns (process_identity d));
  dk_lease : is_u64 (lease_epoch d); dk_config : is_u64 (node_config_version d);
  dk_index : is_u16 (lane_index d); dk_count : is_u16 (lane_count d)
}.

Lemma lane_bytes_length d : length (lane_bytes d) = 8%nat.
Proof. unfold lane_bytes. by destruct (lane_count d =? 1). Qed.

Lemma discovery_body_reads d :
  discovery_ok d ->
  let l := discovery_image d in
  mkDiscovery (ReadBe64 l 8) (ReadBe64 l 16)
    (mkProcess (ReadBe64 l 24) (ReadBe64 l 32) (ReadBe64 l 40) (ReadBe64 l 48))
    (ReadBe64 l 56) (ReadBe64 l 64) (lane_index d) (lane_count d) = d.
Proof.
  intros [] l. subst l. unfold discovery_image, ReadBe64.
  rewrite <- (app_nil_r (be_bytes 8 (node_config_version d))).
  rewrite !(read_be_skip _ (lane_bytes d)), lane_bytes_length by (rewrite lane_bytes_length; lia).
  cbn [Nat.sub]. destruct d as [se dn [p1 p2 p3 p4] le nc li lc]; cbn [session_epoch discovery_node_id
    process_identity process_node_id process_id process_epoch start_time_ns lease_epoch
    node_config_version lane_index lane_count] in *.
  f_equal; [| |f_equal| |]; rewrite <- ?app_assoc; read_field; done.
Qed.

Lemma DecodeSessionDiscovery_image d :
  discovery_ok d -> ValidDiscoveryIdentity d = true -> ValidDiscoveryLane d = true ->
  DecodeSessionDiscovery (discovery_image d) = Ok d.
Proof.
  intros Hok Hi Hl. pose proof (discovery_body_reads d Hok) as Hb. cbv zeta in Hb.
  unfold DecodeSessionDiscovery.
  assert (zlen (discovery_image d) = kSessionDiscoveryPayloadWireSize) as ->.
  { unfold discovery_image, zlen. rewrite !length_app, lane_bytes_length, !be_bytes_length. done. }
  rewrite Z.eqb_refl. cbn [negb]. cbv zeta. pose proof (dk_index _ Hok) as Hx. pose proof (dk_count _ Hok) as Hc.
  assert (Hcases : lane_count d <> 0 /\ lane_index d < lane_count d).
  { unfold ValidDiscoveryLane in Hl. bool_to_prop. lia. }
  destruct (Z.eq_dec (lane_count d) 1) as [E|E].
  - assert (ReadBe16 (discovery_image d) 0 = kSessionDiscoveryLegacyPayloadVersion /\
      ReadBe16 (discovery_image d) 2 = 0 /\ ReadBe32 (discovery_image d) 4 = 0) as (-> & -> & ->).
    { unfold discovery_image, lane_bytes. rewrite E. cbn [Z.eqb Pos.eqb].
      repeat match goal with |- _ /\ _ => split end; read_fields_in_image; done. }
    cbn [Z.eqb Pos.eqb kSessionDiscoveryLegacyPayloadVersion negb orb bindR].
    assert (lane_index d = 0) as E0 by ulia. rewrite E, E0 in Hb. by rewrite Hb, Hi.
  - assert (ReadBe16 (discovery_image d) 0 = kSessionDiscoveryCurrentPayloadVersion /\
      ReadBe16 (discovery_image d) 2 = 0 /\ ReadBe16 (discovery_image d) 4 = lane_index d /\
      ReadBe16 (discovery_image d) 6 = lane_count d) as (-> & -> & -> & ->).
    { unfold discovery_image, lane_bytes. rewrite (proj2 (Z.eqb_neq _ 1) E).
      repeat match goal with |- _ /\ _ => split end; read_fields_in_image; done. }
    cbn [Z.eqb Pos.eqb kSessionDiscoveryLegacyPayloadVersion kSessionDiscoveryCurrentPayloadVersion negb].
    rewrite Hb, Hl. cbn [negb]. pass_guard. cbn [bindR]. by rewrite Hi.
Qed.

Lemma DecodeSessionDiscovery_inv l d :
  DecodeSessionDiscovery l = Ok d ->
  discovery_ok d /\ ValidDiscoveryIdentity d = true /\ ValidDiscoveryLane d = true /\
  l = discovery_image d.
Proof.
  unfold DecodeSessionDiscovery. intros H. step_if. cbv zeta in H.
  apply bindR_Ok in H as (d0 & Hd & H). step_if. apply Ok_inj in H. subst d0. bool_to_prop.
  unfold kSessionDiscoveryPayloadWireSize in *. assert (length l = 72%nat) as Hl by ulia.
  assert (forall head, drop 8 l = be_bytes 8 (ReadBe64 l 8) ++ be_bytes 8 (ReadBe64 l 16) ++
    be_bytes 8 (ReadBe64 l 24) ++ be_bytes 8 (ReadBe64 l 32) ++ be_bytes 8 (ReadBe64 l 40) ++
    be_bytes 8 (ReadBe64 l 48) ++ be_bytes 8 (ReadBe64 l 56) ++ be_bytes 8 (ReadBe64 l 64) /\
    (take 8 l = head -> l = head ++ drop 8 l)) as Hbody.
  { intros head. split; [|intros <-; by rewrite take_drop]. unfold ReadBe64.
    peel 8%nat l 8%nat; peel 8%nat l 16%nat; peel 8%nat l 24%nat; peel 8%nat l 32%nat;
    peel 8%nat l 40%nat; peel 8%nat l 48%nat; peel 8%nat l 56%nat; peel 8%nat l 64%nat.
    by rewrite (drop_ge l 72), app_nil_r by lia. }
  assert (Hread : forall i c, is_u16 i -> is_u16 c -> discovery_ok
    (mkDiscovery (ReadBe64 l 8) (ReadBe64 l 16)
      (mkProcess (ReadBe64 l 24) (ReadBe64 l 32) (ReadBe64 l 40) (ReadBe64 l 48))
      (ReadBe64 l 56) (ReadBe64 l 64) i c)).
  { intros. split; cbn [session_epoch discovery_node_id process_identity process_node_id process_id
      process_epoch start_time_ns lease_epoch node_config_version lane_index lane_count]; try done; read_bound. }
  step_if; bool_to_prop.
  - step_if. bool_to_prop. apply Ok_inj in Hd. subst d. split_and!; try done.
    { apply Hread; unfold is_u16; lia. }
    unfold discovery_image, lane_bytes. cbn -[be_bytes ReadBe64].
    rewrite <- (proj1 (Hbody [])). apply (proj2 (Hbody _)).
    rewrite <- E1. replace (be_bytes 2 0) with (be_bytes 2 (ReadBe16 l 2)) by congruence.
    replace (be_bytes 4 0) with (be_bytes 4 (ReadBe32 l 4)) by congruence.
    unfold ReadBe16, ReadBe32. rewrite !be_bytes_read by lia.
    rewrite <- (subspan_split l 2 2 4 : subspan l 2 6 = subspan l 2 2 ++ subspan l 4 4).
    rewrite <- (subspan_split l 0 2 6 : subspan l 0 8 = subspan l 0 2 ++ subspan l 2 6).
    unfold subspan. by rewrite drop_0.
  - step_if. bool_to_prop. do 2 step_if. apply orb_false_iff in E4 as [E4 E5]. bool_to_prop.
    apply Ok_inj in Hd. subst d. split_and!; try done.
    { apply Hread; read_bound. }
    unfold discovery_image, lane_bytes. cbn [lane_count lane_index session_epoch discovery_node_id
      process_identity process_node_id process_id process_epoch start_time_ns lease_epoch node_config_version] in *.
    rewrite (proj2 (Z.eqb_neq (ReadBe16 l 6) 1)) by lia.
    rewrite <- (proj1 (Hbody [])). apply (proj2 (Hbody _)).
    rewrite <- E2. replace (be_bytes 2 0) with (be_bytes 2 (ReadBe16 l 2)) by congruence.
    unfold ReadBe16, ReadBe32. rewrite !be_bytes_read by lia.
    rewrite <- (subspan_split l 4 2 2 : subspan l 4 4 = subspan l 4 2 ++ subspan l 6 2).
    rewrite <- (subspan_split l 2 2 4 : subspan l 2 6 = subspan l 2 2 ++ subspan l 4 4).
    rewrite <- (subspan_split l 0 2 6 : subspan l 0 8 = subspan l 0 2 ++ subspan l 2 6).
    unfold subspan. by rewrite drop_0.
Qed.

(** The session discovery codec, with its legacy and its lane-carrying
    version, is a bijection between the discoveries whose fields fit their types
    and the accepted byte strings; a lane is below its count, which is 1 to 8. *)
Theorem session_discovery_codec_bijective (d : SessionDiscovery) (l : list byte) :
  (discovery_ok d -> EncodeSessionDiscovery d = Ok l -> DecodeSessionDiscovery l = Ok d) /\
  (DecodeSessionDiscovery l = Ok d ->
   discovery_ok d /\ EncodeSessionDiscovery d = Ok l /\
   lane_index d < lane_count d <= kMaxBridgeLaneCount).
Proof.
  split.
  - intros Hok (Hi & Hl & ->)%EncodeSessionDiscovery_Ok. by apply DecodeSessionDiscovery_image.
  - intros (Hok & Hi & Hl & ->)%DecodeSessionDiscovery_inv. split_and!; [done| |..].
    + by apply EncodeSessionDiscovery_Ok.
    + unfold ValidDiscoveryLane in Hl. bool_to_prop. done.
    + unfold ValidDiscoveryLane in Hl. bool_to_prop. done.
Qed.

Definition sample_discovery : SessionDiscovery := mkDiscovery 1 2 (mkProcess 2 3 4 5) 6 7 1 4.

Lemma session_discovery_codec_bijective_witness :
  exists l, EncodeSessionDiscovery sample_discovery = Ok l /\
            DecodeSessionDiscovery l = Ok sample_discovery.
Proof.
  eexists. split; [vm_compute; reflexivity|].
  apply (proj1 (session_discovery_codec_bijective sample_discovery _)); [|vm_compute; reflexivity].
  split; unfold is_u64, is_u16; cbn; lia.
Defined.
