(* ===== verification/DedupWindow.v ===== *)
(** * The receiver's deduplication window

    Models [mino/bridge/dedup_window.h] and [.cc]: the bounded set of
    per-source states, each a cumulative high-water mark with a bitmap of the
    accepted sequences above it, the index from sources to entries, session
    fencing, age and capacity eviction.  Allocation failure is not modelled.

    The abstract specification of a source is the set of accepted sequence
    numbers ([accepted]); checking and committing refine it. *)
From S2P Require Import Prelude SourceIdentity.

Record DedupWindowOptions : Set := mkOptions {
  max_sources : Z; max_bytes : Z; max_sequence_distance : Z; max_source_age_ns : Z
}.
Definition default_options : DedupWindowOptions :=
  mkOptions 1024 (1024 * 1024) 4096 (60 * 1000 * 1000 * 1000).

Inductive DedupDecision : Set :=
| kAccept | kDuplicateAccepted | kNackWithHighest | kStaleSession.
#[export] Instance DedupDecision_eq_dec : EqDecision DedupDecision.
Proof. solve_decision. Defined.

Record DedupCheckResult : Set := mkCheck {
  decision : DedupDecision; check_highest : option Z
}.

Record DedupResumeEntry : Set := mkResume {
  resume_source : SourceIdentity; resume_highest : Z
}.

Record DedupWindowStats : Set := mkStats {
  accepted_checks : Z; duplicate_checks : Z; nack_checks : Z; stale_session_checks : Z;
  gap_events : Z; source_evictions : Z; age_evictions : Z; session_switches : Z
}.
Definition zero_stats : DedupWindowStats := mkStats 0 0 0 0 0 0 0 0.

Record SourceState : Set := mkState {
  source : SourceIdentity; highest_contiguous_sequence : Z; last_activity_ns : Z;
  gap_words : list Z
}.

Record DedupWindow : Set := mkWindow {
  options_ : DedupWindowOptions;
  bitmap_words_ : nat;
  source_bytes_ : Z;
  session_active_ : bool;
  peer_session_epoch_ : Z;
  session_started_ns_ : Z;
  entries_ : list SourceState;
  source_index_ : gmap SourceIdentity nat;
  bytes_ : Z;
  stats_ : DedupWindowStats
}.

(** Field updates. *)
Definition set_entries (w : DedupWindow) (e : list SourceState) (i : gmap SourceIdentity nat) (b : Z)
  : DedupWindow :=
  mkWindow (options_ w) (bitmap_words_ w) (source_bytes_ w) (session_active_ w)
    (peer_session_epoch_ w) (session_started_ns_ w) e i b (stats_ w).
Definition set_stats (w : DedupWindow) (s : DedupWindowStats) : DedupWindow :=
  mkWindow (options_ w) (bitmap_words_ w) (source_bytes_ w) (session_active_ w)
    (peer_session_epoch_ w) (session_started_ns_ w) (entries_ w) (source_index_ w) (bytes_ w) s.
(** Write back the entry a [SourceState*] points to. *)
Definition set_entry (w : DedupWindow) (i : nat) (s : SourceState) : DedupWindow :=
  set_entries w (<[i := s]> (entries_ w)) (source_index_ w) (bytes_ w).
Definition set_activity (s : SourceState) (now_ns : Z) : SourceState :=
  mkState (source s) (highest_contiguous_sequence s) now_ns (gap_words s).

(** Counters. *)
Definition inc (z : Z) : Z := wrap64 (z + 1).
Definition count_accepted (s : DedupWindowStats) (gap : bool) : DedupWindowStats :=
  mkStats (inc (accepted_checks s)) (duplicate_checks s) (nack_checks s) (stale_session_checks s)
    (if gap then inc (gap_events s) else gap_events s) (source_evictions s) (age_evictions s)
    (session_switches s).
Definition count_duplicate (s : DedupWindowStats) : DedupWindowStats :=
  mkStats (accepted_checks s) (inc (duplicate_checks s)) (nack_checks s) (stale_session_checks s)
    (gap_events s) (source_evictions s) (age_evictions s) (session_switches s).
Definition count_nack (s : DedupWindowStats) : DedupWindowStats :=
  mkStats (accepted_checks s) (duplicate_checks s) (inc (nack_checks s)) (stale_session_checks s)
    (inc (gap_events s)) (source_evictions s) (age_evictions s) (session_switches s).
Definition count_stale (s : DedupWindowStats) : DedupWindowStats :=
  mkStats (accepted_checks s) (duplicate_checks s) (nack_checks s) (inc (stale_session_checks s))
    (gap_events s) (source_evictions s) (age_evictions s) (session_switches s).
Definition count_eviction (s : DedupWindowStats) : DedupWindowStats :=
  mkStats (accepted_checks s) (duplicate_checks s) (nack_checks s) (stale_session_checks s)
    (gap_events s) (inc (source_evictions s)) (age_evictions s) (session_switches s).
Definition count_age (s : DedupWindowStats) : DedupWindowStats :=
  mkStats (accepted_checks s) (duplicate_checks s) (nack_checks s) (stale_session_checks s)
    (gap_events s) (source_evictions s) (inc (age_evictions s)) (session_switches s).
Definition count_switch (s : DedupWindowStats) : DedupWindowStats :=
  mkStats (accepted_checks s) (duplicate_checks s) (nack_checks s) (stale_session_checks s)
    (gap_events s) (source_evictions s) (age_evictions s) (inc (session_switches s)).

(** ** Operations *)

Definition Stale : Status := mkStatus kUnavailable "".

Definition IsExpired (now_ns then_ns max_age_ns : Z) : bool :=
  (then_ns <=? now_ns) && (max_age_ns <? now_ns - then_ns).

(** [sizeof(SourceState)] on an LP64 target: three identity words, two words
    and a [std::vector]. *)
Definition sizeof_SourceState : Z := 64.

Definition Create (options : DedupWindowOptions) : Result DedupWindow :=
  fail_if (max_sources options =? 0) || (max_bytes options =? 0)
       || (max_sequence_distance options =? 0) || (max_source_age_ns options =? 0)
    with Invalid "dedup limits must be nonzero" ;;
  let words64 := (max_sequence_distance options - 1) / 64 + 1 in
  fail_if u64_max <? words64 with Resource "dedup bitmap is not addressable" ;;
  fail_if (u64_max - sizeof_SourceState) / 8 <? words64
    with Resource "dedup source state size overflows" ;;
  let source_bytes := sizeof_SourceState + words64 * 8 in
  fail_if max_bytes options <? source_bytes
    with Resource "dedup byte limit cannot hold one logical source state" ;;
  let max_indexed_sources := Z.min (max_sources options) (max_bytes options / source_bytes) in
  fail_if max_indexed_sources =? u64_max with Resource "dedup source index size overflows" ;;
  Ok (mkWindow options (Z.to_nat words64) source_bytes false 0 0 [] ∅ 0 zero_stats).

Definition BeginSession (w : DedupWindow) (peer_session_epoch now_ns : Z) (preserve_state : bool)
  : DedupWindow :=
  if session_active_ w && (peer_session_epoch_ w =? peer_session_epoch) then w
  else
  let stats := if session_active_ w then count_switch (stats_ w) else stats_ w in
  let '(e, i, b) := if preserve_state then (entries_ w, source_index_ w, bytes_ w)
                    else ([], ∅, 0) in
  mkWindow (options_ w) (bitmap_words_ w) (source_bytes_ w) true peer_session_epoch now_ns e i b stats.

(** The entry of a source, with its position. *)
Definition Find (w : DedupWindow) (s : SourceIdentity) : option (nat * SourceState) :=
  match source_index_ w !! s with
  | None => None
  | Some i => (fun e => (i, e)) <$> entries_ w !! i
  end.

(** The loop of [RebuildIndex] from position [i] on. *)
Fixpoint rebuild_from (entries : list SourceState) (i : nat) (index : gmap SourceIdentity nat)
  : gmap SourceIdentity nat :=
  match entries with
  | [] => index
  | e :: rest =>
      rebuild_from rest (S i)
        (match index !! source e with Some _ => <[source e := i]> index | None => index end)
  end.
Definition RebuildIndex (w : DedupWindow) : DedupWindow :=
  set_entries w (entries_ w) (rebuild_from (entries_ w) 0 (source_index_ w)) (bytes_ w).

(** [bytes_ -= source_bytes_] wraps on [size_t]. *)
Definition EraseEntry (w : DedupWindow) (index : nat) : DedupWindow :=
  match entries_ w !! index with
  | None => w
  | Some e =>
      RebuildIndex (set_entries w (delete index (entries_ w)) (delete (source e) (source_index_ w))
                      (wrap64 (bytes_ w - source_bytes_ w)))
  end.

Definition GapSet (s : SourceState) (distance : Z) : bool :=
  let bit := distance - 1 in
  negb (Z.land (gap_words s !!! Z.to_nat (bit / 64)) (shl64 1 (bit mod 64)) =? 0).

Definition SetGap (s : SourceState) (distance : Z) : SourceState :=
  let bit := distance - 1 in
  let word := Z.to_nat (bit / 64) in
  mkState (source s) (highest_contiguous_sequence s) (last_activity_ns s)
    (<[word := Z.lor (gap_words s !!! word) (shl64 1 (bit mod 64))]> (gap_words s)).

Definition Classify (w : DedupWindow) (s : SourceState) (sequence : Z) : DedupCheckResult :=
  let highest := highest_contiguous_sequence s in
  if sequence <=? highest
  then let age := highest - sequence in
       if age <? max_sequence_distance (options_ w)
       then mkCheck kDuplicateAccepted (Some highest)
       else mkCheck kNackWithHighest (Some highest)
  else
  let distance := sequence - highest in
  if max_sequence_distance (options_ w) <? distance
  then mkCheck kNackWithHighest (Some highest)
  else if GapSet s distance
  then mkCheck kDuplicateAccepted (Some highest)
  else mkCheck kAccept (Some highest).

(** The loop of [PurgeExpired] at position [i]; [n] bounds the iterations,
    each of which advances or erases. *)
Fixpoint purge_from (n : nat) (w : DedupWindow) (now_ns : Z) (i : nat) (removed : Z)
  : DedupWindow * Z :=
  match n, entries_ w !! i with
  | S n', Some e =>
      if negb (IsExpired now_ns (last_activity_ns e) (max_source_age_ns (options_ w)))
      then purge_from n' w now_ns (S i) removed
      else let w := EraseEntry w i in
           purge_from n' (set_stats w (count_age (stats_ w))) now_ns i (removed + 1)
  | _, _ => (w, removed)
  end.
Definition PurgeExpired (w : DedupWindow) (now_ns : Z) : DedupWindow * Z :=
  purge_from (length (entries_ w)) w now_ns 0 0.

Definition Check (w : DedupWindow) (peer_session_epoch : Z) (s : SourceIdentity) (sequence now_ns : Z)
  : DedupWindow * Result DedupCheckResult :=
  if negb (session_active_ w) || negb (peer_session_epoch =? peer_session_epoch_ w)
  then (set_stats w (count_stale (stats_ w)), Ok (mkCheck kStaleSession None))
  else if sequence =? 0 then (w, Err (Invalid "sequence zero is not reliable data"))
  else
  let w := (PurgeExpired w now_ns).1 in
  match Find w s with
  | None =>
      if max_sequence_distance (options_ w) <? sequence
      then (set_stats w (count_nack (stats_ w)), Ok (mkCheck kNackWithHighest (Some 0)))
      else (set_stats w (count_accepted (stats_ w) (1 <? sequence)),
            Ok (mkCheck kAccept (Some 0)))
  | Some (i, state) =>
      let state := set_activity state now_ns in
      let w := set_entry w i state in
      let result := Classify w state sequence in
      let stats :=
        match decision result with
        | kAccept => count_accepted (stats_ w)
                       (wrap64 (highest_contiguous_sequence state + 1) <? sequence)
        | kDuplicateAccepted => count_duplicate (stats_ w)
        | kNackWithHighest => count_nack (stats_ w)
        | kStaleSession => stats_ w
        end in
      (set_stats w stats, Ok result)
  end.

(** The index of the least recently active of the first [old_count] entries. *)
Fixpoint oldest_from (l : list SourceState) (i oldest : nat) (oldest_ns : Z) : nat :=
  match l with
  | [] => oldest
  | e :: rest => if last_activity_ns e <? oldest_ns then oldest_from rest (S i) i (last_activity_ns e)
                 else oldest_from rest (S i) oldest oldest_ns
  end.
Definition oldest_entry (l : list SourceState) : nat :=
  match l with
  | [] => 0%nat
  | e :: rest => oldest_from rest 1 0 (last_activity_ns e)
  end.

(** The loop of [EvictToLimits]; every iteration erases an entry. *)
Fixpoint evict_loop (n : nat) (w : DedupWindow) : DedupWindow :=
  match n with
  | O => w
  | S n' =>
      if (max_sources (options_ w) <? zlen (entries_ w))
      || (max_bytes (options_ w) - source_bytes_ w <? bytes_ w)
      then let old_count := (length (entries_ w) - 1)%nat in
           let w := EraseEntry w (oldest_entry (take old_count (entries_ w))) in
           evict_loop n' (set_stats w (count_eviction (stats_ w)))
      else w
  end.
Definition EvictToLimits (w : DedupWindow) : DedupWindow := evict_loop (length (entries_ w)) w.

Definition AddSource (w : DedupWindow) (s : SourceIdentity) (highest now_ns : Z)
  : DedupWindow * Result unit :=
  let state := mkState s highest now_ns (replicate (bitmap_words_ w) 0) in
  match source_index_ w !! s with
  | Some _ => (w, Err (Invalid "dedup source already exists"))
  | None =>
      let w := set_entries w (entries_ w ++ [state])
                 (<[s := length (entries_ w)]> (source_index_ w)) (bytes_ w) in
      let w := EvictToLimits w in
      (set_entries w (entries_ w) (source_index_ w) (wrap64 (bytes_ w + source_bytes_ w)), Ok tt)
  end.

(** One pass of the inner loop: the words shifted right by one bit. *)
Fixpoint shift_words (l : list Z) : list Z :=
  match l with
  | [] => []
  | w :: rest =>
      let carry := match rest with [] => 0 | next :: _ => shl64 (Z.land next 1) 63 end in
      Z.lor (Z.shiftr w 1) carry :: shift_words rest
  end.

Fixpoint advance_loop (n : nat) (s : SourceState) : SourceState :=
  match n with
  | O => s
  | S n' =>
      if negb (Z.land (gap_words s !!! 0%nat) 1 =? 0)
      then advance_loop n' (mkState (source s) (wrap64 (highest_contiguous_sequence s + 1))
                              (last_activity_ns s) (shift_words (gap_words s)))
      else s
  end.
(** The bitmap has [64 * length gap_words] bits, so that many iterations empty
    it ([AdvanceContiguous_done]). *)
Definition AdvanceContiguous (s : SourceState) : SourceState :=
  advance_loop (S (64 * length (gap_words s))) s.

Definition PrepareSource (w : DedupWindow) (peer_session_epoch : Z) (s : SourceIdentity) (now_ns : Z)
  : DedupWindow * Result unit :=
  if negb (session_active_ w) || negb (peer_session_epoch =? peer_session_epoch_ w)
  then (w, Err Stale)
  else
  let w := (PurgeExpired w now_ns).1 in
  match Find w s with
  | Some (i, state) => (set_entry w i (set_activity state now_ns), Ok tt)
  | None => AddSource w s 0 now_ns
  end.

Definition HasSource (w : DedupWindow) (s : SourceIdentity) : bool :=
  match Find w s with Some _ => true | None => false end.

Definition CommitAccepted (w : DedupWindow) (peer_session_epoch : Z) (s : SourceIdentity)
    (sequence now_ns : Z) : DedupWindow * Result unit :=
  if negb (session_active_ w) || negb (peer_session_epoch =? peer_session_epoch_ w)
  then (w, Err Stale)
  else if sequence =? 0 then (w, Err (Invalid "sequence zero is not reliable data"))
  else
  let w := (PurgeExpired w now_ns).1 in
  match Find w s with
  | None =>
      if max_sequence_distance (options_ w) <? sequence
      then (w, Err (Invalid "sequence is outside the dedup window"))
      else match AddSource w s 0 now_ns with
           | (w, Err e) => (w, Err e)
           | (w, Ok _) =>
               match Find w s with
               | None => (w, Ok tt)
               | Some (i, state) => (set_entry w i (AdvanceContiguous (SetGap state sequence)), Ok tt)
               end
           end
  | Some (i, state) =>
      let check := Classify w state sequence in
      match decision check with
      | kDuplicateAccepted => (set_entry w i (set_activity state now_ns), Ok tt)
      | kAccept =>
          let distance := sequence - highest_contiguous_sequence state in
          let state := AdvanceContiguous (SetGap state distance) in
          (set_entry w i (set_activity state now_ns), Ok tt)
      | _ => (w, Err (Invalid "sequence is outside the dedup window"))
      end
  end.

Definition SeedAccepted (w : DedupWindow) (peer_session_epoch : Z) (s : SourceIdentity)
    (highest now_ns : Z) : DedupWindow * Result unit :=
  if negb (session_active_ w) || negb (peer_session_epoch =? peer_session_epoch_ w)
  then (w, Err Stale)
  else
  let w := (PurgeExpired w now_ns).1 in
  match Find w s with
  | None => AddSource w s highest now_ns
  | Some (i, state) =>
      (set_entry w i (mkState (source state) highest now_ns
                        (replicate (length (gap_words state)) 0)), Ok tt)
  end.

(** The comparator of [SnapshotAccepted], and [std::sort] with it: an insertion
    sort has the same result, the keys being distinct. *)
Definition resume_before (left right : DedupResumeEntry) : bool :=
  let l := resume_source left in
  let r := resume_source right in
  if negb (node_id l =? node_id r) then node_id l <? node_id r
  else if negb (publisher_id l =? publisher_id r) then publisher_id l <? publisher_id r
  else publisher_epoch l <? publisher_epoch r.
Fixpoint insert_resume (e : DedupResumeEntry) (l : list DedupResumeEntry) : list DedupResumeEntry :=
  match l with
  | [] => [e]
  | x :: rest => if resume_before e x then e :: l else x :: insert_resume e rest
  end.
Definition SnapshotAccepted (w : DedupWindow) : list DedupResumeEntry :=
  foldr insert_resume [] ((fun s => mkResume (source s) (highest_contiguous_sequence s)) <$> entries_ w).

(** ** The gap bitmap as one integer *)

Definition gap_value (l : list Z) : Z := foldr (fun w v => w + two64 * v) 0 l.
Definition words_ok (l : list Z) : Prop := Forall is_u64 l.

Lemma gap_value_nonneg l : words_ok l -> 0 <= gap_value l.
Proof. induction 1 as [|w l Hw _ IH]; cbn [gap_value foldr]; [lia|]. unfold gap_value in IH. ulia. Qed.

Lemma gap_value_bound l : words_ok l -> gap_value l < 2 ^ (64 * zlen l).
Proof.
  unfold zlen. induction 1 as [|w l Hw _ IH]; [done|]. cbn [gap_value foldr length].
  fold (gap_value l). replace (64 * Z.of_nat (S (length l))) with (64 + 64 * Z.of_nat (length l)) by lia.
  rewrite Z.pow_add_r by lia. change (2 ^ 64) with two64. ulia.
Qed.

Lemma testbit_split w v i :
  is_u64 w -> 0 <= i ->
  Z.testbit (w + two64 * v) i = if i <? 64 then Z.testbit w i else Z.testbit v (i - 64).
Proof.
  intros Hw Hi. destruct (Z.ltb_spec i 64).
  - rewrite <- (Z.mod_pow2_bits_low (w + two64 * v) 64) by lia. f_equal.
    change (2 ^ 64) with two64. rewrite (Z.mul_comm two64), Z_mod_plus_full. apply Z.mod_small. ulia.
  - replace (Z.testbit (w + two64 * v) i) with (Z.testbit (w + two64 * v) (i - 64 + 64)) by (f_equal; lia).
    rewrite <- Z.div_pow2_bits by lia. f_equal. change (2 ^ 64) with two64.
    rewrite (Z.mul_comm two64), Z.div_add, Z.div_small by ulia. lia.
Qed.

Lemma gap_value_testbit l : forall i,
  words_ok l -> 0 <= i < 64 * zlen l ->
  Z.testbit (gap_value l) i = Z.testbit (l !!! Z.to_nat (i / 64)) (i mod 64).
Proof.
  induction l as [|w l IH]; intros i Hl Hi; [unfold zlen in Hi; cbn [length] in Hi; lia|].
  apply Forall_cons_1 in Hl as [Hw Hl]. cbn [gap_value foldr]. fold (gap_value l).
  rewrite testbit_split by (done || lia). destruct (Z.ltb_spec i 64).
  - rewrite Z.div_small, Z.mod_small by lia. done.
  - unfold zlen in *. cbn [length] in Hi. rewrite IH by (done || lia).
    pose proof (Z.div_mod i 64 ltac:(lia)). pose proof (Z.mod_pos_bound i 64 ltac:(lia)).
    assert ((i - 64) / 64 = i / 64 - 1) as -> by (symmetry; apply Z.div_unique with (i mod 64); lia).
    assert ((i - 64) mod 64 = i mod 64) as -> by (symmetry; apply Z.mod_unique with (i / 64 - 1); lia).
    assert (1 <= i / 64) by (apply Z.div_le_lower_bound; lia).
    replace (Z.to_nat (i / 64)) with (S (Z.to_nat (i / 64 - 1))) by lia. done.
Qed.

Lemma gap_value_testbit_high l i :
  words_ok l -> 64 * zlen l <= i -> Z.testbit (gap_value l) i = false.
Proof.
  intros Hl Hi. pose proof (gap_value_bound l Hl). pose proof (gap_value_nonneg l Hl).
  rewrite <- (Z.mod_small (gap_value l) (2 ^ (64 * zlen l))) by lia.
  apply Z.mod_pow2_bits_high. ulia.
Qed.

Lemma words_ok_lookup l i : words_ok l -> (i < length l)%nat -> is_u64 (l !!! i).
Proof. intros Hl Hi. apply list_lookup_lookup_total_lt in Hi. by eapply Forall_lookup_1. Qed.

Lemma word_index d n : 1 <= d <= 64 * Z.of_nat n -> (Z.to_nat ((d - 1) / 64) < n)%nat.
Proof. intros. assert ((d - 1) / 64 < Z.of_nat n) by (apply Z.div_lt_upper_bound; lia).
  pose proof (Z.div_pos (d - 1) 64 ltac:(lia) ltac:(lia)). lia. Qed.

(** [GapSet] reads, and [SetGap] sets, bit [distance - 1] of the bitmap. *)
Lemma GapSet_testbit s d :
  words_ok (gap_words s) -> 1 <= d <= 64 * zlen (gap_words s) ->
  GapSet s d = Z.testbit (gap_value (gap_words s)) (d - 1).
Proof.
  intros Hl Hd. unfold GapSet. cbv zeta. pose proof (Z.mod_pos_bound (d - 1) 64 ltac:(lia)).
  rewrite land_bit_test by first [lia | apply words_ok_lookup; [done|by apply word_index]].
  by rewrite gap_value_testbit by (done || lia).
Qed.

Lemma SetGap_words s d :
  words_ok (gap_words s) -> 1 <= d <= 64 * zlen (gap_words s) ->
  words_ok (gap_words (SetGap s d)) /\ length (gap_words (SetGap s d)) = length (gap_words s) /\
  gap_value (gap_words (SetGap s d)) = Z.lor (gap_value (gap_words s)) (2 ^ (d - 1)).
Proof.
  intros Hl Hd. pose proof (word_index d _ Hd) as Hw. set (k := Z.to_nat ((d - 1) / 64)) in *.
  pose proof (Z.mod_pos_bound (d - 1) 64 ltac:(lia)) as Hm.
  assert (words_ok (gap_words (SetGap s d))) as Hok.
  { cbn [SetGap gap_words]. apply Forall_insert; [done|]. apply lor_u64; [|apply shl64_u64].
    by apply words_ok_lookup. }
  assert (length (gap_words (SetGap s d)) = length (gap_words s)) as Hlen
    by (cbn [SetGap gap_words]; apply length_insert).
  split_and!; [done|done|]. apply Z.bits_inj'. intros i Hi.
  rewrite Z.lor_spec, Z.pow2_bits_eqb by lia.
  destruct (Z.lt_ge_cases i (64 * zlen (gap_words s))) as [Hlt|Hge].
  - rewrite !gap_value_testbit by (done || (unfold zlen in *; lia)). cbn [SetGap gap_words]. fold k.
    pose proof (Z.mod_pos_bound i 64 ltac:(lia)). pose proof (Z.div_mod i 64 ltac:(lia)).
    pose proof (Z.div_mod (d - 1) 64 ltac:(lia)). pose proof (Z.div_pos i 64 ltac:(lia) ltac:(lia)). pose proof (Z.div_pos (d - 1) 64 ltac:(lia) ltac:(lia)).
    destruct (decide (Z.to_nat (i / 64) = k)) as [Hk|Hne].
    + rewrite Hk, list_lookup_total_insert_eq by done.
      rewrite Z.lor_spec, testbit_shl64_one by lia. f_equal.
      destruct (Z.ltb_spec (i mod 64) 64); [|lia]. cbn [andb].
      destruct (Z.eqb_spec ((d - 1) mod 64) (i mod 64)), (Z.eqb_spec (d - 1) i); try done; subst k; lia.
    + rewrite list_lookup_total_insert_ne by done.
      destruct (Z.eqb_spec (d - 1) i); [subst i; done|]. by rewrite orb_false_r.
  - rewrite !gap_value_testbit_high by (done || (unfold zlen in *; lia)).
    destruct (Z.eqb_spec (d - 1) i); [lia|done].
Qed.

Lemma land_1_mod v : Z.land v 1 = v mod 2.
Proof. change 1 with (Z.ones 1). by rewrite Z.land_ones by lia. Qed.

Lemma lor_top a b : 0 <= a < two63 -> 0 <= b < 2 -> Z.lor a (shl64 b 63) = a + two63 * b.
Proof.
  intros Ha Hb. assert (b = 0 \/ b = 1) as [-> | ->] by lia.
  { change (shl64 0 63) with 0. rewrite Z.lor_0_r. lia. }
  rewrite shl64_one by lia. change (2 ^ 63) with two63.
  rewrite <- Z.lxor_lor, <- Z.add_nocarry_lxor; [lia| |].
  all: apply Z.bits_inj'; intros i Hi; rewrite Z.land_spec, Z.bits_0;
    change two63 with (2 ^ 63); rewrite Z.pow2_bits_eqb by lia;
    destruct (Z.eqb_spec 63 i); [subst i|by rewrite andb_false_r].
  all: replace a with (a mod 2 ^ 63) by (apply Z.mod_small; lia);
    by rewrite Z.mod_pow2_bits_high by lia.
Qed.

Lemma shift_words_spec l :
  words_ok l -> words_ok (shift_words l) /\ length (shift_words l) = length l /\
  gap_value (shift_words l) = gap_value l / 2.
Proof.
  induction l as [|w l IH]; intros Hl; [done|]. apply Forall_cons_1 in Hl as [Hw Hl].
  destruct (IH Hl) as (Hok & Hlen & Hval). cbn [shift_words].
  set (carry := match l with [] => 0 | next :: _ => shl64 (Z.land next 1) 63 end).
  assert (Z.lor (Z.shiftr w 1) carry = w / 2 + two63 * (gap_value l mod 2)) as Hhead.
  { assert (0 <= w / 2 < two63) by (split; [apply Z.div_pos|apply Z.div_lt_upper_bound]; ulia).
    rewrite Z.shiftr_div_pow2 by lia. change (2 ^ 1) with 2. subst carry.
    destruct l as [|next l]; [by rewrite Z.lor_0_r, Z.add_0_r|].
    rewrite land_1_mod, lor_top by (done || (pose proof (Z.mod_pos_bound next 2); lia)).
    do 2 f_equal. cbn [gap_value foldr]. fold (gap_value l).
    replace (next + two64 * gap_value l) with (next + two63 * gap_value l * 2) by lia.
    by rewrite Z_mod_plus_full. }
  pose proof (Z.mod_pos_bound (gap_value l) 2 ltac:(lia)).
  pose proof (Z.div_mod (gap_value l) 2 ltac:(lia)).
  assert (0 <= w / 2 < two63) by (split; [apply Z.div_pos|apply Z.div_lt_upper_bound]; ulia).
  split_and!.
  - constructor; [|done]. rewrite Hhead. ulia.
  - cbn [length]. by rewrite Hlen.
  - cbn [gap_value foldr]. fold (gap_value (shift_words l)) (gap_value l). rewrite Hhead, Hval.
    replace (w + two64 * gap_value l) with (w + two63 * gap_value l * 2) by lia.
    rewrite Z.div_add by lia. lia.
Qed.

(** ** The abstract state of a source: the accepted sequence numbers *)

Definition gap (s : SourceState) : Z := gap_value (gap_words s).

Definition accepted (s : SourceState) (n : Z) : Prop :=
  1 <= n <= highest_contiguous_sequence s \/
  highest_contiguous_sequence s < n /\
  Z.testbit (gap s) (n - highest_contiguous_sequence s - 1) = true.

(** A well-formed source state: the bitmap has the window's size, and every
    sequence it records is within the distance and the 64-bit range. *)
Record state_ok (words : nat) (distance : Z) (s : SourceState) : Prop := {
  so_words : words_ok (gap_words s);
  so_length : length (gap_words s) = words;
  so_highest : is_u64 (highest_contiguous_sequence s);
  so_gap : forall i, 0 <= i -> Z.testbit (gap s) i = true ->
    i < distance /\ highest_contiguous_sequence s + i + 1 <= u64_max
}.

Lemma gap_bit0 s : words_ok (gap_words s) -> (0 < length (gap_words s))%nat ->
  negb (Z.land (gap_words s !!! 0%nat) 1 =? 0) = Z.testbit (gap s) 0.
Proof.
  intros Hl Hlen. unfold gap. rewrite gap_value_testbit by (done || (unfold zlen; lia)).
  change (Z.to_nat (0 / 64)) with 0%nat. change (0 mod 64) with 0.
  rewrite land_1_mod, Zmod_odd, Z.bit0_odd. by destruct (Z.odd _).
Qed.

(** The loop absorbs the run of accepted sequences next to the high-water mark
    and stops at the first missing one; [k] iterations suffice for a bitmap
    below [2^k]. *)
Lemma advance_loop_spec words distance k : forall s,
  state_ok words distance s -> (0 < words)%nat -> gap s < 2 ^ Z.of_nat k ->
  let s' := advance_loop (S k) s in
  state_ok words distance s' /\ source s' = source s /\
  last_activity_ns s' = last_activity_ns s /\
  highest_contiguous_sequence s <= highest_contiguous_sequence s' /\
  Z.testbit (gap s') 0 = false /\
  (forall n, accepted s' n <-> accepted s n).
Proof.
  induction k as [|k IH]; intros s Hs Hw Hg; cbv zeta.
  all: pose proof (so_words _ _ _ Hs) as Hwo; pose proof (so_length _ _ _ Hs) as Hlen.
  all: pose proof (gap_bit0 s Hwo ltac:(lia)) as Hb.
  - cbn [advance_loop]. rewrite Hb.
    assert (gap s = 0) as Hz by (pose proof (gap_value_nonneg _ Hwo); unfold gap in *; cbn in Hg; lia).
    assert (Z.testbit (gap s) 0 = false) as E0 by by rewrite Hz. rewrite E0. split_and!; done.
  - change (advance_loop (S (S k)) s) with
      (if negb (Z.land (gap_words s !!! 0%nat) 1 =? 0)
       then advance_loop (S k) (mkState (source s) (wrap64 (highest_contiguous_sequence s + 1))
                                  (last_activity_ns s) (shift_words (gap_words s))) else s).
    rewrite Hb. destruct (Z.testbit (gap s) 0) eqn:E0; [|split_and!; done].
    destruct (so_gap _ _ _ Hs 0 ltac:(lia) E0) as [_ Hmax].
    destruct (shift_words_spec _ Hwo) as (Hok & Hl & Hv).
    pose proof (so_highest _ _ _ Hs) as Hh.
    rewrite wrap64_id by ulia. set (s1 := mkState _ _ _ _).
    assert (gap s1 = gap s / 2) as Hg1 by exact Hv.
    assert (forall i, 0 <= i -> Z.testbit (gap s1) i = Z.testbit (gap s) (i + 1)) as Hbits.
    { intros i Hi. rewrite Hg1. change 2 with (2 ^ 1). by rewrite Z.div_pow2_bits by lia. }
    destruct (IH s1) as (H1 & H2 & H3 & H4 & H5 & H6).
    + split; cbn [gap_words highest_contiguous_sequence s1]; [done|congruence|ulia|].
      intros i Hi Hbit. rewrite Hbits in Hbit by done.
      destruct (so_gap _ _ _ Hs (i + 1) ltac:(lia) Hbit). subst s1. cbn. lia.
    + done.
    + rewrite Hg1. rewrite Nat2Z.inj_succ, Z.pow_succ_r in Hg by lia.
      apply Z.div_lt_upper_bound; lia.
    + split_and!; try done; [subst s1; cbn [highest_contiguous_sequence] in H4; lia|]. intros n. rewrite H6.
      unfold accepted. subst s1. cbn [highest_contiguous_sequence] in *.
      set (h := highest_contiguous_sequence s) in *. split.
      * intros [H|[H Hbit]].
        -- destruct (Z.eq_dec n (h + 1)); [|left; lia]. right. subst n.
           replace (h + 1 - h - 1) with 0 by lia. split; [lia|done].
        -- right. split; [lia|]. rewrite Hbits in Hbit by lia.
           by replace (n - h - 1) with (n - (h + 1) - 1 + 1) by lia.
      * intros [H|[H Hbit]]; [left; lia|]. destruct (Z.eq_dec n (h + 1)); [left; ulia|].
        right. split; [lia|]. rewrite Hbits by lia.
        by replace (n - (h + 1) - 1 + 1) with (n - h - 1) by lia.
Qed.

Lemma AdvanceContiguous_done words distance s :
  state_ok words distance s -> (0 < words)%nat ->
  let s' := AdvanceContiguous s in
  state_ok words distance s' /\ source s' = source s /\
  last_activity_ns s' = last_activity_ns s /\
  highest_contiguous_sequence s <= highest_contiguous_sequence s' /\
  ~ accepted s' (highest_contiguous_sequence s' + 1) /\
  (forall n, accepted s' n <-> accepted s n).
Proof.
  intros Hs Hw. unfold AdvanceContiguous.
  destruct (advance_loop_spec words distance (64 * length (gap_words s)) s Hs Hw) as (H1 & H2 & H3 & H4 & H5 & H6).
  { pose proof (gap_value_bound _ (so_words _ _ _ Hs)) as Hb. unfold zlen in Hb.
    rewrite Nat2Z.inj_mul. exact Hb. }
  cbv zeta. split_and!; try done. intros [H|[H Hbit]]; [lia|].
  replace (_ + 1 - _ - 1) with 0 in Hbit by lia. congruence.
Qed.

(** Recording an in-window sequence that is not accepted yet. *)
Lemma SetGap_ok words distance s seq :
  state_ok words distance s -> distance <= 64 * Z.of_nat words ->
  highest_contiguous_sequence s < seq <= u64_max ->
  seq - highest_contiguous_sequence s <= distance ->
  let s' := SetGap s (seq - highest_contiguous_sequence s) in
  state_ok words distance s' /\ (forall n, accepted s' n <-> n = seq \/ accepted s n).
Proof.
  intros Hs Hd Hseq Hdist. set (h := highest_contiguous_sequence s) in *. cbv zeta.
  pose proof (so_length _ _ _ Hs) as Hlen. pose proof (so_highest _ _ _ Hs) as Hh. fold h in Hh.
  destruct (SetGap_words s (seq - h) (so_words _ _ _ Hs)) as (Hok & Hl & Hv); [unfold zlen; lia|].
  fold (gap s) in Hv. fold (gap (SetGap s (seq - h))) in Hv.
  assert (forall i, 0 <= i -> Z.testbit (gap (SetGap s (seq - h))) i
                              = Z.testbit (gap s) i || (seq - h - 1 =? i)) as Hbits.
  { intros i Hi. by rewrite Hv, Z.lor_spec, Z.pow2_bits_eqb by lia. }
  split.
  - split; [done|congruence|done|]. intros i Hi Hb. rewrite Hbits in Hb by done.
    change (highest_contiguous_sequence (SetGap s (seq - h))) with h.
    apply orb_true_iff in Hb as [Hb|Hb]; [by apply (so_gap _ _ _ Hs)|].
    apply Z.eqb_eq in Hb. lia.
  - intros n. unfold accepted.
    change (highest_contiguous_sequence (SetGap s (seq - h))) with h. fold h.
    split.
    + intros [H|[H Hb]]; [by right; left|]. rewrite Hbits in Hb by lia.
      apply orb_true_iff in Hb as [Hb|Hb]; [by right; right|]. apply Z.eqb_eq in Hb. left. lia.
    + intros [->|[H|[H Hb]]].
      * right. split; [lia|]. rewrite Hbits, Z.eqb_refl by lia. apply orb_true_r.
      * by left.
      * right. split; [done|]. rewrite Hbits, Hb by lia. done.
Qed.

(** Classification against the accepted set. *)
Lemma Classify_spec w words distance s seq :
  state_ok words distance s -> distance = max_sequence_distance (options_ w) ->
  distance <= 64 * Z.of_nat words -> 1 <= seq ->
  check_highest (Classify w s seq) = Some (highest_contiguous_sequence s) /\
  (decision (Classify w s seq) = kAccept <->
   ~ accepted s seq /\ seq - highest_contiguous_sequence s <= distance) /\
  (decision (Classify w s seq) = kDuplicateAccepted <->
   accepted s seq /\ highest_contiguous_sequence s - seq < distance) /\
  decision (Classify w s seq) <> kStaleSession.
Proof.
  intros Hs -> Hd Hseq. pose proof (so_length _ _ _ Hs) as Hlen. unfold Classify. cbv zeta.
  assert (highest_contiguous_sequence s < seq <= highest_contiguous_sequence s + max_sequence_distance (options_ w) ->
    GapSet s (seq - highest_contiguous_sequence s)
    = Z.testbit (gap s) (seq - highest_contiguous_sequence s - 1)) as Hgs.
  { intros. rewrite GapSet_testbit; [done|apply Hs|unfold zlen; lia]. }
  assert (forall i, 0 <= i -> Z.testbit (gap s) i = true -> i < max_sequence_distance (options_ w)) as Hgap
    by (intros; by apply (so_gap _ _ _ Hs)).
  unfold accepted. destruct (Z.leb_spec seq (highest_contiguous_sequence s)).
  - destruct (Z.ltb_spec (highest_contiguous_sequence s - seq) (max_sequence_distance (options_ w)));
      cbn [decision check_highest]; split_and!; try done; split; try done; try lia.
  - destruct (Z.ltb_spec (max_sequence_distance (options_ w)) (seq - highest_contiguous_sequence s)).
    + cbn [decision check_highest]. split_and!; try done; split; try done; try lia.
      intros [[?|[_ Hb]] _]; [lia|]. apply Hgap in Hb; lia.
    + rewrite Hgs by lia. destruct (Z.testbit (gap s) _) eqn:E;
        cbn [decision check_highest]; split_and!; try done; split; try done; try lia.
Qed.

(** ** The index *)

(** The index maps exactly the retained sources to their positions. *)
Definition index_ok (entries : list SourceState) (index : gmap SourceIdentity nat) : Prop :=
  forall s i, index !! s = Some i <-> exists e, entries !! i = Some e /\ source e = s.

Lemma index_unique entries index i j e f :
  index_ok entries index -> entries !! i = Some e -> entries !! j = Some f ->
  source e = source f -> i = j.
Proof.
  intros Hi He Hf E.
  assert (index !! source e = Some i) as H1 by (apply Hi; eauto).
  assert (index !! source e = Some j) as H2 by (apply Hi; eauto). congruence.
Qed.

(** Positions relative to [i0]: what the rebuilding loop leaves in the map. *)
Lemma rebuild_from_spec l : forall i0 m,
  (forall i j e f, l !! i = Some e -> l !! j = Some f -> source e = source f -> i = j) ->
  (forall i e, l !! i = Some e -> is_Some (m !! source e)) ->
  (forall j e, l !! j = Some e -> rebuild_from l i0 m !! source e = Some (i0 + j)%nat) /\
  (forall s, (forall j e, l !! j = Some e -> source e <> s) -> rebuild_from l i0 m !! s = m !! s).
Proof.
  induction l as [|a l IH]; intros i0 m Hu Hm; [done|]. cbn [rebuild_from].
  destruct (Hm 0%nat a eq_refl) as [x Hx]. rewrite Hx.
  destruct (IH (S i0) (<[source a := i0]> m)) as [H1 H2].
  { intros i j e f Hi Hj E. specialize (Hu (S i) (S j) e f Hi Hj E). lia. }
  { intros i e Hi. rewrite lookup_insert_is_Some'. right. by apply (Hm (S i)). }
  split.
  - intros [|j] e Hj; cbn in Hj.
    + injection Hj as <-. rewrite H2, lookup_insert_eq, Nat.add_0_r; [done|].
      intros j f Hf E. by specialize (Hu (S j) 0%nat f a Hf eq_refl E).
    + rewrite (H1 j e Hj). f_equal. lia.
  - intros s Hs. rewrite H2; [|intros j e Hj; by apply (Hs (S j))].
    rewrite lookup_insert_ne; [done|]. by apply (Hs 0%nat).
Qed.

Lemma lookup_delete_list {A} (l : list A) k i x :
  delete k l !! i = Some x ->
  exists j, l !! j = Some x /\ j <> k.
Proof.
  intros H. destruct (decide (i < k)%nat).
  - rewrite list_lookup_delete_lt in H by done. exists i. split; [done|lia].
  - rewrite list_lookup_delete_ge in H by lia. exists (S i). split; [done|lia].
Qed.

Lemma erase_index_ok entries index k a :
  index_ok entries index -> entries !! k = Some a ->
  index_ok (delete k entries) (rebuild_from (delete k entries) 0 (delete (source a) index)).
Proof.
  intros Hi Hk.
  destruct (rebuild_from_spec (delete k entries) 0 (delete (source a) index)) as [H1 H2].
  { intros i j e f He Hf E. destruct (decide (i = j)) as [|Hne]; [done|exfalso].
    assert (forall i, delete k entries !! i = entries !! (if decide (i < k)%nat then i else S i)) as Hd.
    { intros x. case_decide; [by apply list_lookup_delete_lt|apply list_lookup_delete_ge; lia]. }
    rewrite Hd in He, Hf. pose proof (index_unique _ _ _ _ _ _ Hi He Hf E).
    repeat case_decide; lia. }
  { intros i e He. apply lookup_delete_list in He as (j & Hj & Hne).
    rewrite lookup_delete_ne; [exists j; apply Hi; eauto|].
    intros E. destruct Hne. by eapply index_unique. }
  intros s i. split.
  - intros Hs.
    assert ((exists j e, delete k entries !! j = Some e /\ source e = s) \/
            ~ (exists j e, delete k entries !! j = Some e /\ source e = s)) as [(j & e & Hj & <-)|Hno].
    { destruct (decide (Exists (fun e => source e = s) (delete k entries))) as [Hex|Hex];
        rewrite Exists_exists in Hex.
      - destruct Hex as (e & [j Hj]%list_elem_of_In%list_elem_of_lookup & He). left. eauto.
      - right. intros (j & e & Hj & He). destruct Hex. exists e. split; [|done].
        by eapply list_elem_of_In, list_elem_of_lookup_2. }
    + rewrite (H1 j e Hj) in Hs. injection Hs as <-. eauto.
    + rewrite H2 in Hs by (intros j e Hj E; destruct Hno; eauto).
      apply lookup_delete_Some in Hs as [Hne Hs]. apply Hi in Hs as (e & He & <-).
      destruct Hno. assert (i <> k) as Hik by (intros ->; congruence).
      destruct (decide (i < k)%nat).
      * exists i, e. by rewrite list_lookup_delete_lt.
      * exists (i - 1)%nat, e. rewrite list_lookup_delete_ge by lia.
        by replace (S (i - 1)) with i by lia.
  - intros (e & He & <-). by rewrite (H1 i e He).
Qed.

(** ** The window's invariant *)

Record options_ok (w : DedupWindow) : Prop := {
  oo_words : (0 < bitmap_words_ w)%nat;
  oo_distance : 1 <= max_sequence_distance (options_ w) <= 64 * Z.of_nat (bitmap_words_ w);
  oo_bytes : 0 < source_bytes_ w <= max_bytes (options_ w);
  oo_sources : 1 <= max_sources (options_ w);
  oo_limit : max_bytes (options_ w) <= u64_max
}.

(** The invariant while [uncounted] freshly pushed entries are not yet part of
    [bytes_]. *)
Record window_core (w : DedupWindow) (uncounted : Z) : Prop := {
  wc_options : options_ok w;
  wc_index : index_ok (entries_ w) (source_index_ w);
  wc_states : Forall (state_ok (bitmap_words_ w) (max_sequence_distance (options_ w))) (entries_ w);
  wc_bytes : bytes_ w = source_bytes_ w * (zlen (entries_ w) - uncounted);
  wc_limit : bytes_ w <= max_bytes (options_ w)
}.

Record dedup_wf (w : DedupWindow) : Prop := {
  df_core : window_core w 0;
  df_count : zlen (entries_ w) <= max_sources (options_ w)
}.

Definition same_config (w w' : DedupWindow) : Prop :=
  options_ w' = options_ w /\ bitmap_words_ w' = bitmap_words_ w /\
  source_bytes_ w' = source_bytes_ w /\ session_active_ w' = session_active_ w /\
  peer_session_epoch_ w' = peer_session_epoch_ w.

Lemma same_config_refl w : same_config w w.
Proof. done. Qed.
Lemma same_config_trans w1 w2 w3 : same_config w1 w2 -> same_config w2 w3 -> same_config w1 w3.
Proof. unfold same_config. intros (? & ? & ? & ? & ?) (? & ? & ? & ? & ?). split_and!; congruence. Qed.
#[export] Hint Resolve same_config_refl : mino.

Lemma options_ok_config w w' : same_config w w' -> options_ok w -> options_ok w'.
Proof. intros (Ho & Hb & Hs & _) []. split; rewrite ?Ho, ?Hb, ?Hs; done. Qed.

Lemma set_stats_core w st k : window_core (set_stats w st) k <-> window_core w k.
Proof. split; intros [Ho ? ? ? ?]; (split; [by destruct Ho; split|..]; done). Qed.

(** The state of a source. *)
Definition view (w : DedupWindow) (s : SourceIdentity) : option SourceState := snd <$> Find w s.

Lemma Find_spec w k s i e :
  window_core w k ->
  Find w s = Some (i, e) <-> entries_ w !! i = Some e /\ source e = s.
Proof.
  intros Hw. pose proof (wc_index _ _ Hw) as Hi. unfold Find.
  destruct (source_index_ w !! s) as [j|] eqn:E.
  - apply Hi in E as (f & Hf & Hs). rewrite Hf. cbn. split.
    + by intros [= <- <-].
    + intros [He Hse]. assert (i = j) as -> by (eapply index_unique; eauto; congruence). congruence.
  - split; [done|]. intros [He Hse].
    assert (source_index_ w !! s = Some i) by (apply Hi; eauto). congruence.
Qed.

Lemma view_spec w k s e :
  window_core w k -> view w s = Some e <-> e ∈ entries_ w /\ source e = s.
Proof.
  intros Hw. unfold view. rewrite fmap_Some. split.
  - intros ([i x] & H & ->). apply (Find_spec w k) in H as [He Hs]; [|done].
    split; [by eapply list_elem_of_lookup_2|done].
  - intros [[i He]%list_elem_of_lookup Hs]. exists (i, e). split; [|done]. by apply (Find_spec w k).
Qed.

(** *** Erasing *)

Lemma EraseEntry_spec w k i e :
  window_core w k -> entries_ w !! i = Some e -> k < zlen (entries_ w) -> 0 <= k ->
  window_core (EraseEntry w i) k /\ same_config w (EraseEntry w i) /\
  entries_ (EraseEntry w i) = delete i (entries_ w).
Proof.
  intros Hw He Hk Hk0. unfold EraseEntry. rewrite He.
  assert (S (length (delete i (entries_ w))) = length (entries_ w)) as Hl.
  { pose proof (lookup_lt_Some _ _ _ He). rewrite length_delete by eauto. lia. }
  split_and!; [|done|done]. destruct Hw as [Ho Hi Hs Hb Hm]. destruct (oo_bytes _ Ho).
  assert (wrap64 (bytes_ w - source_bytes_ w) = source_bytes_ w * (zlen (delete i (entries_ w)) - k)) as Hbytes.
  { replace (zlen (delete i (entries_ w))) with (zlen (entries_ w) - 1) by (unfold zlen; lia).
    pose proof (oo_limit _ Ho). rewrite wrap64_id; rewrite Hb in *; [lia|]. unfold is_u64. nia. }
  split; cbn.
  - by destruct Ho; split.
  - by apply erase_index_ok.
  - by apply Forall_delete.
  - exact Hbytes.
  - rewrite Hbytes. unfold zlen in *. rewrite Hb in Hm. nia.
Qed.

(** *** Age eviction keeps exactly the entries that are not expired *)

Definition fresh (w : DedupWindow) (now_ns : Z) (e : SourceState) : Prop :=
  IsExpired now_ns (last_activity_ns e) (max_source_age_ns (options_ w)) = false.
#[export] Instance fresh_dec w now_ns e : Decision (fresh w now_ns e).
Proof. unfold fresh. apply _. Defined.

Lemma delete_middle {A} (l : list A) i x :
  l !! i = Some x -> delete i l = take i l ++ drop (S i) l.
Proof. intros. by rewrite delete_take_drop. Qed.

Lemma purge_from_spec n : forall w now_ns i r,
  window_core w 0 -> (length (entries_ w) - i <= n)%nat ->
  let w' := (purge_from n w now_ns i r).1 in
  window_core w' 0 /\ same_config w w' /\
  entries_ w' = take i (entries_ w) ++ filter (fresh w now_ns) (drop i (entries_ w)).
Proof.
  induction n as [|n IH]; intros w now_ns i r Hw Hn; cbn [purge_from].
  { rewrite drop_ge, take_ge, app_nil_r by lia. done. }
  destruct (entries_ w !! i) as [e|] eqn:E.
  2:{ apply lookup_ge_None in E. rewrite drop_ge, take_ge, app_nil_r by lia. done. }
  pose proof (lookup_lt_Some _ _ _ E) as Hlt. rewrite (drop_S _ e) by done. rewrite filter_cons.
  destruct (IsExpired now_ns (last_activity_ns e) (max_source_age_ns (options_ w))) eqn:Ex; cbn [negb].
  - destruct (EraseEntry_spec w 0 i e Hw E) as (Hw1 & Hc1 & He1); [unfold zlen; lia|lia|].
    rewrite decide_False by (unfold fresh; congruence).
    destruct (IH (set_stats (EraseEntry w i) (count_age (stats_ (EraseEntry w i)))) now_ns i (r + 1))
      as (Hw2 & Hc2 & He2).
    + by apply set_stats_core.
    + cbn. rewrite He1, length_delete by eauto. lia.
    + cbv zeta in *. split_and!; [done|by eapply same_config_trans|].
      rewrite He2. cbn [entries_ set_stats]. rewrite He1, (delete_middle _ _ e) by done.
      rewrite take_app_le, take_take, drop_app_le by (rewrite length_take; lia).
      rewrite Nat.min_id, (drop_ge (take i _)), app_nil_l by (rewrite length_take; lia).
      f_equal. apply list_filter_iff. intros x. unfold fresh. cbn.
      by rewrite (proj1 Hc1).
  - rewrite decide_True by done. destruct (IH w now_ns (S i) r Hw ltac:(lia)) as (Hw2 & Hc2 & He2).
    split_and!; try done. cbv zeta in He2. rewrite He2, (take_S_r _ _ e) by done. by rewrite <- app_assoc.
Qed.

Lemma PurgeExpired_spec w now_ns :
  window_core w 0 ->
  let w' := (PurgeExpired w now_ns).1 in
  window_core w' 0 /\ same_config w w' /\ entries_ w' = filter (fresh w now_ns) (entries_ w).
Proof.
  intros Hw. destruct (purge_from_spec (length (entries_ w)) w now_ns 0 0 Hw ltac:(lia)) as (H1 & H2 & H3).
  by split_and!.
Qed.

Lemma PurgeExpired_wf w now_ns : dedup_wf w -> dedup_wf (PurgeExpired w now_ns).1.
Proof.
  intros [Hc Hn]. destruct (PurgeExpired_spec w now_ns Hc) as (H1 & (Ho & _) & H3).
  split; [done|]. rewrite Ho. etrans; [|exact Hn]. unfold zlen. rewrite H3.
  pose proof (length_filter (fresh w now_ns) (entries_ w)). lia.
Qed.

(** *** Capacity eviction never removes the entry just added *)

Lemma oldest_from_bound l : forall i o ns n,
  (o < n)%nat -> (i + length l <= n)%nat -> (oldest_from l i o ns < n)%nat.
Proof.
  induction l as [|e l IH]; intros i o ns n Ho Hn; cbn [oldest_from length] in *; [done|].
  destruct (_ <? _); apply IH; lia.
Qed.

Lemma oldest_entry_bound l : l <> [] -> (oldest_entry l < length l)%nat.
Proof.
  destruct l as [|e l]; [done|]. intros _. cbn [oldest_entry length].
  apply oldest_from_bound; lia.
Qed.

Lemma evict_loop_spec n : forall w front st,
  window_core w 1 -> entries_ w = front ++ [st] -> (length front <= n)%nat ->
  exists front', entries_ (evict_loop (S n) w) = front' ++ [st] /\
    (forall e, e ∈ front' -> e ∈ front) /\
    window_core (evict_loop (S n) w) 1 /\ same_config w (evict_loop (S n) w) /\
    zlen (entries_ (evict_loop (S n) w)) <= max_sources (options_ w) /\
    bytes_ (evict_loop (S n) w) <= max_bytes (options_ w) - source_bytes_ w.
Proof.
  induction n as [|n IH]; intros w front st Hw He Hn.
  all: pose proof (oo_sources _ (wc_options _ _ Hw)) as Hms;
    pose proof (oo_bytes _ (wc_options _ _ Hw)) as Hsb;
    pose proof (wc_bytes _ _ Hw) as Hb.
  - destruct front; [|cbn in Hn; lia]. cbn [app] in He. rewrite He in Hb.
    change (zlen [st]) with 1 in Hb. exists []. cbn [evict_loop].
    rewrite He. change (zlen [st]) with 1.
    rewrite (proj2 (Z.ltb_ge _ 1)), (proj2 (Z.ltb_ge _ (bytes_ w))) by lia.
    cbn [orb]. rewrite He. change (zlen [st]) with 1. split_and!; (done || lia || apply same_config_refl).
  - change (evict_loop (S (S n)) w) with
      (if (max_sources (options_ w) <? zlen (entries_ w))
       || (max_bytes (options_ w) - source_bytes_ w <? bytes_ w)
       then let old_count := (length (entries_ w) - 1)%nat in
            let w := EraseEntry w (oldest_entry (take old_count (entries_ w))) in
            evict_loop (S n) (set_stats w (count_eviction (stats_ w)))
       else w).
    destruct (_ || _) eqn:Eo.
    + assert (front <> []) as Hne.
      { intros ->. cbn [app] in He. rewrite He in Hb, Eo. change (zlen [st]) with 1 in *.
        rewrite (proj2 (Z.ltb_ge _ 1)), (proj2 (Z.ltb_ge _ (bytes_ w))) in Eo by lia. done. }
      cbv zeta. assert (take (length (entries_ w) - 1) (entries_ w) = front) as Htake.
      { rewrite He, length_app. cbn [length]. apply take_app_length'. lia. }
      rewrite Htake. set (o := oldest_entry front).
      pose proof (oldest_entry_bound front Hne) as Ho. fold o in Ho.
      destruct (lookup_lt_is_Some_2 front o Ho) as [e Hoe].
      assert (entries_ w !! o = Some e) as Hoe' by (rewrite He; by apply lookup_app_l_Some).
      destruct (EraseEntry_spec w 1 o e Hw Hoe') as (Hw1 & Hc1 & He1).
      { rewrite He. unfold zlen. rewrite length_app. cbn [length].
        assert (length front <> 0)%nat by (destruct front; done). lia. }
      { lia. }
      assert (delete o (front ++ [st]) = delete o front ++ [st]) as Hdel
        by (rewrite !(delete_middle _ _ e) by (done || by rewrite <- He);
            by rewrite take_app_le, drop_app_le, app_assoc by lia).
      destruct (IH (set_stats (EraseEntry w o) (count_eviction (stats_ (EraseEntry w o))))
                  (delete o front) st) as (f' & H1 & H2 & H3 & H4 & H5 & H6).
      * by apply set_stats_core.
      * cbn [entries_ set_stats]. by rewrite He1, He, Hdel.
      * rewrite length_delete by eauto. lia.
      * exists f'. cbn [options_ source_bytes_ set_stats] in *. destruct Hc1 as (Ho1 & Hb1 & Hs1 & ? & ?).
        rewrite Ho1, Hs1 in *. split_and!; try done.
        -- intros x Hx. apply H2 in Hx as [j Hj]%list_elem_of_lookup.
           apply lookup_delete_list in Hj as (j' & Hj & _). by eapply list_elem_of_lookup_2.
        -- eapply same_config_trans; [|exact H4]. by split_and!.
    + apply orb_false_iff in Eo as [E1 E2]. bool_to_prop. exists front.
      split_and!; (done || apply same_config_refl).
Qed.

Lemma index_ok_snoc entries index st :
  index_ok entries index -> index !! source st = None ->
  index_ok (entries ++ [st]) (<[source st := length entries]> index).
Proof.
  intros Hi Hn s i. rewrite lookup_insert_Some. split.
  - intros [[<- <-]|[Hne (e & He & <-)%Hi]].
    + exists st. split; [|done]. by rewrite lookup_app_r, Nat.sub_diag by lia.
    + exists e. split; [by apply lookup_app_l_Some|done].
  - intros (e & He & <-). apply lookup_app_Some in He as [He|[Hl He]].
    + right. split; [|apply Hi; eauto]. intros E. assert (index !! source st = Some i) by (apply Hi; eauto). congruence.
    + apply list_lookup_singleton_Some in He as [Hz <-]. left. split; [done|lia].
Qed.

Lemma new_state_ok w s h now :
  is_u64 h -> state_ok (bitmap_words_ w) (max_sequence_distance (options_ w))
                (mkState s h now (replicate (bitmap_words_ w) 0)).
Proof.
  intros Hh. assert (forall n, gap_value (replicate n 0) = 0) as Hz.
  { induction n as [|n IH]; [done|]. cbn [replicate gap_value foldr]. fold (gap_value (replicate n 0)). lia. }
  split; cbn [gap_words highest_contiguous_sequence]; [|by rewrite length_replicate|done|].
  - apply Forall_replicate. unfold is_u64. lia.
  - intros i Hi. unfold gap. cbn [gap_words]. by rewrite Hz, Z.bits_0.
Qed.

Lemma AddSource_spec w s h now :
  dedup_wf w -> view w s = None -> is_u64 h ->
  exists w' front, AddSource w s h now = (w', Ok tt) /\ dedup_wf w' /\ same_config w w' /\
    entries_ w' = front ++ [mkState s h now (replicate (bitmap_words_ w) 0)] /\
    (forall e, e ∈ front -> e ∈ entries_ w).
Proof.
  intros [Hc Hn] Hv Hh. unfold AddSource.
  assert (source_index_ w !! s = None) as Hidx.
  { destruct (source_index_ w !! s) as [i|] eqn:E; [|done].
    apply (wc_index _ _ Hc) in E as (e & He & Hs).
    assert (view w s = Some e) by (apply (view_spec w 0); [done|split; [by eapply list_elem_of_lookup_2|done]]).
    congruence. }
  rewrite Hidx. set (st := mkState s h now (replicate (bitmap_words_ w) 0)).
  set (w1 := set_entries w (entries_ w ++ [st]) _ _).
  assert (window_core w1 1) as Hw1.
  { destruct Hc as [Ho Hi Hs Hb Hm]. split; cbn.
    - by destruct Ho; split.
    - by apply (index_ok_snoc _ _ st).
    - apply Forall_app. split; [done|]. apply Forall_singleton, new_state_ok, Hh.
    - rewrite Hb. unfold zlen. rewrite length_app. cbn [length]. f_equal. lia.
    - done. }
  unfold EvictToLimits.
  assert (length (entries_ w1) = S (length (entries_ w))) as Hl1
    by (cbn; rewrite length_app; cbn [length]; lia).
  rewrite Hl1. destruct (evict_loop_spec (length (entries_ w)) w1 (entries_ w) st Hw1 eq_refl ltac:(lia))
    as (front & He & Hsub & Hw2 & Hc2 & Hn2 & Hb2).
  set (w2 := evict_loop _ w1) in *. pose proof (wc_bytes _ _ Hw2) as Hbb.
  destruct Hc2 as (Ho2 & Hbw2 & Hsb2 & Ha2 & Hp2).
  pose proof (oo_limit _ (wc_options _ _ Hc)). pose proof (oo_bytes _ (wc_options _ _ Hc)).
  assert (0 <= bytes_ w2) as Hnn.
  { rewrite Hbb, He. unfold zlen. rewrite length_app. cbn [length].
    pose proof (oo_bytes _ (wc_options _ _ Hw2)). nia. }
  cbn [options_ source_bytes_ set_entries w1] in *.
  eexists _, front. split; [reflexivity|]. clearbody w2. split_and!; [|done|by cbn|done].
  assert (wrap64 (bytes_ w2 + source_bytes_ w2) = bytes_ w2 + source_bytes_ w2) as Hwrap
    by (apply wrap64_id; rewrite Hsb2; unfold is_u64; lia).
  split; [|by cbn; rewrite Ho2]. destruct Hw2 as [Ho Hi Hs Hb Hm]. split; cbn; try done.
  - by destruct Ho; split.
  - rewrite Hwrap, Hb. lia.
  - rewrite Hwrap, Ho2, Hsb2. lia.
Qed.

(** *** Updating one entry *)

Lemma index_ok_insert entries index i e e' :
  index_ok entries index -> entries !! i = Some e -> source e' = source e ->
  index_ok (<[i := e']> entries) index.
Proof.
  intros Hi He Hs s j. rewrite (Hi s j). destruct (decide (i = j)) as [->|Hne].
  - rewrite list_lookup_insert_eq by by eapply lookup_lt_Some. split.
    + intros (x & Hx & <-). exists e'. split; [done|]. congruence.
    + intros (x & [= <-] & <-). by exists e.
  - by rewrite list_lookup_insert_ne.
Qed.

Lemma set_entry_spec w i e e' :
  dedup_wf w -> entries_ w !! i = Some e -> source e' = source e ->
  state_ok (bitmap_words_ w) (max_sequence_distance (options_ w)) e' ->
  dedup_wf (set_entry w i e') /\ same_config w (set_entry w i e') /\
  view (set_entry w i e') (source e) = Some e' /\
  (forall s, s <> source e -> view (set_entry w i e') s = view w s).
Proof.
  intros [Hc Hn] He Hs Hok. pose proof (lookup_lt_Some _ _ _ He) as Hlt.
  assert (window_core (set_entry w i e') 0) as Hc'.
  { destruct Hc as [Ho Hi Hst Hb Hm]. split; cbn; try done.
    - by destruct Ho; split.
    - by eapply index_ok_insert.
    - by apply Forall_insert.
    - unfold zlen in *. by rewrite length_insert. }
  split_and!; try done.
  - split; [done|]. cbn. unfold zlen in *. by rewrite length_insert.
  - apply (view_spec _ 0); [done|]. split; [|done]. cbn. apply list_elem_of_lookup.
    exists i. by apply list_lookup_insert_eq.
  - intros s Hne. apply option_eq. intros x. rewrite !(view_spec _ 0) by done. cbn.
    split; intros [[j Hj]%list_elem_of_lookup <-]; (split; [|done]); apply list_elem_of_lookup; exists j.
    + destruct (decide (i = j)) as [->|]; [|by rewrite list_lookup_insert_ne in Hj].
      rewrite list_lookup_insert_eq in Hj by done. congruence.
    + rewrite list_lookup_insert_ne; [done|]. intros ->. congruence.
Qed.

Lemma view_state_ok w s e :
  dedup_wf w -> view w s = Some e ->
  state_ok (bitmap_words_ w) (max_sequence_distance (options_ w)) e /\ source e = s.
Proof.
  intros [Hc _] Hv. apply (view_spec _ 0) in Hv as [He Hs]; [|done].
  split; [|done]. apply list_elem_of_lookup in He as [i Hi].
  by eapply Forall_lookup_1; [apply Hc|].
Qed.

Lemma view_Find w s :
  view w s = None /\ Find w s = None \/
  exists i e, Find w s = Some (i, e) /\ view w s = Some e.
Proof. unfold view. destruct (Find w s) as [[i e]|]; [right; eauto|by left]. Qed.

Lemma set_activity_ok words d e now : state_ok words d e -> state_ok words d (set_activity e now).
Proof. by intros []; split. Qed.

(** ** The accepted set of a source in a window *)

Definition window_accepted (w : DedupWindow) (s : SourceIdentity) (n : Z) : Prop :=
  match view w s with Some e => accepted e n | None => False end.

(** Every state of [w'] other than [s]'s is a state of [w]: other sources are
    kept unchanged or evicted whole. *)
Definition others_kept (w w' : DedupWindow) (s : SourceIdentity) : Prop :=
  forall t e, t <> s -> view w' t = Some e -> view w t = Some e.

Lemma AddSource_view w s h now w' front :
  dedup_wf w -> dedup_wf w' -> view w s = None ->
  entries_ w' = front ++ [mkState s h now (replicate (bitmap_words_ w) 0)] ->
  (forall e, e ∈ front -> e ∈ entries_ w) ->
  view w' s = Some (mkState s h now (replicate (bitmap_words_ w) 0)) /\ others_kept w w' s.
Proof.
  intros [Hc _] [Hc' _] Hv He Hsub. split.
  - apply (view_spec _ 0); [done|]. split; [|done]. rewrite He. set_solver.
  - intros t e Hne Ht. apply (view_spec _ 0) in Ht as [Ht <-]; [|done].
    apply (view_spec _ 0); [done|]. split; [|done]. rewrite He in Ht.
    apply elem_of_app in Ht as [Ht|Ht%list_elem_of_singleton]; [by apply Hsub|by subst e].
Qed.

Lemma accepted_fresh s now words n : ~ accepted (mkState s 0 now (replicate words 0)) n.
Proof.
  assert (forall k, gap_value (replicate k 0) = 0) as Hz.
  { induction k as [|k IH]; [done|]. cbn [replicate gap_value foldr]. fold (gap_value (replicate k 0)). lia. }
  intros [H|[H Hb]]; cbn [highest_contiguous_sequence] in *; [lia|].
  unfold gap in Hb. cbn [gap_words] in Hb. by rewrite Hz, Z.bits_0 in Hb.
Qed.

(** Recording and absorbing one sequence. *)
Lemma record_sequence words d e seq :
  state_ok words d e -> (0 < words)%nat -> d <= 64 * Z.of_nat words ->
  highest_contiguous_sequence e < seq <= u64_max -> seq - highest_contiguous_sequence e <= d ->
  let e' := AdvanceContiguous (SetGap e (seq - highest_contiguous_sequence e)) in
  state_ok words d e' /\ source e' = source e /\
  (forall n, accepted e' n <-> n = seq \/ accepted e n) /\
  ~ accepted e' (highest_contiguous_sequence e' + 1) /\
  last_activity_ns e' = last_activity_ns e.
Proof.
  intros Hs Hw Hd H1 H2. destruct (SetGap_ok words d e seq Hs Hd H1 H2) as [Hs' Hacc].
  destruct (AdvanceContiguous_done words d _ Hs' Hw) as (Ha & Hsrc & Hact & _ & Hnext & Hacc').
  cbv zeta. split_and!; try done. intros n. by rewrite Hacc', Hacc.
Qed.

(** A commit that succeeds. *)
Lemma CommitAccepted_spec w epoch s seq now w' :
  dedup_wf w -> is_u64 seq -> CommitAccepted w epoch s seq now = (w', Ok tt) ->
  let w1 := (PurgeExpired w now).1 in
  dedup_wf w' /\ same_config w w' /\ others_kept w1 w' s /\ 1 <= seq /\
  exists e, view w' s = Some e /\ last_activity_ns e = now /\
    (forall n, accepted e n <-> n = seq \/ window_accepted w1 s n) /\
    highest_contiguous_sequence e - seq < max_sequence_distance (options_ w) /\
    (~ window_accepted w1 s seq -> ~ accepted e (highest_contiguous_sequence e + 1)).
Proof.
  intros Hw Hseq H. cbv zeta. unfold CommitAccepted in H.
  destruct (_ || _); [done|]. destruct (Z.eqb_spec seq 0) as [|Hnz]; [done|].
  pose proof (PurgeExpired_wf w now Hw) as Hw1.
  destruct (PurgeExpired_spec w now (df_core _ Hw)) as (_ & Hc1 & _).
  set (w1 := (PurgeExpired w now).1) in *. cbv zeta in Hc1. cbv zeta in H.
  pose proof (oo_words _ (wc_options _ _ (df_core _ Hw1))) as Hwords.
  pose proof (oo_distance _ (wc_options _ _ (df_core _ Hw1))) as Hdist.
  assert (options_ w1 = options_ w) as Hopt by apply Hc1. unfold window_accepted.
  destruct (view_Find w1 s) as [[Hv Hf]|(i & e & Hf & Hv)]; rewrite Hf in H; rewrite Hv.
  - destruct (Z.ltb_spec (max_sequence_distance (options_ w1)) seq); [done|].
    destruct (AddSource_spec w1 s 0 now Hw1 Hv ltac:(unfold is_u64; lia))
      as (w2 & front & HA & Hw2 & Hc2 & He2 & Hsub). rewrite HA in H.
    destruct (AddSource_view _ _ _ _ _ _ Hw1 Hw2 Hv He2 Hsub) as [Hv2 Hoth].
    destruct (view_Find w2 s) as [[Hv2' _]|(i & e & Hf2 & Hv2')]; rewrite Hv2 in Hv2'; [done|].
    rewrite Hf2 in H. injection H as <-. injection Hv2' as <-.
    pose proof (proj1 (Find_spec w2 0 s i _ (df_core _ Hw2)) Hf2) as [Hi _].
    destruct (view_state_ok _ _ _ Hw2 Hv2) as [Hok _].
    pose proof Hc2 as (Ho2 & Hb2 & _). rewrite Hb2, Ho2 in Hok.
    set (st := mkState s 0 now (replicate (bitmap_words_ w1) 0)) in *.
    destruct (record_sequence _ _ st seq Hok Hwords ltac:(lia)) as (R1 & R2 & R3 & R4 & R5);
      [cbn; ulia|cbn; lia|]. cbn [highest_contiguous_sequence st] in *. rewrite Z.sub_0_r in *.
    destruct (set_entry_spec w2 i st _ Hw2 Hi R2) as (S1 & S2 & S3 & S4).
    { by rewrite Hb2, Ho2. }
    split_and!; try done.
    + eapply same_config_trans; [|exact S2]. by eapply same_config_trans.
    + intros t x Hne Ht. apply Hoth; [done|]. by rewrite <- S4.
    + ulia.
    + eexists. split_and!; [exact S3|exact R5| | |by intros _].
      * intros n. rewrite R3. split.
        -- intros [->|Ha]; [by left|]. destruct (accepted_fresh _ _ _ _ Ha).
        -- intros [->|[]]. by left.
      * rewrite <- Hopt. destruct (Z.lt_ge_cases (highest_contiguous_sequence (AdvanceContiguous (SetGap st seq)) - seq)
          (max_sequence_distance (options_ w1))) as [|Hge]; [done|exfalso].
        assert (accepted (AdvanceContiguous (SetGap st seq)) (seq + 1)) as Hacc by (left; ulia).
        apply R3 in Hacc as [|Hacc]; [lia|]. by destruct (accepted_fresh _ _ _ _ Hacc).
  - pose proof (proj1 (Find_spec w1 0 s i e (df_core _ Hw1)) Hf) as [Hi Hse].
    destruct (view_state_ok _ _ _ Hw1 Hv) as [Hok _].
    destruct (Classify_spec w1 _ _ e seq Hok eq_refl ltac:(lia) ltac:(ulia)) as (_ & Hacc & Hdup & _).
    destruct (decision (Classify w1 e seq)); try done; injection H as <-.
    + destruct (proj1 Hacc eq_refl) as [Hna Hd].
      assert (highest_contiguous_sequence e < seq) as Hlt.
      { destruct (Z.lt_ge_cases (highest_contiguous_sequence e) seq); [done|]. destruct Hna. left. ulia. }
      destruct (record_sequence _ _ e seq Hok Hwords ltac:(lia) ltac:(ulia) Hd) as (R1 & R2 & R3 & R4 & R5).
      set (e' := AdvanceContiguous _) in *.
      destruct (set_entry_spec w1 i e (set_activity e' now) Hw1 Hi R2 ltac:(by apply set_activity_ok))
        as (S1 & S2 & S3 & S4). rewrite Hse in *.
      split_and!; try done.
      * intros t x Hne Ht. by rewrite <- S4.
      * ulia.
      * eexists. split_and!; [exact S3|done|exact R3| |by intros _].
        rewrite <- Hopt. cbn [highest_contiguous_sequence set_activity].
        destruct (Z.lt_ge_cases (highest_contiguous_sequence e' - seq) (max_sequence_distance (options_ w1))) as [|Hge]; [done|exfalso].
        assert (accepted e' (highest_contiguous_sequence e')) as Hacc' by (left; ulia).
        apply R3 in Hacc' as [|Hacc']; [lia|]. destruct Hacc' as [|[_ Hb]]; [lia|].
        apply (so_gap _ _ _ Hok) in Hb; lia.
    + destruct (proj1 Hdup eq_refl) as [Ha Hd].
      destruct (set_entry_spec w1 i e (set_activity e now) Hw1 Hi eq_refl ltac:(by apply set_activity_ok))
        as (S1 & S2 & S3 & S4). rewrite Hse in *.
      split_and!; try done.
      * intros t x Hne Ht. by rewrite <- S4.
      * ulia.
      * eexists. split_and!; [exact S3|done| |by rewrite <- Hopt|by intros []].
        intros n. split; [by right|intros [->|]; done].
Qed.

(** ** Every operation preserves the invariant *)

Lemma set_stats_wf w st : dedup_wf w -> dedup_wf (set_stats w st).
Proof. intros [Hc Hn]. split; [by apply set_stats_core|done]. Qed.

Lemma set_activity_wf w s i e now :
  dedup_wf w -> Find w s = Some (i, e) -> dedup_wf (set_entry w i (set_activity e now)).
Proof.
  intros Hw Hf. pose proof (proj1 (Find_spec w 0 s i e (df_core _ Hw)) Hf) as [Hi Hs].
  apply (set_entry_spec w i e); try done. apply set_activity_ok.
  eapply view_state_ok; [done|]. unfold view. by rewrite Hf.
Qed.

Lemma Create_wf options w :
  0 <= max_sources options -> 0 <= max_bytes options <= u64_max ->
  0 <= max_sequence_distance options ->
  Create options = Ok w -> dedup_wf w /\ entries_ w = [] /\ options_ w = options.
Proof.
  intros Hs Hb Hd H. unfold Create in H. step_if. cbv zeta in H. do 4 step_if. apply Ok_inj in H.
  subst w. bool_to_prop. unfold sizeof_SourceState in *.
  pose proof (Z.div_mod (max_sequence_distance options - 1) 64 ltac:(lia)).
  pose proof (Z.mod_pos_bound (max_sequence_distance options - 1) 64 ltac:(lia)).
  assert (0 <= (max_sequence_distance options - 1) / 64) by (apply Z.div_pos; lia).
  split_and!; try done. split; [|cbn; unfold zlen; cbn [length]; lia].
  split; cbn; try done; [split; cbn; lia|..].
  - intros s i. by split; [|intros (e & He & _)].
  - unfold zlen. cbn [length]. lia.
  - lia.
Qed.

Lemma BeginSession_wf w epoch now preserve : dedup_wf w -> dedup_wf (BeginSession w epoch now preserve).
Proof.
  intros [[Ho Hi Hs Hb Hm] Hn]. unfold BeginSession. destruct (_ && _); [by split|].
  pose proof (oo_sources _ Ho). pose proof (oo_bytes _ Ho).
  destruct preserve; split; cbn; try done.
  - split; cbn; try done. by destruct Ho; split.
  - split; cbn; try done; [by destruct Ho; split| | |lia].
    + intros s i. by split; [|intros (e & He & _)].
    + unfold zlen. cbn [length]. lia.
  - unfold zlen. cbn [length]. lia.
Qed.

Lemma Check_wf w epoch s seq now : dedup_wf w -> dedup_wf (Check w epoch s seq now).1.
Proof.
  intros Hw. unfold Check. destruct (_ || _); [by apply set_stats_wf|].
  destruct (seq =? 0); [done|]. pose proof (PurgeExpired_wf w now Hw) as Hw1.
  set (w1 := (PurgeExpired w now).1) in *. cbv zeta. fold w1.
  destruct (Find w1 s) as [[i e]|] eqn:Ef.
  - cbn [fst]. apply set_stats_wf. by eapply set_activity_wf.
  - destruct (_ <? _); by apply set_stats_wf.
Qed.

Lemma AddSource_wf w s h now :
  dedup_wf w -> Find w s = None -> is_u64 h -> dedup_wf (AddSource w s h now).1.
Proof.
  intros Hw Hf Hh. destruct (AddSource_spec w s h now Hw) as (w' & front & -> & ? & _); [|done|done].
  unfold view. by rewrite Hf.
Qed.

Lemma PrepareSource_wf w epoch s now : dedup_wf w -> dedup_wf (PrepareSource w epoch s now).1.
Proof.
  intros Hw. unfold PrepareSource. destruct (_ || _); [done|].
  pose proof (PurgeExpired_wf w now Hw) as Hw1. set (w1 := (PurgeExpired w now).1) in *. cbv zeta.
  destruct (Find w1 s) as [[i e]|] eqn:Ef.
  - by eapply set_activity_wf.
  - apply AddSource_wf; [done|done|unfold is_u64; lia].
Qed.

Lemma SeedAccepted_wf w epoch s h now :
  dedup_wf w -> is_u64 h -> dedup_wf (SeedAccepted w epoch s h now).1.
Proof.
  intros Hw Hh. unfold SeedAccepted. destruct (_ || _); [done|].
  pose proof (PurgeExpired_wf w now Hw) as Hw1. set (w1 := (PurgeExpired w now).1) in *. cbv zeta.
  destruct (Find w1 s) as [[i e]|] eqn:Ef; [|by apply AddSource_wf].
  pose proof (proj1 (Find_spec w1 0 s i e (df_core _ Hw1)) Ef) as [Hi Hs].
  destruct (view_state_ok w1 s e Hw1) as [Hok _]; [unfold view; by rewrite Ef|].
  apply (set_entry_spec w1 i e); try done.
  rewrite (so_length _ _ _ Hok). by apply new_state_ok.
Qed.

Lemma CommitAccepted_wf w epoch s seq now :
  dedup_wf w -> is_u64 seq -> dedup_wf (CommitAccepted w epoch s seq now).1.
Proof.
  intros Hw Hseq. destruct (CommitAccepted w epoch s seq now) as [w' [[]|e]] eqn:E.
  { by destruct (CommitAccepted_spec _ _ _ _ _ _ Hw Hseq E) as (? & _). }
  unfold CommitAccepted in E. destruct (_ || _); [by injection E as <-|].
  destruct (seq =? 0); [by injection E as <-|].
  pose proof (PurgeExpired_wf w now Hw) as Hw1. set (w1 := (PurgeExpired w now).1) in *. cbv zeta in E.
  destruct (Find w1 s) as [[i st]|] eqn:Ef.
  - destruct (decision _); try done; by injection E as <-.
  - destruct (_ <? _); [by injection E as <-|].
    destruct (AddSource_spec w1 s 0 now Hw1) as (w2 & front & HA & ? & _);
      [unfold view; by rewrite Ef|unfold is_u64; lia|].
    rewrite HA in E. by destruct (Find w2 s) as [[??]|].
Qed.

(** A sequence of calls on one window. *)
Inductive DedupCall : Type :=
| CallBeginSession (epoch now_ns : Z) (preserve : bool)
| CallCheck (epoch : Z) (s : SourceIdentity) (sequence now_ns : Z)
| CallPrepareSource (epoch : Z) (s : SourceIdentity) (now_ns : Z)
| CallCommitAccepted (epoch : Z) (s : SourceIdentity) (sequence now_ns : Z)
| CallSeedAccepted (epoch : Z) (s : SourceIdentity) (highest now_ns : Z)
| CallPurgeExpired (now_ns : Z).

Definition run_call (w : DedupWindow) (c : DedupCall) : DedupWindow :=
  match c with
  | CallBeginSession epoch now preserve => BeginSession w epoch now preserve
  | CallCheck epoch s seq now => (Check w epoch s seq now).1
  | CallPrepareSource epoch s now => (PrepareSource w epoch s now).1
  | CallCommitAccepted epoch s seq now => (CommitAccepted w epoch s seq now).1
  | CallSeedAccepted epoch s h now => (SeedAccepted w epoch s h now).1
  | CallPurgeExpired now => (PurgeExpired w now).1
  end.

(** The arguments fit [uint64_t]. *)
Definition call_ok (c : DedupCall) : Prop :=
  match c with
  | CallCommitAccepted _ _ seq _ => is_u64 seq
  | CallSeedAccepted _ _ h _ => is_u64 h
  | _ => True
  end.

Lemma run_call_wf w c : dedup_wf w -> call_ok c -> dedup_wf (run_call w c).
Proof.
  intros Hw Hc. destruct c; cbn [run_call] in *;
    eauto using BeginSession_wf, Check_wf, PrepareSource_wf, CommitAccepted_wf, SeedAccepted_wf,
      PurgeExpired_wf.
Qed.

Lemma run_calls_wf calls : forall w,
  dedup_wf w -> Forall call_ok calls -> dedup_wf (foldl run_call w calls).
Proof.
  induction calls as [|c calls IH]; intros w Hw Hc; [done|]. apply Forall_cons_1 in Hc as [? ?].
  apply IH; [by apply run_call_wf|done].
Qed.

(** The options never change. *)
Lemma EraseEntry_options w i : options_ (EraseEntry w i) = options_ w.
Proof. unfold EraseEntry. by destruct (entries_ w !! i). Qed.
Lemma purge_from_options n : forall w now i r, options_ (purge_from n w now i r).1 = options_ w.
Proof.
  induction n as [|n IH]; intros w now i r; cbn [purge_from]; [done|].
  destruct (entries_ w !! i); [|done]. destruct (negb _); rewrite IH; [done|].
  apply EraseEntry_options.
Qed.
Lemma evict_loop_options n : forall w, options_ (evict_loop n w) = options_ w.
Proof.
  induction n as [|n IH]; intros w; cbn [evict_loop]; [done|]. destruct (_ || _); [|done].
  rewrite IH. apply EraseEntry_options.
Qed.
Lemma AddSource_options w s h now : options_ (AddSource w s h now).1 = options_ w.
Proof.
  unfold AddSource. destruct (source_index_ w !! s); [done|]. cbn [fst options_ set_entries].
  unfold EvictToLimits. by rewrite evict_loop_options.
Qed.

Lemma run_call_options w c : options_ (run_call w c) = options_ w.
Proof.
  assert (forall now, options_ (PurgeExpired w now).1 = options_ w) as Hp
    by (intros; apply purge_from_options).
  destruct c; cbn [run_call].
  - unfold BeginSession. by destruct (_ && _), preserve.
  - unfold Check. destruct (_ || _); [done|]. destruct (_ =? _); [done|]. cbv zeta.
    destruct (Find _ _) as [[??]|]; [apply Hp|]. destruct (_ <? _); apply Hp.
  - unfold PrepareSource. destruct (_ || _); [done|]. cbv zeta.
    destruct (Find _ _) as [[??]|]; [apply Hp|]. rewrite AddSource_options. apply Hp.
  - unfold CommitAccepted. destruct (_ || _); [done|]. destruct (_ =? _); [done|]. cbv zeta.
    destruct (Find _ _) as [[??]|].
    + destruct (decision _); apply Hp.
    + destruct (_ <? _); [apply Hp|].
      pose proof (AddSource_options (PurgeExpired w now_ns).1 s 0 now_ns) as Ha. rewrite Hp in Ha.
      destruct (AddSource _ _ _ _) as [w2 [u|e]]; cbn [fst] in *; [|done]. by destruct (Find w2 s) as [[??]|].
  - unfold SeedAccepted. destruct (_ || _); [done|]. cbv zeta.
    destruct (Find _ _) as [[??]|]; [apply Hp|]. rewrite AddSource_options. apply Hp.
  - apply Hp.
Qed.

Lemma run_calls_options calls : forall w, options_ (foldl run_call w calls) = options_ w.
Proof.
  induction calls as [|c calls IH]; intros w; [done|]. cbn [foldl]. by rewrite IH, run_call_options.
Qed.

(** ** Properties *)

(** The options as the C++ types bound them. *)
Definition options_typed (o : DedupWindowOptions) : Prop :=
  0 <= max_sources o /\ 0 <= max_bytes o <= u64_max /\ 0 <= max_sequence_distance o.

(** Whatever the calls, the window keeps its invariant: at most
    [max_sources] sources and [max_bytes] logical bytes, [bytes_] exactly the
    charge of the retained sources, the index mapping exactly the retained
    sources to their entries, no source twice, every bitmap of the configured
    size with only in-window sequences recorded. *)
Theorem dedup_window_invariant (options : DedupWindowOptions) (w0 : DedupWindow)
    (calls : list DedupCall) :
  options_typed options -> Create options = Ok w0 -> Forall call_ok calls ->
  let w := foldl run_call w0 calls in
  zlen (entries_ w) <= max_sources options /\
  bytes_ w = source_bytes_ w * zlen (entries_ w) /\ bytes_ w <= max_bytes options /\
  index_ok (entries_ w) (source_index_ w) /\ NoDup (source <$> entries_ w) /\
  Forall (state_ok (bitmap_words_ w) (max_sequence_distance options)) (entries_ w).
Proof.
  intros (H1 & H2 & H3) Hc Hcalls w. destruct (Create_wf _ _ H1 H2 H3 Hc) as (Hw0 & _ & Ho).
  assert (options_ w = options) as How by (unfold w; by rewrite run_calls_options).
  assert (dedup_wf w) as [[Hoo Hi Hs Hb Hm] Hn] by by apply run_calls_wf.
  rewrite How in *. split_and!; try done; [rewrite Hb; lia|].
  apply NoDup_fmap_2_strong.
  - intros x y [i Hx]%list_elem_of_lookup [j Hy]%list_elem_of_lookup E.
    assert (i = j) as -> by by eapply index_unique. congruence.
  - apply NoDup_alt. intros i j x Hx Hy. by eapply index_unique.
Qed.

Definition sample_source : SourceIdentity := mkSource 7 8 9.
Definition sample_options : DedupWindowOptions := mkOptions 1 200 100 1000.
Definition sample_window : DedupWindow :=
  Eval vm_compute in
    match Create sample_options with
    | Ok w => foldl run_call w [CallBeginSession 5 0 false; CallCommitAccepted 5 sample_source 2 10]
    | Err _ => mkWindow sample_options 0 0 false 0 0 [] ∅ 0 zero_stats
    end.

Lemma dedup_window_invariant_witness :
  exists w0, Create sample_options = Ok w0 /\
    zlen (entries_ (foldl run_call w0
      [CallBeginSession 5 0 false; CallCommitAccepted 5 (mkSource 1 1 1) 3 10;
       CallCommitAccepted 5 sample_source 2 11])) <= 1.
Proof.
  eexists. split; [vm_compute; reflexivity|].
  apply (dedup_window_invariant sample_options).
  - unfold options_typed. cbn. lia.
  - vm_compute. reflexivity.
  - repeat (apply List.Forall_cons; [cbn; unfold is_u64; (exact I || lia)|]). apply List.Forall_nil.
Defined.

(** C30: a successful commit adds exactly the committed sequence to the
    source's accepted set (as left by age eviction), keeps the source retained,
    moves the high-water mark past every contiguously accepted sequence when the
    sequence is new, and leaves every other source unchanged or evicted whole. *)
Theorem commit_refines_accepted_set (w : DedupWindow) (epoch : Z) (s : SourceIdentity)
    (sequence now_ns : Z) (w' : DedupWindow) :
  dedup_wf w -> is_u64 sequence ->
  CommitAccepted w epoch s sequence now_ns = (w', Ok tt) ->
  let w1 := (PurgeExpired w now_ns).1 in
  dedup_wf w' /\ others_kept w1 w' s /\ HasSource w' s = true /\
  (forall n, window_accepted w' s n <-> n = sequence \/ window_accepted w1 s n) /\
  exists e, view w' s = Some e /\
    (~ window_accepted w1 s sequence -> ~ accepted e (highest_contiguous_sequence e + 1)).
Proof.
  intros Hw Hseq H. destruct (CommitAccepted_spec _ _ _ _ _ _ Hw Hseq H)
    as (Hw' & _ & Ho & _ & e & Hv & _ & Hacc & _ & Hnext). cbv zeta. split_and!; try done; [| |by exists e].
  - unfold HasSource, view in *. by destruct (Find w' s) as [[??]|].
  - intros n. unfold window_accepted at 1. by rewrite Hv.
Qed.

Lemma sample_window_wf : dedup_wf sample_window.
Proof.
  destruct (Create sample_options) as [w0|] eqn:E; [|by vm_compute in E].
  destruct (Create_wf sample_options w0 ltac:(cbn; lia) ltac:(cbn; lia) ltac:(cbn; lia) E) as [Hw0 _].
  pose proof (run_calls_wf [CallBeginSession 5 0 false; CallCommitAccepted 5 sample_source 2 10] w0 Hw0) as H.
  assert (sample_window = foldl run_call w0 [CallBeginSession 5 0 false; CallCommitAccepted 5 sample_source 2 10])
    as ->.
  { vm_compute in E. injection E as <-. vm_compute. reflexivity. }
  apply H. repeat (apply List.Forall_cons; [cbn; unfold is_u64; (exact I || lia)|]). apply List.Forall_nil.
Qed.

Lemma commit_refines_accepted_set_witness :
  window_accepted (CommitAccepted sample_window 5 sample_source 1 11).1 sample_source 1 /\
  view (CommitAccepted sample_window 5 sample_source 1 11).1 sample_source
  = Some (mkState sample_source 2 11 [0; 0]).
Proof.
  split; [|vm_compute; reflexivity].
  destruct (commit_refines_accepted_set sample_window 5 sample_source 1 11
    (CommitAccepted sample_window 5 sample_source 1 11).1 sample_window_wf ltac:(unfold is_u64; lia)
    ltac:(vm_compute; reflexivity)) as (_ & _ & _ & H & _).
  apply H. by left.
Defined.

(** What [Check] answers in terms of the accepted set after age eviction. *)
Lemma Check_spec (w : DedupWindow) (epoch : Z) (s : SourceIdentity)
    (sequence now_ns : Z) :
  dedup_wf w -> session_active_ w = true -> epoch = peer_session_epoch_ w -> 1 <= sequence ->
  let w1 := (PurgeExpired w now_ns).1 in
  let h := match view w1 s with Some e => highest_contiguous_sequence e | None => 0 end in
  let d := max_sequence_distance (options_ w) in
  exists w' r, Check w epoch s sequence now_ns = (w', Ok r) /\ check_highest r = Some h /\
    (decision r = kAccept <-> ~ window_accepted w1 s sequence /\ sequence - h <= d) /\
    (decision r = kDuplicateAccepted <-> window_accepted w1 s sequence /\ h - sequence < d) /\
    decision r <> kStaleSession /\
    forall t n, window_accepted w' t n <-> window_accepted w1 t n.
Proof.
  intros Hw Ha -> Hseq w1 h d. unfold Check. rewrite Ha, Z.eqb_refl. cbn [negb orb].
  rewrite (proj2 (Z.eqb_neq sequence 0)) by lia. cbv zeta. fold w1.
  pose proof (PurgeExpired_wf w now_ns Hw) as Hw1. fold w1 in Hw1.
  assert (options_ w1 = options_ w) as Hopt by apply purge_from_options.
  pose proof (oo_distance _ (wc_options _ _ (df_core _ Hw1))) as Hdist.
  unfold window_accepted. destruct (view_Find w1 s) as [[Hv Hf]|(i & e & Hf & Hv)].
  - rewrite Hf. subst h d. rewrite Hv, <- Hopt.
    destruct (Z.ltb_spec (max_sequence_distance (options_ w1)) sequence);
      eexists _, _; (split; [reflexivity|]); cbn [decision check_highest];
      split_and!; try done; split; (done || lia || tauto).
  - rewrite Hf. subst h d. rewrite Hv, <- Hopt.
    pose proof (proj1 (Find_spec w1 0 s i e (df_core _ Hw1)) Hf) as [Hi Hse].
    destruct (view_state_ok _ _ _ Hw1 Hv) as [Hok _].
    set (w2 := set_entry w1 i (set_activity e now_ns)).
    destruct (Classify_spec w2 (bitmap_words_ w1) (max_sequence_distance (options_ w1))
      (set_activity e now_ns) sequence (set_activity_ok _ _ _ _ Hok) eq_refl ltac:(lia) Hseq)
      as (C1 & C2 & C3 & C4).
    eexists _, _. split; [reflexivity|]. split_and!; try done.
    intros t n. change (view (set_stats w2 _) t) with (view w2 t).
    destruct (set_entry_spec w1 i e (set_activity e now_ns) Hw1 Hi eq_refl
      (set_activity_ok _ _ _ _ Hok)) as (_ & _ & S3 & S4). fold w2 in S3, S4.
    destruct (decide (t = s)) as [->|Hne].
    + rewrite Hse in S3. by rewrite S3, Hv.
    + rewrite S4; [done|congruence].
Qed.

(** [Check] classifies a sequence of the active session by the accepted
    set alone: accepted within the window is a duplicate, not accepted and at
    most the distance above the mark is to be accepted, everything else is
    refused with the mark; it never changes an accepted set. *)
Theorem check_classifies_by_accepted_set (w : DedupWindow) (epoch : Z) (s : SourceIdentity)
    (sequence now_ns : Z) :
  dedup_wf w -> session_active_ w = true -> epoch = peer_session_epoch_ w -> 1 <= sequence ->
  let w1 := (PurgeExpired w now_ns).1 in
  let h := match view w1 s with Some e => highest_contiguous_sequence e | None => 0 end in
  let d := max_sequence_distance (options_ w) in
  exists w' r, Check w epoch s sequence now_ns = (w', Ok r) /\ check_highest r = Some h /\
    (decision r = kAccept <-> ~ window_accepted w1 s sequence /\ sequence - h <= d) /\
    (decision r = kDuplicateAccepted <-> window_accepted w1 s sequence /\ h - sequence < d) /\
    decision r <> kStaleSession /\
    forall t n, window_accepted w' t n <-> window_accepted w1 t n.
Proof. exact (Check_spec w epoch s sequence now_ns). Qed.

Lemma check_classifies_by_accepted_set_witness :
  exists r, (Check sample_window 5 sample_source 2 11).2 = Ok r /\ decision r = kDuplicateAccepted.
Proof.
  destruct (check_classifies_by_accepted_set sample_window 5 sample_source 2 11 sample_window_wf
    eq_refl eq_refl ltac:(lia)) as (w' & r & H & _ & _ & Hd & _).
  exists r. rewrite H. split; [reflexivity|]. apply Hd.
  split; [right; vm_compute; split; reflexivity|vm_compute; reflexivity].
Defined.

(** A sequence is accepted at most once: after a successful commit, a
    check of the same sequence in the same session reports a duplicate as long as
    the source has not aged out. *)
Theorem committed_sequence_is_duplicate (w : DedupWindow) (epoch : Z) (s : SourceIdentity)
    (sequence now_ns later_ns : Z) (w' : DedupWindow) :
  dedup_wf w -> is_u64 sequence -> 0 <= max_source_age_ns (options_ w) ->
  CommitAccepted w epoch s sequence now_ns = (w', Ok tt) ->
  later_ns <= now_ns + max_source_age_ns (options_ w) ->
  exists w'' r, Check w' epoch s sequence later_ns = (w'', Ok r) /\ decision r = kDuplicateAccepted.
Proof.
  intros Hw Hseq Hage H Hlater.
  assert (session_active_ w = true /\ epoch = peer_session_epoch_ w) as [Hact Hep].
  { unfold CommitAccepted in H. destruct (_ || _) eqn:E; [done|]. apply orb_false_iff in E as [E1 E2].
    by bool_to_prop. }
  destruct (CommitAccepted_spec _ _ _ _ _ _ Hw Hseq H)
    as (Hw' & (Ho & _ & _ & Hs1 & Hs2) & _ & H1 & e & Hv & Hla & Hacc & Hd & _).
  destruct (Check_spec w' epoch s sequence later_ns Hw' ltac:(congruence)
    ltac:(congruence) H1) as (w'' & r & Hc & _ & _ & Hdup & _).
  exists w'', r. split; [done|]. apply Hdup. unfold window_accepted.
  assert (view (PurgeExpired w' later_ns).1 s = Some e) as ->.
  { destruct (PurgeExpired_spec w' later_ns (df_core _ Hw')) as (Hc2 & _ & He2).
    apply (view_spec _ 0) in Hv as [Hin Hse]; [|apply Hw'].
    apply (view_spec _ 0); [done|]. split; [|done]. rewrite He2. apply list_elem_of_filter.
    split; [|done]. unfold fresh, IsExpired. rewrite Hla, Ho. apply andb_false_iff. right.
    apply Z.ltb_ge. lia. }
  split; [apply Hacc; by left|]. by rewrite Ho.
Qed.

Lemma committed_sequence_is_duplicate_witness :
  exists w'' r, Check (CommitAccepted sample_window 5 sample_source 1 11).1 5 sample_source 1 500
                = (w'', Ok r) /\ decision r = kDuplicateAccepted.
Proof.
  apply (committed_sequence_is_duplicate sample_window 5 sample_source 1 11 500);
    [apply sample_window_wf | unfold is_u64; lia | vm_compute; discriminate
    | vm_compute; reflexivity | vm_compute; discriminate].
Defined.
