(* ===== verification/RetransmitWindow.v ===== *)
(** * The sender's retransmission window

    Models [mino/bridge/retransmit_window.h] and [.cc]: the vector of retained
    frames with its two indexes (by source and sequence, and by source in
    sequence order), the swap-with-last removal that keeps both in step, session
    switches, acknowledgements, expiry, and the rollback of [Add] when a
    container throws.  A [std::map] is a [gmap] whose [begin()] is the entry of
    the least key.

    The abstract specification is the finite map [Find] from (source, sequence)
    to the retained entry. *)
From S2P Require Import Prelude SourceIdentity Bytes ControlPayload.

Record RetransmitWindowOptions : Set := mkRetransmitOptions {
  max_entries : Z; max_bytes : Z; max_age_ns : Z
}.
Definition default_retransmit_options : RetransmitWindowOptions :=
  mkRetransmitOptions 4096 (64 * 1024 * 1024) (30 * 1000 * 1000 * 1000).

Record RetransmitEntry : Set := mkEntry {
  entry_source : SourceIdentity; sequence : Z; enqueued_ns : Z; frame : list byte
}.

Record RetransmitAckResult : Set := mkAckResult { removed_entries : Z; removed_bytes : Z }.

Record RetransmitWindowStats : Set := mkRetransmitStats {
  accepted_acks : Z; nack_acks : Z; stale_acks : Z; expired_entries : Z;
  session_switches : Z; session_discarded_entries : Z
}.
Definition zero_retransmit_stats : RetransmitWindowStats := mkRetransmitStats 0 0 0 0 0 0.

Record EntryKey : Set := mkEntryKey { key_source : SourceIdentity; key_sequence : Z }.
#[export] Instance EntryKey_eq_dec : EqDecision EntryKey.
Proof. solve_decision. Defined.
#[export] Instance EntryKey_countable : Countable EntryKey.
Proof.
  refine (inj_countable' (fun k => (key_source k, key_sequence k)) (fun '(s, n) => mkEntryKey s n) _).
  by intros [].
Defined.

(** [EntryKeyHash] *)
Definition entry_key_hash (k : EntryKey) : Z :=
  let value := SourceIdentityHash (key_source k) in
  Z.lxor value (wrap64 (key_sequence k + 0x9e3779b97f4a7c15 + shl64 value 6 + Z.shiftr value 2)).

Record RetransmitWindow : Set := mkRetransmit {
  options_ : RetransmitWindowOptions;
  session_active_ : bool;
  local_session_epoch_ : Z;
  remote_session_epoch_ : Z;
  session_started_ns_ : Z;
  entries_ : list RetransmitEntry;
  entry_index_ : gmap EntryKey nat;
  source_index_ : gmap SourceIdentity (gmap Z nat);
  bytes_ : Z;
  stats_ : RetransmitWindowStats
}.

(** Field updates. *)
Definition with_entries (w : RetransmitWindow) (es : list RetransmitEntry) (ei : gmap EntryKey nat)
    (si : gmap SourceIdentity (gmap Z nat)) (b : Z) : RetransmitWindow :=
  mkRetransmit (options_ w) (session_active_ w) (local_session_epoch_ w) (remote_session_epoch_ w)
    (session_started_ns_ w) es ei si b (stats_ w).
Definition with_stats (w : RetransmitWindow) (s : RetransmitWindowStats) : RetransmitWindow :=
  mkRetransmit (options_ w) (session_active_ w) (local_session_epoch_ w) (remote_session_epoch_ w)
    (session_started_ns_ w) (entries_ w) (entry_index_ w) (source_index_ w) (bytes_ w) s.

Definition next_count (z : Z) : Z := wrap64 (z + 1).
Definition count_accepted_ack (s : RetransmitWindowStats) : RetransmitWindowStats :=
  mkRetransmitStats (next_count (accepted_acks s)) (nack_acks s) (stale_acks s) (expired_entries s)
    (session_switches s) (session_discarded_entries s).
Definition count_nack_ack (s : RetransmitWindowStats) : RetransmitWindowStats :=
  mkRetransmitStats (accepted_acks s) (next_count (nack_acks s)) (stale_acks s) (expired_entries s)
    (session_switches s) (session_discarded_entries s).
Definition count_stale_ack (s : RetransmitWindowStats) : RetransmitWindowStats :=
  mkRetransmitStats (accepted_acks s) (nack_acks s) (next_count (stale_acks s)) (expired_entries s)
    (session_switches s) (session_discarded_entries s).
Definition count_expired (s : RetransmitWindowStats) : RetransmitWindowStats :=
  mkRetransmitStats (accepted_acks s) (nack_acks s) (stale_acks s) (next_count (expired_entries s))
    (session_switches s) (session_discarded_entries s).
Definition count_session_switch (s : RetransmitWindowStats) : RetransmitWindowStats :=
  mkRetransmitStats (accepted_acks s) (nack_acks s) (stale_acks s) (expired_entries s)
    (next_count (session_switches s)) (session_discarded_entries s).

(** ** Operations *)

Definition IsExpired (now_ns then_ns max_age : Z) : bool :=
  (then_ns <=? now_ns) && (max_age <? now_ns - then_ns).

Definition Create (options : RetransmitWindowOptions) : Result RetransmitWindow :=
  fail_if (max_entries options =? 0) || (max_bytes options =? 0) || (max_age_ns options =? 0)
    with Invalid "retransmit limits must be nonzero" ;;
  Ok (mkRetransmit options false 0 0 0 [] ∅ ∅ 0 zero_retransmit_stats).

Definition BeginSession (w : RetransmitWindow) (local_epoch remote_epoch now_ns : Z)
  : RetransmitWindow * Z :=
  if session_active_ w && (local_session_epoch_ w =? local_epoch)
     && (remote_session_epoch_ w =? remote_epoch)
  then (w, 0)
  else
    let stats := if session_active_ w then count_session_switch (stats_ w) else stats_ w in
    (mkRetransmit (options_ w) true local_epoch remote_epoch now_ns (entries_ w) (entry_index_ w)
       (source_index_ w) (bytes_ w) stats, 0).

(** Where an allocation of [Add] can throw: copying the frame, the source
    bucket, the sequence node, the key node, or the vector. *)
Inductive AddFault : Set :=
| NoFault | FrameFault | SourceFault | SequenceFault | KeyFault | EntriesFault.
#[export] Instance AddFault_eq_dec : EqDecision AddFault.
Proof. solve_decision. Defined.

(** [source_position->second.erase(sequence)] *)
Definition erase_sequence (si : gmap SourceIdentity (gmap Z nat)) (s : SourceIdentity) (n : Z)
  : gmap SourceIdentity (gmap Z nat) := alter (delete n) s si.
(** [if (created && second.empty()) source_index_.erase(source_position)] *)
Definition drop_created (created : bool) (si : gmap SourceIdentity (gmap Z nat)) (s : SourceIdentity)
  : gmap SourceIdentity (gmap Z nat) :=
  if created && bool_decide (si !! s = Some ∅) then delete s si else si.

Definition already_exists : Status := mkStatus kAlreadyExists "retransmit entry already exists".
Definition no_memory : Status := mkStatus kResourceExhausted "".

(** The insertions of [Add] after its guards, with the rollbacks of its
    handlers. *)
Definition insert_entry (w : RetransmitWindow) (s : SourceIdentity) (n : Z) (encoded_frame : list byte)
    (now_ns : Z) (fault : AddFault) : RetransmitWindow * Result unit :=
  let entry := mkEntry s n now_ns encoded_frame in
  let key := mkEntryKey s n in
  let position := length (entries_ w) in
  let failed si ei := (with_entries w (entries_ w) ei si (bytes_ w), Err no_memory) in
  if bool_decide (fault = FrameFault) then (w, Err no_memory)
  else if bool_decide (fault = SourceFault) then (w, Err no_memory)
  else
    let created := bool_decide (source_index_ w !! s = None) in
    let si := if created then <[s := ∅]> (source_index_ w) else source_index_ w in
    if bool_decide (fault = SequenceFault) then failed (drop_created created si s) (entry_index_ w)
    else
      match (default ∅ (si !! s)) !! n with
      | Some _ =>
          (with_entries w (entries_ w) (entry_index_ w) (if created then delete s si else si) (bytes_ w),
           Err already_exists)
      | None =>
          let si := <[s := <[n := position]> (default ∅ (si !! s))]> si in
          if bool_decide (fault = KeyFault)
          then failed (drop_created created (erase_sequence si s n) s) (entry_index_ w)
          else
            match entry_index_ w !! key with
            | Some _ =>
                let si := erase_sequence si s n in
                (with_entries w (entries_ w) (entry_index_ w) (if created then delete s si else si)
                   (bytes_ w), Err already_exists)
            | None =>
                let ei := <[key := position]> (entry_index_ w) in
                if bool_decide (fault = EntriesFault)
                then failed (drop_created created (erase_sequence si s n) s) (delete key ei)
                else (with_entries w (entries_ w ++ [entry]) ei si
                        (wrap64 (bytes_ w + zlen encoded_frame)), Ok tt)
            end
      end.

Definition Add (w : RetransmitWindow) (s : SourceIdentity) (n : Z) (encoded_frame : list byte)
    (now_ns : Z) (fault : AddFault) : RetransmitWindow * Result unit :=
  if negb (session_active_ w) then (w, Err (Invalid "retransmit session is not active"))
  else if n =? 0 then (w, Err (Invalid "sequence zero is not reliable data"))
  else if zlen encoded_frame =? 0 then (w, Err (Invalid "encoded frame is empty"))
  else if max_bytes (options_ w) <? zlen encoded_frame
  then (w, Err (Resource "encoded frame exceeds retransmit byte limit"))
  else if bool_decide (is_Some (entry_index_ w !! mkEntryKey s n)) then (w, Err already_exists)
  else if max_entries (options_ w) <=? zlen (entries_ w)
  then (w, Err (Resource "retransmit entry limit reached"))
  else if max_bytes (options_ w) - zlen encoded_frame <? bytes_ w
  then (w, Err (Resource "retransmit byte limit reached"))
  else insert_entry w s n encoded_frame now_ns fault.

Definition key_of (e : RetransmitEntry) : EntryKey := mkEntryKey (entry_source e) (sequence e).

(** Removing a sequence from a source's map, and the source with its last one. *)
Definition unindex (si : gmap SourceIdentity (gmap Z nat)) (k : EntryKey)
  : gmap SourceIdentity (gmap Z nat) :=
  match si !! key_source k with
  | None => si
  | Some m =>
      let m := delete (key_sequence k) m in
      if bool_decide (m = ∅) then delete (key_source k) si else <[key_source k := m]> si
  end.

(** The moved entry's position, where it is indexed. *)
Definition reindex_key (ei : gmap EntryKey nat) (k : EntryKey) (index : nat) : gmap EntryKey nat :=
  match ei !! k with None => ei | Some _ => <[k := index]> ei end.
Definition reindex_source (si : gmap SourceIdentity (gmap Z nat)) (k : EntryKey) (index : nat)
  : gmap SourceIdentity (gmap Z nat) :=
  match si !! key_source k with
  | None => si
  | Some m =>
      match m !! key_sequence k with
      | None => si
      | Some _ => <[key_source k := <[key_sequence k := index]> m]> si
      end
  end.

(** [RemoveAt]; the index is in range at every call ([RemoveAt_spec]). *)
Definition RemoveAt (w : RetransmitWindow) (index : nat) (result : RetransmitAckResult)
  : RetransmitWindow * RetransmitAckResult :=
  match entries_ w !! index with
  | None => (w, result)
  | Some e =>
      let removed := zlen (frame e) in
      let bytes := wrap64 (bytes_ w - removed) in
      let result := mkAckResult (next_count (removed_entries result))
                      (wrap64 (removed_bytes result + removed)) in
      let ei := delete (key_of e) (entry_index_ w) in
      let si := unindex (source_index_ w) (key_of e) in
      let last := Nat.pred (length (entries_ w)) in
      let '(es, ei, si) :=
        match entries_ w !! last with
        | Some moved =>
            if bool_decide (index <> last)
            then (<[index := moved]> (entries_ w), reindex_key ei (key_of moved) index,
                  reindex_source si (key_of moved) index)
            else (entries_ w, ei, si)
        | None => (entries_ w, ei, si)
        end in
      (with_entries w (take last es) ei si bytes, result)
  end.

(** [begin()] of a [std::map]. *)
Definition map_begin (m : gmap Z nat) : option (Z * nat) :=
  map_fold (fun k v acc => match acc with
                           | Some (k', _) => if k <? k' then Some (k, v) else acc
                           | None => Some (k, v)
                           end) None m.

(** The [while (true)] of [ApplyAck]; [fuel] bounds the iterations, each of
    which removes an entry. *)
Fixpoint trim_prefix (fuel : nat) (w : RetransmitWindow) (s : SourceIdentity) (highest : Z)
    (result : RetransmitAckResult) : RetransmitWindow * RetransmitAckResult :=
  match fuel with
  | O => (w, result)
  | S fuel' =>
      match source_index_ w !! s ≫= map_begin with
      | Some (first, position) =>
          if highest <? first then (w, result)
          else let '(w, result) := RemoveAt w position result in
               trim_prefix fuel' w s highest result
      | None => (w, result)
      end
  end.

(** The two removals of [ApplyAck]: the cumulative prefix, then the observed
    frame of an accepted acknowledgement. *)
Definition trim_ack (w : RetransmitWindow) (ack : AckPayload) : RetransmitWindow * RetransmitAckResult :=
  match highest_contiguous_sequence ack with
  | Some h => trim_prefix (S (length (entries_ w))) w (source ack) h (mkAckResult 0 0)
  | None => (w, mkAckResult 0 0)
  end.
Definition remove_observed (w : RetransmitWindow) (ack : AckPayload) (r : RetransmitAckResult)
  : RetransmitWindow * RetransmitAckResult :=
  if bool_decide (disposition ack = kAccepted)
     && (default 0 (highest_contiguous_sequence ack) <? observed_sequence ack)
  then match entry_index_ w !! mkEntryKey (source ack) (observed_sequence ack) with
       | Some position => RemoveAt w position r
       | None => (w, r)
       end
  else (w, r).

Definition ApplyAck (w : RetransmitWindow) (ack : AckPayload)
  : RetransmitWindow * Result RetransmitAckResult :=
  if negb (session_active_ w)
     || negb (receiver_session_epoch ack =? local_session_epoch_ w)
     || negb (sender_session_epoch ack =? remote_session_epoch_ w)
  then (with_stats w (count_stale_ack (stats_ w)), Err (mkStatus kUnavailable ""))
  else if negb (bool_decide (disposition ack = kAccepted))
          && negb (bool_decide (disposition ack = kNackWithHighest))
  then (w, Err (Invalid "ACK disposition is unknown"))
  else if bool_decide (disposition ack = kNackWithHighest)
          && bool_decide (highest_contiguous_sequence ack = None)
  then (w, Err (Invalid "NACK_WITH_HIGHEST requires highest sequence"))
  else
    let '(w, result) := trim_ack w ack in
    let '(w, result) := remove_observed w ack result in
    let stats := if bool_decide (disposition ack = kAccepted)
                 then count_accepted_ack (stats_ w) else count_nack_ack (stats_ w) in
    (with_stats w stats, Ok result).

(** The loop of [PurgeExpired] at position [i]. *)
Fixpoint purge_entries (n : nat) (w : RetransmitWindow) (now_ns : Z) (i : nat) (removed : Z)
  : RetransmitWindow * Z :=
  match n, entries_ w !! i with
  | S n', Some e =>
      if negb (IsExpired now_ns (enqueued_ns e) (max_age_ns (options_ w)))
      then purge_entries n' w now_ns (S i) removed
      else let '(w, _) := RemoveAt w i (mkAckResult 0 0) in
           purge_entries n' (with_stats w (count_expired (stats_ w))) now_ns i (next_count removed)
  | _, _ => (w, removed)
  end.
Definition PurgeExpired (w : RetransmitWindow) (now_ns : Z) : RetransmitWindow * Z :=
  purge_entries (length (entries_ w)) w now_ns 0 0.

Definition Find (w : RetransmitWindow) (s : SourceIdentity) (n : Z) : option RetransmitEntry :=
  entry_index_ w !! mkEntryKey s n ≫= fun i => entries_ w !! i.

(** ** The invariant *)

(** The lookup through both levels of [source_index_]. *)
Definition indexed (si : gmap SourceIdentity (gmap Z nat)) (k : EntryKey) : option nat :=
  si !! key_source k ≫= (.!! key_sequence k).

Definition frames_size (l : list RetransmitEntry) : Z :=
  foldr (fun e z => zlen (frame e) + z) 0 l.

Definition index_exact (es : list RetransmitEntry) (ei : gmap EntryKey nat) : Prop :=
  forall k i, ei !! k = Some i <-> exists e, es !! i = Some e /\ key_of e = k.

Record indexes_ok (es : list RetransmitEntry) (ei : gmap EntryKey nat)
    (si : gmap SourceIdentity (gmap Z nat)) : Prop := {
  ix_key : index_exact es ei;
  ix_source : forall k, indexed si k = ei !! k;
  ix_nonempty : forall s, si !! s <> Some ∅
}.

Definition entry_ok (e : RetransmitEntry) : Prop := 1 <= sequence e /\ 1 <= zlen (frame e).

Record retransmit_wf (w : RetransmitWindow) : Prop := {
  rw_options : 0 <= max_entries (options_ w) <= u64_max /\ 0 <= max_bytes (options_ w) <= u64_max;
  rw_indexes : indexes_ok (entries_ w) (entry_index_ w) (source_index_ w);
  rw_bytes : bytes_ w = frames_size (entries_ w);
  rw_max_bytes : bytes_ w <= max_bytes (options_ w);
  rw_count : zlen (entries_ w) <= max_entries (options_ w);
  rw_entries : Forall entry_ok (entries_ w)
}.

Lemma frames_size_perm l l' : l ≡ₚ l' -> frames_size l = frames_size l'.
Proof. induction 1; cbn [frames_size foldr]; fold frames_size; unfold frames_size in *; lia. Qed.
Lemma frames_size_nonneg l : 0 <= frames_size l.
Proof. induction l as [|e l IH]; cbn; [lia|]. unfold frames_size in IH. ulia. Qed.
Lemma frames_size_cons e l : frames_size (e :: l) = zlen (frame e) + frames_size l.
Proof. reflexivity. Qed.
Lemma frames_size_app l l' : frames_size (l ++ l') = frames_size l + frames_size l'.
Proof. induction l as [|e l IH]; [done|]. cbn [app]. rewrite !frames_size_cons. lia. Qed.

(** Keys are unique. *)
Lemma index_exact_inj es ei i j e f :
  index_exact es ei -> es !! i = Some e -> es !! j = Some f -> key_of e = key_of f -> i = j.
Proof.
  intros H Hi Hj E. assert (ei !! key_of e = Some i) as H1 by (apply H; eauto).
  assert (ei !! key_of e = Some j) as H2 by (apply H; eauto). congruence.
Qed.

(** *** The index updates *)

Lemma indexed_unindex si k k' :
  indexed (unindex si k) k' = if decide (k' = k) then None else indexed si k'.
Proof.
  destruct k as [s n], k' as [s' n']. unfold indexed, unindex. cbn [key_source key_sequence].
  destruct (si !! s) as [m|] eqn:E.
  - case_bool_decide as Hm.
    + destruct (decide (s' = s)) as [->|].
      * rewrite lookup_delete_eq, E. cbn. destruct (decide _) as [|Hne]; [done|].
        destruct (decide (n' = n)) as [->|]; [by destruct Hne|].
        assert (delete n m !! n' = None) as Hn by (by rewrite Hm). by rewrite lookup_delete_ne in Hn by done.
      * rewrite lookup_delete_ne by done. by rewrite decide_False by congruence.
    + destruct (decide (s' = s)) as [->|].
      * rewrite lookup_insert_eq, E. cbn. destruct (decide (n' = n)) as [->|].
        -- by rewrite lookup_delete_eq, decide_True.
        -- rewrite lookup_delete_ne by done. by rewrite decide_False by congruence.
      * rewrite lookup_insert_ne by done. by rewrite decide_False by congruence.
  - destruct (decide _) as [[= -> ->]|]; [by rewrite E|done].
Qed.

Lemma unindex_nonempty si k : (forall s, si !! s <> Some ∅) -> forall s, unindex si k !! s <> Some ∅.
Proof.
  intros H s. unfold unindex. destruct (si !! key_source k) as [m|] eqn:E; [|done].
  case_bool_decide as Hm; destruct (decide (s = key_source k)) as [->|].
  - by rewrite lookup_delete_eq.
  - by rewrite lookup_delete_ne.
  - rewrite lookup_insert_eq. congruence.
  - by rewrite lookup_insert_ne.
Qed.

Lemma lookup_reindex_key ei k i k' :
  reindex_key ei k i !! k' = if decide (k' = k) then (fun _ => i) <$> ei !! k else ei !! k'.
Proof.
  unfold reindex_key. destruct (ei !! k) eqn:E; destruct (decide (k' = k)) as [->|]; cbn;
    rewrite ?lookup_insert_eq, ?lookup_insert_ne by done; done.
Qed.

Lemma indexed_reindex si k i k' :
  indexed (reindex_source si k i) k' =
  if decide (k' = k) then (fun _ => i) <$> indexed si k else indexed si k'.
Proof.
  destruct k as [s n], k' as [s' n']. unfold indexed, reindex_source. cbn [key_source key_sequence].
  destruct (si !! s) as [m|] eqn:E; cbn.
  - destruct (m !! n) as [x|] eqn:En; cbn.
    + destruct (decide (s' = s)) as [->|].
      * rewrite lookup_insert_eq. cbn. destruct (decide (n' = n)) as [->|].
        -- by rewrite lookup_insert_eq, decide_True.
        -- rewrite lookup_insert_ne by done. rewrite decide_False by congruence. by rewrite E.
      * rewrite lookup_insert_ne by done. by rewrite decide_False by congruence.
    + destruct (decide _) as [[= -> ->]|]; [by rewrite E|done].
  - destruct (decide _) as [[= -> ->]|]; [by rewrite E|done].
Qed.

Lemma reindex_nonempty si k i :
  (forall s, si !! s <> Some ∅) -> forall s, reindex_source si k i !! s <> Some ∅.
Proof.
  intros H s. unfold reindex_source. destruct (si !! key_source k) as [m|] eqn:E; [|done].
  destruct (m !! key_sequence k); [|done]. destruct (decide (s = key_source k)) as [->|].
  - rewrite lookup_insert_eq. intros [= Hm]. by apply insert_non_empty in Hm.
  - by rewrite lookup_insert_ne.
Qed.

(** *** Swap-with-last removal *)

Lemma lookup_shrunk {A} (l : list A) n j x : take n l !! j = Some x <-> (j < n)%nat /\ l !! j = Some x.
Proof. rewrite lookup_take_Some. tauto. Qed.

Lemma remove_last_exact es ei e :
  index_exact es ei -> es !! Nat.pred (length es) = Some e ->
  index_exact (take (Nat.pred (length es)) es) (delete (key_of e) ei).
Proof.
  intros H He k j. rewrite lookup_delete_Some, (H k j : _ <-> _). split.
  - intros [Hne (f & Hf & Hk)]. exists f. split; [|done]. apply lookup_shrunk. split; [|done].
    pose proof (lookup_lt_Some _ _ _ Hf).
    destruct (decide (j = Nat.pred (length es))) as [->|]; [congruence|lia].
  - intros (f & Hf & Hk). apply lookup_shrunk in Hf as [Hlt Hf]. split; [|by eauto].
    intros E. assert (Nat.pred (length es) = j); [|lia].
    eapply index_exact_inj; [exact H|exact He|exact Hf|congruence].
Qed.

Lemma swap_remove_exact es ei i e moved :
  index_exact es ei -> es !! i = Some e -> es !! Nat.pred (length es) = Some moved ->
  i <> Nat.pred (length es) ->
  index_exact (take (Nat.pred (length es)) (<[i := moved]> es))
    (reindex_key (delete (key_of e) ei) (key_of moved) i).
Proof.
  intros H He Hm Hi. pose proof (lookup_lt_Some _ _ _ He) as Hlen.
  assert (key_of moved <> key_of e) as Hne.
  { intros E. apply Hi. by eapply (index_exact_inj es ei). }
  assert (ei !! key_of moved = Some (Nat.pred (length es))) as Hidx by (apply H; eauto).
  intros k j. rewrite lookup_reindex_key, (lookup_delete_ne ei) by done. rewrite Hidx. cbn [fmap option_fmap option_map].
  destruct (decide (k = key_of moved)) as [->|Hk].
  - split.
    + intros [= <-]. exists moved. split; [|done]. apply lookup_shrunk. split; [lia|].
      by apply list_lookup_insert_eq.
    + intros (f & Hf & Hkf). apply lookup_shrunk in Hf as [Hlt Hf]. f_equal.
      destruct (decide (i = j)) as [->|Hij]; [done|].
      rewrite list_lookup_insert_ne in Hf by done.
      assert (j = Nat.pred (length es)); [|lia]. by eapply (index_exact_inj es ei).
  - rewrite lookup_delete_Some, (H k j : _ <-> _). split.
    + intros [Hke (f & Hf & Hkf)]. exists f. split; [|done]. apply lookup_shrunk.
      assert (j <> i) by (intros ->; congruence).
      assert (j <> Nat.pred (length es)) by (intros ->; congruence).
      pose proof (lookup_lt_Some _ _ _ Hf). split; [lia|]. by rewrite list_lookup_insert_ne.
    + intros (f & Hf & Hkf). apply lookup_shrunk in Hf as [Hlt Hf].
      destruct (decide (i = j)) as [->|Hij].
      { rewrite list_lookup_insert_eq in Hf by done. congruence. }
      rewrite list_lookup_insert_ne in Hf by done. split; [|by eauto].
      intros E. apply Hij. eapply (index_exact_inj es ei); [done|exact He|exact Hf|congruence].
Qed.

Lemma remove_last_perm {A} (es : list A) e :
  es !! Nat.pred (length es) = Some e -> es ≡ₚ e :: take (Nat.pred (length es)) es.
Proof.
  intros He. rewrite <- (take_drop (Nat.pred (length es)) es) at 1.
  rewrite (drop_S es e _ He), drop_ge by lia. by rewrite Permutation_app_comm.
Qed.

Lemma swap_remove_perm {A} (es : list A) i e moved :
  es !! i = Some e -> es !! Nat.pred (length es) = Some moved -> i <> Nat.pred (length es) ->
  es ≡ₚ e :: take (Nat.pred (length es)) (<[i := moved]> es).
Proof.
  intros He Hm Hi. pose proof (lookup_lt_Some _ _ _ He).
  set (last := Nat.pred (length es)) in *.
  assert (es = take last es ++ [moved]) as Hes.
  { rewrite <- (take_drop last es) at 1. rewrite (drop_S es moved last Hm), drop_ge by (subst last; lia). done. }
  rewrite take_insert_lt by lia.
  assert (take last es !! i = Some e) as He' by (apply lookup_shrunk; split; [lia|done]).
  rewrite Hes at 1. rewrite (insert_take_drop (take last es) i moved) by (rewrite length_take; lia).
  rewrite <- (take_drop_middle (take last es) i e He') at 1.
  generalize (take i (take last es)) as a, (drop (S i) (take last es)) as b. intros a b.
  rewrite <- app_assoc. cbn [app]. rewrite <- (Permutation_middle a (b ++ [moved]) e).
  by rewrite (Permutation_cons_append b moved).
Qed.

(** What removal and expiry never touch. *)
Definition same_session (w w' : RetransmitWindow) : Prop :=
  options_ w' = options_ w /\ session_active_ w' = session_active_ w /\
  local_session_epoch_ w' = local_session_epoch_ w /\
  remote_session_epoch_ w' = remote_session_epoch_ w.
#[export] Instance same_session_refl : Reflexive same_session.
Proof. done. Qed.
#[export] Instance same_session_trans : Transitive same_session.
Proof. intros x y z (?&?&?&?) (?&?&?&?). repeat split; congruence. Qed.

Lemma remove_indexes es ei si i e moved :
  indexes_ok es ei si -> es !! i = Some e -> es !! Nat.pred (length es) = Some moved ->
  let ei' := delete (key_of e) ei in
  let si' := unindex si (key_of e) in
  if decide (i <> Nat.pred (length es))
  then indexes_ok (take (Nat.pred (length es)) (<[i := moved]> es))
         (reindex_key ei' (key_of moved) i) (reindex_source si' (key_of moved) i)
  else indexes_ok (take (Nat.pred (length es)) es) ei' si'.
Proof.
  intros [Hk Hs Hn] He Hm. cbv zeta.
  assert (forall k, indexed (unindex si (key_of e)) k = delete (key_of e) ei !! k) as Hsd.
  { intros k. rewrite indexed_unindex. destruct (decide (k = key_of e)) as [->|].
    - by rewrite lookup_delete_eq.
    - by rewrite lookup_delete_ne, Hs. }
  destruct (decide _) as [Hi|Hi]; split.
  - by apply swap_remove_exact.
  - intros k. by rewrite indexed_reindex, lookup_reindex_key, !Hsd.
  - by apply reindex_nonempty, unindex_nonempty.
  - assert (i = Nat.pred (length es)) as -> by (destruct (decide (i = Nat.pred (length es))); tauto).
    by apply remove_last_exact.
  - done.
  - by apply unindex_nonempty.
Qed.

Lemma RemoveAt_spec w i e r :
  retransmit_wf w -> entries_ w !! i = Some e ->
  let w' := (RemoveAt w i r).1 in
  retransmit_wf w' /\ same_session w w' /\ stats_ w' = stats_ w /\
  entries_ w ≡ₚ e :: entries_ w' /\ take i (entries_ w') = take i (entries_ w) /\
  (RemoveAt w i r).2 = mkAckResult (next_count (removed_entries r))
                         (wrap64 (removed_bytes r + zlen (frame e))).
Proof.
  intros [Ho Hx Hb Hmb Hc He] Hi. cbv zeta. unfold RemoveAt. rewrite Hi.
  pose proof (lookup_lt_Some _ _ _ Hi) as Hlt.
  destruct (lookup_lt_is_Some_2 (entries_ w) (Nat.pred (length (entries_ w))) ltac:(lia)) as [moved Hm].
  pose proof (remove_indexes _ _ _ _ _ _ Hx Hi Hm) as Hx'. cbv zeta in Hx'. rewrite Hm.
  set (es' := take (Nat.pred (length (entries_ w)))
                (if decide (i <> Nat.pred (length (entries_ w))) then <[i := moved]> (entries_ w)
                 else entries_ w)).
  assert (entries_ w ≡ₚ e :: es' /\ take i es' = take i (entries_ w)) as [Hp Ht].
  { subst es'. destruct (decide _) as [Hne|Heq]; split.
    - by apply swap_remove_perm.
    - rewrite take_take, Nat.min_l by lia. by apply take_insert_ge.
    - assert (i = Nat.pred (length (entries_ w))) as Heq' by lia.
      apply remove_last_perm. by rewrite <- Heq'.
    - rewrite take_take. f_equal. lia. }
  assert (wrap64 (bytes_ w - zlen (frame e)) = frames_size es') as Hb'.
  { rewrite Hb, (frames_size_perm _ _ Hp), frames_size_cons.
    rewrite Hb, (frames_size_perm _ _ Hp), frames_size_cons in Hmb.
    pose proof (frames_size_nonneg es'). unfold wrap64. rewrite Z.mod_small; ulia. }
  assert (Forall entry_ok (e :: es')) as He' by by rewrite <- Hp.
  assert (length (entries_ w) = S (length es')) as Hl by by rewrite Hp.
  assert (frames_size es' <= bytes_ w) as Hle.
  { rewrite Hb, (frames_size_perm _ _ Hp), frames_size_cons. ulia. }
  unfold es' in *.
  destruct (decide (i <> Nat.pred (length (entries_ w)))) as [Hne|Heq].
  - rewrite bool_decide_true by done. cbn [fst snd].
    split_and!; try done. split; cbn [options_ entries_ entry_index_ source_index_ bytes_ with_entries];
      [done|done|done|lia|ulia|by apply Forall_cons_1 in He' as [_ ?]].
  - rewrite bool_decide_false by tauto. cbn [fst snd].
    split_and!; try done. split; cbn [options_ entries_ entry_index_ source_index_ bytes_ with_entries];
      [done|done|done|lia|ulia|by apply Forall_cons_1 in He' as [_ ?]].
Qed.

(** *** Lookup *)

Lemma find_entry_spec w s n e :
  retransmit_wf w -> Find w s n = Some e <-> e ∈ entries_ w /\ key_of e = mkEntryKey s n.
Proof.
  intros Hw. pose proof (ix_key _ _ _ (rw_indexes _ Hw)) as Hk. unfold Find. split.
  - intros (i & Hi & He)%bind_Some. apply Hk in Hi as (f & Hf & Hkf).
    assert (f = e) as -> by congruence. split; [by eapply list_elem_of_lookup_2|done].
  - intros [[i Hi]%list_elem_of_lookup Hke].
    assert (entry_index_ w !! mkEntryKey s n = Some i) as -> by (apply Hk; eauto). done.
Qed.

Lemma indexed_in w e :
  retransmit_wf w -> e ∈ entries_ w -> is_Some (indexed (source_index_ w) (key_of e)).
Proof.
  intros Hw [i Hi]%list_elem_of_lookup. destruct (rw_indexes _ Hw) as [Hk Hs _].
  rewrite Hs. exists i. apply Hk. eauto.
Qed.

(** Dropping entries with [P] and keeping the others filters the map. *)
Lemma Find_removed (P : RetransmitEntry -> bool) w w' gone s n :
  retransmit_wf w -> retransmit_wf w' -> entries_ w ≡ₚ gone ++ entries_ w' ->
  Forall (fun e => P e = true) gone -> Forall (fun e => P e = false) (entries_ w') ->
  Find w' s n = match Find w s n with Some e => if P e then None else Some e | None => None end.
Proof.
  intros Hw Hw' Hp Hg Hk. rewrite Forall_elem in Hg, Hk.
  assert (forall e, e ∈ entries_ w <-> e ∈ gone \/ e ∈ entries_ w') as Hin
    by (intros e; by rewrite Hp, elem_of_app).
  destruct (Find w s n) as [e|] eqn:E.
  - apply find_entry_spec in E as [He Hke]; [|done]. destruct (P e) eqn:HP.
    + destruct (Find w' s n) as [f|] eqn:F; [|done]. exfalso.
      pose proof F as [Hf Hkf]%find_entry_spec; [|done].
      assert (Find w s n = Some f) as H1 by (apply find_entry_spec; [done|]; split; [apply Hin; by right|done]).
      assert (Find w s n = Some e) as H2 by (by apply find_entry_spec).
      specialize (Hk f Hf). congruence.
    + apply find_entry_spec; [done|]. split; [|done]. apply Hin in He as [Hg'|]; [|done].
      specialize (Hg e Hg'). congruence.
  - destruct (Find w' s n) as [f|] eqn:F; [|done]. apply find_entry_spec in F as [Hf Hkf]; [|done].
    assert (Find w s n = Some f); [|congruence].
    apply find_entry_spec; [done|]. split; [apply Hin; by right|done].
Qed.

(** *** Ordered access *)

Lemma map_begin_spec m :
  match map_begin m with
  | Some (k, v) => m !! k = Some v /\ forall k' v', m !! k' = Some v' -> k <= k'
  | None => m = ∅
  end.
Proof.
  unfold map_begin. apply (map_fold_weak_ind (fun acc m => match acc with
    | Some (k, v) => m !! k = Some v /\ forall k' v', m !! k' = Some v' -> k <= k' | None => m = ∅ end)).
  - done.
  - intros i x m' [[k v]|] Hi IH.
    + destruct IH as [Hk Hmin]. assert (i <> k) by congruence.
      destruct (Z.ltb_spec i k); (split; [rewrite ?lookup_insert_eq, ?lookup_insert_ne by done; done|]);
        intros k' v'; (destruct (decide (k' = i)) as [->|]; [lia|]); rewrite lookup_insert_ne by done;
        intros Hk'; specialize (Hmin _ _ Hk'); lia.
    + subst m'. split; [by rewrite lookup_insert_eq|]. intros k' v'.
      destruct (decide (k' = i)) as [->|]; [lia|]. by rewrite lookup_insert_ne, lookup_empty by done.
Qed.

(** *** Removing a set of entries *)

Lemma wrap64_add_l a b : wrap64 (wrap64 a + b) = wrap64 (a + b).
Proof. unfold wrap64. apply Z.add_mod_idemp_l. lia. Qed.

(** [w'] is [w] without the entries [gone], all with [P], and [r'] counts them
    on top of [r]. *)
Record removes (P : RetransmitEntry -> Prop) (w w' : RetransmitWindow) (r r' : RetransmitAckResult)
    (gone : list RetransmitEntry) : Prop := {
  rm_wf : retransmit_wf w';
  rm_session : same_session w w';
  rm_stats : stats_ w' = stats_ w;
  rm_perm : entries_ w ≡ₚ gone ++ entries_ w';
  rm_gone : Forall P gone;
  rm_entries : removed_entries r' = wrap64 (removed_entries r + zlen gone);
  rm_bytes : removed_bytes r' = wrap64 (removed_bytes r + frames_size gone)
}.

(** The counters are 64-bit values. *)
Definition result_ok (r : RetransmitAckResult) : Prop :=
  is_u64 (removed_entries r) /\ is_u64 (removed_bytes r).

Lemma removes_none P w r : retransmit_wf w -> result_ok r -> removes P w w r r [].
Proof.
  intros Hw [H1 H2]. split; try done; cbn [frames_size foldr]; unfold zlen; cbn [length];
    rewrite Z.add_0_r; symmetry; apply Z.mod_small; ulia.
Qed.

Lemma removes_ok P w w' r r' gone : removes P w w' r r' gone -> result_ok r'.
Proof.
  intros [_ _ _ _ _ H1 H2]. unfold result_ok. rewrite H1, H2. unfold is_u64, wrap64.
  split; apply Z.mod_pos_bound; lia.
Qed.

Lemma removes_trans P w1 w2 w3 r1 r2 r3 g1 g2 :
  removes P w1 w2 r1 r2 g1 -> removes P w2 w3 r2 r3 g2 -> removes P w1 w3 r1 r3 (g1 ++ g2).
Proof.
  intros [A1 A2 A3 A4 A5 A6 A7] [B1 B2 B3 B4 B5 B6 B7]. split; try done.
  - by transitivity w2.
  - congruence.
  - by rewrite A4, B4, app_assoc.
  - by apply Forall_app.
  - rewrite B6, A6, wrap64_add_l. f_equal. unfold zlen. rewrite length_app. lia.
  - rewrite B7, A7, wrap64_add_l, frames_size_app. f_equal. lia.
Qed.

Lemma RemoveAt_removes (P : RetransmitEntry -> Prop) w i e r :
  retransmit_wf w -> entries_ w !! i = Some e -> P e ->
  removes P w (RemoveAt w i r).1 r (RemoveAt w i r).2 [e].
Proof.
  intros Hw Hi He. destruct (RemoveAt_spec w i e r Hw Hi) as (H1 & H2 & H3 & H4 & _ & H6).
  split; try done.
  - by constructor.
  - by rewrite H6.
  - rewrite H6. cbn [removed_bytes frames_size foldr]. by rewrite Z.add_0_r.
Qed.

(** *** The cumulative prefix *)

Definition in_prefix (s : SourceIdentity) (highest : Z) (e : RetransmitEntry) : Prop :=
  entry_source e = s /\ sequence e <= highest.

Lemma no_source_entries w s :
  retransmit_wf w -> source_index_ w !! s ≫= map_begin = None ->
  forall e, e ∈ entries_ w -> entry_source e <> s.
Proof.
  intros Hw Hb e He <-. destruct (indexed_in w e Hw He) as [i Hi]. unfold indexed in Hi.
  apply bind_Some in Hi as (m & Hm & Hmi). cbn [key_of key_source key_sequence] in *. rewrite Hm in Hb.
  cbn in Hb. pose proof (map_begin_spec m) as Hs. rewrite Hb in Hs. by subst m.
Qed.

Lemma first_entry w s first position :
  retransmit_wf w -> source_index_ w !! s ≫= map_begin = Some (first, position) ->
  (exists e, entries_ w !! position = Some e /\ key_of e = mkEntryKey s first) /\
  forall e, e ∈ entries_ w -> entry_source e = s -> first <= sequence e.
Proof.
  intros Hw (m & Hm & Hb)%bind_Some. pose proof (map_begin_spec m) as Hs. rewrite Hb in Hs.
  destruct Hs as [Hf Hmin]. destruct (rw_indexes _ Hw) as [Hk Hix _]. split.
  - apply Hk. rewrite <- Hix. unfold indexed. cbn [key_source key_sequence]. by rewrite Hm.
  - intros e He <-. destruct (indexed_in w e Hw He) as [i Hi]. unfold indexed in Hi.
    cbn [key_of key_source key_sequence] in Hi. rewrite Hm in Hi. by eapply Hmin.
Qed.

Lemma trim_prefix_spec s highest fuel : forall w r,
  retransmit_wf w -> result_ok r -> (length (entries_ w) < fuel)%nat ->
  exists gone, removes (in_prefix s highest) w (trim_prefix fuel w s highest r).1 r
                 (trim_prefix fuel w s highest r).2 gone /\
    Forall (fun e => ~ in_prefix s highest e) (entries_ (trim_prefix fuel w s highest r).1).
Proof.
  induction fuel as [|fuel IH]; intros w r Hw Hr Hlt; [lia|]. cbn [trim_prefix].
  destruct (source_index_ w !! s ≫= map_begin) as [[first position]|] eqn:Eb.
  - destruct (first_entry w s first position Hw Eb) as [(e & He & Hke) Hmin].
    injection Hke as Hs Hq. destruct (Z.ltb_spec highest first).
    + exists []. split; [by apply removes_none|]. apply Forall_elem. intros f Hf [Hfs Hfq].
      specialize (Hmin f Hf Hfs). lia.
    + pose proof (RemoveAt_removes (in_prefix s highest) w position e r Hw He ltac:(split; [done|lia])) as Hrm.
      destruct (RemoveAt w position r) as [w1 r1]. cbn [fst snd] in Hrm.
      destruct (IH w1 r1) as (gone & Hg & Hall).
      * by eapply rm_wf.
      * by eapply removes_ok.
      * assert (length (entries_ w) = S (length (entries_ w1))) by (by rewrite (rm_perm _ _ _ _ _ _ Hrm)). lia.
      * exists ([e] ++ gone). split; [by eapply removes_trans|done].
  - exists []. split; [by apply removes_none|]. apply Forall_elem. intros f Hf [Hfs _].
    by apply (no_source_entries w s Hw Eb f).
Qed.

Lemma removes_weaken (P Q : RetransmitEntry -> Prop) w w' r r' gone :
  (forall e, e ∈ entries_ w -> P e -> Q e) -> removes P w w' r r' gone -> removes Q w w' r r' gone.
Proof.
  intros H [? ? ? Hp HP ? ?]. split; try done. rewrite Forall_elem in HP |- *.
  intros e He. apply H; [|by apply HP]. rewrite Hp, elem_of_app. by left.
Qed.

(** *** Acknowledgements *)

(** The frames an acknowledgement covers: the cumulative prefix, and the
    observed frame when it was accepted. *)
Definition acked (ack : AckPayload) (e : RetransmitEntry) : bool :=
  bool_decide (entry_source e = source ack) &&
  (match highest_contiguous_sequence ack with Some h => sequence e <=? h | None => false end ||
   bool_decide (disposition ack = kAccepted) && (sequence e =? observed_sequence ack)).

(** The acknowledgement is for this session and well formed. *)
Definition ack_applies (w : RetransmitWindow) (ack : AckPayload) : Prop :=
  session_active_ w = true /\ receiver_session_epoch ack = local_session_epoch_ w /\
  sender_session_epoch ack = remote_session_epoch_ w /\
  (disposition ack = kAccepted \/
   disposition ack = kNackWithHighest /\ is_Some (highest_contiguous_sequence ack)).

Lemma with_stats_wf w st : retransmit_wf w -> retransmit_wf (with_stats w st).
Proof. intros []. by split. Qed.

Definition below_highest (ack : AckPayload) (e : RetransmitEntry) : Prop :=
  exists h, highest_contiguous_sequence ack = Some h /\ in_prefix (source ack) h e.

Lemma trim_ack_spec w ack :
  retransmit_wf w ->
  exists gone, removes (below_highest ack) w (trim_ack w ack).1 (mkAckResult 0 0) (trim_ack w ack).2 gone /\
    Forall (fun e => ~ below_highest ack e) (entries_ (trim_ack w ack).1).
Proof.
  intros Hw. assert (result_ok (mkAckResult 0 0)) as Hr by (unfold result_ok, is_u64; cbn; lia).
  unfold trim_ack, below_highest. destruct (highest_contiguous_sequence ack) as [h|].
  - destruct (trim_prefix_spec (source ack) h (S (length (entries_ w))) w (mkAckResult 0 0) Hw Hr)
      as (gone & Hg & Hk); [lia|]. exists gone. split.
    + eapply removes_weaken; [|exact Hg]. intros e _ He. by exists h.
    + rewrite Forall_elem in Hk |- *. intros e He (h' & [= <-] & Hp). by apply (Hk e He).
  - exists []. split; [by apply removes_none|]. apply Forall_elem. by intros e _ (h & ? & _).
Qed.

(** Above the prefix, an acknowledgement covers only the observed frame. *)
Lemma acked_above_prefix w ack e :
  retransmit_wf w -> e ∈ entries_ w -> ~ below_highest ack e -> acked ack e = true ->
  disposition ack = kAccepted /\ default 0 (highest_contiguous_sequence ack) < observed_sequence ack /\
  key_of e = mkEntryKey (source ack) (observed_sequence ack).
Proof.
  intros Hw He Hb Ha. unfold acked in Ha. bool_to_prop.
  pose proof (proj1 (Forall_elem _ _) (rw_entries _ Hw) e He) as [Hseq _].
  match goal with H : _ \/ _ |- _ => destruct H as [Hh|Hh] end.
  - destruct Hb. unfold below_highest. destruct (highest_contiguous_sequence ack) as [h|]; [|done].
    exists h. split; [done|]. split; [done|lia].
  - bool_to_prop. split; [done|]. split; [|unfold key_of; congruence].
    destruct (highest_contiguous_sequence ack) as [h|] eqn:Eh; cbn [default from_option]; [|unfold id in *; lia].
    destruct (Z.lt_ge_cases h (observed_sequence ack)); [done|]. destruct Hb. exists h.
    split; [done|]. split; [done|lia].
Qed.

Lemma keys_unique w e f :
  retransmit_wf w -> e ∈ entries_ w -> f ∈ entries_ w -> key_of e = key_of f -> e = f.
Proof.
  intros Hw [i Hi]%list_elem_of_lookup [j Hj]%list_elem_of_lookup E.
  assert (i = j) as -> by (by eapply index_exact_inj; [apply (ix_key _ _ _ (rw_indexes _ Hw))|..]). congruence.
Qed.

Lemma removed_absent P w w' r r' e :
  retransmit_wf w -> removes P w w' r r' [e] -> e ∉ entries_ w'.
Proof.
  intros Hw H. assert (NoDup (entries_ w)) as Hnd.
  { apply NoDup_alt. intros a b x Ha Hb. eapply index_exact_inj; [apply (ix_key _ _ _ (rw_indexes _ Hw))|..]; eauto. }
  rewrite (rm_perm _ _ _ _ _ _ H) in Hnd. by inversion Hnd.
Qed.

Lemma remove_observed_spec w ack r :
  retransmit_wf w -> result_ok r -> Forall (fun e => ~ below_highest ack e) (entries_ w) ->
  exists gone, removes (fun e => acked ack e = true) w (remove_observed w ack r).1 r
                 (remove_observed w ack r).2 gone /\
    Forall (fun e => acked ack e = false) (entries_ (remove_observed w ack r).1).
Proof.
  intros Hw Hr Hb. rewrite Forall_elem in Hb.
  pose proof (fun e He => acked_above_prefix w ack e Hw He (Hb e He)) as Hacked.
  pose proof (ix_key _ _ _ (rw_indexes _ Hw)) as Hk.
  unfold remove_observed. destruct (_ && _) eqn:Eg; [destruct (entry_index_ w !! _) as [i|] eqn:Ei|].
  - bool_to_prop. pose proof Ei as (e & He & Hke)%Hk. pose proof Hke as [= Hes Heq].
    assert (acked ack e = true) as Hae.
    { unfold acked. rewrite !bool_decide_true by done. rewrite Heq, Z.eqb_refl. by rewrite orb_true_r. }
    pose proof (RemoveAt_removes (fun e => acked ack e = true) w i e r Hw He Hae) as Hrm.
    exists [e]. split; [done|]. apply Forall_elem. intros f Hf.
    destruct (acked ack f) eqn:Ef; [exfalso|done].
    assert (f ∈ entries_ w) as Hfw by (rewrite (rm_perm _ _ _ _ _ _ Hrm), elem_of_app; by right).
    assert (f = e) as ->.
    { apply (keys_unique w); [done|done|by eapply list_elem_of_lookup_2|].
      destruct (Hacked f Hfw Ef) as (_ & _ & ->). done. }
    by apply (removed_absent _ _ _ _ _ _ Hw Hrm).
  - exists []. split; [by apply removes_none|]. apply Forall_elem. intros f Hf.
    destruct (acked ack f) eqn:Ef; [exfalso|done]. destruct (Hacked f Hf Ef) as (_ & _ & Hkf).
    apply list_elem_of_lookup in Hf as [j Hj].
    assert (entry_index_ w !! mkEntryKey (source ack) (observed_sequence ack) = Some j) by (apply Hk; eauto).
    cbn [fst] in *. congruence.
  - exists []. split; [by apply removes_none|]. apply Forall_elem. intros f Hf.
    destruct (acked ack f) eqn:Ef; [exfalso|done]. destruct (Hacked f Hf Ef) as (Hd & Hlt & _).
    rewrite Hd, bool_decide_true, (proj2 (Z.ltb_lt _ _) Hlt) in Eg by done. done.
Qed.

Lemma ApplyAck_applies w ack :
  ack_applies w ack ->
  ApplyAck w ack =
    (let '(w1, r1) := trim_ack w ack in
     let '(w2, r2) := remove_observed w1 ack r1 in
     (with_stats w2 (if bool_decide (disposition ack = kAccepted)
                     then count_accepted_ack (stats_ w2) else count_nack_ack (stats_ w2)), Ok r2)).
Proof.
  intros (H1 & H2 & H3 & H4). unfold ApplyAck. rewrite H1, H2, H3, !Z.eqb_refl. cbn [negb orb].
  destruct H4 as [H4|[H4 [h Hh]]]; rewrite H4; cbn; [done|by rewrite Hh].
Qed.

Lemma ApplyAck_refuses w ack :
  ~ ack_applies w ack ->
  exists st e, ApplyAck w ack = (with_stats w st, Err e).
Proof.
  intros H. unfold ApplyAck.
  destruct (negb _ || _ || _) eqn:E1; [by eexists _, _|].
  destruct (negb _ && _) eqn:E2; [by exists (stats_ w), (Invalid "ACK disposition is unknown"); destruct w|].
  destruct (bool_decide _ && _) eqn:E3.
  { by exists (stats_ w), (Invalid "NACK_WITH_HIGHEST requires highest sequence"); destruct w. }
  destruct H. apply orb_false_iff in E1 as [E1 Ha]. apply orb_false_iff in E1 as [E1 Hb].
  apply negb_false_iff in E1, Ha, Hb. rewrite Z.eqb_eq in Ha, Hb. split_and!; try done.
  destruct (decide (disposition ack = kAccepted)) as [Hd|Hd]; [by left|right].
  rewrite (bool_decide_false _ Hd) in E2. cbn in E2. apply negb_false_iff, bool_decide_eq_true in E2.
  split; [done|]. rewrite (bool_decide_true _ E2) in E3. cbn in E3. apply bool_decide_eq_false in E3.
  destruct (highest_contiguous_sequence ack); [by eexists|done].
Qed.

Lemma ApplyAck_spec w ack :
  retransmit_wf w -> ack_applies w ack ->
  exists w' r gone, ApplyAck w ack = (w', Ok r) /\ retransmit_wf w' /\ same_session w w' /\
    entries_ w ≡ₚ gone ++ entries_ w' /\
    Forall (fun e => acked ack e = true) gone /\ Forall (fun e => acked ack e = false) (entries_ w') /\
    removed_entries r = zlen gone /\ removed_bytes r = frames_size gone.
Proof.
  intros Hw Ha. rewrite (ApplyAck_applies w ack Ha).
  destruct (trim_ack_spec w ack Hw) as (g1 & H1 & Hk1). destruct (trim_ack w ack) as [w1 r1]. cbn [fst snd] in *.
  destruct (remove_observed_spec w1 ack r1) as (g2 & H2 & Hk2);
    [by eapply rm_wf|by eapply removes_ok|done|].
  destruct (remove_observed w1 ack r1) as [w2 r2]. cbn [fst snd] in *.
  assert (removes (fun e => acked ack e = true) w w2 (mkAckResult 0 0) r2 (g1 ++ g2)) as H.
  { eapply removes_trans; [|exact H2]. eapply removes_weaken; [|exact H1].
    intros e _ (h & Hh & Hs & Hq). unfold acked. rewrite Hh, bool_decide_true by done.
    by rewrite (proj2 (Z.leb_le _ _) Hq). }
  destruct H as [A1 A2 A3 A4 A5 A6 A7]. eexists _, r2, (g1 ++ g2).
  split; [reflexivity|]. cbn [entries_ with_stats]. split_and!; try done.
  - by apply with_stats_wf.
  - rewrite A6. cbn [removed_entries]. apply Z.mod_small.
    pose proof (rw_count _ Hw) as Hc. pose proof (rw_options _ Hw) as [Ho _].
    assert (length (entries_ w) = (length (g1 ++ g2) + length (entries_ w2))%nat)
      by (by rewrite A4, length_app). ulia.
  - rewrite A7. cbn [removed_bytes]. apply Z.mod_small.
    pose proof (rw_max_bytes _ Hw) as Hc. pose proof (rw_options _ Hw) as [_ Ho].
    rewrite (rw_bytes _ Hw), (frames_size_perm _ _ A4), frames_size_app in Hc.
    pose proof (frames_size_nonneg (g1 ++ g2)). pose proof (frames_size_nonneg (entries_ w2)). lia.
Qed.

(** *** Expiry *)

Definition expired (w : RetransmitWindow) (now_ns : Z) (e : RetransmitEntry) : bool :=
  IsExpired now_ns (enqueued_ns e) (max_age_ns (options_ w)).

Lemma purge_entries_spec now_ns n : forall w i removed,
  retransmit_wf w -> (length (entries_ w) - i <= n)%nat ->
  Forall (fun e => expired w now_ns e = false) (take i (entries_ w)) -> is_u64 removed ->
  let w' := (purge_entries n w now_ns i removed).1 in
  exists gone, retransmit_wf w' /\ same_session w w' /\ entries_ w ≡ₚ gone ++ entries_ w' /\
    Forall (fun e => expired w now_ns e = true) gone /\
    Forall (fun e => expired w now_ns e = false) (entries_ w') /\
    (purge_entries n w now_ns i removed).2 = wrap64 (removed + zlen gone).
Proof.
  assert (forall w i removed, retransmit_wf w -> entries_ w !! i = None ->
    Forall (fun e => expired w now_ns e = false) (take i (entries_ w)) -> is_u64 removed ->
    exists gone, retransmit_wf w /\ same_session w w /\ entries_ w ≡ₚ gone ++ entries_ w /\
    Forall (fun e => expired w now_ns e = true) gone /\
    Forall (fun e => expired w now_ns e = false) (entries_ w) /\ removed = wrap64 (removed + zlen gone)) as Hdone.
  { intros w i r Hw Hi Hf Hr. exists []. apply lookup_ge_None in Hi. rewrite take_ge in Hf by lia.
    split_and!; try done. unfold zlen. cbn [length]. rewrite Z.add_0_r. symmetry. apply Z.mod_small. ulia. }
  induction n as [|n IH]; intros w i removed Hw Hn Hf Hr; cbn [purge_entries].
  { cbv zeta. cbn [fst snd]. eapply Hdone; [done| |exact Hf|done]. apply lookup_ge_None. lia. }
  destruct (entries_ w !! i) as [e|] eqn:Ei; [|cbv zeta; by eapply Hdone].
  pose proof (lookup_lt_Some _ _ _ Ei) as Hlt. fold (expired w now_ns e).
  destruct (expired w now_ns e) eqn:Ee; cbn [negb].
  - destruct (RemoveAt_spec w i e (mkAckResult 0 0) Hw Ei) as (R1 & R2 & _ & R4 & R5 & _).
    destruct (RemoveAt w i (mkAckResult 0 0)) as [w1 r1]. cbn [fst] in *.
    assert (length (entries_ w) = S (length (entries_ w1))) as Hl by by rewrite R4.
    set (w2 := with_stats w1 _). assert (forall f, expired w2 now_ns f = expired w now_ns f) as Hex.
    { intros f. unfold expired. change (options_ w2) with (options_ w1). by destruct R2 as (-> & _). }
    destruct (IH w2 i (next_count removed)) as (gone & H1 & H2 & H3 & H4 & H5 & H6).
    + by apply with_stats_wf.
    + change (entries_ w2) with (entries_ w1). lia.
    + change (entries_ w2) with (entries_ w1). rewrite R5. by setoid_rewrite Hex.
    + unfold next_count, is_u64, wrap64. apply Z.mod_pos_bound. lia.
    + setoid_rewrite Hex in H4. setoid_rewrite Hex in H5.
      exists (e :: gone). cbv zeta. split_and!; try done.
      * transitivity w1; [done|]. exact H2.
      * rewrite R4. cbn [app]. by apply perm_skip.
      * by constructor.
      * rewrite H6. unfold next_count. rewrite wrap64_add_l. f_equal. unfold zlen. cbn [length]. lia.
  - apply IH; try done; [lia|]. rewrite (take_S_r _ _ _ Ei). apply Forall_app. split; [done|by repeat constructor].
Qed.

Lemma purge_spec w now_ns :
  retransmit_wf w ->
  let w' := (PurgeExpired w now_ns).1 in
  exists gone, retransmit_wf w' /\ same_session w w' /\ entries_ w ≡ₚ gone ++ entries_ w' /\
    Forall (fun e => expired w now_ns e = true) gone /\
    Forall (fun e => expired w now_ns e = false) (entries_ w') /\
    (PurgeExpired w now_ns).2 = zlen gone.
Proof.
  intros Hw. destruct (purge_entries_spec now_ns (length (entries_ w)) w 0 0 Hw ltac:(lia)
    ltac:(constructor) ltac:(unfold is_u64; lia)) as (gone & H1 & H2 & H3 & H4 & H5 & H6).
  exists gone. cbv zeta. split_and!; try done. unfold PurgeExpired. rewrite H6. apply Z.mod_small.
  pose proof (rw_count _ Hw) as Hc. pose proof (rw_options _ Hw) as [Ho _].
  assert (length (entries_ w) = (length gone + length (entries_ (purge_entries (length (entries_ w)) w now_ns 0 0).1))%nat)
    by (by rewrite H3 at 1; rewrite length_app). ulia.
Qed.

(** *** Adding a frame *)

Lemma with_entries_id w : with_entries w (entries_ w) (entry_index_ w) (source_index_ w) (bytes_ w) = w.
Proof. by destruct w. Qed.

(** What [insert_entry] makes of the source index before and after the
    sequence node, and how its handlers undo it. *)
Definition with_bucket (si : gmap SourceIdentity (gmap Z nat)) (s : SourceIdentity)
  : gmap SourceIdentity (gmap Z nat) :=
  if bool_decide (si !! s = None) then <[s := ∅]> si else si.

Lemma rollback_bucket si s :
  drop_created (bool_decide (si !! s = None)) (with_bucket si s) s = si.
Proof.
  unfold drop_created, with_bucket. case_bool_decide as H; [|done]. cbn [andb].
  rewrite bool_decide_true by apply lookup_insert_eq. by apply delete_insert_id.
Qed.

Lemma rollback_sequence si s n p :
  indexed si (mkEntryKey s n) = None ->
  drop_created (bool_decide (si !! s = None))
    (erase_sequence (<[s := <[n := p]> (default ∅ (with_bucket si s !! s))]> (with_bucket si s)) s n) s = si.
Proof.
  intros Hn. rewrite <- (rollback_bucket si s) at 5. f_equal. unfold erase_sequence.
  rewrite alter_insert_eq. unfold indexed in Hn. cbn [key_source key_sequence] in Hn.
  unfold with_bucket. case_bool_decide as H.
  - rewrite lookup_insert_eq. cbn [default from_option]. unfold id. rewrite delete_insert_id by done.
    by rewrite insert_insert_eq.
  - destruct (si !! s) as [m|] eqn:E; [|done]. cbn in Hn |- *. rewrite delete_insert_id by done.
    by rewrite insert_id.
Qed.

Lemma bucket_lookup si s n :
  indexed si (mkEntryKey s n) = None -> default ∅ (with_bucket si s !! s) !! n = None.
Proof.
  unfold indexed, with_bucket. cbn [key_source key_sequence]. case_bool_decide as H.
  - by rewrite lookup_insert_eq.
  - destruct (si !! s); [done|done].
Qed.

Lemma insert_entry_faulty w s n f now fault :
  indexed (source_index_ w) (mkEntryKey s n) = None -> entry_index_ w !! mkEntryKey s n = None ->
  fault <> NoFault -> insert_entry w s n f now fault = (w, Err no_memory).
Proof.
  intros Hs Hk Hf. unfold insert_entry. fold (with_bucket (source_index_ w) s). cbv zeta.
  rewrite (bucket_lookup _ _ _ Hs), Hk, rollback_bucket, (rollback_sequence _ _ _ _ Hs).
  rewrite delete_insert_id by done. rewrite with_entries_id. by destruct fault.
Qed.

Lemma insert_entry_ok w s n f now :
  indexed (source_index_ w) (mkEntryKey s n) = None -> entry_index_ w !! mkEntryKey s n = None ->
  insert_entry w s n f now NoFault =
    (with_entries w (entries_ w ++ [mkEntry s n now f])
       (<[mkEntryKey s n := length (entries_ w)]> (entry_index_ w))
       (<[s := <[n := length (entries_ w)]> (default ∅ (with_bucket (source_index_ w) s !! s))]>
          (with_bucket (source_index_ w) s))
       (wrap64 (bytes_ w + zlen f)), Ok tt).
Proof.
  intros Hs Hk. unfold insert_entry. fold (with_bucket (source_index_ w) s). cbv zeta.
  by rewrite (bucket_lookup _ _ _ Hs), Hk.
Qed.

Lemma indexed_insert si s n p k :
  indexed (<[s := <[n := p]> (default ∅ (with_bucket si s !! s))]> (with_bucket si s)) k
  = if decide (k = mkEntryKey s n) then Some p else indexed si k.
Proof.
  destruct k as [s' n']. unfold indexed. cbn [key_source key_sequence].
  destruct (decide (s' = s)) as [->|Hs].
  - rewrite lookup_insert_eq. cbn. destruct (decide (n' = n)) as [->|Hn].
    + by rewrite lookup_insert_eq, decide_True.
    + rewrite lookup_insert_ne, (decide_False (P := _ = _)) by congruence. unfold with_bucket.
      case_bool_decide as H; [by rewrite lookup_insert_eq, H|]. by destruct (si !! s).
  - rewrite lookup_insert_ne, decide_False by congruence. unfold with_bucket.
    case_bool_decide; [by rewrite lookup_insert_ne|done].
Qed.

Lemma insert_indexes es ei si e :
  indexes_ok es ei si -> ei !! key_of e = None ->
  let s := entry_source e in
  indexes_ok (es ++ [e]) (<[key_of e := length es]> ei)
    (<[s := <[sequence e := length es]> (default ∅ (with_bucket si s !! s))]> (with_bucket si s)).
Proof.
  intros [Hk Hs Hn] Hnew s. split.
  - intros k i. destruct (decide (k = key_of e)) as [->|Hne].
    + rewrite lookup_insert_eq. split.
      * intros [= <-]. exists e. by rewrite list_lookup_middle.
      * intros (f & Hf & Hkf). apply lookup_snoc_Some in Hf as [[_ Hf]|[-> _]]; [|done].
        assert (ei !! key_of e = Some i) by (apply Hk; eauto). congruence.
    + rewrite lookup_insert_ne by done. rewrite (Hk k i : _ <-> _). split.
      * intros (f & Hf & Hkf). exists f. split; [|done]. by apply lookup_app_l_Some.
      * intros (f & Hf & Hkf). apply lookup_snoc_Some in Hf as [[_ Hf]|[_ <-]]; [by eauto|done].
  - intros k. rewrite indexed_insert. change (mkEntryKey s (sequence e)) with (key_of e).
    destruct (decide (k = key_of e)) as [->|].
    + by rewrite lookup_insert_eq.
    + by rewrite lookup_insert_ne, Hs.
  - intros t. destruct (decide (t = s)) as [->|].
    + rewrite lookup_insert_eq. intros [= Hm]. by apply insert_non_empty in Hm.
    + rewrite lookup_insert_ne by done. unfold with_bucket. case_bool_decide; [|apply Hn].
      rewrite lookup_insert_ne by done. apply Hn.
Qed.

(** When [Add] takes the frame. *)
Record addable (w : RetransmitWindow) (s : SourceIdentity) (n : Z) (f : list byte) : Prop := {
  ad_session : session_active_ w = true;
  ad_sequence : n <> 0;
  ad_frame : f <> [];
  ad_new : Find w s n = None;
  ad_entries : zlen (entries_ w) < max_entries (options_ w);
  ad_bytes : bytes_ w + zlen f <= max_bytes (options_ w)
}.

Lemma Find_None w s n : retransmit_wf w -> Find w s n = None <-> entry_index_ w !! mkEntryKey s n = None.
Proof.
  intros Hw. unfold Find. destruct (entry_index_ w !! _) as [i|] eqn:E; [|done].
  apply (ix_key _ _ _ (rw_indexes _ Hw)) in E as (e & He & _). cbn. by rewrite He.
Qed.

Lemma Add_refuses w s n f now fault :
  retransmit_wf w -> ~ (addable w s n f /\ fault = NoFault) -> exists e, Add w s n f now fault = (w, Err e).
Proof.
  intros Hw H. unfold Add.
  destruct (session_active_ w) eqn:E1; cbn [negb]; [|by eexists].
  destruct (Z.eqb_spec n 0) as [|E2]; [by eexists|].
  destruct (Z.eqb_spec (zlen f) 0) as [|E3]; [by eexists|].
  destruct (Z.ltb_spec (max_bytes (options_ w)) (zlen f)) as [|E4]; [by eexists|].
  destruct (bool_decide (is_Some (entry_index_ w !! mkEntryKey s n))) eqn:E5; [by eexists|].
  destruct (Z.leb_spec (max_entries (options_ w)) (zlen (entries_ w))) as [|E6]; [by eexists|].
  destruct (Z.ltb_spec (max_bytes (options_ w) - zlen f) (bytes_ w)) as [|E7]; [by eexists|].
  apply bool_decide_eq_false in E5. rewrite <- eq_None_not_Some in E5.
  eexists. apply insert_entry_faulty; [|done|].
  - by rewrite (ix_source _ _ _ (rw_indexes _ Hw)).
  - intros ->. destruct H. split; [|done]. split; try done; [|by apply Find_None|lia].
    intros ->. unfold zlen in E3. cbn in E3. lia.
Qed.

Lemma Add_accepts w s n f now :
  retransmit_wf w -> 0 <= n -> addable w s n f ->
  exists w', Add w s n f now NoFault = (w', Ok tt) /\ retransmit_wf w' /\ same_session w w' /\
    entries_ w' = entries_ w ++ [mkEntry s n now f].
Proof.
  intros Hw Hn [A1 A2 A3 A4 A5 A6]. apply Find_None in A4; [|done].
  pose proof (frames_size_nonneg (entries_ w)) as Hnn. rewrite <- (rw_bytes _ Hw) in Hnn.
  assert (1 <= zlen f) as Hf by (destruct f; [done|]; unfold zlen; cbn [length]; lia).
  pose proof (rw_options _ Hw) as [Ho1 Ho2].
  unfold Add. rewrite A1, (bool_decide_false (is_Some _)) by (by rewrite A4; intros [? [=]]).
  rewrite (proj2 (Z.eqb_neq n 0)), (proj2 (Z.eqb_neq (zlen f) 0)) by lia.
  rewrite !(proj2 (Z.ltb_ge _ _)), (proj2 (Z.leb_gt _ _)) by lia. cbn [negb].
  eexists. split; [apply insert_entry_ok; [by rewrite (ix_source _ _ _ (rw_indexes _ Hw))|done]|].
  cbn [entries_ with_entries]. split_and!; try done.
  assert (wrap64 (bytes_ w + zlen f) = bytes_ w + zlen f) as Hwr by (apply Z.mod_small; lia).
  split; cbn [options_ entries_ entry_index_ source_index_ bytes_ with_entries]; rewrite ?Hwr.
  - done.
  - apply (insert_indexes _ _ _ (mkEntry s n now f)); [apply Hw|done].
  - rewrite frames_size_app, (rw_bytes _ Hw). cbn. unfold zlen. lia.
  - lia.
  - unfold zlen. rewrite length_app. cbn [length]. ulia.
  - apply Forall_app. split; [apply Hw|]. repeat constructor; cbn; lia.
Qed.

(** The maps the operations leave, as lookups. *)
Lemma Add_Find w s n f now w' :
  retransmit_wf w -> retransmit_wf w' -> Find w s n = None -> entries_ w' = entries_ w ++ [mkEntry s n now f] ->
  forall t m, Find w' t m = if decide (t = s /\ m = n) then Some (mkEntry s n now f) else Find w t m.
Proof.
  intros Hw Hw' Hnew He t m. apply option_eq. intros x. rewrite find_entry_spec, He, elem_of_app by done.
  destruct (decide (t = s /\ m = n)) as [[-> ->]|Hne].
  - split.
    + intros [[Hx|Hx%list_elem_of_singleton] Hk]; [|congruence].
      assert (Find w s n = Some x) by (by apply find_entry_spec). congruence.
    + intros [= <-]. split; [right; by apply list_elem_of_singleton|done].
  - rewrite find_entry_spec by done. split.
    + intros [[Hx|Hx%list_elem_of_singleton] Hk]; [done|]. subst x. injection Hk as -> ->. tauto.
    + intros [Hx Hk]. split; [by left|done].
Qed.

Lemma ApplyAck_Find w ack :
  retransmit_wf w ->
  let w' := (ApplyAck w ack).1 in
  retransmit_wf w' /\ same_session w w' /\ (is_ok (ApplyAck w ack).2 = true <-> ack_applies w ack) /\
  forall s n, Find w' s n = match Find w s n with
    | Some e => if bool_decide (ack_applies w ack) && acked ack e then None else Some e | None => None end.
Proof.
  intros Hw. cbv zeta. destruct (decide (ack_applies w ack)) as [Ha|Ha].
  - rewrite bool_decide_true by done. cbn [andb].
    destruct (ApplyAck_spec w ack Hw Ha) as (w' & r & gone & -> & Hw' & Hs & Hp & Hg & Hk & _).
    cbn [fst snd]. split_and!; [done|done|done|]. intros s n. by eapply Find_removed.
  - rewrite bool_decide_false by done. cbn [andb].
    destruct (ApplyAck_refuses w ack Ha) as (st & e & ->). cbn [fst snd is_ok].
    split_and!; [by apply with_stats_wf|done|done|]. intros s n. change (Find (with_stats w st) s n) with (Find w s n).
    by destruct (Find w s n).
Qed.

(** ** Call sequences *)

Inductive RetransmitCall : Set :=
| CallBeginSession (local_epoch remote_epoch now_ns : Z)
| CallAdd (s : SourceIdentity) (n : Z) (f : list byte) (now_ns : Z) (fault : AddFault)
| CallApplyAck (ack : AckPayload)
| CallPurgeExpired (now_ns : Z).

Definition run_call (w : RetransmitWindow) (c : RetransmitCall) : RetransmitWindow :=
  match c with
  | CallBeginSession l r now => (BeginSession w l r now).1
  | CallAdd s n f now fault => (Add w s n f now fault).1
  | CallApplyAck ack => (ApplyAck w ack).1
  | CallPurgeExpired now => (PurgeExpired w now).1
  end.

(** A sequence number is unsigned. *)
Definition call_ok (c : RetransmitCall) : Prop :=
  match c with CallAdd _ n _ _ _ => 0 <= n | _ => True end.

Lemma BeginSession_keeps w l r now :
  let w' := (BeginSession w l r now).1 in
  (retransmit_wf w -> retransmit_wf w') /\ options_ w' = options_ w /\
  entries_ w' = entries_ w /\ entry_index_ w' = entry_index_ w.
Proof. unfold BeginSession. destruct (_ && _); [done|]. split; [|done]. intros []. by split. Qed.

(** [addable] is decided by the guards. *)
Lemma addable_dec w s n f : addable w s n f \/ ~ addable w s n f.
Proof.
  destruct (decide (session_active_ w = true /\ n <> 0 /\ f <> [] /\
    zlen (entries_ w) < max_entries (options_ w) /\ bytes_ w + zlen f <= max_bytes (options_ w)))
    as [(?&?&?&?&?)|H].
  - destruct (Find w s n) eqn:E; [right|left; by split]. intros [? ? ? ? ? ?]. congruence.
  - right. intros []. by destruct H.
Qed.

Lemma run_call_keeps w c :
  retransmit_wf w -> call_ok c -> retransmit_wf (run_call w c) /\ options_ (run_call w c) = options_ w.
Proof.
  intros Hw Hc. destruct c as [l r now|s n f now fault|ack|now]; cbn [run_call call_ok] in *.
  - destruct (BeginSession_keeps w l r now) as (H1 & H2 & _). auto.
  - destruct (addable_dec w s n f) as [Ha|Ha]; [destruct (decide (fault = NoFault)) as [->|]|].
    + destruct (Add_accepts w s n f now Hw Hc Ha) as (w' & -> & H & (Ho & _) & _). done.
    + destruct (Add_refuses w s n f now fault Hw) as [e ->]; [tauto|done].
    + destruct (Add_refuses w s n f now fault Hw) as [e ->]; [tauto|done].
  - destruct (decide (ack_applies w ack)) as [Ha|Ha].
    + destruct (ApplyAck_spec w ack Hw Ha) as (w1 & r1 & gone & -> & H & (Ho & _) & _). done.
    + destruct (ApplyAck_refuses w ack Ha) as (st & e' & ->). split; [by apply with_stats_wf|done].
  - destruct (purge_spec w now Hw) as (gone & H & (Ho & _) & _). done.
Qed.

Lemma run_calls_keep calls : forall w,
  retransmit_wf w -> Forall call_ok calls ->
  retransmit_wf (foldl run_call w calls) /\ options_ (foldl run_call w calls) = options_ w.
Proof.
  induction calls as [|c calls IH]; intros w Hw Hc; [done|]. apply Forall_cons_1 in Hc as [Hc Hcs].
  destruct (run_call_keeps w c Hw Hc) as [H1 H2]. cbn [foldl]. destruct (IH _ H1 Hcs) as [H3 H4].
  split; [done|congruence].
Qed.

(** The options as their C++ types bound them. *)
Definition options_typed (o : RetransmitWindowOptions) : Prop :=
  0 <= max_entries o <= u64_max /\ 0 <= max_bytes o <= u64_max.

Lemma new_window_wf o w : options_typed o -> Create o = Ok w -> retransmit_wf w /\ options_ w = o.
Proof.
  intros [H1 H2] H. unfold Create in H. step_if. apply Ok_inj in H. subst w. split; [|done].
  split; cbn [options_ entries_ entry_index_ source_index_ bytes_]; try done; try (unfold zlen; cbn; lia).
  split; [|done|done]. intros k i. rewrite lookup_empty. split; [done|]. by intros (e & He & _).
Qed.

(** ** Properties *)

(** Whatever the calls and the allocation failures, the window retains at
    most [max_entries] frames and [max_bytes] bytes, [bytes_] is the size of the
    retained frames, and both indexes name every retained frame exactly once at
    its position, with no empty source bucket. *)
Theorem retransmit_window_invariant (options : RetransmitWindowOptions) (w0 : RetransmitWindow)
    (calls : list RetransmitCall) :
  options_typed options -> Create options = Ok w0 -> Forall call_ok calls ->
  let w := foldl run_call w0 calls in
  zlen (entries_ w) <= max_entries options /\
  bytes_ w = frames_size (entries_ w) /\ bytes_ w <= max_bytes options /\
  index_exact (entries_ w) (entry_index_ w) /\
  (forall k, indexed (source_index_ w) k = entry_index_ w !! k) /\
  (forall s, source_index_ w !! s <> Some ∅).
Proof.
  intros Ho Hc Hcalls w. destruct (new_window_wf _ _ Ho Hc) as [Hw0 Hopt].
  destruct (run_calls_keep calls w0 Hw0 Hcalls) as [[_ [H1 H2 H3] H4 H5 H6 _] Hopt'].
  fold w in H1, H2, H3, H4, H5, H6, Hopt'. rewrite Hopt', Hopt in *. by split_and!.
Qed.

Definition sample_source : SourceIdentity := mkSource 7 8 9.
Definition sample_options : RetransmitWindowOptions := mkRetransmitOptions 3 10 1000.
Definition sample_calls : list RetransmitCall :=
  [CallBeginSession 5 6 0; CallAdd sample_source 1 [Byte.x01] 10 NoFault;
   CallAdd sample_source 2 [Byte.x02; Byte.x03] 20 NoFault;
   CallAdd sample_source 4 [Byte.x04] 30 NoFault].
Definition sample_window : RetransmitWindow :=
  match Create sample_options with
  | Ok w => foldl run_call w sample_calls
  | Err _ => mkRetransmit sample_options false 0 0 0 [] ∅ ∅ 0 zero_retransmit_stats
  end.
Definition sample_ack : AckPayload := mkAck 6 5 sample_source 4 (Some 1) kAccepted.

Lemma sample_calls_ok : Forall call_ok sample_calls.
Proof. repeat constructor; cbn; lia. Qed.

Lemma retransmit_window_invariant_witness :
  exists w0, Create sample_options = Ok w0 /\ bytes_ (foldl run_call w0 sample_calls) <= 10 /\
    zlen (entries_ (foldl run_call w0 sample_calls)) = 3.
Proof.
  eexists. split; [vm_compute; reflexivity|]. split; [|vm_compute; reflexivity].
  exact (proj1 (proj2 (proj2 (retransmit_window_invariant sample_options _ sample_calls
    ltac:(split; cbn; lia) ltac:(vm_compute; reflexivity) sample_calls_ok)))).
Defined.

Lemma sample_retransmit_wf : retransmit_wf sample_window.
Proof.
  unfold sample_window. destruct (Create sample_options) as [w0|] eqn:E; [|by vm_compute in E].
  destruct (new_window_wf sample_options w0 ltac:(split; cbn; lia) E) as [Hw0 _].
  apply run_calls_keep; [done|apply sample_calls_ok].
Qed.

(** [Add] takes a frame exactly when the session is active, the sequence
    is nonzero and new, the frame is not empty and both limits leave room, and no
    allocation throws; it then maps (source, sequence) to the frame and touches
    nothing else.  In every other case, including an exception between any two
    insertions, the window is left unchanged. *)
Theorem add_all_or_nothing (w : RetransmitWindow) (s : SourceIdentity) (n : Z) (f : list byte)
    (now_ns : Z) (fault : AddFault) :
  retransmit_wf w -> 0 <= n ->
  (addable w s n f /\ fault = NoFault ->
   exists w', Add w s n f now_ns fault = (w', Ok tt) /\ retransmit_wf w' /\
     forall t m, Find w' t m = if decide (t = s /\ m = n) then Some (mkEntry s n now_ns f) else Find w t m) /\
  (~ (addable w s n f /\ fault = NoFault) -> exists e, Add w s n f now_ns fault = (w, Err e)).
Proof.
  intros Hw Hn. split; [|by apply Add_refuses]. intros [Ha ->].
  destruct (Add_accepts w s n f now_ns Hw Hn Ha) as (w' & E & Hw' & _ & He). exists w'.
  split_and!; [done|done|]. eapply Add_Find; [done|done|apply Ha|done].
Qed.

Lemma add_all_or_nothing_witness :
  exists e, Add sample_window sample_source 3 [Byte.x00] 40 KeyFault = (sample_window, Err e).
Proof.
  apply (proj2 (add_all_or_nothing sample_window sample_source 3 [Byte.x00] 40 KeyFault
    sample_retransmit_wf ltac:(lia))). intros [_ H]. discriminate H.
Defined.

(** C29: an acknowledgement of this session removes exactly the frames it
    covers (the cumulative prefix, and the observed frame unless it was refused)
    and reports their number and bytes; any other acknowledgement is refused and
    removes nothing. *)
Theorem apply_ack_refines (w : RetransmitWindow) (ack : AckPayload) :
  retransmit_wf w ->
  let w' := (ApplyAck w ack).1 in
  retransmit_wf w' /\
  (ack_applies w ack -> exists r, (ApplyAck w ack).2 = Ok r /\
     (forall s n, Find w' s n = match Find w s n with
                                | Some e => if acked ack e then None else Some e | None => None end) /\
     removed_entries r = zlen (entries_ w) - zlen (entries_ w') /\
     removed_bytes r = bytes_ w - bytes_ w') /\
  (~ ack_applies w ack -> is_ok (ApplyAck w ack).2 = false /\ forall s n, Find w' s n = Find w s n).
Proof.
  intros Hw. cbv zeta. destruct (decide (ack_applies w ack)) as [Ha|Ha].
  - destruct (ApplyAck_spec w ack Hw Ha) as (w' & r & gone & -> & Hw' & _ & Hp & Hg & Hk & He & Hb).
    cbn [fst snd]. split; [done|]. split; [intros _|by intros []]. exists r. split_and!; try done.
    + intros s n. by eapply Find_removed.
    + assert (length (entries_ w) = (length gone + length (entries_ w'))%nat) by (by rewrite Hp, length_app).
      ulia.
    + rewrite (rw_bytes _ Hw), (rw_bytes _ Hw'), (frames_size_perm _ _ Hp), frames_size_app. lia.
  - destruct (ApplyAck_refuses w ack Ha) as (st & e & ->). cbn [fst snd].
    split; [by apply with_stats_wf|]. split; [by intros ?|done].
Qed.

Lemma apply_ack_refines_witness :
  exists r, (ApplyAck sample_window sample_ack).2 = Ok r /\ removed_entries r = 2 /\
    Find (ApplyAck sample_window sample_ack).1 sample_source 4 = None.
Proof.
  destruct (apply_ack_refines sample_window sample_ack sample_retransmit_wf) as (_ & H & _).
  destruct H as (r & Hr & Hf & He & _).
  { unfold ack_applies. vm_compute. split_and!; try reflexivity. left. reflexivity. }
  exists r. split; [exact Hr|]. split; [rewrite He; vm_compute; reflexivity|].
  rewrite Hf. vm_compute. reflexivity.
Defined.

(** Expiry removes exactly the frames older than [max_age_ns] at the given
    time and returns their number. *)
Theorem purge_expired_exact (w : RetransmitWindow) (now_ns : Z) :
  retransmit_wf w ->
  let w' := (PurgeExpired w now_ns).1 in
  retransmit_wf w' /\
  (forall s n, Find w' s n =
     match Find w s n with
     | Some e => if (enqueued_ns e <=? now_ns) && (max_age_ns (options_ w) <? now_ns - enqueued_ns e)
                 then None else Some e
     | None => None
     end) /\
  (PurgeExpired w now_ns).2 = zlen (entries_ w) - zlen (entries_ w').
Proof.
  intros Hw. destruct (purge_spec w now_ns Hw) as (gone & Hw' & _ & Hp & Hg & Hk & Hn).
  cbv zeta. split_and!; [done| |].
  - intros s n. by apply (Find_removed (expired w now_ns) w _ gone).
  - rewrite Hn. assert (length (entries_ w) = (length gone + length (entries_ (PurgeExpired w now_ns).1))%nat)
      by (by rewrite Hp at 1; rewrite length_app). ulia.
Qed.

Lemma purge_expired_exact_witness :
  (PurgeExpired sample_window 1015).2 = 1 /\ Find (PurgeExpired sample_window 1015).1 sample_source 1 = None.
Proof.
  destruct (purge_expired_exact sample_window 1015 sample_retransmit_wf) as (_ & Hf & Hn).
  split; [rewrite Hn; vm_compute; reflexivity|rewrite Hf; vm_compute; reflexivity].
Defined.
