(* ===== verification/PendingReliable.v ===== *)
(** * The logical frames of the sender

    Models [pending_reliable_] of [mino/bridge/bridge_pipeline.cc] and its two
    indexes: the vector of logical frames the pipeline keeps beside the
    retransmission window, [AddPendingReliable] with its rollbacks,
    [RemovePendingReliableAt], and the two operations that drop the frames the
    window no longer retains.  The index updates are those of the window, whose
    lemmas are reused through the keys of the entries. *)
From S2P Require Import Prelude SourceIdentity Bytes WireFrame ControlPayload RetransmitWindow.

Record PendingReliable : Set := mkPendingReliable {
  pr_source : SourceIdentity; pr_sequence : Z; outbound : WireFrame; transmitted : bool
}.
(** [ReliableKey] has the fields of the window's [EntryKey]. *)
Definition pr_key (p : PendingReliable) : EntryKey := mkEntryKey (pr_source p) (pr_sequence p).

Record ReliableTable : Set := mkTable {
  pending_reliable_ : list PendingReliable;
  pending_reliable_index_ : gmap EntryKey nat;
  pending_reliable_sources_ : gmap SourceIdentity (gmap Z nat)
}.
Definition empty_table : ReliableTable := mkTable [] ∅ ∅.

Definition pending_exists : Status :=
  mkStatus kAlreadyExists "bridge pending reliable frame already exists".
Definition allocation_failure : Status := Resource "bridge pipeline allocation failed".

(** [AddPendingReliable]; [fault] says which allocation throws, [EntriesFault]
    being the one of the vector. *)
Definition AddPendingReliable (t : ReliableTable) (p : PendingReliable) (fault : AddFault)
  : ReliableTable * Result unit :=
  let key := pr_key p in
  let ei := pending_reliable_index_ t in
  let restored si ei := mkTable (pending_reliable_ t) ei si in
  if bool_decide (is_Some (ei !! key)) then (t, Err pending_exists)
  else if bool_decide (fault = EntriesFault) then (t, Err allocation_failure)
  else
    let index := length (pending_reliable_ t) in
    if bool_decide (fault = SourceFault) then (t, Err allocation_failure)
    else
      let created := bool_decide (pending_reliable_sources_ t !! pr_source p = None) in
      let si := if created then <[pr_source p := ∅]> (pending_reliable_sources_ t)
                else pending_reliable_sources_ t in
      if bool_decide (fault = SequenceFault)
      then (restored (drop_created created si (pr_source p)) ei, Err allocation_failure)
      else
        let bucket := default ∅ (si !! pr_source p) in
        let sequence_inserted := bool_decide (bucket !! pr_sequence p = None) in
        let si := if sequence_inserted
                  then <[pr_source p := <[pr_sequence p := index]> bucket]> si else si in
        let undo si := drop_created created
          (if sequence_inserted then erase_sequence si (pr_source p) (pr_sequence p) else si) (pr_source p) in
        if bool_decide (fault = KeyFault) then (restored (undo si) ei, Err allocation_failure)
        else
          let key_inserted := bool_decide (ei !! key = None) in
          let ei' := if key_inserted then <[key := index]> ei else ei in
          if negb sequence_inserted || negb key_inserted
          then (restored (undo si) (if key_inserted then delete key ei' else ei'), Err pending_exists)
          else (mkTable (pending_reliable_ t ++ [p]) ei' si, Ok tt).

Definition FindPendingReliable (t : ReliableTable) (s : SourceIdentity) (n : Z) : option PendingReliable :=
  pending_reliable_index_ t !! mkEntryKey s n ≫= fun i => pending_reliable_ t !! i.

(** [RemovePendingReliableAt]; the index is in range at every call. *)
Definition RemovePendingReliableAt (t : ReliableTable) (index : nat) : ReliableTable :=
  match pending_reliable_ t !! index with
  | None => t
  | Some p =>
      let ei := delete (pr_key p) (pending_reliable_index_ t) in
      let si := unindex (pending_reliable_sources_ t) (pr_key p) in
      let last := Nat.pred (length (pending_reliable_ t)) in
      let '(l, ei, si) :=
        match pending_reliable_ t !! last with
        | Some moved =>
            if bool_decide (index <> last)
            then (<[index := moved]> (pending_reliable_ t), reindex_key ei (pr_key moved) index,
                  reindex_source si (pr_key moved) index)
            else (pending_reliable_ t, ei, si)
        | None => (pending_reliable_ t, ei, si)
        end in
      mkTable (take last l) ei si
  end.

(** The cumulative loop of [RemoveAcknowledgedReliable]: it stops at a frame the
    window still retains; each iteration removes a frame. *)
Fixpoint remove_prefix (fuel : nat) (w : RetransmitWindow) (t : ReliableTable) (s : SourceIdentity)
    (highest : Z) : ReliableTable :=
  match fuel with
  | O => t
  | S fuel' =>
      match pending_reliable_sources_ t !! s ≫= map_begin with
      | None => t
      | Some (sequence, position) =>
          if highest <? sequence then t
          else if bool_decide (is_Some (Find w s sequence)) then t
          else remove_prefix fuel' w (RemovePendingReliableAt t position) s highest
      end
  end.
Definition RemoveAcknowledgedReliable (w : RetransmitWindow) (t : ReliableTable) (ack : AckPayload)
  : ReliableTable :=
  let highest := default 0 (highest_contiguous_sequence ack) in
  let t := match highest_contiguous_sequence ack with
           | Some h => remove_prefix (S (length (pending_reliable_ t))) w t (source ack) highest
           | None => t
           end in
  if bool_decide (disposition ack = kAccepted) && (highest <? observed_sequence ack)
  then match pending_reliable_index_ t !! mkEntryKey (source ack) (observed_sequence ack) with
       | Some position =>
           if bool_decide (Find w (source ack) (observed_sequence ack) = None)
           then RemovePendingReliableAt t position else t
       | None => t
       end
  else t.

(** The loop of [RemoveRetiredReliable] at position [i]. *)
Fixpoint remove_retired (n : nat) (w : RetransmitWindow) (t : ReliableTable) (i : nat) : ReliableTable :=
  match n, pending_reliable_ t !! i with
  | S n', Some p =>
      if bool_decide (is_Some (Find w (pr_source p) (pr_sequence p)))
      then remove_retired n' w t (S i)
      else remove_retired n' w (RemovePendingReliableAt t i) i
  | _, _ => t
  end.
Definition RemoveRetiredReliable (w : RetransmitWindow) (t : ReliableTable) : ReliableTable :=
  remove_retired (length (pending_reliable_ t)) w t 0.

(** ** The invariant *)

(** The entry of the window with the same key. *)
Definition shadow (p : PendingReliable) : RetransmitEntry := mkEntry (pr_source p) (pr_sequence p) 0 [].
Definition table_ok (t : ReliableTable) : Prop :=
  indexes_ok (shadow <$> pending_reliable_ t) (pending_reliable_index_ t) (pending_reliable_sources_ t).

Lemma empty_table_ok : table_ok empty_table.
Proof.
  split; [|done|done]. intros k i. cbn. rewrite lookup_empty. split; [done|]. intros (e & He & _).
  by rewrite lookup_nil in He.
Qed.

Lemma table_index t k i :
  table_ok t -> pending_reliable_index_ t !! k = Some i <->
  exists p, pending_reliable_ t !! i = Some p /\ pr_key p = k.
Proof.
  intros [Hk _ _]. rewrite (Hk k i : _ <-> _). split.
  - intros (e & He & Hke). rewrite list_lookup_fmap in He. apply fmap_Some in He as (p & Hp & ->).
    exists p. split; [done|]. exact Hke.
  - intros (p & Hp & Hkp). exists (shadow p). split; [by rewrite list_lookup_fmap, Hp|exact Hkp].
Qed.

Lemma find_pending_spec t s n p :
  table_ok t -> FindPendingReliable t s n = Some p <->
  p ∈ pending_reliable_ t /\ pr_key p = mkEntryKey s n.
Proof.
  intros Ht. unfold FindPendingReliable. split.
  - intros (i & Hi & Hp)%bind_Some. apply table_index in Hi as (q & Hq & Hk); [|done].
    assert (q = p) as -> by congruence. split; [by eapply list_elem_of_lookup_2|done].
  - intros [[i Hi]%list_elem_of_lookup Hk].
    assert (pending_reliable_index_ t !! mkEntryKey s n = Some i) as -> by (apply table_index; eauto). done.
Qed.

Lemma find_pending_in t s n :
  table_ok t -> is_Some (FindPendingReliable t s n) <->
  exists p, p ∈ pending_reliable_ t /\ pr_key p = mkEntryKey s n.
Proof.
  intros Ht. split.
  - intros [p Hp]. exists p. by apply find_pending_spec.
  - intros [p Hp]. exists p. by apply find_pending_spec.
Qed.

Lemma RemovePendingReliableAt_spec t i p :
  table_ok t -> pending_reliable_ t !! i = Some p ->
  table_ok (RemovePendingReliableAt t i) /\
  pending_reliable_ t ≡ₚ p :: pending_reliable_ (RemovePendingReliableAt t i) /\
  take i (pending_reliable_ (RemovePendingReliableAt t i)) = take i (pending_reliable_ t).
Proof.
  intros Ht Hi. unfold RemovePendingReliableAt. rewrite Hi.
  pose proof (lookup_lt_Some _ _ _ Hi) as Hlt. set (l := pending_reliable_ t) in *.
  destruct (lookup_lt_is_Some_2 l (Nat.pred (length l)) ltac:(lia)) as [moved Hm]. rewrite Hm.
  pose proof (remove_indexes _ _ _ i (shadow p) (shadow moved) Ht) as Hx.
  fold l in Hx. rewrite !list_lookup_fmap, length_fmap, Hi, Hm in Hx. specialize (Hx eq_refl eq_refl).
  cbv zeta in Hx. change (key_of (shadow ?x)) with (pr_key x) in Hx.
  rewrite <- list_fmap_insert, <- !fmap_take in Hx.
  destruct (decide (i <> Nat.pred (length l))) as [Hne|Heq].
  - rewrite bool_decide_true by done. split_and!; [done|by apply swap_remove_perm|]. cbn [pending_reliable_].
    rewrite take_take, Nat.min_l by lia. by apply take_insert_ge.
  - rewrite bool_decide_false by tauto. assert (i = Nat.pred (length l)) as Hi' by lia.
    split_and!; [done|cbn [pending_reliable_]; apply remove_last_perm; by rewrite <- Hi'|].
    cbn [pending_reliable_]. rewrite take_take. f_equal. lia.
Qed.

(** ** Following the window *)

Definition retained (w : RetransmitWindow) (p : PendingReliable) : Prop :=
  is_Some (Find w (pr_source p) (pr_sequence p)).

(** [t'] is [t] without some frames, none of which the window retains. *)
Record drops (w : RetransmitWindow) (t t' : ReliableTable) : Prop := {
  dr_ok : table_ok t';
  dr_sub : forall p, p ∈ pending_reliable_ t' -> p ∈ pending_reliable_ t;
  dr_kept : forall p, p ∈ pending_reliable_ t -> retained w p -> p ∈ pending_reliable_ t'
}.

Lemma drops_refl w t : table_ok t -> drops w t t.
Proof. by split. Qed.
Lemma drops_trans w t1 t2 t3 : drops w t1 t2 -> drops w t2 t3 -> drops w t1 t3.
Proof. intros [A1 A2 A3] [B1 B2 B3]. split; [done|eauto|eauto]. Qed.

Lemma drop_one w t i p :
  table_ok t -> pending_reliable_ t !! i = Some p -> ~ retained w p -> drops w t (RemovePendingReliableAt t i).
Proof.
  intros Ht Hi Hr. destruct (RemovePendingReliableAt_spec t i p Ht Hi) as (H1 & H2 & _).
  split; [done|intros q Hq; rewrite H2; by right|].
  intros q Hq Hqr. rewrite H2 in Hq. apply elem_of_cons in Hq as [->|]; done.
Qed.

(** The window and the table hold the same (source, sequence) pairs. *)
Definition in_step (w : RetransmitWindow) (t : ReliableTable) : Prop :=
  table_ok t /\ forall s n, is_Some (Find w s n) <-> is_Some (FindPendingReliable t s n).

(** Dropping until only retained frames remain brings the table in step. *)
Lemma drops_in_step w t t' :
  table_ok t -> drops w t t' ->
  (forall s n, is_Some (Find w s n) -> is_Some (FindPendingReliable t s n)) ->
  (forall p, p ∈ pending_reliable_ t' -> retained w p) -> in_step w t'.
Proof.
  intros Ht [D1 D2 D3] Hsub Hall. split; [done|]. intros s n. rewrite find_pending_in by done. split.
  - intros Hf. pose proof (Hsub s n Hf) as (p & Hp & Hk)%find_pending_in; [|done].
    exists p. split; [|done]. apply D3; [done|]. unfold retained. by injection Hk as -> ->.
  - intros (p & Hp & Hk). specialize (Hall p Hp). unfold retained in Hall. by injection Hk as <- <-.
Qed.

Lemma first_pending t s sequence position :
  table_ok t -> pending_reliable_sources_ t !! s ≫= map_begin = Some (sequence, position) ->
  (exists p, pending_reliable_ t !! position = Some p /\ pr_key p = mkEntryKey s sequence) /\
  forall p, p ∈ pending_reliable_ t -> pr_source p = s -> sequence <= pr_sequence p.
Proof.
  intros Ht (m & Hm & Hb)%bind_Some. pose proof (map_begin_spec m) as Hs. rewrite Hb in Hs.
  destruct Hs as [Hf Hmin]. pose proof (ix_source _ _ _ Ht) as Hix. split.
  - apply (table_index t); [done|]. rewrite <- Hix. unfold indexed. cbn [key_source key_sequence]. by rewrite Hm.
  - intros p [i Hi]%list_elem_of_lookup <-.
    assert (pending_reliable_index_ t !! pr_key p = Some i) as Hk by (apply table_index; eauto).
    rewrite <- Hix in Hk. unfold indexed in Hk. cbn [pr_key key_source key_sequence] in Hk.
    rewrite Hm in Hk. by eapply Hmin.
Qed.

Lemma no_pending_source t s :
  table_ok t -> pending_reliable_sources_ t !! s ≫= map_begin = None ->
  forall p, p ∈ pending_reliable_ t -> pr_source p <> s.
Proof.
  intros Ht Hb p [i Hi]%list_elem_of_lookup <-.
  assert (pending_reliable_index_ t !! pr_key p = Some i) as Hk by (apply table_index; eauto).
  rewrite <- (ix_source _ _ _ Ht) in Hk. unfold indexed in Hk. cbn [pr_key key_source key_sequence] in Hk.
  apply bind_Some in Hk as (m & Hm & Hmi). rewrite Hm in Hb. cbn in Hb.
  pose proof (map_begin_spec m) as Hs. rewrite Hb in Hs. by subst m.
Qed.

Lemma remove_prefix_spec w s h fuel : forall t,
  table_ok t -> (forall n, n <= h -> Find w s n = None) -> (length (pending_reliable_ t) < fuel)%nat ->
  drops w t (remove_prefix fuel w t s h) /\
  forall p, p ∈ pending_reliable_ (remove_prefix fuel w t s h) -> pr_source p = s -> h < pr_sequence p.
Proof.
  induction fuel as [|fuel IH]; intros t Ht Hw Hf; [lia|]. cbn [remove_prefix].
  destruct (pending_reliable_sources_ t !! s ≫= map_begin) as [[q i]|] eqn:Eb.
  2:{ split; [by apply drops_refl|]. intros p Hp Hs. by apply (no_pending_source t s Ht Eb p) in Hp. }
  destruct (first_pending t s q i Ht Eb) as [(p & Hp & Hk) Hmin]. injection Hk as Hs Hq.
  destruct (Z.ltb_spec h q).
  { split; [by apply drops_refl|]. intros x Hx Hxs. specialize (Hmin x Hx Hxs). lia. }
  rewrite bool_decide_false by (rewrite Hw by lia; by intros []).
  assert (~ retained w p) as Hr by (unfold retained; rewrite Hs, Hq, Hw by lia; by intros []).
  pose proof (drop_one w t i p Ht Hp Hr) as Hd.
  destruct (RemovePendingReliableAt_spec t i p Ht Hp) as (R1 & R2 & _).
  destruct (IH (RemovePendingReliableAt t i) R1 Hw) as [I1 I2].
  { apply Permutation_length in R2. cbn [length] in R2. lia. }
  split; [by eapply drops_trans|done].
Qed.

(** After [ApplyAck] has taken the acknowledged frames out of the window, the table
    follows. *)
Lemma RemoveAcknowledgedReliable_spec w t ack :
  table_ok t -> (forall s n, is_Some (Find w s n) -> is_Some (FindPendingReliable t s n)) ->
  (forall h n, highest_contiguous_sequence ack = Some h -> n <= h -> Find w (source ack) n = None) ->
  (forall p, p ∈ pending_reliable_ t -> retained w p \/ pr_source p = source ack /\
     ((exists h, highest_contiguous_sequence ack = Some h /\ pr_sequence p <= h) \/
      disposition ack = kAccepted /\ pr_sequence p = observed_sequence ack /\ 0 < observed_sequence ack)) ->
  in_step w (RemoveAcknowledgedReliable w t ack).
Proof.
  intros Ht Hsub Hhigh Hall. unfold RemoveAcknowledgedReliable. cbv zeta.
  set (t1 := match highest_contiguous_sequence ack with Some h => _ | None => t end).
  assert (drops w t t1 /\ forall p, p ∈ pending_reliable_ t1 -> retained w p \/
    disposition ack = kAccepted /\ pr_key p = mkEntryKey (source ack) (observed_sequence ack) /\
    default 0 (highest_contiguous_sequence ack) < observed_sequence ack) as [H1 H2].
  { unfold t1. destruct (highest_contiguous_sequence ack) as [h|] eqn:Eh; cbn [from_option id].
    - destruct (remove_prefix_spec w (source ack) h (S (length (pending_reliable_ t))) t Ht
        (fun n => Hhigh h n eq_refl) ltac:(lia)) as [P1 P2]. split; [done|]. intros p Hp.
      destruct (Hall p (dr_sub _ _ _ P1 p Hp)) as [|[Hs [(h' & [= <-] & Hle)|(Hd & Ho & _)]]]; [by left| |].
      + specialize (P2 p Hp Hs). lia.
      + right. split_and!; [done|unfold pr_key; congruence|]. specialize (P2 p Hp Hs). lia.
    - split; [by apply drops_refl|]. intros p Hp.
      destruct (Hall p Hp) as [|[Hs [(h' & [=] & _)|(Hd & Ho & Hpos)]]]; [by left|].
      right. split_and!; [done|unfold pr_key; congruence|lia]. }
  assert (table_ok t1) as Ht1 by apply H1.
  destruct (bool_decide (disposition ack = kAccepted) && _) eqn:Ea.
  2:{ apply (drops_in_step w t); try done. intros p Hp. destruct (H2 p Hp) as [|(Hd & _ & Hlt)]; [done|].
      apply andb_false_iff in Ea as [Ea|Ea]; bool_to_prop; [done|lia]. }
  clear Ea.
  destruct (pending_reliable_index_ t1 !! _) as [i|] eqn:Ei.
  - pose proof Ei as (p & Hp & Hk)%table_index; [|done]. case_bool_decide as Ef.
    + assert (~ retained w p) as Hr by (unfold retained; injection Hk as -> ->; rewrite Ef; by intros []).
      pose proof (drop_one w t1 i p Ht1 Hp Hr) as Hd. apply (drops_in_step w t); try done; [by eapply drops_trans|].
      intros q Hq. destruct (H2 q (dr_sub _ _ _ Hd q Hq)) as [|(_ & Hkq & _)]; [done|exfalso].
      destruct (RemovePendingReliableAt_spec t1 i p Ht1 Hp) as (R1 & R2 & _).
      assert (NoDup (pr_key <$> pending_reliable_ t1)) as Hnd.
      { apply NoDup_alt. intros a b k Ha Hb. rewrite list_lookup_fmap in Ha, Hb.
        apply fmap_Some in Ha as (x & Hx & ->). apply fmap_Some in Hb as (y & Hy & Hxy).
        eapply (index_exact_inj _ _ a b (shadow x) (shadow y) (ix_key _ _ _ Ht1));
          [by rewrite list_lookup_fmap, Hx|by rewrite list_lookup_fmap, Hy|done]. }
      rewrite R2 in Hnd. cbn [fmap list_fmap] in Hnd. apply list.NoDup_cons in Hnd as [Hnin _]. apply Hnin.
      apply list_elem_of_fmap. exists q. split; [congruence|done].
    + apply (drops_in_step w t); try done. intros q Hq. destruct (H2 q Hq) as [|(_ & Hkq & _)]; [done|].
      unfold retained. injection Hkq as -> ->. by apply not_eq_None_Some.
  - apply (drops_in_step w t); try done. intros q Hq. destruct (H2 q Hq) as [|(_ & Hkq & _)]; [done|exfalso].
    apply list_elem_of_lookup in Hq as [j Hj].
    assert (pending_reliable_index_ t1 !! pr_key q = Some j) as Hj' by (apply table_index; eauto). congruence.
Qed.

Lemma remove_retired_spec w n : forall t i,
  table_ok t -> (length (pending_reliable_ t) - i <= n)%nat ->
  Forall (retained w) (take i (pending_reliable_ t)) ->
  drops w t (remove_retired n w t i) /\ Forall (retained w) (pending_reliable_ (remove_retired n w t i)).
Proof.
  assert (forall t i, table_ok t -> pending_reliable_ t !! i = None ->
    Forall (retained w) (take i (pending_reliable_ t)) ->
    drops w t t /\ Forall (retained w) (pending_reliable_ t)) as Hdone.
  { intros t i Ht Hi%lookup_ge_None Hf. split; [by apply drops_refl|]. by rewrite take_ge in Hf. }
  induction n as [|n IH]; intros t i Ht Hn Hf; cbn [remove_retired].
  { eapply Hdone; [done| |exact Hf]. apply lookup_ge_None. lia. }
  destruct (pending_reliable_ t !! i) as [p|] eqn:Ei; [|by eapply Hdone].
  pose proof (lookup_lt_Some _ _ _ Ei). fold (retained w p). case_bool_decide as Hr.
  - apply IH; [done|lia|]. rewrite (take_S_r _ _ _ Ei). apply Forall_app. split; [done|by repeat constructor].
  - destruct (RemovePendingReliableAt_spec t i p Ht Ei) as (R1 & R2 & R3).
    destruct (IH (RemovePendingReliableAt t i) i R1) as [I1 I2].
    + apply Permutation_length in R2. cbn [length] in R2. lia.
    + by rewrite R3.
    + split; [|done]. eapply drops_trans; [by eapply drop_one|done].
Qed.

Lemma RemoveRetiredReliable_spec w t :
  table_ok t -> (forall s n, is_Some (Find w s n) -> is_Some (FindPendingReliable t s n)) ->
  in_step w (RemoveRetiredReliable w t).
Proof.
  intros Ht Hsub. destruct (remove_retired_spec w (length (pending_reliable_ t)) t 0 Ht ltac:(lia) ltac:(constructor))
    as [H1 H2]. apply (drops_in_step w t); try done. by apply Forall_elem.
Qed.

(** ** Adding a frame *)

Lemma AddPendingReliable_spec t p fault :
  table_ok t ->
  match AddPendingReliable t p fault with
  | (t', Ok _) => table_ok t' /\ pending_reliable_ t' = pending_reliable_ t ++ [p] /\
      FindPendingReliable t (pr_source p) (pr_sequence p) = None
  | (t', Err _) => t' = t
  end.
Proof.
  intros Ht. unfold AddPendingReliable. cbv zeta.
  destruct (decide (is_Some (pending_reliable_index_ t !! pr_key p))) as [Hk|Hk];
    [by rewrite bool_decide_true|rewrite bool_decide_false by done].
  rewrite <- eq_None_not_Some in Hk.
  assert (indexed (pending_reliable_sources_ t) (pr_key p) = None) as Hs by (by rewrite (ix_source _ _ _ Ht)).
  fold (with_bucket (pending_reliable_sources_ t) (pr_source p)).
  rewrite (bucket_lookup _ _ _ Hs), Hk, rollback_bucket, !(bool_decide_true (None = None)) by done.
  rewrite (rollback_sequence _ _ _ _ Hs). cbn [negb orb].
  assert (t = mkTable (pending_reliable_ t) (pending_reliable_index_ t) (pending_reliable_sources_ t)) as Hid
    by by destruct t.
  repeat (case_bool_decide; [done|]). split_and!.
  - unfold table_ok. cbn [pending_reliable_ pending_reliable_index_ pending_reliable_sources_].
    rewrite fmap_app. cbn [fmap list_fmap]. rewrite <- (length_fmap shadow (pending_reliable_ t)).
    apply (insert_indexes _ _ _ (shadow p) Ht). exact Hk.
  - done.
  - unfold FindPendingReliable. fold (pr_key p). by rewrite Hk.
Qed.

Lemma find_pending_added t t' p s n :
  table_ok t -> table_ok t' -> pending_reliable_ t' = pending_reliable_ t ++ [p] ->
  is_Some (FindPendingReliable t' s n) <->
  is_Some (FindPendingReliable t s n) \/ s = pr_source p /\ n = pr_sequence p.
Proof.
  intros Ht Ht' He. rewrite !find_pending_in, He by done. split.
  - intros (q & [Hq|Hq%list_elem_of_singleton]%elem_of_app & Hk); [left; by exists q|right].
    subst q. by injection Hk as -> ->.
  - intros [(q & Hq & Hk)|[-> ->]]; [exists q|exists p]; rewrite elem_of_app; (split; [|done]).
    + by left.
    + right. by apply list_elem_of_singleton.
Qed.
