(* ===== verification/SendAttempts.v ===== *)
(** * Send attempts

    Models [attempts_] and [attempt_operations_] of
    [mino/bridge/bridge_pipeline.cc]: the ordered map of the transport operations in
    flight and its reverse index, [AddAttempt] with its rollbacks, [RemoveAttempt],
    [FindAttempt], [RetireAcknowledgedAttempts], the retry marking of [HandleAck]
    and the handling of one completion of [DrainCompletions].  The driver's answer to
    [ConfirmRemoteAccepted] is an input. *)
From stdpp Require Import sorting.
From S2P Require Import Prelude SourceIdentity ControlPayload RetransmitWindow.

Record SendOperation : Set := mkOperation { operation_id : Z; connection_id : Z }.
#[export] Instance SendOperation_eq_dec : EqDecision SendOperation.
Proof. solve_decision. Defined.
#[export] Instance SendOperation_countable : Countable SendOperation.
Proof.
  refine (inj_countable' (fun o => (operation_id o, connection_id o)) (fun '(i, c) => mkOperation i c) _).
  by intros [].
Defined.

Record Attempt : Set := mkAttempt {
  at_source : SourceIdentity; at_sequence : Z; operation : SendOperation; retry_requested : bool
}.

Record AttemptKey : Set := mkAttemptKey {
  ak_source : SourceIdentity; ak_sequence : Z; ak_connection_id : Z; ak_operation_id : Z
}.
#[export] Instance AttemptKey_eq_dec : EqDecision AttemptKey.
Proof. solve_decision. Defined.
#[export] Instance AttemptKey_countable : Countable AttemptKey.
Proof.
  refine (inj_countable' (fun k => (ak_source k, ak_sequence k, ak_connection_id k, ak_operation_id k))
            (fun '(s, n, c, o) => mkAttemptKey s n c o) _).
  by intros [].
Defined.

Record AttemptTable : Set := mkAttempts {
  attempts_ : gmap AttemptKey Attempt;
  attempt_operations_ : gmap SendOperation AttemptKey
}.

(** [AttemptKeyLess] *)
Definition AttemptKeyLess (left right : AttemptKey) : bool :=
  let l := ak_source left in
  let r := ak_source right in
  if negb (node_id l =? node_id r) then node_id l <? node_id r
  else if negb (publisher_id l =? publisher_id r) then publisher_id l <? publisher_id r
  else if negb (publisher_epoch l =? publisher_epoch r) then publisher_epoch l <? publisher_epoch r
  else if negb (ak_sequence left =? ak_sequence right) then ak_sequence left <? ak_sequence right
  else if negb (ak_connection_id left =? ak_connection_id right)
  then ak_connection_id left <? ak_connection_id right
  else ak_operation_id left <? ak_operation_id right.

(** The keys of a range of the [std::map], in the map's order. *)
Fixpoint insert_key (k : AttemptKey) (l : list AttemptKey) : list AttemptKey :=
  match l with
  | [] => [k]
  | x :: rest => if AttemptKeyLess k x then k :: l else x :: insert_key k rest
  end.
Definition range (t : AttemptTable) (inside : AttemptKey -> bool) : list AttemptKey :=
  foldr insert_key [] (filter (fun k => inside k = true) (map_to_list (attempts_ t)).*1).

Definition attempt_key (a : Attempt) : AttemptKey :=
  mkAttemptKey (at_source a) (at_sequence a) (connection_id (operation a)) (operation_id (operation a)).

(** Which insertion of [AddAttempt] throws. *)
Inductive AttemptFault : Set := NoAttemptFault | MapFault | OperationFault.
#[export] Instance AttemptFault_eq_dec : EqDecision AttemptFault.
Proof. solve_decision. Defined.

Definition no_attempt_memory : Status := Resource "bridge pipeline allocation failed".

Definition AddAttempt (t : AttemptTable) (a : Attempt) (fault : AttemptFault) : AttemptTable * Result unit :=
  let key := attempt_key a in
  if bool_decide (fault = MapFault) then (t, Err no_attempt_memory)
  else match attempts_ t !! key with
  | Some _ => (t, Err (mkStatus kAlreadyExists "bridge send attempt already exists"))
  | None =>
      let inserted := <[key := a]> (attempts_ t) in
      let undone := mkAttempts (delete key inserted) (attempt_operations_ t) in
      if bool_decide (fault = OperationFault) then (undone, Err no_attempt_memory)
      else match attempt_operations_ t !! operation a with
      | Some _ => (undone, Err (mkStatus kAlreadyExists "bridge send operation already exists"))
      | None => (mkAttempts inserted (<[operation a := key]> (attempt_operations_ t)), Ok tt)
      end
  end.

Definition RemoveAttempt (t : AttemptTable) (key : AttemptKey) : AttemptTable :=
  match attempts_ t !! key with
  | None => t
  | Some a => mkAttempts (delete key (attempts_ t)) (delete (operation a) (attempt_operations_ t))
  end.

Definition FindAttempt (t : AttemptTable) (s : SourceIdentity) (n connection : Z) : option AttemptKey :=
  head (filter (fun k => ak_connection_id k = connection)
    (range t (fun k => bool_decide (ak_source k = s) && (ak_sequence k =? n)))).

(** The lambda [retire]. *)
Definition retire (t : AttemptTable) (current_connection : Z) (confirm : SendOperation -> Result unit)
    (key : AttemptKey) : AttemptTable * Result unit :=
  match attempts_ t !! key with
  | None => (t, Ok tt)
  | Some a =>
      match confirm (operation a) with
      | Ok _ => (RemoveAttempt t key, Ok tt)
      | Err e =>
          if negb (bool_decide (code e = kNotFound)) then (t, Err e)
          else if negb (connection_id (operation a) =? current_connection) then (t, Ok tt)
          else (RemoveAttempt t key, Ok tt)
      end
  end.
Fixpoint retire_all (t : AttemptTable) (current_connection : Z) (confirm : SendOperation -> Result unit)
    (keys : list AttemptKey) : AttemptTable * Result unit :=
  match keys with
  | [] => (t, Ok tt)
  | k :: rest =>
      match retire t current_connection confirm k with
      | (t, Err e) => (t, Err e)
      | (t, Ok _) => retire_all t current_connection confirm rest
      end
  end.

Definition RetireAcknowledgedAttempts (t : AttemptTable) (current_connection : Z)
    (confirm : SendOperation -> Result unit) (ack : AckPayload) : AttemptTable * Result unit :=
  let highest := default 0 (highest_contiguous_sequence ack) in
  let '(t, r) :=
    match highest_contiguous_sequence ack with
    | Some _ => retire_all t current_connection confirm
        (range t (fun k => bool_decide (ak_source k = source ack) && (ak_sequence k <=? highest)))
    | None => (t, Ok tt)
    end in
  match r with
  | Err e => (t, Err e)
  | Ok _ =>
      if bool_decide (disposition ack = kAccepted) && (highest <? observed_sequence ack)
      then retire_all t current_connection confirm
        (range t (fun k => bool_decide (ak_source k = source ack)
                           && (ak_sequence k =? observed_sequence ack)))
      else (t, Ok tt)
  end.

(** The retry marking of [HandleAck] for a NACK: every attempt of the source above
    the mark, on the current connection, whose frame is still retained. *)
Definition to_retry (w : RetransmitWindow) (current_connection : Z) (ack : AckPayload) (k : AttemptKey)
    (a : Attempt) : bool :=
  let highest := default 0 (highest_contiguous_sequence ack) in
  bool_decide (ak_source k = source ack) && (connection_id (operation a) =? current_connection)
  && (highest <? at_sequence a) && bool_decide (is_Some (Find w (at_source a) (at_sequence a))).
Definition request_retries (w : RetransmitWindow) (t : AttemptTable) (current_connection : Z)
    (ack : AckPayload) : AttemptTable * bool :=
  let mark k a := if to_retry w current_connection ack k a
                  then mkAttempt (at_source a) (at_sequence a) (operation a) true else a in
  (mkAttempts (map_imap (fun k a => Some (mark k a)) (attempts_ t)) (attempt_operations_ t),
   existsb (fun '(k, a) => to_retry w current_connection ack k a) (map_to_list (attempts_ t))).

(** One completion of [DrainCompletions]: the table, and whether it is a failure on
    the current connection. *)
Definition complete (t : AttemptTable) (current_connection : Z) (op : SendOperation) (status : Result unit)
  : AttemptTable * bool :=
  match attempt_operations_ t !! op with
  | None => (t, false)
  | Some key =>
      match attempts_ t !! key with
      | Some _ => (RemoveAttempt t key, negb (is_ok status) && (connection_id op =? current_connection))
      | None => (mkAttempts (attempts_ t) (delete op (attempt_operations_ t)), false)
      end
  end.

(** ** The invariant: the two maps are inverse to each other *)

Record attempts_ok (t : AttemptTable) : Prop := {
  ao_attempt : forall k a, attempts_ t !! k = Some a ->
    k = attempt_key a /\ attempt_operations_ t !! operation a = Some k;
  ao_operation : forall op k, attempt_operations_ t !! op = Some k ->
    exists a, attempts_ t !! k = Some a /\ operation a = op
}.

Lemma attempts_empty_ok : attempts_ok (mkAttempts ∅ ∅).
Proof. split; intros ? ?; cbn [attempts_ attempt_operations_]; by rewrite lookup_empty. Qed.

Lemma AddAttempt_spec t a fault :
  attempts_ok t ->
  match AddAttempt t a fault with
  | (t', Ok _) => attempts_ok t' /\ attempts_ t !! attempt_key a = None /\
      attempts_ t' = <[attempt_key a := a]> (attempts_ t)
  | (t', Err _) => t' = t
  end.
Proof.
  intros [H1 H2]. unfold AddAttempt. cbv zeta. case_bool_decide; [done|].
  destruct (attempts_ t !! attempt_key a) eqn:Ek; [done|].
  rewrite delete_insert_id by done. assert (mkAttempts (attempts_ t) (attempt_operations_ t) = t) as Hid by by destruct t.
  case_bool_decide; [done|]. destruct (attempt_operations_ t !! operation a) eqn:Eo; [done|].
  split_and!; [|done|done]. split; cbn [attempts_ attempt_operations_].
  - intros k b [[<- <-]|[Hne Hb]]%lookup_insert_Some; [by rewrite lookup_insert_eq|].
    destruct (H1 k b Hb) as [-> Hop]. split; [done|]. rewrite lookup_insert_ne; [done|]. congruence.
  - intros op k [[<- <-]|[Hne Hk]]%lookup_insert_Some; [exists a; by rewrite lookup_insert_eq|].
    destruct (H2 op k Hk) as (b & Hb & Hop). exists b. rewrite lookup_insert_ne; [done|]. congruence.
Qed.

Lemma RemoveAttempt_spec t k :
  attempts_ok t -> attempts_ok (RemoveAttempt t k) /\ attempts_ (RemoveAttempt t k) = delete k (attempts_ t).
Proof.
  intros [H1 H2]. unfold RemoveAttempt. destruct (attempts_ t !! k) as [a|] eqn:E.
  2:{ split; [by split|]. by rewrite delete_id. }
  destruct (H1 k a E) as [Hk Ha]. split; [|done]. split; cbn [attempts_ attempt_operations_].
  - intros k' b [Hne Hb]%lookup_delete_Some. destruct (H1 k' b Hb) as [-> Hop]. split; [done|].
    rewrite lookup_delete_ne; [done|]. congruence.
  - intros op k' [Hne Hop]%lookup_delete_Some. destruct (H2 op k' Hop) as (b & Hb & Hbo).
    exists b. split; [|done]. rewrite lookup_delete_ne; [done|]. intros <-. congruence.
Qed.

Lemma retire_spec t conn confirm k :
  attempts_ok t ->
  let t' := (retire t conn confirm k).1 in
  attempts_ok t' /\ (attempts_ t' = attempts_ t \/ attempts_ t' = delete k (attempts_ t)).
Proof.
  intros Ht. unfold retire. destruct (attempts_ t !! k); [|by split; [|left]].
  destruct (RemoveAttempt_spec t k Ht) as [R1 R2].
  destruct (confirm _); [by split; [|right]|]. destruct (negb _); [by split; [|left]|].
  destruct (negb _); [by split; [|left]|by split; [|right]].
Qed.

(** Retiring removes only attempts of the range. *)
Lemma retire_all_spec conn confirm keys : forall t,
  attempts_ok t ->
  let t' := (retire_all t conn confirm keys).1 in
  attempts_ok t' /\ (forall k a, attempts_ t' !! k = Some a -> attempts_ t !! k = Some a) /\
  (forall k a, attempts_ t !! k = Some a -> k ∉ keys -> attempts_ t' !! k = Some a).
Proof.
  induction keys as [|k keys IH]; intros t Ht; cbn [retire_all]; [done|].
  destruct (retire_spec t conn confirm k Ht) as [R1 R2].
  destruct (retire t conn confirm k) as [t1 [u|e]]; cbn [fst] in *.
  - destruct (IH t1 R1) as (I1 & I2 & I3). split_and!; [done|..].
    + intros x a Hx%I2. destruct R2 as [R2|R2]; rewrite R2 in Hx; [done|]. by apply lookup_delete_Some in Hx as [_ ?].
    + intros x a Hx Hnin. apply I3; [|set_solver]. destruct R2 as [-> | ->]; [done|].
      rewrite lookup_delete_ne; [done|]. set_solver.
  - split_and!; [done|..].
    + intros x a Hx. destruct R2 as [R2|R2]; rewrite R2 in Hx; [done|]. by apply lookup_delete_Some in Hx as [_ ?].
    + intros x a Hx Hnin. destruct R2 as [-> | ->]; [done|]. rewrite lookup_delete_ne; [done|]. set_solver.
Qed.

Lemma RetireAcknowledgedAttempts_ok t conn confirm ack :
  attempts_ok t -> attempts_ok (RetireAcknowledgedAttempts t conn confirm ack).1.
Proof.
  intros Ht. unfold RetireAcknowledgedAttempts. cbv zeta.
  set (first := match highest_contiguous_sequence ack with Some _ => _ | None => _ end).
  assert (attempts_ok first.1) as Hf by (unfold first; destruct (highest_contiguous_sequence ack); [by apply retire_all_spec|done]).
  destruct first as [t1 [u|e]]; [|done]. destruct (_ && _); [by apply retire_all_spec|done].
Qed.

Lemma request_retries_ok w t conn ack : attempts_ok t -> attempts_ok (request_retries w t conn ack).1.
Proof.
  intros [H1 H2]. split; cbn [attempts_ attempt_operations_ request_retries fst].
  - intros k a. rewrite map_lookup_imap. intros (b & Hb & [= <-])%bind_Some. destruct (H1 k b Hb) as [-> Hop].
    by destruct (to_retry _ _ _ _ _).
  - intros op k Hop. destruct (H2 op k Hop) as (b & Hb & Hbo).
    rewrite map_lookup_imap, Hb. cbn. eexists. split; [done|]. by destruct (to_retry _ _ _ _ _).
Qed.

Lemma complete_ok t conn op status : attempts_ok t -> attempts_ok (complete t conn op status).1.
Proof.
  intros Ht. unfold complete. destruct (attempt_operations_ t !! op) as [k|] eqn:E; [|done].
  destruct (ao_operation _ Ht op k E) as (a & -> & _). by apply RemoveAttempt_spec.
Qed.
