(* ===== verification/BridgeSender.v ===== *)
(** * The sending half of the bridge pipeline

    Models the reliable path of [mino/bridge/bridge_pipeline.cc] on the sending
    side: admitting a frame ([SendData]), [HandleAck], [HandleHello], the handling
    of completions and the retention limit of [Pump].  The state is the
    retransmission window, the table of logical frames and the table of send
    attempts; the theorems show that the three stay in step.  The transport driver's
    answers are inputs. *)
From S2P Require Import Prelude SourceIdentity Bytes WireFrame ControlPayload RetransmitWindow PendingReliable.
From S2P Require Import SendAttempts.

Record Sender : Set := mkSender {
  local_session_epoch : Z;
  remote_session_epoch : Z;
  sender_lane_index : Z;
  sender_lane_count : Z;
  connection_id_ : Z;
  retransmit_ : RetransmitWindow;
  table_ : ReliableTable;
  sends_ : AttemptTable;
  hello_sent_ : bool;
  hello_received_ : bool;
  enable_aead_ : bool;
  aead_ready_ : bool;
  session_ready_ : bool;
  peer_dedup_state_lost_ : bool;
  resend_pending_ : bool
}.

Definition set_tables (st : Sender) (w : RetransmitWindow) (t : ReliableTable) (a : AttemptTable)
    (resend : bool) : Sender :=
  mkSender (local_session_epoch st) (remote_session_epoch st) (sender_lane_index st) (sender_lane_count st)
    (connection_id_ st) w t a (hello_sent_ st) (hello_received_ st) (enable_aead_ st) (aead_ready_ st)
    (session_ready_ st)
    (peer_dedup_state_lost_ st) resend.
Definition set_session (st : Sender) (received ready lost : bool) : Sender :=
  mkSender (local_session_epoch st) (remote_session_epoch st) (sender_lane_index st) (sender_lane_count st)
    (connection_id_ st) (retransmit_ st) (table_ st) (sends_ st) (hello_sent_ st) received (enable_aead_ st)
    (aead_ready_ st) ready lost (resend_pending_ st).
Definition set_sends (st : Sender) (a : AttemptTable) : Sender :=
  set_tables st (retransmit_ st) (table_ st) a (resend_pending_ st).
Definition set_resend (st : Sender) (resend : bool) : Sender :=
  set_tables st (retransmit_ st) (table_ st) (sends_ st) resend.

Definition SourceBelongsToLane (s : SourceIdentity) (lane count : Z) : bool :=
  BridgeLaneFor s count =? lane.

Definition UpdateSessionReady (st : Sender) : Sender :=
  set_session st (hello_received_ st) (hello_sent_ st && hello_received_ st
    && (negb (enable_aead_ st) || aead_ready_ st))
    (peer_dedup_state_lost_ st).

(** The common part of [HandleAck] and [HandleHello]: [ApplyAck], then
    [RemoveAcknowledgedReliable]. *)
Definition apply_ack (st : Sender) (ack : AckPayload) : Sender * Result unit :=
  let '(w, applied) := ApplyAck (retransmit_ st) ack in
  match applied with
  | Err e => (set_tables st w (table_ st) (sends_ st) (resend_pending_ st), Err e)
  | Ok _ => (set_tables st w (RemoveAcknowledgedReliable w (table_ st) ack) (sends_ st) (resend_pending_ st), Ok tt)
  end.

Definition retire_attempts (st : Sender) (confirm : SendOperation -> Result unit) (ack : AckPayload)
  : Sender * Result unit :=
  let '(a, r) := RetireAcknowledgedAttempts (sends_ st) (connection_id_ st) confirm ack in
  (set_sends st a, r).

Definition HandleAck (st : Sender) (payload : list byte) (confirm : SendOperation -> Result unit)
  : Sender * Result unit :=
  match DecodeAck payload with
  | Err e => (st, Err e)
  | Ok ack =>
      if negb (SourceBelongsToLane (source ack) (sender_lane_index st) (sender_lane_count st))
      then (st, Err (Corruption "bridge ACK source belongs to another lane"))
      else
        match apply_ack st ack with
        | (st, Err e) => (st, Err e)
        | (st, Ok _) =>
            let st :=
              if bool_decide (disposition ack = kNackWithHighest)
              then let '(a, some) := request_retries (retransmit_ st) (sends_ st) (connection_id_ st) ack in
                   set_resend (set_sends st a) (some || resend_pending_ st)
              else st in
            retire_attempts st confirm ack
        end
  end.

Definition resume_ack (st : Sender) (s : SessionHelloSource) : AckPayload :=
  mkAck (remote_session_epoch st) (local_session_epoch st) (hello_source s) 0
    (Some (last_accepted_sequence s)) kAccepted.

(** The loop of [HandleHello] over the sources of the hello. *)
Fixpoint resume_all (st : Sender) (confirm : SendOperation -> Result unit) (l : list SessionHelloSource)
  : Sender * Result unit :=
  match l with
  | [] => (st, Ok tt)
  | s :: rest =>
      let ack := resume_ack st s in
      match apply_ack st ack with
      | (st, Err e) => (st, Err e)
      | (st, Ok _) =>
          match retire_attempts st confirm ack with
          | (st, Err e) => (st, Err e)
          | (st, Ok _) => resume_all st confirm rest
          end
      end
  end.

Definition HandleHello (st : Sender) (payload : list byte) (limits : ControlPayloadLimits)
    (confirm : SendOperation -> Result unit) : Sender * Result unit :=
  match DecodeSessionHello payload limits with
  | Err e => (st, Err e)
  | Ok hello =>
      if negb (hello_sender_epoch hello =? remote_session_epoch st)
         || negb (hello_receiver_epoch hello =? local_session_epoch st)
      then (st, Err (Corruption "session hello epoch fencing failed"))
      else if negb (forallb (fun s => SourceBelongsToLane (hello_source s) (sender_lane_index st)
                                        (sender_lane_count st)) (sources hello))
      then (st, Err (Corruption "session hello source belongs to another lane"))
      else
        let st := set_session st (hello_received_ st) (session_ready_ st) (dedup_state_lost hello) in
        let '(st, r) := if dedup_state_lost hello then (st, Ok tt)
                        else resume_all st confirm (sources hello) in
        match r with
        | Err e => (st, Err e)
        | Ok _ =>
            let t := RemoveRetiredReliable (retransmit_ st) (table_ st) in
            let st := set_tables st (retransmit_ st) t (sends_ st)
                        (negb (length (entries_ (retransmit_ st)) =? 0)%nat) in
            let st := set_session st true (session_ready_ st) (peer_dedup_state_lost_ st) in
            (UpdateSessionReady st, Ok tt)
        end
  end.

(** What the driver and the allocator answer while a reliable frame is admitted. *)
Record AdmitAnswers : Set := mkAdmit {
  confirms_remote : bool;
  table_fault : AddFault;
  window_fault : AddFault;
  send_answer : Result SendOperation;
  attempt_fault : AttemptFault
}.

(** [pending->transmitted = true] *)
Definition mark_transmitted (t : ReliableTable) (s : SourceIdentity) (n : Z) : ReliableTable :=
  match pending_reliable_index_ t !! mkEntryKey s n with
  | None => t
  | Some i => mkTable (alter (fun p => mkPendingReliable (pr_source p) (pr_sequence p) (outbound p) true) i
                         (pending_reliable_ t)) (pending_reliable_index_ t) (pending_reliable_sources_ t)
  end.

(** The reliable branch of [SendData] for an encoded frame: the state, the status
    and whether the pipeline has taken the frame over. *)
Definition admit_reliable (st : Sender) (s : SourceIdentity) (frame : WireFrame) (body : list byte)
    (now_ns : Z) (a : AdmitAnswers) : Sender * Result unit * bool :=
  let o := options_ (retransmit_ st) in
  let n := sequence_num (header frame) in
  let would_block m := Err (mkStatus kWouldBlock m) in
  if negb (confirms_remote a)
  then (st, Err (Unsupported "reliable Bridge requires remote ACK confirmation"), false)
  else if max_bytes o <? zlen body
  then (st, Err (Resource "encoded frame exceeds retransmit byte limit"), false)
  else if max_entries o <=? Z.of_nat (size (attempts_ (sends_ st)))
  then (st, would_block "retired send attempts await completion", false)
  else if (max_entries o <=? zlen (entries_ (retransmit_ st)))
          || (max_bytes o - bytes_ (retransmit_ st) <? zlen body)
  then (st, would_block "retransmit window is full", false)
  else
    match AddPendingReliable (table_ st) (mkPendingReliable s n frame false) (table_fault a) with
    | (t, Err e) => (set_tables st (retransmit_ st) t (sends_ st) (resend_pending_ st), Err e, false)
    | (t, Ok _) =>
        match Add (retransmit_ st) s n body now_ns (window_fault a) with
        | (w, Err e) =>
            let t := match pending_reliable_index_ t !! mkEntryKey s n with
                     | Some i => RemovePendingReliableAt t i | None => t end in
            (set_tables st w t (sends_ st) (resend_pending_ st), Err e, false)
        | (w, Ok _) =>
            match FindPendingReliable t s n with
            | None => (set_tables st w t (sends_ st) (resend_pending_ st),
                       Err (Corruption "admitted reliable frame lost its logical index"), false)
            | Some _ =>
                match send_answer a with
                | Err e => (set_tables st w t (sends_ st) true, Err e, true)
                | Ok op =>
                    let '(sends, added) := AddAttempt (sends_ st) (mkAttempt s n op false) (attempt_fault a) in
                    (set_tables st w (mark_transmitted t s n) sends (resend_pending_ st), added, true)
                end
            end
        end
    end.

(** One completion ([DrainCompletions]). *)
Definition handle_completion (st : Sender) (op : SendOperation) (status : Result unit) : Sender :=
  let '(a, failed) := complete (sends_ st) (connection_id_ st) op status in
  if failed
  then set_session (set_resend (set_sends st a) true) (hello_received_ st) false (peer_dedup_state_lost_ st)
  else set_sends st a.

(** The retention limit at the end of [Pump]: [close] is the driver's answer. *)
Definition expire_retention (st : Sender) (now_ns : Z) (close : Result unit) : Sender * Result unit :=
  let '(w, expired) := PurgeExpired (retransmit_ st) now_ns in
  let st := set_tables st w (table_ st) (sends_ st) (resend_pending_ st) in
  if expired =? 0 then (st, Ok tt)
  else
    let st := set_tables st w (RemoveRetiredReliable w (table_ st)) (mkAttempts ∅ ∅) (resend_pending_ st) in
    let st := set_session st (hello_received_ st) false (peer_dedup_state_lost_ st) in
    match close with
    | Err e => if negb (bool_decide (code e = kNotFound)) then (st, Err e)
               else (st, Err (mkStatus kTimeout "Bridge reliable frame exceeded retransmit retention"))
    | Ok _ => (st, Err (mkStatus kTimeout "Bridge reliable frame exceeded retransmit retention"))
    end.

(** ** The invariant *)

Record sender_ok (st : Sender) : Prop := {
  so_window : retransmit_wf (retransmit_ st);
  so_step : in_step (retransmit_ st) (table_ st);
  so_sends : attempts_ok (sends_ st)
}.

(** The retained frames, by source and sequence. *)
Definition held (st : Sender) (s : SourceIdentity) (n : Z) : Prop := is_Some (Find (retransmit_ st) s n).

Lemma in_step_Find w w' t : (forall s n, Find w' s n = Find w s n) -> in_step w t -> in_step w' t.
Proof. intros H [H1 H2]. split; [done|]. intros s n. by rewrite H. Qed.

Lemma table_retained w t p :
  in_step w t -> p ∈ pending_reliable_ t -> retained w p.
Proof.
  intros [Ht H] Hp. apply H, find_pending_in; [done|]. by exists p.
Qed.

Lemma held_positive w s n e : retransmit_wf w -> Find w s n = Some e -> 1 <= n /\ entry_source e = s /\ sequence e = n.
Proof.
  intros Hw [He Hk]%find_entry_spec; [|done]. pose proof (rw_entries _ Hw) as Hall. rewrite Forall_elem in Hall.
  destruct (Hall e He) as [H1 _]. unfold key_of in Hk. injection Hk as Hs Hn. split_and!; [lia|done|done].
Qed.

(** An acknowledgement covers the frame. *)
Definition covers (ack : AckPayload) (s : SourceIdentity) (n : Z) : Prop :=
  source ack = s /\
  ((exists h, highest_contiguous_sequence ack = Some h /\ n <= h) \/
   disposition ack = kAccepted /\ n = observed_sequence ack).

Lemma acked_covers ack e :
  acked ack e = true <-> covers ack (entry_source e) (sequence e).
Proof.
  unfold acked, covers. rewrite andb_true_iff, orb_true_iff, andb_true_iff, !bool_decide_eq_true, Z.eqb_eq.
  destruct (highest_contiguous_sequence ack) as [h|].
  - rewrite Z.leb_le. split.
    + intros [Hs [Hh|Hd]]; (split; [done|]); [left; by exists h|by right].
    + intros [Hs [(h' & [= <-] & Hh)|Hd]]; (split; [done|]); [by left|by right].
  - split.
    + intros [Hs [|Hd]]; [done|]. split; [done|by right].
    + intros [Hs [(h' & [=] & _)|Hd]]. split; [done|by right].
Qed.

(** What an acknowledgement leaves, in every case. *)
Lemma apply_ack_spec st ack :
  sender_ok st ->
  let '(st', r) := apply_ack st ack in
  sender_ok st' /\ connection_id_ st' = connection_id_ st /\ sends_ st' = sends_ st /\
  local_session_epoch st' = local_session_epoch st /\ remote_session_epoch st' = remote_session_epoch st /\
  (forall s n, held st' s n -> held st s n) /\
  (forall s n, held st s n -> held st' s n \/ ack_applies (retransmit_ st) ack /\ covers ack s n).
Proof.
  intros [Hw Hs Ha]. unfold apply_ack.
  destruct (ApplyAck_Find (retransmit_ st) ack Hw) as (Hw' & Hss & Hok & Hf).
  destruct (ApplyAck (retransmit_ st) ack) as [w' r]. cbn [fst snd] in *.
  assert (forall s n, is_Some (Find w' s n) -> is_Some (Find (retransmit_ st) s n)) as Hsub.
  { intros s n. rewrite Hf. destruct (Find (retransmit_ st) s n); [by eexists|by intros []]. }
  assert (forall s n, is_Some (Find (retransmit_ st) s n) ->
    is_Some (Find w' s n) \/ ack_applies (retransmit_ st) ack /\ covers ack s n) as Hsup.
  { intros s n [e He]. rewrite Hf, He. destruct (bool_decide _ && _) eqn:E; [right|left; by eexists].
    apply andb_true_iff in E as [E1 E2]. bool_to_prop. apply acked_covers in E2.
    destruct (held_positive _ _ _ _ Hw He) as (_ & <- & <-). done. }
  destruct r as [[]|e]; split_and!; try done; split; try done; cbn [retransmit_ table_ set_tables].
  - assert (ack_applies (retransmit_ st) ack) as Happ by by apply Hok.
    destruct Hs as [Ht Hstep]. apply RemoveAcknowledgedReliable_spec; [done|..].
    + intros s n Hx. by apply Hstep, Hsub.
    + intros h n Hh Hn. rewrite Hf. destruct (Find (retransmit_ st) (source ack) n) as [e|] eqn:He; [|done].
      destruct (held_positive _ _ _ _ Hw He) as (_ & Hes & Heq). rewrite bool_decide_true by done.
      rewrite (proj2 (acked_covers ack e)); [done|]. rewrite Hes, Heq. split; [done|]. left. by exists h.
    + intros p Hp. pose proof (table_retained _ _ _ (conj Ht Hstep) Hp) as Hr.
      destruct (Hsup _ _ Hr) as [|[_ [Hc1 Hc2]]]; [by left|right]. split; [done|].
      destruct Hc2 as [|[Hd Ho]]; [by left|right]. destruct Hr as [e He].
      destruct (held_positive _ _ _ _ Hw He) as (Hpos & _). split_and!; [done|done|lia].
  - assert (~ ack_applies (retransmit_ st) ack) as Happ by (intros Hx%Hok; done).
    eapply in_step_Find; [|exact Hs]. intros s n. rewrite Hf, bool_decide_false by done.
    by destruct (Find (retransmit_ st) s n).
Qed.

(** ** Acknowledgements and the session hello *)

Lemma retire_attempts_spec st confirm ack :
  sender_ok st ->
  let '(st', r) := retire_attempts st confirm ack in
  sender_ok st' /\ retransmit_ st' = retransmit_ st /\
  local_session_epoch st' = local_session_epoch st /\ remote_session_epoch st' = remote_session_epoch st.
Proof.
  intros [H1 H2 H3]. unfold retire_attempts.
  pose proof (RetireAcknowledgedAttempts_ok (sends_ st) (connection_id_ st) confirm ack H3) as H.
  destruct (RetireAcknowledgedAttempts _ _ _ _) as [a r]. by split; [split|].
Qed.

Lemma HandleAck_spec st payload confirm :
  sender_ok st ->
  let '(st', r) := HandleAck st payload confirm in
  sender_ok st' /\ (forall s n, held st' s n -> held st s n) /\
  forall s n, held st s n -> held st' s n \/
    exists ack, DecodeAck payload = Ok ack /\ ack_applies (retransmit_ st) ack /\ covers ack s n.
Proof.
  intros Hst. unfold HandleAck. destruct (DecodeAck payload) as [ack|e]; [|split_and!; [done|done|by intros; left]].
  destruct (negb _); [by split_and!; auto|].
  pose proof (apply_ack_spec st ack Hst) as H. destruct (apply_ack st ack) as [st1 r1].
  destruct H as (H1 & _ & _ & _ & _ & H2 & H3).
  assert (forall s n, held st s n -> held st1 s n \/
    exists ack0, Ok ack = Ok ack0 /\ ack_applies (retransmit_ st) ack0 /\ covers ack0 s n) as H4.
  { intros s n Hh. destruct (H3 s n Hh) as [|[? ?]]; [by left|right; by exists ack]. }
  destruct r1 as [[]|e]; [|by split_and!].
  set (st2 := if bool_decide _ then _ else st1).
  assert (sender_ok st2 /\ retransmit_ st2 = retransmit_ st1) as [H5 H6].
  { unfold st2. case_bool_decide; [|done].
    pose proof (request_retries_ok (retransmit_ st1) (sends_ st1) (connection_id_ st1) ack (so_sends _ H1)) as Hr.
    destruct (request_retries _ _ _ _) as [a b]. split; [|done]. destruct H1. by split. }
  pose proof (retire_attempts_spec st2 confirm ack H5) as H7.
  destruct (retire_attempts st2 confirm ack) as [st3 r3]. destruct H7 as (H7 & H8 & _).
  unfold held in *. rewrite H8, H6. by split_and!.
Qed.

Lemma resume_all_spec confirm l : forall st,
  sender_ok st ->
  let '(st', r) := resume_all st confirm l in
  sender_ok st' /\ (forall s n, held st' s n -> held st s n) /\
  forall s n, held st s n -> held st' s n \/
    exists x, x ∈ l /\ hello_source x = s /\ n <= last_accepted_sequence x.
Proof.
  induction l as [|x l IH]; intros st Hst; cbn [resume_all]; [by split_and!; auto|].
  pose proof (apply_ack_spec st (resume_ack st x) Hst) as H.
  assert (forall st1, (forall s n, held st s n -> held st1 s n \/
      ack_applies (retransmit_ st) (resume_ack st x) /\ covers (resume_ack st x) s n) ->
    forall s n, held st s n -> held st1 s n \/ hello_source x = s /\ n <= last_accepted_sequence x) as Hcov.
  { intros st1 H1 s n Hh. destruct (H1 s n Hh) as [|[_ [Hs Hc]]]; [by left|right]. split; [done|].
    destruct Hc as [(h & [= <-] & Hn)|[_ Ho]]; [done|]. destruct Hh as [e He].
    destruct (held_positive _ _ _ _ (so_window _ Hst) He) as (Hpos & _). cbn in Ho. lia. }
  destruct (apply_ack st _) as [st1 [[]|e]]; destruct H as (H1 & _ & _ & _ & _ & H2 & H3); specialize (Hcov st1 H3).
  2:{ split_and!; [done|done|]. intros s n Hh. destruct (Hcov s n Hh) as [|Hx]; [by left|right].
      exists x. split; [by left|done]. }
  pose proof (retire_attempts_spec st1 confirm (resume_ack st x) H1) as H4.
  destruct (retire_attempts _ _ _) as [st2 r2]. destruct H4 as (H4 & H5 & _).
  assert (forall s n, held st2 s n <-> held st1 s n) as Hheld by (intros; unfold held; by rewrite H5).
  assert (forall s n, held st s n -> held st2 s n \/
    exists y, y ∈ x :: l /\ hello_source y = s /\ n <= last_accepted_sequence y) as Hcov2.
  { intros s n Hh. destruct (Hcov s n Hh) as [|Hx]; [left; by apply Hheld|right]. exists x. split; [by left|done]. }
  destruct r2 as [[]|e]; [|split_and!; [done|intros s n Hh%Hheld; by apply H2|done]].
  specialize (IH st2 H4). destruct (resume_all st2 confirm l) as [st3 r3]. destruct IH as (I1 & I2 & I3).
  split_and!; [done|intros s n Hh; by apply H2, Hheld, I2|].
  intros s n Hh. destruct (Hcov2 s n Hh) as [Hx|]; [|by right].
  destruct (I3 s n Hx) as [|(y & Hy & ?)]; [by left|right; exists y; split; [by right|done]].
Qed.

Lemma HandleHello_spec st payload limits confirm :
  sender_ok st ->
  let '(st', r) := HandleHello st payload limits confirm in
  sender_ok st' /\ (forall s n, held st' s n -> held st s n) /\
  forall s n, held st s n -> held st' s n \/
    exists hello x, DecodeSessionHello payload limits = Ok hello /\ dedup_state_lost hello = false /\
      hello_sender_epoch hello = remote_session_epoch st /\ hello_receiver_epoch hello = local_session_epoch st /\
      x ∈ sources hello /\ hello_source x = s /\ n <= last_accepted_sequence x.
Proof.
  intros Hst. unfold HandleHello. destruct (DecodeSessionHello payload limits) as [hello|e]; [|split_and!; [done|done|by intros; left]].
  destruct (_ || _) eqn:Ee; [by split_and!; auto|]. destruct (negb (forallb _ _)); [by split_and!; auto|].
  bool_to_prop. cbv zeta. set (st0 := set_session st _ _ _).
  assert (sender_ok st0) as Hst0 by (destruct Hst; by split).
  set (res := if dedup_state_lost hello then (st0, Ok tt) else _).
  assert (sender_ok res.1 /\ (forall s n, held res.1 s n -> held st s n) /\
    (forall s n, held st s n -> held res.1 s n \/ dedup_state_lost hello = false /\
       exists x, x ∈ sources hello /\ hello_source x = s /\ n <= last_accepted_sequence x)) as (R1 & R2 & R3).
  { unfold res. destruct (dedup_state_lost hello); [by split_and!; auto|].
    pose proof (resume_all_spec confirm (sources hello) st0 Hst0) as Hr.
    destruct (resume_all _ _ _) as [st1 r1]. destruct Hr as (I1 & I2 & I3). split_and!; [done|done|].
    intros s n Hh. destruct (I3 s n Hh) as [|Hx]; [by left|by right]. }
  destruct res as [st1 r]. cbn [fst] in *.
  assert (forall s n, held st s n -> held st1 s n \/
    exists hello0 x, Ok hello = Ok hello0 /\ dedup_state_lost hello0 = false /\
      hello_sender_epoch hello0 = remote_session_epoch st /\ hello_receiver_epoch hello0 = local_session_epoch st /\
      x ∈ sources hello0 /\ hello_source x = s /\ n <= last_accepted_sequence x) as R4.
  { intros s n Hh. destruct (R3 s n Hh) as [|(Hl & x & Hx1 & Hx2 & Hx3)]; [by left|right]. exists hello, x. by split_and!. }
  destruct r as [[]|e]; [|by split_and!]. split_and!; [|done|done].
  destruct R1 as [W1 W2 W3]. split; [done| |done]. cbn. apply RemoveRetiredReliable_spec; [apply W2|].
  intros s n Hx. by apply W2.
Qed.

(** ** Admitting a frame *)

Lemma mark_transmitted_ok t s n :
  table_ok t -> table_ok (mark_transmitted t s n) /\
  forall s' n', is_Some (FindPendingReliable (mark_transmitted t s n) s' n') <-> is_Some (FindPendingReliable t s' n').
Proof.
  intros Ht. unfold mark_transmitted. destruct (pending_reliable_index_ t !! _) as [i|]; [|done].
  set (mark := fun p => mkPendingReliable _ _ _ true). set (t' := mkTable _ _ _).
  assert (shadow <$> pending_reliable_ t' = shadow <$> pending_reliable_ t) as Hsh.
  { unfold t'. cbn [pending_reliable_]. apply list_eq. intros j. rewrite !list_lookup_fmap.
    destruct (decide (i = j)) as [->|]; [rewrite list_lookup_alter_eq|by rewrite list_lookup_alter_ne].
    by destruct (pending_reliable_ t !! j). }
  assert (table_ok t') as Ht' by (unfold table_ok; rewrite Hsh; exact Ht). split; [done|].
  intros s' n'. unfold FindPendingReliable. change (pending_reliable_index_ t') with (pending_reliable_index_ t).
  destruct (pending_reliable_index_ t !! mkEntryKey s' n') as [j|]; [cbn|done].
  destruct (decide (i = j)) as [->|]; [rewrite list_lookup_alter_eq|by rewrite list_lookup_alter_ne].
  by rewrite fmap_is_Some.
Qed.

Lemma Add_cases w s n f now fault :
  retransmit_wf w -> 0 <= n ->
  match Add w s n f now fault with
  | (w', Ok _) => retransmit_wf w' /\ same_session w w' /\ Find w s n = None /\
      forall t m, is_Some (Find w' t m) <-> is_Some (Find w t m) \/ t = s /\ m = n
  | (w', Err _) => w' = w
  end.
Proof.
  intros Hw Hn. destruct (decide (fault = NoFault)) as [->|Hne].
  2:{ destruct (Add_refuses w s n f now fault Hw) as [e ->]; [tauto|done]. }
  destruct (addable_dec w s n f) as [Ha|Ha].
  2:{ destruct (Add_refuses w s n f now NoFault Hw) as [e ->]; [tauto|done]. }
  destruct (Add_accepts w s n f now Hw Hn Ha) as (w' & -> & Hw' & Hs & He).
  pose proof (ad_new _ _ _ _ Ha) as Hnew. split_and!; try done. intros t m.
  rewrite (Add_Find w s n f now w' Hw Hw' Hnew He). destruct (decide (t = s /\ m = n)) as [Heq|Hneq].
  - split; [by right|by eexists].
  - split; [by left|by intros [?|?]].
Qed.

(** The table after the rollback of a refused [Add]. *)
Lemma undo_pending t t1 p :
  table_ok t -> table_ok t1 -> pending_reliable_ t1 = pending_reliable_ t ++ [p] ->
  FindPendingReliable t (pr_source p) (pr_sequence p) = None ->
  let t2 := match pending_reliable_index_ t1 !! pr_key p with
            | Some i => RemovePendingReliableAt t1 i | None => t1 end in
  table_ok t2 /\ forall s n, is_Some (FindPendingReliable t2 s n) <-> is_Some (FindPendingReliable t s n).
Proof.
  intros Ht Ht1 He Hnew. cbv zeta.
  assert (pending_reliable_ t1 !! length (pending_reliable_ t) = Some p) as Hlk
    by (by rewrite He, list_lookup_middle).
  assert (pending_reliable_index_ t1 !! pr_key p = Some (length (pending_reliable_ t))) as -> by (apply table_index; eauto).
  destruct (RemovePendingReliableAt_spec t1 _ p Ht1 Hlk) as (R1 & R2 & _). split; [done|].
  assert (pending_reliable_ t ≡ₚ pending_reliable_ (RemovePendingReliableAt t1 (length (pending_reliable_ t)))) as Hp.
  { rewrite He in R2. rewrite Permutation_app_comm in R2. cbn [app] in R2. by apply Permutation_cons_inv in R2. }
  intros s n. rewrite !find_pending_in by done. by setoid_rewrite Hp at 2.
Qed.

Lemma admit_reliable_spec st s frame body now a :
  sender_ok st -> 0 <= sequence_num (header frame) ->
  let '(st', r, owned) := admit_reliable st s frame body now a in
  sender_ok st' /\
  (owned = false -> r <> Err (Corruption "admitted reliable frame lost its logical index")) /\
  (forall t m, held st' t m <-> held st t m \/ owned = true /\ t = s /\ m = sequence_num (header frame)) /\
  (is_ok r = true -> owned = true).
Proof.
  intros [Hw [Ht Hstep] Ha] Hn. unfold admit_reliable. cbv zeta.
  assert (forall e, e <> Corruption "admitted reliable frame lost its logical index" ->
    sender_ok st /\
    (false = false -> @Err unit e <> Err (Corruption "admitted reliable frame lost its logical index")) /\
    (forall t m, held st t m <-> held st t m \/ false = true /\ t = s /\ m = sequence_num (header frame)) /\
    (is_ok (@Err unit e) = true -> false = true)) as Hsame.
  { intros e He. split_and!; [by split|by intros _ [=]| |done]. intros t m. split; [by left|by intros [|[? _]]]. }
  destruct (negb _); [by apply Hsame|]. destruct (_ <? _); [by apply Hsame|]. destruct (_ <=? _); [by apply Hsame|].
  destruct (_ || _); [by apply Hsame|]. set (n := sequence_num (header frame)) in *.
  set (p := mkPendingReliable s n frame false).
  pose proof (AddPendingReliable_spec (table_ st) p (table_fault a) Ht) as Hp.
  destruct (AddPendingReliable (table_ st) p (table_fault a)) as [t1 [[]|e]] eqn:Eadd.
  2:{ subst t1. replace (set_tables st _ _ _ _) with st by by destruct st. apply Hsame.
      unfold AddPendingReliable in Eadd. intros ->. repeat (case_match; try discriminate). }
  destruct Hp as (P1 & P2 & P3). pose proof (find_pending_added _ _ _ s n Ht P1 P2) as Hin.
  pose proof (Add_cases (retransmit_ st) s n body now (window_fault a) Hw Hn) as Hadd.
  destruct (Add (retransmit_ st) s n body now (window_fault a)) as [w' [[]|e]] eqn:Ew.
  2:{ subst w'. destruct (undo_pending _ t1 p Ht P1 P2 P3) as [U1 U2]. change (mkEntryKey s n) with (pr_key p).
      split_and!; [| |intros t m; split; [by left|by intros [|[? _]]]|done].
      - split; [done| |done]. split; [done|]. intros x y. cbn [retransmit_ table_ set_tables]. by rewrite U2.
      - intros _ [=->]. unfold Add, insert_entry in Ew. cbv zeta in Ew. repeat (case_match; try discriminate). }
  destruct Hadd as (A1 & A2 & A3 & A4).
  assert (is_Some (FindPendingReliable t1 s n)) as [q Hq] by (apply Hin; by right). rewrite Hq.
  assert (in_step w' t1) as Hst1.
  { split; [done|]. intros x y. rewrite A4, Hstep, (find_pending_added _ _ _ x y Ht P1 P2). done. }
  destruct (send_answer a) as [op|e].
  - pose proof (AddAttempt_spec (sends_ st) (mkAttempt s n op false) (attempt_fault a) Ha) as Hat.
    destruct (AddAttempt _ _ _) as [sends r] eqn:Er.
    destruct (mark_transmitted_ok t1 s n P1) as [M1 M2].
    assert (attempts_ok sends) as Hs by (destruct r as [[]|]; [apply Hat|by subst sends]).
    split_and!; [|done|intros t m; unfold held; cbn [retransmit_ set_tables]; rewrite A4; tauto|done].
    split; [done| |done]. split; [done|]. intros x y. cbn [retransmit_ table_ set_tables]. rewrite M2. apply Hst1.
  - split_and!; [by split|done|intros t m; unfold held; cbn [retransmit_ set_tables]; rewrite A4; tauto|done].
Qed.

(** ** Completions, retention, reconnection *)

Lemma handle_completion_spec st op status :
  sender_ok st -> sender_ok (handle_completion st op status) /\
  retransmit_ (handle_completion st op status) = retransmit_ st.
Proof.
  intros [H1 H2 H3]. unfold handle_completion.
  pose proof (complete_ok (sends_ st) (connection_id_ st) op status H3) as H.
  destruct (complete _ _ _ _) as [a []]; by split; [split|].
Qed.

Lemma expire_retention_spec st now close :
  sender_ok st ->
  let '(st', r) := expire_retention st now close in
  sender_ok st' /\ (forall s n, held st' s n -> held st s n) /\
  (forall s n, held st s n -> held st' s n \/
     exists e, Find (retransmit_ st) s n = Some e /\ expired (retransmit_ st) now e = true) /\
  (r = Ok tt -> forall s n, held st s n -> held st' s n).
Proof.
  intros [Hw Hs Ha]. unfold expire_retention.
  destruct (purge_spec (retransmit_ st) now Hw) as (gone & Hw' & _ & Hp & Hg & Hk & Hcount).
  pose proof (fun s n => Find_removed (expired (retransmit_ st) now) _ _ gone s n Hw Hw' Hp Hg Hk) as Hf.
  destruct (PurgeExpired (retransmit_ st) now) as [w' count]. cbn [fst snd] in *.
  assert (forall s n, is_Some (Find w' s n) -> is_Some (Find (retransmit_ st) s n)) as Hsub.
  { intros s n. rewrite Hf. destruct (Find (retransmit_ st) s n); [by eexists|by intros []]. }
  assert (forall s n, is_Some (Find (retransmit_ st) s n) -> is_Some (Find w' s n) \/
    exists e, Find (retransmit_ st) s n = Some e /\ expired (retransmit_ st) now e = true) as Hsup.
  { intros s n [e He]. rewrite Hf, He. destruct (expired _ _ e) eqn:E; [right; by exists e|left; by eexists]. }
  destruct (Z.eqb_spec count 0) as [H0|H0].
  - assert (gone = []) as -> by (destruct gone; [done|]; unfold zlen in Hcount; cbn [length] in Hcount; lia).
    assert (forall s n, Find w' s n = Find (retransmit_ st) s n) as Hsame.
    { intros s n. apply option_eq. intros e. rewrite !find_entry_spec by done. by rewrite Hp. }
    split_and!; [|done|done|].
    + split; [done|by eapply in_step_Find|done].
    + intros _ s n. unfold held. cbn [retransmit_ set_tables]. by rewrite Hsame.
  - set (st1 := set_session _ _ _ _).
    assert (sender_ok st1) as H1.
    { split; [done| |apply attempts_empty_ok]. cbn. apply RemoveRetiredReliable_spec; [apply Hs|].
      intros s n Hx. by apply Hs, Hsub. }
    destruct close as [[]|e]; [by split_and!|]. by destruct (negb _); split_and!.
Qed.

(** The sender's part of [RebindConnection]: the window enters the new session with
    its frames, which are to be resent; the attempts on the old connection stay until
    they complete. *)
Definition rebind_sender (st : Sender) (connection local_epoch remote_epoch now_ns : Z) : Sender :=
  let w := (BeginSession (retransmit_ st) local_epoch remote_epoch now_ns).1 in
  mkSender local_epoch remote_epoch (sender_lane_index st) (sender_lane_count st) connection w
    (table_ st) (sends_ st) false false (enable_aead_ st) false false false
    (negb (length (entries_ (retransmit_ st)) =? 0)%nat).

Lemma rebind_sender_spec st connection l r now :
  sender_ok st -> sender_ok (rebind_sender st connection l r now) /\
  forall s n, held (rebind_sender st connection l r now) s n <-> held st s n.
Proof.
  intros [H1 H2 H3]. destruct (BeginSession_keeps (retransmit_ st) l r now) as (B1 & _ & B3 & B4).
  assert (forall s n, Find (BeginSession (retransmit_ st) l r now).1 s n = Find (retransmit_ st) s n) as Hf
    by (intros; unfold Find; by rewrite B3, B4).
  split.
  - split; [by apply B1|by eapply in_step_Find|done].
  - intros s n. unfold held, rebind_sender. cbn [retransmit_]. by rewrite Hf.
Qed.

(** ** Properties *)

(** What happens to a sender. *)
Inductive SenderCall : Set :=
| CallSend (s : SourceIdentity) (frame : WireFrame) (body : list byte) (now_ns : Z) (a : AdmitAnswers)
| CallAck (payload : list byte) (confirm : SendOperation -> Result unit)
| CallHello (payload : list byte) (limits : ControlPayloadLimits) (confirm : SendOperation -> Result unit)
| CallCompletion (op : SendOperation) (status : Result unit)
| CallExpire (now_ns : Z) (close : Result unit)
| CallRebind (connection local_epoch remote_epoch now_ns : Z).

Definition run_sender (st : Sender) (c : SenderCall) : Sender :=
  match c with
  | CallSend s frame body now a => (admit_reliable st s frame body now a).1.1
  | CallAck payload confirm => (HandleAck st payload confirm).1
  | CallHello payload limits confirm => (HandleHello st payload limits confirm).1
  | CallCompletion op status => handle_completion st op status
  | CallExpire now close => (expire_retention st now close).1
  | CallRebind c l r now => rebind_sender st c l r now
  end.
Definition sender_call_ok (c : SenderCall) : Prop :=
  match c with CallSend _ frame _ _ _ => 0 <= sequence_num (header frame) | _ => True end.

Lemma run_sender_ok st c : sender_ok st -> sender_call_ok c -> sender_ok (run_sender st c).
Proof.
  intros Hst Hc. destruct c as [s f b now a|p cf|p l cf|op stt|now cl|cn l r now]; cbn [run_sender sender_call_ok] in *.
  - pose proof (admit_reliable_spec st s f b now a Hst Hc) as H. destruct (admit_reliable _ _ _ _ _ _) as [[st' r] o]. apply H.
  - pose proof (HandleAck_spec st p cf Hst) as H. destruct (HandleAck _ _ _). apply H.
  - pose proof (HandleHello_spec st p l cf Hst) as H. destruct (HandleHello _ _ _ _). apply H.
  - by apply handle_completion_spec.
  - pose proof (expire_retention_spec st now cl Hst) as H. destruct (expire_retention _ _ _). apply H.
  - by apply rebind_sender_spec.
Qed.

Lemma run_senders_ok calls : forall st,
  sender_ok st -> Forall sender_call_ok calls -> sender_ok (foldl run_sender st calls).
Proof.
  induction calls as [|c calls IH]; intros st Hst Hc; [done|]. apply Forall_cons_1 in Hc as [Hc Hcs].
  cbn [foldl]. apply IH; [|done]. by apply run_sender_ok.
Qed.

Definition new_sender (local_epoch remote_epoch lane count connection : Z) (enable_aead : bool)
    (options : RetransmitWindowOptions)
  : Result Sender :=
  let! w := Create options in
  let w := (BeginSession w local_epoch remote_epoch 0).1 in
  Ok (mkSender local_epoch remote_epoch lane count connection w empty_table (mkAttempts ∅ ∅)
        false false enable_aead false false false false).

Lemma new_sender_ok l r lane count c aead o st :
  options_typed o -> new_sender l r lane count c aead o = Ok st -> sender_ok st /\ forall s n, ~ held st s n.
Proof.
  intros Ho H. unfold new_sender in H. apply bindR_Ok in H as (w & Hc & H). apply Ok_inj in H as <-.
  destruct (new_window_wf o w Ho Hc) as [Hw _].
  destruct (BeginSession_keeps w l r 0) as (B1 & _ & B3 & B4).
  assert (forall s n, Find (BeginSession w l r 0).1 s n = None) as Hf.
  { intros s n. unfold Find. rewrite B3, B4. unfold Create in Hc. step_if. apply Ok_inj in Hc as <-.
    cbn [entry_index_]. by rewrite lookup_empty. }
  split.
  - split; [by apply B1| |apply attempts_empty_ok]. split; [apply empty_table_ok|]. intros s n.
    cbn [retransmit_ table_]. rewrite Hf. unfold FindPendingReliable. cbn [pending_reliable_index_ empty_table].
    rewrite lookup_empty. split; by intros [].
  - intros s n. unfold held. cbn [retransmit_]. rewrite Hf. by intros [].
Qed.

(** C23: whatever is sent, acknowledged, resumed, completed, expired or rebound, the
    retransmission window and the table of logical frames hold the same frames, every
    index points to its entry, and the attempts and their operations are inverse maps;
    so admitting a frame never finds its logical frame missing, and it holds the frame
    exactly when it has taken it over. *)
Theorem sender_tables_in_step (l r lane count connection : Z) (aead : bool) (o : RetransmitWindowOptions) (st0 : Sender)
    (calls : list SenderCall) (s : SourceIdentity) (frame : WireFrame) (body : list byte) (now_ns : Z)
    (a : AdmitAnswers) :
  options_typed o -> new_sender l r lane count connection aead o = Ok st0 -> Forall sender_call_ok calls ->
  0 <= sequence_num (header frame) ->
  let st := foldl run_sender st0 calls in
  retransmit_wf (retransmit_ st) /\ table_ok (table_ st) /\ attempts_ok (sends_ st) /\
  (forall t m, is_Some (Find (retransmit_ st) t m) <-> is_Some (FindPendingReliable (table_ st) t m)) /\
  let '(st', res, owned) := admit_reliable st s frame body now_ns a in
  (owned = false -> res <> Err (Corruption "admitted reliable frame lost its logical index")) /\
  (forall t m, held st' t m <-> held st t m \/ owned = true /\ t = s /\ m = sequence_num (header frame)).
Proof.
  intros Ho Hnew Hc Hn. cbv zeta. destruct (new_sender_ok _ _ _ _ _ _ _ _ Ho Hnew) as [H0 _].
  pose proof (run_senders_ok calls st0 H0 Hc) as Hst. pose proof Hst as [H1 [H2 H3] H4]. split_and!; try done.
  pose proof (admit_reliable_spec _ s frame body now_ns a Hst Hn) as H.
  destruct (admit_reliable _ _ _ _ _ _) as [[st' res] owned]. destruct H as (_ & H5 & H6 & _). done.
Qed.

Definition sample_frame (n : Z) : WireFrame := mkFrame (mkHeader kData 0 1 2 3 4 5 7 8 9 n 0 None) [Byte.x01].
Definition sample_answers (id : Z) : AdmitAnswers :=
  mkAdmit true NoFault NoFault (Ok (mkOperation id 1)) NoAttemptFault.
Definition sample_sender_calls : list SenderCall :=
  [CallSend (mkSource 7 8 9) (sample_frame 1) [Byte.x01] 10 (sample_answers 1);
   CallCompletion (mkOperation 1 1) (Ok tt); CallRebind 2 15 16 20].

Lemma sender_tables_in_step_witness :
  exists st0, new_sender 5 6 0 1 1 false sample_options = Ok st0 /\
    let out := admit_reliable (foldl run_sender st0 sample_sender_calls) (mkSource 7 8 9) (sample_frame 2)
                 [Byte.x02] 30 (sample_answers 2) in
    out.2 = true /\ held out.1.1 (mkSource 7 8 9) 1 /\ held out.1.1 (mkSource 7 8 9) 2.
Proof.
  destruct (new_sender 5 6 0 1 1 false sample_options) as [st0|] eqn:E; [|vm_compute in E; discriminate E].
  exists st0. split; [done|]. cbv zeta.
  pose proof (sender_tables_in_step 5 6 0 1 1 false sample_options st0 sample_sender_calls (mkSource 7 8 9)
    (sample_frame 2) [Byte.x02] 30 (sample_answers 2) ltac:(split; cbn; lia) E
    ltac:(repeat constructor; cbn; lia) ltac:(cbn; lia)) as H. cbv zeta in H.
  assert (is_Some (Find (retransmit_ (foldl run_sender st0 sample_sender_calls)) (mkSource 7 8 9) 1)) as H1.
  { vm_compute in E. injection E as <-. vm_compute. by eexists. }
  assert ((admit_reliable (foldl run_sender st0 sample_sender_calls) (mkSource 7 8 9) (sample_frame 2) [Byte.x02] 30
    (sample_answers 2)).2 = true) as H2 by (vm_compute in E; injection E as <-; vm_compute; reflexivity).
  destruct H as (_ & _ & _ & _ & H). destruct (admit_reliable _ _ _ _ _ _) as [[st' res] owned]. cbn [snd fst] in *.
  destruct H as [_ H]. split_and!; [done|apply H; by left|apply H; by right].
Defined.
