(* ===== verification/AckQueue.v ===== *)
(** * The queue of pending acknowledgements

    Models the ACK coalescing of [mino/bridge/bridge_pipeline.cc]
    ([CanQueueAck], [QueueAck], [RemovePendingAck]) and its state in
    [bridge_pipeline.h]: the [std::list] of pending ACKs and, for every source,
    iterators to its cumulative ACK and to its selective ACKs.

    A list node is a number: [order_] lists the nodes and [payloads_] holds their
    contents, so that an iterator is a node number and several structures alias
    one ACK.  Numbers are not reused; the invariant shows that no iterator
    outlives its node.  Allocation failure is not modelled. *)
From S2P Require Import Prelude SourceIdentity ControlPayload RetransmitWindow.

Record PendingAckSource : Set := mkPending {
  cumulative : nat; has_cumulative : bool; selective : gmap Z nat
}.
Definition no_pending : PendingAckSource := mkPending 0 false ∅.

Record AckQueue : Set := mkQueue {
  order_ : list nat;
  payloads_ : gmap nat AckPayload;
  next_node : nat;
  pending_ack_sources_ : gmap SourceIdentity PendingAckSource
}.
Definition empty_queue : AckQueue := mkQueue [] ∅ 0 ∅.

(** ** List and map primitives *)

(** [pending_acks_.push_back(ack)]; the new node is [next_node]. *)
Definition push_back (q : AckQueue) (ack : AckPayload) : AckQueue :=
  mkQueue (order_ q ++ [next_node q]) (<[next_node q := ack]> (payloads_ q)) (S (next_node q))
    (pending_ack_sources_ q).
(** [pending_acks_.erase(node)] *)
Definition erase_node (q : AckQueue) (id : nat) : AckQueue :=
  mkQueue (filter (fun n => n <> id) (order_ q)) (delete id (payloads_ q)) (next_node q)
    (pending_ack_sources_ q).
(** [*node = ack] *)
Definition assign_node (q : AckQueue) (id : nat) (ack : AckPayload) : AckQueue :=
  mkQueue (order_ q) (<[id := ack]> (payloads_ q)) (next_node q) (pending_ack_sources_ q).
Definition set_source (q : AckQueue) (s : SourceIdentity) (e : PendingAckSource) : AckQueue :=
  mkQueue (order_ q) (payloads_ q) (next_node q) (<[s := e]> (pending_ack_sources_ q)).
(** [erase_empty_source] *)
Definition drop_if_empty (q : AckQueue) (s : SourceIdentity) (e : PendingAckSource) : AckQueue :=
  if negb (has_cumulative e) && bool_decide (selective e = ∅)
  then mkQueue (order_ q) (payloads_ q) (next_node q) (delete s (pending_ack_sources_ q))
  else q.

(** [cumulative->highest_contiguous_sequence.value_or(0)] *)
Definition queued_highest (q : AckQueue) (e : PendingAckSource) : Z :=
  match payloads_ q !! cumulative e with
  | Some a => default 0 (highest_contiguous_sequence a)
  | None => 0
  end.

Definition would_block : Status := mkStatus kWouldBlock "bridge pending ACK queue is full".

(** ** Operations *)

(** The ACK is cumulative: its observed sequence is in its prefix. *)
Definition is_cumulative (ack : AckPayload) : bool :=
  match highest_contiguous_sequence ack with
  | Some h => observed_sequence ack <=? h
  | None => false
  end.

Definition CanQueueAck (q : AckQueue) (max_control_frames : Z) (ack : AckPayload) : bool :=
  if zlen (order_ q) <? max_control_frames then true
  else if negb (bool_decide (disposition ack = kAccepted)) then false
  else match pending_ack_sources_ q !! source ack with
  | None => false
  | Some e =>
      if has_cumulative e && ((observed_sequence ack <=? queued_highest q e) || is_cumulative ack)
      then true
      else if bool_decide (is_Some (selective e !! observed_sequence ack)) then true
      else if is_cumulative ack
      then match map_begin (selective e) with
           | Some (first, _) => first <=? default 0 (highest_contiguous_sequence ack)
           | None => false
           end
      else false
  end.

(** The loop that drops the selective ACKs a cumulative one covers; [n] bounds
    the iterations, each of which erases one. *)
Fixpoint drop_covered (n : nat) (q : AckQueue) (e : PendingAckSource) (highest : Z)
  : AckQueue * PendingAckSource :=
  match n with
  | O => (q, e)
  | S n' =>
      match map_begin (selective e) with
      | Some (first, id) =>
          if first <=? highest
          then drop_covered n' (erase_node q id)
                 (mkPending (cumulative e) (has_cumulative e) (delete first (selective e))) highest
          else (q, e)
      | None => (q, e)
      end
  end.

(** Where a cumulative ACK goes: over the queued one, over the first selective
    one it covers, or to a new node; [None] when the queue is full. *)
Definition place_cumulative (q : AckQueue) (max_control_frames : Z) (e : PendingAckSource)
    (ack : AckPayload) (highest : Z) : option (AckQueue * PendingAckSource) :=
  if has_cumulative e then Some (assign_node q (cumulative e) ack, e)
  else
    let fresh :=
      if max_control_frames <=? zlen (order_ q) then None
      else Some (push_back q ack, mkPending (next_node q) true (selective e)) in
    match map_begin (selective e) with
    | Some (first, id) =>
        if first <=? highest
        then Some (assign_node q id ack, mkPending id true (delete first (selective e)))
        else fresh
    | None => fresh
    end.

Definition QueueAck (q : AckQueue) (max_control_frames : Z) (ack : AckPayload)
  : AckQueue * Result unit :=
  let full := max_control_frames <=? zlen (order_ q) in
  if negb (bool_decide (disposition ack = kAccepted))
  then if full then (q, Err would_block) else (push_back q ack, Ok tt)
  else
    let s := source ack in
    let e := default no_pending (pending_ack_sources_ q !! s) in
    let q := set_source q s e in
    let highest := default 0 (highest_contiguous_sequence ack) in
    if is_cumulative ack
    then if has_cumulative e && (highest <=? queued_highest q e) then (q, Ok tt)
         else match place_cumulative q max_control_frames e ack highest with
              | None => (drop_if_empty q s e, Err would_block)
              | Some (q, e) =>
                  let '(q, e) := drop_covered (size (selective e)) q e highest in
                  (set_source q s e, Ok tt)
              end
    else if has_cumulative e && (observed_sequence ack <=? queued_highest q e) then (q, Ok tt)
    else match selective e !! observed_sequence ack with
    | Some id => (assign_node q id ack, Ok tt)
    | None =>
        if full then (drop_if_empty q s e, Err would_block)
        else (set_source (push_back q ack) s
                (mkPending (cumulative e) (has_cumulative e)
                   (<[observed_sequence ack := next_node q]> (selective e))), Ok tt)
    end.

(** [RemovePendingAck] *)
Definition RemovePendingAck (q : AckQueue) (id : nat) : AckQueue :=
  match payloads_ q !! id with
  | None => q
  | Some pending =>
      let sources :=
        if bool_decide (disposition pending = kAccepted)
        then match pending_ack_sources_ q !! source pending with
             | None => pending_ack_sources_ q
             | Some e =>
                 let has := has_cumulative e && negb (Nat.eqb (cumulative e) id) in
                 let sel := if bool_decide (selective e !! observed_sequence pending = Some id)
                            then delete (observed_sequence pending) (selective e) else selective e in
                 if negb has && bool_decide (sel = ∅)
                 then delete (source pending) (pending_ack_sources_ q)
                 else <[source pending := mkPending (cumulative e) has sel]> (pending_ack_sources_ q)
             end
        else pending_ack_sources_ q in
      erase_node (mkQueue (order_ q) (payloads_ q) (next_node q) sources) id
  end.
(** The ACK [FlushAcks] sends next, and the queue once it is sent. *)
Definition front_ack (q : AckQueue) : option AckPayload := head (order_ q) ≫= (payloads_ q !!.).
Definition pop_ack (q : AckQueue) : AckQueue :=
  match order_ q with id :: _ => RemovePendingAck q id | [] => q end.

(** ** The invariant *)

Record nodes_ok (order : list nat) (p : gmap nat AckPayload) (next : nat) : Prop := {
  no_nodup : NoDup order;
  no_payload : forall id, id ∈ order <-> is_Some (p !! id);
  no_fresh : forall id, id ∈ order -> (id < next)%nat
}.

(** The node [id] holds an accepted ACK of source [s]. *)
Definition holds (p : gmap nat AckPayload) (s : SourceIdentity) (id : nat) (a : AckPayload) : Prop :=
  p !! id = Some a /\ source a = s /\ disposition a = kAccepted.

(** The iterators of [e] are exactly the accepted ACKs of [s]. *)
Record source_ok (p : gmap nat AckPayload) (s : SourceIdentity) (e : PendingAckSource) : Prop := {
  so_cumulative : has_cumulative e = true ->
    exists a, holds p s (cumulative e) a /\ is_cumulative a = true;
  so_selective : forall n id, selective e !! n = Some id ->
    exists a, holds p s id a /\ is_cumulative a = false /\ observed_sequence a = n;
  so_referenced : forall id a, holds p s id a ->
    if is_cumulative a then has_cumulative e = true /\ cumulative e = id
    else selective e !! observed_sequence a = Some id
}.

Definition entry_of (q : AckQueue) (s : SourceIdentity) : PendingAckSource :=
  default no_pending (pending_ack_sources_ q !! s).

Record queue_wf (q : AckQueue) : Prop := {
  qw_nodes : nodes_ok (order_ q) (payloads_ q) (next_node q);
  qw_source : forall s, source_ok (payloads_ q) s (entry_of q s);
  qw_nonempty : forall s e, pending_ack_sources_ q !! s = Some e ->
    has_cumulative e = true \/ selective e <> ∅
}.

(** What an ACK tells the sender. *)
Definition ack_covers (a : AckPayload) (n : Z) : Prop :=
  (exists h, highest_contiguous_sequence a = Some h /\ n <= h) \/
  (disposition a = kAccepted /\ n = observed_sequence a).
Definition queue_covers (q : AckQueue) (s : SourceIdentity) (n : Z) : Prop :=
  exists id a, payloads_ q !! id = Some a /\ source a = s /\ ack_covers a n.

Lemma is_cumulative_spec a :
  is_cumulative a = true <->
  exists h, highest_contiguous_sequence a = Some h /\ observed_sequence a <= h.
Proof.
  unfold is_cumulative. destruct (highest_contiguous_sequence a) as [h|].
  - rewrite Z.leb_le. split; [eauto|]. by intros (h' & [= <-] & ?).
  - split; [done|]. by intros (h & ? & _).
Qed.

Lemma holds_inj p s id a b : holds p s id a -> holds p s id b -> a = b.
Proof. intros (H1 & _) (H2 & _). congruence. Qed.

(** Sources whose accepted ACKs did not change keep their iterators. *)
Lemma source_ok_frame p p' s e :
  (forall id a, holds p' s id a <-> holds p s id a) -> source_ok p s e -> source_ok p' s e.
Proof.
  intros H [H1 H2 H3]. split.
  - intros Hc. destruct (H1 Hc) as (a & Ha & Hac). exists a. by rewrite H.
  - intros n id Hn. destruct (H2 n id Hn) as (a & Ha & Hb). exists a. by rewrite H.
  - intros id a Ha. apply H3. by apply H.
Qed.

Lemma holds_insert_other p s t id a b id' :
  source a = s -> t <> s -> (forall x, p !! id = Some x -> disposition x = kAccepted -> source x = s) ->
  holds (<[id := a]> p) t id' b <-> holds p t id' b.
Proof.
  intros Ha Hne Hid. unfold holds. destruct (decide (id' = id)) as [->|].
  - rewrite lookup_insert_eq. split.
    + intros ([= <-] & Hs & _). congruence.
    + intros (Hp & Hs & Hd). specialize (Hid _ Hp Hd). congruence.
  - by rewrite lookup_insert_ne.
Qed.

Lemma holds_delete_other p s t id b id' :
  t <> s -> (forall x, p !! id = Some x -> disposition x = kAccepted -> source x = s) ->
  holds (delete id p) t id' b <-> holds p t id' b.
Proof.
  intros Hne Hid. unfold holds. destruct (decide (id' = id)) as [->|].
  - rewrite lookup_delete_eq. split; [by intros (? & _)|]. intros (Hp & Hs & Hd).
    specialize (Hid _ Hp Hd). congruence.
  - by rewrite lookup_delete_ne.
Qed.

(** *** Nodes *)

Lemma nodes_assign order p next id a :
  nodes_ok order p next -> is_Some (p !! id) -> nodes_ok order (<[id := a]> p) next.
Proof.
  intros [H1 H2 H3] Hid. split; [done| |done]. intros n. rewrite lookup_insert_is_Some', H2.
  destruct (decide (id = n)) as [->|]; tauto.
Qed.

Lemma nodes_push order p next a :
  nodes_ok order p next -> nodes_ok (order ++ [next]) (<[next := a]> p) (S next).
Proof.
  intros [H1 H2 H3]. split.
  - apply list.NoDup_app. split_and!; [done| |apply NoDup_singleton].
    intros x Hx ->%list_elem_of_singleton. specialize (H3 _ Hx). lia.
  - intros n. rewrite elem_of_app, list_elem_of_singleton, lookup_insert_is_Some', H2. split; intros [?|?]; auto.
  - intros n [Hn|Hn%list_elem_of_singleton]%elem_of_app; [specialize (H3 _ Hn)|subst n]; lia.
Qed.

Lemma nodes_erase order p next id :
  nodes_ok order p next -> nodes_ok (filter (fun n => n <> id) order) (delete id p) next.
Proof.
  intros [H1 H2 H3]. split.
  - by apply list.NoDup_filter.
  - intros n. rewrite list_elem_of_filter, lookup_delete_is_Some, H2. split; intros [? ?]; auto.
  - intros n [_ Hn]%list_elem_of_filter. by apply H3.
Qed.

Lemma nodes_next_fresh order p next : nodes_ok order p next -> p !! next = None.
Proof.
  intros [_ H2 H3]. apply eq_None_not_Some. intros H. apply H2 in H. specialize (H3 _ H). lia.
Qed.

(** *** One source's iterators *)

Section OneSource.
Context (p : gmap nat AckPayload) (s : SourceIdentity) (e : PendingAckSource).
Context (Hok : source_ok p s e).

Lemma holds_insert id a id' b :
  source a = s -> disposition a = kAccepted ->
  holds (<[id := a]> p) s id' b <-> id' = id /\ b = a \/ id' <> id /\ holds p s id' b.
Proof.
  intros Hs Hd. unfold holds. destruct (decide (id' = id)) as [->|].
  - rewrite lookup_insert_eq. split.
    + intros ([= <-] & _). by left.
    + intros [[_ ->]|[? _]]; done.
  - rewrite lookup_insert_ne by done. split; [by right|]. intros [[? _]|[_ ?]]; done.
Qed.

Lemma holds_delete id id' b : holds (delete id p) s id' b <-> id' <> id /\ holds p s id' b.
Proof.
  unfold holds. rewrite lookup_delete_Some. split.
  - intros ([? ?] & ? & ?). split; [by intros ->|done].
  - intros (? & ? & ? & ?). split; [split; [by intros ->|done]|done].
Qed.

(** Nodes of different roles differ. *)
Lemma cumulative_not_selective n id :
  has_cumulative e = true -> selective e !! n = Some id -> cumulative e <> id.
Proof.
  intros Hc Hn <-. destruct (so_cumulative _ _ _ Hok Hc) as (a & Ha & Hac).
  destruct (so_selective _ _ _ Hok _ _ Hn) as (b & Hb & Hbc & _).
  rewrite (holds_inj _ _ _ _ _ Ha Hb) in Hac. congruence.
Qed.
Lemma selective_inj n m id : selective e !! n = Some id -> selective e !! m = Some id -> n = m.
Proof.
  intros Hn Hm. destruct (so_selective _ _ _ Hok _ _ Hn) as (a & Ha & _ & <-).
  destruct (so_selective _ _ _ Hok _ _ Hm) as (b & Hb & _ & <-). by rewrite (holds_inj _ _ _ _ _ Ha Hb).
Qed.

Context (ack : AckPayload) (Hsrc : source ack = s) (Hacc : disposition ack = kAccepted).

Lemma assign_cumulative_ok :
  has_cumulative e = true -> is_cumulative ack = true ->
  source_ok (<[cumulative e := ack]> p) s e.
Proof.
  intros Hc Hk. split.
  - intros _. exists ack. split; [|done]. apply holds_insert; auto.
  - intros n id Hn. destruct (so_selective _ _ _ Hok n id Hn) as (a & Ha & H). exists a. split; [|done].
    apply holds_insert; [done..|]. right. split; [|done].
    intros ->. by apply (cumulative_not_selective n (cumulative e)).
  - intros id a Ha. rewrite holds_insert in Ha by done. destruct Ha as [[-> ->]|[Hne Ha]]; [by rewrite Hk|].
    by apply (so_referenced _ _ _ Hok).
Qed.

Lemma assign_selective_ok id :
  selective e !! observed_sequence ack = Some id -> is_cumulative ack = false ->
  source_ok (<[id := ack]> p) s e.
Proof.
  intros Hid Hk. split.
  - intros Hc. destruct (so_cumulative _ _ _ Hok Hc) as (a & Ha & H). exists a. split; [|done].
    apply holds_insert; [done..|]. right. split; [|done]. by apply (cumulative_not_selective _ _ Hc Hid).
  - intros n id' Hn. destruct (decide (id' = id)) as [->|Hne].
    + exists ack. split; [apply holds_insert; auto|]. split; [done|]. by apply (selective_inj _ n id).
    + destruct (so_selective _ _ _ Hok n id' Hn) as (a & Ha & H). exists a. split; [|done].
      apply holds_insert; auto.
  - intros id' a Ha. rewrite holds_insert in Ha by done. destruct Ha as [[-> ->]|[Hne Ha]]; [by rewrite Hk|].
    by apply (so_referenced _ _ _ Hok).
Qed.

Lemma reuse_selective_ok first id :
  has_cumulative e = false -> selective e !! first = Some id -> is_cumulative ack = true ->
  source_ok (<[id := ack]> p) s (mkPending id true (delete first (selective e))).
Proof.
  intros Hc Hid Hk. split; cbn [has_cumulative cumulative selective].
  - intros _. exists ack. split; [|done]. apply holds_insert; auto.
  - intros n id' [Hne Hn]%lookup_delete_Some. destruct (so_selective _ _ _ Hok n id' Hn) as (a & Ha & H).
    exists a. split; [|done]. apply holds_insert; [done..|]. right. split; [|done].
    intros ->. by apply Hne, (selective_inj _ _ id).
  - intros id' a Ha. rewrite holds_insert in Ha by done. destruct Ha as [[-> ->]|[Hne Ha]]; [by rewrite Hk|].
    pose proof (so_referenced _ _ _ Hok _ _ Ha) as Hr. destruct (is_cumulative a).
    + destruct Hr as [Hr _]. congruence.
    + apply lookup_delete_Some. split; [|done]. intros ->. congruence.
Qed.

Lemma push_cumulative_ok next :
  p !! next = None -> has_cumulative e = false -> is_cumulative ack = true ->
  source_ok (<[next := ack]> p) s (mkPending next true (selective e)).
Proof.
  intros Hn Hc Hk.
  assert (forall id a, holds p s id a -> id <> next) as Hne by (intros id a (H & _) ->; congruence).
  split; cbn [has_cumulative cumulative selective].
  - intros _. exists ack. split; [|done]. apply holds_insert; auto.
  - intros n id Hid. destruct (so_selective _ _ _ Hok n id Hid) as (a & Ha & H). exists a.
    split; [|done]. apply holds_insert; eauto.
  - intros id a Ha. rewrite holds_insert in Ha by done. destruct Ha as [[-> ->]|[_ Ha]]; [by rewrite Hk|].
    pose proof (so_referenced _ _ _ Hok _ _ Ha) as Hr. destruct (is_cumulative a); [|done].
    destruct Hr as [Hr _]. congruence.
Qed.

Lemma push_selective_ok next :
  p !! next = None -> selective e !! observed_sequence ack = None -> is_cumulative ack = false ->
  source_ok (<[next := ack]> p) s
    (mkPending (cumulative e) (has_cumulative e) (<[observed_sequence ack := next]> (selective e))).
Proof.
  intros Hn Hnew Hk.
  assert (forall id a, holds p s id a -> id <> next) as Hne by (intros id a (H & _) ->; congruence).
  split; cbn [has_cumulative cumulative selective].
  - intros Hc. destruct (so_cumulative _ _ _ Hok Hc) as (a & Ha & H). exists a. split; [|done].
    apply holds_insert; eauto.
  - intros n id Hid. apply lookup_insert_Some in Hid as [[<- <-]|[Hno Hid]].
    + exists ack. split; [apply holds_insert; auto|done].
    + destruct (so_selective _ _ _ Hok n id Hid) as (a & Ha & H). exists a. split; [|done].
      apply holds_insert; eauto.
  - intros id a Ha. rewrite holds_insert in Ha by done. destruct Ha as [[-> ->]|[_ Ha]]; [rewrite Hk|].
    + by rewrite lookup_insert_eq.
    + pose proof (so_referenced _ _ _ Hok _ _ Ha) as Hr. destruct (is_cumulative a); [done|].
      rewrite lookup_insert_ne; [done|]. intros E. rewrite <- E in Hr. congruence.
Qed.
End OneSource.

Lemma erase_selective_ok p s e first id :
  source_ok p s e -> selective e !! first = Some id ->
  source_ok (delete id p) s (mkPending (cumulative e) (has_cumulative e) (delete first (selective e))).
Proof.
  intros Hok Hid. split; cbn [has_cumulative cumulative selective].
  - intros Hc. destruct (so_cumulative _ _ _ Hok Hc) as (a & Ha & H). exists a. split; [|done].
    apply holds_delete. split; [|done]. by apply (cumulative_not_selective _ _ _ Hok first).
  - intros n id' [Hne Hn]%lookup_delete_Some. destruct (so_selective _ _ _ Hok n id' Hn) as (a & Ha & H).
    exists a. split; [|done]. apply holds_delete. split; [|done].
    intros ->. by apply Hne, (selective_inj _ _ _ Hok _ _ id).
  - intros id' a [Hne Ha]%holds_delete. pose proof (so_referenced _ _ _ Hok _ _ Ha) as Hr.
    destruct (is_cumulative a); [done|]. apply lookup_delete_Some. split; [|done].
    intros ->. congruence.
Qed.

(** *** A queue with one source's entry in hand *)

Record open_wf (q : AckQueue) (s : SourceIdentity) (e : PendingAckSource) : Prop := {
  ow_nodes : nodes_ok (order_ q) (payloads_ q) (next_node q);
  ow_source : source_ok (payloads_ q) s e;
  ow_others : forall t, t <> s -> source_ok (payloads_ q) t (entry_of q t);
  ow_nonempty : forall t e', t <> s -> pending_ack_sources_ q !! t = Some e' ->
    has_cumulative e' = true \/ selective e' <> ∅
}.

Lemma entry_of_set q s e t : entry_of (set_source q s e) t = if decide (t = s) then e else entry_of q t.
Proof.
  unfold entry_of, set_source. cbn [pending_ack_sources_]. destruct (decide (t = s)) as [->|].
  - by rewrite lookup_insert_eq.
  - by rewrite lookup_insert_ne.
Qed.

Lemma open_entry q s : queue_wf q -> open_wf q s (entry_of q s).
Proof. intros [H1 H2 H3]. split; eauto. Qed.

Lemma open_set_source q s e e' : open_wf q s e -> open_wf (set_source q s e') s e.
Proof.
  intros [H1 H2 H3 H4]. split; try done.
  - intros t Ht. rewrite entry_of_set, decide_False by done. by apply H3.
  - intros t e2 Ht. cbn [pending_ack_sources_ set_source]. rewrite lookup_insert_ne by done. by apply H4.
Qed.

Lemma close_entry q s e :
  open_wf q s e -> has_cumulative e = true \/ selective e <> ∅ -> queue_wf (set_source q s e).
Proof.
  intros [H1 H2 H3 H4] Hne. split; [done| |].
  - intros t. rewrite entry_of_set. cbn [payloads_ set_source]. destruct (decide (t = s)) as [->|]; auto.
  - intros t e'. cbn [pending_ack_sources_ set_source]. rewrite lookup_insert_Some.
    intros [[<- <-]|[Hts Ht]]; [done|]. by apply (H4 t).
Qed.

(** The node [id] is free or an accepted ACK of [s]. *)
Definition belongs (q : AckQueue) (s : SourceIdentity) (id : nat) : Prop :=
  forall x, payloads_ q !! id = Some x -> disposition x = kAccepted -> source x = s.

Lemma open_assign q s e e' id ack :
  open_wf q s e -> is_Some (payloads_ q !! id) -> belongs q s id -> source ack = s ->
  source_ok (<[id := ack]> (payloads_ q)) s e' -> open_wf (assign_node q id ack) s e'.
Proof.
  intros [H1 H2 H3 H4] Hid Hb Hs He. split; try done.
  - by apply nodes_assign.
  - intros t Ht. eapply source_ok_frame; [|by apply H3]. intros id' a. by apply (holds_insert_other _ s).
Qed.

Lemma open_push q s e e' ack :
  open_wf q s e -> source ack = s ->
  source_ok (<[next_node q := ack]> (payloads_ q)) s e' -> open_wf (push_back q ack) s e'.
Proof.
  intros [H1 H2 H3 H4] Hs He. split; try done.
  - by apply nodes_push.
  - intros t Ht. eapply source_ok_frame; [|by apply H3]. intros id' a. apply (holds_insert_other _ s); [done..|].
    intros x Hx. rewrite (nodes_next_fresh _ _ _ H1) in Hx. done.
Qed.

Lemma open_erase q s e e' id :
  open_wf q s e -> belongs q s id ->
  source_ok (delete id (payloads_ q)) s e' -> open_wf (erase_node q id) s e'.
Proof.
  intros [H1 H2 H3 H4] Hb He. split; try done.
  - by apply nodes_erase.
  - intros t Ht. eapply source_ok_frame; [|by apply H3]. intros id' a. by apply (holds_delete_other _ s).
Qed.

Lemma selective_node q s e n id :
  source_ok (payloads_ q) s e -> selective e !! n = Some id ->
  is_Some (payloads_ q !! id) /\ belongs q s id.
Proof.
  intros Hok Hn. destruct (so_selective _ _ _ Hok _ _ Hn) as (a & (Hp & Hs & Hd) & _).
  split; [eauto|]. intros x Hx _. congruence.
Qed.

Lemma cumulative_node q s e :
  source_ok (payloads_ q) s e -> has_cumulative e = true ->
  is_Some (payloads_ q !! cumulative e) /\ belongs q s (cumulative e).
Proof.
  intros Hok Hc. destruct (so_cumulative _ _ _ Hok Hc) as (a & (Hp & Hs & Hd) & _).
  split; [eauto|]. intros x Hx _. congruence.
Qed.

(** *** Dropping covered selective ACKs *)

Lemma size_delete_lt (m : gmap Z nat) k v : m !! k = Some v -> (size (delete k m) < size m)%nat.
Proof.
  intros H. rewrite map_size_delete_Some by eauto. assert (size m <> 0%nat); [|lia].
  intros E%map_size_empty_inv. by rewrite E, lookup_empty in H.
Qed.

Lemma drop_covered_spec s highest n : forall q e,
  open_wf q s e -> (size (selective e) <= n)%nat ->
  let q' := (drop_covered n q e highest).1 in
  let e' := (drop_covered n q e highest).2 in
  open_wf q' s e' /\ cumulative e' = cumulative e /\ has_cumulative e' = has_cumulative e /\
  (zlen (order_ q') <= zlen (order_ q)) /\
  (forall k id, selective e' !! k = Some id -> highest < k) /\
  (forall id a, payloads_ q' !! id = Some a -> payloads_ q !! id = Some a) /\
  (forall id a, payloads_ q !! id = Some a -> payloads_ q' !! id = Some a \/
     source a = s /\ disposition a = kAccepted /\ observed_sequence a <= highest /\ is_cumulative a = false).
Proof.
  assert (forall q e, open_wf q s e -> (forall k id, selective e !! k = Some id -> highest < k) ->
    open_wf q s e /\ cumulative e = cumulative e /\ has_cumulative e = has_cumulative e /\
    (zlen (order_ q) <= zlen (order_ q)) /\ (forall k id, selective e !! k = Some id -> highest < k) /\
    (forall id a, payloads_ q !! id = Some a -> payloads_ q !! id = Some a) /\
    (forall id a, payloads_ q !! id = Some a -> payloads_ q !! id = Some a \/
     source a = s /\ disposition a = kAccepted /\ observed_sequence a <= highest /\ is_cumulative a = false))
    as Hdone by (intros; split_and!; auto; lia).
  induction n as [|n IH]; intros q e Hw Hn; cbn [drop_covered]; cbv zeta.
  { cbn [fst snd]. apply Hdone; [done|]. intros k id Hk. assert (size (selective e) = 0%nat) as E by lia.
    apply map_size_empty_inv in E. by rewrite E, lookup_empty in Hk. }
  pose proof (map_begin_spec (selective e)) as Hb.
  destruct (map_begin (selective e)) as [[first id]|].
  2:{ cbn [fst snd]. apply Hdone; [done|]. intros k id Hk. by rewrite Hb, lookup_empty in Hk. }
  destruct Hb as [Hf Hmin]. destruct (Z.leb_spec first highest).
  2:{ cbn [fst snd]. apply Hdone; [done|]. intros k id' Hk. specialize (Hmin _ _ Hk). lia. }
  destruct (selective_node _ _ _ _ _ (ow_source _ _ _ Hw) Hf) as [_ Hbel].
  set (e1 := mkPending (cumulative e) (has_cumulative e) (delete first (selective e))).
  pose proof (size_delete_lt _ _ _ Hf) as Hsz.
  destruct (IH (erase_node q id) e1) as (I1 & I2 & I3 & I4 & I5 & I6 & I7).
  { eapply open_erase; [done|done|]. apply erase_selective_ok; [apply Hw|done]. }
  { cbn [selective e1]. lia. }
  split_and!; try done.
  - etransitivity; [exact I4|]. cbn [order_ erase_node]. unfold zlen.
    pose proof (length_filter (fun n => n <> id) (order_ q)). lia.
  - intros id' a Ha. apply I6 in Ha. cbn [payloads_ erase_node] in Ha. by apply lookup_delete_Some in Ha as [_ ?].
  - intros id' a Ha. destruct (decide (id = id')) as [<-|Hne].
    + right. destruct (so_selective _ _ _ (ow_source _ _ _ Hw) _ _ Hf) as (b & (Hp & Hs & Hd) & Hc & Ho).
      assert (a = b) as -> by congruence. split_and!; try done. lia.
    + apply I7. cbn [payloads_ erase_node]. by rewrite lookup_delete_ne.
Qed.

(** *** Queueing one ACK *)

(** How an operation on behalf of [ack] changes the pending ACKs: nothing but
    [ack] is added, and what disappears is covered afterwards. *)
Record replaces (q q' : AckQueue) (ack : AckPayload) (highest : Z) : Prop := {
  rp_only : forall id a, payloads_ q' !! id = Some a -> payloads_ q !! id = Some a \/ a = ack;
  rp_kept : forall id a, payloads_ q !! id = Some a -> payloads_ q' !! id = Some a \/
    source a = source ack /\ disposition a = kAccepted /\
    (observed_sequence a <= highest \/ observed_sequence a = observed_sequence ack)
}.

Lemma replaces_assign q id ack highest b :
  payloads_ q !! id = Some b -> source b = source ack -> disposition b = kAccepted ->
  observed_sequence b <= highest \/ observed_sequence b = observed_sequence ack ->
  replaces q (assign_node q id ack) ack highest.
Proof.
  intros Hb Hs Hd Ho. split; cbn [payloads_ assign_node]; intros id' a.
  - rewrite lookup_insert_Some. intros [[_ <-]|[_ H]]; auto.
  - intros Ha. destruct (decide (id' = id)) as [->|]; [|left; by rewrite lookup_insert_ne].
    right. assert (a = b) as -> by congruence. done.
Qed.

Lemma replaces_push q ack highest :
  payloads_ q !! next_node q = None -> replaces q (push_back q ack) ack highest.
Proof.
  intros Hn. split; cbn [payloads_ push_back]; intros id a.
  - rewrite lookup_insert_Some. intros [[_ <-]|[_ H]]; auto.
  - intros Ha. left. rewrite lookup_insert_ne; [done|]. intros <-. congruence.
Qed.

Lemma queued_highest_cumulative q s e :
  source_ok (payloads_ q) s e -> has_cumulative e = true ->
  exists a, holds (payloads_ q) s (cumulative e) a /\
    highest_contiguous_sequence a = Some (queued_highest q e) /\ observed_sequence a <= queued_highest q e.
Proof.
  intros Hok Hc. destruct (so_cumulative _ _ _ Hok Hc) as (a & Ha & Hk). exists a. split; [done|].
  apply is_cumulative_spec in Hk as (h & Hh & Hle). destruct Ha as (Hp & _).
  unfold queued_highest. rewrite Hp, Hh. done.
Qed.

Lemma zlen_push q ack max : zlen (order_ q) < max -> zlen (order_ (push_back q ack)) <= max.
Proof. unfold zlen. cbn [order_ push_back]. rewrite length_app. cbn [length]. lia. Qed.

Lemma place_cumulative_spec q max s e ack highest :
  open_wf q s e -> source ack = s -> disposition ack = kAccepted -> is_cumulative ack = true ->
  highest_contiguous_sequence ack = Some highest ->
  (has_cumulative e = true -> queued_highest q e < highest) ->
  match place_cumulative q max e ack highest with
  | Some (q', e') =>
      open_wf q' s e' /\ has_cumulative e' = true /\ holds (payloads_ q') s (cumulative e') ack /\
      zlen (order_ q') <= Z.max (zlen (order_ q)) max /\ replaces q q' ack highest
  | None => has_cumulative e = false /\ max <= zlen (order_ q)
  end.
Proof.
  intros Hw Hs Hd Hk Hh Hq. unfold place_cumulative. pose proof (ow_source _ _ _ Hw) as Hok.
  assert (forall p id, holds (<[id := ack]> p) s id ack) as Hins
    by (intros; unfold holds; by rewrite lookup_insert_eq).
  destruct (has_cumulative e) eqn:Hc.
  - destruct (queued_highest_cumulative _ _ _ Hok Hc) as (b & (Hp & Hbs & Hbd) & Hbh & Hbo).
    destruct (cumulative_node _ _ _ Hok Hc) as [Hsm Hbel]. specialize (Hq eq_refl).
    split_and!; [|done|by apply Hins|cbn [order_ assign_node]; lia|].
    + eapply open_assign; try done. by apply assign_cumulative_ok.
    + eapply replaces_assign; [exact Hp|congruence|done|]. left. lia.
  - assert (match (if max <=? zlen (order_ q) then None
                   else Some (push_back q ack, mkPending (next_node q) true (selective e))) with
      | Some (q', e') =>
        open_wf q' s e' /\ has_cumulative e' = true /\ holds (payloads_ q') s (cumulative e') ack /\
        zlen (order_ q') <= Z.max (zlen (order_ q)) max /\ replaces q q' ack highest
      | None => false = false /\ max <= zlen (order_ q) end) as Hfresh.
    { destruct (Z.leb_spec max (zlen (order_ q))); [done|].
      pose proof (nodes_next_fresh _ _ _ (ow_nodes _ _ _ Hw)) as Hf.
      split_and!; [|done|by apply Hins|pose proof (zlen_push q ack max ltac:(done)); lia|by apply replaces_push].
      eapply open_push; try done. by apply push_cumulative_ok. }
    pose proof (map_begin_spec (selective e)) as Hb.
    destruct (map_begin (selective e)) as [[first id]|]; [|done].
    destruct Hb as [Hf _]. destruct (Z.leb_spec first highest) as [Hle|]; [|done].
    destruct (selective_node _ _ _ _ _ Hok Hf) as [Hsm Hbel].
    destruct (so_selective _ _ _ Hok _ _ Hf) as (b & (Hp & Hbs & Hbd) & _ & Hbo).
    split_and!; [|done|by apply Hins|cbn [order_ assign_node]; lia|].
    + eapply open_assign; try done. by apply reuse_selective_ok.
    + eapply replaces_assign; [exact Hp|congruence|done|]. left. lia.
Qed.

Lemma nack_push q ack :
  queue_wf q -> disposition ack <> kAccepted -> queue_wf (push_back q ack).
Proof.
  intros [H1 H2 H3] Hd. split; [by apply nodes_push| |done]. intros s.
  eapply source_ok_frame; [|apply H2]. intros id a. unfold holds. cbn [payloads_ push_back].
  destruct (decide (id = next_node q)) as [->|]; [|by rewrite lookup_insert_ne].
  rewrite lookup_insert_eq, (nodes_next_fresh _ _ _ H1). split; intros (E & _ & ?); [|done].
  injection E as <-. done.
Qed.

Lemma drop_unchanged q s :
  queue_wf q -> drop_if_empty (set_source q s (entry_of q s)) s (entry_of q s) = q.
Proof.
  intros Hw. unfold drop_if_empty, entry_of.
  destruct (pending_ack_sources_ q !! s) as [e|] eqn:E; cbn [default from_option]; unfold id.
  - replace (set_source q s e) with q by (unfold set_source; rewrite insert_id by done; by destruct q).
    destruct (qw_nonempty _ Hw s e E) as [->|Hne]; [done|]. rewrite (bool_decide_false _ Hne).
    by rewrite andb_false_r.
  - cbn. rewrite delete_insert_id by done. by destruct q.
Qed.

(** What queueing an ACK guarantees. *)
Record queued (q q' : AckQueue) (max : Z) (ack : AckPayload) : Prop := {
  qd_wf : queue_wf q';
  qd_size : zlen (order_ q') <= Z.max (zlen (order_ q)) max;
  qd_only : forall id a, payloads_ q' !! id = Some a -> payloads_ q !! id = Some a \/ a = ack;
  qd_kept : forall id a, payloads_ q !! id = Some a -> payloads_ q' !! id = Some a \/
    disposition a = kAccepted /\ queue_covers q' (source a) (observed_sequence a);
  qd_covers : disposition ack = kAccepted -> queue_covers q' (source ack) (observed_sequence ack)
}.

(** The cumulative branch after the entry is placed. *)
Lemma finish_cumulative q q1 s e1 max ack highest :
  open_wf q1 s e1 -> source ack = s -> disposition ack = kAccepted ->
  highest_contiguous_sequence ack = Some highest -> observed_sequence ack <= highest ->
  has_cumulative e1 = true -> holds (payloads_ q1) s (cumulative e1) ack ->
  zlen (order_ q1) <= Z.max (zlen (order_ q)) max -> replaces q q1 ack highest ->
  let '(q2, e2) := drop_covered (size (selective e1)) q1 e1 highest in
  queued q (set_source q2 s e2) max ack.
Proof.
  intros Hw Hs Hd Hh Ho Hc Ha Hsz [R1 R2].
  pose proof (drop_covered_spec s highest (size (selective e1)) q1 e1 Hw ltac:(lia)) as H.
  destruct (drop_covered _ q1 e1 highest) as [q2 e2]. cbn [fst snd] in H. cbv zeta in H.
  destruct H as (D1 & D2 & D3 & D4 & D5 & D6 & D7). destruct Ha as (Hp & _).
  assert (payloads_ q2 !! cumulative e1 = Some ack) as Hp2.
  { destruct (D7 _ _ Hp) as [|(_ & _ & _ & Hn)]; [done|].
    rewrite (proj2 (is_cumulative_spec ack)) in Hn by eauto. done. }
  assert (forall n, n <= highest -> queue_covers (set_source q2 s e2) s n) as Hcov.
  { intros n Hn. exists (cumulative e1), ack. split_and!; [done|done|]. left. eauto. }
  split.
  - apply close_entry; [done|]. left. congruence.
  - cbn [order_ set_source]. lia.
  - intros id a Hid. apply R1. by apply D6.
  - intros id a Hid. cbn [payloads_ set_source].
    destruct (R2 _ _ Hid) as [Hq1|(Has & Had & Hao)].
    + destruct (D7 _ _ Hq1) as [|(Has & Had & Hao & _)]; [by left|]. right. split; [done|].
      rewrite Has. by apply Hcov.
    + right. split; [done|]. rewrite Has, Hs. apply Hcov. lia.
  - intros _. rewrite Hs. by apply Hcov.
Qed.

Lemma queue_cumulative q max ack :
  queue_wf q -> disposition ack = kAccepted -> is_cumulative ack = true ->
  match QueueAck q max ack with
  | (q', Ok _) => queued q q' max ack
  | (q', Err s) => q' = q /\ s = would_block /\ max <= zlen (order_ q)
  end.
Proof.
  intros Hw Hd Hk. unfold QueueAck. rewrite bool_decide_true by done. cbn [negb]. rewrite Hk.
  cbv zeta. fold (entry_of q (source ack)).
  pose proof Hk as (highest & Hh & Ho)%is_cumulative_spec. rewrite Hh. cbn [default from_option]. unfold id.
  set (s := source ack) in *. set (e := entry_of q s) in *. set (q0 := set_source q s e).
  assert (open_wf q0 s e) as Hopen by (apply open_set_source, open_entry, Hw).
  assert (queued_highest q0 e = queued_highest q e) as Hq by done.
  destruct (has_cumulative e && (highest <=? queued_highest q0 e)) eqn:Eq.
  - apply andb_true_iff in Eq as [Hc Hle]. apply Z.leb_le in Hle.
    destruct (queued_highest_cumulative _ _ _ (ow_source _ _ _ Hopen) Hc) as (b & (Hp & Hbs & Hbd) & Hbh & _).
    split; try done.
    + apply close_entry; [|by left]. by apply open_entry.
    + cbn [order_ set_source q0]. lia.
    + intros id a. by left.
    + intros id a. by left.
    + intros _. exists (cumulative e), b. split_and!; [done|done|]. left. eexists. split; [exact Hbh|]. lia.
  - pose proof (place_cumulative_spec q0 max s e ack highest Hopen eq_refl Hd Hk Hh) as Hpl.
    destruct (place_cumulative q0 max e ack highest) as [[q1 e1]|].
    + destruct Hpl as (P1 & P2 & P3 & P4 & [R1 R2]).
      { intros Hc. rewrite Hc in Eq. cbn in Eq. by apply Z.leb_gt in Eq. }
      pose proof (finish_cumulative q q1 s e1 max ack highest P1 eq_refl Hd Hh Ho P2 P3 P4
        (Build_replaces q q1 ack highest R1 R2)) as Hfin.
      destruct (drop_covered _ q1 e1 highest) as [q2 e2]. exact Hfin.
    + destruct Hpl as [_ Hfull].
      { intros Hc. rewrite Hc in Eq. cbn in Eq. by apply Z.leb_gt in Eq. }
      split_and!; [by apply drop_unchanged|done|done].
Qed.

Lemma queue_selective q max ack :
  queue_wf q -> disposition ack = kAccepted -> is_cumulative ack = false ->
  match QueueAck q max ack with
  | (q', Ok _) => queued q q' max ack
  | (q', Err s) => q' = q /\ s = would_block /\ max <= zlen (order_ q)
  end.
Proof.
  intros Hw Hd Hk. unfold QueueAck. rewrite bool_decide_true by done. cbn [negb]. rewrite Hk.
  cbv zeta. fold (entry_of q (source ack)).
  set (s := source ack) in *. set (e := entry_of q s) in *. set (q0 := set_source q s e).
  assert (open_wf q s e) as Hopen by (by apply open_entry).
  pose proof (ow_source _ _ _ Hopen) as Hok.
  assert (forall (p : gmap nat AckPayload) id, <[id := ack]> p !! id = Some ack) as Hins
    by (intros; apply lookup_insert_eq).
  destruct (has_cumulative e && (observed_sequence ack <=? queued_highest q0 e)) eqn:Eq.
  - apply andb_true_iff in Eq as [Hc Hle]. apply Z.leb_le in Hle.
    destruct (queued_highest_cumulative _ _ _ Hok Hc) as (b & (Hp & Hbs & Hbd) & Hbh & _).
    split; [by apply close_entry; [|left]|cbn [order_ set_source q0]; lia|by left|by left|].
    intros _. exists (cumulative e), b. split_and!; [done|done|]. left. eexists. split; [exact Hbh|]. done.
  - destruct (selective e !! observed_sequence ack) as [id|] eqn:Es.
    + destruct (selective_node _ _ _ _ _ Hok Es) as [Hsm Hbel].
      destruct (so_selective _ _ _ Hok _ _ Es) as (b & (Hp & Hbs & Hbd) & _ & Hbo).
      assert (queue_covers (assign_node q0 id ack) s (observed_sequence ack)) as Hcov.
      { exists id, ack. split_and!; [apply Hins|done|by right]. }
      destruct (replaces_assign q0 id ack 0 b Hp Hbs Hbd (or_intror Hbo)) as [R1 R2].
      split; [|cbn [order_ assign_node set_source q0]; lia|exact R1| |done].
      * change (queue_wf (set_source (assign_node q id ack) s e)). apply close_entry.
        -- eapply open_assign; try done. by apply assign_selective_ok.
        -- right. intros E. by rewrite E, lookup_empty in Es.
      * intros id' a Ha. destruct (R2 _ _ Ha) as [|(Has & Had & _)]; [by left|].
        cbn [payloads_ assign_node set_source q0] in *. destruct (decide (id' = id)) as [->|];
          [|left; by rewrite lookup_insert_ne].
        right. split; [done|]. assert (a = b) as -> by congruence. rewrite Has, Hbo. exact Hcov.
    + change (order_ q0) with (order_ q). destruct (Z.leb_spec max (zlen (order_ q))).
      { split_and!; [by apply drop_unchanged|done|done]. }
      pose proof (nodes_next_fresh _ _ _ (ow_nodes _ _ _ Hopen)) as Hf.
      destruct (replaces_push q ack 0 Hf) as [R1 R2]. split.
      * change (queue_wf (set_source (set_source (push_back q ack) s e) s
          (mkPending (cumulative e) (has_cumulative e) (<[observed_sequence ack := next_node q]> (selective e))))).
        apply close_entry; [apply open_set_source; eapply open_push; try done; by apply push_selective_ok|].
        right. apply insert_non_empty.
      * cbn [order_ set_source]. pose proof (zlen_push q0 ack max ltac:(done)). lia.
      * exact R1.
      * intros id a Ha. left. cbn [payloads_ set_source push_back q0]. rewrite lookup_insert_ne; [done|].
        intros <-. change (next_node q0) with (next_node q) in Ha. congruence.
      * intros _. exists (next_node q), ack. split_and!; [apply Hins|done|by right].
Qed.

Lemma QueueAck_spec q max ack :
  queue_wf q ->
  match QueueAck q max ack with
  | (q', Ok _) => queued q q' max ack
  | (q', Err s) => q' = q /\ s = would_block /\ max <= zlen (order_ q)
  end.
Proof.
  intros Hw. destruct (decide (disposition ack = kAccepted)) as [Hd|Hd].
  { destruct (is_cumulative ack) eqn:Hk; [by apply queue_cumulative|by apply queue_selective]. }
  unfold QueueAck. rewrite bool_decide_false by done. cbn [negb]. cbv zeta.
  destruct (Z.leb_spec max (zlen (order_ q))); [done|].
  destruct (replaces_push q ack 0 (nodes_next_fresh _ _ _ (qw_nodes _ Hw))) as [R1 R2].
  split; [by apply nack_push|pose proof (zlen_push q ack max ltac:(done)); lia|done| |done].
  intros id a Ha. left. cbn [payloads_ push_back]. rewrite lookup_insert_ne; [done|].
  intros <-. rewrite (nodes_next_fresh _ _ _ (qw_nodes _ Hw)) in Ha. done.
Qed.

(** *** Room for an ACK before it exists *)

Lemma CanQueueAck_sound q max ack ack' h h' :
  queue_wf q -> CanQueueAck q max ack = true ->
  disposition ack = kAccepted -> disposition ack' = kAccepted ->
  source ack' = source ack -> observed_sequence ack' = observed_sequence ack ->
  highest_contiguous_sequence ack = Some h -> highest_contiguous_sequence ack' = Some h' ->
  h <= h' -> (observed_sequence ack <= h' -> observed_sequence ack <= h) ->
  is_ok (QueueAck q max ack').2 = true.
Proof.
  intros Hw Hcan Hd Hd' Hs Ho Hh Hh' Hle Himp.
  destruct (QueueAck q max ack') as [q' [[]|err]] eqn:E; [done|exfalso].
  pose proof (QueueAck_spec q max ack' Hw) as Hsp. rewrite E in Hsp. destruct Hsp as (_ & _ & Hfull).
  assert (is_cumulative ack' = is_cumulative ack) as Hk.
  { unfold is_cumulative. rewrite Hh, Hh', Ho.
    destruct (Z.leb_spec (observed_sequence ack) h), (Z.leb_spec (observed_sequence ack) h'); lia || done. }
  unfold CanQueueAck in Hcan. rewrite (proj2 (Z.ltb_ge _ _) Hfull), bool_decide_true in Hcan by done.
  cbn [negb] in Hcan. destruct (pending_ack_sources_ q !! source ack) as [e|] eqn:He; [|done].
  unfold QueueAck in E. rewrite bool_decide_true in E by done. cbn [negb] in E. cbv zeta in E.
  rewrite Hs, He, Hh', Ho, Hk in E. cbn [default from_option] in E. unfold id in E.
  change (queued_highest (set_source q (source ack) e) e) with (queued_highest q e) in E.
  change (order_ (set_source q (source ack) e)) with (order_ q) in E.
  rewrite Hh in Hcan. cbn [default from_option] in Hcan. unfold id in Hcan.
  assert (forall q1 e1, (let '(q, e) := drop_covered (size (selective e1)) q1 e1 h' in
    (set_source q (source ack) e, Ok tt)) <> (q', Err err)) as Hdrop.
  { intros q1 e1. by destruct (drop_covered _ q1 e1 h'). }
  pose proof (map_begin_spec (selective e)) as Hb.
  destruct (is_cumulative ack) eqn:Ek.
  - destruct (has_cumulative e && (h' <=? queued_highest q e)); [done|].
    unfold place_cumulative in E. destruct (has_cumulative e) eqn:Hc; [by apply Hdrop in E|].
    cbn [andb] in Hcan. destruct (map_begin (selective e)) as [[first id]|].
    + destruct (Z.leb_spec first h') as [|Hgt]; [by apply Hdrop in E|].
      destruct Hb as [_ Hmin]. case_bool_decide as Hsel.
      * destruct Hsel as [id' Hsel]. specialize (Hmin _ _ Hsel).
        apply is_cumulative_spec in Ek as (h1 & Hh1 & Ho1). assert (h1 = h) as -> by congruence. lia.
      * apply Z.leb_le in Hcan. lia.
    + rewrite Hb, lookup_empty in Hcan. by rewrite bool_decide_false in Hcan by (by intros [? ?]).
  - rewrite orb_false_r in Hcan. destruct (has_cumulative e && _); [done|].
    case_bool_decide as Hsel; [|done]. destruct Hsel as [id' Hsel]. by rewrite Hsel in E.
Qed.

(** *** Sending *)

Lemma source_ok_empty p s e :
  source_ok p s e -> has_cumulative e = false -> selective e = ∅ -> source_ok p s no_pending.
Proof.
  intros [H1 H2 H3] Hc Hs. split; [done|intros n id H; cbn in H; by rewrite lookup_empty in H|].
  intros id a Ha. specialize (H3 id a Ha). destruct (is_cumulative a).
  - destruct H3 as [H3 _]. congruence.
  - by rewrite Hs in H3.
Qed.

(** The entry without the node of a sent ACK. *)
Definition without_node (e : PendingAckSource) (id : nat) (n : Z) : PendingAckSource :=
  mkPending (cumulative e) (has_cumulative e && negb (Nat.eqb (cumulative e) id))
    (if bool_decide (selective e !! n = Some id) then delete n (selective e) else selective e).

Lemma without_node_ok p s e id a :
  source_ok p s e -> holds p s id a ->
  source_ok (delete id p) s (without_node e id (observed_sequence a)).
Proof.
  intros Hok Ha. pose proof (so_referenced _ _ _ Hok _ _ Ha) as Hr. unfold without_node.
  destruct (is_cumulative a) eqn:Ek.
  - destruct Hr as [Hc <-]. rewrite Nat.eqb_refl, bool_decide_false, andb_false_r.
    2:{ intros H. by apply (cumulative_not_selective p s e Hok _ _ Hc H). }
    split; cbn [has_cumulative cumulative selective]; [done| |].
    + intros n id Hn. destruct (so_selective _ _ _ Hok n id Hn) as (b & Hb & H). exists b.
      split; [|done]. apply holds_delete. split; [|done]. intros ->. by apply (cumulative_not_selective p s e Hok _ _ Hc Hn).
    + intros id b [Hne Hb]%holds_delete. pose proof (so_referenced _ _ _ Hok _ _ Hb) as Hrb.
      destruct (is_cumulative b); [|done]. destruct Hrb as [_ Hrb]. congruence.
  - rewrite bool_decide_true by done.
    replace (has_cumulative e && negb (Nat.eqb (cumulative e) id)) with (has_cumulative e).
    { by apply erase_selective_ok. }
    destruct (has_cumulative e) eqn:Hc; [|done]. cbn. symmetry. apply negb_true_iff, Nat.eqb_neq.
    by apply (cumulative_not_selective p s e Hok _ _ Hc Hr).
Qed.

Lemma RemovePendingAck_spec q id a :
  queue_wf q -> payloads_ q !! id = Some a ->
  queue_wf (RemovePendingAck q id) /\ payloads_ (RemovePendingAck q id) = delete id (payloads_ q) /\
  order_ (RemovePendingAck q id) = filter (fun n => n <> id) (order_ q).
Proof.
  intros [H1 H2 H3] Ha. unfold RemovePendingAck. rewrite Ha. split; [|done].
  destruct (decide (disposition a = kAccepted)) as [Hd|Hd].
  2:{ rewrite bool_decide_false by done. split; [by apply nodes_erase| |done]. intros s.
      eapply source_ok_frame; [|apply H2]. intros id' b. cbn [payloads_ erase_node]. unfold holds.
      rewrite lookup_delete_Some. split; [tauto|]. intros (Hb & ? & ?). split; [|done].
      split; [|done]. intros <-. congruence. }
  rewrite bool_decide_true by done. set (s := source a).
  assert (holds (payloads_ q) s id a) as Hh by done.
  pose proof (without_node_ok _ _ _ _ _ (H2 s) Hh) as Hok'.
  assert (forall t, t <> s -> source_ok (delete id (payloads_ q)) t (entry_of q t)) as Hoth.
  { intros t Ht. eapply source_ok_frame; [|apply H2]. intros id' b. apply (holds_delete_other _ s); [done|].
    intros x Hx _. subst s; congruence. }
  assert (is_Some (pending_ack_sources_ q !! s)) as [e He].
  { pose proof (so_referenced _ _ _ (H2 s) _ _ Hh) as Hr. unfold entry_of in Hr.
    destruct (pending_ack_sources_ q !! s); [by eexists|]. cbn in Hr.
    destruct (is_cumulative a); [by destruct Hr|by rewrite lookup_empty in Hr]. }
  unfold entry_of in Hok'. rewrite He in *. cbn [default from_option] in Hok'. unfold Datatypes.id in Hok'.
  fold (without_node e id (observed_sequence a)). cbv zeta.
  change (has_cumulative e && negb (Nat.eqb (cumulative e) id))
    with (has_cumulative (without_node e id (observed_sequence a))).
  change (if bool_decide (selective e !! observed_sequence a = Some id) then _ else _)
    with (selective (without_node e id (observed_sequence a))).
  set (e' := without_node e id (observed_sequence a)) in *.
  destruct (has_cumulative e') eqn:Hc; cbn [negb andb]; [|case_bool_decide as Hsel]; split;
    cbn [order_ payloads_ next_node erase_node pending_ack_sources_]; try (by apply nodes_erase).
  - intros t. unfold entry_of. cbn [pending_ack_sources_ erase_node].
    destruct (decide (t = s)) as [->|]; [rewrite lookup_insert_eq|rewrite lookup_insert_ne by done; by apply Hoth].
    done.
  - intros t e2. rewrite lookup_insert_Some. intros [[<- <-]|[_ Ht]]; [by left|by apply (H3 t)].
  - intros t. unfold entry_of. cbn [pending_ack_sources_ erase_node].
    destruct (decide (t = s)) as [->|]; [rewrite lookup_delete_eq|rewrite lookup_delete_ne by done; by apply Hoth].
    by apply (source_ok_empty _ _ e').
  - intros t e2 [_ Ht]%lookup_delete_Some. by apply (H3 t).
  - intros t. unfold entry_of. cbn [pending_ack_sources_ erase_node].
    destruct (decide (t = s)) as [->|]; [rewrite lookup_insert_eq|rewrite lookup_insert_ne by done; by apply Hoth].
    done.
  - intros t e2. rewrite lookup_insert_Some. intros [[<- <-]|[_ Ht]]; [by right|by apply (H3 t)].
Qed.

Lemma empty_queue_wf : queue_wf empty_queue.
Proof.
  split.
  - split; [constructor| |]; intros id; cbn.
    + rewrite lookup_empty. split; [by intros ?%not_elem_of_nil|by intros [? ?]].
    + by intros ?%not_elem_of_nil.
  - intros s. unfold entry_of. cbn. rewrite lookup_empty. cbn. split; [done| |].
    + intros n id. cbn. by rewrite lookup_empty.
    + intros id a (H & _). by rewrite lookup_empty in H.
  - intros s e. cbn. by rewrite lookup_empty.
Qed.

(** ** Properties *)

(** A sequence of operations on one queue. *)
Inductive QueueCall : Set :=
| CallQueueAck (ack : AckPayload)
| CallPop.
Definition run_queue (max : Z) (q : AckQueue) (c : QueueCall) : AckQueue :=
  match c with
  | CallQueueAck ack => (QueueAck q max ack).1
  | CallPop => pop_ack q
  end.

Lemma pop_ack_spec q :
  queue_wf q -> queue_wf (pop_ack q) /\ zlen (order_ (pop_ack q)) <= zlen (order_ q).
Proof.
  intros Hw. unfold pop_ack. destruct (order_ q) as [|id rest] eqn:E; [by rewrite E|].
  assert (is_Some (payloads_ q !! id)) as [a Ha].
  { apply (no_payload _ _ _ (qw_nodes _ Hw)). rewrite E. by left. }
  destruct (RemovePendingAck_spec q id a Hw Ha) as (H1 & _ & ->). split; [done|].
  rewrite E. unfold zlen. pose proof (length_filter (fun n => n <> id) (id :: rest)). lia.
Qed.

Lemma run_queue_spec max calls : forall q,
  queue_wf q -> zlen (order_ q) <= max ->
  queue_wf (foldl (run_queue max) q calls) /\ zlen (order_ (foldl (run_queue max) q calls)) <= max.
Proof.
  induction calls as [|[ack|] calls IH]; intros q Hw Hl; cbn [foldl run_queue]; [done| |].
  - apply IH; pose proof (QueueAck_spec q max ack Hw) as H; destruct (QueueAck q max ack) as [q' [?|e]];
      cbn [fst].
    + apply H.
    + by destruct H as [-> _].
    + pose proof (qd_size _ _ _ _ H). lia.
    + by destruct H as [-> _].
  - destruct (pop_ack_spec q Hw) as [H1 H2]. apply IH; [done|lia].
Qed.

(** In every queue reached by queueing and sending ACKs, the ACKs fit the
    limit, and queueing one more either refuses, when the queue is full, without
    any change, or succeeds: nothing but the ACK is added, every ACK that is
    overwritten or dropped reported a sequence that the queue still covers, and
    the new observed sequence is covered.  Every iterator of the source table
    points to a live ACK of its source. *)
Theorem queue_ack_coalesces (max : Z) (calls : list QueueCall) (ack : AckPayload) :
  0 <= max ->
  let q := foldl (run_queue max) empty_queue calls in
  queue_wf q /\ zlen (order_ q) <= max /\
  match QueueAck q max ack with
  | (q', Err s) => q' = q /\ s = would_block /\ zlen (order_ q) = max
  | (q', Ok _) =>
      zlen (order_ q') <= max /\
      (forall id a, payloads_ q' !! id = Some a -> payloads_ q !! id = Some a \/ a = ack) /\
      (forall id a, payloads_ q !! id = Some a -> payloads_ q' !! id = Some a \/
         disposition a = kAccepted /\ queue_covers q' (source a) (observed_sequence a)) /\
      (disposition ack = kAccepted -> queue_covers q' (source ack) (observed_sequence ack))
  end.
Proof.
  intros Hmax q. destruct (run_queue_spec max calls empty_queue empty_queue_wf) as [Hw Hl].
  { unfold zlen. cbn. lia. }
  fold q in Hw, Hl. split_and!; [done|done|]. pose proof (QueueAck_spec q max ack Hw) as H.
  destruct (QueueAck q max ack) as [q' [?|e]].
  - destruct H as [_ H1 H2 H3 H4]. split_and!; [lia|done..].
  - destruct H as (-> & -> & H). split_and!; [done|done|lia].
Qed.

Definition sample_ack_at (n : Z) (h : Z) : AckPayload := mkAck 6 5 (mkSource 7 8 9) n (Some h) kAccepted.

Lemma queue_ack_coalesces_witness :
  queue_wf (foldl (run_queue 2) empty_queue [CallQueueAck (sample_ack_at 2 0); CallQueueAck (sample_ack_at 3 0)]) /\
  (QueueAck (foldl (run_queue 2) empty_queue [CallQueueAck (sample_ack_at 2 0); CallQueueAck (sample_ack_at 3 0)])
     2 (sample_ack_at 4 0)).2 = Err would_block /\
  map_size (payloads_ (QueueAck (foldl (run_queue 2) empty_queue
     [CallQueueAck (sample_ack_at 2 0); CallQueueAck (sample_ack_at 3 0)]) 2 (sample_ack_at 1 3)).1) = 1%nat.
Proof.
  split; [|split; vm_compute; reflexivity].
  exact (proj1 (queue_ack_coalesces 2 [CallQueueAck (sample_ack_at 2 0); CallQueueAck (sample_ack_at 3 0)]
    (sample_ack_at 4 0) ltac:(lia))).
Defined.

(** An ACK that [CanQueueAck] admits before publication can be queued after
    it, although committing may have moved the cumulative mark further: the mark
    only grows, and the observed sequence is in the prefix exactly when it was
    foreseen to be. *)
Theorem can_queue_ack_sound (q : AckQueue) (max : Z) (ack : AckPayload) (foreseen actual : Z) :
  queue_wf q -> disposition ack = kAccepted -> foreseen <= actual ->
  (observed_sequence ack <= actual -> observed_sequence ack <= foreseen) ->
  let with_highest h := mkAck (sender_session_epoch ack) (receiver_session_epoch ack) (source ack)
                          (observed_sequence ack) (Some h) (disposition ack) in
  CanQueueAck q max (with_highest foreseen) = true ->
  exists q', QueueAck q max (with_highest actual) = (q', Ok tt) /\ queue_wf q' /\
    queue_covers q' (source ack) (observed_sequence ack).
Proof.
  intros Hw Hd Hle Himp with_highest Hcan.
  pose proof (CanQueueAck_sound q max (with_highest foreseen) (with_highest actual) foreseen actual
    Hw Hcan Hd Hd eq_refl eq_refl eq_refl eq_refl Hle Himp) as Hok.
  pose proof (QueueAck_spec q max (with_highest actual) Hw) as H.
  destruct (QueueAck q max (with_highest actual)) as [q' [[]|e]]; [|done].
  exists q'. destruct H as [H1 _ _ _ H4]. split_and!; [done|done|by apply H4].
Qed.

Lemma can_queue_ack_sound_witness :
  exists q', QueueAck empty_queue 1 (sample_ack_at 1 5) = (q', Ok tt) /\
    queue_covers q' (mkSource 7 8 9) 1.
Proof.
  destruct (can_queue_ack_sound empty_queue 1 (sample_ack_at 1 5) 1 5 empty_queue_wf eq_refl
    ltac:(lia) ltac:(cbn; lia) ltac:(vm_compute; reflexivity)) as (q' & H & _ & Hc).
  exists q'. split; [exact H|exact Hc].
Defined.
