(* ===== verification/DedupSession.v ===== *)
(** * The deduplication window at one instant

    What a client that calls the window several times at the same time stamp can
    rely on: the first call evicts the expired sources, and the later ones see a
    window in which nothing expires.  The receiving half of the bridge pipeline
    ([HandleData]) is proved against these facts. *)
From S2P Require Import Prelude SourceIdentity DedupWindow.

(** No retained source is expired at [now_ns]. *)
Definition all_fresh (w : DedupWindow) (now_ns : Z) : Prop :=
  forall s e, view w s = Some e -> fresh w now_ns e.

(** The cumulative mark of a source, zero when it is not retained. *)
Definition mark (w : DedupWindow) (s : SourceIdentity) : Z :=
  match view w s with Some e => highest_contiguous_sequence e | None => 0 end.

(** Two states of a source with the same accepted set. *)
Definition same_marks (e e' : SourceState) : Prop :=
  highest_contiguous_sequence e' = highest_contiguous_sequence e /\ gap_words e' = gap_words e.
#[export] Instance same_marks_equiv : Equivalence same_marks.
Proof.
  split; [done|intros x y []; by split|intros x y z [] []; split; congruence].
Qed.

Lemma accepted_same e e' n : same_marks e e' -> accepted e' n <-> accepted e n.
Proof. intros [H1 H2]. unfold accepted, gap. by rewrite H1, H2. Qed.

(** Every state of [w'] was a state of [w], up to the time of its last use. *)
Definition remembers (w w' : DedupWindow) : Prop :=
  forall s e', view w' s = Some e' -> exists e, view w s = Some e /\ same_marks e e'.
#[export] Instance remembers_refl : Reflexive remembers.
Proof. intros w s e H. by exists e. Qed.
#[export] Instance remembers_trans : Transitive remembers.
Proof.
  intros x y z H1 H2 s e Hz. destruct (H2 s e Hz) as (e1 & Hy & Hm1).
  destruct (H1 s e1 Hy) as (e2 & Hx & Hm2). exists e2. split; [done|]. by transitivity e1.
Qed.

Lemma remembers_accepted w w' s n :
  remembers w w' -> window_accepted w' s n -> window_accepted w s n.
Proof.
  intros H. unfold window_accepted. destruct (view w' s) as [e'|] eqn:E; [|done].
  destruct (H s e' E) as (e & -> & Hm). by apply accepted_same.
Qed.

(** The mark of every retained source is the end of its accepted prefix. *)
Definition normal (w : DedupWindow) : Prop :=
  forall s e, view w s = Some e -> ~ accepted e (highest_contiguous_sequence e + 1).

Lemma remembers_normal w w' : remembers w w' -> normal w -> normal w'.
Proof.
  intros H Hn s e' He'. destruct (H s e' He') as (e & He & Hm). rewrite (accepted_same _ _ _ Hm).
  destruct Hm as [-> _]. by apply (Hn s).
Qed.

(** A source whose bitmap is empty. *)
Lemma accepted_seeded s h now words n : accepted (mkState s h now (replicate words 0)) n <-> 1 <= n <= h.
Proof.
  unfold accepted, gap. cbn [highest_contiguous_sequence gap_words].
  assert (gap_value (replicate words 0) = 0) as ->.
  { induction words as [|k IH]; [done|]. cbn. unfold gap_value in IH. lia. }
  rewrite Z.bits_0. split; [intros [?|[_ ?]]; [lia|done]|by left].
Qed.

(** The sources of [w'] are those of [w], and [s]. *)
Definition sources_from (w w' : DedupWindow) (s : SourceIdentity) : Prop :=
  forall t, is_Some (view w' t) -> t = s \/ is_Some (view w t).

Lemma remembers_sources w w' s : remembers w w' -> sources_from w w' s.
Proof. intros H t [e He]. destruct (H t e He) as (e0 & H0 & _). right. by eexists. Qed.

Lemma others_sources w w1 w' s : remembers w w1 -> others_kept w1 w' s -> sources_from w w' s.
Proof.
  intros Hr H t [e He]. destruct (decide (t = s)) as [->|Hne]; [by left|]. apply H in He; [|done].
  apply (remembers_sources w w1 s Hr). by eexists.
Qed.

(** ** Expiry *)

Lemma purge_view w now s :
  dedup_wf w ->
  view (PurgeExpired w now).1 s =
  match view w s with Some e => if decide (fresh w now e) then Some e else None | None => None end.
Proof.
  intros Hw. destruct (PurgeExpired_spec w now (df_core _ Hw)) as (Hc & _ & He).
  apply option_eq. intros e. rewrite (view_spec _ 0) by done. rewrite He, list_elem_of_filter.
  destruct (view w s) as [x|] eqn:Ex.
  - pose proof (proj1 (view_spec w 0 s x (df_core _ Hw)) Ex) as [Hx Hs].
    split.
    + intros [[Hf Hin] Hse]. assert (view w s = Some e) as Ee by (by apply (view_spec _ 0 _ _ (df_core _ Hw))).
      assert (x = e) as -> by congruence. by rewrite decide_True.
    + destruct (decide _); [intros [= <-]|done]. done.
  - split; [|done]. intros [[Hf Hin] Hse].
    assert (view w s = Some e) by (by apply (view_spec _ 0 _ _ (df_core _ Hw))). congruence.
Qed.

Lemma purge_config w now : dedup_wf w -> same_config w (PurgeExpired w now).1.
Proof. intros Hw. by destruct (PurgeExpired_spec w now (df_core _ Hw)) as (_ & ? & _). Qed.

Lemma fresh_config w w' now e : same_config w w' -> fresh w' now e <-> fresh w now e.
Proof. intros (H & _). unfold fresh. by rewrite H. Qed.

Lemma purge_all_fresh w now : dedup_wf w -> all_fresh (PurgeExpired w now).1 now.
Proof.
  intros Hw s e. rewrite purge_view by done. destruct (view w s); [|done].
  case_decide as H; [|done]. intros [= <-]. by apply (fresh_config w _ now _ (purge_config w now Hw)).
Qed.

Lemma purge_remembers w now : dedup_wf w -> remembers w (PurgeExpired w now).1.
Proof.
  intros Hw s e. rewrite purge_view by done. destruct (view w s) as [x|]; [|done].
  case_decide; [|done]. intros [= <-]. by exists x.
Qed.

Lemma purge_settled w now s : dedup_wf w -> all_fresh w now -> view (PurgeExpired w now).1 s = view w s.
Proof.
  intros Hw Hf. rewrite purge_view by done. destruct (view w s) as [e|] eqn:E; [|done].
  by rewrite decide_True by by apply (Hf s).
Qed.

Lemma fresh_now w now e : 0 <= max_source_age_ns (options_ w) -> last_activity_ns e = now -> fresh w now e.
Proof.
  intros Ha <-. unfold fresh, IsExpired. apply andb_false_iff. right. apply Z.ltb_ge. lia.
Qed.

(** ** Touching one source *)

Lemma touch_spec w now i e e' :
  dedup_wf w -> all_fresh w now -> 0 <= max_source_age_ns (options_ w) ->
  entries_ w !! i = Some e -> source e' = source e ->
  state_ok (bitmap_words_ w) (max_sequence_distance (options_ w)) e' -> last_activity_ns e' = now ->
  dedup_wf (set_entry w i e') /\ same_config w (set_entry w i e') /\ all_fresh (set_entry w i e') now /\
  view (set_entry w i e') (source e) = Some e' /\
  (forall s, s <> source e -> view (set_entry w i e') s = view w s).
Proof.
  intros Hw Hf Ha Hi Hs Hok Hact. destruct (set_entry_spec w i e e' Hw Hi Hs Hok) as (S1 & S2 & S3 & S4).
  split_and!; try done. intros s x Hx. apply (fresh_config w _ _ _ S2).
  destruct (decide (s = source e)) as [->|Hne].
  - assert (x = e') as -> by congruence. by apply fresh_now.
  - rewrite S4 in Hx by done. by apply (Hf s).
Qed.

(** Recording the activity of a retained source. *)
Lemma touch_activity w now s i e :
  dedup_wf w -> all_fresh w now -> 0 <= max_source_age_ns (options_ w) -> Find w s = Some (i, e) ->
  let w' := set_entry w i (set_activity e now) in
  dedup_wf w' /\ same_config w w' /\ all_fresh w' now /\ remembers w w' /\ source e = s /\
  view w s = Some e /\ view w' s = Some (set_activity e now) /\
  (forall n, window_accepted w' s n <-> window_accepted w s n) /\ mark w' s = mark w s.
Proof.
  intros Hw Hf Ha Hi. pose proof (proj1 (Find_spec w 0 s i e (df_core _ Hw)) Hi) as [Hlk Hse].
  assert (view w s = Some e) as Hv by (unfold view; by rewrite Hi).
  destruct (view_state_ok w s e Hw Hv) as [Hok _].
  destruct (touch_spec w now i e (set_activity e now) Hw Hf Ha Hlk eq_refl (set_activity_ok _ _ _ _ Hok) eq_refl)
    as (S1 & S2 & S3 & S4 & S5). rewrite Hse in *. cbv zeta. split_and!; try done.
  - intros t x Hx. destruct (decide (t = s)) as [->|Hne].
    + exists e. split; [done|]. assert (x = set_activity e now) as -> by congruence. done.
    + rewrite S5 in Hx by done. by exists x.
  - intros n. unfold window_accepted. by rewrite S4, Hv.
  - unfold mark. by rewrite S4, Hv.
Qed.

(** ** The calls *)

Section Calls.
Context (w : DedupWindow) (epoch now : Z) (s : SourceIdentity).
Context (Hw : dedup_wf w) (Hage : 0 <= max_source_age_ns (options_ w)).
Context (Hactive : session_active_ w = true) (Hepoch : epoch = peer_session_epoch_ w).

Lemma session_guard : negb (session_active_ w) || negb (epoch =? peer_session_epoch_ w) = false.
Proof. by rewrite Hactive, Hepoch, Z.eqb_refl. Qed.

Lemma check_step seq :
  1 <= seq ->
  exists w' r, Check w epoch s seq now = (w', Ok r) /\ dedup_wf w' /\ same_config w w' /\
    all_fresh w' now /\ remembers w w' /\
    check_highest r = Some (mark w' s) /\ decision r <> kStaleSession /\
    (decision r = kAccept <->
     ~ window_accepted w' s seq /\ seq - mark w' s <= max_sequence_distance (options_ w)) /\
    (decision r = kDuplicateAccepted <->
     window_accepted w' s seq /\ mark w' s - seq < max_sequence_distance (options_ w)) /\
    (all_fresh w now -> forall t, window_accepted w' t seq <-> window_accepted w t seq) /\
    (all_fresh w now -> mark w' s = mark w s).
Proof.
  intros Hseq. unfold Check. rewrite session_guard, (proj2 (Z.eqb_neq seq 0)) by lia. cbv zeta.
  pose proof (PurgeExpired_wf w now Hw) as Hw1. pose proof (purge_config w now Hw) as Hc1.
  pose proof (purge_all_fresh w now Hw) as Hf1. pose proof (purge_remembers w now Hw) as Hr1.
  pose proof (purge_settled w now) as Hset.
  set (w1 := (PurgeExpired w now).1) in *. assert (options_ w1 = options_ w) as Hopt by apply Hc1.
  pose proof (oo_distance _ (wc_options _ _ (df_core _ Hw1))) as Hd.
  destruct (Find w1 s) as [[i e]|] eqn:Ef.
  - destruct (touch_activity w1 now s i e Hw1 Hf1 ltac:(by rewrite Hopt) Ef)
      as (T1 & T2 & T3 & T4 & T5 & T6 & T7 & T8 & T9).
    set (w2 := set_entry w1 i (set_activity e now)) in *.
    destruct (view_state_ok _ _ _ T1 T7) as [Hok _].
    destruct (Classify_spec w2 _ _ (set_activity e now) seq Hok eq_refl) as (C1 & C2 & C3 & C4);
      [change (options_ w2) with (options_ w1); change (bitmap_words_ w2) with (bitmap_words_ w1); lia|done|].
    assert (options_ w2 = options_ w) as Hopt2 by done.
    assert (mark w2 s = highest_contiguous_sequence (set_activity e now)) as Hm by (unfold mark; by rewrite T7).
    assert (forall n, window_accepted w2 s n <-> accepted (set_activity e now) n) as Hwa
      by (intros n; unfold window_accepted; by rewrite T7).
    eexists _, _. split; [reflexivity|].
    set (w3 := set_stats w2 _).
    assert (forall t, view w3 t = view w2 t) as Hv3 by done.
    assert (mark w3 s = mark w2 s) as Hm3 by done. rewrite Hm3, Hm, C1, C2, C3, <- Hwa, Hopt2.
    split_and!; try done.
    + by apply set_stats_wf.
    + transitivity w1; [done|]. exact T4.
    + intros Hfw t. change (window_accepted w3 t seq) with (window_accepted w2 t seq).
      unfold window_accepted at 2. rewrite <- (Hset t Hw Hfw).
      destruct (decide (t = s)) as [->|Hne]; [apply T8|]. unfold window_accepted.
      assert (view w2 t = view w1 t) as ->; [|done].
      pose proof (proj1 (Find_spec w1 0 s i e (df_core _ Hw1)) Ef) as [Hlk Hse].
      destruct (view_state_ok _ _ _ Hw1 T6) as [Hok1 _].
      destruct (set_entry_spec w1 i e (set_activity e now) Hw1 Hlk eq_refl (set_activity_ok _ _ _ _ Hok1))
        as (_ & _ & _ & S4). apply S4. congruence.
    + intros Hfw. rewrite <- Hm, T9. unfold mark. by rewrite <- (Hset s Hw Hfw).
  - assert (view w1 s = None) as Hv by (unfold view; by rewrite Ef).
    assert (forall st, mark (set_stats w1 st) s = 0) as Hm by (intros; change (mark w1 s = 0); unfold mark; by rewrite Hv).
    assert (forall st, ~ window_accepted (set_stats w1 st) s seq) as Hna
      by (intros st; change (~ window_accepted w1 s seq); unfold window_accepted; rewrite Hv; tauto).
    assert (forall st, all_fresh w now -> forall t, window_accepted (set_stats w1 st) t seq <-> window_accepted w t seq) as Hsame.
    { intros st Hfw t. change (window_accepted w1 t seq <-> window_accepted w t seq).
      unfold window_accepted. by rewrite <- (Hset t Hw Hfw). }
    assert (all_fresh w now -> mark w s = 0) as Hm0 by (intros Hfw; unfold mark; by rewrite <- (Hset s Hw Hfw), Hv).
    rewrite Hopt. destruct (Z.ltb_spec (max_sequence_distance (options_ w)) seq);
      eexists _, _; (split; [reflexivity|]); rewrite Hm; cbn [check_highest decision];
      (split_and!; try done; [by apply set_stats_wf|..]);
      try (split; [done|intros [? ?]; lia || by destruct (Hna _ ltac:(eassumption))]);
      try (intros Hfw; by rewrite Hm0);
      try (by apply Hsame).
    split; [intros _; split; [apply Hna|lia]|done].
Qed.

(** [PrepareSource] keeps every accepted set; it always succeeds in an active
    session. *)
Lemma prepare_step :
  all_fresh w now ->
  exists w', PrepareSource w epoch s now = (w', Ok tt) /\ dedup_wf w' /\ same_config w w' /\
    all_fresh w' now /\ is_Some (view w' s) /\
    (forall n, window_accepted w' s n <-> window_accepted w s n) /\ mark w' s = mark w s /\
    (forall t n, window_accepted w' t n -> window_accepted w t n) /\ (normal w -> normal w') /\
    sources_from w w' s.
Proof.
  intros Hf. unfold PrepareSource. rewrite session_guard. cbv zeta.
  pose proof (PurgeExpired_wf w now Hw) as Hw1. pose proof (purge_config w now Hw) as Hc1.
  pose proof (purge_all_fresh w now Hw) as Hf1. pose proof (purge_remembers w now Hw) as Hr1.
  pose proof (fun t => purge_settled w now t Hw Hf) as Hset.
  set (w1 := (PurgeExpired w now).1) in *. assert (options_ w1 = options_ w) as Hopt by apply Hc1.
  assert (forall n, window_accepted w1 s n <-> window_accepted w s n) as Ha1
    by (intros n; unfold window_accepted; by rewrite Hset).
  assert (mark w1 s = mark w s) as Hm1 by (unfold mark; by rewrite Hset).
  destruct (view_Find w1 s) as [[Hv Ef]|(i & e & Ef & Hv)]; rewrite Ef.
  - destruct (AddSource_spec w1 s 0 now Hw1 Hv ltac:(unfold is_u64; lia))
      as (w2 & front & -> & Hw2 & Hc2 & He2 & Hsub).
    destruct (AddSource_view _ _ _ _ _ _ Hw1 Hw2 Hv He2 Hsub) as [Hv2 Hoth].
    pose proof (accepted_fresh s now (bitmap_words_ w1)) as Hzero.
    assert (forall n, window_accepted w1 s n <-> False) as Hnone by (intros n; unfold window_accepted; by rewrite Hv).
    exists w2. split_and!; try done.
    + by eapply same_config_trans.
    + intros t x Hx. apply (fresh_config w1 _ _ _ Hc2). destruct (decide (t = s)) as [->|Hne].
      * assert (x = mkState s 0 now (replicate (bitmap_words_ w1) 0)) as -> by congruence.
        apply fresh_now; [by rewrite Hopt|done].
      * by apply (Hf1 t), Hoth.
    + intros n. rewrite <- Ha1, Hnone. unfold window_accepted. rewrite Hv2. split; [apply Hzero|done].
    + rewrite <- Hm1. unfold mark. by rewrite Hv2, Hv.
    + intros t n. unfold window_accepted at 1. destruct (view w2 t) as [x|] eqn:Hx; [|done]. intros Hx'.
      destruct (decide (t = s)) as [->|Hne].
      * assert (x = mkState s 0 now (replicate (bitmap_words_ w1) 0)) as -> by congruence. by destruct (Hzero n).
      * apply Hoth in Hx; [|done]. unfold window_accepted. by rewrite <- Hset, Hx.
    + intros Hn t x Hx. destruct (decide (t = s)) as [->|Hne].
      * assert (x = mkState s 0 now (replicate (bitmap_words_ w1) 0)) as -> by congruence. apply Hzero.
      * apply (remembers_normal _ _ Hr1 Hn t). by apply Hoth.
    + by eapply others_sources.
  - destruct (touch_activity w1 now s i e Hw1 Hf1 ltac:(by rewrite Hopt) Ef)
      as (T1 & T2 & T3 & T4 & T5 & T6 & T7 & T8 & T9).
    eexists. split; [reflexivity|]. split_and!; try done.
    + intros n. by rewrite T8.
    + by rewrite T9.
    + intros t n Ht. apply (remembers_accepted _ _ _ _ Hr1). by apply (remembers_accepted _ _ _ _ T4).
    + intros Hn. apply (remembers_normal _ _ T4). by apply (remembers_normal _ _ Hr1).
    + apply remembers_sources. by transitivity w1.
Qed.

(** Committing a new in-window sequence of a retained source succeeds. *)
Lemma commit_step seq :
  all_fresh w now -> normal w -> is_Some (view w s) -> is_u64 seq -> 1 <= seq ->
  ~ window_accepted w s seq -> seq - mark w s <= max_sequence_distance (options_ w) ->
  exists w', CommitAccepted w epoch s seq now = (w', Ok tt) /\ dedup_wf w' /\ same_config w w' /\
    all_fresh w' now /\ normal w' /\ mark w' s - seq < max_sequence_distance (options_ w) /\
    (forall n, window_accepted w' s n <-> n = seq \/ window_accepted w s n) /\
    (forall t n, t <> s -> window_accepted w' t n -> window_accepted w t n) /\ sources_from w w' s.
Proof.
  intros Hf Hnorm [e Hv] Hu64 Hseq Hna Hd.
  pose proof (PurgeExpired_wf w now Hw) as Hw1. pose proof (purge_config w now Hw) as Hc1.
  pose proof (fun t => purge_settled w now t Hw Hf) as Hset.
  assert (exists w', CommitAccepted w epoch s seq now = (w', Ok tt)) as [w' Hcommit].
  { unfold CommitAccepted. rewrite session_guard, (proj2 (Z.eqb_neq seq 0)) by lia. cbv zeta.
    set (w1 := (PurgeExpired w now).1) in *. assert (options_ w1 = options_ w) as Hopt by apply Hc1.
    destruct (view_Find w1 s) as [[Hv1 _]|(i & e1 & Ef & Hv1)]; [rewrite Hset in Hv1; congruence|].
    rewrite Ef. assert (e1 = e) as -> by (rewrite Hset in Hv1; congruence).
    destruct (view_state_ok _ _ _ Hw1 Hv1) as [Hok _].
    pose proof (oo_distance _ (wc_options _ _ (df_core _ Hw1))) as Hdist.
    destruct (Classify_spec w1 _ _ e seq Hok eq_refl ltac:(lia) Hseq) as (_ & C2 & _).
    rewrite (proj2 C2); [by eexists|]. unfold window_accepted, mark in Hna, Hd. rewrite Hv in Hna, Hd.
    rewrite Hopt. done. }
  exists w'. split; [done|].
  destruct (CommitAccepted_spec w epoch s seq now w' Hw Hu64 Hcommit)
    as (Hw' & Hc' & Hoth & _ & e' & Hv' & Hact & Hacc & Hdist & Hnext).
  assert (forall n, window_accepted (PurgeExpired w now).1 s n <-> window_accepted w s n) as Ha1
    by (intros n; unfold window_accepted; by rewrite Hset).
  split_and!; try done.
  - intros t x Hx. apply (fresh_config w _ _ _ Hc'). destruct (decide (t = s)) as [->|Hne].
    + assert (x = e') as -> by congruence. by apply fresh_now.
    + apply Hoth in Hx; [|done]. rewrite Hset in Hx. by apply (Hf t).
  - intros t x Hx. destruct (decide (t = s)) as [->|Hne].
    + assert (x = e') as -> by congruence. apply Hnext. by rewrite Ha1.
    + apply Hoth in Hx; [|done]. rewrite Hset in Hx. by apply (Hnorm t).
  - unfold mark. by rewrite Hv'.
  - intros n. rewrite <- Ha1. unfold window_accepted at 1. rewrite Hv'. apply Hacc.
  - intros t n Hne. unfold window_accepted. destruct (view w' t) as [x|] eqn:Hx; [|done].
    apply Hoth in Hx; [|done]. rewrite Hset in Hx. by rewrite Hx.
  - eapply others_sources; [by apply purge_remembers|done].
Qed.
(** [SeedAccepted] always succeeds in an active session: the source's accepted set
    becomes everything up to the seeded mark. *)
Lemma seed_step h :
  is_u64 h ->
  exists w', SeedAccepted w epoch s h now = (w', Ok tt) /\ dedup_wf w' /\ same_config w w' /\
    (normal w -> normal w') /\ (forall n, window_accepted w' s n <-> 1 <= n <= h) /\
    (forall t n, t <> s -> window_accepted w' t n -> window_accepted w t n) /\ sources_from w w' s.
Proof.
  intros Hh. unfold SeedAccepted. rewrite session_guard. cbv zeta.
  pose proof (PurgeExpired_wf w now Hw) as Hw1. pose proof (purge_config w now Hw) as Hc1.
  pose proof (purge_remembers w now Hw) as Hr1. set (w1 := (PurgeExpired w now).1) in *.
  assert (forall w' words, dedup_wf w' -> same_config w1 w' ->
    view w' s = Some (mkState s h now (replicate words 0)) -> others_kept w1 w' s ->
    dedup_wf w' /\ same_config w w' /\
    (normal w -> normal w') /\ (forall n, window_accepted w' s n <-> 1 <= n <= h) /\
    (forall t n, t <> s -> window_accepted w' t n -> window_accepted w t n) /\ sources_from w w' s) as Hseed.
  { intros w' words H1 H2 H3 H4. split_and!; [done|by eapply same_config_trans|..].
    - intros Hn t e He. destruct (decide (t = s)) as [->|Hne].
      + assert (e = mkState s h now (replicate words 0)) as -> by congruence. rewrite accepted_seeded. cbn. lia.
      + apply (remembers_normal _ _ Hr1 Hn t). by apply H4.
    - intros n. unfold window_accepted. rewrite H3. apply accepted_seeded.
    - intros t n Hne Ht. apply (remembers_accepted _ _ _ _ Hr1). unfold window_accepted in *.
      destruct (view w' t) as [e|] eqn:E; [|done]. by rewrite (H4 t e Hne E).
    - by eapply others_sources. }
  destruct (view_Find w1 s) as [[Hv Ef]|(i & e & Ef & Hv)]; rewrite Ef.
  - destruct (AddSource_spec w1 s h now Hw1 Hv Hh) as (w2 & front & -> & Hw2 & Hc2 & He2 & Hsub).
    destruct (AddSource_view _ _ _ _ _ _ Hw1 Hw2 Hv He2 Hsub) as [Hv2 Hoth].
    exists w2. split; [done|]. by eapply Hseed.
  - pose proof (proj1 (Find_spec w1 0 s i e (df_core _ Hw1)) Ef) as [Hlk Hse].
    destruct (view_state_ok w1 s e Hw1 Hv) as [Hok _].
    eexists. split; [reflexivity|]. rewrite (so_length _ _ _ Hok), Hse.
    destruct (set_entry_spec w1 i e (mkState s h now (replicate (bitmap_words_ w1) 0)) Hw1 Hlk ltac:(by rewrite Hse)
      (new_state_ok w1 s h now Hh)) as (S1 & S2 & S3 & S4). rewrite Hse in S3, S4.
    eapply Hseed; [done|done|exact S3|]. intros t x Hne Hx. by rewrite S4 in Hx.
Qed.
End Calls.

(** Where the mark can be after a commit: it grows, and it passes the committed
    sequence exactly when that was the next one. *)
Lemma mark_after_commit w w' s seq :
  dedup_wf w -> dedup_wf w' -> normal w -> normal w' -> is_Some (view w s) -> is_Some (view w' s) ->
  1 <= seq -> ~ window_accepted w s seq ->
  (forall n, window_accepted w' s n <-> n = seq \/ window_accepted w s n) ->
  mark w s <= mark w' s /\ (seq <= mark w' s <-> seq = mark w s + 1).
Proof.
  intros Hw Hw' Hn Hn' [e Hv] [e' Hv'] Hseq Hna Hacc. specialize (Hn s e Hv). specialize (Hn' s e' Hv').
  destruct (view_state_ok _ _ _ Hw Hv) as [Hok _]. pose proof (so_highest _ _ _ Hok) as Hh.
  destruct (view_state_ok _ _ _ Hw' Hv') as [Hok' _]. pose proof (so_highest _ _ _ Hok') as Hh'.
  unfold mark, window_accepted, is_u64 in *. rewrite Hv, Hv' in *.
  set (h := highest_contiguous_sequence e) in *. set (h' := highest_contiguous_sequence e') in *.
  assert (forall n, 1 <= n <= h' -> accepted e' n) as Hpre' by (intros; by left).
  assert (forall n, 1 <= n <= h -> accepted e n) as Hpre by (intros; by left).
  assert (h <= h') as Hgrow.
  { destruct (Z.lt_ge_cases h' h); [|done]. destruct Hn'. apply Hacc. right. apply Hpre. lia. }
  split; [done|]. split.
  - intros Hle. destruct (Z.eq_dec seq (h + 1)) as [|Hne]; [done|exfalso].
    assert (h < seq) by (destruct (Z.lt_ge_cases h seq); [done|destruct Hna; apply Hpre; lia]).
    destruct (proj1 (Hacc (h + 1)) (Hpre' (h + 1) ltac:(lia))) as [|Ha]; [lia|done].
  - intros ->. destruct (Z.lt_ge_cases h' (h + 1)); [|done].
    destruct Hn'. apply Hacc. left. lia.
Qed.
