(* ===== verification/DedupStore.v ===== *)
(** * The durable deduplication store: snapshot format

    Models the snapshot encoding of [mino/bridge/dedup_store.cc]: the map from
    source identities to cumulative sequence numbers is written as a magic, a
    version, a count, one 32-byte entry per source in increasing order and a
    CRC-32C.  The file operations and the store itself are in the next files. *)
From Stdlib Require Import Sorted.
From stdpp Require Import sorting.
From S2P Require Import Prelude SourceIdentity Bytes Crc32c DedupWindow.

(** "MINODEDU" *)
Definition kMagic : list byte :=
  [Byte.x4d; Byte.x49; Byte.x4e; Byte.x4f; Byte.x44; Byte.x45; Byte.x44; Byte.x55].
Definition kFormatVersion : Z := 1.
Definition kHeaderBytes : nat := 16.
Definition kEntryBytes : nat := 32.
Definition kCrcBytes : nat := 4.

(** The [unordered_map] of the store. *)
Abbreviation Entries := (gmap SourceIdentity Z).

Definition ValidSource (s : SourceIdentity) : bool :=
  negb (node_id s =? 0) && negb (publisher_id s =? 0) && negb (publisher_epoch s =? 0).

Definition SourceLess (left right : SourceIdentity) : bool :=
  if negb (node_id left =? node_id right) then node_id left <? node_id right
  else if negb (publisher_id left =? publisher_id right)
  then publisher_id left <? publisher_id right
  else publisher_epoch left <? publisher_epoch right.

(** [std::sort] by [SourceLess]; the keys are distinct, so an insertion sort has
    the same result. *)
Fixpoint insert_entry (e : SourceIdentity * Z) (l : list (SourceIdentity * Z))
  : list (SourceIdentity * Z) :=
  match l with
  | [] => [e]
  | x :: rest => if SourceLess e.1 x.1 then e :: l else x :: insert_entry e rest
  end.
Definition ordered (entries : Entries) : list (SourceIdentity * Z) :=
  foldr insert_entry [] (map_to_list entries).

Definition write_entry (e : SourceIdentity * Z) : list byte :=
  be_bytes 8 (node_id e.1) ++ be_bytes 8 (publisher_id e.1) ++
  be_bytes 8 (publisher_epoch e.1) ++ be_bytes 8 e.2.

Section Format.
Context {B : Crc32cBackend}.

Definition EncodeSnapshot (entries : Entries) (max_sources : Z) : Result (list byte) :=
  fail_if max_sources <? Z.of_nat (size entries)
    with Resource "dedup store would exceed max_sources" ;;
  fail_if u32_max <? Z.of_nat (size entries)
    with Resource "dedup store entry count overflows" ;;
  let ordered := ordered entries in
  let bytes := kMagic ++ be_bytes 4 kFormatVersion ++ be_bytes 4 (zlen ordered) ++
               concat (write_entry <$> ordered) in
  Ok (bytes ++ be_bytes 4 (Crc32c bytes)).

(** The loop over the [n] entries from index [i]. *)
Fixpoint decode_entries (n i : nat) (bytes : list byte) (previous : option SourceIdentity)
    (out : Entries) : Result Entries :=
  match n with
  | O => Ok out
  | S n' =>
      let offset := (kHeaderBytes + i * kEntryBytes)%nat in
      let source := mkSource (ReadBe64 bytes offset) (ReadBe64 bytes (offset + 8))
                      (ReadBe64 bytes (offset + 16)) in
      let highest := ReadBe64 bytes (offset + 24) in
      fail_if negb (ValidSource source) || (highest =? 0)
        with Corruption "dedup store contains an invalid entry" ;;
      fail_if match previous with Some p => negb (SourceLess p source) | None => false end
        with Corruption "dedup store entries are not strictly ordered" ;;
      match out !! source with
      | Some _ => Err (Corruption "dedup store contains a duplicate source")
      | None => decode_entries n' (S i) bytes (Some source) (<[source := highest]> out)
      end
  end.

Definition DecodeSnapshot (bytes : list byte) (max_sources : Z) : Result Entries :=
  fail_if bool_decide (length bytes < kHeaderBytes + kCrcBytes)%nat
    with Corruption "dedup store snapshot is truncated" ;;
  fail_if negb (bool_decide (take 8 bytes = kMagic))
    with Corruption "dedup store magic mismatch" ;;
  fail_if negb (ReadBe32 bytes 8 =? kFormatVersion)
    with Corruption "dedup store version unsupported" ;;
  let count := ReadBe32 bytes 12 in
  fail_if max_sources <? count
    with Corruption "dedup store entry count exceeds max_sources" ;;
  let expected := (kHeaderBytes + Z.to_nat count * kEntryBytes + kCrcBytes)%nat in
  fail_if negb (bool_decide (length bytes = expected))
    with Corruption "dedup store snapshot length mismatch" ;;
  let expected_crc := ReadBe32 bytes (expected - kCrcBytes) in
  let actual_crc := Crc32c (subspan bytes 0 (expected - kCrcBytes)) in
  fail_if negb (expected_crc =? actual_crc)
    with Corruption "dedup store CRC mismatch" ;;
  decode_entries (Z.to_nat count) 0 bytes None ∅.
End Format.

(** ** Order *)

Definition entry_less (a b : SourceIdentity * Z) : Prop := SourceLess a.1 b.1 = true.

Lemma SourceLess_spec a b :
  SourceLess a b = true <->
  node_id a < node_id b \/
  node_id a = node_id b /\
    (publisher_id a < publisher_id b \/
     publisher_id a = publisher_id b /\ publisher_epoch a < publisher_epoch b).
Proof.
  unfold SourceLess.
  destruct (Z.eqb_spec (node_id a) (node_id b)), (Z.eqb_spec (publisher_id a) (publisher_id b));
    cbn [negb]; rewrite Z.ltb_lt; lia.
Qed.

Lemma SourceLess_trans a b c : SourceLess a b = true -> SourceLess b c = true -> SourceLess a c = true.
Proof. rewrite !SourceLess_spec. lia. Qed.

Lemma SourceLess_irrefl a : SourceLess a a = false.
Proof. apply not_true_is_false. rewrite SourceLess_spec. lia. Qed.

Lemma SourceLess_total a b : a <> b -> SourceLess a b = false -> SourceLess b a = true.
Proof.
  intros Hne H. apply not_true_iff_false in H. rewrite SourceLess_spec in *.
  destruct a as [a1 a2 a3], b as [b1 b2 b3]. cbn in *.
  destruct (Z.eq_dec a1 b1), (Z.eq_dec a2 b2), (Z.eq_dec a3 b3); subst; try lia. done.
Qed.

#[export] Instance entry_less_trans : Transitive entry_less.
Proof. intros a b c. apply SourceLess_trans. Qed.
#[export] Instance entry_less_antisymm : AntiSymm (=) entry_less.
Proof.
  intros a b H1 H2. pose proof (SourceLess_trans _ _ _ H1 H2) as H.
  by rewrite SourceLess_irrefl in H.
Qed.

(** ** Sorting *)

Lemma insert_entry_perm e l : insert_entry e l ≡ₚ e :: l.
Proof.
  induction l as [|x l IH]; cbn [insert_entry]; [done|]. destruct (SourceLess _ _); [done|].
  rewrite IH. constructor.
Qed.

Lemma insert_entry_sorted e l :
  Forall (fun x => x.1 <> e.1) l -> StronglySorted entry_less l ->
  StronglySorted entry_less (insert_entry e l).
Proof.
  induction l as [|x l IH]; intros Hne Hs; cbn [insert_entry]; [by repeat constructor|].
  apply Forall_cons_1 in Hne as [Hx Hne]. apply StronglySorted_inv in Hs as [Hs Hl].
  destruct (SourceLess e.1 x.1) eqn:E.
  - constructor; [by constructor|]. constructor; [done|].
    eapply Forall_impl; [|exact Hl]. intros y. apply SourceLess_trans, E.
  - constructor; [by apply IH|]. rewrite insert_entry_perm. constructor; [|done].
    apply SourceLess_total; [by apply not_eq_sym|done].
Qed.

Lemma sort_perm l : foldr insert_entry [] l ≡ₚ l.
Proof. induction l as [|x l IH]; [done|]. cbn [foldr]. by rewrite insert_entry_perm, IH. Qed.

Lemma sort_sorted l : NoDup l.*1 -> StronglySorted entry_less (foldr insert_entry [] l).
Proof.
  induction l as [|x l IH]; cbn [foldr fmap list_fmap]; [constructor|].
  intros [Hx Hd]%list.NoDup_cons. apply insert_entry_sorted; [|by apply IH].
  rewrite sort_perm. apply Forall_elem. intros y Hy E. apply Hx. rewrite <- E.
  apply list_elem_of_fmap. by exists y.
Qed.

Lemma ordered_sorted m : StronglySorted entry_less (ordered m).
Proof. apply sort_sorted, NoDup_fst_map_to_list. Qed.

Lemma ordered_perm m : ordered m ≡ₚ map_to_list m.
Proof. apply sort_perm. Qed.

Lemma elem_of_ordered m s h : (s, h) ∈ ordered m <-> m !! s = Some h.
Proof. by rewrite ordered_perm, elem_of_map_to_list. Qed.

Lemma ordered_length m : length (ordered m) = size m.
Proof. by rewrite ordered_perm, length_map_to_list. Qed.

Lemma sorted_keys_nodup l : StronglySorted entry_less l -> NoDup l.*1.
Proof.
  induction 1 as [|x l _ IH Hx]; cbn [fmap list_fmap]; constructor; [|done].
  intros (y & Hy & Hin)%list_elem_of_fmap. rewrite Forall_elem in Hx. specialize (Hx y Hin).
  unfold entry_less in Hx. by rewrite Hy, SourceLess_irrefl in Hx.
Qed.

(** A strictly ordered list is the one the store writes for its map. *)
Lemma ordered_list_to_map l : StronglySorted entry_less l -> ordered (list_to_map l) = l.
Proof.
  intros Hl. apply (StronglySorted_unique entry_less); [apply ordered_sorted|done|].
  rewrite ordered_perm. apply map_to_list_to_map. by apply sorted_keys_nodup.
Qed.

Lemma list_to_map_ordered m : list_to_map (ordered m) = m.
Proof.
  rewrite (list_to_map_proper (ordered m) (map_to_list m)); [apply list_to_map_to_list| |].
  - apply sorted_keys_nodup, ordered_sorted.
  - apply ordered_perm.
Qed.

(** ** The entries of a snapshot *)

Definition entry_at (bytes : list byte) (i : nat) : SourceIdentity * Z :=
  let offset := (kHeaderBytes + i * kEntryBytes)%nat in
  (mkSource (ReadBe64 bytes offset) (ReadBe64 bytes (offset + 8)) (ReadBe64 bytes (offset + 16)),
   ReadBe64 bytes (offset + 24)).
Definition entry_ok (e : SourceIdentity * Z) : Prop := ValidSource e.1 = true /\ e.2 <> 0.
Definition entry_typed (e : SourceIdentity * Z) : Prop :=
  is_u64 (node_id e.1) /\ is_u64 (publisher_id e.1) /\ is_u64 (publisher_epoch e.1) /\ is_u64 e.2.

Lemma entry_guard e : negb (ValidSource e.1) || (e.2 =? 0) = false <-> entry_ok e.
Proof. unfold entry_ok. rewrite orb_false_iff, negb_false_iff, Z.eqb_neq. done. Qed.

(** [e] comes after the previous entry. *)
Definition after (previous : option SourceIdentity) (e : SourceIdentity * Z) : Prop :=
  match previous with Some p => SourceLess p e.1 = true | None => True end.

Lemma after_guard previous e :
  match previous with Some p => negb (SourceLess p e.1) | None => false end = false <->
  after previous e.
Proof. destruct previous; cbn; [apply negb_false_iff|done]. Qed.

Lemma after_trans previous e l :
  after previous e -> Forall (entry_less e) l -> Forall (after previous) l.
Proof.
  intros He Hl. eapply Forall_impl; [|exact Hl]. intros x Hx. destruct previous; [|done].
  by eapply SourceLess_trans.
Qed.

Lemma decode_entries_sound n bytes : forall i previous out m,
  decode_entries n i bytes previous out = Ok m ->
  let l := entry_at bytes <$> seq i n in
  StronglySorted entry_less l /\ Forall entry_ok l /\ Forall (after previous) l /\
  m = list_to_map l ∪ out.
Proof.
  induction n as [|n IH]; intros i previous out m H; cbn [decode_entries seq fmap list_fmap] in *; cbv zeta in *.
  { apply Ok_inj in H as <-. split_and!; [constructor..|]. symmetry. apply (left_id_L ∅ (∪)). }
  fold (entry_at bytes i) in H. set (e := entry_at bytes i) in *.
  change (mkSource _ _ _) with e.1 in H. change (ReadBe64 bytes (_ + 24)) with e.2 in H.
  do 2 step_if. rewrite entry_guard in E. rewrite after_guard in E0.
  destruct (out !! e.1) eqn:Eo; [done|]. destruct (IH _ _ _ _ H) as (Hs & Hok & Ha & ->).
  assert (Forall (entry_less e) (entry_at bytes <$> seq (S i) n)) as Hl by done.
  split_and!; [by constructor|by constructor|constructor; [done|by eapply after_trans]|].
  assert (list_to_map (M := Entries) (entry_at bytes <$> seq (S i) n) !! e.1 = None) as Hn.
  { apply not_elem_of_list_to_map. intros (x & Hx & Hin)%list_elem_of_fmap.
    rewrite Forall_elem in Hl. specialize (Hl x Hin). unfold entry_less in Hl.
    by rewrite Hx, SourceLess_irrefl in Hl. }
  destruct e as [s h]. cbn [list_to_map foldr fst snd] in *.
  by rewrite <- insert_union_l, <- insert_union_r.
Qed.

Lemma decode_entries_complete n bytes : forall i previous out,
  let l := entry_at bytes <$> seq i n in
  StronglySorted entry_less l -> Forall entry_ok l -> Forall (after previous) l ->
  (forall s, is_Some (out !! s) -> Forall (after (Some s)) l) ->
  exists m, decode_entries n i bytes previous out = Ok m.
Proof.
  induction n as [|n IH]; intros i previous out l Hs Hok Ha Hout; [by exists out|].
  subst l. cbn [decode_entries seq fmap list_fmap] in *. cbv zeta in *.
  set (e := entry_at bytes i) in *.
  change (mkSource _ _ _) with e.1. change (ReadBe64 bytes (_ + 24)) with e.2.
  apply StronglySorted_inv in Hs as [Hs Hl]. apply Forall_cons_1 in Hok as [He Hok].
  apply Forall_cons_1 in Ha as [Hae Ha].
  rewrite fail_if_false by (by apply entry_guard). rewrite fail_if_false by (by apply after_guard).
  destruct (out !! e.1) as [x|] eqn:Eo.
  - assert (is_Some (out !! e.1)) as Hso by by eexists.
    apply Hout, Forall_cons_1 in Hso as [Hso _]. cbn in Hso. by rewrite SourceLess_irrefl in Hso.
  - apply IH; try done. intros s Hso. destruct (decide (s = e.1)) as [->|Hne]; [done|].
    rewrite lookup_insert_ne in Hso by done. by apply Hout, Forall_cons_1 in Hso as [_ ?].
Qed.

Lemma write_entry_length e : length (write_entry e) = kEntryBytes.
Proof. unfold write_entry. by len_norm. Qed.

Lemma write_entries_length l : length (concat (write_entry <$> l)) = (length l * kEntryBytes)%nat.
Proof.
  induction l as [|e l IH]; [done|]. cbn [fmap list_fmap concat].
  rewrite length_app, write_entry_length, IH. done.
Qed.

Lemma read_write_entry pre e rest :
  entry_typed e ->
  (mkSource (ReadBe64 (pre ++ write_entry e ++ rest) (length pre))
            (ReadBe64 (pre ++ write_entry e ++ rest) (length pre + 8))
            (ReadBe64 (pre ++ write_entry e ++ rest) (length pre + 16)),
   ReadBe64 (pre ++ write_entry e ++ rest) (length pre + 24)) = e.
Proof.
  intros (H1 & H2 & H3 & H4). destruct e as [[n p ep] h]. unfold ReadBe64, is_u64 in *. cbn [fst snd node_id publisher_id publisher_epoch] in *.
  rewrite !(read_be_skip 8 pre) by lia. rewrite Nat.sub_diag, !(Nat.add_comm (length pre)), !Nat.add_sub.
  unfold write_entry. rewrite <- !app_assoc. cbn [fst snd node_id publisher_id publisher_epoch].
  repeat f_equal; read_field; done.
Qed.

Lemma entries_read hdr l rest :
  length hdr = kHeaderBytes -> Forall entry_typed l ->
  entry_at (hdr ++ concat (write_entry <$> l) ++ rest) <$> seq 0 (length l) = l.
Proof.
  intros Hh Ht. apply list_eq. intros i. rewrite list_lookup_fmap.
  destruct (decide (i < length l)%nat) as [Hi|Hi].
  2:{ rewrite lookup_seq_ge by lia. rewrite lookup_ge_None_2 by lia. done. }
  rewrite lookup_seq_lt by done. cbn [fmap option_fmap option_map].
  destruct (lookup_lt_is_Some_2 _ _ Hi) as [e He]. rewrite He. f_equal.
  rewrite <- (take_drop_middle l i e He) at 1. rewrite fmap_app, concat_app. cbn [fmap list_fmap concat].
  rewrite <- !app_assoc. rewrite (app_assoc hdr).
  set (pre := hdr ++ _). assert (length pre = kHeaderBytes + (0 + i) * kEntryBytes)%nat as Hp.
  { unfold pre. rewrite length_app, write_entries_length, length_take, Hh. lia. }
  unfold entry_at. rewrite <- Hp. apply read_write_entry.
  rewrite Forall_elem in Ht. apply Ht. by eapply list_elem_of_lookup_2.
Qed.

Lemma write_read_entry bytes i :
  (kHeaderBytes + S i * kEntryBytes <= length bytes)%nat ->
  write_entry (entry_at bytes i) = subspan bytes (kHeaderBytes + i * kEntryBytes) kEntryBytes.
Proof.
  unfold kHeaderBytes, kEntryBytes. intros H. unfold write_entry, entry_at, ReadBe64, kHeaderBytes, kEntryBytes.
  cbn [fst snd node_id publisher_id publisher_epoch].
  set (o := (16 + i * 32)%nat). rewrite !be_bytes_read by lia.
  change 32%nat with (8 + (8 + (8 + 8)))%nat at 1. rewrite !subspan_split.
  by rewrite <- !Nat.add_assoc.
Qed.

Lemma entries_written bytes n :
  (kHeaderBytes + n * kEntryBytes <= length bytes)%nat ->
  concat (write_entry <$> (entry_at bytes <$> seq 0 n)) = subspan bytes kHeaderBytes (n * kEntryBytes).
Proof.
  induction n as [|n IH]; intros H; [done|].
  rewrite seq_S, !fmap_app, concat_app, IH by lia. cbn [fmap list_fmap concat Nat.add].
  rewrite app_nil_r, write_read_entry by lia.
  replace (S n * kEntryBytes)%nat with (n * kEntryBytes + kEntryBytes)%nat by lia.
  by rewrite subspan_split.
Qed.

Lemma entry_at_typed bytes i :
  (kHeaderBytes + S i * kEntryBytes <= length bytes)%nat -> entry_typed (entry_at bytes i).
Proof.
  unfold kHeaderBytes, kEntryBytes. intros H. unfold entry_at, entry_typed, kHeaderBytes, kEntryBytes.
  cbn [fst snd node_id publisher_id publisher_epoch]. split_and!; read_bound.
Qed.

(** ** Encoding and decoding *)

(** What the store keeps: complete identities with a nonzero sequence. *)
Definition entries_ok (m : Entries) : Prop :=
  forall s h, m !! s = Some h -> entry_ok (s, h) /\ entry_typed (s, h).

Lemma ordered_ok m : entries_ok m -> Forall entry_ok (ordered m) /\ Forall entry_typed (ordered m).
Proof.
  intros Hm. split; apply Forall_elem; intros [s h] Hin%elem_of_ordered; by apply Hm.
Qed.

Section FormatLaws.
Context {B : Crc32cBackend} {BL : Crc32cLaws B}.

Definition snapshot_header (count : Z) : list byte :=
  kMagic ++ be_bytes 4 kFormatVersion ++ be_bytes 4 count.

Lemma snapshot_header_length count : length (snapshot_header count) = kHeaderBytes.
Proof. unfold snapshot_header. len_norm. done. Qed.

Definition snapshot_body (l : list (SourceIdentity * Z)) : list byte :=
  snapshot_header (zlen l) ++ concat (write_entry <$> l).
Definition snapshot_of (l : list (SourceIdentity * Z)) : list byte :=
  snapshot_body l ++ be_bytes 4 (Crc32c (snapshot_body l)).

Lemma snapshot_body_length l :
  length (snapshot_body l) = (kHeaderBytes + length l * kEntryBytes)%nat.
Proof. unfold snapshot_body. by rewrite length_app, snapshot_header_length, write_entries_length. Qed.

Lemma snapshot_of_length l :
  length (snapshot_of l) = (kHeaderBytes + length l * kEntryBytes + kCrcBytes)%nat.
Proof. unfold snapshot_of. by rewrite length_app, snapshot_body_length, be_bytes_length. Qed.

Lemma EncodeSnapshot_spec m max bytes :
  EncodeSnapshot m max = Ok bytes <->
  Z.of_nat (size m) <= max /\ Z.of_nat (size m) <= u32_max /\ bytes = snapshot_of (ordered m).
Proof.
  unfold EncodeSnapshot, snapshot_of, snapshot_body, snapshot_header. rewrite <- !app_assoc.
  destruct (Z.ltb_spec max (Z.of_nat (size m))); [split; [done|lia]|].
  destruct (Z.ltb_spec u32_max (Z.of_nat (size m))); [split; [done|lia]|]. cbv zeta.
  split; [intros [= <-]; split_and!; done || lia|intros (_ & _ & ->); done].
Qed.

(** What an accepted snapshot is. *)
Record snapshot_ok (l : list (SourceIdentity * Z)) (max : Z) : Prop := {
  sn_sorted : StronglySorted entry_less l;
  sn_ok : Forall entry_ok l;
  sn_typed : Forall entry_typed l;
  sn_max : zlen l <= max;
  sn_u32 : zlen l <= u32_max
}.

Lemma header_fields l :
  zlen l <= u32_max ->
  take 8 (snapshot_of l) = kMagic /\ ReadBe32 (snapshot_of l) 8 = kFormatVersion /\
  ReadBe32 (snapshot_of l) 12 = zlen l.
Proof.
  intros Hl. unfold snapshot_of, snapshot_body, snapshot_header, ReadBe32. rewrite <- !app_assoc.
  split; [done|]. rewrite !(read_be_skip 4 kMagic) by (cbn; lia). cbn [length kMagic Nat.sub].
  split; read_field; (done || ulia).
Qed.

Lemma crc_field l :
  let n := length (snapshot_body l) in
  ReadBe32 (snapshot_of l) n = Crc32c (subspan (snapshot_of l) 0 n).
Proof.
  cbv zeta. unfold snapshot_of. rewrite subspan_app_here by done. unfold ReadBe32.
  rewrite read_be_skip, Nat.sub_diag by lia. rewrite <- (app_nil_r (be_bytes 4 _)), read_be_here.
  apply Z.mod_small, Crc32c_u32.
Qed.

Lemma DecodeSnapshot_complete l max :
  snapshot_ok l max -> DecodeSnapshot (snapshot_of l) max = Ok (list_to_map l).
Proof.
  intros [Hs Hok Ht Hmax Hu]. destruct (header_fields l Hu) as (Hm & Hv & Hc).
  unfold DecodeSnapshot. rewrite Hm, Hv, Hc, snapshot_of_length.
  replace (Z.to_nat (zlen l)) with (length l) by (unfold zlen; lia). cbv zeta.
  rewrite Nat.add_sub, <- snapshot_body_length, crc_field, !Z.eqb_refl.
  rewrite fail_if_false by (apply bool_decide_eq_false; rewrite snapshot_body_length; lia).
  rewrite fail_if_false by (by apply negb_false_iff, bool_decide_eq_true).
  rewrite fail_if_false by reflexivity. rewrite fail_if_false by (by apply Z.ltb_ge).
  rewrite fail_if_false by (by apply negb_false_iff, bool_decide_eq_true).
  rewrite fail_if_false by reflexivity.
  pose proof (entries_read _ l (be_bytes 4 (Crc32c (snapshot_body l))) (snapshot_header_length (zlen l)) Ht)
    as Hread. rewrite (app_assoc (snapshot_header _)) in Hread. fold (snapshot_body l) in Hread.
  fold (snapshot_of l) in Hread.
  destruct (decode_entries_complete (length l) (snapshot_of l) 0 None ∅) as [m Hm'];
    [by rewrite Hread|by rewrite Hread|by apply Forall_elem| |].
  { intros s [x Hx]. by rewrite lookup_empty in Hx. }
  rewrite Hm'. apply decode_entries_sound in Hm' as (_ & _ & _ & ->).
  by rewrite Hread, (right_id_L ∅ (∪)).
Qed.

Lemma DecodeSnapshot_sound bytes max m :
  DecodeSnapshot bytes max = Ok m ->
  exists l, snapshot_ok l max /\ bytes = snapshot_of l /\ m = list_to_map l.
Proof.
  intros H. unfold DecodeSnapshot in H. do 4 step_if. cbv zeta in H. do 2 step_if. bool_to_prop.
  rename E into Hlen, E0 into Hmagic, E1 into Hversion, E2 into Hmax, E3 into Hsize, E4 into Hcrc.
  assert (is_u32 (ReadBe32 bytes 12)) as Hu by (apply ReadBe32_bound; unfold kHeaderBytes, kCrcBytes in *; lia).
  set (n := Z.to_nat (ReadBe32 bytes 12)) in *. assert (Z.of_nat n = ReadBe32 bytes 12) as Hn by (unfold n; ulia).
  apply decode_entries_sound in H as (Hs & Hok & _ & ->). set (l := entry_at bytes <$> seq 0 n) in *.
  assert (length l = n) as Hl by (unfold l; by rewrite length_fmap, length_seq).
  assert (zlen l = ReadBe32 bytes 12) as Hz by (unfold zlen; by rewrite Hl).
  rewrite Nat.add_sub in Hcrc.
  assert (snapshot_body l = take (kHeaderBytes + n * kEntryBytes) bytes) as Hbody.
  { unfold snapshot_body, snapshot_header. rewrite Hz. unfold l. rewrite entries_written by lia.
    rewrite <- Hmagic, <- Hversion. unfold ReadBe32. rewrite !be_bytes_read by (unfold kHeaderBytes, kCrcBytes in *; lia).
    assert (forall k, take k bytes = subspan bytes 0 k) as Htake by (intros; unfold subspan; by rewrite drop_0).
    rewrite !Htake, (subspan_split bytes 0 kHeaderBytes), (subspan_split bytes 0 8 8 : subspan bytes 0 kHeaderBytes = _),
      (subspan_split bytes (0 + 8) 4 4 : subspan bytes (0 + 8) 8 = _). done. }
  exists l. split_and!; [| |by rewrite (right_id_L ∅ (∪))].
  - split; [done|done| |lia|ulia]. apply Forall_elem. intros x (i & -> & Hi)%list_elem_of_fmap.
    apply elem_of_seq in Hi. apply entry_at_typed. unfold kHeaderBytes, kEntryBytes, kCrcBytes in *. lia.
  - unfold snapshot_of. rewrite Hbody.
    change (subspan bytes 0 ?k) with (take k bytes) in Hcrc. rewrite <- Hcrc. unfold ReadBe32. rewrite be_bytes_read by (rewrite Hsize; done).
    unfold subspan. rewrite (take_ge (drop _ _)); [by rewrite take_drop|]. rewrite length_drop, Hsize. unfold kCrcBytes. lia.
Qed.

Lemma ordered_snapshot_ok m max :
  entries_ok m -> Z.of_nat (size m) <= max -> Z.of_nat (size m) <= u32_max -> snapshot_ok (ordered m) max.
Proof.
  intros Hm H1 H2. destruct (ordered_ok m Hm). unfold zlen.
  split; [apply ordered_sorted|done|done|..]; unfold zlen; by rewrite ordered_length.
Qed.

Lemma encode_decode m max bytes :
  entries_ok m -> EncodeSnapshot m max = Ok bytes -> DecodeSnapshot bytes max = Ok m.
Proof.
  intros Hm (H1 & H2 & ->)%EncodeSnapshot_spec.
  rewrite DecodeSnapshot_complete by by apply ordered_snapshot_ok. by rewrite list_to_map_ordered.
Qed.

Lemma decode_encode m max bytes :
  DecodeSnapshot bytes max = Ok m -> entries_ok m /\ EncodeSnapshot m max = Ok bytes.
Proof.
  intros (l & [Hs Hok Ht Hmax Hu] & -> & ->)%DecodeSnapshot_sound. rewrite EncodeSnapshot_spec.
  rewrite <- ordered_length, ordered_list_to_map by done. split_and!; try done.
  intros s h Hsh. apply elem_of_ordered in Hsh. rewrite ordered_list_to_map in Hsh by done.
  rewrite Forall_elem in Hok, Ht. split; [by apply Hok|by apply Ht].
Qed.
End FormatLaws.

(** The snapshot of a set of entries decodes to exactly these entries, and
    it is the only byte string that does: the encoder and the decoder are inverse
    to each other. *)
Theorem snapshot_round_trip (B : Crc32cBackend) (BL : Crc32cLaws B) (m : Entries) (max : Z)
    (bytes : list byte) :
  entries_ok m -> (EncodeSnapshot m max = Ok bytes <-> DecodeSnapshot bytes max = Ok m).
Proof.
  intros Hm. split; [by apply encode_decode|]. intros H. by destruct (decode_encode _ _ _ H).
Qed.

Definition sample_entries : Entries := {[mkSource 7 8 9 := 5; mkSource 1 2 3 := 2^40]}.
Lemma sample_entries_ok : entries_ok sample_entries.
Proof.
  intros s h. unfold sample_entries. intros [[<- <-]|[_ [<- <-]%lookup_singleton_Some]]%lookup_insert_Some;
    by vm_compute.
Qed.

Lemma snapshot_round_trip_witness :
  match EncodeSnapshot sample_entries 2 with
  | Ok bytes => length bytes = 84%nat /\ DecodeSnapshot bytes 2 = Ok sample_entries
  | Err _ => False
  end.
Proof.
  destruct (EncodeSnapshot sample_entries 2) as [bytes|e] eqn:E; [|by vm_compute in E].
  split; [|by apply (snapshot_round_trip software_backend software_laws sample_entries 2 bytes sample_entries_ok)].
  vm_compute in E. by injection E as <-.
Defined.
