(* ===== verification/DurableFile.v ===== *)
(** * Publishing a file atomically

    Models the file operations of [mino/bridge/dedup_store.cc]: the temporary
    file is written, synchronised and renamed over the live one, and the directory
    is synchronised.  The operating system is an interface, [Posix]; the answers of
    its calls are inputs of the model.  Every state of the disk a publication goes
    through is recorded, so that the theorems speak of a crash at any moment; they
    are proved with a small Hoare logic whose triples carry a crash invariant. *)
From S2P Require Import Prelude Bytes.

(** ** The operating system *)

(** What the code uses of POSIX, for one store path and its temporary file:
    [live_data] is what opening the path reads, [survives d c] says that after a
    crash in state [d] the path may read [c]. *)
Class Posix : Type := {
  Disk : Type;
  live_data : Disk -> option (list byte);
  tmp_data : Disk -> option (list byte);
  tmp_synced : Disk -> Prop;
  live_synced : Disk -> Prop;
  survives : Disk -> option (list byte) -> Prop;
  open_tmp : Disk -> Disk;
  pwrite_tmp : nat -> list byte -> Disk -> Disk;
  ftruncate_tmp : nat -> Disk -> Disk;
  fsync_tmp : Disk -> Disk;
  rename_tmp : Disk -> Disk;
  unlink_tmp : Disk -> Disk;
  fsync_directory : Disk -> Disk;
  strerror : Errno -> string;
  parent_path : string -> string;
  getpid_string : string
}.

(** The step leaves the live file alone. *)
Definition live_untouched `{Posix} (d d' : Disk) : Prop :=
  live_data d' = live_data d /\ (live_synced d -> live_synced d') /\
  forall c, survives d' c -> survives d c.

(** The documented behaviour the code relies on. *)
Class PosixLaws (P : Posix) : Prop := {
  open_tmp_data d : tmp_data (open_tmp d) = Some [];
  open_tmp_live d : live_untouched d (open_tmp d);
  pwrite_tmp_data d bytes chunk : tmp_data d = Some bytes ->
    tmp_data (pwrite_tmp (length bytes) chunk d) = Some (bytes ++ chunk);
  pwrite_tmp_live off chunk d : live_untouched d (pwrite_tmp off chunk d);
  ftruncate_tmp_data d bytes : tmp_data d = Some bytes ->
    tmp_data (ftruncate_tmp (length bytes) d) = Some bytes;
  ftruncate_tmp_live n d : live_untouched d (ftruncate_tmp n d);
  fsync_tmp_data d : tmp_data (fsync_tmp d) = tmp_data d;
  fsync_tmp_synced d : tmp_synced (fsync_tmp d);
  fsync_tmp_live d : live_untouched d (fsync_tmp d);
  unlink_tmp_live d : live_untouched d (unlink_tmp d);
  unlink_tmp_gone d : tmp_data (unlink_tmp d) = None;
  rename_tmp_gone d : tmp_data (rename_tmp d) = None;
  rename_tmp_data d : live_data (rename_tmp d) = tmp_data d;
  rename_tmp_synced d : tmp_synced d -> live_synced (rename_tmp d);
  rename_tmp_survives d c :
    tmp_synced d -> survives (rename_tmp d) c -> survives d c \/ c = tmp_data d;
  fsync_directory_live d : live_untouched d (fsync_directory d);
  fsync_directory_tmp d : tmp_data (fsync_directory d) = tmp_data d;
  fsync_directory_survives d c : live_synced d -> survives (fsync_directory d) c -> c = live_data d
}.

(** ** Calls, and the states they go through *)

Section Calls.
Context {P : Posix}.

(** The states left behind, the final state and the outcome. *)
Definition Io (A : Type) : Type := Disk -> list Disk * Disk * Result A.

Definition ret {A} (a : A) : Io A := fun d => ([], d, Ok a).
Definition fail {A} (s : Status) : Io A := fun d => ([], d, Err s).
Definition effect (f : Disk -> Disk) : Io unit := fun d => ([f d], f d, Ok tt).
Definition bind {A B} (m : Io A) (k : A -> Io B) : Io B := fun d =>
  let '(t, d', r) := m d in
  match r with
  | Err s => (t, d', Err s)
  | Ok a => let '(t', d'', r') := k a d' in (t ++ t', d'', r')
  end.
(** A system call with its effect, failing with the given status. *)
Definition call (answer : option Status) (f : Disk -> Disk) : Io unit :=
  match answer with None => effect f | Some s => fail s end.
End Calls.
Notation "'io!' m ';;' k" := (bind m (fun _ : unit => k))
  (at level 10, m at level 99, k at level 200) : mino_scope.

(** What the calls of one publication answer.  A list holds the answers of the
    repeated calls before the one that succeeds fully; when it is used up the call
    succeeds. *)
Inductive WriteAnswer : Set :=
| WriteErrno (e : Errno)
| WriteCount (n : nat).
Record DirectoryAnswers : Set := mkDirectory { dir_open : option Errno; dir_fsync : list Errno }.
Record ParentAnswers : Set := mkParent {
  exists_error : option string;
  existed : bool;
  create_error : bool;
  created : bool;
  create_message : string;
  is_directory : bool;
  is_directory_error : bool;
  chmod_answer : option Errno;
  sync_created : DirectoryAnswers;
  sync_parent : DirectoryAnswers
}.
Record PublishAnswers : Set := mkPublish {
  parent_answers : ParentAnswers;
  open_answer : option Errno;
  write_answers : list WriteAnswer;
  ftruncate_answer : option Errno;
  sync_answers : list (Errno * option Errno);
  rename_answers : list Errno;
  directory_answers : DirectoryAnswers
}.

Section Publish.
Context {P : Posix}.

Definition ErrnoStatus (operation path : string) (e : Errno) : Status :=
  let code := match e with
    | EACCES | EPERM | EROFS => kPermissionDenied
    | ENOSPC | EDQUOT => kResourceExhausted
    | ENOENT => kNotFound
    | _ => kInternal
    end in
  mkStatus code (operation +:+ " for dedup store '" +:+ path +:+ "': " +:+ strerror e).

(** Every attempt is [fdatasync], or [fsync] where that is not supported. *)
Fixpoint SyncFile (answers : list (Errno * option Errno)) (path : string) : Io unit :=
  match answers with
  | [] => effect fsync_tmp
  | (data_error, sync_answer) :: rest =>
      let result := if bool_decide (data_error = EINVAL) || bool_decide (data_error = ENOSYS)
                    then sync_answer else Some data_error in
      match result with
      | None => effect fsync_tmp
      | Some EINTR => SyncFile rest path
      | Some e => fail (ErrnoStatus "fdatasync/fsync failed" path e)
      end
  end.

Fixpoint fsync_loop (answers : list Errno) (path : string) (f : Disk -> Disk) : Io unit :=
  match answers with
  | [] => effect f
  | EINTR :: rest => fsync_loop rest path f
  | e :: _ => fail (ErrnoStatus "fsync(dedup store directory) failed" path e)
  end.
(** [f] is what synchronising that directory does to the store's files. *)
Definition SyncDirectory (answers : DirectoryAnswers) (path : string) (f : Disk -> Disk) : Io unit :=
  match dir_open answers with
  | Some e => fail (ErrnoStatus "open(dedup store directory) failed" path e)
  | None => fsync_loop (dir_fsync answers) path f
  end.

Definition EnsureParentDirectory (a : ParentAnswers) (file_path : string) : Io unit :=
  let directory := parent_path file_path in
  if bool_decide (directory = "") then ret tt
  else match exists_error a with
  | Some m => fail (Internal ("cannot inspect dedup store directory '" +:+ directory +:+ "': " +:+ m))
  | None =>
      if negb (existed a) then
        if create_error a || (negb (created a) && negb (is_directory a))
        then fail (Internal ("cannot create dedup store directory '" +:+ directory +:+ "': "
                             +:+ create_message a))
        else if created a then
          match chmod_answer a with
          | Some e => fail (ErrnoStatus "chmod(dedup store directory) failed" directory e)
          | None =>
              io! SyncDirectory (sync_created a) directory fsync_directory ;;
              if bool_decide (parent_path directory = "") then ret tt
              else SyncDirectory (sync_parent a) (parent_path directory) id
          end
        else ret tt
      else if negb (is_directory a) || is_directory_error a
      then fail (Invalid ("dedup store parent path is not a directory: '" +:+ directory +:+ "'"))
      else ret tt
  end.

(** The loop that writes a whole buffer to the temporary file; the two statuses are those of a failed and
    of an empty write. *)
Fixpoint write_loop (failed : Errno -> Status) (empty : Status) (answers : list WriteAnswer) (bytes : list byte)
    (consumed : nat) : Io unit :=
  if (length bytes <=? consumed)%nat then ret tt
  else match answers with
  | [] => effect (pwrite_tmp consumed (drop consumed bytes))
  | WriteErrno EINTR :: rest => write_loop failed empty rest bytes consumed
  | WriteErrno e :: _ => fail (failed e)
  | WriteCount n :: rest =>
      let count := Nat.min n (length bytes - consumed) in
      if (count =? 0)%nat then fail empty
      else io! effect (pwrite_tmp consumed (subspan bytes consumed count)) ;;
           write_loop failed empty rest bytes (consumed + count)
  end.
Definition WriteExact (answers : list WriteAnswer) (bytes : list byte) (path : string) : Io unit :=
  write_loop (ErrnoStatus "pwrite failed" path) (Internal ("short write to dedup store '" +:+ path +:+ "'"))
    answers bytes 0.

Fixpoint rename_loop (answers : list Errno) (final_path : string) : Io unit :=
  match answers with
  | [] => effect rename_tmp
  | EINTR :: rest => rename_loop rest final_path
  | e :: _ => io! effect unlink_tmp ;; fail (ErrnoStatus "rename(dedup store) failed" final_path e)
  end.

Definition AtomicPublish (a : PublishAnswers) (path : string) (bytes : list byte) : Io unit :=
  io! EnsureParentDirectory (parent_answers a) path ;;
  let tmp := path +:+ ".tmp." +:+ getpid_string in
  io! call (ErrnoStatus "open(dedup store tmp) failed" tmp <$> open_answer a) open_tmp ;;
  io! WriteExact (write_answers a) bytes tmp ;;
  io! call (ErrnoStatus "ftruncate(dedup store tmp) failed" tmp <$> ftruncate_answer a)
        (ftruncate_tmp (length bytes)) ;;
  io! SyncFile (sync_answers a) tmp ;;
  io! rename_loop (rename_answers a) path ;;
  if bool_decide (parent_path path = "") then ret tt
  else SyncDirectory (directory_answers a) (parent_path path) fsync_directory.
End Publish.

(** ** Triples with a crash invariant *)

Section Triples.
Context {P : Posix}.

(** From a state with [Pre], every state the call goes through satisfies the crash
    invariant [I], and the outcome satisfies [Post] or the failure keeps [I]. *)
Definition triple {A} (I : Disk -> Prop) (Pre : Disk -> Prop) (m : Io A) (Post : A -> Disk -> Prop) : Prop :=
  forall d, I d -> Pre d ->
  let '(t, d', r) := m d in
  Forall I t /\ I d' /\ match r with Ok a => Post a d' | Err _ => True end.

Lemma triple_ret {A} I Pre (a : A) : triple I Pre (ret a) (fun _ => Pre).
Proof. intros d HI HP. by split_and!; [constructor|..]. Qed.

Lemma triple_fail {A} I Pre s (Post : A -> Disk -> Prop) : triple I Pre (fail s) Post.
Proof. intros d HI HP. by split_and!; [constructor|..]. Qed.

Lemma triple_effect I (Pre Post : Disk -> Prop) f :
  (forall d, I d -> Pre d -> I (f d) /\ Post (f d)) -> triple I Pre (effect f) (fun _ => Post).
Proof. intros H d HI HP. destruct (H d HI HP). by split_and!; [by repeat constructor|..]. Qed.

Lemma triple_bind {A B} I Pre (m : Io A) Mid (k : A -> Io B) Post :
  triple I Pre m Mid -> (forall a, triple I (Mid a) (k a) Post) -> triple I Pre (bind m k) Post.
Proof.
  intros Hm Hk d HI HP. specialize (Hm d HI HP). unfold bind.
  destruct (m d) as [[t d'] [a|s]]; destruct Hm as (H1 & H2 & H3); [|done].
  specialize (Hk a d' H2 H3). destruct (k a d') as [[t' d''] r]. destruct Hk as (K1 & K2 & K3).
  split_and!; [|done|done]. apply Forall_elem. intros x [Hx|Hx]%elem_of_app.
  - rewrite Forall_elem in H1. by apply H1.
  - rewrite Forall_elem in K1. by apply K1.
Qed.

Lemma triple_call I (Pre Post : Disk -> Prop) answer f :
  (forall d, I d -> Pre d -> I (f d) /\ Post (f d)) -> triple I Pre (call answer f) (fun _ => Post).
Proof. intros H. destruct answer; [apply triple_fail|by apply triple_effect]. Qed.

Lemma triple_post {A} I Pre (m : Io A) (Post Post' : A -> Disk -> Prop) :
  triple I Pre m Post -> (forall a d, Post a d -> Post' a d) -> triple I Pre m Post'.
Proof.
  intros Hm H d HI HP. specialize (Hm d HI HP). destruct (m d) as [[t d'] r].
  destruct Hm as (H1 & H2 & H3). split_and!; try done. destruct r; [by apply H|done].
Qed.
End Triples.
#[export] Hint Resolve triple_ret triple_fail : mino.

(** ** Calls that leave the live file alone *)

Section Untouched.
Context {P : Posix} {PL : PosixLaws P} (Inv : Disk -> Prop).
Context (Hinv : forall d d', live_untouched d d' -> Inv d -> Inv d').

(** A call that only touches the temporary file. *)
Lemma triple_tmp (Pre Post : Disk -> Prop) f :
  (forall d, live_untouched d (f d)) -> (forall d, Pre d -> Post (f d)) ->
  triple Inv Pre (effect f) (fun _ => Post).
Proof.
  intros Hf HP. apply triple_effect. intros d HI Hd. split; [|by apply HP].
  by eapply Hinv.
Qed.

(** Synchronising a directory keeps the live file. *)
Lemma SyncDirectory_triple answers path (Pre Post : Disk -> Prop) f :
  (forall d, live_untouched d (f d)) -> (forall d, Pre d -> Post (f d)) ->
  triple Inv Pre (SyncDirectory answers path f) (fun _ => Post).
Proof.
  intros Hf HP. unfold SyncDirectory. destruct (dir_open answers); [apply triple_fail|].
  induction (dir_fsync answers) as [|[] l IH]; cbn [fsync_loop]; try apply triple_fail; [|done].
  by apply triple_tmp.
Qed.

(** Writing the buffer leaves it in the temporary file. *)
Lemma write_loop_triple_inv bytes failed empty answers : forall consumed,
  (consumed <= length bytes)%nat ->
  triple Inv (fun d => tmp_data d = Some (take consumed bytes)) (write_loop failed empty answers bytes consumed)
    (fun _ d => tmp_data d = Some bytes).
Proof.
  assert (forall consumed n d, (consumed <= length bytes)%nat -> tmp_data d = Some (take consumed bytes) ->
    tmp_data (pwrite_tmp consumed (subspan bytes consumed n) d) = Some (take (consumed + n) bytes)) as Hwrite.
  { intros consumed n d Hc Hd. pose proof (pwrite_tmp_data d _ (subspan bytes consumed n) Hd) as Hp.
    rewrite length_take_le in Hp by done. rewrite Hp. f_equal. unfold subspan. by rewrite take_take_drop. }
  assert (forall n, (length bytes <= n)%nat -> take n bytes = bytes) as Hall by (intros; by apply take_ge).
  induction answers as [|a answers IH]; intros consumed Hc; cbn [write_loop];
    destruct (Nat.leb_spec (length bytes) consumed).
  - eapply triple_post; [apply triple_ret|]. intros ? d Hd. cbn in Hd. by rewrite Hall in Hd.
  - apply triple_tmp; [intros; apply pwrite_tmp_live|]. intros d Hd.
    pose proof (Hwrite consumed (length bytes - consumed)%nat d Hc Hd) as Hw.
    unfold subspan in Hw. rewrite take_ge in Hw by (rewrite length_drop; lia). rewrite Hw, Hall by lia. done.
  - eapply triple_post; [apply triple_ret|]. intros ? d Hd. cbn in Hd. by rewrite Hall in Hd.
  - destruct a as [[]|n]; try apply triple_fail; [by apply IH|]. cbv zeta.
    destruct (Nat.eqb_spec (Nat.min n (length bytes - consumed)) 0); [apply triple_fail|].
    eapply triple_bind; [|intros ?; apply IH; lia].
    apply triple_tmp; [intros; apply pwrite_tmp_live|]. intros d Hd. by apply Hwrite.
Qed.

Lemma EnsureParentDirectory_triple answers path :
  triple Inv (fun _ => True) (EnsureParentDirectory answers path) (fun _ _ => True).
Proof.
  unfold EnsureParentDirectory. cbv zeta.
  repeat match goal with
  | |- triple _ _ (if ?b then _ else _) _ => destruct b
  | |- triple _ _ (match ?x with _ => _ end) _ => destruct x
  | |- triple _ _ (ret _) _ => apply triple_ret
  | |- triple _ _ (fail _) _ => apply triple_fail
  | |- triple _ _ (bind _ _) _ => apply (triple_bind _ _ _ (fun _ _ => True)); [|intros ?]
  | |- triple _ _ (SyncDirectory _ _ _) _ => apply SyncDirectory_triple; try done
  end.
  apply fsync_directory_live.
Qed.
End Untouched.

(** ** Publication is atomic *)

Section Atomic.
Context {P : Posix} {PL : PosixLaws P}.
Context (d0 : Disk) (bytes : list byte).

(** At a crash the path reads what it could read before, or the new content. *)
Definition old_or_new (d : Disk) : Prop :=
  (live_data d = live_data d0 \/ live_data d = Some bytes) /\
  forall c, survives d c -> survives d0 c \/ c = Some bytes.

Lemma old_or_new_start : old_or_new d0.
Proof. split; [by left|by left]. Qed.

Lemma untouched_old_or_new d d' : live_untouched d d' -> old_or_new d -> old_or_new d'.
Proof. intros (H1 & _ & H2) [H3 H4]. split; [by rewrite H1|]. intros c Hc. by apply H4, H2. Qed.

Lemma write_loop_triple failed empty answers consumed :
  (consumed <= length bytes)%nat ->
  triple old_or_new (fun d => tmp_data d = Some (take consumed bytes)) (write_loop failed empty answers bytes consumed)
    (fun _ d => tmp_data d = Some bytes).
Proof. apply (write_loop_triple_inv old_or_new untouched_old_or_new). Qed.

Lemma SyncFile_triple answers path :
  triple old_or_new (fun d => tmp_data d = Some bytes) (SyncFile answers path)
    (fun _ d => tmp_data d = Some bytes /\ tmp_synced d).
Proof.
  assert (triple old_or_new (fun d => tmp_data d = Some bytes) (effect fsync_tmp)
    (fun _ d => tmp_data d = Some bytes /\ tmp_synced d)) as Hsync.
  { apply (triple_tmp old_or_new untouched_old_or_new); [apply fsync_tmp_live|]. intros d Hd. by rewrite fsync_tmp_data; split; [|apply fsync_tmp_synced]. }
  induction answers as [|[e f] answers IH]; cbn [SyncFile]; [done|]. cbv zeta.
  destruct (if _ || _ then _ else _) as [[]|]; done || apply triple_fail.
Qed.

Lemma rename_triple answers path :
  triple old_or_new (fun d => tmp_data d = Some bytes /\ tmp_synced d) (rename_loop answers path)
    (fun _ d => live_data d = Some bytes /\ live_synced d).
Proof.
  induction answers as [|e answers IH]; cbn [rename_loop].
  - apply triple_effect. intros d [H1 H2] [Hd Hs]. rewrite <- Hd. split; [split|].
    + right. by rewrite rename_tmp_data.
    + intros c [Hc| ->]%rename_tmp_survives; [by apply H2|by right|done].
    + split; [by apply rename_tmp_data|by apply rename_tmp_synced].
  - destruct e; try done; (eapply triple_bind; [|intros; apply triple_fail]);
      apply (triple_tmp old_or_new untouched_old_or_new _ (fun _ => True)); try done; intros; apply unlink_tmp_live.
Qed.

Lemma AtomicPublish_triple a path :
  triple old_or_new (fun _ => True) (AtomicPublish a path bytes)
    (fun _ d => live_data d = Some bytes /\ live_synced d /\
       (parent_path path <> "" -> forall c, survives d c -> c = Some bytes)).
Proof.
  unfold AtomicPublish. cbv zeta.
  eapply triple_bind; [apply (EnsureParentDirectory_triple old_or_new untouched_old_or_new)|intros ?].
  eapply (triple_bind _ _ _ (fun _ d => tmp_data d = Some (take 0 bytes))); [|intros ?].
  { destruct (open_answer a); [apply triple_fail|]. apply (triple_tmp old_or_new untouched_old_or_new); [apply open_tmp_live|].
    intros d _. apply open_tmp_data. }
  eapply triple_bind; [apply write_loop_triple; lia|intros ?].
  eapply (triple_bind _ _ _ (fun _ d => tmp_data d = Some bytes)); [|intros ?].
  { destruct (ftruncate_answer a); [apply triple_fail|]. apply (triple_tmp old_or_new untouched_old_or_new); [apply ftruncate_tmp_live|].
    intros d Hd. by apply ftruncate_tmp_data. }
  eapply triple_bind; [apply SyncFile_triple|intros ?].
  eapply triple_bind; [apply rename_triple|intros ?].
  case_bool_decide as Hpath.
  - eapply triple_post; [apply triple_ret|]. intros ? d [? ?]. done.
  - apply (SyncDirectory_triple old_or_new untouched_old_or_new); [apply fsync_directory_live|]. intros d [Hd Hs].
    destruct (fsync_directory_live d) as (H1 & H2 & H3). split_and!; [by rewrite H1|by apply H2|].
    intros _ c Hc. rewrite <- Hd. by apply fsync_directory_survives.
Qed.
End Atomic.

(** ** A disk that satisfies the interface *)

Module ConcreteDisk.
Record File : Set := mkFile { data : list byte; synced : bool }.
(** [older] is what the path named before the renames that no directory
    synchronisation has made durable yet. *)
Record State : Set := mkState { current : option File; older : list (option File); temporary : option File }.

Definition read_file (f : option File) : option (list byte) := data <$> f.
Definition file_synced (f : option File) : Prop := match f with Some f => synced f = true | None => True end.
(** The content of a file that was not synchronised is arbitrary after a crash. *)
Definition file_survives (f : option File) (c : option (list byte)) : Prop :=
  file_synced f -> c = read_file f.
Definition on_tmp (g : File -> File) (d : State) : State :=
  mkState (current d) (older d) (g <$> temporary d).

Definition posix (parent : string -> string) : Posix := {|
  Disk := State;
  live_data d := read_file (current d);
  tmp_data d := read_file (temporary d);
  tmp_synced d := file_synced (temporary d);
  live_synced d := file_synced (current d);
  survives d c := exists f, f ∈ current d :: older d /\ file_survives f c;
  open_tmp d := mkState (current d) (older d) (Some (mkFile [] false));
  pwrite_tmp off chunk :=
    on_tmp (fun f => mkFile (take off (data f) ++ chunk ++ drop (off + length chunk) (data f)) false);
  ftruncate_tmp n := on_tmp (fun f => mkFile (take n (data f)) false);
  fsync_tmp := on_tmp (fun f => mkFile (data f) true);
  rename_tmp d := mkState (temporary d) (current d :: older d) None;
  unlink_tmp d := mkState (current d) (older d) None;
  fsync_directory d := mkState (current d) [] (temporary d);
  strerror _ := "";
  parent_path := parent;
  getpid_string := "1" |}.

#[export] Instance posix_laws parent : PosixLaws (posix parent).
Proof.
  split; cbn; unfold live_untouched; cbn; try done.
  - intros [c o [[t s]|]] bytes chunk; cbn; [intros [= ->]|done].
    rewrite firstn_all, drop_ge, app_nil_r by lia. done.
  - intros [c o [[t s]|]] bytes; cbn; [intros [= ->]|done]. by rewrite firstn_all.
  - intros [c o [[t s]|]]; done.
  - intros [c o [[t s]|]]; done.
  - intros [c o t] x Ht (f & Hf & Hx). cbn in *. apply elem_of_cons in Hf as [->|Hf]; [right; by apply Hx|].
    left. by exists f.
  - intros [c o t]. cbn. split_and!; try done. intros x (f & ->%list_elem_of_singleton & Hx).
    exists c. split; [apply list_elem_of_here|done].
  - intros [c o t] x Hc (f & ->%list_elem_of_singleton & Hx). by apply Hx.
Qed.
End ConcreteDisk.
