(* ===== verification/PartitionManifest.v ===== *)
(** * The durable partition manifest

    Models the class [PartitionManifest] of [mino/storage/recording_manifest.cc]: every mutation builds the
    next snapshot, writes it to a temporary file, synchronises that file, renames it over the
    manifest and synchronises the directory; a write that fails poisons the object.

    The file system is the interface [Posix] of [DurableFile]; what its calls answer is an input.
    A list of answers
    that is used up stands for calls that succeed.  Fault hooks are null.  Memory allocation does not fail. *)
From Stdlib Require Import Ascii.
From S2P Require Import Prelude SourceIdentity Bytes Crc32c LittleEndian TopicPartition ManifestFormat DurableFile.

(** [lstat] of a path. *)
Inductive LstatAnswer : Set := LstatErrno (e : Errno) | LstatLink | LstatDirectory | LstatRegular (device inode : Z) | LstatOther.

Record ManifestOptions : Set := mkManifestOptions {
  manifest_limits : ManifestLimits; minimum_generation : Z; minimum_config_version : Z; minimum_durable_sequence : Z
}.

(** The answers of one [AtomicWriteManifest]; [tmp_name] is the name [mkstemp] chooses. *)
Record ManifestWriteAnswers : Set := mkManifestWrite {
  destination : LstatAnswer; tmp_name : string; mkstemp_answer : option Errno; fchmod_answer : option Errno;
  manifest_writes : list WriteAnswer; fdatasync_answer : option Errno; rename_answer : option Errno;
  directory_open : option Errno; directory_fsync : option Errno
}.
(** The calls of a write in which nothing fails. *)
Definition smooth_write : ManifestWriteAnswers :=
  mkManifestWrite (LstatRegular 0 0) "" None None [] None None None None.

Record PartitionManifest : Set := mkManifest {
  root_ : string; manifest_options_ : ManifestOptions; poisoned_ : bool; snapshot_ : PartitionManifestSnapshot
}.
Definition poison_manifest (m : PartitionManifest) : PartitionManifest :=
  mkManifest (root_ m) (manifest_options_ m) true (snapshot_ m).
Definition set_snapshot (m : PartitionManifest) (s : PartitionManifestSnapshot) : PartitionManifest :=
  mkManifest (root_ m) (manifest_options_ m) (poisoned_ m) s.

Definition with_segments (s : PartitionManifestSnapshot) (l : list SegmentManifestEntry) : PartitionManifestSnapshot :=
  mkSnapshot (snapshot_generation s) (format_version s) (partition s) (snapshot_checkpoint s) l.
Definition with_checkpoint (s : PartitionManifestSnapshot) (c : DurableCheckpoint) : PartitionManifestSnapshot :=
  mkSnapshot (snapshot_generation s) (format_version s) (partition s) (Some c) (segments s).
Definition with_partition (s : PartitionManifestSnapshot) (m : PartitionMetadata) : PartitionManifestSnapshot :=
  mkSnapshot (snapshot_generation s) (format_version s) m (snapshot_checkpoint s) (segments s).

(** [operator/] of a directory and a relative path, on their text. *)
Definition append_path (directory relative : string) : string :=
  if bool_decide (directory = "") || bool_decide (String.get (String.length directory - 1) directory = Some "/"%char)
  then directory +:+ relative else directory +:+ "/" +:+ relative.

Section Manifest.
Context {P : Posix} {B : Crc32cBackend}.

Definition ManifestIoError (operation path : string) (e : Errno) : Status :=
  let code := match e with EACCES | EPERM => kPermissionDenied | _ => kUnavailable end in
  mkStatus code (operation +:+ " '" +:+ path +:+ "': " +:+ strerror e).

(** ** Writing the file *)

(** The destructor of [TemporaryFile] removes the file while it still has its name. *)
Definition removing_tmp {A} (m : Io A) : Io A := fun d =>
  match m d with
  | (t, d', Ok a) => (t, d', Ok a)
  | (t, d', Err e) => (t ++ [unlink_tmp d'], unlink_tmp d', Err e)
  end.

Definition WriteAllManifest (answers : list WriteAnswer) (bytes : list byte) (path : string) : Io unit :=
  write_loop (ManifestIoError "cannot write manifest" path) (mkStatus kUnavailable "zero-byte manifest write")
    answers bytes 0.

Definition CreateTemporaryFile (a : ManifestWriteAnswers) (root : string) : Io unit :=
  let pattern := append_path root ".manifest.tmp.XXXXXX" in
  io! call (ManifestIoError "cannot create manifest temp file" pattern <$> mkstemp_answer a) open_tmp ;;
  call (ManifestIoError "cannot chmod manifest temp file" pattern <$> fchmod_answer a) id.

Definition SyncManifestDirectory (opened synced : option Errno) (path : string) (f : Disk -> Disk) : Io unit :=
  match opened with
  | Some e => fail (ManifestIoError "cannot open directory" path e)
  | None => call (ManifestIoError "cannot fsync directory" path <$> synced) f
  end.

Definition AtomicWriteManifest (a : ManifestWriteAnswers) (root : string) (bytes : list byte) : Io unit :=
  let manifest := append_path root "manifest" in
  let go :=
    io! CreateTemporaryFile a root ;;
    io! removing_tmp
          (io! WriteAllManifest (manifest_writes a) bytes (tmp_name a) ;;
           io! call (ManifestIoError "cannot fdatasync manifest" (tmp_name a) <$> fdatasync_answer a) fsync_tmp ;;
           call (ManifestIoError "cannot rename manifest" manifest <$> rename_answer a) rename_tmp) ;;
    SyncManifestDirectory (directory_open a) (directory_fsync a) root fsync_directory in
  match destination a with
  | LstatRegular _ _ | LstatErrno ENOENT => go
  | LstatErrno e => fail (ManifestIoError "cannot inspect manifest destination" manifest e)
  | _ => fail (Corruption "manifest destination is not a regular file")
  end.

(** ** Mutations *)

(** What a call returns: the states of the disk it went through, the last of them, the object and the status. *)
Definition MutationM : Type := Disk -> list Disk * Disk * (PartitionManifest * Result unit).
Definition answer (m : PartitionManifest) (r : Result unit) : MutationM := fun d => ([], d, (m, r)).
Notation "'refuse_if' c 'with' s 'on' m ';;' k" := (if c then answer m (Err s) else k)
  (at level 10, c at level 99, s at level 99, m at level 99, k at level 200).

Definition kPoisoned : Status := mkStatus kUnavailable "partition manifest is poisoned".

Definition Commit (m : PartitionManifest) (next : PartitionManifestSnapshot) (a : ManifestWriteAnswers) : MutationM :=
  refuse_if poisoned_ m with kPoisoned on m ;;
  refuse_if snapshot_generation (snapshot_ m) =? u64_max with
    Resource "partition manifest generation is exhausted" on m ;;
  let next := mkSnapshot (snapshot_generation (snapshot_ m) + 1) kPartitionManifestFormatVersion (partition next)
                (snapshot_checkpoint next) (segments next) in
  match EncodePartitionInternal next (manifest_limits (manifest_options_ m)) with
  | Err e => answer m (Err e)
  | Ok encoded => fun d =>
      let '(t, d', written) := AtomicWriteManifest a (root_ m) encoded d in
      match written with
      | Ok _ => (t, d', (set_snapshot m next, Ok tt))
      | Err e => (t, d', (poison_manifest m, Err e))
      end
  end.

(** The identity a version 1 manifest already has. *)
Definition legacy_identity_differs (old new : PartitionMetadata) : bool :=
  negb (meta_recording_id old =? meta_recording_id new) || negb (meta_topic_id old =? meta_topic_id new)
  || negb (meta_partition_id old =? meta_partition_id new) || negb (meta_writer_id old =? meta_writer_id new)
  || negb (meta_owner_epoch old =? meta_owner_epoch new) || negb (config_version old =? config_version new).

Definition UpgradeLegacyMetadata (m : PartitionManifest) (metadata : PartitionMetadata) (a : ManifestWriteAnswers)
  : MutationM :=
  refuse_if poisoned_ m with kPoisoned on m ;;
  if negb (format_version (snapshot_ m) =? kLegacyManifestFormatVersion) then
    answer m (if bool_decide (partition (snapshot_ m) = metadata) then Ok tt
              else Err (Invalid "partition metadata is immutable"))
  else
    refuse_if legacy_identity_differs (partition (snapshot_ m)) metadata with
      Invalid "legacy partition identity fields are immutable" on m ;;
    Commit m (with_partition (snapshot_ m) metadata) a.

Definition AddSegment (m : PartitionManifest) (e : SegmentManifestEntry) (a : ManifestWriteAnswers) : MutationM :=
  refuse_if poisoned_ m with kPoisoned on m ;;
  Commit m (with_segments (snapshot_ m) (segments (snapshot_ m) ++ [e])) a.

Definition UpdateSegment (m : PartitionManifest) (e : SegmentManifestEntry) (a : ManifestWriteAnswers) : MutationM :=
  refuse_if poisoned_ m with kPoisoned on m ;;
  match find_segment (entry_segment_id e) (segments (snapshot_ m)) with
  | None => answer m (Err (mkStatus kNotFound "segment ID is unknown"))
  | Some (i, found) =>
      refuse_if negb (bool_decide (relative_path e = relative_path found))
                || negb (entry_first_sequence e =? entry_first_sequence found)
                || negb (entry_created_at_ns e =? entry_created_at_ns found) with
        Invalid "segment identity fields are immutable" on m ;;
      refuse_if (entry_last_sequence e <? entry_last_sequence found)
                || (entry_size_bytes e <? entry_size_bytes found)
                || (entry_sealed_at_ns e <? entry_sealed_at_ns found) with
        Invalid "segment progress cannot move backward" on m ;;
      refuse_if bool_decide (entry_state e = entry_state found) && at_least_sealed e
                && negb (bool_decide (e = found)) with
        Invalid "sealed segment metadata is immutable" on m ;;
      refuse_if negb (bool_decide (entry_state e = entry_state found))
                && negb (AllowedTransition (entry_state found) (entry_state e)) with
        Invalid "invalid persistent segment state transition" on m ;;
      if bool_decide (e = found) then answer m (Ok tt)
      else Commit m (with_segments (snapshot_ m) (<[i := e]> (segments (snapshot_ m)))) a
  end.

Definition moves_backward (c current : DurableCheckpoint) : bool :=
  (checkpoint_segment_id c <? checkpoint_segment_id current)
  || (durable_sequence c <? durable_sequence current)
  || ((checkpoint_segment_id c =? checkpoint_segment_id current) && (durable_offset c <? durable_offset current)).

Definition UpdateCheckpoint (m : PartitionManifest) (c : DurableCheckpoint) (a : ManifestWriteAnswers) : MutationM :=
  let commit := Commit m (with_checkpoint (snapshot_ m) c) a in
  match snapshot_checkpoint (snapshot_ m) with
  | None => commit
  | Some current =>
      refuse_if moves_backward c current with Invalid "durable checkpoint cannot move backward" on m ;;
      if bool_decide (c = current) then answer m (Ok tt) else commit
  end.

Definition FindSegment (m : PartitionManifest) (id : Z) : Result SegmentManifestEntry :=
  match find_segment id (segments (snapshot_ m)) with
  | None => Err (mkStatus kNotFound "segment ID is unknown")
  | Some (_, e) => Ok e
  end.

(** ** Orphans *)

(** The components of the path, one [lstat] each. *)
Fixpoint inspect_components (answers : list LstatAnswer) (current : string) (components : list string)
    (require_regular_file : bool) : Result unit :=
  match components with
  | [] => Ok tt
  | c :: rest =>
      let current := append_path current c in
      let final := bool_decide (rest = []) in
      match answers with
      | LstatErrno e :: _ =>
          if bool_decide (e = ENOENT) && negb require_regular_file then Ok tt
          else Err (ManifestIoError "cannot inspect manifest path" current e)
      | LstatLink :: _ => Err (Corruption "manifest path resolves through a symlink")
      | LstatDirectory :: answers' =>
          if final then Err (Corruption "manifest path is not a regular file")
          else inspect_components answers' current rest require_regular_file
      | LstatRegular _ _ :: answers' =>
          if final then inspect_components answers' current rest require_regular_file
          else Err (Corruption "manifest path parent is not a directory")
      | LstatOther :: _ =>
          Err (Corruption (if final then "manifest path is not a regular file"
                           else "manifest path parent is not a directory"))
      | [] => inspect_components [] current rest require_regular_file
      end
  end.
Definition InspectRelativePath (answers : list LstatAnswer) (root : string) (relative : fs_path)
    (require_regular_file : bool) : Result unit :=
  inspect_components answers root relative require_regular_file.

(** The second [lstat], of a file whose identity the caller knows. *)
Definition revalidate (path : string) (expected_device expected_inode : option Z) (seen : LstatAnswer) : Result unit :=
  match expected_device, expected_inode with
  | None, None => Ok tt
  | Some device, Some inode =>
      match seen with
      | LstatErrno e => Err (ManifestIoError "cannot revalidate orphan" path e)
      | LstatRegular d i =>
          if negb (d =? device) || negb (i =? inode)
          then Err (mkStatus kUnavailable "orphan inode/device changed after validation") else Ok tt
      | _ => Err (mkStatus kUnavailable "orphan inode/device changed after validation")
      end
  | _, _ => Err (Invalid "orphan identity requires both device and inode")
  end.

(** The sequence after the last segment, 0 when there is none left. *)
Definition expected_first (entries : list SegmentManifestEntry) : Z :=
  match list.last entries with
  | None => 1
  | Some e => if entry_last_sequence e =? u64_max then 0 else entry_last_sequence e + 1
  end.

Definition check_orphan (m : PartitionManifest) (e : SegmentManifestEntry) (device inode : option Z)
    (inspected : list LstatAnswer) (seen : LstatAnswer) : Result unit :=
  fail_if negb (bool_decide (entry_state e = kSegmentSealed)) with
    Invalid "only a verified sealed orphan may be adopted" ;;
  check! ValidateSegmentPath (relative_path e) (max_relative_path_bytes (manifest_limits (manifest_options_ m))) ;;
  fail_if existsb (fun x => (entry_segment_id x =? entry_segment_id e)
                            || bool_decide (relative_path x = relative_path e)) (segments (snapshot_ m)) with
    mkStatus kAlreadyExists "orphan is already tracked" ;;
  let first := expected_first (segments (snapshot_ m)) in
  fail_if (first =? 0) || negb (entry_first_sequence e =? first) with
    Invalid ("orphan first sequence must exactly follow the previous segment; "
             +:+ "non-contiguous adoption requires an explicit validated Gap") ;;
  check! InspectRelativePath inspected (root_ m) (relative_path e) true ;;
  revalidate (append_path (root_ m) (generic_string (relative_path e))) device inode seen.

Definition AdoptSealedOrphan (m : PartitionManifest) (e : SegmentManifestEntry) (device inode : option Z)
    (inspected : list LstatAnswer) (seen : LstatAnswer) (a : ManifestWriteAnswers) : MutationM :=
  match check_orphan m e device inode inspected seen with
  | Err s => answer m (Err s)
  | Ok _ => AddSegment m e a
  end.

(** [target] answers the [lstat] of the new name, [renamed] and [sync] the calls after it; the manifest
    file is not touched.  The result holds the new name. *)
Definition QuarantineOrphan (m : PartitionManifest) (p : fs_path) (device inode : option Z)
    (inspected : list LstatAnswer) (seen target : LstatAnswer) (renamed opened synced : option Errno)
  : PartitionManifest * Result fs_path :=
  let limit := max_relative_path_bytes (manifest_limits (manifest_options_ m)) in
  let quarantined := path_of_string (generic_string p +:+ ".orphan") in
  let source := append_path (root_ m) (generic_string p) in
  let destination := append_path (root_ m) (generic_string quarantined) in
  match
    (fail_if poisoned_ m with kPoisoned ;;
     check! ValidateSegmentPath p limit ;;
     fail_if existsb (fun x => bool_decide (relative_path x = p)) (segments (snapshot_ m)) with
       Invalid "tracked segment cannot be quarantined as orphan" ;;
     check! InspectRelativePath inspected (root_ m) p true ;;
     check! revalidate source device inode seen ;;
     check! ValidateBasicRelativePath quarantined limit ;;
     match target, renamed with
     | LstatErrno ENOENT, None => Ok tt
     | LstatErrno ENOENT, Some e => Err (ManifestIoError "cannot quarantine orphan" source e)
     | LstatErrno e, _ => Err (ManifestIoError "cannot inspect quarantine destination" destination e)
     | _, _ => Err (mkStatus kAlreadyExists "orphan quarantine destination exists")
     end)
  with
  | Err e => (m, Err e)
  | Ok _ =>
      let directory := append_path (root_ m) "segments" in
      match opened, synced with
      | Some e, _ => (poison_manifest m, Err (ManifestIoError "cannot open directory" directory e))
      | None, Some e => (poison_manifest m, Err (ManifestIoError "cannot fsync directory" directory e))
      | None, None => (m, Ok quarantined)
      end
  end.

(** ** Creation and opening *)

Definition VerifyDirectory (seen : LstatAnswer) (path : string) : Result unit :=
  match seen with
  | LstatErrno e => Err (ManifestIoError "cannot inspect" path e)
  | LstatDirectory => Ok tt
  | _ => Err (Invalid "manifest root is not a real directory")
  end.

(** [None]: the lock is held by this process now. *)
Inductive LockAnswer : Set := LockAcquired | LockOpenErrno (e : Errno) | LockHeld | LockErrno (e : Errno).
Definition AcquireOwnerLock (a : LockAnswer) (root : string) : Result unit :=
  let path := append_path root ".manifest.owner.lock" in
  match a with
  | LockAcquired => Ok tt
  | LockOpenErrno e => Err (ManifestIoError "cannot open owner lock" path e)
  | LockHeld => Err (mkStatus kUnavailable "manifest already has an owner")
  | LockErrno e => Err (ManifestIoError "cannot acquire owner lock" path e)
  end.

Definition new_snapshot (metadata : PartitionMetadata) : PartitionManifestSnapshot :=
  mkSnapshot 1 kPartitionManifestFormatVersion metadata None [].

Definition CreateManifest (root : string) (metadata : PartitionMetadata) (o : ManifestOptions)
    (directory : LstatAnswer) (lock : LockAnswer) (existing : LstatAnswer) (a : ManifestWriteAnswers)
  : Io PartitionManifest :=
  let snapshot := new_snapshot metadata in
  match
    (check! VerifyDirectory directory root ;;
     check! ValidateManifestLimits (manifest_limits o) ;;
     check! ValidatePartitionSnapshot snapshot (manifest_limits o) ;;
     fail_if (snapshot_generation snapshot <? minimum_generation o)
             || (config_version metadata <? minimum_config_version o)
             || negb (minimum_durable_sequence o =? 0) with
       Corruption "new partition manifest is below recovery watermark" ;;
     check! AcquireOwnerLock lock root ;;
     check! match existing with
            | LstatErrno ENOENT => Ok tt
            | LstatErrno e => Err (ManifestIoError "cannot inspect manifest" (append_path root "manifest") e)
            | _ => Err (mkStatus kAlreadyExists "partition manifest already exists")
            end ;;
     EncodePartitionInternal snapshot (manifest_limits o))
  with
  | Err e => fail e
  | Ok encoded =>
      io! AtomicWriteManifest a root encoded ;;
      ret (mkManifest root o false snapshot)
  end.

Inductive ReadAnswer : Set := ReadErrno (e : Errno) | ReadCount (n : nat).

(** [rest] is what the file still holds; when the answers are used up the next read returns all of it. *)
Fixpoint read_manifest (answers : list ReadAnswer) (rest out : list byte) (path : string) : Result (list byte) :=
  match rest with
  | [] => Ok out
  | _ =>
      match answers with
      | [] => Ok (out ++ rest)
      | ReadErrno EINTR :: answers' => read_manifest answers' rest out path
      | ReadErrno e :: _ => Err (ManifestIoError "cannot read manifest" path e)
      | ReadCount n :: answers' =>
          match take n rest with
          | [] => Err (Corruption "manifest is truncated")
          | chunk => read_manifest answers' (drop n rest) (out ++ chunk) path
          end
      end
  end.

Record ManifestReadAnswers : Set := mkManifestRead {
  read_lstat : LstatAnswer; read_open : option Errno; read_fstat : LstatAnswer;
  manifest_reads : list ReadAnswer; final_read : list Errno
}.
(** The last read meets the end of the file, which nobody else changes. *)
Definition finish_reading (answers : list Errno) (path : string) : Result unit :=
  match filter (fun e => e <> EINTR) answers with
  | [] => Ok tt
  | e :: _ => Err (ManifestIoError "cannot finish reading manifest" path e)
  end.

Definition ReadRegularFile (a : ManifestReadAnswers) (path : string) (content : list byte) (max_bytes : Z)
  : Result (list byte) :=
  check! match read_lstat a with
         | LstatErrno ENOENT => Err (mkStatus kNotFound "manifest file does not exist")
         | LstatErrno e => Err (ManifestIoError "cannot inspect manifest" path e)
         | LstatRegular _ _ => Ok tt
         | _ => Err (Corruption "manifest is not a regular non-symlink file")
         end ;;
  check! match read_open a with Some e => Err (ManifestIoError "cannot open manifest" path e) | None => Ok tt end ;;
  check! match read_fstat a with
         | LstatErrno e => Err (ManifestIoError "cannot stat manifest" path e)
         | LstatRegular _ _ => Ok tt
         | _ => Err (Corruption "manifest type changed")
         end ;;
  fail_if max_bytes <? zlen content with Resource "manifest exceeds configured byte limit" ;;
  let! bytes := read_manifest (manifest_reads a) content [] path in
  check! finish_reading (final_read a) path ;;
  Ok bytes.

Fixpoint VerifySnapshotPaths (answers : list (list LstatAnswer)) (root : string) (entries : list SegmentManifestEntry)
  : Result unit :=
  match entries with
  | [] => Ok tt
  | e :: rest =>
      check! InspectRelativePath (default [] (head answers)) root (relative_path e) false ;;
      VerifySnapshotPaths (tail answers) root rest
  end.

(** [content] is what the manifest file holds. *)
Definition OpenManifest (root : string) (o : ManifestOptions) (directory : LstatAnswer) (lock : LockAnswer)
    (a : ManifestReadAnswers) (paths : list (list LstatAnswer)) (content : list byte) : Result PartitionManifest :=
  check! VerifyDirectory directory root ;;
  check! ValidateManifestLimits (manifest_limits o) ;;
  check! AcquireOwnerLock lock root ;;
  let! encoded := ReadRegularFile a (append_path root "manifest") content (max_manifest_bytes (manifest_limits o)) in
  let! snapshot := DecodePartitionInternal encoded (manifest_limits o) in
  let sequence := match snapshot_checkpoint snapshot with Some c => durable_sequence c | None => 0 end in
  fail_if (snapshot_generation snapshot <? minimum_generation o)
          || (config_version (partition snapshot) <? minimum_config_version o)
          || (sequence <? minimum_durable_sequence o) with
    Corruption "partition manifest rollback detected" ;;
  check! VerifySnapshotPaths paths root (segments snapshot) ;;
  Ok (mkManifest root o false snapshot).
End Manifest.
