(* ===== verification/ManifestSafety.v ===== *)
(** * What a partition manifest keeps

    A mutation of a [PartitionManifest] is atomic and durable, whatever the calls of the file system
    answer and whenever the process dies; and whatever calls are made, the snapshot obeys the
    rules and only moves forward. *)
From S2P Require Import Prelude SourceIdentity Bytes Crc32c LittleEndian TopicPartition ManifestFormat ManifestCodec DurableFile PartitionManifest.

Section Atomic.
Context {P : Posix} {PL : PosixLaws P}.
Context (d0 : Disk) (bytes : list byte).
Abbreviation steady := (old_or_new d0 bytes).

Lemma removing_tmp_triple {A} Pre (m : Io A) Post : triple steady Pre m Post -> triple steady Pre (removing_tmp m) Post.
Proof.
  intros Hm d HI HP. specialize (Hm d HI HP). unfold removing_tmp. destruct (m d) as [[t d'] [a|e]]; [done|].
  destruct Hm as (H1 & H2 & _).
  assert (steady (unlink_tmp d')) as Hu by (eapply untouched_old_or_new; [apply unlink_tmp_live|done]).
  split; [|done]. apply list.Forall_app. split; [done|]. constructor; [done|constructor].
Qed.

(** A call that only touches the temporary file. *)
Lemma triple_tmp_call (Pre Post : Disk -> Prop) answer f :
  (forall d, live_untouched d (f d)) -> (forall d, Pre d -> Post (f d)) ->
  triple steady Pre (call answer f) (fun _ => Post).
Proof.
  intros Hf HP. destruct answer; [apply triple_fail|].
  by apply (triple_tmp steady (untouched_old_or_new d0 bytes)).
Qed.

Lemma id_untouched d : live_untouched d (id d).
Proof. by split_and!. Qed.

Lemma AtomicWriteManifest_triple a root :
  triple steady (fun _ => True) (AtomicWriteManifest a root bytes)
    (fun _ d => live_data d = Some bytes /\ live_synced d /\ forall c, survives d c -> c = Some bytes).
Proof.
  unfold AtomicWriteManifest. cbv zeta.
  enough (triple steady (fun _ => True)
    (io! CreateTemporaryFile a root ;;
     io! removing_tmp
           (io! WriteAllManifest (manifest_writes a) bytes (tmp_name a) ;;
            io! call (ManifestIoError "cannot fdatasync manifest" (tmp_name a) <$> fdatasync_answer a) fsync_tmp ;;
            call (ManifestIoError "cannot rename manifest" (append_path root "manifest") <$> rename_answer a) rename_tmp) ;;
     SyncManifestDirectory (directory_open a) (directory_fsync a) root fsync_directory)
    (fun _ d => live_data d = Some bytes /\ live_synced d /\ forall c, survives d c -> c = Some bytes))
    by (destruct (destination a) as [[]| | | |]; done || apply triple_fail).
  eapply (triple_bind _ _ _ (fun _ d => tmp_data d = Some (take 0 bytes))); [|intros ?].
  { unfold CreateTemporaryFile. cbv zeta. eapply (triple_bind _ _ _ (fun _ d => tmp_data d = Some (take 0 bytes))); [|intros ?].
    - apply triple_tmp_call; [apply open_tmp_live|]. intros d _. apply open_tmp_data.
    - apply triple_tmp_call; [apply id_untouched|done]. }
  eapply (triple_bind _ _ _ (fun _ d => live_data d = Some bytes /\ live_synced d)); [apply removing_tmp_triple|intros ?].
  - eapply triple_bind; [apply write_loop_triple; lia|intros ?].
    eapply (triple_bind _ _ _ (fun _ d => tmp_data d = Some bytes /\ tmp_synced d)); [|intros ?].
    { apply triple_tmp_call; [apply fsync_tmp_live|]. intros d Hd. rewrite fsync_tmp_data. split; [done|apply fsync_tmp_synced]. }
    destruct (rename_answer a); [apply triple_fail|]. apply (rename_triple d0 bytes [] "").
  - unfold SyncManifestDirectory. destruct (directory_open a); [apply triple_fail|].
    apply triple_tmp_call; [apply fsync_directory_live|]. intros d [Hd Hs].
    destruct (fsync_directory_live d) as (H1 & H2 & H3). split_and!; [by rewrite H1|by apply H2|].
    intros c Hc. rewrite <- Hd. by apply fsync_directory_survives.
Qed.
End Atomic.

(** ** Moving forward *)

Record entry_moves (e e' : SegmentManifestEntry) : Prop := {
  em_id : entry_segment_id e' = entry_segment_id e;
  em_path : relative_path e' = relative_path e;
  em_first : entry_first_sequence e' = entry_first_sequence e;
  em_created : entry_created_at_ns e' = entry_created_at_ns e;
  em_last : entry_last_sequence e <= entry_last_sequence e';
  em_size : entry_size_bytes e <= entry_size_bytes e';
  em_sealed : entry_sealed_at_ns e <= entry_sealed_at_ns e';
  em_state : rtc (fun x y => AllowedTransition x y = true) (entry_state e) (entry_state e')
}.

#[export] Instance entry_moves_preorder : PreOrder entry_moves.
Proof.
  split; [intros e; split; done || lia|]. intros e f g [] []. split; try congruence; try lia. by etrans.
Qed.

(** The fields the identity of a partition consists of. *)
Definition identity (m : PartitionMetadata) : Z * Z * Z * Z * Z * Z :=
  (meta_recording_id m, meta_topic_id m, meta_partition_id m, meta_writer_id m, meta_owner_epoch m, config_version m).
(** The order of durable checkpoints. *)
Record not_before (c c' : DurableCheckpoint) : Prop := {
  nb_segment : checkpoint_segment_id c <= checkpoint_segment_id c';
  nb_sequence : durable_sequence c <= durable_sequence c';
  nb_offset : checkpoint_segment_id c = checkpoint_segment_id c' -> durable_offset c <= durable_offset c'
}.

Record advances (s s' : PartitionManifestSnapshot) : Prop := {
  ad_generation : snapshot_generation s < snapshot_generation s';
  ad_identity : identity (partition s') = identity (partition s);
  ad_entries : forall i e, segments s !! i = Some e -> exists e', segments s' !! i = Some e' /\ entry_moves e e';
  ad_checkpoint : forall c, snapshot_checkpoint s = Some c -> exists c', snapshot_checkpoint s' = Some c' /\ not_before c c'
}.

Lemma identity_same m m' : legacy_identity_differs m m' = false -> identity m' = identity m.
Proof.
  unfold legacy_identity_differs, identity. rewrite !orb_false_iff, !negb_false_iff, !Z.eqb_eq.
  by intros [[[[[-> ->] ->] ->] ->] ->].
Qed.

#[export] Instance not_before_preorder : PreOrder not_before.
Proof. split; [by intros c; split|]. intros a b c [] []. split; lia. Qed.

Lemma not_backward c c' : moves_backward c' c = false -> not_before c c'.
Proof.
  unfold moves_backward. rewrite !orb_false_iff, !andb_false_iff, !Z.ltb_ge, !Z.eqb_neq. intros H. split; lia.
Qed.

#[export] Instance advances_transitive : Transitive advances.
Proof.
  intros r s u [A1 A2 A3 A4] [B1 B2 B3 B4]. split; [lia | congruence | |].
  - intros i e (e' & H1 & M1)%A3. destruct (B3 _ _ H1) as (e'' & H2 & M2). exists e''. split; [done|by etrans].
  - intros c (c' & H1 & M1)%A4. destruct (B4 _ H1) as (c'' & H2 & M2). exists c''. split; [done|by etrans].
Qed.

(** ** The object and its file *)

Section Kept.
Context {P : Posix} {PL : PosixLaws P} {B : Crc32cBackend} {BL : Crc32cLaws B}.
Abbreviation limits_of m := (manifest_limits (manifest_options_ m)).

(** Whatever a crash leaves reads as a snapshot with the property. *)
Definition reads_as (l : ManifestLimits) (Q : PartitionManifestSnapshot -> Prop) (d : Disk) : Prop :=
  forall c, survives d c \/ c = live_data d ->
  exists b s, c = Some b /\ DecodePartitionInternal b l = Ok s /\ Q s.

Record kept (m : PartitionManifest) (d : Disk) : Prop := {
  kp_typed : snapshot_typed (snapshot_ m);
  kp_valid : ValidatePartitionSnapshot (snapshot_ m) (limits_of m) = Ok tt;
  kp_file : reads_as (limits_of m)
              (fun s => s = snapshot_ m \/ poisoned_ m = true /\ advances (snapshot_ m) s) d
}.

Definition stamped (m : PartitionManifest) (next : PartitionManifestSnapshot) : PartitionManifestSnapshot :=
  mkSnapshot (snapshot_generation (snapshot_ m) + 1) kPartitionManifestFormatVersion (partition next)
    (snapshot_checkpoint next) (segments next).

(** A call keeps the object and its file together; it succeeds with [next] as the snapshot or without
    a change, and fails without a change of the snapshot. *)
Definition keeps (m : PartitionManifest) (next : PartitionManifestSnapshot) (f : MutationM) : Prop :=
  forall d t d' m' r, kept m d -> f d = (t, d', (m', r)) ->
  kept m' d' /\ root_ m' = root_ m /\ manifest_options_ m' = manifest_options_ m /\
  Forall (reads_as (limits_of m)
            (fun s => s = snapshot_ m \/ advances (snapshot_ m) s)) t /\
  match r with
  | Err _ => snapshot_ m' = snapshot_ m
  | Ok _ => poisoned_ m' = poisoned_ m /\
            (snapshot_ m' = snapshot_ m \/
             poisoned_ m = false /\ snapshot_ m' = stamped m next /\ advances (snapshot_ m) (snapshot_ m'))
  end.

Lemma keeps_answer m next r : keeps m next (answer m r).
Proof. intros d t d' m' r' Hk [= <- <- <- <-]. split_and!; try done. destruct r; [|done]. split; [done|by left]. Qed.

Lemma Commit_keeps m next a : snapshot_typed (stamped m next) -> advances (snapshot_ m) (stamped m next) ->
  keeps m next (Commit m next a).
Proof.
  intros Ht Hadv. unfold Commit. destruct (poisoned_ m) eqn:Hp; [apply keeps_answer|].
  destruct (_ =? u64_max); [apply keeps_answer|]. cbv zeta. fold (stamped m next).
  destruct (EncodePartitionInternal (stamped m next) (limits_of m)) as [bytes|e] eqn:He; [|apply keeps_answer].
  intros d t d' m' r [K1 K2 K3] H.
  assert (DecodePartitionInternal bytes (limits_of m) = Ok (stamped m next)) as Hdec
    by (eapply (proj1 (manifest_decodes_back (limits_of m))); done).
  pose proof (AtomicWriteManifest_triple d bytes a (root_ m) d (old_or_new_start d bytes) I) as Htr.
  destruct (AtomicWriteManifest a (root_ m) bytes d) as [[t1 d1] r1]. destruct Htr as (T1 & T2 & T3).
  assert (forall x, old_or_new d bytes x ->
    reads_as (limits_of m) (fun s => s = snapshot_ m \/ advances (snapshot_ m) s) x) as Hread.
  { intros x [X1 X2] c Hc.
    assert (c = Some bytes \/ survives d c \/ c = live_data d) as [->|Hold] by (destruct Hc as [Hc| ->]; [apply X2 in Hc|]; tauto).
    - exists bytes, (stamped m next). split_and!; [done | done | by right].
    - destruct (K3 c Hold) as (b & s & -> & Hb & [->|[? _]]); [|congruence]. exists b, (snapshot_ m). split_and!; [done|done|by left]. }
  assert (Forall (reads_as (limits_of m) (fun s => s = snapshot_ m \/ advances (snapshot_ m) s)) t1) as Ht1.
  { eapply List.Forall_impl; [|exact T1]. done. }
  destruct r1 as [[]|e]; injection H as <- <- <- <-.
  - destruct T3 as (L1 & L2 & L3). split_and!; try done.
    + split; [done | |]; cbn [snapshot_ set_snapshot manifest_options_ poisoned_].
      * by apply EncodePartitionInternal_ok in He as (? & _).
      * intros c Hc. exists bytes, (stamped m next). split_and!; [|done|by left].
        destruct Hc as [Hc| ->]; [by apply L3 | done].
    + right. by split_and!.
  - split_and!; try done. split; [done | done |]. cbn [snapshot_ poison_manifest manifest_options_ poisoned_].
    intros c Hc. destruct (Hread d1 T2 c Hc) as (b & s & -> & Hb & [->|Hs]); exists b; eexists; split_and!; eauto.
Qed.

(** A refused call. *)
Lemma keeps_if m next (c : bool) s f : (c = false -> keeps m next f) -> keeps m next (if c then answer m (Err s) else f).
Proof. destruct c; [intros _; apply keeps_answer | by intros H; apply H]. Qed.

Lemma stamped_typed m next : snapshot_typed (snapshot_ m) -> (snapshot_generation (snapshot_ m) =? u64_max) = false ->
  partition_typed (partition next) -> (forall c, snapshot_checkpoint next = Some c -> checkpoint_typed c) ->
  Forall entry_typed (segments next) -> snapshot_typed (stamped m next).
Proof.
  intros [H1 _ _ _] Hg%Z.eqb_neq H2 H3 H4. split; try done. cbn [stamped snapshot_generation]. ulia.
Qed.

(** [Commit] refuses before anything else when the generation is exhausted. *)
Lemma Commit_keeps_typed m next a : snapshot_typed (snapshot_ m) ->
  partition_typed (partition next) -> (forall c, snapshot_checkpoint next = Some c -> checkpoint_typed c) ->
  Forall entry_typed (segments next) -> advances (snapshot_ m) (stamped m next) -> keeps m next (Commit m next a).
Proof.
  intros Ht H2 H3 H4 Hadv. destruct (snapshot_generation (snapshot_ m) =? u64_max) eqn:E.
  - unfold Commit. rewrite E. apply keeps_if. intros _. apply keeps_answer.
  - apply Commit_keeps; [by apply stamped_typed | done].
Qed.

Section Calls.
Context (m : PartitionManifest) (Ht : snapshot_typed (snapshot_ m)).

Lemma same_entries (l : list SegmentManifestEntry) i e : l !! i = Some e -> exists e', l !! i = Some e' /\ entry_moves e e'.
Proof. intros H. by exists e. Qed.
Lemma same_checkpoint (o : option DurableCheckpoint) c : o = Some c -> exists c', o = Some c' /\ not_before c c'.
Proof. intros H. by exists c. Qed.

Lemma AddSegment_keeps e a : entry_typed e ->
  keeps m (with_segments (snapshot_ m) (segments (snapshot_ m) ++ [e])) (AddSegment m e a).
Proof.
  intros He. destruct Ht as [T1 T2 T3 T4]. unfold AddSegment. apply keeps_if. intros _. apply Commit_keeps_typed; try done.
  - apply list.Forall_app. split; [done|by constructor].
  - split; cbn; [lia | done | | by apply same_checkpoint].
    intros i x Hx. exists x. split; [by apply lookup_app_l_Some | done].
Qed.

Lemma find_segment_Some id entries i e : find_segment id entries = Some (i, e) ->
  entries !! i = Some e /\ entry_segment_id e = id.
Proof. intros (H1 & H2 & _)%list_find_Some. done. Qed.

Lemma UpdateSegment_keeps e a : entry_typed e ->
  exists next, keeps m next (UpdateSegment m e a) /\
    (next = snapshot_ m \/ exists i found, find_segment (entry_segment_id e) (segments (snapshot_ m)) = Some (i, found) /\
       next = with_segments (snapshot_ m) (<[i := e]> (segments (snapshot_ m)))).
Proof.
  intros He. pose proof Ht as [T1 T2 T3 T4]. unfold UpdateSegment.
  destruct (find_segment (entry_segment_id e) (segments (snapshot_ m))) as [[i found]|] eqn:Hf.
  2: { exists (snapshot_ m). split; [|by left]. apply keeps_if. intros _. apply keeps_answer. }
  exists (with_segments (snapshot_ m) (<[i := e]> (segments (snapshot_ m)))). split; [|right; by exists i, found].
  apply find_segment_Some in Hf as [Hi Hid]. do 5 (apply keeps_if; intros ?).
  match goal with |- keeps _ _ (if ?b then _ else _) => destruct b end; [apply keeps_answer|].
  apply Commit_keeps_typed; try done.
  - by apply list.Forall_insert.
  - split; cbn; [lia | done | | by apply same_checkpoint].
    intros j x Hx. destruct (decide (i = j)) as [<-|Hne].
    + exists e. split; [apply list_lookup_insert_eq; by eapply lookup_lt_Some|]. assert (x = found) as -> by congruence.
      bool_to_prop. split; try done; try lia.
      destruct (decide (entry_state e = entry_state found)) as [->|Hs]; [done|]. apply rtc_once.
      match goal with H : _ = false \/ _ = false |- _ => destruct H as [Hx'|Hx'] end; bool_to_prop; done.
    + exists x. split; [by rewrite list_lookup_insert_ne | done].
Qed.

Lemma UpdateCheckpoint_keeps c a : checkpoint_typed c ->
  keeps m (with_checkpoint (snapshot_ m) c) (UpdateCheckpoint m c a).
Proof.
  intros Hc. pose proof Ht as [T1 T2 T3 T4]. unfold UpdateCheckpoint. cbv zeta.
  assert ((forall c', snapshot_checkpoint (snapshot_ m) = Some c' -> not_before c' c) ->
    keeps m (with_checkpoint (snapshot_ m) c) (Commit m (with_checkpoint (snapshot_ m) c) a)) as Hcommit.
  { intros Hmove. apply Commit_keeps_typed; try done; [by intros ? [= <-]|].
    split; cbn; [lia | done | by apply same_entries |]. intros c' Hc'. exists c. split; [done|by apply Hmove]. }
  destruct (snapshot_checkpoint (snapshot_ m)) as [current|] eqn:E; [|by apply Hcommit].
  apply keeps_if. intros Hb. case_bool_decide; [apply keeps_answer|]. apply Hcommit. intros ? [= <-]. by apply not_backward.
Qed.

Lemma UpgradeLegacyMetadata_keeps metadata a : partition_typed metadata ->
  keeps m (with_partition (snapshot_ m) metadata) (UpgradeLegacyMetadata m metadata a).
Proof.
  intros Hm. pose proof Ht as [T1 T2 T3 T4]. unfold UpgradeLegacyMetadata. apply keeps_if. intros _.
  destruct (negb _); [apply keeps_answer|]. apply keeps_if. intros Hid. apply Commit_keeps_typed; try done.
  split; cbn; [lia | by apply identity_same | by apply same_entries | by apply same_checkpoint].
Qed.

Lemma AdoptSealedOrphan_keeps e device inode inspected seen a : entry_typed e ->
  keeps m (with_segments (snapshot_ m) (segments (snapshot_ m) ++ [e])) (AdoptSealedOrphan m e device inode inspected seen a).
Proof.
  intros He. unfold AdoptSealedOrphan. destruct (check_orphan _ _ _ _ _ _); [|apply keeps_answer]. by apply AddSegment_keeps.
Qed.
End Calls.
End Kept.

(** ** Any calls *)

Inductive ManifestCall : Set :=
| CallAdd (e : SegmentManifestEntry)
| CallUpdate (e : SegmentManifestEntry)
| CallCheckpoint (c : DurableCheckpoint)
| CallUpgrade (metadata : PartitionMetadata)
| CallAdopt (e : SegmentManifestEntry) (device inode : option Z) (inspected : list LstatAnswer) (seen : LstatAnswer).

Definition manifest_call_typed (c : ManifestCall) : Prop :=
  match c with
  | CallAdd e | CallUpdate e | CallAdopt e _ _ _ _ => entry_typed e
  | CallCheckpoint c => checkpoint_typed c
  | CallUpgrade metadata => partition_typed metadata
  end.

Section Runs.
Context {P : Posix} {PL : PosixLaws P} {B : Crc32cBackend} {BL : Crc32cLaws B}.
Abbreviation limits_of m := (manifest_limits (manifest_options_ m)).

Definition run_manifest (m : PartitionManifest) (c : ManifestCall) (a : ManifestWriteAnswers) : MutationM :=
  match c with
  | CallAdd e => AddSegment m e a
  | CallUpdate e => UpdateSegment m e a
  | CallCheckpoint c => UpdateCheckpoint m c a
  | CallUpgrade metadata => UpgradeLegacyMetadata m metadata a
  | CallAdopt e device inode inspected seen => AdoptSealedOrphan m e device inode inspected seen a
  end.

Lemma run_manifest_keeps m c a : snapshot_typed (snapshot_ m) -> manifest_call_typed c ->
  exists next, keeps m next (run_manifest m c a).
Proof.
  intros Ht Hc. destruct c; cbn in *; try (by eexists; eauto using AddSegment_keeps, UpdateCheckpoint_keeps,
    UpgradeLegacyMetadata_keeps, AdoptSealedOrphan_keeps).
  destruct (UpdateSegment_keeps m Ht e a Hc) as (next & H & _). by exists next.
Qed.

Lemma CreateManifest_kept root metadata o directory lock existing a d t d' m :
  partition_typed metadata -> CreateManifest root metadata o directory lock existing a d = (t, d', Ok m) -> kept m d'.
Proof.
  intros Ht H. unfold CreateManifest in H. cbv zeta in H.
  destruct (bindR _ _) as [encoded|e] eqn:E; [|done].
  do 3 (apply bindR_Ok in E as ([] & ? & E)). step_if. do 2 (apply bindR_Ok in E as ([] & ? & E)).
  assert (snapshot_typed (new_snapshot metadata)) as Hs by (by split; cbn).
  assert (DecodePartitionInternal encoded (manifest_limits o) = Ok (new_snapshot metadata)) as Hdec
    by (eapply (proj1 (manifest_decodes_back (manifest_limits o))); done).
  pose proof (AtomicWriteManifest_triple d encoded a root d (old_or_new_start d encoded) I) as Htr. unfold bind in H.
  destruct (AtomicWriteManifest a root encoded d) as [[t1 d1] [[]|e]]; [|done]. destruct Htr as (_ & _ & L1 & L2 & L3).
  unfold ret in H. injection H as _ <- <-. split; [done | done |]. cbn [snapshot_ manifest_options_ manifest_limits].
  intros c Hc. exists encoded, (new_snapshot metadata). split_and!; [|done|by left]. destruct Hc as [Hc| ->]; [by apply L3|done].
Qed.

Lemma ReadRegularFile_reads a path content max b : ReadRegularFile a path content max = Ok b -> b = content.
Proof.
  unfold ReadRegularFile. intros H. do 3 (apply bindR_Ok in H as ([] & _ & H)). step_if.
  apply bindR_Ok in H as (bytes & Hr & H). apply bindR_Ok in H as ([] & _ & [= <-]).
  enough (forall answers rest out, read_manifest answers rest out path = Ok bytes -> bytes = out ++ rest) as He
    by (by apply He in Hr).
  clear. induction answers as [|[[]|n] answers IH]; intros rest out H; cbn [read_manifest] in H; destruct rest as [|x rest];
    try (by injection H as <-; rewrite ?app_nil_r); try done.
  - by apply IH in H.
  - destruct (take n (x :: rest)) as [|y l] eqn:E; [done|]. apply IH in H as ->. by rewrite <- app_assoc, <- E, take_drop.
Qed.

Lemma OpenManifest_kept root o directory lock a paths content m d :
  OpenManifest root o directory lock a paths content = Ok m ->
  (forall c, survives d c \/ c = live_data d -> c = Some content) -> kept m d.
Proof.
  intros H Hd. unfold OpenManifest in H. do 3 (apply bindR_Ok in H as ([] & _ & H)).
  apply bindR_Ok in H as (encoded & He & H). apply ReadRegularFile_reads in He as ->.
  apply bindR_Ok in H as (s & Hs & H). cbv zeta in H. step_if. apply bindR_Ok in H as ([] & _ & [= <-]).
  split; cbn [snapshot_ manifest_options_ manifest_limits].
  - by eapply decode_typed.
  - by eapply (proj2 (manifest_decodes_back _)).
  - intros c ->%Hd. exists content, s. split_and!; [done|done|by left].
Qed.

(** An object and its disk after its creation or opening and any calls.  A manifest is opened on a settled disk:
    the content read is the only one a crash can leave, as after a restart that follows a crash. *)
Inductive manifest_run : PartitionManifest -> Disk -> Prop :=
| run_created root metadata o directory lock existing a d t d' m :
    partition_typed metadata -> CreateManifest root metadata o directory lock existing a d = (t, d', Ok m) ->
    manifest_run m d'
| run_opened root o directory lock a paths content m d :
    OpenManifest root o directory lock a paths content = Ok m ->
    (forall c, survives d c \/ c = live_data d -> c = Some content) -> manifest_run m d
| run_called m d c a t d' m' r :
    manifest_run m d -> manifest_call_typed c -> run_manifest m c a d = (t, d', (m', r)) -> manifest_run m' d'
| run_quarantined m d p device inode inspected seen target renamed opened synced m' r :
    manifest_run m d -> QuarantineOrphan m p device inode inspected seen target renamed opened synced = (m', r) ->
    manifest_run m' d.

Lemma QuarantineOrphan_object m p device inode inspected seen target renamed opened synced m' r :
  QuarantineOrphan m p device inode inspected seen target renamed opened synced = (m', r) -> m' = m \/ m' = poison_manifest m.
Proof.
  unfold QuarantineOrphan. cbv zeta. destruct (if poisoned_ m then _ else _); [|intros [= <- _]; by left].
  destruct opened, synced; intros [= <- _]; by auto.
Qed.

Lemma kept_poison m d : kept m d -> kept (poison_manifest m) d.
Proof.
  intros [K1 K2 K3]. split; [done|done|]. intros c Hc. destruct (K3 c Hc) as (b & s & -> & Hb & [->|[_ ?]]);
    exists b; eexists; split_and!; eauto.
Qed.

Lemma manifest_run_kept m d : manifest_run m d -> kept m d.
Proof.
  induction 1 as [? ? ? ? ? ? ? ? ? ? ? Ht H|? ? ? ? ? ? ? ? ? H Hd|m d c a t d' m' r _ IH Hc H|? ? ? ? ? ? ? ? ? ? ? ? ? _ IH H].
  - by eapply CreateManifest_kept.
  - by eapply OpenManifest_kept.
  - destruct (run_manifest_keeps m c a (kp_typed _ _ IH) Hc) as (next & Hk). by apply (Hk d t d' m' r IH H).
  - apply QuarantineOrphan_object in H as [->| ->]; [done | by apply kept_poison].
Qed.
End Runs.

(** C7: after the creation or opening of a partition manifest and any calls, with any answers of the
    file system, the snapshot obeys the rules of the format, and a call only moves it forward:
    the generation grows, the identity stays, segments are never dropped, changed in identity,
    shrunk or moved against their life cycle, and the durable checkpoint never moves back.
    Whenever the process dies during the call, what is left of the file decodes to the
    snapshot before the call or to one such step after it; after a successful call it decodes to
    exactly the snapshot in memory. *)
Theorem manifest_moves_forward (P : Posix) (PL : PosixLaws P) (B : Crc32cBackend) (BL : Crc32cLaws B) m d c a t d' m' r :
  manifest_run m d -> manifest_call_typed c -> run_manifest m c a d = (t, d', (m', r)) ->
  let limits := manifest_limits (manifest_options_ m) in
  ValidatePartitionSnapshot (snapshot_ m') limits = Ok tt /\
  (snapshot_ m' = snapshot_ m \/ advances (snapshot_ m) (snapshot_ m')) /\
  Forall (reads_as limits (fun s => s = snapshot_ m \/ advances (snapshot_ m) s)) t /\
  (r = Ok tt -> poisoned_ m = false -> reads_as limits (fun s => s = snapshot_ m') d') /\
  (forall e, r = Err e -> snapshot_ m' = snapshot_ m).
Proof.
  intros Hrun Hc H limits. pose proof (manifest_run_kept m d Hrun) as Hk.
  destruct (run_manifest_keeps m c a (kp_typed _ _ Hk) Hc) as (next & Hkeeps).
  destruct (Hkeeps d t d' m' r Hk H) as ([K1 K2 K3] & _ & Ho & Ht & Hr). rewrite Ho in *. split_and!; try done.
  - destruct r as [[]|e]; [|by left]. destruct Hr as [_ [->|(_ & _ & ?)]]; auto.
  - intros -> Hp. destruct Hr as [Hp' _]. intros x Hx. destruct (K3 x Hx) as (b & s & -> & Hb & [->|[? _]]); [|congruence].
    by exists b, (snapshot_ m').
  - by intros e ->.
Qed.

(** ** A concrete partition *)

Definition sample_posix : Posix := ConcreteDisk.posix (fun _ => "root").
Definition sample_manifest_options : ManifestOptions := mkManifestOptions default_manifest_limits 0 0 0.
Definition sample_metadata : PartitionMetadata :=
  mkPartition 9 7 0 5 1 1 1 1 kManual kActive kStablePartitionHashVersion kDefaultPartitionHashSeed 0.
Definition sample_entry (state : SegmentPersistentState) (last sealed size : Z) : SegmentManifestEntry :=
  mkEntry 1 state 1 last 100 sealed size (path_of_string "segments/00000001.mino").
Definition empty_disk : @Disk sample_posix := ConcreteDisk.mkState None [] None.

Definition sample_created : list (@Disk sample_posix) * @Disk sample_posix * Result PartitionManifest :=
  @CreateManifest sample_posix software_backend "root" sample_metadata sample_manifest_options LstatDirectory LockAcquired
    (LstatErrno ENOENT) smooth_write empty_disk.
Definition sample_added (m : PartitionManifest) : MutationM :=
  @run_manifest sample_posix software_backend m (CallAdd (sample_entry kSegmentCreating 1 0 52)) smooth_write.

Lemma sample_metadata_typed : partition_typed sample_metadata.
Proof. by split. Qed.
Lemma sample_entry_typed state last sealed size : segment_state_of (segment_state_value state) = state ->
  is_u64 last -> is_u64 sealed -> is_u64 size -> entry_typed (sample_entry state last sealed size).
Proof. intros. split; try done. by exists "segments/00000001.mino". Qed.

Lemma manifest_moves_forward_witness : exists m d m' d' t,
  sample_created = (fst (fst sample_created), d, Ok m) /\ sample_added m d = (t, d', (m', Ok tt)) /\
  segments (snapshot_ m') = [sample_entry kSegmentCreating 1 0 52] /\
  @reads_as sample_posix software_backend default_manifest_limits (fun s => s = snapshot_ m') d'.
Proof.
  destruct sample_created as [[t0 d] [m|e]] eqn:E; [|vm_compute in E; discriminate].
  destruct (sample_added m d) as [[t d'] [m' r]] eqn:E'.
  assert (r = Ok tt /\ segments (snapshot_ m') = [sample_entry kSegmentCreating 1 0 52] /\ poisoned_ m = false /\
    manifest_limits (manifest_options_ m) = default_manifest_limits) as (-> & Hs & Hp & Hl).
  { vm_compute in E. injection E as <- <- <-. vm_compute in E'. injection E' as <- <- <- <-. by split_and!. }
  pose proof (manifest_moves_forward sample_posix (ConcreteDisk.posix_laws _) software_backend software_laws
    m d (CallAdd (sample_entry kSegmentCreating 1 0 52)) smooth_write t d' m' (Ok tt)
    (run_created _ _ _ _ _ _ _ _ _ _ _ sample_metadata_typed E) ltac:(by apply sample_entry_typed) E') as H.
  exists m, d, m', d', t. split_and!; try done. rewrite <- Hl. by apply H.
Defined.
