(* ===== verification/TopicWriter.v ===== *)
(** * The topic writer

    Models [mino/storage/topic_writer.h] and [.cc]: one partition of a recorded topic.  The writer takes
    committed buffers, drops duplicates, records what is missing from a source as a gap,
    assigns the ingestion sequences, appends to the active segment, rotates segments through the
    partition manifest and acknowledges records as written and as durable.

    What the buffer pool and the operating system answer is an input: every call to another
    component takes the next element of [env], and an empty [env] stands for calls that succeed.
    The callbacks of a call are collected in [acks]; the code dispatches them, in this order,
    after it has released its mutex.  Public calls hold the mutex, so they are steps.
    Memory allocation does not fail and hooks are null. *)
From stdpp Require Import pretty.
From S2P Require Import Prelude SourceIdentity Bytes Crc32c LittleEndian TopicPartition ManifestFormat DurableFile PartitionManifest SegmentFormat SegmentWriter.

(** ** Data *)

Definition kGapPayloadMagic : Z := 0x5041474d.
Definition kGapPayloadVersion : Z := 1.
Definition kEncodedGapPayloadSize : nat := 24.
Definition kTopicWriterTombstoneUserTagMask : Z := Z.shiftl 1 63.
Definition kTopicWriterUserTagValueMask : Z := not64 kTopicWriterTombstoneUserTagMask.

Inductive GapReason : Set :=
| kSourceSequenceJump | kDropNewest | kDropOldest | kDropNewestNoDroppableOldest | kAllocationFailure
| kRecordingFailed | kReservationCancelled | kRecorderRestartRecovery | OtherGapReason (value : Z).
#[export] Instance GapReason_eq_dec : EqDecision GapReason.
Proof. solve_decision. Defined.
Definition gap_reason_value (r : GapReason) : Z :=
  match r with
  | kSourceSequenceJump => 1 | kDropNewest => 2 | kDropOldest => 3 | kDropNewestNoDroppableOldest => 4
  | kAllocationFailure => 5 | kRecordingFailed => 6 | kReservationCancelled => 7 | kRecorderRestartRecovery => 8
  | OtherGapReason v => v
  end.
Definition gap_reason_of (v : Z) : GapReason :=
  if v =? 1 then kSourceSequenceJump else if v =? 2 then kDropNewest else if v =? 3 then kDropOldest
  else if v =? 4 then kDropNewestNoDroppableOldest else if v =? 5 then kAllocationFailure
  else if v =? 6 then kRecordingFailed else if v =? 7 then kReservationCancelled
  else if v =? 8 then kRecorderRestartRecovery else OtherGapReason v.

Record GapPayload : Set := mkGapPayload { gap_reason : GapReason; first_missing : Z; last_missing : Z }.

Inductive TopicWriterState : Set := kTopicCreated | kTopicRunning | kTopicStopping | kTopicStopped | kTopicError.
Inductive RecordAckLevel : Set := kAckAccepted | kAckBuffered | kAckWritten | kAckDurable.
#[export] Instance RecordAckLevel_eq_dec : EqDecision RecordAckLevel.
Proof. solve_decision. Defined.

Record TopicWriterAck : Set := mkTopicAck {
  ack_level : RecordAckLevel; ack_sequence : Z; ack_segment_id : Z; ack_flags : Z; ack_user_tag : Z;
  ack_source : MessageSource
}.
Record PendingAck : Set := mkPendingAck {
  pending_sequence : Z; pending_segment_id : Z; pending_flags : Z; pending_user_tag : Z; pending_source : MessageSource
}.

(** [mino/storage/recording_types.h]. *)
Record RecorderSchemaMetadata : Set := mkSchemaMetadata {
  short_id : Z; canonical_digest : list byte; meta_schema_version : Z; meta_layout_version : Z
}.
Record RecorderRecordMetadata : Set := mkRecordMetadata {
  record_schema : RecorderSchemaMetadata; metadata_topic_id : Z; message_source : MessageSource;
  metadata_timestamp_ns : Z; metadata_payload_size : Z; metadata_payload_crc : Z
}.

(** What the writer sees of a dequeued buffer and of a discarded one. *)
Record RecorderBufferHandle : Set := mkHandle {
  handle_topic_id : Z; handle_user_tag : Z; handle_bytes : list byte; handle_metadata : option RecorderRecordMetadata
}.
Inductive BufferDiscardReason : Set :=
| DiscardDropNewest | DiscardDropOldest | DiscardNoDroppableOldest | DiscardAllocationFailure | DiscardFailRecording
| DiscardReservationCancelled | OtherDiscard (value : Z).
Record DiscardedBuffer : Set := mkDiscarded {
  discard_reason : BufferDiscardReason; discard_topic_id : Z; discard_metadata : option RecorderRecordMetadata
}.

(** The answers of [TryDequeue]: an error comes with [stats().recording_failed]. *)
Inductive DequeueAnswer : Set := Dequeued (h : RecorderBufferHandle) | DequeueError (s : Status) (recording_failed : bool).

(** What [SchemaStore] answers: [FindRef] by digest, and the identity [Resolve] returns. *)
Record SchemaView : Type := mkSchemaView {
  FindRef : list byte -> Result Z; ResolveIdentity : Z -> Result RecorderSchemaMetadata
}.

Record TopicWriterOptions : Type := mkTopicOptions {
  partition_root : string; topic_recording_id : Z; topic_topic_id : Z; topic_partition_id : Z; topic_writer_id : Z;
  initial_ingestion_sequence : Z; segment_options : SegmentWriterOptions; close_buffer_pool_on_stop : bool;
  schema_resolver : option (RecorderSchemaMetadata -> Result Z); schema_store : option SchemaView
}.

Record SourceKey : Set := mkSourceKey { key_node_id : Z; key_publisher_id : Z; key_publisher_epoch : Z }.
#[export] Instance SourceKey_eq_dec : EqDecision SourceKey.
Proof. solve_decision. Defined.
#[export] Instance SourceKey_countable : Countable SourceKey.
Proof.
  apply (inj_countable' (fun k => (key_node_id k, key_publisher_id k, key_publisher_epoch k))
    (fun t => let '(a, b, c) := t in mkSourceKey a b c)). by intros [].
Defined.

(** [has_last_sequence] and [last_sequence] are one option; the ordered map is the list of its entries, by
    increasing sequence. *)
Record SourceProgress : Set := mkProgress { last_source_sequence : option Z; reported_discards : list (Z * GapReason) }.

Record TopicWriter : Type := mkTopicWriter {
  topic_options_ : TopicWriterOptions; topic_state_ : TopicWriterState; topic_error_ : Status;
  next_ingestion_sequence_ : Z; sequence_exhausted_ : bool; next_segment_id_ : Z; duplicate_count_ : Z; last_now_ns_ : Z;
  sources_ : gmap SourceKey SourceProgress; segment_writer_ : option Running;
  active_segment_ : option SegmentManifestEntry; active_acks_ : list PendingAck;
  written_ack_count_ : nat; durable_ack_count_ : nat
}.

Record TopicWriterPumpResult : Set := mkPumpResult {
  dequeued_records : Z; data_records : Z; tombstone_records : Z; gap_records : Z; duplicate_records : Z; rotations : Z
}.

(** The answers of one call to another component; each call looks at its own fields. *)
Record Answers : Set := mkAnswers {
  manifest_answers : ManifestWriteAnswers; segment_opened : option Errno;
  segment_writes : list WriteAnswer; segment_syncs : list (option Errno);
  directories_failed : bool; directory_opened : option Errno; directory_changed : bool; directory_synced : list Errno
}.
Definition smooth : Answers := mkAnswers smooth_write None [] [] false None false [].

(** A segment file nobody writes to any more: its content and the part of it that is on stable storage. *)
Record ClosedFile : Set := mkClosedFile { closed_disk : list byte; closed_synced : list byte }.
Definition close_file (s : Running) : ClosedFile := mkClosedFile (disk (world s)) (synced (world s)).

(** ** Gap payloads *)

Definition ValidGapReason (r : GapReason) : bool :=
  (gap_reason_value kSourceSequenceJump <=? gap_reason_value r)
  && (gap_reason_value r <=? gap_reason_value kRecorderRestartRecovery).

Definition EncodeGapPayload (p : GapPayload) : Result (list byte) :=
  fail_if negb (ValidGapReason (gap_reason p)) with Invalid "gap payload reason is unknown" ;;
  fail_if last_missing p <? first_missing p with Invalid "gap payload sequence range is reversed" ;;
  let encoded := replicate kEncodedGapPayloadSize Byte.x00 in
  let encoded := WriteLe32 encoded 0 kGapPayloadMagic in
  let encoded := WriteLe16 encoded 4 kGapPayloadVersion in
  let encoded := WriteLe16 encoded 6 (gap_reason_value (gap_reason p)) in
  let encoded := WriteLe64 encoded 8 (first_missing p) in
  let encoded := WriteLe64 encoded 16 (last_missing p) in
  Ok encoded.

Definition DecodeGapPayload (encoded : list byte) : Result GapPayload :=
  fail_if negb (length encoded =? kEncodedGapPayloadSize)%nat with Corruption "gap payload size is invalid" ;;
  fail_if negb (ReadLe32 encoded 0 =? kGapPayloadMagic) with Corruption "gap payload magic is invalid" ;;
  fail_if negb (ReadLe16 encoded 4 =? kGapPayloadVersion) with Corruption "gap payload version is unsupported" ;;
  let reason := gap_reason_of (ReadLe16 encoded 6) in
  fail_if negb (ValidGapReason reason) with Corruption "gap payload reason is unknown" ;;
  let payload := mkGapPayload reason (ReadLe64 encoded 8) (ReadLe64 encoded 16) in
  fail_if last_missing payload <? first_missing payload with Corruption "gap payload sequence range is reversed" ;;
  Ok payload.

(** [state ^= byte], eight steps, for every byte. *)
Definition PayloadCrc32c (payload : list byte) : Z :=
  Z.lxor (foldl (fun state b => Nat.iter 8 crc_step (Z.lxor state (Z_of_byte b))) 0xffffffff payload) 0xffffffff.

(** [std::setfill('0') << std::setw(8)]. *)
Definition padded (text : string) : string :=
  String.concat "" (replicate (8 - String.length text) "0") +:+ text.
Definition SegmentRelativePath (segment_id : Z) : fs_path :=
  ["segments"; padded (pretty (Z.to_N segment_id)) +:+ ".mino"].

(** ** Discards *)

Definition GapReasonFor (r : BufferDiscardReason) : GapReason :=
  match r with
  | DiscardDropNewest => kDropNewest
  | DiscardDropOldest => kDropOldest
  | DiscardNoDroppableOldest => kDropNewestNoDroppableOldest
  | DiscardAllocationFailure => kAllocationFailure
  | DiscardFailRecording => kRecordingFailed
  | DiscardReservationCancelled => kReservationCancelled
  | OtherDiscard _ => kSourceSequenceJump
  end.

(** [insert_or_assign] on the ordered map. *)
Fixpoint insert_discard (sequence : Z) (reason : GapReason) (l : list (Z * GapReason)) : list (Z * GapReason) :=
  match l with
  | [] => [(sequence, reason)]
  | (s, r) :: rest =>
      if sequence <? s then (sequence, reason) :: l
      else if sequence =? s then (sequence, reason) :: rest
      else (s, r) :: insert_discard sequence reason rest
  end.
(** [lower_bound]. *)
Definition from_sequence (sequence : Z) (l : list (Z * GapReason)) : list (Z * GapReason) :=
  filter (fun e => sequence <= e.1) l.
(** [erase(begin(), upper_bound(sequence))]. *)
Definition after_sequence (sequence : Z) (l : list (Z * GapReason)) : list (Z * GapReason) :=
  filter (fun e => sequence < e.1) l.

(** The loop over the reports from [expected] on. *)
Fixpoint same_reason (l : list (Z * GapReason)) (reason : GapReason) (expected last : Z) : GapReason :=
  match l with
  | [] => kSourceSequenceJump
  | (s, r) :: rest =>
      if last <? s then kSourceSequenceJump
      else if negb (s =? expected) || negb (bool_decide (r = reason)) then kSourceSequenceJump
      else if expected =? last then reason
      else same_reason rest reason (expected + 1) last
  end.
Definition SelectGapReason (progress : SourceProgress) (first last : Z) : GapReason :=
  match from_sequence first (reported_discards progress) with
  | [] => kSourceSequenceJump
  | (s, reason) :: rest =>
      if negb (s =? first) then kSourceSequenceJump
      else same_reason ((s, reason) :: rest) reason first last
  end.

Definition KeyOf (s : MessageSource) : SourceKey :=
  mkSourceKey (source_node_id s) (source_publisher_id s) (source_publisher_epoch s).

(** [sources_[key]]: a default entry when there is none. *)
Definition progress_of (sources : gmap SourceKey SourceProgress) (key : SourceKey) : SourceProgress :=
  default (mkProgress None []) (sources !! key).

(** ** State *)

Section Topic.
Context {P : Posix} {B : Crc32cBackend} (system_limit : Z).

(** The writer, the manifest and its disk, the segment files that are closed, the segments whose directory
    entry is on stable storage; then what one call produces. *)
Record Frame : Type := mkFrame {
  topic : TopicWriter; manifest : PartitionManifest; manifest_disk : Disk; files : gmap Z ClosedFile;
  linked : gset Z; pool_closed : bool; env : list Answers;
  acks : list TopicWriterAck; counts : TopicWriterPumpResult
}.

Definition TopicM (A : Type) : Type := Frame -> Frame * Result A.
Definition tret {A} (a : A) : TopicM A := fun s => (s, Ok a).
Definition tthrow {A} (e : Status) : TopicM A := fun s => (s, Err e).
Definition tbind {A C} (m : TopicM A) (k : A -> TopicM C) : TopicM C := fun s =>
  match m s with
  | (s', Ok a) => k a s'
  | (s', Err e) => (s', Err e)
  end.
Definition tget {A} (f : TopicWriter -> A) : TopicM A := fun s => (s, Ok (f (topic s))).
Definition tlift {A} (r : Result A) : TopicM A := fun s => (s, r).

Definition set_topic (t : TopicWriter) (s : Frame) : Frame :=
  mkFrame t (manifest s) (manifest_disk s) (files s) (linked s) (pool_closed s) (env s) (acks s) (counts s).
Definition tmodify (f : TopicWriter -> TopicWriter) : TopicM unit := fun s => (set_topic (f (topic s)) s, Ok tt).

Notation "'top!' x ':=' m 'in' k" := (tbind m (fun x => k))
  (at level 10, x name, m at level 100, k at level 200).
Notation "m ';>' k" := (tbind m (fun _ : unit => k)) (at level 100, k at level 200, right associativity).
Notation "'throw_when' c 'with' e ';;' k" := (if c then tthrow e else k)
  (at level 10, c at level 99, e at level 99, k at level 200).

(** Assignments to the fields of the writer. *)
Definition set_topic_state (st : TopicWriterState) (e : Status) (t : TopicWriter) : TopicWriter :=
  mkTopicWriter (topic_options_ t) st e (next_ingestion_sequence_ t) (sequence_exhausted_ t) (next_segment_id_ t)
    (duplicate_count_ t) (last_now_ns_ t) (sources_ t) (segment_writer_ t) (active_segment_ t) (active_acks_ t)
    (written_ack_count_ t) (durable_ack_count_ t).
Definition set_now (now : Z) (t : TopicWriter) : TopicWriter :=
  mkTopicWriter (topic_options_ t) (topic_state_ t) (topic_error_ t) (next_ingestion_sequence_ t) (sequence_exhausted_ t)
    (next_segment_id_ t) (duplicate_count_ t) now (sources_ t) (segment_writer_ t) (active_segment_ t) (active_acks_ t)
    (written_ack_count_ t) (durable_ack_count_ t).
Definition set_sequence (next : Z) (exhausted : bool) (t : TopicWriter) : TopicWriter :=
  mkTopicWriter (topic_options_ t) (topic_state_ t) (topic_error_ t) next exhausted
    (next_segment_id_ t) (duplicate_count_ t) (last_now_ns_ t) (sources_ t) (segment_writer_ t) (active_segment_ t)
    (active_acks_ t) (written_ack_count_ t) (durable_ack_count_ t).
Definition set_progress (key : SourceKey) (p : SourceProgress) (t : TopicWriter) : TopicWriter :=
  mkTopicWriter (topic_options_ t) (topic_state_ t) (topic_error_ t) (next_ingestion_sequence_ t) (sequence_exhausted_ t)
    (next_segment_id_ t) (duplicate_count_ t) (last_now_ns_ t) (<[key := p]> (sources_ t)) (segment_writer_ t)
    (active_segment_ t) (active_acks_ t) (written_ack_count_ t) (durable_ack_count_ t).
Definition count_duplicate (t : TopicWriter) : TopicWriter :=
  mkTopicWriter (topic_options_ t) (topic_state_ t) (topic_error_ t) (next_ingestion_sequence_ t) (sequence_exhausted_ t)
    (next_segment_id_ t) (wrap64 (duplicate_count_ t + 1)) (last_now_ns_ t) (sources_ t) (segment_writer_ t)
    (active_segment_ t) (active_acks_ t) (written_ack_count_ t) (durable_ack_count_ t).
Definition set_segment (next_id : Z) (w : option Running) (e : option SegmentManifestEntry) (pending : list PendingAck)
    (written durable : nat) (t : TopicWriter) : TopicWriter :=
  mkTopicWriter (topic_options_ t) (topic_state_ t) (topic_error_ t) (next_ingestion_sequence_ t) (sequence_exhausted_ t)
    next_id (duplicate_count_ t) (last_now_ns_ t) (sources_ t) w e pending written durable.
Definition set_running (w : option Running) (t : TopicWriter) : TopicWriter :=
  set_segment (next_segment_id_ t) w (active_segment_ t) (active_acks_ t) (written_ack_count_ t) (durable_ack_count_ t) t.
Definition set_active (e : option SegmentManifestEntry) (t : TopicWriter) : TopicWriter :=
  set_segment (next_segment_id_ t) (segment_writer_ t) e (active_acks_ t) (written_ack_count_ t) (durable_ack_count_ t) t.
Definition set_acks (pending : list PendingAck) (written durable : nat) (t : TopicWriter) : TopicWriter :=
  set_segment (next_segment_id_ t) (segment_writer_ t) (active_segment_ t) pending written durable t.

(** [++result->...]. *)
Definition add_counts (dequeued data tombstones gaps duplicates rotated : Z) : TopicM unit := fun s =>
  let c := counts s in
  (mkFrame (topic s) (manifest s) (manifest_disk s) (files s) (linked s) (pool_closed s) (env s) (acks s)
     (mkPumpResult (dequeued_records c + dequeued) (data_records c + data) (tombstone_records c + tombstones)
        (gap_records c + gaps) (duplicate_records c + duplicates) (rotations c + rotated)), Ok tt).

(** ** Calls to the other components *)

Definition next_answers : TopicM Answers := fun s =>
  (mkFrame (topic s) (manifest s) (manifest_disk s) (files s) (linked s) (pool_closed s) (tail (env s)) (acks s)
     (counts s), Ok (default smooth (head (env s)))).

Definition on_manifest (f : PartitionManifest -> ManifestWriteAnswers -> MutationM) : TopicM unit :=
  top! a := next_answers in fun s =>
  let '(_, d', (m', r)) := f (manifest s) (manifest_answers a) (manifest_disk s) in
  (mkFrame (topic s) m' d' (files s) (linked s) (pool_closed s) (env s) (acks s) (counts s), r).

(** A call on the active segment writer, which the callers know to exist. *)
Definition on_segment {A} (f : string -> WriterM A) : TopicM A :=
  top! a := next_answers in fun s =>
  match segment_writer_ (topic s), active_segment_ (topic s) with
  | Some w, Some e =>
      let path := append_path (partition_root (topic_options_ (topic s))) (generic_string (relative_path e)) in
      let '(w', r) := f path (with_answers (segment_writes a) (segment_syncs a) w) in
      (set_topic (set_running (Some w') (topic s)) s, r)
  | _, _ => (s, Err (Internal "no active segment"))
  end.

Definition close_segment (id : Z) (w : Running) : TopicM unit := fun s =>
  (mkFrame (topic s) (manifest s) (manifest_disk s) (<[id := close_file w]> (files s)) (linked s) (pool_closed s) (env s)
     (acks s) (counts s), Ok tt).
(** The [unique_ptr] that still owns the new writer closes it when [m] fails. *)
Definition closing_on_error (id : Z) (w : Running) (m : TopicM unit) : TopicM unit := fun s =>
  match m s with
  | (s', Err e) => (fst (close_segment id w s'), Err e)
  | ok => ok
  end.

Definition PoisonLocked {A} (e : Status) : TopicM A := fun s =>
  match topic_state_ (topic s) with
  | kTopicError => (s, Err (topic_error_ (topic s)))
  | _ => (set_topic (set_topic_state kTopicError e (topic s)) s, Err e)
  end.
Definition or_poison {A} (m : TopicM A) : TopicM A := fun s =>
  match m s with
  | (s', Err e) => PoisonLocked e s'
  | ok => ok
  end.

Definition SyncSegmentsDirectoryLocked (created : Z) : TopicM unit :=
  top! a := next_answers in
  match directory_opened a with
  | Some e => tthrow (mkStatus kUnavailable ("cannot open TopicWriter segments directory: " +:+ strerror e))
  | None =>
      throw_when directory_changed a with mkStatus kUnavailable "TopicWriter segments path changed type" ;;
      match filter (fun e => e <> EINTR) (directory_synced a) with
      | e :: _ => tthrow (mkStatus kUnavailable ("cannot fsync TopicWriter segments directory: " +:+ strerror e))
      | [] => fun s =>
          (mkFrame (topic s) (manifest s) (manifest_disk s) (files s) ({[created]} ∪ dom (files s) ∪ linked s)
             (pool_closed s) (env s) (acks s) (counts s), Ok tt)
      end
  end.

(** ** Segments and acknowledgements *)

Definition new_entry (id first now : Z) : SegmentManifestEntry :=
  mkEntry id kSegmentCreating first first now 0 SegmentFormat.kEncodedSegmentHeaderSize (SegmentRelativePath id).
Definition set_entry_state (st : SegmentPersistentState) (e : SegmentManifestEntry) : SegmentManifestEntry :=
  mkEntry (entry_segment_id e) st (entry_first_sequence e) (entry_last_sequence e) (entry_created_at_ns e)
    (entry_sealed_at_ns e) (entry_size_bytes e) (relative_path e).
Definition segment_header_of (o : TopicWriterOptions) (first now : Z) : SegmentHeader :=
  mkSegmentHeader 0 (topic_recording_id o) (topic_topic_id o) (topic_partition_id o) (topic_writer_id o) first now.

Definition EnsureSegmentLocked (first now : Z) : TopicM unit :=
  top! t := tget (fun t => t) in
  match segment_writer_ t with
  | Some _ => tret tt
  | None =>
      throw_when next_segment_id_ t =? 0 with Resource "segment ID is exhausted" ;;
      top! a := next_answers in
      throw_when directories_failed a with mkStatus kUnavailable "cannot create partition segments directory" ;;
      let o := topic_options_ t in
      let id := next_segment_id_ t in
      let entry := new_entry id first now in
      on_manifest (fun m => AddSegment m entry) ;>
      top! a := next_answers in
      let path := append_path (partition_root o) (generic_string (relative_path entry)) in
      top! created := tlift (Create strerror path (segment_opened a) (segment_header_of o first now) now
                               (segment_options o) (segment_writes a) (segment_syncs a)) in
      let entry := set_entry_state kSegmentOpen entry in
      closing_on_error id created
        (SyncSegmentsDirectoryLocked id ;> on_manifest (fun m => UpdateSegment m entry)) ;>
      tmodify (set_segment (if id =? u64_max then 0 else id + 1) (Some created) (Some entry) [] 0 0)
  end.

Definition ack_at (level : RecordAckLevel) (p : PendingAck) : TopicWriterAck :=
  mkTopicAck level (pending_sequence p) (pending_segment_id p) (pending_flags p) (pending_user_tag p) (pending_source p).
Definition push_acks (l : list TopicWriterAck) : TopicM unit := fun s =>
  (mkFrame (topic s) (manifest s) (manifest_disk s) (files s) (linked s) (pool_closed s) (env s) (acks s ++ l) (counts s),
   Ok tt).

(** [while (written_ack_count_ < active_acks_.size()) callbacks->push_back(...)]. *)
Definition push_written : TopicM unit :=
  top! t := tget (fun t => t) in
  push_acks (ack_at kAckWritten <$> drop (written_ack_count_ t) (active_acks_ t)) ;>
  tmodify (set_acks (active_acks_ t) (Nat.max (written_ack_count_ t) (length (active_acks_ t))) (durable_ack_count_ t)).

Definition UpdateOpenManifestLocked : TopicM unit :=
  top! t := tget (fun t => t) in
  match segment_writer_ t, active_segment_ t, list.last (active_acks_ t) with
  | Some w, Some e, Some last =>
      let e := mkEntry (entry_segment_id e) (entry_state e) (entry_first_sequence e) (pending_sequence last)
                 (entry_created_at_ns e) (entry_sealed_at_ns e) (logical_bytes_ (writer w)) (relative_path e) in
      tmodify (set_active (Some e)) ;>
      on_manifest (fun m => UpdateSegment m e)
  | _, _, _ => tret tt
  end.

Definition PublishDurabilityLocked : TopicM unit :=
  top! t := tget (fun t => t) in
  match segment_writer_ t, active_segment_ t with
  | Some w, Some e =>
      let durable_records := durable_records_ (writer w) in
      throw_when zlen (active_acks_ t) <? durable_records with Internal "segment durable count exceeds ACK ledger" ;;
      let durable_count := Z.to_nat durable_records in
      if (durable_count <=? durable_ack_count_ t)%nat then tret tt
      else
        UpdateOpenManifestLocked ;>
        match active_acks_ t !! (durable_count - 1)%nat with
        | None => tthrow (Internal "no ACK at the durable count")
        | Some last_durable =>
            on_manifest (fun m => UpdateCheckpoint m (mkDurableCheckpoint (entry_segment_id e)
                                    (durable_bytes_ (writer w)) (pending_sequence last_durable))) ;>
            push_acks (ack_at kAckDurable <$> drop (durable_ack_count_ t) (take durable_count (active_acks_ t))) ;>
            tmodify (fun t => set_acks (active_acks_ t) (written_ack_count_ t) durable_count t)
        end
  | _, _ => tret tt
  end.

Definition FlushCurrentLocked (now : Z) : TopicM unit :=
  top! t := tget (fun t => t) in
  match segment_writer_ t with
  | None => tret tt
  | Some _ =>
      on_segment (fun path => Flush strerror path system_limit now) ;>
      push_written ;>
      PublishDurabilityLocked
  end.

(** [counted] when the caller passes a result to count the rotation in. *)
Definition SealCurrentLocked (now : Z) (counted : bool) : TopicM unit :=
  top! t := tget (fun t => t) in
  match segment_writer_ t with
  | None => tret tt
  | Some _ =>
      on_segment (fun path => Seal strerror path system_limit now) ;>
      top! t := tget (fun t => t) in
      match segment_writer_ t, active_segment_ t, list.last (active_acks_ t) with
      | Some w, Some e, Some last =>
          let e := mkEntry (entry_segment_id e) kSegmentSealed (entry_first_sequence e) (pending_sequence last)
                     (entry_created_at_ns e) now (logical_bytes_ (writer w)) (relative_path e) in
          tmodify (set_active (Some e)) ;>
          on_manifest (fun m => UpdateSegment m e) ;>
          push_written ;>
          PublishDurabilityLocked ;>
          close_segment (entry_segment_id e) w ;>
          tmodify (fun t => set_segment (next_segment_id_ t) None None [] 0 0 t) ;>
          if counted then add_counts 0 0 0 0 0 1 else tret tt
      | _, _, _ => tthrow (Internal "active segment has no tracked record")
      end
  end.

(** The loop of [AppendRecordLocked], which takes at most two rounds ([append_record_fuel]). *)
Fixpoint append_record (fuel : nat) (record : SegmentRecord) (ack : PendingAck) (now : Z) : TopicM unit :=
  match fuel with
  | O => tthrow (Internal "unreachable: third round")
  | S fuel' =>
      EnsureSegmentLocked (ingestion_sequence (header record)) now ;>
      top! appended := on_segment (fun path => Append strerror path system_limit record now) in
      if records_accepted appended =? 1 then
        tmodify (fun t =>
          let id := match active_segment_ t with Some e => entry_segment_id e | None => 0 end in
          set_acks (active_acks_ t ++ [mkPendingAck (pending_sequence ack) id (pending_flags ack) (pending_user_tag ack)
                                         (pending_source ack)]) (written_ack_count_ t) (durable_ack_count_ t) t) ;>
        if rotate_needed appended then SealCurrentLocked now true else tret tt
      else
        throw_when negb (rotate_needed appended) with Internal "segment accepted no record without rotation" ;;
        SealCurrentLocked now true ;>
        append_record fuel' record ack now
  end.
Definition AppendRecordLocked (record : SegmentRecord) (ack : PendingAck) (now : Z) : TopicM unit :=
  append_record 2 record ack now.

(** ** One buffer *)

Definition ResolveSchema (o : TopicWriterOptions) (schema : RecorderSchemaMetadata) : Result Z :=
  match schema_resolver o with
  | Some resolve =>
      let! resolved := resolve schema in
      fail_if resolved =? 0 with mkStatus kNotFound "schema resolver returned invalid ref" ;;
      Ok resolved
  | None =>
      match schema_store o with
      | None => Err (Internal "no schema store")
      | Some store =>
          let! ref := FindRef store (canonical_digest schema) in
          let! identity := ResolveIdentity store ref in
          fail_if negb (short_id identity =? short_id schema)
                  || negb (bool_decide (canonical_digest identity = canonical_digest schema))
                  || negb (meta_schema_version identity =? meta_schema_version schema)
                  || negb (meta_layout_version identity =? meta_layout_version schema) with
            mkStatus kSchemaMismatch "recorder schema metadata does not match store" ;;
          Ok ref
      end
  end.

Definition AllocateSequenceLocked : TopicM Z :=
  top! t := tget (fun t => t) in
  throw_when sequence_exhausted_ t with Resource "ingestion sequence is exhausted" ;;
  let allocated := next_ingestion_sequence_ t in
  tmodify (if allocated =? u64_max then set_sequence allocated true
           else set_sequence (allocated + 1) (sequence_exhausted_ t)) ;>
  tret allocated.

Definition gap_source (s : MessageSource) (sequence : Z) : MessageSource :=
  mkMessageSource (source_node_id s) (source_publisher_id s) (source_publisher_epoch s) sequence (source_observed_ns s).

(** The gap record before a message of [source] whose predecessors from [first] on are missing. *)
Definition record_gap (progress : SourceProgress) (m : RecorderRecordMetadata) (first : Z) (now : Z) : TopicM unit :=
  top! o := tget topic_options_ in
  let source := message_source m in
  let last := source_sequence_number source - 1 in
  top! encoded := tlift (EncodeGapPayload (mkGapPayload (SelectGapReason progress first last) first last)) in
  top! sequence := AllocateSequenceLocked in
  let header := mkRecordHeader kRecordFlagGap 0 0 0 (topic_topic_id o) (topic_partition_id o) sequence
                  (metadata_timestamp_ns m) (source_node_id source) (source_publisher_id source)
                  (source_publisher_epoch source) first (source_observed_ns source) in
  AppendRecordLocked (mkRecord header encoded) (mkPendingAck sequence 0 kRecordFlagGap 0 (gap_source source first)) now ;>
  add_counts 0 0 0 1 0 0.

(** The record of the message itself. *)
Definition record_message (h : RecorderBufferHandle) (m : RecorderRecordMetadata) (ref now : Z) : TopicM unit :=
  top! o := tget topic_options_ in
  let source := message_source m in
  let flags := if negb (Z.land (handle_user_tag h) kTopicWriterTombstoneUserTagMask =? 0)
               then kRecordFlagTombstone else 0 in
  top! sequence := AllocateSequenceLocked in
  let header := mkRecordHeader flags ref (meta_schema_version (record_schema m)) (meta_layout_version (record_schema m))
                  (topic_topic_id o) (topic_partition_id o) sequence (metadata_timestamp_ns m)
                  (source_node_id source) (source_publisher_id source) (source_publisher_epoch source)
                  (source_sequence_number source) (source_observed_ns source) in
  AppendRecordLocked (mkRecord header (handle_bytes h))
    (mkPendingAck sequence 0 flags (Z.land (handle_user_tag h) kTopicWriterUserTagValueMask) source) now ;>
  let key := KeyOf source in
  tmodify (fun t =>
    let p := progress_of (sources_ t) key in
    set_progress key (mkProgress (Some (source_sequence_number source))
                        (after_sequence (source_sequence_number source) (reported_discards p))) t) ;>
  if flags =? kRecordFlagTombstone then add_counts 0 0 1 0 0 0 else add_counts 0 1 0 0 0 0.

Definition ProcessHandleLocked (h : RecorderBufferHandle) (now : Z) : TopicM unit := or_poison (
  match handle_metadata h with
  | None => tthrow (Corruption "dequeued recorder buffer has no metadata")
  | Some m =>
      top! o := tget topic_options_ in
      throw_when negb (handle_topic_id h =? topic_topic_id o) || negb (metadata_topic_id m =? topic_topic_id o) with
        Corruption "dequeued recorder topic is incorrect" ;;
      throw_when negb (metadata_payload_size m =? zlen (handle_bytes h)) with
        Corruption "dequeued recorder payload size changed" ;;
      throw_when negb (PayloadCrc32c (handle_bytes h) =? metadata_payload_crc m) with
        Corruption "dequeued recorder payload CRC32C mismatch" ;;
      top! ref := tlift (ResolveSchema o (record_schema m)) in
      let key := KeyOf (message_source m) in
      let sequence := source_sequence_number (message_source m) in
      top! progress := tget (fun t => progress_of (sources_ t) key) in
      tmodify (set_progress key progress) ;>
      if match last_source_sequence progress with Some last => sequence <=? last | None => false end then
        tmodify count_duplicate ;> add_counts 0 0 0 0 1 0
      else
        let gap := match last_source_sequence progress with
                   | Some last => if wrap64 (last + 1) <? sequence then Some (wrap64 (last + 1)) else None
                   | None => None
                   end in
        top! t := tget (fun t => t) in
        match gap with
        | Some first =>
            throw_when negb (sequence_exhausted_ t) && (next_ingestion_sequence_ t =? u64_max) with
              Resource "insufficient ingestion sequences for gap and data" ;;
            record_gap progress m first now ;> record_message h m ref now
        | None => record_message h m ref now
        end
  end).

(** ** Public calls *)

(** The loop of [Pump] and [Stop] over the pool; [limit] is [max_records], none for [Stop]. *)
Fixpoint drain (queue : list DequeueAnswer) (limit : option Z) (now : Z) : TopicM unit := fun s =>
  if match limit with Some n => negb (dequeued_records (counts s) <? n) | None => false end then (s, Ok tt)
  else match queue with
  | [] => (s, Ok tt)
  | DequeueError e recording_failed :: _ =>
      if bool_decide (code e = kWouldBlock) || (bool_decide (code e = kUnavailable) && negb recording_failed)
      then (s, Ok tt) else PoisonLocked e s
  | Dequeued h :: rest =>
      (add_counts 1 0 0 0 0 0 ;> ProcessHandleLocked h now ;> drain rest limit now) s
  end.

(** The guards of the calls that need a running writer. *)
Definition running (now : Z) : TopicM unit :=
  top! t := tget (fun t => t) in
  match topic_state_ t with
  | kTopicError => tthrow (topic_error_ t)
  | kTopicRunning =>
      throw_when now <? last_now_ns_ t with Invalid "TopicWriter time must be nondecreasing" ;;
      tmodify (set_now now)
  | _ => tthrow (Invalid "TopicWriter is not running")
  end.

(** A public call collects its own acknowledgements and counters. *)
Definition fresh_call (e : list Answers) (s : Frame) : Frame :=
  mkFrame (topic s) (manifest s) (manifest_disk s) (files s) (linked s) (pool_closed s) e [] (mkPumpResult 0 0 0 0 0 0).

Definition identity_matches (o : TopicWriterOptions) (m : PartitionMetadata) : bool :=
  (meta_recording_id m =? topic_recording_id o) && (meta_topic_id m =? topic_topic_id o)
  && (meta_partition_id m =? topic_partition_id o) && (meta_writer_id m =? topic_writer_id o).
Definition ValidateManifestIdentity : TopicM unit := fun s =>
  (s, if identity_matches (topic_options_ (topic s)) (partition (snapshot_ (manifest s))) then Ok tt
      else Err (Invalid "TopicWriter identity no longer matches manifest")).

Definition Start (now : Z) : TopicM unit :=
  top! t := tget (fun t => t) in
  match topic_state_ t with
  | kTopicError => tthrow (topic_error_ t)
  | kTopicCreated =>
      or_poison ValidateManifestIdentity ;>
      tmodify (fun t => set_topic_state kTopicRunning (topic_error_ t) (set_now now t))
  | _ => tthrow (Invalid "TopicWriter can only start once")
  end.

Definition Pump (now max_records : Z) (queue : list DequeueAnswer) : TopicM TopicWriterPumpResult :=
  running now ;>
  drain queue (Some max_records) now ;>
  or_poison (FlushCurrentLocked now) ;>
  (fun s => (s, Ok (counts s))).

Definition FlushTopic (level : RecordAckLevel) (now : Z) : TopicM unit :=
  running now ;> fun s =>
  match
    (match level with
     | kAckWritten => FlushCurrentLocked now
     | kAckDurable => SealCurrentLocked now false
     | _ => tthrow (Invalid "TopicWriter ACK level is unknown")
     end) s
  with
  | (s', Err e) => if bool_decide (code e = kInvalidArgument) then (s', Err e) else PoisonLocked e s'
  | ok => ok
  end.

Definition close_pool : TopicM unit := fun s =>
  (mkFrame (topic s) (manifest s) (manifest_disk s) (files s) (linked s)
     (pool_closed s || close_buffer_pool_on_stop (topic_options_ (topic s))) (env s) (acks s) (counts s), Ok tt).

Definition Stop (now : Z) (queue : list DequeueAnswer) : TopicM unit :=
  top! t := tget (fun t => t) in
  match topic_state_ t with
  | kTopicError => tthrow (topic_error_ t)
  | kTopicStopped => tret tt
  | kTopicCreated => close_pool ;> tmodify (set_topic_state kTopicStopped (topic_error_ t))
  | kTopicStopping => tthrow (Invalid "TopicWriter stop is already in progress")
  | kTopicRunning =>
      throw_when now <? last_now_ns_ t with Invalid "TopicWriter time must be nondecreasing" ;;
      tmodify (set_now now) ;>
      tmodify (set_topic_state kTopicStopping (topic_error_ t)) ;>
      close_pool ;>
      drain queue None now ;>
      or_poison (SealCurrentLocked now false) ;>
      tmodify (fun t => set_topic_state kTopicStopped (topic_error_ t) t)
  end.

Definition ReportDiscardLocked (d : DiscardedBuffer) : TopicM unit :=
  top! t := tget (fun t => t) in
  match topic_state_ t with
  | kTopicError => tthrow (topic_error_ t)
  | kTopicStopped => tthrow (Invalid "cannot report a discard to a stopped TopicWriter")
  | _ =>
      throw_when negb (discard_topic_id d =? topic_topic_id (topic_options_ t)) with
        Invalid "discarded buffer belongs to another topic" ;;
      match discard_metadata d with
      | None => tthrow (Invalid "discarded buffer has no recorder metadata")
      | Some m =>
          throw_when negb (metadata_topic_id m =? topic_topic_id (topic_options_ t)) with
            Invalid "discarded metadata belongs to another topic" ;;
          let key := KeyOf (message_source m) in
          let sequence := source_sequence_number (message_source m) in
          let p := progress_of (sources_ t) key in
          tmodify (set_progress key
            (if match last_source_sequence p with Some last => last <? sequence | None => true end
             then mkProgress (last_source_sequence p)
                    (insert_discard sequence (GapReasonFor (discard_reason d)) (reported_discards p))
             else p))
      end
  end.
Definition ReportDiscard (d : DiscardedBuffer) : TopicM unit := ReportDiscardLocked d.
Fixpoint ReportDiscards (l : list DiscardedBuffer) : TopicM unit :=
  match l with
  | [] => tret tt
  | d :: rest => ReportDiscardLocked d ;> ReportDiscards rest
  end.

Definition CreateTopic (o : TopicWriterOptions) (s : PartitionManifestSnapshot) : Result TopicWriter :=
  fail_if bool_decide (partition_root o = "") || (topic_recording_id o =? 0) || (topic_topic_id o =? 0)
          || (topic_writer_id o =? 0) with
    Invalid "TopicWriter identity is incomplete" ;;
  fail_if match schema_resolver o, schema_store o with None, None => true | _, _ => false end with
    Invalid "TopicWriter requires a schema resolver" ;;
  fail_if negb (identity_matches o (partition s)) with Invalid "TopicWriter identity does not match manifest" ;;
  fail_if match list.last (segments s) with Some e => is_active e | None => false end with
    mkStatus kUnavailable "partition already has an active segment" ;;
  let! start :=
    match list.last (segments s) with
    | None => Ok (1, 1)
    | Some e =>
        fail_if (entry_last_sequence e =? u64_max) || (entry_segment_id e =? u64_max) with
          Resource "partition sequence or segment ID is exhausted" ;;
        Ok (entry_last_sequence e + 1, entry_segment_id e + 1)
    end in
  let '(first, id) := start in
  fail_if negb (initial_ingestion_sequence o =? 0) && (initial_ingestion_sequence o <? first) with
    Invalid "initial ingestion sequence overlaps manifest" ;;
  let first := if initial_ingestion_sequence o =? 0 then first else initial_ingestion_sequence o in
  Ok (mkTopicWriter o kTopicCreated ok_status first false id 0 0 ∅ None None [] 0 0).
End Topic.

Notation "'top!' x ':=' m 'in' k" := (tbind m (fun x => k))
  (at level 10, x name, m at level 100, k at level 200).
Notation "m ';>' k" := (tbind m (fun _ : unit => k)) (at level 100, k at level 200, right associativity).
Notation "'throw_when' c 'with' e ';;' k" := (if c then tthrow e else k)
  (at level 10, c at level 99, e at level 99, k at level 200).
