(* ===== verification/TopicGaps.v ===== *)
(** * Gap records

    The payload of a gap record round-trips, its checksum is CRC-32C, and the reason recorded for a range
    of missing messages is the one all their discard reports agree on. *)
From S2P Require Import Prelude SourceIdentity Bytes Crc32c LittleEndian TopicPartition DurableFile TopicWriter.
From Stdlib Require Import Sorted.

(** ** The reported reasons *)

(** The ordered map of reports. *)
Definition by_sequence (l : list (Z * GapReason)) : Prop := StronglySorted Z.lt l.*1.

Lemma by_sequence_cons e l : by_sequence (e :: l) <-> by_sequence l /\ forall s r, (s, r) ∈ l -> e.1 < s.
Proof.
  unfold by_sequence. cbn [fmap list_fmap]. split.
  - intros H. inversion H as [|? ? H1 H2]; subst. split; [done|]. intros s r Hs.
    apply (proj1 (list.Forall_forall _ _) H2). apply list_elem_of_fmap. by exists (s, r).
  - intros [H1 H2]. constructor; [done|]. apply list.Forall_forall. intros s ([s' r] & -> & Hs)%list_elem_of_fmap. by eapply H2.
Qed.

Lemma insert_discard_elem sequence reason l s r : by_sequence l ->
  (s, r) ∈ insert_discard sequence reason l <-> (s = sequence /\ r = reason) \/ (s <> sequence /\ (s, r) ∈ l).
Proof.
  induction l as [|[s0 r0] l IH]; intros Hl; cbn [insert_discard].
  - rewrite list_elem_of_singleton, elem_of_nil. naive_solver.
  - apply by_sequence_cons in Hl as [Hl H0]. cbn in H0.
    destruct (Z.ltb_spec sequence s0); [|destruct (Z.eqb_spec sequence s0) as [->|]].
    + rewrite !elem_of_cons. split; [|naive_solver]. intros [[= -> ->]|[[= -> ->]|Hs]]; [naive_solver | right; split; [lia|by left] |].
      right. pose proof (H0 _ _ Hs). split; [lia|by right].
    + rewrite !elem_of_cons. split; [|naive_solver]. intros [[= -> ->]|Hs]; [naive_solver|]. pose proof (H0 _ _ Hs). right. split; [lia|by right].
    + rewrite elem_of_cons, IH, elem_of_cons by done. naive_solver.
Qed.

Lemma insert_discard_sorted sequence reason l : by_sequence l -> by_sequence (insert_discard sequence reason l).
Proof.
  induction l as [|[s0 r0] l IH]; intros Hl; cbn [insert_discard]; [by repeat constructor|].
  pose proof Hl as [Hl' H0]%by_sequence_cons. cbn in H0.
  destruct (Z.ltb_spec sequence s0); [|destruct (Z.eqb_spec sequence s0) as [->|]]; apply by_sequence_cons; cbn.
  - split; [done|]. intros s r [[= -> ->]|Hs]%elem_of_cons; [done|]. pose proof (H0 _ _ Hs). lia.
  - done.
  - split; [by apply IH|]. intros s r [[-> _]|[_ Hs]]%insert_discard_elem; [lia | by eapply H0 | done].
Qed.

Lemma by_sequence_filter Q `{forall e, Decision (Q e)} l : by_sequence l -> by_sequence (filter Q l).
Proof.
  induction l as [|e l IH]; intros Hl; [done|]. apply by_sequence_cons in Hl as [Hl H0]. rewrite filter_cons.
  case_decide; [|by apply IH]. apply by_sequence_cons. split; [by apply IH|]. intros s r [_ Hs]%list_elem_of_filter. by eapply H0.
Qed.

(** All of [first .. last] are reported with [reason]. *)
Definition agreed (l : list (Z * GapReason)) (first last : Z) (reason : GapReason) : Prop :=
  forall i, first <= i <= last -> (i, reason) ∈ l.

Lemma same_reason_spec l reason last : forall expected, by_sequence l -> expected <= last ->
  (forall s r, (s, r) ∈ l -> expected <= s) ->
  (agreed l expected last reason -> same_reason l reason expected last = reason) /\
  (~ agreed l expected last reason -> same_reason l reason expected last = kSourceSequenceJump).
Proof.
  induction l as [|[s r] l IH]; intros expected Hl Hle Hge; cbn [same_reason].
  { split; [|done]. intros H. specialize (H expected ltac:(lia)). by apply elem_of_nil in H. }
  apply by_sequence_cons in Hl as [Hl H0]. cbn in H0. pose proof (Hge s r ltac:(by left)) as Hs.
  assert (agreed ((s, r) :: l) expected last reason -> s = expected /\ r = reason) as Hfirst.
  { intros H. specialize (H expected ltac:(lia)). apply elem_of_cons in H as [[= <- <-]|H]; [done|]. pose proof (H0 _ _ H). lia. }
  destruct (Z.ltb_spec last s); [split; [intros H'%Hfirst; lia | done]|].
  destruct (Z.eqb_spec s expected) as [->|Hne]; [|split; [by intros [? _]%Hfirst | done]].
  destruct (decide (r = reason)) as [->|Hr]; [rewrite bool_decide_true by done | rewrite bool_decide_false by done; split; [by intros [_ ?]%Hfirst | done]].
  cbn [negb orb]. destruct (Z.eqb_spec expected last) as [->|Hne].
  { split; [done|]. intros Hn. destruct Hn. intros i Hi. assert (i = last) as -> by lia. by left. }
  destruct (IH (expected + 1) Hl ltac:(lia)) as [I1 I2]; [intros s' r' Hs'; pose proof (H0 _ _ Hs'); lia|].
  assert (agreed ((expected, reason) :: l) expected last reason <-> agreed l (expected + 1) last reason) as Hag.
  { split; intros H' i Hi.
    - specialize (H' i ltac:(lia)). apply elem_of_cons in H' as [[= Heq]|H']; [lia|done].
    - destruct (decide (i = expected)) as [->|]; [by left|]. right. apply H'. lia. }
  by rewrite Hag.
Qed.

(** The reports kept for a source: made, and forgotten up to a recorded message. *)
Inductive kept_reports : list (Z * GapReason) -> Prop :=
| no_reports : kept_reports []
| one_more_report l sequence reason : kept_reports l -> kept_reports (insert_discard sequence reason l)
| reports_forgotten l sequence : kept_reports l -> kept_reports (after_sequence sequence l).

Lemma kept_reports_sorted l : kept_reports l -> by_sequence l.
Proof. induction 1; [constructor | by apply insert_discard_sorted | by apply by_sequence_filter]. Qed.

Lemma from_sequence_agreed l first last reason : agreed (from_sequence first l) first last reason <-> agreed l first last reason.
Proof.
  unfold agreed, from_sequence. split; intros H i Hi; specialize (H i Hi).
  - by apply list_elem_of_filter in H as [_ H].
  - apply list_elem_of_filter. split; [cbn; lia|done].
Qed.

(** The reason a gap record gives for a range of missing messages is exact: it is the reason of
    their discards when every one of them was reported, all with the same reason, and a plain jump of
    the source sequence otherwise, whatever the order of the reports. *)
Theorem gap_reason_exact progress first last : kept_reports (reported_discards progress) -> first <= last ->
  (forall reason, agreed (reported_discards progress) first last reason -> SelectGapReason progress first last = reason) /\
  ((forall reason, ~ agreed (reported_discards progress) first last reason) ->
     SelectGapReason progress first last = kSourceSequenceJump).
Proof.
  intros Hk%kept_reports_sorted Hle. unfold SelectGapReason.
  setoid_rewrite <- from_sequence_agreed. set (l := from_sequence first (reported_discards progress)).
  assert (by_sequence l) as Hl by (by apply by_sequence_filter).
  assert (forall s r, (s, r) ∈ l -> first <= s) as Hge by (by intros s r [? _]%list_elem_of_filter).
  destruct l as [|[s r] rest].
  { split; [|done]. intros reason H. specialize (H first ltac:(lia)). by apply elem_of_nil in H. }
  assert (forall reason, agreed ((s, r) :: rest) first last reason -> s = first /\ r = reason) as Hfirst.
  { intros reason H. specialize (H first ltac:(lia)). apply by_sequence_cons in Hl as [_ H0]. cbn in H0.
    apply elem_of_cons in H as [[= <- <-]|H]; [done|]. pose proof (H0 _ _ H). pose proof (Hge s r ltac:(by left)). lia. }
  destruct (Z.eqb_spec s first) as [->|Hne]; cbn [negb]; [|split; [by intros reason [? _]%Hfirst | done]].
  destruct (same_reason_spec ((first, r) :: rest) r last first Hl Hle Hge) as [S1 S2]. split; [|intros H; by apply S2].
  intros reason H. destruct (Hfirst reason H) as [_ ->]. by apply S1.
Qed.

Lemma gap_reason_exact_witness :
  SelectGapReason (mkProgress (Some 10) [(11, kDropOldest); (12, kDropOldest); (14, kDropNewest)]) 11 12 = kDropOldest /\
  SelectGapReason (mkProgress (Some 10) [(11, kDropOldest); (12, kDropOldest); (14, kDropNewest)]) 11 13 = kSourceSequenceJump.
Proof.
  set (p := mkProgress _ _).
  assert (kept_reports (reported_discards p)) as Hk.
  { change (reported_discards p) with
      (insert_discard 12 kDropOldest (insert_discard 14 kDropNewest (insert_discard 11 kDropOldest []))). repeat constructor. }
  split.
  - apply (gap_reason_exact p 11 12 Hk ltac:(lia)). intros i Hi. assert (i = 11 \/ i = 12) as [-> | ->] by lia;
      apply (bool_decide_unpack _); vm_compute; exact I.
  - apply (gap_reason_exact p 11 13 Hk ltac:(lia)). intros reason H. specialize (H 13 ltac:(lia)).
    cbn in H. rewrite !elem_of_cons, elem_of_nil in H. naive_solver.
Defined.

(** ** The payload *)

Record gap_typed (p : GapPayload) : Prop := {
  gp_reason : gap_reason_of (gap_reason_value (gap_reason p)) = gap_reason p;
  gp_first : is_u64 (first_missing p); gp_last : is_u64 (last_missing p)
}.

Definition gap_bytes (p : GapPayload) : list byte :=
  le_bytes 4 kGapPayloadMagic ++ le_bytes 2 kGapPayloadVersion ++ le_bytes 2 (gap_reason_value (gap_reason p)) ++
  le_bytes 8 (first_missing p) ++ le_bytes 8 (last_missing p).

Lemma gap_bytes_length p : length (gap_bytes p) = 24%nat.
Proof. unfold gap_bytes. by rewrite !length_app, !le_bytes_length. Qed.

Lemma EncodeGapPayload_ok p b : EncodeGapPayload p = Ok b <->
  ValidGapReason (gap_reason p) = true /\ first_missing p <= last_missing p /\ b = gap_bytes p.
Proof.
  unfold EncodeGapPayload. destruct (ValidGapReason (gap_reason p)); cbn [negb]; [|naive_solver].
  destruct (Z.ltb_spec (last_missing p) (first_missing p)); [naive_solver lia|].
  assert (forall x y : list byte, x = y -> Ok x = Ok b <-> true = true /\ first_missing p <= last_missing p /\ b = y) as Hx by naive_solver.
  apply Hx. reflexivity.
Qed.

Lemma valid_reason_range r : ValidGapReason r = true <-> 1 <= gap_reason_value r <= 8.
Proof. unfold ValidGapReason. cbn. rewrite andb_true_iff, !Z.leb_le. done. Qed.

Lemma gap_fields p : gap_typed p -> 1 <= gap_reason_value (gap_reason p) <= 8 ->
  ReadLe32 (gap_bytes p) 0 = kGapPayloadMagic /\ ReadLe16 (gap_bytes p) 4 = kGapPayloadVersion /\
  ReadLe16 (gap_bytes p) 6 = gap_reason_value (gap_reason p) /\ ReadLe64 (gap_bytes p) 8 = first_missing p /\
  ReadLe64 (gap_bytes p) 16 = last_missing p.
Proof.
  intros [H1 H2 H3] Hr. unfold gap_bytes, ReadLe16, ReadLe32, ReadLe64. rewrite <- (app_nil_r (le_bytes 8 (last_missing p))).
  split_and!; read_le_field; [done | done | | exact H2 | exact H3]. change (256 ^ Z.of_nat 2) with 65536. lia.
Qed.

Lemma gap_reason_of_value r : gap_reason_of (gap_reason_value (gap_reason_of r)) = gap_reason_of r.
Proof.
  unfold gap_reason_of.
  repeat match goal with |- context [if ?r =? ?n then _ else _] => destruct (Z.eqb_spec r n); [reflexivity|] end.
  cbn [gap_reason_value]. repeat (rewrite (proj2 (Z.eqb_neq _ _)) by done). done.
Qed.
Lemma gap_reason_value_of r : gap_reason_value (gap_reason_of r) = r.
Proof.
  unfold gap_reason_of.
  repeat match goal with |- context [if ?r =? ?n then _ else _] => destruct (Z.eqb_spec r n) as [->|]; [reflexivity|] end. done.
Qed.

Lemma DecodeGapPayload_complete p : gap_typed p -> ValidGapReason (gap_reason p) = true -> first_missing p <= last_missing p ->
  DecodeGapPayload (gap_bytes p) = Ok p.
Proof.
  intros Ht Hv Hle. destruct (gap_fields p Ht (proj1 (valid_reason_range _) Hv)) as (F1 & F2 & F3 & F4 & F5).
  unfold DecodeGapPayload. rewrite gap_bytes_length, F1, F2, F3, F4, F5, (gp_reason p Ht), Hv. cbn [last_missing first_missing].
  rewrite (proj2 (Z.ltb_ge _ _)) by done. by destruct p.
Qed.

Lemma DecodeGapPayload_sound b p : DecodeGapPayload b = Ok p ->
  gap_typed p /\ ValidGapReason (gap_reason p) = true /\ first_missing p <= last_missing p /\ b = gap_bytes p.
Proof.
  unfold DecodeGapPayload. intros H.
  do 5 (match type of H with (if ?c then _ else _) = _ => let G := fresh "G" in destruct c eqn:G; [discriminate|] end).
  injection H as <-. bool_to_prop. apply Nat.eqb_eq in G. unfold kEncodedGapPayloadSize in G. cbn [gap_reason first_missing last_missing] in *.
  split; [split; [apply gap_reason_of_value | apply ReadLe64_bound; lia | apply ReadLe64_bound; lia]|].
  split; [done|]. split; [done|]. unfold gap_bytes. cbn [gap_reason first_missing last_missing].
  rewrite gap_reason_value_of, <- G0, <- G1. rewrite <- (drop_0 b) at 1.
  peel_le 4%nat b 0%nat. peel_le 2%nat b 4%nat. peel_le 2%nat b 6%nat. peel_le 8%nat b 8%nat. peel_le 8%nat b 16%nat.
  by rewrite (drop_ge b 24), app_nil_r by lia.
Qed.

(** The payload of a gap record is written and read by inverse functions; what is read is a
    valid range with a known reason. *)
Theorem gap_payload_roundtrip :
  (forall p b, gap_typed p -> EncodeGapPayload p = Ok b <-> DecodeGapPayload b = Ok p) /\
  (forall b p, DecodeGapPayload b = Ok p -> gap_typed p).
Proof.
  split; [|by intros b p (? & _)%DecodeGapPayload_sound]. intros p b Ht. rewrite EncodeGapPayload_ok. split.
  - intros (H1 & H2 & ->). by apply DecodeGapPayload_complete.
  - by intros (_ & H)%DecodeGapPayload_sound.
Qed.

(** The checksum the writer compares with that of the buffer is CRC-32C. *)
Lemma PayloadCrc32c_reference payload : PayloadCrc32c payload = Z.lxor (UpdateSoftware 0xffffffff payload) 0xffffffff.
Proof.
  unfold PayloadCrc32c, UpdateSoftware. f_equal. generalize 0xffffffff. induction payload as [|b payload IH]; intros s; [done|].
  cbn [foldl]. rewrite IH, update_byte_bits, crc_bits_small by apply Z_of_byte_range. done.
Qed.
