(* ===== verification/TopicLog.v ===== *)
(** * What a topic writer acknowledges

    The topic writer with its manifest and its segment files.  Whatever the buffers, the calls and the
    answers of the system, the acknowledgements tell one story: the records in the order of
    their ingestion sequences, each once as written and then once as durable, every source
    without an unmarked hole; and a record acknowledged as durable is on stable storage, in a
    segment that the manifest on stable storage lists. *)
From Stdlib Require Import Ascii.
From stdpp Require Import pretty functions.
From S2P Require Import Prelude SourceIdentity Bytes Crc32c LittleEndian TopicPartition ManifestFormat ManifestCodec DurableFile PartitionManifest ManifestSafety SegmentFormat SegmentRecovery SegmentScan SegmentRepair SegmentWriter SegmentLog SegmentGrowth TopicWriter.

(** ** Reasoning about calls *)

Section Calls.
Context {P : Posix}.

(** After [m] from [s]: [Post] of the value and the state, or [Fail] of the state. *)
Definition after {A} (s : Frame) (m : TopicM A) (Post : A -> Frame -> Prop) (Fail : Frame -> Prop) : Prop :=
  match m s with
  | (s', Ok a) => Post a s'
  | (s', Err _) => Fail s'
  end.

Lemma after_bind {A C} s (m : TopicM A) (k : A -> TopicM C) Post Fail :
  after s m (fun a s' => after s' (k a) Post Fail) Fail -> after s (tbind m k) Post Fail.
Proof. unfold after, tbind. by destruct (m s) as [s' [a|e]]. Qed.

Lemma after_mono {A} s (m : TopicM A) (Post Post' : A -> Frame -> Prop) (Fail Fail' : Frame -> Prop) :
  after s m Post Fail -> (forall a s', Post a s' -> Post' a s') -> (forall s', Fail s' -> Fail' s') -> after s m Post' Fail'.
Proof. unfold after. destruct (m s) as [s' [a|e]]; auto. Qed.

Lemma after_get {A} s (f : TopicWriter -> A) (Post : A -> Frame -> Prop) Fail :
  Post (f (topic s)) s -> after s (tget f) Post Fail.
Proof. done. Qed.
Lemma after_throw {A} s e (Post : A -> Frame -> Prop) Fail : Fail s -> after s (tthrow e) Post Fail.
Proof. done. Qed.
Lemma after_ret {A} s (a : A) Post (Fail : Frame -> Prop) : Post a s -> after s (tret a) Post Fail.
Proof. done. Qed.
Lemma after_lift {A} s (r : Result A) (Post : A -> Frame -> Prop) (Fail : Frame -> Prop) :
  (forall a, r = Ok a -> Post a s) -> (forall e, r = Err e -> Fail s) -> after s (tlift r) Post Fail.
Proof. intros H1 H2. unfold after, tlift. destruct r as [a|e]; eauto. Qed.
Lemma after_when {A} s (c : bool) e (m : TopicM A) Post Fail :
  (c = true -> Fail s) -> (c = false -> after s m Post Fail) -> after s (if c then tthrow e else m) Post Fail.
Proof. destruct c; [intros H _; by apply after_throw, H | by intros _ H; apply H]. Qed.
End Calls.

(** ** Names of segment files *)

Lemma slash_free_cons c s : c <> "/"%char -> slash_free s -> slash_free (String c s).
Proof.
  unfold slash_free. intros Hc Hs. cbn [split_at_slashes]. rewrite Hs. by rewrite bool_decide_eq_false_2.
Qed.

Lemma slash_free_app a b : slash_free a -> slash_free b -> slash_free (a +:+ b).
Proof.
  intros Ha Hb. induction a as [|c a IH]; [done|]. unfold slash_free in Ha. cbn [split_at_slashes] in Ha.
  destruct (split_at_slashes a) as [|x l] eqn:E; [done|]. case_bool_decide as Hc; [done|]. injection Ha as -> ->.
  apply slash_free_cons; [done|]. by apply IH.
Qed.

Lemma slash_free_pretty n s : slash_free s -> slash_free (pretty_N_go n s).
Proof.
  revert s. induction n as [n IH] using (well_founded_induction N.lt_wf_0). intros s Hs.
  destruct (decide (0 < n)%N) as [Hn|Hn].
  - rewrite pretty_N_go_step by done. apply IH; [apply N.div_lt; lia|]. apply slash_free_cons; [|done].
    unfold pretty_N_char. by repeat case_match.
  - assert (n = 0%N) as -> by lia. by rewrite pretty_N_go_0.
Qed.

Lemma slash_free_zeros n : slash_free (String.concat "" (replicate n "0")).
Proof.
  induction n as [|[|n] IH]; [done..|]. cbn [replicate String.concat] in *. apply (slash_free_app "0"); [done|]. exact IH.
Qed.

Lemma SegmentRelativePath_is_path id : is_path (SegmentRelativePath id).
Proof.
  exists (generic_string (SegmentRelativePath id)). unfold SegmentRelativePath. rewrite path_of_generic; [done | done | |].
  - repeat constructor. apply slash_free_app; [|done]. unfold padded. apply slash_free_app; [apply slash_free_zeros|].
    unfold pretty, pretty_N. case_decide; [done|]. by apply slash_free_pretty.
  - repeat constructor; [done|]. set (s := padded _). by destruct s.
Qed.

(** ** The story of a source *)

(** What the records of one source have told: nothing, the message [x], or a gap after the message [x]. *)
Inductive Tale : Set := Untold | Told (x : Z) | Missing (x : Z).

Definition is_gap (p : PendingAck) : bool := pending_flags p =? kRecordFlagGap.
Definition continues (t : Tale) (p : PendingAck) (t' : Tale) : Prop :=
  let n := source_sequence_number (pending_source p) in
  match t with
  | Untold => is_gap p = false /\ t' = Told n
  | Told x => if is_gap p then n = x + 1 /\ t' = Missing x else n = x + 1 /\ t' = Told n
  | Missing x => is_gap p = false /\ x + 1 < n /\ t' = Told n
  end.
Fixpoint narrates (t : Tale) (l : list PendingAck) (t' : Tale) : Prop :=
  match l with
  | [] => t' = t
  | p :: rest => exists u, continues t p u /\ narrates u rest t'
  end.

Lemma narrates_app l l' : forall t t', narrates t (l ++ l') t' <-> exists u, narrates t l u /\ narrates u l' t'.
Proof.
  induction l as [|p l IH]; intros t t'; cbn [app narrates]; [naive_solver|]. setoid_rewrite IH. naive_solver.
Qed.

Definition of_source (key : SourceKey) (story : list PendingAck) : list PendingAck :=
  filter (fun p => KeyOf (pending_source p) = key) story.
Definition tales (f : SourceKey -> Tale) (story : list PendingAck) : Prop :=
  forall key, narrates Untold (of_source key story) (f key).

Lemma of_source_snoc key story p :
  of_source key (story ++ [p]) = of_source key story ++ (if decide (KeyOf (pending_source p) = key) then [p] else []).
Proof. unfold of_source. by rewrite list.filter_app. Qed.

Lemma tales_snoc f story p t : tales f story -> continues (f (KeyOf (pending_source p))) p t ->
  tales (<[KeyOf (pending_source p) := t]> f) (story ++ [p]).
Proof.
  intros Hf Hp key. rewrite of_source_snoc, narrates_app. exists (f key). split; [apply Hf|].
  case_decide as Hk.
  - rewrite <- Hk, fn_lookup_insert. by exists t.
  - by rewrite fn_lookup_insert_ne.
Qed.

(** What the table of sources says has been told. *)
Definition told (sources : gmap SourceKey SourceProgress) (key : SourceKey) : Tale :=
  match last_source_sequence (progress_of sources key) with None => Untold | Some x => Told x end.

(** ** Records and acknowledgements *)

(** The acknowledgement is of the record, by the fields of its header; payloads are not compared. *)
Record matches (p : PendingAck) (r : SegmentRecord) : Prop := {
  mt_sequence : pending_sequence p = ingestion_sequence (header r);
  mt_flags : pending_flags p = record_flags (header r);
  mt_node : source_node_id (pending_source p) = node_id (header r);
  mt_publisher : source_publisher_id (pending_source p) = publisher_id (header r);
  mt_epoch : source_publisher_epoch (pending_source p) = publisher_epoch (header r);
  mt_source : source_sequence_number (pending_source p) = source_sequence (header r);
  mt_observed : source_observed_ns (pending_source p) = observed_timestamp_ns (header r)
}.

Definition at_level (level : RecordAckLevel) (l : list TopicWriterAck) : list TopicWriterAck :=
  filter (fun a => ack_level a = level) l.

Lemma at_level_app level l l' : at_level level (l ++ l') = at_level level l ++ at_level level l'.
Proof. apply list.filter_app. Qed.
Lemma at_level_same level l : at_level level (ack_at level <$> l) = ack_at level <$> l.
Proof. unfold at_level. induction l as [|p l IH]; [done|]. cbn [fmap list_fmap]. by rewrite filter_cons_True, IH. Qed.
Lemma at_level_other level level' l : level <> level' -> at_level level (ack_at level' <$> l) = [].
Proof. intros Hne. unfold at_level. induction l as [|p l IH]; [done|]. cbn [fmap list_fmap]. by rewrite filter_cons_False. Qed.

(** ** The invariant *)

Section Log.
Context {P : Posix} {PL : PosixLaws P} {B : Crc32cBackend} {BL : Crc32cLaws B}.
Context (system_limit : Z) (o : TopicWriterOptions) (first0 : Z).

Definition header_of (e : SegmentManifestEntry) : SegmentHeader :=
  segment_header_of o (entry_first_sequence e) (entry_created_at_ns e).
Definition path_of (e : SegmentManifestEntry) : string :=
  append_path (partition_root o) (generic_string (relative_path e)).

(** The file of a segment, open or closed. *)
Definition current_file (s : Frame) (id : Z) : option ClosedFile :=
  match segment_writer_ (topic s), active_segment_ (topic s) with
  | Some w, Some e => if decide (entry_segment_id e = id) then Some (close_file w) else files s !! id
  | _, _ => files s !! id
  end.

(** The record of [p] is on stable storage, with all records of its segment before it. *)
Definition in_file (f : ClosedFile) (p : PendingAck) : Prop :=
  exists h rs i r, rs !! i = Some r /\ matches p r /\ (exists first created, h = segment_header_of o first created) /\ segment_typed h /\
    reserved_bits (segment_flags h) kKnownSegmentFlags = false /\
    admitted h (writer_limits (segment_options o)) None rs /\ contiguous (first_ingestion_sequence h) rs /\
    segment_bytes h ++ records_bytes (take (S i) rs) `prefix_of` closed_synced f.

Definition listed (m : PartitionManifestSnapshot) (id : Z) : Prop :=
  exists i e, segments m !! i = Some e /\ entry_segment_id e = id /\ relative_path e = SegmentRelativePath id.
Definition in_manifest (m : PartitionManifestSnapshot) (p : PendingAck) : Prop :=
  listed m (pending_segment_id p) /\
  exists c, snapshot_checkpoint m = Some c /\ pending_sequence p <= durable_sequence c.

Definition stored (s : Frame) (p : PendingAck) : Prop :=
  (exists f, current_file s (pending_segment_id p) = Some f /\ in_file f p) /\
  pending_segment_id p ∈ linked s /\ in_manifest (snapshot_ (manifest s)) p.

(** How the records of the active segment relate to the pending acknowledgements: one each; one record
    [r] more, just accepted; or unknown, after a call that failed. *)
Inductive Slack : Set := Exact | Ahead (r : SegmentRecord) | Loose.
Definition slack_ok (k : Slack) (rs : list SegmentRecord) (pending : list PendingAck) : Prop :=
  match k with
  | Exact => length rs = length pending
  | Ahead r => length rs = S (length pending) /\ rs !! length pending = Some r
  | Loose => True
  end.

(** The active segment. *)
Definition writing (closed : list PendingAck) (exact : Slack) (s : Frame) (w : Running) (e : SegmentManifestEntry) : Prop :=
  exists rs,
    reaches strerror (path_of e) system_limit (header_of e) (segment_options o) rs w /\
    contiguous (entry_first_sequence e) rs /\ entry_first_sequence e = first0 + zlen closed /\
    (length (active_acks_ (topic s)) <= length rs)%nat /\ slack_ok exact rs (active_acks_ (topic s)) /\
    (forall i p, active_acks_ (topic s) !! i = Some p -> exists r, rs !! i = Some r /\ matches p r) /\
    segment_typed (header_of e) /\ relative_path e = SegmentRelativePath (entry_segment_id e) /\
    Forall (fun p => pending_segment_id p = entry_segment_id e) (active_acks_ (topic s)) /\
    files s !! entry_segment_id e = None /\ entry_segment_id e ∈ linked s /\
    listed (snapshot_ (manifest s)) (entry_segment_id e) /\
    (next_segment_id_ (topic s) = 0 \/ entry_segment_id e < next_segment_id_ (topic s)) /\ entry_typed e.

(** [past] was acknowledged by earlier calls, [closed] is the story of the closed segments. *)
Record chron (past : list TopicWriterAck) (closed : list PendingAck) (exact : Slack) (s : Frame) : Prop := {
  ch_options : topic_options_ (topic s) = o;
  ch_manifest : kept (manifest s) (manifest_disk s);
  ch_written : at_level kAckWritten (past ++ acks s) =
    ack_at kAckWritten <$> take (length closed + written_ack_count_ (topic s)) (closed ++ active_acks_ (topic s));
  ch_durable : at_level kAckDurable (past ++ acks s) =
    ack_at kAckDurable <$> take (length closed + durable_ack_count_ (topic s)) (closed ++ active_acks_ (topic s));
  ch_stored : Forall (stored s) (take (length closed + durable_ack_count_ (topic s)) (closed ++ active_acks_ (topic s)));
  ch_counts : (durable_ack_count_ (topic s) <= written_ack_count_ (topic s) <= length (active_acks_ (topic s)))%nat;
  ch_active : match segment_writer_ (topic s), active_segment_ (topic s) with
              | Some w, Some e => writing closed exact s w e
              | None, None => active_acks_ (topic s) = []
              | _, _ => False
              end;
  ch_sequence : forall i p, (closed ++ active_acks_ (topic s)) !! i = Some p -> pending_sequence p = first0 + Z.of_nat i;
  ch_fresh : exact <> Loose -> forall id f, files s !! id = Some f ->
    next_segment_id_ (topic s) = 0 \/ id < next_segment_id_ (topic s);
  ch_id : is_u64 (next_segment_id_ (topic s))
}.

Lemma chron_weaken past closed exact s : chron past closed exact s -> chron past closed Loose s.
Proof.
  intros []. split; try done. destruct (segment_writer_ (topic s)), (active_segment_ (topic s)); try done.
  destruct ch_active0 as (rs & H1 & H2 & H3 & H4 & _ & H5). exists rs. by split_and!; try apply H5.
Qed.

(** The parts of a state the invariant looks at. *)
Record same_view (s s' : Frame) : Prop := {
  sv_options : topic_options_ (topic s') = topic_options_ (topic s);
  sv_writer : segment_writer_ (topic s') = segment_writer_ (topic s);
  sv_active : active_segment_ (topic s') = active_segment_ (topic s);
  sv_acks : active_acks_ (topic s') = active_acks_ (topic s);
  sv_written : written_ack_count_ (topic s') = written_ack_count_ (topic s);
  sv_durable : durable_ack_count_ (topic s') = durable_ack_count_ (topic s);
  sv_next : next_segment_id_ (topic s') = next_segment_id_ (topic s);
  sv_manifest : manifest s' = manifest s; sv_disk : manifest_disk s' = manifest_disk s;
  sv_files : files s' = files s; sv_linked : linked s' = linked s; sv_emitted : acks s' = acks s
}.

Lemma stored_ext s s' p : segment_writer_ (topic s') = segment_writer_ (topic s) ->
  active_segment_ (topic s') = active_segment_ (topic s) -> files s' = files s -> linked s' = linked s ->
  manifest s' = manifest s -> stored s p -> stored s' p.
Proof. intros E1 E2 E3 E4 E5. unfold stored, current_file. by rewrite E1, E2, E3, E4, E5. Qed.

Lemma chron_view past closed exact s s' : same_view s s' -> chron past closed exact s -> chron past closed exact s'.
Proof.
  intros [E1 E2 E3 E4 E5 E6 E7 E8 E9 E10 E11 E12] [C1 C2 C3 C4 C5 C6 C7 C8 C9 C10].
  split; rewrite ?E1, ?E4, ?E5, ?E6, ?E7, ?E8, ?E9, ?E12; try done.
  - eapply list.Forall_impl; [exact C5|]. intros p. by apply stored_ext.
  - rewrite E2, E3. destruct (segment_writer_ (topic s)), (active_segment_ (topic s)); try done.
    unfold writing. by rewrite E4, E7, E8, E10, E11.
  - by rewrite E10.
Qed.

(** The fields of the writer that the handling of segments leaves alone. *)
Definition others (t : TopicWriter) : TopicWriterState * Status * Z * bool * Z * Z * gmap SourceKey SourceProgress :=
  (topic_state_ t, topic_error_ t, next_ingestion_sequence_ t, sequence_exhausted_ t, duplicate_count_ t, last_now_ns_ t, sources_ t).

(** Nothing but the unused answers changes. *)
Lemma after_answers {A} s (k : Answers -> TopicM A) Post Fail :
  (forall a s', same_view s s' -> others (topic s') = others (topic s) -> counts s' = counts s -> after s' (k a) Post Fail) ->
  after s (tbind next_answers k) Post Fail.
Proof. intros H. apply after_bind. unfold after at 1, next_answers. apply H; [by split | done | done]. Qed.

(** *** Calls to the manifest *)

Lemma listed_moves m m' id : m' = m \/ advances m m' -> listed m id -> listed m' id.
Proof.
  intros [->|H]; [done|]. intros (i & e & Hi & He & Hp). destruct (ad_entries _ _ H i e Hi) as (e' & Hi' & [M1 M2 _ _ _ _ _ _]).
  exists i, e'. by rewrite M1, M2.
Qed.

Lemma in_manifest_moves m m' p : m' = m \/ advances m m' -> in_manifest m p -> in_manifest m' p.
Proof.
  intros Hm [Hl (c & Hc & Hp)]. split; [by eapply listed_moves|]. destruct Hm as [->|H]; [by exists c|].
  destruct (ad_checkpoint _ _ H c Hc) as (c' & Hc' & [_ Hb _]). exists c'. split; [done|lia].
Qed.

Lemma keeps_moves m next f d t d' m' r : keeps m next f -> kept m d -> f d = (t, d', (m', r)) ->
  kept m' d' /\ (snapshot_ m' = snapshot_ m \/ advances (snapshot_ m) (snapshot_ m')).
Proof.
  intros Hk Hm Hf. destruct (Hk d t d' m' r Hm Hf) as (K & _ & _ & _ & Hr). split; [done|].
  destruct r as [[]|e]; [|by left]. destruct Hr as [_ [->|(_ & _ & ?)]]; auto.
Qed.

Lemma chron_manifest past closed exact s s' :
  topic s' = topic s -> files s' = files s -> linked s' = linked s -> acks s' = acks s ->
  kept (manifest s') (manifest_disk s') ->
  snapshot_ (manifest s') = snapshot_ (manifest s) \/ advances (snapshot_ (manifest s)) (snapshot_ (manifest s')) ->
  chron past closed exact s -> chron past closed exact s'.
Proof.
  intros E1 E2 E3 E4 Hk Hm [C1 C2 C3 C4 C5 C6 C7 C8 C9 C10]. split; rewrite ?E1, ?E4; try done.
  - eapply list.Forall_impl; [exact C5|]. intros p (H1 & H2 & H3). unfold stored, current_file. rewrite E1, E2, E3.
    split_and!; [done | done | by eapply in_manifest_moves].
  - destruct (segment_writer_ (topic s)), (active_segment_ (topic s)); try done.
    destruct C7 as (rs & H1 & H2 & H3 & H4 & H5 & H6 & H7 & H8 & H9 & H10 & H11 & H12 & H13). exists rs. rewrite E1, E2, E3.
    split_and!; try done; [by eapply listed_moves | apply H13 | apply H13].
  - by rewrite E2.
Qed.

Lemma after_manifest s past closed exact f (Post : unit -> Frame -> Prop) Fail :
  chron past closed exact s -> (forall a, exists next, keeps (manifest s) next (f (manifest s) a)) ->
  (forall s' a t, chron past closed exact s' -> topic s' = topic s -> acks s' = acks s -> files s' = files s -> linked s' = linked s ->
     f (manifest s) a (manifest_disk s) = (t, manifest_disk s', (manifest s', Ok tt)) -> Post tt s') ->
  (forall s', chron past closed exact s' -> topic s' = topic s -> files s' = files s -> Fail s') -> after s (on_manifest f) Post Fail.
Proof.
  intros Hc Hk HP HF. unfold after, on_manifest, tbind, next_answers. set (a := default smooth (head (env s))). cbn [manifest manifest_disk].
  destruct (Hk (manifest_answers a)) as (next & Hk').
  destruct (f (manifest s) (manifest_answers a) (manifest_disk s)) as [[t d'] [m' r]] eqn:Ef.
  destruct (keeps_moves _ _ _ _ _ _ _ _ Hk' (ch_manifest _ _ _ _ Hc) Ef) as [K M].
  assert (forall s', topic s' = topic s -> files s' = files s -> linked s' = linked s -> acks s' = acks s ->
    manifest s' = m' -> manifest_disk s' = d' -> chron past closed exact s') as Hch.
  { intros s' E1 E2 E3 E4 E5 E6. eapply chron_manifest; try done; by rewrite ?E5, ?E6. }
  destruct r as [[]|e]; [eapply HP; try done; by apply Hch | apply HF; [by apply Hch | done | done]].
Qed.

(** What a successful mutation says. *)
Lemma Commit_stamps m next a d t d' m' : Commit m next a d = (t, d', (m', Ok tt)) -> snapshot_ m' = stamped m next.
Proof.
  unfold Commit. destruct (poisoned_ m); [done|]. destruct (_ =? u64_max); [done|]. cbv zeta.
  destruct (EncodePartitionInternal _ _); [|done]. intros H.
  destruct (AtomicWriteManifest a (root_ m) _ d) as [[t1 d1] [[]|e]]; [|done]. by injection H as _ _ <-.
Qed.

Lemma AddSegment_listed m e a d t d' m' : relative_path e = SegmentRelativePath (entry_segment_id e) ->
  AddSegment m e a d = (t, d', (m', Ok tt)) -> listed (snapshot_ m') (entry_segment_id e).
Proof.
  intros Hp H. unfold AddSegment in H. destruct (poisoned_ m); [done|]. apply Commit_stamps in H as ->.
  exists (length (segments (snapshot_ m))), e. cbn. split; [|done]. rewrite lookup_app_r by lia. by rewrite Nat.sub_diag.
Qed.

Lemma UpdateCheckpoint_current m c a d t d' m' : UpdateCheckpoint m c a d = (t, d', (m', Ok tt)) ->
  snapshot_checkpoint (snapshot_ m') = Some c.
Proof.
  unfold UpdateCheckpoint. cbv zeta. intros H.
  destruct (snapshot_checkpoint (snapshot_ m)) as [current|] eqn:E; [|by apply Commit_stamps in H as ->].
  destruct (moves_backward c current); [done|]. case_bool_decide; [|by apply Commit_stamps in H as ->].
  unfold answer in H. injection H as _ _ <-. congruence.
Qed.

(** *** Calls to the segment writer *)

Context (Ho : options_typed (segment_options o)).

Lemma books_synced_disk h so rs nw nd pos w : books h so rs nw nd pos w -> synced (world w) `prefix_of` disk (world w).
Proof.
  intros Hb. destruct (bk_synced _ _ _ _ _ _ _ Hb) as [[-> _]| ->]; [by apply prefix_nil|].
  rewrite (bk_disk _ _ _ _ _ _ _ Hb). apply prefix_app. rewrite <- stream_take.
  pose proof (bk_pos _ _ _ _ _ _ _ Hb) as Hp. pose proof (end_of_mono rs nd nw (bk_nd _ _ _ _ _ _ _ Hb)) as Hm.
  exists (take (pos - end_of rs nd) (drop (end_of rs nd) (records_bytes rs))). rewrite take_take_drop. f_equal. lia.
Qed.

Lemma reaches_synced_disk path h rs w : reaches strerror path system_limit h (segment_options o) rs w ->
  synced (world w) `prefix_of` disk (world w).
Proof.
  intros H. destruct (reaches_settled strerror path system_limit h _ rs w Ho H) as (Hs & _).
  destruct (settled_books _ _ _ _ Hs) as (nw & nd & pos & Hb). by eapply books_synced_disk.
Qed.

Lemma in_file_prefix f f' p : closed_synced f `prefix_of` closed_synced f' -> in_file f p -> in_file f' p.
Proof.
  intros Hf (h & rs & i & r & H1 & H2 & H3 & H4 & H5 & H6 & H7 & H8). exists h, rs, i, r. split_and!; try done. by etrans.
Qed.

Lemma chron_segment past closed exact exact' s w e w' :
  chron past closed exact s -> segment_writer_ (topic s) = Some w -> active_segment_ (topic s) = Some e ->
  (forall rs, reaches strerror (path_of e) system_limit (header_of e) (segment_options o) rs w ->
     contiguous (entry_first_sequence e) rs -> slack_ok exact rs (active_acks_ (topic s)) ->
     exists rs', reaches strerror (path_of e) system_limit (header_of e) (segment_options o) rs' w' /\ rs `prefix_of` rs' /\
       contiguous (entry_first_sequence e) rs' /\ slack_ok exact' rs' (active_acks_ (topic s))) ->
  grows w w' -> (exact' <> Loose -> exact <> Loose) ->
  chron past closed exact' (set_topic (set_running (Some w') (topic s)) s).
Proof.
  intros [C1 C2 C3 C4 C5 C6 C7 C8 C9 C10] Hw He Hrs Hg Hx. rewrite Hw, He in C7.
  destruct C7 as (rs & H1 & H2 & H3 & H4 & H5 & H6 & H7). destruct (Hrs rs H1 H2 H5) as (rs' & R1 & [more R2] & R3 & R4).
  split; try done; cbn [set_topic set_running set_segment topic active_acks_ written_ack_count_ durable_ack_count_ segment_writer_
    active_segment_ acks next_segment_id_ files].
  - eapply list.Forall_impl; [exact C5|]. intros p ((f & Hf & Hin) & Hl & Hm). split_and!; [|done|done].
    unfold current_file in *. rewrite Hw, He in Hf. cbn [set_topic set_running set_segment topic segment_writer_ active_segment_ files].
    rewrite He. case_decide; [|by exists f]. injection Hf as <-. eexists. split; [done|]. eapply in_file_prefix; [|done].
    cbn [close_file closed_synced]. by eapply grows_synced, reaches_synced_disk.
  - rewrite He. exists rs'. subst rs'. split_and!; try done; try apply H7.
    + rewrite length_app. cbn [set_topic set_running set_segment topic active_acks_]. lia.
    + intros i p Hp. destruct (H6 i p Hp) as (r & Hr & Hm). exists r. split; [|done]. by apply lookup_app_l_Some.
  - intros Hne. by apply C9, Hx.
Qed.

(** Everything but the active segment writer stays. *)
Record wrote (s s' : Frame) (w' : Running) : Prop := {
  wr_topic : topic s' = set_running (Some w') (topic s);
  wr_manifest : manifest s' = manifest s; wr_files : files s' = files s; wr_linked : linked s' = linked s;
  wr_acks : acks s' = acks s
}.

Lemma after_segment {A} (f : string -> WriterM A) s past closed exact w e (Post : A -> Frame -> Prop) Fail :
  chron past closed exact s -> segment_writer_ (topic s) = Some w -> active_segment_ (topic s) = Some e ->
  (forall s' w' writes syncs r,
     f (path_of e) (with_answers writes syncs w) = (w', r) -> wrote s s' w' ->
     manifest_disk s' = manifest_disk s ->
     match r with Ok a => Post a s' | Err _ => Fail s' end) ->
  after s (on_segment f) Post Fail.
Proof.
  intros Hc Hw He H. unfold after, on_segment, tbind, next_answers. set (a := default smooth (head (env s))). cbn [topic].
  rewrite Hw, He, (ch_options _ _ _ _ Hc). fold (path_of e).
  destruct (f (path_of e) (with_answers (segment_writes a) (segment_syncs a) w)) as [w' r] eqn:Ef.
  set (s' := set_topic (set_running (Some w') (topic s)) _).
  assert (wrote s s' w') as Hs by (by split). specialize (H s' w' _ _ r Ef Hs eq_refl). by destruct r.
Qed.

Lemma wrote_chron past closed exact exact' s s' w e w' :
  chron past closed exact s -> segment_writer_ (topic s) = Some w -> active_segment_ (topic s) = Some e ->
  wrote s s' w' -> manifest_disk s' = manifest_disk s ->
  (forall rs, reaches strerror (path_of e) system_limit (header_of e) (segment_options o) rs w ->
     contiguous (entry_first_sequence e) rs -> slack_ok exact rs (active_acks_ (topic s)) ->
     exists rs', reaches strerror (path_of e) system_limit (header_of e) (segment_options o) rs' w' /\ rs `prefix_of` rs' /\
       contiguous (entry_first_sequence e) rs' /\ slack_ok exact' rs' (active_acks_ (topic s))) ->
  grows w w' -> (exact' <> Loose -> exact <> Loose) -> chron past closed exact' s'.
Proof.
  intros Hc Hw He [W1 W2 W3 W4 W5] W6 Hrs Hg Hx.
  pose proof (chron_segment past closed exact exact' s w e w' Hc Hw He Hrs Hg Hx) as H.
  eapply chron_view; [|exact H]. by split; rewrite ?W1; cbn.
Qed.

Lemma grows_answers writes syncs w w' : grows (with_answers writes syncs w) w' -> grows w w'.
Proof. done. Qed.

Lemma flush_chron past closed exact s s' w e w' writes syncs now r :
  chron past closed exact s -> segment_writer_ (topic s) = Some w -> active_segment_ (topic s) = Some e ->
  wrote s s' w' -> manifest_disk s' = manifest_disk s ->
  Flush strerror (path_of e) system_limit now (with_answers writes syncs w) = (w', r) -> chron past closed exact s'.
Proof.
  intros Hc Hw He Hwr Hd Hf. eapply wrote_chron; try done.
  - intros rs R1 R2 R3. exists rs. split_and!; try done. by eapply reach_flush.
  - apply (grows_answers writes syncs). pose proof (Flush_grows strerror (path_of e) system_limit now (with_answers writes syncs w)) as H.
    by rewrite Hf in H.
Qed.

Lemma seal_chron past closed exact s s' w e w' writes syncs now r :
  chron past closed exact s -> segment_writer_ (topic s) = Some w -> active_segment_ (topic s) = Some e ->
  wrote s s' w' -> manifest_disk s' = manifest_disk s ->
  Seal strerror (path_of e) system_limit now (with_answers writes syncs w) = (w', r) -> chron past closed exact s'.
Proof.
  intros Hc Hw He Hwr Hd Hf. eapply wrote_chron; try done.
  - intros rs R1 R2 R3. exists rs. split_and!; try done. by eapply reach_seal.
  - apply (grows_answers writes syncs). pose proof (Seal_grows strerror (path_of e) system_limit now (with_answers writes syncs w)) as H.
    by rewrite Hf in H.
Qed.

(** An append takes the record or not, and says which when it succeeds. *)
Lemma append_chron past closed s s' w e w' writes syncs now record r :
  chron past closed Exact s -> segment_writer_ (topic s) = Some w -> active_segment_ (topic s) = Some e ->
  wrote s s' w' -> manifest_disk s' = manifest_disk s -> header_typed (header record) ->
  ingestion_sequence (header record) = entry_first_sequence e + zlen (active_acks_ (topic s)) ->
  Append strerror (path_of e) system_limit record now (with_answers writes syncs w) = (w', r) ->
  match r with
  | Ok res => if records_accepted res =? 1 then chron past closed (Ahead record) s' else chron past closed Exact s'
  | Err _ => chron past closed Loose s'
  end.
Proof.
  intros Hc Hw He Hwr Hd Hty Hseq Hf.
  assert (grows w w') as Hg.
  { apply (grows_answers writes syncs). pose proof (AppendBatch_grows strerror (path_of e) system_limit [record] now
      (with_answers writes syncs w)) as H. unfold Append in Hf. by rewrite Hf in H. }
  assert (forall rs, reaches strerror (path_of e) system_limit (header_of e) (segment_options o) rs w ->
    exists k, (k <= 1)%nat /\ reaches strerror (path_of e) system_limit (header_of e) (segment_options o) (rs ++ take k [record]) w' /\
      forall res, r = Ok res -> records_accepted res = Z.of_nat k) as Hk.
  { intros rs R. destruct (reaches_settled _ _ _ _ _ _ _ Ho R) as (Hset & Hm & _).
    pose proof (AppendBatch_settled strerror (path_of e) system_limit (header_of e) (segment_options o) Hm rs [record] now _
      (settled_with_answers _ _ _ _ writes syncs Hset) ltac:(by constructor)) as H.
    unfold Append in Hf. rewrite Hf in H. destruct H as (k & Hk & _ & Hl & Hres). cbn [with_answers writer] in Hl.
    exists k. split_and!; [done | | by intros res E; apply Hres].
    pose proof (reach_append strerror (path_of e) system_limit _ _ rs w [record] now writes syncs w' r R ltac:(by constructor) Hf) as H.
    by replace (Z.to_nat (logical_records_ (writer w') - logical_records_ (writer w))) with k in H by lia. }
  assert (forall exact',
    (forall rs k, length rs = length (active_acks_ (topic s)) -> (k <= 1)%nat ->
       (forall res, r = Ok res -> records_accepted res = Z.of_nat k) ->
       slack_ok exact' (rs ++ take k [record]) (active_acks_ (topic s))) ->
    chron past closed exact' s') as Hfin.
  { intros exact' Hsl. eapply (wrote_chron past closed Exact exact'); try done.
    intros rs R1 R2 R3. destruct (Hk rs R1) as (k & Hk1 & Hr & Hres). exists (rs ++ take k [record]).
    split_and!; [done | by apply prefix_app_r | | by apply Hsl].
    intros i x Hx. apply lookup_app_Some in Hx as [Hx|[Hi Hx]]; [by apply R2|].
    destruct k as [|[|k]]; [done| |lia]. destruct (i - length rs)%nat eqn:Ei; [|done]. injection Hx as <-. cbn in R3.
    rewrite Hseq. unfold zlen. lia. }
  destruct r as [res|err]; [|by apply Hfin].
  destruct (Z.eqb_spec (records_accepted res) 1) as [E|E]; apply Hfin; intros rs k Hl Hk1 Hres; specialize (Hres res eq_refl).
  - assert (k = 1%nat) as -> by lia. cbn [take slack_ok]. rewrite length_app. split; [cbn; lia|].
    rewrite lookup_app_r by lia. by rewrite Hl, Nat.sub_diag.
  - assert (k = 0%nat) as -> by lia. cbn [take slack_ok]. by rewrite app_nil_r.
Qed.

(** *** Acknowledgements *)

Lemma ahead_push past closed s e p r : chron past closed (Ahead r) s -> active_segment_ (topic s) = Some e ->
  matches p r -> pending_segment_id p = entry_segment_id e ->
  chron past closed Exact (set_topic (set_acks (active_acks_ (topic s) ++ [p]) (written_ack_count_ (topic s))
                             (durable_ack_count_ (topic s)) (topic s)) s).
Proof.
  intros [C1 C2 C3 C4 C5 C6 C7 C8 C9 C10] He Hm Hid. rewrite He in C7.
  destruct (segment_writer_ (topic s)) as [w|] eqn:Hw; [|done].
  destruct C7 as (rs & H1 & H2 & H3 & H4 & [H5 H5'] & H6 & H7 & H8 & H9 & H10).
  set (aa := active_acks_ (topic s)) in *.
  assert (forall n, (n <= length aa)%nat -> take (length closed + n) (closed ++ aa ++ [p]) = take (length closed + n) (closed ++ aa)) as Ht.
  { intros n Hn. rewrite !take_app_add. by rewrite take_app_le. }
  split; try done; cbn [set_topic set_acks set_segment topic active_acks_ written_ack_count_ durable_ack_count_ acks].
  - by rewrite Ht by lia.
  - by rewrite Ht by lia.
  - rewrite Ht by lia. eapply list.Forall_impl; [exact C5|]. intros q. by apply stored_ext.
  - rewrite length_app. lia.
  - cbn [set_acks set_segment segment_writer_ active_segment_]. rewrite Hw, He. exists rs.
    cbn [set_topic set_acks set_segment topic active_acks_ files linked manifest next_segment_id_].
    split_and!; try done; try apply H10.
    + rewrite length_app. cbn [length]. lia.
    + cbn [slack_ok]. rewrite length_app. cbn [length]. lia.
    + intros i q Hq. apply lookup_app_Some in Hq as [Hq|[Hi Hq]]; [by apply H6|].
      destruct (i - length aa)%nat eqn:E; [|done]. injection Hq as <-. exists r.
      assert (i = length aa) as -> by lia. done.
    + apply list.Forall_app. split; [done|by constructor].
  - intros i q Hq. rewrite app_assoc in Hq. apply lookup_app_Some in Hq as [Hq|[Hi Hq]]; [by apply C8|].
    destruct (i - length (closed ++ aa))%nat eqn:E; [|done]. injection Hq as <-. rewrite length_app in *.
    rewrite (mt_sequence _ _ Hm), (H2 _ _ H5'), H3. unfold zlen. lia.
  - intros _. by apply C9.
Qed.

Lemma after_push_written past closed exact s Post Fail : chron past closed exact s ->
  (forall s', chron past closed exact s' ->
     topic s' = set_acks (active_acks_ (topic s)) (length (active_acks_ (topic s))) (durable_ack_count_ (topic s)) (topic s) ->
     Post tt s') -> after s push_written Post Fail.
Proof.
  intros Hc HP. unfold push_written. apply after_bind, after_get. apply after_bind. unfold after at 1, push_acks.
  unfold after, tmodify. cbn [topic]. pose proof Hc as [C1 C2 C3 C4 C5 C6 C7 C8 C9 C10].
  rewrite Nat.max_r by lia. apply HP; [|done].
  split; try done; cbn [set_topic set_acks set_segment topic active_acks_ written_ack_count_ durable_ack_count_ acks].
  - rewrite app_assoc, at_level_app, at_level_same, C3, !take_app_add, <- fmap_app, <- app_assoc, take_drop.
    by rewrite (take_ge (active_acks_ (topic s))) by done.
  - by rewrite app_assoc, at_level_app, at_level_other, app_nil_r.
  - lia.
Qed.

Lemma admitted_typed h l rs : forall last i r, admitted h l last rs -> rs !! i = Some r -> header_typed (header r).
Proof.
  induction rs as [|x rs IH]; intros last i r Ha Hi; [done|]. destruct Ha as (H1 & _ & _ & _ & _ & Ha).
  destruct i; [by injection Hi as <-|]. by eapply IH.
Qed.

(** What the invariant says of the active segment. *)
Record active_facts (closed : list PendingAck) (exact : Slack) (s : Frame) (w : Running) (e : SegmentManifestEntry)
    (rs : list SegmentRecord) : Prop := {
  af_reach : reaches strerror (path_of e) system_limit (header_of e) (segment_options o) rs w;
  af_admitted : admitted (header_of e) (writer_limits (segment_options o)) None rs;
  af_contiguous : contiguous (entry_first_sequence e) rs;
  af_slack : slack_ok exact rs (active_acks_ (topic s));
  af_matches : forall i p, active_acks_ (topic s) !! i = Some p -> exists r, rs !! i = Some r /\ matches p r;
  af_logical : is_u64 (logical_bytes_ (writer w));
  af_durable : is_u64 (durable_bytes_ (writer w));
  af_synced : (Z.to_nat (durable_records_ (writer w)) <= length rs)%nat /\ 0 <= durable_records_ (writer w) /\
    (durable_records_ (writer w) = 0 \/
     synced (world w) = segment_bytes (header_of e) ++ records_bytes (take (Z.to_nat (durable_records_ (writer w))) rs));
  af_flags : reserved_bits (segment_flags (header_of e)) kKnownSegmentFlags = false;
  af_typed : segment_typed (header_of e);
  af_entry : entry_typed e;
  af_path : relative_path e = SegmentRelativePath (entry_segment_id e);
  af_ids : Forall (fun p => pending_segment_id p = entry_segment_id e) (active_acks_ (topic s));
  af_linked : entry_segment_id e ∈ linked s;
  af_listed : listed (snapshot_ (manifest s)) (entry_segment_id e);
  af_first : entry_first_sequence e = first0 + zlen closed
}.

Lemma chron_active past closed exact s w e : chron past closed exact s -> segment_writer_ (topic s) = Some w ->
  active_segment_ (topic s) = Some e -> exists rs, active_facts closed exact s w e rs.
Proof.
  intros [C1 C2 C3 C4 C5 C6 C7 C8 C9 C10] Hw He. rewrite Hw, He in C7.
  destruct C7 as (rs & H1 & H2 & H3 & H4 & H5 & H6 & H7 & H8 & H9 & H10 & H11 & H12 & H13 & H14). exists rs.
  destruct (reaches_settled _ _ _ _ _ _ _ Ho H1) as (Hset & _ & Hfl). destruct Hset as (Hwi & Ha & Hset).
  destruct (settled_books (header_of e) (segment_options o) rs w) as (nw & nd & pos & Hb); [by split_and!|].
  pose proof (bk_bound _ _ _ _ _ _ _ Hb) as Hbound. pose proof (bk_nd _ _ _ _ _ _ _ Hb). pose proof (bk_nw _ _ _ _ _ _ _ Hb).
  split; try done.
  - rewrite (bk_logical _ _ _ _ _ _ _ Hb). ulia.
  - rewrite (bk_durable _ _ _ _ _ _ _ Hb). pose proof (prefix_length _ _ (books_synced_disk _ _ _ _ _ _ _ Hb)) as Hl.
    rewrite (bk_disk _ _ _ _ _ _ _ Hb), length_app, segment_bytes_length in Hl. pose proof (length_take (records_bytes rs) pos). ulia.
  - rewrite (bk_durable_records _ _ _ _ _ _ _ Hb). split_and!; [lia | lia|]. rewrite Nat2Z.id.
    destruct (bk_synced _ _ _ _ _ _ _ Hb) as [[_ ->]|E]; [by left|by right].
Qed.
End Log.
