(* ===== verification/TopicSteps.v ===== *)
(** * The steps of a topic writer

    Every locked operation of the topic writer keeps the invariant of [TopicLog]: flushing, sealing, rotating,
    appending, and publishing what has become durable. *)
From S2P Require Import Prelude SourceIdentity Bytes Crc32c LittleEndian TopicPartition ManifestFormat ManifestCodec DurableFile PartitionManifest ManifestSafety SegmentFormat SegmentRecovery SegmentScan SegmentRepair SegmentWriter SegmentLog SegmentGrowth TopicWriter TopicLog.

Section Steps.
Context {P : Posix} {PL : PosixLaws P} {B : Crc32cBackend} {BL : Crc32cLaws B}.
Context (system_limit : Z) (o : TopicWriterOptions) (first0 : Z) (Ho : options_typed (segment_options o)).
Abbreviation chron := (chron system_limit o first0).
Abbreviation chron_active := (chron_active system_limit o first0 Ho).

Ltac frame := cbn [set_topic set_acks set_active set_running set_segment topic manifest manifest_disk files linked acks counts
  topic_options_ active_acks_ written_ack_count_ durable_ack_count_ segment_writer_ active_segment_ next_segment_id_].

(** ** Publishing *)

Lemma chron_set_active past closed exact s e e' : chron past closed exact s -> active_segment_ (topic s) = Some e ->
  entry_segment_id e' = entry_segment_id e -> entry_first_sequence e' = entry_first_sequence e ->
  entry_created_at_ns e' = entry_created_at_ns e -> relative_path e' = relative_path e -> entry_typed e' ->
  chron past closed exact (set_topic (set_active (Some e') (topic s)) s).
Proof.
  intros [C1 C2 C3 C4 C5 C6 C7 C8 C9 C10] He E1 E2 E3 E4 Hty. rewrite He in C7.
  destruct (segment_writer_ (topic s)) as [w|] eqn:Hw; [|done].
  split; try done; frame.
  - eapply list.Forall_impl; [exact C5|]. intros p ((f & Hf & Hin) & Hl & Hm). split_and!; [|done|done]. exists f. split; [|done].
    unfold current_file in *. frame. rewrite Hw, He in Hf. by rewrite Hw, E1.
  - rewrite Hw. unfold writing, path_of, header_of in *. frame. rewrite E1, E2, E3, E4.
    destruct C7 as (rs & H1 & H2 & H3 & H4 & H5 & H6 & H7 & H8 & H9 & H10 & H11 & H12 & H13 & _). by exists rs.
Qed.

(** What publishing leaves alone. *)
Record published (s s' : Frame) : Prop := {
  pb_others : others (topic s') = others (topic s);
  pb_acks : active_acks_ (topic s') = active_acks_ (topic s);
  pb_writer : segment_writer_ (topic s') = segment_writer_ (topic s);
  pb_entry : entry_segment_id <$> active_segment_ (topic s') = entry_segment_id <$> active_segment_ (topic s)
}.
#[local] Instance published_preorder : PreOrder published.
Proof. split; [by split|]. intros s u v [] []. split; congruence. Qed.

Lemma published_topic s s' : topic s' = topic s -> published s s'.
Proof. intros E. split; by rewrite E. Qed.

Lemma pending_u64 past closed exact s w e p i : chron past closed exact s -> segment_writer_ (topic s) = Some w ->
  active_segment_ (topic s) = Some e -> active_acks_ (topic s) !! i = Some p -> is_u64 (pending_sequence p).
Proof.
  intros Hc Hw He Hp. destruct (chron_active _ _ _ _ _ _ Hc Hw He) as (rs & F).
  destruct (af_matches _ _ _ _ _ _ _ _ _ F i p Hp) as (r & Hr & Hm). rewrite (mt_sequence _ _ Hm).
  by destruct (admitted_typed _ _ _ _ _ _ (af_admitted _ _ _ _ _ _ _ _ _ F) Hr).
Qed.

(** The active entry with new bounds, in memory and in the manifest. *)
Definition moved_entry (e : SegmentManifestEntry) (st : SegmentPersistentState) (last sealed size : Z) : SegmentManifestEntry :=
  mkEntry (entry_segment_id e) st (entry_first_sequence e) last (entry_created_at_ns e) sealed size (relative_path e).

Lemma after_move_entry past closed exact s w e last st sealed : chron past closed exact s -> segment_writer_ (topic s) = Some w ->
  active_segment_ (topic s) = Some e -> list.last (active_acks_ (topic s)) = Some last ->
  segment_state_of (segment_state_value st) = st -> is_u64 sealed ->
  let e' := moved_entry e st (pending_sequence last) sealed (logical_bytes_ (writer w)) in
  after s (tbind (tmodify (set_active (Some e'))) (fun _ => on_manifest (fun m => UpdateSegment m e')))
    (fun _ s' => chron past closed exact s' /\ published s s' /\ acks s' = acks s /\
       written_ack_count_ (topic s') = written_ack_count_ (topic s) /\ durable_ack_count_ (topic s') = durable_ack_count_ (topic s))
    (fun s' => chron past closed exact s' /\ published s s').
Proof.
  intros Hc Hw He Hl Hst Hsealed e'. apply after_bind. unfold after at 1, tmodify. set (s1 := set_topic _ s).
  destruct (chron_active _ _ _ _ _ _ Hc Hw He) as (rs & F).
  assert (entry_typed e') as Hty.
  { destruct (af_entry _ _ _ _ _ _ _ _ _ F). rewrite list.last_lookup in Hl.
    split; try done; [by eapply pending_u64 | apply (af_logical _ _ _ _ _ _ _ _ _ F)]. }
  assert (chron past closed exact s1) as Hc1 by (by eapply chron_set_active).
  assert (published s s1) as Hp by (split; try done; frame; by rewrite He).
  eapply after_manifest; [exact Hc1 | | |].
  - intros a. destruct (UpdateSegment_keeps (manifest s1) (kp_typed _ _ (ch_manifest _ _ _ _ _ _ _ Hc1)) e' a Hty) as (next & Hk & _).
    by exists next.
  - intros s' a t Hc' Et Ea _ _ _. split_and!; [done | etrans; [exact Hp|by apply published_topic] | done | by rewrite Et | by rewrite Et].
  - intros s' Hc' Et _. split; [done|]. etrans; [exact Hp|by apply published_topic].
Qed.

Lemma after_UpdateOpen past closed exact s : chron past closed exact s ->
  after s UpdateOpenManifestLocked (fun _ s' => chron past closed exact s' /\ published s s' /\ acks s' = acks s /\
      written_ack_count_ (topic s') = written_ack_count_ (topic s) /\ durable_ack_count_ (topic s') = durable_ack_count_ (topic s))
    (fun s' => chron past closed exact s' /\ published s s').
Proof.
  intros Hc. unfold UpdateOpenManifestLocked. apply after_bind, after_get.
  destruct (segment_writer_ (topic s)) as [w|] eqn:Hw; [|by apply after_ret].
  destruct (active_segment_ (topic s)) as [e|] eqn:He; [|by apply after_ret].
  destruct (list.last (active_acks_ (topic s))) as [last|] eqn:Hl; [|by apply after_ret].
  destruct (chron_active _ _ _ _ _ _ Hc Hw He) as (rs & F). destruct (af_entry _ _ _ _ _ _ _ _ _ F).
  by apply after_move_entry.
Qed.

(** What a durable record needs to count as stored. *)
Lemma durable_stored past closed exact s w e i p : chron past closed exact s -> segment_writer_ (topic s) = Some w ->
  active_segment_ (topic s) = Some e -> active_acks_ (topic s) !! i = Some p ->
  (i < Z.to_nat (durable_records_ (writer w)))%nat ->
  (exists c, snapshot_checkpoint (snapshot_ (manifest s)) = Some c /\ pending_sequence p <= durable_sequence c) -> stored o s p.
Proof.
  intros Hc Hw He Hp Hi Hck. destruct (chron_active _ _ _ _ _ _ Hc Hw He) as (rs & [F1 F2 F3 F4 F5 F6 F7 F8 F9 F10 F11 F12 F13 F14 F15 F16]).
  assert (pending_segment_id p = entry_segment_id e) as Hid by (by eapply list.Forall_lookup_1 in F13).
  split_and!; [|by rewrite Hid | split; [by rewrite Hid | done]].
  exists (close_file w). split.
  { unfold current_file. rewrite Hw, He. by rewrite decide_True. }
  destruct (F5 i p Hp) as (r & Hr & Hm). destruct F8 as (D1 & D2 & [D3|D3]); [lia|].
  exists (header_of o e), rs, i, r. split_and!; try done; [by eexists _, _|]. cbn [close_file closed_synced]. rewrite D3. apply prefix_app.
  set (nd := Z.to_nat _) in *. rewrite <- !stream_take. pose proof (end_of_mono rs (S i) nd ltac:(lia)) as Hle.
  exists (take (end_of rs nd - end_of rs (S i)) (drop (end_of rs (S i)) (records_bytes rs))). rewrite take_take_drop. f_equal. lia.
Qed.

Lemma push_durable past closed exact s s' w e n : chron past closed exact s -> segment_writer_ (topic s) = Some w ->
  active_segment_ (topic s) = Some e -> written_ack_count_ (topic s) = length (active_acks_ (topic s)) ->
  n = Z.to_nat (durable_records_ (writer w)) -> (durable_ack_count_ (topic s) <= n <= length (active_acks_ (topic s)))%nat ->
  (forall i p, (i < n)%nat -> active_acks_ (topic s) !! i = Some p ->
     exists c, snapshot_checkpoint (snapshot_ (manifest s)) = Some c /\ pending_sequence p <= durable_sequence c) ->
  topic s' = set_acks (active_acks_ (topic s)) (written_ack_count_ (topic s)) n (topic s) ->
  acks s' = acks s ++ (ack_at kAckDurable <$> drop (durable_ack_count_ (topic s)) (take n (active_acks_ (topic s)))) ->
  manifest s' = manifest s -> manifest_disk s' = manifest_disk s -> files s' = files s -> linked s' = linked s ->
  chron past closed exact s'.
Proof.
  intros Hc Hw He Hfull Hn Hd Hck E1 E2 E3 E4 E5 E6. pose proof Hc as [C1 C2 C3 C4 C5 C6 C7 C8 C9 C10].
  assert (forall p, stored o s p -> stored o s' p) as Hst.
  { intros p. apply stored_ext; by rewrite ?E1. }
  split; rewrite ?E1, ?E2, ?E3, ?E4, ?E5; frame; try done.
  - by rewrite app_assoc, at_level_app, at_level_other, app_nil_r.
  - rewrite app_assoc, at_level_app, at_level_same, C4, !take_app_add, <- fmap_app, <- app_assoc. do 2 f_equal.
    replace (take (durable_ack_count_ (topic s)) (active_acks_ (topic s)))
      with (take (durable_ack_count_ (topic s)) (take n (active_acks_ (topic s)))) by (rewrite take_take; f_equal; lia).
    apply take_drop.
  - rewrite take_app_add in *. apply list.Forall_app in C5 as [C5 _]. apply list.Forall_app. split.
    { eapply list.Forall_impl; [exact C5|done]. }
    apply list.Forall_lookup_2. intros i p [Hp Hi]%lookup_take_Some. apply Hst.
    apply (durable_stored past closed exact s w e i p); try done; [lia|]. by apply (Hck i).
  - lia.
  - rewrite Hw, He in *. unfold writing. by rewrite E1, E3, E5, E6.
Qed.

Lemma after_Publish past closed exact s : chron past closed exact s ->
  written_ack_count_ (topic s) = length (active_acks_ (topic s)) ->
  after s PublishDurabilityLocked (fun _ s' => chron past closed exact s' /\ published s s' /\
      (forall w, segment_writer_ (topic s) = Some w -> Z.to_nat (durable_records_ (writer w)) <= durable_ack_count_ (topic s'))%nat)
    (fun s' => chron past closed exact s' /\ published s s').
Proof.
  intros Hc Hfull. unfold PublishDurabilityLocked. apply after_bind, after_get.
  destruct (segment_writer_ (topic s)) as [w|] eqn:Hw; [|by apply after_ret].
  destruct (active_segment_ (topic s)) as [e|] eqn:He.
  2: { pose proof (ch_active _ _ _ _ _ _ _ Hc) as H. by rewrite Hw, He in H. }
  cbv zeta. apply after_when; [done|]. intros Hle. bool_to_prop. set (n := Z.to_nat _).
  destruct (Nat.leb_spec n (durable_ack_count_ (topic s))) as [Hd|Hd].
  { apply after_ret. split_and!; [done | done |]. by intros w' [= <-]. }
  apply after_bind. eapply after_mono; [by apply after_UpdateOpen | | done]. intros [] s1 (Hc1 & Hp1 & Ea1 & Ew1 & Ed1).
  assert (n <= length (active_acks_ (topic s)))%nat as Hn by (unfold zlen in Hle; lia).
  destruct (active_acks_ (topic s) !! (n - 1)%nat) as [last|] eqn:Hl; [|apply after_throw; done].
  pose proof (pb_writer _ _ Hp1) as Hw1. pose proof (pb_acks _ _ Hp1) as Hk1. rewrite Hw in Hw1.
  destruct (active_segment_ (topic s1)) as [e1|] eqn:He1.
  2: { pose proof (ch_active _ _ _ _ _ _ _ Hc1) as H. by rewrite Hw1, He1 in H. }
  pose proof (pb_entry _ _ Hp1) as Hid. rewrite He, He1 in Hid. injection Hid as Hid.
  destruct (chron_active _ _ _ _ _ _ Hc Hw He) as (rs & F).
  assert (checkpoint_typed (mkDurableCheckpoint (entry_segment_id e) (durable_bytes_ (writer w)) (pending_sequence last))) as Hty.
  { split_and!; cbn; [apply (af_entry _ _ _ _ _ _ _ _ _ F) | apply (af_durable _ _ _ _ _ _ _ _ _ F) |].
    by apply (pending_u64 past closed exact s w e last (n - 1)). }
  apply after_bind. eapply after_manifest; [exact Hc1 | | |].
  - intros a. eexists. by apply UpdateCheckpoint_keeps; [apply (ch_manifest _ _ _ _ _ _ _ Hc1)|].
  - intros s2 a t Hc2 Et2 Ea2 Ef2 El2 Hup. apply UpdateCheckpoint_current in Hup.
    apply after_bind. unfold after at 1, push_acks. unfold after, tmodify. frame.
    split_and!.
    + eapply (push_durable past closed exact s2 _ w e1 n Hc2); frame; rewrite ?Et2; try done; try congruence; try lia.
      * rewrite Hk1, Ed1. lia.
      * intros i p Hi Hp. eexists. split; [exact Hup|]. cbn [durable_sequence].
        pose proof (ch_sequence _ _ _ _ _ _ _ Hc (length closed + i) p) as Hs1.
        pose proof (ch_sequence _ _ _ _ _ _ _ Hc (length closed + (n - 1)) last) as Hs2.
        rewrite lookup_app_r, Nat.add_comm, Nat.add_sub in Hs1, Hs2 by lia. rewrite Hk1 in Hp.
        rewrite (Hs1 Hp), (Hs2 Hl). lia.
    + split; frame; rewrite Et2; apply Hp1.
    + by intros w' [= <-].
  - intros s2 Hc2 Et2 _. split; [done|]. etrans; [exact Hp1|by apply published_topic].
Qed.

(** ** Flushing and sealing *)

(** The story stays, the writer is not touched outside its segment. *)
Record within_story (past : list TopicWriterAck) (closed : list PendingAck) (exact : Slack) (s s' : Frame) : Prop := {
  ws_chron : chron past closed exact s';
  ws_others : others (topic s') = others (topic s);
  ws_acks : active_acks_ (topic s') = active_acks_ (topic s)
}.
Lemma published_within past closed exact s s' : chron past closed exact s' -> published s s' -> within_story past closed exact s s'.
Proof. intros Hc []. by split. Qed.
Lemma within_trans past closed exact exact' s u v : within_story past closed exact s u -> within_story past closed exact' u v ->
  within_story past closed exact' s v.
Proof. intros [] []. split; [done | congruence..]. Qed.

Lemma active_known past closed exact s w : chron past closed exact s -> segment_writer_ (topic s) = Some w ->
  exists e, active_segment_ (topic s) = Some e.
Proof.
  intros Hc Hw. pose proof (ch_active _ _ _ _ _ _ _ Hc) as H. rewrite Hw in H. destruct (active_segment_ (topic s)); by eauto.
Qed.

Lemma wrote_within past closed exact s s' w' : wrote s s' w' -> chron past closed exact s' -> within_story past closed exact s s'.
Proof. intros [W1 W2 W3 W4 W5] Hc. split; [done | by rewrite W1..]. Qed.

Lemma after_push_written_within past closed exact s : chron past closed exact s ->
  after s push_written (fun _ s' => within_story past closed exact s s' /\ written_ack_count_ (topic s') = length (active_acks_ (topic s')) /\
      segment_writer_ (topic s') = segment_writer_ (topic s) /\ active_segment_ (topic s') = active_segment_ (topic s))
    (fun _ => False).
Proof. intros Hc. eapply after_push_written; [exact Hc|]. intros s' Hc' E. split_and!; [split; [done|..]|..]; by rewrite E. Qed.

Lemma after_Flush past closed exact s now : chron past closed exact s ->
  after s (FlushCurrentLocked system_limit now) (fun _ => within_story past closed exact s) (within_story past closed exact s).
Proof.
  intros Hc. unfold FlushCurrentLocked. apply after_bind, after_get.
  destruct (segment_writer_ (topic s)) as [w|] eqn:Hw; [|by apply after_ret].
  destruct (active_known _ _ _ _ _ Hc Hw) as (e & He). apply after_bind.
  eapply after_segment; [exact Hc | exact Hw | exact He|]. intros s1 w1 writes syncs r Hf Hwr Hd.
  assert (within_story past closed exact s s1) as H1.
  { eapply wrote_within; [exact Hwr|]. by eapply flush_chron. }
  destruct r as [[]|err]; [|done]. apply after_bind.
  eapply after_mono; [eapply after_push_written_within, H1 | | done]. intros [] s2 (H2 & Hfull & _).
  eapply after_mono; [by eapply after_Publish; [apply H2|] | |].
  - intros [] s3 (Hc3 & Hp3 & _). eapply within_trans; [exact H1|]. eapply within_trans; [exact H2|]. by apply published_within.
  - intros s3 (Hc3 & Hp3). eapply within_trans; [exact H1|]. eapply within_trans; [exact H2|]. by apply published_within.
Qed.

Lemma sealed_durable past closed s w e : chron past closed Exact s -> segment_writer_ (topic s) = Some w ->
  active_segment_ (topic s) = Some e -> writer_state_ (writer w) = kSealed ->
  Z.to_nat (durable_records_ (writer w)) = length (active_acks_ (topic s)).
Proof.
  intros Hc Hw He Hs. destruct (chron_active _ _ _ _ _ _ Hc Hw He) as (rs & F).
  destruct (reaches_settled _ _ _ _ _ _ _ Ho (af_reach _ _ _ _ _ _ _ _ _ F)) as ((_ & _ & Hset) & _). rewrite Hs in Hset.
  destruct Hset as [Hb _]. rewrite (bk_durable_records _ _ _ _ _ _ _ Hb), Nat2Z.id. apply (af_slack _ _ _ _ _ _ _ _ _ F).
Qed.

(** The active segment becomes a closed one when all its records are durable. *)
Lemma chron_close past closed s s' w e : chron past closed Exact s -> segment_writer_ (topic s) = Some w ->
  active_segment_ (topic s) = Some e -> durable_ack_count_ (topic s) = length (active_acks_ (topic s)) ->
  topic s' = set_segment (next_segment_id_ (topic s)) None None [] 0 0 (topic s) ->
  files s' = <[entry_segment_id e := close_file w]> (files s) ->
  manifest s' = manifest s -> manifest_disk s' = manifest_disk s -> linked s' = linked s -> acks s' = acks s ->
  chron past (closed ++ active_acks_ (topic s)) Exact s'.
Proof.
  intros [C1 C2 C3 C4 C5 C6 C7 C8 C9 C10] Hw He Hd E1 E2 E3 E4 E5 E6.
  rewrite Hw, He in C7. destruct C7 as (rs & _ & _ & _ & _ & _ & _ & _ & _ & _ & _ & _ & _ & Hnext & _).
  assert (forall n l, n = length l -> take (length closed + n) (closed ++ l) = (closed ++ l : list PendingAck)) as Hall.
  { intros n l ->. apply take_ge. rewrite length_app. lia. }
  rewrite Hall in C3 by lia. rewrite Hall in C4, C5 by lia.
  split; rewrite ?E1, ?E3, ?E4, ?E6; frame; rewrite ?app_nil_r, ?Nat.add_0_r; try done.
  - rewrite take_ge by done. done.
  - rewrite take_ge by done. done.
  - rewrite take_ge by done. eapply list.Forall_impl; [exact C5|]. intros p ((f & Hf & Hin) & Hl & Hm).
    split_and!; [|by rewrite E5 | by rewrite E3]. exists f. split; [|done]. unfold current_file in *. rewrite E1, E2. frame.
    rewrite Hw, He in Hf. case_decide as Hid; [|by rewrite lookup_insert_ne]. rewrite <- Hid. by rewrite lookup_insert_eq.
  - intros _ id f. rewrite E2. intros [[<- _]|[_ H]]%lookup_insert_Some; [done|]. by apply (C9 ltac:(done) id f).
Qed.

Lemma after_close past closed s w e counted : chron past closed Exact s -> segment_writer_ (topic s) = Some w ->
  active_segment_ (topic s) = Some e -> durable_ack_count_ (topic s) = length (active_acks_ (topic s)) ->
  after s (tbind (close_segment (entry_segment_id e) w) (fun _ =>
           tbind (tmodify (fun t => set_segment (next_segment_id_ t) None None [] 0 0 t)) (fun _ =>
           if counted : bool then add_counts 0 0 0 0 0 1 else tret tt)))
    (fun _ s' => chron past (closed ++ active_acks_ (topic s)) Exact s' /\ others (topic s') = others (topic s) /\
                 segment_writer_ (topic s') = None /\ active_acks_ (topic s') = []) (fun _ => False).
Proof.
  intros Hc Hw He Hd. apply after_bind. unfold after at 1, close_segment. apply after_bind. unfold after at 1, tmodify. frame.
  assert (forall s', topic s' = set_segment (next_segment_id_ (topic s)) None None [] 0 0 (topic s) ->
    files s' = <[entry_segment_id e := close_file w]> (files s) -> manifest s' = manifest s ->
    manifest_disk s' = manifest_disk s -> linked s' = linked s -> acks s' = acks s ->
    chron past (closed ++ active_acks_ (topic s)) Exact s' /\ others (topic s') = others (topic s) /\
    segment_writer_ (topic s') = None /\ active_acks_ (topic s') = []) as H.
  { intros s' E1 E2 E3 E4 E5 E6. split_and!; [by eapply chron_close | by rewrite E1..]. }
  destruct counted; [unfold after, add_counts | apply after_ret]; by apply H.
Qed.

(** Sealing the segment file makes all its records durable. *)
Lemma after_seal_file past closed s w e now : chron past closed Exact s -> segment_writer_ (topic s) = Some w ->
  active_segment_ (topic s) = Some e ->
  after s (on_segment (fun path => Seal strerror path system_limit now))
    (fun _ s' => within_story past closed Exact s s' /\ active_segment_ (topic s') = Some e /\
       exists w', segment_writer_ (topic s') = Some w' /\ Z.to_nat (durable_records_ (writer w')) = length (active_acks_ (topic s')))
    (within_story past closed Exact s).
Proof.
  intros Hc Hw He. eapply after_segment; [exact Hc | exact Hw | exact He|]. intros s1 w1 writes syncs r Hf Hwr Hd.
  assert (within_story past closed Exact s s1) as H1.
  { eapply wrote_within; [exact Hwr|]. by eapply seal_chron. }
  destruct r as [[]|err]; [|done]. destruct Hwr as [W1 _ _ _ _].
  assert (segment_writer_ (topic s1) = Some w1) as Hw1 by (by rewrite W1).
  assert (active_segment_ (topic s1) = Some e) as He1 by (by rewrite W1).
  split_and!; [done | done|]. exists w1. split; [done|]. eapply sealed_durable; [apply H1 | done | done|].
  destruct (chron_active _ _ _ _ _ _ Hc Hw He) as (rs & F).
  destruct (reaches_settled _ _ _ _ _ _ _ Ho (af_reach _ _ _ _ _ _ _ _ _ F)) as (Hset & Hm & _).
  pose proof (Seal_settled strerror (path_of o e) system_limit _ _ Hm rs now _ (settled_with_answers _ _ _ _ writes syncs Hset)) as H.
  rewrite Hf in H. by apply H.
Qed.

Lemma after_assoc {A C D} s (m : TopicM A) (k : A -> TopicM C) (j : C -> TopicM D) Post Fail :
  after s (tbind (tbind m k) j) Post Fail -> after s (tbind m (fun a => tbind (k a) j)) Post Fail.
Proof. unfold after, tbind. by destruct (m s) as [s' [a|e]]. Qed.

Lemma after_Seal past closed s now counted : chron past closed Exact s -> is_u64 now ->
  after s (SealCurrentLocked system_limit now counted)
    (fun _ s' => chron past (closed ++ active_acks_ (topic s)) Exact s' /\ others (topic s') = others (topic s) /\
                 segment_writer_ (topic s') = None /\ active_acks_ (topic s') = [])
    (within_story past closed Exact s).
Proof.
  intros Hc Hnow. unfold SealCurrentLocked. apply after_bind, after_get.
  destruct (segment_writer_ (topic s)) as [w|] eqn:Hw.
  2: { apply after_ret. pose proof (ch_active _ _ _ _ _ _ _ Hc) as H. rewrite Hw in H. destruct (active_segment_ (topic s)); [done|].
       by rewrite H, app_nil_r. }
  destruct (active_known _ _ _ _ _ Hc Hw) as (e & He). apply after_bind.
  eapply after_mono; [by eapply after_seal_file | | done]. intros [] s1 (H1 & He1 & w1 & Hw1 & Hd1).
  apply after_bind, after_get. rewrite Hw1, He1. pose proof (ws_chron _ _ _ _ _ H1) as Hc1.
  destruct (list.last (active_acks_ (topic s1))) as [last|] eqn:Hl; [|by apply after_throw].
  apply after_assoc, after_bind. eapply after_mono; [by apply (after_move_entry past closed Exact s1 w1 e last kSegmentSealed now) | |].
  2: { intros s2 (Hc2 & Hp2). eapply within_trans; [exact H1|]. by apply published_within. }
  intros [] s2 (Hc2 & Hp2 & _). apply after_bind.
  eapply after_mono; [apply after_push_written_within, Hc2 | | done]. intros [] s3 (H3 & Hfull & Ew3 & Ee3). apply after_bind.
  eapply after_mono; [eapply after_Publish; [apply H3|done] | |].
  2: { intros s4 (Hc4 & Hp4). eapply within_trans; [exact H1|]. eapply (within_trans _ _ Exact _ _ s2); [by apply published_within|].
       eapply within_trans; [exact H3|]. by apply published_within. }
  intros [] s4 (Hc4 & Hp4 & Hdur).
  assert (published s1 s4) as Hp.
  { etrans; [exact Hp2|]. etrans; [|exact Hp4]. destruct H3 as [_ X2 X3]. split; try done. by rewrite Ee3. }
  pose proof (pb_writer _ _ Hp) as Hw4. rewrite Hw1 in Hw4. pose proof (pb_entry _ _ Hp) as Hid. rewrite He1 in Hid.
  destruct (active_known _ _ _ _ _ Hc4 Hw4) as (e4 & He4). rewrite He4 in Hid. injection Hid as Hid. rewrite <- Hid.
  assert (active_acks_ (topic s4) = active_acks_ (topic s1)) as Ha4 by apply Hp.
  specialize (Hdur w1). rewrite Ew3, (pb_writer _ _ Hp2), Hw1, Hd1 in Hdur. specialize (Hdur eq_refl).
  pose proof (ch_counts _ _ _ _ _ _ _ Hc4) as Hcounts. rewrite Ha4 in Hcounts.
  eapply after_mono; [apply (after_close past closed s4 w1 e4 counted Hc4 Hw4 He4); rewrite Ha4; lia | | done].
  intros [] s5 (X1 & X2 & X3). rewrite Ha4, (ws_acks _ _ _ _ _ H1) in X1. split_and!; [done | | apply X3..].
  rewrite X2, (pb_others _ _ Hp). apply H1.
Qed.

(** ** Opening a segment *)

Definition topic_typed : Prop :=
  is_u64 (topic_recording_id o) /\ is_u32 (topic_topic_id o) /\ is_u32 (topic_partition_id o) /\ is_u64 (topic_writer_id o).
Context (Hids : topic_typed).

Lemma closed_facts past closed exact s : chron past closed exact s -> segment_writer_ (topic s) = None ->
  active_segment_ (topic s) = None /\ active_acks_ (topic s) = [].
Proof.
  intros Hc Hw. pose proof (ch_active _ _ _ _ _ _ _ Hc) as H. rewrite Hw in H. by destruct (active_segment_ (topic s)).
Qed.

Lemma next_id_free past closed s : chron past closed Exact s -> next_segment_id_ (topic s) <> 0 ->
  files s !! next_segment_id_ (topic s) = None.
Proof.
  intros Hc H0. destruct (files s !! _) as [f|] eqn:E; [|done]. apply (ch_fresh _ _ _ _ _ _ _ Hc ltac:(done)) in E. lia.
Qed.

(** A file that nothing refers to. *)
Lemma chron_orphan past closed exact s s' id f : chron past closed exact s -> segment_writer_ (topic s) = None ->
  files s !! id = None -> topic s' = topic s -> files s' = <[id := f]> (files s) -> manifest s' = manifest s ->
  manifest_disk s' = manifest_disk s -> linked s' = linked s -> acks s' = acks s -> chron past closed Loose s'.
Proof.
  intros Hc Hw Hid E1 E2 E3 E4 E5 E6. destruct (closed_facts _ _ _ _ Hc Hw) as [He Ha]. destruct Hc as [C1 C2 C3 C4 C5 C6 C7 C8 C9 C10].
  split; rewrite ?E1, ?E3, ?E4, ?E6; try done.
  - eapply list.Forall_impl; [exact C5|]. intros p ((g & Hg & Hin) & Hl & Hm). split_and!; [|by rewrite E5 | by rewrite E3].
    exists g. split; [|done]. unfold current_file in *. rewrite E1, E2. rewrite Hw in *.
    rewrite lookup_insert_ne; [done|]. intros ->. congruence.
  - by rewrite Hw, He.
Qed.

Lemma chron_linked past closed exact s s' : chron past closed exact s -> linked s ⊆ linked s' -> topic s' = topic s ->
  files s' = files s -> manifest s' = manifest s -> manifest_disk s' = manifest_disk s -> acks s' = acks s ->
  chron past closed exact s'.
Proof.
  intros [C1 C2 C3 C4 C5 C6 C7 C8 C9 C10] Hl E1 E2 E3 E4 E5. split; rewrite ?E1, ?E2, ?E3, ?E4, ?E5; try done.
  - eapply list.Forall_impl; [exact C5|]. intros p (H1 & H2 & H3). split_and!; [|by apply Hl | by rewrite E3].
    unfold current_file in *. by rewrite E1, E2.
  - destruct (segment_writer_ (topic s)), (active_segment_ (topic s)); try done.
    destruct C7 as (rs & H1 & H2 & H3 & H4 & H5 & H6 & H7 & H8 & H9 & H10 & H11 & H12 & H13). exists rs. rewrite E1, E2, E3.
    split_and!; try done; [by apply Hl | apply H13 | apply H13].
Qed.

Lemma chron_open past closed s s' w e next : chron past closed Exact s -> segment_writer_ (topic s) = None ->
  reaches strerror (path_of o e) system_limit (header_of o e) (segment_options o) [] w ->
  entry_first_sequence e = first0 + zlen closed -> segment_typed (header_of o e) ->
  relative_path e = SegmentRelativePath (entry_segment_id e) -> files s !! entry_segment_id e = None ->
  entry_segment_id e ∈ linked s -> listed (snapshot_ (manifest s)) (entry_segment_id e) -> entry_typed e ->
  is_u64 next -> (next = 0 \/ entry_segment_id e < next) ->
  (forall id f, files s !! id = Some f -> next = 0 \/ id < next) ->
  s' = set_topic (set_segment next (Some w) (Some e) [] 0 0 (topic s)) s -> chron past closed Exact s'.
Proof.
  intros Hc Hw Hr Hfirst Hty Hp Hf Hl Hm He Hn Hid Hfresh ->. destruct (closed_facts _ _ _ _ Hc Hw) as [Hz Ha].
  pose proof Hc as [C1 C2 C3 C4 C5 C6 C7 C8 C9 C10]. rewrite Ha in *. cbn [length] in C6.
  assert (written_ack_count_ (topic s) = 0%nat /\ durable_ack_count_ (topic s) = 0%nat) as [Hw0 Hd0] by lia. rewrite Hw0, Hd0 in *.
  split; frame; try done.
  - eapply list.Forall_impl; [exact C5|]. intros p ((g & Hg & Hin) & Hl' & Hm'). split_and!; [|done|done]. exists g. split; [|done].
    unfold current_file in *. rewrite Hw in Hg. frame. rewrite decide_False; [done|]. intros Heq. congruence.
  - exists []. frame. by split_and!.
Qed.

Lemma after_closing id w s (m : TopicM unit) Post Fail :
  after s m Post (fun s' => Fail (fst (close_segment id w s'))) -> after s (closing_on_error id w m) Post Fail.
Proof. unfold after, closing_on_error. by destruct (m s) as [s' [a|e]]. Qed.

(** The segments directory is synced: the new entry in it is on stable storage. *)
Lemma after_SyncDirectory s id Post Fail :
  (forall s', topic s' = topic s -> files s' = files s -> manifest s' = manifest s -> manifest_disk s' = manifest_disk s ->
     acks s' = acks s -> linked s ⊆ linked s' -> (id ∈ linked s' -> Post tt s') /\ Fail s') ->
  after s (SyncSegmentsDirectoryLocked id) Post Fail.
Proof.
  intros H. unfold SyncSegmentsDirectoryLocked. apply after_bind. unfold after at 1, next_answers.
  set (a := default smooth _). set (s1 := mkFrame _ _ _ _ _ _ _ _ _).
  assert (Fail s1) as Hfail by (by apply (H s1)).
  destruct (directory_opened a); [by apply after_throw|]. apply after_when; [done|]. intros _.
  destruct (filter _ _); [|by apply after_throw]. unfold after. frame. eapply H; try done; frame; set_solver.
Qed.

Lemma after_link past closed s w e : chron past closed Exact s -> segment_writer_ (topic s) = None ->
  files s !! entry_segment_id e = None -> entry_typed e -> listed (snapshot_ (manifest s)) (entry_segment_id e) ->
  after s (closing_on_error (entry_segment_id e) w
             (tbind (SyncSegmentsDirectoryLocked (entry_segment_id e)) (fun _ => on_manifest (fun m => UpdateSegment m e))))
    (fun _ s' => chron past closed Exact s' /\ topic s' = topic s /\ files s' = files s /\ entry_segment_id e ∈ linked s' /\
       listed (snapshot_ (manifest s')) (entry_segment_id e))
    (fun s' => chron past closed Loose s' /\ topic s' = topic s).
Proof.
  intros Hc Hw Hf He Hm. apply after_closing, after_bind.
  assert (forall s1, chron past closed Exact s1 -> topic s1 = topic s -> files s1 = files s ->
    chron past closed Loose (fst (close_segment (entry_segment_id e) w s1)) /\
    topic (fst (close_segment (entry_segment_id e) w s1)) = topic s) as Hfail.
  { intros s1 Hc1 Et Ef. split; [|done]. apply (chron_orphan past closed Exact s1 _ (entry_segment_id e) (close_file w)); try done; [by rewrite Et | by rewrite Ef]. }
  apply after_SyncDirectory. intros s1 Et1 Ef1 Em1 Ed1 Ea1 Hl1.
  assert (chron past closed Exact s1) as Hc1 by (by eapply chron_linked).
  split; [|by apply Hfail]. intros Hin.
  pose proof (ch_manifest _ _ _ _ _ _ _ Hc1) as Hk1.
  eapply after_manifest; [exact Hc1 | | |].
  - intros a. destruct (UpdateSegment_keeps (manifest s1) (kp_typed _ _ Hk1) e a He) as (next & Hk & _). by exists next.
  - intros s2 a t Hc2 Et2 _ Ef2 El2 Hup.
    destruct (UpdateSegment_keeps (manifest s1) (kp_typed _ _ Hk1) e a He) as (next & Hk & _).
    destruct (keeps_moves _ _ _ _ _ _ _ _ Hk Hk1 Hup) as [_ Hmoves].
    split_and!; [done | congruence | congruence | by rewrite El2|]. eapply listed_moves; [exact Hmoves|]. by rewrite Em1.
  - intros s2 Hc2 Et2 Ef2. apply Hfail; [done | congruence | congruence].
Qed.

Lemma new_entry_typed id first now st : is_u64 id -> is_u64 first -> is_u64 now ->
  segment_state_of (segment_state_value st) = st -> entry_typed (set_entry_state st (new_entry id first now)).
Proof. intros H1 H2 H3 H4. split; try done; try apply SegmentRelativePath_is_path; cbn; unfold kEncodedSegmentHeaderSize; ulia. Qed.

Lemma new_header_typed first now : is_u64 first -> is_u64 now -> segment_typed (segment_header_of o first now).
Proof. destruct Hids as (H1 & H2 & H3 & H4). intros H5 H6. split; try done; cbn; ulia. Qed.

Lemma next_id_u64 id : is_u64 id -> is_u64 (if id =? u64_max then 0 else id + 1).
Proof. intros H. destruct (Z.eqb_spec id u64_max); ulia. Qed.

Lemma Create_opened path opened h at_ns so writes syncs w :
  Create strerror path opened h at_ns so writes syncs = Ok w -> opened = None.
Proof.
  intros H. destruct opened; [|done]. unfold Create in H. step_if. apply bindR_Ok in H as ([] & _ & H).
  by apply bindR_Ok in H as (? & _ & H).
Qed.

Lemma after_Ensure past closed s first now : chron past closed Exact s -> first = first0 + zlen (closed ++ active_acks_ (topic s)) ->
  is_u64 first -> is_u64 now ->
  after s (EnsureSegmentLocked first now)
    (fun _ s' => within_story past closed Exact s s' /\ exists w e, segment_writer_ (topic s') = Some w /\ active_segment_ (topic s') = Some e)
    (within_story past closed Loose s).
Proof.
  intros Hc Hfirst Hu Hnow. unfold EnsureSegmentLocked. apply after_bind, after_get.
  destruct (segment_writer_ (topic s)) as [w|] eqn:Hw.
  { apply after_ret. split; [by split|]. destruct (active_known _ _ _ _ _ Hc Hw) as (e & He). by exists w, e. }
  destruct (closed_facts _ _ _ _ Hc Hw) as [He Ha]. rewrite Ha, app_nil_r in Hfirst.
  assert (forall s' exact, chron past closed exact s' -> topic s' = topic s -> within_story past closed Loose s s') as Hsame.
  { intros s' exact Hc' Et. split; [by eapply chron_weaken | by rewrite Et..]. }
  apply after_when; [by intros _; eapply Hsame|]. intros H0. bool_to_prop.
  assert (is_u64 (next_segment_id_ (topic s))) as Hid by apply (ch_id _ _ _ _ _ _ _ Hc).
  apply after_bind. unfold after at 1, next_answers. set (a := default smooth _). set (s1 := mkFrame _ _ _ _ _ _ _ _ _).
  assert (chron past closed Exact s1) as Hc1 by (eapply chron_view; [|exact Hc]; by split).
  apply after_when; [by intros _; eapply Hsame|]. intros _. rewrite (ch_options _ _ _ _ _ _ _ Hc).
  set (id := next_segment_id_ (topic s)) in *. set (e1 := new_entry id first now).
  assert (entry_typed e1) as Ht1 by (by apply (new_entry_typed id first now kSegmentCreating)).
  apply after_bind. eapply after_manifest; [exact Hc1 | | |].
  { intros m. eexists. by apply AddSegment_keeps; [apply (ch_manifest _ _ _ _ _ _ _ Hc1)|]. }
  2: { intros s2 Hc2 Et2 _. by eapply Hsame. }
  intros s2 m t Hc2 Et2 _ Ef2 _ Hadd. apply AddSegment_listed in Hadd; [|done].
  apply after_bind. unfold after at 1, next_answers. set (b := default smooth _). set (s3 := mkFrame _ _ _ _ _ _ _ _ _).
  assert (chron past closed Exact s3) as Hc3 by (eapply chron_view; [|exact Hc2]; by split).
  apply after_bind, after_lift; [|by intros e Hcr; eapply Hsame]. intros w Hcr.
  set (e2 := set_entry_state kSegmentOpen e1). assert (entry_typed e2) as Ht2 by (by apply new_entry_typed).
  assert (files s !! id = None) as Hfree by (by apply (next_id_free past closed)).
  apply after_bind. eapply after_mono.
  - apply (after_link past closed s3 w e2 Hc3); try done.
    + change (topic s3) with (topic s2). by rewrite Et2.
    + change (files s3) with (files s2). by rewrite Ef2.
  - intros [] s4 (Hc4 & Et4 & Ef4 & Hl4 & Hm4).
    assert (topic s4 = topic s) as Et by (rewrite Et4; exact Et2).
    assert (files s4 = files s) as Ef by (rewrite Ef4; exact Ef2).
    assert (reaches strerror (path_of o e2) system_limit (header_of o e2) (segment_options o) [] w) as Hreach.
    { eapply reach_create. rewrite <- (Create_opened _ _ _ _ _ _ _ _ Hcr). exact Hcr. }
    unfold after, tmodify. split.
    + split; [|by frame; rewrite ?Et..].
      eapply (chron_open past closed s4 _ w e2 (if id =? u64_max then 0 else id + 1) Hc4); rewrite ?Et, ?Ef; try done.
      * by apply new_header_typed.
      * by apply next_id_u64.
      * cbn. destruct (Z.eqb_spec id u64_max); lia.
      * intros i f Hi. apply (ch_fresh _ _ _ _ _ _ _ Hc ltac:(done)) in Hi. fold id in Hi. destruct (Z.eqb_spec id u64_max); lia.
    + frame. by exists w, e2.
  - intros s4 [Hc4 Et4]. eapply Hsame; [exact Hc4|]. rewrite Et4. exact Et2.
Qed.

(** ** Appending *)

Definition story_is (past : list TopicWriterAck) (story : list PendingAck) (exact : Slack) (s s' : Frame) : Prop :=
  exists closed, chron past closed exact s' /\ others (topic s') = others (topic s) /\ closed ++ active_acks_ (topic s') = story.
Definition in_segment (id : Z) (p : PendingAck) : PendingAck :=
  mkPendingAck (pending_sequence p) id (pending_flags p) (pending_user_tag p) (pending_source p).

Lemma within_story_is past closed exact s s' : within_story past closed exact s s' ->
  story_is past (closed ++ active_acks_ (topic s)) exact s s'.
Proof. intros [H1 H2 H3]. exists closed. by rewrite H3. Qed.
Lemma story_weaken past story exact s s' : story_is past story exact s s' -> story_is past story Loose s s'.
Proof. intros (closed & H1 & H2 & H3). exists closed. split; [by eapply chron_weaken | done]. Qed.
Lemma story_trans past story exact s u v : others (topic u) = others (topic s) -> story_is past story exact u v ->
  story_is past story exact s v.
Proof. intros E (closed & H1 & H2 & H3). exists closed. split_and!; [done | congruence | done]. Qed.

(** The record just appended is entered among the pending acknowledgements; then the segment may be full. *)
Lemma after_enter past closed s e r ack now (full : bool) : chron past closed (Ahead r) s -> active_segment_ (topic s) = Some e ->
  matches ack r -> is_u64 now ->
  let story := closed ++ active_acks_ (topic s) ++ [in_segment (entry_segment_id e) ack] in
  after s (tbind (tmodify (fun t =>
             let id := match active_segment_ t with Some e => entry_segment_id e | None => 0 end in
             set_acks (active_acks_ t ++ [mkPendingAck (pending_sequence ack) id (pending_flags ack) (pending_user_tag ack)
                                            (pending_source ack)]) (written_ack_count_ t) (durable_ack_count_ t) t))
           (fun _ => if full then SealCurrentLocked system_limit now true else tret tt))
    (fun _ => story_is past story Exact s) (story_is past story Loose s).
Proof.
  intros Hc He Hm Hnow story. apply after_bind. unfold after at 1, tmodify. rewrite He. fold (in_segment (entry_segment_id e) ack).
  set (s1 := set_topic _ s).
  assert (chron past closed Exact s1) as Hc1.
  { eapply (ahead_push _ _ _ _ _ _ e _ r); [exact Hc | done | by destruct Hm | done]. }
  assert (story = closed ++ active_acks_ (topic s1)) as Est by done.
  destruct full; [|apply after_ret; by exists closed].
  eapply after_mono; [by apply after_Seal | |].
  - intros [] s2 (Hc2 & E2 & _ & Ha2). exists (closed ++ active_acks_ (topic s1)). by rewrite Ha2, app_nil_r.
  - intros s2 H2. rewrite Est. eapply story_weaken, (story_trans _ _ _ s s1); [done|]. by apply within_story_is.
Qed.

(** A segment is open and the record is offered to it. *)
Lemma after_offer past closed s record now (Post : SegmentAppendResult -> Frame -> Prop) (Fail : Frame -> Prop) :
  chron past closed Exact s -> header_typed (header record) -> is_u64 now ->
  ingestion_sequence (header record) = first0 + zlen (closed ++ active_acks_ (topic s)) ->
  (forall res s' w e, segment_writer_ (topic s') = Some w -> active_segment_ (topic s') = Some e ->
     within_story past closed (if records_accepted res =? 1 then Ahead record else Exact) s s' -> Post res s') ->
  (forall s', within_story past closed Loose s s' -> Fail s') ->
  after s (tbind (EnsureSegmentLocked (ingestion_sequence (header record)) now) (fun _ =>
           on_segment (fun path => Append strerror path system_limit record now))) Post Fail.
Proof.
  intros Hc Hty Hnow Hseq HP HF. apply after_bind.
  eapply after_mono; [apply (after_Ensure past closed); [done | done | apply Hty | done] | | exact HF].
  intros [] s1 (H1 & w & e & Hw & He). pose proof H1 as [Hc1 E1 A1].
  eapply after_segment; [exact Hc1 | exact Hw | exact He|]. intros s2 w2 writes syncs r Hf Hwr Hd.
  assert (ingestion_sequence (header record) = entry_first_sequence e + zlen (active_acks_ (topic s1))) as Hseq1.
  { destruct (chron_active _ _ _ _ _ _ Hc1 Hw He) as (rs & F). rewrite (af_first _ _ _ _ _ _ _ _ _ F), Hseq, A1.
    unfold zlen. rewrite length_app. lia. }
  pose proof (append_chron _ _ _ Ho past closed s1 s2 w e w2 writes syncs now record r Hc1 Hw He Hwr Hd Hty Hseq1 Hf) as Hch.
  assert (forall exact, chron past closed exact s2 -> within_story past closed exact s s2) as Hin.
  { intros exact Hc2. eapply within_trans; [exact H1|]. by eapply wrote_within. }
  destruct Hwr as [W1 _ _ _ _]. destruct r as [res|err]; [|by apply HF, Hin].
  apply (HP res s2 w2 e); [by rewrite W1 | by rewrite W1|]. destruct (records_accepted res =? 1); by apply Hin.
Qed.

Lemma after_append fuel : forall past closed s record ack now, chron past closed Exact s -> header_typed (header record) ->
  ingestion_sequence (header record) = first0 + zlen (closed ++ active_acks_ (topic s)) -> matches ack record -> is_u64 now ->
  let story := closed ++ active_acks_ (topic s) in
  after s (append_record system_limit fuel record ack now)
    (fun _ s' => exists id, story_is past (story ++ [in_segment id ack]) Exact s s')
    (fun s' => story_is past story Loose s s' \/ exists id, story_is past (story ++ [in_segment id ack]) Loose s s').
Proof.
  induction fuel as [|fuel IH]; intros past closed s record ack now Hc Hty Hseq Hm Hnow story; cbn [append_record].
  { apply after_throw. left. exists closed. split; [by eapply chron_weaken | done]. }
  apply after_assoc, after_bind. eapply (after_offer past closed); try done; [|intros s2 H2; left; by apply within_story_is].
  intros res s2 w e Hw He [Hch E2 A2]. destruct (records_accepted res =? 1).
  - eapply after_mono; [by apply (after_enter past closed s2 e record) | |].
    + intros [] s3 H3. exists (entry_segment_id e). rewrite A2, app_assoc in H3. by eapply story_trans.
    + intros s3 H3. right. exists (entry_segment_id e). rewrite A2, app_assoc in H3. by eapply story_trans.
  - assert (story_is past story Loose s s2) as Hl.
    { exists closed. split_and!; [by eapply chron_weaken | done | by rewrite A2]. }
    apply after_when; [by left|]. intros _. apply after_bind. eapply after_mono; [by apply after_Seal | |].
    + intros [] s3 (Hc3 & E3 & _ & A3). rewrite A2 in Hc3.
      assert (others (topic s3) = others (topic s)) as E by congruence.
      assert (story = (closed ++ active_acks_ (topic s)) ++ active_acks_ (topic s3)) as Est by (by rewrite A3, app_nil_r).
      eapply after_mono; [apply (IH _ _ _ _ _ _ Hc3 Hty); rewrite <- ?Est; done | |]; rewrite <- Est.
      * intros [] s4 (id & H4). exists id. by eapply story_trans.
      * intros s4 [H4|(id & H4)]; [left | right; exists id]; by eapply story_trans.
    + intros s3 H3. left. eapply story_weaken, story_trans; [exact E2|]. unfold story. rewrite <- A2. by apply within_story_is.
Qed.

End Steps.

(** ** The loop of an append *)

Section Rounds.
Context {P : Posix} {B : Crc32cBackend} (system_limit : Z).

Lemma bind_agree {A C} s (m : TopicM A) (k k' : A -> TopicM C) :
  after s m (fun a s' => k a s' = k' a s') (fun _ => True) -> tbind m k s = tbind m k' s.
Proof. unfold after, tbind. by destruct (m s) as [s' [a|e]]. Qed.

Lemma after_any {A} s (m : TopicM A) : after s m (fun _ _ => True) (fun _ => True).
Proof. unfold after. by destruct (m s) as [s' [a|e]]. Qed.

Lemma after_on_segment {A} s (f : string -> WriterM A) :
  after s (on_segment f) (fun _ s' => active_acks_ (topic s') = active_acks_ (topic s) /\ is_Some (segment_writer_ (topic s')))
    (fun _ => True).
Proof.
  unfold on_segment. apply after_bind. unfold after at 1, next_answers. unfold after. cbn [topic].
  destruct (segment_writer_ (topic s)), (active_segment_ (topic s)); try done. by destruct (f _ _) as [w' []].
Qed.

Lemma after_ensured s first now :
  after s (EnsureSegmentLocked first now)
    (fun _ s' => is_Some (segment_writer_ (topic s')) /\ (segment_writer_ (topic s) = None -> active_acks_ (topic s') = []))
    (fun _ => True).
Proof.
  unfold EnsureSegmentLocked. apply after_bind, after_get. destruct (segment_writer_ (topic s)) as [w|] eqn:Hw.
  { apply after_ret. by rewrite Hw. }
  apply after_when; [done|]. intros _. apply after_bind. eapply after_mono; [apply after_any | | done]. intros a s1 _.
  apply after_when; [done|]. intros _. apply after_bind. eapply after_mono; [apply after_any | | done]. intros [] s2 _.
  apply after_bind. eapply after_mono; [apply after_any | | done]. intros b s3 _.
  apply after_bind. eapply after_mono; [apply after_any | | done]. intros created s4 _.
  apply after_bind. eapply after_mono; [apply after_any | | done]. intros [] s5 _. unfold after, tmodify. cbn. by split; [exists created|].
Qed.

(** Sealing leaves no segment; it fails for a segment without records. *)
Lemma after_sealed s now counted : is_Some (segment_writer_ (topic s)) ->
  after s (SealCurrentLocked system_limit now counted)
    (fun _ s' => segment_writer_ (topic s') = None /\ active_acks_ (topic s) <> []) (fun _ => True).
Proof.
  intros [w Hw]. unfold SealCurrentLocked. apply after_bind, after_get. rewrite Hw. apply after_bind.
  eapply after_mono; [apply after_on_segment | | done]. intros [] s1 [Ea _]. apply after_bind, after_get. rewrite Ea.
  destruct (segment_writer_ (topic s1)) as [w1|], (active_segment_ (topic s1)) as [e|]; try by apply after_throw.
  destruct (list.last (active_acks_ (topic s))) as [last|] eqn:El; [|by apply after_throw].
  assert (active_acks_ (topic s) <> []) as Hne by (intros E; by rewrite E in El).
  do 4 (apply after_bind; eapply after_mono; [apply after_any | | done]; intros [] ? _).
  apply after_bind. unfold after at 1, close_segment. apply after_bind. unfold after at 1, tmodify. by destruct counted.
Qed.

(** Rounds agree when what follows the sealing agrees. *)
Lemma rounds_agree s record ack now n n' :
  (forall s1, is_Some (segment_writer_ (topic s1)) ->
     (segment_writer_ (topic s) = None -> active_acks_ (topic s1) = []) ->
     after s1 (SealCurrentLocked system_limit now true)
       (fun _ s2 => append_record system_limit n record ack now s2 = append_record system_limit n' record ack now s2) (fun _ => True)) ->
  append_record system_limit (S n) record ack now s = append_record system_limit (S n') record ack now s.
Proof.
  intros H. cbn [append_record]. apply bind_agree. eapply after_mono; [apply after_ensured | | done]. intros [] s1 [_ Ha].
  apply bind_agree. eapply after_mono; [apply after_on_segment | | done]. intros res s2 [Ea Hw].
  destruct (records_accepted res =? 1); [done|]. destruct (negb _); [done|]. apply bind_agree. apply H; [done|].
  intros Hn. by rewrite Ea, Ha.
Qed.

(** C38: the loop that appends a record, sealing the full segment and trying again in a new one, ends after
    at most two rounds, whatever the state, the record, the segment limits and the answers of the
    system: more rounds change nothing.  A record too large for an empty segment fails there,
    because a segment without a record is never sealed. *)
Theorem append_ends_in_two_rounds s record ack now n :
  append_record system_limit (S (S n)) record ack now s = append_record system_limit 2 record ack now s.
Proof.
  apply rounds_agree. intros s1 Hw1 _. eapply after_mono; [by apply after_sealed | | done]. intros [] s2 [Hw2 _].
  apply rounds_agree. intros s3 Hw3 Ha3. eapply after_mono; [by apply after_sealed | | done]. intros [] s4 [_ Hne].
  by destruct Hne; apply Ha3.
Qed.
End Rounds.
