(* ===== verification/TopicStory.v ===== *)
(** * The story a topic writer tells

    The public calls of the topic writer, whole: buffers turned into gap and data records, the queue drained,
    the calls of any history.  The acknowledgements of a history are one story. *)
From stdpp Require Import functions.
From S2P Require Import Prelude SourceIdentity Bytes Crc32c LittleEndian TopicPartition ManifestFormat ManifestCodec DurableFile PartitionManifest ManifestSafety SegmentFormat SegmentRecovery SegmentScan SegmentRepair SegmentWriter SegmentLog SegmentGrowth TopicWriter TopicLog TopicSteps.

(** ** Typed inputs *)

Record source_typed (m : MessageSource) : Prop := {
  so_node : is_u64 (source_node_id m); so_publisher : is_u64 (source_publisher_id m);
  so_epoch : is_u64 (source_publisher_epoch m); so_sequence : is_u64 (source_sequence_number m);
  so_observed : is_u64 (source_observed_ns m)
}.
Record metadata_typed (m : RecorderRecordMetadata) : Prop := {
  md_source : source_typed (message_source m); md_timestamp : is_u64 (metadata_timestamp_ns m);
  md_schema : is_u32 (meta_schema_version (record_schema m)); md_layout : is_u32 (meta_layout_version (record_schema m))
}.
Definition handle_typed (h : RecorderBufferHandle) : Prop := forall m, handle_metadata h = Some m -> metadata_typed m.
Definition answer_typed (a : DequeueAnswer) : Prop := match a with Dequeued h => handle_typed h | DequeueError _ _ => True end.
Record topic_options_typed (o : TopicWriterOptions) : Prop := {
  ot_segment : options_typed (segment_options o); ot_ids : topic_typed o;
  ot_initial : is_u64 (initial_ingestion_sequence o);
  ot_resolve : forall schema r, ResolveSchema o schema = Ok r -> is_u32 r
}.

Section Story.
Context {P : Posix} {PL : PosixLaws P} {B : Crc32cBackend} {BL : Crc32cLaws B}.
Context (system_limit : Z) (o : TopicWriterOptions) (first0 : Z) (Hot : topic_options_typed o).
Abbreviation chron := (chron system_limit o first0).

(** ** Between two records *)

Definition next_is (n : Z) (t : TopicWriter) : Prop :=
  if sequence_exhausted_ t then first0 + n = u64_max + 1
  else next_ingestion_sequence_ t = first0 + n /\ is_u64 (next_ingestion_sequence_ t).
Definition sources_typed (sources : gmap SourceKey SourceProgress) : Prop :=
  forall key x, last_source_sequence (progress_of sources key) = Some x -> is_u64 x.

(** The story so far, with what [f] says of every source, ready for the next record. *)
Record ledger (past : list TopicWriterAck) (story : list PendingAck) (f : SourceKey -> Tale) (s : Frame) : Prop := {
  lg_chron : exists closed, chron past closed Exact s /\ closed ++ active_acks_ (topic s) = story;
  lg_next : next_is (zlen story) (topic s);
  lg_tales : tales f story;
  lg_sources : sources_typed (sources_ (topic s))
}.
Definition sound (past : list TopicWriterAck) (s : Frame) : Prop := exists story, ledger past story (told (sources_ (topic s))) s.
(** After a failure inside a record the story is still one, of some sources. *)
Definition wrecked (past : list TopicWriterAck) (s : Frame) : Prop :=
  exists closed f, chron past closed Loose s /\ tales f (closed ++ active_acks_ (topic s)).

Lemma ledger_wrecked past story f s s' : ledger past story f s -> same_view s s' -> wrecked past s'.
Proof.
  intros [(closed & Hc & <-) _ Ht _] Hv. exists closed, f. split; [eapply chron_view, chron_weaken; done|].
  by rewrite (sv_acks _ _ Hv).
Qed.

Lemma ledger_view past story f s s' : ledger past story f s -> same_view s s' ->
  next_is (zlen story) (topic s') -> sources_typed (sources_ (topic s')) -> ledger past story f s'.
Proof.
  intros [(closed & Hc & Hst) Hn Ht Hs] Hv Hn' Hs'. split; [|done|done|done]. exists closed.
  split; [by eapply chron_view|]. by rewrite (sv_acks _ _ Hv).
Qed.

Lemma others_next n t t' : others t' = others t -> next_is n t -> next_is n t'.
Proof. unfold others, next_is. intros E. injection E as _ _ E1 E2 _ _ _. by rewrite E1, E2. Qed.
Lemma others_progress t t' : others t' = others t -> sources_ t' = sources_ t.
Proof. unfold others. intros E. by injection E. Qed.
Lemma others_state t t' : others t' = others t -> topic_state_ t' = topic_state_ t.
Proof. unfold others. intros E. by injection E. Qed.

Lemma after_Allocate past story f s (Post : Z -> Frame -> Prop) (Fail : Frame -> Prop) : ledger past story f s ->
  (forall s' a, same_view s s' -> a = first0 + zlen story -> is_u64 a -> next_is (zlen story + 1) (topic s') ->
     sources_ (topic s') = sources_ (topic s) -> topic_state_ (topic s') = topic_state_ (topic s) -> Post a s') ->
  (wrecked past s -> Fail s) -> after s AllocateSequenceLocked Post Fail.
Proof.
  intros Hl HP HF. unfold AllocateSequenceLocked. apply after_bind, after_get. pose proof (lg_next _ _ _ _ Hl) as Hn. unfold next_is in Hn.
  apply after_when; [intros _; by eapply HF, ledger_wrecked; [exact Hl|split]|]. intros He. rewrite He in Hn. destruct Hn as [Hn Hu].
  apply after_bind. unfold after at 1, tmodify. apply after_ret. cbv zeta.
  destruct (Z.eqb_spec (next_ingestion_sequence_ (topic s)) u64_max) as [E|E]; (apply HP; [by split | done | done | | done | done]);
    unfold next_is; cbn [set_topic topic set_sequence sequence_exhausted_ next_ingestion_sequence_]; rewrite ?He; ulia.
Qed.

(** ** One record *)

Lemma after_record past story f s record ack now (Post : unit -> Frame -> Prop) (Fail : Frame -> Prop) :
  (exists closed, chron past closed Exact s /\ closed ++ active_acks_ (topic s) = story) ->
  next_is (zlen story + 1) (topic s) -> tales f story -> sources_typed (sources_ (topic s)) ->
  header_typed (header record) -> ingestion_sequence (header record) = first0 + zlen story -> matches ack record -> is_u64 now ->
  (exists t, continues (f (KeyOf (pending_source ack))) ack t /\
     forall s' id, ledger past (story ++ [in_segment id ack]) (<[KeyOf (pending_source ack) := t]> f) s' ->
       others (topic s') = others (topic s) -> Post tt s') ->
  (forall s', wrecked past s' -> Fail s') -> after s (AppendRecordLocked system_limit record ack now) Post Fail.
Proof.
  intros (closed & Hc & Hst) Hn Ht Hs Hty Hseq Hm Hnow (t & Hcont & HP) HF. unfold AppendRecordLocked.
  assert (forall id, tales (<[KeyOf (pending_source ack) := t]> f) (story ++ [in_segment id ack])) as Ht'.
  { intros id. by apply (tales_snoc f story (in_segment id ack)). }
  eapply after_mono; [apply (after_append system_limit o first0); [apply Hot | apply Hot | exact Hc | done | by rewrite Hst | done | done] | |].
  - intros [] s' (id & closed' & Hc' & E & Hst'). apply (HP s' id); [|done]. rewrite Hst in Hst'. split; [by exists closed' | | done |].
    + eapply others_next; [exact E|]. unfold zlen in *. rewrite length_app. cbn [length].
      by replace (Z.of_nat (length story + 1)) with (Z.of_nat (length story) + 1) by lia.
    + by rewrite (others_progress _ _ E).
  - rewrite Hst. intros s' [(closed' & Hc' & E & Hst')|(id & closed' & Hc' & E & Hst')]; apply HF; exists closed'.
    + exists f. by rewrite Hst'.
    + eexists. split; [done|]. rewrite Hst'. apply Ht'.
Qed.

Lemma tales_ext f g story : (forall key, f key = g key) -> tales f story -> tales g story.
Proof. intros E H key. rewrite <- E. apply H. Qed.

Lemma after_counts {C} s a b c d e f (k : TopicM C) Post Fail :
  (forall s', same_view s s' -> others (topic s') = others (topic s) -> after s' k Post Fail) ->
  after s (tbind (add_counts a b c d e f) (fun _ => k)) Post Fail.
Proof. intros H. apply after_bind. unfold after at 1, add_counts. by apply H. Qed.

Lemma ledger_others past story f s s' : ledger past story f s -> same_view s s' -> others (topic s') = others (topic s) ->
  ledger past story f s'.
Proof.
  intros Hl Hv E. eapply ledger_view; [exact Hl | done | eapply others_next; [exact E|apply Hl] |].
  rewrite (others_progress _ _ E). apply Hl.
Qed.

Lemma after_gap past story f s progress m x first now : ledger past story f s -> metadata_typed m -> is_u64 now ->
  f (KeyOf (message_source m)) = Told x -> first = x + 1 -> is_u64 first ->
  after s (record_gap system_limit progress m first now)
    (fun _ s' => exists p, ledger past (story ++ [p]) (<[KeyOf (message_source m) := Missing x]> f) s' /\
       sources_ (topic s') = sources_ (topic s) /\ topic_state_ (topic s') = topic_state_ (topic s))
    (fun s' => wrecked past s').
Proof.
  intros Hl Hm Hnow Hx Hfirst Hu. unfold record_gap. apply after_bind, after_get. cbv zeta. apply after_bind.
  apply after_lift; [|by intros e _; eapply ledger_wrecked; [exact Hl|split]]. intros encoded _. apply after_bind.
  eapply after_Allocate; [exact Hl | | done]. intros s1 sequence Hv Hseq Hsu Hn Es Et. apply after_bind.
  destruct Hl as [(closed & Hc & Hst) _ Htales Hsrc]. rewrite (ch_options _ _ _ _ _ _ _ Hc).
  destruct Hm as [[M1 M2 M3 M4 M5] M6 M7 M8]. destruct (ot_ids _ Hot) as (_ & O2 & O3 & _).
  eapply (after_record past story f); [ | done | done | by rewrite Es | | done | | done | | done].
  - exists closed. split; [by eapply chron_view|]. by rewrite (sv_acks _ _ Hv).
  - split; cbn; try done; unfold kRecordFlagGap; ulia.
  - by split.
  - exists (Missing x). split.
    { cbn [pending_source]. change (KeyOf (gap_source (message_source m) first)) with (KeyOf (message_source m)). rewrite Hx. by split. }
    intros s2 id Hl2 E2. unfold after, add_counts. eexists. split_and!.
    + eapply ledger_others; [exact Hl2 | by split | done].
    + cbn [topic]. by rewrite (others_progress _ _ E2).
    + cbn [topic]. by rewrite (others_state _ _ E2).
Qed.

(** A message of a source follows what has been told of it. *)
Definition follows (t : Tale) (n : Z) : Prop :=
  match t with Untold => True | Told x => n = x + 1 | Missing x => x + 1 < n end.

Lemma told_progress sources key n discards key' :
  told (<[key := mkProgress (Some n) discards]> sources) key' = (<[key := Told n]> (told sources)) key'.
Proof.
  unfold told at 1, progress_of. destruct (decide (key = key')) as [<-|Hne].
  - by rewrite lookup_insert_eq, fn_lookup_insert.
  - by rewrite lookup_insert_ne, fn_lookup_insert_ne.
Qed.

Lemma sources_typed_insert sources key p : sources_typed sources -> (forall x, last_source_sequence p = Some x -> is_u64 x) ->
  sources_typed (<[key := p]> sources).
Proof.
  intros Hs Hp key' x. unfold progress_of. destruct (decide (key = key')) as [<-|Hne].
  - rewrite lookup_insert_eq. apply Hp.
  - rewrite lookup_insert_ne by done. apply Hs.
Qed.

(** The table of sources catches up with the story. *)
Lemma told_sound past story f s key n discards : ledger past story (<[key := Told n]> f) s -> is_u64 n ->
  (forall key', key' <> key -> f key' = told (sources_ (topic s)) key') ->
  sound past (set_topic (set_progress key (mkProgress (Some n) discards) (topic s)) s).
Proof.
  intros [(closed & Hc & Hst) Hn Ht Hs] Hu Hother. exists story. split; [| exact Hn | |].
  - exists closed. split; [eapply chron_view; [|exact Hc]; by split | exact Hst].
  - eapply tales_ext; [|exact Ht]. intros key'. cbn [set_topic topic set_progress sources_]. rewrite told_progress.
    destruct (decide (key = key')) as [<-|Hne]; [by rewrite !fn_lookup_insert|]. rewrite !fn_lookup_insert_ne by done. by apply Hother.
  - apply sources_typed_insert; [done|]. by intros x [= <-].
Qed.

Lemma sound_others past s s' : sound past s -> same_view s s' -> others (topic s') = others (topic s) -> sound past s'.
Proof. intros (story & Hl) Hv E. exists story. rewrite (others_progress _ _ E). by eapply ledger_others. Qed.

Lemma after_message past story f s h m ref now : ledger past story f s -> metadata_typed m -> is_u64 now -> is_u32 ref ->
  follows (f (KeyOf (message_source m))) (source_sequence_number (message_source m)) ->
  (forall key, key <> KeyOf (message_source m) -> f key = told (sources_ (topic s)) key) ->
  after s (record_message system_limit h m ref now)
    (fun _ s' => sound past s' /\ topic_state_ (topic s') = topic_state_ (topic s)) (fun s' => wrecked past s').
Proof.
  intros Hl Hm Hnow Href Hf Hother. unfold record_message. apply after_bind, after_get. cbv zeta. apply after_bind.
  eapply after_Allocate; [exact Hl | | done]. intros s1 sequence Hv Hseq Hsu Hn Es Et. apply after_bind.
  destruct Hl as [(closed & Hc & Hst) _ Htales Hsrc]. rewrite (ch_options _ _ _ _ _ _ _ Hc).
  destruct Hm as [[M1 M2 M3 M4 M5] M6 M7 M8]. destruct (ot_ids _ Hot) as (_ & O2 & O3 & _).
  set (flags := if negb _ then _ else _). assert (is_u16 flags /\ (flags =? kRecordFlagGap) = false) as [F1 F2].
  { unfold flags, kRecordFlagTombstone, kRecordFlagGap. destruct (negb _); split; try done; ulia. }
  eapply (after_record past story f); [ | done | done | by rewrite Es | | done | | done | | done].
  - exists closed. split; [by eapply chron_view|]. by rewrite (sv_acks _ _ Hv).
  - by split.
  - by split.
  - exists (Told (source_sequence_number (message_source m))). split.
    { unfold continues, is_gap. cbn [pending_source pending_flags]. rewrite F2. by destruct (f (KeyOf (message_source m))). }
    intros s2 id Hl2 E2. apply after_bind. unfold after at 1, tmodify.
    set (s3 := set_topic _ s2). assert (sound past s3) as H3.
    { eapply told_sound; [exact Hl2 | done|]. intros key Hkey. rewrite (others_progress _ _ E2), Es. by apply Hother. }
    assert (topic_state_ (topic s3) = topic_state_ (topic s)) as Et3 by (rewrite <- Et; exact (others_state _ _ E2)).
    destruct (flags =? kRecordFlagTombstone); unfold after, add_counts;
      (split; [eapply sound_others; [exact H3 | by split | done] | exact Et3]).
Qed.

(** ** One buffer *)

Definition ruined (past : list TopicWriterAck) (s : Frame) : Prop := topic_state_ (topic s) = kTopicError /\ wrecked past s.

Lemma sound_wrecked past s : sound past s -> wrecked past s.
Proof. intros (story & Hl). eapply ledger_wrecked; [exact Hl|by split]. Qed.

(** Nothing the story depends on changes. *)
Record quiet (s s' : Frame) : Prop := {
  qu_view : same_view s s';
  qu_next : next_ingestion_sequence_ (topic s') = next_ingestion_sequence_ (topic s);
  qu_exhausted : sequence_exhausted_ (topic s') = sequence_exhausted_ (topic s);
  qu_sources : sources_ (topic s') = sources_ (topic s)
}.
Lemma sound_quiet past s s' : sound past s -> quiet s s' -> sound past s'.
Proof.
  intros (story & Hl) [Hv E1 E2 E3]. exists story. rewrite E3. eapply ledger_view; [exact Hl | done | | rewrite E3; apply Hl].
  unfold next_is. rewrite E1, E2. apply Hl.
Qed.
Lemma wrecked_view past s s' : wrecked past s -> same_view s s' -> wrecked past s'.
Proof.
  intros (closed & f & Hc & Ht) Hv. exists closed, f. split; [by eapply chron_view|]. by rewrite (sv_acks _ _ Hv).
Qed.

Lemma after_poison {A} e s (Post : A -> Frame -> Prop) (Fail : Frame -> Prop) :
  (forall s', topic_state_ (topic s') = kTopicError -> quiet s s' -> Fail s') -> after s (PoisonLocked e) Post Fail.
Proof. intros H. unfold after, PoisonLocked. destruct (topic_state_ (topic s)) eqn:E; apply H; try done; by split. Qed.

Lemma after_or_poison {A} s (m : TopicM A) Post (Fail Fail' : Frame -> Prop) : after s m Post Fail ->
  (forall s' s'', Fail s' -> topic_state_ (topic s'') = kTopicError -> quiet s' s'' -> Fail' s'') ->
  after s (or_poison m) Post Fail'.
Proof.
  unfold after at 1. intros H HF. unfold after, or_poison. destruct (m s) as [s' [a|e]]; [done|].
  pose proof (after_poison (A := A) e s' Post Fail') as Hp. unfold after in Hp.
  destruct (PoisonLocked e s') as [s'' [a|e']]; [|apply Hp; eauto]. apply Hp. eauto.
Qed.

Lemma wrecked_ruined past s s' : wrecked past s -> topic_state_ (topic s') = kTopicError -> quiet s s' -> ruined past s'.
Proof. intros Hw He [Hv _ _ _]. split; [done|by eapply wrecked_view]. Qed.

Lemma progress_insert_same sources key key' : progress_of (<[key := progress_of sources key]> sources) key' = progress_of sources key'.
Proof.
  unfold progress_of at 1. destruct (decide (key = key')) as [<-|Hne]; [by rewrite lookup_insert_eq|]. by rewrite lookup_insert_ne.
Qed.

Lemma ledger_touch past story s key : ledger past story (told (sources_ (topic s))) s ->
  let s' := set_topic (set_progress key (progress_of (sources_ (topic s)) key) (topic s)) s in
  ledger past story (told (sources_ (topic s'))) s'.
Proof.
  intros [(closed & Hc & Hst) Hn Ht Hs] s'. split; [| exact Hn | |].
  - exists closed. split; [eapply chron_view; [|exact Hc]; by split | exact Hst].
  - eapply tales_ext; [|exact Ht]. intros key'. unfold told. cbn [s' set_topic topic set_progress sources_]. by rewrite progress_insert_same.
  - intros key' x. cbn [s' set_topic topic set_progress sources_]. rewrite progress_insert_same. apply Hs.
Qed.

(** The gap before a message of sequence [n] and what the message follows then. *)
Lemma gap_follows sources key n : sources_typed sources -> is_u64 n ->
  match last_source_sequence (progress_of sources key) with Some last => n <=? last | None => false end = false ->
  match (match last_source_sequence (progress_of sources key) with
         | Some last => if wrap64 (last + 1) <? n then Some (wrap64 (last + 1)) else None
         | None => None
         end) with
  | Some first => exists x, told sources key = Told x /\ first = x + 1 /\ is_u64 first /\ follows (Missing x) n
  | None => follows (told sources key) n
  end.
Proof.
  intros Hs Hn. unfold told. specialize (Hs key). destruct (last_source_sequence (progress_of sources key)) as [x|]; [|done].
  specialize (Hs x eq_refl). intros Hx. bool_to_prop. assert (wrap64 (x + 1) = x + 1) as Ew by (apply wrap64_id; ulia). rewrite Ew.
  destruct (Z.ltb_spec (x + 1) n); [exists x; split_and!; try done; ulia|]. cbn [follows]. lia.
Qed.

Lemma after_Process past s h now : sound past s -> handle_typed h -> is_u64 now ->
  after s (ProcessHandleLocked system_limit h now)
    (fun _ s' => sound past s' /\ topic_state_ (topic s') = topic_state_ (topic s)) (ruined past).
Proof.
  intros Hs Hh Hnow. pose proof (sound_wrecked _ _ Hs) as Hw. unfold ProcessHandleLocked.
  eapply after_or_poison; [|by intros s' s''; apply wrecked_ruined].
  destruct (handle_metadata h) as [m|] eqn:Em; [|by apply after_throw]. specialize (Hh m Em).
  apply after_bind, after_get. do 3 (apply after_when; [done|]; intros _). apply after_bind.
  apply after_lift; [|done]. intros ref Href.
  assert (is_u32 ref) as Hru.
  { destruct Hs as (st & [(closed & Hc & _) _ _ _]). rewrite (ch_options _ _ _ _ _ _ _ Hc) in Href. by eapply Hot. }
  apply after_bind, after_get. set (key := KeyOf (message_source m)). set (n := source_sequence_number (message_source m)).
  apply after_bind. unfold after at 1, tmodify. set (s1 := set_topic _ s).
  destruct Hs as (story & Hl). pose proof (ledger_touch _ _ _ key Hl : ledger past story (told (sources_ (topic s1))) s1) as H1.
  assert (sound past s1) as Hs1 by (by exists story). assert (is_u64 n) as Hn by apply Hh.
  pose proof (gap_follows (sources_ (topic s)) key n (lg_sources _ _ _ _ Hl) Hn) as Hgap.
  destruct (match last_source_sequence _ with Some last => n <=? last | None => false end) eqn:Edup.
  { unfold after, tbind, tmodify, add_counts. split; [|done]. eapply sound_quiet; [exact Hs1|]. by split. }
  specialize (Hgap eq_refl). apply after_bind, after_get.
  assert (told (sources_ (topic s1)) key = told (sources_ (topic s)) key) as Etold.
  { unfold told. cbn [s1 set_topic topic set_progress sources_]. by rewrite progress_insert_same. }
  destruct (match last_source_sequence _ with Some last => if wrap64 (last + 1) <? n then _ else _ | None => None end) as [first|].
  - destruct Hgap as (x & Ex & Ef & Hf & Hfol). apply after_when; [intros _; by apply sound_wrecked|]. intros _.
    apply after_bind. eapply after_mono; [eapply after_gap; [exact H1 | done | done | | exact Ef | done]; fold key; rewrite Etold; exact Ex | | done].
    intros [] s2 (p & H2 & Es2 & Et2). eapply after_mono; [eapply after_message; [exact H2 | done | done | done | |] | | done].
    + fold key. by rewrite fn_lookup_insert.
    + intros key' Hne. fold key in Hne. fold key. rewrite fn_lookup_insert_ne by done. by rewrite Es2.
    + intros [] s3 [H3 E3]. split; [done|]. by rewrite E3, Et2.
  - eapply after_mono; [eapply after_message; [exact H1 | done | done | done | |] | | done].
    + fold key. by rewrite Etold.
    + done.
    + by intros [] s2 [H2 E2].
Qed.

(** ** Public calls *)

Lemma after_drain queue : forall past s limit now, sound past s -> Forall answer_typed queue -> is_u64 now ->
  after s (drain system_limit queue limit now)
    (fun _ s' => sound past s' /\ topic_state_ (topic s') = topic_state_ (topic s)) (fun s' => sound past s' \/ ruined past s').
Proof.
  induction queue as [|a queue IH]; intros past s limit now Hs Hq Hnow; unfold after; cbn [drain].
  { by destruct limit as [n|]; [destruct (negb _)|]. }
  apply list.Forall_cons in Hq as [Ha Hq]. destruct (match limit with Some n => _ | None => false end); [done|].
  destruct a as [h|e recording_failed].
  - fold (after s (tbind (add_counts 1 0 0 0 0 0) (fun _ : unit => tbind (ProcessHandleLocked system_limit h now)
      (fun _ : unit => drain system_limit queue limit now)))
      (fun _ s' => sound past s' /\ topic_state_ (topic s') = topic_state_ (topic s)) (fun s' => sound past s' \/ ruined past s')).
    apply after_counts. intros s1 Hv E1. apply after_bind.
    eapply after_mono; [apply after_Process; [by eapply sound_others | done | done] | | by right].
    intros [] s2 [H2 E2]. eapply after_mono; [by apply IH | | done]. intros [] s3 [H3 E3]. split; [done|].
    by rewrite E3, E2, (others_state _ _ E1).
  - destruct (_ || _); [done|]. apply after_poison. intros s' _ Hqu. left. by eapply sound_quiet.
Qed.

(** Only the segment moves. *)
Lemma segment_sound past story s s' closed : ledger past story (told (sources_ (topic s))) s -> chron past closed Exact s' ->
  others (topic s') = others (topic s) -> closed ++ active_acks_ (topic s') = story -> sound past s'.
Proof.
  intros [_ Hn Ht Hs] Hc E Hst. exists story. rewrite (others_progress _ _ E). split; [by exists closed | | done |].
  - by eapply others_next.
  - by rewrite (others_progress _ _ E).
Qed.

Lemma sound_Flush past s now : sound past s ->
  after s (FlushCurrentLocked system_limit now)
    (fun _ s' => sound past s' /\ topic_state_ (topic s') = topic_state_ (topic s)) (sound past).
Proof.
  intros (story & Hl). pose proof Hl as [(closed & Hc & Hst) _ _ _].
  eapply after_mono; [apply (after_Flush system_limit o first0 (ot_segment _ Hot) past closed Exact), Hc | |].
  - intros [] s' [H1 H2 H3]. split; [|by apply others_state]. eapply segment_sound; [exact Hl | exact H1 | done | by rewrite H3].
  - intros s' [H1 H2 H3]. eapply segment_sound; [exact Hl | exact H1 | done | by rewrite H3].
Qed.

Lemma sound_Seal past s now counted : sound past s -> is_u64 now ->
  after s (SealCurrentLocked system_limit now counted)
    (fun _ s' => sound past s' /\ topic_state_ (topic s') = topic_state_ (topic s)) (sound past).
Proof.
  intros (story & Hl) Hnow. pose proof Hl as [(closed & Hc & Hst) _ _ _].
  eapply after_mono; [by apply (after_Seal system_limit o first0 (ot_segment _ Hot) past closed) | |].
  - intros [] s' (H1 & H2 & _ & H3). split; [|by apply others_state].
    eapply segment_sound; [exact Hl | exact H1 | done |]. by rewrite H3, app_nil_r.
  - intros s' [H1 H2 H3]. eapply segment_sound; [exact Hl | exact H1 | done | by rewrite H3].
Qed.

Inductive TopicCall : Set :=
| CallStart (now : Z) | CallPump (now max_records : Z) (queue : list DequeueAnswer)
| CallFlush (level : RecordAckLevel) (now : Z) | CallStop (now : Z) (queue : list DequeueAnswer)
| CallReportDiscard (d : DiscardedBuffer) | CallReportDiscards (l : list DiscardedBuffer).
Definition topic_call_typed (c : TopicCall) : Prop :=
  match c with
  | CallStart now => is_u64 now
  | CallPump now _ queue | CallStop now queue => is_u64 now /\ Forall answer_typed queue
  | CallFlush _ now => is_u64 now
  | CallReportDiscard _ | CallReportDiscards _ => True
  end.
Definition run_topic (c : TopicCall) (s : Frame) : Frame :=
  match c with
  | CallStart now => fst (Start now s)
  | CallPump now max_records queue => fst (Pump system_limit now max_records queue s)
  | CallFlush level now => fst (FlushTopic system_limit level now s)
  | CallStop now queue => fst (Stop system_limit now queue s)
  | CallReportDiscard d => fst (ReportDiscard d s)
  | CallReportDiscards l => fst (ReportDiscards l s)
  end.

Definition inv (past : list TopicWriterAck) (s : Frame) : Prop := sound past s \/ ruined past s.

Lemma after_fst {A} s (m : TopicM A) (Q : Frame -> Prop) : after s m (fun _ => Q) Q -> Q (fst (m s)).
Proof. unfold after. by destruct (m s) as [s' [a|e]]. Qed.

(** No call changes a poisoned writer or the files. *)
Lemma poisoned_absorbs c s : topic_state_ (topic s) = kTopicError -> run_topic c s = s.
Proof.
  intros E. destruct c as [| | | |d|l]; cbn [run_topic];
    unfold Start, Pump, FlushTopic, Stop, running, ReportDiscard, ReportDiscardLocked, tbind, tget, tthrow; rewrite ?E; try done.
  destruct l as [|d l]; [done|]. cbn [ReportDiscards]. unfold ReportDiscardLocked, tbind, tget, tthrow. by rewrite E.
Qed.

Lemma after_running past s now : sound past s ->
  after s (running now) (fun _ s' => sound past s') (sound past).
Proof.
  intros Hs. unfold running. apply after_bind, after_get. destruct (topic_state_ (topic s)); try by apply after_throw.
  apply after_when; [done|]. intros _. unfold after, tmodify. eapply sound_quiet; [exact Hs|]. by split.
Qed.

Lemma sound_poisoned past s s' : sound past s -> topic_state_ (topic s') = kTopicError -> quiet s s' -> inv past s'.
Proof. intros Hs _ Hq. left. by eapply sound_quiet. Qed.

Lemma progress_sound past s key p : sound past s ->
  last_source_sequence p = last_source_sequence (progress_of (sources_ (topic s)) key) ->
  sound past (set_topic (set_progress key p (topic s)) s).
Proof.
  intros (story & [(closed & Hc & Hst) Hn Ht Hs]) Ep. exists story.
  assert (forall key', last_source_sequence (progress_of (<[key := p]> (sources_ (topic s))) key') =
    last_source_sequence (progress_of (sources_ (topic s)) key')) as Hk.
  { intros key'. unfold progress_of at 1. destruct (decide (key = key')) as [<-|Hne]; [by rewrite lookup_insert_eq|]. by rewrite lookup_insert_ne. }
  split; [| exact Hn | |].
  - exists closed. split; [eapply chron_view; [|exact Hc]; by split | exact Hst].
  - eapply tales_ext; [|exact Ht]. intros key'. unfold told. cbn [set_topic topic set_progress sources_]. by rewrite Hk.
  - intros key' x. cbn [set_topic topic set_progress sources_]. rewrite Hk. apply Hs.
Qed.

Lemma after_Report past s d : sound past s -> after s (ReportDiscardLocked d) (fun _ => sound past) (sound past).
Proof.
  intros Hs. unfold ReportDiscardLocked. apply after_bind, after_get.
  destruct (topic_state_ (topic s)); try (by apply after_throw); (apply after_when; [done|]; intros _);
    (destruct (discard_metadata d) as [m|]; [|by apply after_throw]); (apply after_when; [done|]; intros _);
    unfold after, tmodify; apply progress_sound; try done; by case_match; case_match.
Qed.

Lemma after_Reports l : forall past s, sound past s -> after s (ReportDiscards l) (fun _ => sound past) (sound past).
Proof.
  induction l as [|d l IH]; intros past s Hs; cbn [ReportDiscards]; [by apply after_ret|]. apply after_bind.
  eapply after_mono; [by apply after_Report | | done]. intros [] s' Hs'. by apply IH.
Qed.

Lemma after_Start past s now : sound past s -> after s (Start now) (fun _ => inv past) (inv past).
Proof.
  intros Hs. unfold Start. apply after_bind, after_get.
  destruct (topic_state_ (topic s)); try (by apply after_throw; left). apply after_bind.
  eapply (after_or_poison s _ _ (sound past)); [|by intros s' s''; apply sound_poisoned].
  unfold after, ValidateManifestIdentity. destruct (identity_matches _ _); [|done].
  left. unfold tmodify. eapply sound_quiet; [exact Hs|by split].
Qed.

Lemma after_Pump past s now limit queue : sound past s -> is_u64 now -> Forall answer_typed queue ->
  after s (Pump system_limit now limit queue) (fun _ => inv past) (inv past).
Proof.
  intros Hs Hnow Hq. unfold Pump. apply after_bind. eapply after_mono; [by apply after_running | | by left].
  intros [] s1 H1. apply after_bind. eapply after_mono; [by apply after_drain | | done]. intros [] s2 [H2 _]. apply after_bind.
  eapply after_or_poison; [eapply after_mono; [by apply sound_Flush | | by intros ? H; exact H]|].
  - intros [] s3 [H3 _]. by left.
  - intros s' s''. apply sound_poisoned.
Qed.

Lemma after_FlushTopic past s level now : sound past s -> is_u64 now ->
  after s (FlushTopic system_limit level now) (fun _ => inv past) (inv past).
Proof.
  intros Hs Hnow. unfold FlushTopic. apply after_bind. eapply after_mono; [by apply after_running | | by left].
  intros [] s1 H1. set (m := match level with kAckWritten => _ | _ => _ end).
  assert (after s1 m (fun _ => sound past) (sound past)) as Hm.
  { unfold m. destruct level; try (by apply after_throw); (eapply after_mono; [by apply sound_Flush || by apply sound_Seal | | done]);
      by intros [] s2 [H2 _]. }
  unfold after in *. destruct (m s1) as [s2 [[]|e]]; [by left|]. case_bool_decide; [by left|].
  apply (after_poison e s2 (fun _ => inv past) (inv past)). intros s3. by apply sound_poisoned.
Qed.

Lemma after_Stop past s now queue : sound past s -> is_u64 now -> Forall answer_typed queue ->
  after s (Stop system_limit now queue) (fun _ => inv past) (inv past).
Proof.
  intros Hs Hnow Hq. unfold Stop. apply after_bind, after_get.
  destruct (topic_state_ (topic s)); try (by apply after_throw; left); [| |by apply after_ret; left].
  - left. eapply sound_quiet; [exact Hs|by split].
  - apply after_when; [by left|]. intros _. apply after_bind. unfold after at 1, tmodify. apply after_bind. unfold after at 1.
    apply after_bind. unfold after at 1, close_pool. apply after_bind.
    eapply after_mono; [apply after_drain; [eapply sound_quiet; [exact Hs|by split] | done | done] | | done].
    intros [] s1 [H1 _]. apply after_bind.
    eapply after_or_poison; [eapply after_mono; [by apply sound_Seal | | by intros ? H; exact H]|].
    + intros [] s2 [H2 _]. left. unfold tmodify. eapply sound_quiet; [exact H2|by split].
    + intros s' s''. apply sound_poisoned.
Qed.

Lemma run_topic_inv past s c : inv past s -> topic_call_typed c -> inv past (run_topic c s).
Proof.
  intros [Hs|Hr] Hc.
  - destruct c; cbn [run_topic]; cbn [topic_call_typed] in Hc; apply after_fst.
    + by apply after_Start.
    + destruct Hc. by apply after_Pump.
    + by apply after_FlushTopic.
    + destruct Hc. by apply after_Stop.
    + eapply after_mono; [by apply after_Report | |]; by left.
    + eapply after_mono; [by apply after_Reports | |]; by left.
  - right. rewrite poisoned_absorbs; [done | apply Hr].
Qed.

(** ** Histories *)

(** A writer created on a manifest, and any calls with any answers; [past] are the acknowledgements of the
    calls before the last one, whose own are [acks]. *)
Inductive topic_run : list TopicWriterAck -> Frame -> Prop :=
| topic_created t m d e : CreateTopic o (snapshot_ m) = Ok t -> manifest_run m d -> next_ingestion_sequence_ t = first0 ->
    topic_run [] (mkFrame t m d ∅ ∅ false e [] (mkPumpResult 0 0 0 0 0 0))
| topic_called past s c e : topic_run past s -> topic_call_typed c ->
    topic_run (past ++ acks s) (run_topic c (fresh_call e s)).

Lemma CreateTopic_ok s t : CreateTopic o s = Ok t -> snapshot_typed s ->
  exists first id, t = mkTopicWriter o kTopicCreated ok_status first false id 0 0 ∅ None None [] 0 0 /\ is_u64 first /\ is_u64 id.
Proof.
  intros H [_ _ _ He]. unfold CreateTopic in H.
  do 4 (match type of H with (if ?b then _ else _) = _ => destruct b; [discriminate|] end). apply bindR_Ok in H as ([first id] & Hstart & H).
  assert (is_u64 first /\ is_u64 id) as [Hf Hi].
  { destruct (list.last (segments s)) as [e|] eqn:El; [|injection Hstart as <- <-; split; ulia].
    destruct (_ || _) eqn:E; [discriminate|]. injection Hstart as <- <-. rewrite list.last_lookup in El. apply (list.Forall_lookup_1 _ _ _ _ He) in El.
    destruct El as [E1 _ _ E2 _ _ _ _]. bool_to_prop. split; ulia. }
  match type of H with (if ?b then _ else _) = _ => destruct b; [discriminate|] end. injection H as <-. eexists _, id.
  split; [done|]. split; [|done]. destruct (_ =? 0); [done|apply Hot].
Qed.

Lemma fresh_inv past s e : inv past s -> inv (past ++ acks s) (fresh_call e s).
Proof.
  assert (forall closed exact, chron past closed exact s -> chron (past ++ acks s) closed exact (fresh_call e s)) as Hc.
  { intros closed exact [C1 C2 C3 C4 C5 C6 C7 C8 C9 C10]. split; try done; cbn [fresh_call topic acks]; by rewrite app_nil_r. }
  intros [(story & [(closed & H1 & H2) H3 H4 H5])|[He (closed & f & H1 & H2)]].
  - left. exists story. split; try done. exists closed. by split; [apply Hc|].
  - right. split; [done|]. exists closed, f. by split; [apply Hc|].
Qed.

Lemma topic_run_inv past s : topic_run past s -> inv past s.
Proof.
  induction 1 as [t m d e Ht Hm Hf|past s c e _ IH Hc]; [|apply run_topic_inv; [by apply fresh_inv | done]].
  pose proof (manifest_run_kept m d Hm) as Hk. destruct (CreateTopic_ok _ _ Ht (kp_typed _ _ Hk)) as (first & id & -> & H1 & H2).
  cbn in Hf. subst first. left. exists []. split.
  - exists []. split; [|done]. by split.
  - unfold next_is. cbn. by rewrite Z.add_0_r.
  - by intros key.
  - intros key x. unfold progress_of. cbn. by rewrite lookup_empty.
Qed.

(** ** What a history has acknowledged *)

Lemma run_chron past s : topic_run past s ->
  exists closed exact f, chron past closed exact s /\ tales f (closed ++ active_acks_ (topic s)).
Proof.
  intros [(story & [(closed & Hc & <-) _ Ht _])|[_ (closed & f & Hc & Ht)]]%topic_run_inv; by eexists closed, _, _.
Qed.

(** The records of a synced prefix survive a repair. *)
Lemma in_file_repaired f p strerror path file ro repair answers device inode links :
  in_file o f p -> closed_synced f `prefix_of` file -> zlen file <= off_t_max -> usable ro -> checkpoint ro = None ->
  format_limits ro = writer_limits (segment_options o) -> (forall hd, schema_accepted ro hd = true) ->
  scan_stat answers = stat_of file device inode links ->
  exists first created before r, matches p r /\
    segment_bytes (segment_header_of o first created) ++ records_bytes (before ++ [r])
      `prefix_of` fst (RepairSegment strerror path file answers ro repair).
Proof.
  intros (h & rs & i & r & H1 & H2 & (first & created & ->) & H3 & H4 & H5 & H6 & H7) Hf Hz Hu Hck Hlim Hsch Hstat.
  exists first, created, (take i rs), r. split; [done|]. rewrite <- take_S_r by done.
  destruct (longest_run (segment_header_of o first created) (segment_options o) ro rs None first) as
    (pre & post & Ers & P1 & P2 & _); [split; [done|] | done|].
  { by apply list.Forall_true. }
  rewrite (proj2 P2 H6), app_nil_r in Ers. subst pre. rewrite <- (take_drop (S i) rs) in P1. apply chained_app in P1 as [P1 _].
  assert (segment_bytes (segment_header_of o first created) ++ records_bytes (take (S i) rs) `prefix_of` file) as [rest ->] by (by etrans).
  eapply repair_prefix; [done | done | done | done | done | done | | done]. by rewrite <- app_assoc.
Qed.
End Story.

(** The acknowledgement without its level. *)
Definition pending_of (a : TopicWriterAck) : PendingAck :=
  mkPendingAck (ack_sequence a) (ack_segment_id a) (ack_flags a) (ack_user_tag a) (ack_source a).

(** C6: after any history of calls on a topic writer, with any buffers, discard reports and answers of
    the file systems, the acknowledgements handed out tell one story of records.  Its ingestion
    sequences are contiguous from the first one on; the written acknowledgements are a
    prefix of it, in order and each once, and the durable ones a prefix of the written ones;
    and for every source it is a sequence of messages with increasing source sequences in which
    exactly the jumps are marked, each by one gap record that begins with the first missing
    sequence. *)
Theorem ack_story (P : Posix) (PL : PosixLaws P) (B : Crc32cBackend) (BL : Crc32cLaws B) system_limit o first past s :
  topic_options_typed o -> topic_run system_limit o first past s ->
  exists story f nd nw, tales f story /\ (forall i p, story !! i = Some p -> pending_sequence p = first + Z.of_nat i) /\
    (nd <= nw <= length story)%nat /\
    at_level kAckWritten (past ++ acks s) = ack_at kAckWritten <$> take nw story /\
    at_level kAckDurable (past ++ acks s) = ack_at kAckDurable <$> take nd story.
Proof.
  intros Ho Hr. destruct (run_chron system_limit o first Ho past s Hr) as (closed & exact & f & [C1 C2 C3 C4 C5 C6 C7 C8 C9 C10] & Ht).
  eexists _, f, (length closed + durable_ack_count_ (topic s))%nat, (length closed + written_ack_count_ (topic s))%nat.
  split_and!; try done; rewrite ?length_app; lia.
Qed.

(** C5: a record acknowledged as durable survives.  After any history, whatever a crash leaves of the
    manifest decodes to a snapshot that lists the segment of the acknowledgement and whose durable
    checkpoint is not before its sequence; the segment file is in the synced directory; and
    whatever a crash leaves of the file beyond its synced part, a repair of it, with any answers
    of the system, keeps the header and all records up to the acknowledged one, which has the
    sequence, the flags and the source of the acknowledgement. *)
Theorem durable_ack_survives (P : Posix) (PL : PosixLaws P) (B : Crc32cBackend) (BL : Crc32cLaws B) system_limit o first past s a :
  topic_options_typed o -> topic_run system_limit o first past s -> a ∈ past ++ acks s -> ack_level a = kAckDurable ->
  let segment := ack_segment_id a in
  segment ∈ linked s /\
  reads_as (manifest_limits (manifest_options_ (manifest s)))
    (fun m => listed m segment /\ exists c, snapshot_checkpoint m = Some c /\ ack_sequence a <= durable_sequence c) (manifest_disk s) /\
  exists f, current_file s segment = Some f /\
    forall strerror path file ro repair answers device inode links,
    closed_synced f `prefix_of` file -> zlen file <= off_t_max -> usable ro -> checkpoint ro = None ->
    format_limits ro = writer_limits (segment_options o) -> (forall hd, schema_accepted ro hd = true) ->
    scan_stat answers = stat_of file device inode links ->
    exists first' created before r, matches (pending_of a) r /\
      segment_bytes (segment_header_of o first' created) ++ records_bytes (before ++ [r])
        `prefix_of` fst (RepairSegment strerror path file answers ro repair).
Proof.
  intros Ho Hr Ha Hd segment. destruct (run_chron system_limit o first Ho past s Hr) as (closed & exact & f & Hc & _).
  assert (a ∈ at_level kAckDurable (past ++ acks s)) as Hin by (by apply list_elem_of_filter).
  rewrite (ch_durable _ _ _ _ _ _ _ Hc) in Hin. apply list_elem_of_fmap in Hin as (p & -> & Hp).
  pose proof (proj1 (list.Forall_forall _ _) (ch_stored _ _ _ _ _ _ _ Hc) p Hp) as ((g & Hg & Hin) & Hl & Hm).
  split_and!; [done | | exists g; split; [done|]].
  - intros c Hcr. destruct (kp_file _ _ (ch_manifest _ _ _ _ _ _ _ Hc) c Hcr) as (b & m & -> & Hdec & Hm').
    exists b, m. split; [done|]. split; [done|]. eapply in_manifest_moves; [|exact Hm]. destruct Hm' as [->|[_ ?]]; by auto.
  - intros. by eapply in_file_repaired; destruct p.
Qed.

(** ** A concrete topic *)

Definition sample_topic_options : TopicWriterOptions :=
  mkTopicOptions "root" 9 7 0 5 0 (mkWriterOptions 0 1 0 kPerRecord 0 0 0 2 0 default_limits 100) true
    (Some (fun _ => Ok 4)) None.
Definition sample_handle (sequence tag : Z) (text : list byte) : RecorderBufferHandle :=
  mkHandle 7 tag text (Some (mkRecordMetadata (mkSchemaMetadata 1 [] 1 1) 7 (mkMessageSource 1 2 3 sequence 77) 990
    (zlen text) (PayloadCrc32c text))).
(** Messages 10 and 13 of a source, the second twice: a gap record, a rotation and a duplicate. *)
Definition sample_queue : list DequeueAnswer :=
  [Dequeued (sample_handle 10 5 [Byte.x01; Byte.x02]); Dequeued (sample_handle 13 6 [Byte.x03]);
   Dequeued (sample_handle 13 6 [Byte.x03]); DequeueError (mkStatus kWouldBlock "") false].

Definition sample_idle : TopicWriter := mkTopicWriter sample_topic_options kTopicCreated ok_status 1 false 1 0 0 ∅ None None [] 0 0.
Definition sample_start : option (@Frame sample_posix) :=
  match snd sample_created with
  | Ok m => Some (mkFrame sample_idle m (snd (fst sample_created)) ∅ ∅ false [] [] (mkPumpResult 0 0 0 0 0 0))
  | Err _ => None
  end.
Definition sample_running (s : @Frame sample_posix) : @Frame sample_posix :=
  run_topic (B := software_backend) 1024 (CallStart 1000) (fresh_call [] s).
Definition sample_pumped (s : @Frame sample_posix) : @Frame sample_posix :=
  run_topic (B := software_backend) 1024 (CallPump 1001 10 sample_queue) (fresh_call [] (sample_running s)).

Lemma sample_topic_typed : topic_options_typed sample_topic_options.
Proof.
  split; [split; vm_compute; discriminate | by split_and! | done|]. intros schema r H. vm_compute in H. injection H as <-. ulia.
Qed.
Lemma sample_handle_typed sequence tag text : is_u64 sequence -> handle_typed (sample_handle sequence tag text).
Proof. intros Hs m [= <-]. split; [split|..]; cbn; first [done | ulia]. Qed.

Lemma sample_queue_typed : Forall answer_typed sample_queue.
Proof. do 3 (constructor; [apply sample_handle_typed; ulia|]). by constructor. Qed.

Lemma sample_history : exists s past, sample_start = Some s /\
  topic_run (B := software_backend) 1024 sample_topic_options 1 past (sample_pumped s).
Proof.
  unfold sample_start. destruct sample_created as [[t d] [m|e]] eqn:E; [|vm_compute in E; discriminate].
  cbn [fst snd]. eexists _, _. split; [done|].
  eapply (topic_called _ _ _ _ _ (CallPump 1001 10 sample_queue)); [|split; [ulia | exact sample_queue_typed]].
  eapply (topic_called _ _ _ _ _ (CallStart 1000)); [|cbn; ulia]. apply topic_created; [| |done].
  - vm_compute in E. injection E as <- <- <-. vm_compute. reflexivity.
  - eapply run_created; [exact sample_metadata_typed | exact E].
Qed.

Lemma ack_story_witness : exists s past, sample_start = Some s /\
  (ack_sequence <$> at_level kAckDurable (acks (sample_pumped s))) = [1; 2; 3] /\
  exists story f nd nw, tales f story /\ (forall i p, story !! i = Some p -> pending_sequence p = 1 + Z.of_nat i) /\
    (nd <= nw <= length story)%nat /\
    at_level kAckWritten (past ++ acks (sample_pumped s)) = ack_at kAckWritten <$> take nw story /\
    at_level kAckDurable (past ++ acks (sample_pumped s)) = ack_at kAckDurable <$> take nd story.
Proof.
  destruct sample_history as (s & past & E & Hr). exists s, past. split; [done|]. split.
  - vm_compute in E. injection E as <-. vm_compute. reflexivity.
  - exact (ack_story sample_posix (ConcreteDisk.posix_laws _) software_backend software_laws 1024 sample_topic_options 1 past
      (sample_pumped s) sample_topic_typed Hr).
Defined.

Lemma durable_ack_survives_witness : exists s f a r before first created, sample_start = Some s /\ a ∈ acks (sample_pumped s) /\
  ack_flags a = kRecordFlagGap /\ current_file (sample_pumped s) (ack_segment_id a) = Some f /\ matches (pending_of a) r /\
  let file := closed_synced f ++ [Byte.x01; Byte.x02; Byte.x03] in
  segment_bytes (B := software_backend) (segment_header_of sample_topic_options first created) ++ records_bytes (before ++ [r])
    `prefix_of` fst (RepairSegment (B := software_backend) (fun _ => "") "segment" file (sample_answers file) sample_options sample_repair).
Proof.
  destruct sample_history as (s & past & E & Hr).
  assert (exists a, a ∈ acks (sample_pumped s) /\ ack_level a = kAckDurable /\ ack_flags a = kRecordFlagGap /\ ack_segment_id a = 1 /\
    exists g, current_file (sample_pumped s) 1 = Some g /\ zlen (closed_synced g) = 364) as (a & Ha & Hd & Hf & Hid & g & Hg & Hz).
  { vm_compute in E. injection E as <-. eexists. split; [apply (list_elem_of_lookup_2 _ 3); vm_compute; reflexivity|].
    split; [reflexivity|]. split; [reflexivity|]. split; [reflexivity|]. eexists. split; vm_compute; reflexivity. }
  destruct (durable_ack_survives sample_posix (ConcreteDisk.posix_laws _) software_backend software_laws 1024 sample_topic_options 1 past
    (sample_pumped s) a sample_topic_typed Hr) as (_ & _ & f & Hfile & Hrep); [apply elem_of_app; by right | done|].
  rewrite Hid, Hg in Hfile. injection Hfile as <-.
  destruct (Hrep (fun _ => "") "segment" (closed_synced g ++ [Byte.x01; Byte.x02; Byte.x03]) sample_options sample_repair
    (sample_answers (closed_synced g ++ [Byte.x01; Byte.x02; Byte.x03])) 5 6 1) as (first & created & before & r & Hm & Hp).
  - by eexists.
  - unfold zlen in *. rewrite length_app. cbn [length]. unfold off_t_max. ulia.
  - apply sample_usable.
  - reflexivity.
  - reflexivity.
  - intros hd. unfold schema_accepted, SchemaRefKnown. cbn. apply orb_true_r.
  - reflexivity.
  - exists s, g, a, r, before, first, created. by rewrite Hid.
Defined.
