(* ===== verification/BufferPool.v ===== *)
(** * The recorder's buffer pool

    [mino/storage/recorder_buffer_pool.{h,cc}]: the bounded queue between the producers of a recording and its
    topic writer, with the chunk pool behind it.  A producer reserves a buffer, writes into it and commits it; the
    consumer dequeues it and releases it.  The state is the code's, with its members grouped: the queue ring, the
    byte ledger, the blocks on the heap with the lists that link them.

    Every call holds the mutex, so a call is one transition.  A call that waits on a condition variable is evaluated
    at every wake-up ([Waiting] when its predicate does not hold yet); [timed_out] says that its deadline has passed.
    [None] is undefined behaviour (a null or dangling pointer, an index out of range) or a loop that has used up its
    fuel; [BufferPoolSafety] proves that neither happens.  What the allocator answers is an input. *)
From S2P Require Import Prelude Bytes SourceIdentity TopicWriter.

(** ** Constants and data of the interface *)

Definition kRecorderSmallBufferClassBytes : Z := 4 * 1024.
Definition kRecorderMediumBufferClassBytes : Z := 64 * 1024.
Definition kRecorderLargeBufferClassBytes : Z := 1024 * 1024.
Definition kFixedClassBytes : list Z :=
  [kRecorderSmallBufferClassBytes; kRecorderMediumBufferClassBytes; kRecorderLargeBufferClassBytes].

Inductive BufferFullPolicy : Set := kBlock | kDropNewest | kDropOldest | kFailRecording | OtherPolicy (value : Z).
Inductive BufferPressureState : Set := kLow | kNormal | kHigh.
Inductive BufferAdmission : Set := kAccepted | kDroppedNewest | kRecordingFailed.

(** [DiscardedBuffer] with all its members; the topic writer reads three of them. *)
Record PoolDiscard : Set := mkPoolDiscard {
  pd_reason : BufferDiscardReason; pd_topic_id : Z; pd_user_tag : Z; pd_payload_size : Z; pd_charged_bytes : Z;
  pd_metadata : option RecorderRecordMetadata
}.

Record RecorderBufferPoolOptions : Set := mkPoolOptions {
  global_byte_limit : Z; default_topic_byte_limit : Z; queue_capacity : Z; max_topics : Z;
  max_large_object_bytes : Z; high_watermark_bytes : Z; low_watermark_bytes : Z; topic_byte_limits : gmap Z Z
}.

Record BufferReservationRequest : Set := mkReservationRequest {
  request_topic_id : Z; request_payload_size : Z; request_user_tag : Z; full_policy : BufferFullPolicy;
  request_timeout : Z; request_metadata : option RecorderRecordMetadata
}.
(** [std::chrono::nanoseconds::max()]: wait without a deadline. *)
Definition nanoseconds_max : Z := two63 - 1.

Definition with_watermarks (high low : Z) (o : RecorderBufferPoolOptions) : RecorderBufferPoolOptions :=
  mkPoolOptions (global_byte_limit o) (default_topic_byte_limit o) (queue_capacity o) (max_topics o)
    (max_large_object_bytes o) high low (topic_byte_limits o).

Definition NormalizeOptions (requested : RecorderBufferPoolOptions) : Result RecorderBufferPoolOptions :=
  let limit := global_byte_limit requested in
  fail_if limit =? 0 with Invalid "recorder global byte limit must be non-zero" ;;
  fail_if default_topic_byte_limit requested =? 0 with Invalid "recorder default topic byte limit must be non-zero" ;;
  fail_if queue_capacity requested =? 0 with Invalid "recorder queue capacity must be non-zero" ;;
  fail_if max_topics requested =? 0 with Invalid "recorder max_topics must be non-zero" ;;
  fail_if max_large_object_bytes requested <? kRecorderLargeBufferClassBytes with
    Invalid "recorder large-object limit must be at least 1 MiB" ;;
  fail_if existsb (fun kv => kv.2 =? 0) (map_to_list (topic_byte_limits requested)) with
    Invalid "recorder topic byte limits must be non-zero" ;;
  let high := if high_watermark_bytes requested =? 0
              then let derived := limit - limit / 5 in if derived =? 0 then 1 else derived
              else high_watermark_bytes requested in
  let low := if low_watermark_bytes requested =? 0 then limit / 2 else low_watermark_bytes requested in
  fail_if limit <? high with Invalid "recorder high watermark exceeds global byte limit" ;;
  fail_if high <=? low with Invalid "recorder low watermark must be below high watermark" ;;
  Ok (with_watermarks high low requested).

Definition IsValidPolicy (policy : BufferFullPolicy) : bool :=
  match policy with kBlock | kDropNewest | kDropOldest | kFailRecording => true | OtherPolicy _ => false end.

(** ** Blocks *)

(** A [RecorderBufferBlock*] that is not null; a nullable one is an [option]. *)
Definition Ptr : Set := positive.
Record RecorderBufferBlock : Set := mkBlock {
  data : list byte; capacity : Z; fixed_class : Z;
  free_next : option Ptr; all_previous : option Ptr; all_next : option Ptr
}.
Definition new_block (buffer_capacity class : Z) : RecorderBufferBlock :=
  mkBlock (replicate (Z.to_nat buffer_capacity) Byte.x00) buffer_capacity class None None None.

Definition set_data (d : list byte) (b : RecorderBufferBlock) : RecorderBufferBlock :=
  mkBlock d (capacity b) (fixed_class b) (free_next b) (all_previous b) (all_next b).
Definition set_free_next (p : option Ptr) (b : RecorderBufferBlock) : RecorderBufferBlock :=
  mkBlock (data b) (capacity b) (fixed_class b) p (all_previous b) (all_next b).
Definition set_all_previous (p : option Ptr) (b : RecorderBufferBlock) : RecorderBufferBlock :=
  mkBlock (data b) (capacity b) (fixed_class b) (free_next b) p (all_next b).
Definition set_all_next (p : option Ptr) (b : RecorderBufferBlock) : RecorderBufferBlock :=
  mkBlock (data b) (capacity b) (fixed_class b) (free_next b) (all_previous b) p.

(** The blocks alive on the heap, the list of all of them, the free list of every fixed class. *)
Record BlockStore : Set := mkStore {
  heap : gmap Ptr RecorderBufferBlock; all_blocks : option Ptr; free_blocks : list (option Ptr); allocated_bytes : Z
}.
Definition with_heap (h : gmap Ptr RecorderBufferBlock) (s : BlockStore) : BlockStore :=
  mkStore h (all_blocks s) (free_blocks s) (allocated_bytes s).
Definition with_all (p : option Ptr) (s : BlockStore) : BlockStore :=
  mkStore (heap s) p (free_blocks s) (allocated_bytes s).
Definition with_free (i : nat) (p : option Ptr) (s : BlockStore) : BlockStore :=
  mkStore (heap s) (all_blocks s) (<[i := p]> (free_blocks s)) (allocated_bytes s).
Definition with_allocated (n : Z) (s : BlockStore) : BlockStore :=
  mkStore (heap s) (all_blocks s) (free_blocks s) n.

(** Reading and writing through a pointer. *)
Definition load (p : Ptr) (s : BlockStore) : option RecorderBufferBlock := heap s !! p.
Definition store (p : Ptr) (f : RecorderBufferBlock -> RecorderBufferBlock) (s : BlockStore) : option BlockStore :=
  b ← load p s; Some (with_heap (<[p := f b]> (heap s)) s).
Definition store_opt (p : option Ptr) (f : RecorderBufferBlock -> RecorderBufferBlock) (s : BlockStore) :
    option BlockStore :=
  match p with Some q => store q f s | None => Some s end.

Definition LinkBlockLocked (block : Ptr) (s : BlockStore) : option BlockStore :=
  s ← store block (set_all_next (all_blocks s)) s;
  s ← store block (set_all_previous None) s;
  s ← store_opt (all_blocks s) (set_all_previous (Some block)) s;
  b ← load block s;
  Some (with_allocated (wrap64 (allocated_bytes s + capacity b)) (with_all (Some block) s)).

Definition DeleteBlockLocked (block : Ptr) (s : BlockStore) : option BlockStore :=
  b ← load block s;
  s ← match all_previous b with
      | None => Some (with_all (all_next b) s)
      | Some previous => store previous (set_all_next (all_next b)) s
      end;
  b ← load block s;
  s ← store_opt (all_next b) (set_all_previous (all_previous b)) s;
  b ← load block s;
  Some (with_heap (delete block (heap s)) (with_allocated (wrap64 (allocated_bytes s - capacity b)) s)).

(** [head = block->free_next; block->free_next = nullptr] for the list of class [i]. *)
Definition pop_free (i : nat) (block : Ptr) (s : BlockStore) : option BlockStore :=
  b ← load block s; store block (set_free_next None) (with_free i (free_next b) s).

(** The loop over the free lists, from class [i]. *)
Fixpoint evict_from (i : nat) (heads : list (option Ptr)) (s : BlockStore) : option (bool * BlockStore) :=
  match heads with
  | [] => Some (false, s)
  | None :: rest => evict_from (S i) rest s
  | Some victim :: _ => s ← pop_free i victim s; s ← DeleteBlockLocked victim s; Some (true, s)
  end.
Definition EvictOneFreeBlockLocked (s : BlockStore) : option (bool * BlockStore) := evict_from 0 (free_blocks s) s.

Fixpoint class_index (capacity : Z) (i : Z) (classes : list Z) : Z :=
  match classes with
  | [] => -1
  | bytes :: rest => if capacity =? bytes then i else class_index capacity (i + 1) rest
  end.
Definition FixedClassForCapacity (capacity : Z) : Z := class_index capacity 0 kFixedClassBytes.

(** The loop that makes room below the global limit; [true] when there is room. *)
Fixpoint evict_until (fuel : nat) (limit charged : Z) (s : BlockStore) : option (bool * BlockStore) :=
  match fuel with
  | O => None
  | S fuel =>
      if wrap64 (limit - allocated_bytes s) <? charged then
        '(evicted, s) ← EvictOneFreeBlockLocked s;
        if (evicted : bool) then evict_until fuel limit charged s else Some (false, s)
      else Some (true, s)
  end.

(** [new_address] is where [new] places a block beside the living ones, none when it throws [std::bad_alloc]; the
    caller turns the exception into a null block. *)
Definition NewAddress : Set := gmap Ptr RecorderBufferBlock -> option Ptr.
Definition AcquireBlockLocked (limit charged : Z) (new_address : NewAddress) (s : BlockStore) :
    option (option Ptr * BlockStore) :=
  let class := FixedClassForCapacity charged in
  let head := if 0 <=? class then default None (free_blocks s !! Z.to_nat class) else None in
  match head with
  | Some block => s ← pop_free (Z.to_nat class) block s; Some (Some block, s)
  | None =>
      '(room, s) ← evict_until (S (size (heap s))) limit charged s;
      if negb room then Some (None, s)
      else match new_address (heap s) with
      | None => Some (None, s)
      | Some block =>
          s ← LinkBlockLocked block (with_heap (<[block := new_block charged class]> (heap s)) s); Some (Some block, s)
      end
  end.

(** The block half of [ReleaseBlockLocked]. *)
Definition release_block (closed : bool) (block : Ptr) (s : BlockStore) : option BlockStore :=
  b ← load block s;
  if negb closed && (0 <=? fixed_class b) then
    head ← free_blocks s !! Z.to_nat (fixed_class b);
    s ← store block (set_free_next head) s;
    Some (with_free (Z.to_nat (fixed_class b)) (Some block) s)
  else DeleteBlockLocked block s.

(** The destructor of the state: the list of all blocks, deleted from its head. *)
Fixpoint delete_all (fuel : nat) (block : option Ptr) (h : gmap Ptr RecorderBufferBlock) :
    option (gmap Ptr RecorderBufferBlock) :=
  match block with
  | None => Some h
  | Some p => match fuel with O => None | S fuel => b ← h !! p; delete_all fuel (all_next b) (delete p h) end
  end.
Definition destroy_pool (s : BlockStore) : option (gmap Ptr RecorderBufferBlock) :=
  delete_all (size (heap s)) (all_blocks s) (heap s).

(** ** The queue, the ledger, the pool *)

(** The members that [QueueEntry], [RecorderBufferReservation] and [RecorderBufferHandle] share: the buffer moves
    from the reservation to the queue entry to the handle with them.  Without a block it is a default-constructed
    or moved-from object. *)
Record Lease : Set := mkLease {
  lease_block : option Ptr; lease_topic_id : Z; lease_payload_size : Z; lease_charged_bytes : Z; lease_user_tag : Z;
  lease_metadata : option RecorderRecordMetadata
}.
Definition empty_lease : Lease := mkLease None 0 0 0 0 None.

Record QueueRing : Set := mkRing { queue : list Lease; queue_head : Z; queue_tail : Z; queued_records : Z }.
Record TopicUsage : Set := mkUsage { usage_bytes : Z; usage_leases : Z }.
Record Ledger : Set := mkLedger { topic_usage : gmap Z TopicUsage; bytes_in_use : Z }.
Record PoolCounters : Set := mkCounters {
  accepted_count : Z; dequeued_count : Z; dropped_newest_count : Z; dropped_oldest_count : Z; cancelled_count : Z;
  timeout_count : Z; failure_count : Z
}.
Record RecorderBufferPoolState : Set := mkPool {
  pool_options : RecorderBufferPoolOptions; ring : QueueRing; reserved_records : Z; ledger : Ledger;
  blocks : BlockStore; pressure : BufferPressureState; closed : bool; recording_failed : bool; counters : PoolCounters
}.
Abbreviation Pool := RecorderBufferPoolState.

Definition with_ring (r : QueueRing) (s : Pool) : Pool :=
  mkPool (pool_options s) r (reserved_records s) (ledger s) (blocks s) (pressure s) (closed s) (recording_failed s) (counters s).
Definition with_reserved (n : Z) (s : Pool) : Pool :=
  mkPool (pool_options s) (ring s) n (ledger s) (blocks s) (pressure s) (closed s) (recording_failed s) (counters s).
Definition with_ledger (l : Ledger) (s : Pool) : Pool :=
  mkPool (pool_options s) (ring s) (reserved_records s) l (blocks s) (pressure s) (closed s) (recording_failed s) (counters s).
Definition with_blocks (b : BlockStore) (s : Pool) : Pool :=
  mkPool (pool_options s) (ring s) (reserved_records s) (ledger s) b (pressure s) (closed s) (recording_failed s) (counters s).
Definition with_pressure (p : BufferPressureState) (s : Pool) : Pool :=
  mkPool (pool_options s) (ring s) (reserved_records s) (ledger s) (blocks s) p (closed s) (recording_failed s) (counters s).
Definition with_failed (f : bool) (s : Pool) : Pool :=
  mkPool (pool_options s) (ring s) (reserved_records s) (ledger s) (blocks s) (pressure s) (closed s) f (counters s).
Definition with_counters (c : PoolCounters) (s : Pool) : Pool :=
  mkPool (pool_options s) (ring s) (reserved_records s) (ledger s) (blocks s) (pressure s) (closed s) (recording_failed s) c.

(** [++] of a [uint64_t] counter. *)
Definition plus1 (n : Z) : Z := wrap64 (n + 1).
Definition count_accepted (c : PoolCounters) : PoolCounters :=
  mkCounters (plus1 (accepted_count c)) (dequeued_count c) (dropped_newest_count c) (dropped_oldest_count c) (cancelled_count c) (timeout_count c) (failure_count c).
Definition count_dequeued (c : PoolCounters) : PoolCounters :=
  mkCounters (accepted_count c) (plus1 (dequeued_count c)) (dropped_newest_count c) (dropped_oldest_count c) (cancelled_count c) (timeout_count c) (failure_count c).
Definition count_dropped_newest (c : PoolCounters) : PoolCounters :=
  mkCounters (accepted_count c) (dequeued_count c) (plus1 (dropped_newest_count c)) (dropped_oldest_count c) (cancelled_count c) (timeout_count c) (failure_count c).
Definition count_dropped_oldest (c : PoolCounters) : PoolCounters :=
  mkCounters (accepted_count c) (dequeued_count c) (dropped_newest_count c) (plus1 (dropped_oldest_count c)) (cancelled_count c) (timeout_count c) (failure_count c).
Definition count_cancelled (c : PoolCounters) : PoolCounters :=
  mkCounters (accepted_count c) (dequeued_count c) (dropped_newest_count c) (dropped_oldest_count c) (plus1 (cancelled_count c)) (timeout_count c) (failure_count c).
Definition count_timeout (c : PoolCounters) : PoolCounters :=
  mkCounters (accepted_count c) (dequeued_count c) (dropped_newest_count c) (dropped_oldest_count c) (cancelled_count c) (plus1 (timeout_count c)) (failure_count c).
Definition count_failure (c : PoolCounters) : PoolCounters :=
  mkCounters (accepted_count c) (dequeued_count c) (dropped_newest_count c) (dropped_oldest_count c) (cancelled_count c) (timeout_count c) (plus1 (failure_count c)).
Definition counted (f : PoolCounters -> PoolCounters) (s : Pool) : Pool := with_counters (f (counters s)) s.

Definition TopicLimitLocked (o : RecorderBufferPoolOptions) (topic_id : Z) : Z :=
  match topic_byte_limits o !! topic_id with Some limit => limit | None => default_topic_byte_limit o end.
Definition TopicBytesLocked (l : Ledger) (topic_id : Z) : Z :=
  match topic_usage l !! topic_id with Some usage => usage_bytes usage | None => 0 end.

(** The classes in their order, then whole 4 KiB pages up to the large-object limit. *)
Fixpoint class_for (payload_size : Z) (classes : list Z) : option Z :=
  match classes with
  | [] => None
  | bytes :: rest => if payload_size <=? bytes then Some bytes else class_for payload_size rest
  end.
Definition ChargedBytes (o : RecorderBufferPoolOptions) (payload_size : Z) : Result Z :=
  if payload_size =? 0 then Ok 0
  else match class_for payload_size kFixedClassBytes with
  | Some bytes => Ok bytes
  | None =>
      fail_if max_large_object_bytes o <? payload_size with Resource "recorder payload exceeds large-object limit" ;;
      let remainder := payload_size mod kRecorderSmallBufferClassBytes in
      if remainder =? 0 then Ok payload_size
      else
        let increment := kRecorderSmallBufferClassBytes - remainder in
        fail_if u64_max - increment <? payload_size with Resource "recorder payload size overflows class rounding" ;;
        let rounded := payload_size + increment in
        Ok (if rounded <=? max_large_object_bytes o then rounded else max_large_object_bytes o)
  end.

Definition CanAdmitLocked (s : Pool) (topic_id charged : Z) : bool :=
  let o := pool_options s in
  if queue_capacity o <=? wrap64 (reserved_records s + queued_records (ring s)) then false
  else if wrap64 (global_byte_limit o - bytes_in_use (ledger s)) <? charged then false
  else charged <=? wrap64 (TopicLimitLocked o topic_id - TopicBytesLocked (ledger s) topic_id).

Definition pressure_of (o : RecorderBufferPoolOptions) (in_use : Z) : BufferPressureState :=
  if high_watermark_bytes o <=? in_use then kHigh
  else if in_use <=? low_watermark_bytes o then kLow else kNormal.
Definition UpdatePressureLocked (s : Pool) : Pool :=
  with_pressure (pressure_of (pool_options s) (bytes_in_use (ledger s))) s.

(** The ledger half of [ReleaseBlockLocked]. *)
Definition release_bytes (topic_id charged : Z) (l : Ledger) : Ledger :=
  let usage' :=
    match topic_usage l !! topic_id with
    | None => topic_usage l
    | Some usage =>
        let bytes := if charged <=? usage_bytes usage then usage_bytes usage - charged else 0 in
        let leases := if negb (usage_leases usage =? 0) then usage_leases usage - 1 else 0 in
        if leases =? 0 then delete topic_id (topic_usage l)
        else <[topic_id := mkUsage bytes leases]> (topic_usage l)
    end in
  mkLedger usage' (if charged <=? bytes_in_use l then bytes_in_use l - charged else 0).

Definition ReleaseBlockLocked (block : option Ptr) (topic_id charged : Z) (s : Pool) : option Pool :=
  p ← block;
  b ← release_block (closed s) p (blocks s);
  Some (UpdatePressureLocked (with_blocks b (with_ledger (release_bytes topic_id charged (ledger s)) s))).

(** [if (reserved_records != 0) --reserved_records]. *)
Definition drop_reserved (s : Pool) : Pool :=
  with_reserved (if reserved_records s =? 0 then 0 else reserved_records s - 1) s.

(** ** Reservations and handles *)

Definition lease_discard (reason : BufferDiscardReason) (l : Lease) : PoolDiscard :=
  mkPoolDiscard reason (lease_topic_id l) (lease_user_tag l) (lease_payload_size l) (lease_charged_bytes l) (lease_metadata l).

(** [ReleaseHandle], for [RecorderBufferHandle::Reset]. *)
Definition ReleaseHandle (l : Lease) (s : Pool) : option Pool :=
  ReleaseBlockLocked (lease_block l) (lease_topic_id l) (lease_charged_bytes l) s.
Definition ResetHandle (l : Lease) (s : Pool) : option (Lease * Pool) :=
  match lease_block l with
  | None => Some (l, s)
  | Some _ => s ← ReleaseHandle l s; Some (mkLease None (lease_topic_id l) 0 0 0 None, s)
  end.

Definition CancelReservation (l : Lease) (s : Pool) : option (option PoolDiscard * Pool) :=
  match lease_block l with
  | None => Some (None, s)
  | Some _ =>
      s ← ReleaseBlockLocked (lease_block l) (lease_topic_id l) (lease_charged_bytes l) (counted count_cancelled (drop_reserved s));
      Some (Some (lease_discard DiscardReservationCancelled l), s)
  end.

Definition Unavailable (m : string) : Status := mkStatus kUnavailable m.
Definition stopped_status (s : Pool) : Status :=
  Unavailable (if closed s then "recorder buffer pool is closed" else "recorder recording has failed").

(** [queue[queue_tail] = entry] and the new tail. *)
Definition push_back (capacity : Z) (l : Lease) (r : QueueRing) : option QueueRing :=
  _ ← queue r !! Z.to_nat (queue_tail r);
  Some (mkRing (<[Z.to_nat (queue_tail r) := l]> (queue r)) (queue_head r) (wrap64 (queue_tail r + 1) mod capacity)
          (wrap64 (queued_records r + 1))).
(** The entry at the head, cleared, and the new head. *)
Definition pop_front (capacity : Z) (r : QueueRing) : option (Lease * QueueRing) :=
  entry ← queue r !! Z.to_nat (queue_head r);
  Some (entry, mkRing (<[Z.to_nat (queue_head r) := empty_lease]> (queue r)) (wrap64 (queue_head r + 1) mod capacity)
                 (queue_tail r) (wrap64 (queued_records r - 1))).

(** [diagnostic] is false when building the rejection throws: the reservation is then cancelled. *)
Definition CommitReservation (l : Lease) (s : Pool) : option (Result unit * Pool) :=
  if closed s || recording_failed s then
    s' ← ReleaseBlockLocked (lease_block l) (lease_topic_id l) (lease_charged_bytes l) (drop_reserved s);
    Some (Err (stopped_status s), s')
  else
    r ← push_back (queue_capacity (pool_options s)) l (ring s);
    Some (Ok tt, counted count_accepted (drop_reserved (with_ring r s))).
Definition Commit (diagnostic : bool) (l : Lease) (s : Pool) : option (Result unit * Pool) :=
  match lease_block l with
  | None => Some (Err (Invalid ""), s)
  | Some _ =>
      if (closed s || recording_failed s) && negb diagnostic then
        '(_, s) ← CancelReservation l s; Some (Err (Internal ""), s)
      else CommitReservation l s
  end.
Definition Cancel (l : Lease) (s : Pool) : option (option PoolDiscard * Pool) := CancelReservation l s.

(** [bytes()]: the span of the payload in the block. *)
Definition lease_bytes (l : Lease) (s : BlockStore) : option (list byte) :=
  match lease_block l with
  | None => Some []
  | Some p => b ← load p s; Some (take (Z.to_nat (lease_payload_size l)) (data b))
  end.
(** The producer fills the span. *)
Definition write_lease (l : Lease) (content : list byte) (s : BlockStore) : option BlockStore :=
  p ← lease_block l;
  store p (fun b => set_data (content ++ drop (length content) (data b)) b) s.

(** ** Reserve *)

Definition QueueAtLocked (s : Pool) (offset : Z) : option Lease :=
  queue (ring s) !! Z.to_nat (wrap64 (queue_head (ring s) + offset) mod queue_capacity (pool_options s)).

Definition DropFrontLocked (s : Pool) : option Pool :=
  '(entry, r) ← pop_front (queue_capacity (pool_options s)) (ring s);
  ReleaseBlockLocked (lease_block entry) (lease_topic_id entry) (lease_charged_bytes entry)
    (counted count_dropped_oldest (with_ring r s)).
Fixpoint drop_fronts (n : nat) (s : Pool) : option Pool :=
  match n with O => Some s | S n => s ← DropFrontLocked s; drop_fronts n s end.

(** The search for the shortest prefix of the queue whose eviction makes room, over [n] more entries. *)
Fixpoint find_prefix (s : Pool) (topic_id charged : Z) (n : nat) (prefix freed_global freed_topic freed_slots : Z) :
    option (option Z) :=
  match n with
  | O => Some None
  | S n =>
      entry ← QueueAtLocked s prefix;
      let o := pool_options s in
      let freed_global := wrap64 (freed_global + lease_charged_bytes entry) in
      let freed_topic := if lease_topic_id entry =? topic_id then wrap64 (freed_topic + lease_charged_bytes entry)
                         else freed_topic in
      let freed_slots := wrap64 (freed_slots + 1) in
      let slot_fits := wrap64 (reserved_records s + queued_records (ring s) - freed_slots) <? queue_capacity o in
      let global_fits :=
        charged <=? wrap64 (global_byte_limit o - wrap64 (bytes_in_use (ledger s) - freed_global)) in
      let topic_fits :=
        charged <=? wrap64 (TopicLimitLocked o topic_id - wrap64 (TopicBytesLocked (ledger s) topic_id - freed_topic)) in
      if slot_fits && global_fits && topic_fits then Some (Some (prefix + 1))
      else find_prefix s topic_id charged n (prefix + 1) freed_global freed_topic freed_slots
  end.

Record BufferReserveResult : Set := mkReserveResult {
  admission : BufferAdmission; reservation : Lease; discarded : list PoolDiscard
}.
Inductive Outcome (A : Type) : Type := Returned (r : Result A) | Waiting.
Arguments Returned {A} r.
Arguments Waiting {A}.

(** What the allocator answers to one call: for a node of [topic_usage], for a block. *)
Record Allocator : Set := mkAllocator { usage_node : bool; block_address : NewAddress }.

Definition incoming_discard (reason : BufferDiscardReason) (q : BufferReservationRequest) (charged : Z) : PoolDiscard :=
  mkPoolDiscard reason (request_topic_id q) (request_user_tag q) (request_payload_size q) charged (request_metadata q).

(** The incoming record is not admitted: reported with the evicted ones when there are some, else an error. *)
Definition refuse (reason : BufferDiscardReason) (error : string) (q : BufferReservationRequest) (charged : Z)
    (discards : list PoolDiscard) (s : Pool) : Outcome BufferReserveResult * Pool :=
  if bool_decide (discards = []) then (Returned (Err (Resource error)), s)
  else (Returned (Ok (mkReserveResult kDroppedNewest empty_lease (discards ++ [incoming_discard reason q charged]))),
        counted count_dropped_newest s).

Definition erase_unused (topic_id : Z) (l : Ledger) : Ledger :=
  match topic_usage l !! topic_id with
  | Some usage => if usage_leases usage =? 0 then mkLedger (delete topic_id (topic_usage l)) (bytes_in_use l) else l
  | None => l
  end.
Definition charge_topic (topic_id charged : Z) (l : Ledger) : Ledger :=
  let usage := default (mkUsage 0 0) (topic_usage l !! topic_id) in
  mkLedger (<[topic_id := mkUsage (wrap64 (usage_bytes usage + charged)) (wrap64 (usage_leases usage + 1))]> (topic_usage l))
    (wrap64 (bytes_in_use l + charged)).

(** The second half of [Reserve]: accounting, block, reservation. *)
Definition take_block (env : Allocator) (q : BufferReservationRequest) (charged : Z) (discards : list PoolDiscard) (s : Pool) :
    option (Outcome BufferReserveResult * Pool) :=
  let topic_id := request_topic_id q in
  '(block, b) ← AcquireBlockLocked (global_byte_limit (pool_options s)) charged (block_address env) (blocks s);
  let s := with_blocks b s in
  match block with
  | None =>
      Some (refuse DiscardAllocationFailure "cannot allocate recorder buffer class" q charged discards
              (with_ledger (erase_unused topic_id (ledger s)) s))
  | Some p =>
      let s := with_ledger (charge_topic topic_id charged (ledger s))
                 (with_reserved (wrap64 (reserved_records s + 1)) s) in
      Some (Returned (Ok (mkReserveResult kAccepted
              (mkLease (Some p) topic_id (request_payload_size q) charged (request_user_tag q) (request_metadata q))
              discards)), UpdatePressureLocked s)
  end.
Definition admit_request (env : Allocator) (q : BufferReservationRequest) (charged : Z) (discards : list PoolDiscard) (s : Pool) :
    option (Outcome BufferReserveResult * Pool) :=
  let topic_id := request_topic_id q in
  let usage := topic_usage (ledger s) in
  match usage !! topic_id with
  | Some _ => take_block env q charged discards s
  | None =>
      if max_topics (pool_options s) <=? Z.of_nat (size usage) then
        Some (refuse DiscardNoDroppableOldest "recorder active topic limit reached" q charged discards s)
      else if negb (usage_node env) then
        Some (refuse DiscardAllocationFailure "cannot allocate recorder topic accounting" q charged discards s)
      else take_block env q charged discards
             (with_ledger (mkLedger (<[topic_id := mkUsage 0 0]> usage) (bytes_in_use (ledger s))) s)
  end.

(** The [kDropOldest] branch: evict the prefix found, or drop the incoming record. *)
Definition drop_oldest (env : Allocator) (q : BufferReservationRequest) (charged : Z) (can_ever_fit : bool) (s : Pool) :
    option (Outcome BufferReserveResult * Pool) :=
  let queued := queued_records (ring s) in
  found ← find_prefix s (request_topic_id q) charged (Z.to_nat queued) 0 0 0 0;
  let rejected := Some (Returned (Ok (mkReserveResult kDroppedNewest empty_lease
                          [incoming_discard DiscardNoDroppableOldest q charged])), counted count_dropped_newest s) in
  match found with
  | None => rejected
  | Some prefix =>
      if negb can_ever_fit || (prefix =? 0) || (queued <? prefix) then rejected
      else
        victims ← mapM (fun i : nat => QueueAtLocked s (Z.of_nat i)) (seq 0 (Z.to_nat prefix));
        s ← drop_fronts (Z.to_nat prefix) s;
        admit_request env q charged (lease_discard DiscardDropOldest <$> victims) s
  end.

Definition metadata_matches (q : BufferReservationRequest) : bool :=
  match request_metadata q with
  | None => true
  | Some m => (metadata_topic_id m =? request_topic_id q) && (metadata_payload_size m =? request_payload_size q)
  end.

(** The checks before the mutex is taken; the charge of the request. *)
Definition check_request (o : RecorderBufferPoolOptions) (q : BufferReservationRequest) : Result Z :=
  fail_if negb (IsValidPolicy (full_policy q)) with Invalid "invalid recorder buffer full policy" ;;
  fail_if request_timeout q <? 0 with Invalid "recorder reserve timeout must not be negative" ;;
  fail_if negb (metadata_matches q) with Invalid "recorder buffer metadata does not match request" ;;
  ChargedBytes o (request_payload_size q).

Definition Reserve (env : Allocator) (timed_out : bool) (q : BufferReservationRequest) (s : Pool) :
    option (Outcome BufferReserveResult * Pool) :=
  match check_request (pool_options s) q with
  | Err e => Some (Returned (Err e), s)
  | Ok charged =>
      if closed s || recording_failed s then Some (Returned (Err (stopped_status s)), s)
      else
        let can_ever_fit := (charged <=? global_byte_limit (pool_options s))
                            && (charged <=? TopicLimitLocked (pool_options s) (request_topic_id q)) in
        if CanAdmitLocked s (request_topic_id q) charged then admit_request env q charged [] s
        else match full_policy q with
        | kBlock =>
            if negb can_ever_fit then
              Some (Returned (Err (Resource "recorder request exceeds global or topic byte limit")), s)
            else if timed_out && negb (request_timeout q =? nanoseconds_max) then
              Some (Returned (Err (mkStatus kTimeout "recorder reserve timed out")), counted count_timeout s)
            else Some (Waiting, s)
        | kDropNewest =>
            Some (Returned (Ok (mkReserveResult kDroppedNewest empty_lease [incoming_discard DiscardDropNewest q charged])),
                  counted count_dropped_newest s)
        | kFailRecording =>
            Some (Returned (Ok (mkReserveResult kRecordingFailed empty_lease [incoming_discard DiscardFailRecording q charged])),
                  counted count_failure (with_failed true s))
        | kDropOldest => drop_oldest env q charged can_ever_fit s
        | OtherPolicy _ => admit_request env q charged [] s
        end
  end.

(** ** Dequeue, Close, observers *)

Definition take_front (s : Pool) : option (Lease * Pool) :=
  '(entry, r) ← pop_front (queue_capacity (pool_options s)) (ring s);
  Some (entry, counted count_dequeued (with_ring r s)).

Definition Dequeue (timed_out : bool) (timeout : Z) (s : Pool) : option (Outcome Lease * Pool) :=
  if timeout <? 0 then Some (Returned (Err (Invalid "recorder dequeue timeout must not be negative")), s)
  else if queued_records (ring s) =? 0 then
    if closed s || recording_failed s then Some (Returned (Err (stopped_status s)), s)
    else if timed_out && negb (timeout =? nanoseconds_max) then
      Some (Returned (Err (mkStatus kTimeout "recorder dequeue timed out")), s)
    else Some (Waiting, s)
  else '(entry, s) ← take_front s; Some (Returned (Ok entry), s).

Definition TryDequeue (s : Pool) : option (Result Lease * Pool) :=
  if queued_records (ring s) =? 0 then
    if closed s || recording_failed s then Some (Err (stopped_status s), s)
    else Some (Err (mkStatus kWouldBlock "recorder queue is empty"), s)
  else '(entry, s) ← take_front s; Some (Ok entry, s).

Definition Close (s : Pool) : Pool :=
  mkPool (pool_options s) (ring s) (reserved_records s) (ledger s) (blocks s) (pressure s) true (recording_failed s) (counters s).

(** [Create]; [memory] is false when the state cannot be allocated. *)
Definition initial_pool (o : RecorderBufferPoolOptions) : Pool :=
  mkPool o (mkRing (replicate (Z.to_nat (queue_capacity o)) empty_lease) 0 0 0) 0 (mkLedger ∅ 0)
    (mkStore ∅ None [None; None; None] 0) kLow false false (mkCounters 0 0 0 0 0 0 0).
Definition CreatePool (memory : bool) (requested : RecorderBufferPoolOptions) : Result Pool :=
  let! o := NormalizeOptions requested in
  fail_if negb memory with Resource "cannot allocate recorder buffer pool metadata" ;;
  Ok (initial_pool o).

Record RecorderBufferPoolStats : Set := mkPoolStats {
  stat_bytes_in_use : Z; stat_allocated_bytes : Z; stat_queued_records : Z; stat_reserved_records : Z;
  stat_active_topics : Z; stat_counters : PoolCounters; stat_pressure : BufferPressureState; stat_closed : bool;
  stat_recording_failed : bool
}.
Definition pool_stats (s : Pool) : RecorderBufferPoolStats :=
  mkPoolStats (bytes_in_use (ledger s)) (allocated_bytes (blocks s)) (queued_records (ring s)) (reserved_records s)
    (Z.of_nat (size (topic_usage (ledger s)))) (counters s) (pressure s) (closed s) (recording_failed s).
Definition TopicBytesInUse (s : Pool) (topic_id : Z) : Z := TopicBytesLocked (ledger s) topic_id.
Definition TopicByteLimit (s : Pool) (topic_id : Z) : Z := TopicLimitLocked (pool_options s) topic_id.
