(* ===== verification/BufferPoolHeap.v ===== *)
(** * The blocks of the buffer pool

    The doubly linked list of all blocks and the free lists of the fixed classes, as representation predicates over
    the heap.  A store represents [held], the blocks in the hands of reservations, queue entries and handles, and
    [free], the cached ones; every block operation is specified by what it does to the two. *)

From S2P Require Import Prelude Bytes SourceIdentity TopicWriter BufferPool.

(** ** Sums *)

Definition sumz {A} (f : A -> Z) (l : list A) : Z := foldr (fun x n => f x + n) 0 l.

Section Sums.
Context {A : Type} (f : A -> Z).
Lemma sumz_cons x l : sumz f (x :: l) = f x + sumz f l.
Proof. done. Qed.
Lemma sumz_app l k : sumz f (l ++ k) = sumz f l + sumz f k.
Proof. unfold sumz. induction l as [|x l IH]; [done|]. cbn. rewrite IH. lia. Qed.
Lemma sumz_perm l k : l ≡ₚ k -> sumz f l = sumz f k.
Proof. unfold sumz. induction 1; cbn; lia. Qed.
Lemma sumz_nonneg l : (forall x, x ∈ l -> 0 <= f x) -> 0 <= sumz f l.
Proof.
  unfold sumz. induction l as [|x l IH]; intros H; [done|]. cbn. pose proof (H x (list_elem_of_here _ _)).
  enough (0 <= foldr (fun x n => f x + n) 0 l) by lia. apply IH. intros y Hy. apply H. by right.
Qed.
Lemma sumz_ext (g : A -> Z) l : (forall x, x ∈ l -> f x = g x) -> sumz f l = sumz g l.
Proof.
  unfold sumz. induction l as [|x l IH]; intros H; [done|]. cbn. rewrite (H x) by (by left). f_equal. apply IH.
  intros y Hy. apply H. by right.
Qed.
End Sums.
#[global] Arguments sumz : simpl never.
#[export] Instance sumz_proper {A} (f : A -> Z) : Proper ((≡ₚ) ==> eq) (sumz f).
Proof. intros l k. apply sumz_perm. Qed.

(** ** The list of all blocks *)

Abbreviation Heap := (gmap Ptr RecorderBufferBlock).

(** The block after the end of [l] is [next], the one before its start [previous]. *)
Definition head_or (l : list Ptr) (next : option Ptr) : option Ptr := match l with [] => next | p :: _ => Some p end.
Fixpoint last_or (previous : option Ptr) (l : list Ptr) : option Ptr :=
  match l with [] => previous | p :: l => last_or (Some p) l end.
Fixpoint chained (h : Heap) (previous : option Ptr) (l : list Ptr) (next : option Ptr) : Prop :=
  match l with
  | [] => True
  | p :: l => (exists b, h !! p = Some b /\ all_previous b = previous /\ all_next b = head_or l next) /\ chained h (Some p) l next
  end.

(** What the links leave alone. *)
Abbreviation Core := (list byte * Z * Z * option Ptr)%type.
Definition core_of (b : RecorderBufferBlock) : Core := (data b, capacity b, fixed_class b, free_next b).
Definition cores (h : Heap) : gmap Ptr Core := core_of <$> h.

Lemma list_snoc_inv {A} (l : list A) : l = [] \/ exists x k, l = k ++ [x].
Proof. induction l as [|x l _] using rev_ind; [by left | right; by exists x, l]. Qed.
Lemma head_or_app l k next : head_or (l ++ k) next = head_or l (head_or k next).
Proof. by destruct l. Qed.
Lemma last_or_snoc previous l p : last_or previous (l ++ [p]) = Some p.
Proof. revert previous. induction l as [|q l IH]; intros previous; cbn; auto. Qed.

Lemma links_app h previous l k next :
  chained h previous (l ++ k) next <-> chained h previous l (head_or k next) /\ chained h (last_or previous l) k next.
Proof.
  revert previous. induction l as [|p l IH]; intros previous; cbn; [tauto|].
  rewrite IH, head_or_app. tauto.
Qed.

Lemma chained_frame h h' previous l next :
  (forall p, p ∈ l -> h' !! p = h !! p) -> chained h previous l next -> chained h' previous l next.
Proof.
  revert previous. induction l as [|p l IH]; intros previous H; cbn; [done|]. intros [(b & Hb & Hc) Hl].
  split; [|apply IH; [|done]; intros q Hq; apply H; by right]. exists b. rewrite H by (by left). done.
Qed.

(** A new successor of the last block. *)
Lemma chained_set_next h previous l q b next next' :
  NoDup (l ++ [q]) -> h !! q = Some b -> chained h previous (l ++ [q]) next ->
  chained (<[q := set_all_next next' b]> h) previous (l ++ [q]) next'.
Proof.
  intros Hnd Hb Hc. apply list.NoDup_app in Hnd as (_ & Hn & _). apply links_app in Hc as (Hl & (b' & Hb' & Hp & _) & _).
  apply links_app. cbn in *. split.
  - eapply chained_frame; [|exact Hl]. intros p Hp'. rewrite lookup_insert_ne; [done|]. intros <-. by apply (Hn q Hp'), list_elem_of_here.
  - split; [|done]. rewrite Hb in Hb'. injection Hb' as <-. exists (set_all_next next' b). by rewrite lookup_insert_eq.
Qed.
(** A new predecessor of the first block. *)
Lemma chained_set_previous h previous previous' q b l next :
  NoDup (q :: l) -> h !! q = Some b -> chained h previous (q :: l) next ->
  chained (<[q := set_all_previous previous' b]> h) previous' (q :: l) next.
Proof.
  intros Hnd Hb [(b' & Hb' & _ & Hn) Hl]. apply list.NoDup_cons in Hnd as [Hq _]. rewrite Hb in Hb'. injection Hb' as <-. split.
  - exists (set_all_previous previous' b). by rewrite lookup_insert_eq.
  - eapply chained_frame; [|exact Hl]. intros p Hp. rewrite lookup_insert_ne; [done|]. intros <-. done.
Qed.

(** A write that keeps the core. *)
Lemma cores_insert h p b b' : h !! p = Some b -> core_of b' = core_of b -> cores (<[p := b']> h) = cores h.
Proof. intros Hb E. unfold cores. rewrite fmap_insert, E. apply insert_id. by rewrite lookup_fmap, Hb. Qed.
Lemma cores_lookup h p : cores h !! p = core_of <$> (h !! p).
Proof. apply lookup_fmap. Qed.
Lemma cores_delete h p : cores (delete p h) = delete p (cores h).
Proof. apply fmap_delete. Qed.
Lemma cores_alive h h' p : cores h' = cores h -> is_Some (h' !! p) <-> is_Some (h !! p).
Proof. intros E. apply (f_equal (lookup p)) in E. rewrite !cores_lookup in E. destruct (h !! p), (h' !! p); naive_solver. Qed.

(** ** The free lists *)

(** Along [free_next] from [head]. *)
Fixpoint freed (c : gmap Ptr Core) (head : option Ptr) (l : list Ptr) : Prop :=
  match l with
  | [] => head = None
  | p :: l => head = Some p /\ exists k, c !! p = Some k /\ freed c k.2 l
  end.
Lemma freed_frame c c' head l : (forall p, p ∈ l -> c' !! p = c !! p) -> freed c head l -> freed c' head l.
Proof.
  revert head. induction l as [|p l IH]; intros head H; cbn; [done|]. intros (-> & k & Hk & Hl). split; [done|].
  exists k. rewrite H by (by left). split; [done|]. apply IH; [|done]. intros q Hq. apply H. by right.
Qed.

(** ** The representation of a store *)

Definition cap_in (c : gmap Ptr Core) (p : Ptr) : Z := match c !! p with Some k => k.1.1.2 | None => 0 end.
Record core_ok (k : Core) : Prop := {
  co_size : Z.of_nat (length k.1.1.1) = k.1.1.2; co_class : k.1.2 = FixedClassForCapacity k.1.1.2
}.
Definition class_capacity (i : nat) : Z := nth i kFixedClassBytes 0.
#[global] Arguments class_capacity : simpl never.
#[global] Arguments FixedClassForCapacity : simpl never.

Record linked_all (all : list Ptr) (s : BlockStore) : Prop := {
  la_nodup : NoDup all; la_alive : forall p, is_Some (heap s !! p) <-> p ∈ all;
  la_head : all_blocks s = head_or all None; la_chain : chained (heap s) None all None
}.
Record store_ok (limit : Z) (held : list Ptr) (free : list (list Ptr)) (s : BlockStore) : Prop := {
  st_all : exists all, linked_all all s /\ all ≡ₚ held ++ concat free;
  st_free : Forall2 (freed (cores (heap s))) (free_blocks s) free; st_classes : length free = 3%nat;
  st_class : forall i l p, free !! i = Some l -> p ∈ l -> cap_in (cores (heap s)) p = class_capacity i;
  st_cores : forall p k, cores (heap s) !! p = Some k -> core_ok k;
  st_allocated : allocated_bytes s = sumz (cap_in (cores (heap s))) (held ++ concat free);
  st_limit : allocated_bytes s <= limit; st_address : forall p : Ptr, p ∈ held ++ concat free -> Z.pos p < two64
}.

(** ** Linking and unlinking *)

Lemma store_eq p f s b : heap s !! p = Some b -> store p f s = Some (with_heap (<[p := f b]> (heap s)) s).
Proof. intros E. unfold store, load. by rewrite E. Qed.

(** The block before [p] loses [p] as its successor. *)
Lemma unlink_next l1 p l2 s b : linked_all (l1 ++ p :: l2) s -> heap s !! p = Some b ->
  exists s', (match all_previous b with
              | None => Some (with_all (all_next b) s)
              | Some previous => store previous (set_all_next (all_next b)) s
              end) = Some s' /\
    chained (heap s') None l1 (head_or l2 None) /\ chained (heap s') (Some p) l2 None /\ heap s' !! p = Some b /\
    all_blocks s' = head_or (l1 ++ l2) None /\ cores (heap s') = cores (heap s) /\
    free_blocks s' = free_blocks s /\ allocated_bytes s' = allocated_bytes s /\
    (all_previous b = last_or None l1 /\ all_next b = head_or l2 None).
Proof.
  intros [Hnd Ha Hh Hc] Hb. apply links_app in Hc as [H1 [(b' & Hb' & Hp & Hn) H2]]. cbn [head_or] in H1.
  rewrite Hb in Hb'. injection Hb' as <-. rewrite Hp, Hn. destruct (list_snoc_inv l1) as [->|(q & l1' & ->)].
  - cbn. eexists. by split.
  - rewrite last_or_snoc. apply list.NoDup_app in Hnd as (Hnd & Hx & Hnd2). apply list.NoDup_cons in Hnd2 as [Hpl _].
    assert (q ∈ l1' ++ [q]) as Hq by (apply elem_of_app; right; by left).
    assert (q <> p /\ q ∉ l2) as [Hqp Hql] by (split; intros Hin; apply (Hx q Hq); [rewrite Hin; by left | by right]).
    destruct (proj2 (Ha q)) as [bq Hbq]; [rewrite elem_of_app; by left|]. eexists.
    split; [by apply store_eq|]. cbn [heap with_heap all_blocks free_blocks allocated_bytes]. split_and!; try done.
    + by eapply chained_set_next.
    + eapply chained_frame; [|exact H2]. intros r Hr. rewrite lookup_insert_ne; [done|]. by intros <-.
    + by rewrite lookup_insert_ne.
    + rewrite Hh. by destruct l1'.
    + by eapply cores_insert.
Qed.

(** The block after [p] loses [p] as its predecessor. *)
Lemma unlink_previous l1 p l2 s : NoDup (l1 ++ p :: l2) ->
  (forall q, q ∈ l2 -> is_Some (heap s !! q)) ->
  chained (heap s) None l1 (head_or l2 None) -> chained (heap s) (Some p) l2 None ->
  exists s', store_opt (head_or l2 None) (set_all_previous (last_or None l1)) s = Some s' /\
    chained (heap s') None (l1 ++ l2) None /\ heap s' !! p = heap s !! p /\ all_blocks s' = all_blocks s /\
    cores (heap s') = cores (heap s) /\ free_blocks s' = free_blocks s /\ allocated_bytes s' = allocated_bytes s.
Proof.
  intros Hnd Ha H1 H2. rewrite list.NoDup_app in Hnd. destruct Hnd as (_ & Hx & Hnd).
  apply list.NoDup_cons in Hnd as [Hpl Hnd]. destruct l2 as [|q l2].
  - exists s. cbn. rewrite app_nil_r. by split_and!.
  - destruct (Ha q) as [bq Hbq]; [by left|]. eexists. split; [by apply store_eq|].
    cbn [heap with_heap all_blocks free_blocks allocated_bytes]. split_and!; try done.
    + apply links_app. split; [|by eapply chained_set_previous].
      eapply chained_frame; [|exact H1]. intros r Hr. rewrite lookup_insert_ne; [done|]. intros <-.
      apply (Hx q Hr). right. by left.
    + rewrite lookup_insert_ne; [done|]. intros ->. apply Hpl. by left.
    + by eapply cores_insert.
Qed.

Lemma delete_linked l1 p l2 s b : linked_all (l1 ++ p :: l2) s -> heap s !! p = Some b ->
  exists s', DeleteBlockLocked p s = Some s' /\ linked_all (l1 ++ l2) s' /\
    cores (heap s') = delete p (cores (heap s)) /\ free_blocks s' = free_blocks s /\
    allocated_bytes s' = wrap64 (allocated_bytes s - capacity b).
Proof.
  intros Hl Hb. destruct (unlink_next _ _ _ _ _ Hl Hb) as (s1 & E1 & H1 & H2 & Hb1 & Hh1 & Hc1 & Hf1 & Hal1 & Hp & Hn).
  destruct Hl as [Hnd Ha _ _].
  destruct (unlink_previous l1 p l2 s1 Hnd) as (s2 & E2 & H3 & Hb2 & Hh2 & Hc2 & Hf2 & Hal2); try done.
  { intros q Hq. apply (cores_alive _ _ q Hc1), Ha. apply elem_of_app. right. by right. }
  unfold DeleteBlockLocked, load. rewrite Hb. cbn. rewrite E1. cbn. rewrite Hb1. cbn. rewrite Hn, Hp, E2. cbn.
  rewrite Hb2, Hb1. cbn. eexists. split; [done|]. cbn [heap all_blocks free_blocks allocated_bytes with_heap with_allocated].
  rewrite cores_delete, Hc2, Hc1, Hf2, Hf1, Hal2, Hal1. split_and!; try done.
  apply list.NoDup_app in Hnd as (Hnd1 & Hx & Hnd2). pose proof Hnd2 as [Hpl Hnd2']%list.NoDup_cons.
  assert (forall q, q ∈ l1 ++ l2 -> q <> p) as Hne.
  { intros q Hq ->. apply elem_of_app in Hq as [Hq|Hq]; [|done]. apply (Hx p Hq). by left. }
  split.
  - apply list.NoDup_app. split_and!; [done| |done]. intros q Hq Hq'. apply (Hx q Hq). by right.
  - intros q. cbn. rewrite lookup_delete_is_Some, (cores_alive _ _ q Hc2), (cores_alive _ _ q Hc1), Ha.
    specialize (Hne q). rewrite elem_of_app in Hne |- *. rewrite elem_of_app, elem_of_cons. intuition congruence.
  - by rewrite <- Hh1, <- Hh2.
  - eapply chained_frame; [|exact H3]. intros q Hq. cbn. rewrite lookup_delete_ne; [done|]. intros <-. by apply (Hne p).
Qed.

Lemma link_linked all p s b : linked_all all s -> p ∉ all ->
  exists s', LinkBlockLocked p (with_heap (<[p := b]> (heap s)) s) = Some s' /\ linked_all (p :: all) s' /\
    cores (heap s') = <[p := core_of b]> (cores (heap s)) /\ free_blocks s' = free_blocks s /\
    allocated_bytes s' = wrap64 (allocated_bytes s + capacity b).
Proof.
  intros [Hnd Ha Hh Hc] Hp. unfold LinkBlockLocked.
  rewrite (store_eq _ _ _ b) by apply lookup_insert_eq. cbn. rewrite insert_insert_eq.
  erewrite store_eq by apply lookup_insert_eq. cbn. rewrite insert_insert_eq.
  set (b' := set_all_previous None (set_all_next (all_blocks s) b)).
  assert (chained (<[p := b']> (heap s)) None all None) as Hc'.
  { eapply chained_frame; [|exact Hc]. intros q Hq. rewrite lookup_insert_ne; [done|]. by intros <-. }
  assert (cores (<[p := b']> (heap s)) = <[p := core_of b]> (cores (heap s))) as E by (unfold cores; by rewrite fmap_insert).
  rewrite Hh. destruct all as [|q all].
  - unfold load. cbn. rewrite lookup_insert_eq. cbn. eexists. split; [done|]. cbn. split_and!; try done. split; cbn.
    + apply list.NoDup_singleton.
    + intros r. rewrite lookup_insert_is_Some', Ha, list_elem_of_singleton, elem_of_nil. intuition.
    + done.
    + split; [|done]. exists b'. rewrite lookup_insert_eq. unfold b'. cbn. by rewrite Hh.
  - assert (q <> p) as Hqp by (intros ->; apply Hp; by left). destruct (proj2 (Ha q)) as [bq Hbq]; [by left|].
    cbn. erewrite store_eq by (cbn; rewrite lookup_insert_ne by done; exact Hbq). unfold load. cbn.
    rewrite lookup_insert_ne, lookup_insert_eq by done. cbn. eexists. split; [done|]. cbn. split_and!; try done.
    + split; cbn.
      * apply list.NoDup_cons. done.
      * intros r. rewrite !lookup_insert_is_Some', Ha, !elem_of_cons. intuition.
      * done.
      * split; [exists b'; rewrite lookup_insert_ne, lookup_insert_eq by done; unfold b'; cbn; by rewrite Hh|].
        eapply (chained_set_previous _ _ (Some p) q bq all); [done | by rewrite lookup_insert_ne | exact Hc'].
    + rewrite <- E. eapply cores_insert; [by rewrite lookup_insert_ne|done].
Qed.

(** ** Facts about a represented store *)

Lemma class_inv c i : FixedClassForCapacity c = Z.of_nat i -> (i < 3)%nat /\ c = class_capacity i.
Proof.
  unfold FixedClassForCapacity, class_index, kFixedClassBytes. repeat case_match; bool_to_prop; intros E; try lia;
    [assert (i = 0)%nat as -> by lia | assert (i = 1)%nat as -> by lia | assert (i = 2)%nat as -> by lia]; (split; [lia|]); done.
Qed.
Lemma class_of_capacity i : (i < 3)%nat -> FixedClassForCapacity (class_capacity i) = Z.of_nat i.
Proof. intros Hi. do 3 (destruct i as [|i]; [reflexivity|]). lia. Qed.
Lemma class_range c : -1 <= FixedClassForCapacity c < 3.
Proof. unfold FixedClassForCapacity, class_index, kFixedClassBytes. repeat case_match; lia. Qed.

Lemma concat_insert_perm {A} (free : list (list A)) i l p :
  free !! i = Some (p :: l) -> concat free ≡ₚ p :: concat (<[i := l]> free).
Proof.
  intros E. pose proof (lookup_lt_Some _ _ _ E) as Hi. rewrite <- (take_drop_middle free i (p :: l)) at 1 by done.
  rewrite insert_take_drop, !concat_app by done. cbn [concat]. cbn. symmetry. apply Permutation_middle.
Qed.
Lemma concat_update_perm {A} (free : list (list A)) i l p :
  free !! i = Some l -> concat (<[i := p :: l]> free) ≡ₚ p :: concat free.
Proof.
  intros E. pose proof (lookup_lt_Some _ _ _ E). rewrite (concat_insert_perm (<[i := p :: l]> free) i l p).
  - by rewrite list_insert_insert_eq, list_insert_id.
  - by apply list_lookup_insert_eq.
Qed.
Lemma elem_of_concat_in {A} (free : list (list A)) l p : l ∈ free -> p ∈ l -> p ∈ concat free.
Proof. intros El Hp. apply list_elem_of_In, in_concat. exists l. by rewrite <- !list_elem_of_In. Qed.
Lemma elem_of_concat_at {A} (free : list (list A)) i l p : free !! i = Some l -> p ∈ l -> p ∈ concat free.
Proof. intros E%list_elem_of_lookup_2. by apply elem_of_concat_in. Qed.

(** The links do not see the rest of a block. *)
Lemma chained_insert h previous l next p b b' :
  h !! p = Some b -> all_previous b' = all_previous b -> all_next b' = all_next b ->
  chained h previous l next -> chained (<[p := b']> h) previous l next.
Proof.
  intros Hb Hp Hn. revert previous. induction l as [|q l IH]; intros previous; cbn; [done|]. intros [(bq & Hbq & H1 & H2) Hl].
  split; [|by apply IH]. destruct (decide (p = q)) as [<-|E].
  - exists b'. rewrite lookup_insert_eq. assert (bq = b) as -> by congruence. by rewrite Hp, Hn.
  - exists bq. by rewrite lookup_insert_ne.
Qed.
Lemma linked_insert all s p b b' : linked_all all s -> heap s !! p = Some b -> all_previous b' = all_previous b ->
  all_next b' = all_next b -> linked_all all (with_heap (<[p := b']> (heap s)) s).
Proof.
  intros [H1 H2 H3 H4] Hb Hp Hn. split; [done| |done|by eapply chained_insert].
  intros q. cbn. rewrite lookup_insert_is_Some', H2. split; [|by right]. intros [<-|?]; [|done]. apply H2. by exists b.
Qed.
Lemma linked_free all s i p : linked_all all (with_free i p s) <-> linked_all all s.
Proof. by split; intros []; split. Qed.

Lemma freed_lists_frame c c' heads free :
  (forall q, q ∈ concat free -> c' !! q = c !! q) -> Forall2 (freed c) heads free -> Forall2 (freed c') heads free.
Proof.
  intros Hq H. induction H as [|head l heads free Hl _ IH]; [constructor|]. cbn in Hq. constructor.
  - eapply freed_frame; [|exact Hl]. intros q ?. apply Hq, elem_of_app. by left.
  - apply IH. intros q ?. apply Hq, elem_of_app. by right.
Qed.
Lemma cap_in_other (c c' : gmap Ptr Core) p : (c' !! p = c !! p) -> cap_in c' p = cap_in c p.
Proof. intros E. unfold cap_in. by rewrite E. Qed.

Section Store.
Context (limit : Z).
Abbreviation store_ok := (store_ok limit).

Lemma store_nodup held free s : store_ok held free s -> NoDup (held ++ concat free).
Proof. intros H. destruct (st_all _ _ _ _ H) as (all & Hl & <-). apply Hl. Qed.
Lemma store_alive held free s p : store_ok held free s -> is_Some (heap s !! p) <-> p ∈ held ++ concat free.
Proof. intros H. destruct (st_all _ _ _ _ H) as (all & Hl & <-). apply Hl. Qed.
Lemma store_core held free s p : store_ok held free s -> p ∈ held ++ concat free ->
  exists b, heap s !! p = Some b /\ core_ok (core_of b) /\ cap_in (cores (heap s)) p = capacity b.
Proof.
  intros H Hp. destruct (proj2 (store_alive _ _ _ _ H) Hp) as [b Hb]. exists b. split; [done|].
  assert (cores (heap s) !! p = Some (core_of b)) as E by by rewrite cores_lookup, Hb.
  split; [by eapply st_cores | unfold cap_in; by rewrite E].
Qed.
Lemma store_caps held free s p : store_ok held free s -> 0 <= cap_in (cores (heap s)) p.
Proof.
  intros H. unfold cap_in. destruct (cores (heap s) !! p) as [k|] eqn:E; [|done].
  destruct (st_cores _ _ _ _ H p k E) as [Hk _]. lia.
Qed.
Lemma store_perm held held' free s : held ≡ₚ held' -> store_ok held free s -> store_ok held' free s.
Proof.
  intros E [H1 H2 H3 H4 H5 H6 H7 H8]. split; try done.
  - destruct H1 as (all & Hl & Ha). exists all. by rewrite <- E.
  - by rewrite <- E.
  - intros p. rewrite <- E. apply H8.
Qed.
(** ** The block operations on a represented store *)

Definition agree (held : list Ptr) (c c' : gmap Ptr Core) : Prop := forall q, q ∈ held -> c' !! q = c !! q.
Lemma agree_trans held c1 c2 c3 : agree held c1 c2 -> agree held c2 c3 -> agree held c1 c3.
Proof. intros H1 H2 q Hq. by rewrite H2, H1. Qed.

(** No block is new. *)
Definition shrinks (c c' : gmap Ptr Core) : Prop := forall q, is_Some (c' !! q) -> is_Some (c !! q).
Lemma shrinks_trans c1 c2 c3 : shrinks c1 c2 -> shrinks c2 c3 -> shrinks c1 c3.
Proof. intros H1 H2 q Hq. auto. Qed.
Lemma shrinks_delete c p : shrinks c (delete p c).
Proof. intros q Hq. by apply lookup_delete_is_Some in Hq as [_ ?]. Qed.
Lemma shrinks_but c c' p : is_Some (c !! p) -> (forall q, q <> p -> c' !! q = c !! q) -> shrinks c c'.
Proof. intros Hp H q Hq. destruct (decide (q = p)) as [->|E]; [done|]. by rewrite <- (H q E). Qed.

(** One block changes hands between [held] and [free]: only its [free_next] is written. *)
Lemma store_move held free held' free' s p b next i head :
  store_ok held free s -> heap s !! p = Some b -> held' ++ concat free' ≡ₚ held ++ concat free ->
  length free' = 3%nat ->
  (forall j l q, free' !! j = Some l -> q ∈ l -> cap_in (cores (heap s)) q = class_capacity j) ->
  Forall2 (freed (<[p := core_of (set_free_next next b)]> (cores (heap s)))) (<[i := head]> (free_blocks s)) free' ->
  let s' := with_free i head (with_heap (<[p := set_free_next next b]> (heap s)) s) in
  store_ok held' free' s' /\ forall q, q <> p -> cores (heap s') !! q = cores (heap s) !! q.
Proof.
  intros Hs Hb Hperm Hlen Hcls Hfree s'.
  assert (cores (heap s') = <[p := core_of (set_free_next next b)]> (cores (heap s))) as E by (apply fmap_insert).
  assert (forall q, cap_in (cores (heap s')) q = cap_in (cores (heap s)) q) as Hcap.
  { intros q. rewrite E. unfold cap_in. destruct (decide (p = q)) as [<-|Hn].
    - by rewrite lookup_insert_eq, cores_lookup, Hb.
    - by rewrite lookup_insert_ne. }
  split; [|intros q Hq; rewrite E; by rewrite lookup_insert_ne].
  destruct Hs as [(all & Hall & Hp) Hf Hl Hc Hk Ha Hlim Had]. split; try done.
  - exists all. split; [apply linked_free; by eapply linked_insert | by rewrite Hp].
  - by rewrite E.
  - intros j l q. rewrite Hcap. apply Hcls.
  - intros q k. rewrite E. destruct (decide (p = q)) as [<-|Hn]; [|rewrite lookup_insert_ne by done; apply Hk].
    rewrite lookup_insert_eq. intros [= <-]. assert (core_ok (core_of b)) as [H1 H2] by (apply (Hk p); by rewrite cores_lookup, Hb).
    by split.
  - rewrite Hperm. cbn [allocated_bytes s' with_free with_heap]. rewrite Ha. apply sumz_ext. intros q _. by rewrite Hcap.
  - intros q. rewrite Hperm. apply Had.
Qed.

Lemma pop_free_ok held free s i p l : store_ok held free s -> free !! i = Some (p :: l) ->
  exists s', pop_free i p s = Some s' /\ store_ok (p :: held) (<[i := l]> free) s' /\
    (forall q, q <> p -> cores (heap s') !! q = cores (heap s) !! q) /\
    cap_in (cores (heap s')) p = class_capacity i.
Proof.
  intros Hs Hi. pose proof (store_nodup _ _ _ Hs) as Hnd. pose proof (concat_insert_perm _ _ _ _ Hi) as Hperm.
  assert (p ∈ concat free) as Hpf by (rewrite Hperm; by left).
  destruct (store_core _ _ _ p Hs) as (b & Hb & _ & Hcap); [apply elem_of_app; by right|].
  destruct (Forall2_lookup_r _ _ _ _ _ (st_free _ _ _ _ Hs) Hi) as (hd & Hhd & _ & k & Hk & Hfl).
  rewrite cores_lookup, Hb in Hk. injection Hk as <-. cbn in Hfl.
  rewrite Hperm in Hnd. apply list.NoDup_app in Hnd as (_ & _ & Hnd%list.NoDup_cons). destruct Hnd as [Hpn _].
  unfold pop_free, load. rewrite Hb. cbn. erewrite store_eq by exact Hb.
  destruct (store_move held free (p :: held) (<[i := l]> free) s p b None i (free_next b)) as [H1 H2]; try done.
  - rewrite Hperm. cbn. apply Permutation_middle.
  - rewrite length_insert. apply Hs.
  - intros j k q Hj Hq. destruct (decide (i = j)) as [<-|Hn].
    + rewrite list_lookup_insert_eq in Hj by (by eapply lookup_lt_Some). injection Hj as <-. eapply st_class; [done|exact Hi|by right].
    + rewrite list_lookup_insert_ne in Hj by done. by eapply st_class.
  - eapply freed_lists_frame; [|apply Forall2_insert; [apply Hs | exact Hfl]]. intros q Hq.
    rewrite lookup_insert_ne; [done|]. by intros <-.
  - eexists. split; [reflexivity|]. split; [exact H1|]. split; [exact H2|].
        rewrite <- (st_class _ _ _ _ Hs i (p :: l) p Hi) by (by left). rewrite Hcap. cbn. unfold cap_in.
    by rewrite cores_lookup, lookup_insert_eq.
Qed.

(** A released block of class [i] joins its free list. *)
Lemma push_free_ok held free s p b i : store_ok (p :: held) free s -> heap s !! p = Some b -> fixed_class b = Z.of_nat i ->
  exists head s', free_blocks s !! i = Some head /\ store p (set_free_next head) s = Some s' /\
    exists free', store_ok held free' (with_free i (Some p) s') /\ agree held (cores (heap s)) (cores (heap s')).
Proof.
  intros Hs Hb Hi. pose proof (store_nodup _ _ _ Hs) as Hnd. cbn in Hnd. apply list.NoDup_cons in Hnd as [Hpn _].
  apply not_elem_of_app in Hpn as [Hph Hpf].
  destruct (store_core _ _ _ p Hs) as (b' & Hb' & [_ Hcl] & Hcap); [by left|]. rewrite Hb in Hb'. injection Hb' as <-.
  cbn in Hcl. rewrite Hi in Hcl. symmetry in Hcl. apply class_inv in Hcl as [Hi3 Hcb].
  destruct (lookup_lt_is_Some_2 free i) as [l Hl]; [rewrite (st_classes _ _ _ _ Hs); lia|].
  destruct (Forall2_lookup_r _ _ _ _ _ (st_free _ _ _ _ Hs) Hl) as (hd & Hhd & Hfl).
  exists hd. eexists. split; [done|]. split; [by apply store_eq|].
  destruct (store_move (p :: held) free held (<[i := p :: l]> free) s p b hd i (Some p)) as [H1 H2]; try done.
  - rewrite (concat_update_perm _ _ _ _ Hl). cbn. symmetry. apply Permutation_middle.
  - rewrite length_insert. apply Hs.
  - intros j k q Hj Hq. destruct (decide (i = j)) as [<-|Hn].
    + rewrite list_lookup_insert_eq in Hj by (by eapply lookup_lt_Some). injection Hj as <-.
      apply elem_of_cons in Hq as [->|Hq]; [congruence | by eapply st_class].
    + rewrite list_lookup_insert_ne in Hj by done. by eapply st_class.
  - apply Forall2_insert.
    + eapply freed_lists_frame; [|apply Hs]. intros q Hq. rewrite lookup_insert_ne; [done|]. by intros <-.
    + split; [done|]. eexists. rewrite lookup_insert_eq. split; [done|]. cbn. eapply freed_frame; [|exact Hfl]. intros q Hq.
      rewrite lookup_insert_ne; [done|]. intros <-. apply Hpf. by eapply elem_of_concat_at.
  - eexists. split; [exact H1|]. intros q Hq. apply H2. by intros ->.
Qed.
(** ** Deleting, creating, making room *)

Context (Hlimit : is_u64 limit).

Lemma store_sum_bounds held free s : store_ok held free s -> 0 <= allocated_bytes s <= limit.
Proof.
  intros Hs. split; [|apply Hs]. rewrite (st_allocated _ _ _ _ Hs). apply sumz_nonneg. intros q _. by eapply store_caps.
Qed.

Lemma delete_ok held free s p : store_ok (p :: held) free s ->
  exists s', DeleteBlockLocked p s = Some s' /\ store_ok held free s' /\ free_blocks s' = free_blocks s /\
    cores (heap s') = delete p (cores (heap s)).
Proof.
  intros Hs. pose proof (store_nodup _ _ _ Hs) as Hnd. cbn in Hnd. apply list.NoDup_cons in Hnd as [Hpn _].
  destruct (store_core _ _ _ p Hs) as (b & Hb & _ & Hcap); [by left|]. pose proof (store_sum_bounds _ _ _ Hs) as Hsum.
  pose proof Hs as [(all & Hall & Hperm) Hf Hl Hc Hk Ha Hlim Had].
  assert (p ∈ all) as (l1 & l2 & ->)%list_elem_of_split by (rewrite Hperm; by left).
  destruct (delete_linked _ _ _ _ _ Hall Hb) as (s' & E & Hall' & Hcores & Hfree & Halloc). exists s'. split; [done|].
  assert (forall q, q ∈ held ++ concat free -> cores (heap s') !! q = cores (heap s) !! q) as Hother.
  { intros q Hq. rewrite Hcores, lookup_delete_ne; [done|]. by intros <-. }
  assert (sumz (cap_in (cores (heap s'))) (held ++ concat free) = sumz (cap_in (cores (heap s))) (held ++ concat free)) as Hsz.
  { apply sumz_ext. intros q Hq. by apply cap_in_other, Hother. }
  assert (0 <= sumz (cap_in (cores (heap s))) (held ++ concat free)) as Hpos.
  { apply sumz_nonneg. intros q _. by eapply store_caps. }
  assert (allocated_bytes s' = sumz (cap_in (cores (heap s'))) (held ++ concat free)) as Ha'.
  { pose proof (store_caps _ _ _ p Hs). rewrite Hcap in *. rewrite Ha in Hsum. cbn [app] in *. rewrite sumz_cons, Hcap in *.
    rewrite Halloc, Hsz, Ha, wrap64_id; [lia | ulia]. }
  split; [|done]. split; try done.
  - exists (l1 ++ l2). split; [done|]. apply (Permutation_cons_inv (a := p)). by rewrite <- Permutation_middle in Hperm.
  - rewrite Hfree. eapply freed_lists_frame; [|exact Hf]. intros q Hq. apply Hother, elem_of_app. by right.
  - intros i l q Hi Hq. rewrite (cap_in_other (cores (heap s))); [by eapply Hc|]. apply Hother, elem_of_app. right.
    by eapply elem_of_concat_at.
  - intros q k. rewrite Hcores. intros [_ Hq]%lookup_delete_Some. by eapply Hk.
  - rewrite Ha', Hsz. pose proof (store_caps _ _ _ p Hs). rewrite Ha in Hlim. cbn [app] in Hlim. rewrite sumz_cons in Hlim. lia.
  - intros q Hq. apply Had. by right.
Qed.

Lemma link_ok held free s (p : Ptr) charged : store_ok held free s -> p ∉ held ++ concat free -> Z.pos p < two64 ->
  0 <= charged -> allocated_bytes s + charged <= limit ->
  exists s', LinkBlockLocked p (with_heap (<[p := new_block charged (FixedClassForCapacity charged)]> (heap s)) s) = Some s' /\
    store_ok (p :: held) free s' /\ free_blocks s' = free_blocks s /\ cap_in (cores (heap s')) p = charged /\
    (forall q, q <> p -> cores (heap s') !! q = cores (heap s) !! q).
Proof.
  intros Hs Hp Hp64 H0 Hroom. pose proof (store_sum_bounds _ _ _ Hs) as Hsum.
  pose proof Hs as [(all & Hall & Hperm) Hf Hl Hc Hk Ha Hlim Had]. rewrite <- Hperm in Hp.
  destruct (link_linked all p s (new_block charged (FixedClassForCapacity charged)) Hall Hp) as (s' & E & Hall' & Hcores & Hfree & Halloc).
  exists s'. split; [done|]. rewrite Hperm in Hp.
  assert (forall q, q <> p -> cores (heap s') !! q = cores (heap s) !! q) as Hother.
  { intros q Hq. by rewrite Hcores, lookup_insert_ne. }
  assert (forall q, q ∈ held ++ concat free -> q <> p) as Hne by (intros q Hq ->; done).
  assert (cap_in (cores (heap s')) p = charged) as Hcp by (unfold cap_in; by rewrite Hcores, lookup_insert_eq).
  assert (sumz (cap_in (cores (heap s'))) (held ++ concat free) = allocated_bytes s) as Hsz.
  { rewrite Ha. apply sumz_ext. intros q Hq. by apply cap_in_other, Hother, Hne. }
  cbn in Halloc. rewrite wrap64_id in Halloc by ulia.
  split; [|done]. split; try done.
  - exists (p :: all). split; [done|]. cbn. by rewrite Hperm.
  - rewrite Hfree. eapply freed_lists_frame; [|exact Hf]. intros q Hq. apply Hother, Hne, elem_of_app. by right.
  - intros i l q Hi Hq. rewrite (cap_in_other (cores (heap s))); [by eapply Hc|].
    apply Hother, Hne, elem_of_app. right. by eapply elem_of_concat_at.
  - intros q k. rewrite Hcores. destruct (decide (p = q)) as [<-|Hn].
    + rewrite lookup_insert_eq. intros [= <-]. split; [cbn; rewrite length_replicate; lia | done].
    + rewrite lookup_insert_ne by done. apply Hk.
  - rewrite Halloc, <- Hsz. cbn [app]. rewrite sumz_cons, Hcp. lia.
  - rewrite Halloc. lia.
  - cbn. intros q [->|Hq]%elem_of_cons; [done | by apply Had].
Qed.

(** The first non-empty free list, from class [i]. *)
Lemma evict_from_ok held free s i : store_ok held free s ->
  exists evicted s', evict_from i (drop i (free_blocks s)) s = Some (evicted, s') /\
    if evicted : bool then
      exists free', store_ok held free' s' /\ length (concat free) = S (length (concat free')) /\
        agree held (cores (heap s)) (cores (heap s')) /\ shrinks (cores (heap s)) (cores (heap s'))
    else s' = s /\ concat (drop i free) = [].
Proof.
  intros Hs. pose proof (st_classes _ _ _ _ Hs) as Hl3. pose proof (list.Forall2_length _ _ _ (st_free _ _ _ _ Hs)) as Hl.
  remember (3 - i)%nat as n eqn:En. revert i En. induction n as [|n IH]; intros i En.
  - rewrite !drop_ge by lia. cbn. by exists false, s.
  - destruct (lookup_lt_is_Some_2 free i) as [l Hi]; [lia|].
    destruct (Forall2_lookup_r _ _ _ _ _ (st_free _ _ _ _ Hs) Hi) as (hd & Hhd & Hfl).
    rewrite (drop_S _ _ _ Hhd), (drop_S _ _ _ Hi). destruct l as [|p l]; cbn in Hfl.
    + subst hd. cbn. apply IH. lia.
    + destruct Hfl as (-> & _). cbn [evict_from].
      destruct (pop_free_ok _ _ _ _ _ _ Hs Hi) as (s1 & -> & H1 & Hc1 & _). cbn.
      destruct (delete_ok _ _ _ _ H1) as (s2 & -> & H2 & _ & Hc2). cbn. exists true, s2. split; [done|].
      exists (<[i := l]> free). split; [done|]. split; [by rewrite (concat_insert_perm _ _ _ _ Hi)|].
      pose proof (store_nodup _ _ _ Hs) as Hnd. apply list.NoDup_app in Hnd as (_ & Hx & _).
      split; [|rewrite Hc2; eapply shrinks_trans; [|apply shrinks_delete]; apply (shrinks_but _ _ p); [|done];
               destruct (store_core _ _ _ p Hs) as (bp & Hbp & _); [|by rewrite cores_lookup, Hbp];
               apply elem_of_app; right; rewrite (concat_insert_perm _ _ _ _ Hi); by left].
      intros q Hq. assert (q <> p) as Hqp.
      { intros ->. apply (Hx p Hq). rewrite (concat_insert_perm _ _ _ _ Hi). by left. }
      rewrite Hc2, lookup_delete_ne by done. by apply Hc1.
Qed.

Lemma evict_until_ok fuel charged held free s : store_ok held free s -> 0 <= charged -> (length (concat free) < fuel)%nat ->
  exists room s' free', evict_until fuel limit charged s = Some (room, s') /\ store_ok held free' s' /\
    agree held (cores (heap s)) (cores (heap s')) /\ shrinks (cores (heap s)) (cores (heap s')) /\
    if room : bool then allocated_bytes s' + charged <= limit
    else limit < sumz (cap_in (cores (heap s))) held + charged.
Proof.
  revert free s. induction fuel as [|fuel IH]; intros free s Hs H0 Hf; [lia|]. cbn.
  pose proof (store_sum_bounds _ _ _ Hs) as Hsum. rewrite wrap64_id by ulia.
  destruct (Z.ltb_spec (limit - allocated_bytes s) charged) as [Hfull|Hroom]; [|exists true, s, free; split_and!; done || (by intros ?) || lia].
  destruct (evict_from_ok _ _ _ 0 Hs) as (evicted & s1 & E & H1). rewrite !drop_0 in *. unfold EvictOneFreeBlockLocked.
  rewrite E. cbn. destruct evicted.
  - destruct H1 as (free1 & Hs1 & Hl & Hag & Hsh).
    destruct (IH free1 s1 Hs1 H0) as (room & s2 & free2 & E2 & Hs2 & Hag2 & Hsh2 & Hr); [lia|].
    exists room, s2, free2. split; [done|]. split; [done|]. split; [by eapply agree_trans|].
    split; [by eapply shrinks_trans|]. destruct room; [done|].
    rewrite (sumz_ext _ (cap_in (cores (heap s1)))); [done|]. intros q Hq. symmetry. by apply cap_in_other, Hag.
  - destruct H1 as [-> Hempty]. exists false, s, free. split_and!; try done; [by intros ?|].
    rewrite (st_allocated _ _ _ _ Hs), Hempty, app_nil_r in Hfull. lia.
Qed.
Lemma linked_size all s : linked_all all s -> size (heap s) = length all.
Proof.
  intros H. rewrite <- size_dom. rewrite <- (size_list_to_set (C := gset Ptr) all) by apply H. f_equal.
  apply set_eq. intros p. rewrite elem_of_dom, elem_of_list_to_set. apply H.
Qed.
Lemma store_free_size held free s : store_ok held free s -> (length (concat free) <= size (heap s))%nat.
Proof.
  intros Hs. destruct (st_all _ _ _ _ Hs) as (all & Hall & Hp). rewrite (linked_size _ _ Hall), Hp, length_app. lia.
Qed.

(** [new] answers with an address that no living block has; addresses have 64 bits. *)
Definition lawful (address : NewAddress) : Prop :=
  forall (h : Heap) (p : Ptr), address h = Some p -> h !! p = None /\ Z.pos p < two64.

(** An admitted charge always finds its block, unless the allocator refuses one: the cached blocks give way. *)
Lemma acquire_ok charged address held free s : store_ok held free s -> 0 <= charged ->
  sumz (cap_in (cores (heap s))) held + charged <= limit ->
  lawful address ->
  exists block s' free', AcquireBlockLocked limit charged address s = Some (block, s') /\
    agree held (cores (heap s)) (cores (heap s')) /\
    match block with
    | Some p => store_ok (p :: held) free' s' /\ cap_in (cores (heap s')) p = charged
    | None => store_ok held free' s' /\ exists h, address h = None /\ shrinks (cores (heap s)) (cores h)
    end.
Proof.
  intros Hs H0 Hroom Haddr. unfold AcquireBlockLocked.
  destruct (if 0 <=? FixedClassForCapacity charged then default None (free_blocks s !! Z.to_nat (FixedClassForCapacity charged))
            else None) as [p|] eqn:Ehead.
  - destruct (Z.leb_spec 0 (FixedClassForCapacity charged)) as [Hc|]; [|done].
    set (i := Z.to_nat (FixedClassForCapacity charged)) in *.
    destruct (free_blocks s !! i) as [hd|] eqn:Ei; [|done]. cbn in Ehead. subst hd.
    destruct (Forall2_lookup_l _ _ _ _ _ (st_free _ _ _ _ Hs) Ei) as (l & Hl & Hfl). destruct l as [|p' l]; [done|].
    destruct Hfl as ([= <-] & _). destruct (pop_free_ok _ _ _ _ _ _ Hs Hl) as (s' & -> & Hs' & Hag & Hcap). cbn.
    exists (Some p), s', (<[i := l]> free). split; [done|]. split.
    + intros q Hq. apply Hag. intros ->. pose proof (store_nodup _ _ _ Hs') as Hnd. cbn in Hnd.
      apply list.NoDup_cons in Hnd as [Hn _]. apply Hn, elem_of_app. by left.
    + split; [done|]. rewrite Hcap. symmetry. apply (class_inv charged i). unfold i. by rewrite Z2Nat.id.
  - destruct (evict_until_ok (S (size (heap s))) charged held free s Hs H0) as (room & s1 & free1 & -> & Hs1 & Hag & Hsh & Hr).
    { pose proof (store_free_size _ _ _ Hs). lia. }
    cbn. destruct room; [|lia]. cbn. destruct (address (heap s1)) as [p|] eqn:Eaddr; [|exists None, s1, free1; split_and!; try done; by exists (heap s1)].
    assert (p ∉ held ++ concat free1) as Hp.
    { rewrite <- (store_alive _ _ _ p Hs1). destruct (Haddr _ _ Eaddr) as [-> _]. by intros [? [=]]. }
    destruct (link_ok held free1 s1 p charged Hs1 Hp (proj2 (Haddr _ _ Eaddr)) H0 Hr) as (s2 & -> & Hs2 & _ & Hcap & Hoth). cbn.
    exists (Some p), s2, free1. split; [done|]. split; [|done]. eapply agree_trans; [exact Hag|].
    intros q Hq. apply Hoth. intros ->. apply Hp, elem_of_app. by left.
Qed.

Lemma release_block_ok closed held free s p : store_ok (p :: held) free s ->
  exists s' free', release_block closed p s = Some s' /\ store_ok held free' s' /\
    agree held (cores (heap s)) (cores (heap s')) /\ shrinks (cores (heap s)) (cores (heap s')).
Proof.
  intros Hs. destruct (store_core _ _ _ p Hs) as (b & Hb & [_ Hcl] & _); [by left|]. cbn in Hcl.
  unfold release_block, load. rewrite Hb. cbn. destruct (negb closed && (0 <=? fixed_class b)) eqn:E.
  - bool_to_prop. destruct (push_free_ok _ _ _ _ b (Z.to_nat (fixed_class b)) Hs Hb) as (hd & s1 & Hhd & Est & free1 & Hs1 & Hag).
    { by rewrite Z2Nat.id. }
    rewrite Hhd. cbn. rewrite Est. cbn. exists (with_free (Z.to_nat (fixed_class b)) (Some p) s1), free1.
    split_and!; try done. rewrite (store_eq _ _ _ b Hb) in Est. injection Est as <-. cbn. apply (shrinks_but _ _ p); [by rewrite cores_lookup, Hb|].
    intros q Hq. by rewrite !cores_lookup, lookup_insert_ne.
  - destruct (delete_ok _ _ _ _ Hs) as (s1 & -> & Hs1 & _ & Hc). exists s1, free. split; [done|]. split; [done|].
    split; [|rewrite Hc; apply shrinks_delete]. intros q Hq. rewrite Hc, lookup_delete_ne; [done|]. intros <-. pose proof (store_nodup _ _ _ Hs) as Hnd. cbn in Hnd.
    apply list.NoDup_cons in Hnd as [Hn _]. apply Hn, elem_of_app. by left.
Qed.

(** Writing the payload of a held block. *)
Lemma write_block_ok held free s p content b : store_ok held free s -> p ∈ held -> heap s !! p = Some b ->
  (length content <= length (data b))%nat ->
  exists s', store p (fun b => set_data (content ++ drop (length content) (data b)) b) s = Some s' /\ store_ok held free s' /\
    cores (heap s') !! p = Some (content ++ drop (length content) (data b), capacity b, fixed_class b, free_next b) /\
    (forall q, q <> p -> cores (heap s') !! q = cores (heap s) !! q) /\
    (forall q, cap_in (cores (heap s')) q = cap_in (cores (heap s)) q).
Proof.
  intros Hs Hp Hb Hlen. eexists. split; [by apply store_eq|]. cbn [heap with_heap].
  set (b' := set_data (content ++ drop (length content) (data b)) b).
  assert (cores (<[p := b']> (heap s)) = <[p := core_of b']> (cores (heap s))) as E by apply fmap_insert.
  assert (forall q, q <> p -> cores (<[p := b']> (heap s)) !! q = cores (heap s) !! q) as Hoth.
  { intros q Hq. by rewrite E, lookup_insert_ne. }
  assert (forall q, cap_in (cores (<[p := b']> (heap s))) q = cap_in (cores (heap s)) q) as Hcap.
  { intros q. destruct (decide (q = p)) as [->|Hn]; [|by apply cap_in_other, Hoth]. unfold cap_in.
    by rewrite E, lookup_insert_eq, cores_lookup, Hb. }
  pose proof (store_nodup _ _ _ Hs) as Hnd. apply list.NoDup_app in Hnd as (_ & Hx & _).
  split; [|split_and!; try done; by rewrite E, lookup_insert_eq].
  destruct Hs as [(all & Hall & Hperm) Hf Hl Hc Hk Ha Hlim Had]. split; try done; cbn [heap with_heap].
  - exists all. split; [by eapply linked_insert | done].
  - eapply freed_lists_frame; [|exact Hf]. intros q Hq. apply Hoth. intros ->. by apply (Hx p).
  - intros i l q. rewrite Hcap. apply Hc.
  - intros q k. destruct (decide (q = p)) as [->|Hn]; [|rewrite Hoth by done; apply Hk].
    rewrite E, lookup_insert_eq. intros [= <-]. assert (core_ok (core_of b)) as [H1 H2] by (apply (Hk p); by rewrite cores_lookup, Hb).
    split; [|done]. cbn in *. rewrite length_app, length_drop. lia.
  - cbn. rewrite Ha. apply sumz_ext. intros q _. by rewrite Hcap.
Qed.

(** Distinct addresses are fewer than 2^64. *)
Lemma addresses_bound (bound : Z) (l : list Ptr) : NoDup l -> (forall p, p ∈ l -> Z.pos p < bound) -> l <> [] -> zlen l < bound.
Proof.
  intros Hnd Hp Hne. assert (zlen l <= Z.of_nat (length (seqZ 1 (bound - 1)))) as H.
  { assert ((Z.pos <$> l) ⊆+ seqZ 1 (bound - 1)) as Hs%submseteq_length.
    { apply NoDup_submseteq; [by apply NoDup_fmap_2; [apply _|]|]. intros z (p & -> & Hin)%list_elem_of_fmap.
      apply elem_of_seqZ. specialize (Hp p Hin). lia. }
    rewrite length_fmap in Hs. pose proof (inj_le _ _ Hs); unfold zlen; done. }
  rewrite length_seqZ in H. destruct l as [|p l]; [done|]. specialize (Hp p (list_elem_of_here _ _)). lia.
Qed.
Lemma held_bound held free s : store_ok held free s -> zlen held < two64.
Proof.
  intros Hs. destruct held as [|p held]; [done|]. apply addresses_bound; [|intros q Hq; eapply st_address; [done|]; apply elem_of_app; by left|done].
  by apply store_nodup, list.NoDup_app in Hs as (? & _ & _).
Qed.

(** The destructor deletes every block, once. *)
Lemma delete_all_chain l h previous : NoDup l -> (forall p, is_Some (h !! p) <-> p ∈ l) -> chained h previous l None ->
  delete_all (length l) (head_or l None) h = Some ∅.
Proof.
  revert h previous. induction l as [|p l IH]; intros h previous Hnd Ha Hc.
  - cbn. f_equal. apply map_empty. intros p. destruct (h !! p) eqn:E; [|done].
    exfalso. apply (elem_of_nil p), Ha. by rewrite E.
  - destruct Hc as [(b & Hb & _ & Hn) Hc]. apply list.NoDup_cons in Hnd as [Hp Hnd]. cbn. rewrite Hb. cbn. rewrite Hn.
    apply (IH _ (Some p)); [done| |].
    + intros q. rewrite lookup_delete_is_Some, Ha, elem_of_cons. split; [intuition congruence|]. intros Hq. split; [|by right]. by intros ->.
    + eapply chained_frame; [|exact Hc]. intros q Hq. rewrite lookup_delete_ne; [done|]. by intros ->.
Qed.
Lemma destroy_ok held free s : store_ok held free s -> destroy_pool s = Some ∅.
Proof.
  intros Hs. destruct (st_all _ _ _ _ Hs) as (all & Hall & _). unfold destroy_pool.
  rewrite (linked_size _ _ Hall), (la_head _ _ Hall). eapply delete_all_chain; apply Hall.
Qed.
End Store.
