(* ===== verification/BufferPoolSafety.v ===== *)
(** * What the buffer pool promises

    The queue ring refines a list, the ledger is the sum over the leases, the blocks belong to one lease each; the
    calls of any history keep all three, and no call has undefined behaviour. *)
From S2P Require Import Prelude Bytes SourceIdentity TopicWriter BufferPool BufferPoolHeap.

(** ** The ring is a list *)

Record ring_ok (capacity : Z) (l : list Lease) (r : QueueRing) : Prop := {
  ri_size : zlen (queue r) = capacity; ri_head : 0 <= queue_head r < capacity;
  ri_tail : queue_tail r = (queue_head r + zlen l) mod capacity; ri_queued : queued_records r = zlen l;
  ri_room : zlen l <= capacity;
  ri_entries : forall i x, l !! i = Some x -> queue r !! Z.to_nat ((queue_head r + Z.of_nat i) mod capacity) = Some x
}.

Section Ring.
Context (capacity : Z) (Hcap : 0 < capacity < two63).

Lemma mod_range x : 0 <= x mod capacity < capacity.
Proof. apply Z.mod_pos_bound. lia. Qed.

(** Two positions of a window of [capacity] entries differ. *)
Lemma mod_window a i j : 0 <= i < capacity -> 0 <= j < capacity -> (a + i) mod capacity = (a + j) mod capacity -> i = j.
Proof.
  intros Hi Hj E. assert ((i - j) mod capacity = 0) as H.
  { replace (i - j) with ((a + i) - (a + j)) by lia. by rewrite Zminus_mod, E, Z.sub_diag, Z.mod_0_l by lia. }
  apply Z.mod_divide in H; [|lia]. destruct H as [k Hk]. assert (k = 0) by nia. lia.
Qed.

Lemma push_ok l r x : ring_ok capacity l r -> zlen l < capacity ->
  exists r', push_back capacity x r = Some r' /\ ring_ok capacity (l ++ [x]) r'.
Proof.
  intros [Hs Hh Ht Hq Hr He] Hroom. unfold push_back. pose proof (mod_range (queue_head r + zlen l)) as Hb.
  destruct (lookup_lt_is_Some_2 (queue r) (Z.to_nat (queue_tail r))) as [y Hy]; [rewrite Ht; ulia|].
  rewrite Hy. cbn. eexists. split; [done|].
  assert (zlen (l ++ [x]) = zlen l + 1) as El by (unfold zlen; rewrite length_app; cbn; lia). split; cbn.
  - unfold zlen. by rewrite length_insert.
  - done.
  - rewrite wrap64_id by (rewrite Ht; ulia). rewrite Ht, El, Zplus_mod_idemp_l. f_equal. lia.
  - rewrite Hq, wrap64_id by ulia. lia.
  - lia.
  - intros i z Hz. apply lookup_app_Some in Hz as [Hz|[Hi Hz]].
    + pose proof (lookup_lt_Some _ _ _ Hz). rewrite list_lookup_insert_ne; [by apply He|]. intros E. rewrite Ht in E.
      apply Z2Nat.inj in E; [|apply mod_range..]. apply mod_window in E; ulia.
    + apply list_lookup_singleton_Some in Hz as [Hi0 <-]. replace (Z.of_nat i) with (zlen l) by ulia. rewrite <- Ht.
      apply list_lookup_insert_eq. rewrite Ht. ulia.
Qed.

Lemma pop_ok x l r : ring_ok capacity (x :: l) r ->
  exists r', pop_front capacity r = Some (x, r') /\ ring_ok capacity l r'.
Proof.
  intros [Hs Hh Ht Hq Hr He]. unfold pop_front. pose proof (He 0%nat x eq_refl) as H0.
  rewrite Z.add_0_r, Z.mod_small in H0 by done. rewrite H0. cbn. eexists. split; [done|].
  assert (zlen (x :: l) = zlen l + 1) as El by (unfold zlen; cbn; lia). rewrite El in *. split; cbn.
  - unfold zlen. by rewrite length_insert.
  - apply mod_range.
  - rewrite wrap64_id by ulia. rewrite Ht, Zplus_mod_idemp_l. f_equal. lia.
  - rewrite Hq, wrap64_id by ulia. lia.
  - lia.
  - intros i z Hz. pose proof (lookup_lt_Some _ _ _ Hz) as Hi. rewrite wrap64_id by ulia. rewrite Zplus_mod_idemp_l.
    replace (queue_head r + 1 + Z.of_nat i) with (queue_head r + Z.of_nat (S i)) by lia.
    rewrite list_lookup_insert_ne; [by apply (He (S i))|]. intros E. apply Z2Nat.inj in E; [|lia|apply mod_range].
    rewrite <- (Z.mod_small (queue_head r) capacity) in E at 1 by done. rewrite <- (Z.add_0_r (queue_head r)) in E at 1.
    apply mod_window in E; ulia.
Qed.

Lemma at_ok l r i x : ring_ok capacity l r -> l !! i = Some x ->
  queue r !! Z.to_nat (wrap64 (queue_head r + Z.of_nat i) mod capacity) = Some x.
Proof.
  intros [Hs Hh Ht Hq Hr He] Hx. pose proof (lookup_lt_Some _ _ _ Hx). rewrite wrap64_id by ulia. by apply He.
Qed.
End Ring.

(** ** The ledger is a sum *)

Definition of_topic (t : Z) (l : list Lease) : list Lease := filter (fun x => lease_topic_id x = t) l.
Definition charges (l : list Lease) : Z := sumz lease_charged_bytes l.
Definition usage_for (t : Z) (l : list Lease) : option TopicUsage :=
  match of_topic t l with [] => None | mine => Some (mkUsage (charges mine) (zlen mine)) end.
Record ledger_ok (l : list Lease) (g : Ledger) : Prop := {
  le_bytes : bytes_in_use g = charges l; le_usage : forall t, topic_usage g !! t = usage_for t l
}.

Definition charged_typed (l : list Lease) : Prop := forall x, x ∈ l -> 0 <= lease_charged_bytes x.
Lemma charges_cons x l : charges (x :: l) = lease_charged_bytes x + charges l.
Proof. done. Qed.
Lemma charges_app l k : charges (l ++ k) = charges l + charges k.
Proof. apply sumz_app. Qed.
Lemma charges_pos l : charged_typed l -> 0 <= charges l.
Proof. apply sumz_nonneg. Qed.
Lemma of_topic_typed t l : charged_typed l -> charged_typed (of_topic t l).
Proof. intros H x Hx. apply H. by apply list_elem_of_filter in Hx as [_ ?]. Qed.
Lemma of_topic_same x l : of_topic (lease_topic_id x) (x :: l) = x :: of_topic (lease_topic_id x) l.
Proof. unfold of_topic. by rewrite filter_cons_True. Qed.
Lemma of_topic_other t x l : lease_topic_id x <> t -> of_topic t (x :: l) = of_topic t l.
Proof. intros. unfold of_topic. by rewrite filter_cons_False. Qed.
Lemma of_topic_charges t l : charged_typed l -> charges (of_topic t l) <= charges l.
Proof.
  induction l as [|x l IH]; intros H; [done|]. assert (charged_typed l) as Hl by (intros y Hy; apply H; by right).
  pose proof (H x (list_elem_of_here _ _)). destruct (decide (lease_topic_id x = t)) as [<-|E].
  - rewrite of_topic_same, !charges_cons. specialize (IH Hl). lia.
  - rewrite of_topic_other, charges_cons by done. specialize (IH Hl). lia.
Qed.
Lemma topic_bytes_ok l g t : ledger_ok l g -> TopicBytesLocked g t = charges (of_topic t l).
Proof. intros H. unfold TopicBytesLocked. rewrite (le_usage _ _ H). unfold usage_for. by destruct (of_topic t l). Qed.
Lemma of_topic_perm t l k : l ≡ₚ k -> of_topic t l ≡ₚ of_topic t k.
Proof. intros H. unfold of_topic. by rewrite H. Qed.
Lemma charges_perm l k : l ≡ₚ k -> charges l = charges k.
Proof. apply sumz_perm. Qed.
Lemma ledger_perm l k g : l ≡ₚ k -> ledger_ok l g -> ledger_ok k g.
Proof.
  intros E [H1 H2]. split; [by rewrite H1, (charges_perm _ _ E)|]. intros t. rewrite H2. unfold usage_for.
  pose proof (of_topic_perm t _ _ E) as Et. pose proof (charges_perm _ _ Et) as Ec. pose proof (Permutation_length Et) as El.
  destruct (of_topic t l), (of_topic t k); try done. by rewrite Ec; unfold zlen; rewrite El.
Qed.

Lemma release_bytes_ok x l g : charged_typed (x :: l) -> ledger_ok (x :: l) g ->
  ledger_ok l (release_bytes (lease_topic_id x) (lease_charged_bytes x) g).
Proof.
  intros Hty [H1 H2]. assert (charged_typed l) as Hl by (intros y Hy; apply Hty; by right).
  pose proof (charges_pos _ (of_topic_typed (lease_topic_id x) _ Hl)) as Hp. pose proof (charges_pos _ Hl) as Hp'.
  pose proof (H2 (lease_topic_id x)) as Hx. unfold usage_for in Hx. rewrite of_topic_same in Hx.
  unfold release_bytes. rewrite Hx. cbn [usage_bytes usage_leases]. rewrite H1, !charges_cons.
  destruct (Z.leb_spec (lease_charged_bytes x) (lease_charged_bytes x + charges (of_topic (lease_topic_id x) l))); [|lia].
  destruct (Z.leb_spec (lease_charged_bytes x) (lease_charged_bytes x + charges l)); [|lia].
  destruct (Z.eqb_spec (zlen (x :: of_topic (lease_topic_id x) l)) 0) as [E|_]; [unfold zlen in E; cbn in E; lia|]. cbn [negb].
  assert (zlen (x :: of_topic (lease_topic_id x) l) - 1 = zlen (of_topic (lease_topic_id x) l)) as -> by (unfold zlen; cbn; lia).
  split; cbn [bytes_in_use topic_usage]; [lia|]. intros t. destruct (decide (lease_topic_id x = t)) as [<-|E].
  - unfold usage_for. destruct (of_topic (lease_topic_id x) l) as [|y k] eqn:Ek.
    + cbn. apply lookup_delete_eq.
    + destruct (Z.eqb_spec (zlen (y :: k)) 0) as [E|_]; [unfold zlen in E; cbn in E; lia|]. rewrite lookup_insert_eq. do 2 f_equal. lia.
  - transitivity (topic_usage g !! t).
    + case_match; [by apply lookup_delete_ne | by apply lookup_insert_ne].
    + rewrite H2. unfold usage_for. by rewrite of_topic_other.
Qed.

Lemma charge_ok x l g : charged_typed (x :: l) -> ledger_ok l g -> charges (x :: l) < two64 -> zlen (x :: l) < two64 ->
  ledger_ok (x :: l) (charge_topic (lease_topic_id x) (lease_charged_bytes x) g).
Proof.
  intros Hty [H1 H2] Hb Hz. assert (charged_typed l) as Hl by (intros y Hy; apply Hty; by right).
  pose proof (charges_pos _ (of_topic_typed (lease_topic_id x) _ Hl)) as Hp. pose proof (charges_pos _ Hl) as Hp'.
  pose proof (Hty x (list_elem_of_here _ _)) as Hx. pose proof (of_topic_charges (lease_topic_id x) _ Hl) as Hle.
  rewrite charges_cons in Hb.
  assert (zlen (of_topic (lease_topic_id x) l) <= zlen l) as Hlen by (unfold zlen, of_topic; pose proof (length_filter (fun x0 => lease_topic_id x0 = lease_topic_id x) l); lia).
  assert (zlen (x :: l) = zlen l + 1) as El by (unfold zlen; cbn; lia). rewrite El in Hz.
  unfold charge_topic. split; cbn [bytes_in_use topic_usage].
  - rewrite H1, charges_cons, wrap64_id by ulia. lia.
  - intros t. destruct (decide (lease_topic_id x = t)) as [<-|E].
    + rewrite lookup_insert_eq, H2. unfold usage_for. rewrite of_topic_same, charges_cons. f_equal.
      destruct (of_topic (lease_topic_id x) l) as [|y k] eqn:Ek; cbn [default from_option usage_bytes usage_leases].
      * rewrite !wrap64_id by (unfold charges, sumz in *; cbn in *; ulia). f_equal. unfold charges, sumz. cbn. lia.
      * unfold zlen in *. cbn [length id usage_bytes usage_leases] in *. rewrite !wrap64_id by ulia. f_equal; lia.
    + rewrite lookup_insert_ne by done. rewrite H2. unfold usage_for. by rewrite of_topic_other.
Qed.

(** ** Leases and what they hold *)

Record options_ok (o : RecorderBufferPoolOptions) : Prop := {
  op_global : is_u64 (global_byte_limit o); op_capacity : 0 < queue_capacity o < two63;
  op_topic : forall t, is_u64 (TopicLimitLocked o t); op_large : is_u64 (max_large_object_bytes o);
  op_classes : kRecorderLargeBufferClassBytes <= max_large_object_bytes o;
  op_high : 0 < high_watermark_bytes o; op_low : 0 <= low_watermark_bytes o; op_topics : 0 < max_topics o
}.

Record lease_ok (c : gmap Ptr Core) (x : Lease) : Prop := {
  lo_block : exists p, lease_block x = Some p /\ cap_in c p = lease_charged_bytes x /\ is_Some (c !! p);
  lo_payload : 0 <= lease_payload_size x <= lease_charged_bytes x;
  lo_metadata : forall m, lease_metadata x = Some m ->
    metadata_topic_id m = lease_topic_id x /\ metadata_payload_size m = lease_payload_size x
}.
Definition blocks_of (l : list Lease) : list Ptr := omap lease_block l.
#[global] Arguments blocks_of : simpl never.
(** The payload bytes a lease shows. *)
Definition content (c : gmap Ptr Core) (x : Lease) : list byte :=
  match lease_block x with
  | Some p => match c !! p with Some k => take (Z.to_nat (lease_payload_size x)) k.1.1.1 | None => [] end
  | None => []
  end.

(** The number of topics that hold leases. *)
Definition active_topics (l : list Lease) : Z := Z.of_nat (size (list_to_set (lease_topic_id <$> l) : gset Z)).
Lemma active_mono l k : (forall x, x ∈ l -> x ∈ k) -> active_topics l <= active_topics k.
Proof.
  intros H. unfold active_topics. apply inj_le, subseteq_size. intros t. rewrite !elem_of_list_to_set, !list_elem_of_fmap.
  intros (x & -> & Hx). by eauto.
Qed.
Lemma active_cons x l : active_topics (x :: l) <= active_topics l + 1 /\ (of_topic (lease_topic_id x) l <> [] -> active_topics (x :: l) = active_topics l).
Proof.
  unfold active_topics. cbn. split.
  - pose proof (size_union_alt {[lease_topic_id x]} (list_to_set (lease_topic_id <$> l) : gset Z)) as H.
    pose proof (subseteq_size ((list_to_set (lease_topic_id <$> l) : gset Z) ∖ {[lease_topic_id x]}) (list_to_set (lease_topic_id <$> l)) ltac:(set_solver)).
    rewrite size_singleton in H. lia.
  - intros Hn. do 2 f_equal. apply set_eq. intros t. rewrite elem_of_union, elem_of_singleton. split; [|by right]. intros [->|]; [|done].
    apply elem_of_list_to_set, list_elem_of_fmap. destruct (of_topic (lease_topic_id x) l) as [|y k] eqn:E; [done|]. exists y.
    assert (y ∈ of_topic (lease_topic_id x) l) as [Hy Hl]%list_elem_of_filter by (rewrite E; by left). done.
Qed.

Record holdings_ok (l : list Lease) (s : Pool) : Prop := {
  ho_options : options_ok (pool_options s);
  ho_ledger : ledger_ok l (ledger s);
  ho_global : charges l <= global_byte_limit (pool_options s);
  ho_topic : forall t, charges (of_topic t l) <= TopicLimitLocked (pool_options s) t;
  ho_leases : forall x, x ∈ l -> lease_ok (cores (heap (blocks s))) x;
  ho_store : exists free, store_ok (global_byte_limit (pool_options s)) (blocks_of l) free (blocks s);
  ho_pressure : pressure s = pressure_of (pool_options s) (bytes_in_use (ledger s));
  ho_active : active_topics l <= max_topics (pool_options s)
}.

Lemma leases_typed c l : (forall x, x ∈ l -> lease_ok c x) -> charged_typed l.
Proof. intros H x Hx. destruct (lo_payload _ _ (H x Hx)). lia. Qed.
Lemma blocks_of_perm l k : l ≡ₚ k -> blocks_of l ≡ₚ blocks_of k.
Proof. intros H. unfold blocks_of. by rewrite H. Qed.
Lemma blocks_of_elem l x p : x ∈ l -> lease_block x = Some p -> p ∈ blocks_of l.
Proof. intros Hx Hp. apply list_elem_of_omap. by exists x. Qed.
Lemma blocks_of_length c l : (forall x, x ∈ l -> lease_ok c x) -> length (blocks_of l) = length l.
Proof.
  induction l as [|y l IH]; intros Hl; [done|]. destruct (lo_block _ _ (Hl y (list_elem_of_here _ _))) as (p & Hp & _).
  unfold blocks_of. cbn. rewrite Hp. cbn. f_equal. apply IH. intros z Hz. apply Hl. by right.
Qed.
Lemma lease_frame c c' x l : x ∈ l -> agree (blocks_of l) c c' -> lease_ok c x -> lease_ok c' x.
Proof.
  intros Hx Ha [(p & Hp & Hc & Hs) H2 H3]. split; try done. exists p.
  rewrite (cap_in_other c c') by (by eapply Ha, blocks_of_elem). rewrite Ha by (by eapply blocks_of_elem). done.
Qed.
Lemma content_frame c c' x l : x ∈ l -> agree (blocks_of l) c c' -> content c' x = content c x.
Proof. intros Hx Ha. unfold content. destruct (lease_block x) as [p|] eqn:E; [|done]. by rewrite (Ha p) by (by eapply blocks_of_elem). Qed.
Lemma charged_caps c l : (forall x, x ∈ l -> lease_ok c x) -> sumz (cap_in c) (blocks_of l) = charges l.
Proof.
  induction l as [|x l IH]; intros H; [done|]. destruct (lo_block _ _ (H x (list_elem_of_here _ _))) as (p & Hp & Hc & _).
  unfold blocks_of. cbn. rewrite Hp. rewrite sumz_cons, charges_cons, Hc. f_equal. apply IH. intros y Hy. apply H. by right.
Qed.

Lemma holdings_perm l k s : l ≡ₚ k -> holdings_ok l s -> holdings_ok k s.
Proof.
  intros E [H1 H2 H3 H4 H5 (free & H6) H7 H8]. split; try done.
  - by eapply ledger_perm.
  - by rewrite <- (charges_perm _ _ E).
  - intros t. by rewrite <- (charges_perm _ _ (of_topic_perm t _ _ E)).
  - intros x Hx. apply H5. by rewrite E.
  - exists free. eapply store_perm; [by apply blocks_of_perm | done].
  - etransitivity; [|exact H8]. apply active_mono. intros x. by rewrite E.
Qed.
(** The holdings do not depend on the queue, the counters and the flags. *)
Lemma holdings_frame l s s' : pool_options s' = pool_options s -> ledger s' = ledger s -> blocks s' = blocks s ->
  pressure s' = pressure s -> holdings_ok l s -> holdings_ok l s'.
Proof. intros E1 E2 E3 E4 [H1 H2 H3 H4 H5 H6 H7 H8]. split; by rewrite ?E1, ?E2, ?E3, ?E4. Qed.

(** A release leaves everything else of the pool as it was. *)
Definition released (s s' : Pool) : Prop := exists g b p, s' = with_pressure p (with_blocks b (with_ledger g s)).

Lemma ReleaseBlock_ok x l s : holdings_ok (x :: l) s ->
  exists s', ReleaseBlockLocked (lease_block x) (lease_topic_id x) (lease_charged_bytes x) s = Some s' /\
    holdings_ok l s' /\ released s s' /\ agree (blocks_of l) (cores (heap (blocks s))) (cores (heap (blocks s'))) /\
    shrinks (cores (heap (blocks s))) (cores (heap (blocks s'))).
Proof.
  intros [H1 H2 H3 H4 H5 (free & H6) H7 H8]. pose proof (leases_typed _ _ H5) as Hty.
  destruct (lo_block _ _ (H5 x (list_elem_of_here _ _))) as (p & Hp & _ & _). unfold ReleaseBlockLocked. rewrite Hp. cbn.
  assert (blocks_of (x :: l) = p :: blocks_of l) as Eb by (unfold blocks_of; cbn; by rewrite Hp). rewrite Eb in H6.
  destruct (release_block_ok _ (op_global _ H1) (closed s) _ _ _ _ H6) as (b & free' & -> & Hb & Hag & Hsh). cbn.
  eexists. split; [done|]. split; [|split; [by eexists _, _, _ | done]]. pose proof (Hty x (list_elem_of_here _ _)) as Hx.
  split; cbn; try done.
  - by apply release_bytes_ok.
  - rewrite charges_cons in H3. lia.
  - intros t. specialize (H4 t). destruct (decide (lease_topic_id x = t)) as [<-|E].
    + rewrite of_topic_same, charges_cons in H4. lia.
    + by rewrite of_topic_other in H4.
  - intros y Hy. eapply lease_frame; [exact Hy | exact Hag|]. apply H5. by right.
  - by exists free'.
  - etransitivity; [|exact H8]. apply active_mono. intros y Hy. by right.
Qed.

(** ** The invariant of the pool *)

Record pool_ok (reserved que handed : list Lease) (s : Pool) : Prop := {
  po_holdings : holdings_ok (reserved ++ que ++ handed) s;
  po_ring : ring_ok (queue_capacity (pool_options s)) que (ring s);
  po_reserved : reserved_records s = zlen reserved; po_slots : zlen reserved + zlen que <= queue_capacity (pool_options s)
}.

Lemma pool_perm r r' q h h' s : r ≡ₚ r' -> h ≡ₚ h' -> pool_ok r q h s -> pool_ok r' q h' s.
Proof.
  intros Er Eh [H1 H2 H3 H4]. assert (zlen r' = zlen r) as El by (unfold zlen; by rewrite Er).
  split; try done; rewrite ?El; try done. eapply holdings_perm; [|exact H1]. by rewrite Er, Eh.
Qed.
Lemma pool_counted f r q h s : pool_ok r q h s -> pool_ok r q h (counted f s).
Proof. intros [H1 H2 H3 H4]. split; try done. by eapply holdings_frame; [..|exact H1]. Qed.

(** The front of the queue is evicted. *)
Lemma DropFront_ok r x q h s : pool_ok r (x :: q) h s ->
  exists s', DropFrontLocked s = Some s' /\ pool_ok r q h s' /\ closed s' = closed s /\ recording_failed s' = recording_failed s /\
    pool_options s' = pool_options s /\ counters s' = count_dropped_oldest (counters s) /\
    agree (blocks_of (r ++ q ++ h)) (cores (heap (blocks s))) (cores (heap (blocks s'))) /\
    shrinks (cores (heap (blocks s))) (cores (heap (blocks s'))).
Proof.
  intros [H1 H2 H3 H4]. unfold DropFrontLocked. pose proof (op_capacity _ (ho_options _ _ H1)) as Hcap.
  destruct (pop_ok _ Hcap _ _ _ H2) as (rg & -> & Hrg). cbn.
  destruct (ReleaseBlock_ok x (r ++ q ++ h) (counted count_dropped_oldest (with_ring rg s))) as (s' & -> & Hs' & (g & b & p & ->) & Hag & Hsh).
  { apply (holdings_frame _ s); [done..|]. eapply holdings_perm; [|exact H1]. cbn. symmetry. apply Permutation_middle. }
  eexists. split; [done|]. assert (zlen (x :: q) = zlen q + 1) by (unfold zlen; cbn; lia).
  split; [|done]. split; cbn; try done. lia.
Qed.

Lemma drop_fronts_ok n r q h s : pool_ok r q h s -> (n <= length q)%nat ->
  exists s', drop_fronts n s = Some s' /\ pool_ok r (drop n q) h s' /\ closed s' = closed s /\ recording_failed s' = recording_failed s /\
    pool_options s' = pool_options s /\ counters s' = Nat.iter n count_dropped_oldest (counters s) /\
    agree (blocks_of (r ++ drop n q ++ h)) (cores (heap (blocks s))) (cores (heap (blocks s'))) /\
    shrinks (cores (heap (blocks s))) (cores (heap (blocks s'))).
Proof.
  revert q s. induction n as [|n IH]; intros q s Hs Hn.
  - exists s. rewrite drop_0. split_and!; done || by intros ?.
  - destruct q as [|x q]; [cbn in Hn; lia|]. destruct (DropFront_ok _ _ _ _ _ Hs) as (s1 & E1 & Hs1 & C1 & F1 & O1 & K1 & A1 & S1).
    destruct (IH q s1 Hs1) as (s2 & E2 & Hs2 & C2 & F2 & O2 & K2 & A2 & S2); [cbn in Hn; lia|].
    exists s2. cbn. rewrite E1. cbn. rewrite C2, F2, O2, K2, K1, Nat.iter_swap. split_and!; try done; [|by eapply shrinks_trans].
    intros p Hp. rewrite A2 by done. apply A1. unfold blocks_of in *. rewrite !omap_app, !elem_of_app in *.
    destruct Hp as [?|[Hp|?]]; [by left| |by right; right]. right. left. apply list_elem_of_omap in Hp as (y & Hy & Hb).
    apply list_elem_of_omap. exists y. split; [|done]. eapply (subseteq_drop n), Hy.
Qed.

(** ** Admission, over the lists *)

Section Admission.
Context (o : RecorderBufferPoolOptions).

(** There is a slot, and the charge fits below the global limit and below the topic's. *)
Definition fits (r q h : list Lease) (t c : Z) : bool :=
  (zlen r + zlen q <? queue_capacity o) && (charges (r ++ q ++ h) + c <=? global_byte_limit o)
  && (charges (of_topic t (r ++ q ++ h)) + c <=? TopicLimitLocked o t).
(** The topic has leases already, or one more topic is allowed. *)
Definition topic_slot (l : list Lease) (t : Z) : bool :=
  bool_decide (of_topic t l <> []) || (active_topics l <? max_topics o).
(** The shortest prefix of the queue whose eviction makes room. *)
Definition shortest_prefix (r q h : list Lease) (t c : Z) : option nat :=
  find (fun k => fits r (drop k q) h t c) (seq 1 (length q)).
(** How many of the oldest records give way to the request; none when it is not admitted. *)
Definition evictions (policy : BufferFullPolicy) (r q h : list Lease) (t c : Z) : option nat :=
  if fits r q h t c then Some 0%nat
  else match policy with kDropOldest => shortest_prefix r q h t c | _ => None end.
End Admission.

Lemma pool_typed r q h s : pool_ok r q h s -> charged_typed (r ++ q ++ h).
Proof. intros H. eapply leases_typed, ho_leases, H. Qed.

Lemma charged_typed_drop r k q h : charged_typed (r ++ q ++ h) -> charged_typed (r ++ drop k q ++ h).
Proof.
  intros H x. rewrite !elem_of_app. intros [Hx|[Hx|Hx]]; apply H; rewrite !elem_of_app; [by left| |by right; right].
  right. left. by eapply (subseteq_drop k).
Qed.

Lemma CanAdmit_ok r q h s t c : pool_ok r q h s ->
  CanAdmitLocked s t c = fits (pool_options s) r q h t c.
Proof.
  intros Hs. pose proof (pool_typed _ _ _ _ Hs) as Hty. destruct Hs as [Hh Hr H3 H4].
  pose proof (ho_options _ _ Hh) as Ho. pose proof (op_capacity _ Ho). pose proof (op_global _ Ho). pose proof (op_topic _ Ho t).
  pose proof (charges_pos _ Hty). pose proof (charges_pos _ (of_topic_typed t _ Hty)).
  pose proof (ho_global _ _ Hh). pose proof (ho_topic _ _ Hh t).
  unfold CanAdmitLocked, fits. rewrite (topic_bytes_ok _ _ t (ho_ledger _ _ Hh)), (le_bytes _ _ (ho_ledger _ _ Hh)).
  rewrite H3, (ri_queued _ _ _ Hr), !wrap64_id by ulia.
  set (b := charges (r ++ q ++ h)) in *. set (bt := charges (of_topic t (r ++ q ++ h))) in *.
  repeat case_match; bool_to_prop; lia.
Qed.

(** The search of the code, from the [k]-th entry on, with its sums over the entries passed. *)
Lemma charges_split r k q h : charges (r ++ q ++ h) - charges (take k q) = charges (r ++ drop k q ++ h).
Proof. rewrite <- (take_drop k q) at 1. rewrite !charges_app. lia. Qed.
Lemma of_topic_app t l k : of_topic t (l ++ k) = of_topic t l ++ of_topic t k.
Proof. apply list.filter_app. Qed.
Lemma topic_split t r k q h :
  charges (of_topic t (r ++ q ++ h)) - charges (of_topic t (take k q)) = charges (of_topic t (r ++ drop k q ++ h)).
Proof. rewrite <- (take_drop k q) at 1. rewrite !of_topic_app, !charges_app. lia. Qed.
Lemma charges_take l n : charged_typed l -> 0 <= charges (take n l) <= charges l.
Proof.
  intros H. assert (charged_typed (take n l) /\ charged_typed (drop n l)) as [H1 H2].
  { split; intros x Hx; apply H; [by eapply subseteq_take | by eapply subseteq_drop]. }
  pose proof (charges_pos _ H1). pose proof (charges_pos _ H2). rewrite <- (take_drop n l) at 3. rewrite charges_app. lia.
Qed.
Lemma charges_middle r q h n : charged_typed (r ++ q ++ h) -> 0 <= charges (take n q) <= charges (r ++ q ++ h).
Proof.
  intros H. assert (charged_typed r /\ charged_typed q /\ charged_typed h) as (H1 & H2 & H3).
  { split_and!; intros x Hx; apply H; rewrite !elem_of_app; auto. }
  pose proof (charges_pos _ H1). pose proof (charges_pos _ H3). pose proof (charges_take q n H2). rewrite !charges_app. lia.
Qed.
Lemma of_topic_middle t r q h n : charged_typed (r ++ q ++ h) ->
  0 <= charges (of_topic t (take n q)) <= charges (of_topic t (r ++ q ++ h)).
Proof.
  intros H. assert (charged_typed r /\ charged_typed (drop n q) /\ charged_typed (take n q) /\ charged_typed h) as (H1 & H2 & H3 & H4).
  { split_and!; intros x Hx; apply H; rewrite !elem_of_app; eauto using subseteq_take.
    - right. left. by eapply subseteq_drop.
    - right. left. by eapply subseteq_take. }
  pose proof (charges_pos _ (of_topic_typed t _ H1)). pose proof (charges_pos _ (of_topic_typed t _ H2)).
  pose proof (charges_pos _ (of_topic_typed t _ H3)). pose proof (charges_pos _ (of_topic_typed t _ H4)).
  rewrite <- (take_drop n q) at 3. rewrite !of_topic_app, !charges_app. lia.
Qed.
Lemma find_prefix_ok n k r q h s t c : pool_ok r q h s -> (k + n = length q)%nat ->
  find_prefix s t c n (Z.of_nat k) (charges (take k q)) (charges (of_topic t (take k q))) (Z.of_nat k) =
  Some (Z.of_nat <$> find (fun k => fits (pool_options s) r (drop k q) h t c) (seq (S k) n)).
Proof.
  intros Hs. pose proof (pool_typed _ _ _ _ Hs) as Hty. pose proof Hs as [Hh Hr H3 H4].
  pose proof (ho_options _ _ Hh) as Ho. pose proof (op_capacity _ Ho) as Hcap. pose proof (op_global _ Ho). pose proof (op_topic _ Ho t).
  pose proof (ho_global _ _ Hh). pose proof (ho_topic _ _ Hh t).
  revert k. induction n as [|n IH]; intros k Hk; [done|]. cbn [find_prefix seq find].
  destruct (lookup_lt_is_Some_2 q k) as [x Hx]; [lia|]. unfold QueueAtLocked. rewrite (at_ok _ Hcap _ _ _ _ Hr Hx). cbn [mbind option_bind].
  pose proof (charges_middle r q h (S k) Hty) as Hc1. pose proof (of_topic_middle t r q h (S k) Hty) as Hc2.
  assert (charges (take k q) + lease_charged_bytes x = charges (take (S k) q)) as E1.
  { rewrite (take_S_r _ _ _ Hx), charges_app. unfold charges, sumz. cbn. lia. }
  assert ((if lease_topic_id x =? t then wrap64 (charges (of_topic t (take k q)) + lease_charged_bytes x) else charges (of_topic t (take k q)))
          = charges (of_topic t (take (S k) q))) as E2.
  { rewrite (take_S_r _ _ _ Hx), of_topic_app, charges_app in Hc2 |- *. destruct (Z.eqb_spec (lease_topic_id x) t) as [<-|E].
    - rewrite of_topic_same in Hc2 |- *. rewrite charges_cons in Hc2 |- *. change (charges (of_topic (lease_topic_id x) [])) with 0 in *.
      rewrite wrap64_id by ulia. lia.
    - rewrite of_topic_other by done. change (charges (of_topic t [])) with 0. lia. }
  rewrite E2, E1, (wrap64_id (charges (take (S k) q))) by ulia. replace (Z.of_nat k + 1) with (Z.of_nat (S k)) by lia.
  rewrite (topic_bytes_ok _ _ t (ho_ledger _ _ Hh)), (le_bytes _ _ (ho_ledger _ _ Hh)), H3, (ri_queued _ _ _ Hr).
  rewrite (wrap64_id (Z.of_nat (S k))) by ulia.
  rewrite (wrap64_id (zlen r + zlen q - Z.of_nat (S k))) by ulia.
  rewrite (wrap64_id (charges (r ++ q ++ h) - charges (take (S k) q))) by ulia.
  rewrite (wrap64_id (charges (of_topic t (r ++ q ++ h)) - charges (of_topic t (take (S k) q)))) by ulia.
  rewrite charges_split, topic_split. pose proof (charged_typed_drop r (S k) q h Hty) as Hty'.
  pose proof (charges_pos _ Hty'). pose proof (charges_pos _ (of_topic_typed t _ Hty')).
  pose proof (charges_split r (S k) q h). pose proof (topic_split t r (S k) q h).
  rewrite (wrap64_id (global_byte_limit _ - _)) by ulia. rewrite (wrap64_id (TopicLimitLocked _ _ - _)) by ulia. rewrite IH by lia.
  match goal with |- (if ?b then _ else _) = _ => replace b with (fits (pool_options s) r (drop (S k) q) h t c) end.
  - by destruct (fits (pool_options s) r (drop (S k) q) h t c).
  - unfold fits. replace (zlen (drop (S k) q)) with (zlen q - Z.of_nat (S k)) by (unfold zlen; rewrite length_drop; lia).
    f_equal; [f_equal|]; lia.
Qed.

(** ** The second half of Reserve *)

Lemma usage_some t l : is_Some (usage_for t l) <-> t ∈ lease_topic_id <$> l.
Proof.
  rewrite list_elem_of_fmap. unfold usage_for. split.
  - intros [u Hu]. destruct (of_topic t l) as [|x k] eqn:E; [done|]. exists x.
    assert (x ∈ of_topic t l) as [Hx Hl]%list_elem_of_filter by (rewrite E; by left). done.
  - intros (x & -> & Hx). destruct (of_topic (lease_topic_id x) l) eqn:E; [|done].
    assert (x ∈ of_topic (lease_topic_id x) l) as Hin by by apply list_elem_of_filter. rewrite E in Hin. by apply elem_of_nil in Hin.
Qed.
Lemma ledger_topics l g : ledger_ok l g -> Z.of_nat (size (topic_usage g)) = active_topics l.
Proof.
  intros H. unfold active_topics. rewrite <- size_dom. do 2 f_equal. apply set_eq. intros t.
  rewrite elem_of_dom, (le_usage _ _ H), elem_of_list_to_set. apply usage_some.
Qed.
Lemma topic_slot_ok o l g t : ledger_ok l g ->
  topic_slot o l t = bool_decide (is_Some (topic_usage g !! t)) || (Z.of_nat (size (topic_usage g)) <? max_topics o).
Proof.
  intros H. unfold topic_slot. rewrite (ledger_topics _ _ H), (le_usage _ _ H). f_equal. apply bool_decide_ext. unfold usage_for.
  destruct (of_topic t l); split; intros; try done.
Qed.
Lemma erase_unused_ok t l g : ledger_ok l g -> erase_unused t g = g.
Proof.
  intros H. unfold erase_unused. rewrite (le_usage _ _ H). unfold usage_for. destruct (of_topic t l) as [|x k]; [done|].
  cbn. destruct (Z.eqb_spec (zlen (x :: k)) 0) as [E|]; [unfold zlen in E; cbn in E; lia | done].
Qed.

(** The lease of an admitted request. *)
Definition lease_for (req : BufferReservationRequest) (c : Z) (p : Ptr) : Lease :=
  mkLease (Some p) (request_topic_id req) (request_payload_size req) c (request_user_tag req) (request_metadata req).
Definition accepted_reply (req : BufferReservationRequest) (c : Z) (p : Ptr) (ds : list PoolDiscard) : Outcome BufferReserveResult :=
  Returned (Ok (mkReserveResult kAccepted (lease_for req c p) ds)).
Record request_ok (req : BufferReservationRequest) (c : Z) : Prop := {
  rq_charge : 0 <= request_payload_size req <= c; rq_metadata : metadata_matches req = true
}.

(** A fresh entry of [topic_usage] is either used or erased. *)
Lemma take_block_fresh env req c ds s : topic_usage (ledger s) !! request_topic_id req = None ->
  take_block env req c ds (with_ledger (mkLedger (<[request_topic_id req := mkUsage 0 0]> (topic_usage (ledger s))) (bytes_in_use (ledger s))) s)
  = take_block env req c ds s.
Proof.
  intros E. unfold take_block. cbn [pool_options blocks with_ledger].
  destruct (AcquireBlockLocked _ _ _ _) as [[[p|] b]|]; cbn; try done.
  - unfold charge_topic. cbn. by rewrite lookup_insert_eq, insert_insert_eq, E.
  - unfold refuse. assert (erase_unused (request_topic_id req) (mkLedger (<[request_topic_id req := mkUsage 0 0]> (topic_usage (ledger s))) (bytes_in_use (ledger s)))
      = erase_unused (request_topic_id req) (ledger s)) as ->; [|done].
    unfold erase_unused. cbn. rewrite lookup_insert_eq, E. cbn. rewrite delete_insert_id by done. by destruct (ledger s).
Qed.

(** What the calls that do not touch the flags keep. *)
Definition same_flags (s s' : Pool) : Prop :=
  closed s' = closed s /\ recording_failed s' = recording_failed s /\ pool_options s' = pool_options s.

Lemma refuse_frame reason error req c ds s :
  same_flags s (snd (refuse reason error req c ds s)) /\ blocks (snd (refuse reason error req c ds s)) = blocks s.
Proof. unfold refuse. by destruct (bool_decide (ds = [])). Qed.

Lemma take_block_ok env req c ds r q h s : pool_ok r q h s -> request_ok req c -> lawful (block_address env) ->
  fits (pool_options s) r q h (request_topic_id req) c = true -> topic_slot (pool_options s) (r ++ q ++ h) (request_topic_id req) = true ->
  exists out s', take_block env req c ds s = Some (out, s') /\ same_flags s s' /\
    agree (blocks_of (r ++ q ++ h)) (cores (heap (blocks s))) (cores (heap (blocks s'))) /\
    ((exists p, out = accepted_reply req c p ds /\ pool_ok (lease_for req c p :: r) q h s' /\ counters s' = counters s) \/
     (exists s1, pool_ok r q h s1 /\ counters s1 = counters s /\ (exists hp, block_address env hp = None /\ shrinks (cores (heap (blocks s))) (cores hp)) /\
        (out, s') = refuse DiscardAllocationFailure "cannot allocate recorder buffer class" req c ds s1)).
Proof.
  intros Hs [Hc Hm] Hlaw Hfit Hslot. pose proof (pool_typed _ _ _ _ Hs) as Hty. pose proof Hs as [Hh Hr H3 H4].
  pose proof (ho_options _ _ Hh) as Ho. unfold fits in Hfit. bool_to_prop.
  destruct (ho_store _ _ Hh) as (free & Hst). unfold take_block.
  destruct (acquire_ok _ (op_global _ Ho) c (block_address env) _ _ _ Hst) as (block & b & free' & -> & Hag & Hb); [lia| |done|].
  { rewrite (charged_caps _ _ (ho_leases _ _ Hh)). lia. }
  cbn [mbind option_bind]. destruct block as [p|].
  - destruct Hb as [Hb Hcap]. eexists _, _. split; [done|]. split; [done|]. split; [exact Hag|]. left. exists p. split; [done|].
    split; [|done]. set (x := lease_for req c p).
    assert (charged_typed (x :: r ++ q ++ h)) as Hty'.
    { intros y [->|Hy]%elem_of_cons; [cbn; lia | by apply Hty]. }
    assert (charges (x :: r ++ q ++ h) <= global_byte_limit (pool_options s)) as Hg by (rewrite charges_cons; cbn; lia).
    assert (zlen (x :: r ++ q ++ h) < two64) as Hz.
    { pose proof (held_bound _ _ _ _ Hb) as Hbd. enough (zlen (x :: r ++ q ++ h) <= zlen (p :: blocks_of (r ++ q ++ h))) by lia.
      unfold zlen. cbn. rewrite (blocks_of_length _ _ (ho_leases _ _ Hh)). lia. }
    pose proof (op_global _ Ho). pose proof (op_capacity _ Ho). split; cbn; try done.
    + split; cbn; try done.
      * apply (charge_ok x); [done | by apply Hh | ulia | done].
      * intros t. change (charges (of_topic t (x :: r ++ q ++ h)) <= TopicLimitLocked (pool_options s) t).
        destruct (decide (lease_topic_id x = t)) as [<-|E].
        -- rewrite of_topic_same, charges_cons. cbn. lia.
        -- rewrite of_topic_other by done. by apply Hh.
      * intros y [->|Hy]%elem_of_cons.
        -- split; [exists p; split; [done|]; split; [done|] | cbn; lia|].
           { rewrite cores_lookup. apply fmap_is_Some. apply (store_alive _ _ _ _ p Hb). by left. }
           intros m Em. cbn in Em |- *. unfold metadata_matches in Hm. rewrite Em in Hm. by bool_to_prop.
        -- eapply lease_frame; [exact Hy | exact Hag | by apply Hh].
      * by exists free'.
      * destruct (active_cons x (r ++ q ++ h)) as [Ha1 Ha2]. pose proof (ho_active _ _ Hh). unfold topic_slot in Hslot.
        destruct (bool_decide _) eqn:Eb; bool_to_prop; [by rewrite Ha2|]. cbn [orb] in Hslot. bool_to_prop. lia.
    + rewrite H3, wrap64_id by ulia. unfold zlen. cbn. lia.
    + unfold zlen in *. cbn. lia.
  - destruct Hb as [Hb Hn]. eexists _, _. split; [apply f_equal; apply surjective_pairing|].
    rewrite (erase_unused_ok _ _ _ (ho_ledger _ _ Hh)).
    assert (pool_ok r q h (with_ledger (ledger (with_blocks b s)) (with_blocks b s))) as Hs1.
    { split; cbn; try done. destruct Hh as [K1 K2 K3 K4 K5 K6 K7 K8]. split; cbn; try done; [|by exists free'].
      intros y Hy. by eapply lease_frame; [exact Hy | exact Hag | apply K5]. }
    destruct (refuse_frame DiscardAllocationFailure "cannot allocate recorder buffer class" req c ds
      (with_ledger (ledger (with_blocks b s)) (with_blocks b s))) as [Hf Hbl]. split; [exact Hf|]. split.
    { intros z Hz. etransitivity; [|by apply Hag]. exact (f_equal (fun b => cores (heap b) !! z) Hbl). }
    right.
    eexists. split; [exact Hs1|]. split; [done|]. split; [done|]. symmetry. apply surjective_pairing.
Qed.

(** Why a request that fits is turned away: no topic slot, or the allocator. *)
Definition refusal (env : Allocator) (s : Pool) (l : list Lease) (t : Z) (reason : BufferDiscardReason) : Prop :=
  if topic_slot (pool_options s) l t
  then reason = DiscardAllocationFailure /\
    (usage_node env = false \/ exists hp, block_address env hp = None /\ shrinks (cores (heap (blocks s))) (cores hp))
  else reason = DiscardNoDroppableOldest.

(** The end of a call that admits [req] over the leases [r ++ q ++ h], with the reports [ds]. *)
Definition admitted (env : Allocator) (req : BufferReservationRequest) (c : Z) (ds : list PoolDiscard) (r q h : list Lease)
    (s : Pool) (k : PoolCounters) (out : Outcome BufferReserveResult) (s' : Pool) : Prop :=
  (exists p, out = accepted_reply req c p ds /\ pool_ok (lease_for req c p :: r) q h s' /\ counters s' = k /\
     topic_slot (pool_options s) (r ++ q ++ h) (request_topic_id req) = true) \/
  (exists reason error s1, pool_ok r q h s1 /\ counters s1 = k /\ (out, s') = refuse reason error req c ds s1 /\
     refusal env s (r ++ q ++ h) (request_topic_id req) reason).

Lemma admit_ok env req c ds r q h s : pool_ok r q h s -> request_ok req c -> lawful (block_address env) ->
  fits (pool_options s) r q h (request_topic_id req) c = true ->
  exists out s', admit_request env req c ds s = Some (out, s') /\ same_flags s s' /\
    agree (blocks_of (r ++ q ++ h)) (cores (heap (blocks s))) (cores (heap (blocks s'))) /\
    admitted env req c ds r q h s (counters s) out s'.
Proof.
  intros Hs Hq Hlaw Hfit. pose proof (topic_slot_ok (pool_options s) _ _ (request_topic_id req) (ho_ledger _ _ (po_holdings _ _ _ _ Hs))) as Hts.
  assert (topic_slot (pool_options s) (r ++ q ++ h) (request_topic_id req) = true ->
    exists out s', take_block env req c ds s = Some (out, s') /\ same_flags s s' /\
    agree (blocks_of (r ++ q ++ h)) (cores (heap (blocks s))) (cores (heap (blocks s'))) /\
    admitted env req c ds r q h s (counters s) out s') as Htake.
  { intros Ht. destruct (take_block_ok env req c ds r q h s Hs Hq Hlaw Hfit Ht) as (out & s' & E & Hf & Ha & H). exists out, s'.
    split_and!; try done. destruct H as [(p & H1 & H2 & H3)|(s1 & H1 & H2 & H3 & H4)]; [left; by exists p|].
    right. eexists _, _, s1. split_and!; try done. unfold refusal. rewrite Ht. split; [done|]. by right. }
  assert (forall reason error, refusal env s (r ++ q ++ h) (request_topic_id req) reason ->
    exists out s', Some (refuse reason error req c ds s) = Some (out, s') /\ same_flags s s' /\
    agree (blocks_of (r ++ q ++ h)) (cores (heap (blocks s))) (cores (heap (blocks s'))) /\
    admitted env req c ds r q h s (counters s) out s') as Href.
  { intros reason error H. eexists _, _. split; [apply f_equal, surjective_pairing|].
    destruct (refuse_frame reason error req c ds s) as [Hf Hb]. split; [done|]. rewrite Hb. split; [done|]. right. exists reason, error, s. split_and!; try done.
    symmetry. apply surjective_pairing. }
  unfold admit_request. destruct (topic_usage (ledger s) !! request_topic_id req) as [u|] eqn:Eu.
  - apply Htake. rewrite Hts, bool_decide_eq_true_2; [done|]. by eexists.
  - rewrite bool_decide_eq_false_2 in Hts by (by intros [? [=]]). cbn [orb] in Hts.
    destruct (Z.leb_spec (max_topics (pool_options s)) (Z.of_nat (size (topic_usage (ledger s))))).
    + apply Href. unfold refusal. rewrite Hts. by rewrite (proj2 (Z.ltb_ge _ _)).
    + assert (topic_slot (pool_options s) (r ++ q ++ h) (request_topic_id req) = true) as Ht by (rewrite Hts; by apply Z.ltb_lt).
      destruct (usage_node env) eqn:En; cbn [negb].
      * rewrite take_block_fresh by done. by apply Htake.
      * apply Href. unfold refusal. rewrite Ht. split; [done|]. by left.
Qed.

(** ** Reserve *)

Definition drop_report : Lease -> PoolDiscard := lease_discard DiscardDropOldest.

Lemma victims_ok r q h s n : pool_ok r q h s -> (n <= length q)%nat ->
  mapM (fun i : nat => QueueAtLocked s (Z.of_nat i)) (seq 0 n) = Some (take n q).
Proof.
  intros Hs Hn. pose proof (op_capacity _ (ho_options _ _ (po_holdings _ _ _ _ Hs))) as Hcap. apply mapM_Some.
  apply Forall2_same_length_lookup_2; [rewrite length_seq, length_take; lia|]. intros i j x Hj Hx.
  apply lookup_seq in Hj as [-> Hi]. rewrite lookup_take_lt in Hx by done. unfold QueueAtLocked. cbn.
  by eapply at_ok, Hx; [|apply Hs].
Qed.

Lemma shortest_range o r q h t c n : shortest_prefix o r q h t c = Some n ->
  (1 <= n <= length q)%nat /\ fits o r (drop n q) h t c = true.
Proof. intros [Hin Hf]%find_some. apply in_seq in Hin. split; [lia | done]. Qed.

(** A fitting request could always fit. *)
Lemma fits_ever o r q h t c : charged_typed (r ++ q ++ h) -> fits o r q h t c = true ->
  (c <=? global_byte_limit o) && (c <=? TopicLimitLocked o t) = true.
Proof.
  intros Hty Hf. unfold fits in Hf. bool_to_prop. pose proof (charges_pos _ Hty). pose proof (charges_pos _ (of_topic_typed t _ Hty)).
  apply andb_true_iff. split; apply Z.leb_le; lia.
Qed.

(** The answer when there is no room: by the policy. *)
Definition no_room (timed_out : bool) (req : BufferReservationRequest) (c : Z) (s : Pool) : Outcome BufferReserveResult * Pool :=
  let dropped reason := Returned (Ok (mkReserveResult kDroppedNewest empty_lease [incoming_discard reason req c])) in
  match full_policy req with
  | kDropNewest => (dropped DiscardDropNewest, counted count_dropped_newest s)
  | kDropOldest => (dropped DiscardNoDroppableOldest, counted count_dropped_newest s)
  | kFailRecording =>
      (Returned (Ok (mkReserveResult kRecordingFailed empty_lease [incoming_discard DiscardFailRecording req c])),
       counted count_failure (with_failed true s))
  | _ =>
      if (c <=? global_byte_limit (pool_options s)) && (c <=? TopicLimitLocked (pool_options s) (request_topic_id req)) then
        if timed_out && negb (request_timeout req =? nanoseconds_max)
        then (Returned (Err (mkStatus kTimeout "recorder reserve timed out")), counted count_timeout s) else (Waiting, s)
      else (Returned (Err (Resource "recorder request exceeds global or topic byte limit")), s)
  end.

Lemma check_policy o req c : check_request o req = Ok c -> IsValidPolicy (full_policy req) = true /\ metadata_matches req = true /\
  ChargedBytes o (request_payload_size req) = Ok c.
Proof.
  unfold check_request. destruct (IsValidPolicy (full_policy req)); [|done]. cbn. destruct (request_timeout req <? 0); [done|].
  by destruct (metadata_matches req).
Qed.

(** The refusal of a later state of the call is one of its first state. *)
Lemma admitted_back env req c ds r q h s s1 k out s' : pool_options s1 = pool_options s -> counters s1 = k ->
  shrinks (cores (heap (blocks s))) (cores (heap (blocks s1))) ->
  admitted env req c ds r q h s1 (counters s1) out s' -> admitted env req c ds r q h s k out s'.
Proof.
  intros Ho Hk Hsh [(p & H1 & H2 & H3 & H4)|(reason & error & s2 & H1 & H2 & H3 & H4)].
  - left. exists p. rewrite <- Ho. by split_and!; try congruence.
  - right. exists reason, error, s2. split_and!; try congruence. unfold refusal in *. rewrite <- Ho. case_match; [|done].
    destruct H4 as [-> [|(hp & E & Hs)]]; split; try done; [by left|]. right. exists hp. split; [done|]. by eapply shrinks_trans.
Qed.

Lemma Reserve_cases env timed_out req c r q h s : pool_ok r q h s -> request_ok req c -> lawful (block_address env) ->
  check_request (pool_options s) req = Ok c -> closed s || recording_failed s = false ->
  match evictions (pool_options s) (full_policy req) r q h (request_topic_id req) c with
  | Some n => (n <= length q)%nat /\ exists out s', Reserve env timed_out req s = Some (out, s') /\ same_flags s s' /\
      agree (blocks_of (r ++ drop n q ++ h)) (cores (heap (blocks s))) (cores (heap (blocks s'))) /\
      admitted env req c (drop_report <$> take n q) r (drop n q) h s (Nat.iter n count_dropped_oldest (counters s)) out s'
  | None => Reserve env timed_out req s = Some (no_room timed_out req c s)
  end.
Proof.
  intros Hs Hq Hlaw Hck Hfl. unfold Reserve, evictions. rewrite Hck, Hfl, (CanAdmit_ok _ _ _ _ _ _ Hs).
  destruct (check_policy _ _ _ Hck) as (Hpol & _).
  destruct (fits (pool_options s) r q h (request_topic_id req) c) eqn:Efit.
  { split; [lia|]. rewrite drop_0. destruct (admit_ok env req c [] r q h s Hs Hq Hlaw Efit) as (out & s' & E & H). by exists out, s'. }
  unfold no_room. destruct (full_policy req); try done.
  - by destruct ((c <=? _) && (c <=? _)), (timed_out && _).
  - unfold drop_oldest. rewrite (ri_queued _ _ _ (po_ring _ _ _ _ Hs)). replace (Z.to_nat (zlen q)) with (length q) by ulia.
    pose proof (find_prefix_ok (length q) 0 r q h s (request_topic_id req) c Hs eq_refl) as Hfp.
    change (find_prefix s (request_topic_id req) c (length q) 0 0 0 0 = Some (Z.of_nat <$> shortest_prefix (pool_options s) r q h (request_topic_id req) c)) in Hfp.
    rewrite Hfp. cbn [mbind option_bind].
    destruct (shortest_prefix (pool_options s) r q h (request_topic_id req) c) as [n|] eqn:En; [|done].
    destruct (shortest_range _ _ _ _ _ _ _ En) as [Hn Hf]. cbn [fmap option_fmap option_map].
    pose proof (charged_typed_drop r n q h (pool_typed _ _ _ _ Hs)) as Hty. rewrite (fits_ever _ _ _ _ _ _ Hty Hf). cbn [negb orb].
    replace (Z.of_nat n =? 0) with false by lia. replace (zlen q <? Z.of_nat n) with false by ulia. cbn [orb]. rewrite Nat2Z.id.
    rewrite (victims_ok _ _ _ _ _ Hs) by lia. cbn [mbind option_bind].
    destruct (drop_fronts_ok n _ _ _ _ Hs) as (s1 & -> & Hs1 & C1 & F1 & O1 & K1 & A1 & S1); [lia|]. cbn [mbind option_bind].
    destruct (admit_ok env req c (drop_report <$> take n q) r (drop n q) h s1 Hs1 Hq Hlaw) as (out & s' & E & (C2 & F2 & O2) & A2 & H); [by rewrite O1|].
    split; [lia|]. exists out, s'. split; [exact E|]. split; [repeat split; congruence|]. split; [by eapply agree_trans|].
    by eapply admitted_back.
Qed.

(** ** The other calls *)

Lemma class_for_ok n classes c : class_for n classes = Some c -> n <= c /\ c ∈ classes.
Proof.
  induction classes as [|b classes IH]; cbn; [done|]. destruct (Z.leb_spec n b).
  - intros [= <-]. split; [done | by left].
  - intros H0. destruct (IH H0). split; [done | by right].
Qed.
Lemma class_for_none n : class_for n kFixedClassBytes = None -> kRecorderLargeBufferClassBytes < n.
Proof. unfold class_for, kFixedClassBytes. repeat case_match; try done. bool_to_prop. lia. Qed.
(** The charge covers the payload. *)
Lemma ChargedBytes_ok o n c : options_ok o -> is_u64 n -> ChargedBytes o n = Ok c -> n <= c.
Proof.
  intros Ho Hn. unfold ChargedBytes. destruct (Z.eqb_spec n 0); [by intros [= <-]; lia|].
  destruct (class_for n kFixedClassBytes) as [b|] eqn:Ec; [intros [= <-]; by apply class_for_ok in Ec as [? _]|].
  destruct (Z.ltb_spec (max_large_object_bytes o) n); [done|].
  destruct (Z.eqb_spec (n mod kRecorderSmallBufferClassBytes) 0); [by intros [= <-]|].
  destruct (u64_max - _ <? n); [done|]. intros [= <-].
  assert (0 <= n mod kRecorderSmallBufferClassBytes < kRecorderSmallBufferClassBytes) by (apply Z.mod_pos_bound; done).
  case_match; lia.
Qed.
Lemma request_typed_ok o req c : options_ok o -> is_u64 (request_payload_size req) -> check_request o req = Ok c -> request_ok req c.
Proof.
  intros Ho Hn Hc. destruct (check_policy _ _ _ Hc) as (_ & Hm & Hch). split; [|done]. pose proof (ChargedBytes_ok _ _ _ Ho Hn Hch). ulia.
Qed.

Lemma drop_reserved_ok x r q h s : pool_ok (x :: r) q h s -> reserved_records (drop_reserved s) = zlen r.
Proof.
  intros Hs. unfold drop_reserved. cbn. rewrite (po_reserved _ _ _ _ Hs). unfold zlen. cbn.
  destruct (Z.eqb_spec (Z.of_nat (S (length r))) 0); lia.
Qed.

(** A reservation gives its slot and its block back. *)
Lemma release_reserved x r q h s s0 : pool_ok (x :: r) q h s -> s0 = drop_reserved s \/ s0 = counted count_cancelled (drop_reserved s) ->
  exists s', ReleaseBlockLocked (lease_block x) (lease_topic_id x) (lease_charged_bytes x) s0 = Some s' /\
    pool_ok r q h s' /\ same_flags s s' /\ counters s' = counters s0 /\
    agree (blocks_of (r ++ q ++ h)) (cores (heap (blocks s))) (cores (heap (blocks s'))).
Proof.
  intros Hs Hs0. destruct (ReleaseBlock_ok x (r ++ q ++ h) s0) as (s' & -> & Hh & (g & b & p & ->) & Hag & Hsh).
  { eapply (holdings_frame _ s); [by destruct Hs0; subst..|]. apply Hs. }
  eexists. split; [done|]. pose proof (drop_reserved_ok _ _ _ _ _ Hs) as Hr.
  assert (zlen (x :: r) = zlen r + 1) as El by (unfold zlen; cbn; lia). pose proof (po_slots _ _ _ _ Hs) as Hsl. rewrite El in Hsl.
  pose proof (po_ring _ _ _ _ Hs).
  destruct Hs0; subst; (split; [split; cbn; done || lia | done]).
Qed.

Lemma Cancel_ok x r q h s : pool_ok (x :: r) q h s ->
  exists s', Cancel x s = Some (Some (lease_discard DiscardReservationCancelled x), s') /\ pool_ok r q h s' /\ same_flags s s' /\
    counters s' = count_cancelled (counters s) /\
    agree (blocks_of (r ++ q ++ h)) (cores (heap (blocks s))) (cores (heap (blocks s'))).
Proof.
  intros Hs. destruct (release_reserved x r q h s _ Hs (or_intror eq_refl)) as (s' & E & H).
  destruct (lo_block _ _ (ho_leases _ _ (po_holdings _ _ _ _ Hs) x (list_elem_of_here _ _))) as (p & Hp & _).
  unfold Cancel, CancelReservation. rewrite Hp in E |- *. rewrite E. cbn. by exists s'.
Qed.

Lemma Commit_ok d x r q h s : pool_ok (x :: r) q h s ->
  exists res s', Commit d x s = Some (res, s') /\ same_flags s s' /\
    agree (blocks_of (r ++ q ++ h)) (cores (heap (blocks s))) (cores (heap (blocks s'))) /\
    if closed s || recording_failed s
    then is_ok res = false /\ pool_ok r q h s' /\ (counters s' = counters s \/ counters s' = count_cancelled (counters s))
    else res = Ok tt /\ pool_ok r (q ++ [x]) h s' /\ counters s' = count_accepted (counters s) /\ blocks s' = blocks s.
Proof.
  intros Hs. destruct (lo_block _ _ (ho_leases _ _ (po_holdings _ _ _ _ Hs) x (list_elem_of_here _ _))) as (p & Hp & _).
  unfold Commit. rewrite Hp. destruct (closed s || recording_failed s) eqn:Efl.
  - destruct d; cbn [negb andb].
    + unfold CommitReservation. rewrite Efl. destruct (release_reserved x r q h s _ Hs (or_introl eq_refl)) as (s' & -> & H1 & H2 & H3 & H4).
      cbn. eexists _, s'. split_and!; try done; try apply H2. by left.
    + destruct (Cancel_ok x r q h s Hs) as (s' & E & H1 & H2 & H3 & H4). unfold Cancel in E. rewrite E. cbn.
      eexists _, s'. split_and!; try done; try apply H2. by right.
  - cbn [andb]. unfold CommitReservation. rewrite Efl. pose proof Hs as [Hh Hr H3 H4]. pose proof (op_capacity _ (ho_options _ _ Hh)) as Hcap.
    assert (zlen (x :: r) = zlen r + 1) as El by (unfold zlen; cbn; lia). rewrite El in H4.
    destruct (push_ok _ Hcap q (ring s) x Hr) as (rg & -> & Hrg); [ulia|]. cbn. eexists _, _. split; [done|]. split; [done|].
    split; [done|]. split; [done|]. split; [|done]. split.
    + eapply (holdings_frame _ s); [done..|]. eapply holdings_perm; [|exact Hh]. rewrite <- app_assoc. cbn.
      transitivity (r ++ x :: q ++ h); [apply Permutation_middle|]. apply Permutation_app_head, Permutation_middle.
    + done.
    + exact (drop_reserved_ok x r q h s Hs).
    + cbn. unfold zlen in *. rewrite length_app. cbn. lia.
Qed.

Lemma take_front_ok x r q h s : pool_ok r (x :: q) h s ->
  exists s', take_front s = Some (x, s') /\ pool_ok r q (x :: h) s' /\ same_flags s s' /\
    counters s' = count_dequeued (counters s) /\ blocks s' = blocks s.
Proof.
  intros [Hh Hr H3 H4]. pose proof (op_capacity _ (ho_options _ _ Hh)) as Hcap. unfold take_front.
  destruct (pop_ok _ Hcap _ _ _ Hr) as (rg & -> & Hrg). cbn. eexists. split; [done|].
  assert (zlen (x :: q) = zlen q + 1) as El by (unfold zlen; cbn; lia). rewrite El in H4. split; [|done]. split; cbn; try done; [|lia].
  eapply (holdings_frame _ s); [done..|]. eapply holdings_perm; [|exact Hh]. cbn. apply Permutation_app_head, Permutation_middle.
Qed.

Lemma Reset_ok x r q h s : pool_ok r q (x :: h) s ->
  exists l s', ResetHandle x s = Some (l, s') /\ lease_block l = None /\ pool_ok r q h s' /\ same_flags s s' /\ counters s' = counters s /\
    agree (blocks_of (r ++ q ++ h)) (cores (heap (blocks s))) (cores (heap (blocks s'))).
Proof.
  intros [Hh Hr H3 H4]. assert (holdings_ok (x :: r ++ q ++ h) s) as Hh'.
  { eapply holdings_perm; [|exact Hh]. rewrite !app_assoc. symmetry. apply Permutation_middle. }
  destruct (lo_block _ _ (ho_leases _ _ Hh' x (list_elem_of_here _ _))) as (p & Hp & _).
  destruct (ReleaseBlock_ok _ _ _ Hh') as (s' & E & Hs' & (g & b & pr & ->) & Hag & _). unfold ResetHandle, ReleaseHandle.
  rewrite Hp in E |- *. rewrite E. cbn. eexists _, _. split; [done|]. by split_and!.
Qed.

Lemma Close_ok r q h s : pool_ok r q h s -> pool_ok r q h (Close s).
Proof. intros [H1 H2 H3 H4]. split; try done. by eapply (holdings_frame _ s). Qed.

Lemma write_lease_ok x bytes r q h s : pool_ok (x :: r) q h s -> zlen bytes = lease_payload_size x ->
  exists b, write_lease x bytes (blocks s) = Some b /\ pool_ok (x :: r) q h (with_blocks b s) /\
    content (cores (heap b)) x = bytes /\ agree (blocks_of (r ++ q ++ h)) (cores (heap (blocks s))) (cores (heap b)).
Proof.
  intros [Hh Hr H3 H4] Hlen. destruct (ho_leases _ _ Hh x (list_elem_of_here _ _)) as [(p & Hp & Hcap & Hal) Hpay Hmeta].
  destruct (ho_store _ _ Hh) as (free & Hst). cbn [app] in *.
  assert (blocks_of (x :: r ++ q ++ h) = p :: blocks_of (r ++ q ++ h)) as Eb by (unfold blocks_of; cbn; by rewrite Hp). rewrite Eb in Hst.
  destruct (store_core _ _ _ _ p Hst) as (bk & Hbk & [Hsz _] & Hcb); [by left|]. cbn in Hsz.
  destruct (write_block_ok _ _ _ _ p bytes bk Hst) as (b & E & Hb & Hcore & Hoth & Hcaps); [by left | done | ulia|].
  unfold write_lease. rewrite Hp. cbn. rewrite E. exists b. split; [done|].
  assert (p ∉ blocks_of (r ++ q ++ h)) as Hpn.
  { pose proof (store_nodup _ _ _ _ Hst) as Hnd. cbn in Hnd. apply list.NoDup_cons in Hnd as [Hn _]. intros Hin. apply Hn, elem_of_app. by left. }
  assert (agree (blocks_of (r ++ q ++ h)) (cores (heap (blocks s))) (cores (heap b))) as Hag by (intros z Hz; apply Hoth; by intros ->).
  split; [|split; [|done]].
  - split; cbn; try done. destruct Hh as [K1 K2 K3 K4 K5 K6 K7 K8]. split; cbn; try done; [|exists free; by rewrite Eb].
    intros y [->|Hy]%elem_of_cons; [|eapply lease_frame; [exact Hy | exact Hag | apply K5; by right]].
    split; [|done..]. exists p. rewrite Hcaps, Hcore. by eauto.
  - unfold content. rewrite Hp, Hcore. cbn. replace (Z.to_nat (lease_payload_size x)) with (length bytes) by ulia. by rewrite take_app_length.
Qed.

Lemma initial_pool_ok o : options_ok o -> pool_ok [] [] [] (initial_pool o).
Proof.
  intros Ho. pose proof (op_capacity _ Ho) as Hcap. split; [| |done|change (0 <= queue_capacity o); lia].
  - split; cbn; try done.
    + apply (op_global _ Ho).
    + intros t. apply (op_topic _ Ho t).
    + intros x Hx. by apply elem_of_nil in Hx.
    + exists [[]; []; []]. split; cbn; try done.
      * exists []. split; [|done]. split; cbn; try done; [constructor|]. intros p. rewrite lookup_empty, elem_of_nil. by split; [intros [? [=]]|].
      * repeat constructor.
      * intros i l p Hl Hp. do 3 (destruct i as [|i]; [injection Hl as <-; by apply elem_of_nil in Hp|]). done.
      * apply (op_global _ Ho).
      * intros p Hp. by apply elem_of_nil in Hp.
    + unfold pressure_of. destruct (Z.leb_spec (high_watermark_bytes o) 0); [pose proof (op_high _ Ho); lia|].
      destruct (Z.leb_spec 0 (low_watermark_bytes o)); [done|]. pose proof (op_low _ Ho). lia.
    + unfold active_topics. cbn. rewrite size_empty. pose proof (op_topics _ Ho). lia.
  - split; [cbn; unfold zlen; rewrite length_replicate; lia | cbn; lia | done | done | change (0 <= queue_capacity o); lia | done].
Qed.
