(* ===== verification/BufferPoolStory.v ===== *)
(** * Histories of the buffer pool

    The pool with the reservations of its producers and the handles of its consumer, under any sequence of calls.
    Beside the code's state a world keeps what happened: the records committed, those that left the queue and how,
    the reports of discarded records that the calls returned. *)
From S2P Require Import Prelude Bytes SourceIdentity TopicPartition TopicWriter BufferPool BufferPoolHeap BufferPoolSafety.

(** ** The world of a pool *)

Inductive Fate : Set := Delivered | Evicted.
#[export] Instance Fate_eq_dec : EqDecision Fate.
Proof. solve_decision. Defined.
#[export] Instance BufferDiscardReason_eq_dec : EqDecision BufferDiscardReason.
Proof. solve_decision. Defined.

(** A record and the bytes it had. *)
Abbreviation Record_ := (Lease * list byte)%type.
Record World : Set := mkWorld {
  pool : Pool; reservations : list Lease; handles : list Lease;
  committed : list Record_; removed : list (Record_ * Fate); reports : list PoolDiscard
}.

Inductive PoolCall : Set :=
| CallReserve (env : Allocator) (timed_out : bool) (q : BufferReservationRequest)
| CallWrite (i : nat) (bytes : list byte) | CallCommit (i : nat) (diagnostic : bool) | CallCancel (i : nat)
| CallDequeue (timed_out : bool) (timeout : Z) | CallTryDequeue | CallReset (i : nat) | CallClose.

(** The record of a lease, with the bytes it has now. *)
Definition with_bytes (s : Pool) (x : Lease) : Record_ := (x, content (cores (heap (blocks s))) x).
(** The records at the front of the queue. *)
Definition front (n : nat) (s : Pool) : option (list Lease) := mapM (fun i : nat => QueueAtLocked s (Z.of_nat i)) (seq 0 n).
Definition is_eviction (d : PoolDiscard) : bool := bool_decide (pd_reason d = DiscardDropOldest).
(** How many evictions a call reports. *)
Definition evicted_count (l : list PoolDiscard) : nat := length (List.filter is_eviction l).

Definition handed_over (x : Lease) (s : Pool) (w : World) : World :=
  mkWorld s (reservations w) (handles w ++ [x]) (committed w) (removed w ++ [(with_bytes (pool w) x, Delivered)]) (reports w).
Definition with_pool (s : Pool) (w : World) : World :=
  mkWorld s (reservations w) (handles w) (committed w) (removed w) (reports w).

(** A reservation call, from what it answered. *)
Definition reserve_world (w : World) (out : Outcome BufferReserveResult) (s : Pool) : option World :=
  match out with
  | Returned (Ok res) =>
      victims ← front (evicted_count (discarded res)) (pool w);
      Some (mkWorld s (match admission res with kAccepted => reservations w ++ [reservation res] | _ => reservations w end)
              (handles w) (committed w) (removed w ++ ((fun x => (with_bytes (pool w) x, Evicted)) <$> victims))
              (reports w ++ discarded res))
  | _ => Some (with_pool s w)
  end.

Definition run_call (c : PoolCall) (w : World) : option World :=
  match c with
  | CallReserve env timed_out q =>
      '(out, s) ← Reserve env timed_out q (pool w);
      reserve_world w out s
  | CallWrite i bytes =>
      x ← reservations w !! i; b ← write_lease x bytes (blocks (pool w)); Some (with_pool (with_blocks b (pool w)) w)
  | CallCommit i diagnostic =>
      x ← reservations w !! i;
      '(res, s) ← Commit diagnostic x (pool w);
      Some (mkWorld s (delete i (reservations w)) (handles w)
              (if is_ok res then committed w ++ [with_bytes (pool w) x] else committed w) (removed w) (reports w))
  | CallCancel i =>
      x ← reservations w !! i;
      '(d, s) ← Cancel x (pool w);
      Some (mkWorld s (delete i (reservations w)) (handles w) (committed w) (removed w) (reports w ++ option_list d))
  | CallDequeue timed_out timeout =>
      '(out, s) ← Dequeue timed_out timeout (pool w);
      match out with Returned (Ok x) => Some (handed_over x s w) | _ => Some (with_pool s w) end
  | CallTryDequeue =>
      '(res, s) ← TryDequeue (pool w);
      match res with Ok x => Some (handed_over x s w) | Err _ => Some (with_pool s w) end
  | CallReset i =>
      x ← handles w !! i;
      '(_, s) ← ResetHandle x (pool w);
      Some (mkWorld s (reservations w) (delete i (handles w)) (committed w) (removed w) (reports w))
  | CallClose => Some (with_pool (Close (pool w)) w)
  end.

(** The calls a client can make: reservations and handles that exist, a payload that fills its span, sizes that are
    machine integers, an allocator that answers with unused addresses. *)
Definition call_ok (w : World) (c : PoolCall) : Prop :=
  match c with
  | CallReserve env _ q => is_u64 (request_payload_size q) /\ lawful (block_address env)
  | CallWrite i bytes => exists x, reservations w !! i = Some x /\ zlen bytes = lease_payload_size x
  | CallCommit i _ | CallCancel i => is_Some (reservations w !! i)
  | CallReset i => is_Some (handles w !! i)
  | CallDequeue _ _ | CallTryDequeue | CallClose => True
  end.

Definition start (s : Pool) : World := mkWorld s [] [] [] [] [].
Inductive pool_run (requested : RecorderBufferPoolOptions) : World -> Prop :=
| run_start memory s : CreatePool memory requested = Ok s -> pool_run requested (start s)
| run_step w c w' : pool_run requested w -> call_ok w c -> run_call c w = Some w' -> pool_run requested w'.

(** Members within their widths; a vector of [queue_capacity] entries can exist. *)
Record options_typed (o : RecorderBufferPoolOptions) : Prop := {
  oy_global : is_u64 (global_byte_limit o); oy_default : is_u64 (default_topic_byte_limit o);
  oy_queue : 0 <= queue_capacity o < two63; oy_large : is_u64 (max_large_object_bytes o);
  oy_max : is_u64 (max_topics o); oy_high : is_u64 (high_watermark_bytes o); oy_low : is_u64 (low_watermark_bytes o);
  oy_topics : forall t n, topic_byte_limits o !! t = Some n -> is_u64 n
}.
Lemma normalize_ok requested o : options_typed requested -> NormalizeOptions requested = Ok o -> options_ok o.
Proof.
  intros [H1 H2 H3 H4 H8 H5 H6 H7]. unfold NormalizeOptions. intros H. do 6 step_if. bool_to_prop.
  match type of H with context [with_watermarks ?a ?b _] => set (high := a) in *; set (low := b) in * end.
  assert (0 <= low) as Hlow.
  { unfold low. destruct (low_watermark_bytes requested =? 0); [apply Z.div_pos; ulia | ulia]. }
  destruct (Z.ltb_spec (global_byte_limit requested) high); [done|]. destruct (Z.leb_spec high low); [done|].
  injection H as <-. split; cbn; try done; try ulia. intros t. unfold TopicLimitLocked. cbn. destruct (_ !! t) eqn:El; [by eapply H7 | done].
Qed.

(** Normalising sets the watermarks only. *)
Lemma normalize_limits requested o : NormalizeOptions requested = Ok o ->
  global_byte_limit requested = global_byte_limit o /\ queue_capacity requested = queue_capacity o /\
  max_topics requested = max_topics o /\ forall t, TopicLimitLocked requested t = TopicLimitLocked o t.
Proof. unfold NormalizeOptions. intros H. do 6 step_if. do 2 (destruct (_ <? _) in H || destruct (_ <=? _) in H; [done|]). by injection H as <-. Qed.

(** ** The invariant of a history *)

Definition fated (f : Fate) (w : World) : list Record_ := fst <$> filter (fun x => x.2 = f) (removed w).

Record world_ok (o : RecorderBufferPoolOptions) (q : list Lease) (w : World) : Prop := {
  wo_options : pool_options (pool w) = o;
  wo_pool : pool_ok (reservations w) q (handles w) (pool w);
  wo_order : committed w = (fst <$> removed w) ++ (with_bytes (pool w) <$> q);
  wo_reports : List.filter is_eviction (reports w) = (fun x => drop_report x.1) <$> fated Evicted w;
  wo_handles : forall x, x ∈ handles w -> with_bytes (pool w) x ∈ fated Delivered w;
  wo_metadata : forall x b m, (x, b) ∈ committed w -> lease_metadata x = Some m ->
    metadata_topic_id m = lease_topic_id x /\ metadata_payload_size m = zlen b;
  wo_accepted : accepted_count (counters (pool w)) = wrap64 (zlen (committed w));
  wo_dequeued : dequeued_count (counters (pool w)) = wrap64 (zlen (fated Delivered w));
  wo_dropped : dropped_oldest_count (counters (pool w)) = wrap64 (zlen (fated Evicted w))
}.

Lemma zlen_cons_eqb {A} (x : A) l : (zlen (x :: l) =? 0) = false.
Proof. done. Qed.

(** ** Frames *)

Section Frames.
Context (s s' : Pool).
Lemma with_bytes_frame (l : list Lease) x : agree (blocks_of l) (cores (heap (blocks s))) (cores (heap (blocks s'))) -> x ∈ l ->
  with_bytes s' x = with_bytes s x.
Proof. intros Ha Hx. unfold with_bytes. by rewrite (content_frame _ _ _ _ Hx Ha). Qed.
Lemma with_bytes_list l (k : list Lease) : agree (blocks_of l) (cores (heap (blocks s))) (cores (heap (blocks s'))) -> (forall x, x ∈ k -> x ∈ l) ->
  with_bytes s' <$> k = with_bytes s <$> k.
Proof. intros Ha Hk. apply list_fmap_ext. intros i x Hx. by eapply with_bytes_frame, Hk, list_elem_of_lookup_2. Qed.
End Frames.

Lemma fated_app f w l : fst <$> filter (fun x : Record_ * Fate => x.2 = f) (removed w ++ l) =
  fated f w ++ (fst <$> filter (fun x => x.2 = f) l).
Proof. by rewrite list.filter_app, fmap_app. Qed.
Lemma filter_fate {A} f (k : A -> Record_) (l : list A) :
  filter (fun x : Record_ * Fate => x.2 = f) ((fun x => (k x, f)) <$> l) = (fun x => (k x, f)) <$> l.
Proof. induction l as [|x l IH]; [done|]. rewrite fmap_cons, filter_cons_True by done. by rewrite IH. Qed.
Lemma filter_other {A} f g (k : A -> Record_) (l : list A) : f <> g ->
  filter (fun x : Record_ * Fate => x.2 = g) ((fun x => (k x, f)) <$> l) = [].
Proof. intros E. induction l as [|x l IH]; [done|]. rewrite fmap_cons. by rewrite filter_cons_False. Qed.

Lemma wrap_plus1 n : plus1 (wrap64 n) = wrap64 (n + 1).
Proof. unfold plus1, wrap64. by rewrite Zplus_mod_idemp_l. Qed.
Lemma dropped_iter n k m : dropped_oldest_count k = wrap64 m ->
  dropped_oldest_count (Nat.iter n count_dropped_oldest k) = wrap64 (m + Z.of_nat n) /\
  accepted_count (Nat.iter n count_dropped_oldest k) = accepted_count k /\
  dequeued_count (Nat.iter n count_dropped_oldest k) = dequeued_count k.
Proof.
  intros H. induction n as [|n IH]; [by rewrite Z.add_0_r|]. destruct IH as (H1 & H2 & H3). rewrite Nat.iter_succ.
  cbn [count_dropped_oldest dropped_oldest_count accepted_count dequeued_count]. rewrite H1, H2, H3, wrap_plus1.
  split_and!; try done. f_equal. lia.
Qed.

Section Steps.
Context (o : RecorderBufferPoolOptions).

(** A call that evicts the first [n] records and reports them. *)
Lemma evicting_step q w s' r' n ds : world_ok o q w -> pool_options s' = o -> pool_ok r' (drop n q) (handles w) s' -> (n <= length q)%nat ->
  agree (blocks_of (reservations w ++ drop n q ++ handles w)) (cores (heap (blocks (pool w)))) (cores (heap (blocks s'))) ->
  List.filter is_eviction ds = drop_report <$> take n q ->
  accepted_count (counters s') = accepted_count (counters (pool w)) -> dequeued_count (counters s') = dequeued_count (counters (pool w)) ->
  dropped_oldest_count (counters s') = wrap64 (zlen (fated Evicted w) + Z.of_nat n) ->
  world_ok o (drop n q) (mkWorld s' r' (handles w) (committed w)
    (removed w ++ ((fun x => (with_bytes (pool w) x, Evicted)) <$> take n q)) (reports w ++ ds)).
Proof.
  intros [H1 H2 H3 H4 H5 H6 H7 H8 H9] Ho Hp Hn Hag Hds Ka Kd Ke. split; cbn; try done.
  - rewrite fmap_app, <- list_fmap_compose, <- app_assoc.
    rewrite (with_bytes_list (pool w) s' _ (drop n q) Hag) by (intros x Hx; rewrite !elem_of_app; by right; left).
    rewrite H3. f_equal. unfold compose. cbn. by rewrite <- fmap_app, take_drop.
  - unfold fated. cbn. rewrite fated_app, filter_fate, List.filter_app, H4, Hds, fmap_app. cbn. f_equal.
    by rewrite <- !list_fmap_compose.
  - intros x Hx. unfold fated. cbn. rewrite fated_app, filter_other by done. cbn. rewrite app_nil_r.
    rewrite (with_bytes_frame (pool w) s' _ x Hag) by (rewrite !elem_of_app; by right; right). by apply H5.
  - by rewrite Ka.
  - unfold fated. cbn. rewrite fated_app, filter_other by done. cbn. by rewrite app_nil_r, Kd.
  - unfold fated. cbn. rewrite fated_app, filter_fate. cbn. rewrite Ke. f_equal. unfold zlen. rewrite length_app, !length_fmap, length_take. lia.
Qed.

(** A call that leaves the queue alone and reports no eviction. *)
Lemma quiet_step q w s' r' ds : world_ok o q w -> pool_options s' = o -> pool_ok r' q (handles w) s' ->
  agree (blocks_of (q ++ handles w)) (cores (heap (blocks (pool w)))) (cores (heap (blocks s'))) ->
  List.filter is_eviction ds = [] ->
  accepted_count (counters s') = accepted_count (counters (pool w)) -> dequeued_count (counters s') = dequeued_count (counters (pool w)) ->
  dropped_oldest_count (counters s') = dropped_oldest_count (counters (pool w)) ->
  world_ok o q (mkWorld s' r' (handles w) (committed w) (removed w) (reports w ++ ds)).
Proof.
  intros [H1 H2 H3 H4 H5 H6 H7 H8 H9] Ho Hp Hag Hds Ka Kd Ke. split; cbn; rewrite ?Ka, ?Kd, ?Ke; try done.
  - rewrite (with_bytes_list (pool w) s' _ q Hag) by (intros x Hx; rewrite !elem_of_app; by left). done.
  - by rewrite List.filter_app, Hds, app_nil_r.
  - intros x Hx. rewrite (with_bytes_frame (pool w) s' _ x Hag) by (rewrite !elem_of_app; by right). by apply H5.
Qed.
Lemma quiet_pool q w s' : world_ok o q w -> pool_options s' = o -> pool_ok (reservations w) q (handles w) s' ->
  agree (blocks_of (q ++ handles w)) (cores (heap (blocks (pool w)))) (cores (heap (blocks s'))) ->
  accepted_count (counters s') = accepted_count (counters (pool w)) -> dequeued_count (counters s') = dequeued_count (counters (pool w)) ->
  dropped_oldest_count (counters s') = dropped_oldest_count (counters (pool w)) -> world_ok o q (with_pool s' w).
Proof. intros. pose proof (quiet_step q w s' (reservations w) []) as H'. rewrite app_nil_r in H'. by apply H'. Qed.
Lemma agree_mono (l k : list Lease) c c' : (forall x, x ∈ k -> x ∈ l) -> agree (blocks_of l) c c' -> agree (blocks_of k) c c'.
Proof.
  intros Hk Ha p Hp. apply Ha. unfold blocks_of in *. apply list_elem_of_omap in Hp as (x & Hx & Hp). apply list_elem_of_omap. eauto.
Qed.
(** ** Every call keeps the invariant *)

Lemma evictions_listed l ds : List.filter is_eviction ((drop_report <$> l) ++ ds) = (drop_report <$> l) ++ List.filter is_eviction ds.
Proof. rewrite List.filter_app. f_equal. induction l as [|x l IH]; [done|]. cbn. by rewrite IH. Qed.
Lemma incoming_kept reason req c : reason <> DiscardDropOldest -> List.filter is_eviction [incoming_discard reason req c] = [].
Proof. intros E. cbn. unfold is_eviction. by rewrite bool_decide_eq_false_2. Qed.
Lemma front_ok q w n : world_ok o q w -> (n <= length q)%nat -> front n (pool w) = Some (take n q).
Proof. intros H. by eapply victims_ok, wo_pool. Qed.
Lemma evicted_count_ok n q ds : (n <= length q)%nat -> List.filter is_eviction ds = drop_report <$> take n q -> evicted_count ds = n.
Proof. intros Hn E. unfold evicted_count. rewrite E, length_fmap, length_take. lia. Qed.

Lemma admitted_step env req c q w n out s' : world_ok o q w -> (n <= length q)%nat -> same_flags (pool w) s' ->
  agree (blocks_of (reservations w ++ drop n q ++ handles w)) (cores (heap (blocks (pool w)))) (cores (heap (blocks s'))) ->
  admitted env req c (drop_report <$> take n q) (reservations w) (drop n q) (handles w) (pool w)
    (Nat.iter n count_dropped_oldest (counters (pool w))) out s' ->
  exists w' q', reserve_world w out s' = Some w' /\ world_ok o q' w'.
Proof.
  intros Hw Hn (_ & _ & Ho) Hag Had. rewrite (wo_options _ _ _ Hw) in Ho.
  destruct (dropped_iter n _ _ (wo_dropped _ _ _ Hw)) as (K1 & K2 & K3).
  destruct Had as [(p & -> & Hp & Hk & _)|(reason & error & s1 & Hp & Hk & Href & Hre)].
  - assert (List.filter is_eviction (drop_report <$> take n q) = drop_report <$> take n q) as Eds.
    { pose proof (evictions_listed (take n q) []) as E. by rewrite !app_nil_r in E. }
    cbn [reserve_world discarded accepted_reply]. rewrite (evicted_count_ok n q) by done. rewrite (front_ok q) by done. cbn. eexists _, (drop n q). split; [done|].
    apply evicting_step; try done; [|by rewrite Hk..].
    eapply pool_perm; [|done|exact Hp]. apply Permutation_cons_append.
  - unfold refuse in Href. case_bool_decide as Eds.
    + injection Href as -> ->. assert (n = 0)%nat as ->.
      { apply (f_equal length) in Eds. rewrite length_fmap, length_take in Eds. cbn in Eds. lia. }
      cbn in *. rewrite drop_0 in *. eexists _, q. split; [done|]. apply quiet_pool; try done; [|by rewrite Hk..].
      eapply agree_mono; [|exact Hag]. intros x Hx. apply elem_of_app. by right.
    + injection Href as -> ->. cbn [reserve_world discarded].
      assert (reason <> DiscardDropOldest) as Hr by (unfold refusal in Hre; case_match; [by destruct Hre as [-> _] | by subst]).
      assert (List.filter is_eviction ((drop_report <$> take n q) ++ [incoming_discard reason req c]) = drop_report <$> take n q) as Ef.
      { by rewrite evictions_listed, incoming_kept, app_nil_r. }
      rewrite (evicted_count_ok n q) by done. rewrite (front_ok q) by done. cbn. eexists _, (drop n q). split; [done|].
      apply evicting_step; try done; [by apply pool_counted | cbn; by rewrite Hk..].
Qed.

Lemma no_room_step timed_out req c q w : world_ok o q w ->
  exists w' q', reserve_world w (fst (no_room timed_out req c (pool w))) (snd (no_room timed_out req c (pool w))) = Some w' /\ world_ok o q' w'.
Proof.
  intros Hw. pose proof (wo_options _ _ _ Hw) as Ho. pose proof (wo_pool _ _ _ Hw) as Hp.
  assert (forall s', pool_options s' = pool_options (pool w) -> pool_ok (reservations w) q (handles w) s' -> blocks s' = blocks (pool w) ->
    accepted_count (counters s') = accepted_count (counters (pool w)) -> dequeued_count (counters s') = dequeued_count (counters (pool w)) ->
    dropped_oldest_count (counters s') = dropped_oldest_count (counters (pool w)) ->
    (exists w' q', Some (with_pool s' w) = Some w' /\ world_ok o q' w') /\
    forall reason adm, reason <> DiscardDropOldest -> adm <> kAccepted ->
      exists w' q', reserve_world w (Returned (Ok (mkReserveResult adm empty_lease [incoming_discard reason req c]))) s' = Some w' /\ world_ok o q' w') as Hgen.
  { intros s' E1 E2 E3 E4 E5 E6. split.
    - eexists _, q. split; [done|]. apply quiet_pool; try done; [by rewrite E1|]. by rewrite E3.
    - intros reason adm Hr Hadm. cbn [reserve_world discarded]. unfold evicted_count. rewrite incoming_kept by done. cbn. eexists _, q. split; [done|].
      rewrite app_nil_r. replace (match adm with kAccepted => _ | _ => _ end) with (reservations w) by (by destruct adm).
      apply quiet_step; try done; [by rewrite E1 | by rewrite E3 | by apply incoming_kept]. }
  unfold no_room. destruct (full_policy req); cbn [fst snd].
  1, 5: repeat case_match; cbn [fst snd]; apply Hgen; try done; by apply pool_counted.
  - apply Hgen; try done. by apply pool_counted.
  - apply Hgen; try done. by apply pool_counted.
  - apply Hgen; try done. apply pool_counted. destruct Hp as [G1 G2 G3 G4]. split; try done. by eapply (holdings_frame _ (pool w)).
Qed.

Lemma reserve_step env timed_out req q w : world_ok o q w -> is_u64 (request_payload_size req) -> lawful (block_address env) ->
  exists w' q', run_call (CallReserve env timed_out req) w = Some w' /\ world_ok o q' w'.
Proof.
  intros Hw Hty Hlaw. pose proof (wo_pool _ _ _ Hw) as Hp. pose proof (ho_options _ _ (po_holdings _ _ _ _ Hp)) as Hopt.
  assert (exists out s', Reserve env timed_out req (pool w) = Some (out, s') /\ exists w' q', reserve_world w out s' = Some w' /\ world_ok o q' w') as H.
  { assert (exists w' q', Some (with_pool (pool w) w) = Some w' /\ world_ok o q' w') as Hsame.
    { eexists _, q. split; [done|]. apply quiet_pool; try done. apply Hw. }
    destruct (check_request (pool_options (pool w)) req) as [c|e] eqn:Ec.
    - destruct (closed (pool w) || recording_failed (pool w)) eqn:Efl.
      + eexists _, _. split; [unfold Reserve; rewrite Ec, Efl; done|]. exact Hsame.
      + pose proof (Reserve_cases env timed_out req c _ _ _ _ Hp (request_typed_ok _ _ _ Hopt Hty Ec) Hlaw Ec Efl) as Hcase.
        destruct (evictions _ _ _ _ _ _ _) as [n|].
        * destruct Hcase as (Hn & out & s' & E & Hf & Hag & Had). exists out, s'. split; [done|]. by eapply admitted_step.
        * eexists _, _. split; [rewrite Hcase; f_equal; apply surjective_pairing|]. by apply (no_room_step _ _ _ q).
    - eexists _, _. split; [unfold Reserve; rewrite Ec; done|]. exact Hsame. }
  destruct H as (out & s' & E & w' & q' & Ew & Hw'). exists w', q'. split; [|done]. cbn [run_call]. rewrite E. exact Ew.
Qed.
Lemma delete_perm {A} (l : list A) i x : l !! i = Some x -> l ≡ₚ x :: delete i l.
Proof. apply delete_Permutation. Qed.
Lemma reserved_at q w i x : world_ok o q w -> reservations w !! i = Some x ->
  pool_ok (x :: delete i (reservations w)) q (handles w) (pool w).
Proof. intros Hw Hx. eapply pool_perm; [by apply delete_perm | done | apply Hw]. Qed.

Lemma write_step i bytes q w : world_ok o q w -> call_ok w (CallWrite i bytes) ->
  exists w' q', run_call (CallWrite i bytes) w = Some w' /\ world_ok o q' w'.
Proof.
  intros Hw (x & Hx & Hlen). cbn. rewrite Hx. cbn.
  destruct (write_lease_ok x bytes _ _ _ _ (reserved_at _ _ _ _ Hw Hx) Hlen) as (b & -> & Hp & _ & Hag). cbn. eexists _, q. split; [done|].
  apply quiet_pool; try done; [apply Hw| |].
  - eapply pool_perm; [symmetry; by apply delete_perm | done | exact Hp].
  - eapply agree_mono; [|exact Hag]. intros y Hy. apply elem_of_app. by right.
Qed.

(** The payload has the length of its span. *)
Lemma content_length r q h s x : pool_ok r q h s -> x ∈ r ++ q ++ h -> zlen (content (cores (heap (blocks s))) x) = lease_payload_size x.
Proof.
  intros Hs Hx. destruct (ho_leases _ _ (po_holdings _ _ _ _ Hs) x Hx) as [(p & Hp & Hcap & [k Hk]) Hpay _].
  destruct (ho_store _ _ (po_holdings _ _ _ _ Hs)) as (free & Hst). destruct (st_cores _ _ _ _ Hst p k Hk) as [Hsz _].
  unfold content. rewrite Hp, Hk. unfold cap_in in Hcap. rewrite Hk in Hcap. unfold zlen. rewrite length_take. lia.
Qed.

Lemma pool_commit_step i d q w : world_ok o q w -> is_Some (reservations w !! i) ->
  exists w' q', run_call (CallCommit i d) w = Some w' /\ world_ok o q' w'.
Proof.
  intros Hw [x Hx]. cbn. rewrite Hx. cbn. pose proof (reserved_at _ _ _ _ Hw Hx) as Hp0.
  destruct (Commit_ok d x _ _ _ _ Hp0) as (res & s' & -> & (_ & _ & Ho) & Hag & Hif). cbn.
  rewrite (wo_options _ _ _ Hw) in Ho. destruct (closed (pool w) || recording_failed (pool w)).
  - destruct Hif as (-> & Hp & Hk). eexists _, q. split; [done|].
    pose proof (quiet_step q w s' (delete i (reservations w)) [] Hw Ho Hp) as H. rewrite app_nil_r in H.
    apply H; try done; [|by destruct Hk as [-> | ->]..]. eapply agree_mono; [|exact Hag]. intros y Hy. apply elem_of_app. by right.
  - destruct Hif as (-> & Hp & Hk & Hb). eexists _, (q ++ [x]). split; [done|].
    assert (forall y, with_bytes s' y = with_bytes (pool w) y) as Ewb by (intros y; unfold with_bytes; by rewrite Hb).
    assert (with_bytes s' <$> q ++ [x] = (with_bytes (pool w) <$> q) ++ [with_bytes (pool w) x]) as El.
    { rewrite fmap_app. cbn. rewrite Ewb. f_equal. apply list_fmap_ext. by intros. }
    destruct Hw as [H1 H2 H3 H4 H5 H6 H7 H8 H9]. split; cbn [pool committed removed reports handles reservations is_ok]; rewrite ?Hk; try done.
    + by rewrite El, H3, app_assoc.
    + intros y Hy. rewrite Ewb. by apply H5.
    + intros y b m [Hy|Hy]%elem_of_app; [by apply H6|]. apply list_elem_of_singleton in Hy. injection Hy as -> ->. intros Hm.
      assert (x ∈ (x :: delete i (reservations w)) ++ q ++ handles w) as Hin by by left.
      rewrite (content_length _ _ _ _ x Hp0 Hin). by apply (ho_leases _ _ (po_holdings _ _ _ _ Hp0) x Hin).
    + cbn. rewrite H7, wrap_plus1. f_equal. unfold zlen. rewrite length_app. cbn. lia.
Qed.

Lemma cancel_step i q w : world_ok o q w -> is_Some (reservations w !! i) ->
  exists w' q', run_call (CallCancel i) w = Some w' /\ world_ok o q' w'.
Proof.
  intros Hw [x Hx]. cbn. rewrite Hx. cbn. pose proof (reserved_at _ _ _ _ Hw Hx) as Hp0.
  destruct (Cancel_ok x _ _ _ _ Hp0) as (s' & -> & Hp & (_ & _ & Ho) & Hk & Hag). cbn. rewrite (wo_options _ _ _ Hw) in Ho.
  eexists _, q. split; [done|]. apply quiet_step; try done; [|by rewrite Hk..]. eapply agree_mono; [|exact Hag]. intros y Hy. apply elem_of_app. by right.
Qed.

(** The front of the queue goes to the consumer. *)
Lemma handed_step x q w : world_ok o (x :: q) w ->
  exists s', take_front (pool w) = Some (x, s') /\ world_ok o q (handed_over x s' w).
Proof.
  intros Hw. destruct (take_front_ok _ _ _ _ _ (wo_pool _ _ _ Hw)) as (s' & E & Hp & (_ & _ & Ho) & Hk & Hb). exists s'. split; [done|].
  assert (forall y, with_bytes s' y = with_bytes (pool w) y) as Ewb by (intros y; unfold with_bytes; by rewrite Hb).
  destruct Hw as [H1 H2 H3 H4 H5 H6 H7 H8 H9]. unfold handed_over.
  assert (forall f, fated f (handed_over x s' w) = fated f w ++ (fst <$> filter (fun y => y.2 = f) [(with_bytes (pool w) x, Delivered)])) as Ef
    by (intros f; apply fated_app).
  pose proof (Ef Delivered) as Ed. rewrite filter_cons_True in Ed by done. pose proof (Ef Evicted) as Ee. rewrite filter_cons_False in Ee by done.
  cbn [fmap list_fmap filter list_filter fst] in Ed, Ee. rewrite app_nil_r in Ee. unfold handed_over in Ed, Ee.
  split; rewrite ?Ed, ?Ee; cbn [pool committed removed reports handles reservations]; rewrite ?Hk; try done.
  - by rewrite Ho.
  - eapply pool_perm; [done | apply Permutation_cons_append | exact Hp].
  - rewrite H3, fmap_app, <- app_assoc. cbn. do 2 f_equal. apply list_fmap_ext. by intros.
  - intros y Hy. rewrite Ewb. apply elem_of_app. apply elem_of_app in Hy as [Hy|Hy]; [left; by apply H5|]. right.
    apply list_elem_of_singleton in Hy. subst. by left.
  - cbn. rewrite H8, wrap_plus1. f_equal. unfold zlen. rewrite length_app. cbn. lia.
Qed.

Lemma dequeue_step c q w : world_ok o q w -> c = CallTryDequeue \/ (exists timed_out timeout, c = CallDequeue timed_out timeout) ->
  exists w' q', run_call c w = Some w' /\ world_ok o q' w'.
Proof.
  intros Hw Hc. assert (exists w' q', Some (with_pool (pool w) w) = Some w' /\ world_ok o q' w') as Hsame.
  { eexists _, q. split; [done|]. apply quiet_pool; try done; apply Hw. }
  pose proof (ri_queued _ _ _ (po_ring _ _ _ _ (wo_pool _ _ _ Hw))) as Hq.
  destruct Hc as [->|(timed_out & timeout & ->)]; cbn [run_call]; unfold TryDequeue, Dequeue; rewrite Hq.
  - destruct q as [|x q]; [cbn; by destruct (closed _ || _)|]. destruct (handed_step x q w Hw) as (s' & E & Hw').
    rewrite zlen_cons_eqb. rewrite E. cbn. by eauto.
  - destruct (timeout <? 0); [done|]. destruct q as [|x q]; [cbn; by destruct (closed _ || _); [|destruct (timed_out && negb _)]|].
    destruct (handed_step x q w Hw) as (s' & E & Hw').
    rewrite zlen_cons_eqb. rewrite E. cbn. by eauto.
Qed.

Lemma reset_step i q w : world_ok o q w -> is_Some (handles w !! i) ->
  exists w' q', run_call (CallReset i) w = Some w' /\ world_ok o q' w'.
Proof.
  intros Hw [x Hx]. cbn. rewrite Hx. cbn.
  destruct (Reset_ok x (reservations w) q (delete i (handles w)) (pool w)) as (l & s' & -> & _ & Hp & (_ & _ & Ho) & Hk & Hag).
  { eapply pool_perm; [done | by apply delete_perm | apply Hw]. }
  cbn. eexists _, q. split; [done|]. rewrite (wo_options _ _ _ Hw) in Ho. destruct Hw as [H1 H2 H3 H4 H5 H6 H7 H8 H9].
  split; cbn [pool committed removed reports handles reservations]; rewrite ?Hk; try done.
  - rewrite (with_bytes_list (pool w) s' _ q Hag) by (intros y Hy; rewrite !elem_of_app; by right; left). done.
  - intros y Hy. rewrite (with_bytes_frame (pool w) s' _ y Hag) by (rewrite !elem_of_app; by right; right).
    apply H5. rewrite (delete_perm _ _ _ Hx). by right.
Qed.

Lemma call_step c q w : world_ok o q w -> call_ok w c -> exists w' q', run_call c w = Some w' /\ world_ok o q' w'.
Proof.
  intros Hw Hc. destruct c; cbn in Hc.
  - by eapply reserve_step; [|apply Hc..].
  - by eapply write_step.
  - by eapply pool_commit_step.
  - by eapply cancel_step.
  - eapply dequeue_step; [done|]. right. by eauto.
  - eapply dequeue_step; [done|]. by left.
  - by eapply reset_step.
  - eexists _, q. split; [done|]. apply quiet_pool; try done; [apply Hw|]. apply Close_ok, Hw.
Qed.

Lemma start_world_ok : options_ok o -> world_ok o [] (start (initial_pool o)).
Proof.
  intros Ho. split; try done; [by apply initial_pool_ok | ..].
  - intros x Hx. by apply elem_of_nil in Hx.
  - intros x b m Hx. by apply elem_of_nil in Hx.
Qed.
End Steps.

Lemma run_world_ok requested w : options_typed requested -> pool_run requested w ->
  exists o q, NormalizeOptions requested = Ok o /\ world_ok o q w.
Proof.
  intros Hty. induction 1 as [memory s Hs|w c w' _ (o & q & Eo & IH) Hc E].
  - unfold CreatePool in Hs. apply bindR_Ok in Hs as (o & Eo & Hs). step_if. injection Hs as <-. exists o, []. split; [done|].
    by eapply start_world_ok, normalize_ok.
  - destruct (call_step o c q w IH Hc) as (w'' & q' & E' & Hw'). rewrite E in E'. injection E' as <-. by exists o, q'.
Qed.

(** ** The loop of the topic writer over the pool *)

(** The answers of [TryDequeue] in the loop of [Pump] and [Stop], for at most [n] rounds, with no other call in
    between and as long as every record is processed without error (the code leaves the loop at the first
    [ProcessHandleLocked] that fails); a handle is released when its record has been processed. *)
Fixpoint feed (n : nat) (s : Pool) : option (list DequeueAnswer * Pool) :=
  match n with
  | O => Some ([], s)
  | S n =>
      '(res, s) ← TryDequeue s;
      match res with
      | Err e => Some ([DequeueError e (recording_failed s)], s)
      | Ok x =>
          bytes ← lease_bytes x (blocks s);
          '(_, s) ← ResetHandle x s;
          '(rest, s) ← feed n s;
          Some (Dequeued (mkHandle (lease_topic_id x) (lease_user_tag x) bytes (lease_metadata x)) :: rest, s)
      end
  end.
(** A record as the writer sees it. *)
Definition answer_of (x : Record_) : DequeueAnswer :=
  Dequeued (mkHandle (lease_topic_id x.1) (lease_user_tag x.1) x.2 (lease_metadata x.1)).
Definition end_of_feed (s : Pool) : DequeueAnswer :=
  DequeueError (if closed s || recording_failed s then stopped_status s else mkStatus kWouldBlock "recorder queue is empty") (recording_failed s).

Lemma lease_bytes_ok r q h s x : pool_ok r q h s -> x ∈ r ++ q ++ h ->
  lease_bytes x (blocks s) = Some (content (cores (heap (blocks s))) x).
Proof.
  intros Hs Hx. destruct (ho_leases _ _ (po_holdings _ _ _ _ Hs) x Hx) as [(p & Hp & _ & [k Hk]) _ _].
  unfold lease_bytes, content, load. rewrite Hp, Hk. rewrite cores_lookup in Hk. destruct (heap (blocks s) !! p); [|done].
  by injection Hk as <-.
Qed.

Lemma feed_ok q r h s n : pool_ok r q h s -> (length q < n)%nat ->
  exists s', feed n s = Some ((answer_of ∘ with_bytes s <$> q) ++ [end_of_feed s], s') /\ pool_ok r [] h s' /\ same_flags s s'.
Proof.
  revert s n. induction q as [|x q IH]; intros s [|n] Hs Hn; cbn in Hn; [lia | | lia|].
  - exists s. cbn. unfold TryDequeue, end_of_feed. rewrite (ri_queued _ _ _ (po_ring _ _ _ _ Hs)). cbn. by destruct (closed s || recording_failed s).
  - destruct (take_front_ok _ _ _ _ _ Hs) as (s1 & E1 & Hs1 & (C1 & F1 & O1) & _ & Hb1).
    destruct (Reset_ok _ _ _ _ _ Hs1) as (l & s2 & E2 & _ & Hs2 & (C2 & F2 & O2) & _ & Hag).
    destruct (IH s2 n Hs2) as (s' & E3 & Hs' & (C3 & F3 & O3)); [lia|].
    exists s'. split; [|split; [done | repeat split; congruence]]. cbn [feed]. unfold TryDequeue.
    rewrite (ri_queued _ _ _ (po_ring _ _ _ _ Hs)), zlen_cons_eqb, E1. cbn [mbind option_bind].
    rewrite (lease_bytes_ok r q (x :: h) s1 x Hs1) by (rewrite !elem_of_app; right; right; by left). cbn [mbind option_bind].
    rewrite E2. cbn [mbind option_bind]. rewrite E3. cbn [mbind option_bind]. rewrite fmap_cons. cbn [app]. do 3 f_equal.
    + unfold answer_of, with_bytes. cbn. by rewrite Hb1.
    + f_equal; [|unfold end_of_feed, stopped_status; by rewrite F2, F1, C2, C1].
      rewrite !list_fmap_compose. f_equal. rewrite Hb1 in Hag. eapply with_bytes_list; [exact Hag|].
      intros y Hy. rewrite !elem_of_app. by right; left.
Qed.

Lemma world_front o q w : world_ok o q w -> front (length q) (pool w) = Some q.
Proof. intros Hw. by rewrite (front_ok o q w) by done; rewrite firstn_all. Qed.

(** ** What the pool promises *)

(** C11: no call that a client can make on a pool of any history has undefined behaviour, and every loop ends: the
    call returns and the history goes on.  At any time the blocks of the outstanding reservations, queue entries and
    handles are distinct and alive, and the destructor deletes every block exactly once. *)
Theorem pool_never_undefined requested w c : options_typed requested -> pool_run requested w -> call_ok w c ->
  (exists w', run_call c w = Some w') /\ destroy_pool (blocks (pool w)) = Some ∅ /\
  exists queue, front (Z.to_nat (queued_records (ring (pool w)))) (pool w) = Some queue /\
    let outstanding := blocks_of (reservations w ++ queue ++ handles w) in
    NoDup outstanding /\ length outstanding = length (reservations w ++ queue ++ handles w) /\
    forall p, p ∈ outstanding -> is_Some (load p (blocks (pool w))).
Proof.
  intros Hty Hr Hc. destruct (run_world_ok _ _ Hty Hr) as (o & q & _ & Hw).
  destruct (call_step o c q w Hw Hc) as (w' & _ & E & _). split; [by exists w'|].
  pose proof (wo_pool _ _ _ Hw) as Hp. pose proof (po_holdings _ _ _ _ Hp) as Hh. destruct (ho_store _ _ Hh) as (free & Hst).
  split; [by eapply destroy_ok|]. exists q. rewrite (ri_queued _ _ _ (po_ring _ _ _ _ Hp)). unfold zlen. rewrite Nat2Z.id.
  split; [by eapply world_front|]. cbn zeta. split_and!.
  - by apply store_nodup, list.NoDup_app in Hst as (? & _ & _).
  - by eapply blocks_of_length, ho_leases.
  - intros p Hin. apply (store_alive _ _ _ _ p Hst), elem_of_app. by left.
Qed.

(** C12: the budgets of the pool hold in every history: the bytes in use are the charges of the outstanding
    reservations, queue entries and handles, globally and per topic, and stay within the configured limits, the bytes
    allocated for blocks too; reservations and queue entries together fit the queue, the active topics their limit. *)
Theorem pool_budget_kept requested w : options_typed requested -> pool_run requested w ->
  exists queue, front (Z.to_nat (queued_records (ring (pool w)))) (pool w) = Some queue /\
    let all := reservations w ++ queue ++ handles w in
    let stats := pool_stats (pool w) in
    stat_bytes_in_use stats = charges all /\ charges all <= global_byte_limit requested /\
    charges all <= stat_allocated_bytes stats <= global_byte_limit requested /\
    (forall t, TopicBytesInUse (pool w) t = charges (of_topic t all) /\ TopicBytesInUse (pool w) t <= TopicLimitLocked requested t) /\
    stat_reserved_records stats = zlen (reservations w) /\ stat_queued_records stats = zlen queue /\
    zlen (reservations w) + zlen queue <= queue_capacity requested /\
    stat_active_topics stats = active_topics all /\ active_topics all <= max_topics requested /\
    stat_pressure stats = pressure_of (pool_options (pool w)) (charges all).
Proof.
  intros Hty Hr. destruct (run_world_ok _ _ Hty Hr) as (o & q & Eo & Hw). pose proof (wo_pool _ _ _ Hw) as Hp.
  pose proof (po_holdings _ _ _ _ Hp) as Hh. exists q. rewrite (ri_queued _ _ _ (po_ring _ _ _ _ Hp)). unfold zlen at 1. rewrite Nat2Z.id.
  split; [by eapply world_front|]. cbn zeta. destruct Hh as [K1 K2 K3 K4 K5 (free & K6) K7 K8]. destruct Hp as [_ Hrg Hres Hsl].
  rewrite (wo_options _ _ _ Hw) in *. destruct (normalize_limits _ _ Eo) as (-> & -> & -> & Htl).
  cbn [pool_stats stat_bytes_in_use stat_allocated_bytes stat_reserved_records stat_queued_records stat_active_topics stat_pressure].
  rewrite (le_bytes _ _ K2) in *. split_and!; try done.
  - rewrite (st_allocated _ _ _ _ K6), sumz_app, (charged_caps _ _ K5).
    enough (0 <= sumz (cap_in (cores (heap (blocks (pool w))))) (concat free)) by lia. apply sumz_nonneg. intros p _. by eapply store_caps.
  - apply K6.
  - intros t. unfold TopicBytesInUse. rewrite (topic_bytes_ok _ _ t K2), Htl. split; [done | apply K4].
  - apply Hrg.
  - by apply ledger_topics.
Qed.

(** C10: in every history the records committed are, in their order and with the bytes they were committed with, the
    records that have left the queue followed by those still in it: every record is handed to the consumer or evicted
    exactly once, first in first out.  The evictions are exactly the ones the calls have reported, a handle shows the
    bytes that were committed until it is released, and the counters count modulo 2^64. *)
Theorem pool_first_in_first_out requested w : options_typed requested -> pool_run requested w ->
  exists queue, front (Z.to_nat (queued_records (ring (pool w)))) (pool w) = Some queue /\
    committed w = (fst <$> removed w) ++ (with_bytes (pool w) <$> queue) /\
    List.filter is_eviction (reports w) = (fun x => drop_report x.1) <$> fated Evicted w /\
    (forall x, x ∈ handles w -> with_bytes (pool w) x ∈ fated Delivered w) /\
    accepted_count (counters (pool w)) = wrap64 (zlen (committed w)) /\
    dequeued_count (counters (pool w)) = wrap64 (zlen (fated Delivered w)) /\
    dropped_oldest_count (counters (pool w)) = wrap64 (zlen (fated Evicted w)).
Proof.
  intros Hty Hr. destruct (run_world_ok _ _ Hty Hr) as (o & q & _ & Hw). exists q.
  rewrite (ri_queued _ _ _ (po_ring _ _ _ _ (wo_pool _ _ _ Hw))). unfold zlen at 1. rewrite Nat2Z.id.
  split; [by eapply world_front|]. by destruct Hw.
Qed.

Lemma accepted_when_possible env req c ds r q h s k out s' : admitted env req c ds r q h s k out s' ->
  topic_slot (pool_options s) (r ++ q ++ h) (request_topic_id req) = true -> usage_node env = true ->
  (forall hp, shrinks (cores (heap (blocks s))) (cores hp) -> block_address env hp <> None) -> exists p, out = accepted_reply req c p ds.
Proof.
  intros [(p & -> & _)|(reason & error & s1 & _ & _ & _ & Href)] Hts Hu Ha; [by exists p|]. unfold refusal in Href.
  rewrite Hts, Hu in Href. destruct Href as (_ & [|(hp & E & Hsh)]); [done|]. by destruct (Ha hp Hsh).
Qed.
Lemma find_least (f : nat -> bool) start n k : find f (seq start n) = Some k -> forall i, (start <= i < k)%nat -> f i = false.
Proof.
  revert start. induction n as [|n IH]; intros start; cbn; [done|]. destruct (f start) eqn:E.
  - intros [= <-] i Hi. lia.
  - intros H i Hi. destruct (decide (i = start)) as [->|]; [done|]. apply (IH (S start) H). lia.
Qed.

(** C13: [Reserve] on a pool of any history that is neither closed nor failed decides by the budgets alone.  It
    evicts the shortest prefix of the queue that makes room, none when there is room already, and only under
    [kDropOldest]; the request is then accepted, with the evicted records reported in their order, whenever a topic
    slot is free and the allocator answers beside the blocks that are alive, so that cached blocks never cost a reservation.  When no such prefix
    exists the pool is left as it was and the policy decides. *)
Theorem reserve_decides requested w env timed_out req c queue :
  options_typed requested -> pool_run requested w -> is_u64 (request_payload_size req) -> lawful (block_address env) ->
  check_request (pool_options (pool w)) req = Ok c -> closed (pool w) = false -> recording_failed (pool w) = false ->
  front (Z.to_nat (queued_records (ring (pool w)))) (pool w) = Some queue ->
  let o := pool_options (pool w) in
  let room k := fits o (reservations w) (drop k queue) (handles w) (request_topic_id req) c in
  exists out s', Reserve env timed_out req (pool w) = Some (out, s') /\
    match evictions o (full_policy req) (reservations w) queue (handles w) (request_topic_id req) c with
    | Some n =>
        room n = true /\ (forall k, (k < n)%nat -> room k = false) /\ (n = 0%nat \/ full_policy req = kDropOldest) /\
        (topic_slot o (reservations w ++ drop n queue ++ handles w) (request_topic_id req) = true ->
         usage_node env = true -> (forall h, shrinks (cores (heap (blocks (pool w)))) (cores h) -> block_address env h <> None) ->
         exists p, out = accepted_reply req c p (drop_report <$> take n queue))
    | None =>
        room 0%nat = false /\ (full_policy req = kDropOldest -> forall k, (k <= length queue)%nat -> room k = false) /\
        (out, s') = no_room timed_out req c (pool w)
    end.
Proof.
  intros Hty Hr Hpay Hlaw Hck Hcl Hfa Hq o room. destruct (run_world_ok _ _ Hty Hr) as (o' & q & _ & Hw). pose proof (wo_pool _ _ _ Hw) as Hp.
  rewrite (ri_queued _ _ _ (po_ring _ _ _ _ Hp)) in Hq. unfold zlen in Hq. rewrite Nat2Z.id, (world_front _ _ _ Hw) in Hq. injection Hq as <-.
  pose proof (request_typed_ok _ _ _ (ho_options _ _ (po_holdings _ _ _ _ Hp)) Hpay Hck) as Hrq.
  assert (closed (pool w) || recording_failed (pool w) = false) as Hfl by by rewrite Hcl, Hfa.
  pose proof (Reserve_cases env timed_out req c _ _ _ _ Hp Hrq Hlaw Hck Hfl) as Hcase. fold o in Hcase.
  destruct (evictions o (full_policy req) (reservations w) q (handles w) (request_topic_id req) c) as [n|] eqn:En.
  - destruct Hcase as (Hn & out & s' & E & _ & _ & Had). exists out, s'. split; [done|]. unfold evictions in En.
    destruct (fits o (reservations w) q (handles w) (request_topic_id req) c) eqn:E0.
    + injection En as <-. unfold room. rewrite drop_0 in *. split_and!; try done; [lia | by left|].
      intros Hts Hu Ha. by eapply accepted_when_possible.
    + destruct (full_policy req) eqn:Epol; try done. destruct (shortest_range _ _ _ _ _ _ _ En) as [Hn1 Hf]. split_and!; try done; [|by right|].
      * intros k Hk. destruct k as [|k]; [unfold room; by rewrite drop_0|]. eapply (find_least _ _ _ _ En). lia.
      * intros Hts Hu Ha. by eapply accepted_when_possible.
  - eexists _, _. split; [rewrite Hcase; f_equal; apply surjective_pairing|]. unfold evictions in En.
    destruct (fits o (reservations w) q (handles w) (request_topic_id req) c) eqn:E0; [done|].
    assert (room 0%nat = false) as H0 by (unfold room; by rewrite drop_0). split_and!; [done | | symmetry; apply surjective_pairing].
    intros Epol k Hk. rewrite Epol in En. destruct k as [|k]; [done|]. eapply (find_none _ _ En), in_seq. lia.
Qed.

(** C39: the loop of the topic writer over the pool of any history sees, when no other call comes between and as
    long as every record is processed without error, every
    record of the queue in commit order with the bytes it was committed with, whose metadata name its topic and its
    size, and then one answer that ends the loop; the queue is empty afterwards and the budget of every record free. *)
Theorem pool_feeds_writer requested w n queue : options_typed requested -> pool_run requested w ->
  front (Z.to_nat (queued_records (ring (pool w)))) (pool w) = Some queue -> (length queue < n)%nat ->
  exists s', feed n (pool w) = Some ((answer_of <$> drop (length (removed w)) (committed w)) ++ [end_of_feed (pool w)], s') /\
    length (drop (length (removed w)) (committed w)) = length queue /\
    (forall x m, x ∈ drop (length (removed w)) (committed w) -> lease_metadata x.1 = Some m ->
       metadata_topic_id m = lease_topic_id x.1 /\ metadata_payload_size m = zlen x.2) /\
    queued_records (ring s') = 0 /\ bytes_in_use (ledger s') = charges (reservations w ++ handles w).
Proof.
  intros Hty Hr Hq Hn. destruct (run_world_ok _ _ Hty Hr) as (o & q & _ & Hw). pose proof (wo_pool _ _ _ Hw) as Hp.
  rewrite (ri_queued _ _ _ (po_ring _ _ _ _ Hp)) in Hq. unfold zlen in Hq. rewrite Nat2Z.id, (world_front _ _ _ Hw) in Hq. injection Hq as <-.
  assert (drop (length (removed w)) (committed w) = with_bytes (pool w) <$> q) as E.
  { rewrite (wo_order _ _ _ Hw). rewrite drop_app_length'; [done | by rewrite length_fmap]. }
  destruct (feed_ok _ _ _ _ n Hp Hn) as (s' & Ef & Hs' & _). exists s'. rewrite list_fmap_compose in Ef. rewrite E. split_and!; try done.
  - by rewrite length_fmap.
  - intros [x b] m Hx. apply (wo_metadata _ _ _ Hw). rewrite (wo_order _ _ _ Hw). apply elem_of_app. by right.
  - by rewrite (ri_queued _ _ _ (po_ring _ _ _ _ Hs')).
  - by rewrite (le_bytes _ _ (ho_ledger _ _ (po_holdings _ _ _ _ Hs'))).
Qed.

(** ** A concrete history *)

Fixpoint run_calls (cs : list PoolCall) (w : World) : option World :=
  match cs with [] => Some w | c :: cs => w ← run_call c w; run_calls cs w end.
(** The decidable part of [call_ok]. *)
Definition possible (w : World) (c : PoolCall) : bool :=
  match c with
  | CallReserve _ _ q => (0 <=? request_payload_size q) && (request_payload_size q <? two64)
  | CallWrite i bytes => match reservations w !! i with Some x => zlen bytes =? lease_payload_size x | None => false end
  | CallCommit i _ | CallCancel i => bool_decide (is_Some (reservations w !! i))
  | CallReset i => bool_decide (is_Some (handles w !! i))
  | CallDequeue _ _ | CallTryDequeue | CallClose => true
  end.
Definition allocates (env : Allocator) (c : PoolCall) : Prop := match c with CallReserve e _ _ => e = env | _ => True end.
Fixpoint all_possible (cs : list PoolCall) (w : World) : bool :=
  match cs with
  | [] => true
  | c :: cs => possible w c && match run_call c w with Some w' => all_possible cs w' | None => false end
  end.
Lemma run_calls_ok requested env cs w : lawful (block_address env) -> Forall (allocates env) cs -> pool_run requested w ->
  all_possible cs w = true -> exists w', run_calls cs w = Some w' /\ pool_run requested w'.
Proof.
  intros Hlaw. revert w. induction cs as [|c cs IH]; intros w Hall Hr Hok; [by exists w|]. apply list.Forall_cons in Hall as [Hc Hall].
  cbn [all_possible] in Hok. apply andb_true_iff in Hok as [Hpos Hok]. cbn. destruct (run_call c w) as [w'|] eqn:E; [|done]. cbn. apply IH; try done.
  apply (run_step _ w c); [done| |done]. destruct c; cbn in *; subst; bool_to_prop; try done.
  destruct (reservations w !! i) as [x|]; [|done]. exists x. bool_to_prop. done.
Qed.

Definition sample_addresses : NewAddress := fun h => head (filter (fun p => h !! p = None) [1; 2; 3; 4; 5]%positive).
Definition sample_env : Allocator := mkAllocator true sample_addresses.
Lemma sample_lawful : lawful sample_addresses.
Proof.
  intros h p. unfold sample_addresses. set (free := filter (fun p => h !! p = None) [1; 2; 3; 4; 5]%positive).
  destruct free as [|q l] eqn:E; [done|]. cbn. intros [= <-].
  assert (q ∈ free) as [Hq Hin]%list_elem_of_filter by (rewrite E; by left). split; [done|].
  repeat (apply elem_of_cons in Hin as [->|Hin]; [done|]). by apply elem_of_nil in Hin.
Qed.

(** Three buffers of 4 KiB, two of them for one topic; two records in the queue. *)
Definition sample_requested : RecorderBufferPoolOptions := mkPoolOptions 12288 8192 2 4 1048576 0 0 ∅.
Lemma sample_requested_typed : options_typed sample_requested.
Proof. split; try (cbn; ulia). done. Qed.
Definition sample_request (tag size : Z) (policy : BufferFullPolicy) : BufferReservationRequest :=
  mkReservationRequest 7 size tag policy 0
    (Some (mkRecordMetadata (mkSchemaMetadata 1 [] 1 1) 7 (mkMessageSource 1 2 3 tag 77) 990 size 0)).
Definition record_calls (tag size : Z) (bytes : list byte) : list PoolCall :=
  [CallReserve sample_env false (sample_request tag size kDropOldest); CallWrite 0 bytes; CallCommit 0 true].
(** The third record evicts the first; the second is delivered. *)
Definition sample_calls : list PoolCall :=
  record_calls 10 3 [Byte.x01; Byte.x02; Byte.x03] ++ record_calls 11 2 [Byte.x04; Byte.x05] ++ record_calls 12 1 [Byte.x06]
  ++ [CallTryDequeue].
Definition sample_world : option World :=
  match CreatePool true sample_requested with Ok s => run_calls sample_calls (start s) | Err _ => None end.

Lemma sample_calls_allocate : Forall (allocates sample_env) sample_calls.
Proof. repeat constructor. Qed.
Lemma sample_pool_run : exists w, sample_world = Some w /\ pool_run sample_requested w.
Proof.
  unfold sample_world. destruct (CreatePool true sample_requested) as [s|e] eqn:E; [|vm_compute in E; discriminate].
  apply (run_calls_ok _ sample_env); [apply sample_lawful | apply sample_calls_allocate | by eapply run_start|].
  vm_compute in E. injection E as <-. vm_compute. reflexivity.
Qed.

Definition sample_holds (f : World -> bool) : bool := match sample_world with Some w => f w | None => false end.
Lemma sample_fact f w : sample_world = Some w -> sample_holds f = true -> f w = true.
Proof. unfold sample_holds. by intros ->. Qed.

Lemma pool_never_undefined_witness : exists w w', sample_world = Some w /\ run_call (CallReset 0) w = Some w' /\
  destroy_pool (blocks (pool w)) = Some ∅.
Proof.
  destruct sample_pool_run as (w & E & Hr). exists w.
  assert (call_ok w (CallReset 0)) as Hc.
  { pose proof (sample_fact (fun w => possible w (CallReset 0)) w E ltac:(vm_compute; reflexivity)) as H.
    by apply bool_decide_eq_true in H. }
  destruct (pool_never_undefined sample_requested w (CallReset 0) sample_requested_typed Hr Hc) as ((w' & Hw') & Hd & _).
  exists w'. split; [exact E|]. split; [exact Hw' | exact Hd].
Defined.

Definition sample_budget (w : World) : bool :=
  (stat_bytes_in_use (pool_stats (pool w)) =? 8192) && (stat_allocated_bytes (pool_stats (pool w)) =? 8192)
  && (TopicBytesInUse (pool w) 7 =? 8192) && (stat_queued_records (pool_stats (pool w)) =? 1).
Lemma pool_budget_kept_witness : exists w queue, sample_world = Some w /\ length queue = 1%nat /\
  stat_bytes_in_use (pool_stats (pool w)) = 8192 /\ charges (reservations w ++ queue ++ handles w) = 8192 /\
  stat_allocated_bytes (pool_stats (pool w)) = 8192 /\ TopicBytesInUse (pool w) 7 = 8192.
Proof.
  destruct sample_pool_run as (w & E & Hr).
  destruct (pool_budget_kept sample_requested w sample_requested_typed Hr) as (queue & Hf & Hb & _ & _ & _ & _ & Hq & _).
  exists w, queue. split; [exact E|].
  pose proof (sample_fact sample_budget w E ltac:(vm_compute; reflexivity)) as H.
  unfold sample_budget in H. bool_to_prop. split_and!; [unfold zlen in Hq; lia | assumption | by rewrite <- Hb | assumption | assumption].
Defined.

Definition sample_order (w : World) : bool :=
  bool_decide ((lease_user_tag ∘ fst <$> fated Evicted w) = [10]) && bool_decide ((lease_user_tag ∘ fst <$> fated Delivered w) = [11])
  && bool_decide ((snd <$> committed w) = [[Byte.x01; Byte.x02; Byte.x03]; [Byte.x04; Byte.x05]; [Byte.x06]]).
Lemma pool_first_in_first_out_witness : exists w queue, sample_world = Some w /\
  (lease_user_tag ∘ fst <$> fated Evicted w) = [10] /\ (lease_user_tag ∘ fst <$> fated Delivered w) = [11] /\
  (snd <$> committed w) = [[Byte.x01; Byte.x02; Byte.x03]; [Byte.x04; Byte.x05]; [Byte.x06]] /\
  committed w = (fst <$> removed w) ++ (with_bytes (pool w) <$> queue) /\
  List.filter is_eviction (reports w) = (fun x => drop_report x.1) <$> fated Evicted w.
Proof.
  destruct sample_pool_run as (w & E & Hr).
  destruct (pool_first_in_first_out sample_requested w sample_requested_typed Hr) as (queue & Hf & Ho & He & _).
  exists w, queue. split; [exact E|].
  pose proof (sample_fact sample_order w E ltac:(vm_compute; reflexivity)) as H. unfold sample_order in H. bool_to_prop. split_and!; assumption.
Defined.

(** A fourth record: one eviction makes room, a reservation outstanding. *)
Definition sample_full : option World :=
  w ← sample_world; run_calls [CallReset 0; CallReserve sample_env false (sample_request 13 4 kBlock)] w.
Lemma sample_full_run : exists w, sample_full = Some w /\ pool_run sample_requested w.
Proof.
  destruct sample_pool_run as (w & E & Hr). unfold sample_full. rewrite E. cbn [mbind option_bind].
  apply (run_calls_ok _ sample_env); [apply sample_lawful | by repeat constructor | done|].
  apply (sample_fact (all_possible [CallReset 0; CallReserve sample_env false (sample_request 13 4 kBlock)]) w E). vm_compute. reflexivity.
Qed.
Definition full_holds (f : World -> bool) : bool := match sample_full with Some w => f w | None => false end.
Lemma full_fact f w : sample_full = Some w -> full_holds f = true -> f w = true.
Proof. unfold full_holds. by intros ->. Qed.

Lemma sample_answers h : (forall p, is_Some (h !! p) -> (p <= 4)%positive) -> sample_addresses h <> None.
Proof.
  intros H E. assert (5%positive ∈ filter (fun p => h !! p = None) [1; 2; 3; 4; 5]%positive) as Hin.
  { apply list_elem_of_filter. split; [|by repeat constructor]. destruct (h !! 5%positive) eqn:E5; [|done]. by destruct (H 5%positive); rewrite ?E5. }
  unfold sample_addresses in E. destruct (filter _ _); [by apply elem_of_nil in Hin | done].
Qed.

Definition sample_decision (w : World) : bool :=
  negb (closed (pool w)) && negb (recording_failed (pool w))
  && bool_decide (Forall (fun p => (p <= 4)%positive) (fst <$> map_to_list (heap (blocks (pool w)))))
  && match check_request (pool_options (pool w)) (sample_request 14 100 kDropOldest) with Ok c => c =? 4096 | Err _ => false end
  && match front (Z.to_nat (queued_records (ring (pool w)))) (pool w) with
     | Some queue =>
         bool_decide ((lease_user_tag <$> queue) = [12])
         && bool_decide (evictions (pool_options (pool w)) kDropOldest (reservations w) queue (handles w) 7 4096 = Some 1%nat)
         && topic_slot (pool_options (pool w)) (reservations w ++ drop 1 queue ++ handles w) 7
     | None => false
     end.
Lemma reserve_decides_witness : exists w p s' queue, sample_full = Some w /\ (lease_user_tag <$> queue) = [12] /\
  Reserve sample_env false (sample_request 14 100 kDropOldest) (pool w) =
    Some (accepted_reply (sample_request 14 100 kDropOldest) 4096 p (drop_report <$> queue), s').
Proof.
  destruct sample_full_run as (w & E & Hr). pose proof (full_fact sample_decision w E ltac:(vm_compute; reflexivity)) as H.
  unfold sample_decision in H. apply andb_true_iff in H as [H Hf]. apply andb_true_iff in H as [H Hck].
  apply andb_true_iff in H as [H Hheap]. apply andb_true_iff in H as [Hcl Hfa]. apply negb_true_iff in Hcl, Hfa.
  apply bool_decide_eq_true in Hheap.
  assert (check_request (pool_options (pool w)) (sample_request 14 100 kDropOldest) = Ok 4096) as Ec.
  { destruct (check_request _ _); [|discriminate Hck]. apply Z.eqb_eq in Hck. by rewrite Hck. }
  destruct (front (Z.to_nat (queued_records (ring (pool w)))) (pool w)) as [queue|] eqn:Ef; [|discriminate Hf].
  apply andb_true_iff in Hf as [Hf Hslot]. apply andb_true_iff in Hf as [Htag Hev]. apply bool_decide_eq_true in Htag, Hev.
  destruct (reserve_decides sample_requested w sample_env false (sample_request 14 100 kDropOldest) 4096 queue sample_requested_typed Hr
    ltac:(cbn; ulia) sample_lawful Ec Hcl Hfa Ef) as (out & s' & Er & Hcase).
  cbn [full_policy sample_request request_topic_id] in Hcase. rewrite Hev in Hcase. destruct Hcase as (_ & _ & _ & Hacc).
  assert (take 1 queue = queue) as Et by (destruct queue as [|x [|]]; [discriminate Htag | reflexivity | discriminate Htag]). rewrite Et in Hacc.
  destruct (Hacc Hslot eq_refl) as (p & ->); [|exists w, p, s', queue; split; [exact E|]; split; [exact Htag | exact Er]].
  intros h Hsh. apply sample_answers. intros p Hp.
  assert (is_Some (cores (heap (blocks (pool w))) !! p)) as [k Hk] by (apply Hsh; rewrite cores_lookup; by apply fmap_is_Some).
  rewrite cores_lookup in Hk. apply fmap_Some in Hk as (b & Eb & _).
  rewrite List.Forall_forall in Hheap. apply (Hheap p). apply list_elem_of_In, list_elem_of_fmap. exists (p, b). split; [reflexivity|]. apply elem_of_map_to_list. exact Eb.
Defined.

Definition sample_feed (w : World) : bool :=
  bool_decide ((snd <$> drop (length (removed w)) (committed w)) = [[Byte.x06]])
  && match front (Z.to_nat (queued_records (ring (pool w)))) (pool w) with Some queue => length queue <? 5 | None => false end%nat.
Lemma pool_feeds_writer_witness : exists w s' x, sample_world = Some w /\
  feed 5 (pool w) = Some ([answer_of x; end_of_feed (pool w)], s') /\ x.2 = [Byte.x06] /\ queued_records (ring s') = 0.
Proof.
  destruct sample_pool_run as (w & E & Hr). pose proof (sample_fact sample_feed w E ltac:(vm_compute; reflexivity)) as H. unfold sample_feed in H.
  apply andb_true_iff in H as [Htags H]. apply bool_decide_eq_true in Htags.
  destruct (front (Z.to_nat (queued_records (ring (pool w)))) (pool w)) as [queue|] eqn:Ef; [|discriminate H]. apply Nat.ltb_lt in H.
  destruct (pool_feeds_writer sample_requested w 5 queue sample_requested_typed Hr Ef H) as (s' & Hfeed & _ & _ & Hq & _).
  destruct (drop (length (removed w)) (committed w)) as [|x [|]]; [discriminate Htags | | discriminate Htags]. exists w, s', x.
  split; [exact E|]. split; [exact Hfeed|]. split; [|exact Hq]. injection Htags as Hx. exact Hx.
Defined.
