(* ===== verification/RetentionPlanner.v ===== *)
(** * What retention decides to delete

    Models [RetentionPlanner] of [mino/storage/retention.h] and [.cc] with the helpers it uses: the
    check of its input, the order of the candidates, the selection by age and archive state and the
    selection of the oldest segments until the limits hold.  The theorems say which segments a plan
    contains, why, and when there is a plan. *)
From stdpp Require Import sorting.
From S2P Require Import Prelude ManifestFormat.

(** ** Data *)

Record RetentionPolicy : Set := mkPolicy {
  max_age_ns : option Z; max_total_bytes : option Z; max_segment_count : option Z; delete_archived_segments : bool
}.
Record RetentionSegment : Set := mkRetentionSegment {
  segment_manifest : SegmentManifestEntry; latest_ingestion_timestamp_ns : Z; archive_complete : bool
}.
#[export] Instance RetentionSegment_eq_dec : EqDecision RetentionSegment.
Proof. solve_decision. Defined.

(** The flags of [RetentionReason] in their byte; [|] is [Z.lor]. *)
Definition kReasonNone : Z := 0.
Definition kReasonAge : Z := 1.
Definition kReasonTotalBytes : Z := 2.
Definition kReasonSegmentCount : Z := 4.
Definition kReasonArchiveComplete : Z := 8.
Definition HasRetentionReason (reasons reason : Z) : bool := negb (Z.land reasons reason =? 0).

Record RetentionDecision : Set := mkDecision { decision_segment_id : Z; decision_reasons : Z }.
Record RetentionPlan : Set := mkPlan {
  deletions : list RetentionDecision; remaining_total_bytes : Z; remaining_segment_count : Z;
  byte_limit_satisfied : bool; segment_limit_satisfied : bool
}.
Record Candidate : Set := mkCandidate { candidate_segment : RetentionSegment; reasons : Z; selected : bool }.

Abbreviation seg_id s := (entry_segment_id (segment_manifest s)).
Abbreviation seg_state s := (entry_state (segment_manifest s)).
Abbreviation seg_size s := (entry_size_bytes (segment_manifest s)).

(** ** Operations *)

Definition IsKnownState (s : SegmentPersistentState) : bool :=
  match s with
  | kSegmentCreating | kSegmentOpen | kSegmentSealed | kSegmentIndexed | kSegmentRetained | kSegmentDeleted => true
  | OtherSegmentState _ => false
  end.
Definition IsRetentionEligible (s : SegmentPersistentState) : bool :=
  bool_decide (s = kSegmentSealed) || bool_decide (s = kSegmentIndexed) || bool_decide (s = kSegmentRetained).
Definition IsPinable (s : SegmentPersistentState) : bool :=
  bool_decide (s = kSegmentOpen) || IsRetentionEligible s.

(** The loop over the input: the identifiers seen, the candidates, bytes and number of live segments. *)
Fixpoint collect (segs : list RetentionSegment) (ids : gset Z) (candidates : list Candidate) (bytes count : Z)
  : Result (list Candidate * Z * Z) :=
  match segs with
  | [] => Ok (candidates, bytes, count)
  | s :: rest =>
      fail_if (seg_id s =? 0) || negb (IsKnownState (seg_state s)) with
        Invalid "retention input contains invalid segment metadata" ;;
      fail_if bool_decide (seg_id s ∈ ids) with Invalid "retention input contains duplicate segment IDs" ;;
      let live := negb (bool_decide (seg_state s = kSegmentDeleted)) in
      fail_if live && (u64_max - bytes <? seg_size s) with Resource "retention byte total overflows uint64_t" ;;
      let bytes := if live then wrap64 (bytes + seg_size s) else bytes in
      let count := if live then wrap64 (count + 1) else count in
      let candidates := if IsRetentionEligible (seg_state s)
                        then candidates ++ [mkCandidate s kReasonNone false] else candidates in
      collect rest ({[seg_id s]} ∪ ids) candidates bytes count
  end.

(** The comparison of [std::sort], and the order it stands for. *)
Definition sorts_before (l r : RetentionSegment) : bool :=
  if negb (latest_ingestion_timestamp_ns l =? latest_ingestion_timestamp_ns r)
  then latest_ingestion_timestamp_ns l <? latest_ingestion_timestamp_ns r
  else seg_id l <? seg_id r.
Definition not_after (l r : Candidate) : Prop := sorts_before (candidate_segment r) (candidate_segment l) = false.
#[export] Instance not_after_dec l r : Decision (not_after l r).
Proof. unfold not_after. apply _. Defined.

Definition aged (policy : RetentionPolicy) (now : Z) (s : RetentionSegment) : bool :=
  match max_age_ns policy with
  | Some age => (latest_ingestion_timestamp_ns s <=? now) && (age <=? now - latest_ingestion_timestamp_ns s)
  | None => false
  end.

(** The loop that selects what is old enough or archived. *)
Fixpoint select_due (policy : RetentionPolicy) (now : Z) (cs : list Candidate) (bytes count : Z)
  : list Candidate * Z * Z :=
  match cs with
  | [] => ([], bytes, count)
  | c :: rest =>
      let s := candidate_segment c in
      let r := if aged policy now s then Z.lor (reasons c) kReasonAge else reasons c in
      let r := if delete_archived_segments policy && archive_complete s then Z.lor r kReasonArchiveComplete else r in
      let chosen := negb (r =? kReasonNone) in
      let bytes := if chosen then wrap64 (bytes - seg_size s) else bytes in
      let count := if chosen then wrap64 (count - 1) else count in
      let '(rest, bytes, count) := select_due policy now rest bytes count in
      (mkCandidate s r chosen :: rest, bytes, count)
  end.

Definition exceeds (total : Z) (limit : option Z) : bool :=
  match limit with Some l => l <? total | None => false end.

(** The loop that selects the oldest until the limits hold. *)
Fixpoint select_excess (policy : RetentionPolicy) (cs : list Candidate) (bytes count : Z) : list Candidate * Z * Z :=
  match cs with
  | [] => ([], bytes, count)
  | c :: rest =>
      let bytes_excess := exceeds bytes (max_total_bytes policy) in
      let count_excess := exceeds count (max_segment_count policy) in
      if negb bytes_excess && negb count_excess then (c :: rest, bytes, count)
      else if selected c then
        let '(rest, bytes, count) := select_excess policy rest bytes count in (c :: rest, bytes, count)
      else
        let r := if bytes_excess then Z.lor (reasons c) kReasonTotalBytes else reasons c in
        let r := if count_excess then Z.lor r kReasonSegmentCount else r in
        let s := candidate_segment c in
        let '(rest, bytes, count) := select_excess policy rest (wrap64 (bytes - seg_size s)) (wrap64 (count - 1)) in
        (mkCandidate s r true :: rest, bytes, count)
  end.

Definition decision_of (c : Candidate) : option RetentionDecision :=
  if selected c then Some (mkDecision (seg_id (candidate_segment c)) (reasons c)) else None.

Definition Plan (segs : list RetentionSegment) (policy : RetentionPolicy) (now : Z) : Result RetentionPlan :=
  let! collected := collect segs ∅ [] 0 0 in
  let '(candidates, total_bytes, total_count) := collected in
  let candidates := merge_sort not_after candidates in
  let '(candidates, total_bytes, total_count) := select_due policy now candidates total_bytes total_count in
  let '(candidates, total_bytes, total_count) := select_excess policy candidates total_bytes total_count in
  Ok (mkPlan (omap decision_of candidates) total_bytes total_count
        (negb (exceeds total_bytes (max_total_bytes policy))) (negb (exceeds total_count (max_segment_count policy)))).

(** ** The reference *)

Definition is_live (s : RetentionSegment) : Prop := seg_state s <> kSegmentDeleted.
Definition eligible (s : RetentionSegment) : Prop := IsRetentionEligible (seg_state s) = true.
#[export] Instance is_live_dec s : Decision (is_live s).
Proof. unfold is_live. apply _. Defined.
#[export] Instance eligible_dec s : Decision (eligible s).
Proof. unfold eligible. apply _. Defined.

Definition bytes_of (l : list RetentionSegment) : Z := foldr (fun s total => seg_size s + total) 0 l.

(** Older by the latest ingestion timestamp, then by the identifier. *)
Definition older (a b : RetentionSegment) : Prop :=
  latest_ingestion_timestamp_ns a < latest_ingestion_timestamp_ns b \/
  latest_ingestion_timestamp_ns a = latest_ingestion_timestamp_ns b /\ seg_id a < seg_id b.

Section Reference.
Context (policy : RetentionPolicy) (now : Z).

Definition archived (s : RetentionSegment) : bool := delete_archived_segments policy && archive_complete s.
(** To be deleted whatever the limits say. *)
Definition due (s : RetentionSegment) : bool := aged policy now s || archived s.
Definition due_reasons (s : RetentionSegment) : Z :=
  Z.lor (if aged policy now s then kReasonAge else 0) (if archived s then kReasonArchiveComplete else 0).

Definition over_limits (bytes count : Z) : bool :=
  exceeds bytes (max_total_bytes policy) || exceeds count (max_segment_count policy).
Definition limit_reasons (bytes count : Z) : Z :=
  Z.lor (if exceeds bytes (max_total_bytes policy) then kReasonTotalBytes else 0)
        (if exceeds count (max_segment_count policy) then kReasonSegmentCount else 0).

(** The bytes and the number of segments that are left without the [k] oldest of [rest]. *)
Definition bytes_without (bytes : Z) (rest : list RetentionSegment) (k : nat) : Z := bytes - bytes_of (take k rest).
Definition over_without (bytes count : Z) (rest : list RetentionSegment) (k : nat) : bool :=
  over_limits (bytes_without bytes rest k) (count - Z.of_nat k).

(** [k] is the least number of the oldest segments of [rest] whose removal meets the limits, or all of them. *)
Record least_excess (bytes count : Z) (rest : list RetentionSegment) (k : nat) : Prop := {
  le_bound : (k <= length rest)%nat;
  le_needed : forall j, (j < k)%nat -> over_without bytes count rest j = true;
  le_enough : (k < length rest)%nat -> over_without bytes count rest k = false
}.

(** The decision for a selected segment. *)
Definition explains (bytes count : Z) (rest : list RetentionSegment) (k : nat) (s : RetentionSegment)
    (d : RetentionDecision) : Prop :=
  decision_segment_id d = seg_id s /\
  if due s then decision_reasons d = due_reasons s
  else exists j, (j < k)%nat /\ rest !! j = Some s /\
         decision_reasons d = limit_reasons (bytes_without bytes rest j) (count - Z.of_nat j).
End Reference.

Record input_typed (s : RetentionSegment) : Prop := {
  in_size : is_u64 (seg_size s); in_time : is_u64 (latest_ingestion_timestamp_ns s)
}.

(** What the planner demands of its input. *)
Record acceptable (segs : list RetentionSegment) : Prop := {
  ac_metadata : Forall (fun s => seg_id s <> 0 /\ IsKnownState (seg_state s) = true) segs;
  ac_distinct : NoDup (map (fun s => seg_id s) segs);
  ac_bytes : bytes_of (filter is_live segs) <= u64_max
}.

#[export] Instance acceptable_dec segs : Decision (acceptable segs).
Proof.
  refine (cast_if (decide (Forall (fun s => seg_id s <> 0 /\ IsKnownState (seg_state s) = true) segs /\
    NoDup (map (fun s => seg_id s) segs) /\ bytes_of (filter is_live segs) <= u64_max))).
  - by destruct_and!; split.
  - intros []. match goal with H : ~ _ |- _ => by apply H end.
Defined.

(** ** The passes compute the reference *)

Lemma bytes_of_app l l' : bytes_of (l ++ l') = bytes_of l + bytes_of l'.
Proof. induction l as [|s l IH]; cbn [app bytes_of foldr]; [done|]. fold (bytes_of (l ++ l')) (bytes_of l). lia. Qed.
Lemma bytes_of_cons s l : bytes_of (s :: l) = seg_size s + bytes_of l.
Proof. done. Qed.
Lemma bytes_of_nonneg l : Forall input_typed l -> 0 <= bytes_of l.
Proof. induction 1 as [|s l [Hs _] _ IH]; [done|]. rewrite bytes_of_cons. ulia. Qed.
#[export] Instance bytes_of_proper : Proper ((≡ₚ) ==> (=)) bytes_of.
Proof. intros l l'. induction 1; rewrite ?bytes_of_cons; lia. Qed.

Lemma bytes_of_filter (P : RetentionSegment -> Prop) `{!forall s, Decision (P s)} l : Forall input_typed l ->
  bytes_of (filter P l) + bytes_of (filter (fun s => ~ P s) l) = bytes_of l.
Proof.
  induction 1 as [|s l _ _ IH]; [done|]. rewrite !filter_cons, bytes_of_cons.
  repeat case_decide; try tauto; rewrite bytes_of_cons; lia.
Qed.

Lemma Forall_kept {A} (Q P : A -> Prop) `{!forall s, Decision (P s)} l : Forall Q l -> Forall Q (filter P l).
Proof. rewrite !Forall_elem. intros HQ x Hx. apply list_elem_of_filter in Hx as [_ ?]. by apply HQ. Qed.

Lemma filter_agree {A} (P Q : A -> Prop) `{!forall s, Decision (P s), !forall s, Decision (Q s)} (l : list A) :
  (forall x, x ∈ l -> P x <-> Q x) -> filter P l = filter Q l.
Proof.
  induction l as [|x l IH]; intros Hx; [done|]. rewrite !filter_cons, IH by (intros; apply Hx; by right).
  specialize (Hx x ltac:(left)). repeat case_decide; tauto || done.
Qed.

Lemma eligible_live s : eligible s -> is_live s.
Proof. unfold eligible, is_live, IsRetentionEligible. intros H E. by rewrite E in H. Qed.

Definition fresh_candidate (s : RetentionSegment) : Candidate := mkCandidate s kReasonNone false.

Lemma collect_accepts segs ids cs bytes count :
  Forall input_typed segs -> acceptable segs -> (forall s, s ∈ segs -> seg_id s ∉ ids) ->
  0 <= bytes -> bytes + bytes_of (filter is_live segs) <= u64_max -> 0 <= count -> count + zlen segs <= u64_max ->
  collect segs ids cs bytes count =
  Ok (cs ++ map fresh_candidate (filter eligible segs), bytes + bytes_of (filter is_live segs),
      count + zlen (filter is_live segs)).
Proof.
  intros Ht. revert ids cs bytes count. induction Ht as [|s segs [Hs _] Ht IH]; intros ids cs bytes count [A1 A2 A3] Hid Hb Hsum Hc Hn.
  { cbn. by rewrite app_nil_r, !Z.add_0_r. }
  cbn [collect]. inv A1. inv A2. destruct H1 as [Hz Hk].
  rewrite (fail_if_false ((seg_id s =? 0) || _)) by (apply orb_false_iff; split; [by apply Z.eqb_neq|by rewrite Hk]).
  rewrite bool_decide_eq_false_2 by (apply Hid; left). cbv zeta.
  pose proof (bytes_of_nonneg (filter is_live segs) ltac:(by apply Forall_kept)).
  assert (forall b n c, collect segs ({[seg_id s]} ∪ ids) c b n = Ok
    (c ++ map fresh_candidate (filter eligible segs), b + bytes_of (filter is_live segs), n + zlen (filter is_live segs))
    \/ ~ (0 <= b /\ b + bytes_of (filter is_live segs) <= u64_max /\ 0 <= n /\ n + zlen segs <= u64_max)) as Hrec.
  { intros b n c. destruct (decide (0 <= b /\ b + bytes_of (filter is_live segs) <= u64_max /\ 0 <= n /\ n + zlen segs <= u64_max))
      as [(?&?&?&?)|]; [left|by right]. apply IH; try done.
    - split; try done. ulia.
    - intros x Hx. apply not_elem_of_union. split; [|by apply Hid; right]. rewrite elem_of_singleton. intros E.
      match goal with H : _ ∉ map _ _ |- _ => apply H end. rewrite <- E. by apply (list_elem_of_fmap_2 (fun s => seg_id s)). }
  unfold zlen in *. cbn [length] in Hn. destruct (decide (is_live s)) as [Hl|Hl].
  - rewrite filter_cons_True, bytes_of_cons in Hsum by done. rewrite (filter_cons_True is_live), bytes_of_cons by done. cbn [length].
    rewrite (bool_decide_eq_false_2 (seg_state s = _)) by done. cbn [negb andb].
    rewrite (fail_if_false (_ <? _)) by (apply Z.ltb_ge; lia). rewrite (wrap64_id (bytes + _)) by ulia. rewrite wrap64_id by ulia.
    destruct (Hrec (bytes + seg_size s) (count + 1)
      (if IsRetentionEligible (seg_state s) then cs ++ [mkCandidate s kReasonNone false] else cs)) as [->|Hno];
      [|destruct Hno; ulia].
    rewrite filter_cons. unfold zlen. case_decide as He; unfold eligible in He.
    + rewrite He, <- app_assoc. cbn [map app]. do 2 f_equal; [f_equal|]; lia.
    + apply not_true_is_false in He as ->. do 2 f_equal; [f_equal|]; lia.
  - rewrite filter_cons_False in Hsum by done. rewrite (filter_cons_False is_live) by done.
    assert (~ eligible s) as He by (intros ?%eligible_live; done). rewrite (filter_cons_False eligible) by done.
    unfold is_live in Hl. rewrite (bool_decide_eq_true_2 (seg_state s = kSegmentDeleted)) by (by apply dec_stable). unfold eligible in He.
    destruct (IsRetentionEligible (seg_state s)); [done|]. cbn [negb andb].
    destruct (Hrec bytes count cs) as [->|Hno]; [done|]. destruct Hno. lia.
Qed.

Lemma collect_refuses segs ids cs bytes count :
  Forall input_typed segs -> 0 <= bytes <= u64_max ->
  ~ (Forall (fun s => seg_id s <> 0 /\ IsKnownState (seg_state s) = true) segs /\
     NoDup (map (fun s => seg_id s) segs) /\ (forall s, s ∈ segs -> seg_id s ∉ ids) /\
     bytes + bytes_of (filter is_live segs) <= u64_max) ->
  exists e, collect segs ids cs bytes count = Err e.
Proof.
  intros Ht. revert ids cs bytes count. induction Ht as [|s segs [Hs _] Ht IH]; intros ids cs bytes count Hb Hno.
  { destruct Hno. split_and!; [constructor|constructor| |cbn; lia]. intros s Hin. by apply not_elem_of_nil in Hin. }
  cbn [collect]. destruct ((seg_id s =? 0) || _) eqn:E1; [by eexists|]. case_bool_decide as E2; [by eexists|]. cbv zeta.
  destruct (negb _ && _) eqn:E3; [by eexists|]. apply IH.
  - destruct (bool_decide (seg_state s = kSegmentDeleted)); cbn [negb andb] in *; [exact Hb|]. bool_to_prop.
    rewrite wrap64_id; ulia.
  - intros (A1 & A2 & A3 & A4). destruct Hno. bool_to_prop. split_and!.
    + by constructor.
    + constructor; [|done]. intros (x & Hx & Hin)%list_elem_of_fmap_1. apply (A3 x Hin). rewrite <- Hx. set_solver.
    + intros x [->|Hx]%elem_of_cons; [done|]. specialize (A3 x Hx). set_solver.
    + destruct (decide (is_live s)) as [Hl|Hl].
      * rewrite filter_cons_True, bytes_of_cons by done. rewrite bool_decide_eq_false_2 in A4, E3 by done.
        cbn [negb] in *. destruct E3 as [?|E3]; [done|]. bool_to_prop. rewrite wrap64_id in A4 by ulia. lia.
      * rewrite filter_cons_False by done. rewrite bool_decide_eq_true_2 in A4 by (by apply dec_stable). done.
Qed.

(** *** The order *)

Lemma not_after_spec a b : not_after a b <-> ~ older (candidate_segment b) (candidate_segment a).
Proof.
  unfold not_after, older, sorts_before. destruct (Z.eqb_spec (latest_ingestion_timestamp_ns (candidate_segment b))
    (latest_ingestion_timestamp_ns (candidate_segment a))); cbn [negb]; rewrite Z.ltb_ge; lia.
Qed.
#[export] Instance not_after_total : Total not_after.
Proof. intros a b. rewrite !not_after_spec. unfold older. lia. Qed.
#[export] Instance not_after_transitive : Transitive not_after.
Proof. intros a b c. rewrite !not_after_spec. unfold older. lia. Qed.

Lemma not_after_older a b : seg_id (candidate_segment a) <> seg_id (candidate_segment b) -> not_after a b ->
  older (candidate_segment a) (candidate_segment b).
Proof. rewrite not_after_spec. unfold older. lia. Qed.

Lemma sorted_older cs : NoDup (map (fun c => seg_id (candidate_segment c)) cs) -> StronglySorted not_after cs ->
  StronglySorted older (map candidate_segment cs).
Proof.
  intros Hnd Hs. induction Hs as [|c cs Hs IH Hc]; [constructor|]. cbn [map] in *. inv Hnd. constructor; [by apply IH|].
  apply List.Forall_map, Forall_elem. intros x Hx. apply not_after_older; [|by eapply Forall_elem].
  intros E. match goal with H : _ ∉ _ |- _ => apply H end. rewrite E.
  by apply (list_elem_of_fmap_2 (fun c => seg_id (candidate_segment c))).
Qed.

(** The candidates in their order: the eligible segments, oldest first. *)
Lemma sorted_candidates segs : NoDup (map (fun s => seg_id s) segs) -> exists cs,
  merge_sort not_after (map fresh_candidate (filter eligible segs)) = map fresh_candidate cs /\
  cs ≡ₚ filter eligible segs /\ StronglySorted older cs.
Proof.
  intros Hnd. set (l := map fresh_candidate (filter eligible segs)).
  pose proof (merge_sort_Permutation not_after l) as Hp. pose proof (StronglySorted_merge_sort not_after l) as Hs.
  exists (map candidate_segment (merge_sort not_after l)). split_and!.
  - rewrite List.map_map. symmetry. rewrite <- (List.map_id (merge_sort not_after l)) at 2. apply List.map_ext_in.
    intros c Hc%list_elem_of_In. rewrite Hp in Hc. apply list_elem_of_fmap_1 in Hc as (s & -> & _). done.
  - rewrite Hp. unfold l. rewrite List.map_map. cbn [fresh_candidate candidate_segment]. by rewrite List.map_id.
  - apply sorted_older; [|done]. rewrite Hp. unfold l. rewrite List.map_map. cbn [fresh_candidate candidate_segment].
    eapply sublist_NoDup; [exact Hnd|]. apply (fmap_sublist (fun s => seg_id s)), sublist_filter.
Qed.

(** *** The two selections *)

Section Passes.
Context (policy : RetentionPolicy) (now : Z).

(** The candidate after the first selection. *)
Definition marked (s : RetentionSegment) : Candidate := mkCandidate s (due_reasons policy now s) (due policy now s).
Abbreviation is_due := (fun s => due policy now s = true).
Abbreviation not_due := (fun s => ~ due policy now s = true).

(** Compute with the flags. *)
Ltac eval_flags :=
  unfold kReasonNone, kReasonAge, kReasonTotalBytes, kReasonSegmentCount, kReasonArchiveComplete;
  repeat match goal with
  | |- context [Z.lor ?a ?b] => let v := eval vm_compute in (Z.lor a b) in change (Z.lor a b) with v
  | |- context [Z.eqb ?a 0] => let v := eval vm_compute in (Z.eqb a 0) in change (Z.eqb a 0) with v
  end.

Lemma select_due_marks es bytes count : Forall input_typed es ->
  bytes_of es <= bytes <= u64_max -> zlen es <= count <= u64_max ->
  select_due policy now (map fresh_candidate es) bytes count =
  (map marked es, bytes - bytes_of (filter is_due es), count - zlen (filter is_due es)).
Proof.
  intros Ht. revert bytes count. induction Ht as [|s es [Hs _] Ht IH]; intros bytes count Hb Hc.
  { cbn. unfold zlen. cbn. by rewrite !Z.sub_0_r. }
  pose proof (bytes_of_nonneg es Ht). rewrite bytes_of_cons in Hb. unfold zlen in *. cbn [length] in Hc.
  cbn [map select_due fresh_candidate candidate_segment reasons]. rewrite filter_cons.
  set (l := filter is_due es). unfold marked at 1, due, due_reasons, archived.
  destruct (aged policy now s) eqn:Ea, (delete_archived_segments policy && archive_complete s) eqn:Er;
    eval_flags; cbn [orb negb]; rewrite ?(wrap64_id (bytes - _)), ?(wrap64_id (count - _)) by ulia; rewrite IH by ulia; fold l;
    first [done | f_equal; [f_equal|]; cbn [decide]; rewrite decide_True by done; rewrite ?bytes_of_cons; cbn [length]; lia].
Qed.

Lemma over_without_S bytes count s rest k :
  over_without policy bytes count (s :: rest) (S k) = over_without policy (bytes - seg_size s) (count - 1) rest k.
Proof. unfold over_without, bytes_without. cbn [take]. rewrite bytes_of_cons. f_equal; lia. Qed.

Lemma explains_S bytes count s rest k x d : explains policy now (bytes - seg_size s) (count - 1) rest k x d ->
  explains policy now bytes count (s :: rest) (S k) x d.
Proof.
  intros [H1 H2]. split; [done|]. destruct (due policy now x); [done|]. destruct H2 as (j & Hj & Hr & Hd).
  exists (S j). split_and!; [lia|done|]. rewrite Hd. unfold bytes_without. cbn [take]. rewrite bytes_of_cons. f_equal; lia.
Qed.

Abbreviation chosen k rest := (fun s => due policy now s = true \/ s ∈ take k rest).

(** Without an excess only what is due is deleted. *)
Lemma decisions_due bytes count rest l :
  Forall2 (explains policy now bytes count rest 0) (filter (chosen 0%nat rest) l) (omap decision_of (map marked l)).
Proof.
  induction l as [|s l IH]; [constructor|]. rewrite filter_cons. cbn [map omap list_omap]. unfold decision_of at 1.
  cbn [marked selected candidate_segment reasons]. destruct (due policy now s) eqn:Ed.
  - rewrite decide_True by (by left). constructor; [|done]. split; [done|]. by rewrite Ed.
  - rewrite decide_False; [done|]. intros [?|[]%not_elem_of_nil]; congruence.
Qed.

Lemma select_excess_least es bytes count : Forall input_typed es -> NoDup es ->
  let rest := filter not_due es in
  bytes_of rest <= bytes <= u64_max -> zlen rest <= count <= u64_max ->
  exists out k, select_excess policy (map marked es) bytes count =
    (out, bytes_without bytes rest k, count - Z.of_nat k) /\ least_excess policy bytes count rest k /\
  Forall2 (explains policy now bytes count rest k) (filter (chosen k rest) es) (omap decision_of out).
Proof.
  intros Ht Hnd. revert bytes count. induction Ht as [|s es [Hs _] Ht IH]; cbv zeta; intros bytes count Hb Hc.
  { exists [], 0%nat. cbn. unfold bytes_without. cbn. rewrite !Z.sub_0_r. split_and!; [done| |constructor]. split; cbn; lia. }
  inv Hnd. specialize (IH H2). cbv zeta in IH. cbn [map select_excess marked selected candidate_segment reasons].
  destruct (negb _ && negb _) eqn:Eover.
  { exists (marked s :: map marked es), 0%nat. unfold bytes_without at 1. cbn [take bytes_of foldr]. rewrite !Z.sub_0_r.
    split_and!; [done| |exact (decisions_due bytes count _ (s :: es))].
    split; [lia|lia|]. intros _. unfold over_without, over_limits, bytes_without. cbn. rewrite !Z.sub_0_r.
    bool_to_prop. by apply orb_false_iff. }
  apply andb_false_iff in Eover. destruct (due policy now s) eqn:Ed.
  - rewrite (filter_cons_False not_due) in * by tauto. destruct (IH bytes count Hb Hc) as (out & k & -> & Hk & Hf).
    exists (marked s :: out), k. split_and!; [done|done|]. rewrite filter_cons_True by (by left).
    cbn [omap list_omap]. unfold decision_of at 1. cbn [marked selected]. rewrite Ed. constructor; [|done].
    split; [done|]. by rewrite Ed.
  - rewrite (filter_cons_True not_due) in * by (by rewrite Ed). rewrite bytes_of_cons in Hb. unfold zlen in *. cbn [length] in Hc.
    pose proof (bytes_of_nonneg (filter not_due es) (Forall_kept _ _ _ Ht)). set (rest := filter not_due es) in *.
    rewrite (wrap64_id (bytes - _)), (wrap64_id (count - 1)) by ulia.
    destruct (IH (bytes - seg_size s) (count - 1) ltac:(ulia) ltac:(ulia)) as (out & k & -> & [K1 K2 K3] & Hf).
    eexists (_ :: out), (S k). split_and!.
    + f_equal; [f_equal|]; unfold bytes_without; cbn [take]; rewrite ?bytes_of_cons; lia.
    + split.
      * cbn [length]. lia.
      * intros [|j] Hj; [|rewrite over_without_S; apply K2; lia]. unfold over_without, over_limits, bytes_without. cbn.
        rewrite !Z.sub_0_r. apply orb_true_iff. destruct Eover; bool_to_prop; auto.
      * intros Hj. rewrite over_without_S. apply K3. cbn [length] in Hj. lia.
    + rewrite filter_cons_True by (right; cbn [take]; left). cbn [omap list_omap]. unfold decision_of at 1. cbn [selected].
      constructor.
      * split; [done|]. rewrite Ed. exists 0%nat. split_and!; [lia|done|]. unfold bytes_without. cbn. rewrite !Z.sub_0_r.
        unfold limit_reasons, due_reasons. destruct (exceeds bytes _), (exceeds count _), (aged _ _ _) eqn:Ea, (archived _ _) eqn:Er;
          unfold due in Ed; rewrite ?Ea, ?Er in Ed; done.
      * rewrite (filter_agree _ (chosen k rest)).
        -- eapply Forall2_impl; [|exact Hf]. intros x d. apply explains_S.
        -- intros x Hx. cbn [take]. rewrite elem_of_cons. split; [|tauto]. intros [?|[->|?]]; [tauto|done|tauto].
Qed.
End Passes.

(** ** What a plan contains *)

Lemma eligible_share segs : Forall input_typed segs ->
  bytes_of (filter eligible segs) <= bytes_of (filter is_live segs) /\ zlen (filter eligible segs) <= zlen (filter is_live segs).
Proof.
  unfold zlen. induction 1 as [|s l [Hs _] _ IH]; [done|]. rewrite !filter_cons.
  destruct (decide (eligible s)) as [He|He], (decide (is_live s)) as [Hl|Hl]; rewrite ?bytes_of_cons; cbn [length]; try ulia.
  by destruct Hl; apply eligible_live.
Qed.

Lemma filter_split {A} (P : A -> Prop) `{!forall s, Decision (P s)} (l : list A) :
  (length (filter P l) + length (filter (fun s => ~ P s) l) = length l)%nat.
Proof. induction l as [|x l IH]; [done|]. rewrite !filter_cons. repeat case_decide; cbn [length]; tauto || lia. Qed.

Section Totals.
Context (segs cs : list RetentionSegment) (policy : RetentionPolicy) (now : Z) (k : nat).
Abbreviation is_due := (fun s => due policy now s = true).
Definition not_due_of : list RetentionSegment := filter (fun s => ~ due policy now s = true) cs.
Definition gone_of : list RetentionSegment := filter (fun s => due policy now s = true \/ s ∈ take k not_due_of) cs.
Definition stays_of : list RetentionSegment := filter (fun s => is_live s /\ s ∉ gone_of) segs.
Context (Hnd : NoDup segs) (Hcs : cs ≡ₚ filter eligible segs).

Lemma cs_NoDup : NoDup cs.
Proof using Hnd Hcs. rewrite Hcs. by apply list.NoDup_filter. Qed.

Lemma gone_parts : gone_of ≡ₚ filter is_due cs ++ take k not_due_of.
Proof using Hnd Hcs.
  pose proof cs_NoDup as Hc. assert (forall x, x ∈ take k not_due_of -> x ∈ cs /\ ~ due policy now x = true) as Hin.
  { intros x Hx. eapply subseteq_take in Hx. by apply list_elem_of_filter in Hx as [??]. }
  apply list.NoDup_Permutation.
  - by apply list.NoDup_filter.
  - apply list.NoDup_app. split_and!; [by apply list.NoDup_filter| |].
    + intros x [Hd _]%list_elem_of_filter Hx. by apply Hin in Hx as [_ ?].
    + eapply sublist_NoDup; [|apply sublist_take]. by apply list.NoDup_filter.
  - intros x. unfold gone_of. rewrite elem_of_app, !list_elem_of_filter. specialize (Hin x). tauto.
Qed.

Lemma live_parts : filter is_live segs ≡ₚ stays_of ++ gone_of.
Proof using Hnd Hcs.
  pose proof cs_NoDup as Hc. assert (forall x, x ∈ gone_of -> x ∈ segs /\ is_live x) as Hin.
  { intros x [_ Hx]%list_elem_of_filter. rewrite Hcs in Hx. apply list_elem_of_filter in Hx as [??]. split; [done|by apply eligible_live]. }
  apply list.NoDup_Permutation.
  - by apply list.NoDup_filter.
  - apply list.NoDup_app. split_and!; [by apply list.NoDup_filter| |by apply list.NoDup_filter].
    by intros x [[_ ?] _]%list_elem_of_filter.
  - intros x. unfold stays_of. rewrite elem_of_app, !list_elem_of_filter. specialize (Hin x).
    destruct (decide (x ∈ gone_of)); tauto.
Qed.

Lemma stays_bytes : (k <= length not_due_of)%nat ->
  bytes_of stays_of = bytes_without (bytes_of (filter is_live segs) - bytes_of (filter is_due cs)) not_due_of k /\
  zlen stays_of = zlen (filter is_live segs) - zlen (filter is_due cs) - Z.of_nat k.
Proof using Hnd Hcs.
  intros Hk. unfold bytes_without, zlen. rewrite live_parts, bytes_of_app, length_app, gone_parts, bytes_of_app, length_app.
  rewrite length_take. lia.
Qed.
End Totals.

(** What a plan is, with the candidates in their order and the number of those deleted for the limits. *)
Definition plan_reference (segs : list RetentionSegment) (policy : RetentionPolicy) (now : Z) (plan : RetentionPlan)
    (cs : list RetentionSegment) (k : nat) : Prop :=
  let rest := not_due_of cs policy now in
  let gone := gone_of cs policy now k in
  let stays := stays_of segs cs policy now k in
  let bytes := bytes_of (filter is_live segs) - bytes_of (filter (fun s => due policy now s = true) cs) in
  let count := zlen (filter is_live segs) - zlen (filter (fun s => due policy now s = true) cs) in
  cs ≡ₚ filter eligible segs /\ StronglySorted older cs /\
  least_excess policy bytes count rest k /\
  Forall2 (explains policy now bytes count rest k) gone (deletions plan) /\
  remaining_total_bytes plan = bytes_of stays /\ remaining_segment_count plan = zlen stays /\
  byte_limit_satisfied plan = negb (exceeds (bytes_of stays) (max_total_bytes policy)) /\
  segment_limit_satisfied plan = negb (exceeds (zlen stays) (max_segment_count policy)).

Lemma Plan_reference segs policy now : Forall input_typed segs -> zlen segs <= u64_max -> acceptable segs ->
  exists plan cs k, Plan segs policy now = Ok plan /\ plan_reference segs policy now plan cs k.
Proof.
  intros Ht Hlen Ha. pose proof Ha as [A1 A2 A3]. assert (NoDup segs) as Hnd by (by eapply NoDup_fmap_1).
  unfold Plan. rewrite (collect_accepts segs ∅ [] 0 0) by (done || lia || set_solver). cbn [bindR app]. rewrite !Z.add_0_l.
  destruct (sorted_candidates segs A2) as (cs & -> & Hp & Hs).
  assert (Forall input_typed cs) as Htc by (rewrite Hp; by apply Forall_kept).
  pose proof (bytes_of_filter (fun s => due policy now s = true) cs Htc) as Hparts.
  assert (bytes_of cs <= bytes_of (filter is_live segs) /\ zlen cs <= zlen (filter is_live segs)) as [Hb Hn].
  { pose proof (eligible_share segs Ht) as [Hb Hn]. unfold zlen in *. by rewrite <- Hp in Hb, Hn. }
  assert (zlen (filter is_live segs) <= zlen segs) as Hl by (unfold zlen; pose proof (length_filter is_live segs); lia).
  assert (0 <= bytes_of (filter (fun s => due policy now s = true) cs)) by (by apply bytes_of_nonneg, Forall_kept).
  assert (zlen (not_due_of cs policy now) + zlen (filter (fun s => due policy now s = true) cs) = zlen cs) as Hsplit
    by (unfold zlen, not_due_of; pose proof (filter_split (fun s => due policy now s = true) cs); lia).
  rewrite select_due_marks by (done || lia).
  destruct (select_excess_least policy now cs (bytes_of (filter is_live segs) - bytes_of (filter (fun s => due policy now s = true) cs))
    (zlen (filter is_live segs) - zlen (filter (fun s => due policy now s = true) cs)) Htc (cs_NoDup _ _ Hnd Hp))
    as (out & k & E & Hk & Hf); [cbv zeta; ulia|fold (not_due_of cs policy now); ulia|]. rewrite E.
  eexists _, cs, k. split; [done|]. destruct (stays_bytes segs cs policy now k Hnd Hp (le_bound _ _ _ _ _ Hk)) as [E1 E2].
  unfold plan_reference. cbn [deletions remaining_total_bytes remaining_segment_count byte_limit_satisfied segment_limit_satisfied].
  rewrite E1, E2. by split_and!.
Qed.

Lemma Plan_accepts segs policy now : Forall input_typed segs -> zlen segs <= u64_max ->
  is_ok (Plan segs policy now) = true <-> acceptable segs.
Proof.
  intros Ht Hlen. split; [|by intros (plan & cs & k & -> & _)%(Plan_reference segs policy now Ht Hlen)].
  intros H. apply dec_stable. intros Hno. unfold Plan in H.
  destruct (collect_refuses segs ∅ [] 0 0) as (e & He); [done|lia| |by rewrite He in H].
  intros (A1 & A2 & _ & A3). destruct Hno. by split.
Qed.
Lemma Plan_decides segs policy now plan : Forall input_typed segs -> zlen segs <= u64_max ->
  Plan segs policy now = Ok plan -> exists cs k, plan_reference segs policy now plan cs k.
Proof.
  intros Ht Hlen H. assert (acceptable segs) as Ha by (apply (Plan_accepts segs policy now Ht Hlen); by rewrite H).
  destruct (Plan_reference segs policy now Ht Hlen Ha) as (plan' & cs & k & H' & Hr). exists cs, k. congruence.
Qed.

(** C16: a plan exists exactly for a well-formed input.  It deletes, oldest first, the eligible segments that are
    over the age limit or archived and, of the others, the least number of the oldest whose
    removal meets the limits; every decision carries exactly its reasons; the remaining bytes and
    segments are those of the live segments that stay; the flags say whether the limits are met. *)
Theorem plan_deletes_oldest_needed segs policy now : Forall input_typed segs -> zlen segs <= u64_max ->
  (is_ok (Plan segs policy now) = true <-> acceptable segs) /\
  forall plan, Plan segs policy now = Ok plan -> exists cs k, plan_reference segs policy now plan cs k.
Proof.
  intros Ht Hlen. split; [by apply Plan_accepts|]. intros plan H. by apply Plan_decides.
Qed.

(** A full partition: one segment over age, one archived, two more over the limits, one open, one deleted. *)
Definition sample_segment (id : Z) (state : SegmentPersistentState) (size time : Z) (done : bool) : RetentionSegment :=
  mkRetentionSegment (mkEntry id state 1 1 0 0 size []) time done.
Definition sample_segments : list RetentionSegment :=
  [ sample_segment 6 kSegmentOpen 400 990 false; sample_segment 5 kSegmentSealed 100 900 false;
    sample_segment 4 kSegmentIndexed 100 800 true; sample_segment 3 kSegmentRetained 100 700 false;
    sample_segment 2 kSegmentSealed 100 600 false; sample_segment 1 kSegmentIndexed 100 200 false;
    sample_segment 7 kSegmentDeleted 100 100 false ].
Definition sample_policy : RetentionPolicy := mkPolicy (Some 500) (Some 550) (Some 9) true.

Lemma plan_deletes_oldest_needed_witness :
  Plan sample_segments sample_policy 1000 =
    Ok (mkPlan [mkDecision 1 kReasonAge; mkDecision 2 kReasonTotalBytes; mkDecision 3 kReasonTotalBytes;
                mkDecision 4 kReasonArchiveComplete] 500 2 true true) /\
  acceptable sample_segments /\
  exists cs k, plan_reference sample_segments sample_policy 1000
    (mkPlan [mkDecision 1 kReasonAge; mkDecision 2 kReasonTotalBytes; mkDecision 3 kReasonTotalBytes;
             mkDecision 4 kReasonArchiveComplete] 500 2 true true) cs k.
Proof.
  destruct (plan_deletes_oldest_needed sample_segments sample_policy 1000) as [H1 H2].
  - repeat constructor; cbn; lia.
  - vm_compute. discriminate.
  - split; [vm_compute; reflexivity|]. split; [apply H1; vm_compute; reflexivity|]. apply H2. vm_compute. reflexivity.
Defined.
