(* ===== verification/Retention.v ===== *)
(** * Pins and the deletion of segments

    Models [SegmentPinManager] and [RetentionExecutor] of [mino/storage/retention.h] and [.cc]: readers
    pin segments with leases that expire; the executor marks a segment as deleted in the partition
    manifest, leaves it alone while it is pinned, and removes its file.

    The manager and the executor share the manifest.  The lock of the manager makes each of its calls a step;
    other threads call it between the steps of the executor ([others]).  The answers of
    the clock, of the fault hook and of the system are inputs; a list of answers that is used
    up stands for a call that succeeds.  A world carries a [journal] of what the outside has seen: leases that were
    returned, pins that were released, answers of the clock, files that were removed.  Every state a
    call goes through is recorded.  Memory allocation does not fail. *)
From Stdlib Require Import Ascii.
From S2P Require Import Prelude SourceIdentity Bytes Crc32c LittleEndian TopicPartition ManifestFormat DurableFile PartitionManifest RetentionPlanner.

(** ** Data *)

Definition kDefaultSegmentPinTtlNs : Z := 5 * 60 * 1000 * 1000 * 1000.

(** [now] and its context are inputs of the calls. *)
Record SegmentPinManagerOptions : Set := mkPinOptions { default_ttl_ns : Z; max_ttl_ns : Z }.
Definition default_pin_options : SegmentPinManagerOptions :=
  mkPinOptions kDefaultSegmentPinTtlNs (24 * 60 * 60 * 1000 * 1000 * 1000).

Record SegmentPinLease : Set := mkLease { pin_id : Z; lease_segment_id : Z; expires_at_ns : Z }.
#[export] Instance SegmentPinLease_eq_dec : EqDecision SegmentPinLease.
Proof. solve_decision. Defined.

Record SegmentPinManager : Set := mkPins {
  pin_options_ : SegmentPinManagerOptions; next_pin_id_ : Z; leases_ : gmap Z SegmentPinLease
}.
Definition set_leases (p : SegmentPinManager) (l : gmap Z SegmentPinLease) : SegmentPinManager :=
  mkPins (pin_options_ p) (next_pin_id_ p) l.
Definition new_pin_manager (o : SegmentPinManagerOptions) : SegmentPinManager := mkPins o 1 ∅.

Inductive RetentionFaultPoint : Set :=
| kAfterManifestDeleted | kBeforeUnlink | kAfterUnlink | kAfterParentDirectorySync.

Record RetentionExecutionReport : Set := mkReport {
  marked_deleted : list Z; pending_pins : list Z; unlinked : list Z; already_missing : list Z
}.

(** ** Leases *)

Definition Expiration (now ttl : Z) : Z := if u64_max - now <? ttl then u64_max else wrap64 (now + ttl).

Definition unexpired (now : Z) (entry : Z * SegmentPinLease) : Prop := ~ expires_at_ns entry.2 <= now.
#[export] Instance unexpired_dec now entry : Decision (unexpired now entry).
Proof. unfold unexpired. apply _. Defined.

Definition PurgeExpiredLocked (p : SegmentPinManager) (now : Z) : SegmentPinManager * Z :=
  let live := filter (unexpired now) (leases_ p) in
  (set_leases p live, Z.of_nat (size (leases_ p)) - Z.of_nat (size live)).

Definition ttl_refused (p : SegmentPinManager) (ttl : Z) : bool :=
  (ttl =? 0) || (max_ttl_ns (pin_options_ p) =? 0) || (max_ttl_ns (pin_options_ p) <? ttl).

(** [emplace] keeps an entry that is already there. *)
Definition emplace (l : gmap Z SegmentPinLease) (k : Z) (lease : SegmentPinLease) : gmap Z SegmentPinLease :=
  match l !! k with Some _ => l | None => <[k := lease]> l end.

Definition AcquireLocked (m : PartitionManifest) (p : SegmentPinManager) (segment_id ttl now : Z)
  : SegmentPinManager * Result SegmentPinLease :=
  if segment_id =? 0 then (p, Err (Invalid "segment pin requires a non-zero ID"))
  else if ttl_refused p ttl then (p, Err (Invalid "segment pin TTL is zero or exceeds its configured limit"))
  else
    let p := (PurgeExpiredLocked p now).1 in
    match FindSegment m segment_id with
    | Err e => (p, Err e)
    | Ok segment =>
        if negb (IsPinable (entry_state segment))
        then (p, Err (mkStatus kNotFound "segment is not in the current pinnable manifest set"))
        else if next_pin_id_ p =? 0 then (p, Err (Resource "segment pin ID space is exhausted"))
        else
          let lease := mkLease (next_pin_id_ p) segment_id (Expiration now ttl) in
          (mkPins (pin_options_ p) (wrap64 (next_pin_id_ p + 1)) (emplace (leases_ p) (next_pin_id_ p) lease), Ok lease)
    end.

Definition RenewLocked (p : SegmentPinManager) (pin ttl now : Z) : SegmentPinManager * Result SegmentPinLease :=
  if pin =? 0 then (p, Err (Invalid "segment pin requires a non-zero ID"))
  else if ttl_refused p ttl then (p, Err (Invalid "segment pin TTL is zero or exceeds its configured limit"))
  else
    let p := (PurgeExpiredLocked p now).1 in
    match leases_ p !! pin with
    | None => (p, Err (mkStatus kNotFound "segment pin is unknown or expired"))
    | Some found =>
        let lease := mkLease (pin_id found) (lease_segment_id found) (Expiration now ttl) in
        (set_leases p (<[pin := lease]> (leases_ p)), Ok lease)
    end.

Definition ReleasePin (p : SegmentPinManager) (pin now : Z) : SegmentPinManager :=
  let p := (PurgeExpiredLocked p now).1 in
  set_leases p (delete pin (leases_ p)).

Definition of_segment (segment_id : Z) (entry : Z * SegmentPinLease) : Prop := lease_segment_id entry.2 = segment_id.
#[export] Instance of_segment_dec segment_id entry : Decision (of_segment segment_id entry).
Proof. unfold of_segment. apply _. Defined.

Definition ActivePinCount (p : SegmentPinManager) (segment_id now : Z) : SegmentPinManager * Z :=
  let p := (PurgeExpiredLocked p now).1 in
  (p, Z.of_nat (size (filter (of_segment segment_id) (leases_ p)))).

(** ** File names *)

(** [lexically_normal] of a relative path: the names so far, the last first, and whether a slash follows them. *)
Fixpoint normal_names (names : list string) (slash : bool) (p : fs_path) : list string * bool :=
  match p with
  | [] => (names, slash)
  | c :: rest =>
      if bool_decide (c = "..") then
        match names with
        | top :: below =>
            if bool_decide (top = "..") then normal_names (c :: names) false rest
            else normal_names below (negb (bool_decide (below = []))) rest
        | [] => normal_names [c] false rest
        end
      else if bool_decide (c = ".") || bool_decide (c = "") then normal_names names (negb (bool_decide (names = []))) rest
      else normal_names (c :: names) false rest
  end.
Definition normal_relative (p : fs_path) : fs_path :=
  let '(names, slash) := normal_names [] false p in
  match names with
  | [] => ["."]
  | top :: _ => rev names ++ (if slash && negb (bool_decide (top = "..")) then [""] else [])
  end.

Fixpoint contains_slash (s : string) : bool :=
  match s with
  | "" => false
  | String c rest => bool_decide (c = "/"%char) || contains_slash rest
  end.

Definition SafeSegmentFilename (p : fs_path) : Result string :=
  let text := generic_string p in
  fail_if bool_decide (text = "") || is_absolute p || contains_nul text
          || negb (bool_decide (generic_string (normal_relative p) = text)) with
    Invalid "retention segment path is not canonical and relative" ;;
  fail_if negb (bool_decide (head p = Some "segments")) with Invalid "retention segment path must be below segments" ;;
  match tail p with
  | [] => Err (Invalid "retention segment filename is invalid")
  | filename :: others =>
      fail_if bool_decide (filename = "") || bool_decide (filename = ".") || bool_decide (filename = "..") with
        Invalid "retention segment filename is invalid" ;;
      fail_if negb (bool_decide (others = [])) || negb (bool_decide (extension filename = ".mino")) with
        Invalid "retention path must be segments/<name>.mino" ;;
      fail_if contains_slash filename || contains_nul filename with
        Invalid "retention segment filename contains a separator" ;;
      Ok filename
  end.

(** ** The segments directory *)

Inductive FileKind : Set := RegularFile | SymbolicLink | OtherFile.
#[export] Instance FileKind_eq_dec : EqDecision FileKind.
Proof. solve_decision. Defined.
(** What the directory lists, and the names removed since it was last synchronised. *)
Record SegmentsDirectory : Set := mkSegmentsDirectory { names : gmap string FileKind; unsynced : gset string }.
(** After a crash a removed name may be back.  A created name counts as durable at once: a crash
    before the topic writer's [SyncSegmentsDirectoryLocked], in which a new file is lost, is not modelled. *)
Definition crash_lists (d : SegmentsDirectory) (left : gset string) : Prop :=
  dom (names d) ⊆ left /\ left ⊆ dom (names d) ∪ unsynced d.
Definition remove_name (name : string) (d : SegmentsDirectory) : SegmentsDirectory :=
  mkSegmentsDirectory (delete name (names d)) ({[name]} ∪ unsynced d).
Definition sync_names (d : SegmentsDirectory) : SegmentsDirectory := mkSegmentsDirectory (names d) ∅.

(** A call that is repeated while it is interrupted: its error, if it has one. *)
Fixpoint settle (answers : list Errno) : option Errno :=
  match answers with
  | [] => None
  | EINTR :: rest => settle rest
  | e :: _ => Some e
  end.
(** [fstatat] without following links. *)
Definition fstatat (answers : list Errno) (name : string) (d : SegmentsDirectory) : FileKind + Errno :=
  match settle answers with
  | Some e => inr e
  | None => match names d !! name with Some k => inl k | None => inr ENOENT end
  end.
(** The error of [unlinkat], if it has one. *)
Definition unlinkat (answers : list Errno) (name : string) (d : SegmentsDirectory) : option Errno :=
  match settle answers with
  | Some e => Some e
  | None => match names d !! name with Some _ => None | None => Some ENOENT end
  end.

(** ** The world *)

Inductive JournalEntry : Set :=
| Granted (l : SegmentPinLease) | Released (pin : Z) | ClockRead (now : Z) | Unlinked (segment_id : Z) (name : string).

(** The calls other threads make. *)
Inductive PinCall : Set :=
| CallAcquire (segment_id : Z) (ttl : option Z) (now : Z)
| CallRenew (pin : Z) (ttl : option Z) (now : Z)
| CallRelease (pin now : Z)
| CallPurge (now : Z)
| CallCount (segment_id now : Z).
(** Where they make them: before the steps of the executor for one segment. *)
Inductive Gap : Set := GapBegin | GapCount | GapStat | GapUnlink | GapSync | GapDone.

(** What the calls of the executor for one segment answer; without a hook [hook_answer] is [None]. *)
Record DeletionAnswers : Set := mkDeletion {
  index_write : ManifestWriteAnswers; delete_write : ManifestWriteAnswers;
  hook_answer : option (RetentionFaultPoint -> Result unit); others : Gap -> list PinCall; count_now : Z;
  stat_answers : list Errno; unlink_answers : list Errno; fsync_answers : list Errno
}.
Definition smooth_deletion (now : Z) : DeletionAnswers :=
  mkDeletion smooth_write smooth_write None (fun _ => []) now [] [] [].

Section World.
Context {P : Posix} {B : Crc32cBackend}.

Record RetentionWorld : Type := mkWorld {
  world_manifest : PartitionManifest; world_disk : Disk; world_pins : SegmentPinManager;
  world_directory : SegmentsDirectory; journal : list JournalEntry
}.
Definition set_manifest (w : RetentionWorld) (m : PartitionManifest) (d : Disk) : RetentionWorld :=
  mkWorld m d (world_pins w) (world_directory w) (journal w).
Definition set_pins (w : RetentionWorld) (p : SegmentPinManager) (seen : list JournalEntry) : RetentionWorld :=
  mkWorld (world_manifest w) (world_disk w) p (world_directory w) (journal w ++ seen).
Definition set_directory (w : RetentionWorld) (d : SegmentsDirectory) (seen : list JournalEntry) : RetentionWorld :=
  mkWorld (world_manifest w) (world_disk w) (world_pins w) d (journal w ++ seen).

(** The states a call goes through, the last of them and the outcome. *)
Definition RetentionM (A : Type) : Type := RetentionWorld -> list RetentionWorld * RetentionWorld * Result A.
Definition rret {A} (a : A) : RetentionM A := fun w => ([], w, Ok a).
Definition rfail {A} (e : Status) : RetentionM A := fun w => ([], w, Err e).
Definition rbind {A C} (f : RetentionM A) (k : A -> RetentionM C) : RetentionM C := fun w =>
  let '(t, w', r) := f w in
  match r with
  | Err e => (t, w', Err e)
  | Ok a => let '(t', w'', r') := k a w' in (t ++ t', w'', r')
  end.
Definition rlift {A} (r : Result A) : RetentionM A := match r with Ok a => rret a | Err e => rfail e end.
Definition update {A} (f : RetentionWorld -> RetentionWorld * A) : RetentionM A := fun w =>
  let '(w', a) := f w in ([w'], w', Ok a).
Notation "'do!' x ':=' m 'in' k" := (rbind m (fun x => k))
  (at level 10, x name, m at level 100, k at level 200).
Notation "'run!' m ';;' k" := (rbind m (fun _ : unit => k)) (at level 10, m at level 99, k at level 200).

(** ** The public calls of the pin manager *)

Definition ttl_of (p : SegmentPinManager) (ttl : option Z) : Z := default (default_ttl_ns (pin_options_ p)) ttl.

Definition seen_by_caller (refused : bool) (now : Z) (r : Result SegmentPinLease) : list JournalEntry :=
  (if refused then [] else [ClockRead now]) ++ match r with Ok l => [Granted l] | Err _ => [] end.

Definition Acquire (segment_id : Z) (ttl : option Z) (now : Z) (w : RetentionWorld)
  : RetentionWorld * Result SegmentPinLease :=
  let ttl := ttl_of (world_pins w) ttl in
  let '(p, r) := AcquireLocked (world_manifest w) (world_pins w) segment_id ttl now in
  (set_pins w p (seen_by_caller ((segment_id =? 0) || ttl_refused (world_pins w) ttl) now r), r).
Definition Renew (pin : Z) (ttl : option Z) (now : Z) (w : RetentionWorld) : RetentionWorld * Result SegmentPinLease :=
  let ttl := ttl_of (world_pins w) ttl in
  let '(p, r) := RenewLocked (world_pins w) pin ttl now in
  (set_pins w p (seen_by_caller ((pin =? 0) || ttl_refused (world_pins w) ttl) now r), r).
Definition Release (pin now : Z) (w : RetentionWorld) : RetentionWorld * Result unit :=
  (set_pins w (ReleasePin (world_pins w) pin now) [ClockRead now; Released pin], Ok tt).
Definition PurgeExpired (now : Z) (w : RetentionWorld) : RetentionWorld * Z :=
  let '(p, n) := PurgeExpiredLocked (world_pins w) now in (set_pins w p [ClockRead now], n).
Definition ActivePins (segment_id now : Z) (w : RetentionWorld) : RetentionWorld * Z :=
  let '(p, n) := ActivePinCount (world_pins w) segment_id now in (set_pins w p [ClockRead now], n).

Definition run_pin_call (c : PinCall) (w : RetentionWorld) : RetentionWorld :=
  match c with
  | CallAcquire segment_id ttl now => (Acquire segment_id ttl now w).1
  | CallRenew pin ttl now => (Renew pin ttl now w).1
  | CallRelease pin now => (Release pin now w).1
  | CallPurge now => (PurgeExpired now w).1
  | CallCount segment_id now => (ActivePins segment_id now w).1
  end.
(** Other threads run. *)
Fixpoint yield (calls : list PinCall) : RetentionM unit :=
  match calls with
  | [] => rret tt
  | c :: rest => run! update (fun w => (run_pin_call c w, tt)) ;; yield rest
  end.

(** ** The executor *)

Definition RetentionIoError (operation path : string) (e : Errno) : Status :=
  let code := match e with EACCES | EPERM => kPermissionDenied | ENOENT => kNotFound | _ => kUnavailable end in
  mkStatus code (operation +:+ " '" +:+ path +:+ "': " +:+ strerror e).

Definition RunFaultHook (a : DeletionAnswers) (point : RetentionFaultPoint) : RetentionM unit :=
  rlift (match hook_answer a with None => Ok tt | Some hook => hook point end).

(** The descriptors an executor holds, and what the calls that open them answer. *)
Inductive Descriptor : Set := RootDescriptor | SegmentsDescriptor.
#[export] Instance Descriptor_eq_dec : EqDecision Descriptor.
Proof. solve_decision. Defined.
Record CreateAnswers : Set := mkCreate {
  root_lstat : LstatAnswer; root_open : option Errno; root_fstat : LstatAnswer;
  segments_open : option Errno; segments_fstat : LstatAnswer
}.
Definition VerifyDirectoryDescriptor (seen : LstatAnswer) (description : string) : Result unit :=
  match seen with
  | LstatErrno e => Err (mkStatus kUnavailable ("cannot inspect " +:+ description +:+ ": " +:+ strerror e))
  | LstatDirectory => Ok tt
  | _ => Err (Invalid (description +:+ " is not a directory"))
  end.
(** The descriptors that are open when it returns.  [same_manifest] says whether the pin manager has the same manifest. *)
Definition CreateExecutor (same_manifest : bool) (root : string) (a : CreateAnswers) : list Descriptor * Result unit :=
  if negb same_manifest then ([], Err (Invalid "retention executor and pin manager use different manifests"))
  else match root_lstat a with
  | LstatErrno e => ([], Err (RetentionIoError "cannot inspect retention partition root" root e))
  | LstatDirectory =>
      match root_open a with
      | Some e => ([], Err (RetentionIoError "cannot open retention partition root" root e))
      | None =>
          let fds := [RootDescriptor] in
          match VerifyDirectoryDescriptor (root_fstat a) "partition root" with
          | Err e => (tail fds, Err e)
          | Ok _ =>
              match segments_open a with
              | Some e =>
                  (tail fds, Err (RetentionIoError "cannot open retention segments directory" (append_path root "segments") e))
              | None =>
                  let fds := SegmentsDescriptor :: fds in
                  match VerifyDirectoryDescriptor (segments_fstat a) "segments path" with
                  | Err e => (tail (tail fds), Err e)
                  | Ok _ => (fds, Ok tt)
                  end
              end
          end
      end
  | _ => ([], Err (Invalid "retention partition root is not a real directory"))
  end.

(** The destructor. *)
Definition destroy_executor (fds : list Descriptor) : list Descriptor :=
  filter (fun d => d <> RootDescriptor) (filter (fun d => d <> SegmentsDescriptor) fds).

(** A mutation of the manifest both objects share. *)
Definition mutate (f : PartitionManifest -> MutationM) : RetentionM unit := fun w =>
  let '(t, d, (m, r)) := f (world_manifest w) (world_disk w) in
  let w' := set_manifest w m d in
  (map (set_manifest w (world_manifest w)) t ++ [w'], w', r).

Definition with_state (e : SegmentManifestEntry) (s : SegmentPersistentState) : SegmentManifestEntry :=
  mkEntry (entry_segment_id e) s (entry_first_sequence e) (entry_last_sequence e) (entry_created_at_ns e)
    (entry_sealed_at_ns e) (entry_size_bytes e) (relative_path e).

(** The entry, and whether this call marked it. *)
Definition BeginDeletion (segment_id : Z) (a : DeletionAnswers) : RetentionM (SegmentManifestEntry * bool) := fun w =>
  match FindSegment (world_manifest w) segment_id with
  | Err e => rfail e w
  | Ok current =>
      if bool_decide (entry_state current = kSegmentDeleted) then rret (current, false) w
      else if negb (IsRetentionEligible (entry_state current)) then
        rfail (Invalid "retention cannot delete an OPEN or CREATING segment") w
      else
        (run! (if bool_decide (entry_state current = kSegmentSealed)
               then mutate (fun m => UpdateSegment m (with_state current kSegmentIndexed) (index_write a))
               else rret tt) ;;
         run! mutate (fun m => UpdateSegment m (with_state current kSegmentDeleted) (delete_write a)) ;;
         rret (with_state current kSegmentDeleted, true)) w
  end.

Definition SyncSegmentsDirectory (answers : list Errno) (path : string) : RetentionM unit :=
  match settle answers with
  | Some e => rfail (RetentionIoError "cannot fsync retention parent directory" path e)
  | None => update (fun w => (set_directory w (sync_names (world_directory w)) [], tt))
  end.

(** The end of [UnlinkSegment], whether it removed the file or not. *)
Definition sync_removal (a : DeletionAnswers) (path : string) : RetentionM unit :=
  run! yield (others a GapSync) ;;
  run! SyncSegmentsDirectory (fsync_answers a) path ;;
  run! RunFaultHook a kAfterParentDirectorySync ;;
  yield (others a GapDone).

(** Whether the file was missing. *)
Definition UnlinkSegment (root : string) (segment : SegmentManifestEntry) (a : DeletionAnswers) : RetentionM bool :=
  do! filename := rlift (SafeSegmentFilename (relative_path segment)) in
  let display_path := append_path root (generic_string (relative_path segment)) in
  let segments_path := append_path root "segments" in
  let sync := sync_removal a segments_path in
  run! yield (others a GapStat) ;;
  (fun w =>
    match fstatat (stat_answers a) filename (world_directory w) with
    | inr ENOENT => (run! sync ;; rret true) w
    | inr e => rfail (RetentionIoError "cannot inspect segment before unlink" display_path e) w
    | inl SymbolicLink => rfail (Invalid "refusing to unlink a symlink segment path") w
    | inl OtherFile => rfail (Invalid "refusing to unlink a non-regular segment path") w
    | inl RegularFile =>
        (run! RunFaultHook a kBeforeUnlink ;;
         run! yield (others a GapUnlink) ;;
         (fun w =>
           match unlinkat (unlink_answers a) filename (world_directory w) with
           | Some ENOENT => (run! sync ;; rret true) w
           | Some e => rfail (RetentionIoError "cannot unlink retained segment" display_path e) w
           | None =>
               (run! update (fun w => (set_directory w (remove_name filename (world_directory w))
                                         [Unlinked (entry_segment_id segment) filename], tt)) ;;
                run! RunFaultHook a kAfterUnlink ;;
                run! sync ;;
                rret false) w
           end)) w
    end).

(** The checks of the identifiers. *)
Fixpoint check_ids (ids : list Z) (unique : gset Z) : Result unit :=
  match ids with
  | [] => Ok tt
  | id :: rest =>
      fail_if (id =? 0) || bool_decide (id ∈ unique) with
        Invalid "retention execution contains a zero or duplicate ID" ;;
      check_ids rest ({[id]} ∪ unique)
  end.

Definition execute_id (root : string) (id : Z) (a : DeletionAnswers) (r : RetentionExecutionReport)
  : RetentionM RetentionExecutionReport :=
  run! yield (others a GapBegin) ;;
  do! deletion := BeginDeletion id a in
  let marked := if deletion.2 then marked_deleted r ++ [id] else marked_deleted r in
  run! RunFaultHook a kAfterManifestDeleted ;;
  run! yield (others a GapCount) ;;
  do! count := update (ActivePins id (count_now a)) in
  if negb (count =? 0) then rret (mkReport marked (pending_pins r ++ [id]) (unlinked r) (already_missing r))
  else
    do! missing := UnlinkSegment root deletion.1 a in
    rret (if missing then mkReport marked (pending_pins r) (unlinked r) (already_missing r ++ [id])
          else mkReport marked (pending_pins r) (unlinked r ++ [id]) (already_missing r)).

Fixpoint execute_loop (root : string) (ids : list Z) (answers : list DeletionAnswers) (r : RetentionExecutionReport)
  : RetentionM RetentionExecutionReport :=
  match ids with
  | [] => rret r
  | id :: rest =>
      do! r := execute_id root id (default (smooth_deletion 0) (head answers)) r in
      execute_loop root rest (tail answers) r
  end.

Definition ExecuteIds (root : string) (ids : list Z) (answers : list DeletionAnswers)
  : RetentionM RetentionExecutionReport :=
  run! rlift (check_ids ids ∅) ;;
  execute_loop root ids answers (mkReport [] [] [] []).

Definition Execute (root : string) (plan : RetentionPlan) (answers : list DeletionAnswers)
  : RetentionM RetentionExecutionReport :=
  ExecuteIds root (map decision_segment_id (deletions plan)) answers.

Definition deleted_ids (s : PartitionManifestSnapshot) : list Z :=
  map entry_segment_id (filter (fun e => entry_state e = kSegmentDeleted) (segments s)).
Definition RecoverPendingDeletions (root : string) (answers : list DeletionAnswers)
  : RetentionM RetentionExecutionReport := fun w =>
  ExecuteIds root (deleted_ids (snapshot_ (world_manifest w))) answers w.
End World.
