(* ===== verification/RetentionSafety.v ===== *)
(** * Retention and the manifest

    What the rules of a snapshot mean for retention: identifiers and paths are distinct and every path is safe to
    remove; what marking a segment does to the manifest and to what a crash leaves of it; and the invariant
    of pins, manifest, directory and journal that every call keeps, with other threads running in between. *)
From S2P Require Import Prelude SourceIdentity Bytes Crc32c LittleEndian TopicPartition ManifestFormat ManifestCodec DurableFile PartitionManifest ManifestSafety RetentionPlanner Retention.

(** ** Paths *)

Lemma slash_free_contains s : slash_free s -> contains_slash s = false.
Proof.
  unfold slash_free. induction s as [|c s IH]; intros H; [done|]. cbn [split_at_slashes contains_slash] in *.
  destruct (split_at_slashes s) as [|piece pieces] eqn:E; [by apply split_nonempty in E|].
  case_bool_decide; [done|]. injection H as -> ->. by apply IH.
Qed.

Lemma contains_nul_app s t : contains_nul (s +:+ t) = contains_nul s || contains_nul t.
Proof. induction s as [|c s IH]; [done|]. cbn [String.app contains_nul]. change (String c s +:+ t) with (String c (s +:+ t)). cbn [contains_nul]. by rewrite IH, orb_assoc. Qed.

Lemma safe_filename p n : is_path p -> ValidateSegmentPath p n = Ok tt ->
  exists name, p = ["segments"; name] /\ SafeSegmentFilename p = Ok name.
Proof.
  intros Hp Hv. pose proof Hv as (name & -> & Hn & Hx & Ha & _)%ValidateSegmentPath_ok.
  exists name. split; [done|]. unfold ValidateSegmentPath in Hv. apply bindR_Ok in Hv as ([] & Hb & _).
  unfold ValidateBasicRelativePath in Hb. cbv zeta in Hb. repeat step_if. bool_to_prop.
  match goal with H : existsb _ _ = false |- _ => cbn [existsb] in H end. bool_to_prop.
  assert (contains_slash name = false) as Hs.
  { apply slash_free_contains. pose proof (is_path_slash_free _ Hp Ha) as Hf. by do 2 apply list.Forall_cons in Hf as [? Hf]. }
  assert (contains_nul name = false) as Hnul.
  { match goal with H : contains_nul _ = false |- _ => change (contains_nul ("segments/" +:+ name) = false) in H;
      rewrite contains_nul_app in H; by bool_to_prop end. }
  unfold SafeSegmentFilename. cbv zeta.
  assert (normal_relative ["segments"; name] = ["segments"; name]) as ->.
  { unfold normal_relative. cbn [normal_names]. rewrite !bool_decide_eq_false_2 by done. done. }
  rewrite fail_if_false by solve_guard. rewrite fail_if_false by solve_guard. cbn [tail].
  do 3 rewrite fail_if_false by solve_guard. done.
Qed.

(** ** The entries of a valid snapshot *)

Record entries_ok (l : ManifestLimits) (es : list SegmentManifestEntry) : Prop := {
  eo_ids : NoDup (map entry_segment_id es);
  eo_nonzero : Forall (fun e => entry_segment_id e <> 0) es;
  eo_paths : NoDup (map relative_path es);
  eo_entries : Forall (entry_ok l) es
}.

Definition previous_id (previous : option SegmentManifestEntry) (e : SegmentManifestEntry) : Prop :=
  match previous with Some p => entry_segment_id p < entry_segment_id e | None => True end.

Lemma validate_segments_distinct l entries : forall previous active paths,
  validate_segments l previous active paths entries = Ok tt ->
  Forall (previous_id previous) entries /\ NoDup (map entry_segment_id entries) /\
  Forall (fun e => entry_segment_id e <> 0) entries /\
  NoDup (map (fun e => generic_string (relative_path e)) entries) /\
  Forall (fun e => generic_string (relative_path e) ∉ paths) entries.
Proof.
  induction entries as [|e rest IH]; intros previous active paths H; [by split_and!; constructor|]. cbn [validate_segments] in H.
  do 2 step_if. apply bindR_Ok in H as ([] & Hp & H). cbv zeta in H. repeat step_if. bool_to_prop.
  apply IH in H as (I1 & I2 & I3 & I4 & I5). rewrite Forall_elem in I1, I5.
  assert (previous_id previous e) as Hprev by (destruct previous; cbn; [bool_to_prop; lia|done]).
  split_and!.
  - constructor; [done|]. apply Forall_elem. intros x Hx%I1. destruct previous; cbn in *; lia.
  - cbn [map]. constructor; [|done]. intros (x & E' & Hx%I1)%list_elem_of_fmap_1. cbn in Hx. lia.
  - by constructor.
  - cbn [map]. constructor; [|done]. intros (x & E' & Hx%I5)%list_elem_of_fmap_1. apply Hx. rewrite E'. left.
  - constructor; [done|]. apply Forall_elem. intros x Hx%I5 Hin. apply Hx. by right.
Qed.

Lemma valid_entries s l : ValidatePartitionSnapshot s l = Ok tt -> entries_ok l (segments s).
Proof.
  intros H. pose proof (ValidatePartitionSnapshot_ok _ _ H) as (_ & _ & _ & He & _).
  unfold ValidatePartitionSnapshot in H. apply bindR_Ok in H as ([] & _ & H). cbv zeta in H. step_if.
  apply bindR_Ok in H as ([] & _ & H). do 2 step_if. apply bindR_Ok in H as ([] & Hs & _).
  apply validate_segments_distinct in Hs as (_ & H1 & H2 & H3 & _). split; try done.
  rewrite <- (List.map_map relative_path generic_string) in H3. by eapply NoDup_fmap_1.
Qed.

Lemma distinct_elem {A C} (f : A -> C) (es : list A) x y : NoDup (map f es) -> x ∈ es -> y ∈ es -> f x = f y -> x = y.
Proof.
  intros Hn (i & Hi)%list_elem_of_lookup (j & Hj)%list_elem_of_lookup E. enough (i = j) by congruence.
  eapply (NoDup_lookup _ i j (f x) Hn); change (map f es) with (f <$> es).
  - by rewrite list_lookup_fmap, Hi.
  - by rewrite list_lookup_fmap, Hj, E.
Qed.

Section Entries.
Context (l : ManifestLimits) (es : list SegmentManifestEntry) (Hok : entries_ok l es).

Lemma same_id e e' : e ∈ es -> e' ∈ es -> entry_segment_id e = entry_segment_id e' -> e = e'.
Proof using Hok. apply distinct_elem, Hok. Qed.
Lemma same_path e e' : e ∈ es -> e' ∈ es -> relative_path e = relative_path e' -> e = e'.
Proof using Hok. apply distinct_elem, Hok. Qed.

Lemma find_listed e : e ∈ es -> exists i, find_segment (entry_segment_id e) es = Some (i, e).
Proof using Hok.
  intros He. destruct (list_find_elem_of (fun x => entry_segment_id x = entry_segment_id e) es e He eq_refl) as ([i x] & Hf).
  exists i. unfold find_segment. rewrite Hf. apply find_segment_Some in Hf as [Hi E].
  by rewrite (same_id x e (list_elem_of_lookup_2 _ _ _ Hi) He E).
Qed.

(** Setting the state of one segment. *)
Definition set_state (id : Z) (st : SegmentPersistentState) (entries : list SegmentManifestEntry) : list SegmentManifestEntry :=
  map (fun e => if decide (entry_segment_id e = id) then with_state e st else e) entries.

Lemma insert_set_state id st i e : find_segment id es = Some (i, e) -> <[i := with_state e st]> es = set_state id st es.
Proof using Hok.
  intros (Hi & Hid)%find_segment_Some. apply list_eq. intros j. unfold set_state.
  change (map ?f es) with (f <$> es). rewrite list_lookup_fmap. destruct (decide (i = j)) as [<-|Hne].
  - rewrite list_lookup_insert_eq by (by eapply lookup_lt_Some). rewrite Hi. cbn. by rewrite decide_True.
  - rewrite list_lookup_insert_ne by done. destruct (es !! j) as [x|] eqn:Hj; [|done]. cbn. rewrite decide_False; [done|].
    intros E. apply Hne. eapply (NoDup_lookup _ i j id (eo_ids _ _ Hok)); change (map entry_segment_id es) with (entry_segment_id <$> es).
    + by rewrite list_lookup_fmap, Hi; cbn; rewrite Hid.
    + by rewrite list_lookup_fmap, Hj; cbn; rewrite E.
Qed.
End Entries.

Lemma entry_state_same e : with_state e (entry_state e) = e.
Proof. by destruct e. Qed.
Lemma set_state_twice id st st' es : set_state id st' (set_state id st es) = set_state id st' es.
Proof.
  unfold set_state. rewrite List.map_map. apply List.map_ext. intros e. destruct (decide (entry_segment_id e = id)).
  - cbn [with_state entry_segment_id]. by rewrite decide_True.
  - by rewrite decide_False.
Qed.
Lemma set_state_id l id e es : entries_ok l es -> e ∈ es -> entry_segment_id e = id -> set_state id (entry_state e) es = es.
Proof.
  intros Hok He Hid. unfold set_state. rewrite <- (List.map_id es) at 2. apply List.map_ext_in.
  intros x Hx%list_elem_of_In. case_decide as Hx'; [|done].
  assert (x = e) as -> by (eapply same_id; eauto; congruence). apply entry_state_same.
Qed.
Lemma set_state_elem id st e es : e ∈ es -> entry_segment_id e = id -> with_state e st ∈ set_state id st es.
Proof.
  intros He Hid. unfold set_state. apply list_elem_of_fmap. exists e. split; [by rewrite decide_True|done].
Qed.

(** The file of an entry. *)
Lemma entry_file es l e : entries_ok l es -> Forall entry_typed es -> e ∈ es ->
  exists name, relative_path e = ["segments"; name] /\ SafeSegmentFilename (relative_path e) = Ok name.
Proof.
  intros [_ _ _ Hok] Ht He. eapply Forall_elem in Hok as [_ Hv]; [|done]. eapply Forall_elem in Ht; [|done].
  eapply safe_filename; [apply Ht|done].
Qed.

(** ** Deleted entries stay *)

(** The snapshot lists the file [name] of segment [id] as deleted. *)
Definition lists_deleted (id : Z) (name : string) (s : PartitionManifestSnapshot) : Prop :=
  exists e, e ∈ segments s /\ entry_segment_id e = id /\ relative_path e = ["segments"; name] /\ entry_state e = kSegmentDeleted.

Lemma deleted_terminal st : rtc (fun x y => AllowedTransition x y = true) kSegmentDeleted st -> st = kSegmentDeleted.
Proof. intros H. inversion H as [|? y ? Hxy]; [done|]. by destruct y. Qed.

Lemma lists_deleted_advances id name s s' : lists_deleted id name s -> advances s s' -> lists_deleted id name s'.
Proof.
  intros (e & (i & Hi)%list_elem_of_lookup & H1 & H2 & H3) Ha. destruct (ad_entries _ _ Ha i e Hi) as (e' & Hi' & M).
  exists e'. split_and!; [by eapply list_elem_of_lookup_2| | |].
  - by rewrite (em_id _ _ M).
  - by rewrite (em_path _ _ M).
  - apply deleted_terminal. rewrite <- H3. apply M.
Qed.

(** ** Leases and the journal *)

(** The leases the outside may rely on: granted, not released, not expired by any answer of the clock since. *)
Definition replay (l : gmap Z SegmentPinLease) (e : JournalEntry) : gmap Z SegmentPinLease :=
  match e with
  | Granted lease => <[pin_id lease := lease]> l
  | Released pin => delete pin l
  | ClockRead now => filter (unexpired now) l
  | Unlinked _ _ => l
  end.
Definition outstanding (j : list JournalEntry) : gmap Z SegmentPinLease := foldl replay ∅ j.

Lemma outstanding_app j j' : outstanding (j ++ j') = foldl replay (outstanding j) j'.
Proof. apply foldl_app. Qed.

Definition pinned (l : gmap Z SegmentPinLease) (id : Z) : Prop := exists k x, l !! k = Some x /\ lease_segment_id x = id.

(** After a file was removed nobody may hold its segment any more. *)
Definition ordered (j : list JournalEntry) : Prop :=
  forall j1 id name j2, j = j1 ++ Unlinked id name :: j2 ->
  ~ pinned (outstanding j1) id /\ forall x, Granted x ∈ j2 -> lease_segment_id x <> id.

Lemma ordered_snoc j e : ordered j ->
  (forall id name, e = Unlinked id name -> ~ pinned (outstanding j) id) ->
  (forall x id name, e = Granted x -> Unlinked id name ∈ j -> lease_segment_id x <> id) -> ordered (j ++ [e]).
Proof.
  intros Ho Hu Hg j1 id name j2 E. destruct (decide (j2 = [])) as [->|Hne].
  - apply app_inj_tail in E as [-> ->]. split; [by eapply Hu|]. by intros x Hx%not_elem_of_nil.
  - destruct (exists_last Hne) as (j3 & e' & ->). rewrite app_comm_cons, app_assoc in E. apply app_inj_tail in E as [-> ->].
    destruct (Ho j1 id name j3 eq_refl) as [H1 H2]. split; [done|]. intros x [Hx|Hx]%elem_of_app; [by apply H2|].
    apply list_elem_of_singleton in Hx. eapply Hg; [done|]. apply elem_of_app. right. left.
Qed.

Section Invariant.
Context {P : Posix} {PL : PosixLaws P} {B : Crc32cBackend} {BL : Crc32cLaws B}.
(** The names the directory had at some point. *)
Context (D0 : gset string).
Abbreviation snap w := (snapshot_ (world_manifest w)).
Abbreviation limits_of m := (manifest_limits (manifest_options_ m)).

(** Creation leaves no descriptor open unless it succeeds, and the destructor closes them. *)
Lemma create_no_leak same root a : let '(fds, r) := CreateExecutor same root a in
  (if is_ok r then fds = [SegmentsDescriptor; RootDescriptor] else fds = []) /\ destroy_executor fds = [].
Proof.
  unfold CreateExecutor. destruct same; [|done]. cbn [negb]. destruct (root_lstat a); try done. destruct (root_open a); [done|].
  destruct (VerifyDirectoryDescriptor (root_fstat a) _); [|done]. destruct (segments_open a); [done|].
  by destruct (VerifyDirectoryDescriptor (segments_fstat a) _).
Qed.

Record pins_ok (w : RetentionWorld) : Prop := {
  po_leases : leases_ (world_pins w) = outstanding (journal w);
  po_keys : forall k x, leases_ (world_pins w) !! k = Some x -> pin_id x = k /\
              (next_pin_id_ (world_pins w) = 0 \/ k < next_pin_id_ (world_pins w));
  po_next : is_u64 (next_pin_id_ (world_pins w))
}.

(** What holds at every instant, also in the middle of a call. *)
Record safe (w : RetentionWorld) : Prop := {
  sf_pins : pins_ok w;
  sf_valid : entries_ok (limits_of (world_manifest w)) (segments (snap w));
  sf_typed : Forall entry_typed (segments (snap w));
  sf_file : reads_as (limits_of (world_manifest w)) (fun s => s = snap w \/ advances (snap w) s) (world_disk w);
  sf_closed : forall id name, Unlinked id name ∈ journal w -> lists_deleted id name (snap w) /\ ~ pinned (leases_ (world_pins w)) id;
  sf_ordered : ordered (journal w);
  sf_names : forall name, name ∈ D0 -> name ∈ dom (names (world_directory w)) \/ exists id, Unlinked id name ∈ journal w
}.
(** What holds between the steps. *)
Record good (w : RetentionWorld) : Prop := { gd_safe : safe w; gd_kept : kept (world_manifest w) (world_disk w) }.

Lemma kept_reads m d : kept m d -> reads_as (limits_of m) (fun s => s = snapshot_ m \/ advances (snapshot_ m) s) d.
Proof. intros K c Hc. destruct (kp_file _ _ K c Hc) as (b & s & -> & Hb & [->|[_ Hs]]); exists b; eexists; split_and!; eauto. Qed.

(** *** Pin calls *)

Lemma set_pins_good w p seen : good w -> ordered (journal w ++ seen) ->
  pins_ok (set_pins w p seen) -> (forall id name, Unlinked id name ∉ seen) ->
  (forall id name, Unlinked id name ∈ journal w -> ~ pinned (leases_ p) id) -> good (set_pins w p seen).
Proof.
  intros [[S1 S2 S3 S4 S5 S6 S7] K] Ho Hp Hs Hc. split; [|exact K]. split; try done; cbn [set_pins journal].
  - intros id name [Hin|Hin]%elem_of_app; [|by apply Hs in Hin]. split; [by apply (S5 id name) | by apply (Hc id name)].
  - intros name Hn. destruct (S7 name Hn) as [?|(id & ?)]; [by left|]. right. exists id. apply elem_of_app. by left.
Qed.

Lemma pinned_filter now l id : pinned (filter (unexpired now) l) id -> pinned l id.
Proof. intros (k & x & Hk & Hx). apply map_lookup_filter_Some in Hk as [Hk _]. by exists k, x. Qed.

(** The clock is read and expired leases are dropped. *)
Lemma clock_good w now : good w -> good (set_pins w (PurgeExpiredLocked (world_pins w) now).1 [ClockRead now]).
Proof.
  intros Hg. pose proof Hg as [[S1 S2 S3 S4 S5 S6 S7] K]. apply set_pins_good; try done.
  - by apply ordered_snoc.
  - destruct S1 as [P1 P2 P3]. split; cbn.
    + by rewrite outstanding_app, P1.
    + intros k x Hk. apply map_lookup_filter_Some in Hk as [Hk _]. by apply P2.
    + done.
  - intros id name Hin. by apply list_elem_of_singleton in Hin.
  - intros id name Hin Hpin%pinned_filter. by eapply S5.
Qed.

Lemma set_pins_twice w p p' seen seen' : set_pins (set_pins w p seen) p' seen' = set_pins w p' (seen ++ seen').
Proof. unfold set_pins. cbn. by rewrite <- app_assoc. Qed.

Lemma clock_then_grant w p q now x :
  good (set_pins (set_pins w p [ClockRead now]) q [Granted x]) -> good (set_pins w q [ClockRead now; Granted x]).
Proof. by rewrite set_pins_twice. Qed.

(** A lease for a segment whose file is there is added or renewed. *)
Lemma grant_good w p x : good w -> (forall name, Unlinked (lease_segment_id x) name ∉ journal w) ->
  leases_ p = <[pin_id x := x]> (leases_ (world_pins w)) ->
  (next_pin_id_ p = 0 \/ pin_id x < next_pin_id_ p) ->
  (next_pin_id_ p = 0 \/ next_pin_id_ (world_pins w) <= next_pin_id_ p /\ next_pin_id_ (world_pins w) <> 0) -> is_u64 (next_pin_id_ p) ->
  good (set_pins w p [Granted x]).
Proof.
  intros Hg Hfresh Hl Hn1 Hn2 Hu. pose proof Hg as [[[P1 P2 P3] S2 S3 S4 S5 S6 S7] K]. apply set_pins_good; try done.
  - apply ordered_snoc; [done|done|]. intros y id name [= <-] Hin <-. by apply (Hfresh name).
  - split; cbn; [by rewrite outstanding_app, Hl, P1| |done]. intros k y. rewrite Hl. intros [[<- <-]|[Hne Hk]]%lookup_insert_Some; [done|].
    destruct (P2 k y Hk) as [? ?]. split; [done|]. lia.
  - intros id name Hin. by apply list_elem_of_singleton in Hin.
  - intros id name Hin (k & y & Hk & <-). rewrite Hl in Hk. apply lookup_insert_Some in Hk as [[_ <-]|[_ Hk]].
    + by apply (Hfresh name).
    + apply (S5 _ _ Hin). by exists k, y.
Qed.

Lemma set_pins_same w : set_pins w (world_pins w) [] = w.
Proof. unfold set_pins. destruct w. cbn. by rewrite app_nil_r. Qed.

(** A segment that can be pinned was not removed. *)
Lemma pinable_not_unlinked w id e : good w -> FindSegment (world_manifest w) id = Ok e -> IsPinable (entry_state e) = true ->
  forall name, ~ lists_deleted id name (snap w).
Proof.
  intros [S _] Hf Hp name (e' & He' & Hid & _ & Hst). unfold FindSegment in Hf.
  destruct (find_segment id (segments (snap w))) as [[i x]|] eqn:E; [|done]. injection Hf as ->.
  apply find_segment_Some in E as [Hi Hx].
  assert (e = e') as -> by (eapply same_id; [apply S|by eapply list_elem_of_lookup_2|done|congruence]). by rewrite Hst in Hp.
Qed.

(** Pins for which a call can leave a lease: those that had one, and pinable segments. *)
Definition pins_from (w : RetentionWorld) (l : gmap Z SegmentPinLease) : Prop :=
  forall id, pinned l id -> pinned (leases_ (world_pins w)) id \/
    exists e, FindSegment (world_manifest w) id = Ok e /\ IsPinable (entry_state e) = true.

Lemma pinned_insert k x l id : pinned (<[k := x]> l) id -> lease_segment_id x = id \/ pinned l id.
Proof. intros (j & y & [[_ <-]|[_ Hj]]%lookup_insert_Some & Hy); [by left|right; by exists j, y]. Qed.

Definition pin_result (w : RetentionWorld) (w' : RetentionWorld) : Prop :=
  exists p seen, w' = set_pins w p seen /\ good w' /\ pins_from w (leases_ p).

Lemma pin_result_same w : good w -> pin_result w w.
Proof. intros Hg. exists (world_pins w), []. rewrite set_pins_same. split_and!; [done|done|]. intros id. by left. Qed.

Lemma pin_result_clock w now : good w -> pin_result w (set_pins w (PurgeExpiredLocked (world_pins w) now).1 [ClockRead now]).
Proof.
  intros Hg. eexists _, _. split_and!; [done|by apply clock_good|]. intros id H. left. exact (pinned_filter now _ id H).
Qed.

Lemma wrap_next n : is_u64 n -> wrap64 (n + 1) = 0 \/ wrap64 (n + 1) = n + 1.
Proof.
  intros Hn. destruct (decide (n = u64_max)) as [->|Hne]; [by left|]. right. apply wrap64_id. ulia.
Qed.

Lemma Acquire_result id ttl now w : good w -> pin_result w (Acquire id ttl now w).1.
Proof.
  intros Hg. unfold Acquire, AcquireLocked. set (t := ttl_of _ _). destruct (id =? 0).
  { cbn. rewrite set_pins_same. by apply pin_result_same. }
  destruct (ttl_refused _ _); [cbn; rewrite set_pins_same; by apply pin_result_same|]. cbv zeta.
  pose proof (pin_result_clock w now Hg) as Hclock. set (p := (PurgeExpiredLocked (world_pins w) now).1) in *.
  destruct (FindSegment _ _) as [e|] eqn:Hf; [|exact Hclock]. destruct (IsPinable (entry_state e)) eqn:Hp; [|exact Hclock].
  cbn [negb]. destruct (Z.eqb_spec (next_pin_id_ p) 0); [exact Hclock|]. destruct Hclock as (q & seen & E & Hg' & Hfrom).
  assert (leases_ p !! next_pin_id_ p = None) as Hnone.
  { destruct (leases_ p !! next_pin_id_ p) as [x|] eqn:Hx; [|done]. apply map_lookup_filter_Some in Hx as [Hx _].
    apply Hg in Hx. change (next_pin_id_ p) with (next_pin_id_ (world_pins w)) in *. lia. }
  unfold emplace. rewrite Hnone. eexists _, _. split_and!; [done| |].
  - apply (clock_then_grant w p).
    pose proof (po_next _ (sf_pins _ (gd_safe _ Hg))) as Hu. change (next_pin_id_ (world_pins w)) with (next_pin_id_ p) in Hu.
    apply grant_good; [exact (clock_good w now Hg) | | done | | | apply wrap64_u64].
    + intros name Hin. cbn in Hin. apply elem_of_app in Hin as [Hin|Hin%list_elem_of_singleton]; [|done].
      eapply pinable_not_unlinked; [exact Hg|exact Hf|done|]. by apply Hg.
    + cbn [next_pin_id_ pin_id]. clear -Hu. destruct (wrap_next _ Hu) as [Hw|Hw]; [by left|right; lia].
    + change (next_pin_id_ (world_pins (set_pins w p [ClockRead now]))) with (next_pin_id_ p). cbn [next_pin_id_].
      clear -Hu n. destruct (wrap_next _ Hu) as [Hw|Hw]; [by left|right; lia].
  - intros i [<-|H]%pinned_insert; [right; by exists e|left; exact (pinned_filter now _ i H)].
Qed.

Lemma Renew_result pin ttl now w : good w -> pin_result w (Renew pin ttl now w).1.
Proof.
  intros Hg. unfold Renew, RenewLocked. set (t := ttl_of _ _). destruct (pin =? 0).
  { cbn. rewrite set_pins_same. by apply pin_result_same. }
  destruct (ttl_refused _ _); [cbn; rewrite set_pins_same; by apply pin_result_same|]. cbv zeta.
  pose proof (pin_result_clock w now Hg) as Hclock. pose proof (clock_good w now Hg) as Hgc.
  set (p := (PurgeExpiredLocked (world_pins w) now).1) in *.
  destruct (leases_ p !! pin) as [x|] eqn:Hx; [|exact Hclock].
  pose proof (po_keys _ (sf_pins _ (gd_safe _ Hgc)) pin x Hx) as [Hk Hn].
  eexists _, _. split_and!; [done| |].
  - apply (clock_then_grant w p). apply grant_good; [done| | | | |].
    + intros name Hin. destruct (sf_closed _ (gd_safe _ Hgc) _ _ Hin) as [_ Hno]. apply Hno. by exists pin, x.
    + cbn [set_leases leases_ pin_id]. by rewrite Hk.
    + cbn [set_leases next_pin_id_ pin_id]. rewrite Hk. exact Hn.
    + cbn [set_leases next_pin_id_]. change (next_pin_id_ (world_pins (set_pins w p [ClockRead now]))) with (next_pin_id_ p). lia.
    + apply Hgc.
  - intros i [<-|H]%pinned_insert; left; [|exact (pinned_filter now _ i H)]. apply (pinned_filter now). by exists pin, x.
Qed.

Lemma Release_result pin now w : good w -> pin_result w (Release pin now w).1.
Proof.
  intros Hg. pose proof (clock_good w now Hg) as Hgc. unfold Release, ReleasePin. set (p := (PurgeExpiredLocked (world_pins w) now).1) in *.
  cbn [fst]. cbv zeta. eexists _, _. split_and!; [done| |].
  - rewrite (eq_sym (set_pins_twice w p (set_leases p (delete pin (leases_ p))) [ClockRead now] [Released pin])).
    pose proof Hgc as [[[P1 P2 P3] S2 S3 S4 S5 S6 S7] K]. apply set_pins_good; try done.
    + by apply ordered_snoc.
    + split; cbn [set_pins world_pins journal set_leases leases_ next_pin_id_]; [| |done].
      * rewrite outstanding_app. cbn [foldl replay]. f_equal. exact P1.
      * intros k x [_ Hk]%lookup_delete_Some. by apply P2.
    + intros id name Hin. by apply list_elem_of_singleton in Hin.
    + intros id name Hin (k & x & Hk & Hx). cbn in Hk. apply lookup_delete_Some in Hk as [_ Hk]. apply (S5 _ _ Hin). by exists k, x.
  - intros i (k & x & Hk & Hx). cbn in Hk. apply lookup_delete_Some in Hk as [_ Hk]. left. apply (pinned_filter now). by exists k, x.
Qed.

Lemma run_pin_call_result c w : good w -> pin_result w (run_pin_call c w).
Proof.
  intros Hg. destruct c; cbn [run_pin_call].
  - by apply Acquire_result.
  - by apply Renew_result.
  - by apply Release_result.
  - by apply pin_result_clock.
  - by apply pin_result_clock.
Qed.

(** Nobody pins a deleted segment again. *)
Lemma pin_result_unpinned w w' id name : good w -> pin_result w w' -> lists_deleted id name (snap w) ->
  ~ pinned (leases_ (world_pins w)) id -> ~ pinned (leases_ (world_pins w')) id.
Proof.
  intros Hg (p & seen & -> & _ & Hfrom) Hd Hno Hp. apply Hfrom in Hp as [?|(e & Hf & Hp)]; [done|].
  by eapply pinable_not_unlinked in Hd.
Qed.

(** *** Changes of the manifest *)

Lemma set_manifest_safe w m d : safe w -> (snapshot_ m = snap w \/ advances (snap w) (snapshot_ m)) ->
  entries_ok (limits_of m) (segments (snapshot_ m)) -> Forall entry_typed (segments (snapshot_ m)) ->
  reads_as (limits_of m) (fun s => s = snapshot_ m \/ advances (snapshot_ m) s) d -> safe (set_manifest w m d).
Proof.
  intros [[P1 P2 P3] S2 S3 S4 S5 S6 S7] Hs H1 H2 H3. split; try done; cbn. intros id name Hin.
  destruct (S5 id name Hin) as [Hd Hp]. split; [|done]. destruct Hs as [->|Hs]; [done|]. by eapply lists_deleted_advances.
Qed.

Lemma mutate_good f w t w' r : good w -> (exists next, keeps (world_manifest w) next (f (world_manifest w))) ->
  mutate f w = (t, w', r) -> Forall safe t /\ good w' /\
  exists m d, w' = set_manifest w m d /\ (exists t', f (world_manifest w) (world_disk w) = (t', d, (m, r))).
Proof.
  intros [S K] (next & Hk) H. unfold mutate in H. destruct (f (world_manifest w) (world_disk w)) as [[t' d] [m r']] eqn:E.
  injection H as <- <- <-. destruct (Hk _ _ _ _ _ K E) as (K' & _ & Ho & Ht & Hr).
  assert (good (set_manifest w m d)) as Hg.
  { split; [|exact K']. apply set_manifest_safe; try done.
    - destruct r' as [[]|e]; [|by left]. destruct Hr as [_ [->|(_ & _ & Ha)]]; [by left|by right].
    - apply valid_entries, K'.
    - apply (st_entries _ (kp_typed _ _ K')).

    - by apply kept_reads. }
  split_and!; [|done|exists m, d; split; [done|by exists t']]. apply list.Forall_app. split; [|constructor; [apply Hg|constructor]].
  apply List.Forall_map, Forall_elem. intros x Hx. apply set_manifest_safe; try done; [by left|apply S|apply S|].
  by eapply Forall_elem in Ht.
Qed.

Lemma UpdateSegment_effect m e a d t d' m' : UpdateSegment m e a d = (t, d', (m', Ok tt)) ->
  exists i found, find_segment (entry_segment_id e) (segments (snapshot_ m)) = Some (i, found) /\
    segments (snapshot_ m') = <[i := e]> (segments (snapshot_ m)).
Proof.
  unfold UpdateSegment. intros H. step_if. destruct (find_segment _ _) as [[i found]|] eqn:Hf; [|done].
  exists i, found. split; [done|]. do 4 step_if. case_bool_decide as Heq.
  - injection H as _ _ <-. apply find_segment_Some in Hf as [Hi _]. by rewrite list_insert_id by (by rewrite Heq).
  - unfold Commit in H. do 2 step_if. cbv zeta in H. destruct (EncodePartitionInternal _ _); [|done].
    destruct (AtomicWriteManifest _ _ _ _) as [[t1 d1] [[]|]]; [|done]. by injection H as _ _ <-.
Qed.

(** ** Triples *)

Definition rtriple {A} (Pre : RetentionWorld -> Prop) (f : RetentionM A) (Post : A -> RetentionWorld -> Prop) : Prop :=
  forall w, good w -> Pre w -> let '(t, w', r) := f w in
  Forall safe t /\ good w' /\ match r with Ok a => Post a w' | Err _ => True end.

Lemma rtriple_ret {A} (a : A) Pre (Post : A -> RetentionWorld -> Prop) : (forall w, Pre w -> Post a w) -> rtriple Pre (rret a) Post.
Proof. intros H w Hg Hp. split_and!; [constructor|done|by apply H]. Qed.
Lemma rtriple_fail {A} e Pre (Post : A -> RetentionWorld -> Prop) : rtriple Pre (rfail e) Post.
Proof. intros w Hg Hp. split_and!; [constructor|done|done]. Qed.
Lemma rtriple_bind {A C} Pre Mid Post (f : RetentionM A) (k : A -> RetentionM C) :
  rtriple Pre f Mid -> (forall a, rtriple (Mid a) (k a) Post) -> rtriple Pre (rbind f k) Post.
Proof.
  intros Hf Hk w Hg Hp. specialize (Hf w Hg Hp). unfold rbind. destruct (f w) as [[t w'] [a|e]]; [|done].
  destruct Hf as (H1 & H2 & H3). specialize (Hk a w' H2 H3). destruct (k a w') as [[t' w''] r].
  destruct Hk as (H4 & H5 & H6). split_and!; try done. by apply list.Forall_app.
Qed.
(** The triple at one world, for code that looks at the world it starts in. *)
Lemma rtriple_at {A} w (Pre : RetentionWorld -> Prop) (f : RetentionM A) Post : rtriple Pre f Post -> good w -> Pre w ->
  let '(t, w', r) := f w in Forall safe t /\ good w' /\ match r with Ok a => Post a w' | Err _ => True end.
Proof. intros H. apply H. Qed.
Lemma rtriple_pre {A} (Pre Pre' : RetentionWorld -> Prop) (f : RetentionM A) Post :
  (forall w, good w -> Pre w -> Pre' w) -> rtriple Pre' f Post -> rtriple Pre f Post.
Proof. intros H Hf w Hg Hp. apply Hf; [done|by apply H]. Qed.
Lemma rtriple_post {A} Pre (f : RetentionM A) (Post Post' : A -> RetentionWorld -> Prop) :
  (forall a w, Post a w -> Post' a w) -> rtriple Pre f Post -> rtriple Pre f Post'.
Proof.
  intros H Hf w Hg Hp. specialize (Hf w Hg Hp). destruct (f w) as [[t w'] [a|e]]; [|done]. naive_solver.
Qed.
Lemma rtriple_exists {A X} (Pre : RetentionWorld -> Prop) (Q : X -> Prop) (f : RetentionM A) Post :
  (forall x, Q x -> rtriple Pre f Post) -> rtriple (fun w => Pre w /\ exists x, Q x) f Post.
Proof. intros H w Hg [Hp (x & Hx)]. by apply (H x). Qed.
Lemma rtriple_fact {A} (Q : Prop) (Pre : RetentionWorld -> Prop) (f : RetentionM A) Post :
  (forall w, good w -> Pre w -> Q) -> (Q -> rtriple Pre f Post) -> rtriple Pre f Post.
Proof. intros HQ H w Hg Hp. apply H; [by eapply HQ|done|done]. Qed.
Lemma rtriple_known {A C} (a : A) Pre (k : A -> RetentionM C) Post : rtriple Pre (k a) Post -> rtriple Pre (rbind (rret a) k) Post.
Proof. intros H w Hg Hp. specialize (H w Hg Hp). unfold rbind, rret. by destruct (k a w) as [[t w'] r]. Qed.
Lemma rtriple_lift {A} (r : Result A) Pre : rtriple Pre (rlift r) (fun a w => r = Ok a /\ Pre w).
Proof. destruct r; [by apply rtriple_ret|apply rtriple_fail]. Qed.
Lemma rtriple_update {A} (f : RetentionWorld -> RetentionWorld * A) Pre (Post : A -> RetentionWorld -> Prop) :
  (forall w, good w -> Pre w -> good (f w).1 /\ Post (f w).2 (f w).1) -> rtriple Pre (update f) Post.
Proof.
  intros H w Hg Hp. destruct (H w Hg Hp) as [H1 H2]. unfold update. destruct (f w) as [w' a]. cbn in *.
  split_and!; [constructor; [apply H1|constructor]|done|done].
Qed.

(** What other threads cannot change. *)
Definition steady (Q : RetentionWorld -> Prop) : Prop := forall w w', good w -> pin_result w w' -> Q w -> Q w'.
Lemma yield_triple Q calls : steady Q -> rtriple Q (yield calls) (fun _ => Q).
Proof.
  intros HQ. induction calls as [|c calls IH]; cbn [yield]; [by apply rtriple_ret|].
  eapply rtriple_bind; [|intros []; exact IH]. apply rtriple_update. intros w Hg Hw. cbn.
  pose proof (run_pin_call_result c w Hg) as Hr. split; [by destruct Hr as (p & seen & _ & ? & _)|by eapply HQ].
Qed.
Lemma steady_and Q R : steady Q -> steady R -> steady (fun w => Q w /\ R w).
Proof. intros HQ HR w w' Hg Hr [??]. split; [by eapply HQ|by eapply HR]. Qed.
(** The manifest, the disk and the directory are not touched. *)
Lemma steady_shared (Q : PartitionManifest -> Disk -> SegmentsDirectory -> Prop) :
  steady (fun w => Q (world_manifest w) (world_disk w) (world_directory w)).
Proof. by intros w w' _ (p & seen & -> & _). Qed.
Lemma steady_closed id name : steady (fun w => lists_deleted id name (snap w) /\ ~ pinned (leases_ (world_pins w)) id).
Proof.
  intros w w' Hg Hr [Hd Hp]. split; [|by eapply pin_result_unpinned]. by destruct Hr as (p & seen & -> & _).
Qed.

(** *** Changes of the directory *)

Lemma unlink_good w id name : good w -> lists_deleted id name (snap w) -> ~ pinned (leases_ (world_pins w)) id ->
  good (set_directory w (remove_name name (world_directory w)) [Unlinked id name]).
Proof.
  intros [[[P1 P2 P3] S2 S3 S4 S5 S6 S7] K] Hd Hp. split; [|exact K]. split; try done; cbn.
  - split; try done. cbn. by rewrite outstanding_app, P1.
  - intros i n [Hin|Hin%list_elem_of_singleton]%elem_of_app; [by apply (S5 i n)|]. by injection Hin as -> ->.
  - apply ordered_snoc; [done| |done]. intros i n [= <- <-]. by rewrite <- P1.
  - intros n Hn. rewrite dom_delete_L. destruct (decide (n = name)) as [->|Hne].
    + right. exists id. apply elem_of_app. right. left.
    + destruct (S7 n Hn) as [?|(i & ?)]; [left; set_solver|right]. exists i. apply elem_of_app. by left.
Qed.

Lemma directory_good w d : good w -> dom (names (world_directory w)) ⊆ dom (names d) -> good (set_directory w d []).
Proof.
  intros [[[P1 P2 P3] S2 S3 S4 S5 S6 S7] K] Hsub. split; [|exact K]. split; try done; cbn; rewrite ?app_nil_r; try done.
  - split; try done. cbn. by rewrite app_nil_r.
  - intros n Hn. destruct (S7 n Hn) as [?|?]; [left; by apply Hsub|by right].
Qed.

(** ** The executor *)

(** A deleted segment nobody holds. *)
Definition released (id : Z) (es : list SegmentManifestEntry) (l : gmap Z SegmentPinLease) : Prop :=
  (exists e, e ∈ es /\ entry_segment_id e = id /\ entry_state e = kSegmentDeleted) /\ ~ pinned l id.

Section Executor.
(** Segments known to be released. *)
Context (U : list Z).

(** Between the calls: the entries, the directory, and the released segments. *)
Definition at_ (es : list SegmentManifestEntry) (D : SegmentsDirectory) (w : RetentionWorld) : Prop :=
  segments (snap w) = es /\ world_directory w = D /\ forall id, id ∈ U -> released id es (leases_ (world_pins w)).

Lemma steady_at es D : steady (at_ es D).
Proof.
  intros w w' Hg Hr (H1 & H2 & H3). assert (world_directory w' = world_directory w /\ snap w' = snap w) as [E1 E2]
    by (by destruct Hr as (p & seen & -> & _)).
  split_and!; [by rewrite E2|by rewrite E1|]. intros id Hid. destruct (H3 id Hid) as ((e & He & Hi & Hst) & Hp).
  split; [by exists e|]. destruct (entry_file es (limits_of (world_manifest w)) e) as (name & Hname & _); try done.
  { rewrite <- H1. apply Hg. } { rewrite <- H1. apply Hg. }
  eapply (pin_result_unpinned w w' id name); [done|done| |done]. exists e. by rewrite H1.
Qed.

Lemma hook_triple a point Q : rtriple Q (RunFaultHook a point) (fun _ => Q).
Proof. eapply rtriple_post; [|apply rtriple_lift]. by intros ? ? [_ ?]. Qed.

Lemma sync_triple es D answers path : rtriple (at_ es D) (SyncSegmentsDirectory answers path) (fun _ => at_ es (sync_names D)).
Proof.
  unfold SyncSegmentsDirectory. destruct (settle answers); [apply rtriple_fail|]. apply rtriple_update.
  intros w Hg (H1 & H2 & H3). cbn. split; [by apply directory_good|]. split_and!; cbn; [done|by rewrite H2|done].
Qed.

Lemma sync_removal_triple es D a path : rtriple (at_ es D) (sync_removal a path) (fun _ => at_ es (sync_names D)).
Proof.
  unfold sync_removal. eapply rtriple_bind; [apply yield_triple, steady_at|intros []].
  eapply rtriple_bind; [apply sync_triple|intros []]. eapply rtriple_bind; [apply hook_triple|intros []].
  apply yield_triple, steady_at.
Qed.

(** How the removal of one file ends. *)
Inductive unlinked_one (a : DeletionAnswers) (name : string) (D : SegmentsDirectory) : bool -> SegmentsDirectory -> Prop :=
| one_removed : names D !! name = Some RegularFile -> unlinked_one a name D false (sync_names (remove_name name D))
| one_missing : names D !! name = None \/ ENOENT ∈ stat_answers a \/ ENOENT ∈ unlink_answers a ->
    unlinked_one a name D true (sync_names D).

Lemma settle_in answers e : settle answers = Some e -> e ∈ answers.
Proof. induction answers as [|x l IH]; [done|]. intros H. destruct x; cbn in H; try (injection H as <-; left). right. by apply IH. Qed.

Lemma UnlinkSegment_triple root e a es D name : relative_path e = ["segments"; name] ->
  SafeSegmentFilename (relative_path e) = Ok name ->
  rtriple (fun w => at_ es D w /\ lists_deleted (entry_segment_id e) name (snap w) /\ ~ pinned (leases_ (world_pins w)) (entry_segment_id e))
    (UnlinkSegment root e a) (fun missing w => exists D', at_ es D' w /\ unlinked_one a name D missing D').
Proof.
  intros Hpath Hsafe. unfold UnlinkSegment. rewrite Hsafe. cbn [rlift]. apply rtriple_known. cbv zeta.
  set (closed := fun w => _). assert (steady closed) as Hst
    by (apply steady_and; [apply steady_at|apply steady_closed]).
  eapply rtriple_bind; [by apply yield_triple|intros []].
  assert (forall D1 b, unlinked_one a name D b (sync_names D1) -> rtriple (at_ es D1)
    (rbind (sync_removal a (append_path root "segments")) (fun _ => rret b))
    (fun missing w => exists D', at_ es D' w /\ unlinked_one a name D missing D')) as Hend.
  { intros D1 b Hone. eapply rtriple_bind; [apply sync_removal_triple|intros []]. apply rtriple_ret. eauto. }
  intros w0 Hg0 Hc0. pose proof Hc0 as [(Hes & HD & _) _]. unfold fstatat. rewrite HD.
  destruct (settle (stat_answers a)) as [x|] eqn:Hs.
  { destruct x; try by apply (rtriple_fail _ closed). apply (rtriple_at w0 (at_ es D)); [|done|apply Hc0].
    apply Hend. constructor. right. left. by apply settle_in. }
  destruct (names D !! name) as [[]|] eqn:Hn; try by apply (rtriple_fail _ closed).
  2: { apply (rtriple_at w0 (at_ es D)); [|done|apply Hc0]. apply Hend. constructor. by left. }
  apply (rtriple_at w0 closed); [|done|done]. eapply rtriple_bind; [apply hook_triple|intros []].
  eapply rtriple_bind; [by apply yield_triple|intros []]. clear w0 Hg0 Hc0 Hes HD.
  intros w1 Hg1 Hc1. pose proof Hc1 as [(Hes & HD & _) _]. unfold unlinkat. rewrite HD.
  destruct (settle (unlink_answers a)) as [x|] eqn:Hu.
  { destruct x; try by apply (rtriple_fail _ closed). apply (rtriple_at w1 (at_ es D)); [|done|apply Hc1].
    apply Hend. constructor. do 2 right. by apply settle_in. }
  rewrite Hn. apply (rtriple_at w1 closed); [|done|done].
  eapply rtriple_bind; [apply (rtriple_update _ _ (fun _ => at_ es (remove_name name D)))|intros []].
  - intros w Hg ((H1 & H2 & H3) & H4 & H5). cbn. split; [by apply unlink_good|]. split_and!; cbn; [done|by rewrite H2|done].
  - eapply rtriple_bind; [apply hook_triple|intros []]. apply Hend. by constructor.
Qed.

Lemma with_state_typed e st : entry_typed e -> segment_state_of (segment_state_value st) = st -> entry_typed (with_state e st).
Proof. intros [] Hst. by split. Qed.

Lemma mutate_state_triple es D e st a : e ∈ es -> entry_state e <> kSegmentDeleted -> segment_state_of (segment_state_value st) = st ->
  rtriple (at_ es D) (mutate (fun m => UpdateSegment m (with_state e st) a)) (fun _ => at_ (set_state (entry_segment_id e) st es) D).
Proof.
  intros He Hnd Hst w Hg (H1 & H2 & H3). destruct (mutate _ w) as [[t w'] r] eqn:E.
  pose proof Hg as [[S1 S2 S3 S4 S5 S6 S7] K]. rewrite H1 in *.
  assert (entry_typed (with_state e st)) as Ht by (apply with_state_typed; [|done]; by eapply Forall_elem in S3).
  destruct (UpdateSegment_keeps (world_manifest w) (kp_typed _ _ K) (with_state e st) a Ht) as (next & Hk & _).
  destruct (mutate_good _ w t w' r Hg (ex_intro _ next Hk) E) as (T1 & T2 & m & d & -> & t' & Hu).
  split_and!; [done|done|]. destruct r as [[]|]; [|done].
  apply UpdateSegment_effect in Hu as (i & found & Hf & Hs). cbn [at_ set_manifest world_manifest].
  rewrite H1 in *. cbn [with_state entry_segment_id] in Hf.
  assert (found = e) as ->.
  { apply find_segment_Some in Hf as [Hi Hid]. eapply same_id; [done| by eapply list_elem_of_lookup_2|done|done]. }
  unfold at_. cbn. rewrite Hs. erewrite insert_set_state by done. split_and!; [done|done|]. intros id Hid.
  destruct (H3 id Hid) as ((x & Hx & Hi & Hxd) & Hp). split; [|done]. exists x. split_and!; [|done|done].
  unfold set_state. apply list_elem_of_fmap. exists x. split; [|done]. rewrite decide_False; [done|].
  intros E'. assert (x = e) as -> by (by eapply same_id). done.
Qed.

Definition marks (id : Z) (es : list SegmentManifestEntry) (e : SegmentManifestEntry) (r : SegmentManifestEntry * bool) : Prop :=
  e ∈ es /\ entry_segment_id e = id /\ r.1 = with_state e kSegmentDeleted /\
  r.2 = negb (bool_decide (entry_state e = kSegmentDeleted)).

Lemma BeginDeletion_triple es D id a : rtriple (at_ es D) (BeginDeletion id a)
  (fun r w => at_ (set_state id kSegmentDeleted es) D w /\ exists e, marks id es e r).
Proof.
  intros w Hg Hat. pose proof Hat as (H1 & H2 & _). unfold BeginDeletion, FindSegment. rewrite H1.
  destruct (find_segment id es) as [[i e]|] eqn:Hf; [|by apply (rtriple_fail _ (at_ es D))].
  apply find_segment_Some in Hf as [Hi Hid]. pose proof (list_elem_of_lookup_2 _ _ _ Hi) as He.
  assert (entries_ok (limits_of (world_manifest w)) es) as Hok by (rewrite <- H1; apply Hg). unfold marks.
  case_bool_decide as Hd.
  { apply (rtriple_at w (at_ es D)); [|done|done]. apply rtriple_ret. intros w1 Hat1. cbn [fst snd].
    rewrite <- Hd at 1. erewrite set_state_id by done. split; [done|]. exists e. rewrite bool_decide_eq_true_2 by done.
    rewrite <- Hd, entry_state_same. done. }
  destruct (IsRetentionEligible (entry_state e)) eqn:Hel; [|by apply (rtriple_fail _ (at_ es D))]. cbn [negb].
  apply (rtriple_at w (at_ es D)); [|done|done]. subst id.
  assert (forall es1 e1, e1 ∈ es1 -> entry_state e1 <> kSegmentDeleted -> entry_segment_id e1 = entry_segment_id e -> with_state e1 kSegmentDeleted = with_state e kSegmentDeleted ->
    set_state (entry_segment_id e) kSegmentDeleted es1 = set_state (entry_segment_id e) kSegmentDeleted es ->
    rtriple (at_ es1 D) (rbind (mutate (fun m => UpdateSegment m (with_state e kSegmentDeleted) (delete_write a)))
      (fun _ => rret (with_state e kSegmentDeleted, true)))
     (fun r w => at_ (set_state (entry_segment_id e) kSegmentDeleted es) D w /\
        exists e0, e0 ∈ es /\ entry_segment_id e0 = entry_segment_id e /\ r.1 = with_state e0 kSegmentDeleted /\
          r.2 = negb (bool_decide (entry_state e0 = kSegmentDeleted)))) as Hlast.
  { intros es1 e1 Hin Hnd1 Hid1 Hw Hset. rewrite <- Hset, <- Hw, <- Hid1.
    eapply rtriple_bind; [by apply mutate_state_triple|intros []]. apply rtriple_ret. intros w1 Hat1.
    split; [done|]. exists e. rewrite bool_decide_eq_false_2 by done. split_and!; done. }
  case_bool_decide as Hsealed.
  - eapply rtriple_bind; [apply (mutate_state_triple es D e kSegmentIndexed); done|intros []].
    apply (Hlast _ (with_state e kSegmentIndexed)); [by apply set_state_elem|done|done|done|apply set_state_twice].
  - apply rtriple_known. by apply (Hlast es e).
Qed.

Definition marked_after (e : SegmentManifestEntry) (r : RetentionExecutionReport) : list Z :=
  if bool_decide (entry_state e = kSegmentDeleted) then marked_deleted r else marked_deleted r ++ [entry_segment_id e].

(** What the executor does with one segment, to the report and to the directory. *)
Inductive executed_one (a : DeletionAnswers) (e : SegmentManifestEntry) (name : string) (D : SegmentsDirectory)
    (r : RetentionExecutionReport) : RetentionExecutionReport -> SegmentsDirectory -> Prop :=
| executed_pending : entry_segment_id e ∉ U ->
    executed_one a e name D r
      (mkReport (marked_after e r) (pending_pins r ++ [entry_segment_id e]) (unlinked r) (already_missing r)) D
| executed_unlinked missing D' : unlinked_one a name D missing D' ->
    executed_one a e name D r
      (if missing then mkReport (marked_after e r) (pending_pins r) (unlinked r) (already_missing r ++ [entry_segment_id e])
       else mkReport (marked_after e r) (pending_pins r) (unlinked r ++ [entry_segment_id e]) (already_missing r)) D'.

Lemma no_pins_counted p id now : (ActivePinCount p id now).2 = 0 <-> ~ pinned (leases_ (ActivePinCount p id now).1) id.
Proof.
  unfold ActivePinCount. cbn [fst snd]. rewrite <- Nat2Z.inj_0. rewrite Nat2Z.inj_iff, map_size_empty_iff, map_empty. split.
  - intros H (k & x & Hk & Hx). specialize (H k). rewrite map_lookup_filter_None in H. destruct H as [H|H]; [congruence|].
    by apply (H x Hk).
  - intros H k. apply map_lookup_filter_None. right. intros x Hk Hx. apply H. by exists k, x.
Qed.

Lemma count_triple es D id now : rtriple (at_ es D) (update (ActivePins id now))
  (fun count w => at_ es D w /\ (count = 0 -> ~ pinned (leases_ (world_pins w)) id) /\ (count <> 0 -> id ∉ U)).
Proof.
  apply rtriple_update. intros w Hg Hat. pose proof (pin_result_clock w now Hg) as Hr. pose proof (clock_good w now Hg) as Hgc.
  unfold ActivePins. pose proof (no_pins_counted (world_pins w) id now) as Hc.
  destruct (ActivePinCount (world_pins w) id now) as [p n] eqn:E.
  assert (p = (PurgeExpiredLocked (world_pins w) now).1) as -> by (unfold ActivePinCount in E; by injection E).
  cbn [fst snd] in *. split; [done|]. split_and!; [exact (steady_at es D w _ Hg Hr Hat)|exact (proj1 Hc)|].
  intros Hn Hid. apply Hn, Hc. destruct Hat as (_ & _ & H3). destruct (H3 id Hid) as [_ Hp]. intros Hx. apply Hp. exact (pinned_filter now _ id Hx).
Qed.

Lemma execute_id_triple root id a r es D : rtriple (at_ es D) (execute_id root id a r)
  (fun r' w => exists e name D', e ∈ es /\ entry_segment_id e = id /\ relative_path e = ["segments"; name] /\
     executed_one a e name D r r' D' /\ at_ (set_state id kSegmentDeleted es) D' w).
Proof.
  unfold execute_id. eapply rtriple_bind; [apply yield_triple, steady_at|intros []].
  eapply rtriple_bind; [apply BeginDeletion_triple|intros [x marked]]. apply rtriple_exists. intros e (He & Hid & Hx & Hm).
  cbn [fst snd] in *. subst x. cbv zeta.
  assert ((if marked then marked_deleted r ++ [id] else marked_deleted r) = marked_after e r) as ->.
  { unfold marked_after. rewrite Hm, Hid. by case_bool_decide. }
  eapply rtriple_bind; [apply hook_triple|intros []]. eapply rtriple_bind; [apply yield_triple, steady_at|intros []].
  eapply rtriple_bind; [apply count_triple|intros count].
  apply rtriple_fact with (Q := exists name, relative_path e = ["segments"; name] /\ SafeSegmentFilename (relative_path e) = Ok name).
  { intros w Hg ((H1 & _) & _). eapply (entry_file (segments (snap w)) _ (with_state e kSegmentDeleted)); [apply Hg|apply Hg|].
    rewrite H1. by apply set_state_elem. }
  intros (name & Hp & Hsafe). subst id. destruct (Z.eqb_spec count 0) as [->|Hc]; cbn [negb].
  - eapply rtriple_bind; [eapply rtriple_pre; [|by apply (UnlinkSegment_triple root (with_state e kSegmentDeleted) a)]|intros missing].
    + intros w Hg (Hat & Hn & _). split_and!; [exact Hat| |by apply Hn]. exists (with_state e kSegmentDeleted).
      destruct Hat as (-> & _). split_and!; try done. by apply set_state_elem.
    + apply rtriple_ret. intros w (D' & Hat & Hone). exists e, name, D'. split_and!; try done. by constructor.
  - apply rtriple_ret. intros w (Hat & _ & Hu). exists e, name, D. split_and!; try done. constructor. by apply Hu.
Qed.

(** The whole run. *)
Inductive executed : list Z -> list DeletionAnswers -> list SegmentManifestEntry -> SegmentsDirectory ->
    RetentionExecutionReport -> list SegmentManifestEntry -> SegmentsDirectory -> RetentionExecutionReport -> Prop :=
| executed_nil answers es D r : executed [] answers es D r es D r
| executed_cons id ids answers es D r e name D1 r1 es' D' r' :
    e ∈ es -> entry_segment_id e = id -> relative_path e = ["segments"; name] ->
    executed_one (default (smooth_deletion 0) (head answers)) e name D r r1 D1 ->
    executed ids (tail answers) (set_state id kSegmentDeleted es) D1 r1 es' D' r' ->
    executed (id :: ids) answers es D r es' D' r'.

Lemma execute_loop_triple root ids : forall answers r es D,
  rtriple (at_ es D) (execute_loop root ids answers r)
    (fun r' w => exists es' D', executed ids answers es D r es' D' r' /\ at_ es' D' w).
Proof.
  induction ids as [|id ids IH]; intros answers r es D; cbn [execute_loop].
  - apply rtriple_ret. intros w Hat. exists es, D. split; [constructor|done].
  - eapply rtriple_bind; [apply execute_id_triple|intros r1]. intros w Hg (e & name & D1 & He & Hid & Hp & Hone & Hat).
    pose proof (IH (tail answers) r1 (set_state id kSegmentDeleted es) D1 w Hg Hat) as H.
    destruct (execute_loop root ids (tail answers) r1 w) as [[t w'] [r'|]]; [|done].
    destruct H as (H1 & H2 & es' & D' & H3 & H4). split_and!; [done|done|]. exists es', D'. split; [|done].
    by eapply executed_cons.
Qed.

Lemma check_ids_distinct ids : forall unique, check_ids ids unique = Ok tt -> NoDup ids /\ Forall (fun id => id ∉ unique) ids.
Proof.
  induction ids as [|id ids IH]; intros unique H; [split; constructor|]. cbn [check_ids] in H. step_if. bool_to_prop.
  apply IH in H as [Hn Hf]. rewrite Forall_elem in Hf. split; constructor; try done.
  - intros Hin. specialize (Hf id Hin). set_solver.
  - apply Forall_elem. intros x Hx. specialize (Hf x Hx). set_solver.
Qed.

Lemma ExecuteIds_triple root ids answers es D : rtriple (at_ es D) (ExecuteIds root ids answers)
  (fun r w => NoDup ids /\ exists es' D', executed ids answers es D (mkReport [] [] [] []) es' D' r /\ at_ es' D' w).
Proof.
  unfold ExecuteIds. destruct (check_ids ids ∅) as [[]|e] eqn:Hc; cbn [rlift].
  - apply rtriple_known. apply check_ids_distinct in Hc as [Hnd _]. eapply rtriple_post; [|apply execute_loop_triple]. done.
  - intros w Hg Hat. by apply (rtriple_fail e (at_ es D)).
Qed.
End Executor.

(** ** What a run leaves *)

Definition mark_all (ids : list Z) (es : list SegmentManifestEntry) : list SegmentManifestEntry :=
  map (fun e => if decide (entry_segment_id e ∈ ids) then with_state e kSegmentDeleted else e) es.

Lemma executed_entries U ids answers es D r es' D' r' : executed U ids answers es D r es' D' r' -> es' = mark_all ids es.
Proof.
  induction 1 as [answers es D r|id ids answers es D r e name D1 r1 es' D' r' He Hid Hp Hone _ IH].
  - unfold mark_all. rewrite <- (List.map_id es) at 1. apply List.map_ext. intros x. rewrite decide_False; [done|apply not_elem_of_nil].
  - rewrite IH. unfold mark_all, set_state. rewrite List.map_map. apply List.map_ext. intros x.
    destruct (decide (entry_segment_id x = id)) as [Hx|Hx]; cbn [with_state entry_segment_id].
    + rewrite (decide_True (P := entry_segment_id x ∈ id :: ids)) by (rewrite Hx; left). by case_decide.
    + assert (entry_segment_id x ∈ id :: ids <-> entry_segment_id x ∈ ids) as Hiff by (rewrite elem_of_cons; tauto).
      repeat case_decide; tauto || done.
Qed.

(** The name is not in the directory, and no crash brings it back. *)
Definition gone (name : string) (D : SegmentsDirectory) : Prop := (name ∉ dom (names D)) /\ (name ∉ unsynced D).

Lemma unlinked_one_gone a name other D missing D' : unlinked_one a other D missing D' -> gone name D -> gone name D'.
Proof.
  intros H [H1 H2]. unfold gone. destruct H; cbn; (split; [|set_solver]); [|done]. rewrite dom_delete_L. set_solver.
Qed.

Lemma executed_one_gone U a e name other D r r' D' : executed_one U a e other D r r' D' -> gone name D -> gone name D'.
Proof. intros [H|m D1 H] Hg; [done|]. by eapply unlinked_one_gone. Qed.

Lemma executed_gone U ids answers es D r es' D' r' name : executed U ids answers es D r es' D' r' -> gone name D -> gone name D'.
Proof. induction 1; [done|]. intros Hg. eauto using executed_one_gone. Qed.

(** The operating system does not claim that a file is missing which is there. *)
Definition honest (a : DeletionAnswers) : Prop := (ENOENT ∉ stat_answers a) /\ (ENOENT ∉ unlink_answers a).

Lemma executed_one_removes U a e name D r r' D' : executed_one U a e name D r r' D' -> honest a ->
  entry_segment_id e ∈ pending_pins r' \/ gone name D'.
Proof.
  intros [H|m D1 [H|H]] [Ha1 Ha2].
  - left. apply elem_of_app. right. left.
  - right. split; cbn; [rewrite dom_delete_L|]; set_solver.
  - right. split; cbn; [|set_solver]. destruct H as [H|[H|H]]; [|done..]. by apply not_elem_of_dom.
Qed.

Lemma executed_pending_grows U ids answers es D r es' D' r' id : executed U ids answers es D r es' D' r' ->
  id ∈ pending_pins r -> id ∈ pending_pins r'.
Proof.
  induction 1 as [|? ? ? ? ? ? ? ? ? ? ? ? ? He Hid Hp Hone _ IH]; [done|]. intros Hin. apply IH.
  destruct Hone as [Hu|[] D2 Hu]; cbn; try done. apply elem_of_app. by left.
Qed.

(** After a run every file of its segments is gone, unless the segment is reported as pinned. *)
Lemma executed_removes U ids answers es D r es' D' r' : executed U ids answers es D r es' D' r' -> Forall honest answers ->
  forall e name, e ∈ es -> entry_segment_id e ∈ ids -> relative_path e = ["segments"; name] ->
  NoDup (map entry_segment_id es) -> entry_segment_id e ∈ pending_pins r' \/ gone name D'.
Proof.
  induction 1 as [|id ids answers es D r x other D1 r1 es' D' r' Hx Hid Hp Hone Hrest IH]; intros Ha e name He Hin Hpath Hnd.
  { by apply not_elem_of_nil in Hin. }
  assert (honest (default (smooth_deletion 0) (head answers)) /\ Forall honest (tail answers)) as [Ha1 Ha2].
  { destruct Ha; cbn; [|done]. split; [|constructor]. by split; apply not_elem_of_nil. }
  destruct (decide (entry_segment_id e = id)) as [E|E].
  - assert (x = e) as ->.
    { eapply (distinct_elem entry_segment_id); [exact Hnd|done|done|congruence]. }
    assert (other = name) as -> by congruence.
    destruct (executed_one_removes _ _ _ _ _ _ _ _ Hone Ha1) as [H|H]; [left|right].
    + by eapply executed_pending_grows.
    + by eapply executed_gone.
  - apply elem_of_cons in Hin as [?|Hin]; [done|]. apply (IH Ha2 e name); try done.
    + unfold set_state. apply list_elem_of_fmap. exists e. by rewrite decide_False.
    + unfold set_state. rewrite List.map_map. erewrite List.map_ext; [exact Hnd|]. intros y. by case_decide.
Qed.

Definition undeleted (id : Z) (es : list SegmentManifestEntry) : Prop :=
  exists e, e ∈ es /\ entry_segment_id e = id /\ entry_state e <> kSegmentDeleted.

(** The report accounts for every segment once. *)
Record accounts (U ids : list Z) (es : list SegmentManifestEntry) (r r' : RetentionExecutionReport) (pend rem miss : list Z) : Prop := {
  ac_pending : pending_pins r' = pending_pins r ++ pend;
  ac_unlinked : unlinked r' = unlinked r ++ rem;
  ac_missing : already_missing r' = already_missing r ++ miss;
  ac_once : pend ++ rem ++ miss ≡ₚ ids;
  ac_released : Forall (fun id => id ∉ U) pend;
  ac_marked : forall id, id ∈ marked_deleted r' <->
    id ∈ marked_deleted r \/ (id ∈ ids /\ undeleted id es)
}.

Lemma undeleted_others id i es : i <> id -> undeleted i (set_state id kSegmentDeleted es) <-> undeleted i es.
Proof.
  intros Hne. unfold undeleted, set_state. split.
  - intros (x & (y & -> & Hy)%list_elem_of_fmap & Hi & Hst). revert Hi Hst. case_decide; cbn; intros Hi Hst; [congruence|eauto].
  - intros (x & Hx & Hi & Hst). exists x. split_and!; [|done|done]. apply list_elem_of_fmap. exists x. split; [|done].
    rewrite decide_False; [done|congruence].
Qed.

Lemma marked_after_elem es e r id : NoDup (map entry_segment_id es) -> e ∈ es -> id ∈ marked_after e r <->
  id ∈ marked_deleted r \/ id = entry_segment_id e /\ undeleted id es.
Proof.
  intros Hnd He. unfold marked_after. case_bool_decide as Hd.
  - split; [by left|]. intros [?|(-> & x & Hx & Hi & Hst)]; [done|].
    assert (x = e) as -> by (by eapply (distinct_elem entry_segment_id)). done.
  - rewrite elem_of_app, list_elem_of_singleton. assert (undeleted (entry_segment_id e) es) as Hu by (by exists e).
    split; [intros [?| ->]; tauto|tauto].
Qed.

Lemma executed_report U ids answers es D r es' D' r' : executed U ids answers es D r es' D' r' ->
  NoDup (map entry_segment_id es) -> NoDup ids -> exists pend rem miss, accounts U ids es r r' pend rem miss.
Proof.
  induction 1 as [answers es D r|id ids answers es D r e name D1 r1 es' D' r' He Hid Hp Hone _ IH]; intros Hes Hnd.
  { exists [], [], []. split; rewrite ?app_nil_r; [done|done|done|done|constructor|]. intros i. rewrite elem_of_nil. tauto. }
  inv Hnd. destruct IH as (pend & rem & miss & [A1 A2 A3 A4 A5 A6]); [|done|].
  { unfold set_state. rewrite List.map_map. erewrite List.map_ext; [exact Hes|]. intros y. by case_decide. }
  assert (forall i, i ∈ marked_deleted r' <-> i ∈ marked_deleted r \/ i ∈ entry_segment_id e :: ids /\
    undeleted i es) as Hm.
  { intros i. rewrite A6. assert (marked_deleted r1 = marked_after e r) as -> by (by destruct Hone as [?|[] ? ?]).
    rewrite (marked_after_elem es), elem_of_cons by done. pose proof (undeleted_others (entry_segment_id e) i es) as Ho.
    destruct (decide (i = entry_segment_id e)) as [->|Hne]; [|specialize (Ho Hne)]; tauto. }
  destruct Hone as [Hu|missing D2 Hu]; [|destruct missing]; cbn in A1, A2, A3.
  - exists (entry_segment_id e :: pend), rem, miss. split; rewrite ?A1, ?A2, ?A3, <- ?app_assoc; try done; [|by constructor].
    cbn. by rewrite A4.
  - exists pend, rem, (entry_segment_id e :: miss). split; rewrite ?A1, ?A2, ?A3, <- ?app_assoc; try done.
    rewrite <- A4, !app_assoc. symmetry. apply Permutation_middle.
  - exists pend, (entry_segment_id e :: rem), miss. split; rewrite ?A1, ?A2, ?A3, <- ?app_assoc; try done.
    rewrite <- A4. symmetry. apply (Permutation_middle pend (rem ++ miss)).
Qed.

(** ** Runs that end well *)

Definition rtotal {A} (Pre : RetentionWorld -> Prop) (f : RetentionM A) : Prop :=
  forall w, good w -> Pre w -> is_ok (f w).2 = true.

Lemma rtotal_bind {A C} Pre Mid (f : RetentionM A) (k : A -> RetentionM C) :
  rtriple Pre f Mid -> rtotal Pre f -> (forall a, rtotal (Mid a) (k a)) -> rtotal Pre (rbind f k).
Proof.
  intros Ht Hf Hk w Hg Hp. specialize (Ht w Hg Hp). specialize (Hf w Hg Hp). unfold rbind.
  destruct (f w) as [[t w'] [a|e]]; [|done]. destruct Ht as (_ & H1 & H2). specialize (Hk a w' H1 H2).
  by destruct (k a w') as [[t' w''] r].
Qed.
Lemma rtotal_at {A} w (Pre : RetentionWorld -> Prop) (f : RetentionM A) : rtotal Pre f -> good w -> Pre w -> is_ok (f w).2 = true.
Proof. intros H. apply H. Qed.
Lemma rtotal_ret {A} (a : A) Pre : rtotal Pre (rret a).
Proof. by intros w _ _. Qed.
Lemma rtotal_update {A} (f : RetentionWorld -> RetentionWorld * A) Pre : rtotal Pre (update f).
Proof. intros w _ _. unfold update. by destruct (f w). Qed.
Lemma rtotal_known {A C} (a : A) Pre (k : A -> RetentionM C) : rtotal Pre (k a) -> rtotal Pre (rbind (rret a) k).
Proof. intros H w Hg Hp. specialize (H w Hg Hp). unfold rbind, rret. by destruct (k a w) as [[t w'] r]. Qed.
Lemma rtotal_pre {A} (Pre Pre' : RetentionWorld -> Prop) (f : RetentionM A) :
  (forall w, good w -> Pre w -> Pre' w) -> rtotal Pre' f -> rtotal Pre f.
Proof. intros H Hf w Hg Hp. apply Hf; [done|by apply H]. Qed.
Lemma yield_total Q calls : steady Q -> rtotal Q (yield calls).
Proof.
  intros HQ. induction calls as [|c calls IH]; cbn [yield]; [apply rtotal_ret|].
  eapply rtotal_bind; [|apply rtotal_update|intros []; exact IH]. apply rtriple_update. intros w Hg Hw. cbn.
  pose proof (run_pin_call_result c w Hg) as Hr. split; [by destruct Hr as (p & seen & _ & ? & _)|by eapply HQ].
Qed.

(** Interrupted calls at most, and a hook that does not object. *)
Record easy (a : DeletionAnswers) : Prop := {
  easy_hook : match hook_answer a with None => True | Some hook => forall point, hook point = Ok tt end;
  easy_stat : settle (stat_answers a) = None;
  easy_unlink : settle (unlink_answers a) = None;
  easy_fsync : settle (fsync_answers a) = None
}.
Lemma smooth_easy now : easy (smooth_deletion now).
Proof. by split. Qed.
Lemma settle_honest answers : settle answers = None -> ENOENT ∉ answers.
Proof.
  induction answers as [|x l IH]; intros H; [apply not_elem_of_nil|]. destruct x; try done. cbn in H. specialize (IH H).
  by intros [?|?]%elem_of_cons.
Qed.
Lemma easy_honest a : easy a -> honest a.
Proof. intros [_ H1 H2 _]. split; by apply settle_honest. Qed.

Lemma hook_total a point Q : easy a -> rtotal Q (RunFaultHook a point).
Proof. intros [Ha _ _ _] w _ _. unfold RunFaultHook. destruct (hook_answer a) as [h|]; [by rewrite Ha|done]. Qed.

Section Total.
Context (U : list Z).
Abbreviation at_ := (at_ U).

Lemma sync_removal_total es D a path : easy a -> rtotal (at_ es D) (sync_removal a path).
Proof.
  intros Ha. unfold sync_removal. eapply rtotal_bind; [apply yield_triple, steady_at|apply yield_total, steady_at|intros []].
  eapply rtotal_bind; [apply sync_triple| |intros []].
  { unfold SyncSegmentsDirectory. rewrite (easy_fsync _ Ha). apply rtotal_update. }
  eapply rtotal_bind; [apply hook_triple|by apply hook_total|intros []]. apply yield_total, steady_at.
Qed.

(** A file the executor is willing to remove, or none. *)
Definition removable (name : string) (D : SegmentsDirectory) : Prop := names D !! name = None \/ names D !! name = Some RegularFile.

Lemma UnlinkSegment_total root e a es D name : easy a -> removable name D -> relative_path e = ["segments"; name] ->
  SafeSegmentFilename (relative_path e) = Ok name ->
  rtotal (fun w => at_ es D w /\ lists_deleted (entry_segment_id e) name (snap w) /\ ~ pinned (leases_ (world_pins w)) (entry_segment_id e))
    (UnlinkSegment root e a).
Proof.
  intros Ha Hrm Hpath Hsafe. unfold UnlinkSegment. rewrite Hsafe. cbn [rlift]. apply rtotal_known. cbv zeta.
  set (closed := fun w => _). assert (steady closed) as Hst by (apply steady_and; [apply steady_at|apply steady_closed]).
  eapply rtotal_bind; [by apply yield_triple|by apply yield_total|intros []].
  assert (forall D1 (b : bool), rtotal (at_ es D1) (rbind (sync_removal a (append_path root "segments")) (fun _ => rret b))) as Hend.
  { intros D1 b. eapply rtotal_bind; [apply sync_removal_triple|by apply sync_removal_total|intros []; apply rtotal_ret]. }
  intros w0 Hg0 Hc0. pose proof Hc0 as [(Hes & HD & _) _]. unfold fstatat. rewrite (easy_stat _ Ha), HD.
  destruct Hrm as [Hn|Hn]; rewrite Hn; [apply (Hend D true w0 Hg0), Hc0|].
  apply (rtotal_at w0 closed); [|done|done]. eapply rtotal_bind; [apply hook_triple|by apply hook_total|intros []].
  eapply rtotal_bind; [by apply yield_triple|by apply yield_total|intros []]. clear w0 Hg0 Hc0 Hes HD.
  intros w1 Hg1 Hc1. pose proof Hc1 as [(Hes & HD & _) _]. unfold unlinkat. rewrite (easy_unlink _ Ha), HD, Hn.
  apply (rtotal_at w1 closed); [|done|done].
  eapply rtotal_bind; [apply (rtriple_update _ _ (fun _ => at_ es (remove_name name D)))|apply rtotal_update|intros []].
  - intros w Hg ((H1 & H2 & H3) & H4 & H5). cbn. split; [by apply unlink_good|]. split_and!; cbn; [done|by rewrite H2|done].
  - eapply rtotal_bind; [apply hook_triple|by apply hook_total|intros []]. apply Hend.
Qed.

Lemma execute_id_total root a r es D e name : easy a -> removable name D -> e ∈ es -> entry_state e = kSegmentDeleted ->
  relative_path e = ["segments"; name] -> rtotal (at_ es D) (execute_id root (entry_segment_id e) a r).
Proof.
  intros Ha Hrm He Hst Hpath. unfold execute_id.
  eapply rtotal_bind; [apply yield_triple, steady_at|apply yield_total, steady_at|intros []].
  eapply rtotal_bind; [apply BeginDeletion_triple| |intros [x marked]].
  { intros w Hg Hat. unfold BeginDeletion, FindSegment. destruct Hat as (H1 & _).
    destruct (find_listed _ _ (sf_valid _ (gd_safe _ Hg)) e) as (i & Hi); [by rewrite H1|]. rewrite Hi.
    by rewrite bool_decide_eq_true_2. }
  intros w0 Hg0 [Hat0 (e' & He' & Hid & Hx & _)]. cbn [fst snd] in *. subst x. cbv zeta.
  assert (entries_ok (limits_of (world_manifest w0)) (set_state (entry_segment_id e) kSegmentDeleted es)) as Hok.
  { destruct Hat0 as (<- & _). apply Hg0. }
  assert (e' = e) as ->.
  { eapply (distinct_elem entry_segment_id es); [|done|done|done]. pose proof (eo_ids _ _ Hok) as Hnd. unfold set_state in Hnd.
    rewrite List.map_map in Hnd. erewrite List.map_ext in Hnd; [exact Hnd|]. intros y. by case_decide. }
  destruct (entry_file _ _ (with_state e kSegmentDeleted) Hok) as (name' & Hp' & Hsafe).
  { destruct Hat0 as (<- & _). apply Hg0. } { by apply set_state_elem. }
  cbn [with_state relative_path] in Hp', Hsafe. assert (name' = name) as -> by congruence.
  apply (rtotal_at w0 (at_ (set_state (entry_segment_id e) kSegmentDeleted es) D)); [|done|done].
  eapply rtotal_bind; [apply hook_triple|by apply hook_total|intros []].
  eapply rtotal_bind; [apply yield_triple, steady_at|apply yield_total, steady_at|intros []].
  eapply rtotal_bind; [apply count_triple|apply rtotal_update|intros count].
  destruct (Z.eqb_spec count 0) as [->|Hc]; cbn [negb]; [|apply rtotal_ret].
  assert (forall w, good w -> at_ (set_state (entry_segment_id e) kSegmentDeleted es) D w /\
      (0 = 0 -> ~ pinned (leases_ (world_pins w)) (entry_segment_id e)) /\ (0 <> 0 -> entry_segment_id e ∉ U) ->
    at_ (set_state (entry_segment_id e) kSegmentDeleted es) D w /\
    lists_deleted (entry_segment_id (with_state e kSegmentDeleted)) name (snap w) /\
    ~ pinned (leases_ (world_pins w)) (entry_segment_id (with_state e kSegmentDeleted))) as Hpre.
  { intros w Hg (Hat & Hn & _). split_and!; [exact Hat| |by apply Hn]. exists (with_state e kSegmentDeleted).
    destruct Hat as (-> & _). split_and!; try done. by apply set_state_elem. }
  eapply rtotal_bind; [|eapply rtotal_pre; [exact Hpre|by eapply UnlinkSegment_total]|intros []; apply rtotal_ret].
  eapply rtriple_pre; [exact Hpre|by apply UnlinkSegment_triple].
Qed.

Lemma removable_one a name other D missing D' : unlinked_one a other D missing D' -> removable name D -> removable name D'.
Proof.
  unfold removable. intros [H|H] Hr; cbn; [|done]. destruct (decide (name = other)) as [->|Hne].
  - left. apply lookup_delete_eq.
  - by rewrite lookup_delete_ne.
Qed.

Lemma execute_loop_total root ids : forall answers r es D, Forall easy answers ->
  (forall id, id ∈ ids -> exists e name, e ∈ es /\ entry_segment_id e = id /\ entry_state e = kSegmentDeleted /\
     relative_path e = ["segments"; name] /\ removable name D) ->
  rtotal (at_ es D) (execute_loop root ids answers r).
Proof.
  induction ids as [|id ids IH]; intros answers r es D Ha Hids; cbn [execute_loop]; [apply rtotal_ret|].
  assert (easy (default (smooth_deletion 0) (head answers)) /\ Forall easy (tail answers)) as [Ha1 Ha2]
    by (destruct Ha; cbn; [split; [apply smooth_easy|constructor]|done]).
  eapply rtotal_bind; [apply execute_id_triple| |intros r1].
  { destruct (Hids id) as (e & name & He & <- & Hst & Hp & Hr); [left|]. by eapply execute_id_total. }
  intros w Hg (e & name & D1 & He & Hid & Hp & Hone & Hat).
  apply (rtotal_at w (at_ (set_state id kSegmentDeleted es) D1)); [|done|done]. apply IH; [done|].
  intros i Hi. destruct (Hids i) as (x & other & Hx & Hxi & Hst & Hxp & Hr); [by right|].
  exists x, other. split_and!; try done.
  - unfold set_state. apply list_elem_of_fmap. exists x. split; [|done]. case_decide; [|done]. by rewrite <- Hst, entry_state_same.
  - destruct Hone as [|missing D2 Hone]; [done|]. by eapply removable_one.
Qed.
End Total.
End Invariant.
