(* ===== verification/RetentionStory.v ===== *)
(** * Histories of retention

    Any sequence of pin calls, manifest calls, executions of plans and recoveries, with other threads
    pinning and releasing in the middle of an execution and with any answers of the system.
    The theorems speak of every state such a history goes through. *)
From S2P Require Import Prelude SourceIdentity Bytes Crc32c LittleEndian TopicPartition ManifestFormat ManifestCodec DurableFile PartitionManifest ManifestSafety RetentionPlanner Retention RetentionSafety.

(** ** Histories *)

Inductive RetentionStep : Set :=
| StepPin (c : PinCall)
| StepManifest (c : ManifestCall) (a : ManifestWriteAnswers)
| StepExecute (root : string) (plan : RetentionPlan) (answers : list DeletionAnswers)
| StepRecover (root : string) (answers : list DeletionAnswers)
| StepFile (name : string).

Definition step_typed (s : RetentionStep) : Prop :=
  match s with StepManifest c _ => manifest_call_typed c | _ => True end.

Section Histories.
Context {P : Posix} {PL : PosixLaws P} {B : Crc32cBackend} {BL : Crc32cLaws B}.
Abbreviation limits_of m := (manifest_limits (manifest_options_ m)).
Abbreviation snap w := (snapshot_ (world_manifest w)).

(** A segment writer creates a file, whose name counts as durable at once (see [crash_lists]). *)
Definition create_file (name : string) (w : RetentionWorld) : RetentionWorld :=
  set_directory w (mkSegmentsDirectory (<[name := RegularFile]> (names (world_directory w))) (unsynced (world_directory w))) [].

Definition run_step (s : RetentionStep) (w : RetentionWorld) : list RetentionWorld * RetentionWorld :=
  match s with
  | StepPin c => ([run_pin_call c w], run_pin_call c w)
  | StepManifest c a => (mutate (fun m => run_manifest m c a) w).1
  | StepExecute root plan answers => (Execute root plan answers w).1
  | StepRecover root answers => (RecoverPendingDeletions root answers w).1
  | StepFile name => ([create_file name w], create_file name w)
  end.
Fixpoint run_history (steps : list RetentionStep) (w : RetentionWorld) : list RetentionWorld * RetentionWorld :=
  match steps with
  | [] => ([], w)
  | s :: rest =>
      let '(t, w') := run_step s w in
      let '(t', w'') := run_history rest w' in (t ++ t', w'')
  end.

(** A manifest that was created or opened, with a new pin manager. *)
Definition started (w : RetentionWorld) : Prop :=
  manifest_run (world_manifest w) (world_disk w) /\ journal w = [] /\
  exists o, world_pins w = new_pin_manager o.
Inductive reachable : RetentionWorld -> Prop :=
| reach w0 steps : started w0 -> Forall step_typed steps -> reachable (run_history steps w0).2.

Lemma started_good w : started w -> good (dom (names (world_directory w))) w.
Proof.
  intros (Hm & Hj & o & Hp). pose proof (manifest_run_kept _ _ Hm) as K. split; [|done]. split.
  - split; rewrite Hp, ?Hj; done.
  - apply valid_entries, K.
  - apply (st_entries _ (kp_typed _ _ K)).
  - by apply kept_reads.
  - rewrite Hj. by intros id name Hin%not_elem_of_nil.
  - rewrite Hj. intros j1 id name j2 E. by destruct j1.
  - intros name Hn. by left.
Qed.

Lemma good_rebase D0 w : good D0 w -> good (dom (names (world_directory w))) w.
Proof. intros [[S1 S2 S3 S4 S5 S6 S7] K]. split; [|done]. split; try done. intros name Hn. by left. Qed.

Lemma at_here w : at_ [] (segments (snap w)) (world_directory w) w.
Proof. split_and!; try done. by intros id Hin%not_elem_of_nil. Qed.

Lemma run_step_good D0 s w t w' : good D0 w -> step_typed s -> run_step s w = (t, w') -> Forall (safe D0) t /\ good D0 w'.
Proof.
  intros Hg Hs H. destruct s as [c|c a|root plan answers|root answers|name]; cbn [run_step] in H.
  - injection H as <- <-. destruct (run_pin_call_result D0 c w Hg) as (p & seen & _ & Hg' & _).
    split; [constructor; [apply Hg'|constructor]|done].
  - destruct (mutate _ w) as [[t1 w1] r] eqn:E. injection H as <- <-.
    assert (exists next, keeps (world_manifest w) next (run_manifest (world_manifest w) c a)) as Hk
      by (apply run_manifest_keeps; [apply (gd_kept _ _ Hg)|done]).
    by destruct (mutate_good D0 (fun m => run_manifest m c a) w t1 w1 r Hg Hk E) as (H1 & H2 & _).
  - pose proof (ExecuteIds_triple D0 [] root (map decision_segment_id (deletions plan)) answers _ _ w Hg (at_here w)) as Ht.
    unfold Execute in H. destruct (ExecuteIds _ _ _ w) as [[t1 w1] r]. injection H as <- <-. by destruct Ht as (? & ? & _).
  - pose proof (ExecuteIds_triple D0 [] root (deleted_ids (snap w)) answers _ _ w Hg (at_here w)) as Ht.
    unfold RecoverPendingDeletions in H. destruct (ExecuteIds _ _ _ w) as [[t1 w1] r]. injection H as <- <-. by destruct Ht as (? & ? & _).
  - injection H as <- <-. assert (good D0 (create_file name w)) as Hg'.
    { apply directory_good; [done|]. cbn. rewrite dom_insert_L. set_solver. }
    split; [constructor; [apply Hg'|constructor]|done].
Qed.

Lemma run_history_good D0 steps : forall w t w', good D0 w -> Forall step_typed steps -> run_history steps w = (t, w') ->
  Forall (safe D0) t /\ good D0 w'.
Proof.
  induction steps as [|s steps IH]; intros w t w' Hg Hs H; cbn [run_history] in H.
  { injection H as <- <-. split; [constructor|done]. }
  inv Hs. destruct (run_step s w) as [t1 w1] eqn:E1. destruct (run_history steps w1) as [t2 w2] eqn:E2. injection H as <- <-.
  destruct (run_step_good D0 s w t1 w1 Hg) as [H1' Hg1]; [done|done|].
  destruct (IH w1 t2 w2 Hg1) as [H2' Hg2]; [done|done|]. split; [by apply list.Forall_app|done].
Qed.

Lemma reachable_good w : reachable w -> good (dom (names (world_directory w))) w.
Proof.
  intros [w0 steps Hw0 Hs]. destruct (run_history steps w0) as [t w'] eqn:E.
  destruct (run_history_good _ steps w0 t w' (started_good w0 Hw0) Hs E) as [_ Hg]. by eapply good_rebase.
Qed.

(** Every state of a history from a reachable world. *)
Lemma history_safe w steps t w' x : reachable w -> Forall step_typed steps -> run_history steps w = (t, w') -> x ∈ w :: t ->
  safe (dom (names (world_directory w))) x.
Proof.
  intros Hr Hs H Hx. pose proof (reachable_good w Hr) as Hg. destruct (run_history_good _ steps w t w' Hg Hs H) as [Ht _].
  apply elem_of_cons in Hx as [->|Hx]; [apply Hg|]. by eapply Forall_elem in Ht.
Qed.
End Histories.

(** ** The claims *)

(** C8: a segment file is removed only when nobody can rely on it any more.  In every state of every history, with
    pins acquired, renewed and released by other threads in the middle of executions: the table of
    leases is exactly what callers were granted and have neither released nor let expire; when a file was
    removed no lease of its segment was outstanding, and none was granted or renewed afterwards; and the
    removed file is the file of a segment the manifest lists as deleted. *)
Theorem removed_only_unpinned (P : Posix) (PL : PosixLaws P) (B : Crc32cBackend) (BL : Crc32cLaws B) w steps t w' x :
  reachable w -> Forall step_typed steps -> run_history steps w = (t, w') -> x ∈ w :: t ->
  leases_ (world_pins x) = outstanding (journal x) /\
  forall j1 id name j2, journal x = j1 ++ Unlinked id name :: j2 ->
    ~ pinned (outstanding j1) id /\ (forall l, Granted l ∈ j2 -> lease_segment_id l <> id) /\
    lists_deleted id name (snapshot_ (world_manifest x)).
Proof.
  intros Hr Hs H Hx. destruct (history_safe w steps t w' x Hr Hs H Hx) as [[P1 _ _] _ _ _ S5 S6 _].
  split; [done|]. intros j1 id name j2 E. destruct (S6 j1 id name j2 E) as [H1 H2]. split_and!; [done|done|].
  apply S5. rewrite E. apply elem_of_app. right. left.
Qed.


(** C14: a finished execution is complete and durable.  Its report accounts for every segment of the plan exactly once;
    the manifest lists exactly the planned segments as deleted in addition to before; unless an earlier
    write has poisoned it, every manifest a crash can leave is that manifest, and in any case every one lists each
    planned segment as deleted; the file of every segment not reported as pinned is gone, and no crash brings it back,
    as long as the system does not call a file missing that is there ([honest]). *)
Theorem execution_is_complete (P : Posix) (PL : PosixLaws P) (B : Crc32cBackend) (BL : Crc32cLaws B) w root plan answers t w' r :
  reachable w -> Execute root plan answers w = (t, w', Ok r) -> Forall honest answers ->
  let ids := map decision_segment_id (deletions plan) in
  let es := segments (snapshot_ (world_manifest w)) in
  pending_pins r ++ unlinked r ++ already_missing r ≡ₚ ids /\
  (forall id, id ∈ marked_deleted r <-> id ∈ ids /\ undeleted id es) /\
  segments (snapshot_ (world_manifest w')) = mark_all ids es /\
  (poisoned_ (world_manifest w') = false ->
   reads_as (manifest_limits (manifest_options_ (world_manifest w'))) (fun s => s = snapshot_ (world_manifest w')) (world_disk w')) /\
  forall e, e ∈ es -> entry_segment_id e ∈ ids -> exists name, relative_path e = ["segments"; name] /\
    reads_as (manifest_limits (manifest_options_ (world_manifest w'))) (lists_deleted (entry_segment_id e) name) (world_disk w') /\
    (entry_segment_id e ∈ pending_pins r \/ forall left, crash_lists (world_directory w') left -> name ∉ left).
Proof.
  intros Hr H Ha ids es. pose proof (reachable_good w Hr) as Hg.
  pose proof (ExecuteIds_triple _ [] root ids answers es _ w Hg (at_here w)) as Ht. unfold Execute in H. fold ids in H.
  rewrite H in Ht. destruct Ht as (_ & Hg' & Hnd & es' & D' & Hex & Hes & HD & _).
  assert (NoDup (map entry_segment_id es)) as Hndes by apply (eo_ids _ _ (sf_valid _ _ (gd_safe _ _ Hg))).
  destruct (executed_report _ _ _ _ _ _ _ _ _ Hex Hndes Hnd) as (pend & rem & miss & [A1 A2 A3 A4 _ A6]).
  cbn in A1, A2, A3. split_and!.
  - by rewrite A1, A2, A3.
  - intros id. rewrite A6. cbn. rewrite elem_of_nil. tauto.
  - rewrite Hes. by eapply executed_entries.
  - intros Hp c Hc. destruct (kp_file _ _ (gd_kept _ _ Hg') c Hc) as (b & s & -> & Hb & [->|[Hp' _]]); [by eauto|congruence].
  - intros e He Hid. destruct (entry_file es _ e (sf_valid _ _ (gd_safe _ _ Hg)) (sf_typed _ _ (gd_safe _ _ Hg)) He) as (name & Hp & _).
    exists name. split_and!; [done| |].
    + assert (lists_deleted (entry_segment_id e) name (snapshot_ (world_manifest w'))) as Hd.
      { exists (with_state e kSegmentDeleted). split_and!; try done. rewrite Hes, (executed_entries _ _ _ _ _ _ _ _ _ Hex).
        unfold mark_all. apply list_elem_of_fmap. exists e. by rewrite decide_True. }
      intros c Hc. destruct (sf_file _ _ (gd_safe _ _ Hg') c Hc) as (b & s & -> & Hb & Hs). exists b, s. split_and!; [done|done|].
      destruct Hs as [->|Hs]; [done|by eapply lists_deleted_advances].
    + destruct (executed_removes _ _ _ _ _ _ _ _ _ Hex Ha e name He Hid Hp Hndes) as [?|[G1 G2]]; [by left|right].
      intros left [_ Hl] Hin. apply Hl in Hin. rewrite HD in Hin. set_solver.
Qed.

Lemma check_ids_ok ids : forall unique, NoDup ids -> Forall (fun id => id <> 0 /\ id ∉ unique) ids -> check_ids ids unique = Ok tt.
Proof.
  induction ids as [|id ids IH]; intros unique Hnd Hf; [done|]. inv Hnd. apply list.Forall_cons in Hf as [[Hz Hu] Hf]. cbn [check_ids].
  rewrite fail_if_false by (apply orb_false_iff; split; [by apply Z.eqb_neq|by apply bool_decide_eq_false_2]).
  apply IH; [done|]. rewrite Forall_elem in Hf |- *. intros x Hx. destruct (Hf x Hx). split; [done|]. set_solver.
Qed.

Lemma deleted_ids_elem s id : id ∈ deleted_ids s <-> exists e, e ∈ segments s /\ entry_segment_id e = id /\ entry_state e = kSegmentDeleted.
Proof.
  unfold deleted_ids. rewrite list_elem_of_fmap. setoid_rewrite list_elem_of_filter. naive_solver.
Qed.

Lemma deleted_ids_distinct l s : entries_ok l (segments s) -> NoDup (deleted_ids s) /\ Forall (fun id => id <> 0 /\ id ∉ (∅ : gset Z)) (deleted_ids s).
Proof.
  intros [H1 H2 _ _]. split.
  - eapply sublist_NoDup; [exact H1|]. apply (fmap_sublist entry_segment_id), sublist_filter.
  - apply Forall_elem. intros id (e & He & <- & _)%deleted_ids_elem. split; [|set_solver]. by eapply Forall_elem in H2.
Qed.

(** C15: recovery finishes what was begun.  After a crash at any point, with the manifest opened again, or later: if the system calls
    only get interrupted, the files of the deleted segments are regular or missing, and nobody holds these segments,
    recovery returns a report without pending pins, does not touch the manifest, and no crash after it brings
    back the file of a deleted segment. *)
Theorem recovery_finishes (P : Posix) (PL : PosixLaws P) (B : Crc32cBackend) (BL : Crc32cLaws B) w root answers :
  reachable w -> Forall easy answers ->
  let es := segments (snapshot_ (world_manifest w)) in
  (forall e name, e ∈ es -> entry_state e = kSegmentDeleted -> relative_path e = ["segments"; name] ->
     ~ pinned (leases_ (world_pins w)) (entry_segment_id e) /\ removable name (world_directory w)) ->
  exists t w' r, RecoverPendingDeletions root answers w = (t, w', Ok r) /\
    pending_pins r = [] /\ marked_deleted r = [] /\ segments (snapshot_ (world_manifest w')) = es /\
    forall e name left, e ∈ es -> entry_state e = kSegmentDeleted -> relative_path e = ["segments"; name] ->
      crash_lists (world_directory w') left -> name ∉ left.
Proof.
  intros Hr Ha es Hfree. pose proof (reachable_good w Hr) as Hg. set (ids := deleted_ids (snapshot_ (world_manifest w))).
  pose proof (sf_valid _ _ (gd_safe _ _ Hg)) as Hok. destruct (deleted_ids_distinct _ _ Hok) as [Hnd Hnz].
  assert (forall e, e ∈ es -> exists name, relative_path e = ["segments"; name]) as Hfile.
  { intros e He. destruct (entry_file es _ e Hok (sf_typed _ _ (gd_safe _ _ Hg)) He) as (name & Hp & _). by exists name. }
  assert (at_ ids es (world_directory w) w) as Hat.
  { split_and!; [done|done|]. intros id (e & He & Hid & Hst)%deleted_ids_elem. split; [by exists e|].
    destruct (Hfile e He) as (name & Hp). rewrite <- Hid. by apply (Hfree e name). }
  pose proof (ExecuteIds_triple _ ids root ids answers es _ w Hg Hat) as Ht.
  assert (is_ok (ExecuteIds root ids answers w).2 = true) as Htot.
  { unfold ExecuteIds. rewrite (check_ids_ok ids ∅) by done. cbn [rlift].
    apply (rtotal_at (dom (names (world_directory w))) w (at_ ids es (world_directory w))); [|done|done].
    apply rtotal_known, execute_loop_total; [done|]. intros id (e & He & Hid & Hst)%deleted_ids_elem.
    destruct (Hfile e He) as (name & Hp). exists e, name. split_and!; try done. by apply (Hfree e name). }
  unfold RecoverPendingDeletions. fold ids. destruct (ExecuteIds root ids answers w) as [[t w'] [r|]]; [|done].
  destruct Ht as (_ & _ & _ & es' & D' & Hex & Hes & HD & _). exists t, w', r. split; [done|].
  destruct (executed_report _ _ _ _ _ _ _ _ _ Hex (eo_ids _ _ Hok) Hnd) as (pend & rem & miss & [A1 A2 A3 A4 A5 A6]).
  cbn in A1, A2, A3. assert (pend = []) as ->.
  { destruct pend as [|id pend]; [done|]. apply list.Forall_cons in A5 as [Hno _]. destruct Hno. rewrite <- A4. left. }
  split_and!; [done| | |].
  - destruct (marked_deleted r) as [|id l]; [done|]. specialize (proj1 (A6 id) ltac:(left)) as [Hin|[Hin (x & Hx & Hi & Hst)]].
    + by apply not_elem_of_nil in Hin.
    + apply deleted_ids_elem in Hin as (e & He & Hid & Hd). assert (x = e) as -> by (eapply (same_id _ es Hok); [done|done|congruence]). done.
  - rewrite Hes, (executed_entries _ _ _ _ _ _ _ _ _ Hex). unfold mark_all. rewrite <- (List.map_id es) at 2. apply List.map_ext_in.
    intros x Hx%list_elem_of_In. case_decide as Hin; [|done]. apply deleted_ids_elem in Hin as (e & He & Hid & Hd).
    assert (e = x) as -> by (by eapply (same_id _ es Hok)). by rewrite <- Hd, entry_state_same.
  - intros e name left He Hst Hp [_ Hl] Hin.
    destruct (executed_removes _ _ _ _ _ _ _ _ _ Hex (List.Forall_impl _ easy_honest Ha) e name He) as [Hpend|[G1 G2]]; try done.
    + apply deleted_ids_elem. by exists e.
    + apply Hok.
    + rewrite A1 in Hpend. by apply not_elem_of_nil in Hpend.
    + apply Hl in Hin. rewrite HD in Hin. set_solver.
Qed.

(** ** A plan and its execution *)

Definition entries_size (es : list SegmentManifestEntry) : Z := foldr (fun e total => entry_size_bytes e + total) 0 es.
Definition live_entries (es : list SegmentManifestEntry) : list SegmentManifestEntry :=
  filter (fun e => entry_state e <> kSegmentDeleted) es.

Lemma entries_size_cons e es : entries_size (e :: es) = entry_size_bytes e + entries_size es.
Proof. done. Qed.
#[export] Instance entries_size_proper : Proper ((≡ₚ) ==> (=)) entries_size.
Proof. intros l l'. induction 1; rewrite ?entries_size_cons; lia. Qed.
Lemma entries_size_segments l : entries_size (map segment_manifest l) = bytes_of l.
Proof. induction l as [|s l IH]; [done|]. cbn [map]. rewrite entries_size_cons, bytes_of_cons. lia. Qed.

Lemma live_marked ids es : live_entries (mark_all ids es) =
  filter (fun e => entry_state e <> kSegmentDeleted /\ entry_segment_id e ∉ ids) es.
Proof.
  induction es as [|e es IH]; [done|]. unfold live_entries, mark_all in *. cbn [map]. rewrite !filter_cons, IH.
  destruct (decide (entry_segment_id e ∈ ids)) as [Hin|Hin].
  - rewrite decide_False by (cbn; tauto). rewrite decide_False by tauto. done.
  - repeat case_decide; tauto || done.
Qed.

Lemma filter_map_segments (Q : SegmentManifestEntry -> Prop) `{!forall e, Decision (Q e)} segs :
  filter Q (map segment_manifest segs) = map segment_manifest (filter (fun s => Q (segment_manifest s)) segs).
Proof. induction segs as [|s segs IH]; [done|]. cbn [map]. rewrite !filter_cons, IH. by case_decide. Qed.

(** The identifiers of a plan. *)
Lemma plan_ids segs policy now plan cs k : plan_reference segs policy now plan cs k ->
  map decision_segment_id (deletions plan) = map (fun s => entry_segment_id (segment_manifest s)) (gone_of cs policy now k).
Proof.
  intros (_ & _ & _ & Hf & _). cbv zeta in Hf. induction Hf as [|s d l l' [H _] _ IH]; [done|]. cbn [map]. by rewrite H, IH.
Qed.

(** C17: executing a plan has the effect it announces.  When a plan was made from the entries of the manifest and its execution
    returned, the live segments that remain in the manifest have exactly the number and the bytes the plan
    states, so its flags say whether the limits of the policy now hold. *)
Theorem executed_plan_meets_totals (P : Posix) (PL : PosixLaws P) (B : Crc32cBackend) (BL : Crc32cLaws B)
    w segs policy now plan root answers t w' r :
  reachable w -> map segment_manifest segs ≡ₚ segments (snapshot_ (world_manifest w)) ->
  Forall (fun s => is_u64 (latest_ingestion_timestamp_ns s)) segs ->
  Plan segs policy now = Ok plan -> Execute root plan answers w = (t, w', Ok r) ->
  let live := live_entries (segments (snapshot_ (world_manifest w'))) in
  entries_size live = remaining_total_bytes plan /\ zlen live = remaining_segment_count plan /\
  byte_limit_satisfied plan = negb (exceeds (entries_size live) (max_total_bytes policy)) /\
  segment_limit_satisfied plan = negb (exceeds (zlen live) (max_segment_count policy)).
Proof.
  intros Hr Hsegs Htime Hplan Hex live. pose proof (reachable_good w Hr) as Hg.
  set (es := segments (snapshot_ (world_manifest w))) in *. set (ids := map decision_segment_id (deletions plan)).
  assert (live = filter (fun e => entry_state e <> kSegmentDeleted /\ entry_segment_id e ∉ ids) es) as Hlive.
  { pose proof (ExecuteIds_triple _ [] root ids answers es _ w Hg (at_here w)) as Ht. unfold Execute in Hex. fold ids in Hex.
    rewrite Hex in Ht. destruct Ht as (_ & _ & _ & es' & D' & Hrun & Hes & _). unfold live.
    rewrite Hes, (executed_entries _ _ _ _ _ _ _ _ _ Hrun). apply live_marked. }
  pose proof (sf_valid _ _ (gd_safe _ _ Hg)) as Hok. pose proof (sf_typed _ _ (gd_safe _ _ Hg)) as Hty. fold es in Hok, Hty.
  assert (Forall input_typed segs) as Htyped.
  { apply Forall_elem. intros s Hs. split; [|by eapply Forall_elem in Htime]. eapply et_size, Forall_elem; [exact Hty|].
    rewrite <- Hsegs. by apply (list_elem_of_fmap_2 segment_manifest). }
  assert (zlen segs <= u64_max) as Hlen.
  { pose proof (ValidatePartitionSnapshot_ok _ _ (kp_valid _ _ (gd_kept _ _ Hg))) as ([_ L _] & _ & Hn & _).
    assert (length es = length segs) as E by (by rewrite <- Hsegs, length_map). unfold zlen in *. fold es in Hn. unfold kHardMaxEntries in L. lia. }
  destruct (Plan_decides segs policy now plan Htyped Hlen Hplan) as (cs & k & Href).
  assert (live ≡ₚ map segment_manifest (stays_of segs cs policy now k)) as Hstays.
  { rewrite Hlive, <- Hsegs, filter_map_segments. apply Permutation_refl', f_equal, filter_agree. intros s Hs. unfold is_live.
    apply and_iff_compat_l. unfold ids. rewrite (plan_ids _ _ _ _ _ _ Href). split.
    - intros Hn Hin. apply Hn. by apply (list_elem_of_fmap_2 (fun s => entry_segment_id (segment_manifest s))).
    - intros Hn (x & Hid & Hx)%list_elem_of_fmap_1. apply Hn.
      assert (s = x) as ->; [|done]. eapply (distinct_elem (fun s => entry_segment_id (segment_manifest s)) segs); try done.
      + rewrite <- (List.map_map segment_manifest entry_segment_id), Hsegs. apply Hok.
      + apply list_elem_of_filter in Hx as [_ Hx]. destruct Href as (Hcs & _). rewrite Hcs in Hx.
        by apply list_elem_of_filter in Hx as [_ ?]. }
  destruct Href as (_ & _ & _ & _ & E1 & E2 & E3 & E4). cbv zeta in E1, E2, E3, E4.
  assert (zlen live = zlen (stays_of segs cs policy now k)) as En by (unfold zlen; by rewrite Hstays, length_map).
  rewrite En, Hstays, entries_size_segments. by rewrite E1, E2, E3, E4.
Qed.

(** ** A concrete partition *)

Definition retention_entry (id first last : Z) (file : string) : SegmentManifestEntry :=
  mkEntry id kSegmentSealed first last 100 200 (100 * id) (path_of_string ("segments/" +:+ file)).
Definition entry_one : SegmentManifestEntry := retention_entry 1 1 5 "00000001.mino".
Definition entry_two : SegmentManifestEntry := retention_entry 2 6 9 "00000002.mino".

Definition blank_manifest : PartitionManifest := mkManifest "" sample_manifest_options false (new_snapshot sample_metadata).
Definition object_of (x : list (@Disk sample_posix) * @Disk sample_posix * Result PartitionManifest)
  : PartitionManifest * @Disk sample_posix :=
  let '(_, d, r) := x in (match r with Ok m => m | Err _ => blank_manifest end, d).
Definition add_entry (e : SegmentManifestEntry) (x : PartitionManifest * @Disk sample_posix) : PartitionManifest * @Disk sample_posix :=
  let '(_, d, (m, _)) := @run_manifest sample_posix software_backend x.1 (CallAdd e) smooth_write x.2 in (m, d).
Definition stored : PartitionManifest * @Disk sample_posix := add_entry entry_two (add_entry entry_one (object_of sample_created)).

Definition sample_start : @RetentionWorld sample_posix :=
  mkWorld stored.1 stored.2 (new_pin_manager default_pin_options)
    (mkSegmentsDirectory (<["00000001.mino" := RegularFile]> (<["00000002.mino" := RegularFile]> ∅)) ∅) [].

Lemma entry_typed_sample id first last file : is_u64 id -> is_u64 first -> is_u64 last -> is_u64 (100 * id) ->
  entry_typed (retention_entry id first last file).
Proof. intros. split; try (exact eq_refl || assumption || (cbn; ulia)). by exists ("segments/" +:+ file). Qed.

Lemma add_entry_run e x : entry_typed e -> @manifest_run sample_posix software_backend x.1 x.2 ->
  @manifest_run sample_posix software_backend (add_entry e x).1 (add_entry e x).2.
Proof.
  intros He Hx. unfold add_entry. destruct (run_manifest x.1 (CallAdd e) smooth_write x.2) as [[t d] [m r]] eqn:E.
  exact (run_called _ _ (CallAdd e) _ _ _ _ _ Hx He E).
Qed.

Lemma created_run : @manifest_run sample_posix software_backend (object_of sample_created).1 (object_of sample_created).2.
Proof.
  assert (is_ok sample_created.2 = true) as Hok by (vm_compute; reflexivity).
  destruct sample_created as [[t d] [m|e]] eqn:E; [|discriminate Hok].
  exact (run_created _ _ _ _ _ _ _ _ _ _ _ sample_metadata_typed E).
Qed.

Lemma sample_started : @started sample_posix software_backend sample_start.
Proof.
  split; [|split; [reflexivity|exists default_pin_options; reflexivity]].
  apply add_entry_run; [apply entry_typed_sample; ulia|]. apply add_entry_run; [apply entry_typed_sample; ulia|].
  exact created_run.
Qed.
Lemma sample_reachable : @reachable sample_posix software_backend sample_start.
Proof. exact (reach sample_start [] sample_started ltac:(constructor)). Qed.

(** The last state of a trace. *)
Lemma default_elem {A} (w : A) t i : default w (t !! i) ∈ w :: t.
Proof. destruct (t !! i) eqn:E; [right; by eapply list_elem_of_lookup_2|left]. Qed.
Lemma run_eta {A} (f : @RetentionM sample_posix A) w r : (f w).2 = Ok r -> f w = ((f w).1.1, (f w).1.2, Ok r).
Proof. destruct (f w) as [[t w'] r']. by intros <-. Qed.

(** A reader pins segment 2; the plan deletes both segments, and in the middle of it another reader tries to pin segment 1; the
    first reader lets go, and recovery removes the second file. *)
Definition both : RetentionPlan := mkPlan [mkDecision 1 kReasonAge; mkDecision 2 kReasonAge] 0 0 true true.
Definition disturbed : DeletionAnswers :=
  mkDeletion smooth_write smooth_write None (fun g => match g with GapCount => [CallAcquire 1 None 12] | _ => [] end) 13 [EINTR] [] [EINTR; EINTR].
Definition sample_steps : list RetentionStep :=
  [StepPin (CallAcquire 2 None 10); StepExecute "root" both [disturbed; smooth_deletion 14];
   StepPin (CallRelease 1 20); StepRecover "root" []].
Definition sample_trace : list (@RetentionWorld sample_posix) := (@run_history sample_posix software_backend sample_steps sample_start).1.
Definition sample_last : @RetentionWorld sample_posix := default sample_start (sample_trace !! pred (length sample_trace)).
Definition sample_lease : SegmentPinLease := mkLease 1 2 (10 + kDefaultSegmentPinTtlNs).

Lemma disturbed_easy : easy disturbed.
Proof. split; [exact I|reflexivity..]. Qed.

Lemma removed_only_unpinned_witness :
  journal sample_last =
    [ClockRead 10; Granted sample_lease; ClockRead 12; ClockRead 13; Unlinked 1 "00000001.mino"; ClockRead 14; ClockRead 20;
     Released 1; ClockRead 0; ClockRead 0; Unlinked 2 "00000002.mino"] /\
  ~ pinned (outstanding [ClockRead 10; Granted sample_lease; ClockRead 12; ClockRead 13]) 1.
Proof.
  assert (journal sample_last =
    [ClockRead 10; Granted sample_lease; ClockRead 12; ClockRead 13; Unlinked 1 "00000001.mino"; ClockRead 14; ClockRead 20;
     Released 1; ClockRead 0; ClockRead 0; Unlinked 2 "00000002.mino"]) as Hj by (vm_compute; reflexivity).
  split; [exact Hj|].
  destruct (removed_only_unpinned sample_posix (ConcreteDisk.posix_laws _) software_backend software_laws sample_start
    sample_steps sample_trace _ sample_last sample_reachable ltac:(repeat constructor)
    (surjective_pairing (run_history sample_steps sample_start)) (default_elem _ _ _)) as [_ H].
  exact (proj1 (H [ClockRead 10; Granted sample_lease; ClockRead 12; ClockRead 13] 1 "00000001.mino"
    [ClockRead 14; ClockRead 20; Released 1; ClockRead 0; ClockRead 0; Unlinked 2 "00000002.mino"] Hj)).
Defined.



Lemma execution_is_complete_witness : exists t w' r,
  @Execute sample_posix software_backend "root" both [disturbed; smooth_deletion 14] sample_start = (t, w', Ok r) /\
  r = mkReport [1; 2] [] [1; 2] [] /\
  segments (snapshot_ (world_manifest w')) = mark_all [1; 2] (segments (snapshot_ (world_manifest sample_start))).
Proof.
  set (f := @Execute sample_posix software_backend "root" both [disturbed; smooth_deletion 14]).
  assert ((f sample_start).2 = Ok (mkReport [1; 2] [] [1; 2] [])) as Hr by (vm_compute; reflexivity).
  pose proof (run_eta f sample_start _ Hr) as E.
  eexists _, _, _. split; [exact E|]. split; [reflexivity|].
  refine (proj1 (proj2 (proj2 (execution_is_complete sample_posix (ConcreteDisk.posix_laws _) software_backend software_laws
    sample_start "root" both [disturbed; smooth_deletion 14] _ _ _ sample_reachable E _)))).
  apply Forall_elem. intros a [->|[->|Ha%not_elem_of_nil]%elem_of_cons]%elem_of_cons;
    [exact (easy_honest _ disturbed_easy)|exact (easy_honest _ (smooth_easy 14))|destruct Ha].
Defined.

(** The process is stopped between the manifest and the file; recovery removes the file. *)
Definition stopped : DeletionAnswers :=
  mkDeletion smooth_write smooth_write
    (Some (fun point => match point with kBeforeUnlink => Err (Internal "stopped") | _ => Ok tt end)) (fun _ => []) 5 [] [] [].
Definition half_done : @RetentionWorld sample_posix :=
  (@run_history sample_posix software_backend [StepExecute "root" both [stopped]] sample_start).2.

Lemma recovery_finishes_witness :
  names (world_directory half_done) !! "00000001.mino" = Some RegularFile /\
  exists t w' r, @RecoverPendingDeletions sample_posix software_backend "root" [disturbed] half_done = (t, w', Ok r) /\
    pending_pins r = [] /\ (forall left, crash_lists (world_directory w') left -> "00000001.mino" ∉ left).
Proof.
  assert (segments (snapshot_ (world_manifest half_done)) = [with_state entry_one kSegmentDeleted; entry_two]) as Hes
    by (vm_compute; reflexivity).
  assert (names (world_directory half_done) !! "00000001.mino" = Some RegularFile) as Hn by (vm_compute; reflexivity).
  assert (leases_ (world_pins half_done) = ∅) as Hl by (vm_compute; reflexivity).
  split; [exact Hn|].
  destruct (recovery_finishes sample_posix (ConcreteDisk.posix_laws _) software_backend software_laws half_done "root" [disturbed])
    as (t & w' & r & E & Hp & _ & _ & Hgone).
  - exact (reach sample_start [StepExecute "root" both [stopped]] sample_started ltac:(repeat constructor)).
  - constructor; [exact disturbed_easy|constructor].
  - rewrite Hes. intros e name [->|[->|[]%not_elem_of_nil]%elem_of_cons]%elem_of_cons Hst Hpath; [|discriminate Hst].
    split.
    + intros (k & x & Hk & _). rewrite Hl, lookup_empty in Hk. discriminate Hk.
    + injection Hpath as <-. right. exact Hn.
  - exists t, w', r. split; [exact E|]. split; [exact Hp|]. intros left Hleft.
    apply (Hgone (with_state entry_one kSegmentDeleted) "00000001.mino" left); [|reflexivity|reflexivity|exact Hleft].
    rewrite Hes. left.
Defined.

(** One segment may stay. *)
Definition described : list RetentionSegment := [mkRetentionSegment entry_two 900 false; mkRetentionSegment entry_one 500 false].
Definition count_policy : RetentionPolicy := mkPolicy None None (Some 1) false.
Definition count_plan : RetentionPlan := mkPlan [mkDecision 1 kReasonSegmentCount] 200 1 true true.

Lemma executed_plan_meets_totals_witness : exists t w' r,
  Plan described count_policy 1000 = Ok count_plan /\
  @Execute sample_posix software_backend "root" count_plan [] sample_start = (t, w', Ok r) /\
  entries_size (live_entries (segments (snapshot_ (world_manifest w')))) = 200.
Proof.
  set (f := @Execute sample_posix software_backend "root" count_plan []).
  assert ((f sample_start).2 = Ok (mkReport [1] [] [1] [])) as Hr by (vm_compute; reflexivity).
  pose proof (run_eta f sample_start _ Hr) as E.
  assert (Plan described count_policy 1000 = Ok count_plan) as Hp by (vm_compute; reflexivity).
  eexists _, _, _. split; [exact Hp|]. split; [exact E|].
  refine (proj1 (executed_plan_meets_totals sample_posix (ConcreteDisk.posix_laws _) software_backend software_laws
    sample_start described count_policy 1000 count_plan "root" [] _ _ _ sample_reachable _ _ Hp E)).
  - assert (segments (snapshot_ (world_manifest sample_start)) = [entry_one; entry_two]) as -> by (vm_compute; reflexivity).
    apply Permutation_swap.
  - repeat constructor; cbn; lia.
Defined.
