(* ===== verification/DurableStore.v ===== *)
(** * The durable deduplication store

    Models the class [DedupStore] of [mino/bridge/dedup_store.cc] and
    [SeedDedupWindowFromStore]: every accepted high-water mark is written to the
    snapshot file before it is reported, an update that cannot be written is
    undone in memory, and opening reads the snapshot back. *)
From S2P Require Import Prelude SourceIdentity Bytes Crc32c DedupWindow DedupStore DurableFile.

Record DedupStore : Set := mkStore { path_ : string; max_sources_ : Z; entries_ : Entries }.
Definition with_entries (st : DedupStore) (m : Entries) : DedupStore :=
  mkStore (path_ st) (max_sources_ st) m.

Inductive ReadAnswer : Set :=
| ReadErrno (e : Errno)
| ReadCount (n : nat).
Record OpenAnswers : Set := mkOpen {
  open_parent : ParentAnswers;
  open_error : option Errno;
  read_answers : list ReadAnswer
}.

Section Store.
Context {P : Posix} {B : Crc32cBackend}.

(** [ReadAll]: [rest] is what the file still holds.  [None] stands for fuel that
    ran out, which [ReadAll] never does ([read_loop_total]). *)
Fixpoint read_loop (fuel : nat) (answers : list ReadAnswer) (rest out : list byte) (max_bytes : Z)
    (path : string) : option (Result (list byte)) :=
  match fuel with
  | O => None
  | S fuel' =>
      let received n answers' :=
        let count := Nat.min (Nat.max n 1) (Nat.min 4096 (length rest)) in
        if (count =? 0)%nat then Some (Ok out)
        else if max_bytes <? Z.of_nat (length out + count)
        then Some (Err (Corruption "dedup store file exceeds size bound"))
        else read_loop fuel' answers' (drop count rest) (out ++ take count rest) max_bytes path in
      match answers with
      | ReadErrno EINTR :: answers' => read_loop fuel' answers' rest out max_bytes path
      | ReadErrno e :: _ => Some (Err (ErrnoStatus "read failed" path e))
      | ReadCount n :: answers' => received n answers'
      | [] => received 4096%nat []
      end
  end.
Definition ReadAll (answers : list ReadAnswer) (content : list byte) (max_bytes : Z) (path : string)
  : option (Result (list byte)) :=
  read_loop (S (length answers + length content)) answers content [] max_bytes path.

Definition max_file_bytes (max_sources : Z) : Z :=
  wrap64 (Z.of_nat kHeaderBytes + wrap64 (max_sources * Z.of_nat kEntryBytes) + Z.of_nat kCrcBytes).

(** [LoadFromDisk] after [EnsureParentDirectory]: what the file gives. *)
Definition load_file (st : DedupStore) (a : OpenAnswers) (content : option (list byte)) : Result Entries :=
  match open_error a, content with
  | Some ENOENT, _ | None, None => Ok ∅
  | Some e, _ => Err (ErrnoStatus "open(dedup store) failed" (path_ st) e)
  | None, Some file =>
      match ReadAll (read_answers a) file (max_file_bytes (max_sources_ st)) (path_ st) with
      | None => Err (Internal "unreachable: read loop out of fuel")
      | Some (Err e) => Err e
      | Some (Ok []) => Err (Corruption "dedup store file is empty")
      | Some (Ok bytes) => DecodeSnapshot bytes (max_sources_ st)
      end
  end.

Definition Open (path : string) (max_sources : Z) (a : OpenAnswers) : Io DedupStore :=
  if bool_decide (path = "") then fail (Invalid "dedup store path must be non-empty")
  else if max_sources =? 0 then fail (Invalid "dedup store max_sources must be nonzero")
  else
    let st := mkStore path max_sources ∅ in
    io! EnsureParentDirectory (open_parent a) path ;;
    (fun d => match load_file st a (live_data d) with
              | Err e => ([], d, Err e)
              | Ok m => ([], d, Ok (with_entries st m))
              end).

Definition Load (st : DedupStore) : list DedupResumeEntry :=
  (fun e => mkResume e.1 e.2) <$> ordered (entries_ st).

Definition PersistLocked (st : DedupStore) (a : PublishAnswers) : Io unit :=
  match EncodeSnapshot (entries_ st) (max_sources_ st) with
  | Err e => fail e
  | Ok bytes => AtomicPublish a (path_ st) bytes
  end.

(** Write [updated] out; if that fails the store is [restored]. *)
Definition persist_or_restore (updated restored : DedupStore) (a : PublishAnswers) (d : Disk)
  : list Disk * Disk * (DedupStore * Result unit) :=
  let '(t, d', r) := PersistLocked updated a d in
  match r with
  | Ok _ => (t, d', (updated, Ok tt))
  | Err e => (t, d', (restored, Err e))
  end.

Definition RecordAccepted (st : DedupStore) (source : SourceIdentity) (highest : Z)
    (a : PublishAnswers) (d : Disk) : list Disk * Disk * (DedupStore * Result unit) :=
  if negb (ValidSource source)
  then ([], d, (st, Err (Invalid "dedup store source identity is incomplete")))
  else if highest =? 0
  then ([], d, (st, Err (Invalid "dedup store rejects sequence zero")))
  else match entries_ st !! source with
  | Some previous =>
      if highest <=? previous then ([], d, (st, Ok tt))
      else
        let updated := <[source := highest]> (entries_ st) in
        persist_or_restore (with_entries st updated) (with_entries st (<[source := previous]> updated)) a d
  | None =>
      if max_sources_ st <=? Z.of_nat (size (entries_ st))
      then ([], d, (st, Err (Resource "dedup store is full")))
      else
        let updated := <[source := highest]> (entries_ st) in
        persist_or_restore (with_entries st updated) (with_entries st (delete source updated)) a d
  end.

Fixpoint build_replacement (l : list DedupResumeEntry) (m : Entries) : Result Entries :=
  match l with
  | [] => Ok m
  | e :: rest =>
      fail_if negb (ValidSource (resume_source e)) || (resume_highest e =? 0)
        with Invalid "dedup store replace entry is invalid" ;;
      match m !! resume_source e with
      | Some _ => Err (Invalid "dedup store replace contains a duplicate source")
      | None => build_replacement rest (<[resume_source e := resume_highest e]> m)
      end
  end.

Definition ReplaceAll (st : DedupStore) (l : list DedupResumeEntry) (a : PublishAnswers) (d : Disk)
  : list Disk * Disk * (DedupStore * Result unit) :=
  if max_sources_ st <? zlen l
  then ([], d, (st, Err (Resource "dedup store replace exceeds max_sources")))
  else match build_replacement l ∅ with
  | Err e => ([], d, (st, Err e))
  | Ok replacement => persist_or_restore (with_entries st replacement) st a d
  end.
End Store.

Fixpoint seed_entries (w : DedupWindow) (l : list DedupResumeEntry) (peer_session_epoch now_ns : Z)
  : DedupWindow * Result unit :=
  match l with
  | [] => (w, Ok tt)
  | e :: rest =>
      match SeedAccepted w peer_session_epoch (resume_source e) (resume_highest e) now_ns with
      | (w, Err s) => (w, Err s)
      | (w, Ok _) => seed_entries w rest peer_session_epoch now_ns
      end
  end.
Definition SeedDedupWindowFromStore (w : DedupWindow) (st : DedupStore) (peer_session_epoch now_ns : Z)
  : DedupWindow * Result unit := seed_entries w (Load st) peer_session_epoch now_ns.

(** ** Reading the file *)

Definition read_fine (x : ReadAnswer) : Prop :=
  match x with ReadErrno e => e = EINTR | ReadCount _ => True end.

Section Reading.
Context {P : Posix}.

(** Enough fuel for every answer and every byte: the loop ends. *)
Lemma read_loop_total fuel : forall answers rest out max path,
  (length answers + length rest < fuel)%nat ->
  exists r, read_loop fuel answers rest out max path = Some r /\
    (Forall read_fine answers -> Z.of_nat (length out + length rest) <= max -> r = Ok (out ++ rest)).
Proof.
  induction fuel as [|fuel IH]; intros answers rest out max path Hf; [lia|]. cbn [read_loop].
  assert (forall n answers', (length answers' + length rest <= fuel)%nat ->
    let count := Nat.min (Nat.max n 1) (Nat.min 4096 (length rest)) in
    exists r, (if (count =? 0)%nat then Some (Ok out)
      else if max <? Z.of_nat (length out + count)
      then Some (Err (Corruption "dedup store file exceeds size bound"))
      else read_loop fuel answers' (drop count rest) (out ++ take count rest) max path) = Some r /\
    (Forall read_fine answers' -> Z.of_nat (length out + length rest) <= max -> r = Ok (out ++ rest))) as Hrec.
  { intros n answers' Hlen count.
    destruct (Nat.eqb_spec count 0) as [H0|H0].
    { exists (Ok out). split; [done|]. intros _ _. destruct rest; [by rewrite app_nil_r|]. cbn [length] in *. lia. }
    destruct (Z.ltb_spec max (Z.of_nat (length out + count))).
    { eexists. split; [done|]. intros _ Hm. lia. }
    destruct (IH answers' (drop count rest) (out ++ take count rest) max path) as (r & Hr & Hok);
      [rewrite length_drop; lia|]. exists r. split; [done|]. intros Hfine Hm.
    rewrite Hok; [by rewrite <- app_assoc, take_drop|done|].
    rewrite length_app, length_take, length_drop. lia. }
  destruct answers as [|[e|n] answers].
  - destruct (Hrec 4096%nat []) as (r & Hr & Hok); [cbn [length] in *; lia|]. by exists r.
  - assert ((length answers + length rest < fuel)%nat) as Hf' by (cbn [length] in Hf; lia).
    destruct (IH answers rest out max path Hf') as (r & Hr & Hok).
    destruct e; try (eexists; split; [done|]; intros Hx%Forall_cons_1; by destruct Hx).
    exists r. split; [done|]. intros [_ Hx]%Forall_cons_1. by apply Hok.
  - destruct (Hrec n answers) as (r & Hr & Hok); [cbn [length] in *; lia|]. exists r. split; [done|].
    intros [_ Hx]%Forall_cons_1. by apply Hok.
Qed.

(** What the loop returns is the file, whatever the answers. *)
Lemma read_loop_sound fuel : forall answers rest out max path bytes,
  read_loop fuel answers rest out max path = Some (Ok bytes) -> bytes = out ++ rest.
Proof.
  induction fuel as [|fuel IH]; intros answers rest out max path bytes H; [done|]. cbn [read_loop] in H.
  assert (forall n answers', let count := Nat.min (Nat.max n 1) (Nat.min 4096 (length rest)) in
    (if (count =? 0)%nat then Some (Ok out)
     else if max <? Z.of_nat (length out + count)
     then Some (Err (Corruption "dedup store file exceeds size bound"))
     else read_loop fuel answers' (drop count rest) (out ++ take count rest) max path) = Some (Ok bytes) ->
    bytes = out ++ rest) as Hrec.
  { clear H. intros n answers' count. destruct (Nat.eqb_spec count 0) as [H0|H0].
    - intros [= <-]. destruct rest; [by rewrite app_nil_r|]. subst count. cbn [length] in H0. lia.
    - destruct (max <? _); [done|]. intros Hr. apply IH in Hr as ->. by rewrite <- app_assoc, take_drop. }
  destruct answers as [|[e|n] answers]; [exact (Hrec 4096%nat [] H)| |exact (Hrec n answers H)].
  destruct e; try done. exact (IH _ _ _ _ _ _ H).
Qed.

Lemma ReadAll_total answers content max path :
  exists r, ReadAll answers content max path = Some r /\
    (Forall read_fine answers -> zlen content <= max -> r = Ok content).
Proof. destruct (read_loop_total _ answers content [] max path (Nat.lt_succ_diag_r _)) as (r & Hr & Hok). by exists r. Qed.
End Reading.

(** ** What a content of the file means *)

Section Meaning.
Context {B : Crc32cBackend} {BL : Crc32cLaws B} {P : Posix} {PL : PosixLaws P}.

Definition decoded (max : Z) (c : option (list byte)) : Result Entries :=
  match c with None => Ok ∅ | Some bytes => DecodeSnapshot bytes max end.

(** The system calls of an [Open] succeed. *)
Record open_fine (a : OpenAnswers) : Prop := {
  of_error : open_error a = None;
  of_reads : Forall read_fine (read_answers a);
  of_exists : exists_error (open_parent a) = None /\ existed (open_parent a) = true;
  of_directory : is_directory (open_parent a) = true /\ is_directory_error (open_parent a) = false
}.
(** The bound on the file size is computed without overflow. *)
Definition max_sources_fine (max : Z) : Prop := 1 <= max /\ max * 32 + 20 <= u64_max.

Lemma max_file_bytes_fine max : max_sources_fine max -> max_file_bytes max = 20 + 32 * max.
Proof.
  intros [H1 H2]. unfold max_file_bytes. change (Z.of_nat kHeaderBytes) with 16.
  change (Z.of_nat kEntryBytes) with 32. change (Z.of_nat kCrcBytes) with 4.
  rewrite (wrap64_id (max * 32)), wrap64_id by ulia. lia.
Qed.

Lemma load_file_decoded st a c m :
  open_fine a -> max_sources_fine (max_sources_ st) -> decoded (max_sources_ st) c = Ok m ->
  load_file st a c = Ok m.
Proof.
  intros [He Hr _ _] Hmax Hc. unfold load_file. rewrite He. destruct c as [bytes|]; [|done]. cbn [decoded] in Hc.
  pose proof Hc as (l & [_ _ _ Hlen _] & Hb & _)%DecodeSnapshot_sound.
  destruct (ReadAll_total (read_answers a) bytes (max_file_bytes (max_sources_ st)) (path_ st)) as (r & -> & Hok).
  rewrite Hok; [|done|].
  - destruct bytes; [|done]. by apply (f_equal length) in Hb; rewrite snapshot_of_length in Hb.
  - rewrite max_file_bytes_fine by done. subst bytes. unfold zlen in *. rewrite snapshot_of_length.
    unfold kHeaderBytes, kEntryBytes, kCrcBytes. lia.
Qed.

Lemma load_file_sound st a c m :
  open_error a <> Some ENOENT -> load_file st a c = Ok m -> decoded (max_sources_ st) c = Ok m.
Proof.
  intros Hne. unfold load_file. destruct (open_error a) as [[]|]; try done. destruct c as [bytes|]; [|done].
  destruct (ReadAll _ _ _ _) as [[[|b l]|e]|] eqn:E; try done. apply read_loop_sound in E. cbn [app] in E. by subst.
Qed.

Lemma EnsureParentDirectory_fine a path d :
  open_fine a -> EnsureParentDirectory (open_parent a) path d = ([], d, Ok tt).
Proof.
  intros [_ _ [H1 H2] [H3 H4]]. unfold EnsureParentDirectory. cbv zeta. rewrite H1, H2, H3, H4.
  by destruct (bool_decide _).
Qed.

Lemma Open_decoded path max a d m :
  path <> "" -> open_fine a -> max_sources_fine max -> decoded max (live_data d) = Ok m ->
  Open path max a d = ([], d, Ok (mkStore path max m)).
Proof.
  intros Hp Ha Hmax Hm. unfold Open. rewrite bool_decide_false by done.
  rewrite (proj2 (Z.eqb_neq max 0)) by (destruct Hmax; lia). cbv zeta. unfold bind.
  rewrite EnsureParentDirectory_fine by done.
  by rewrite (load_file_decoded (mkStore path max ∅) a _ m).
Qed.

(** A successful [Open] reads the live file, and leaves it alone. *)
Lemma Open_sound path max a d t d' store (Inv : Disk -> Prop) :
  (forall x y, live_untouched x y -> Inv x -> Inv y) -> Inv d -> open_error a <> Some ENOENT ->
  Open path max a d = (t, d', Ok store) ->
  Inv d' /\ store = mkStore path max (entries_ store) /\ decoded max (live_data d') = Ok (entries_ store).
Proof.
  intros HI Hd Hne Ho. unfold Open in Ho. case_bool_decide; [discriminate|].
  destruct (_ =? _); [discriminate|]. cbv zeta in Ho. unfold bind in Ho.
  pose proof (EnsureParentDirectory_triple Inv HI (open_parent a) path d Hd I) as Ht.
  destruct (EnsureParentDirectory _ _ d) as [[t0 d0] [[]|e]]; [|discriminate]. destruct Ht as (_ & Hd0 & _).
  destruct (load_file _ a (live_data d0)) as [m|e] eqn:El; [|discriminate].
  injection Ho as <- <- <-. split_and!; [done|done|]. by apply load_file_sound in El.
Qed.

(** ** The store *)

Record store_ok (st : DedupStore) : Prop := {
  st_entries : entries_ok (entries_ st);
  st_size : Z.of_nat (size (entries_ st)) <= max_sources_ st;
  st_u32 : max_sources_ st <= u32_max
}.

(** What every crash state of a call that writes [m] reads back as. *)
Definition reads_back (max : Z) (Q : Entries -> Prop) (d : Disk) : Prop :=
  (exists m, decoded max (live_data d) = Ok m /\ Q m) /\
  forall c, survives d c -> exists m, decoded max c = Ok m /\ Q m.

Lemma persist_spec updated restored a d t d' st' r (Q : Entries -> Prop) :
  store_ok updated -> reads_back (max_sources_ updated) Q d ->
  persist_or_restore updated restored a d = (t, d', (st', r)) ->
  Forall (reads_back (max_sources_ updated) (fun m => Q m \/ m = entries_ updated)) (d' :: t) /\
  match r with
  | Ok _ => st' = updated /\ decoded (max_sources_ updated) (live_data d') = Ok (entries_ updated) /\
      (parent_path (path_ updated) <> "" ->
       forall c, survives d' c -> decoded (max_sources_ updated) c = Ok (entries_ updated))
  | Err _ => st' = restored
  end.
Proof.
  intros [Hok Hsize Hu] [HQl HQ] H. unfold persist_or_restore, PersistLocked in H.
  destruct (EncodeSnapshot (entries_ updated) (max_sources_ updated)) as [bytes|e] eqn:E.
  2:{ exfalso. unfold EncodeSnapshot in E. rewrite !fail_if_false in E by (apply Z.ltb_ge; lia). done. }
  apply encode_decode in E; [|done]. pose proof (AtomicPublish_triple d bytes a (path_ updated) d
    (old_or_new_start d bytes) I) as Ht. destruct (AtomicPublish _ _ _ d) as [[t0 d0] r0].
  destruct Ht as (T1 & T2 & T3).
  assert (forall x, old_or_new d bytes x ->
    reads_back (max_sources_ updated) (fun m => Q m \/ m = entries_ updated) x) as Hread.
  { intros x [Hl Hs]. split.
    - destruct Hl as [-> | ->]; [|exists (entries_ updated); split; [done|by right]].
      destruct HQl as (m & Hm & Hq). exists m. split; [done|by left].
    - intros c [Hc| ->]%Hs; [|exists (entries_ updated); split; [done|by right]].
      destruct (HQ c Hc) as (m & Hm & Hq). exists m. split; [done|by left]. }
  assert (t = t0 /\ d' = d0) as [-> ->] by (destruct r0 as [[]|]; by injection H as <- <- <- <-).
  split; [constructor; [by apply Hread|by eapply Forall_impl]|].
  destruct r0 as [[]|]; injection H as <- <-; [|done]. destruct T3 as (L1 & _ & L3).
  split_and!; [done|by rewrite L1|]. intros Hp c Hc. by rewrite (L3 Hp c Hc).
Qed.

Lemma reads_back_mono max (Q Q' : Entries -> Prop) d :
  (forall m, Q m -> Q' m) -> reads_back max Q d -> reads_back max Q' d.
Proof.
  intros H [(m & Hm & Hq) Hs]. split; [by exists m; split; [|by apply H]|].
  intros c Hc. destruct (Hs c Hc) as (m' & Hm' & Hq'). exists m'. split; [done|by apply H].
Qed.

Lemma store_ok_insert st s h :
  store_ok st -> entry_ok (s, h) -> entry_typed (s, h) ->
  (entries_ st !! s = None -> Z.of_nat (size (entries_ st)) < max_sources_ st) ->
  store_ok (with_entries st (<[s := h]> (entries_ st))).
Proof.
  intros [H1 H2 H3] Hok Ht Hsz. split; cbn [entries_ max_sources_ with_entries]; [| |done].
  - intros x y [[<- <-]|[_ Hx]]%lookup_insert_Some; [done|by apply H1].
  - destruct (entries_ st !! s) as [p|] eqn:E.
    + by rewrite map_size_insert_Some by by eexists.
    + rewrite map_size_insert_None by done. specialize (Hsz eq_refl). lia.
Qed.

(** The map after a report. *)
Definition recorded (m : Entries) (s : SourceIdentity) (h : Z) : Entries :=
  if default 0 (m !! s) <? h then <[s := h]> m else m.

(** Every crash reads back the present entries. *)
Definition durable (st : DedupStore) (d : Disk) : Prop :=
  reads_back (max_sources_ st) (fun m => m = entries_ st) d.

(** The outcome of a report: at any crash the file reads back what it could read
    back before, or the new entry added; a failed report leaves the store as it was. *)
Definition record_post (st : DedupStore) (s : SourceIdentity) (h : Z) (d : Disk) (Q : Entries -> Prop)
    (t : list Disk) (d' : Disk) (st' : DedupStore) (r : Result unit) : Prop :=
  store_ok st' /\ path_ st' = path_ st /\ max_sources_ st' = max_sources_ st /\
  Forall (reads_back (max_sources_ st) (fun m => Q m \/ m = <[s := h]> (entries_ st))) (d' :: t) /\
  match r with
  | Ok _ => entry_ok (s, h) /\ entries_ st' = recorded (entries_ st) s h /\
      (parent_path (path_ st) <> "" -> durable st d -> durable st' d')
  | Err _ => st' = st
  end.

Lemma RecordAccepted_spec st s h a d t d' st' r (Q : Entries -> Prop) :
  store_ok st -> entry_typed (s, h) -> reads_back (max_sources_ st) Q d ->
  RecordAccepted st s h a d = (t, d', (st', r)) ->
  record_post st s h d Q t d' st' r.
Proof.
  intros Hst Ht HQ H. unfold RecordAccepted in H.
  assert (Forall (reads_back (max_sources_ st) (fun m => Q m \/ m = <[s := h]> (entries_ st))) [d]) as Hsame.
  { constructor; [|constructor]. eapply reads_back_mono; [|exact HQ]. by left. }
  destruct (ValidSource s) eqn:Hv; cbn [negb] in H; [|by injection H as <- <- <- <-].
  destruct (Z.eqb_spec h 0) as [|Hh]; [by injection H as <- <- <- <-|].
  assert (0 < h) as Hpos by (destruct Ht as (_ & _ & _ & [? _]); cbn in *; lia).
  assert (entry_ok (s, h)) as He by done.
  assert (forall restored,
    (entries_ st !! s = None -> Z.of_nat (size (entries_ st)) < max_sources_ st) ->
    restored = st -> recorded (entries_ st) s h = <[s := h]> (entries_ st) ->
    persist_or_restore (with_entries st (<[s := h]> (entries_ st))) restored a d = (t, d', (st', r)) ->
    record_post st s h d Q t d' st' r) as Hpersist.
  { intros restored Hsz -> Hrec Hp. pose proof (store_ok_insert st s h Hst He Ht Hsz) as Hnew.
    pose proof (persist_spec _ _ _ _ _ _ _ _ Q Hnew HQ Hp) as [P1 P2].
    destruct r as [[]|]; [|by subst st']. destruct P2 as (-> & L1 & L2).
    split_and!; try done. intros Hpath _. split; [by eexists|]. intros c Hc. eexists. split; [by apply L2|done]. }
  unfold record_post, recorded in *. destruct (entries_ st !! s) as [p|] eqn:E; cbn [from_option id] in *.
  - destruct (Z.leb_spec h p); [|rewrite (proj2 (Z.ltb_lt p h)) in Hpersist |- * by lia].
    + injection H as <- <- <- <-. rewrite (proj2 (Z.ltb_ge p h)) by lia. done.
    + eapply Hpersist; [done| |done|exact H]. rewrite insert_insert_eq, insert_id by done. by destruct st.
  - rewrite (proj2 (Z.ltb_lt 0 h)) in Hpersist |- * by lia.
    destruct (Z.leb_spec (max_sources_ st) (Z.of_nat (size (entries_ st)))); [by injection H as <- <- <- <-|].
    eapply Hpersist; [done| |done|exact H]. rewrite delete_insert_id by done. by destruct st.
Qed.
End Meaning.

(** ** Properties *)

(** C4: reporting an accepted mark is crash-safe.  Whatever the system calls
    answer and wherever the process stops, opening the file afterwards gives the
    entries from before the report or these entries with the new mark; a report
    that fails leaves the store as it was.  A report that succeeds raises the entries,
    and for a path with a parent directory it is durable: any later crash reads back
    the raised entries ([bare_path_report_not_durable] is the case of a bare file name). *)
Theorem record_accepted_crash_safe (P : Posix) (PL : PosixLaws P) (B : Crc32cBackend) (BL : Crc32cLaws B)
    (st : DedupStore) (s : SourceIdentity) (h : Z) (a : PublishAnswers) (d : Disk) :
  store_ok st -> entry_typed (s, h) -> max_sources_fine (max_sources_ st) -> path_ st <> "" ->
  durable st d ->
  let '(t, d', (st', r)) := RecordAccepted st s h a d in
  (forall x dr oa, x ∈ d' :: t -> survives x (live_data dr) -> open_fine oa ->
     exists m, Open (path_ st) (max_sources_ st) oa dr = ([], dr, Ok (mkStore (path_ st) (max_sources_ st) m)) /\
       (m = entries_ st \/ m = <[s := h]> (entries_ st))) /\
  store_ok st' /\
  match r with
  | Ok _ => entries_ st' = recorded (entries_ st) s h /\ (parent_path (path_ st) <> "" -> durable st' d')
  | Err _ => st' = st
  end.
Proof.
  intros Hst Ht Hmax Hpath Hd. destruct (RecordAccepted st s h a d) as [[t d'] [st' r]] eqn:E.
  destruct (RecordAccepted_spec st s h a d t d' st' r _ Hst Ht Hd E) as (H1 & H2 & H3 & H4 & H5).
  split_and!; [|done|destruct r; [|done]; destruct H5 as (_ & ? & Hdur); split; [done|]; intros; by apply Hdur].
  intros x dr oa Hx Hs Hoa. rewrite Forall_elem in H4. destruct (H4 x Hx) as [_ Hc].
  destruct (Hc _ Hs) as (m & Hm & Hq). exists m. split; [by apply Open_decoded|done].
Qed.

Definition plain_parent : ParentAnswers :=
  mkParent None true false false "" true false None (mkDirectory None []) (mkDirectory None []).
Definition plain_publish : PublishAnswers := mkPublish plain_parent None [] None [] [] (mkDirectory None []).
(** Short and interrupted writes, an interrupted synchronisation. *)
Definition bumpy_publish : PublishAnswers :=
  mkPublish plain_parent None [WriteCount 5; WriteErrno EINTR; WriteCount 20] None [(EINTR, None); (EINVAL, None)]
    [EINTR] (mkDirectory None [EINTR]).
Definition plain_open : OpenAnswers := mkOpen plain_parent None [ReadCount 7; ReadErrno EINTR].
Definition in_directory : Posix := ConcreteDisk.posix (fun _ => "dir").
Definition empty_disk : ConcreteDisk.State := ConcreteDisk.mkState None [] None.
Definition empty_store : DedupStore := mkStore "dir/dedup" 8 ∅.

Lemma plain_open_fine : open_fine plain_open.
Proof. by split; [|repeat constructor|..]. Qed.

Lemma empty_store_ok : store_ok empty_store.
Proof. split; [|done|done]. intros s h H. change ((∅ : Entries) !! s = Some h) in H. by rewrite lookup_empty in H. Qed.

Lemma empty_durable : @durable software_backend in_directory empty_store empty_disk.
Proof.
  split; [by exists ∅|]. intros c (f & ->%list_elem_of_singleton & Hf). exists ∅. by rewrite (Hf I).
Qed.

Lemma record_accepted_crash_safe_witness :
  let '(_, d', (st', r)) :=
    @RecordAccepted in_directory software_backend empty_store (mkSource 7 8 9) 5 bumpy_publish empty_disk in
  r = Ok tt /\ @durable software_backend in_directory st' d' /\
  @Open in_directory software_backend "dir/dedup" 8 plain_open d'
  = ([], d', Ok (mkStore "dir/dedup" 8 {[mkSource 7 8 9 := 5]})).
Proof.
  pose proof (record_accepted_crash_safe in_directory (ConcreteDisk.posix_laws _) software_backend software_laws
    empty_store (mkSource 7 8 9) 5 bumpy_publish empty_disk empty_store_ok ltac:(by vm_compute)
    ltac:(by vm_compute) ltac:(done) empty_durable) as H.
  destruct (RecordAccepted _ _ _ _ _) as [[t d'] [st' r]] eqn:E. destruct H as (_ & _ & H).
  vm_compute in E. injection E as <- <- <- <-. split; [done|]. split; [by apply H|]. vm_compute. reflexivity.
Defined.

(** The read loop always ends, and without a hard error it returns the whole
    file when this is within the bound. *)
Theorem read_all_terminates (P : Posix) (answers : list ReadAnswer) (content : list byte) (max : Z)
    (path : string) :
  exists r, ReadAll answers content max path = Some r /\
    (Forall read_fine answers -> zlen content <= max -> r = Ok content).
Proof. apply ReadAll_total. Qed.

(** With a bare file name, which has no parent directory, the directory is
    not synchronised: a report returns success and the previous entries may still
    be the ones a crash leaves. *)
Theorem bare_path_report_not_durable :
  let P := ConcreteDisk.posix (fun _ => "") in
  let '(_, d', (st', r)) := @RecordAccepted P software_backend (mkStore "dedup" 8 ∅) (mkSource 7 8 9) 5
    plain_publish empty_disk in
  r = Ok tt /\ entries_ st' = {[mkSource 7 8 9 := 5]} /\ @survives P d' None.
Proof.
  cbv zeta. destruct (RecordAccepted _ _ _ _ _) as [[t d'] [st' r]] eqn:E. vm_compute in E.
  injection E as <- <- <- <-. split_and!; [done|done|]. exists None. split; [|done].
  apply elem_of_cons. right. apply elem_of_cons. by left.
Qed.

(** The size bound of the file is computed in 64 bits; from [2^59] sources on
    it wraps, and the store cannot open the snapshot it has written. *)
Theorem size_bound_wraps :
  let '(_, d', (_, r)) := @RecordAccepted in_directory software_backend (mkStore "dir/dedup" (2^59) ∅)
    (mkSource 7 8 9) 5 plain_publish empty_disk in
  r = Ok tt /\
  @Open in_directory software_backend "dir/dedup" (2^59) plain_open d'
  = ([], d', Err (Corruption "dedup store file exceeds size bound")).
Proof.
  destruct (RecordAccepted _ _ _ _ _) as [[t d'] [st' r]] eqn:E. vm_compute in E.
  injection E as <- <- <- <-. split; [done|]. vm_compute. reflexivity.
Qed.
