(* ===== verification/BridgeReceiver.v ===== *)
(** * The receiving half of the bridge pipeline

    Models [HandleData], [EmitAck] and their helpers of
    [mino/bridge/bridge_pipeline.cc], and the part of [Create] that concerns the
    receiver: a data frame is checked against the deduplication window, published,
    committed, reported to the durable store and acknowledged.  The local publication
    ([BridgeIngressPort::DecodeValidatePublish]) answers with a status, which is an
    input of the model, as are the answers of the system calls of the store.  Every
    publication is returned as an event, so that the theorems speak of what was
    really published. *)
From S2P Require Import Prelude SourceIdentity Bytes Crc32c WireFrame DedupWindow DedupSession DedupStore.
From S2P Require Import DurableFile DurableStore ControlPayload RetransmitWindow AckQueue.

Record ReceiverOptions : Set := mkReceiverOptions {
  local_session_epoch : Z;
  remote_session_epoch : Z;
  lane_index : Z;
  lane_count : Z;
  local_dedup_state_lost : bool;
  max_control_frames : Z
}.

Record Receiver : Set := mkReceiver {
  recv_options : ReceiverOptions;
  dedup_store : option DedupStore;
  dedup_ : DedupWindow;
  acks_ : AckQueue
}.
Definition with_dedup (st : Receiver) (d : DedupWindow) : Receiver :=
  mkReceiver (recv_options st) (dedup_store st) d (acks_ st).
Definition with_acks (st : Receiver) (q : AckQueue) : Receiver :=
  mkReceiver (recv_options st) (dedup_store st) (dedup_ st) q.
Definition with_store (st : Receiver) (store : DedupStore) : Receiver :=
  mkReceiver (recv_options st) (Some store) (dedup_ st) (acks_ st).

(** What the ports answer to the calls of one [HandleData]. *)
Record PortAnswers : Set := mkAnswers { publish_answer : Result unit; record_answers : PublishAnswers }.

(** The (source, sequence) a call published. *)
Definition Event : Set := SourceIdentity * Z.

Definition SourceFrom (h : WireFrameHeader) : SourceIdentity :=
  mkSource (source_node_id h) (source_publisher_id h) (source_publisher_epoch h).

Definition ValidSource (s : SourceIdentity) : bool :=
  negb (node_id s =? 0) && negb (publisher_id s =? 0) && negb (publisher_epoch s =? 0).

Definition SourceBelongsToLane (s : SourceIdentity) (lane count : Z) : bool :=
  BridgeLaneFor s count =? lane.

(** The ACK both [HandleData] and [EmitAck] build. *)
Definition ack_for (o : ReceiverOptions) (h : WireFrameHeader) (highest : option Z)
    (d : AckDisposition) : AckPayload :=
  mkAck (local_session_epoch o) (remote_session_epoch o) (SourceFrom h) (sequence_num h) highest d.

Definition EmitAck (st : Receiver) (h : WireFrameHeader) (state : DedupCheckResult)
    (d : AckDisposition) : Receiver * Result unit :=
  let '(q, r) := QueueAck (acks_ st) (max_control_frames (recv_options st))
                   (ack_for (recv_options st) h (check_highest state) d) in
  (with_acks st q, r).

(** The mark an ACK of this frame is foreseen to carry. *)
Definition prospective (highest sequence : Z) (degraded : bool) : Z :=
  if degraded || (negb (highest =? u64_max) && (sequence =? highest + 1)) then sequence else highest.

Section Handler.
Context {P : Posix} {B : Crc32cBackend}.

(** What a handler leaves: the disk states it went through, the disk, the receiver
    and the status. *)
Definition Outcome : Type := list Disk * Disk * (Receiver * Result unit).
Definition quiet (d : Disk) (out : Receiver * Result unit) : Outcome := ([], d, out).

Definition PersistDedupAccepted (st : Receiver) (s : SourceIdentity) (highest : Z)
    (a : PublishAnswers) (d : Disk) : Outcome :=
  match dedup_store st with
  | None => quiet d (st, Ok tt)
  | Some store =>
      if highest =? 0 then quiet d (st, Ok tt)
      else let '(t, d', (store', r)) := RecordAccepted store s highest a d in
           (t, d', (with_store st store', r))
  end.

(** After a successful publication: commit, look the mark up, persist it and
    acknowledge. *)
Definition finish_accept (st : Receiver) (h : WireFrameHeader) (now_ns : Z) (degraded : bool)
    (a : PublishAnswers) (d : Disk) : Outcome :=
  let o := recv_options st in
  let s := SourceFrom h in
  let '(w, committed) :=
    if degraded then SeedAccepted (dedup_ st) (remote_session_epoch o) s (sequence_num h) now_ns
    else CommitAccepted (dedup_ st) (remote_session_epoch o) s (sequence_num h) now_ns in
  let st := with_dedup st w in
  match committed with
  | Err e => quiet d (st, Err e)
  | Ok _ =>
      let '(w, checked) := Check (dedup_ st) (remote_session_epoch o) s (sequence_num h) now_ns in
      let st := with_dedup st w in
      match checked with
      | Err e => quiet d (st, Err e)
      | Ok state =>
          match check_highest state with
          | Some highest =>
              let '(t, d', (st, persisted)) := PersistDedupAccepted st s highest a d in
              match persisted with
              | Err e => (t, d', (st, Err e))
              | Ok _ => (t, d', EmitAck st h state kAccepted)
              end
          | None => quiet d (EmitAck st h state kAccepted)
          end
      end
  end.

(** The path of a frame that is to be accepted. *)
Definition accept_frame (st : Receiver) (h : WireFrameHeader) (now_ns : Z) (highest : Z) (degraded : bool)
    (answers : PortAnswers) (d : Disk) : Outcome * option Event :=
  let o := recv_options st in
  let s := SourceFrom h in
  if negb (CanQueueAck (acks_ st) (max_control_frames o)
             (ack_for o h (Some (prospective highest (sequence_num h) degraded)) kAccepted))
  then (quiet d (st, Err would_block), None)
  else
    let '(w, prepared) := PrepareSource (dedup_ st) (remote_session_epoch o) s now_ns in
    let st := with_dedup st w in
    match prepared with
    | Err e => (quiet d (st, Err e), None)
    | Ok _ =>
        match publish_answer answers with
        | Err e => (quiet d (st, Err e), None)
        | Ok _ => (finish_accept st h now_ns degraded (record_answers answers) d, Some (s, sequence_num h))
        end
    end.

Definition HandleData (st : Receiver) (h : WireFrameHeader) (now_ns : Z) (answers : PortAnswers) (d : Disk)
  : Outcome * option Event :=
  let o := recv_options st in
  let s := SourceFrom h in
  if negb (ValidSource s)
  then (quiet d (st, Err (Corruption "bridge data source identity is incomplete")), None)
  else if negb (SourceBelongsToLane s (lane_index o) (lane_count o))
  then (quiet d (st, Err (Corruption "bridge data source belongs to another lane")), None)
  else
    let '(w, checked) := Check (dedup_ st) (remote_session_epoch o) s (sequence_num h) now_ns in
    let st := with_dedup st w in
    match checked with
    | Err e => (quiet d (st, Err e), None)
    | Ok state =>
        let highest := default 0 (check_highest state) in
        match decision state with
        | kStaleSession => (quiet d (st, Err (Corruption "bridge data belongs to a stale session")), None)
        | kDuplicateAccepted => (quiet d (EmitAck st h state kAccepted), None)
        | DedupWindow.kNackWithHighest =>
            if local_dedup_state_lost o && (highest =? 0) && negb (HasSource w s)
            then accept_frame st h now_ns highest true answers d
            else (quiet d (EmitAck st h state kNackWithHighest), None)
        | kAccept => accept_frame st h now_ns highest false answers d
        end
    end.
End Handler.

Definition state_kept (o : ReceiverOptions) : ReceiverOptions :=
  mkReceiverOptions (local_session_epoch o) (remote_session_epoch o) (lane_index o) (lane_count o)
    false (max_control_frames o).

(** [Create]'s part for the receiver: a new window whose session is begun with
    the peer's epoch and seeded from the store, and no pending ACK. *)
Definition new_receiver (o : ReceiverOptions) (options : DedupWindowOptions) (store : option DedupStore)
  : Result Receiver :=
  let! w := DedupWindow.Create options in
  let w := DedupWindow.BeginSession w (remote_session_epoch o) 0 false in
  match store with
  | None => Ok (mkReceiver o None w empty_queue)
  | Some st =>
      let '(w, r) := SeedDedupWindowFromStore w st (remote_session_epoch o) 0 in
      check! r ;;
      Ok (mkReceiver (state_kept o) (Some st) w empty_queue)
  end.

(** ** The invariant *)

(** The (source, sequence) pairs published so far. *)
Abbreviation History := (SourceIdentity -> Z -> Prop).
Definition publishes (H : History) (s : SourceIdentity) (n : Z) : History :=
  fun t m => H t m \/ t = s /\ m = n.

(** Every sequence the entries claim was published. *)
Definition below (H : History) (m : Entries) : Prop :=
  forall s h n, m !! s = Some h -> 1 <= n <= h -> H s n.

Lemma mark_accepted w s n : 1 <= n <= mark w s -> window_accepted w s n.
Proof.
  unfold mark, window_accepted. destruct (view w s) as [e|]; [|lia]. intros Hn. by left.
Qed.

Lemma mark_u64 w s : dedup_wf w -> is_u64 (mark w s).
Proof.
  intros Hw. unfold mark. destruct (view w s) as [e|] eqn:E; [|done].
  by destruct (view_state_ok _ _ _ Hw E) as [[_ _ ? _] _].
Qed.

Definition header_typed (h : WireFrameHeader) : Prop :=
  is_u64 (source_node_id h) /\ is_u64 (source_publisher_id h) /\ is_u64 (source_publisher_epoch h) /\
  is_u64 (sequence_num h).

Lemma header_source_ok h : header_typed h -> SourceIdentity.source_ok (SourceFrom h).
Proof. intros (H1 & H2 & H3 & _). done. Qed.

Section Invariant.
Context {P : Posix} {PL : PosixLaws P} {B : Crc32cBackend} {BL : Crc32cLaws B}.

(** Whatever a crash leaves in the store's file claims only what was published. *)
Definition crash_ok (st : Receiver) (H : History) (d : Disk) : Prop :=
  match dedup_store st with
  | None => True
  | Some store => reads_back (max_sources_ store) (below H) d
  end.

Record receiver_ok (st : Receiver) (d : Disk) (H : History) : Prop := {
  ro_dedup : dedup_wf (dedup_ st);
  ro_normal : normal (dedup_ st);
  ro_queue : queue_wf (acks_ st);
  ro_age : 0 <= max_source_age_ns (DedupWindow.options_ (dedup_ st));
  ro_active : DedupWindow.session_active_ (dedup_ st) = true;
  ro_epoch : remote_session_epoch (recv_options st) = peer_session_epoch_ (dedup_ st);
  ro_kept : local_dedup_state_lost (recv_options st) = false;
  ro_accepted : forall s n, window_accepted (dedup_ st) s n -> H s n;
  ro_covered : forall s n, 1 <= n -> queue_covers (acks_ st) s n -> H s n;
  ro_store : forall store, dedup_store st = Some store -> store_ok store /\ below H (DurableStore.entries_ store);
  ro_crash : crash_ok st H d;
  ro_typed : is_u64 (local_session_epoch (recv_options st)) /\ is_u64 (remote_session_epoch (recv_options st));
  ro_acks : forall id a, payloads_ (acks_ st) !! id = Some a -> ack_ok a;
  ro_sources : forall s, is_Some (view (dedup_ st) s) -> SourceIdentity.source_ok s
}.

Lemma crash_ok_mono st (H H' : History) d :
  (forall s n, H s n -> H' s n) -> crash_ok st H d -> crash_ok st H' d.
Proof.
  intros HH. unfold crash_ok. destruct (dedup_store st); [|done]. apply reads_back_mono.
  intros m Hm s h n Hs Hn. by apply HH, (Hm s h n).
Qed.

Lemma receiver_ok_mono st d (H H' : History) :
  (forall s n, H s n -> H' s n) -> receiver_ok st d H -> receiver_ok st d H'.
Proof.
  intros HH [H1 H2 H3 H4 H5 H6 H7 H8 H9 H10 H11 H12 H13 H14].
  split; try done; [by eauto|by eauto| |by eapply crash_ok_mono].
  intros store Hs. destruct (H10 store Hs) as [Ho Hb]. split; [done|]. intros s h n ? ?. by apply HH, (Hb s h n).
Qed.

Lemma receiver_ok_dedup st d H w :
  receiver_ok st d H -> dedup_wf w -> same_config (dedup_ st) w -> normal w ->
  (forall s n, window_accepted w s n -> H s n) -> (forall s, is_Some (view w s) -> SourceIdentity.source_ok s) ->
  receiver_ok (with_dedup st w) d H.
Proof.
  intros [H1 H2 H3 H4 H5 H6 H7 H8 H9 H10 H11 H12 H13 H14] Hd (C1 & _ & _ & C4 & C5) Hn Ha Hs.
  split; cbn [dedup_ acks_ recv_options with_dedup dedup_store]; try done; congruence.
Qed.

(** ** Acknowledging *)

Lemma emit_ack_spec st d H h state disp :
  receiver_ok st d H -> header_typed h -> check_highest state = Some (mark (dedup_ st) (SourceFrom h)) ->
  (disp = kAccepted -> H (SourceFrom h) (sequence_num h)) ->
  let '(st', r) := EmitAck st h state disp in
  receiver_ok st' d H /\ dedup_ st' = dedup_ st /\ recv_options st' = recv_options st /\
  dedup_store st' = dedup_store st /\
  (is_ok r = true -> disp = kAccepted -> queue_covers (acks_ st') (SourceFrom h) (sequence_num h)).
Proof.
  intros Hok Hty Hh Hd. unfold EmitAck. rewrite Hh.
  pose proof (QueueAck_spec (acks_ st) (max_control_frames (recv_options st))
    (ack_for (recv_options st) h (Some (mark (dedup_ st) (SourceFrom h))) disp) (ro_queue _ _ _ Hok)) as Hq.
  destruct (QueueAck _ _ _) as [q [[]|e]].
  - destruct Hq as [Q1 _ Q3 _ Q5]. split_and!; [|done|done|done|intros _ ->; by apply Q5].
    pose proof (mark_u64 _ (SourceFrom h) (ro_dedup _ _ _ Hok)) as Hmark.
    destruct Hok as [H1 H2 H3 H4 H5 H6 H7 H8 H9 H10 H11 [H12 H12'] H13 H14]. split; try done.
    2:{ intros id a Ha. destruct (Q3 _ _ Ha) as [Hold| ->]; [by eapply H13|].
        destruct Hty as (T1 & T2 & T3 & T4). by split. }
    intros s n Hn (id & a & Ha & Hs & Hc). cbn [acks_ with_acks] in Ha.
    destruct (Q3 _ _ Ha) as [Hold| ->].
    + apply H9; [done|]. exists id, a. done.
    + cbn [source ack_for] in Hs. subst s. destruct Hc as [(x & [= <-] & Hx)|[Hacc ->]].
      * apply H8, mark_accepted. done.
      * by apply Hd.
  - destruct Hq as (-> & -> & _). split_and!; try done. by destruct st.
Qed.

(** ** Reporting to the store *)

Lemma PersistDedupAccepted_spec st d H s highest a :
  receiver_ok st d H -> entry_typed (s, highest) -> (forall n, 1 <= n <= highest -> H s n) ->
  let '(t, d', (st', r)) := PersistDedupAccepted st s highest a d in
  receiver_ok st' d' H /\ Forall (crash_ok st H) t /\ dedup_ st' = dedup_ st /\ acks_ st' = acks_ st /\
  recv_options st' = recv_options st /\ (dedup_store st = None -> r = Ok tt) /\
  (is_ok r = false -> dedup_store st' = dedup_store st).
Proof.
  intros Hok Ht Hp. unfold PersistDedupAccepted, quiet.
  destruct (dedup_store st) as [store|] eqn:Es; [|by split_and!; [|constructor|..]].
  destruct (highest =? 0); [by split_and!; [|constructor|..]|].
  destruct (RecordAccepted store s highest a d) as [[t d'] [store' r]] eqn:Er.
  pose proof Hok as [H1 H2 H3 H4 H5 H6 H7 H8 H9 H10 H11 H12 H13 H14].
  destruct (H10 _ Es) as [Hstore Hbelow]. unfold crash_ok in H11. rewrite Es in H11.
  destruct (RecordAccepted_spec _ _ _ _ _ _ _ _ _ _ Hstore Ht H11 Er) as (S1 & S2 & S3 & S4 & S5).
  assert (below H (<[s := highest]> (DurableStore.entries_ store))) as Hnew.
  { intros t0 h0 n [[<- <-]|[_ Hl]]%lookup_insert_Some Hn; [by apply Hp|by apply (Hbelow t0 h0)]. }
  assert (forall x, x ∈ d' :: t -> reads_back (max_sources_ store) (below H) x) as Hback.
  { intros x Hx. rewrite Forall_elem in S4. eapply reads_back_mono; [|by apply S4]. by intros m [?| ->]. }
  split_and!; try done.
  - split; try done; cbn [dedup_store with_store].
    + intros st0 [= <-]. split; [done|]. destruct r; [|by subst]. destruct S5 as (_ & -> & _).
      unfold recorded. by destruct (_ <? _).
    + unfold crash_ok. cbn [dedup_store with_store]. rewrite S3. apply Hback, elem_of_cons. by left.
  - apply Forall_elem. intros x Hx. unfold crash_ok. rewrite Es. apply Hback, elem_of_cons. by right.
  - cbn [dedup_store with_store]. intros Hr. destruct r; [done|]. by subst.
Qed.

(** ** Accepting one frame *)

(** The frame is new, in the window and about to be published at [now]. *)
Record acceptable (st : Receiver) (h : WireFrameHeader) (now : Z) : Prop := {
  ac_fresh : all_fresh (dedup_ st) now;
  ac_typed : header_typed h;
  ac_sequence : 1 <= sequence_num h;
  ac_new : ~ window_accepted (dedup_ st) (SourceFrom h) (sequence_num h);
  ac_distance : sequence_num h - mark (dedup_ st) (SourceFrom h)
                <= max_sequence_distance (DedupWindow.options_ (dedup_ st))
}.

Lemma prospective_sound highest seq actual :
  0 <= highest -> seq <= u64_max -> highest <= actual -> (seq <= actual <-> seq = highest + 1) ->
  prospective highest seq false <= actual /\ (seq <= actual -> seq <= prospective highest seq false).
Proof.
  intros H1 H2 H3 H4. unfold prospective. cbn [orb].
  destruct (Z.eqb_spec highest u64_max), (Z.eqb_spec seq (highest + 1)); cbn [negb andb]; lia.
Qed.

(** The commit and the second look-up of the frame. *)
Lemma commit_and_check st d H h now :
  receiver_ok st d H -> acceptable st h now -> is_Some (view (dedup_ st) (SourceFrom h)) ->
  let s := SourceFrom h in
  let n := sequence_num h in
  exists w1 w2 state,
    CommitAccepted (dedup_ st) (remote_session_epoch (recv_options st)) s n now = (w1, Ok tt) /\
    Check w1 (remote_session_epoch (recv_options st)) s n now = (w2, Ok state) /\
    check_highest state = Some (mark w2 s) /\ window_accepted w2 s n /\
    receiver_ok (with_dedup (with_dedup st w1) w2) d (publishes H s n) /\
    mark (dedup_ st) s <= mark w2 s /\ (n <= mark w2 s <-> n = mark (dedup_ st) s + 1) /\
    mark w2 s - n < max_sequence_distance (DedupWindow.options_ w2).
Proof.
  intros Hok [Hf Hty Hseq Hna Hdist] Hsome s n. pose proof Hty as (_ & _ & _ & Hu). fold s n in Hu, Hseq, Hna, Hdist, Hsome.
  pose proof Hok as [R1 R2 R3 R4 R5 R6 R7 R8 _ _ _ _ _ R14].
  destruct (commit_step (dedup_ st) _ now s R1 R4 R5 R6 n Hf R2 Hsome Hu Hseq Hna Hdist)
    as (w1 & -> & D1 & D2 & D3 & D4 & D5 & D6 & D7 & D8).
  assert (is_Some (view w1 s)) as Hsome1.
  { pose proof (proj2 (D6 n) (or_introl eq_refl)) as Hx. unfold window_accepted in Hx. by destruct (view w1 s). }
  destruct (mark_after_commit _ _ s n R1 D1 R2 D4 Hsome Hsome1 Hseq Hna D6) as [M1 M2].
  assert (receiver_ok (with_dedup st w1) d (publishes H s n)) as Hok1.
  { apply receiver_ok_dedup; try done; [by eapply receiver_ok_mono; [|exact Hok]; left| |].
    - intros t m Ht. destruct (decide (t = s)) as [->|Hne].
      + apply D6 in Ht as [->|Ht]; [by right|left; by apply R8].
      + left. by apply R8, D7.
    - intros t [-> |Ht]%D8; [by apply header_source_ok|by apply R14]. }
  pose proof Hok1 as [S1 S2 S3 S4 S5 S6 S7 S8 _ _ _ _ _ S14]. cbn [dedup_ with_dedup recv_options] in *.
  destruct (check_step w1 _ now s S1 S4 S5 S6 n Hseq)
    as (w2 & state & Hc & E1 & E2 & E3 & E4 & E5 & E6 & E7 & E8 & E9 & E10).
  specialize (E9 D3). specialize (E10 D3). exists w1, w2, state.
  assert (DedupWindow.options_ w2 = DedupWindow.options_ (dedup_ st)) as Hopt
    by (destruct E2 as (-> & _), D2 as (-> & _); done).
  split_and!; [done|done|done|apply E9, D6; by left| |lia|by rewrite E10|rewrite Hopt; lia].
  apply (receiver_ok_dedup (with_dedup st w1)); try done; [by eapply remembers_normal|..].
  - intros t m Ht. apply S8. by eapply remembers_accepted.
  - intros t [e He]. destruct (E4 t e He) as (e0 & He0 & _). apply S14. by eexists.
Qed.

(** What a failed report leaves behind: the frame is in the window, the store and the queue are
    as before, and the queue has room for the acknowledgement of the frame. *)
Record unreported (st : Receiver) (h : WireFrameHeader) (st' : Receiver) : Prop := {
  ur_options : recv_options st' = recv_options st;
  ur_acks : acks_ st' = acks_ st;
  ur_store : dedup_store st' = dedup_store st;
  ur_distance : mark (dedup_ st') (SourceFrom h) - sequence_num h
                < max_sequence_distance (DedupWindow.options_ (dedup_ st'));
  ur_room : is_ok (QueueAck (acks_ st) (max_control_frames (recv_options st))
    (ack_for (recv_options st) h (Some (mark (dedup_ st') (SourceFrom h))) kAccepted)).2 = true
}.

(** What an accepted frame leaves behind. *)
Record accepted_frame (st : Receiver) (H : History) (h : WireFrameHeader) (t : list Disk) (d' : Disk)
    (st' : Receiver) (r : Result unit) : Prop := {
  af_ok : receiver_ok st' d' (publishes H (SourceFrom h) (sequence_num h));
  af_crash : Forall (crash_ok st (publishes H (SourceFrom h) (sequence_num h))) t;
  af_accepted : window_accepted (dedup_ st') (SourceFrom h) (sequence_num h);
  af_acked : r = Ok tt -> queue_covers (acks_ st') (SourceFrom h) (sequence_num h);
  af_returns : dedup_store st = None -> r = Ok tt;
  af_failed : is_ok r = false -> unreported st h st'
}.

Lemma finish_accept_spec st d H h now a :
  receiver_ok st d H -> acceptable st h now -> is_Some (view (dedup_ st) (SourceFrom h)) ->
  CanQueueAck (acks_ st) (max_control_frames (recv_options st))
    (ack_for (recv_options st) h
       (Some (prospective (mark (dedup_ st) (SourceFrom h)) (sequence_num h) false)) kAccepted) = true ->
  let '(t, d', (st', r)) := finish_accept st h now false a d in
  accepted_frame st H h t d' st' r.
Proof.
  intros Hok Hac Hsome Hcan. set (s := SourceFrom h) in *. set (n := sequence_num h) in *.
  destruct (commit_and_check st d H h now Hok Hac Hsome) as (w1 & w2 & state & Hw1 & Hw2 & Hst & Hacc & Hok2 & M1 & M2 & M3).
  fold s n in Hw1, Hw2, Hst, Hacc, Hok2, M1, M2, M3. unfold finish_accept. fold s n. rewrite Hw1.
  cbn [dedup_ with_dedup]. rewrite Hw2, Hst.
  set (st2 := with_dedup (with_dedup st w1) w2) in *.
  destruct (ac_typed _ _ _ Hac) as (T1 & T2 & T3 & T4).
  assert (entry_typed (s, mark w2 s)) as Ht by (split_and!; try done; apply mark_u64, (ro_dedup _ _ _ Hok2)).
  pose proof (PersistDedupAccepted_spec st2 d _ s (mark w2 s) a Hok2 Ht
    ltac:(intros k Hk; by apply (ro_accepted _ _ _ Hok2), mark_accepted)) as Hp.
  destruct (PersistDedupAccepted _ _ _ _ _) as [[t d'] [st3 r3]].
  destruct Hp as (P1 & P2 & P3 & P4 & P5 & P6 & P7).
  assert (is_ok (QueueAck (acks_ st) (max_control_frames (recv_options st))
    (ack_for (recv_options st) h (Some (mark w2 s)) kAccepted)).2 = true) as Hroom.
  { pose proof (mark_u64 (dedup_ st) s (ro_dedup _ _ _ Hok)) as Hm0.
    destruct (prospective_sound (mark (dedup_ st) s) n (mark w2 s) ltac:(ulia) ltac:(unfold is_u64 in T4; lia) M1 M2)
      as [Q1 Q2].
    exact (CanQueueAck_sound (acks_ st) _ _ (ack_for (recv_options st) h (Some (mark w2 s)) kAccepted)
      _ _ (ro_queue _ _ _ Hok) Hcan eq_refl eq_refl eq_refl eq_refl eq_refl eq_refl Q1 Q2). }
  destruct r3 as [[]|e].
  2: { split; try done; [by rewrite P3|]. intros Hf. split; [done | done | by apply P7 | by rewrite P3 | by rewrite P3]. }
  pose proof (emit_ack_spec st3 d' _ h state kAccepted P1 (ac_typed _ _ _ Hac) ltac:(by rewrite P3) ltac:(intros _; by right)) as Hemit.
  assert (is_ok (EmitAck st3 h state kAccepted).2 = true) as Hsent.
  { unfold EmitAck. rewrite Hst, P4, P5. cbn [acks_ with_dedup recv_options st2].
    destruct (QueueAck _ _ _) as [q r]. exact Hroom. }
  destruct (EmitAck st3 h state kAccepted) as [st' r]. cbn [snd] in Hsent.
  destruct Hemit as (O1 & O2 & O3 & O4 & O5). destruct r as [[]|]; [|done].
  split; try done; [by rewrite O2, P3|by intros _; apply O5].
Qed.

Lemma accept_frame_spec st d H h now answers :
  receiver_ok st d H -> acceptable st h now ->
  let '(t, d', (st', r), ev) := accept_frame st h now (mark (dedup_ st) (SourceFrom h)) false answers d in
  match ev with
  | Some e => e = (SourceFrom h, sequence_num h) /\ publish_answer answers = Ok tt /\
      accepted_frame st H h t d' st' r
  | None => t = [] /\ d' = d /\ receiver_ok st' d H /\ is_ok r = false
  end.
Proof.
  intros Hok Hac. unfold accept_frame, quiet. destruct (CanQueueAck _ _ _) eqn:Hcan; cbn [negb]; [|done].
  pose proof Hok as [R1 R2 R3 R4 R5 R6 R7 R8 _ _ _ _ _ R14]. destruct Hac as [A1 A2 A3 A4 A5].
  destruct (prepare_step (dedup_ st) _ now (SourceFrom h) R1 R4 R5 R6 A1)
    as (w1 & -> & D1 & D2 & D3 & D4 & D5 & D6 & D7 & D8 & D9).
  assert (receiver_ok (with_dedup st w1) d H) as Hok1.
  { apply receiver_ok_dedup; try done; [by apply D8|intros s n Hs; by apply R8, D7|].
    intros t [-> |Ht]%D9; [by apply header_source_ok|by apply R14]. }
  destruct (publish_answer answers) as [[]|e]; [|done].
  pose proof (finish_accept_spec (with_dedup st w1) d H h now (record_answers answers) Hok1) as Hfin.
  cbn [dedup_ with_dedup acks_ recv_options] in Hfin. rewrite D6 in Hfin.
  destruct (finish_accept _ _ _ _ _ _) as [[t d'] [st' r]]. split_and!; [done|done|].
  destruct Hfin as [F1 F2 F3 F4 F5 F6]; [|done|done|by split; try done; intros Hr; destruct (F6 Hr); split].
  split; cbn [dedup_ with_dedup]; [done|done|done|by rewrite D5|]. rewrite D6. by destruct D2 as (-> & _).
Qed.

(** One data frame. *)
Lemma HandleData_spec st d H h now answers :
  receiver_ok st d H -> header_typed h ->
  let '(t, d', (st', r), ev) := HandleData st h now answers d in
  match ev with
  | Some e => e = (SourceFrom h, sequence_num h) /\ publish_answer answers = Ok tt /\
      ~ window_accepted (DedupWindow.PurgeExpired (dedup_ st) now).1 (SourceFrom h) (sequence_num h) /\
      accepted_frame st H h t d' st' r
  | None => t = [] /\ d' = d /\ receiver_ok st' d H
  end.
Proof.
  intros Hok Hh. unfold HandleData, quiet. destruct (ValidSource _); cbn [negb]; [|done].
  destruct (SourceBelongsToLane _ _ _); cbn [negb]; [|done].
  pose proof Hok as [R1 R2 R3 R4 R5 R6 R7 R8 _ _ _ _ _ R14].
  destruct (Z.eq_dec (sequence_num h) 0) as [H0|H0].
  { unfold Check. rewrite R5, R6, H0, Z.eqb_refl. cbn [negb orb Z.eqb]. by destruct st. }
  pose proof Hh as (_ & _ & _ & [Hseq _]).
  destruct (Check_spec (dedup_ st) _ (SourceFrom h) (sequence_num h) now R1 R5 R6 ltac:(lia))
    as (w' & state' & Hc' & _ & _ & _ & _ & Hsame).
  destruct (check_step (dedup_ st) _ now (SourceFrom h) R1 R4 R5 R6 (sequence_num h) ltac:(lia))
    as (w & state & Hc & E1 & E2 & E3 & E4 & E5 & E6 & E7 & E8 & _ & _).
  rewrite Hc in Hc'. injection Hc' as <- <-. rewrite Hc, E5. cbn [from_option id].
  assert (receiver_ok (with_dedup st w) d H) as Hok1.
  { apply receiver_ok_dedup; try done; [by eapply remembers_normal|..].
    - intros s n Hs. apply R8. by eapply remembers_accepted.
    - intros t [e He]. destruct (E4 t e He) as (e0 & He0 & _). apply R14. by eexists. }
  assert (forall disp, (disp = kAccepted -> H (SourceFrom h) (sequence_num h)) ->
    receiver_ok (EmitAck (with_dedup st w) h state disp).1 d H) as Hemit.
  { intros disp Hd. pose proof (emit_ack_spec (with_dedup st w) d H h state disp Hok1 Hh E5 Hd) as He.
    destruct (EmitAck _ _ _ _). by destruct He. }
  destruct (decision state) eqn:Ed; [|..|done].
  - destruct (proj1 E7 eq_refl) as [Hna Hdist].
    pose proof (accept_frame_spec (with_dedup st w) d H h now answers Hok1) as Hacc.
    cbn [dedup_ with_dedup] in Hacc.
    destruct (accept_frame _ _ _ _ _ _ _) as [[[t d'] [st' r]] [e|]].
    + destruct Hacc as (F1 & F2 & F3); [|split_and!; [done|done|by rewrite <- (Hsame _ _)|by destruct F3 as [? ? ? ? ? F6]; split; try done; intros Hr; destruct (F6 Hr); split]].
      split; cbn [dedup_ with_dedup]; try done; [lia|]. by destruct E2 as (-> & _).
    + destruct Hacc as (F1 & F2 & F3 & _); [|done].
      split; cbn [dedup_ with_dedup]; try done; [lia|]. by destruct E2 as (-> & _).
  - destruct (proj1 E8 eq_refl) as [Hacc _].
    specialize (Hemit kAccepted ltac:(intros _; by apply (ro_accepted _ _ _ Hok1))).
    by destruct (EmitAck _ _ _ _).
  - rewrite R7. cbn [andb]. specialize (Hemit kNackWithHighest ltac:(done)). by destruct (EmitAck _ _ _ _).
Qed.

(** ** Starting and restarting *)

Lemma seed_entries_spec epoch now (Claim : History) l : forall w,
  dedup_wf w -> 0 <= max_source_age_ns (DedupWindow.options_ w) -> DedupWindow.session_active_ w = true ->
  epoch = peer_session_epoch_ w -> normal w ->
  (forall s n, window_accepted w s n -> Claim s n) ->
  (forall s, is_Some (view w s) -> SourceIdentity.source_ok s) ->
  Forall (fun e => is_u64 (resume_highest e) /\ SourceIdentity.source_ok (resume_source e) /\
            forall n, 1 <= n <= resume_highest e -> Claim (resume_source e) n) l ->
  exists w', seed_entries w l epoch now = (w', Ok tt) /\ dedup_wf w' /\ same_config w w' /\ normal w' /\
    (forall s n, window_accepted w' s n -> Claim s n) /\
    (forall s, is_Some (view w' s) -> SourceIdentity.source_ok s).
Proof.
  induction l as [|e l IH]; intros w Hw Hage Hact Hep Hn Hc Hs Hl; cbn [seed_entries]; [by exists w|].
  apply Forall_cons_1 in Hl as [(E1 & E2 & E3) Hl].
  destruct (seed_step w epoch now (resume_source e) Hw Hact Hep (resume_highest e) E1)
    as (w1 & -> & W1 & W2 & W3 & W4 & W5 & W6).
  pose proof W2 as (C1 & _ & _ & C4 & C5).
  destruct (IH w1) as (w2 & -> & X1 & X2 & X3 & X4 & X5); try done; [by rewrite C1|by rewrite C4|by rewrite C5|auto|..].
  - intros s n Hsn. destruct (decide (s = resume_source e)) as [->|Hne]; [by apply E3, W4|by apply Hc, W5].
  - intros s [-> |Hv]%W6; [done|by apply Hs].
  - exists w2. split_and!; try done. by eapply same_config_trans.
Qed.

Definition options_fine (o : DedupWindowOptions) : Prop :=
  DedupWindow.options_typed o /\ 0 <= max_source_age_ns o.

(** The begun window of [Create]. *)
Lemma begun_window options w epoch now :
  options_fine options -> DedupWindow.Create options = Ok w ->
  let w' := DedupWindow.BeginSession w epoch now false in
  dedup_wf w' /\ 0 <= max_source_age_ns (DedupWindow.options_ w') /\
  DedupWindow.session_active_ w' = true /\ epoch = peer_session_epoch_ w' /\ forall s, view w' s = None.
Proof.
  intros [(O1 & O2 & O3) O4] Hc. cbv zeta.
  destruct (DedupWindow.Create_wf options w O1 O2 O3 Hc) as (Hw & He & Ho).
  assert (DedupWindow.session_active_ w = false) as Hact.
  { unfold DedupWindow.Create in Hc. step_if. cbv zeta in Hc. do 4 step_if. apply Ok_inj in Hc. by subst w. }
  split; [by apply DedupWindow.BeginSession_wf|]. unfold DedupWindow.BeginSession. rewrite Hact. cbn.
  rewrite Ho. done.
Qed.

Lemma new_receiver_ok o options store st d H :
  options_fine options -> is_u64 (local_session_epoch o) /\ is_u64 (remote_session_epoch o) ->
  match store with
  | None => local_dedup_state_lost o = false
  | Some store => store_ok store /\ below H (DurableStore.entries_ store) /\
      reads_back (max_sources_ store) (below H) d
  end ->
  new_receiver o options store = Ok st -> receiver_ok st d H /\ dedup_store st = store /\ acks_ st = empty_queue.
Proof.
  intros Ho He Hs Hnew. unfold new_receiver in Hnew. apply bindR_Ok in Hnew as (w & Hc & Hnew).
  destruct (begun_window options w (remote_session_epoch o) 0 Ho Hc) as (B1 & B2 & B3 & B4 & B5).
  set (w1 := DedupWindow.BeginSession _ _ _ _) in *.
  assert (forall s n, ~ window_accepted w1 s n) as B6 by (intros s n; unfold window_accepted; rewrite B5; tauto).
  assert (forall s, ~ is_Some (view w1 s)) as B7 by (intros s; rewrite B5; by intros []).
  assert (normal w1) as B8 by (intros s e; by rewrite B5).
  assert (forall (Q : Prop) s n, queue_covers empty_queue s n -> Q) as Bq.
  { intros Q s n (id & a & Ha & _). cbn in Ha. by rewrite lookup_empty in Ha. }
  assert (forall id a, payloads_ empty_queue !! id = Some a -> ack_ok a) as Ba.
  { intros id a Ha. cbn in Ha. by rewrite lookup_empty in Ha. }
  destruct store as [store|].
  - destruct Hs as (S1 & S2 & S3).
    destruct (seed_entries_spec (remote_session_epoch o) 0 H (Load store) w1) as (w2 & Hseed & X1 & X2 & X3 & X4 & X5);
      try done.
    { intros s n Hn. by apply B6 in Hn. }
    { intros s Hv. by apply B7 in Hv. }
    { apply Forall_elem. unfold Load. intros x ((s & h) & -> & Hin)%list_elem_of_fmap.
      apply elem_of_ordered in Hin. destruct (st_entries _ S1 s h Hin) as [_ (T1 & T2 & T3 & T4)].
      split_and!; [done|done|]. intros n Hn. by apply (S2 s h). }
    unfold SeedDedupWindowFromStore in Hnew. rewrite Hseed in Hnew. cbn [bindR] in Hnew. apply Ok_inj in Hnew as <-.
    pose proof X2 as (C1 & _ & _ & C4 & C5).
    split; [|done]. split; cbn [dedup_ acks_ recv_options dedup_store state_kept remote_session_epoch]; try done.
    + apply empty_queue_wf.
    + by rewrite C1.
    + by rewrite C4.
    + by rewrite C5.
    + intros s n _. apply Bq.
    + intros st0 [= <-]. done.
  - apply Ok_inj in Hnew as <-. split; [|done].
    split; cbn [dedup_ acks_ recv_options dedup_store]; try done.
    + apply empty_queue_wf.
    + intros s n Hn. by apply B6 in Hn.
    + intros s n _. apply Bq.
    + intros s Hv. by apply B7 in Hv.
Qed.
End Invariant.

(** ** Properties *)

Definition after_event (H : History) (ev : option Event) : History :=
  match ev with Some (s, n) => publishes H s n | None => H end.

Lemma HandleData_keeps (P : Posix) (PL : PosixLaws P) (B : Crc32cBackend) (BL : Crc32cLaws B)
    st d H h now answers t d' st' r ev :
  receiver_ok st d H -> header_typed h -> HandleData st h now answers d = (t, d', (st', r), ev) ->
  receiver_ok st' d' (after_event H ev) /\ Forall (crash_ok st (after_event H ev)) t.
Proof.
  intros Hok Hh E. pose proof (HandleData_spec st d H h now answers Hok Hh) as Hs. rewrite E in Hs.
  destruct ev as [e|]; [|by destruct Hs as (-> & -> & ?)]. by destruct Hs as (-> & _ & _ & []).
Qed.

Lemma fresh_accepted w now s n :
  dedup_wf w -> (forall e, view w s = Some e -> fresh w now e) -> window_accepted w s n ->
  window_accepted (DedupWindow.PurgeExpired w now).1 s n.
Proof.
  intros Hw Hf. unfold window_accepted. rewrite purge_view by done. destruct (view w s) as [e|] eqn:E; [|done].
  by rewrite decide_True by by apply Hf.
Qed.

(** C18: a data frame is published at most once while its source is retained.  A
    frame of the accepted set is not published; a published frame enters the accepted
    set, and its acknowledgement is queued unless the durable report failed; a second
    delivery at a time the source has not expired is not published.  Without a durable
    store a published frame is always acknowledged. *)
Theorem data_published_at_most_once (P : Posix) (PL : PosixLaws P) (B : Crc32cBackend) (BL : Crc32cLaws B)
    (st : Receiver) (d : Disk) (H : History) (h : WireFrameHeader) (now : Z) (answers : PortAnswers) :
  receiver_ok st d H -> header_typed h ->
  let s := SourceFrom h in
  let n := sequence_num h in
  let '(_, d', (st', r), ev) := HandleData st h now answers d in
  (window_accepted (DedupWindow.PurgeExpired (dedup_ st) now).1 s n -> ev = None) /\
  (ev <> None ->
     ev = Some (s, n) /\ publish_answer answers = Ok tt /\ window_accepted (dedup_ st') s n /\
     (r = Ok tt -> queue_covers (acks_ st') s n) /\ (dedup_store st = None -> r = Ok tt) /\
     forall now' answers',
       (forall e, view (dedup_ st') s = Some e -> fresh (dedup_ st') now' e) ->
       (HandleData st' h now' answers' d').2 = None).
Proof.
  intros Hok Hh. cbv zeta. pose proof (HandleData_spec st d H h now answers Hok Hh) as Hs.
  destruct (HandleData st h now answers d) as [[[t d'] [st' r]] [e|]]; [|split; [done|by intros []]].
  destruct Hs as (-> & Hp & Hna & [A1 A2 A3 A4 A5 _]). split; [by intros ?|]. intros _. split_and!; try done.
  intros now' answers' Hf. pose proof (HandleData_spec st' d' _ h now' answers' A1 Hh) as Hs.
  destruct (HandleData st' h now' answers' d') as [[[t2 d2] [st2 r2]] [e|]]; [exfalso|done].
  destruct Hs as (_ & _ & Hna' & _). apply Hna'. apply fresh_accepted; [apply A1|done|done].
Qed.

Definition sample_header (n : Z) : WireFrameHeader := mkHeader kData 0 1 2 3 4 5 7 8 9 n 0 None.
Definition sample_receiver_options : ReceiverOptions := mkReceiverOptions 6 5 0 1 false 4.
Definition plain_answers : PortAnswers := mkAnswers (Ok tt) plain_publish.
Definition sample_receiver : Receiver :=
  Eval vm_compute in
    match new_receiver sample_receiver_options DedupWindow.sample_options None with
    | Ok st => st
    | Err _ => mkReceiver sample_receiver_options None DedupWindow.sample_window empty_queue
    end.

Lemma sample_receiver_ok :
  @receiver_ok in_directory software_backend sample_receiver empty_disk (fun _ _ => False).
Proof.
  eapply (new_receiver_ok sample_receiver_options DedupWindow.sample_options None).
  - split; [unfold DedupWindow.options_typed; cbn; lia|cbn; lia].
  - split; unfold is_u64; cbn; lia.
  - done.
  - vm_compute. reflexivity.
Qed.

Lemma data_published_at_most_once_witness :
  let '(_, d', (st', r), ev) :=
    @HandleData in_directory software_backend sample_receiver (sample_header 1) 10 plain_answers empty_disk in
  r = Ok tt /\ ev = Some (mkSource 7 8 9, 1) /\ queue_covers (acks_ st') (mkSource 7 8 9) 1 /\
  (@HandleData in_directory software_backend st' (sample_header 1) 11 plain_answers d').2 = None.
Proof.
  pose proof (data_published_at_most_once in_directory (ConcreteDisk.posix_laws _) software_backend software_laws
    sample_receiver empty_disk (fun _ _ => False) (sample_header 1) 10 plain_answers sample_receiver_ok
    ltac:(unfold header_typed, is_u64; cbn; lia)) as H. cbv zeta in H.
  set (out := HandleData _ _ _ _ _) in *.
  assert (out.1.2.2 = Ok tt) as Hr by (vm_compute; reflexivity).
  assert (out.2 = Some (mkSource 7 8 9, 1)) as Hev by (vm_compute; reflexivity).
  assert (forall e, view (dedup_ out.1.2.1) (mkSource 7 8 9) = Some e -> fresh (dedup_ out.1.2.1) 11 e) as Hf
    by (intros e He; vm_compute in He; injection He as <-; vm_compute; reflexivity).
  clearbody out. destruct out as [[[t d'] [st' r]] ev]. cbn [fst snd] in Hr, Hev, Hf. subst r ev.
  destruct H as [_ H]. destruct (H ltac:(done)) as (_ & _ & _ & H4 & _ & H6).
  split_and!; [done|done|by apply H4|by apply H6].
Defined.

(** A receiver over an empty store whose next report finds the disk full. *)
Definition stored_receiver : Receiver :=
  match new_receiver sample_receiver_options DedupWindow.sample_options (Some empty_store) with
  | Ok st => st
  | Err _ => sample_receiver
  end.
Lemma stored_receiver_ok :
  @receiver_ok in_directory software_backend stored_receiver empty_disk (fun _ _ => False).
Proof.
  eapply (new_receiver_ok sample_receiver_options DedupWindow.sample_options (Some empty_store)).
  - split; [unfold DedupWindow.options_typed; cbn; lia|cbn; lia].
  - split; unfold is_u64; cbn; lia.
  - split_and!; [apply empty_store_ok | by intros s x n; cbn; rewrite lookup_empty |].
    eapply reads_back_mono; [|apply empty_durable]. intros m ->. by intros s x n; cbn; rewrite lookup_empty.
  - vm_compute. reflexivity.
Qed.
Definition full_disk_answers : PortAnswers :=
  mkAnswers (Ok tt) (mkPublish plain_parent (Some ENOSPC) [] None [] [] (mkDirectory None [])).

(** The second delivery of a frame of the accepted set whose acknowledgement fits the queue. *)
Lemma HandleData_duplicate (P : Posix) (B : Crc32cBackend) (st st' : Receiver) (H : History) (h : WireFrameHeader)
    (d' : Disk) (now' : Z) (answers' : PortAnswers) :
  receiver_ok st' d' H -> header_typed h -> 1 <= sequence_num h ->
  ValidSource (SourceFrom h) = true ->
  SourceBelongsToLane (SourceFrom h) (lane_index (recv_options st)) (lane_count (recv_options st)) = true ->
  window_accepted (dedup_ st') (SourceFrom h) (sequence_num h) -> unreported st h st' ->
  (forall e, view (dedup_ st') (SourceFrom h) = Some e -> fresh (dedup_ st') now' e) ->
  exists st2, HandleData st' h now' answers' d' = ([], d', (st2, Ok tt), None) /\
    queue_covers (acks_ st2) (SourceFrom h) (sequence_num h) /\ dedup_store st2 = dedup_store st.
Proof.
  intros Hok Hh Hseq Hv Hl Hacc [U1 U2 U3 U4 U5] Hf. set (s := SourceFrom h) in *. set (n := sequence_num h) in *.
  pose proof Hok as [R1 R2 R3 R4 R5 R6 R7 R8 _ _ _ _ _ R14].
  destruct (Check_spec (dedup_ st') _ s n now' R1 R5 R6 Hseq) as (w' & state' & Hc' & _ & _ & _ & _ & Hsame).
  destruct (check_step (dedup_ st') _ now' s R1 R4 R5 R6 n Hseq)
    as (w & state & Hc & E1 & E2 & E3 & E4 & E5 & E6 & E7 & E8 & _ & _).
  rewrite Hc in Hc'. injection Hc' as <- <-.
  assert (window_accepted w s n) as Hw by (apply Hsame, fresh_accepted; done).
  assert (mark w s = mark (dedup_ st') s) as Hm.
  { unfold window_accepted in Hw. unfold mark. destruct (view w s) as [e'|] eqn:Ev; [|done].
    destruct (E4 s e' Ev) as (e & -> & [-> _]). done. }
  assert (decision state = kDuplicateAccepted) as Hd.
  { apply E8. split; [done|]. by rewrite Hm. }
  assert (receiver_ok (with_dedup st' w) d' H) as Hok1.
  { apply receiver_ok_dedup; try done; [by eapply remembers_normal|..].
    - intros t m Ht. apply R8. by eapply remembers_accepted.
    - intros t [e He]. destruct (E4 t e He) as (e0 & He0 & _). apply R14. by eexists. }
  pose proof (emit_ack_spec (with_dedup st' w) d' H h state kAccepted Hok1 Hh E5 ltac:(intros _; by apply R8)) as He.
  unfold HandleData, quiet. fold s n. rewrite Hv, U1, Hl. cbn [negb]. rewrite <- U1, Hc, Hd.
  unfold EmitAck in *. rewrite E5, Hm in *. cbn [acks_ with_dedup recv_options] in *. rewrite U1, U2 in *.
  destruct (QueueAck _ _ _) as [q r]. cbn [snd] in U5. destruct r as [[]|]; [|done].
  eexists. split; [reflexivity|]. destruct He as (_ & _ & _ & -> & He). split; [by apply He | done].
Qed.

(** C35: an acknowledgement can precede the durable record.  Whenever a data frame is published
    and its handler returns an error, the error is the durable report's: there is a store, it
    and the acknowledgement queue are as before the frame, and the frame is in the accepted set.
    Delivered again while its source has not expired, with any answers of the ports, the frame is
    acknowledged as accepted, and this second call neither reports to the store nor writes to the
    disk: the acknowledgement rests on no report that succeeded. *)
Theorem failed_report_acked_on_retry (P : Posix) (PL : PosixLaws P) (B : Crc32cBackend) (BL : Crc32cLaws B)
    (st : Receiver) (d : Disk) (H : History) (h : WireFrameHeader) (now : Z) (answers : PortAnswers)
    (t : list Disk) (d' : Disk) (st' : Receiver) (e : Status) (ev : Event) (now' : Z) (answers' : PortAnswers) :
  receiver_ok st d H -> header_typed h ->
  HandleData st h now answers d = (t, d', (st', Err e), Some ev) ->
  (forall x, view (dedup_ st') (SourceFrom h) = Some x -> fresh (dedup_ st') now' x) ->
  dedup_store st <> None /\ dedup_store st' = dedup_store st /\ acks_ st' = acks_ st /\
  window_accepted (dedup_ st') (SourceFrom h) (sequence_num h) /\
  exists st2, HandleData st' h now' answers' d' = ([], d', (st2, Ok tt), None) /\
    queue_covers (acks_ st2) (SourceFrom h) (sequence_num h) /\ dedup_store st2 = dedup_store st.
Proof.
  intros Hok Hh E Hf. pose proof (HandleData_spec st d H h now answers Hok Hh) as Hs. rewrite E in Hs.
  destruct Hs as (_ & _ & _ & [A1 _ A3 _ A5 A6]). specialize (A6 eq_refl).
  split_and!; [by intros ?%A5 | apply A6 | apply A6 | done |].
  unfold HandleData, quiet in E. destruct (ValidSource _) eqn:Ev; cbn [negb] in E; [|done].
  destruct (SourceBelongsToLane _ _ _) eqn:El; cbn [negb] in E; [|done].
  assert (1 <= sequence_num h) as Hseq.
  { destruct (Z.eq_dec (sequence_num h) 0) as [H0|H0]; [|destruct Hh as (_ & _ & _ & [? _]); lia].
    exfalso. pose proof Hok as [_ _ _ _ R5 R6 _ _ _ _ _ _ _ _].
    unfold Check in E. rewrite R5, R6, H0, Z.eqb_refl in E. done. }
  by eapply HandleData_duplicate.
Qed.

(** After the disk was full, nothing a crash can leave records the frame that the second delivery
    acknowledges. *)
Theorem retried_frame_acked_unrecorded :
  let '(_, d1, (st1, r1), ev1) :=
    @HandleData in_directory software_backend stored_receiver (sample_header 1) 10 full_disk_answers empty_disk in
  let '(_, d2, (st2, r2), _) :=
    @HandleData in_directory software_backend st1 (sample_header 1) 11 plain_answers d1 in
  ev1 = Some (mkSource 7 8 9, 1) /\ r1 <> Ok tt /\ r2 = Ok tt /\
  (exists ack, front_ack (acks_ st2) = Some ack /\ disposition ack = kAccepted /\
     highest_contiguous_sequence ack = Some 1 /\ source ack = mkSource 7 8 9) /\
  forall c, @survives in_directory d2 c -> c = None.
Proof.
  destruct (HandleData stored_receiver _ _ _ _) as [[[t1 d1] [st1 r1]] ev1] eqn:E1. vm_compute in E1.
  injection E1 as <- <- <- <- <-. destruct (HandleData _ (sample_header 1) 11 _ _) as [[[t2 d2] [st2 r2]] ev2] eqn:E2.
  vm_compute in E2. injection E2 as <- <- <- <- <-. split_and!; [done|done|done| |].
  - eexists. split; [vm_compute; reflexivity|done].
  - intros c (f & ->%list_elem_of_singleton & Hc). by apply Hc.
Qed.

Lemma failed_report_acked_on_retry_witness :
  let '(_, d1, (st1, _), _) :=
    @HandleData in_directory software_backend stored_receiver (sample_header 1) 10 full_disk_answers empty_disk in
  exists st2, @HandleData in_directory software_backend st1 (sample_header 1) 11 plain_answers d1
                = ([], d1, (st2, Ok tt), None) /\ queue_covers (acks_ st2) (mkSource 7 8 9) 1.
Proof.
  pose proof (fun t d' st' e ev => failed_report_acked_on_retry in_directory (ConcreteDisk.posix_laws _) software_backend software_laws
    stored_receiver empty_disk (fun _ _ => False) (sample_header 1) 10 full_disk_answers t d' st' e ev 11 plain_answers
    stored_receiver_ok ltac:(unfold header_typed, is_u64; cbn; lia)) as H.
  set (out := HandleData _ _ _ _ _) in *.
  assert (is_ok out.1.2.2 = false) as Hr by (vm_compute; reflexivity).
  assert (out.2 = Some (mkSource 7 8 9, 1)) as Hev by (vm_compute; reflexivity).
  assert (forall x, view (dedup_ out.1.2.1) (mkSource 7 8 9) = Some x -> fresh (dedup_ out.1.2.1) 11 x) as Hf
    by (intros x Hx; vm_compute in Hx; injection Hx as <-; vm_compute; reflexivity).
  clearbody out. destruct out as [[[t d'] [st' r]] ev]. cbn [fst snd] in Hr, Hev, Hf. subst ev.
  destruct r as [|e]; [discriminate Hr|].
  destruct (H t d' st' e _ eq_refl Hf) as (_ & _ & _ & _ & st2 & H2 & H3 & _). exists st2. by split.
Defined.
