(* ===== verification/BridgeSystem.v ===== *)
(** * Two bridge pipelines

    A sender, a receiver with its durable store, and what they have sent each
    other, as a transition system: frames may be lost, duplicated and reordered, the
    receiver may crash in the middle of a report and restart from its file, sessions may
    be rebound.  The theorems are the end-to-end guarantees: nothing is acknowledged
    that was not published, and no admitted frame is lost. *)
From S2P Require Import Prelude SourceIdentity Bytes Crc32c WireFrame DedupWindow DedupSession DedupStore.
From S2P Require Import DurableFile DurableStore ControlPayload RetransmitWindow PendingReliable SendAttempts.
From S2P Require Import AckQueue BridgeSender BridgeReceiver.

(** [QueueSessionHello]'s payload, without the lane check, which the receiver's own
    guard implies. *)
Definition session_hello (st : Receiver) : SessionHello :=
  let o := recv_options st in
  mkHello (BridgeReceiver.local_session_epoch o) (BridgeReceiver.remote_session_epoch o)
    (local_dedup_state_lost o)
    ((fun e => mkHelloSource (resume_source e) (resume_highest e)) <$> SnapshotAccepted (dedup_ st)).

Section System.
Context {P : Posix} {PL : PosixLaws P} {B : Crc32cBackend} {BL : Crc32cLaws B}.
(** The store's location and bound are configured once. *)
Context (store_path : string) (store_max : Z) (limits : ControlPayloadLimits).

Inductive Peer : Type :=
| Running (st : Receiver) (d : Disk)
| Down (d : Disk).

Record System : Type := mkSystem {
  sender_ : Sender;
  receiver_ : Peer;
  acks_in_flight : list (list byte);
  hellos_in_flight : list (list byte)
}.

(** What the environment has seen so far. *)
Record Past : Type := mkPast {
  admitted : SourceIdentity -> Z -> Prop;
  published : SourceIdentity -> Z -> Prop;
  expired_ : SourceIdentity -> Z -> Prop
}.
Definition admit_frame (p : Past) (owned : bool) (s : SourceIdentity) (n : Z) : Past :=
  mkPast (fun t m => admitted p t m \/ owned = true /\ t = s /\ m = n) (published p) (expired_ p).
Definition publish_event (p : Past) (ev : option Event) : Past :=
  mkPast (admitted p) (after_event (published p) ev) (expired_ p).
Definition expire_frames (p : Past) (w : RetransmitWindow) (now : Z) : Past :=
  mkPast (admitted p) (published p)
    (fun t m => expired_ p t m \/ exists e, Find w t m = Some e /\ expired w now e = true).

(** After a crash the file reads one of the contents that could survive. *)
Definition crashed (d dr : Disk) : Prop :=
  survives d (live_data dr) /\ forall c, survives dr c -> c = live_data dr.

Inductive step : System -> Past -> System -> Past -> Prop :=
| step_send S p s frame body now a snd' r owned :
    0 <= sequence_num (header frame) ->
    admit_reliable (sender_ S) s frame body now a = (snd', r, owned) ->
    step S p (mkSystem snd' (receiver_ S) (acks_in_flight S) (hellos_in_flight S))
      (admit_frame p owned s (sequence_num (header frame)))
| step_data S p st d h now answers t d' st' r ev :
    receiver_ S = Running st d -> header_typed h ->
    HandleData st h now answers d = (t, d', (st', r), ev) ->
    step S p (mkSystem (sender_ S) (Running st' d') (acks_in_flight S) (hellos_in_flight S))
      (publish_event p ev)
| step_data_crash S p st d h now answers t d' st' r ev x dr :
    receiver_ S = Running st d -> header_typed h ->
    HandleData st h now answers d = (t, d', (st', r), ev) -> x ∈ t -> crashed x dr ->
    step S p (mkSystem (sender_ S) (Down dr) (acks_in_flight S) (hellos_in_flight S)) (publish_event p ev)
| step_crash S p st d dr :
    receiver_ S = Running st d -> crashed d dr ->
    step S p (mkSystem (sender_ S) (Down dr) (acks_in_flight S) (hellos_in_flight S)) p
| step_restart S p d oa t d' store o options st :
    receiver_ S = Down d -> Open store_path store_max oa d = (t, d', Ok store) ->
    open_error oa <> Some ENOENT ->
    is_u64 (BridgeReceiver.local_session_epoch o) -> is_u64 (BridgeReceiver.remote_session_epoch o) ->
    options_fine options -> new_receiver o options (Some store) = Ok st ->
    step S p (mkSystem (sender_ S) (Running st d') (acks_in_flight S) (hellos_in_flight S)) p
| step_flush S p st d a payload :
    receiver_ S = Running st d -> front_ack (acks_ st) = Some a -> EncodeAck a = Ok payload ->
    step S p (mkSystem (sender_ S) (Running (with_acks st (pop_ack (acks_ st))) d)
                (payload :: acks_in_flight S) (hellos_in_flight S)) p
| step_hello S p st d payload :
    receiver_ S = Running st d -> EncodeSessionHello (session_hello st) limits = Ok payload ->
    step S p (mkSystem (sender_ S) (receiver_ S) (acks_in_flight S) (payload :: hellos_in_flight S)) p
| step_ack S p payload confirm snd' r :
    payload ∈ acks_in_flight S -> HandleAck (sender_ S) payload confirm = (snd', r) ->
    step S p (mkSystem snd' (receiver_ S) (acks_in_flight S) (hellos_in_flight S)) p
| step_resume S p payload confirm snd' r :
    payload ∈ hellos_in_flight S -> HandleHello (sender_ S) payload limits confirm = (snd', r) ->
    step S p (mkSystem snd' (receiver_ S) (acks_in_flight S) (hellos_in_flight S)) p
| step_completion S p op status :
    step S p (mkSystem (handle_completion (sender_ S) op status) (receiver_ S) (acks_in_flight S)
                (hellos_in_flight S)) p
| step_rebind S p c l r now :
    step S p (mkSystem (rebind_sender (sender_ S) c l r now) (receiver_ S) (acks_in_flight S)
                (hellos_in_flight S)) p
| step_expire S p now close snd' r :
    expire_retention (sender_ S) now close = (snd', r) ->
    step S p (mkSystem snd' (receiver_ S) (acks_in_flight S) (hellos_in_flight S))
      (expire_frames p (retransmit_ (sender_ S)) now).

Inductive reachable (S0 : System) (p0 : Past) : System -> Past -> Prop :=
| reach_start : reachable S0 p0 S0 p0
| reach_step S p S' p' : reachable S0 p0 S p -> step S p S' p' -> reachable S0 p0 S' p'.

(** ** The invariant *)

(** The file claims only what was published. *)
Definition file_ok (H : History) (d : Disk) : Prop := reads_back store_max (below H) d.

Record system_ok (S : System) (p : Past) : Prop := {
  sy_sender : sender_ok (sender_ S);
  sy_receiver : match receiver_ S with
    | Running st d => receiver_ok st d (published p) /\ exists store, dedup_store st = Some store /\
        path_ store = store_path /\ max_sources_ store = store_max
    | Down d => file_ok (published p) d
    end;
  sy_acks : forall payload ack s n, payload ∈ acks_in_flight S -> DecodeAck payload = Ok ack -> 1 <= n ->
    BridgeSender.covers ack s n -> published p s n;
  sy_hellos : forall payload hello x n, payload ∈ hellos_in_flight S ->
    DecodeSessionHello payload limits = Ok hello -> x ∈ sources hello -> 1 <= n <= last_accepted_sequence x ->
    published p (hello_source x) n;
  sy_kept : forall s n, admitted p s n -> held (sender_ S) s n \/ published p s n \/ expired_ p s n
}.

Lemma below_mono (H H' : History) m : (forall s n, H s n -> H' s n) -> below H m -> below H' m.
Proof. intros HH Hb s h n Hs Hn. by apply HH, (Hb s h). Qed.

Lemma after_event_mono H ev s n : H s n -> after_event H ev s n.
Proof. destruct ev as [[t m]|]; cbn; [by left|done]. Qed.

Lemma crashed_file H d dr : file_ok H d -> crashed d dr -> file_ok H dr.
Proof.
  intros [_ Hs] [Hc Hq]. destruct (Hs _ Hc) as (m & Hm & Hb). split; [by exists m|].
  intros c Hcs. rewrite (Hq c Hcs). by exists m.
Qed.

Lemma file_untouched H d d' : live_untouched d d' -> file_ok H d -> file_ok H d'.
Proof. intros (H1 & _ & H2) [H3 H4]. split; [by rewrite H1|]. intros c Hc. by apply H4, H2. Qed.

Lemma restart_file H oa d t d' store :
  1 <= store_max <= u32_max -> file_ok H d -> open_error oa <> Some ENOENT ->
  Open store_path store_max oa d = (t, d', Ok store) ->
  file_ok H d' /\ path_ store = store_path /\ max_sources_ store = store_max /\
  store_ok store /\ below H (DurableStore.entries_ store).
Proof.
  intros Hmax Hf Hne Ho.
  destruct (Open_sound _ _ _ _ _ _ _ (file_ok H) (file_untouched H) Hf Hne Ho) as (F1 & F2 & F3).
  destruct store as [path max m]. injection F2 as -> ->. cbn [DurableStore.entries_ path_ max_sources_] in *.
  assert (below H m) as Hb.
  { destruct F1 as [(m' & Hm' & Hb') _]. rewrite F3 in Hm'. by apply Ok_inj in Hm' as ->. }
  split_and!; try done. destruct (live_data d') as [bytes|]; cbn [decoded] in F3.
  - apply decode_encode in F3 as [E1 (E2 & E3 & _)%EncodeSnapshot_spec]. split; [done|done|cbn; lia].
  - apply Ok_inj in F3 as <-. split; [|cbn [DurableStore.entries_ max_sources_]; rewrite map_size_empty; lia|cbn; lia].
    intros s h Hs. cbn [DurableStore.entries_] in Hs. by rewrite lookup_empty in Hs.
Qed.

(** ** The receiver's steps *)

Definition configured (st : Receiver) : Prop :=
  exists store, dedup_store st = Some store /\ path_ store = store_path /\ max_sources_ store = store_max.

Lemma RecordAccepted_config store s h a d :
  let '(_, _, (store', _)) := RecordAccepted store s h a d in
  path_ store' = path_ store /\ max_sources_ store' = max_sources_ store.
Proof.
  unfold RecordAccepted, persist_or_restore. repeat (case_match; try done; subst).
  all: repeat match goal with H : (_, _) = (_, _) |- _ => injection H as ? ?; subst end; done.
Qed.

Lemma EmitAck_store st h state disp : dedup_store (EmitAck st h state disp).1 = dedup_store st.
Proof. unfold EmitAck. by destruct (QueueAck _ _ _). Qed.

Lemma Persist_config st s h a d :
  configured st -> configured (PersistDedupAccepted st s h a d).2.1.
Proof.
  intros (store & Hs & Hp & Hm). unfold PersistDedupAccepted, quiet. rewrite Hs.
  destruct (h =? 0); [by exists store|]. pose proof (RecordAccepted_config store s h a d) as H.
  destruct (RecordAccepted _ _ _ _ _) as [[t d'] [store' r]]. destruct H as [H1 H2].
  exists store'. cbn. split_and!; congruence.
Qed.

Lemma finish_config st h now degraded a d :
  configured st -> configured (finish_accept st h now degraded a d).2.1.
Proof.
  intros Hc. unfold finish_accept, quiet. destruct (if degraded then _ else _) as [w [[]|e]]; [|done].
  destruct (Check _ _ _ _ _) as [w' [state|e]]; [|done].
  assert (forall st0, configured st0 -> configured (EmitAck st0 h state kAccepted).1) as He
    by (intros st0 (x & Hx); exists x; by rewrite EmitAck_store).
  destruct (check_highest state) as [highest|]; [|by apply He].
  pose proof (Persist_config (with_dedup (with_dedup st w) w') (SourceFrom h) highest a d Hc) as Hp.
  destruct (PersistDedupAccepted _ _ _ _ _) as [[t d'] [st' [[]|e]]]; [by apply He|done].
Qed.

Lemma accept_config st h now highest degraded answers d :
  configured st -> configured (accept_frame st h now highest degraded answers d).1.2.1.
Proof.
  intros Hc. unfold accept_frame, quiet. destruct (negb _); [done|].
  destruct (PrepareSource _ _ _ _) as [w [[]|e]]; [|done]. destruct (publish_answer answers); [|done].
  by apply finish_config.
Qed.

Lemma HandleData_config st h now answers d :
  configured st -> configured (HandleData st h now answers d).1.2.1.
Proof.
  intros Hc. unfold HandleData, quiet. destruct (negb _); [done|]. destruct (negb _); [done|].
  destruct (Check _ _ _ _ _) as [w [state|e]]; [|done].
  assert (forall disp, configured (EmitAck (with_dedup st w) h state disp).1) as He
    by (intros disp; destruct Hc as (x & Hx); exists x; by rewrite EmitAck_store).
  destruct (decision state); [by apply accept_config|apply He| |done].
  destruct (_ && _); [by apply accept_config|apply He].
Qed.

Lemma configured_crash st H d : configured st -> crash_ok st H d <-> file_ok H d.
Proof. intros (store & Hs & _ & Hm). unfold crash_ok, file_ok. by rewrite Hs, Hm. Qed.

Lemma pop_payloads q id a :
  queue_wf q -> payloads_ (pop_ack q) !! id = Some a -> payloads_ q !! id = Some a.
Proof.
  intros Hw. unfold pop_ack. destruct (order_ q) as [|x rest] eqn:E; [done|].
  assert (is_Some (payloads_ q !! x)) as [b Hb].
  { apply (no_payload _ _ _ (qw_nodes _ Hw)). rewrite E. by left. }
  destruct (RemovePendingAck_spec q x b Hw Hb) as (_ & -> & _). by intros [_ ?]%lookup_delete_Some.
Qed.

Lemma pop_receiver st d H : receiver_ok st d H -> receiver_ok (with_acks st (pop_ack (acks_ st))) d H.
Proof.
  intros [H1 H2 H3 H4 H5 H6 H7 H8 H9 H10 H11 H12 H13 H14]. split; try done; cbn [acks_ with_acks].
  - by apply pop_ack_spec.
  - intros s n Hn (id & a & Ha & Hc). apply H9; [done|]. exists id, a. split; [by apply pop_payloads|done].
  - intros id a Ha. eapply H13. by apply pop_payloads.
Qed.

(** A flushed ACK covers only what was published. *)
Lemma flushed_ack st d H a payload ack s n :
  receiver_ok st d H -> front_ack (acks_ st) = Some a -> EncodeAck a = Ok payload ->
  DecodeAck payload = Ok ack -> 1 <= n -> BridgeSender.covers ack s n -> H s n.
Proof.
  intros Hok Hf He Hd Hn [Hs Hc]. unfold front_ack in Hf. apply bind_Some in Hf as (id & _ & Hid).
  apply EncodeAck_Ok in He as [Hv ->].
  assert (DecodeAck (ack_image a) = Ok a) as Ha
    by (apply DecodeAck_Ok; split_and!; [by eapply (ro_acks _ _ _ Hok)|done|done]).
  rewrite Ha in Hd. apply Ok_inj in Hd as <-. apply (ro_covered _ _ _ Hok); [done|]. by exists id, a.
Qed.

Lemma elem_of_insert_resume e l x : x ∈ insert_resume e l <-> x = e \/ x ∈ l.
Proof.
  induction l as [|y l IH]; cbn [insert_resume]; [by rewrite list_elem_of_singleton; split; [left|intros [?|?%not_elem_of_nil]]|].
  destruct (resume_before e y); rewrite !elem_of_cons; [done|]. rewrite IH. tauto.
Qed.

Lemma elem_of_snapshot w x :
  x ∈ SnapshotAccepted w <->
  exists e, e ∈ DedupWindow.entries_ w /\
    x = mkResume (DedupWindow.source e) (DedupWindow.highest_contiguous_sequence e).
Proof.
  unfold SnapshotAccepted. set (f := fun s => mkResume _ _). induction (DedupWindow.entries_ w) as [|e l IH].
  - cbn. split; [by intros ?%not_elem_of_nil|by intros (e & ?%not_elem_of_nil & _)].
  - cbn [fmap list_fmap foldr]. rewrite elem_of_insert_resume, IH. split.
    + intros [->|(y & Hy & ->)]; [exists e|exists y]; rewrite elem_of_cons; auto.
    + intros (y & Hy & ->). apply elem_of_cons in Hy as [->|Hy]; [by left|right; by exists y].
Qed.

(** A session hello claims only what was published. *)
Lemma sent_hello st d H payload hello x n :
  receiver_ok st d H -> EncodeSessionHello (session_hello st) limits = Ok payload ->
  DecodeSessionHello payload limits = Ok hello -> x ∈ sources hello -> 1 <= n <= last_accepted_sequence x ->
  H (hello_source x) n.
Proof.
  intros Hok He Hd Hx Hn. apply EncodeSessionHello_Ok in He as [Hv ->].
  pose proof (df_core _ (ro_dedup _ _ _ Hok)) as Hcore.
  assert (forall y, y ∈ sources (session_hello st) -> exists e, view (dedup_ st) (hello_source y) = Some e /\
    last_accepted_sequence y = DedupWindow.highest_contiguous_sequence e) as Hsrc.
  { intros y Hy. apply list_elem_of_fmap in Hy as (z & -> & (e & Hein & ->)%elem_of_snapshot).
    exists e. split; [|done]. by apply (view_spec _ 0). }
  assert (DecodeSessionHello (hello_image (session_hello st)) limits = Ok (session_hello st)) as Hdec.
  { apply DecodeSessionHello_image; [|done]. destruct (ro_typed _ _ _ Hok) as [T1 T2]. split_and!; [done|done|].
    apply Forall_elem. intros y Hy. destruct (Hsrc y Hy) as (e & Hview & Hl).
    split; [apply (ro_sources _ _ _ Hok); by eexists|]. rewrite Hl.
    destruct (view_state_ok _ _ _ (ro_dedup _ _ _ Hok) Hview) as [[_ _ Hu _] _]. exact Hu. }
  rewrite Hdec in Hd. apply Ok_inj in Hd as <-. destruct (Hsrc x Hx) as (e & Hview & Hl).
  apply (ro_accepted _ _ _ Hok). unfold window_accepted. rewrite Hview. left. lia.
Qed.

(** ** Every step keeps the invariant *)

(** The parts of the invariant that only grow with the published set. *)
Lemma grow_ok S p ev :
  system_ok S p ->
  (forall payload ack s n, payload ∈ acks_in_flight S -> DecodeAck payload = Ok ack -> 1 <= n ->
     BridgeSender.covers ack s n -> published (publish_event p ev) s n) /\
  (forall payload hello x n, payload ∈ hellos_in_flight S -> DecodeSessionHello payload limits = Ok hello ->
     x ∈ sources hello -> 1 <= n <= last_accepted_sequence x -> published (publish_event p ev) (hello_source x) n) /\
  (forall s n, admitted p s n -> held (sender_ S) s n \/ published (publish_event p ev) s n \/ expired_ p s n).
Proof.
  intros [_ _ H1 H2 H3]. split_and!.
  - intros. apply after_event_mono. by eapply H1.
  - intros. apply after_event_mono. by eapply H2.
  - intros s n Ha. destruct (H3 s n Ha) as [|[Hp|]]; [by left|right; left; by apply after_event_mono|by right; right].
Qed.

Lemma sender_step_ok S p snd' :
  system_ok S p -> sender_ok snd' ->
  (forall s n, held (sender_ S) s n -> held snd' s n \/ published p s n \/ expired_ p s n) ->
  system_ok (mkSystem snd' (receiver_ S) (acks_in_flight S) (hellos_in_flight S)) p.
Proof.
  intros [H1 H2 H3 H4 H5] Hs Hh. split; try done. intros s n Ha.
  destruct (H5 s n Ha) as [Hx|]; [by apply Hh|by right].
Qed.

Lemma held_pos st s n : sender_ok st -> held st s n -> 1 <= n.
Proof. intros Hst [e He]. by destruct (held_positive _ _ _ _ (so_window _ Hst) He). Qed.

Lemma step_ok S p S' p' : 1 <= store_max <= u32_max -> system_ok S p -> step S p S' p' -> system_ok S' p'.
Proof.
  intros Hmax Hok Hstep. pose proof Hok as [H1 H2 H3 H4 H5].
  destruct Hstep as [S p s frame body now a snd' r owned Hn E
    |S p st d h now answers t d' st' r ev Er Hh E
    |S p st d h now answers t d' st' r ev x dr Er Hh E Hx Hc
    |S p st d dr Er Hc
    |S p d oa t d' store o options st Er E Hne T1 T2 Ho Hnew
    |S p st d a payload Er Hf E
    |S p st d payload Er E
    |S p payload confirm snd' r Hin E
    |S p payload confirm snd' r Hin E
    |S p op status|S p c l r now|S p now close snd' r E].
  - pose proof (admit_reliable_spec (sender_ S) s frame body now a H1 Hn) as Ha. rewrite E in Ha.
    destruct Ha as (A1 & _ & A3 & _). split; try done. intros t m [Hm|Hm]; cbn [sender_ published expired_].
    + destruct (H5 t m Hm) as [Hx|]; [left; apply A3; by left|by right].
    + left. apply A3. by right.
  - rewrite Er in H2. destruct H2 as [R1 R2].
    destruct (HandleData_keeps P PL B BL _ _ _ _ _ _ _ _ _ _ _ R1 Hh E) as [K1 _].
    pose proof (HandleData_config st h now answers d R2) as K2. rewrite E in K2.
    destruct (grow_ok S p ev Hok) as (G1 & G2 & G3). by split.
  - rewrite Er in H2. destruct H2 as [R1 R2].
    destruct (HandleData_keeps P PL B BL _ _ _ _ _ _ _ _ _ _ _ R1 Hh E) as [_ K2].
    destruct (grow_ok S p ev Hok) as (G1 & G2 & G3). split; try done. cbn [receiver_].
    rewrite Forall_elem in K2. eapply crashed_file; [|exact Hc]. by apply (configured_crash st), K2.
  - rewrite Er in H2. destruct H2 as [R1 R2]. split; try done. cbn [receiver_].
    eapply crashed_file; [|exact Hc]. by apply (configured_crash st), R1.
  - rewrite Er in H2. destruct (restart_file _ _ _ _ _ _ Hmax H2 Hne E) as (F1 & F2 & F3 & F4 & F5).
    destruct (new_receiver_ok o options (Some store) st d' (published p) Ho (conj T1 T2)) as (N1 & N2 & _); [|done|].
    { split_and!; [done|done|]. by rewrite F3. }
    split; try done. cbn [receiver_]. split; [done|]. by exists store.
  - rewrite Er in H2. destruct H2 as [R1 R2]. split; try done; cbn [receiver_ acks_in_flight].
    + split; [by apply pop_receiver|done].
    + intros q ack s n Hq Hd Hn Hc. apply elem_of_cons in Hq as [->|Hq]; [|by eapply H3].
      by eapply (flushed_ack st d).
  - pose proof H2 as H2'. rewrite Er in H2'. destruct H2' as [R1 R2]. split; try done. cbn [hellos_in_flight].
    intros q hello x n Hq Hd Hx Hn. apply elem_of_cons in Hq as [->|Hq]; [|by eapply H4]. by eapply sent_hello.
  - pose proof (HandleAck_spec (sender_ S) payload confirm H1) as Ha. rewrite E in Ha. destruct Ha as (A1 & _ & A3).
    apply sender_step_ok; [done|done|]. intros s n Hh. destruct (A3 s n Hh) as [|(ack & Hd & _ & Hc)]; [by left|].
    right. left. exact (H3 payload ack s n Hin Hd (held_pos _ _ _ H1 Hh) Hc).
  - pose proof (HandleHello_spec (sender_ S) payload limits confirm H1) as Ha. rewrite E in Ha.
    destruct Ha as (A1 & _ & A3). apply sender_step_ok; [done|done|]. intros s n Hh.
    destruct (A3 s n Hh) as [|(hello & x & Hd & _ & _ & _ & Hx & <- & Hn)]; [by left|].
    right. left. apply (H4 payload hello x n Hin Hd Hx). split; [exact (held_pos _ _ _ H1 Hh)|done].
  - destruct (handle_completion_spec (sender_ S) op status H1) as [A1 A2]. apply sender_step_ok; [done|done|].
    intros s n Hh. left. unfold held. by rewrite A2.
  - destruct (rebind_sender_spec (sender_ S) c l r now H1) as [A1 A2]. apply sender_step_ok; [done|done|].
    intros s n Hh. left. by apply A2.
  - pose proof (expire_retention_spec (sender_ S) now close H1) as Ha. rewrite E in Ha. destruct Ha as (A1 & _ & A3 & _).
    split; try done. cbn [sender_ published expired_ expire_frames]. intros s n Hm.
    destruct (H5 s n Hm) as [Hx|[Hp|Hp]]; [|by right; left|by right; right; left].
    destruct (A3 s n Hx) as [|Hy]; [by left|right; right; by right].
Qed.

Lemma reachable_ok S0 p0 S p :
  1 <= store_max <= u32_max -> system_ok S0 p0 -> reachable S0 p0 S p -> system_ok S p.
Proof. intros Hmax H0. induction 1 as [|S p S' p' _ IH Hs]; [done|]. by eapply step_ok. Qed.

(** ** From the start *)

(** A new sender, a receiver that has never run (no file, and none a crash could
    leave), nothing on the way. *)
Record initial (S : System) : Prop := {
  in_sender : exists l r lane count connection aead o,
    RetransmitWindow.options_typed o /\ new_sender l r lane count connection aead o = Ok (sender_ S);
  in_receiver : exists d, receiver_ S = Down d /\ live_data d = None /\ forall c, survives d c -> c = None;
  in_flight : acks_in_flight S = [] /\ hellos_in_flight S = []
}.
Definition nothing_yet : Past := mkPast (fun _ _ => False) (fun _ _ => False) (fun _ _ => False).

Lemma initial_ok S : initial S -> system_ok S nothing_yet.
Proof.
  intros [(l & r & lane & count & cn & aead & o & Ho & Hn) (d & Hd & Hl & Hs) [Ha Hh]].
  split; [by apply (new_sender_ok _ _ _ _ _ _ _ _ Ho Hn)| | | |done].
  - rewrite Hd. split; [rewrite Hl|intros c Hc; rewrite (Hs c Hc)]; exists ∅; (split; [done|]);
      intros s h n Hm; by rewrite lookup_empty in Hm.
  - intros payload ack s n Hp. rewrite Ha in Hp. by apply not_elem_of_nil in Hp.
  - intros payload hello x n Hp. rewrite Hh in Hp. by apply not_elem_of_nil in Hp.
Qed.

(** C1: no admitted frame is lost.  Whatever is lost, duplicated or reordered on the
    way, and wherever the receiver crashes and restarts, a frame the sender has taken
    over is still retained for retransmission, or the receiver has published it, or the
    sender has dropped it at the retention limit, which it reports. *)
Theorem no_admitted_frame_lost (S0 S : System) (p : Past) (s : SourceIdentity) (n : Z) :
  1 <= store_max <= u32_max -> initial S0 -> reachable S0 nothing_yet S p -> admitted p s n ->
  held (sender_ S) s n \/ published p s n \/ expired_ p s n.
Proof. intros Hmax H0 Hr. apply (sy_kept _ _ (reachable_ok _ _ _ _ Hmax (initial_ok _ H0) Hr)). Qed.

(** C3: nothing is acknowledged that was not published, across crashes and restarts
    of the receiver: no ACK and no session hello on the way covers a sequence the
    receiver did not publish, nor does the file a running receiver would restart from
    after a crash. *)
Theorem acknowledged_only_if_published (S0 S : System) (p : Past) :
  1 <= store_max <= u32_max -> initial S0 -> reachable S0 nothing_yet S p ->
  (forall payload ack s n, payload ∈ acks_in_flight S -> DecodeAck payload = Ok ack -> 1 <= n ->
     BridgeSender.covers ack s n -> published p s n) /\
  (forall payload hello x n, payload ∈ hellos_in_flight S -> DecodeSessionHello payload limits = Ok hello ->
     x ∈ sources hello -> 1 <= n <= last_accepted_sequence x -> published p (hello_source x) n) /\
  (forall st d c m s h n, receiver_ S = Running st d -> survives d c -> decoded store_max c = Ok m ->
     m !! s = Some h -> 1 <= n <= h -> published p s n).
Proof.
  intros Hmax H0 Hr. destruct (reachable_ok _ _ _ _ Hmax (initial_ok _ H0) Hr) as [_ H2 H3 H4 _].
  split_and!; [done|done|]. intros st d c m s h n Hst Hc Hm Hs Hn. rewrite Hst in H2. destruct H2 as [R1 R2].
  destruct (proj1 (configured_crash st (published p) d R2) (ro_crash _ _ _ R1)) as [_ Hsv].
  destruct (Hsv c Hc) as (m' & Hm' & Hb). rewrite Hm in Hm'. apply Ok_inj in Hm' as <-. by apply (Hb s h).
Qed.
End System.

(** ** A run: the receiver starts, a frame is admitted, delivered, acknowledged and
    retired. *)
Module SampleRun.
Definition disk : Posix := in_directory.
Abbreviation system := (@System disk).
Abbreviation next := (@step disk software_backend "dir/dedup" 8 default_control_limits).
Definition frame : WireFrame := mkFrame (sample_header 1) [Byte.x01].
Definition admit_answers : AdmitAnswers := mkAdmit true NoFault NoFault (Ok (mkOperation 1 1)) NoAttemptFault.
Definition id : SourceIdentity := mkSource 7 8 9.
Definition dummy_window : RetransmitWindow :=
  mkRetransmit RetransmitWindow.sample_options false 0 0 0 [] ∅ ∅ 0 zero_retransmit_stats.
Definition dummy : Sender :=
  mkSender 5 6 0 1 1 dummy_window empty_table (mkAttempts ∅ ∅) false false false false false false false.
Definition sender0 : Sender :=
  match new_sender 5 6 0 1 1 false RetransmitWindow.sample_options with Ok st => st | Err _ => dummy end.
Definition opened := @Open disk software_backend "dir/dedup" 8 plain_open empty_disk.
Definition store0 : DedupStore := match opened.2 with Ok st => st | Err _ => empty_store end.
Definition receiver0 : Receiver :=
  match new_receiver sample_receiver_options DedupWindow.sample_options (Some store0) with
  | Ok st => st | Err _ => sample_receiver end.
Definition sent := admit_reliable sender0 id frame [Byte.x01] 10 admit_answers.
Definition handled := @HandleData disk software_backend receiver0 (sample_header 1) 20 plain_answers opened.1.2.
Definition receiver1 : Receiver := handled.1.2.1.
Definition ack1 : AckPayload := default (mkAck 0 0 id 0 None kAccepted) (front_ack (acks_ receiver1)).
Definition payload1 : list byte := match EncodeAck ack1 with Ok b => b | Err _ => [] end.
Definition acked1 := HandleAck sent.1.1 payload1 (fun _ => Ok tt).

Definition start : system := mkSystem sender0 (@Down disk empty_disk) [] [].
Definition flushed : system :=
  mkSystem sent.1.1 (@Running disk (with_acks receiver1 (pop_ack (acks_ receiver1))) handled.1.1.2) [payload1] [].
Definition finish : system := mkSystem acked1.1 (receiver_ flushed) [payload1] [].
Definition past : Past := publish_event (admit_frame nothing_yet true id 1) (Some (id, 1)).

Lemma start_initial : @initial disk start.
Proof.
  split; [|by exists empty_disk; split_and!; [done|done|intros c (f & ->%list_elem_of_singleton & Hc); by apply Hc]|done].
  exists 5, 6, 0, 1, 1, false, RetransmitWindow.sample_options. split; [split; cbn; lia|].
  unfold start, sender0. cbn [sender_]. by vm_compute.
Qed.

Definition started : system := mkSystem sender0 (@Running disk receiver0 opened.1.2) [] [].
Definition admitted1 : system := mkSystem sent.1.1 (@Running disk receiver0 opened.1.2) [] [].
Definition delivered : system := mkSystem sent.1.1 (@Running disk receiver1 handled.1.1.2) [] [].

Lemma restarts : next start nothing_yet started nothing_yet.
Proof.
  apply (step_restart "dir/dedup" 8 default_control_limits start nothing_yet empty_disk plain_open opened.1.1
    opened.1.2 store0 sample_receiver_options DedupWindow.sample_options receiver0);
    [done|by vm_compute|done|unfold is_u64; cbn; lia|unfold is_u64; cbn; lia| |by vm_compute].
  split; [unfold DedupWindow.options_typed; cbn; lia|cbn; lia].
Qed.

Lemma sends : next started nothing_yet admitted1 (admit_frame nothing_yet true id 1).
Proof.
  apply (step_send "dir/dedup" 8 default_control_limits started nothing_yet id frame [Byte.x01] 10 admit_answers
    sent.1.1 sent.1.2 true); [cbn; lia|]. by vm_compute.
Qed.

Lemma delivers : next admitted1 (admit_frame nothing_yet true id 1) delivered past.
Proof.
  apply (step_data "dir/dedup" 8 default_control_limits admitted1 (admit_frame nothing_yet true id 1) receiver0
    opened.1.2 (sample_header 1) 20 plain_answers handled.1.1.1 handled.1.1.2 receiver1 handled.1.2.2 (Some (id, 1)));
    [done|unfold header_typed, is_u64; cbn; lia|by vm_compute].
Qed.

Lemma flushes : next delivered past flushed past.
Proof.
  apply (step_flush "dir/dedup" 8 default_control_limits delivered past receiver1 handled.1.1.2 ack1 payload1);
    [done|by vm_compute|by vm_compute].
Qed.

Lemma flushed_reachable : reachable "dir/dedup" 8 default_control_limits start nothing_yet flushed past.
Proof.
  exact (reach_step _ _ _ _ _ _ _ _ _ (reach_step _ _ _ _ _ _ _ _ _ (reach_step _ _ _ _ _ _ _ _ _
    (reach_step _ _ _ _ _ _ _ _ _ (reach_start _ _ _ _ _) restarts) sends) delivers) flushes).
Qed.

Lemma acknowledges : next flushed past finish past.
Proof.
  apply (step_ack "dir/dedup" 8 default_control_limits flushed past payload1 (fun _ => Ok tt) acked1.1 acked1.2);
    [by left|]. exact (surjective_pairing acked1).
Qed.

Lemma finish_reachable : reachable "dir/dedup" 8 default_control_limits start nothing_yet finish past.
Proof. exact (reach_step _ _ _ _ _ _ _ _ _ flushed_reachable acknowledges). Qed.
End SampleRun.

Lemma no_admitted_frame_lost_witness :
  admitted SampleRun.past SampleRun.id 1 /\ Find (retransmit_ (sender_ SampleRun.finish)) SampleRun.id 1 = None /\
  published SampleRun.past SampleRun.id 1.
Proof.
  assert (Find (retransmit_ (sender_ SampleRun.finish)) SampleRun.id 1 = None) as Hf by (vm_compute; reflexivity).
  assert (admitted SampleRun.past SampleRun.id 1) as Ha by (right; repeat split).
  refine (conj Ha (conj Hf _)).
  destruct (no_admitted_frame_lost (P := in_directory) (PL := ConcreteDisk.posix_laws _) (B := software_backend)
    (BL := software_laws) "dir/dedup" 8 default_control_limits SampleRun.start SampleRun.finish SampleRun.past
    SampleRun.id 1 ltac:(vm_compute; split; discriminate) SampleRun.start_initial SampleRun.finish_reachable Ha)
    as [[e He]|[H|[]]]; [|exact H].
  pose proof (eq_trans (eq_sym Hf) He) as Hn. discriminate Hn.
Defined.

Lemma acknowledged_only_if_published_witness :
  DecodeAck SampleRun.payload1 = Ok SampleRun.ack1 /\ BridgeSender.covers SampleRun.ack1 SampleRun.id 1 /\
  published SampleRun.past SampleRun.id 1.
Proof.
  assert (DecodeAck SampleRun.payload1 = Ok SampleRun.ack1) as Hd by (vm_compute; reflexivity).
  assert (BridgeSender.covers SampleRun.ack1 SampleRun.id 1) as Hc
    by (split; [vm_compute; reflexivity|left; exists 1; split; [vm_compute; reflexivity|lia]]).
  refine (conj Hd (conj Hc _)).
  exact (proj1 (acknowledged_only_if_published (P := in_directory) (PL := ConcreteDisk.posix_laws _)
    (B := software_backend) (BL := software_laws) "dir/dedup" 8 default_control_limits SampleRun.start
    SampleRun.flushed SampleRun.past ltac:(vm_compute; split; discriminate) SampleRun.start_initial SampleRun.flushed_reachable)
    SampleRun.payload1 SampleRun.ack1 SampleRun.id 1 ltac:(apply list_elem_of_here) Hd ltac:(lia) Hc).
Defined.
