(* ===== verification/MpmcRing.v ===== *)
(** * The bounded multi-producer multi-consumer ring

    [mino/shm/channel/mpmc_ring.h]: the control block, the slot layout, [Init], [Attach],
    the generation fence, and the producer and consumer paths.  The paths are a machine
    that performs one atomic access of shared memory per step, so that any number of
    threads and processes interleave between any two accesses; the accesses are
    sequentially consistent. *)
From S2P Require Import Prelude Checked Bytes.

Definition kMpmcRingCacheLineSize : Z := 64.
Definition kMpmcRingMagic : Z := 0x4D494E4F524E4731.
Definition kMpmcRingLayoutVersion : Z := 2.

Inductive MpmcRingState : Set := kInactive | kActive | kRetired.
#[export] Instance MpmcRingState_eq_dec : EqDecision MpmcRingState.
Proof. solve_decision. Defined.

Record MpmcRingControlBlock : Set := mkControl {
  magic : Z;
  layout_version : Z;
  capacity : Z;
  elem_size : Z;
  elem_align : Z;
  generation : Z;
  active_state : MpmcRingState;
  enqueue_pos : Z;
  dequeue_pos : Z
}.
(** [sizeof] and [alignof] of the control block. *)
Definition kControlSize : Z := 3 * kMpmcRingCacheLineSize.
Definition kControlAlign : Z := kMpmcRingCacheLineSize.

Definition MpmcRingSlotAlignment (align : Z) : Z := if align <? 8 then 8 else align.

(** Where the storage of a slot begins. *)
Definition storage_offset (align : Z) : Z := wrap64 (8 + align - 1) / align * align.

Definition MpmcRingSlotStride (size align : Z) : Z :=
  if align =? 0 then 0
  else
    let slot_align := MpmcRingSlotAlignment align in
    wrap64 (wrap64 (storage_offset align + size + slot_align - 1) / slot_align * slot_align).

Definition MpmcRingRequiredSize (cap size align : Z) : Z :=
  wrap64 (kControlSize + wrap64 (cap * MpmcRingSlotStride size align)).

(** The region: the control block, the atomic words and the storage bytes, by their
    offset from the base.  A fresh mapping reads as zero. *)
Record Region : Set := mkRegion {
  control : MpmcRingControlBlock;
  words : gmap Z Z;
  cells : gmap Z byte
}.
Definition load_word (r : Region) (offset : Z) : Z := default 0 (words r !! offset).
Definition store_word (r : Region) (offset v : Z) : Region :=
  mkRegion (control r) (<[offset := v]> (words r)) (cells r).
Definition load_cell (r : Region) (offset : Z) : byte := default Byte.x00 (cells r !! offset).
Definition store_cell (r : Region) (offset : Z) (b : byte) : Region :=
  mkRegion (control r) (words r) (<[offset := b]> (cells r)).
Definition with_control (r : Region) (c : MpmcRingControlBlock) : Region := mkRegion c (words r) (cells r).

Definition with_state (c : MpmcRingControlBlock) (s : MpmcRingState) : MpmcRingControlBlock :=
  mkControl (magic c) (layout_version c) (capacity c) (elem_size c) (elem_align c) (generation c) s
    (enqueue_pos c) (dequeue_pos c).
Definition with_enqueue (c : MpmcRingControlBlock) (pos : Z) : MpmcRingControlBlock :=
  mkControl (magic c) (layout_version c) (capacity c) (elem_size c) (elem_align c) (generation c) (active_state c)
    pos (dequeue_pos c).
Definition with_dequeue (c : MpmcRingControlBlock) (pos : Z) : MpmcRingControlBlock :=
  mkControl (magic c) (layout_version c) (capacity c) (elem_size c) (elem_align c) (generation c) (active_state c)
    (enqueue_pos c) pos.

Definition stale_facade : Status := mkStatus kUnavailable "ring facade generation is stale or inactive".

(** The decision of [ValidateMpmcRingFence] on what its three loads returned. *)
Definition fence_passes (expected before after : Z) (state : MpmcRingState) : bool :=
  negb ((expected =? 0) || negb (before =? expected) || negb (after =? expected) || negb (before =? after)
        || negb (bool_decide (state = kActive))).

Definition ValidateMpmcRingFence (c : MpmcRingControlBlock) (expected : Z) : Result unit :=
  if fence_passes expected (generation c) (generation c) (active_state c) then Ok tt else Err stale_facade.

Definition RetireMpmcRing (c : MpmcRingControlBlock) (expected : Z) : MpmcRingControlBlock * Result unit :=
  match ValidateMpmcRingFence c expected with
  | Err e => (c, Err e)
  | Ok _ =>
      if bool_decide (active_state c = kActive)
      then let c := with_state c kRetired in
           if generation c =? expected then (c, Ok tt)
           else (c, Err (mkStatus kUnavailable "ring generation changed during retirement"))
      else (c, Err (mkStatus kUnavailable "ring generation changed during retirement"))
  end.

Definition ReactivateRetiredMpmcRing (c : MpmcRingControlBlock) (expected : Z) : MpmcRingControlBlock * bool :=
  if negb (generation c =? expected) then (c, false)
  else if bool_decide (active_state c = kRetired) then (with_state c kActive, true)
  else (c, false).

(** ** The view [MpmcRing<T>] *)

Section View.
(** [sizeof(T)] and [alignof(T)] of the element type. *)
Context (sizeof alignof : Z).

(** [base] is the address of the region, [None] when null. *)
Definition check_base (base : option Z) : Result unit :=
  match base with
  | None => Err (Invalid "shm_base must not be null")
  | Some b =>
      fail_if negb (b mod kControlAlign =? 0) with
        Invalid "shm_base must be aligned to the control block alignment (64 bytes)" ;;
      Ok tt
  end.

Definition capacity_valid (c : Z) : bool := (2 <=? c) && (Z.land c (c - 1) =? 0).

Definition SlotAt (index size align : Z) : Z :=
  kControlSize + wrap64 (index * MpmcRingSlotStride size align).

Definition slot_offset (cap pos : Z) : Z := SlotAt (Z.land pos (cap - 1)) sizeof alignof.
Definition SlotForPos (r : Region) (pos : Z) : Z := slot_offset (capacity (control r)) pos.

(** The loop of [Init] over the slots. *)
Fixpoint init_slots (n : nat) (i size align : Z) (r : Region) : Region :=
  match n with
  | O => r
  | S n' => init_slots n' (i + 1) size align (store_word r (SlotAt i size align) i)
  end.

(** [Init] returns the region and the generation the view captures. *)
Definition Init (base : option Z) (cap size align gen : Z) (r : Region) : Region * Result Z :=
  match check_base base with
  | Err e => (r, Err e)
  | Ok _ =>
      if gen =? 0 then (r, Err (Invalid "ring generation must be non-zero"))
      else if negb (capacity_valid cap)
      then (r, Err (Invalid "capacity must be a power of two and >= 2"))
      else if 2 ^ 32 <? cap
      then (r, Err (Invalid "capacity exceeds the supported maximum (2^32)"))
      else if size <? sizeof
      then (r, Err (Invalid "elem_size is smaller than sizeof(T)"))
      else if negb (align =? alignof) || (align =? 0) || negb (Z.land align (align - 1) =? 0)
              || (kControlAlign <? align)
      then (r, Err (Invalid "elem_align must exactly match alignof(T), be a power of two, and not exceed 64"))
      else if negb (size mod align =? 0)
      then (r, Err (Invalid "elem_size must be a multiple of elem_align"))
      else if (u64_max - kControlSize) / cap <? MpmcRingSlotStride size align
      then (r, Err (Invalid "ring footprint overflows 64-bit size"))
      else
        let c := mkControl 0 kMpmcRingLayoutVersion cap size align gen kInactive 0 0 in
        let r := init_slots (Z.to_nat cap) 0 size align (with_control r c) in
        let c := mkControl kMpmcRingMagic kMpmcRingLayoutVersion cap size align gen kActive 0 0 in
        (with_control r c, Ok gen)
  end.

Definition Attach (base : option Z) (r : Region) : Result Z :=
  check! check_base base ;;
  let c := control r in
  fail_if negb (magic c =? kMpmcRingMagic) with
    Corruption "ring magic mismatch: region is not an initialized MpmcRing" ;;
  fail_if negb (layout_version c =? kMpmcRingLayoutVersion) with
    Unsupported "ring layout_version mismatch: unsupported ring layout" ;;
  fail_if (generation c =? 0) || negb (bool_decide (active_state c = kActive)) with
    mkStatus kUnavailable "ring generation is inactive or changing" ;;
  fail_if negb (capacity_valid (capacity c)) with
    Corruption "ring capacity is not a power of two >= 2" ;;
  fail_if negb (elem_size c =? sizeof) || negb (elem_align c =? alignof) with
    mkStatus kSchemaMismatch "ring element ABI mismatch: elem_size or elem_align differs from this build" ;;
  fail_if kControlAlign <? elem_align c with
    Corruption "ring element alignment exceeds control alignment" ;;
  fail_if (u64_max - kControlSize) / capacity c <? MpmcRingSlotStride (elem_size c) (elem_align c) with
    Corruption "ring footprint overflows 64-bit size" ;;
  fail_if (elem_align c =? 0) || negb (Z.land (elem_align c) (elem_align c - 1) =? 0)
          || negb (elem_size c mod elem_align c =? 0) with
    Corruption "ring elem_size is not a multiple of elem_align" ;;
  Ok (generation c).

(** ** The paths, one access per step *)

(** A call a thread has started.  [CommitEnqueue] takes the value, as its bytes. *)
Inductive Op : Set :=
| TryEnqueue
| CommitEnqueue (sequence : Z) (value : list byte)
| TryDequeue
| ReadSlot (sequence : Z)
| CommitDequeue (sequence : Z).

(** Where a thread is. [Idle], [Reserved] and [Claimed] are between calls: holding
    nothing, a reserved sequence, a claimed sequence. *)
Inductive Pc : Set :=
| Idle
| Reserved (sequence : Z)
| Claimed (sequence : Z)
| FenceBefore (o : Op)
| FenceState (o : Op) (before : Z)
| FenceAfter (o : Op) (before : Z) (state : MpmcRingState)
| EnqueueLoad
| EnqueueSlot (pos : Z)
| EnqueueCas (pos : Z)
| Writing (sequence : Z) (value : list byte) (i : nat)
| Publishing (sequence : Z) (value : list byte)
| DequeueLoad
| DequeueSlot (pos : Z)
| DequeueCas (pos : Z)
| Reading (sequence : Z) (read : list byte)
| Releasing (sequence : Z).

(** What a call reports. *)
Inductive Event : Set :=
| EReserved (pos : Z)
| EFull (pos : Z)
| ECommitted (pos : Z) (value : list byte)
| EClaimed (pos : Z)
| EEmpty (pos : Z)
| ERead (pos : Z) (value : list byte)
| EReleased (pos : Z)
| EUnavailable.

(** Where a call goes when its fence passes. *)
Definition enter (o : Op) : Pc :=
  match o with
  | TryEnqueue => EnqueueLoad
  | CommitEnqueue s v => Writing s v 0
  | TryDequeue => DequeueLoad
  | ReadSlot s => Reading s []
  | CommitDequeue s => Releasing s
  end.
(** What a thread still holds when a call of it fails. *)
Definition holding (o : Op) : Pc :=
  match o with
  | TryEnqueue | TryDequeue => Idle
  | CommitEnqueue s _ => Reserved s
  | ReadSlot s | CommitDequeue s => Claimed s
  end.

(** The difference of two sequences, as [int64_t]. *)
Definition seq_diff (seq pos : Z) : Z := to_i64 seq - to_i64 pos.

(** The [i]-th storage byte of the slot at [offset]. *)
Definition cell_offset (offset i : Z) : Z := offset + storage_offset alignof + i.

(** One access of a running call.  [spurious] is whether a weak compare-exchange fails
    although the values agree. *)
Definition access (expected : Z) (spurious : bool) (r : Region) (pc : Pc) : Region * Pc * option Event :=
  let c := control r in
  match pc with
  | Idle | Reserved _ | Claimed _ => (r, pc, None)
  | FenceBefore o => (r, FenceState o (generation c), None)
  | FenceState o before => (r, FenceAfter o before (active_state c), None)
  | FenceAfter o before state =>
      if fence_passes expected before (generation c) state then (r, enter o, None)
      else (r, holding o, Some EUnavailable)
  | EnqueueLoad => (r, EnqueueSlot (enqueue_pos c), None)
  | EnqueueSlot pos =>
      let diff := seq_diff (load_word r (SlotForPos r pos)) pos in
      if diff =? 0 then (r, EnqueueCas pos, None)
      else if diff <? 0 then (r, Idle, Some (EFull pos))
      else (r, EnqueueLoad, None)
  | EnqueueCas pos =>
      if (enqueue_pos c =? pos) && negb spurious
      then (with_control r (with_enqueue c (wrap64 (pos + 1))), Reserved pos, Some (EReserved pos))
      else (r, EnqueueSlot (enqueue_pos c), None)
  | Writing s v i =>
      if Z.of_nat i <? sizeof
      then (store_cell r (cell_offset (SlotForPos r s) (Z.of_nat i)) (nth i v Byte.x00), Writing s v (S i), None)
      else (r, Publishing s v, None)
  | Publishing s v => (store_word r (SlotForPos r s) (wrap64 (s + 1)), Idle, Some (ECommitted s v))
  | DequeueLoad => (r, DequeueSlot (dequeue_pos c), None)
  | DequeueSlot pos =>
      let diff := seq_diff (load_word r (SlotForPos r pos)) (wrap64 (pos + 1)) in
      if diff =? 0 then (r, DequeueCas pos, None)
      else if diff <? 0 then (r, Idle, Some (EEmpty pos))
      else (r, DequeueLoad, None)
  | DequeueCas pos =>
      if (dequeue_pos c =? pos) && negb spurious
      then (with_control r (with_dequeue c (wrap64 (pos + 1))), Claimed pos, Some (EClaimed pos))
      else (r, DequeueSlot (dequeue_pos c), None)
  | Reading s read =>
      if zlen read <? sizeof
      then (r, Reading s (read ++ [load_cell r (cell_offset (SlotForPos r s) (zlen read))]), None)
      else (r, Claimed s, Some (ERead s read))
  | Releasing s => (store_word r (SlotForPos r s) (wrap64 (s + capacity c)), Idle, Some (EReleased s))
  end.

(** The calls a client of the documented contract makes: it commits what it reserved,
    reads and releases what it claimed. *)
Inductive call : Pc -> Op -> Prop :=
| call_enqueue : call Idle TryEnqueue
| call_dequeue : call Idle TryDequeue
| call_commit s v : zlen v = sizeof -> call (Reserved s) (CommitEnqueue s v)
| call_read s : call (Claimed s) (ReadSlot s)
| call_release s : call (Claimed s) (CommitDequeue s).

Record Config : Set := mkConfig { region : Region; threads : gmap nat Pc; log : list Event }.

Definition logged (l : list Event) (e : option Event) : list Event :=
  match e with Some e => l ++ [e] | None => l end.

Inductive step (expected : Z) : Config -> Config -> Prop :=
| step_call c t pc o :
    threads c !! t = Some pc -> call pc o ->
    step expected c (mkConfig (region c) (<[t := FenceBefore o]> (threads c)) (log c))
| step_access c t pc spurious r pc' e :
    threads c !! t = Some pc -> access expected spurious (region c) pc = (r, pc', e) ->
    step expected c (mkConfig r (<[t := pc']> (threads c)) (logged (log c) e))
| step_retire c :
    step expected c
      (mkConfig (with_control (region c) (RetireMpmcRing (control (region c)) expected).1) (threads c) (log c))
| step_reactivate c :
    step expected c
      (mkConfig (with_control (region c) (ReactivateRetiredMpmcRing (control (region c)) expected).1) (threads c)
         (log c)).

(** A run of [n] steps. *)
Inductive run (expected : Z) : Z -> Config -> Config -> Prop :=
| run_nil c : run expected 0 c c
| run_step n c c' c'' : run expected n c c' -> step expected c' c'' -> run expected (n + 1) c c''.

Definition start (r : Region) (ts : gset nat) : Config := mkConfig r (gset_to_gmap Idle ts) [].
End View.

#[export] Instance Event_eq_dec : EqDecision Event.
Proof. solve_decision. Defined.

(** ** Layout *)

(** An element ABI the ring accepts, with a footprint that fits in 64 bits. *)
Record abi_ok (size align cap : Z) : Prop := {
  abi_size : 0 < size < two32;
  abi_align : power_of_two align /\ align <= 64 /\ (align | size);
  abi_capacity : exists k, 1 <= k <= 32 /\ cap = 2 ^ k;
  abi_footprint : kControlSize + cap * MpmcRingSlotStride size align <= u64_max
}.

Lemma align_cases a : power_of_two a -> a <= 64 -> a = 1 \/ a = 2 \/ a = 4 \/ a = 8 \/ a = 16 \/ a = 32 \/ a = 64.
Proof.
  intros (k & Hk & ->) Ha. assert (k < 7) as Hk7.
  { destruct (Z.lt_ge_cases k 7); [done|]. pose proof (Z.pow_le_mono_r 2 7 k). lia. }
  assert (k = 0 \/ k = 1 \/ k = 2 \/ k = 3 \/ k = 4 \/ k = 5 \/ k = 6) as H by lia.
  destruct H as [->|[->|[->|[->|[->|[->| ->]]]]]]; cbn; lia.
Qed.

(** The storage starts behind the sequence, aligned, and the stride holds both. *)
Lemma stride_spec size align :
  0 < size < two32 -> power_of_two align -> align <= 64 ->
  8 <= storage_offset align /\ (align | storage_offset align) /\
  storage_offset align + size <= MpmcRingSlotStride size align <= storage_offset align + size + 63 /\
  (8 | MpmcRingSlotStride size align) /\ (align | MpmcRingSlotStride size align).
Proof.
  intros Hs Hp Ha. unfold MpmcRingSlotStride, storage_offset, MpmcRingSlotAlignment, wrap64.
  destruct (align_cases align Hp Ha) as [->|[->|[->|[->|[->|[->| ->]]]]]]; cbn -[Z.div Z.mul Z.modulo Z.add];
    rewrite !(Z.mod_small (8 + _ - 1)) by lia;
    match goal with |- context [?x / ?a * ?a + size] =>
      let v := eval vm_compute in (x / a * a) in change (x / a * a) with v end;
    rewrite (Z.mod_small (_ + size + _ - 1)) by lia;
    match goal with |- context [?x / ?a * ?a] =>
      pose proof (Z.div_mod x a ltac:(lia)); pose proof (Z.mod_pos_bound x a ltac:(lia));
      rewrite (Z.mod_small (x / a * a)) by lia; set (q := x / a) in * end;
    split_and!; try lia;
    first [by apply Z.divide_1_l | by exists 4 | by exists 2 | by exists 1 | by exists q
          | by exists (2 * q); lia | by exists (4 * q); lia | by exists (8 * q); lia | idtac].
Qed.

Lemma slot_at size align cap i :
  abi_ok size align cap -> 0 <= i < cap -> SlotAt i size align = kControlSize + i * MpmcRingSlotStride size align.
Proof.
  intros [Hs (Hp & Ha & _) _ Hf] Hi. unfold SlotAt. f_equal. apply wrap64_id.
  destruct (stride_spec size align Hs Hp Ha) as (S1 & _ & Hst & _).
  unfold kControlSize, kMpmcRingCacheLineSize in Hf. unfold is_u64. set (st := MpmcRingSlotStride size align) in *.
  pose proof (Z.mul_le_mono_nonneg_r i cap st ltac:(lia) ltac:(lia)). split; [apply Z.mul_nonneg_nonneg; lia|lia].
Qed.

Lemma required_size size align cap :
  abi_ok size align cap ->
  MpmcRingRequiredSize cap size align = kControlSize + cap * MpmcRingSlotStride size align.
Proof.
  intros [Hs (Hp & Ha & _) (k & Hk & Hc) Hf]. unfold MpmcRingRequiredSize.
  destruct (stride_spec size align Hs Hp Ha) as (S1 & _ & Hst & _).
  unfold kControlSize, kMpmcRingCacheLineSize in *. assert (0 < cap) by (subst; apply Z.pow_pos_nonneg; lia).
  set (st := MpmcRingSlotStride size align) in *. pose proof (Z.mul_nonneg_nonneg cap st ltac:(lia) ltac:(lia)).
  rewrite (wrap64_id (cap * st)) by (unfold is_u64; lia). apply wrap64_id. unfold is_u64. lia.
Qed.

(** Every slot lies inside the footprint, its sequence and its storage are aligned, and
    the slots do not overlap. *)
Lemma slots_disjoint size align cap :
  abi_ok size align cap ->
  (forall i, 0 <= i < cap ->
     kControlSize <= SlotAt i size align /\
     SlotAt i size align + storage_offset align + size <= MpmcRingRequiredSize cap size align /\
     (8 | SlotAt i size align) /\ (align | SlotAt i size align + storage_offset align)) /\
  forall i j, 0 <= i < j -> j < cap -> SlotAt i size align + storage_offset align + size <= SlotAt j size align.
Proof.
  intros Hok. pose proof Hok as [Hs (Hp & Ha & _) _ Hf].
  destruct (stride_spec size align Hs Hp Ha) as (S1 & S2 & S3 & S4 & S5). split.
  - intros i Hi. rewrite (slot_at _ _ cap), required_size by done.
    split_and!; [nia|nia| |].
    + apply Z.divide_add_r; [by exists 24|by apply Z.divide_mul_r].
    + apply Z.divide_add_r; [|done]. apply Z.divide_add_r; [|by apply Z.divide_mul_r].
      destruct (align_cases align Hp Ha) as [->|[->|[->|[->|[->|[->| ->]]]]]]; unfold kControlSize, kMpmcRingCacheLineSize;
        [by exists 192|by exists 96|by exists 48|by exists 24|by exists 12|by exists 6|by exists 3].
  - intros i j Hij Hj. rewrite !(slot_at _ _ cap) by (done || lia). nia.
Qed.

Lemma init_slots_spec n size align : forall i r,
  (forall j k, i <= j < k -> k < i + Z.of_nat n -> SlotAt j size align <> SlotAt k size align) ->
  let r' := init_slots n i size align r in
  control r' = control r /\ cells r' = cells r /\
  (forall j, i <= j < i + Z.of_nat n -> load_word r' (SlotAt j size align) = j) /\
  (forall off, (forall j, i <= j < i + Z.of_nat n -> SlotAt j size align <> off) -> load_word r' off = load_word r off).
Proof.
  induction n as [|n IH]; intros i r Hd; cbn [init_slots]; [by split_and!; [| |intros; lia|]|].
  destruct (IH (i + 1) (store_word r (SlotAt i size align) i)) as (H1 & H2 & H3 & H4).
  { intros j k ? ?. apply Hd; lia. }
  split_and!; [done|done| |].
  - intros j Hj. destruct (decide (j = i)) as [->|]; [|apply H3; lia].
    rewrite H4 by (intros k Hk; apply not_eq_sym, Hd; lia). unfold load_word, store_word. cbn [words].
    by rewrite lookup_insert_eq.
  - intros off Ho. rewrite H4 by (intros j Hj; apply Ho; lia). unfold load_word, store_word. cbn [words].
    rewrite lookup_insert_ne; [done|]. apply Ho. lia.
Qed.

Lemma capacity_valid_spec c : capacity_valid c = true <-> 2 <= c /\ power_of_two c.
Proof.
  unfold capacity_valid. rewrite andb_true_iff, Z.leb_le, Z.eqb_eq. split; intros [H1 H2]; (split; [done|]);
    apply land_pred_pow2; (done || lia).
Qed.

Lemma Init_Ok sizeof alignof base cap size align gen r r' g :
  0 < sizeof -> size < two32 -> Init sizeof alignof base cap size align gen r = (r', Ok g) ->
  abi_ok size align cap /\ align = alignof /\ sizeof <= size /\ g = gen /\ gen <> 0 /\ check_base base = Ok tt /\
  control r' = mkControl kMpmcRingMagic kMpmcRingLayoutVersion cap size align gen kActive 0 0 /\
  cells r' = cells r /\ forall i, 0 <= i < cap -> load_word r' (SlotAt i size align) = i.
Proof.
  intros Hs Hsz H. unfold Init in H. destruct (check_base base) as [[]|]; [|done].
  do 7 step_if. injection H as <- <-. bool_to_prop.
  apply capacity_valid_spec in E0 as [Hc2 (k & Hk & ->)].
  assert (power_of_two align) as Hp.
  { apply land_pred_pow2; [|done]. destruct (Z.lt_trichotomy align 0) as [Hn|[?|?]]; [exfalso|lia|done].
    subst alignof. assert (Z.land align (align - 1) < 0) as Hl by (apply Z.land_neg; lia). lia. }
  assert (1 <= k <= 32) as Hk32.
  { split; [destruct (Z.eq_dec k 0); [subst; cbn in Hc2; lia|lia]|].
    destruct (Z.lt_ge_cases 32 k); [|done]. pose proof (Z.pow_lt_mono_r 2 32 k). lia. }
  assert (abi_ok size align (2 ^ k)) as Hok.
  { split; [lia| |by exists k|].
    - split_and!; [done|unfold kControlAlign, kMpmcRingCacheLineSize in *; lia|].
      apply Z.mod_divide; [lia|done].
    - unfold kControlSize, kMpmcRingCacheLineSize in *.
      pose proof (Z.mul_div_le (u64_max - 3 * 64) (2 ^ k) ltac:(lia)). nia. }
  destruct (slots_disjoint size align (2 ^ k) Hok) as [_ Hd].
  destruct (stride_spec size align) as (S1 & _); [lia|done|apply Hok|].
  destruct (init_slots_spec (Z.to_nat (2 ^ k)) size align 0 (with_control r (mkControl 0 kMpmcRingLayoutVersion
    (2 ^ k) size align gen kInactive 0 0))) as (I1 & I2 & I3 & _).
  { intros j l Hj Hl. pose proof (Hd j l ltac:(lia) ltac:(lia)). lia. }
  split_and!; try done; try lia.
  intros i Hi. unfold load_word, with_control. cbn [words]. apply I3. lia.
Qed.

(** A call run alone to its report, without spurious failures. *)
Fixpoint solo (sizeof alignof : Z) (n : nat) (expected : Z) (r : Region) (pc : Pc) : option (Region * Pc * Event) :=
  match n with
  | O => None
  | S n' =>
      match access sizeof alignof expected false r pc with
      | (r', pc', Some e) => Some (r', pc', e)
      | (r', pc', None) => solo sizeof alignof n' expected r' pc'
      end
  end.

(** [Init] lays the slots out inside the footprint, aligned and disjoint, with
    slot [i] free for position [i], and [Attach] to the result succeeds exactly when the
    element size is that of the attaching build. *)
Theorem ring_init_layout (sizeof alignof : Z) (base : option Z) (cap size align gen : Z) (r r' : Region) (g : Z) :
  0 < sizeof -> size < two32 -> Init sizeof alignof base cap size align gen r = (r', Ok g) ->
  (forall i, 0 <= i < cap ->
     load_word r' (SlotAt i size align) = i /\ kControlSize <= SlotAt i size align /\
     SlotAt i size align + storage_offset align + size <= MpmcRingRequiredSize cap size align /\
     (8 | SlotAt i size align) /\ (align | SlotAt i size align + storage_offset align)) /\
  (forall i j, 0 <= i < j -> j < cap -> SlotAt i size align + storage_offset align + size <= SlotAt j size align) /\
  (Attach sizeof alignof base r' = Ok g <-> size = sizeof).
Proof.
  intros Hs Hsz H. destruct (Init_Ok _ _ _ _ _ _ _ _ _ _ Hs Hsz H) as (Hok & -> & Hle & -> & Hg & Hb & Hc & _ & Hw).
  destruct (slots_disjoint size alignof cap Hok) as [Hin Hd]. split_and!; [|done|].
  - intros i Hi. split; [by apply Hw|by apply Hin].
  - destruct Hok as [H1 (H2 & H3 & H4) (k & Hk & ->) H5]. unfold Attach. rewrite Hb, Hc. cbn [bindR magic layout_version
      generation active_state capacity elem_size elem_align]. rewrite !Z.eqb_refl.
    assert (0 < 2 ^ k) by (apply Z.pow_pos_nonneg; lia). pose proof (Z.pow_le_mono_r 2 1 k ltac:(lia) ltac:(lia)).
    destruct H2 as (j & Hj & Hal). assert (0 < alignof) by (subst; apply Z.pow_pos_nonneg; lia).
    rewrite (proj2 (capacity_valid_spec (2 ^ k))) by (split; [lia|by exists k; split; [lia|]]).
    rewrite (proj2 (land_pred_pow2 alignof ltac:(done))) by (by exists j).
    rewrite (proj2 (Z.mod_divide size alignof ltac:(lia)) H4).
    replace (kControlAlign <? alignof) with false
      by (symmetry; apply Z.ltb_ge; unfold kControlAlign, kMpmcRingCacheLineSize; lia).
    replace ((u64_max - kControlSize) / 2 ^ k <? MpmcRingSlotStride size alignof) with false
      by (symmetry; apply Z.ltb_ge, Z.div_le_lower_bound; lia).
    replace (gen =? 0) with false by (symmetry; by apply Z.eqb_neq).
    replace (alignof =? 0) with false by (symmetry; apply Z.eqb_neq; lia). cbn.
    destruct (size =? sizeof) eqn:E; bool_to_prop; cbn; by split.
Qed.

Definition zero_region : Region := mkRegion (mkControl 0 0 0 0 0 0 kInactive 0 0) ∅ ∅.

Lemma ring_init_layout_witness :
  exists r', Init 8 8 (Some 4096) 4 8 8 1 zero_region = (r', Ok 1) /\ Attach 8 8 (Some 4096) r' = Ok 1 /\
    load_word r' (SlotAt 3 8 8) = 3.
Proof.
  destruct (Init 8 8 (Some 4096) 4 8 8 1 zero_region) as [r' res] eqn:E. exists r'.
  assert (res = Ok 1) as -> by (vm_compute in E; by injection E as _ <-).
  destruct (ring_init_layout 8 8 (Some 4096) 4 8 8 1 zero_region r' 1 ltac:(lia) ltac:(lia) E) as (H1 & _ & H2).
  split_and!; [done|by apply H2|]. apply H1. lia.
Defined.

(** A sequence of calls, each run alone to its report. *)
Fixpoint solo_calls (sizeof alignof : Z) (n : nat) (expected : Z) (r : Region) (ops : list Op) : list Event :=
  match ops with
  | [] => []
  | o :: rest =>
      match solo sizeof alignof n expected r (FenceBefore o) with
      | Some (r', _, e) => e :: solo_calls sizeof alignof n expected r' rest
      | None => []
      end
  end.

(** A concrete ring.  [Init] accepts an element size above [sizeof(T)], but initialises the
    slots at the stride of that size while the view addresses them at the stride of
    [sizeof(T)]: for an 8-byte element, an element size of 16 and zeroed memory, a new ring of
    eight slots takes one element and then reports that it is full. *)
Theorem oversized_element_ring_full_at_one :
  let '(r, res) := Init 8 8 (Some 4096) 8 16 8 1 zero_region in
  let v := replicate 8 Byte.x01 in
  res = Ok 1 /\
  solo_calls 8 8 20 1 r [TryEnqueue; CommitEnqueue 0 v; TryEnqueue] = [EReserved 0; ECommitted 0 v; EFull 1].
Proof. vm_compute. done. Qed.
