(* ===== verification/MpmcRingSafety.v ===== *)
(** * The ring under every interleaving

    The invariant of [MpmcRing]'s machine: the sequence of a slot tells the state of the
    one position of the current window it stands for.  From it: positions are reserved
    and claimed once each in order, a claimed slot holds the value committed at its
    position, the reports of a full and of an empty ring are true when they are made, and
    a call that runs alone returns. *)
From S2P Require Import Prelude Checked Bytes MpmcRing.

Section Safety.
Context (sizeof alignof cap : Z) (Habi : abi_ok sizeof alignof cap) (expected : Z).

(** ** Slots *)

Definition slot (p : Z) : Z := slot_offset sizeof alignof cap p.
Definition seq_at (r : Region) (p : Z) : Z := load_word r (slot p).
Definition cell_at (r : Region) (p : Z) (i : nat) : byte :=
  load_cell r (cell_offset alignof (slot p) (Z.of_nat i)).
Definition storage (r : Region) (p : Z) : list byte := cell_at r p <$> seq 0 (Z.to_nat sizeof).

Lemma cap_bounds : 2 <= cap <= 2 ^ 32.
Proof.
  destruct Habi as [_ _ (k & Hk & ->) _]. split; [apply (Z.pow_le_mono_r 2 1 k); lia|apply Z.pow_le_mono_r; lia].
Qed.

Lemma slot_mod p : slot p = kControlSize + (p mod cap) * MpmcRingSlotStride sizeof alignof.
Proof.
  pose proof cap_bounds as Hcap. unfold slot, slot_offset. destruct Habi as [_ _ (k & Hk & Hc) _].
  replace (Z.land p (cap - 1)) with (p mod cap).
  - apply (slot_at _ _ cap _ Habi). apply Z.mod_pos_bound. lia.
  - rewrite Hc. replace (2 ^ k - 1) with (Z.ones k) by (rewrite Z.ones_equiv; lia). by rewrite Z.land_ones by lia.
Qed.

Lemma stride_bounds : 8 <= storage_offset alignof /\ storage_offset alignof + sizeof <= MpmcRingSlotStride sizeof alignof.
Proof.
  destruct Habi as [Hs (Hp & Ha & _) _ _]. destruct (stride_spec sizeof alignof Hs Hp Ha) as (? & _ & ? & _). lia.
Qed.

Lemma size_pos : 0 < sizeof.
Proof. apply Habi. Qed.

Lemma slot_same p q : p mod cap = q mod cap -> slot p = slot q.
Proof. intros H. by rewrite !slot_mod, H. Qed.

Lemma slot_inj p q : slot p = slot q -> p mod cap = q mod cap.
Proof.
  rewrite !slot_mod. intros H. pose proof stride_bounds. pose proof size_pos.
  apply (Z.mul_reg_r _ _ (MpmcRingSlotStride sizeof alignof)); lia.
Qed.

(** Two positions less than a cycle apart do not share a slot. *)
Lemma slot_window p q : slot p = slot q -> - cap < p - q < cap -> p = q.
Proof.
  intros H%slot_inj Hd. pose proof cap_bounds as Hcap. pose proof (Z.div_mod p cap ltac:(lia)).
  pose proof (Z.div_mod q cap ltac:(lia)). assert (p - q = cap * (p / cap - q / cap)) by lia.
  assert (p / cap - q / cap = 0) by nia. lia.
Qed.

Lemma slot_cycle p : slot (p + cap) = slot p.
Proof.
  pose proof cap_bounds as Hcap. apply slot_same. rewrite <- Z.add_mod_idemp_r, Z.mod_same, Z.add_0_r by lia. done.
Qed.

Lemma cells_apart p q i j :
  slot p <> slot q -> 0 <= i < sizeof -> 0 <= j < sizeof ->
  cell_offset alignof (slot p) i <> cell_offset alignof (slot q) j.
Proof.
  rewrite !slot_mod. intros Hne Hi Hj. unfold cell_offset. pose proof stride_bounds. pose proof cap_bounds as Hcap.
  set (st := MpmcRingSlotStride sizeof alignof) in *. pose proof (Z.mod_pos_bound p cap ltac:(lia)).
  pose proof (Z.mod_pos_bound q cap ltac:(lia)).
  destruct (Z.lt_trichotomy (p mod cap) (q mod cap)) as [Hl|[He|Hl]]; [nia|by rewrite He in Hne|nia].
Qed.

Lemma seq_store_eq r p v : seq_at (store_word r (slot p) v) p = v.
Proof. unfold seq_at, load_word, store_word. cbn [words]. by rewrite lookup_insert_eq. Qed.
Lemma seq_store_ne r p q v : slot p <> slot q -> seq_at (store_word r (slot p) v) q = seq_at r q.
Proof. intros H. unfold seq_at, load_word, store_word. cbn [words]. by rewrite lookup_insert_ne. Qed.
Lemma storage_same r r' p : cells r' = cells r -> storage r' p = storage r p.
Proof. intros H. unfold storage, cell_at, load_cell. by rewrite H. Qed.

Lemma cell_store_eq r p i b : cell_at (store_cell r (cell_offset alignof (slot p) (Z.of_nat i)) b) p i = b.
Proof. unfold cell_at, load_cell, store_cell. cbn [cells]. by rewrite lookup_insert_eq. Qed.
Lemma cell_store_ne r p i q j b :
  slot p <> slot q \/ i <> j -> Z.of_nat i < sizeof -> Z.of_nat j < sizeof ->
  cell_at (store_cell r (cell_offset alignof (slot p) (Z.of_nat i)) b) q j = cell_at r q j.
Proof.
  intros H Hi Hj. unfold cell_at, load_cell, store_cell. cbn [cells]. rewrite lookup_insert_ne; [done|].
  destruct (decide (slot p = slot q)) as [He|Hne]; [|apply cells_apart; lia].
  destruct H as [H|H]; [done|]. rewrite He. unfold cell_offset. lia.
Qed.
Lemma storage_store_ne r p i q b :
  slot p <> slot q -> Z.of_nat i < sizeof ->
  storage (store_cell r (cell_offset alignof (slot p) (Z.of_nat i)) b) q = storage r q.
Proof.
  intros Hne Hi. apply list_fmap_ext. intros k j Hj%lookup_seq. apply cell_store_ne; [by left|done|].
  pose proof size_pos. lia.
Qed.

Lemma storage_eq r p v :
  zlen v = sizeof -> (forall i, Z.of_nat i < sizeof -> cell_at r p i = nth i v Byte.x00) -> storage r p = v.
Proof.
  unfold zlen. intros Hv Hc. apply list_eq. intros i. unfold storage. rewrite list_lookup_fmap.
  destruct (decide (i < length v)%nat) as [Hi|Hi].
  - rewrite lookup_seq_lt by lia. cbn. rewrite Hc by lia. symmetry. rewrite nth_lookup.
    apply lookup_lt_is_Some in Hi as [b Hb]. by rewrite Hb.
  - rewrite lookup_seq_ge by lia. cbn. symmetry. apply lookup_ge_None. lia.
Qed.

Lemma storage_read r p v i :
  storage r p = v -> Z.of_nat i < sizeof -> v !! i = Some (cell_at r p i).
Proof. intros <- Hi. unfold storage. rewrite list_lookup_fmap, lookup_seq_lt by lia. done. Qed.

Lemma storage_length r p : zlen (storage r p) = sizeof.
Proof. unfold storage, zlen. rewrite length_fmap, length_seq. pose proof size_pos. lia. Qed.

(** ** The invariant *)

(** The sequence a thread has reserved and not committed, and the one it has claimed and
    not released. *)
Definition op_reserves (o : Op) : option Z := match o with CommitEnqueue s _ => Some s | _ => None end.
Definition op_claims (o : Op) : option Z :=
  match o with ReadSlot s | CommitDequeue s => Some s | _ => None end.
Definition reserves (pc : Pc) : option Z :=
  match pc with
  | Reserved s | Writing s _ _ | Publishing s _ => Some s
  | FenceBefore o | FenceState o _ | FenceAfter o _ _ => op_reserves o
  | _ => None
  end.
Definition claims (pc : Pc) : option Z :=
  match pc with
  | Claimed s | Reading s _ | Releasing s => Some s
  | FenceBefore o | FenceState o _ | FenceAfter o _ _ => op_claims o
  | _ => None
  end.
Definition reserver (c : Config) (t : nat) (p : Z) : Prop := exists pc, threads c !! t = Some pc /\ reserves pc = Some p.
Definition claimer (c : Config) (t : nat) (p : Z) : Prop := exists pc, threads c !! t = Some pc /\ claims pc = Some p.

Definition enq (c : Config) : Z := enqueue_pos (control (region c)).
Definition deq (c : Config) : Z := dequeue_pos (control (region c)).

(** What a thread knows of the region inside a call. *)
Definition op_ok (o : Op) : Prop := match o with CommitEnqueue _ v => zlen v = sizeof | _ => True end.
Definition local_ok (r : Region) (l : list Event) (pc : Pc) : Prop :=
  let E := enqueue_pos (control r) in
  let D := dequeue_pos (control r) in
  match pc with
  | FenceBefore o | FenceState o _ | FenceAfter o _ _ => op_ok o
  | EnqueueSlot pos => 0 <= pos <= E
  | EnqueueCas pos => 0 <= pos <= E /\ (pos = E -> seq_at r pos = pos)
  | Writing s v i => zlen v = sizeof /\ Z.of_nat i <= sizeof /\ forall j, (j < i)%nat -> cell_at r s j = nth j v Byte.x00
  | Publishing s v => storage r s = v
  | DequeueSlot pos => 0 <= pos <= D
  | DequeueCas pos => 0 <= pos <= D /\ (pos = D -> seq_at r pos = pos + 1)
  | Reading s read => exists v, ECommitted s v ∈ l /\ storage r s = v /\ read = take (length read) v
  | _ => True
  end.

(** The state of a position of the window [enqueue_pos - capacity, enqueue_pos): reserved,
    committed, or released. *)
Inductive slot_state (c : Config) (p : Z) : Prop :=
| slot_reserved t :
    seq_at (region c) p = p -> deq c <= p -> reserver c t p -> slot_state c p
| slot_committed v :
    seq_at (region c) p = p + 1 -> ECommitted p v ∈ log c -> storage (region c) p = v ->
    deq c <= p \/ (exists t, claimer c t p) -> slot_state c p
| slot_released :
    seq_at (region c) p = p + cap -> p < deq c -> slot_state c p.

Definition reserved_positions (l : list Event) : list Z :=
  omap (fun e => match e with EReserved p => Some p | _ => None end) l.
Definition claimed_positions (l : list Event) : list Z :=
  omap (fun e => match e with EClaimed p => Some p | _ => None end) l.
Definition committed_positions (l : list Event) : list Z :=
  omap (fun e => match e with ECommitted p _ => Some p | _ => None end) l.

Record ring_ok (n : Z) (c : Config) : Prop := {
  rk_static : capacity (control (region c)) = cap;
  rk_pos : 0 <= deq c <= enq c /\ enq c <= n /\ enq c <= deq c + cap;
  rk_slot : forall p, 0 <= p -> enq c - cap <= p < enq c -> slot_state c p;
  rk_fresh : forall p, enq c <= p < cap -> seq_at (region c) p = p;
  rk_reserver : forall t p, reserver c t p -> 0 <= p /\ enq c - cap <= p < enq c /\ seq_at (region c) p = p;
  rk_reserver_one : forall t t' p, reserver c t p -> reserver c t' p -> t = t';
  rk_claimer : forall t p, claimer c t p ->
    0 <= p < deq c /\ enq c - cap <= p /\ seq_at (region c) p = p + 1;
  rk_claimer_one : forall t t' p, claimer c t p -> claimer c t' p -> t = t';
  rk_local : forall t pc, threads c !! t = Some pc -> local_ok (region c) (log c) pc;
  rk_reserved : reserved_positions (log c) = seqZ 0 (enq c);
  rk_claimed : claimed_positions (log c) = seqZ 0 (deq c);
  rk_committed : forall p, p ∈ committed_positions (log c) -> 0 <= p < enq c /\ forall t, ~ reserver c t p;
  rk_committed_once : NoDup (committed_positions (log c));
  rk_read : forall p v, ERead p v ∈ log c -> ECommitted p v ∈ log c
}.

Lemma committed_position p v l : ECommitted p v ∈ l -> p ∈ committed_positions l.
Proof. intros H. apply list_elem_of_omap. by exists (ECommitted p v). Qed.

(** The position of the window that stands for the slot of [pos], and its sequence. *)
Lemma slot_view n c pos :
  ring_ok n c -> exists q, enq c - cap <= q < enq c /\ slot q = slot pos /\ (pos < enq c -> pos <= q) /\
    (pos = enq c -> q = enq c - cap) /\
    (0 <= q /\ slot_state c q \/ q < 0 /\ seq_at (region c) pos = q + cap).
Proof.
  intros [_ (HD & Hn & HE) Hslot Hfresh _ _ _ _ _ _ _ _ _ _]. pose proof cap_bounds as Hcap.
  set (E := enq c) in *. set (q := E - cap + (pos - E) mod cap).
  pose proof (Z.mod_pos_bound (pos - E) cap ltac:(lia)) as Hm.
  pose proof (Z.div_mod (pos - E) cap ltac:(lia)) as Hdm.
  assert (slot q = slot pos) as Hq.
  { apply slot_same. transitivity ((q + (1 + (pos - E) / cap) * cap) mod cap); [by rewrite Z.mod_add by lia|].
    f_equal. unfold q. lia. }
  exists q. split; [unfold q; lia|]. split; [done|]. split; [|split].
  - intros Hlt. unfold q. assert ((pos - E) / cap <= -1) by (pose proof (Z.div_lt_upper_bound (pos - E) cap 0); lia).
    nia.
  - intros ->. unfold q. rewrite Z.sub_diag, Z.mod_0_l by lia. lia.
  - destruct (Z.lt_ge_cases q 0) as [Hneg|Hpos]; [right|left; split; [done|apply Hslot; unfold q; lia]].
    split; [done|]. replace (seq_at (region c) pos) with (seq_at (region c) (q + cap)).
    + apply Hfresh. unfold q in *. lia.
    + unfold seq_at. by rewrite slot_cycle, Hq.
Qed.

Lemma slot_seq_range c q : slot_state c q -> q <= seq_at (region c) q <= q + cap.
Proof. pose proof cap_bounds as Hcap. intros [t -> _ _|v -> _ _ _| -> _]; lia. Qed.

(** What a producer sees at a position it has loaded. *)
Lemma enqueue_view n c pos :
  ring_ok n c -> 0 <= pos <= enq c ->
  0 <= seq_at (region c) pos <= n + cap /\ (pos = enq c -> seq_at (region c) pos <= pos) /\
  (seq_at (region c) pos < pos ->
     pos = enq c /\ 0 <= pos - cap /\ slot_state c (pos - cap) /\ seq_at (region c) (pos - cap) <= pos - cap + 1).
Proof.
  intros Hok Hpos. pose proof Hok as [_ (HD & Hn & HE) _ _ _ _ _ _ _ _ _ _ _ _]. pose proof cap_bounds as Hcap.
  destruct (slot_view n c pos Hok) as (q & Hq & Hs & Hlt & Heq & Hcase).
  assert (seq_at (region c) q = seq_at (region c) pos) as Hqp by (unfold seq_at; by rewrite Hs).
  destruct Hcase as [[H0 Hst]|[H0 Hst]].
  - pose proof (slot_seq_range c q Hst) as Hr. rewrite Hqp in Hr. split; [lia|]. split; [lia|]. intros Hl.
    assert (pos = enq c) as Hp by lia. rewrite Heq, <- Hp in * by done. split_and!; [done|lia|done|].
    destruct Hst as [t Hx _ _|v Hx _ _ _|Hx _]; lia.
  - split; [lia|]. split; [lia|]. intros Hl. exfalso. lia.
Qed.

(** What a consumer sees at a position it has loaded. *)
Lemma dequeue_view n c pos :
  ring_ok n c -> 0 <= pos <= deq c ->
  0 <= seq_at (region c) pos <= n + cap /\
  (pos < deq c -> pos + 1 <= seq_at (region c) pos) /\
  (pos = deq c -> seq_at (region c) pos <= pos + 1) /\
  (pos = deq c -> seq_at (region c) pos = pos + 1 -> pos < enq c /\ exists v, ECommitted pos v ∈ log c /\
     storage (region c) pos = v).
Proof.
  intros Hok Hpos. pose proof Hok as [_ (HD & Hn & HE) Hslot _ _ _ _ _ _ _ _ _ _ _]. pose proof cap_bounds as Hcap.
  destruct (enqueue_view n c pos Hok ltac:(lia)) as (Hr & He & _). split; [done|].
  destruct (slot_view n c pos Hok) as (q & Hq & Hs & Hlt & Heq & Hcase).
  assert (seq_at (region c) q = seq_at (region c) pos) as Hqp by (unfold seq_at; by rewrite Hs).
  assert (q = pos -> slot_state c pos) as Hpst by (intros ->; apply Hslot; lia).
  assert (pos < enq c -> pos < q -> pos + cap <= q) as Hcyc.
  { intros H1 H2. destruct (Z.lt_ge_cases q (pos + cap)) as [H3|H3]; [|done].
    pose proof (slot_window q pos Hs ltac:(lia)). lia. }
  split_and!.
  - intros Hd. assert (pos <= q) as Hpq by (apply Hlt; lia). destruct (Z.eq_dec q pos) as [->|Hne].
    + destruct (Hpst eq_refl) as [t _ Hdd _|v -> _ _ _| -> _]; lia.
    + pose proof (Hcyc ltac:(lia) ltac:(lia)) as Hc. destruct Hcase as [[H0 Hst]|[H0 Hst]]; [|lia].
      pose proof (slot_seq_range c q Hst). lia.
  - intros ->. destruct (Z.eq_dec (deq c) (enq c)) as [Hde|Hne]; [pose proof (He Hde); lia|].
    destruct (Hslot (deq c) ltac:(lia) ltac:(lia)) as [t -> _ _|v -> _ _ _|_ ?]; lia.
  - intros -> Hseq. destruct (Z.eq_dec (deq c) (enq c)) as [Hde|Hne]; [pose proof (He Hde); lia|].
    split; [lia|]. destruct (Hslot (deq c) ltac:(lia) ltac:(lia)) as [t Hx _ _|v _ Hv Hst _|_ ?]; [lia|by exists v|lia].
Qed.

(** ** Changes that touch no slot *)

Lemma reserver_insert c t pc pc' r l t' p :
  threads c !! t = Some pc -> reserves pc' = reserves pc ->
  reserver (mkConfig r (<[t := pc']> (threads c)) l) t' p <-> reserver c t' p.
Proof.
  intros Ht Hr. unfold reserver. cbn [threads]. split; intros (x & Hx & Hp).
  - apply lookup_insert_Some in Hx as [[<- <-]|[_ Hx]]; [exists pc; by rewrite <- Hr|by exists x].
  - destruct (decide (t = t')) as [<-|Hne]; [|exists x; by rewrite lookup_insert_ne].
    exists pc'. rewrite lookup_insert_eq, Hr. by rewrite Ht in Hx; injection Hx as <-.
Qed.
Lemma claimer_insert c t pc pc' r l t' p :
  threads c !! t = Some pc -> claims pc' = claims pc ->
  claimer (mkConfig r (<[t := pc']> (threads c)) l) t' p <-> claimer c t' p.
Proof.
  intros Ht Hr. unfold claimer. cbn [threads]. split; intros (x & Hx & Hp).
  - apply lookup_insert_Some in Hx as [[<- <-]|[_ Hx]]; [exists pc; by rewrite <- Hr|by exists x].
  - destruct (decide (t = t')) as [<-|Hne]; [|exists x; by rewrite lookup_insert_ne].
    exists pc'. rewrite lookup_insert_eq, Hr. by rewrite Ht in Hx; injection Hx as <-.
Qed.

(** An event that moves no position. *)
Definition quiet_event (l : list Event) (e : Event) : Prop :=
  match e with
  | EReserved _ | EClaimed _ | ECommitted _ _ => False
  | ERead p v => ECommitted p v ∈ l
  | _ => True
  end.
Definition quiet_log (l l' : list Event) : Prop := l' = l \/ exists e, l' = l ++ [e] /\ quiet_event l e.

Lemma quiet_keeps l l' :
  quiet_log l l' ->
  reserved_positions l' = reserved_positions l /\ claimed_positions l' = claimed_positions l /\
  committed_positions l' = committed_positions l /\
  (forall p v, ECommitted p v ∈ l' <-> ECommitted p v ∈ l) /\
  ((forall p v, ERead p v ∈ l -> ECommitted p v ∈ l) -> forall p v, ERead p v ∈ l' -> ECommitted p v ∈ l').
Proof.
  intros [->|(e & -> & He)]; [done|].
  unfold reserved_positions, claimed_positions, committed_positions. rewrite !omap_app.
  assert (forall p v, ECommitted p v ∈ l ++ [e] <-> ECommitted p v ∈ l) as Hc.
  { intros p v. rewrite elem_of_app, list_elem_of_singleton. split; [intros [?| <-]; [done|by destruct He]|by left]. }
  split_and!; [destruct e; cbn in *; try done; by rewrite app_nil_r..|done|].
  intros Hr p v. rewrite Hc, elem_of_app, list_elem_of_singleton. intros [?| <-]; [by apply Hr|done].
Qed.

Lemma local_log r l l' pc :
  (forall p v, ECommitted p v ∈ l -> ECommitted p v ∈ l') -> local_ok r l pc -> local_ok r l' pc.
Proof. intros H. destruct pc; cbn; try done. intros (v & Hv & Hs). exists v. split; [by apply H|done]. Qed.

Lemma pc_only n c t pc pc' l' :
  ring_ok n c -> threads c !! t = Some pc -> reserves pc' = reserves pc -> claims pc' = claims pc ->
  local_ok (region c) (log c) pc' -> quiet_log (log c) l' ->
  ring_ok n (mkConfig (region c) (<[t := pc']> (threads c)) l').
Proof.
  intros [K1 K2 K3 K4 K5 K6 K7 K8 K9 K10 K11 K12 K13 K14] Ht Hr Hc Hl Hq.
  destruct (quiet_keeps _ _ Hq) as (Q1 & Q2 & Q3 & Q4 & Q5).
  pose proof (fun t' p => reserver_insert c t pc pc' (region c) l' t' p Ht Hr) as Hres.
  pose proof (fun t' p => claimer_insert c t pc pc' (region c) l' t' p Ht Hc) as Hcl.
  split; cbn [region log] in *; try done.
  - intros p H0 Hp. destruct (K3 p H0 Hp) as [t' H1 H2 H3|v H1 H2 H3 H4|H1 H2].
    + apply (slot_reserved _ _ t'); [done|done|by apply Hres].
    + apply (slot_committed _ _ v); [done|by apply Q4|done|]. destruct H4 as [H4|[t' H4]]; [by left|right].
      exists t'. by apply Hcl.
    + by apply slot_released.
  - intros t' p Hx%Hres. by apply (K5 t').
  - intros t1 t2 p Hx%Hres Hy%Hres. by apply (K6 _ _ p).
  - intros t' p Hx%Hcl. by apply (K7 t').
  - intros t1 t2 p Hx%Hcl Hy%Hcl. by apply (K8 _ _ p).
  - intros t' x Hx. apply (local_log _ (log c)); [by intros; apply Q4|].
    cbn [threads] in Hx. apply lookup_insert_Some in Hx as [[_ <-]|[_ Hx]]; [done|by eapply K9].
  - by rewrite Q1.
  - by rewrite Q2.
  - intros p. rewrite Q3. intros Hp. destruct (K12 p Hp) as [H1 H2]. split; [done|]. intros t' Hx%Hres. by apply (H2 t').
  - by rewrite Q3.
  - by apply Q5.
Qed.

Lemma more_steps n c : ring_ok n c -> ring_ok (n + 1) c.
Proof. intros [K1 K2 K3 K4 K5 K6 K7 K8 K9 K10 K11 K12 K13 K14]. split; try done. lia. Qed.

(** Retiring and reactivating change the state of the ring only. *)
Lemma state_only n c st :
  ring_ok n c ->
  ring_ok n (mkConfig (with_control (region c) (with_state (control (region c)) st)) (threads c) (log c)).
Proof.
  intros [K1 K2 K3 K4 K5 K6 K7 K8 K9 K10 K11 K12 K13 K14]. split; try done.
  intros p H0 Hp. destruct (K3 p H0 Hp) as [t H1 H2 H3|v H1 H2 H3 H4|H1 H2];
    [by apply (slot_reserved _ _ t)|by apply (slot_committed _ _ v)|by apply slot_released].
Qed.

(** ** Changes to one slot or one cursor *)

Lemma reserver_set c t pc' r l t' p :
  reserver (mkConfig r (<[t := pc']> (threads c)) l) t' p <->
  t' = t /\ reserves pc' = Some p \/ t' <> t /\ reserver c t' p.
Proof.
  unfold reserver. cbn [threads]. destruct (decide (t' = t)) as [->|Hne].
  - rewrite lookup_insert_eq. split; [intros (x & [= <-] & Hp); by left|].
    intros [[_ Hp]|[Hne _]]; [by exists pc'|done].
  - rewrite lookup_insert_ne by done. split; [by right|]. intros [[? _]|[_ Hx]]; done.
Qed.
Lemma claimer_set c t pc' r l t' p :
  claimer (mkConfig r (<[t := pc']> (threads c)) l) t' p <->
  t' = t /\ claims pc' = Some p \/ t' <> t /\ claimer c t' p.
Proof.
  unfold claimer. cbn [threads]. destruct (decide (t' = t)) as [->|Hne].
  - rewrite lookup_insert_eq. split; [intros (x & [= <-] & Hp); by left|].
    intros [[_ Hp]|[Hne _]]; [by exists pc'|done].
  - rewrite lookup_insert_ne by done. split; [by right|]. intros [[? _]|[_ Hx]]; done.
Qed.

(** A thread that reserves or claims nothing is not the one another position belongs to. *)
Lemma not_reserver c t pc t' p :
  threads c !! t = Some pc -> reserves pc = None -> reserver c t' p -> t' <> t.
Proof. intros Ht Hr (x & Hx & Hp) ->. rewrite Ht in Hx. injection Hx as <-. by rewrite Hr in Hp. Qed.
Lemma not_claimer c t pc t' p :
  threads c !! t = Some pc -> claims pc = None -> claimer c t' p -> t' <> t.
Proof. intros Ht Hr (x & Hx & Hp) ->. rewrite Ht in Hx. injection Hx as <-. by rewrite Hr in Hp. Qed.

(** The compare-exchange that reserves a position. *)
Lemma reserve_ok n c t :
  ring_ok n c -> threads c !! t = Some (EnqueueCas (enq c)) ->
  ring_ok (n + 1) (mkConfig (with_control (region c) (with_enqueue (control (region c)) (enq c + 1)))
    (<[t := Reserved (enq c)]> (threads c)) (log c ++ [EReserved (enq c)])).
Proof.
  intros Hok Ht. pose proof Hok as [K1 (KD & Kn & KE) K3 K4 K5 K6 K7 K8 K9 K10 K11 K12 K13 K14].
  pose proof cap_bounds as Hcap. set (E := enq c) in *.
  destruct (K9 _ _ Ht) as [_ Hseq]. specialize (Hseq eq_refl). change (seq_at (region c) E = E) in Hseq.
  assert (seq_at (region c) (E - cap) = E) as Hprev
    by (unfold seq_at in *; rewrite <- (slot_cycle (E - cap)), Z.sub_add; done).
  assert (E + 1 <= deq c + cap) as HE1.
  { destruct (Z.lt_ge_cases (E - cap) 0) as [|H0]; [lia|].
    destruct (K3 (E - cap) H0 ltac:(lia)) as [x Hx _ _|v Hx _ _ _|_ Hx]; lia. }
  set (c' := mkConfig _ _ _).
  pose proof (fun t' p => reserver_set c t (Reserved E) (region c') (log c') t' p) as Hres.
  pose proof (fun t' p => claimer_set c t (Reserved E) (region c') (log c') t' p) as Hcl.
  pose proof (fun t' p => not_reserver c t _ t' p Ht eq_refl) as Hnr.
  pose proof (fun t' p => not_claimer c t _ t' p Ht eq_refl) as Hnc.
  assert (enq c' = E + 1) as HEc by done.
  assert (committed_positions (log c') = committed_positions (log c)) as Hcom
    by (unfold c', committed_positions; cbn [log]; rewrite omap_app; cbn; by rewrite app_nil_r).
  split; rewrite ?HEc; try done.
  - change (deq c') with (deq c). lia.
  - intros p H0 Hp. destruct (Z.eq_dec p E) as [->|Hne].
    + apply (slot_reserved _ _ t); [done|change (deq c') with (deq c); lia|]. apply Hres. by left.
    + destruct (K3 p H0 ltac:(lia)) as [t' H1 H2 H3|v H1 H2 H3 H4|H1 H2].
      * apply (slot_reserved _ _ t'); [done|done|]. apply Hres. right. split; [by eapply Hnr|done].
      * apply (slot_committed _ _ v); [done|by apply elem_of_app; left|done|].
        destruct H4 as [H4|[t' H4]]; [by left|right]. exists t'. apply Hcl. right. split; [by eapply Hnc|done].
      * by apply slot_released.
  - intros p Hp. apply K4. lia.
  - intros t' p [[-> [= <-]]|[_ Hx]]%Hres; [split_and!; [lia|lia|lia|done]|].
    destruct (K5 t' p Hx) as (H0 & Hp & Hs). split_and!; [done| |lia|done].
    destruct (Z.eq_dec p (E - cap)) as [->|]; [rewrite Hprev in Hs; lia|lia].
  - intros t1 t2 p [[-> [= <-]]|[_ Hx]]%Hres [[-> Hp]|[_ Hy]]%Hres; [done| | |by eapply K6].
    + destruct (K5 _ _ Hy). lia.
    + injection Hp as <-. destruct (K5 _ _ Hx). lia.
  - intros t' p [[_ ?]|[_ Hx]]%Hcl; [done|]. destruct (K7 t' p Hx) as (H0 & Hp & Hs).
    change (deq c') with (deq c). split_and!; [lia|lia| |done].
    destruct (Z.eq_dec p (E - cap)) as [->|]; [rewrite Hprev in Hs; lia|lia].
  - intros t1 t2 p [[_ ?]|[_ Hx]]%Hcl [[_ ?]|[_ Hy]]%Hcl; [done..|]. by eapply K8.
  - intros t' pc Hx. cbn [threads c'] in Hx. apply lookup_insert_Some in Hx as [[_ <-]|[_ Hx]]; [done|].
    apply (local_log _ (log c)); [intros; by apply elem_of_app; left|]. specialize (K9 t' pc Hx).
    destruct pc; cbn in K9 |- *; try done; fold E in K9; change (enqueue_pos (control (region c))) with E in K9; lia.
  - unfold c', reserved_positions in *. cbn [log]. rewrite omap_app, K10. cbn [omap list_omap].
    rewrite (seqZ_app 0 E 1) by lia. done.
  - unfold c', claimed_positions in *. cbn [log]. rewrite omap_app, K11. cbn. by rewrite app_nil_r.
  - intros p. rewrite Hcom. intros Hp. destruct (K12 p Hp) as [H1 H2]. split; [lia|].
    intros t' [[_ [= <-]]|[_ Hx]]%Hres; [lia|by apply (H2 t')].
  - by rewrite Hcom.
  - intros p v. unfold c'. cbn [log]. rewrite !elem_of_app, !list_elem_of_singleton. intros [Hx|?]; [left; by apply K14|done].
Qed.

(** Storing the sequence of a position its thread owns changes no other position and
    nothing a thread knows. *)
Lemma store_frame n c s w :
  ring_ok n c -> 0 <= s -> enq c - cap <= s < enq c ->
  seq_at (region c) s = s \/ seq_at (region c) s = s + 1 /\ s < deq c ->
  let r := store_word (region c) (slot s) w in
  (forall p, enq c - cap <= p < enq c -> p <> s -> seq_at r p = seq_at (region c) p) /\
  (forall p, enq c <= p < cap -> seq_at r p = p) /\
  (forall l pc, local_ok (region c) l pc -> local_ok r l pc).
Proof.
  intros Hok Hs0 Hs Hown. pose proof cap_bounds as Hcap. cbv zeta.
  pose proof Hok as [_ (KD & _ & KE) _ K4 _ _ _ _ _ _ _ _ _ _].
  assert (forall p, slot s = slot p -> seq_at (region c) p = seq_at (region c) s) as Hsame
    by (intros p Heq; unfold seq_at; by rewrite Heq).
  split_and!.
  - intros p Hp Hne. apply seq_store_ne. intros Heq. pose proof (slot_window s p Heq ltac:(lia)). lia.
  - intros p Hp. rewrite <- (K4 p Hp) at 2. apply seq_store_ne. intros Heq.
    pose proof (slot_window s p Heq ltac:(lia)). lia.
  - intros l pc. destruct pc; cbn; try done; intros [H1 H2]; (split; [done|]); intros He;
      (rewrite seq_store_ne; [by apply H2|]); intros Heq; specialize (H2 He); rewrite (Hsame pos Heq) in H2.
    + change (enqueue_pos (control (region c))) with (enq c) in *.
      destruct (Z.lt_ge_cases (pos - s) cap) as [Hl|Hl]; [|lia].
      pose proof (slot_window s pos Heq ltac:(lia)). lia.
    + change (dequeue_pos (control (region c))) with (deq c) in *.
      destruct Hown as [Hw|[Hw Hd]]; [|lia]. pose proof (slot_window s pos Heq ltac:(lia)). lia.
Qed.

(** The store that commits a reserved position. *)
Lemma commit_ok n c t s v :
  ring_ok n c -> threads c !! t = Some (Publishing s v) ->
  ring_ok (n + 1) (mkConfig (store_word (region c) (slot s) (s + 1)) (<[t := Idle]> (threads c))
    (log c ++ [ECommitted s v])).
Proof.
  intros Hok Ht. pose proof (K9 := rk_local _ _ Hok _ _ Ht). cbn in K9.
  assert (reserver c t s) as Hrs by (by exists (Publishing s v)).
  pose proof Hok as [K1 (KD & Kn & KE) K3 K4 K5 K6 K7 K8 K9' K10 K11 K12 K13 K14].
  destruct (K5 t s Hrs) as (Hs0 & Hs & Hseq). pose proof cap_bounds as Hcap.
  assert (deq c <= s) as Hds by (destruct (K3 s Hs0 Hs) as [? ? ? ?|? ? ? ? ?|? ?]; lia).
  destruct (store_frame n c s (s + 1) Hok Hs0 Hs (or_introl Hseq)) as (F1 & F2 & F3).
  set (c' := mkConfig _ _ _).
  pose proof (fun t' p => reserver_set c t Idle (region c') (log c') t' p) as Hres.
  pose proof (fun t' p => claimer_set c t Idle (region c') (log c') t' p) as Hcl.
  pose proof (fun t' p => not_claimer c t _ t' p Ht eq_refl) as Hnc.
  assert (forall t' p, reserver c t' p -> t' <> t -> p <> s) as Hrn by (intros t' p Hx Hne ->; by destruct Hne; eapply K6).
  assert (committed_positions (log c') = committed_positions (log c) ++ [s]) as Hcom
    by (unfold c', committed_positions; cbn [log]; rewrite omap_app; done).
  assert (forall p u, ECommitted p u ∈ log c -> ECommitted p u ∈ log c') as Hmono
    by (intros; apply elem_of_app; by left).
  split; try done.
  - change (enq c') with (enq c). change (deq c') with (deq c). lia.
  - intros p H0 Hp. destruct (Z.eq_dec p s) as [->|Hne].
    + apply (slot_committed _ _ v); [apply seq_store_eq|apply elem_of_app; right; by left| |by left].
      by rewrite (storage_same (region c)).
    + pose proof (F1 p Hp Hne) as Hsp. destruct (K3 p H0 Hp) as [t' H1 H2 H3|u H1 H2 H3 H4|H1 H2].
      * apply (slot_reserved _ _ t'); [by rewrite <- H1 at 2|done|]. apply Hres. right. split; [|done].
        intros ->. apply Hne. destruct H3 as (x & Hx & Hp'). rewrite Ht in Hx. injection Hx as <-. by injection Hp'.
      * apply (slot_committed _ _ u); [by rewrite <- H1|by apply Hmono|by rewrite (storage_same (region c))|].
        destruct H4 as [H4|[t' H4]]; [by left|right]. exists t'. apply Hcl. right. split; [by eapply Hnc|done].
      * apply slot_released; [by rewrite <- H1|done].
  - intros t' p [[_ ?]|[Hne Hx]]%Hres; [done|]. destruct (K5 t' p Hx) as (H0 & Hp & Hq).
    split_and!; [done|apply Hp|apply Hp|]. cbn [region c']. rewrite F1; [done|done|by eapply Hrn].
  - intros t1 t2 p [[_ ?]|[_ Hx]]%Hres [[_ ?]|[_ Hy]]%Hres; [done..|]. by eapply K6.
  - intros t' p [[_ ?]|[_ Hx]]%Hcl; [done|]. destruct (K7 t' p Hx) as (H0 & Hp & Hq). split_and!; [apply H0|apply H0|done|].
    cbn [region c']. rewrite F1; [done|lia|]. intros ->. lia.
  - intros t1 t2 p [[_ ?]|[_ Hx]]%Hcl [[_ ?]|[_ Hy]]%Hcl; [done..|]. by eapply K8.
  - intros t' pc Hx. cbn [threads c'] in Hx. apply lookup_insert_Some in Hx as [[_ <-]|[_ Hx]]; [done|].
    apply (local_log _ (log c)); [done|]. apply F3. by apply (K9' t').
  - unfold c', reserved_positions in *. cbn [log]. rewrite omap_app, K10. cbn. by rewrite app_nil_r.
  - unfold c', claimed_positions in *. cbn [log]. rewrite omap_app, K11. cbn. by rewrite app_nil_r.
  - intros p. rewrite Hcom, elem_of_app, list_elem_of_singleton. intros [Hp| ->].
    + destruct (K12 p Hp) as [H1 H2]. split; [done|]. intros t' [[_ ?]|[_ Hx]]%Hres; [done|by apply (H2 t')].
    + split; [change (enq c') with (enq c); lia|]. intros t' [[_ ?]|[Hne Hx]]%Hres; [done|by eapply Hrn].
  - rewrite Hcom. apply list.NoDup_app. split_and!; [done| |apply list.NoDup_singleton].
    intros p Hp ->%list_elem_of_singleton. by destruct (K12 s Hp) as [_ Hn]; apply (Hn t).
  - intros p u. unfold c'. cbn [log]. rewrite !elem_of_app, !list_elem_of_singleton. intros [Hx|?]; [left; by apply K14|done].
Qed.

(** The store that releases a claimed position. *)
Lemma release_ok n c t s :
  ring_ok n c -> threads c !! t = Some (Releasing s) ->
  ring_ok (n + 1) (mkConfig (store_word (region c) (slot s) (s + cap)) (<[t := Idle]> (threads c))
    (log c ++ [EReleased s])).
Proof.
  intros Hok Ht. assert (claimer c t s) as Hcs by (by exists (Releasing s)).
  pose proof Hok as [K1 (KD & Kn & KE) K3 K4 K5 K6 K7 K8 K9 K10 K11 K12 K13 K14].
  destruct (K7 t s Hcs) as (Hs0 & Hs & Hseq). pose proof cap_bounds as Hcap.
  destruct (store_frame n c s (s + cap) Hok ltac:(lia) ltac:(lia) ltac:(right; split; [done|lia])) as (F1 & F2 & F3).
  set (c' := mkConfig _ _ _).
  pose proof (fun t' p => reserver_set c t Idle (region c') (log c') t' p) as Hres.
  pose proof (fun t' p => claimer_set c t Idle (region c') (log c') t' p) as Hcl.
  pose proof (fun t' p => not_reserver c t _ t' p Ht eq_refl) as Hnr.
  assert (forall t' p, claimer c t' p -> t' <> t -> p <> s) as Hcn by (intros t' p Hx Hne ->; by destruct Hne; eapply K8).
  destruct (quiet_keeps (log c) (log c')) as (Q1 & Q2 & Q3 & Q4 & Q5); [right; by exists (EReleased s)|].
  split; try done.
  - change (enq c') with (enq c). change (deq c') with (deq c). lia.
  - intros p H0 Hp. destruct (Z.eq_dec p s) as [->|Hne].
    + apply slot_released; [apply seq_store_eq|change (deq c') with (deq c); lia].
    + pose proof (F1 p Hp Hne) as Hsp. destruct (K3 p H0 Hp) as [t' H1 H2 H3|u H1 H2 H3 H4|H1 H2].
      * apply (slot_reserved _ _ t'); [by rewrite <- H1 at 2|done|]. apply Hres. right. split; [by eapply Hnr|done].
      * apply (slot_committed _ _ u); [by rewrite <- H1|by apply Q4|by rewrite (storage_same (region c))|].
        destruct H4 as [H4|[t' H4]]; [by left|right]. exists t'. apply Hcl. right. split; [|done].
        intros ->. apply Hne. destruct H4 as (x & Hx & Hp'). rewrite Ht in Hx. injection Hx as <-. by injection Hp'.
      * apply slot_released; [by rewrite <- H1|done].
  - intros t' p [[_ ?]|[_ Hx]]%Hres; [done|]. destruct (K5 t' p Hx) as (H0 & Hp & Hq).
    split_and!; [done|apply Hp|apply Hp|]. cbn [region c']. rewrite F1; [done|done|]. intros ->. lia.
  - intros t1 t2 p [[_ ?]|[_ Hx]]%Hres [[_ ?]|[_ Hy]]%Hres; [done..|]. by eapply K6.
  - intros t' p [[_ ?]|[Hne Hx]]%Hcl; [done|]. destruct (K7 t' p Hx) as (H0 & Hp & Hq). split_and!; [apply H0|apply H0|done|].
    cbn [region c']. rewrite F1; [done|lia|by eapply Hcn].
  - intros t1 t2 p [[_ ?]|[_ Hx]]%Hcl [[_ ?]|[_ Hy]]%Hcl; [done..|]. by eapply K8.
  - intros t' pc Hx. cbn [threads c'] in Hx. apply lookup_insert_Some in Hx as [[_ <-]|[_ Hx]]; [done|].
    apply (local_log _ (log c)); [intros; by apply Q4|]. apply F3. by apply (K9 t').
  - by rewrite Q1.
  - by rewrite Q2.
  - intros p. rewrite Q3. intros Hp. destruct (K12 p Hp) as [H1 H2]. split; [done|].
    intros t' [[_ ?]|[_ Hx]]%Hres; [done|by apply (H2 t')].
  - by rewrite Q3.
  - by apply Q5.
Qed.

(** The compare-exchange that claims a committed position. *)
Lemma claim_ok n c t :
  ring_ok n c -> threads c !! t = Some (DequeueCas (deq c)) ->
  ring_ok (n + 1) (mkConfig (with_control (region c) (with_dequeue (control (region c)) (deq c + 1)))
    (<[t := Claimed (deq c)]> (threads c)) (log c ++ [EClaimed (deq c)])).
Proof.
  intros Hok Ht. pose proof Hok as [K1 (KD & Kn & KE) K3 K4 K5 K6 K7 K8 K9 K10 K11 K12 K13 K14].
  pose proof cap_bounds as Hcap. destruct (K9 _ _ Ht) as [_ Hseq]. specialize (Hseq eq_refl).
  destruct (dequeue_view n c (deq c) Hok ltac:(lia)) as (_ & _ & _ & Hcom). destruct (Hcom eq_refl Hseq) as [HDE _].
  set (D := deq c) in *. change (seq_at (region c) D = D + 1) in Hseq. set (c' := mkConfig _ _ _).
  pose proof (fun t' p => reserver_set c t (Claimed D) (region c') (log c') t' p) as Hres.
  pose proof (fun t' p => claimer_set c t (Claimed D) (region c') (log c') t' p) as Hcl.
  pose proof (fun t' p => not_reserver c t _ t' p Ht eq_refl) as Hnr.
  pose proof (fun t' p => not_claimer c t _ t' p Ht eq_refl) as Hnc.
  assert (deq c' = D + 1) as HDc by done.
  assert (committed_positions (log c') = committed_positions (log c)) as Hco
    by (unfold c', committed_positions; cbn [log]; rewrite omap_app; cbn; by rewrite app_nil_r).
  split; rewrite ?HDc; try done.
  - change (enq c') with (enq c). lia.
  - intros p H0 Hp. destruct (K3 p H0 Hp) as [t' H1 H2 H3|u H1 H2 H3 H4|H1 H2].
    + apply (slot_reserved _ _ t'); [done| |apply Hres; right; split; [by eapply Hnr|done]].
      rewrite HDc. destruct (Z.eq_dec p D) as [->|]; [rewrite Hseq in H1; lia|]. fold D in H2. lia.
    + apply (slot_committed _ _ u); [done|by apply elem_of_app; left|done|]. rewrite HDc.
      destruct (Z.eq_dec p D) as [->|Hne]; [right; exists t; apply Hcl; by left|].
      destruct H4 as [H4|[t' H4]]; [left; fold D in H4; lia|right]. exists t'. apply Hcl. right. split; [by eapply Hnc|done].
    + apply slot_released; [done|]. rewrite HDc. fold D in H2. lia.
  - intros t' p [[_ ?]|[_ Hx]]%Hres; [done|]. by apply (K5 t').
  - intros t1 t2 p [[_ ?]|[_ Hx]]%Hres [[_ ?]|[_ Hy]]%Hres; [done..|]. by eapply K6.
  - change (enq c') with (enq c). intros t' p [[-> [= <-]]|[_ Hx]]%Hcl; [split_and!; [lia|lia|lia|done]|].
    destruct (K7 t' p Hx) as (H0 & Hp & Hs). fold D in H0. split_and!; [lia|lia|done|done].
  - intros t1 t2 p [[-> [= <-]]|[_ Hx]]%Hcl [[-> Hp]|[_ Hy]]%Hcl; [done| | |by eapply K8].
    + destruct (K7 _ _ Hy) as [Hlt _]. fold D in Hlt. lia.
    + injection Hp as <-. destruct (K7 _ _ Hx) as [Hlt _]. fold D in Hlt. lia.
  - intros t' pc Hx. cbn [threads c'] in Hx. apply lookup_insert_Some in Hx as [[_ <-]|[_ Hx]]; [done|].
    apply (local_log _ (log c)); [intros; by apply elem_of_app; left|]. specialize (K9 t' pc Hx).
    destruct pc; cbn in K9 |- *; try done; change (dequeue_pos (control (region c))) with D in K9; lia.
  - unfold c', reserved_positions in *. cbn [log]. rewrite omap_app, K10. cbn. by rewrite app_nil_r.
  - unfold c', claimed_positions in *. cbn [log]. rewrite omap_app, K11. cbn [omap list_omap].
    rewrite (seqZ_app 0 D 1) by lia. done.
  - intros p. rewrite Hco. intros Hp. destruct (K12 p Hp) as [H1 H2]. split; [done|].
    intros t' [[_ ?]|[_ Hx]]%Hres; [done|by apply (H2 t')].
  - by rewrite Hco.
  - intros p v. unfold c'. cbn [log]. rewrite !elem_of_app, !list_elem_of_singleton. intros [Hx|?]; [left; by apply K14|done].
Qed.

(** Writing one byte of the storage of a reserved position. *)
Lemma write_ok n c t s v i :
  ring_ok n c -> threads c !! t = Some (Writing s v i) -> Z.of_nat i < sizeof ->
  ring_ok n (mkConfig (store_cell (region c) (cell_offset alignof (slot s) (Z.of_nat i)) (nth i v Byte.x00))
    (<[t := Writing s v (S i)]> (threads c)) (log c)).
Proof.
  intros Hok Ht Hi. assert (reserver c t s) as Hrs by (by exists (Writing s v i)).
  pose proof (rk_local _ _ Hok _ _ Ht) as (Hv & Hle & Hcells).
  pose proof Hok as [K1 (KD & Kn & KE) K3 K4 K5 K6 K7 K8 K9 K10 K11 K12 K13 K14].
  destruct (K5 t s Hrs) as (Hs0 & Hs & Hseq). pose proof cap_bounds as Hcap.
  set (r' := store_cell _ _ _). set (c' := mkConfig _ _ _).
  pose proof (fun t' p => reserver_insert c t _ (Writing s v (S i)) r' (log c) t' p Ht eq_refl) as Hres.
  pose proof (fun t' p => claimer_insert c t _ (Writing s v (S i)) r' (log c) t' p Ht eq_refl) as Hcl.
  assert (forall p, enq c - cap <= p < enq c -> p <> s -> slot s <> slot p) as Hapart.
  { intros p Hp Hne Heq. pose proof (slot_window s p Heq ltac:(lia)). lia. }
  assert (forall p, enq c - cap <= p < enq c -> p <> s -> storage r' p = storage (region c) p) as Hst
    by (intros p Hp Hne; apply storage_store_ne; [by apply Hapart|done]).
  split; try done.
  - intros p H0 Hp. destruct (K3 p H0 Hp) as [t' H1 H2 H3|u H1 H2 H3 H4|H1 H2].
    + apply (slot_reserved _ _ t'); [done|done|by apply Hres].
    + apply (slot_committed _ _ u); [done|done| |].
      * rewrite <- H3. apply Hst; [done|]. intros ->. lia.
      * destruct H4 as [H4|[t' H4]]; [by left|right]. exists t'. by apply Hcl.
    + by apply slot_released.
  - intros t' p Hx%Hres. by apply (K5 t').
  - intros t1 t2 p Hx%Hres Hy%Hres. by eapply K6.
  - intros t' p Hx%Hcl. by apply (K7 t').
  - intros t1 t2 p Hx%Hcl Hy%Hcl. by eapply K8.
  - intros t' pc Hx. cbn [threads c'] in Hx. apply lookup_insert_Some in Hx as [[_ <-]|[Hne Hx]].
    { split_and!; [done|lia|]. intros j Hj. destruct (decide (j = i)) as [->|Hji]; [apply cell_store_eq|].
      cbn [region c']. unfold r'. rewrite cell_store_ne by (done || lia || by right). apply Hcells. lia. }
    specialize (K9 t' pc Hx). assert (forall p, reserver c t' p -> p <> s) as Hrn
      by (intros p Hy ->; apply Hne; by eapply K6).
    destruct pc as [| | | | | | | | |s' v' i'|s' v'| | | |s' read|]; cbn in K9 |- *; try done.
    + destruct K9 as (H1 & H2 & H3). split_and!; [done|done|]. intros j Hj.
      destruct (K5 t' s') as (_ & Hw & _); [by exists (Writing s' v' i')|].
      unfold r'. rewrite cell_store_ne; [by apply H3| |done|lia]. left. apply Hapart; [done|]. apply Hrn. by exists (Writing s' v' i').
    + destruct (K5 t' s') as (_ & Hw & _); [by exists (Publishing s' v')|].
      rewrite Hst; [done|done|]. apply Hrn. by exists (Publishing s' v').
    + destruct K9 as (u & H1 & H2 & H3). exists u. split_and!; [done| |done].
      destruct (K7 t' s') as (Hw1 & Hw2 & Hw3); [by exists (Reading s' read)|].
      rewrite Hst; [done|lia|]. intros ->. lia.
  - intros p Hp. destruct (K12 p Hp) as [H1 H2]. split; [done|]. intros t' Hx%Hres. by apply (H2 t').
Qed.

(** ** Every step keeps the invariant *)

Lemma seq_diff_small a b : 0 <= a < two63 -> 0 <= b < two63 -> seq_diff a b = a - b.
Proof. intros Ha Hb. unfold seq_diff, to_i64. rewrite !(proj2 (Z.ltb_lt _ _)) by lia. done. Qed.

(** Fewer than [2^62] steps cannot bring a sequence near the sign bit. *)
Definition run_bound : Z := 2 ^ 62.

Lemma slot_for_pos n c pos : ring_ok n c -> SlotForPos sizeof alignof (region c) pos = slot pos.
Proof. intros [K1 _ _ _ _ _ _ _ _ _ _ _ _ _]. unfold SlotForPos. by rewrite K1. Qed.

Lemma claimed_value n c t s :
  ring_ok n c -> claimer c t s -> exists v, ECommitted s v ∈ log c /\ storage (region c) s = v.
Proof.
  intros [_ (KD & _ & _) K3 _ _ _ K7 _ _ _ _ _ _ _] Hc. destruct (K7 t s Hc) as (H0 & Hs & Hseq).
  pose proof cap_bounds. destruct (K3 s ltac:(lia) ltac:(lia)) as [? ? ? ?|v _ Hv Hst _|? ?]; [lia|by exists v|lia].
Qed.

(** The operation of a call that is inside its fence. *)
Definition fencing (pc : Pc) : option Op :=
  match pc with FenceBefore o | FenceState o _ | FenceAfter o _ _ => Some o | _ => None end.

Lemma enter_ok n c t pc o :
  ring_ok n c -> threads c !! t = Some pc -> fencing pc = Some o -> local_ok (region c) (log c) (enter o).
Proof.
  intros Hok Ht Hf. pose proof (rk_local _ _ Hok _ _ Ht) as Hl. pose proof size_pos.
  assert (op_ok o) as Ho by (destruct pc; try done; by injection Hf as ->).
  assert (forall s, op_claims o = Some s -> claimer c t s) as Hc
    by (intros s Hs; exists pc; split; [done|]; destruct pc; try done; by injection Hf as ->).
  destruct o; cbn in *; try done; [by split_and!; [|lia|intros; lia]|].
  destruct (claimed_value n c t sequence Hok (Hc _ eq_refl)) as (v & Hv & Hs). by exists v.
Qed.

Lemma access_enqueue n c t pos spurious r pc' e :
  ring_ok n c -> n < run_bound -> threads c !! t = Some (EnqueueSlot pos) \/ threads c !! t = Some (EnqueueCas pos) ->
  forall pc, threads c !! t = Some pc -> access sizeof alignof expected spurious (region c) pc = (r, pc', e) ->
  ring_ok (n + 1) (mkConfig r (<[t := pc']> (threads c)) (logged (log c) e)).
Proof.
  intros Hok Hn Hpc pc Ht Ha. pose proof cap_bounds as Hcap. unfold run_bound in Hn.
  assert (forall pc', reserves pc' = None -> claims pc' = None -> local_ok (region c) (log c) pc' ->
    ring_ok (n + 1) (mkConfig (region c) (<[t := pc']> (threads c)) (log c))) as Hmove.
  { intros pc1 H1 H2 H3. apply more_steps. eapply pc_only; [done|exact Ht| | |done|by left];
      destruct Hpc as [Hpc|Hpc]; rewrite Ht in Hpc; injection Hpc as ->; done. }
  pose proof (rk_pos _ _ Hok) as (KD & Kn & KE). pose proof (rk_local _ _ Hok _ _ Ht) as Hl.
  destruct Hpc as [Hpc|Hpc]; rewrite Ht in Hpc; injection Hpc as ->; cbn in Ha, Hl.
  - rewrite (slot_for_pos n) in Ha by done. destruct (enqueue_view n c pos Hok Hl) as (Hr & _ & _).
    rewrite seq_diff_small in Ha by (fold (seq_at (region c) pos); unfold enq in *; lia).
    fold (seq_at (region c) pos) in Ha. destruct (_ =? 0) eqn:E0.
    + injection Ha as <- <- <-. bool_to_prop. apply Hmove; [done|done|]. split; [done|]. lia.
    + destruct (_ <? 0); injection Ha as <- <- <-; [|by apply Hmove].
      apply more_steps. eapply pc_only; [done|exact Ht|done|done|done|]. right. by exists (EFull pos).
  - destruct (_ && _) eqn:E0; injection Ha as <- <- <-; [|apply Hmove; [done|done|cbn; unfold enq, deq in *; lia]].
    bool_to_prop. subst pos. rewrite wrap64_id by (unfold is_u64, enq in *; lia). by apply reserve_ok.
Qed.

Lemma access_dequeue n c t pos spurious r pc' e :
  ring_ok n c -> n < run_bound -> threads c !! t = Some (DequeueSlot pos) \/ threads c !! t = Some (DequeueCas pos) ->
  forall pc, threads c !! t = Some pc -> access sizeof alignof expected spurious (region c) pc = (r, pc', e) ->
  ring_ok (n + 1) (mkConfig r (<[t := pc']> (threads c)) (logged (log c) e)).
Proof.
  intros Hok Hn Hpc pc Ht Ha. pose proof cap_bounds as Hcap. unfold run_bound in Hn.
  assert (forall pc', reserves pc' = None -> claims pc' = None -> local_ok (region c) (log c) pc' ->
    ring_ok (n + 1) (mkConfig (region c) (<[t := pc']> (threads c)) (log c))) as Hmove.
  { intros pc1 H1 H2 H3. apply more_steps. eapply pc_only; [done|exact Ht| | |done|by left];
      destruct Hpc as [Hpc|Hpc]; rewrite Ht in Hpc; injection Hpc as ->; done. }
  pose proof (rk_pos _ _ Hok) as (KD & Kn & KE). pose proof (rk_local _ _ Hok _ _ Ht) as Hl.
  destruct Hpc as [Hpc|Hpc]; rewrite Ht in Hpc; injection Hpc as ->; cbn in Ha, Hl.
  - rewrite (slot_for_pos n) in Ha by done. destruct (dequeue_view n c pos Hok Hl) as (Hr & _ & _).
    assert (pos + 1 < two63) as Hb by (unfold enq, deq in *; lia).
    rewrite wrap64_id, seq_diff_small in Ha by (fold (seq_at (region c) pos); unfold is_u64; lia).
    fold (seq_at (region c) pos) in Ha. destruct (_ =? 0) eqn:E0.
    + injection Ha as <- <- <-. bool_to_prop. apply Hmove; [done|done|]. split; [done|]. lia.
    + destruct (_ <? 0); injection Ha as <- <- <-; [|by apply Hmove].
      apply more_steps. eapply pc_only; [done|exact Ht|done|done|done|]. right. by exists (EEmpty pos).
  - destruct (_ && _) eqn:E0; injection Ha as <- <- <-; [|apply Hmove; [done|done|cbn; unfold enq, deq in *; lia]].
    bool_to_prop. subst pos. rewrite wrap64_id by (unfold is_u64, enq, deq in *; lia). by apply claim_ok.
Qed.

Lemma access_transfer n c t pc spurious r pc' e :
  ring_ok n c -> n < run_bound -> threads c !! t = Some pc -> is_Some (reserves pc) \/ is_Some (claims pc) ->
  access sizeof alignof expected spurious (region c) pc = (r, pc', e) ->
  ring_ok (n + 1) (mkConfig r (<[t := pc']> (threads c)) (logged (log c) e)).
Proof.
  intros Hok Hn Ht Hown Ha. pose proof cap_bounds as Hcap. unfold run_bound in Hn.
  pose proof (rk_pos _ _ Hok) as (KD & Kn & KE). pose proof (rk_local _ _ Hok _ _ Ht) as Hl.
  assert (forall pc1 l', reserves pc1 = reserves pc -> claims pc1 = claims pc -> local_ok (region c) (log c) pc1 ->
    quiet_log (log c) l' -> ring_ok (n + 1) (mkConfig (region c) (<[t := pc1]> (threads c)) l')) as Hmove
    by (intros; apply more_steps; by eapply pc_only).
  destruct pc as [|s|s|o|o b|o b st| | | |s v i|s v| | | |s read|s]; cbn in Ha; try (by destruct Hown as [[? ?]|[? ?]]).
  - injection Ha as <- <- <-. apply Hmove; [done|done|done|by left].
  - injection Ha as <- <- <-. apply Hmove; [done|done|done|by left].
  - injection Ha as <- <- <-. apply Hmove; [done|done|done|by left].
  - injection Ha as <- <- <-. apply Hmove; [done|done|done|by left].
  - destruct (fence_passes _ _ _ _); injection Ha as <- <- <-.
    + apply Hmove; [by destruct o|by destruct o|by apply (enter_ok n c t _ o Hok Ht)|by left].
    + apply Hmove; [by destruct o|by destruct o|by destruct o|right; by exists EUnavailable].
  - destruct Hl as (Hv & Hi & Hc). destruct (_ <? _) eqn:E0; injection Ha as <- <- <-; bool_to_prop.
    + rewrite (slot_for_pos n) by done. apply more_steps. by apply write_ok.
    + apply Hmove; [done|done| |by left]. apply storage_eq; [done|]. intros j Hj. apply Hc. lia.
  - injection Ha as <- <- <-. destruct (rk_reserver _ _ Hok t s) as (H0 & Hs & _); [by exists (Publishing s v)|].
    rewrite (slot_for_pos n), wrap64_id by (done || unfold is_u64; lia). by apply commit_ok.
  - destruct Hl as (v & Hv & Hst & Hr). pose proof (storage_length (region c) s) as Hlen. rewrite Hst in Hlen.
    unfold zlen in *. assert (length read <= length v)%nat as Hle
      by (rewrite Hr, length_take; lia).
    destruct (_ <? _) eqn:E0; injection Ha as <- <- <-; bool_to_prop.
    + apply Hmove; [done|done| |by left]. exists v. split_and!; [done|done|].
      rewrite (slot_for_pos n) by done. fold (cell_at (region c) s (length read)).
      rewrite length_app, Nat.add_1_r. cbn. erewrite take_S_r; [by rewrite <- Hr|]. by apply (storage_read _ _ _ _ Hst).
    + apply Hmove; [done|done|done|]. right. exists (ERead s read). split; [done|]. cbn.
      replace read with v; [done|]. rewrite Hr. symmetry. apply take_ge. lia.
  - injection Ha as <- <- <-. destruct (rk_claimer _ _ Hok t s) as (H0 & Hs & _); [by exists (Releasing s)|].
    rewrite (slot_for_pos n), (rk_static _ _ Hok), wrap64_id by (done || unfold is_u64; lia). by apply release_ok.
Qed.

Lemma ring_step_ok n c c' :
  ring_ok n c -> n < run_bound -> step sizeof alignof expected c c' -> ring_ok (n + 1) c'.
Proof.
  intros Hok Hn Hs. destruct Hs as [c t pc o Ht Hc|c t pc spurious r pc' e Ht Ha|c|c].
  - apply more_steps. eapply pc_only; [done|exact Ht| | | |by left]; by destruct Hc.
  - assert (is_Some (reserves pc) \/ is_Some (claims pc) \/ reserves pc = None /\ claims pc = None) as [Ho|[Ho|[H1 H2]]]
      by (destruct (reserves pc), (claims pc); eauto).
    + eapply access_transfer; [done|done|exact Ht|by left|done].
    + eapply access_transfer; [done|done|exact Ht|by right|done].
    + assert (forall pc1 l', reserves pc1 = None -> claims pc1 = None -> local_ok (region c) (log c) pc1 ->
        quiet_log (log c) l' -> ring_ok (n + 1) (mkConfig (region c) (<[t := pc1]> (threads c)) l')) as Hmove
        by (intros; apply more_steps; eapply pc_only; [done|exact Ht|congruence..|done|done]).
      pose proof (rk_pos _ _ Hok) as (KD & Kn & KE). pose proof (rk_local _ _ Hok _ _ Ht) as Hl.
      destruct pc as [|s|s|o|o b|o b st| |pos|pos|s v i|s v| |pos|pos|s read|s]; try done;
        try (eapply access_enqueue; [done|done|by left|exact Ht|exact Ha]);
        try (eapply access_enqueue; [done|done|by right|exact Ht|exact Ha]);
        try (eapply access_dequeue; [done|done|by left|exact Ht|exact Ha]);
        try (eapply access_dequeue; [done|done|by right|exact Ht|exact Ha]);
        cbn in Ha; try (injection Ha as <- <- <-; apply Hmove; [done|done|cbn; unfold enq, deq in *; (done || lia)|by left]).
      destruct (fence_passes _ _ _ _); injection Ha as <- <- <-.
      * apply Hmove; [by destruct o|by destruct o|by apply (enter_ok n c t _ o Hok Ht)|by left].
      * apply Hmove; [by destruct o|by destruct o|by destruct o|right; by exists EUnavailable].
  - apply more_steps. unfold RetireMpmcRing. destruct (ValidateMpmcRingFence _ _); [|by destruct c as [[] ? ?]].
    destruct (bool_decide _); [|by destruct c as [[] ? ?]]. cbv zeta. by destruct (_ =? _); apply state_only.
  - apply more_steps. unfold ReactivateRetiredMpmcRing. destruct (negb _); [by destruct c as [[] ? ?]|].
    destruct (bool_decide _); [by apply state_only|by destruct c as [[] ? ?]].
Qed.

(** ** The log *)

Record log_ok (c : Config) : Prop := {
  lk_claimed : forall p, 0 <= p < deq c -> p ∈ committed_positions (log c);
  lk_released : forall p, EReleased p ∈ log c -> p < deq c /\ forall t, ~ claimer c t p
}.

(** An access claims nothing, releases the claim of its thread, or claims the position at
    the cursor. *)
Lemma access_claims spurious r pc r' pc' e :
  access sizeof alignof expected spurious r pc = (r', pc', e) ->
  dequeue_pos (control r') = dequeue_pos (control r) /\
    (claims pc' = claims pc /\ (forall p, e <> Some (EReleased p)) \/
     exists s, pc = Releasing s /\ claims pc' = None /\ e = Some (EReleased s)) \/
  exists p, pc = DequeueCas p /\ p = dequeue_pos (control r) /\ dequeue_pos (control r') = wrap64 (p + 1) /\
    claims pc' = Some p /\ e = Some (EClaimed p).
Proof.
  destruct pc as [|s|s|o|o b|o b st| |pos|pos|s v i|s v| |pos|pos|s read|s]; cbn; intros H;
    repeat match type of H with (if ?b then _ else _) = _ => destruct b eqn:? end; injection H as <- <- <-;
    try (left; split; [done|]; left; split; [done || by destruct o|done]).
  - right. bool_to_prop. exists pos. by rewrite <- H.
  - left. split; [done|]. right. by exists s.
Qed.

Lemma logged_in x l e : x ∈ logged l e <-> x ∈ l \/ e = Some x.
Proof.
  destruct e as [y|]; cbn; [|by split; [left|intros [|]]].
  rewrite elem_of_app, list_elem_of_singleton. split; intros [|H]; subst; auto. by injection H as ->; right.
Qed.

Lemma committed_logged l e p : p ∈ committed_positions l -> p ∈ committed_positions (logged l e).
Proof.
  destruct e; [|done]. unfold committed_positions, logged. rewrite omap_app, elem_of_app. by left.
Qed.

Lemma step_log n c c' :
  ring_ok n c -> n < run_bound -> step sizeof alignof expected c c' -> log_ok c -> log_ok c'.
Proof.
  intros Hok Hn Hs [L1 L2]. pose proof (rk_pos _ _ Hok) as (KD & Kn & KE). unfold run_bound in Hn.
  destruct Hs as [c t pc o Ht Hc|c t pc spurious r pc' e Ht Ha|c|c].
  - split; cbn [log]; [done|]. intros p Hp. destruct (L2 p Hp) as [H1 H2]. split; [done|].
    intros t' Hx%(claimer_insert c t pc); [by apply (H2 t')|done|by destruct Hc].
  - destruct (access_claims _ _ _ _ _ _ Ha) as [[HD Hcase]|(p & -> & Hp & HD & Hcl & ->)].
    + split; unfold deq in *; cbn [region log] in *; rewrite ?HD; [by intros p Hp; apply committed_logged, L1|].
      intros p [Hp|Hp]%logged_in.
      * destruct (L2 p Hp) as [H1 H2]. split; [done|]. intros t' [[-> Hx]|[_ Hx]]%claimer_set; [|by apply (H2 t')].
        destruct Hcase as [[Hy _]|(s & _ & Hy & _)]; [|congruence]. apply (H2 t). exists pc. by rewrite <- Hy.
      * destruct Hcase as [[_ Hy]|(s & -> & Hy & He)]; [by destruct (Hy p)|]. rewrite He in Hp. injection Hp as ->.
        assert (claimer c t p) as Hcp by (by exists (Releasing p)).
        split; [by apply (rk_claimer _ _ Hok t p Hcp)|]. intros t' [[-> Hx]|[Hne Hx]]%claimer_set; [congruence|].
        by apply Hne, (rk_claimer_one _ _ Hok t' t p).
    + change (dequeue_pos (control (region c))) with (deq c) in Hp. subst p.
      destruct (rk_local _ _ Hok _ _ Ht) as [_ Hseq]. specialize (Hseq eq_refl).
      destruct (dequeue_view n c (deq c) Hok ltac:(lia)) as (_ & _ & _ & Hcom).
      destruct (Hcom eq_refl Hseq) as (HDE & v & Hv & _).
      assert (dequeue_pos (control r) = deq c + 1) as HD' by (rewrite HD; apply wrap64_id; unfold is_u64; lia).
      set (c' := mkConfig _ _ _). assert (deq c' = deq c + 1) as HDc by exact HD'.
      split; rewrite ?HDc.
      * intros p Hp. apply committed_logged. destruct (Z.eq_dec p (deq c)) as [->|]; [by eapply committed_position|].
        apply L1. lia.
      * intros p Hp. cbn [log c'] in Hp. apply logged_in in Hp as [Hp|?]; [|done]. destruct (L2 p Hp) as [H1 H2]. split; [lia|].
        intros t' [[-> Hx]|[_ Hx]]%claimer_set; [|by apply (H2 t')]. rewrite Hcl in Hx. injection Hx as <-. lia.
  - split; cbn [log]; unfold deq in *; cbn [region]; unfold RetireMpmcRing;
      destruct (ValidateMpmcRingFence _ _); [|done| |done]; by destruct (bool_decide _); [destruct (_ =? _)|].
  - split; cbn [log]; unfold deq in *; cbn [region]; unfold ReactivateRetiredMpmcRing;
      destruct (negb _); [done| |done|]; by destruct (bool_decide _).
Qed.

Lemma start_ok base gen r0 r g ts :
  Init sizeof alignof base cap sizeof alignof gen r0 = (r, Ok g) -> ring_ok 0 (start r ts) /\ log_ok (start r ts).
Proof.
  intros Hi. pose proof size_pos. pose proof cap_bounds as Hcap.
  destruct (Init_Ok _ _ _ _ _ _ _ _ _ _ ltac:(done) ltac:(destruct Habi as [[_ ?] _ _ _]; done) Hi)
    as (_ & _ & _ & _ & _ & _ & Hc & _ & Hw).
  assert (forall t pc, threads (start r ts) !! t = Some pc -> pc = Idle) as Hidle
    by (intros t pc [_ <-]%lookup_gset_to_gmap_Some; done).
  assert (forall t p, ~ reserver (start r ts) t p) as Hnr by (intros t p (pc & ->%Hidle & ?); done).
  assert (forall t p, ~ claimer (start r ts) t p) as Hnc by (intros t p (pc & ->%Hidle & ?); done).
  assert (enq (start r ts) = 0) as HE by (unfold enq, start; cbn [region]; by rewrite Hc).
  assert (deq (start r ts) = 0) as HD by (unfold deq, start; cbn [region]; by rewrite Hc).
  split; split; rewrite ?HE, ?HD; try done; try lia.
  - cbn [region start]. by rewrite Hc.
  - intros p Hp. unfold seq_at. rewrite <- (Hw p Hp) at 2. f_equal. unfold slot. rewrite slot_mod, Z.mod_small by lia.
    symmetry. by apply (slot_at _ _ cap).
  - intros t p H0. by destruct (Hnr t p).
  - intros t t' p H0. by destruct (Hnr t p).
  - intros t p H0. by destruct (Hnc t p).
  - intros t t' p H0. by destruct (Hnc t p).
  - by intros t pc ->%Hidle.
  - by intros p ?%not_elem_of_nil.
  - constructor.
  - by intros p v ?%not_elem_of_nil.
  - by intros p ?%not_elem_of_nil.
Qed.

Lemma ring_steps_ok n c0 c :
  run sizeof alignof expected n c0 c -> ring_ok 0 c0 -> log_ok c0 -> n <= run_bound ->
  0 <= n /\ ring_ok n c /\ log_ok c.
Proof.
  intros Hr H0 L0. induction Hr as [c|n c0 c' c'' Hr IH Hs]; [done|]. intros Hn.
  assert (0 <= n /\ ring_ok n c' /\ log_ok c') as (H1 & H2 & H3).
  { apply IH; [done|done|]. lia. }
  split_and!; [lia|apply (ring_step_ok n c'); [done|lia|done]|apply (step_log n c'); [done|lia|done|done]].
Qed.

(** ** A call that runs alone returns *)

Abbreviation alone := (solo sizeof alignof).

Lemma solo_more n m r pc out : alone n expected r pc = Some out -> alone (n + m) expected r pc = Some out.
Proof.
  revert r pc. induction n as [|n IH]; intros r pc; [done|]. cbn [solo Nat.add].
  destruct (access _ _ _ _ _ _) as [[r' pc'] [e|]]; [done|]. apply IH.
Qed.
Lemma solo_le n m r pc : (n <= m)%nat -> is_Some (alone n expected r pc) -> is_Some (alone m expected r pc).
Proof. intros Hl [out Ho]. exists out. replace m with (n + (m - n))%nat by lia. by apply solo_more. Qed.

Lemma solo_enqueue n c pc :
  ring_ok n c -> n < run_bound -> local_ok (region c) (log c) pc ->
  pc = EnqueueLoad \/ (exists pos, pc = EnqueueSlot pos) \/ (exists pos, pc = EnqueueCas pos) ->
  is_Some (alone 5 expected (region c) pc).
Proof.
  intros Hok Hn Hl Hpc. unfold run_bound in Hn. pose proof (rk_pos _ _ Hok) as (KD & Kn & KE).
  pose proof cap_bounds as Hcap. destruct (enqueue_view n c (enq c) Hok ltac:(lia)) as (Hr & Hle & _).
  assert (is_Some (alone 1 expected (region c) (EnqueueCas (enq c)))) as H1.
  { cbn. change (enqueue_pos (control (region c))) with (enq c). rewrite Z.eqb_refl. by eexists. }
  assert (is_Some (alone 2 expected (region c) (EnqueueSlot (enq c)))) as H2.
  { cbn. rewrite (slot_for_pos n), seq_diff_small by (done || fold (seq_at (region c) (enq c)); lia).
    fold (seq_at (region c) (enq c)). specialize (Hle eq_refl).
    destruct (_ =? 0) eqn:E1; [exact H1|]. destruct (_ <? 0) eqn:E0; [by eexists|]. bool_to_prop. lia. }
  assert (is_Some (alone 3 expected (region c) EnqueueLoad)) as H3 by exact H2.
  assert (forall pos, is_Some (alone 3 expected (region c) (EnqueueCas pos))) as H4.
  { intros pos. cbn [solo access]. destruct (_ && _); [by eexists|]. exact H2. }
  destruct Hpc as [->|[[pos ->]|[pos ->]]]; [by apply (solo_le 3); [lia|]| |by apply (solo_le 3); [lia|]].
  apply (solo_le 4); [lia|]. cbn [solo access]. cbv zeta.
  destruct (_ =? 0); [apply H4|]. destruct (_ <? 0); [by eexists|exact H3].
Qed.

Lemma solo_dequeue n c pc :
  ring_ok n c -> n < run_bound -> local_ok (region c) (log c) pc ->
  pc = DequeueLoad \/ (exists pos, pc = DequeueSlot pos) \/ (exists pos, pc = DequeueCas pos) ->
  is_Some (alone 5 expected (region c) pc).
Proof.
  intros Hok Hn Hl Hpc. unfold run_bound in Hn. pose proof (rk_pos _ _ Hok) as (KD & Kn & KE).
  pose proof cap_bounds as Hcap. destruct (dequeue_view n c (deq c) Hok ltac:(lia)) as (Hr & _ & Hle & _).
  assert (is_Some (alone 1 expected (region c) (DequeueCas (deq c)))) as H1.
  { cbn. change (dequeue_pos (control (region c))) with (deq c). rewrite Z.eqb_refl. by eexists. }
  assert (is_Some (alone 2 expected (region c) (DequeueSlot (deq c)))) as H2.
  { cbn. rewrite (slot_for_pos n), wrap64_id, seq_diff_small
      by (done || fold (seq_at (region c) (deq c)); unfold is_u64; lia).
    fold (seq_at (region c) (deq c)). specialize (Hle eq_refl).
    destruct (_ =? 0) eqn:E1; [exact H1|]. destruct (_ <? 0) eqn:E0; [by eexists|]. bool_to_prop. lia. }
  assert (is_Some (alone 3 expected (region c) DequeueLoad)) as H3 by exact H2.
  assert (forall pos, is_Some (alone 3 expected (region c) (DequeueCas pos))) as H4.
  { intros pos. cbn [solo access]. destruct (_ && _); [by eexists|]. exact H2. }
  destruct Hpc as [->|[[pos ->]|[pos ->]]]; [by apply (solo_le 3); [lia|]| |by apply (solo_le 3); [lia|]].
  apply (solo_le 4); [lia|]. cbn [solo access]. cbv zeta.
  destruct (_ =? 0); [apply H4|]. destruct (_ <? 0); [by eexists|exact H3].
Qed.

Lemma solo_write k : forall r s v i, Z.to_nat sizeof = (i + k)%nat -> is_Some (alone (k + 2) expected r (Writing s v i)).
Proof.
  pose proof size_pos as Hs. induction k as [|k IH]; intros r s v i Hi; cbn [Nat.add];
    cbn [solo access]; destruct (_ <? _) eqn:E0; bool_to_prop; try lia.
  - by eexists.
  - apply IH. lia.
Qed.
Lemma solo_read k : forall r s read,
  Z.to_nat sizeof = (length read + k)%nat -> is_Some (alone (k + 1) expected r (Reading s read)).
Proof.
  pose proof size_pos as Hs. induction k as [|k IH]; intros r s read Hi; cbn [Nat.add];
    cbn [solo access]; unfold zlen; destruct (_ <? _) eqn:E0; bool_to_prop; try lia; [by eexists|].
  apply IH. rewrite length_app. cbn. lia.
Qed.

(** The accesses after the fence of a call. *)
Lemma solo_entered n c pc :
  ring_ok n c -> n < run_bound -> local_ok (region c) (log c) pc ->
  match pc with Idle | Reserved _ | Claimed _ | FenceBefore _ | FenceState _ _ | FenceAfter _ _ _ => False | _ => True end ->
  is_Some (alone (Z.to_nat sizeof + 6) expected (region c) pc).
Proof.
  intros Hok Hn Hl Hpc. destruct pc as [| | | | | | |pos|pos|s v i|s v| |pos|pos|s read|s]; try done.
  1-3: apply (solo_le 5); [lia|]; eapply solo_enqueue; eauto.
  3-5: apply (solo_le 5); [lia|]; eapply solo_dequeue; eauto.
  - destruct Hl as (_ & Hi & _). apply (solo_le (Z.to_nat sizeof - i + 2)); [lia|]. apply solo_write. lia.
  - apply (solo_le 1); [lia|]. by eexists.
  - destruct Hl as (v & _ & Hs & Hr). pose proof (storage_length (region c) s) as Hlen. rewrite Hs in Hlen.
    unfold zlen in Hlen. assert (length read <= length v)%nat by (rewrite Hr, length_take; lia).
    apply (solo_le (Z.to_nat sizeof - length read + 1)); [lia|]. apply solo_read. lia.
  - apply (solo_le 1); [lia|]. by eexists.
Qed.
End Safety.

(** ** Properties *)

(** A ring created by [Init] for its element type, its threads, and a run of at most
    [2^62] accesses (at one access per nanosecond, more than a century). *)
Record ring_run (sizeof alignof cap : Z) (base : option Z) (gen : Z) (r0 : Region) (ts : gset nat) (n : Z)
    (c : Config) : Prop := {
  rr_size : 0 < sizeof < two32;
  rr_start : exists r g, Init sizeof alignof base cap sizeof alignof gen r0 = (r, Ok g) /\
    run sizeof alignof g n (start r ts) c;
  rr_bound : n < run_bound
}.

Lemma ring_run_ok sizeof alignof cap base gen r0 ts n c :
  ring_run sizeof alignof cap base gen r0 ts n c ->
  abi_ok sizeof alignof cap /\ 0 <= n < run_bound /\ ring_ok sizeof alignof cap n c /\ log_ok c.
Proof.
  intros [Hs (r & g & Hi & Hr) Hn].
  destruct (Init_Ok sizeof alignof base cap sizeof alignof gen r0 r g ltac:(lia) ltac:(lia) Hi)
    as (Habi & _).
  destruct (start_ok sizeof alignof cap Habi base gen r0 r g ts Hi) as [H0 L0].
  destruct (ring_steps_ok sizeof alignof cap Habi g n _ c Hr H0 L0 ltac:(lia)) as (H1 & H2 & H3). split_and!; done || lia.
Qed.

(** C2: under every interleaving of producers and consumers the positions are reserved
    once each in order and claimed once each in order; a claimed position was committed
    exactly once before, and every read of a claimed slot returns the value committed at
    its position; at most [capacity] positions are between reservation and claim. *)
Theorem ring_fifo_exactly_once (sizeof alignof cap : Z) (base : option Z) (gen : Z) (r0 : Region) (ts : gset nat)
    (n : Z) (c : Config) :
  ring_run sizeof alignof cap base gen r0 ts n c ->
  reserved_positions (log c) = seqZ 0 (enq c) /\ claimed_positions (log c) = seqZ 0 (deq c) /\
  deq c <= enq c <= deq c + cap /\ NoDup (committed_positions (log c)) /\
  (forall p, p ∈ claimed_positions (log c) -> p ∈ committed_positions (log c)) /\
  (forall p, p ∈ committed_positions (log c) -> p ∈ reserved_positions (log c)) /\
  (forall p v, ERead p v ∈ log c -> ECommitted p v ∈ log c).
Proof.
  intros H. destruct (ring_run_ok _ _ _ _ _ _ _ _ _ H) as (_ & _ & Hok & [L1 _]).
  destruct Hok as [_ (KD & _ & KE) _ _ _ _ _ _ _ K10 K11 K12 K13 K14]. split_and!; try done; try lia.
  - intros p. rewrite K11, elem_of_seqZ. intros Hp. apply L1. lia.
  - intros p Hp. rewrite K10, elem_of_seqZ. destruct (K12 p Hp). lia.
Qed.

(** The reports are true when they are made: [TryEnqueue] reports a full ring only
    when its position is the next one and the position one cycle before has not been
    released, and [TryDequeue] reports an empty ring only when the next position to claim
    has not been committed. *)
Theorem ring_reports_true (sizeof alignof cap : Z) (base : option Z) (gen : Z) (r0 : Region) (ts : gset nat)
    (n : Z) (c : Config) (t : nat) (pc pc' : Pc) (spurious : bool) (expected : Z) (r : Region) (e : Event) :
  ring_run sizeof alignof cap base gen r0 ts n c -> threads c !! t = Some pc ->
  access sizeof alignof expected spurious (region c) pc = (r, pc', Some e) ->
  (forall pos, e = EFull pos -> pos = enq c /\ cap <= pos /\ EReleased (pos - cap) ∉ log c) /\
  (forall pos, e = EEmpty pos -> pos = deq c /\ pos ∉ committed_positions (log c)).
Proof.
  intros H Ht Ha. destruct (ring_run_ok _ _ _ _ _ _ _ _ _ H) as (Habi & Hn & Hok & [_ L2]). unfold run_bound in Hn.
  pose proof (rk_local _ _ _ _ _ Hok _ _ Ht) as Hl. pose proof (rk_pos _ _ _ _ _ Hok) as (KD & Kn & KE).
  pose proof (cap_bounds _ _ _ Habi) as Hcap. split; intros pos ->.
  - destruct pc as [|s|s|o|o b|o b st| |p|p|s v i|s v| |p|p|s read|s]; cbn in Ha;
      repeat match type of Ha with (if ?b then _ else _) = _ => destruct b eqn:? end; try discriminate Ha.
    injection Ha as <- <- <-. cbn in Hl. destruct (enqueue_view _ _ _ Habi n c p Hok Hl) as (Hr & _ & Hlt).
    rewrite (slot_for_pos _ _ _ n) in * by done. fold (seq_at sizeof alignof cap (region c) p) in *.
    change (enqueue_pos (control (region c))) with (enq c) in Hl.
    rewrite seq_diff_small in * by lia. bool_to_prop. destruct (Hlt ltac:(lia)) as (H1 & H2 & Hst & H3).
    split_and!; [done|lia|]. intros Hrel. destruct (L2 _ Hrel) as [Hd Hnc].
    destruct Hst as [t' _ Hx _|v _ _ _ [Hx|[t' Hx]]|Hx _]; [lia|lia|by apply (Hnc t')|lia].
  - destruct pc as [|s|s|o|o b|o b st| |p|p|s v i|s v| |p|p|s read|s]; cbn in Ha;
      repeat match type of Ha with (if ?b then _ else _) = _ => destruct b eqn:? end; try discriminate Ha.
    injection Ha as <- <- <-. cbn in Hl. destruct (dequeue_view _ _ _ Habi n c p Hok Hl) as (Hr & Hlt & _ & _).
    rewrite (slot_for_pos _ _ _ n) in * by done. fold (seq_at sizeof alignof cap (region c) p) in *.
    change (dequeue_pos (control (region c))) with (deq c) in Hl.
    rewrite wrap64_id, seq_diff_small in * by (unfold is_u64; lia). bool_to_prop.
    assert (p = deq c) as Hp by (destruct (Z.lt_ge_cases p (deq c)) as [Hx|]; [pose proof (Hlt Hx)|]; lia).
    split; [done|]. intros Hc. destruct (rk_committed _ _ _ _ _ Hok p Hc) as [HE Hnr].
    destruct (rk_slot _ _ _ _ _ Hok p ltac:(lia) ltac:(lia)) as [t' _ _ Hx|v Hx _ _ _|_ Hx]; [by apply (Hnr t')|lia|lia].
Qed.

(** C24: no call waits for another thread: in every configuration a call that is inside the
    ring and runs alone, without spurious failures of its compare-exchanges, reports after
    at most [sizeof(T) + 9] accesses. *)
Theorem ring_calls_obstruction_free (sizeof alignof cap : Z) (base : option Z) (gen : Z) (r0 : Region) (ts : gset nat)
    (n : Z) (c : Config) (t : nat) (pc : Pc) (expected : Z) :
  ring_run sizeof alignof cap base gen r0 ts n c -> threads c !! t = Some pc ->
  match pc with Idle | Reserved _ | Claimed _ => False | _ => True end ->
  is_Some (solo sizeof alignof (Z.to_nat sizeof + 9) expected (region c) pc).
Proof.
  intros H Ht Hpc. destruct (ring_run_ok _ _ _ _ _ _ _ _ _ H) as (Habi & Hn & Hok & _).
  assert (forall o b st, fencing pc = Some o ->
    is_Some (solo sizeof alignof (Z.to_nat sizeof + 7) expected (region c) (FenceAfter o b st))) as Hafter.
  { intros o b st Ho. rewrite Nat.add_succ_r. cbn [solo access]. destruct (fence_passes _ _ _ _); [|by eexists].
    apply (solo_entered _ _ _ Habi expected n c); [done|apply Hn| |by destruct o].
    by apply (enter_ok _ _ _ Habi n c t pc). }
  assert (forall o b, fencing pc = Some o ->
    is_Some (solo sizeof alignof (Z.to_nat sizeof + 8) expected (region c) (FenceState o b))) as Hstate
    by (intros o b Ho; rewrite Nat.add_succ_r; by apply Hafter).
  destruct pc as [|s|s|o|o b|o b st| |p|p|s v i|s v| |p|p|s read|s]; try done;
    try (apply (solo_le _ _ _ (Z.to_nat sizeof + 6)); [lia|];
         apply (solo_entered _ _ _ Habi expected n c); [done|apply Hn|by apply (rk_local _ _ _ _ _ Hok t)|done]).
  - rewrite Nat.add_succ_r. by apply Hstate.
  - apply (solo_le _ _ _ (Z.to_nat sizeof + 8)); [lia|]. by apply Hstate.
  - apply (solo_le _ _ _ (Z.to_nat sizeof + 7)); [lia|]. by apply Hafter.
Qed.

(** ** A schedule to evaluate *)

Inductive Move : Set :=
| MCall (t : nat) (o : Op)
| MAccess (t : nat).

Definition call_allowed (sizeof : Z) (pc : Pc) (o : Op) : bool :=
  match pc, o with
  | Idle, TryEnqueue | Idle, TryDequeue => true
  | Reserved s, CommitEnqueue s' v => (s =? s') && (zlen v =? sizeof)
  | Claimed s, ReadSlot s' | Claimed s, CommitDequeue s' => s =? s'
  | _, _ => false
  end.

Definition move (sizeof alignof expected : Z) (c : Config) (m : Move) : option Config :=
  match m with
  | MCall t o =>
      pc ← threads c !! t;
      if call_allowed sizeof pc o then Some (mkConfig (region c) (<[t := FenceBefore o]> (threads c)) (log c)) else None
  | MAccess t =>
      pc ← threads c !! t;
      let '(r, pc', e) := access sizeof alignof expected false (region c) pc in
      Some (mkConfig r (<[t := pc']> (threads c)) (logged (log c) e))
  end.
Fixpoint moves (sizeof alignof expected : Z) (c : Config) (l : list Move) : option Config :=
  match l with
  | [] => Some c
  | m :: rest => c' ← move sizeof alignof expected c m; moves sizeof alignof expected c' rest
  end.

Lemma move_step sizeof alignof expected c m c' :
  move sizeof alignof expected c m = Some c' -> step sizeof alignof expected c c'.
Proof.
  destruct m as [t o|t]; cbn; intros (pc & Ht & H)%bind_Some.
  - destruct (call_allowed _ _ _) eqn:E; [|done]. injection H as <-. eapply step_call; [done|].
    destruct pc, o; cbn in E; try done; bool_to_prop; subst; by constructor.
  - destruct (access _ _ _ _ _ _) as [[r pc'] e] eqn:E. injection H as <-. by eapply step_access.
Qed.

Lemma moves_run sizeof alignof expected l : forall n c0 c c',
  run sizeof alignof expected n c0 c -> moves sizeof alignof expected c l = Some c' ->
  run sizeof alignof expected (n + zlen l) c0 c'.
Proof.
  induction l as [|m l IH]; intros n c0 c c' Hr H; cbn [moves] in H.
  - injection H as <-. unfold zlen. cbn. by rewrite Z.add_0_r.
  - apply bind_Some in H as (c1 & H1 & H2). unfold zlen in *. cbn [length].
    replace (n + Z.of_nat (S (length l))) with (n + 1 + Z.of_nat (length l)) by lia.
    eapply IH; [|exact H2]. eapply run_step; [exact Hr|by eapply move_step].
Qed.

(** Producer 0 and consumer 1 pass one byte through a ring of two slots; then the
    consumer tries again. *)
Definition sample_moves : list Move :=
  [MCall 0 TryEnqueue] ++ replicate 6 (MAccess 0) ++ [MCall 0 (CommitEnqueue 0 [Byte.x2a])] ++ replicate 3 (MAccess 0) ++
  [MCall 1 TryDequeue] ++ replicate 4 (MAccess 1) ++ replicate 3 (MAccess 0) ++ replicate 2 (MAccess 1) ++
  [MCall 1 (ReadSlot 0)] ++ replicate 5 (MAccess 1) ++ [MCall 1 (CommitDequeue 0)] ++ replicate 4 (MAccess 1) ++
  [MCall 1 TryDequeue] ++ replicate 4 (MAccess 1).
Definition sample_ring : Region := (Init 1 1 (Some 4096) 2 1 1 7 zero_region).1.
Definition sample_start : Config := start sample_ring {[0%nat; 1%nat]}.
Definition sample_config : Config := default sample_start (moves 1 1 7 sample_start sample_moves).

Lemma sample_run : ring_run 1 1 2 (Some 4096) 7 zero_region {[0%nat; 1%nat]} (zlen sample_moves) sample_config.
Proof.
  split; [lia| |by vm_compute]. exists sample_ring, 7. split; [by vm_compute|].
  apply (moves_run 1 1 7 sample_moves 0 sample_start sample_start); [apply run_nil|]. unfold sample_config.
  destruct (moves 1 1 7 sample_start sample_moves) eqn:E; [done|]. vm_compute in E. discriminate E.
Qed.

Lemma ring_fifo_exactly_once_witness :
  ERead 0 [Byte.x2a] ∈ log sample_config /\ ECommitted 0 [Byte.x2a] ∈ log sample_config /\ deq sample_config = 1.
Proof.
  pose proof (ring_fifo_exactly_once 1 1 2 (Some 4096) 7 zero_region {[0%nat; 1%nat]} _ sample_config sample_run) as H.
  assert (ERead 0 [Byte.x2a] ∈ log sample_config) as Hr
    by (apply (proj1 (bool_decide_eq_true _)); vm_compute; reflexivity).
  refine (conj Hr (conj _ eq_refl)). apply H. exact Hr.
Defined.

Lemma ring_reports_true_witness :
  (access 1 1 7 false (region sample_config) (DequeueSlot 1)).2 = Some (EEmpty 1) /\
  (1 : Z) ∉ committed_positions (log sample_config).
Proof.
  assert (threads sample_config !! 1%nat = Some (DequeueSlot 1)) as Ht by (vm_compute; reflexivity).
  destruct (access 1 1 7 false (region sample_config) (DequeueSlot 1)) as [[r pc'] e] eqn:E.
  assert (e = Some (EEmpty 1)) as -> by (vm_compute in E; by injection E).
  split; [done|].
  exact (proj2 (proj2 (ring_reports_true 1 1 2 (Some 4096) 7 zero_region {[0%nat; 1%nat]} _ sample_config 1 _ _ false 7 r
    (EEmpty 1) sample_run Ht E) 1 eq_refl)).
Defined.

Lemma ring_calls_obstruction_free_witness :
  threads sample_config !! 1%nat = Some (DequeueSlot 1) /\
  is_Some (solo 1 1 (Z.to_nat 1 + 9) 7 (region sample_config) (DequeueSlot 1)).
Proof.
  assert (threads sample_config !! 1%nat = Some (DequeueSlot 1)) as Ht by (vm_compute; reflexivity).
  split; [done|].
  exact (ring_calls_obstruction_free 1 1 2 (Some 4096) 7 zero_region {[0%nat; 1%nat]} _ sample_config 1 _ 7 sample_run Ht I).
Defined.
