(* ===== verification/UpgradePlan.v ===== *)
(** * The plan of a rolling upgrade

    Models [mino/upgrade/upgrade.h] and [.cc]: phases, Region identities, Topic bindings and plans, the rules
    a plan and the readiness of its target obey, and the proofs the deployment gives before a cutover, a
    commit and a rollback; with what they use of [mino/registry/metadata.h] and
    [mino/schema/descriptor.h]. *)
From S2P Require Import Prelude Bytes ManifestFormat.

(** ** Data *)

Definition kUpgradeFormatVersion : Z := 1.
Definition kMaximumUpgradeFileBytes : Z := 4 * 1024 * 1024.
Definition kMaximumUpgradeJournalEntries : Z := 4096.
Definition kMaximumUpgradeTopics : Z := 4096.
Definition kMaximumUpgradeStringBytes : Z := 4096.
Definition kMaxTopicNameBytes : Z := 255.
Definition kMaxTopicAclEntries : Z := 4096.
(** Publish, subscribe, bridge, record, replay. *)
Definition kAllTopicPermissions : Z := Z.lor (Z.lor (Z.lor (Z.lor 1 2) 4) 8) 16.

Inductive UpgradePhase : Set :=
| kPrepare | kValidate | kDrain | kCutover | kObserve | kCommit | kRollback | kFail | OtherPhase (value : Z).
#[export] Instance UpgradePhase_eq_dec : EqDecision UpgradePhase.
Proof. solve_decision. Defined.
Definition phase_value (p : UpgradePhase) : Z :=
  match p with
  | kPrepare => 1 | kValidate => 2 | kDrain => 3 | kCutover => 4 | kObserve => 5 | kCommit => 6 | kRollback => 7
  | kFail => 8 | OtherPhase v => v
  end.
(** [static_cast<UpgradePhase>]. *)
Definition phase_of (v : Z) : UpgradePhase :=
  if v =? 1 then kPrepare else if v =? 2 then kValidate else if v =? 3 then kDrain else if v =? 4 then kCutover
  else if v =? 5 then kObserve else if v =? 6 then kCommit else if v =? 7 then kRollback
  else if v =? 8 then kFail else OtherPhase v.

Definition UpgradePhaseName (p : UpgradePhase) : string :=
  match p with
  | kPrepare => "prepare" | kValidate => "validate" | kDrain => "drain" | kCutover => "cutover"
  | kObserve => "observe" | kCommit => "commit" | kRollback => "rollback" | kFail => "fail" | OtherPhase _ => "unknown"
  end.
Definition IsTerminalPhase (p : UpgradePhase) : bool :=
  bool_decide (p = kCommit) || bool_decide (p = kRollback) || bool_decide (p = kFail).
Definition IsPreCutoverPhase (p : UpgradePhase) : bool :=
  bool_decide (p = kPrepare) || bool_decide (p = kValidate) || bool_decide (p = kDrain).

Record RegionIdentity : Set := mkRegion {
  region_name : string; region_id : Z; uuid_lo : Z; uuid_hi : Z; region_layout_version : Z; security_domain : Z
}.
#[export] Instance RegionIdentity_eq_dec : EqDecision RegionIdentity.
Proof. solve_decision. Defined.

Record SchemaIdentity : Set := mkSchemaIdentity {
  schema_short_id : Z; schema_digest : list byte; schema_version : Z; schema_layout_version : Z
}.
#[export] Instance SchemaIdentity_eq_dec : EqDecision SchemaIdentity.
Proof. solve_decision. Defined.

Record TopicAclEntry : Set := mkAclEntry { acl_node_id : Z; acl_security_domain : Z; acl_permissions : Z }.
#[export] Instance TopicAclEntry_eq_dec : EqDecision TopicAclEntry.
Proof. solve_decision. Defined.
(** [TopicAcl] has one field. *)
Definition TopicAcl : Set := list TopicAclEntry.

Record TopicBinding : Set := mkBinding {
  binding_topic_id : Z; binding_name : string; binding_config_version : Z; region_version : Z; channel_version : Z;
  acl_version : Z; binding_schema : SchemaIdentity; binding_acl : TopicAcl
}.
#[export] Instance TopicBinding_eq_dec : EqDecision TopicBinding.
Proof. solve_decision. Defined.
Record TopicUpgrade : Set := mkTopicUpgrade { topic_source : TopicBinding; topic_target : TopicBinding }.
#[export] Instance TopicUpgrade_eq_dec : EqDecision TopicUpgrade.
Proof. solve_decision. Defined.

Record UpgradePlan : Set := mkUpgradePlan {
  operation_id : string; commit_token : string; source_region : RegionIdentity; target_region : RegionIdentity;
  upgrade_topics : list TopicUpgrade; required_shm_bytes : Z; required_publisher_slots : Z; required_subscriber_slots : Z;
  minimum_observation_samples : Z
}.

Record UpgradeJournalEntry : Set := mkJournalEntry {
  journal_sequence : Z; journal_phase : UpgradePhase; journal_timestamp_ns : Z; journal_detail : string
}.
Record UpgradeSnapshot : Set := mkUpgradeSnapshot {
  upgrade_generation : Z; created_at_ns : Z; updated_at_ns : Z; phase : UpgradePhase; plan : UpgradePlan;
  upgrade_journal : list UpgradeJournalEntry; terminal_reason : string
}.

Record TargetReadinessProof : Set := mkReadiness {
  ready_region : RegionIdentity; ready_topics : list TopicBinding; region_active : bool; processes_ready : bool;
  channels_ready : bool; routes_ready : bool; schema_bidirectionally_compatible : bool; acl_exactly_preserved : bool;
  capacity_admitted : bool; available_shm_bytes : Z; available_publisher_slots : Z; available_subscriber_slots : Z
}.
Record DrainProof : Set := mkDrain {
  old_publishers_fenced : bool; publishers : Z; subscribers : Z; pins : Z; outstanding_receipts : Z;
  outstanding_borrows : Z; queue_depth : Z; last_published_sequence : Z; last_consumed_sequence : Z
}.
Definition complete (p : DrainProof) : bool :=
  old_publishers_fenced p && (publishers p =? 0) && (subscribers p =? 0) && (pins p =? 0)
  && (outstanding_receipts p =? 0) && (outstanding_borrows p =? 0) && (queue_depth p =? 0)
  && (last_published_sequence p <=? last_consumed_sequence p).
Record CutoverObservation : Set := mkObservation {
  acknowledged_commit_token : string; active_region : RegionIdentity; old_publisher_count : Z; new_publisher_count : Z;
  observed_samples : Z; duplicate_count : Z; unexplained_loss_count : Z
}.
Record SafeRollbackProof : Set := mkRollbackProof {
  target_publishers_fenced : bool; source_ready : bool; target_publications_after_cutover : Z;
  sequence_receipt_reconciliation_complete : bool
}.
Definition safe_rollback (p : SafeRollbackProof) : bool :=
  target_publishers_fenced p && source_ready p
  && ((target_publications_after_cutover p =? 0) || sequence_receipt_reconciliation_complete p).

(** ** Rules *)

Abbreviation string_size s := (Z.of_nat (String.length s)).

Definition CompleteSchema (i : SchemaIdentity) : bool :=
  negb (schema_short_id i =? 0) && negb (schema_version i =? 0) && negb (schema_layout_version i =? 0)
  && existsb (fun b => negb (bool_decide (b = Byte.x00))) (schema_digest i).

Definition ValidateRegion (r : RegionIdentity) : Result unit :=
  fail_if bool_decide (region_name r = "") || (kMaximumUpgradeStringBytes <? string_size (region_name r))
          || contains_nul (region_name r) || (region_id r =? 0) || ((uuid_lo r =? 0) && (uuid_hi r =? 0))
          || (region_layout_version r =? 0) || (security_domain r =? 0) with
    Invalid "upgrade Region identity is incomplete or out of bounds" ;;
  Ok tt.
Definition ValidateRegionIdentity (r : RegionIdentity) : Result unit := ValidateRegion r.

(** The loop over the entries with the subjects seen. *)
Fixpoint validate_acl (entries : list TopicAclEntry) (subjects : gset (Z * Z)) : Result unit :=
  match entries with
  | [] => Ok tt
  | e :: rest =>
      fail_if (acl_node_id e =? 0) || (acl_security_domain e =? 0) || (acl_permissions e =? 0)
              || negb (Z.land (acl_permissions e) (u32_max - kAllTopicPermissions) =? 0)
              || bool_decide ((acl_security_domain e, acl_node_id e) ∈ subjects) with
        Invalid "upgrade Topic ACL contains an invalid or duplicate subject" ;;
      validate_acl rest ({[(acl_security_domain e, acl_node_id e)]} ∪ subjects)
  end.
Definition ValidateAcl (acl : TopicAcl) : Result unit :=
  fail_if bool_decide (acl = []) || (kMaxTopicAclEntries <? zlen acl) with
    Invalid "upgrade Topic ACL is empty or out of bounds" ;;
  validate_acl acl ∅.

Definition ValidateTopic (t : TopicBinding) : Result unit :=
  fail_if (binding_topic_id t =? 0) || bool_decide (binding_name t = "") || (kMaxTopicNameBytes <? string_size (binding_name t))
          || contains_nul (binding_name t) || (binding_config_version t =? 0) || (region_version t =? 0)
          || (channel_version t =? 0) || (acl_version t =? 0) || negb (CompleteSchema (binding_schema t)) with
    Invalid "upgrade Topic binding is incomplete or out of bounds" ;;
  ValidateAcl (binding_acl t).

Fixpoint validate_topics (topics : list TopicUpgrade) (source_ids target_ids : gset Z) : Result unit :=
  match topics with
  | [] => Ok tt
  | t :: rest =>
      let source := topic_source t in
      let target := topic_target t in
      check! ValidateTopic source ;;
      check! ValidateTopic target ;;
      fail_if bool_decide (binding_topic_id source ∈ source_ids) || bool_decide (binding_topic_id target ∈ target_ids) with
        Invalid "upgrade Topic IDs must be unique within each Region" ;;
      fail_if negb (bool_decide (binding_acl source = binding_acl target)) || (acl_version target <? acl_version source) with
        mkStatus kPermissionDenied "target Topic must exactly preserve ACL grants and not roll back ACL version" ;;
      validate_topics rest ({[binding_topic_id source]} ∪ source_ids) ({[binding_topic_id target]} ∪ target_ids)
  end.

Definition ValidateUpgradePlan (p : UpgradePlan) : Result unit :=
  fail_if bool_decide (operation_id p = "") || (kMaximumUpgradeStringBytes <? string_size (operation_id p))
          || contains_nul (operation_id p) || (string_size (commit_token p) <? 16)
          || (kMaximumUpgradeStringBytes <? string_size (commit_token p)) || contains_nul (commit_token p)
          || bool_decide (upgrade_topics p = []) || (kMaximumUpgradeTopics <? zlen (upgrade_topics p))
          || (minimum_observation_samples p =? 0) with
    Invalid "upgrade operation, token, topics, or observation bound is invalid" ;;
  check! ValidateRegion (source_region p) ;;
  check! ValidateRegion (target_region p) ;;
  fail_if negb (security_domain (source_region p) =? security_domain (target_region p)) with
    mkStatus kPermissionDenied "source and target Regions must share one Security Domain" ;;
  fail_if bool_decide (source_region p = target_region p)
          || ((uuid_lo (source_region p) =? uuid_lo (target_region p)) && (uuid_hi (source_region p) =? uuid_hi (target_region p)))
          || (region_id (source_region p) =? region_id (target_region p)) with
    Invalid "rolling upgrade requires a distinct target Region identity" ;;
  validate_topics (upgrade_topics p) ∅ ∅.

(** The loop over both lists, of the same length. *)
Fixpoint topics_match (ready : list TopicBinding) (topics : list TopicUpgrade) : bool :=
  match ready, topics with
  | r :: ready', t :: topics' => bool_decide (r = topic_target t) && topics_match ready' topics'
  | _, _ => true
  end.

Definition ValidateTargetReadiness (p : UpgradePlan) (proof : TargetReadinessProof) : Result unit :=
  check! ValidateUpgradePlan p ;;
  fail_if negb (bool_decide (ready_region proof = target_region p)) with
    mkStatus kAlreadyExists "target readiness belongs to another Region identity" ;;
  fail_if negb (security_domain (ready_region proof) =? security_domain (source_region p)) with
    mkStatus kPermissionDenied "target readiness crosses the Security Domain boundary" ;;
  fail_if negb (region_active proof) || negb (processes_ready proof) || negb (channels_ready proof) || negb (routes_ready proof) with
    mkStatus kUnavailable "target Region, processes, channels, and routes must be ready" ;;
  fail_if negb (acl_exactly_preserved proof) with
    mkStatus kPermissionDenied "target ACL compatibility proof is absent" ;;
  fail_if negb (schema_bidirectionally_compatible proof) with
    mkStatus kSchemaMismatch "target schema is not bidirectionally compatible" ;;
  fail_if negb (capacity_admitted proof) || (available_shm_bytes proof <? required_shm_bytes p)
          || (available_publisher_slots proof <? required_publisher_slots p)
          || (available_subscriber_slots proof <? required_subscriber_slots p) with
    Resource "target capacity admission or headroom proof is insufficient" ;;
  fail_if negb (length (ready_topics proof) =? length (upgrade_topics p))%nat with
    mkStatus kAlreadyExists "target readiness Topic set is incomplete" ;;
  fail_if negb (topics_match (ready_topics proof) (upgrade_topics p)) with
    mkStatus kAlreadyExists "target readiness Topic binding is stale or reordered" ;;
  Ok tt.
