(* ===== verification/UpgradeManifest.v ===== *)
(** * The upgrade manifest

    Models [mino/upgrade/manifest.h] and [.cc]: the file format of an upgrade with its plan and its journal of
    phases, and [UpgradeManifestStore], which replaces the file atomically at every transition.

    The file system is the interface [Posix] of [DurableFile] with one temporary name, that of the running
    process; what its calls and the fault hook answer is an input.  A list of answers that is used
    up stands for calls that succeed.  The advisory lock is an answer: the theorems speak of one owner.
    Memory allocation does not fail. *)
From S2P Require Import Prelude Bytes Crc32c LittleEndian ManifestFormat DurableFile PartitionManifest UpgradePlan.

(** ** Rules *)

Record UpgradeManifestOptions : Set := mkUpgradeOptions { maximum_file_bytes : Z; maximum_journal_entries : Z }.
Definition default_upgrade_options : UpgradeManifestOptions :=
  mkUpgradeOptions kMaximumUpgradeFileBytes kMaximumUpgradeJournalEntries.

Definition ValidPhase (p : UpgradePhase) : bool :=
  match p with OtherPhase _ => false | _ => true end.

Definition LegalTransition (from to : UpgradePhase) : bool :=
  if IsTerminalPhase from then false
  else if bool_decide (to = kFail) then true
  else if bool_decide (to = kRollback) then
    bool_decide (from = kPrepare) || bool_decide (from = kValidate) || bool_decide (from = kDrain)
    || bool_decide (from = kCutover) || bool_decide (from = kObserve)
  else
    (bool_decide (from = kPrepare) && bool_decide (to = kValidate))
    || (bool_decide (from = kValidate) && bool_decide (to = kDrain))
    || (bool_decide (from = kDrain) && bool_decide (to = kCutover))
    || (bool_decide (from = kCutover) && bool_decide (to = kObserve))
    || (bool_decide (from = kObserve) && bool_decide (to = kCommit)).

Definition ValidateOptions (o : UpgradeManifestOptions) : Result unit :=
  fail_if (maximum_file_bytes o <? 256) || (kMaximumUpgradeFileBytes <? maximum_file_bytes o)
          || (maximum_journal_entries o =? 0) || (kMaximumUpgradeJournalEntries <? maximum_journal_entries o) with
    Invalid "upgrade manifest bounds are invalid" ;;
  Ok tt.

(** The loop over the journal. *)
Fixpoint validate_journal (s : UpgradeSnapshot) (index : Z) (previous : UpgradePhase) (entries : list UpgradeJournalEntry)
  : Result unit :=
  match entries with
  | [] => Ok tt
  | e :: rest =>
      fail_if negb (journal_sequence e =? index + 1) || negb (ValidPhase (journal_phase e))
              || (journal_timestamp_ns e <? created_at_ns s) || (updated_at_ns s <? journal_timestamp_ns e)
              || (kMaximumUpgradeStringBytes <? string_size (journal_detail e)) with
        Invalid "upgrade journal entry is invalid" ;;
      fail_if (index =? 0) && negb (bool_decide (journal_phase e = kPrepare)) with
        Invalid "upgrade journal must begin at prepare" ;;
      fail_if negb (index =? 0) && negb (LegalTransition previous (journal_phase e)) with
        Invalid "upgrade journal contains an illegal transition" ;;
      validate_journal s (index + 1) (journal_phase e) rest
  end.

Definition ValidateSnapshot (s : UpgradeSnapshot) (o : UpgradeManifestOptions) : Result unit :=
  check! ValidateOptions o ;;
  check! ValidateUpgradePlan (plan s) ;;
  fail_if (upgrade_generation s =? 0) || (created_at_ns s =? 0) || (updated_at_ns s <? created_at_ns s)
          || negb (ValidPhase (phase s)) || (zlen (upgrade_journal s) =? 0)
          || (maximum_journal_entries o <? zlen (upgrade_journal s))
          || (kMaximumUpgradeStringBytes <? string_size (terminal_reason s)) with
    Invalid "upgrade snapshot header or journal is invalid" ;;
  check! validate_journal s 0 kPrepare (upgrade_journal s) ;;
  fail_if negb (bool_decide (journal_phase <$> list.last (upgrade_journal s) = Some (phase s)))
          || negb (upgrade_generation s =? zlen (upgrade_journal s))
          || negb (Bool.eqb (bool_decide (phase s = kFail)) (negb (bool_decide (terminal_reason s = "")))) with
    Invalid "upgrade snapshot phase, generation, or terminal reason disagrees with journal" ;;
  Ok tt.

(** ** The file format *)

Definition kUpgradeMagic : list byte := String.list_byte_of_string "MINOUPG1".
Definition kDigestBytes : nat := 32.

(** [Writer::String]. *)
Definition string_field (s : string) : list byte := le_bytes 4 (string_size s) ++ String.list_byte_of_string s.

Definition EncodeRegion (r : RegionIdentity) : list byte :=
  string_field (region_name r) ++ le_bytes 4 (region_id r) ++ le_bytes 8 (uuid_lo r) ++ le_bytes 8 (uuid_hi r)
  ++ le_bytes 2 (region_layout_version r) ++ le_bytes 8 (security_domain r).
Definition acl_entry_bytes (e : TopicAclEntry) : list byte :=
  le_bytes 8 (acl_node_id e) ++ le_bytes 8 (acl_security_domain e) ++ le_bytes 4 (acl_permissions e).
Definition EncodeTopic (t : TopicBinding) : list byte :=
  le_bytes 4 (binding_topic_id t) ++ string_field (binding_name t) ++ le_bytes 8 (binding_config_version t)
  ++ le_bytes 8 (region_version t) ++ le_bytes 8 (channel_version t) ++ le_bytes 8 (acl_version t)
  ++ le_bytes 8 (schema_short_id (binding_schema t)) ++ schema_digest (binding_schema t)
  ++ le_bytes 4 (schema_version (binding_schema t)) ++ le_bytes 4 (schema_layout_version (binding_schema t))
  ++ le_bytes 4 (zlen (binding_acl t)) ++ concat (acl_entry_bytes <$> binding_acl t).
Definition topic_upgrade_bytes (t : TopicUpgrade) : list byte := EncodeTopic (topic_source t) ++ EncodeTopic (topic_target t).
Definition journal_entry_bytes (e : UpgradeJournalEntry) : list byte :=
  le_bytes 8 (journal_sequence e) ++ le_bytes 1 (phase_value (journal_phase e)) ++ le_bytes 8 (journal_timestamp_ns e)
  ++ string_field (journal_detail e).

(** The fields between the magic and the checksum. *)
Definition snapshot_fields (s : UpgradeSnapshot) : list byte :=
  let p := plan s in
  le_bytes 2 kUpgradeFormatVersion ++ le_bytes 1 (phase_value (phase s)) ++ le_bytes 1 0
  ++ le_bytes 8 (upgrade_generation s) ++ le_bytes 8 (created_at_ns s) ++ le_bytes 8 (updated_at_ns s)
  ++ string_field (operation_id p) ++ string_field (commit_token p)
  ++ EncodeRegion (source_region p) ++ EncodeRegion (target_region p)
  ++ le_bytes 4 (zlen (upgrade_topics p)) ++ concat (topic_upgrade_bytes <$> upgrade_topics p)
  ++ le_bytes 8 (required_shm_bytes p) ++ le_bytes 4 (required_publisher_slots p)
  ++ le_bytes 4 (required_subscriber_slots p) ++ le_bytes 8 (minimum_observation_samples p)
  ++ le_bytes 4 (zlen (upgrade_journal s)) ++ concat (journal_entry_bytes <$> upgrade_journal s)
  ++ string_field (terminal_reason s).

(** [class Cursor]: the bytes still to read. *)
Definition UpgradeUint (n : nat) : Cursor Z := fun l =>
  if (length l <? n)%nat then Err (Corruption "upgrade manifest is truncated")
  else Ok (read_le n l 0, drop n l).
Definition UpgradeString : Cursor string :=
  take! size := UpgradeUint 4 in
  fun l =>
    if (kMaximumUpgradeStringBytes <? size) || (zlen l <? size)
    then Err (Corruption "upgrade manifest string is invalid or truncated")
    else
      let value := String.string_of_list_byte (take (Z.to_nat size) l) in
      if contains_nul value then Err (Corruption "upgrade manifest string contains NUL")
      else Ok (value, drop (Z.to_nat size) l).
Definition Digest : Cursor (list byte) := fun l =>
  if (length l <? kDigestBytes)%nat then Err (Corruption "upgrade schema digest is truncated")
  else Ok (take kDigestBytes l, drop kDigestBytes l).

(** A loop that reads [n] elements. *)
Fixpoint read_times {A} (n : nat) (m : Cursor A) : Cursor (list A) :=
  match n with
  | O => cret []
  | S n' => take! a := m in take! rest := read_times n' m in cret (a :: rest)
  end.

Definition DecodeRegion : Cursor RegionIdentity :=
  take! name := UpgradeString in
  take! id := UpgradeUint 4 in
  take! lo := UpgradeUint 8 in
  take! hi := UpgradeUint 8 in
  take! layout := UpgradeUint 2 in
  take! domain := UpgradeUint 8 in
  cret (mkRegion name id lo hi layout domain).
Definition DecodeAclEntry : Cursor TopicAclEntry :=
  take! node := UpgradeUint 8 in
  take! domain := UpgradeUint 8 in
  take! permissions := UpgradeUint 4 in
  cret (mkAclEntry node domain permissions).
Definition DecodeTopic : Cursor TopicBinding :=
  take! topic_id := UpgradeUint 4 in
  take! name := UpgradeString in
  take! config := UpgradeUint 8 in
  take! region := UpgradeUint 8 in
  take! channel := UpgradeUint 8 in
  take! acl_version := UpgradeUint 8 in
  take! short_id := UpgradeUint 8 in
  take! digest := Digest in
  take! version := UpgradeUint 4 in
  take! layout := UpgradeUint 4 in
  take! acl_count := UpgradeUint 4 in
  reject_if (acl_count =? 0) || (kMaxTopicAclEntries <? acl_count) with
    Corruption "upgrade Topic ACL count is invalid" ;;
  take! entries := read_times (Z.to_nat acl_count) DecodeAclEntry in
  cret (mkBinding topic_id name config region channel acl_version (mkSchemaIdentity short_id digest version layout) entries).
Definition DecodeTopicUpgrade : Cursor TopicUpgrade :=
  take! source := DecodeTopic in
  take! target := DecodeTopic in
  cret (mkTopicUpgrade source target).
Definition DecodeJournalEntry : Cursor UpgradeJournalEntry :=
  take! sequence := UpgradeUint 8 in
  take! entry_phase := UpgradeUint 1 in
  take! timestamp := UpgradeUint 8 in
  take! detail := UpgradeString in
  cret (mkJournalEntry sequence (phase_of entry_phase) timestamp detail).

Definition decode_fields (o : UpgradeManifestOptions) : Cursor UpgradeSnapshot :=
  take! format := UpgradeUint 2 in
  take! phase_ := UpgradeUint 1 in
  take! reserved := UpgradeUint 1 in
  reject_if negb (format =? kUpgradeFormatVersion) || negb (reserved =? 0) with
    Corruption "upgrade manifest format is unsupported" ;;
  take! generation := UpgradeUint 8 in
  take! created := UpgradeUint 8 in
  take! updated := UpgradeUint 8 in
  take! operation := UpgradeString in
  take! token := UpgradeString in
  take! source := DecodeRegion in
  take! target := DecodeRegion in
  take! topic_count := UpgradeUint 4 in
  reject_if (topic_count =? 0) || (kMaximumUpgradeTopics <? topic_count) with
    Corruption "upgrade Topic count is invalid" ;;
  take! topics := read_times (Z.to_nat topic_count) DecodeTopicUpgrade in
  take! shm := UpgradeUint 8 in
  take! publisher_slots := UpgradeUint 4 in
  take! subscriber_slots := UpgradeUint 4 in
  take! samples := UpgradeUint 8 in
  take! journal_count := UpgradeUint 4 in
  reject_if (journal_count =? 0) || (maximum_journal_entries o <? journal_count) with
    Corruption "upgrade journal count is invalid" ;;
  take! entries := read_times (Z.to_nat journal_count) DecodeJournalEntry in
  take! reason := UpgradeString in
  cret (mkUpgradeSnapshot generation created updated (phase_of phase_)
          (mkUpgradePlan operation token source target topics shm publisher_slots subscriber_slots samples) entries reason).

Section Codec.
Context {B : Crc32cBackend}.

Definition snapshot_payload (s : UpgradeSnapshot) : list byte := kUpgradeMagic ++ snapshot_fields s.

Definition EncodeUpgradeSnapshot (s : UpgradeSnapshot) (o : UpgradeManifestOptions) : Result (list byte) :=
  check! ValidateSnapshot s o ;;
  let bytes := snapshot_payload s in
  let bytes := bytes ++ le_bytes 4 (Crc32c bytes) in
  fail_if maximum_file_bytes o <? zlen bytes with Resource "upgrade manifest exceeds configured byte bound" ;;
  Ok bytes.

Definition DecodeUpgradeSnapshot (encoded : list byte) (o : UpgradeManifestOptions) : Result UpgradeSnapshot :=
  check! ValidateOptions o ;;
  fail_if (zlen encoded <? 12) || (maximum_file_bytes o <? zlen encoded)
          || negb (bool_decide (take 8 encoded = kUpgradeMagic)) with
    Corruption "upgrade manifest magic or size is invalid" ;;
  let stored_crc := ReadLe32 encoded (length encoded - 4) in
  let payload := take (length encoded - 4) encoded in
  fail_if negb (Crc32c payload =? stored_crc) with Corruption "upgrade manifest CRC32C mismatch" ;;
  let! r := decode_fields o (drop 8 payload) in
  let '(s, rest) := r in
  fail_if negb (bool_decide (rest = [])) with Corruption "upgrade manifest has trailing fields" ;;
  check! ValidateSnapshot s o ;;
  Ok s.
End Codec.

(** ** The file *)

Inductive UpgradePersistenceFaultPoint : Set :=
| kAfterTemporaryWrite | kAfterTemporaryDataSync | kAfterAtomicRename | kAfterParentDirectorySync.
#[export] Instance UpgradePersistenceFaultPoint_eq_dec : EqDecision UpgradePersistenceFaultPoint.
Proof. solve_decision. Defined.

(** The answers of one [AtomicWrite].  [stale_errno] is [errno] after a write of no bytes, [hook_answers] what
    [RunHook] returns; without a hook that is [Ok tt]. *)
Record AtomicWriteAnswers : Set := mkAtomicWrite {
  create_answer : option Errno; temporary_writes : list WriteAnswer; stale_errno : Errno; unlink_answer : option Errno;
  data_sync : list Errno; close_answer : option Errno; replace_answer : option Errno;
  parent_open : option Errno; parent_fsync : list Errno; hook_answers : UpgradePersistenceFaultPoint -> Result unit
}.
Definition smooth_atomic_write : AtomicWriteAnswers :=
  mkAtomicWrite None [] EOTHER None [] None None None [] (fun _ => Ok tt).

(** What the calls on the lock file answer. *)
Record LockAnswers : Set := mkLock { lock_open : option Errno; lock_file_ok : bool; lock_granted : bool }.
(** What the calls of [ReadFile] answer; [manifest_file_ok]: [fstat] succeeds on a regular file with one link, owned by
    this user and not writable by others. *)
Record ReadFileAnswers : Set := mkReadFile {
  read_open : option Errno; manifest_file_ok : bool; read_answers : list WriteAnswer; read_stale_errno : Errno
}.
Record OpenAnswers : Set := mkOpen { open_lock : LockAnswers; open_read : ReadFileAnswers }.
Record CreateAnswers : Set := mkCreate { exists_answer : option string; create_lock : LockAnswers; create_write : AtomicWriteAnswers }.
Definition granted_lock : LockAnswers := mkLock None true true.
Definition smooth_read : ReadFileAnswers := mkReadFile None true [] EOTHER.
Definition smooth_open : OpenAnswers := mkOpen granted_lock smooth_read.
Definition smooth_create : CreateAnswers := mkCreate None granted_lock smooth_atomic_write.

Record UpgradeManifestStore : Set := mkUpgradeStore {
  path_ : string; options_ : UpgradeManifestOptions; poisoned_ : bool; snapshot_ : UpgradeSnapshot
}.
Definition poison_store (m : UpgradeManifestStore) : UpgradeManifestStore :=
  mkUpgradeStore (path_ m) (options_ m) true (snapshot_ m).
Definition store_snapshot (m : UpgradeManifestStore) (s : UpgradeSnapshot) : UpgradeManifestStore :=
  mkUpgradeStore (path_ m) (options_ m) (poisoned_ m) s.

(** [filename] of a path: what follows the last slash. *)
Definition filename (path : string) : string := default "" (list.last (split_at_slashes path)).

Section Store.
Context {P : Posix} {B : Crc32cBackend}.

Definition IoError (operation path : string) (e : Errno) : Status :=
  let code := match e with EACCES | EPERM | ELOOP => kPermissionDenied | _ => kUnavailable end in
  mkStatus code (operation +:+ " '" +:+ path +:+ "': " +:+ strerror e).

Definition AcquireOwnerLock (a : LockAnswers) (path : string) : Result unit :=
  match lock_open a with
  | Some e => Err (IoError "cannot open upgrade owner lock" (path +:+ ".lock") e)
  | None =>
      fail_if negb (lock_file_ok a) with
        mkStatus kPermissionDenied "upgrade owner lock must be a single-link regular file owned by this uid" ;;
      fail_if negb (lock_granted a) with
        mkStatus kWouldBlock "another rolling-upgrade owner holds the manifest lock" ;;
      Ok tt
  end.

(** A call that is repeated while it is interrupted. *)
Fixpoint until_done (failed : Errno -> Status) (answers : list Errno) (f : Disk -> Disk) : Io unit :=
  match answers with
  | [] => effect f
  | EINTR :: rest => until_done failed rest f
  | e :: _ => fail (failed e)
  end.
Definition DataSync (answers : list Errno) (path : string) : Io unit :=
  until_done (IoError "cannot sync upgrade manifest" path) answers fsync_tmp.
Definition SyncUpgradeDirectory (opened : option Errno) (answers : list Errno) (parent : string) : Io unit :=
  match opened with
  | Some e => fail (IoError "cannot open upgrade directory" parent e)
  | None => until_done (IoError "cannot sync upgrade directory" parent) answers fsync_directory
  end.

(** The loop over [pread]; the file holds [bytes]. *)
Fixpoint pread_loop (a : ReadFileAnswers) (path : string) (answers : list WriteAnswer) (bytes : list byte) (offset : nat)
  : Result (list byte) :=
  if (length bytes <=? offset)%nat then Ok (take offset bytes)
  else match answers with
  | [] => Ok bytes
  | WriteErrno EINTR :: rest => pread_loop a path rest bytes offset
  | WriteErrno e :: _ => Err (IoError "cannot read upgrade manifest" path e)
  | WriteCount n :: rest =>
      let count := Nat.min n (length bytes - offset) in
      if (count =? 0)%nat then Err (IoError "cannot read upgrade manifest" path (read_stale_errno a))
      else pread_loop a path rest bytes (offset + count)
  end.
Definition ReadFile (a : ReadFileAnswers) (path : string) (maximum : Z) (d : Disk) : Result (list byte) :=
  match read_open a, live_data d with
  | Some e, _ => Err (IoError "cannot open upgrade manifest" path e)
  | None, None => Err (IoError "cannot open upgrade manifest" path ENOENT)
  | None, Some bytes =>
      fail_if negb (manifest_file_ok a) || (zlen bytes <=? 0) || (maximum <? zlen bytes) with
        mkStatus kPermissionDenied
          "upgrade manifest must be bounded, single-link, owner-controlled, and not group/world writable" ;;
      pread_loop a path (read_answers a) bytes 0
  end.

(** The lambda [cleanup] on the way out of an error. *)
Definition cleanup {A} (unlinked : option Errno) (m : Io A) : Io A := fun d =>
  match m d with
  | (t, d', Ok x) => (t, d', Ok x)
  | (t, d', Err e) =>
      match unlinked with
      | None => (t ++ [unlink_tmp d'], unlink_tmp d', Err e)
      | Some _ => (t, d', Err e)
      end
  end.
(** [errno] when the status is made after [cleanup], which overwrites it when it fails. *)
Definition errno_after (unlinked : option Errno) (e : Errno) : Errno := default e unlinked.

Definition run_hook (a : AtomicWriteAnswers) (point : UpgradePersistenceFaultPoint) : Io unit :=
  match hook_answers a point with Ok _ => ret tt | Err e => fail e end.

(** [O_CREAT | O_EXCL]: a file of that name must not exist. *)
Definition create_tmp (a : AtomicWriteAnswers) (temporary : string) : Io unit := fun d =>
  match create_answer a, tmp_data d with
  | Some e, _ => fail (IoError "cannot create upgrade temporary" temporary e) d
  | None, Some _ => fail (IoError "cannot create upgrade temporary" temporary EEXIST) d
  | None, None => effect open_tmp d
  end.

Definition parent_of (path : string) : string := if bool_decide (parent_path path = "") then "." else parent_path path.
Definition temporary_of (path : string) : string :=
  append_path (parent_of path) (filename path +:+ ".tmp." +:+ getpid_string).

(** What [AtomicWrite] does up to the rename, and after it. *)
Definition write_temporary (a : AtomicWriteAnswers) (path : string) (bytes : list byte) : Io unit :=
  let temporary := temporary_of path in
  let after := errno_after (unlink_answer a) in
  io! create_tmp a temporary ;;
  cleanup (unlink_answer a)
    (io! write_loop (fun e => IoError "cannot write upgrade temporary" temporary (after e))
           (IoError "cannot write upgrade temporary" temporary (after (stale_errno a))) (temporary_writes a) bytes 0 ;;
     io! run_hook a kAfterTemporaryWrite ;;
     io! DataSync (data_sync a) temporary ;;
     io! run_hook a kAfterTemporaryDataSync ;;
     io! call ((fun e => IoError "cannot close upgrade temporary" temporary (after e)) <$> close_answer a) id ;;
     call ((fun e => IoError "cannot atomically rename upgrade manifest" path (after e)) <$> replace_answer a) rename_tmp).
Definition after_rename (a : AtomicWriteAnswers) (path : string) : Io unit :=
  io! run_hook a kAfterAtomicRename ;;
  io! SyncUpgradeDirectory (parent_open a) (parent_fsync a) (parent_of path) ;;
  run_hook a kAfterParentDirectorySync.

(** The result holds [*renamed]. *)
Definition AtomicWrite (a : AtomicWriteAnswers) (path : string) (bytes : list byte) (d : Disk)
  : list Disk * Disk * (bool * Result unit) :=
  let '(t, d1, written) := write_temporary a path bytes d in
  match written with
  | Err e => (t, d1, (false, Err e))
  | Ok _ => let '(t', d2, r) := after_rename a path d1 in (t ++ t', d2, (true, r))
  end.

(** ** [UpgradeManifestStore] *)

(** The states of the disk a call goes through, the last of them, the object and the status. *)
Definition StoreM : Type := Disk -> list Disk * Disk * (UpgradeManifestStore * Result unit).
Definition answer_store (m : UpgradeManifestStore) (r : Result unit) : StoreM := fun d => ([], d, (m, r)).

Definition Persist (m : UpgradeManifestStore) (next : UpgradeSnapshot) (a : AtomicWriteAnswers) : StoreM :=
  if poisoned_ m then answer_store m (Err (mkStatus kUnavailable "upgrade store is poisoned; reopen and resume"))
  else match EncodeUpgradeSnapshot next (options_ m) with
  | Err e => answer_store m (Err e)
  | Ok encoded => fun d =>
      let '(t, d', (renamed, status)) := AtomicWrite a (path_ m) encoded d in
      match status with
      | Err e => (t, d', (if renamed then poison_store m else m, Err e))
      | Ok _ => (t, d', (store_snapshot m next, Ok tt))
      end
  end.

(** The replacement [Advance] and [Fail] build. *)
Definition next_snapshot (s : UpgradeSnapshot) (next : UpgradePhase) (now_ns : Z) (detail reason : string) : UpgradeSnapshot :=
  let generation := upgrade_generation s + 1 in
  mkUpgradeSnapshot generation (created_at_ns s) now_ns next (plan s)
    (upgrade_journal s ++ [mkJournalEntry generation next now_ns detail]) reason.

Definition Advance (m : UpgradeManifestStore) (next : UpgradePhase) (now_ns : Z) (detail : string) (a : AtomicWriteAnswers)
  : StoreM :=
  let s := snapshot_ m in
  if (now_ns <? updated_at_ns s) || (kMaximumUpgradeStringBytes <? string_size detail)
     || negb (LegalTransition (phase s) next) || (maximum_journal_entries (options_ m) <=? zlen (upgrade_journal s))
     || (upgrade_generation s =? u64_max)
  then answer_store m (Err (Invalid "upgrade phase transition, time, or journal bound is invalid"))
  else Persist m (next_snapshot s next now_ns detail (terminal_reason s)) a.

Definition Fail (m : UpgradeManifestStore) (now_ns : Z) (reason : string) (a : AtomicWriteAnswers) : StoreM :=
  let s := snapshot_ m in
  if bool_decide (reason = "") || (kMaximumUpgradeStringBytes <? string_size reason)
  then answer_store m (Err (Invalid "upgrade failure reason is empty or out of bounds"))
  else if negb (LegalTransition (phase s) kFail) || (maximum_journal_entries (options_ m) <=? zlen (upgrade_journal s))
          || (upgrade_generation s =? u64_max) || (now_ns <? updated_at_ns s)
  then answer_store m (Err (Invalid "upgrade cannot enter fail from the current phase"))
  else Persist m (next_snapshot s kFail now_ns reason reason) a.

(** [UpgradeSnapshot{}], of the store before its first [Persist]. *)
Definition empty_region : RegionIdentity := mkRegion "" 0 0 0 0 0.
Definition empty_snapshot : UpgradeSnapshot :=
  mkUpgradeSnapshot 0 0 0 kPrepare (mkUpgradePlan "" "" empty_region empty_region [] 0 0 0 1) [] "".
Definition first_snapshot (p : UpgradePlan) (now_ns : Z) : UpgradeSnapshot :=
  mkUpgradeSnapshot 1 now_ns now_ns kPrepare p [mkJournalEntry 1 kPrepare now_ns "upgrade plan durably created"] "".

Definition check_create (path : string) (p : UpgradePlan) (now_ns : Z) (o : UpgradeManifestOptions) (a : CreateAnswers) (d : Disk)
  : Result unit :=
  check! ValidateOptions o ;;
  check! ValidateUpgradePlan p ;;
  fail_if bool_decide (path = "") || bool_decide (filename path = "") || (now_ns =? 0) with
    Invalid "upgrade manifest path or creation time is invalid" ;;
  match exists_answer a with
  | Some m => Err (mkStatus kUnavailable m)
  | None =>
      fail_if bool_decide (is_Some (live_data d)) with mkStatus kAlreadyExists "upgrade manifest already exists" ;;
      AcquireOwnerLock (create_lock a) path
  end.
Definition Create (path : string) (p : UpgradePlan) (now_ns : Z) (o : UpgradeManifestOptions) (a : CreateAnswers) (d : Disk)
  : list Disk * Disk * Result UpgradeManifestStore :=
  match check_create path p now_ns o a d with
  | Err e => ([], d, Err e)
  | Ok _ =>
      let '(t, d', (store, status)) :=
        Persist (mkUpgradeStore path o false empty_snapshot) (first_snapshot p now_ns) (create_write a) d in
      (t, d', match status with Err e => Err e | Ok _ => Ok store end)
  end.

Definition Open (path : string) (o : UpgradeManifestOptions) (a : OpenAnswers) (d : Disk) : Result UpgradeManifestStore :=
  check! ValidateOptions o ;;
  check! AcquireOwnerLock (open_lock a) path ;;
  let! bytes := ReadFile (open_read a) path (maximum_file_bytes o) d in
  let! s := DecodeUpgradeSnapshot bytes o in
  Ok (mkUpgradeStore path o false s).
End Store.
