(* ===== verification/UpgradeCodec.v ===== *)
(** * The format of the upgrade manifest is exact

    Encoding and decoding of [UpgradeManifest] are inverse to each other: on the snapshots whose texts hold no
    NUL the encoder is a bijection onto the accepted byte strings, and a snapshot with a NUL in a
    journal entry or in its reason is written and cannot be read again. *)
From S2P Require Import Prelude Bytes Crc32c LittleEndian ManifestFormat ManifestCodec DurableFile UpgradePlan UpgradeManifest.

(** ** The C++ types of the fields *)

Record region_typed (r : RegionIdentity) : Prop := {
  rt_id : is_u32 (region_id r); rt_lo : is_u64 (uuid_lo r); rt_hi : is_u64 (uuid_hi r);
  rt_layout : is_u16 (region_layout_version r); rt_domain : is_u64 (security_domain r)
}.
Record acl_typed (e : TopicAclEntry) : Prop := {
  at_node : is_u64 (acl_node_id e); at_domain : is_u64 (acl_security_domain e); at_permissions : is_u32 (acl_permissions e)
}.
Record binding_typed (t : TopicBinding) : Prop := {
  bt_id : is_u32 (binding_topic_id t); bt_config : is_u64 (binding_config_version t); bt_region : is_u64 (region_version t);
  bt_channel : is_u64 (channel_version t); bt_acl_version : is_u64 (acl_version t);
  bt_short : is_u64 (schema_short_id (binding_schema t)); bt_digest : length (schema_digest (binding_schema t)) = kDigestBytes;
  bt_schema : is_u32 (schema_version (binding_schema t)); bt_layout : is_u32 (schema_layout_version (binding_schema t));
  bt_acl : Forall acl_typed (binding_acl t)
}.
Record plan_typed (p : UpgradePlan) : Prop := {
  pt_source : region_typed (source_region p); pt_target : region_typed (target_region p);
  pt_topics : Forall (fun t => binding_typed (topic_source t) /\ binding_typed (topic_target t)) (upgrade_topics p);
  pt_shm : is_u64 (required_shm_bytes p); pt_publishers : is_u32 (required_publisher_slots p);
  pt_subscribers : is_u32 (required_subscriber_slots p); pt_samples : is_u64 (minimum_observation_samples p)
}.
(** [uint8_t], one constructor for each value. *)
Definition phase_typed (p : UpgradePhase) : Prop := 0 <= phase_value p < 256 /\ phase_of (phase_value p) = p.
Record journal_typed (e : UpgradeJournalEntry) : Prop := {
  jt_sequence : is_u64 (journal_sequence e); jt_phase : phase_typed (journal_phase e); jt_time : is_u64 (journal_timestamp_ns e)
}.
Record upgrade_typed (s : UpgradeSnapshot) : Prop := {
  ut_generation : is_u64 (upgrade_generation s); ut_created : is_u64 (created_at_ns s); ut_updated : is_u64 (updated_at_ns s);
  ut_phase : phase_typed (phase s); ut_plan : plan_typed (plan s); ut_journal : Forall journal_typed (upgrade_journal s)
}.

(** No NUL in what [Advance] and [Fail] were given. *)
Definition texts_clean (s : UpgradeSnapshot) : bool :=
  forallb (fun e => negb (contains_nul (journal_detail e))) (upgrade_journal s) && negb (contains_nul (terminal_reason s)).

(** ** Formats *)

(** The reader [m] reads back what [enc] writes for the values with [ok], and nothing else. *)
Record format {A} (m : Cursor A) (enc : A -> list byte) (ok : A -> Prop) : Prop := {
  fmt_read : forall a rest, ok a -> m (enc a ++ rest) = Ok (a, rest);
  fmt_only : forall l a rest, m l = Ok (a, rest) -> ok a /\ l = enc a ++ rest
}.

Lemma format_take {A C} (m : Cursor A) enc ok (k : A -> Cursor C) a rest :
  format m enc ok -> ok a -> cbind m k (enc a ++ rest) = k a rest.
Proof. intros [H _] Ha. unfold cbind. by rewrite H. Qed.

Lemma format_inv {A C} (m : Cursor A) enc ok (k : A -> Cursor C) l c rest :
  format m enc ok -> cbind m k l = Ok (c, rest) -> exists a l', l = enc a ++ l' /\ ok a /\ k a l' = Ok (c, rest).
Proof.
  intros [_ H] Hk. unfold cbind in Hk. destruct (m l) as [[a l']|] eqn:E; [|done].
  apply H in E as [Ha ->]. by exists a, l'.
Qed.

Lemma format_uint n : format (UpgradeUint n) (le_bytes n) (fun v => 0 <= v < 256 ^ Z.of_nat n).
Proof.
  split.
  - intros v rest Hv. unfold UpgradeUint. rewrite length_app, le_bytes_length.
    destruct (Nat.ltb_spec (n + length rest) n); [lia|]. rewrite read_le_here, Z.mod_small by done.
    by rewrite drop_app_length' by (by rewrite le_bytes_length).
  - intros l v rest. unfold UpgradeUint. destruct (Nat.ltb_spec (length l) n); [done|]. intros [= <- <-].
    split; [apply read_le_bound; lia|]. rewrite le_bytes_read by lia. unfold subspan. by rewrite drop_0, take_drop.
Qed.

Definition text_ok (s : string) : Prop := string_size s <= kMaximumUpgradeStringBytes /\ contains_nul s = false.

(** The reader of texts before the test for NUL. *)
Lemma string_here s rest : string_size s <= kMaximumUpgradeStringBytes ->
  UpgradeString (string_field s ++ rest) =
  if contains_nul s then Err (Corruption "upgrade manifest string contains NUL") else Ok (s, rest).
Proof.
  intros Hs. unfold UpgradeString, string_field. rewrite <- app_assoc.
  rewrite (format_take _ _ _ _ _ _ (format_uint 4)) by (unfold kMaximumUpgradeStringBytes in Hs; cbn; lia).
  rewrite (proj2 (Z.ltb_ge _ _)) by done.
  assert (zlen (String.list_byte_of_string s ++ rest) = string_size s + zlen rest) as Hl
    by (unfold zlen; rewrite length_app, list_byte_length; lia).
  rewrite (proj2 (Z.ltb_ge _ _)) by (rewrite Hl; unfold zlen; lia). cbn [orb]. cbv zeta.
  rewrite Nat2Z.id, take_app_length', drop_app_length' by (by rewrite list_byte_length).
  by rewrite String.string_of_list_byte_of_string.
Qed.

Lemma format_string : format UpgradeString string_field text_ok.
Proof.
  split.
  - intros s rest [H1 H2]. rewrite string_here by done. by rewrite H2.
  - intros l s rest H. unfold UpgradeString in H. apply (format_inv _ _ _ _ _ _ _ (format_uint 4)) in H as (n & l' & -> & Hn & H).
    destruct (_ || _) eqn:E; [done|]. apply orb_false_iff in E as [E1%Z.ltb_ge E2%Z.ltb_ge]. cbv zeta in H.
    destruct (contains_nul _) eqn:En; [done|]. injection H as <- <-.
    assert (string_size (String.string_of_list_byte (take (Z.to_nat n) l')) = n) as Hs.
    { rewrite <- list_byte_length, String.list_byte_of_string_of_list_byte, length_take. unfold zlen in *. lia. }
    split; [split; [by rewrite Hs | done]|]. unfold string_field. rewrite Hs, String.list_byte_of_string_of_list_byte.
    by rewrite <- app_assoc, take_drop.
Qed.

Lemma format_digest : format Digest id (fun d => length d = kDigestBytes).
Proof.
  split.
  - intros d rest Hd. unfold Digest. rewrite length_app. destruct (Nat.ltb_spec (length (id d) + length rest) kDigestBytes); [unfold id in *; lia|].
    unfold id. by rewrite take_app_length', drop_app_length'.
  - intros l d rest. unfold Digest. destruct (Nat.ltb_spec (length l) kDigestBytes); [done|]. intros [= <- <-].
    split; [rewrite length_take; lia|]. unfold id. by rewrite take_drop.
Qed.

Lemma format_times {A} (m : Cursor A) enc ok n : format m enc ok ->
  format (read_times n m) (fun l => concat (enc <$> l)) (fun l => length l = n /\ Forall ok l).
Proof.
  intros F. induction n as [|n IH]; cbn [read_times].
  - split; [by intros [|] rest [? _]|]. intros l a rest [= <- <-]. by split_and!.
  - split.
    + intros [|a l] rest [Hl Ho]; [done|]. injection Hl as Hl. apply list.Forall_cons in Ho as [H1 H2].
      cbn [fmap list_fmap concat]. rewrite <- app_assoc, (format_take _ _ _ _ _ _ F) by done.
      by rewrite (format_take _ _ _ _ _ _ IH).
    + intros l a rest H. apply (format_inv _ _ _ _ _ _ _ F) in H as (x & l' & -> & Hx & H).
      apply (format_inv _ _ _ _ _ _ _ IH) in H as (xs & l'' & -> & [Hl Hxs] & H). injection H as <- <-.
      split; [split; [cbn; by rewrite Hl | by constructor]|]. cbn [fmap list_fmap concat]. by rewrite app_assoc.
Qed.

Lemma format_u8 : format (UpgradeUint 1) (le_bytes 1) (fun v => 0 <= v < 256).
Proof. exact (format_uint 1). Qed.
Lemma format_u16 : format (UpgradeUint 2) (le_bytes 2) is_u16.
Proof. exact (format_uint 2). Qed.
Lemma format_u32 : format (UpgradeUint 4) (le_bytes 4) is_u32.
Proof. exact (format_uint 4). Qed.
Lemma format_u64 : format (UpgradeUint 8) (le_bytes 8) is_u64.
Proof. exact (format_uint 8). Qed.
#[export] Hint Resolve format_u8 format_u16 format_u32 format_u64 format_string format_digest : mino.

(** Read the next field of a record, in either direction. *)
Ltac read_field := erewrite format_take; [|by auto with mino|done].
Ltac find_field H :=
  lazymatch type of H with cbind ?m _ _ = _ =>
    let F := fresh "F" in eassert (format m _ _) as F by (by auto with mino);
    apply (format_inv _ _ _ _ _ _ _ F) in H; clear F end;
  let v := fresh "v" in let l := fresh "l" in let Hv := fresh "Hv" in destruct H as (v & l & -> & Hv & H).

Lemma format_region : format DecodeRegion EncodeRegion (fun r => text_ok (region_name r) /\ region_typed r).
Proof.
  split.
  - intros r rest [Hn []]. unfold DecodeRegion, EncodeRegion. rewrite <- !app_assoc. do 6 read_field. unfold cret. by destruct r.
  - intros l r rest H. unfold DecodeRegion in H. do 6 find_field H. injection H as <- <-.
    split; [split; [done|by split]|]. unfold EncodeRegion. cbn. by rewrite <- !app_assoc.
Qed.

Lemma format_acl : format DecodeAclEntry acl_entry_bytes acl_typed.
Proof.
  split.
  - intros e rest []. unfold DecodeAclEntry, acl_entry_bytes. rewrite <- !app_assoc. do 3 read_field. unfold cret. by destruct e.
  - intros l e rest H. unfold DecodeAclEntry in H. do 3 find_field H. injection H as <- <-.
    split; [by split|]. unfold acl_entry_bytes. cbn [acl_node_id acl_security_domain acl_permissions]. by rewrite <- !app_assoc.
Qed.
#[export] Hint Resolve format_region format_acl format_times : mino.

Definition binding_ok (t : TopicBinding) : Prop :=
  text_ok (binding_name t) /\ binding_typed t /\ 0 < zlen (binding_acl t) <= kMaxTopicAclEntries.

Lemma format_topic : format DecodeTopic EncodeTopic binding_ok.
Proof.
  split.
  - intros t rest (Hn & [] & Ha). unfold DecodeTopic, EncodeTopic. rewrite <- !app_assoc. do 7 read_field.
    change (schema_digest (binding_schema t)) with (id (schema_digest (binding_schema t))). do 3 read_field.
    unfold kMaxTopicAclEntries in *. erewrite format_take; [|by auto with mino|ulia].
    rewrite (proj2 (Z.eqb_neq _ _)), (proj2 (Z.ltb_ge _ _)) by lia. cbn [orb].
    rewrite (format_take _ (fun l => concat (acl_entry_bytes <$> l)) (fun l => length l = Z.to_nat (zlen (binding_acl t)) /\ Forall acl_typed l));
      [|by auto with mino|split; [unfold zlen; lia | done]].
    unfold cret, id. by destruct t as [? ? ? ? ? ? [] ?].
  - intros l t rest H. unfold DecodeTopic in H. do 11 find_field H. destruct (_ || _) eqn:E; [done|].
    find_field H. injection H as <- <-. apply orb_false_iff in E as [E1%Z.eqb_neq E2%Z.ltb_ge].
    destruct Hv10 as [Hlen Hacl]. assert (zlen v10 = v9) as Hz by (unfold zlen; ulia).
    split; [split; [done|split; [by split|cbn; rewrite Hz; ulia]]|].
    unfold EncodeTopic. cbn -[app le_bytes fmap concat]. rewrite Hz. by rewrite <- !app_assoc.
Qed.

Lemma format_topic_upgrade : format DecodeTopicUpgrade topic_upgrade_bytes
  (fun t => binding_ok (topic_source t) /\ binding_ok (topic_target t)).
Proof.
  pose proof format_topic as F. split.
  - intros t rest [H1 H2]. unfold DecodeTopicUpgrade, topic_upgrade_bytes. rewrite <- app_assoc.
    do 2 (rewrite (format_take _ _ _ _ _ _ F) by done). unfold cret. by destruct t.
  - intros l t rest H. unfold DecodeTopicUpgrade in H.
    apply (format_inv _ _ _ _ _ _ _ F) in H as (a & l1 & -> & Ha & H).
    apply (format_inv _ _ _ _ _ _ _ F) in H as (b & l2 & -> & Hb & H). injection H as <- <-.
    split; [done|]. unfold topic_upgrade_bytes. cbn [topic_source topic_target]. by rewrite app_assoc.
Qed.

Definition detail_fits (e : UpgradeJournalEntry) : Prop := string_size (journal_detail e) <= kMaximumUpgradeStringBytes.
Abbreviation nul_error := (Corruption "upgrade manifest string contains NUL").

Lemma phase_of_typed v : 0 <= v < 256 -> phase_typed (phase_of v) /\ phase_value (phase_of v) = v.
Proof.
  intros Hv. unfold phase_typed.
  assert (phase_value (phase_of v) = v) as ->; [|done].
  unfold phase_of. repeat (case_match; bool_to_prop; [by subst|]). done.
Qed.

Lemma journal_entry_here e rest : journal_typed e -> detail_fits e ->
  DecodeJournalEntry (journal_entry_bytes e ++ rest) = if contains_nul (journal_detail e) then Err nul_error else Ok (e, rest).
Proof.
  intros [H1 [H2 H2'] H3] Hd. unfold DecodeJournalEntry, journal_entry_bytes. rewrite <- !app_assoc. do 3 read_field.
  unfold cbind. rewrite string_here by done. destruct (contains_nul _); [done|]. unfold cret. rewrite H2'. by destruct e.
Qed.

Lemma format_journal : format DecodeJournalEntry journal_entry_bytes
  (fun e => journal_typed e /\ text_ok (journal_detail e)).
Proof.
  split.
  - intros e rest [H1 [H2 H3]]. rewrite journal_entry_here by done. by rewrite H3.
  - intros l e rest H. unfold DecodeJournalEntry in H. do 4 find_field H. injection H as <- <-.
    destruct (phase_of_typed v0 Hv0) as [Hp Heq]. split; [split; [by split|done]|].
    unfold journal_entry_bytes. cbn [journal_sequence journal_phase journal_timestamp_ns journal_detail].
    rewrite Heq. by rewrite <- !app_assoc.
Qed.

Lemma journal_here entries rest : Forall journal_typed entries -> Forall detail_fits entries ->
  read_times (length entries) DecodeJournalEntry (concat (journal_entry_bytes <$> entries) ++ rest) =
  if forallb (fun e => negb (contains_nul (journal_detail e))) entries then Ok (entries, rest) else Err nul_error.
Proof.
  intros Ht Hd. revert Hd. induction Ht as [|e entries He Ht IH]; intros Hd; [done|]. apply list.Forall_cons in Hd as [D1 D2].
  cbn [length read_times fmap list_fmap concat forallb]. rewrite <- app_assoc. unfold cbind at 1. rewrite journal_entry_here by done.
  destruct (contains_nul _); [done|]. cbn [negb andb]. unfold cbind. rewrite IH by done. by destruct (forallb _ entries).
Qed.

(** What a valid plan satisfies for its format. *)
Definition plan_ok (p : UpgradePlan) : Prop :=
  text_ok (operation_id p) /\ text_ok (commit_token p) /\ text_ok (region_name (source_region p)) /\
  text_ok (region_name (target_region p)) /\ 0 < zlen (upgrade_topics p) <= kMaximumUpgradeTopics /\
  Forall (fun t => binding_ok (topic_source t) /\ binding_ok (topic_target t)) (upgrade_topics p).

Lemma ValidateRegion_text r : ValidateRegion r = Ok tt -> text_ok (region_name r).
Proof. unfold ValidateRegion. intros H. step_if. bool_to_prop. split; [lia|done]. Qed.

Lemma ValidateTopic_ok t : ValidateTopic t = Ok tt -> binding_typed t -> binding_ok t.
Proof.
  unfold ValidateTopic. intros H Ht. step_if. bool_to_prop. split; [split; [unfold kMaximumUpgradeStringBytes, kMaxTopicNameBytes in *; lia|done]|].
  split; [done|]. unfold ValidateAcl in H. step_if. bool_to_prop. split; [|done].
  destruct (binding_acl t); [done|]. unfold zlen. cbn. lia.
Qed.

Lemma validate_topics_ok topics : forall sources targets, validate_topics topics sources targets = Ok tt ->
  Forall (fun t => ValidateTopic (topic_source t) = Ok tt /\ ValidateTopic (topic_target t) = Ok tt) topics.
Proof.
  induction topics as [|t topics IH]; intros sources targets H; [constructor|]. cbn [validate_topics] in H. cbv zeta in H.
  apply bindR_Ok in H as ([] & H1 & H). apply bindR_Ok in H as ([] & H2 & H). do 2 step_if. constructor; [done|]. by eapply IH.
Qed.

Lemma valid_plan_ok p : ValidateUpgradePlan p = Ok tt -> plan_typed p -> plan_ok p.
Proof.
  unfold ValidateUpgradePlan. intros H [_ _ Ht _ _ _ _]. step_if. bool_to_prop.
  apply bindR_Ok in H as ([] & R1%ValidateRegion_text & H). apply bindR_Ok in H as ([] & R2%ValidateRegion_text & H). do 2 step_if.
  apply validate_topics_ok in H. split_and!; try done; try (by split; [lia|]).
  - destruct (upgrade_topics p); [done|]. unfold zlen. cbn. lia.
  - rewrite Forall_elem in *. intros t Hin. destruct (Ht t Hin), (H t Hin). split; by apply ValidateTopic_ok.
Qed.
#[export] Hint Resolve format_topic_upgrade format_journal : mino.

Lemma decode_fields_here o s : upgrade_typed s -> plan_ok (plan s) -> maximum_journal_entries o <= kMaximumUpgradeJournalEntries ->
  0 < zlen (upgrade_journal s) <= maximum_journal_entries o -> Forall detail_fits (upgrade_journal s) ->
  string_size (terminal_reason s) <= kMaximumUpgradeStringBytes ->
  decode_fields o (snapshot_fields s) = if texts_clean s then Ok (s, []) else Err nul_error.
Proof.
  intros [T1 T2 T3 [T4 T4'] [P1 P2 P3 P4 P5 P6 P7] T6] (O1 & O2 & O3 & O4 & O5 & O6) Ho Hj Hd Hr.
  unfold kMaximumUpgradeTopics, kMaximumUpgradeJournalEntries in *.
  unfold decode_fields, snapshot_fields. cbv zeta. rewrite <- (app_nil_r (string_field (terminal_reason s))).
  erewrite format_take; [|by auto with mino|done]. erewrite format_take; [|by auto with mino|done].
  erewrite format_take; [|by auto with mino|done].
  change (negb (kUpgradeFormatVersion =? kUpgradeFormatVersion) || negb (0 =? 0)) with false. cbv iota.
  do 7 read_field. erewrite format_take; [|by auto with mino|ulia].
  rewrite (proj2 (Z.eqb_neq _ _)), (proj2 (Z.ltb_ge _ _)) by (unfold kMaximumUpgradeTopics; lia). cbn [orb].
  rewrite (format_take _ (fun l => concat (topic_upgrade_bytes <$> l))
    (fun l => length l = Z.to_nat (zlen (upgrade_topics (plan s))) /\ Forall (fun t => binding_ok (topic_source t) /\ binding_ok (topic_target t)) l));
    [|by auto with mino|split; [unfold zlen; lia | done]].
  do 4 read_field. erewrite format_take; [|by auto with mino|ulia].
  rewrite (proj2 (Z.eqb_neq _ _)), (proj2 (Z.ltb_ge _ _)) by lia. cbn [orb].
  unfold cbind. replace (Z.to_nat (zlen (upgrade_journal s))) with (length (upgrade_journal s)) by (unfold zlen; lia).
  rewrite journal_here by done. unfold texts_clean. destruct (forallb _ _); [|done]. rewrite string_here by done.
  destruct (contains_nul _); [done|]. unfold cret. rewrite T4'. cbn [andb negb]. by destruct s as [? ? ? ? [] ? ?].
Qed.

Lemma decode_fields_only o l s rest : decode_fields o l = Ok (s, rest) ->
  upgrade_typed s /\ texts_clean s = true /\ l = snapshot_fields s ++ rest.
Proof.
  intros H. unfold decode_fields in H. do 3 find_field H. destruct (_ || _) eqn:E1; [done|].
  apply orb_false_iff in E1 as [E1 E1']. do 8 find_field H.
  destruct (_ || _) eqn:E2; [done|]. apply orb_false_iff in E2 as [E2 E2']. do 6 find_field H. destruct (_ || _) eqn:E3; [done|]. do 2 find_field H. injection H as <- <-.
  bool_to_prop. subst. destruct (phase_of_typed v0 Hv0) as [Hp Heq].
  destruct Hv10 as [L1 F1], Hv16 as [L2 F2].
  assert (zlen v10 = v9 /\ zlen v16 = v15) as [Z1 Z2] by (unfold zlen; ulia).
  split_and!.
  - split; cbn; try done.
    + split; cbn; try done; try (by apply Hv6); try (by apply Hv7). by apply Hv8.
      eapply List.Forall_impl; [|exact F1]. intros t [(_ & ? & _) (_ & ? & _)]. done.
    + eapply List.Forall_impl; [|exact F2]. by intros e [? _].
  - unfold texts_clean. cbn. destruct Hv17 as [_ ->]. rewrite andb_true_r. apply forallb_forall.
    intros e He%list_elem_of_In. rewrite Forall_elem in F2. by destruct (F2 e He) as [_ [_ ->]].
  - unfold snapshot_fields. cbn -[app le_bytes fmap concat]. rewrite Heq, Z1, Z2. by rewrite <- !app_assoc.
Qed.

(** ** The whole file *)

Record snapshot_rules (s : UpgradeSnapshot) (o : UpgradeManifestOptions) : Prop := {
  sr_options : ValidateOptions o = Ok tt;
  sr_plan : ValidateUpgradePlan (plan s) = Ok tt;
  sr_created : created_at_ns s <= updated_at_ns s;
  sr_phase : ValidPhase (phase s) = true;
  sr_length : 0 < zlen (upgrade_journal s) <= maximum_journal_entries o;
  sr_reason : string_size (terminal_reason s) <= kMaximumUpgradeStringBytes;
  sr_journal : validate_journal s 0 kPrepare (upgrade_journal s) = Ok tt;
  sr_last : journal_phase <$> list.last (upgrade_journal s) = Some (phase s);
  sr_generation : upgrade_generation s = zlen (upgrade_journal s);
  sr_fail : phase s = kFail <-> terminal_reason s <> "";
  sr_time : created_at_ns s <> 0
}.

Lemma ValidateSnapshot_ok s o : ValidateSnapshot s o = Ok tt <-> snapshot_rules s o.
Proof.
  unfold ValidateSnapshot. split.
  - intros H. apply bindR_Ok in H as ([] & H1 & H). apply bindR_Ok in H as ([] & H2 & H). step_if.
    apply bindR_Ok in H as ([] & H3 & H). step_if. bool_to_prop. split; try done; try lia.
    + unfold zlen in *. lia.
    + match goal with H : Bool.eqb _ _ = true |- _ => apply eqb_prop in H; revert H end.
      destruct (bool_decide_reflect (phase s = kFail)), (bool_decide_reflect (terminal_reason s = "")); cbn; done || tauto.
  - intros [H1 H2 H3 H4 H5 H6 H7 H8 H9 H10 H11]. rewrite H1. cbn [bindR]. rewrite H2. cbn [bindR].
    rewrite H4, H9. cbn [negb orb]. pass_guard.
    rewrite H7. cbn [bindR]. rewrite fail_if_false; [done|]. rewrite bool_decide_eq_true_2 by done. rewrite Z.eqb_refl.
    destruct (bool_decide_reflect (phase s = kFail)), (bool_decide_reflect (terminal_reason s = "")); cbn; tauto.
Qed.

Lemma validate_journal_fits s entries : forall index previous, validate_journal s index previous entries = Ok tt ->
  Forall detail_fits entries.
Proof.
  induction entries as [|e entries IH]; intros index previous H; [constructor|]. cbn [validate_journal] in H. do 3 step_if.
  bool_to_prop. constructor; [done|]. by eapply IH.
Qed.

Section Exact.
Context {B : Crc32cBackend} {BL : Crc32cLaws B} (o : UpgradeManifestOptions).

Lemma EncodeUpgradeSnapshot_ok s b : EncodeUpgradeSnapshot s o = Ok b <->
  ValidateSnapshot s o = Ok tt /\ b = snapshot_payload s ++ le_bytes 4 (Crc32c (snapshot_payload s)) /\ zlen b <= maximum_file_bytes o.
Proof.
  unfold EncodeUpgradeSnapshot. cbv zeta. split.
  - intros H. apply bindR_Ok in H as ([] & H1 & H). step_if. bool_to_prop. injection H as <-. done.
  - intros (H1 & -> & H2). rewrite H1. cbn [bindR]. by rewrite (proj2 (Z.ltb_ge _ _)).
Qed.

(** Taking the checksum off. *)
Lemma checksum_split (payload : list byte) crc : is_u32 crc ->
  take (length (payload ++ le_bytes 4 crc) - 4) (payload ++ le_bytes 4 crc) = payload /\
  ReadLe32 (payload ++ le_bytes 4 crc) (length (payload ++ le_bytes 4 crc) - 4) = crc.
Proof.
  intros Hc. rewrite length_app, le_bytes_length, Nat.add_sub. split; [by rewrite take_app_length|].
  unfold ReadLe32. rewrite read_le_skip, Nat.sub_diag by lia. rewrite <- (app_nil_r (le_bytes 4 crc)), read_le_here.
  by apply Z.mod_small.
Qed.
Lemma checksum_join (b : list byte) : (4 <= length b)%nat ->
  b = take (length b - 4) b ++ le_bytes 4 (ReadLe32 b (length b - 4)).
Proof.
  intros Hb. unfold ReadLe32. rewrite le_bytes_read by lia. unfold subspan.
  rewrite (take_ge (drop _ _)) by (rewrite length_drop; lia). by rewrite take_drop.
Qed.

Lemma snapshot_fields_min s : (29 <= length (snapshot_fields s))%nat.
Proof. unfold snapshot_fields. cbv zeta. rewrite !length_app, !le_bytes_length. lia. Qed.

Lemma decode_of_encode s b : upgrade_typed s -> EncodeUpgradeSnapshot s o = Ok b ->
  DecodeUpgradeSnapshot b o = if texts_clean s then Ok s else Err nul_error.
Proof.
  intros Ht (Hv & Hb & Hsize)%EncodeUpgradeSnapshot_ok. pose proof (proj1 (ValidateSnapshot_ok s o) Hv) as R.
  unfold DecodeUpgradeSnapshot. rewrite (sr_options _ _ R). cbn [bindR]. pose proof (snapshot_fields_min s) as Hmin.
  assert (take 8 b = kUpgradeMagic /\ (12 <= length b)%nat) as [Hm Hl].
  { rewrite Hb. unfold snapshot_payload. split; [rewrite <- app_assoc; by rewrite take_app_length'|].
    rewrite !length_app, le_bytes_length. lia. }
  rewrite (proj2 (Z.ltb_ge (zlen b) 12)) by (unfold zlen; lia). rewrite (proj2 (Z.ltb_ge _ _)) by done.
  rewrite bool_decide_eq_true_2 by done. cbn [orb negb]. cbv zeta.
  pose proof (Crc32c_u32 (snapshot_payload s)) as Hc. destruct (checksum_split (snapshot_payload s) _ Hc) as [C1 C2].
  rewrite <- Hb in C1, C2. rewrite C1, C2, Z.eqb_refl. cbn [negb].
  assert (drop 8 (snapshot_payload s) = snapshot_fields s) as -> by (unfold snapshot_payload; by rewrite drop_app_length').
  rewrite decode_fields_here; try done; try apply R.
  - destruct (texts_clean s); [|done]. cbn [bindR]. rewrite bool_decide_eq_true_2 by done. cbn [negb]. by rewrite Hv.
  - apply valid_plan_ok; [apply R | apply Ht].
  - pose proof (sr_options _ _ R) as Hx. unfold ValidateOptions in Hx. step_if. bool_to_prop. done.
  - eapply validate_journal_fits, R.
Qed.

Lemma encode_of_decode b s : DecodeUpgradeSnapshot b o = Ok s ->
  upgrade_typed s /\ texts_clean s = true /\ EncodeUpgradeSnapshot s o = Ok b.
Proof.
  unfold DecodeUpgradeSnapshot. intros H. apply bindR_Ok in H as ([] & _ & H). step_if. cbv zeta in H. step_if.
  apply bindR_Ok in H as ([s' rest] & Hd & H). step_if. apply bindR_Ok in H as ([] & Hv & [= ->]). bool_to_prop. subst rest.
  apply decode_fields_only in Hd as (T1 & T2 & Hf). rewrite app_nil_r in Hf. split_and!; [done|done|].
  apply EncodeUpgradeSnapshot_ok. split; [done|]. split; [|done].
  assert (take (length b - 4) b = snapshot_payload s) as Hp.
  { rewrite <- (take_drop 8 (take (length b - 4) b)), Hf, take_take.
    rewrite Nat.min_l by (unfold zlen in *; lia). unfold snapshot_payload. by f_equal. }
  rewrite <- Hp at 2. match goal with H : Crc32c _ = _ |- _ => rewrite H end. rewrite <- Hp.
  apply checksum_join. unfold zlen in *. lia.
Qed.
End Exact.

(** The format of the upgrade manifest is exact.  The file of a snapshot of the C++ types decodes to that snapshot
    when no journal entry and no reason holds a NUL, and is refused as corrupt otherwise; every file that decodes holds a
    snapshot of the C++ types and is, byte for byte, what encoding that snapshot gives. *)
Theorem upgrade_format_exact (B : Crc32cBackend) (BL : Crc32cLaws B) o :
  (forall s b, upgrade_typed s -> EncodeUpgradeSnapshot s o = Ok b ->
     DecodeUpgradeSnapshot b o = if texts_clean s then Ok s else Err (Corruption "upgrade manifest string contains NUL")) /\
  (forall b s, DecodeUpgradeSnapshot b o = Ok s ->
     upgrade_typed s /\ texts_clean s = true /\ EncodeUpgradeSnapshot s o = Ok b).
Proof.
  split; [intros s b Ht He; by apply decode_of_encode | intros b s Hd; by apply encode_of_decode].
Qed.
