(* ===== verification/UpgradeStore.v ===== *)
(** * What the upgrade store keeps

    A transition of [UpgradeManifestStore] is atomic: before the rename the file is as it was, after it the file holds
    the new snapshot, and a transition that succeeds is durable.  Proved for every answer of the file system
    and of the fault hook. *)
From S2P Require Import Prelude Bytes Crc32c LittleEndian ManifestFormat ManifestCodec DurableFile PartitionManifest UpgradePlan UpgradeManifest UpgradeCodec.

(** ** Outcomes *)

Section Outcomes.
Context {P : Posix}.

(** The states on the way satisfy [Trail], the last one [Post] after a success and [Bad] after an error. *)
Definition outcome {A} (Trail Pre : Disk -> Prop) (m : Io A) (Post Bad : Disk -> Prop) : Prop :=
  forall d, Pre d ->
  let '(t, d', r) := m d in
  Forall Trail t /\ match r with Ok _ => Post d' | Err _ => Bad d' end.

Lemma write_outcome_bind {A C} Trail Pre (m : Io A) Mid (k : A -> Io C) Post Bad :
  outcome Trail Pre m Mid Bad -> (forall a, outcome Trail Mid (k a) Post Bad) -> outcome Trail Pre (bind m k) Post Bad.
Proof.
  intros Hm Hk d Hd. specialize (Hm d Hd). unfold bind. destruct (m d) as [[t d'] [a|e]]; destruct Hm as [H1 H2]; [|done].
  specialize (Hk a d' H2). destruct (k a d') as [[t' d''] r]. destruct Hk as [H3 H4].
  split; [by apply list.Forall_app|done].
Qed.

Lemma write_outcome_triple {A} Inv Trail Pre (m : Io A) Post :
  triple Inv Pre m (fun _ => Post) -> (forall d, Inv d -> Trail d) ->
  outcome Trail (fun d => Inv d /\ Pre d) m (fun d => Inv d /\ Post d) Inv.
Proof.
  intros Hm Hi d [H1 H2]. specialize (Hm d H1 H2). destruct (m d) as [[t d'] r]. destruct Hm as (T1 & T2 & T3).
  split; [eapply List.Forall_impl; [|exact T1]; done|]. by destruct r.
Qed.

Lemma until_done_triple Inv (Pre Post : Disk -> Prop) failed answers f :
  (forall d, Inv d -> Pre d -> Inv (f d) /\ Post (f d)) -> triple Inv Pre (until_done failed answers f) (fun _ => Post).
Proof.
  intros H. induction answers as [|e answers IH]; cbn [until_done]; [by apply triple_effect|].
  destruct e; done || apply triple_fail.
Qed.

Lemma run_hook_triple Inv Pre a point : triple Inv Pre (run_hook a point) (fun _ => Pre).
Proof. unfold run_hook. destruct (hook_answers a point) as [[]|]; [apply triple_ret | apply triple_fail]. Qed.
End Outcomes.

(** ** [AtomicWrite] *)

Section Write.
Context {P : Posix} {PL : PosixLaws P}.

Lemma live_untouched_refl d : live_untouched d d.
Proof. by split_and!. Qed.
Lemma live_untouched_trans d1 d2 d3 : live_untouched d2 d3 -> live_untouched d1 d2 -> live_untouched d1 d3.
Proof. intros (A1 & A2 & A3) (B1 & B2 & B3). split_and!; [congruence | auto | auto]. Qed.

Context (d0 : Disk) (bytes : list byte).

Lemma untouched_old d : live_untouched d0 d -> old_or_new d0 bytes d.
Proof. intros (H1 & _ & H2). split; [by left|]. intros c Hc. left. by apply H2. Qed.

(** The new content is in place and synchronised; the directory may not be. *)
Definition replaced (d : Disk) : Prop :=
  live_data d = Some bytes /\ live_synced d /\ tmp_data d = None /\ old_or_new d0 bytes d.

Lemma write_temporary_outcome a path :
  outcome (old_or_new d0 bytes) (live_untouched d0) (write_temporary a path bytes) replaced (live_untouched d0).
Proof.
  assert (forall d d', live_untouched d d' -> live_untouched d0 d -> live_untouched d0 d') as Hinv
    by (intros; by eapply live_untouched_trans).
  assert (outcome (old_or_new d0 bytes) (fun d => live_untouched d0 d /\ tmp_data d = Some bytes /\ tmp_synced d)
    (call ((fun e => IoError "cannot atomically rename upgrade manifest" path (errno_after (unlink_answer a) e)) <$> replace_answer a) rename_tmp)
    replaced (live_untouched d0)) as Hrename.
  { intros d (H1 & H2 & H3). destruct (replace_answer a); cbn; [done|].
    assert (old_or_new d0 bytes (rename_tmp d)) as Ho.
    { split; [right; by rewrite rename_tmp_data|]. intros c [Hc| ->]%rename_tmp_survives; [|by right|done].
      left. by apply H1. }
    split; [by constructor|]. split_and!; [by rewrite rename_tmp_data | by apply rename_tmp_synced | apply rename_tmp_gone | done]. }
  unfold write_temporary. cbv zeta.
  apply (write_outcome_bind _ _ _ (fun d => live_untouched d0 d /\ tmp_data d = Some (take 0 bytes))).
  { intros d Hd. unfold create_tmp. destruct (create_answer a), (tmp_data d); cbn; try done.
    assert (live_untouched d0 (open_tmp d)) as H by (eapply Hinv; [apply open_tmp_live|done]).
    split; [constructor; [by apply untouched_old|constructor]|]. split; [done|apply open_tmp_data]. }
  intros _. match goal with |- outcome _ _ (cleanup _ ?m) _ _ => assert (outcome (old_or_new d0 bytes)
    (fun d => live_untouched d0 d /\ tmp_data d = Some (take 0 bytes)) m replaced (live_untouched d0)) as Hm end.
  { eapply write_outcome_bind; [apply write_outcome_triple; [apply (write_loop_triple_inv _ Hinv); lia | apply untouched_old] | intros _].
    eapply write_outcome_bind; [apply write_outcome_triple; [apply run_hook_triple | apply untouched_old] | intros _].
    eapply write_outcome_bind; [apply write_outcome_triple; [apply (until_done_triple _ _ (fun d => tmp_data d = Some bytes /\ tmp_synced d)) | apply untouched_old] | intros _].
    { intros d H1 H2. rewrite fsync_tmp_data. split; [eapply Hinv; [apply fsync_tmp_live|done]|]. split; [done|apply fsync_tmp_synced]. }
    eapply write_outcome_bind; [apply write_outcome_triple; [apply run_hook_triple | apply untouched_old] | intros _].
    eapply write_outcome_bind; [|intros _; exact Hrename].
    apply write_outcome_triple; [|apply untouched_old]. apply triple_call. intros d H1 H2. done. }
  intros d Hd. specialize (Hm d Hd). unfold cleanup. match goal with |- context [bind ?x ?y d] => destruct (bind x y d) as [[t d'] [[]|e]] end; [done|].
  destruct Hm as [H1 H2]. destruct (unlink_answer a); [done|].
  assert (live_untouched d0 (unlink_tmp d')) as H by (eapply Hinv; [apply unlink_tmp_live|done]).
  split; [apply list.Forall_app; split; [done|constructor; [by apply untouched_old|constructor]]|done].
Qed.

(** The directory is synchronised too. *)
Definition settled_on (d : Disk) : Prop :=
  live_data d = Some bytes /\ tmp_data d = None /\ forall c, survives d c -> c = Some bytes.

Lemma after_rename_outcome a path : outcome (old_or_new d0 bytes) replaced (after_rename a path) settled_on replaced.
Proof.
  assert (outcome (old_or_new d0 bytes) replaced (SyncUpgradeDirectory (parent_open a) (parent_fsync a) (parent_of path))
    (fun d => replaced d /\ settled_on d) replaced) as Hsync.
  { unfold SyncUpgradeDirectory. destruct (parent_open a); [intros d Hd; by split|].
    intros d Hd. apply (write_outcome_triple replaced (old_or_new d0 bytes) (fun _ => True) _ settled_on); [|by intros ? (_ & _ & _ & ?)|done].
    apply until_done_triple. intros x (H1 & H2 & H3 & H4) _. destruct (fsync_directory_live x) as (L1 & L2 & L3).
    split; split_and!; try (by rewrite ?L1, ?fsync_directory_tmp); [by apply L2 | eapply untouched_old_or_new; [apply fsync_directory_live|done] |].
    intros c Hc. rewrite <- H1. by apply fsync_directory_survives. }
  unfold after_rename.
  apply (write_outcome_bind _ _ _ replaced); [intros d Hd; unfold run_hook; by destruct (hook_answers a _); split|]. intros _.
  eapply write_outcome_bind; [exact Hsync|]. intros _ d [H1 H2]. unfold run_hook. by destruct (hook_answers a _); split.
Qed.

Lemma AtomicWrite_outcome a path t d' renamed r : AtomicWrite a path bytes d0 = (t, d', (renamed, r)) ->
  Forall (old_or_new d0 bytes) t /\
  match r with
  | Ok _ => renamed = true /\ settled_on d'
  | Err _ => if renamed then replaced d' else live_untouched d0 d'
  end.
Proof.
  unfold AtomicWrite. intros H. pose proof (write_temporary_outcome a path d0 (live_untouched_refl d0)) as H1.
  destruct (write_temporary a path bytes d0) as [[t1 d1] [[]|e]]; destruct H1 as [T1 R1]; [|by injection H as <- <- <- <-].
  pose proof (after_rename_outcome a path d1 R1) as H2. destruct (after_rename a path d1) as [[t2 d2] r2]. destruct H2 as [T2 R2].
  injection H as <- <- <- <-. split; [by apply list.Forall_app|]. by destruct r2.
Qed.
End Write.

(** ** Files and snapshots *)

Section Files.
Context {B : Crc32cBackend} {BL : Crc32cLaws B}.

(** The file holds the snapshot. *)
Definition file_of (s : UpgradeSnapshot) (b : list byte) : Prop :=
  upgrade_typed s /\ exists o, EncodeUpgradeSnapshot s o = Ok b.

Lemma fields_decode s o : upgrade_typed s -> ValidateSnapshot s o = Ok tt ->
  decode_fields default_upgrade_options (snapshot_fields s) = if texts_clean s then Ok (s, []) else Err nul_error.
Proof.
  intros Ht R%ValidateSnapshot_ok. pose proof (sr_options _ _ R) as Hx. unfold ValidateOptions in Hx. step_if. bool_to_prop.
  apply decode_fields_here; try done; try apply R.
  - apply valid_plan_ok; [apply R | apply Ht].
  - pose proof (sr_length _ _ R). cbn. lia.
  - eapply validate_journal_fits, R.
Qed.

(** Whatever options a file is opened with, it reads as the snapshot it holds. *)
Lemma file_of_decodes s b o s' : file_of s b -> DecodeUpgradeSnapshot b o = Ok s' -> s' = s /\ file_of s' b.
Proof.
  intros [Ht [o1 He]] Hd. apply encode_of_decode in Hd as (Ht' & Hc & He').
  apply EncodeUpgradeSnapshot_ok in He as (V & Hb & _), He' as (V' & Hb' & L'). split.
  - assert (snapshot_payload s = snapshot_payload s') as Hp.
    { destruct (checksum_split (snapshot_payload s) _ (Crc32c_u32 (snapshot_payload s))) as [C _].
      destruct (checksum_split (snapshot_payload s') _ (Crc32c_u32 (snapshot_payload s'))) as [C' _]. rewrite <- Hb in C. rewrite <- Hb' in C'. congruence. }
    unfold snapshot_payload in Hp. apply app_inv_head in Hp. pose proof (fields_decode s o1 Ht V) as D.
    rewrite Hp, (fields_decode s' o Ht' V'), Hc in D. destruct (texts_clean s); congruence.
  - split; [done|]. exists o. by apply EncodeUpgradeSnapshot_ok.
Qed.
End Files.

(** ** The calls of the store *)

Section Store.
Context {P : Posix} {PL : PosixLaws P} {B : Crc32cBackend} {BL : Crc32cLaws B}.

(** What [Persist] does with a snapshot of the C++ types. *)
Inductive persisted (m : UpgradeManifestStore) (next : UpgradeSnapshot) (d : Disk) :
  list Disk -> Disk -> UpgradeManifestStore -> Result unit -> Prop :=
| persist_refused e : persisted m next d [] d m (Err e)
| persist_failed b t d' e : poisoned_ m = false -> file_of next b -> Forall (old_or_new d b) t -> live_untouched d d' ->
    persisted m next d t d' m (Err e)
| persist_uncertain b t d' e : poisoned_ m = false -> file_of next b -> Forall (old_or_new d b) t -> replaced d b d' ->
    persisted m next d t d' (poison_store m) (Err e)
| persist_done b t d' : poisoned_ m = false -> EncodeUpgradeSnapshot next (options_ m) = Ok b -> file_of next b ->
    Forall (old_or_new d b) t -> settled_on b d' ->
    persisted m next d t d' (store_snapshot m next) (Ok tt).

Lemma Persist_persisted m next a d t d' m' r : upgrade_typed next -> Persist m next a d = (t, d', (m', r)) ->
  persisted m next d t d' m' r.
Proof.
  intros Ht H. unfold Persist in H. destruct (poisoned_ m) eqn:Hp; [injection H as <- <- <- <-; constructor|].
  destruct (EncodeUpgradeSnapshot next (options_ m)) as [b|e] eqn:He; [|injection H as <- <- <- <-; constructor].
  assert (file_of next b) as Hf by (split; [done|by exists (options_ m)]).
  destruct (AtomicWrite a (path_ m) b d) as [[t1 d1] [renamed r1]] eqn:Ew.
  apply AtomicWrite_outcome in Ew as [T1 T2]. destruct r1 as [[]|e]; injection H as <- <- <- <-.
  - destruct T2 as [_ T2]. by eapply persist_done.
  - destruct renamed; [by eapply persist_uncertain | by eapply persist_failed].
Qed.

(** A temporary file left behind under the name of the process blocks every transition. *)
Lemma stale_temporary_blocks m next a d x : tmp_data d = Some x ->
  exists e, Persist m next a d = ([], d, (m, Err e)).
Proof.
  intros Hx. unfold Persist. destruct (poisoned_ m); [by eexists|].
  destruct (EncodeUpgradeSnapshot next (options_ m)); [|by eexists].
  unfold AtomicWrite, write_temporary, create_tmp, bind. cbv zeta. rewrite Hx. destruct (create_answer a); by eexists.
Qed.

Lemma valid_phase_typed p : ValidPhase p = true -> phase_typed p.
Proof. by destruct p. Qed.

Lemma legal_target from to : LegalTransition from to = true -> ValidPhase to = true.
Proof. unfold LegalTransition. by destruct from, to. Qed.

Lemma next_typed s next now detail reason : upgrade_typed s -> LegalTransition (phase s) next = true -> is_u64 now ->
  (upgrade_generation s =? u64_max) = false -> upgrade_typed (next_snapshot s next now detail reason).
Proof.
  intros [T1 T2 T3 T4 T5 T6] Hl Hn Hg%Z.eqb_neq. assert (is_u64 (upgrade_generation s + 1)) by ulia.
  pose proof (valid_phase_typed _ (legal_target _ _ Hl)). split; cbn; try done.
  apply list.Forall_app. split; [done|]. constructor; [by split|constructor].
Qed.

(** A call of the store makes one legal transition or none. *)
Definition moved (m : UpgradeManifestStore) (next : UpgradePhase) (d : Disk) (t : list Disk) (d' : Disk)
    (m' : UpgradeManifestStore) (r : Result unit) : Prop :=
  (t = [] /\ d' = d /\ m' = m /\ exists e, r = Err e) \/
  exists now detail reason, LegalTransition (phase (snapshot_ m)) next = true /\
    upgrade_typed (next_snapshot (snapshot_ m) next now detail reason) /\
    persisted m (next_snapshot (snapshot_ m) next now detail reason) d t d' m' r.

Lemma Advance_moved m next now detail a d t d' m' r : upgrade_typed (snapshot_ m) -> is_u64 now ->
  Advance m next now detail a d = (t, d', (m', r)) -> moved m next d t d' m' r.
Proof.
  intros Ht Hn H. unfold Advance in H. cbv zeta in H. destruct (_ || _) eqn:E.
  - injection H as <- <- <- <-. left. by split_and!; [..|eexists].
  - right. rewrite !orb_false_iff in E. destruct E as [[[[E1 E2] E3%negb_false_iff] E4] E5]. do 3 eexists. split; [done|].
    split; [by apply next_typed|]. eapply Persist_persisted; [|exact H]. by apply next_typed.
Qed.

Lemma Fail_moved m now reason a d t d' m' r : upgrade_typed (snapshot_ m) -> is_u64 now ->
  UpgradeManifest.Fail m now reason a d = (t, d', (m', r)) -> moved m kFail d t d' m' r.
Proof.
  intros Ht Hn H. unfold UpgradeManifest.Fail in H. cbv zeta in H. destruct (_ || _) eqn:E0.
  { injection H as <- <- <- <-. left. by split_and!; [..|eexists]. }
  clear E0. destruct (_ || _) eqn:E.
  - injection H as <- <- <- <-. left. by split_and!; [..|eexists].
  - right. rewrite !orb_false_iff in E. destruct E as [[[E1%negb_false_iff E2] E3] E4]. do 3 eexists. split; [done|].
    split; [by apply next_typed|]. eapply Persist_persisted; [|exact H]. by apply next_typed.
Qed.

Lemma first_typed p now : plan_typed p -> is_u64 now -> upgrade_typed (first_snapshot p now).
Proof. intros Hp Hn. split; cbn; try done. constructor; [by split|constructor]. Qed.

Lemma Create_persisted path p now o a d t d' r : plan_typed p -> is_u64 now -> Create path p now o a d = (t, d', r) ->
  (t = [] /\ d' = d /\ exists e, r = Err e) \/
  live_data d = None /\ exists m' r', persisted (mkUpgradeStore path o false empty_snapshot) (first_snapshot p now) d t d' m' r' /\
    r = match r' with Ok _ => Ok m' | Err e => Err e end.
Proof.
  intros Hp Hn H. unfold Create in H. destruct (check_create path p now o a d) as [[]|e] eqn:E; [|injection H as <- <- <-; left; by eauto].
  right. split.
  - unfold check_create in E. apply bindR_Ok in E as ([] & _ & E). apply bindR_Ok in E as ([] & _ & E). step_if.
    destruct (exists_answer a); [done|]. step_if. bool_to_prop. by apply eq_None_not_Some.
  - destruct (Persist _ _ _ d) as [[t1 d1] [m1 r1]] eqn:Ep. injection H as <- <- <-. exists m1, r1. split; [|by destruct r1].
    eapply Persist_persisted; [by apply first_typed|exact Ep].
Qed.

(** Reading the whole file. *)
Lemma pread_loop_bytes a path answers bytes : forall offset r, (offset <= length bytes)%nat ->
  pread_loop a path answers bytes offset = Ok r -> r = bytes.
Proof.
  induction answers as [|x answers IH]; intros offset r Ho H; cbn [pread_loop] in H;
    destruct (Nat.leb_spec (length bytes) offset).
  - injection H as <-. by apply take_ge.
  - by injection H as <-.
  - injection H as <-. by apply take_ge.
  - destruct x as [[]|n]; try done; [by apply (IH offset)|]. cbv zeta in H. step_if. eapply IH; [|exact H]. lia.
Qed.

Lemma Open_reads path o a d m : Open path o a d = Ok m ->
  m = mkUpgradeStore path o false (snapshot_ m) /\
  exists b, live_data d = Some b /\ DecodeUpgradeSnapshot b o = Ok (snapshot_ m).
Proof.
  unfold Open. intros H. apply bindR_Ok in H as ([] & _ & H). apply bindR_Ok in H as ([] & _ & H).
  apply bindR_Ok in H as (b & Hb & H). apply bindR_Ok in H as (s & Hs & [= <-]). split; [done|]. exists b. split; [|done].
  unfold ReadFile in Hb. destruct (read_open (open_read a)); [done|]. destruct (live_data d) as [bytes|]; [|done].
  step_if. f_equal. symmetry. eapply pread_loop_bytes; [|exact Hb]. lia.
Qed.
End Store.
