(* ===== verification/UpgradeOrchestrator.v ===== *)
(** * The upgrade orchestrator

    Models [mino/upgrade/orchestrator.h] and [.cc]: one step asks the control plane for a proof or a side effect and
    records the next phase in the manifest.

    The control plane is an interface of the program, [UpgradeControlPlane]; what its methods answer is an input, and
    every call with its answer is logged, the latest first.  Every state a call goes through is kept, so
    that the theorems speak of a crash at any moment. *)
From S2P Require Import Prelude Bytes Crc32c ManifestFormat DurableFile UpgradePlan UpgradeManifest.

(** ** Sessions *)

(** A call of the control plane with its plan and its answer. *)
Inductive ControlCall : Set :=
| CallPrepare (p : UpgradePlan) (r : Result unit)
| CallObserveTarget (p : UpgradePlan) (r : Result TargetReadinessProof)
| CallBeginDrain (p : UpgradePlan) (r : Result unit)
| CallObserveDrain (p : UpgradePlan) (r : Result DrainProof)
| CallCutover (p : UpgradePlan) (r : Result unit)
| CallObserveCutover (p : UpgradePlan) (r : Result CutoverObservation)
| CallCommit (p : UpgradePlan) (r : Result unit)
| CallObserveRollbackSafety (p : UpgradePlan) (r : Result SafeRollbackProof)
| CallRollback (p : UpgradePlan) (after_cutover : bool) (r : Result unit).

(** The disk, the calls made so far and the store the orchestrator points to. *)
Record Session {P : Posix} : Type := mkSession {
  session_disk : Disk; session_calls : list ControlCall; session_store : option UpgradeManifestStore
}.

(** What one step asks for, and what the write of the manifest answers. *)
Record StepAnswers : Set := mkStepAnswers {
  prepare_answer : Result unit; target_answer : Result TargetReadinessProof; begin_drain_answer : Result unit;
  drain_answer : Result DrainProof; cutover_answer : Result unit; observation_answer : Result CutoverObservation;
  commit_answer : Result unit; advance_answers : AtomicWriteAnswers
}.
Record RollbackAnswers : Set := mkRollbackAnswers {
  safety_answer : Result SafeRollbackProof; rollback_answer : Result unit; rollback_write : AtomicWriteAnswers
}.

Record UpgradeStepPreview : Set := mkPreview {
  preview_current : UpgradePhase; preview_next : UpgradePhase; preview_terminal : bool; preview_action : string
}.

Definition Blocked (m : string) : Status := mkStatus kWouldBlock m.

Definition Preview (store : option UpgradeManifestStore) : UpgradeStepPreview :=
  match store with
  | None => mkPreview kPrepare kPrepare true "invalid orchestrator: manifest store is absent"
  | Some m =>
      let current := phase (snapshot_ m) in
      match current with
      | kPrepare => mkPreview current kValidate false "prepare distinct target Region/channels/processes"
      | kValidate => mkPreview current kDrain false "validate readiness/domain/ACL/schema/capacity, then fence old publishers"
      | kDrain => mkPreview current kCutover false "verify participants/pins/receipts/borrows/queue drain proof"
      | kCutover => mkPreview current kObserve false "atomically route publishers to target using commit token"
      | kObserve => mkPreview current kCommit false "observe target-only publish and zero duplicate/unexplained loss"
      | kCommit | kRollback | kFail => mkPreview current current true "terminal"
      | OtherPhase _ => mkPreview current kPrepare false ""
      end
  end.

Section Orchestrator.
Context {P : Posix} {B : Crc32cBackend}.

(** The states a call goes through, the last of them and the status. *)
Definition Op (A : Type) : Type := Session -> list Session * Session * Result A.
Definition op_return {A} (r : Result A) : Op A := fun x => ([], x, r).
Definition op_bind {A C} (m : Op A) (k : A -> Op C) : Op C := fun x =>
  let '(t, x', r) := m x in
  match r with
  | Err e => (t, x', Err e)
  | Ok a => let '(t', x'', r') := k a x' in (t ++ t', x'', r')
  end.
Notation "'op!' m ';;' k" := (op_bind m (fun _ : unit => k)) (at level 10, m at level 99, k at level 200).
Notation "'ask!' x ':=' m 'in' k" := (op_bind m (fun x => k)) (at level 10, x name, m at level 100, k at level 200).
Notation "'stop_if' c 'with' s ';;' k" := (if c then op_return (Err s) else k)
  (at level 10, c at level 99, s at level 99, k at level 200).

(** A call of the control plane. *)
Definition control_call {A} (record : Result A -> ControlCall) (r : Result A) : Op A := fun x =>
  let x' := mkSession P (session_disk x) (record r :: session_calls x) (session_store x) in ([x'], x', r).
(** A call of the store. *)
Definition store_call (m : UpgradeManifestStore) (f : StoreM) : Op unit := fun x =>
  let '(t, d', (m', r)) := f (session_disk x) in
  ((fun d => mkSession P d (session_calls x) (Some m)) <$> t, mkSession P d' (session_calls x) (Some m'), r).

(** ** Steps *)

Definition ObserveAndCommit (m : UpgradeManifestStore) (now_ns : Z) (a : StepAnswers) : Op unit :=
  let p := plan (snapshot_ m) in
  ask! observation := control_call (CallObserveCutover p) (observation_answer a) in
  stop_if negb (bool_decide (acknowledged_commit_token observation = commit_token p))
          || negb (bool_decide (active_region observation = target_region p)) with
    Blocked "cutover token or active target Region is not yet acknowledged" ;;
  stop_if negb (old_publisher_count observation =? 0) || (new_publisher_count observation =? 0) with
    Blocked "publishers are not exclusively active in the target Region" ;;
  stop_if negb (duplicate_count observation =? 0) || negb (unexplained_loss_count observation =? 0) with
    mkStatus kDegraded "cutover observation found duplicate or unexplained loss" ;;
  stop_if observed_samples observation <? minimum_observation_samples p with
    Blocked "cutover observation sample bound is not yet met" ;;
  op! control_call (CallCommit p) (commit_answer a) ;;
  store_call m (Advance m kCommit now_ns "target observation passed; old Region may be retired" (advance_answers a)).

(** The switch over the phase of the manifest. *)
Definition step_phase (m : UpgradeManifestStore) (now_ns : Z) (a : StepAnswers) : Op unit :=
  let p := plan (snapshot_ m) in
  let advance := fun next detail => store_call m (Advance m next now_ns detail (advance_answers a)) in
  match phase (snapshot_ m) with
  | kPrepare =>
      op! op_return (ValidateUpgradePlan p) ;;
      op! control_call (CallPrepare p) (prepare_answer a) ;;
      advance kValidate "target preparation acknowledged"
  | kValidate =>
      ask! proof := control_call (CallObserveTarget p) (target_answer a) in
      op! op_return (ValidateTargetReadiness p proof) ;;
      op! control_call (CallBeginDrain p) (begin_drain_answer a) ;;
      advance kDrain "target validated and old publisher drain requested"
  | kDrain =>
      ask! proof := control_call (CallObserveDrain p) (drain_answer a) in
      stop_if negb (complete proof) with
        Blocked "drain proof incomplete: publisher/subscriber/pin/receipt/borrow/queue conservation is required" ;;
      advance kCutover "complete drain proof durably accepted"
  | kCutover =>
      op! control_call (CallCutover p) (cutover_answer a) ;;
      advance kObserve "cutover token acknowledged; target is publisher-active"
  | kObserve => ObserveAndCommit m now_ns a
  | kCommit | kRollback | kFail => op_return (Ok tt)
  | OtherPhase _ => op_return (Err (Corruption "upgrade manifest contains an unknown phase"))
  end.

(** [control] says that the pointer to the control plane is not null. *)
Definition Step (control : bool) (now_ns : Z) (a : StepAnswers) : Op unit := fun x =>
  match session_store x with
  | None => op_return (Err (Invalid "upgrade orchestrator dependencies or time are invalid")) x
  | Some m =>
      (stop_if negb control || (now_ns =? 0) with Invalid "upgrade orchestrator dependencies or time are invalid" ;;
       stop_if poisoned_ m with mkStatus kUnavailable "upgrade manifest outcome is uncertain; reopen and resume" ;;
       step_phase m now_ns a) x
  end.

Definition at_terminal (x : Session) : bool :=
  match session_store x with Some m => IsTerminalPhase (phase (snapshot_ m)) | None => false end.

(** The loop with [remaining] steps to go; [answers] by the number of the step. *)
Fixpoint execute_steps (control : bool) (now_ns : Z) (answers : nat -> StepAnswers) (step remaining : nat) : Op unit := fun x =>
  match remaining with
  | O =>
      if at_terminal x then op_return (Ok tt) x
      else op_return (Err (mkStatus kWouldBlock "upgrade execution reached the bounded step limit")) x
  | S remaining =>
      if at_terminal x then op_return (Ok tt) x
      else op_bind (Step control now_ns (answers step)) (fun _ => execute_steps control now_ns answers (S step) remaining) x
  end.
Definition Execute (control : bool) (now_ns : Z) (max_steps : nat) (answers : nat -> StepAnswers) : Op unit :=
  stop_if (max_steps =? 0)%nat with Invalid "upgrade execution step bound must be nonzero" ;;
  execute_steps control now_ns answers 0 max_steps.

Definition Rollback (control : bool) (now_ns : Z) (a : RollbackAnswers) : Op unit := fun x =>
  match session_store x with
  | None => op_return (Err (Invalid "upgrade rollback dependencies or time are invalid")) x
  | Some m =>
      let p := plan (snapshot_ m) in
      let after_cutover_intent := negb (IsPreCutoverPhase (phase (snapshot_ m))) in
      (stop_if negb control || (now_ns =? 0) with Invalid "upgrade rollback dependencies or time are invalid" ;;
       stop_if IsTerminalPhase (phase (snapshot_ m)) with Unsupported "terminal upgrade cannot be rolled back" ;;
       op! (if after_cutover_intent then
              ask! proof := control_call (CallObserveRollbackSafety p) (safety_answer a) in
              stop_if negb (safe_rollback proof) with
                mkStatus kPermissionDenied
                  "post-cutover rollback lacks target fence/source readiness/reconciliation proof; use forward fix" ;;
              op_return (Ok tt)
            else op_return (Ok tt)) ;;
       op! control_call (CallRollback p after_cutover_intent) (rollback_answer a) ;;
       store_call m (Advance m kRollback now_ns
         (if after_cutover_intent then "explicit safe post-cutover rollback completed" else "pre-cutover rollback completed")
         (rollback_write a))) x
  end.

Definition Fail (now_ns : Z) (reason : string) (a : AtomicWriteAnswers) : Op unit := fun x =>
  match session_store x with
  | None => op_return (Err (Invalid "upgrade manifest store is absent")) x
  | Some m => store_call m (UpgradeManifest.Fail m now_ns reason a) x
  end.
End Orchestrator.
