(* ===== verification/UpgradeStory.v ===== *)
(** * Histories of an upgrade

    An upgrade is created, stepped, executed, rolled back, failed, closed and opened again, in any order, with any
    answers of the control plane and of the file system, and with a power failure at any instant.  The
    theorems speak of the log of calls the control plane has seen and of what the disk keeps. *)
From S2P Require Import Prelude Bytes Crc32c LittleEndian ManifestFormat DurableFile UpgradePlan UpgradeManifest UpgradeCodec UpgradeStore UpgradeOrchestrator.

(** ** What a call is based on *)

(** The log, the latest call first. *)
Definition prepared (p : UpgradePlan) (l : list ControlCall) : Prop := CallPrepare p (Ok tt) ∈ l.
(** The target was proved ready, and right after that the drain was requested. *)
Definition drain_requested (p : UpgradePlan) (l : list ControlCall) : Prop :=
  exists l1 l2 proof, l = l1 ++ CallBeginDrain p (Ok tt) :: CallObserveTarget p (Ok proof) :: l2 /\
    ValidateTargetReadiness p proof = Ok tt /\ prepared p l2.
Definition drained (p : UpgradePlan) (l : list ControlCall) : Prop :=
  exists l1 l2 proof, l = l1 ++ CallObserveDrain p (Ok proof) :: l2 /\ complete proof = true /\ drain_requested p l2.
Definition cut_over (p : UpgradePlan) (l : list ControlCall) : Prop :=
  exists l1 l2, l = l1 ++ CallCutover p (Ok tt) :: l2 /\ drained p l2.
(** The observation a commit demands. *)
Definition target_only (p : UpgradePlan) (o : CutoverObservation) : Prop :=
  acknowledged_commit_token o = commit_token p /\ active_region o = target_region p /\ old_publisher_count o = 0 /\
  new_publisher_count o <> 0 /\ duplicate_count o = 0 /\ unexplained_loss_count o = 0 /\
  minimum_observation_samples p <= observed_samples o.
(** A cutover was requested, whatever the answer. *)
Definition cutover_requested (l : list ControlCall) : Prop := exists p r, CallCutover p r ∈ l.

(** What must precede a call. *)
Definition justified_by (c : ControlCall) (l : list ControlCall) : Prop :=
  match c with
  | CallBeginDrain p _ =>
      exists proof l', l = CallObserveTarget p (Ok proof) :: l' /\ ValidateTargetReadiness p proof = Ok tt /\ prepared p l'
  | CallObserveDrain p _ => drain_requested p l
  | CallCutover p _ => drained p l
  | CallObserveCutover p _ => cut_over p l
  | CallCommit p _ => exists o l', l = CallObserveCutover p (Ok o) :: l' /\ target_only p o /\ cut_over p l'
  | CallRollback p true _ => exists proof l', l = CallObserveRollbackSafety p (Ok proof) :: l' /\ safe_rollback proof = true
  | CallRollback p false _ => ~ cutover_requested l
  | CallPrepare _ _ | CallObserveTarget _ _ | CallObserveRollbackSafety _ _ => True
  end.
Fixpoint justified (l : list ControlCall) : Prop :=
  match l with [] => True | c :: l' => justified_by c l' /\ justified l' end.

(** What the log shows when the manifest is in a phase. *)
Definition evidence (p : UpgradePlan) (ph : UpgradePhase) (l : list ControlCall) : Prop :=
  match ph with
  | kValidate => prepared p l
  | kDrain => drain_requested p l
  | kCutover => drained p l
  | kObserve => cut_over p l
  | _ => True
  end.

Lemma evidence_cons p ph c l : evidence p ph l -> evidence p ph (c :: l).
Proof.
  destruct ph; cbn; try done.
  - intros H. by right.
  - intros (l1 & l2 & proof & -> & H). by exists (c :: l1), l2, proof.
  - intros (l1 & l2 & proof & -> & H). by exists (c :: l1), l2, proof.
  - intros (l1 & l2 & -> & H). by exists (c :: l1), l2.
Qed.

Lemma legal_not_pre from to : LegalTransition from to = true -> IsPreCutoverPhase from = false -> IsPreCutoverPhase to = false.
Proof. by destruct from, to. Qed.

(** ** The invariant *)

Section Story.
Context {P : Posix} {PL : PosixLaws P} {B : Crc32cBackend} {BL : Crc32cLaws B}.

Definition may_read (d : Disk) (c : option (list byte)) : Prop := survives d c \/ c = live_data d.

(** What the log says about a snapshot in the file or in the store. *)
Definition snapshot_ok (l : list ControlCall) (s : UpgradeSnapshot) : Prop :=
  upgrade_typed s /\ evidence (plan s) (phase s) l /\ (cutover_requested l -> IsPreCutoverPhase (phase s) = false).
Definition content_ok (l : list ControlCall) (c : option (list byte)) : Prop :=
  (c = None /\ ~ cutover_requested l) \/ exists s b, c = Some b /\ file_of s b /\ snapshot_ok l s.
Definition instant_ok (x : Session) : Prop :=
  justified (session_calls x) /\ forall c, may_read (session_disk x) c -> content_ok (session_calls x) c.
(** The file holds the snapshot of the store, now and after a crash. *)
Definition held (m : UpgradeManifestStore) (d : Disk) : Prop :=
  forall c, may_read d c -> exists b, c = Some b /\ file_of (snapshot_ m) b.
Definition store_ok (l : list ControlCall) (d : Disk) (m : UpgradeManifestStore) : Prop :=
  snapshot_ok l (snapshot_ m) /\ (poisoned_ m = false -> held m d).
Definition session_ok (x : Session) : Prop :=
  instant_ok x /\ forall m, session_store x = Some m -> store_ok (session_calls x) (session_disk x) m.

(** Every instant of the call keeps the invariant, and so does its end. *)
Definition op_triple {A} (Pre : Session -> Prop) (m : Op A) (Post : A -> Session -> Prop) : Prop :=
  forall x, session_ok x -> Pre x ->
  let '(t, x', r) := m x in
  Forall instant_ok t /\ session_ok x' /\ match r with Ok a => Post a x' | Err _ => True end.

Lemma op_triple_return {A} Pre (r : Result A) : op_triple Pre (op_return r) (fun a x => r = Ok a /\ Pre x).
Proof. intros x Hx Hp. split_and!; [constructor|done|]. by destruct r. Qed.

Lemma op_triple_bind {A C} Pre (m : Op A) Mid (k : A -> Op C) Post :
  op_triple Pre m Mid -> (forall a, op_triple (Mid a) (k a) Post) -> op_triple Pre (op_bind m k) Post.
Proof.
  intros Hm Hk x Hx Hp. specialize (Hm x Hx Hp). unfold op_bind. destruct (m x) as [[t x'] [a|e]]; destruct Hm as (H1 & H2 & H3); [|done].
  specialize (Hk a x' H2 H3). destruct (k a x') as [[t' x''] r]. destruct Hk as (K1 & K2 & K3).
  split_and!; [by apply list.Forall_app|done|done].
Qed.

Lemma op_triple_weaken {A} (Pre : Session -> Prop) (m : Op A) (Mid Post : A -> Session -> Prop) :
  op_triple Pre m Mid -> (forall a x, Mid a x -> Post a x) -> op_triple Pre m Post.
Proof.
  intros Hm Hi x Hx Hp. specialize (Hm x Hx Hp). destruct (m x) as [[t x'] [a|e]]; destruct Hm as (? & ? & ?); split_and!; auto.
Qed.

Lemma op_triple_stop {A} Pre (c : bool) s (m : Op A) Post :
  (c = false -> op_triple Pre m Post) -> op_triple Pre (if c then op_return (Err s) else m) Post.
Proof. destruct c; [|by intros H; apply H]. intros _ x Hx Hp. by split_and!; [constructor|..]. Qed.

(** The store and the log. *)
Definition at_ (m : UpgradeManifestStore) (l : list ControlCall) (x : Session) : Prop :=
  session_store x = Some m /\ session_calls x = l.

Lemma requested_cons c l : cutover_requested (c :: l) -> (exists p r, c = CallCutover p r) \/ cutover_requested l.
Proof. intros (p & r & [<-|H]%elem_of_cons); [left; by eauto | right; by exists p, r]. Qed.

Lemma snapshot_ok_cons c l s : snapshot_ok l s -> ((exists p r, c = CallCutover p r) -> IsPreCutoverPhase (phase s) = false) ->
  snapshot_ok (c :: l) s.
Proof.
  intros (H1 & H2 & H3) Hc. split_and!; [done | by apply evidence_cons |].
  intros [H|H]%requested_cons; [by apply Hc | by apply H3].
Qed.

(** Two snapshots in one file are in the same phase. *)
Lemma file_of_phase s s' b : file_of s b -> file_of s' b -> phase s = phase s'.
Proof.
  intros [T [o E]] [T' [o' E']]. apply EncodeUpgradeSnapshot_ok in E as (_ & Hb & _), E' as (_ & Hb' & _).
  assert (snapshot_payload s = snapshot_payload s') as Hp.
  { destruct (checksum_split (snapshot_payload s) _ (Crc32c_u32 (snapshot_payload s))) as [C _].
    destruct (checksum_split (snapshot_payload s') _ (Crc32c_u32 (snapshot_payload s'))) as [C' _].
    rewrite <- Hb in C. rewrite <- Hb' in C'. congruence. }
  unfold snapshot_payload, snapshot_fields in Hp. cbv zeta in Hp. do 2 apply app_inv_head in Hp.
  destruct (ut_phase _ T) as [V F], (ut_phase _ T') as [V' F'].
  apply (f_equal (UpgradeUint 1)) in Hp. rewrite !(fmt_read _ _ _ format_u8) in Hp by done. congruence.
Qed.

(** A call of the control plane is logged; a cutover is requested only when the file shows the intent. *)
Lemma control_call_ok {A} m l (record : Result A -> ControlCall) r :
  justified_by (record r) l ->
  ((exists p r', record r = CallCutover p r') -> poisoned_ m = false /\ IsPreCutoverPhase (phase (snapshot_ m)) = false) ->
  op_triple (at_ m l) (control_call record r) (fun a x => r = Ok a /\ at_ m (record r :: l) x).
Proof.
  intros Hj Hcut x [[Hlog Hdisk] Hst] [Hm Hl]. unfold control_call. cbv zeta. rewrite Hl in *. destruct (Hst m Hm) as [Hs Hheld].
  assert (session_ok (mkSession P (session_disk x) (record r :: l) (session_store x))) as Hok.
  { split; [split; [done|]|]; cbn [session_calls session_disk session_store].
    - intros c Hc. destruct (Hdisk c Hc) as [[-> Hno]|(s & b & -> & Hf & Hsnap)].
      + left. split; [done|]. intros [H|H]%requested_cons; [|done].
        destruct (Hcut H) as [Hp _]. destruct (Hheld Hp None Hc) as (b & ? & _). done.
      + right. exists s, b. split_and!; [done|done|]. apply snapshot_ok_cons; [done|]. intros H. destruct (Hcut H) as [Hp Hpre].
        destruct (Hheld Hp (Some b) Hc) as (b' & [= <-] & Hf'). by rewrite (file_of_phase _ _ _ Hf Hf').
    - intros m' Hm'. assert (m' = m) as -> by congruence. split; [|done]. apply snapshot_ok_cons; [done|]. intros H. by apply Hcut. }
  split_and!; [constructor; [apply Hok|constructor] | done |]. destruct r; [|done]. done.
Qed.

(** Everything the disk may show is accounted for. *)
Definition contents_ok (l : list ControlCall) (d : Disk) : Prop := forall c, may_read d c -> content_ok l c.

Lemma written_contents l d next b x :
  contents_ok l d -> file_of next b -> snapshot_ok l next -> old_or_new d b x -> contents_ok l x.
Proof.
  intros Hd Hf Hn [H1 H2] c [Hc| ->].
  - destruct (H2 c Hc) as [Ho| ->]; [by apply Hd; left | right; by exists next, b].
  - destruct H1 as [->| ->]; [by apply Hd; right | right; by exists next, b].
Qed.

Lemma untouched_contents l d d' : contents_ok l d -> live_untouched d d' -> contents_ok l d'.
Proof. intros Hd (H1 & _ & H2) c [Hc| ->]; apply Hd; [left; by apply H2 | right; by rewrite H1]. Qed.

Lemma persisted_contents l m next d t d' m' r :
  persisted m next d t d' m' r -> snapshot_ok l next -> contents_ok l d -> Forall (contents_ok l) t /\ contents_ok l d'.
Proof.
  intros Hp Hn Hd.
  assert (forall b x, file_of next b -> old_or_new d b x -> contents_ok l x) as Hw by (intros; by eapply written_contents).
  destruct Hp as [e|b t d' e _ Hf Ht Hu|b t d' e _ Hf Ht (_ & _ & _ & Hu)|b t d' _ _ Hf Ht (Hu & _ & Hs)].
  - by split.
  - split; [eapply List.Forall_impl; [|exact Ht]; eauto | by eapply untouched_contents].
  - split; [eapply List.Forall_impl; [|exact Ht]; eauto | by eapply Hw].
  - split; [eapply List.Forall_impl; [|exact Ht]; eauto |]. intros c Hc. right. exists next, b. split_and!; [|done|done].
    destruct Hc as [Hc| ->]; [by apply Hs | done].
Qed.

Lemma persisted_store l m next d t d' m' r :
  persisted m next d t d' m' r -> snapshot_ok l next -> (r = Ok tt \/ store_ok l d m) -> store_ok l d' m'.
Proof.
  intros Hp Hn Hm. destruct Hp as [e|b t d' e _ Hf Ht (U1 & _ & U2)|b t d' e _ Hf Ht _|b t d' _ _ Hf Ht (Hu & _ & Hs)].
  - by destruct Hm.
  - destruct Hm as [|[H1 H2]]; [done|]. split; [done|]. intros Hq c Hc. apply (H2 Hq).
    destruct Hc as [Hc| ->]; [left; by apply U2 | right; by rewrite U1].
  - destruct Hm as [|[H1 _]]; [done|]. by split.
  - split; [done|]. intros _ c Hc. exists b. split; [|done]. destruct Hc as [Hc| ->]; [by apply Hs | done].
Qed.

(** A transition of the store whose target phase the log supports. *)
Lemma store_call_ok m l next (f : StoreM) :
  (forall d t d' m' r, upgrade_typed (snapshot_ m) -> f d = (t, d', (m', r)) -> moved m next d t d' m' r) ->
  evidence (plan (snapshot_ m)) next l -> op_triple (at_ m l) (store_call m f) (fun _ _ => True).
Proof.
  intros Hf He x [[Hj Hd] Hst] [Hm Hl]. unfold store_call. destruct (f (session_disk x)) as [[t d'] [m' r]] eqn:E.
  pose proof (Hst m Hm) as Hs. pose proof Hs as [(Ht & Hev & Hq) _].
  rewrite Hl in *. destruct (Hf _ _ _ _ _ Ht E) as [(-> & -> & -> & e & ->)|(now & detail & reason & Hlegal & Hty & Hp)].
  - split_and!; [constructor | | done]. split; [by split|]. cbn. intros m' [= <-]. done.
  - assert (snapshot_ok l (next_snapshot (snapshot_ m) next now detail reason)) as Hn.
    { split_and!; [done | done |]. intros Hc. eapply legal_not_pre; [exact Hlegal | by apply Hq]. }
    destruct (persisted_contents _ _ _ _ _ _ _ _ Hp Hn Hd) as [T1 T2].
    pose proof (persisted_store _ _ _ _ _ _ _ _ Hp Hn (or_intror Hs)) as T3. split_and!; [|..|by destruct r].
    + apply List.Forall_map. eapply List.Forall_impl; [|exact T1]. intros y Hy. by split.
    + split; [by split|]. cbn. by intros m0 [= <-].
Qed.

(** ** The calls of the orchestrator *)

Lemma advance_ok m l next now detail a : is_u64 now -> evidence (plan (snapshot_ m)) next l ->
  op_triple (at_ m l) (store_call m (Advance m next now detail a)) (fun _ _ => True).
Proof. intros Hn. apply store_call_ok. intros d t d' m' r Ht. by apply Advance_moved. Qed.

(** A rule that is checked between two calls. *)
Lemma op_triple_check {A} m l (r : Result unit) (k : Op A) Post :
  (r = Ok tt -> op_triple (at_ m l) k Post) -> op_triple (at_ m l) (op_bind (op_return r) (fun _ => k)) Post.
Proof.
  intros Hk x Hx Hp. unfold op_bind, op_return. destruct r as [[]|]; [|by split_and!; [constructor|..]].
  specialize (Hk eq_refl x Hx Hp). destruct (k x) as [[t x'] r]. done.
Qed.

(** A call of the control plane and what follows its answer. *)
Lemma op_triple_control {A C} m l (record : Result A -> ControlCall) r (k : A -> Op C) Post :
  justified_by (record r) l ->
  ((exists p r', record r = CallCutover p r') -> poisoned_ m = false /\ IsPreCutoverPhase (phase (snapshot_ m)) = false) ->
  (forall a, r = Ok a -> op_triple (at_ m (record r :: l)) (k a) Post) ->
  op_triple (at_ m l) (op_bind (control_call record r) k) Post.
Proof.
  intros Hj Hc Hk. eapply op_triple_bind; [by apply control_call_ok|]. intros a x Hx [Hr Hp]. by apply (Hk a Hr).
Qed.

(** A call that is not a request for a cutover. *)
Ltac ask_control := apply op_triple_control; [cbn [justified_by] | by intros (? & ? & ?) |].

Lemma ObserveAndCommit_ok m l now a : is_u64 now -> cut_over (plan (snapshot_ m)) l ->
  op_triple (at_ m l) (ObserveAndCommit m now a) (fun _ _ => True).
Proof.
  intros Hn He. unfold ObserveAndCommit. cbv zeta. ask_control; [done|]. intros o Ho. rewrite Ho.
  do 4 (apply op_triple_stop; intros ?). bool_to_prop.
  ask_control.
  - exists o, l. split_and!; [done | | done]. by split_and!.
  - intros _ _. by apply advance_ok.
Qed.

Lemma step_phase_ok m l now a : is_u64 now -> poisoned_ m = false ->
  evidence (plan (snapshot_ m)) (phase (snapshot_ m)) l -> op_triple (at_ m l) (step_phase m now a) (fun _ _ => True).
Proof.
  intros Hn Hp He. unfold step_phase. cbv zeta. destruct (phase (snapshot_ m)) eqn:Ep; cbn [evidence] in He.
  - apply op_triple_check. intros _. ask_control; [done|]. intros [] Ha. apply advance_ok; [done|]. rewrite Ha. left.
  - ask_control; [done|]. intros proof Ha. apply op_triple_check. intros Hv. rewrite Ha. ask_control; [by exists proof, l|].
    intros [] Hb. apply advance_ok; [done|]. rewrite Hb. by exists [], l, proof.
  - ask_control; [done|]. intros proof Ha. apply op_triple_stop. intros Hc%negb_false_iff. apply advance_ok; [done|].
    rewrite Ha. by exists [], l, proof.
  - apply op_triple_control; [done | by rewrite Ep |]. intros [] Ha. apply advance_ok; [done|]. rewrite Ha. by exists [], l.
  - by apply ObserveAndCommit_ok.
  - eapply op_triple_weaken; [apply op_triple_return|]. done.
  - eapply op_triple_weaken; [apply op_triple_return|]. done.
  - eapply op_triple_weaken; [apply op_triple_return|]. done.
  - eapply op_triple_weaken; [apply op_triple_return|]. done.
Qed.

(** A call keeps the invariant. *)
Definition op_ok {A} (m : Op A) : Prop := op_triple (fun _ => True) m (fun _ _ => True).

Lemma op_ok_return {A} (r : Result A) : op_ok (op_return r).
Proof. eapply op_triple_weaken; [apply op_triple_return|]. done. Qed.

Lemma Step_ok control now a : is_u64 now -> op_ok (Step control now a).
Proof.
  intros Hn x Hx _. unfold Step. destruct (session_store x) as [m|] eqn:Em; [|by apply op_ok_return].
  destruct (proj2 Hx m Em) as [(_ & He & _) _].
  apply (op_triple_stop (at_ m (session_calls x))); [|done|done]. intros _. apply op_triple_stop. intros Hp. by apply step_phase_ok.
Qed.

Lemma execute_steps_ok control now answers remaining : is_u64 now ->
  forall step, op_ok (execute_steps control now answers step remaining).
Proof.
  intros Hn. induction remaining as [|remaining IH]; intros step x Hx _; cbn [execute_steps];
    destruct (at_terminal x); try by apply op_ok_return.
  apply (op_triple_bind (fun _ => True) _ (fun _ _ => True)); [by apply Step_ok | by intros _; apply IH | done | done].
Qed.

Lemma Rollback_ok control now a : is_u64 now -> op_ok (Rollback control now a).
Proof.
  intros Hn x Hx _. unfold Rollback. destruct (session_store x) as [m|] eqn:Em; [|by apply op_ok_return].
  destruct (proj2 Hx m Em) as [(_ & _ & Hq) _]. set (l := session_calls x) in *. cbv zeta.
  apply (op_triple_stop (at_ m l)); [|done|done]. intros _. apply op_triple_stop. intros _.
  destruct (IsPreCutoverPhase (phase (snapshot_ m))) eqn:Epre; cbn [negb].
  - apply op_triple_check. intros _. ask_control; [by intros H%Hq|]. intros [] _. by apply advance_ok.
  - eapply (op_triple_bind _ _ (fun _ y => exists proof, safe_rollback proof = true /\
      at_ m (CallObserveRollbackSafety (plan (snapshot_ m)) (Ok proof) :: l) y)).
    + ask_control; [done|]. intros proof Ha. rewrite Ha. apply op_triple_stop. intros Hs%negb_false_iff.
      eapply op_triple_weaken; [apply op_triple_return|]. intros _ y [_ Hy]. by exists proof.
    + intros _ y Hy (proof & Hs & Hat). revert y Hy Hat.
      change (op_triple (at_ m (CallObserveRollbackSafety (plan (snapshot_ m)) (Ok proof) :: l))
        (op_bind (control_call (CallRollback (plan (snapshot_ m)) true) (rollback_answer a)) (fun _ : unit =>
          store_call m (Advance m kRollback now "explicit safe post-cutover rollback completed" (rollback_write a)))) (fun _ _ => True)).
      ask_control; [by exists proof, l|]. intros [] _. by apply advance_ok.
Qed.

Lemma Fail_ok now reason a : is_u64 now -> op_ok (Fail now reason a).
Proof.
  intros Hn x Hx _. unfold Fail. destruct (session_store x) as [m|] eqn:Em; [|by apply op_ok_return].
  apply (store_call_ok m (session_calls x) kFail); [|done|done|done]. intros d t d' m' r Ht. by apply Fail_moved.
Qed.

(** ** Histories *)

(** What is read now is all that a power failure can leave. *)
Definition settled (d : Disk) : Prop := forall c, survives d c -> c = live_data d.
(** A power failure leaves one of the contents that survive. *)
Definition after_power_failure (d d' : Disk) : Prop := survives d (live_data d') /\ settled d'.

Definition on_disk (x : Session) (d : Disk) : Session := mkSession P d (session_calls x) None.

(** What happens to an upgrade, with the states on the way and the last one.  The manifest is opened when its content
    is durable, as after a power failure or after a write that succeeded. *)
Inductive event (x : Session) : list Session -> Session -> Prop :=
| event_create path p now o a t d' r : session_store x = None -> plan_typed p -> is_u64 now ->
    Create path p now o a (session_disk x) = (t, d', r) ->
    event x (on_disk x <$> t) (mkSession P d' (session_calls x) (match r with Ok m => Some m | Err _ => None end))
| event_open path o a m : session_store x = None -> settled (session_disk x) -> Open path o a (session_disk x) = Ok m ->
    event x [] (mkSession P (session_disk x) (session_calls x) (Some m))
| event_close : event x [] (on_disk x (session_disk x))
| event_step control now a t x' r : is_u64 now -> Step control now a x = (t, x', r) -> event x t x'
| event_execute control now max_steps answers t x' r : is_u64 now ->
    Execute control now max_steps answers x = (t, x', r) -> event x t x'
| event_rollback control now a t x' r : is_u64 now -> Rollback control now a x = (t, x', r) -> event x t x'
| event_fail now reason a t x' r : is_u64 now -> Fail now reason a x = (t, x', r) -> event x t x'.

(** From a path without a manifest, by events and power failures in the middle of events. *)
Inductive upgrade_run : Session -> Prop :=
| run_start d : live_data d = None -> settled d -> upgrade_run (mkSession P d [] None)
| run_event x t x' : upgrade_run x -> event x t x' -> upgrade_run x'
| run_power_failure x t x' y d : upgrade_run x -> event x t x' -> y ∈ x' :: t -> after_power_failure (session_disk y) d ->
    upgrade_run (on_disk y d).

Lemma op_ok_event {A} (m : Op A) x t x' r : op_ok m -> session_ok x -> m x = (t, x', r) -> Forall instant_ok t /\ session_ok x'.
Proof. intros Hm Hx E. specialize (Hm x Hx I). rewrite E in Hm. by destruct Hm as (? & ? & _). Qed.

Lemma closed_ok l d : justified l -> contents_ok l d -> session_ok (mkSession P d l None).
Proof. intros Hj Hd. split; [by split|done]. Qed.

Lemma event_ok x t x' : session_ok x -> event x t x' -> Forall instant_ok t /\ session_ok x'.
Proof.
  intros Hx He. pose proof Hx as [[Hj Hd] Hst].
  destruct He as [path p now o a t d' r Hs Hp Hn E|path o a m Hs Hset E| |control now a t x' r Hn E
    |control now max_steps answers t x' r Hn E|control now a t x' r Hn E|now reason a t x' r Hn E].
  - apply Create_persisted in E as [(-> & -> & e & ->)|(Hlive & m' & r' & Hpers & ->)]; [| |done|done].
    { split; [constructor|]. by apply closed_ok. }
    assert (snapshot_ok (session_calls x) (first_snapshot p now)) as Hn'.
    { split_and!; [by apply first_typed | done |]. intros Hc.
      destruct (Hd None (or_intror (eq_sym Hlive))) as [[_ Hno]|(s & b & ? & _)]; [by destruct Hno | done]. }
    destruct (persisted_contents _ _ _ _ _ _ _ _ Hpers Hn' Hd) as [T1 T2]. split.
    + apply List.Forall_map. eapply List.Forall_impl; [|exact T1]. intros y Hy. by split.
    + split; [by split|]. intros m Hm. destruct r' as [[]|]; [|done]. injection Hm as <-.
      eapply persisted_store; [exact Hpers | done | by left].
  - split; [constructor|]. apply Open_reads in E as [-> (b & Hb & Hdec)]. split; [by split|]. cbn. intros m' [= <-].
    destruct (Hd (Some b) (or_intror (eq_sym Hb))) as [[? _]|(s & b' & [= <-] & Hf & Hsn)]; [done|].
    destruct (file_of_decodes _ _ _ _ Hf Hdec) as [E _]. unfold store_ok, held. cbn [snapshot_ poisoned_] in E |- *. rewrite E.
    split; [done|]. intros _ c Hc. exists b. split; [|done].
    rewrite <- Hb. destruct Hc as [Hc|Hc]; [by apply Hset | done].
  - split; [constructor|]. by apply closed_ok.
  - eapply op_ok_event; [by apply Step_ok | done | exact E].
  - eapply op_ok_event; [| done | exact E]. unfold Execute. apply op_triple_stop. intros _. by apply execute_steps_ok.
  - eapply op_ok_event; [by apply Rollback_ok | done | exact E].
  - eapply op_ok_event; [by apply Fail_ok | done | exact E].
Qed.

Lemma upgrade_run_ok x : upgrade_run x -> session_ok x.
Proof.
  induction 1 as [d Hd Hs|x t x' _ IH He|x t x' y d _ IH He Hy [Hl Hs]].
  - apply closed_ok; [done|]. intros c Hc. left. split; [|by intros (p & r & []%not_elem_of_nil)].
    destruct Hc as [Hc| ->]; [rewrite (Hs c Hc)|]; done.
  - by apply (event_ok x t x' IH He).
  - destruct (event_ok x t x' IH He) as [Ht Hx']. assert (instant_ok y) as [Hj Hd].
    { apply elem_of_cons in Hy as [->|Hy]; [apply Hx'|]. rewrite Forall_elem in Ht. by apply Ht. }
    apply closed_ok; [done|]. intros c Hc. apply Hd. left. destruct Hc as [Hc| ->]; [by rewrite (Hs c Hc)|done].
Qed.
End Story.

(** C40: a cutover follows a complete drain and is never forgotten.  At every instant of every
    history of an upgrade (creation, steps, executions, rollbacks, failures, closing and opening
    on durable content, with any answers of the control plane and of the file system, and power failures in
    the middle of any of them) every call the control plane has seen is based on what it needs:
    a drain is begun right after the target was proved ready and its preparation acknowledged, a cutover is requested
    only after a complete drain proof, a commit only on an observation of an exclusively active target
    without duplicates or loss, a rollback after a cutover request only with a safety proof.
    Whatever file a power failure leaves holds a snapshot whose phase the log supports, and once a
    cutover was requested the file is there and is past the drain. *)
Theorem cutover_only_after_drain (P : Posix) (PL : PosixLaws P) (B : Crc32cBackend) (BL : Crc32cLaws B)
    (x x' y : Session) (t : list Session) :
  upgrade_run x -> event x t x' -> y ∈ x' :: t ->
  justified (session_calls y) /\
  forall c, survives (session_disk y) c \/ c = live_data (session_disk y) ->
    c = None /\ ~ cutover_requested (session_calls y) \/
    exists s b, c = Some b /\ file_of s b /\ evidence (plan s) (phase s) (session_calls y) /\
      (cutover_requested (session_calls y) -> IsPreCutoverPhase (phase s) = false).
Proof.
  intros Hx He Hy. destruct (event_ok x t x' (upgrade_run_ok x Hx) He) as [Ht Hx'].
  assert (instant_ok y) as [Hj Hd].
  { apply elem_of_cons in Hy as [->|Hy]; [apply Hx'|]. rewrite Forall_elem in Ht. by apply Ht. }
  split; [done|]. intros c Hc. destruct (Hd c Hc) as [?|(s & b & -> & Hf & _ & H1 & H2)]; [by left|].
  right. by exists s, b.
Qed.

(** ** Concrete upgrades *)

Definition sample_schema : SchemaIdentity := mkSchemaIdentity 5 (Byte.x01 :: replicate 31 Byte.x00) 1 1.
Definition sample_binding (region : Z) : TopicBinding :=
  mkBinding 7 "orders" 1 region 1 1 sample_schema [mkAclEntry 3 2 1].
Definition sample_upgrade_plan : UpgradePlan :=
  mkUpgradePlan "upgrade-1" "0123456789abcdef" (mkRegion "old" 1 1 0 1 2) (mkRegion "new" 2 2 0 1 2)
    [mkTopicUpgrade (sample_binding 1) (sample_binding 2)] 100 1 1 10.
Definition sample_ready : TargetReadinessProof :=
  mkReadiness (mkRegion "new" 2 2 0 1 2) [sample_binding 2] true true true true true true true 100 1 1.
Definition sample_drained : DrainProof := mkDrain true 0 0 0 0 0 0 9 9.
Definition sample_observation : CutoverObservation :=
  mkObservation "0123456789abcdef" (mkRegion "new" 2 2 0 1 2) 0 1 10 0 0.
Definition smooth_step : StepAnswers :=
  mkStepAnswers (Ok tt) (Ok sample_ready) (Ok tt) (Ok sample_drained) (Ok tt) (Ok sample_observation) (Ok tt) smooth_atomic_write.
Definition upgrade_posix : Posix := ConcreteDisk.posix (fun _ => "dir").
Definition no_manifest : @Session upgrade_posix := mkSession upgrade_posix (ConcreteDisk.mkState None [] None) [] None.

Definition created_upgrade : @Session upgrade_posix :=
  let '(_, d, r) := @Create upgrade_posix software_backend "dir/upgrade" sample_upgrade_plan 1 default_upgrade_options smooth_create
    (session_disk no_manifest) in
  mkSession upgrade_posix d [] (match r with Ok m => Some m | Err _ => None end).

Lemma sample_plan_typed : plan_typed sample_upgrade_plan.
Proof. split; cbn; repeat constructor; cbn; try done; lia. Qed.

Lemma created_upgrade_run : @upgrade_run upgrade_posix software_backend created_upgrade.
Proof.
  assert (upgrade_run no_manifest) as Hs
    by (constructor; [done | intros c (f & ->%list_elem_of_singleton & Hf); by apply Hf]).
  unfold created_upgrade. destruct (Create _ _ _ _ _ _) as [[t d] r] eqn:E.
  refine (run_event _ _ _ Hs (event_create no_manifest _ _ _ _ _ _ _ _ eq_refl sample_plan_typed _ E)). by split.
Qed.

(** An execution whose proofs are all given commits in five steps. *)
Definition executed_upgrade : list (@Session upgrade_posix) * @Session upgrade_posix * Result unit :=
  @Execute upgrade_posix software_backend true 2 8 (fun _ => smooth_step) created_upgrade.

Lemma cutover_only_after_drain_witness :
  executed_upgrade.2 = Ok tt /\ cutover_requested (session_calls executed_upgrade.1.2) /\
  justified (session_calls executed_upgrade.1.2) /\
  exists s b, live_data (session_disk executed_upgrade.1.2) = Some b /\ @file_of software_backend s b /\
    IsPreCutoverPhase (phase s) = false.
Proof.
  split; [vm_compute; reflexivity|].
  assert (cutover_requested (session_calls executed_upgrade.1.2)) as Hc
    by (exists sample_upgrade_plan, (Ok tt); vm_compute; do 2 apply list_elem_of_further; apply list_elem_of_here).
  split; [exact Hc|].
  destruct (cutover_only_after_drain upgrade_posix (ConcreteDisk.posix_laws _) software_backend software_laws
    created_upgrade executed_upgrade.1.2 executed_upgrade.1.2 executed_upgrade.1.1 created_upgrade_run) as [Hj Hd].
  - refine (event_execute created_upgrade true 2 8 (fun _ => smooth_step) _ _ executed_upgrade.2 _ _); [unfold is_u64; lia|].
    unfold executed_upgrade. destruct (Execute _ _ _ _ _) as [[t x'] r]. reflexivity.
  - left.
  - split; [exact Hj|]. destruct (Hd (live_data (session_disk executed_upgrade.1.2)) (or_intror eq_refl)) as [[_ Hno]|(s & b & Hb & Hf & _ & Hp)].
    + destruct (Hno Hc).
    + exists s, b. split; [exact Hb|]. split; [exact Hf|exact (Hp Hc)].
Defined.

(** [Open] does not synchronise the directory.  The process stops between the rename that records the intent to cut
    over and the synchronisation of the directory; the manifest is opened again and the next step requests the
    cutover; after a power failure the manifest is in the drain phase, and an upgrade whose cutover was
    requested is rolled back as if it had not been. *)
Definition interrupted_write : AtomicWriteAnswers :=
  mkAtomicWrite None [] EOTHER None [] None None None []
    (fun point => match point with kAfterAtomicRename => Err (Internal "stopped") | _ => Ok tt end).
Definition interrupted_step : StepAnswers :=
  mkStepAnswers (Ok tt) (Ok sample_ready) (Ok tt) (Ok sample_drained) (Ok tt) (Ok sample_observation) (Ok tt) interrupted_write.
Definition after_call {A} (r : list (@Session upgrade_posix) * @Session upgrade_posix * Result A) : @Session upgrade_posix := r.1.2.
Definition intent_unsettled : @Session upgrade_posix :=
  after_call (@Execute upgrade_posix software_backend true 2 3 (fun n => if (n =? 2)%nat then interrupted_step else smooth_step) created_upgrade).
Definition reopened (x : @Session upgrade_posix) : @Session upgrade_posix :=
  mkSession upgrade_posix (session_disk x) (session_calls x)
    (match @Open upgrade_posix software_backend "dir/upgrade" default_upgrade_options smooth_open (session_disk x) with
     | Ok m => Some m | Err _ => None end).
Definition cut_unsettled : @Session upgrade_posix :=
  after_call (@Step upgrade_posix software_backend true 3 smooth_step (reopened intent_unsettled)).
(** The disk at the moment the cutover was requested, after a power failure. *)
Definition drain_again : @Session upgrade_posix :=
  reopened (mkSession upgrade_posix
    (ConcreteDisk.mkState (default None (head (ConcreteDisk.older (session_disk intent_unsettled)))) [] None)
    (firstn 1 (session_calls cut_unsettled) ++ session_calls intent_unsettled) None).

Theorem reopened_cutover_intent_lost :
  survives (session_disk intent_unsettled) (live_data (session_disk drain_again)) /\
  cutover_requested (session_calls drain_again) /\
  phase ∘ snapshot_ <$> session_store drain_again = Some kDrain /\
  head (session_calls (after_call (@Rollback upgrade_posix software_backend true 4
    (mkRollbackAnswers (Err (Internal "")) (Ok tt) smooth_atomic_write) drain_again)))
  = Some (CallRollback sample_upgrade_plan false (Ok tt)).
Proof.
  split; [eexists; split; [apply list_elem_of_further, list_elem_of_here|]; by intros _; vm_compute|].
  split; [exists sample_upgrade_plan, (Ok tt); vm_compute; apply list_elem_of_here|].
  split; vm_compute; reflexivity.
Qed.
